(* ===== verification/_CoqProject ===== *)
-Q . S2P
Prelude.v
StdSlice.v
StdText.v
Timestamp.v
Count.v
OsmId.v
ReorderBuffer.v
WritePipe.v
WritePipeSpec.v
ElementKind.v
CoordPack.v
BlobMeta.v
TagIndex.v
BlobFilter.v
TagExpr.v
Tally.v
IdSetChunk.v
IdSet.v
IdSetRank.v
Proto.v
Wire.v
WireBlock.v
StringTable.v
Encode.v
Dense.v
Content.v
DiffJoin.v
PackedCount.v
Utf8.v
Float64.v
Codec.v
BlobWire.v
BlobDecode.v
Framing.v
Header.v
HeaderSpec.v
FrameSpec.v
FrameSource.v
FrameWalk.v
FrameConform.v
FrameFile.v
Block.v
BlobScan.v
BlockWalk.v
BlockValid.v
BlockBuilder.v
BuilderSpec.v
BlockRoundtrip.v
PbfWriter.v
WriterSpec.v
WriterSamples.v
ScanSpec.v
ScanBlock.v
BlockAccepted.v
OscInterner.v
VersionFloor.v
OscArena.v
OscOverlay.v
OscXml.v
OscLex.v
OscDoc.v
OscCompact.v
OscRead.v
Simplify.v
SortedDiff.v
DiffPair.v
DiffMerge.v
DiffUnits.v
DiffPlan.v
DiffRun.v
DiffStream.v
DiffAgree.v
DiffSound.v
DiffText.v
ApplyRewrite.v
ApplyDrain.v
ApplySchedule.v
ApplyItems.v
ApplyMerge.v
ApplyDocument.v
