(* ===== verification/Prelude.v ===== *)
(** * A verification development for pbfhogg

    pbfhogg reads, filters, rewrites and writes OpenStreetMap PBF files.  A file
    is a sequence of frames; a frame holds a blob, possibly compressed; a blob
    holds a block: a string table and groups of nodes, ways or relations.  The
    parts that carry the program's own logic are modelled here from the Rust
    sources under src/src/:

    - the block codec: the parsers and iterators that read a block
      (read/wire.rs, read/dense.rs, read/elements.rs, read/block.rs) and the
      builder that writes one (write/block_builder.rs, write/encode.rs,
      write/string_table.rs);
    - the file codec: framing and compression (write/framing.rs), the walk
      over a file's frames from any kind of source (read/frame.rs,
      read/header_walker.rs), blob envelopes and decompression
      (read/blob_wire.rs, read/decompress.rs);
    - the writer: the synchronous [PbfWriter] and the pipelined one with its
      framing jobs, permits, delivery window and writer thread
      (write/writer.rs, write/pipeline.rs), and the session that decides
      whether an output may be published (output.rs);
    - the header block of a file, its builder and the policy by which a command
      derives the header of its output (write/header_builder.rs,
      commands/output_header.rs);
    - blob metadata, which lets a command skip blobs without decoding them: the
      scanner that fills it, the index and tag index, the filters that read
      them, and the walks that check a claim against the elements (blob_meta/,
      element_kind.rs, osm_id.rs, coord_pack.rs, tag_expr.rs);
    - change files: the XML driver, its batches, the overlay of the last change
      to each element (osc/), and the commands on top: apply-changes, diff and
      merge-changes --simplify (commands/);
    - the containers shared between threads and passes: the id set with its
      rank index (idset.rs) and the reorder buffer (reorder_buffer.rs).

    ** Conventions

    A w-bit integer is a [Z] with its casts and wrap-around written out
    ([as_u], [as_s], [wsub], [wadd]); a byte is a [Z] in [0, 256) and a byte
    string a list of them.  Rust's [Result] is [result].  A panic is [None] of an
    [option] (or a constructor of the error type where the function is fallible),
    so a theorem that a model returns [Some] or [Ok] also says there is no panic.
    A value behind [&mut] is passed and returned.  A drained iterator is the list
    it yields.  Formatted error texts are constructors with the values they
    print.  Scratch buffers are kept as state where their content can reach an
    output (framing, decompression, staging); capacities that only reserve
    memory have no counterpart.

    Code outside the repository is a class of operations with a class of laws,
    the documented behaviour the sources rely on, and an instance that satisfies
    them: the protobuf primitives ([Protohoggr], [RefProto]), the hash index of
    the string table ([HashIndex], [RefHash]), zlib and zstd ([Codec], whose
    instance stores), the allocator, byte sources ([FrameSource]) and the sinks
    of the writers ([OutputSink]).  The events of the external XML tokenizer are
    the input of the change-file reader.

    Fuel.  A loop over bytes runs on the number of bytes left, each turn reading
    a tag or a varint at least ([parse_enough_fuel], [messages_fields],
    [dense_drain_spec], [kv_scan_spec]); inflation on the input length plus the
    budget, each turn consuming or producing a byte; a walk over frames on the
    number of frames, or the file length, plus one; merges on the elements of
    both sides.  Theorems state that the fuel given is enough, or quantify over
    every fuel above a bound that exists.  Concurrent parts are step relations
    ([WritePipe.moves], the schedules of [ApplySchedule]); the pipelined writer
    terminates by a measure on its state ([WritePipeSpec.work]).

    ** The files

    - [Prelude]: results, machine integers, little-endian bytes, slices, the
      hint databases and tactics the rest uses.  [StdSlice], [StdText], [Count]
      and [Utf8] model what the sources use of the standard library
      (searches, integers as text, ordered maps, population counts, UTF-8) with
      their laws; [Timestamp] is the UTC text of commands/mod.rs.
    - [OsmId] (osm_id.rs): the canonical id order and the order watermark.
      [ReorderBuffer] (reorder_buffer.rs): the window of pending items, with the
      abstract buffer it refines.  [ElementKind], [CoordPack]
      (element_kind.rs, owned.rs, coord_pack.rs).
    - [BlobMeta], [TagIndex], [BlobFilter], [Tally] (blob_meta/): the blob index
      and its wire versions, the tag key index, blob filters and claim walks.
      [BlobScan] (blob_meta/scan.rs) is the one-pass block scanner; [ScanSpec]
      and [ScanBlock] relate it to the reader.  [TagExpr] (tag_expr.rs,
      commands/tags_filter/): expressions, matching and the blob prescreen.
    - [IdSetChunk], [IdSet], [IdSetRank] (idset.rs): chunks, directory, atomic
      setters, the frozen set with its two-level rank index.
    - [Proto], [Wire], [WireBlock] (read/wire.rs): primitives, message parsers as
      one step per field over a shared field loop, inlined tables, group
      iterators.  [StringTable], [Encode], [Dense], [PackedCount]: the string
      table, the element encoders with their readers, the dense iterators and
      the counting of packed arrays.
    - [Block], [BlockWalk], [BlockValid] (read/block.rs): validation and
      construction, iteration over a validated block, the projections.  [BlockBuilder], [BuilderSpec], [BlockRoundtrip], [BlockAccepted]
      (write/block_builder.rs): the builder, its invariant against the list of
      added elements, and the builder against the reader.
    - [Codec], [BlobWire], [BlobDecode] (read/blob_wire.rs, read/decompress.rs):
      compression as an interface, envelopes, decompression and its pool.
      [Framing], [FrameSpec] (write/framing.rs), [FrameSource], [FrameWalk]
      (read/frame.rs, read/header_walker.rs), [FrameConform], [FrameFile]: frames
      written, frames walked, and the two composed.
    - [Float64], [Header], [HeaderSpec] (read/block.rs, write/header_builder.rs,
      commands/output_header.rs, commands/mod.rs): degrees as IEEE 754 doubles
      on the Standard Library's [SpecFloat], the header block read and written,
      the output-header policy with its overrides.
    - [WritePipe], [WritePipeSpec] (write/pipeline.rs and the pipelined half of
      write/writer.rs): the step relation of producer, jobs
      and writer thread, its invariant, its theorems.  [PbfWriter]
      (write/writer.rs): header fields, the framing job, every operation of the
      synchronous writer.  [WriterSpec] composes writer, pipeline, framing and
      reader; [WriterSamples] runs them over a memory sink.
    - [OscXml], [OscLex], [OscDoc] (osc/xml_parse.rs): the driver, recorded
      batches and replay, the documents it accepts.  [OscInterner], [OscArena],
      [OscCompact], [VersionFloor], [OscOverlay], [SortedDiff] (osc/interner.rs,
      compact.rs, version_floor.rs, parse.rs, sorted.rs): strings, records, the
      staging sink, the version gate, the overlay and its sorted tables.
      [OscRead] composes them.  [Simplify]
      (commands/merge_changes/simplify.rs): the other consumer, and that both
      treat a document alike.
    - [Content] (content.rs), [DiffJoin], [DiffPair], [DiffStream]
      (osc/merge_join.rs), [DiffUnits] (commands/diff/units.rs), [DiffText]
      (commands/diff/mod.rs): element content, the block-pair and streaming
      merges, the cutting into units, the text lines; [DiffMerge], [DiffPlan],
      [DiffRun], [DiffAgree], [DiffSound] hold their proofs.
    - [ApplyRewrite], [ApplyDrain], [ApplySchedule], [ApplyItems], [ApplyMerge],
      [ApplyDocument] (commands/apply_changes/): classification and rewrite of
      blobs, the ordered drain, its independence of the schedule, and the
      composition from a change document to the merged file.

    ** What the theorems show

    - Blocks (C8, C15, C16, C17, C33, C37, C38): a block taken from the
      builder is accepted by the reader and its groups decode to the added
      elements in order; a refused or lost element blocks every later
      block; a validated block is walked to its end without an error, its
      strings are UTF-8, and every parser returns on every input.
    - Files (C6, C12, C23, C24, C25, C36, C40): what is framed reads back
      as the same blobs through any source; reading whole frames and
      skipping over payloads see the same frames and the same error on any
      bytes; a cut file, or one indexed only in part, is refused where it
      goes wrong; the decoders of a blob agree; inflation and the buffer
      pool stay within their limits.
    - Writing (C4, C5, C10, C18, C19, C22): in every interleaving, what a
      writer certifies is the header and every accepted write, once, in
      call order, and the file reads back; a failing call reports the
      cause; queues stay within permits and window; no call waits for
      ever; the synchronous writer certifies in the same sense.
    - Headers (C13, C20, C21): a built header reads back; an output header
      declares no feature, box or replication state that the command's
      facts and its inputs do not support; the way of a box through f64
      degrees loses nothing.
    - Metadata (C9, C35): the scanner describes exactly the block the
      reader decodes; a blob the prescreen of tags-filter skips holds no
      match.
    - Change files (C2, C27, C28, C29, C31, C34): the driver accepts
      exactly well-formed change documents and refuses cut ones, batches
      replay to the same calls, a document leaves in the overlay the last
      change of each element, and simplification in batches is the serial
      one.
    - Apply-changes (C1, C3, C30, C39): from document to output, the
      result is the old file with each changed element replaced, created
      or deleted, in canonical order and once, whatever the schedule of
      the workers; one case the code loses is stated as it is.
    - Diff (C7, C14, C26): the units of the indexed diff compute the merge
      of the two element streams, both diffs print the same text, and a
      streaming diff that ends well has seen every element.
    - Containers (C11, C32): the id set refines a finite set under every
      mutator, merge and query; the reorder buffer releases the sequence
      in order whatever the arrivals.

    Sizes: element theorems assume tables below 2^31 slots and messages below
    2^63 bytes; the block theorems assume what the reader's 32-bit table entries
    need, a block that stays below 4 GiB with its tables; framed blobs are below
    the format's own limits, which the framing refuses to exceed.

    ** Not modelled

    Operating-system code: opening and publishing files, O_DIRECT, io_uring and
    the parallel positional backends, range copies (the sinks are an interface),
    memory maps, signals, the command line.  Threads other than the pipelined
    writer's and apply-changes' workers: the read pipeline, the worker pools and
    the parallel scans.  Floating-point geometry, the geocode index, extraction
    and the other commands.  The printing of change files, the location modes of apply-changes, the change file diff can
    derive.  Within the modelled files: timers, metrics that are only reported,
    size hints, [Display] impls and accessors without logic.  A framing job is
    assumed to frame or to unwind, and a worker's cached compressor to lie
    between two streams when it starts ([scratch_ok]), which every frame it
    finishes re-establishes. *)

From Stdlib Require Export ZArith Lia Zify ZifyNat ZifyBool Sorted Permutation.
From stdpp Require Export base list sorting strings gmap.

#[global] Open Scope Z_scope.
#[global] Set Default Goal Selector "!".

(** ** Results

    Rust's [Result<A, E>].  [Ok] and [Err] keep the source's names.  A panic
    (an out-of-range slice index, an [assert!], a [panic!]) is [None] of the
    standard [option] type, so a theorem that a function returns [Some] is a
    theorem that it does not panic. *)

Inductive result (E A : Type) : Type :=
| Ok (a : A)
| Err (e : E).
Arguments Ok {E A} _.
Arguments Err {E A} _.

#[export] Instance result_ret E : MRet (result E) := fun A a => Ok a.
#[export] Instance result_bind E : MBind (result E) :=
  fun A B f m => match m with Ok a => f a | Err e => Err e end.
#[export] Instance result_fmap E : FMap (result E) :=
  fun A B f m => match m with Ok a => Ok (f a) | Err e => Err e end.

(** [Option::ok_or]. *)
Definition ok_or {E A} (o : option A) (e : E) : result E A :=
  match o with Some a => Ok a | None => Err e end.

(** ** Machine integers

    A [w]-bit integer is a [Z]; the casts of the source are explicit. *)

Definition as_u (w z : Z) : Z := z mod 2 ^ w.
Definition as_s (w z : Z) : Z := (z + 2 ^ (w - 1)) mod 2 ^ w - 2 ^ (w - 1).

Abbreviation as_u8 := (as_u 8).
Abbreviation as_u16 := (as_u 16).
Abbreviation as_u32 := (as_u 32).
Abbreviation as_u64 := (as_u 64).
Abbreviation as_i32 := (as_s 32).
Abbreviation as_i64 := (as_s 64).

Definition is_u (w z : Z) : Prop := 0 <= z < 2 ^ w.
Definition is_s (w z : Z) : Prop := - 2 ^ (w - 1) <= z < 2 ^ (w - 1).

Abbreviation is_u8 := (is_u 8).
Abbreviation is_u32 := (is_u 32).
Abbreviation is_u64 := (is_u 64).
Abbreviation is_i32 := (is_s 32).
Abbreviation is_i64 := (is_s 64).

Definition i32_min : Z := -2147483648.
Definition i32_max : Z := 2147483647.
Definition u32_max : Z := 4294967295.
Definition i64_min : Z := -9223372036854775808.
Definition i64_max : Z := 9223372036854775807.
Definition u64_max : Z := 18446744073709551615.

(** Turns the width predicates and casts into plain (in)equalities and closes
    the goal with [lia]. *)
Ltac width :=
  unfold is_u, is_s, as_u, as_s, i32_min, i32_max, u32_max, i64_min, i64_max,
    u64_max in *;
  change (2 ^ 8) with 256 in *;
  change (2 ^ 16) with 65536 in *;
  change (2 ^ 32) with 4294967296 in *;
  change (2 ^ (32 - 1)) with 2147483648 in *;
  change (2 ^ 64) with 18446744073709551616 in *;
  change (2 ^ (64 - 1)) with 9223372036854775808 in *;
  Z.to_euclidean_division_equations; lia.

(** [lia] with division and remainder by constants, on [nat] and [Z]. *)
Ltac dlia := zify; Z.to_euclidean_division_equations; lia.

#[export] Instance is_u_dec w z : Decision (is_u w z) := ltac:(unfold is_u; apply _).
#[export] Instance is_s_dec w z : Decision (is_s w z) := ltac:(unfold is_s; apply _).

Lemma as_u_id w z : is_u w z -> as_u w z = z.
Proof. intros ?. by apply Z.mod_small. Qed.

Lemma as_u_range w z : 0 <= w -> is_u w (as_u w z).
Proof. intros. apply Z.mod_pos_bound. lia. Qed.

Lemma as_s_id w z : 0 < w -> is_s w z -> as_s w z = z.
Proof.
  unfold as_s, is_s. intros Hw Hz.
  assert (2 ^ w = 2 * 2 ^ (w - 1)) by (rewrite <- Z.pow_succ_r by lia; f_equal; lia).
  rewrite Z.mod_small; lia.
Qed.

Lemma as_s_range w z : 0 < w -> is_s w (as_s w z).
Proof.
  unfold as_s, is_s. intros Hw.
  assert (2 ^ w = 2 * 2 ^ (w - 1)) by (rewrite <- Z.pow_succ_r by lia; f_equal; lia).
  pose proof (Z.mod_pos_bound (z + 2 ^ (w - 1)) (2 ^ w)). lia.
Qed.

(** Reinterpreting a signed value as unsigned and back is the identity. *)
Lemma as_s_as_u w z : 0 < w -> as_s w (as_u w z) = as_s w z.
Proof.
  unfold as_s, as_u. intros Hw. f_equal.
  rewrite Zplus_mod_idemp_l. done.
Qed.

(** ** Little-endian byte strings: [to_le_bytes] and [from_le_bytes]

    A byte is a [Z] in [0, 256); a byte string is a [list Z]. *)

Abbreviation bytes := (list Z).
Definition is_byte (b : Z) : Prop := 0 <= b < 256.

Fixpoint to_le (n : nat) (z : Z) : bytes :=
  match n with
  | O => []
  | S n => z mod 256 :: to_le n (z / 256)
  end.

Fixpoint from_le (bs : bytes) : Z :=
  match bs with
  | [] => 0
  | b :: bs => b + 256 * from_le bs
  end.

Lemma length_to_le n z : length (to_le n z) = n.
Proof. revert z. induction n; intros; simpl; auto. Qed.

Lemma to_le_bytes_wf n z : Forall is_byte (to_le n z).
Proof.
  revert z. induction n; intros; simpl; constructor; [|done].
  apply Z.mod_pos_bound. lia.
Qed.

Lemma from_to_le n z : from_le (to_le n z) = z mod 256 ^ Z.of_nat n.
Proof.
  revert z. induction n as [|n IH]; intros z; simpl to_le; simpl from_le.
  - by rewrite Z.mod_1_r.
  - rewrite IH, Nat2Z.inj_succ, Z.pow_succ_r by lia.
    rewrite Z.rem_mul_r by lia. done.
Qed.

Lemma from_le_range bs :
  Forall is_byte bs -> 0 <= from_le bs < 256 ^ Z.of_nat (length bs).
Proof.
  induction 1 as [|b bs Hb _ IH]; simpl from_le; simpl length; [done|].
  rewrite Nat2Z.inj_succ, Z.pow_succ_r by lia. unfold is_byte in Hb. lia.
Qed.

Lemma to_from_le bs : Forall is_byte bs -> to_le (length bs) (from_le bs) = bs.
Proof.
  induction 1 as [|b bs Hb _ IH]; simpl; [done|]. unfold is_byte in Hb. f_equal.
  - rewrite Z.mul_comm, Z_mod_plus_full. by apply Z.mod_small.
  - rewrite Z.mul_comm, Z_div_plus_full, Z.div_small by lia. by rewrite Z.add_0_l.
Qed.

(** An unsigned and a signed little-endian round trip at width [8 * n]. *)
Lemma from_to_le_u n z : is_u (8 * Z.of_nat n) z -> from_le (to_le n z) = z.
Proof.
  intros H. rewrite from_to_le. unfold is_u in H.
  rewrite Z.pow_mul_r in H by lia. by apply Z.mod_small.
Qed.

Lemma from_to_le_s n z :
  (0 < n)%nat -> is_s (8 * Z.of_nat n) z ->
  as_s (8 * Z.of_nat n) (from_le (to_le n z)) = z.
Proof.
  intros Hn H. rewrite from_to_le.
  replace (256 ^ Z.of_nat n) with (2 ^ (8 * Z.of_nat n)) by (by rewrite Z.pow_mul_r by lia).
  fold (as_u (8 * Z.of_nat n) z). rewrite as_s_as_u by lia. apply as_s_id; [lia|done].
Qed.

(** [to_be_bytes] and [from_be_bytes]. *)
Definition to_be (n : nat) (z : Z) : bytes := rev (to_le n z).
Definition from_be (bs : bytes) : Z := from_le (rev bs).

Lemma length_to_be n z : length (to_be n z) = n.
Proof. unfold to_be. by rewrite length_rev, length_to_le. Qed.

Lemma from_to_be_u n z : is_u (8 * Z.of_nat n) z -> from_be (to_be n z) = z.
Proof. unfold from_be, to_be. rewrite rev_involutive. apply from_to_le_u. Qed.

#[global] Arguments to_le : simpl never.
#[global] Arguments from_le : simpl never.

(** A sub-slice [l[a..b]]; [None] is the panic of an out-of-range slice. *)
Definition slice {A} (l : list A) (a b : nat) : option (list A) :=
  if decide (a <= b /\ b <= length l)%nat then Some (take (b - a) (drop a l)) else None.

(** ** Bits *)

Lemma land_pow2 x n : 0 <= n -> Z.land x (2 ^ n) = if Z.testbit x n then 2 ^ n else 0.
Proof.
  intros Hn. apply Z.bits_inj'. intros m Hm.
  rewrite Z.land_spec, Z.pow2_bits_eqb by done.
  destruct (Z.eqb_spec n m) as [->|Hne].
  - rewrite andb_true_r. destruct (Z.testbit x m); [by rewrite Z.pow2_bits_true|by rewrite Z.bits_0].
  - rewrite andb_false_r. destruct (Z.testbit x n); [by rewrite Z.pow2_bits_false|by rewrite Z.bits_0].
Qed.

(** [x & (1 << n) != 0] tests bit [n]. *)
Lemma land_pow2_eqb x n : 0 <= n -> (Z.land x (2 ^ n) =? 0) = negb (Z.testbit x n).
Proof.
  intros Hn. rewrite land_pow2 by done.
  destruct (Z.testbit x n); simpl; [|done]. apply Z.eqb_neq. lia.
Qed.

Lemma testbit_small a n m : 0 <= a < 2 ^ n -> n <= m -> Z.testbit a m = false.
Proof.
  intros [Ha Hlt] Hm. destruct (Z.eq_dec a 0) as [->|]; [apply Z.bits_0|].
  apply Z.bits_above_log2; [done|].
  apply Z.lt_le_trans with n; [|done]. by apply Z.log2_lt_pow2; [lia|].
Qed.

(** Placing [b] above the low [n] bits of [a] is addition. *)
Lemma lor_shiftl_add a b n :
  0 <= n -> 0 <= a < 2 ^ n -> Z.lor a (Z.shiftl b n) = a + b * 2 ^ n.
Proof.
  intros Hn Ha. rewrite <- Z.shiftl_mul_pow2 by done.
  assert (Z.land a (Z.shiftl b n) = 0) as H0.
  { apply Z.bits_inj'. intros m Hm. rewrite Z.land_spec, Z.bits_0.
    destruct (Z.lt_ge_cases m n).
    - by rewrite Z.shiftl_spec_low, andb_false_r.
    - by rewrite (testbit_small a n m). }
  by rewrite Z.add_nocarry_lxor, Z.lxor_lor.
Qed.

Lemma land_ones_mod x n : 0 <= n -> Z.land x (2 ^ n - 1) = x mod 2 ^ n.
Proof. intros. rewrite <- Z.land_ones by done. by rewrite Z.ones_equiv. Qed.

(** ** Lists *)

Lemma filter_all {A} (P : A -> Prop) `{!forall x, Decision (P x)} (l : list A) :
  Forall P l -> filter P l = l.
Proof.
  induction 1 as [|x l Hx _ IH]; [done|].
  rewrite filter_cons_True by done. by rewrite IH.
Qed.

Lemma filter_none {A} (P : A -> Prop) `{!forall x, Decision (P x)} (l : list A) :
  Forall (fun x => ~ P x) l -> filter P l = [].
Proof.
  induction 1 as [|x l Hx _ IH]; [done|]. by rewrite filter_cons_False.
Qed.

(** ** Hint databases and the development's tactics *)

Create HintDb pbf discriminated.
#[export] Hint Resolve as_u_range to_le_bytes_wf : pbf.
Create Rewrite HintDb pbf.

(** Split conjunctions of booleans and turn boolean comparisons into [Prop]. *)
Ltac unbool :=
  repeat match goal with
  | H : _ && _ = true |- _ => apply andb_true_iff in H; destruct H
  | H : _ || _ = false |- _ => apply orb_false_iff in H; destruct H
  | H : negb _ = true |- _ => apply negb_true_iff in H
  | H : negb _ = false |- _ => apply negb_false_iff in H
  | H : (_ =? _) = true |- _ => apply Z.eqb_eq in H
  | H : (_ =? _) = false |- _ => apply Z.eqb_neq in H
  | H : (_ <? _) = true |- _ => apply Z.ltb_lt in H
  | H : (_ <? _) = false |- _ => apply Z.ltb_ge in H
  | H : (_ <=? _) = true |- _ => apply Z.leb_le in H
  | H : (_ <=? _) = false |- _ => apply Z.leb_gt in H
  end.

(** Case analysis on every boolean comparison of integers in the goal. *)
Ltac zcases :=
  repeat match goal with
  | |- context [?a <? ?b] => destruct (Z.ltb_spec a b)
  | |- context [?a <=? ?b] => destruct (Z.leb_spec a b)
  | |- context [?a =? ?b] => destruct (Z.eqb_spec a b)
  end.

(** Runs binds of computed options. *)
Ltac obind := cbn [mbind option_bind].

(** Reduces sortedness of a concrete list to the comparisons of its elements. *)
Ltac ssorted :=
  repeat first [ apply SSorted_nil | apply SSorted_cons
               | apply Forall_nil_2 | apply Forall_cons_2 ].
