(* ===== verification/StdSlice.v ===== *)
(** * Slice searches and ordered maps of the Rust standard library

    [slice::binary_search_by] is the halving loop of [core::slice]; the source
    reaches it through [binary_search] and [partition_point].  On a slice
    ordered for the comparison the loop finds the boundary; the two lemmas
    [binary_search_by_spec] and [partition_point_spec] are what every component
    that searches a sorted vector uses. *)

From S2P Require Import Prelude.

Section Search.
Context {A : Type}.
Implicit Types (f : A -> comparison) (l : list A) (p : A -> bool).

(** The loop: [base] and [size] delimit the part still searched. *)
Fixpoint search_loop (fuel : nat) f l (base size : nat) : nat :=
  match fuel with
  | O => base
  | S fuel =>
      if (1 <? size)%nat then
        let half := (size / 2)%nat in
        let mid := (base + half)%nat in
        let base' := match l !! mid with
                     | Some x => match f x with Gt => base | _ => mid end
                     | None => base
                     end in
        search_loop fuel f l base' (size - half)
      else base
  end.

Definition binary_search_by f l : result nat nat :=
  match length l with
  | O => Err 0%nat
  | size =>
      let base := search_loop size f l 0 size in
      match l !! base with
      | Some x => match f x with
                  | Eq => Ok base
                  | Lt => Err (S base)
                  | Gt => Err base
                  end
      | None => Err base
      end
  end.

(** [partition_point(p)]: the index of the first element failing [p]. *)
Definition partition_point p l : nat :=
  match binary_search_by (fun x => if p x then Lt else Gt) l with
  | Ok i | Err i => i
  end.

(** The order the searches need: [Lt]s, then [Eq]s, then [Gt]s. *)
Definition ordered_for f l : Prop :=
  forall i j x y, (i <= j)%nat -> l !! i = Some x -> l !! j = Some y ->
    (f x = Gt -> f y = Gt) /\ (f y = Lt -> f x = Lt).

Definition partitioned p l : Prop :=
  forall i j x y, (i <= j)%nat -> l !! i = Some x -> l !! j = Some y ->
    p y = true -> p x = true.

Lemma search_loop_inv f l fuel base size :
  ordered_for f l -> (size <= fuel)%nat -> (0 < size)%nat ->
  (base + size <= length l)%nat ->
  (base = 0%nat \/ exists x, l !! base = Some x /\ f x <> Gt) ->
  (forall j y, (base + size <= j)%nat -> l !! j = Some y -> f y = Gt) ->
  let b := search_loop fuel f l base size in
  (b < length l)%nat /\
  (b = 0%nat \/ exists x, l !! b = Some x /\ f x <> Gt) /\
  (forall j y, (S b <= j)%nat -> l !! j = Some y -> f y = Gt).
Proof.
  intros Hord. revert base size.
  induction fuel as [|fuel IH]; intros base size Hf Hs Hlen Hlo Hhi; cbn [search_loop]; cbv zeta; [lia|].
  destruct (Nat.ltb_spec 1 size) as [H1|H1].
  - assert (0 < size / 2 < size)%nat by dlia.
    destruct (lookup_lt_is_Some_2 l (base + (size / 2)%nat)) as [x Hx]; [lia|].
    rewrite Hx. apply IH; try lia.
    + destruct (f x); lia.
    + destruct (f x) eqn:Hfx; [right; exists x; by rewrite Hfx| right; exists x; by rewrite Hfx|done].
    + intros j y Hj Hy. destruct (f x) eqn:Hfx.
      * apply (Hhi j y); [lia|done].
      * apply (Hhi j y); [lia|done].
      * eapply (Hord (base + (size / 2)%nat)%nat j x y); [lia|done..].
  - split_and!; [lia|done|]. intros j y Hj. apply Hhi. lia.
Qed.

(** What [binary_search_by] promises on an ordered slice: a hit compares
    equal; a miss is the insertion point. *)
Lemma binary_search_by_spec f l :
  ordered_for f l ->
  match binary_search_by f l with
  | Ok i => exists x, l !! i = Some x /\ f x = Eq
  | Err i => (i <= length l)%nat /\
             (forall j y, (j < i)%nat -> l !! j = Some y -> f y = Lt) /\
             (forall j y, (i <= j)%nat -> l !! j = Some y -> f y = Gt)
  end.
Proof.
  intros Hord. unfold binary_search_by.
  destruct (length l) as [|n] eqn:Hn.
  - split_and!; [lia|lia|]. intros j y _ Hy. apply lookup_lt_Some in Hy. lia.
  - assert (0 < length l)%nat by lia. rewrite <- Hn.
    destruct (search_loop_inv f l (length l) 0 (length l)) as (Hb & Hlo & Hhi);
      [done|lia|lia|lia|by left| |].
    { intros j y Hj Hy. apply lookup_lt_Some in Hy. lia. }
    set (b := search_loop _ _ _ _ _) in *.
    destruct (lookup_lt_is_Some_2 l b Hb) as [x Hx]. rewrite Hx.
    destruct (f x) eqn:Hfx.
    + eauto.
    + split_and!; [lia| |done]. intros j y Hj Hy.
      eapply (Hord j b y x); [lia|done..].
    + destruct Hlo as [->|(x' & Hx' & Hne)]; [|congruence].
      split_and!; [lia|lia|]. intros j y Hj Hy. eapply (Hord 0%nat j x y); [lia|done..].
Qed.

Lemma partition_point_ordered p l :
  partitioned p l -> ordered_for (fun x => if p x then Lt else Gt) l.
Proof.
  intros Hp i j x y Hij Hx Hy. specialize (Hp i j x y Hij Hx Hy).
  destruct (p x), (p y); naive_solver.
Qed.

(** What [partition_point] promises on a partitioned slice. *)
Lemma partition_point_spec p l :
  partitioned p l ->
  let k := partition_point p l in
  (k <= length l)%nat /\
  (forall j y, (j < k)%nat -> l !! j = Some y -> p y = true) /\
  (forall j y, (k <= j)%nat -> l !! j = Some y -> p y = false).
Proof.
  intros Hp. unfold partition_point.
  pose proof (binary_search_by_spec _ _ (partition_point_ordered _ _ Hp)) as H.
  destruct (binary_search_by _ l) as [i|i].
  - destruct H as (x & _ & Hx). by destruct (p x).
  - destruct H as (Hi & Hlt & Hge). split_and!; [done| |].
    + intros j y Hj Hy. specialize (Hlt j y Hj Hy). by destruct (p y).
    + intros j y Hj Hy. specialize (Hge j y Hj Hy). by destruct (p y).
Qed.

(** The partition point splits the slice into its passing and failing part. *)
Lemma partition_point_filter p l :
  partitioned p l ->
  take (partition_point p l) l = filter (fun x => p x = true) l /\
  drop (partition_point p l) l = filter (fun x => p x = false) l.
Proof.
  intros Hp. destruct (partition_point_spec p l Hp) as (Hk & Hlt & Hge).
  set (k := partition_point p l) in *.
  assert (Forall (fun x => p x = true) (take k l)) as H1.
  { apply Forall_lookup. intros i x Hx. apply lookup_take_Some in Hx as [Hx Hi]. eauto. }
  assert (Forall (fun x => p x = false) (drop k l)) as H2.
  { apply Forall_lookup. intros i x Hx. rewrite lookup_drop in Hx. eapply Hge; [|done]. lia. }
  rewrite <- (take_drop k l) at 2 4. rewrite !filter_app.
  rewrite (filter_all _ _ H1), (filter_none _ (drop k l)), (filter_none _ (take k l)),
    (filter_all _ _ H2).
  - by rewrite app_nil_r.
  - eapply Forall_impl; [exact H1|]. intros x ->. done.
  - eapply Forall_impl; [exact H2|]. intros x ->. done.
Qed.
End Search.

(** ** Ordered maps

    [BTreeMap<u64, V>] as the list of its entries, keys strictly ascending:
    what [get], [entry], [insert], [range] and iteration see of it. *)


Abbreviation BTreeMap V := (list (Z * V)).

Section BTree.
Context {V : Type}.
Implicit Types (m : BTreeMap V) (k : Z) (v : V).

Fixpoint bt_get (k : Z) (m : BTreeMap V) : option V :=
  match m with
  | [] => None
  | (k', v) :: m => if k =? k' then Some v else bt_get k m
  end.

(** [insert], replacing the value of a present key. *)
Fixpoint bt_insert (k : Z) (v : V) (m : BTreeMap V) : BTreeMap V :=
  match m with
  | [] => [(k, v)]
  | (k', v') :: rest =>
      match k ?= k' with
      | Lt => (k, v) :: m
      | Eq => (k, v) :: rest
      | Gt => (k', v') :: bt_insert k v rest
      end
  end.

(** [range(lo..=hi)] and [range(lo..)] *)
Definition bt_range (lo hi : Z) (m : BTreeMap V) : BTreeMap V :=
  filter (fun e => lo <= e.1 /\ e.1 <= hi) m.
Definition bt_range_from (lo : Z) (m : BTreeMap V) : BTreeMap V := filter (fun e => lo <= e.1) m.

Definition bt_wf (m : BTreeMap V) : Prop := StronglySorted Z.lt m.*1.

Lemma bt_get_insert k v m k' :
  bt_wf m -> bt_get k' (bt_insert k v m) = if k' =? k then Some v else bt_get k' m.
Proof.
  intros Hwf. induction m as [|[x w] m IH]; simpl; [done|].
  apply StronglySorted_inv in Hwf as [Hwf Hx].
  destruct (Z.compare_spec k x) as [->|Hlt|Hgt]; simpl.
  - by destruct (k' =? x).
  - done.
  - rewrite IH by done. destruct (Z.eqb_spec k' x) as [->|]; [|done].
    destruct (Z.eqb_spec x k); [lia|done].
Qed.

Lemma bt_keys_insert k v m x : x ∈ (bt_insert k v m).*1 <-> x = k \/ x ∈ m.*1.
Proof.
  induction m as [|[y w] m IH]; simpl; [set_solver|].
  destruct (Z.compare_spec k y) as [->|Hlt|Hgt]; simpl; rewrite ?elem_of_cons, ?IH; set_solver.
Qed.

Lemma bt_insert_wf k v m : bt_wf m -> bt_wf (bt_insert k v m).
Proof.
  unfold bt_wf. induction m as [|[x w] m IH]; simpl; intros Hwf; [ssorted|].
  apply StronglySorted_inv in Hwf as [Hwf Hx]. rewrite Forall_forall in Hx.
  destruct (Z.compare_spec k x) as [->|Hlt|Hgt]; simpl; constructor.
  - done.
  - by apply Forall_forall.
  - constructor; [done|by apply Forall_forall].
  - constructor; [done|]. apply Forall_forall. intros y Hy. specialize (Hx y Hy). lia.
  - by apply IH.
  - apply Forall_forall. intros y [->|Hy]%bt_keys_insert; [done|auto].
Qed.

(** Inserting keeps a property of every entry. *)
Lemma bt_insert_Forall (P : Z * V -> Prop) k v m :
  P (k, v) -> Forall P m -> Forall P (bt_insert k v m).
Proof.
  intros Hk. induction 1 as [|[x w] m Hx Hm IH]; simpl; [by constructor|].
  destruct (k ?= x); constructor; auto.
Qed.

Lemma bt_get_elem k v m : bt_get k m = Some v -> (k, v) ∈ m.
Proof.
  induction m as [|[x w] m IH]; simpl; [done|].
  destruct (Z.eqb_spec k x) as [->|]; [intros [= ->]; set_solver|set_solver].
Qed.

Lemma bt_get_Some k v m : bt_wf m -> bt_get k m = Some v <-> (k, v) ∈ m.
Proof.
  intros Hwf. split; [apply bt_get_elem|].
  induction m as [|[x w] m IH]; simpl; [by intros ?%not_elem_of_nil|].
  apply StronglySorted_inv in Hwf as [Hwf Hx]. rewrite Forall_forall in Hx.
  intros [[= -> ->]|Hin]%elem_of_cons; [by rewrite Z.eqb_refl|].
  assert (k ∈ m.*1) as Hk by (apply list_elem_of_fmap; by exists (k, v)).
  specialize (Hx k Hk). destruct (Z.eqb_spec k x) as [->|]; [exfalso; revert Hx; apply Z.lt_irrefl|by apply IH].
Qed.

Lemma bt_get_None k m : bt_get k m = None <-> k ∉ m.*1.
Proof.
  induction m as [|[x w] m IH]; simpl; [set_solver|].
  destruct (Z.eqb_spec k x) as [->|]; rewrite not_elem_of_cons; [naive_solver|]. naive_solver.
Qed.

End BTree.
