(* ===== verification/StdText.v ===== *)
(** * Integers as text

    What the sources use of the standard library's [str::parse] and of
    zero-padded formatting: [FromStr] for the signed integer types (an optional
    sign, at least one ASCII digit, nothing else, and the type's range) and
    ["{:0w}"] (the sign counts towards the width).  A string is its UTF-8
    bytes. *)

From S2P Require Import Prelude.

(** A string literal of the source. *)
Definition bs (s : string) : bytes := (fun a => Z.of_nat (Ascii.nat_of_ascii a)) <$> String.list_ascii_of_string s.

Definition digit (b : Z) : option Z := if (48 <=? b) && (b <=? 57) then Some (b - 48) else None.

Fixpoint digits_from (acc : Z) (s : bytes) : option Z :=
  match s with
  | [] => Some acc
  | b :: s => d ← digit b; digits_from (10 * acc + d) s
  end.

(** [s.parse::<T>()] for a signed [T] of range [lo..=hi]. *)
Definition parse_signed (lo hi : Z) (s : bytes) : option Z :=
  let '(negative, ds) := match s with
                         | b :: r => if b =? 45 then (true, r) else if b =? 43 then (false, r) else (false, s)
                         | [] => (false, [])
                         end in
  match ds with
  | [] => None
  | _ =>
      v ← digits_from 0 ds;
      let v := if negative then - v else v in
      if (lo <=? v) && (v <=? hi) then Some v else None
  end.

Definition parse_i64 : bytes -> option Z := parse_signed i64_min i64_max.
Definition parse_i32 : bytes -> option Z := parse_signed i32_min i32_max.

(** The decimal digits of [n >= 0], most significant first. *)
Fixpoint decimal_fuel (fuel : nat) (n : Z) (acc : bytes) : bytes :=
  match fuel with
  | O => acc
  | S fuel => let acc := (48 + n mod 10) :: acc in if n <? 10 then acc else decimal_fuel fuel (n / 10) acc
  end.
Definition decimal (n : Z) : bytes := decimal_fuel (S (Z.to_nat (Z.log2 n))) n [].

(** ["{n:0w}"] *)
Definition pad0 (w : nat) (n : Z) : bytes :=
  let ds := decimal (Z.abs n) in
  let sign := if n <? 0 then [45] else [] in
  sign ++ replicate (w - length sign - length ds) 48 ++ ds.

(** ** What parses back *)

Lemma digits_from_app acc a b : digits_from acc (a ++ b) = v ← digits_from acc a; digits_from v b.
Proof.
  revert acc. induction a as [|x a IH]; intros acc; [done|]. cbn [app digits_from].
  destruct (digit x); [|done]. cbn [mbind option_bind]. apply IH.
Qed.

Lemma digit_of d : 0 <= d < 10 -> digit (48 + d) = Some d.
Proof. intros Hd. unfold digit. rewrite (proj2 (andb_true_iff _ _)) by lia. f_equal. lia. Qed.

Lemma decimal_fuel_value fuel n acc v :
  0 <= n < 2 ^ Z.of_nat fuel -> (0 < fuel)%nat ->
  digits_from v (decimal_fuel fuel n acc) = digits_from (v * 10 ^ Z.of_nat (length (decimal_fuel fuel n acc) - length acc) + n) acc.
Proof.
  revert n acc v. induction fuel as [|fuel IH]; intros n acc v Hn Hf; [lia|]. cbn [decimal_fuel].
  assert (0 <= n mod 10 < 10) by (apply Z.mod_pos_bound; lia). destruct (Z.ltb_spec n 10) as [Hlt|Hge].
  - cbn [digits_from length]. rewrite digit_of by done. cbn [mbind option_bind].
    replace (S (length acc) - length acc)%nat with 1%nat by lia. f_equal. rewrite Z.mod_small by lia. lia.
  - rewrite Nat2Z.inj_succ, Z.pow_succ_r in Hn by lia.
    assert (0 <= n / 10 < 2 ^ Z.of_nat fuel) as Hq by (split; [apply Z.div_pos; lia|apply Z.div_lt_upper_bound; lia]).
    assert (0 < fuel)%nat by (destruct fuel; [cbn in Hn; lia|lia]).
    rewrite (IH (n / 10) _ v Hq) by done. cbn [digits_from]. rewrite digit_of by done. cbn [mbind option_bind]. f_equal.
    assert (forall f m a, (length a <= length (decimal_fuel f m a))%nat) as Hmono.
    { clear. induction f as [|f IH]; intros m a; [done|]. cbn [decimal_fuel]. destruct (_ <? _); cbn [length]; [lia|].
      specialize (IH (m / 10) (48 + m mod 10 :: a)). cbn [length] in IH. lia. }
    specialize (Hmono fuel (n / 10) (48 + n mod 10 :: acc)). cbn [length] in *.
    set (L := length (decimal_fuel _ _ _)) in *. replace (L - length acc)%nat with (S (L - S (length acc)))%nat by lia.
    rewrite Nat2Z.inj_succ, Z.pow_succ_r by lia. pose proof (Z.div_mod n 10 ltac:(lia)). nia.
Qed.

Lemma decimal_value n : 0 <= n -> digits_from 0 (decimal n) = Some n.
Proof.
  intros Hn. unfold decimal. rewrite decimal_fuel_value; [by rewrite Z.mul_0_l|split; [done|]|lia].
  rewrite Nat2Z.inj_succ, Z2Nat.id by apply Z.log2_nonneg. destruct (Z.eq_dec n 0) as [->|]; [done|].
  apply Z.log2_spec. lia.
Qed.

Lemma zeros_value k acc : digits_from acc (replicate k 48) = Some (acc * 10 ^ Z.of_nat k).
Proof.
  revert acc. induction k as [|k IH]; intros acc; [cbn; f_equal; lia|]. cbn [replicate digits_from].
  change (digit 48) with (Some 0). cbn [mbind option_bind]. rewrite IH, Nat2Z.inj_succ, Z.pow_succ_r by lia. f_equal. lia.
Qed.

Lemma pad0_value w n : 0 <= n -> digits_from 0 (pad0 w n) = Some n.
Proof.
  intros Hn. unfold pad0. rewrite (proj2 (Z.ltb_ge n 0)), Z.abs_eq by lia. cbn [app length].
  rewrite digits_from_app, zeros_value. cbn [mbind option_bind]. by rewrite Z.mul_0_l, decimal_value.
Qed.

Lemma decimal_fuel_length fuel n acc w :
  0 <= n < 10 ^ Z.of_nat w -> (0 < w)%nat -> (length (decimal_fuel fuel n acc) <= w + length acc)%nat.
Proof.
  revert n acc w. induction fuel as [|fuel IH]; intros n acc w Hn Hw; cbn [decimal_fuel]; [lia|].
  destruct (Z.ltb_spec n 10) as [|Hge]; cbn [length]; [lia|]. destruct w as [|w]; [lia|].
  rewrite Nat2Z.inj_succ, Z.pow_succ_r in Hn by lia.
  assert (0 < w)%nat by (destruct w; [cbn in Hn; lia|lia]).
  specialize (IH (n / 10) (48 + n mod 10 :: acc) w). cbn [length] in IH. enough (0 <= n / 10 < 10 ^ Z.of_nat w) by (specialize (IH ltac:(done) ltac:(done)); lia).
  split; [apply Z.div_pos; lia|apply Z.div_lt_upper_bound; lia].
Qed.

Lemma pad0_length w n : 0 <= n < 10 ^ Z.of_nat w -> (0 < w)%nat -> length (pad0 w n) = w.
Proof.
  intros Hn Hw. unfold pad0. rewrite (proj2 (Z.ltb_ge n 0)), Z.abs_eq by lia. cbn [app length].
  rewrite length_app, length_replicate. pose proof (decimal_fuel_length (S (Z.to_nat (Z.log2 n))) n [] w Hn Hw) as Hl.
  fold (decimal n) in Hl. cbn [length] in Hl. lia.
Qed.

Lemma decimal_digits n : 0 <= n -> Forall (fun b => 48 <= b <= 57) (decimal n).
Proof.
  intros Hn. unfold decimal. assert (Forall (fun b => 48 <= b <= 57) []) as Ha by constructor. revert Ha.
  generalize ([] : bytes) as acc. generalize (S (Z.to_nat (Z.log2 n))) as fuel. intros fuel. revert n Hn.
  induction fuel as [|fuel IH]; intros n Hn acc Ha; [done|]. cbn [decimal_fuel].
  assert (Forall (fun b => 48 <= b <= 57) (48 + n mod 10 :: acc)) as Hc.
  { constructor; [|done]. pose proof (Z.mod_pos_bound n 10). lia. }
  destruct (_ <? _); [done|]. apply IH; [apply Z.div_pos; lia|done].
Qed.

Lemma pad0_digits w n : 0 <= n -> Forall (fun b => 48 <= b <= 57) (pad0 w n).
Proof.
  intros Hn. unfold pad0. rewrite (proj2 (Z.ltb_ge n 0)), Z.abs_eq by lia. cbn [app].
  apply Forall_app. split; [by apply Forall_replicate|by apply decimal_digits].
Qed.

(** Unsigned text of the type's range parses to its value. *)
Lemma parse_digits lo hi s v :
  Forall (fun b => 48 <= b <= 57) s -> s <> [] -> digits_from 0 s = Some v -> lo <= v <= hi -> parse_signed lo hi s = Some v.
Proof.
  intros Hs Hne Hv Hr. unfold parse_signed. destruct s as [|b s]; [done|]. apply Forall_cons in Hs as [Hb _].
  rewrite (proj2 (Z.eqb_neq b 45)), (proj2 (Z.eqb_neq b 43)), Hv by lia. cbn [mbind option_bind].
  by rewrite (proj2 (andb_true_iff _ _)) by lia.
Qed.

Lemma parse_pad0 lo hi w n : (0 < w)%nat -> 0 <= n < 10 ^ Z.of_nat w -> lo <= n <= hi -> parse_signed lo hi (pad0 w n) = Some n.
Proof.
  intros Hw Hn Hr. apply parse_digits; [apply pad0_digits; lia| |apply pad0_value; lia|done].
  intros E. apply (f_equal length) in E. rewrite pad0_length in E by done. cbn in E. lia.
Qed.

(** Digit strings of one length and value are equal. *)
Lemma digits_inj a b v :
  Forall (fun b => 48 <= b <= 57) a -> Forall (fun b => 48 <= b <= 57) b -> length a = length b ->
  digits_from 0 a = Some v -> digits_from 0 b = Some v -> a = b.
Proof.
  revert b v. induction a as [|x a IH] using rev_ind; intros b v Ha Hb Hl Hva Hvb.
  { symmetry in Hl. by apply length_zero_iff_nil in Hl. }
  destruct b as [|y b _] using rev_ind; [rewrite length_app in Hl; cbn in Hl; lia|].
  rewrite !length_app in Hl. cbn [length] in Hl. apply Forall_app in Ha as [Ha Hx], Hb as [Hb Hy].
  rewrite Forall_singleton in Hx, Hy. cbn beta in Hx, Hy. rewrite digits_from_app in Hva, Hvb.
  destruct (digits_from 0 a) as [va|] eqn:Ea; [|done]. destruct (digits_from 0 b) as [vb|] eqn:Eb; [|done].
  cbn [mbind option_bind digits_from] in Hva, Hvb. replace x with (48 + (x - 48)) in Hva by lia. replace y with (48 + (y - 48)) in Hvb by lia.
  rewrite digit_of in Hva, Hvb by lia. cbn [mbind option_bind] in Hva, Hvb. injection Hva as Hva. injection Hvb as Hvb.
  assert (va = vb) as -> by lia. assert (x = y) as -> by lia. f_equal. apply (IH b vb); first [done|lia].
Qed.

Lemma digits_bound s v : Forall (fun b => 48 <= b <= 57) s -> digits_from 0 s = Some v -> 0 <= v < 10 ^ Z.of_nat (length s).
Proof.
  revert v. induction s as [|x s IH] using rev_ind; intros v Hs Hv; [cbn in Hv; simplify_eq; cbn; lia|].
  apply Forall_app in Hs as [Hs Hx]. rewrite Forall_singleton in Hx. cbn beta in Hx. rewrite digits_from_app in Hv.
  destruct (digits_from 0 s) as [u|]; [|done]. specialize (IH u Hs eq_refl). cbn [mbind option_bind digits_from] in Hv.
  replace x with (48 + (x - 48)) in Hv by lia. rewrite digit_of in Hv by lia. cbn [mbind option_bind] in Hv. injection Hv as <-.
  rewrite length_app, Nat2Z.inj_add. cbn [length]. change (Z.of_nat 1) with 1. rewrite Z.pow_add_r, Z.pow_1_r by lia. lia.
Qed.

(** Digit text is read as its digits, and printed back at its length. *)
Lemma parse_signed_digits lo hi s v :
  Forall (fun b => 48 <= b <= 57) s -> parse_signed lo hi s = Some v -> digits_from 0 s = Some v.
Proof.
  intros Hs. unfold parse_signed. destruct s as [|b s]; [done|]. apply Forall_cons in Hs as [Hb _].
  rewrite (proj2 (Z.eqb_neq b 45)), (proj2 (Z.eqb_neq b 43)) by lia. destruct (digits_from 0 (b :: s)); [|done].
  cbn [mbind option_bind]. by destruct (_ && _).
Qed.

Lemma pad0_parsed lo hi s v :
  Forall (fun b => 48 <= b <= 57) s -> (0 < length s)%nat -> parse_signed lo hi s = Some v ->
  pad0 (length s) v = s /\ 0 <= v < 10 ^ Z.of_nat (length s).
Proof.
  intros Hs Hl Hv%parse_signed_digits; [|done]. pose proof (digits_bound s v Hs Hv) as Hb. split; [|done].
  apply (digits_inj _ _ v); [apply pad0_digits; lia|done|by apply pad0_length|apply pad0_value; lia|done].
Qed.

Lemma digits_from_digits acc s v : digits_from acc s = Some v -> Forall (fun b => 48 <= b <= 57) s.
Proof.
  revert acc. induction s as [|b s IH]; intros acc Hv; [constructor|]. cbn [digits_from] in Hv. unfold digit in Hv.
  destruct ((48 <=? b) && (b <=? 57)) eqn:E; [|done]. constructor; [lia|by eapply IH].
Qed.

Lemma parse_signed_range lo hi s v : parse_signed lo hi s = Some v -> lo <= v <= hi.
Proof.
  unfold parse_signed. destruct (match s with [] => _ | _ => _ end) as [neg [|b ds]]; [done|].
  destruct (digits_from 0 (b :: ds)); [|done]. cbn [mbind option_bind].
  destruct ((lo <=? _) && (_ <=? hi)) eqn:E; [|done]. intros [= <-]. lia.
Qed.

(** A signed field of [n] characters is below [10 ^ n] in size. *)
Lemma parse_signed_bound lo hi s v : parse_signed lo hi s = Some v -> Z.abs v < 10 ^ Z.of_nat (length s).
Proof.
  unfold parse_signed. destruct s as [|b s]; [done|].
  assert (forall ds (neg : bool), match ds with [] => None | _ => v ← digits_from 0 ds; let v := if neg then - v else v in
    if (lo <=? v) && (v <=? hi) then Some v else None end = Some v -> Z.abs v < 10 ^ Z.of_nat (length ds)) as Hds.
  { intros ds neg. destruct ds as [|d ds]; [done|]. destruct (digits_from 0 (d :: ds)) as [x|] eqn:E; [|done]. cbn [mbind option_bind].
    pose proof (digits_bound _ _ (digits_from_digits _ _ _ E) E). destruct (_ && _); [|done]. intros [= <-]. destruct neg; lia. }
  assert (10 ^ Z.of_nat (length s) <= 10 ^ Z.of_nat (length (b :: s))) by (apply Z.pow_le_mono_r; cbn; lia).
  destruct (b =? 45); [intros Hv; specialize (Hds s true Hv); lia|].
  destruct (b =? 43); intros Hv; [specialize (Hds s false Hv)|specialize (Hds (b :: s) false Hv)]; lia.
Qed.
