(* ===== verification/Timestamp.v ===== *)
(** * UTC timestamps as text (src/src/commands/mod.rs)

    [format_epoch_secs] prints Unix seconds as [YYYY-MM-DDTHH:MM:SSZ] and
    [parse_rfc3339_utc] reads that text back, both through the civil-calendar
    algorithm on 400-year eras.  Rust's [/] and [%] truncate ([Z.quot],
    [Z.rem]); [div_euclid] and [rem_euclid] by a positive constant are [/] and
    [mod]. *)

From S2P Require Import Prelude StdText.

(** Days since 1970-01-01 to (year, month, day). *)
Definition civil_from_days (days : Z) : Z * Z * Z :=
  let z := days + 719468 in
  let era := z / 146097 in
  let doe := z mod 146097 in
  let yoe := Z.quot (doe - Z.quot doe 1460 + Z.quot doe 36524 - Z.quot doe 146096) 365 in
  let y := yoe + era * 400 in
  let doy := doe - (365 * yoe + Z.quot yoe 4 - Z.quot yoe 100) in
  let mp := Z.quot (5 * doy + 2) 153 in
  let d := doy - Z.quot (153 * mp + 2) 5 + 1 in
  let m := if mp <? 10 then mp + 3 else mp - 9 in
  let y := if m <=? 2 then y + 1 else y in
  (y, m, d).

Definition format_epoch_secs (secs : Z) : bytes :=
  let day_secs := secs mod 86400 in
  let days := Z.quot (as_i64 (secs - day_secs)) 86400 in
  let '(y, m, d) := civil_from_days days in
  let h := Z.quot day_secs 3600 in
  let min := Z.quot (Z.rem day_secs 3600) 60 in
  let s := Z.rem day_secs 60 in
  pad0 4 y ++ [45] ++ pad0 2 m ++ [45] ++ pad0 2 d ++ [84] ++ pad0 2 h ++ [58] ++ pad0 2 min ++ [58] ++ pad0 2 s ++ [90].

Inductive TimestampError := FORMAT_ERR | BadNumber | BadMonth | BadTime | BadDay.

(** The cuts are character boundaries: each has an ASCII separator on one side
    (or the end of the text). *)
Definition ts_field (input : bytes) (start end_ : nat) : result TimestampError Z :=
  ok_or (parse_i64 (take (end_ - start) (drop start input))) BadNumber.

Definition is_leap (year : Z) : bool :=
  ((Z.rem year 4 =? 0) && negb (Z.rem year 100 =? 0)) || (Z.rem year 400 =? 0).

Definition max_day (year month : Z) : Z :=
  match month with
  | 1 | 3 | 5 | 7 | 8 | 10 | 12 => 31
  | 4 | 6 | 9 | 11 => 30
  | 2 => if is_leap year then 29 else 28
  | _ => 0
  end.

(** [days] since 1970-01-01 of a civil date *)
Definition days_from_civil (year month day : Z) : Z :=
  let y := year - (if month <=? 2 then 1 else 0) in
  let era := Z.quot (if 0 <=? y then y else y - 399) 400 in
  let yoe := y - era * 400 in
  let mp := month + (if 2 <? month then -3 else 9) in
  let doy := Z.quot (153 * mp + 2) 5 + day - 1 in
  let doe := yoe * 365 + Z.quot yoe 4 - Z.quot yoe 100 + doy in
  era * 146097 + doe - 719468.

(** [bytes[i] != b] for the six separators. *)
Definition bad_shape (input : bytes) : bool :=
  existsb (fun '(i, b) => negb (bool_decide (input !! i = Some b)))
    [(4%nat, 45); (7%nat, 45); (10%nat, 84); (13%nat, 58); (16%nat, 58); (19%nat, 90)].

Definition parse_rfc3339_utc (input : bytes) : result TimestampError Z :=
  if negb (length input =? 20)%nat then Err FORMAT_ERR
  else if bad_shape input then Err FORMAT_ERR
  else
    year ← ts_field input 0 4;
    month ← ts_field input 5 7;
    day ← ts_field input 8 10;
    hour ← ts_field input 11 13;
    minute ← ts_field input 14 16;
    second ← ts_field input 17 19;
    if negb ((1 <=? month) && (month <=? 12)) then Err BadMonth
    else if (23 <? hour) || (59 <? minute) || (59 <? second) then Err BadTime
    else if (day =? 0) || (max_day year month <? day) then Err BadDay
    else Ok (days_from_civil year month day * 86400 + hour * 3600 + minute * 60 + second).

(** ** The calendar *)

(** The year of an era and the day of that year: the year's days, counted from
    March, are [0..=365], and 366 only in a year whose February is leap. *)
Lemma year_of_era doe (yoe := Z.quot (doe - Z.quot doe 1460 + Z.quot doe 36524 - Z.quot doe 146096) 365)
    (doy := doe - (365 * yoe + Z.quot yoe 4 - Z.quot yoe 100)) :
  0 <= doe < 146097 ->
  0 <= yoe <= 399 /\ 0 <= doy <= 365 /\
  (doy = 365 -> ((yoe + 1) mod 4 = 0 /\ (yoe + 1) mod 100 <> 0) \/ (yoe + 1) mod 400 = 0).
Proof.
  intros Hd. subst yoe doy. rewrite !(Z.quot_div_nonneg doe) by lia.
  set (a := doe / 1460). set (b := doe / 36524). set (c := doe / 146096).
  dlia.
Qed.

(** The month and day of a day of the year. *)
Lemma month_of_year doy (mp := Z.quot (5 * doy + 2) 153) (d := doy - Z.quot (153 * mp + 2) 5 + 1) :
  0 <= doy <= 365 ->
  0 <= mp <= 11 /\ 1 <= d <= 31 /\ (mp ∈ [1; 3; 6; 8] -> d <= 30) /\ (mp = 11 -> d <= 29 /\ (d = 29 -> doy = 365)).
Proof.
  intros Hd. subst mp d. split; [dlia|]. split; [dlia|]. split.
  - intros Hm. repeat (apply elem_of_cons in Hm as [Hm|Hm]; [dlia|]). by apply elem_of_nil in Hm.
  - dlia.
Qed.

(** The month's first day of the year, and the year it belongs to. *)
Lemma civil_back era yoe mp d :
  0 <= yoe <= 399 -> 0 <= mp <= 11 ->
  let m := if mp <? 10 then mp + 3 else mp - 9 in
  let y := if m <=? 2 then yoe + era * 400 + 1 else yoe + era * 400 in
  days_from_civil y m d = era * 146097 + (yoe * 365 + Z.quot yoe 4 - Z.quot yoe 100 + (Z.quot (153 * mp + 2) 5 + d - 1)) - 719468.
Proof.
  intros Hy Hm m y. unfold days_from_civil.
  assert (y - (if m <=? 2 then 1 else 0) = yoe + era * 400) as -> by (subst y; destruct (m <=? 2); lia).
  assert (m + (if 2 <? m then -3 else 9) = mp) as -> by (subst m; destruct (Z.ltb_spec mp 10), (Z.ltb_spec 2 (mp + 3)), (Z.ltb_spec 2 (mp - 9)); lia).
  assert (Z.quot (if 0 <=? yoe + era * 400 then yoe + era * 400 else yoe + era * 400 - 399) 400 = era) as ->.
  { destruct (Z.leb_spec 0 (yoe + era * 400)); dlia. }
  replace (yoe + era * 400 - era * 400) with yoe by lia. lia.
Qed.

Lemma leap_era era yoe :
  ((yoe + 1) mod 4 = 0 /\ (yoe + 1) mod 100 <> 0) \/ (yoe + 1) mod 400 = 0 -> is_leap (yoe + era * 400 + 1) = true.
Proof.
  intros Hl. unfold is_leap. destruct Hl as [[H4 H100]|H400].
  - rewrite (proj2 (Z.eqb_eq (Z.rem _ 4) 0)), (proj2 (Z.eqb_neq (Z.rem _ 100) 0)) by dlia. done.
  - rewrite (proj2 (Z.eqb_eq (Z.rem _ 400) 0)) by dlia. by rewrite orb_true_r.
Qed.

Lemma max_day_civil era yoe doy (mp := Z.quot (5 * doy + 2) 153) (d := doy - Z.quot (153 * mp + 2) 5 + 1) :
  0 <= doy <= 365 -> (doy = 365 -> is_leap (yoe + era * 400 + 1) = true) ->
  let m := if mp <? 10 then mp + 3 else mp - 9 in
  let y := if m <=? 2 then yoe + era * 400 + 1 else yoe + era * 400 in
  d <= max_day y m.
Proof.
  intros Hd Hleap m y. pose proof (month_of_year doy Hd) as (Hmp & Hd31 & Hd30 & Hd29). fold mp d in Hmp, Hd31, Hd30, Hd29.
  subst y m. clearbody d mp.
  assert (mp = 0 \/ mp = 1 \/ mp = 2 \/ mp = 3 \/ mp = 4 \/ mp = 5 \/ mp = 6 \/ mp = 7 \/ mp = 8 \/ mp = 9 \/ mp = 10 \/ mp = 11) as Hc by lia.
  repeat (destruct Hc as [Hc|Hc]; [subst mp; simpl; first [lia|apply Hd30; set_solver]|]).
  subst mp. destruct (Hd29 eq_refl) as [H29 H365]. simpl. destruct (Z.eq_dec d 29) as [E|]; [|destruct (is_leap _); lia].
  rewrite (Hleap (H365 E)). lia.
Qed.

(** The first and last four-digit years are whole. *)
Lemma year_low era yoe doy doe :
  doe = 365 * yoe + Z.quot yoe 4 - Z.quot yoe 100 + doy -> 0 <= yoe <= 399 -> 0 <= doy <= 365 -> 0 <= doe < 146097 ->
  -60 <= 146097 * era + doe -> era < 0 -> era = -1 /\ yoe = 399 /\ 306 <= doy.
Proof.
  intros Hdoe Hy Hd Hr Hz He. assert (era = -1) as -> by lia. split; [done|]. assert (146037 <= doe) by lia.
  rewrite !Z.quot_div_nonneg in Hdoe by lia. assert (yoe / 4 < 100) by (apply Z.div_lt_upper_bound; lia).
  assert (0 <= yoe / 100) by (apply Z.div_pos; lia). assert (yoe = 399) as -> by lia.
  change (399 / 4) with 99 in *. change (399 / 100) with 3 in *. lia.
Qed.

Lemma year_high era yoe doy doe :
  doe = 365 * yoe + Z.quot yoe 4 - Z.quot yoe 100 + doy -> 0 <= yoe <= 399 -> 0 <= doe < 146097 ->
  146097 * era + doe <= 3652364 -> 9999 <= yoe + era * 400 -> yoe + era * 400 = 9999 /\ doy <= 305.
Proof.
  intros Hdoe Hy Hr Hz He. assert (era = 24) as -> by lia. assert (yoe = 399) as -> by lia. split; [done|].
  change (Z.quot 399 4) with 99 in *. change (Z.quot 399 100) with 3 in *. lia.
Qed.

Lemma late_months doy : 0 <= doy <= 365 -> (306 <= doy <-> 10 <= Z.quot (5 * doy + 2) 153).
Proof. intros. rewrite Z.quot_div_nonneg by lia. dlia. Qed.

Lemma civil_year era yoe doy doe mp :
  doe = 365 * yoe + Z.quot yoe 4 - Z.quot yoe 100 + doy -> 0 <= yoe <= 399 -> 0 <= doy <= 365 -> 0 <= doe < 146097 ->
  (306 <= doy <-> 10 <= mp) -> 0 <= mp <= 11 -> -60 <= 146097 * era + doe <= 3652364 ->
  0 <= (if (if mp <? 10 then mp + 3 else mp - 9) <=? 2 then yoe + era * 400 + 1 else yoe + era * 400) <= 9999.
Proof.
  intros Hdoe Hy Hd Hr Hmp Hm Hz. pose proof (year_low era yoe doy doe Hdoe Hy Hd Hr ltac:(apply Hz)) as Hlow.
  pose proof (year_high era yoe doy doe Hdoe Hy Hr ltac:(apply Hz)) as Hhigh. clear Hdoe Hr Hz.
  destruct (Z.ltb_spec mp 10); [rewrite (proj2 (Z.leb_gt (mp + 3) 2)) by lia|rewrite (proj2 (Z.leb_le (mp - 9) 2)) by lia]; lia.
Qed.

Lemma civil_days days (y := (civil_from_days days).1.1) (m := (civil_from_days days).1.2) (d := (civil_from_days days).2) :
  days_from_civil y m d = days /\ 1 <= m <= 12 /\ 1 <= d <= max_day y m /\
  (-719528 <= days <= 2932896 -> 0 <= y <= 9999).
Proof.
  subst y m d. unfold civil_from_days. cbn [fst snd]. set (z := days + 719468).
  assert (z = 146097 * (z / 146097) + z mod 146097) as Hz by (apply Z.div_mod; lia).
  pose proof (Z.mod_pos_bound z 146097 ltac:(lia)) as Hdoe. pose proof (year_of_era _ Hdoe) as Hy. cbn zeta in Hy.
  set (doe := z mod 146097) in *. set (era := z / 146097) in *.
  set (yoe := Z.quot (doe - Z.quot doe 1460 + _ - _) 365) in *. destruct Hy as (Hyoe & Hdoy & Hleap).
  set (doy := doe - (365 * yoe + _ - _)) in *. pose proof (month_of_year doy Hdoy) as Hm. cbn zeta in Hm.
  pose proof (max_day_civil era yoe doy Hdoy ltac:(intros E; apply leap_era; auto)) as Hmax. cbn zeta in Hmax.
  set (mp := Z.quot (5 * doy + 2) 153) in *. set (d := doy - Z.quot (153 * mp + 2) 5 + 1) in *.
  destruct Hm as (Hmp & Hd & _). split; [|split; [|split; [|intros Hr]]].
  - rewrite civil_back by done. clear Hleap Hmax. subst doy d. clearbody yoe mp era doe. subst z. lia.
  - clear -Hmp. destruct (Z.ltb_spec mp 10); lia.
  - split; [apply Hd|done].
  - apply (civil_year era yoe doy doe mp); [clear; subst doy; lia|done|done|done|by apply late_months|done|].
    rewrite <- Hz. clear -Hr. subst z. lia.
Qed.

(** ** And back: a civil date is its day's date *)

Lemma year_unique yoe doy doe (yoe' := Z.quot (doe - Z.quot doe 1460 + Z.quot doe 36524 - Z.quot doe 146096) 365) :
  0 <= yoe <= 399 -> 0 <= doy <= 365 ->
  (doy = 365 -> ((yoe + 1) mod 4 = 0 /\ (yoe + 1) mod 100 <> 0) \/ (yoe + 1) mod 400 = 0) ->
  doe = 365 * yoe + Z.quot yoe 4 - Z.quot yoe 100 + doy -> 0 <= doe < 146097 /\ yoe' = yoe.
Proof.
  intros Hy Hd Hl Hdoe. assert (0 <= doe < 146097) as Hr by (clear yoe'; rewrite !Z.quot_div_nonneg in Hdoe by lia; dlia).
  split; [done|]. pose proof (year_of_era doe Hr) as H. cbn zeta in H. fold yoe' in H. clearbody yoe'. destruct H as (Hy' & Hd' & Hl').
  rewrite !Z.quot_div_nonneg in * by lia. destruct (Z.lt_trichotomy yoe' yoe) as [|[|]]; [exfalso|done|exfalso]; dlia.
Qed.

Lemma is_leap_mod y yoe : (y - (yoe + 1)) mod 400 = 0 -> is_leap y = true ->
  ((yoe + 1) mod 4 = 0 /\ (yoe + 1) mod 100 <> 0) \/ (yoe + 1) mod 400 = 0.
Proof.
  intros Hy. unfold is_leap. rewrite orb_true_iff, andb_true_iff, negb_true_iff, !Z.eqb_eq, Z.eqb_neq. dlia.
Qed.

(** The day of the year of a month and day, months counted from March. *)
Lemma day_of_year y m d (mp := m + (if 2 <? m then -3 else 9)) (doy := Z.quot (153 * mp + 2) 5 + d - 1) :
  1 <= m <= 12 -> 1 <= d <= max_day y m ->
  0 <= doy <= 365 /\ Z.quot (5 * doy + 2) 153 = mp /\ (if mp <? 10 then mp + 3 else mp - 9) = m /\
  (doy = 365 -> m = 2 /\ is_leap y = true).
Proof.
  intros Hm Hd. subst doy mp.
  assert (m = 1 \/ m = 2 \/ m = 3 \/ m = 4 \/ m = 5 \/ m = 6 \/ m = 7 \/ m = 8 \/ m = 9 \/ m = 10 \/ m = 11 \/ m = 12) as Hc by lia.
  destruct Hc as [Hc|[Hc|Hc]]; [| |repeat (destruct Hc as [Hc|Hc])]; subst m; cbn [max_day] in Hd;
    try destruct (is_leap y) eqn:El; simpl; (split; [dlia|]); (split; [dlia|]); (split; [done|]); intros ?; first [done|exfalso; dlia|lia].
Qed.

Lemma civil_date y m d :
  1 <= m <= 12 -> 1 <= d <= max_day y m -> civil_from_days (days_from_civil y m d) = (y, m, d).
Proof.
  intros Hm Hd. unfold days_from_civil. set (y' := y - _). pose proof (day_of_year y m d Hm Hd) as H. cbn zeta in H.
  set (mp := m + _) in *. set (doy := Z.quot (153 * mp + 2) 5 + d - 1) in *. destruct H as (Hdoy & Hmp & Hmon & Hleap).
  set (era := Z.quot _ 400). set (yoe := y' - era * 400).
  assert (0 <= yoe <= 399) as Hyoe by (subst yoe era; clearbody y'; destruct (Z.leb_spec 0 y'); dlia).
  set (doe := yoe * 365 + _ - _ + doy).
  destruct (year_unique yoe doy doe Hyoe Hdoy) as [Hdoe Hy].
  { intros E. destruct (Hleap E) as [-> Hl]. apply (is_leap_mod y); [|done]. subst yoe y'. cbn [Z.leb Z.compare].
    replace (y - _) with (era * 400) by (cbn; lia). by rewrite Z.mod_mul by lia. }
  { subst doe. lia. }
  unfold civil_from_days. replace (era * 146097 + doe - 719468 + 719468) with (doe + era * 146097) by lia.
  rewrite Z.div_add, Z.mod_add, Z.div_small, Z.mod_small, Z.add_0_l by lia. rewrite Hy.
  replace (doe - (365 * yoe + Z.quot yoe 4 - Z.quot yoe 100)) with doy by (subst doe; lia). rewrite Hmp, Hmon.
  f_equal; [f_equal|subst doy; lia]. subst yoe y'. destruct (m <=? 2); lia.
Qed.

(** ** The text *)

Definition stamp (Y M D h mi s : bytes) : bytes :=
  Y ++ [45] ++ M ++ [45] ++ D ++ [84] ++ h ++ [58] ++ mi ++ [58] ++ s ++ [90].

Record fields (Y M D h mi s : bytes) : Prop := {
  fl_Y : length Y = 4%nat; fl_M : length M = 2%nat; fl_D : length D = 2%nat;
  fl_h : length h = 2%nat; fl_mi : length mi = 2%nat; fl_s : length s = 2%nat }.

Ltac open_fields :=
  repeat match goal with
  | H : length ?l = S _ |- _ => destruct l; [discriminate H|]; cbn [length] in H; apply Nat.succ_inj in H
  | H : length ?l = 0%nat |- _ => apply length_zero_iff_nil in H; subst l
  end.

Lemma stamp_parse Y M D h mi s :
  fields Y M D h mi s ->
  parse_rfc3339_utc (stamp Y M D h mi s) =
    (year ← ok_or (parse_i64 Y) BadNumber;
     month ← ok_or (parse_i64 M) BadNumber;
     day ← ok_or (parse_i64 D) BadNumber;
     hour ← ok_or (parse_i64 h) BadNumber;
     minute ← ok_or (parse_i64 mi) BadNumber;
     second ← ok_or (parse_i64 s) BadNumber;
     if negb ((1 <=? month) && (month <=? 12)) then Err BadMonth
     else if (23 <? hour) || (59 <? minute) || (59 <? second) then Err BadTime
     else if (day =? 0) || (max_day year month <? day) then Err BadDay
     else Ok (days_from_civil year month day * 86400 + hour * 3600 + minute * 60 + second)).
Proof. intros [HY HM HD Hh Hmi Hs]. open_fields. reflexivity. Qed.

Lemma accepted_shape t v :
  parse_rfc3339_utc t = Ok v -> exists Y M D h mi s, fields Y M D h mi s /\ t = stamp Y M D h mi s.
Proof.
  unfold parse_rfc3339_utc. destruct (Nat.eqb_spec (length t) 20) as [Hl|]; [|done]. cbn [negb].
  destruct (bad_shape t) eqn:Eb; [done|]. intros _. revert Eb. open_fields. unfold bad_shape. cbn [existsb].
  rewrite !orb_false_iff, !negb_false_iff, !bool_decide_eq_true. cbn. intros ([= ->] & [= ->] & [= ->] & [= ->] & [= ->] & [= ->] & _).
  eexists [_; _; _; _], [_; _], [_; _], [_; _], [_; _], [_; _]. split; [constructor; reflexivity|reflexivity].
Qed.

(** Every character outside the separators is a digit. *)
Definition all_digits (t : bytes) : Prop :=
  forall i b, t !! i = Some b -> existsb (Nat.eqb i) [4; 7; 10; 13; 16; 19]%nat = false -> 48 <= b <= 57.

Lemma stamp_digits Y M D h mi s :
  fields Y M D h mi s -> all_digits (stamp Y M D h mi s) -> Forall (Forall (fun b => 48 <= b <= 57)) [Y; M; D; h; mi; s].
Proof.
  intros [HY HM HD Hh Hmi Hs] Hd. open_fields.
  pose proof (fun i b H => Hd i b H) as Ht. repeat apply Forall_cons_2; try apply Forall_nil_2;
    match goal with |- 48 <= ?x <= 57 => idtac end.
  all: first [by apply (Ht 0%nat)|by apply (Ht 1%nat)|by apply (Ht 2%nat)|by apply (Ht 3%nat)|by apply (Ht 5%nat)|by apply (Ht 6%nat)
    |by apply (Ht 8%nat)|by apply (Ht 9%nat)|by apply (Ht 11%nat)|by apply (Ht 12%nat)|by apply (Ht 14%nat)|by apply (Ht 15%nat)
    |by apply (Ht 17%nat)|by apply (Ht 18%nat)].
Qed.

(** The seconds of [0000-01-01T00:00:00Z] and [9999-12-31T23:59:59Z]. *)
Definition first_stamp : Z := -62167219200.
Definition last_stamp : Z := 253402300799.

Lemma day_split secs :
  first_stamp <= secs <= last_stamp ->
  let days := Z.quot (as_i64 (secs - secs mod 86400)) 86400 in
  -719528 <= days <= 2932896 /\ secs = days * 86400 + secs mod 86400 /\ 0 <= secs mod 86400 < 86400.
Proof.
  intros Hs. unfold first_stamp, last_stamp in Hs. pose proof (Z.mod_pos_bound secs 86400 ltac:(lia)) as Hm.
  rewrite as_s_id; [|lia|width]. pose proof (Z.div_mod secs 86400 ltac:(lia)) as Hd.
  replace (secs - secs mod 86400) with (secs / 86400 * 86400) by lia. rewrite Z.quot_mul by lia. lia.
Qed.

Lemma format_reads secs : first_stamp <= secs <= last_stamp -> parse_rfc3339_utc (format_epoch_secs secs) = Ok secs.
Proof.
  intros Hs. pose proof (day_split secs Hs) as H. cbn zeta in H. unfold format_epoch_secs.
  set (days := Z.quot _ 86400) in *. destruct H as (Hr & Hsecs & Hday). pose proof (civil_days days) as Hc. cbn zeta in Hc.
  destruct (civil_from_days days) as [[y m] d]. cbn [fst snd] in Hc. destruct Hc as (Hback & Hm & Hd & Hy). specialize (Hy Hr).
  set (ds := secs mod 86400) in *. clearbody ds days. assert (d <= 31) by (unfold max_day in Hd; repeat case_match; lia).
  rewrite (Z.quot_div_nonneg ds), Z.rem_mod_nonneg, Z.rem_mod_nonneg, Z.quot_div_nonneg by first [lia|apply Z.mod_pos_bound; lia].
  assert (0 <= ds / 3600 <= 23 /\ 0 <= ds mod 3600 / 60 <= 59 /\ 0 <= ds mod 60 <= 59 /\
    ds = ds / 3600 * 3600 + ds mod 3600 / 60 * 60 + ds mod 60) as (Hh & Hmi & Hse & Hds) by dlia.
  etransitivity; [apply (stamp_parse (pad0 4 y) (pad0 2 m) (pad0 2 d) (pad0 2 (ds / 3600)) (pad0 2 (ds mod 3600 / 60)) (pad0 2 (ds mod 60)));
    split; apply pad0_length; lia|].
  unfold parse_i64, i64_min, i64_max. rewrite !parse_pad0 by lia. cbn [ok_or mbind result_bind].
  rewrite (proj2 (andb_true_iff _ _)) by lia. rewrite (proj2 (orb_false_iff _ _)) by (rewrite orb_false_iff; lia).
  rewrite (proj2 (orb_false_iff _ _)) by lia. cbn [negb]. f_equal. rewrite Hback. lia.
Qed.

Lemma days_range y m d :
  0 <= y <= 9999 -> 1 <= m <= 12 -> 1 <= d <= max_day y m -> -719528 <= days_from_civil y m d <= 2932896.
Proof.
  intros Hy Hm Hd. pose proof (day_of_year y m d Hm Hd) as H. cbn zeta in H. unfold days_from_civil.
  set (mp := m + _) in *. set (doy := Z.quot (153 * mp + 2) 5 + d - 1) in *. destruct H as (Hdoy & Hmp & Hmon & _).
  pose proof (late_months doy Hdoy) as Hlate. rewrite Hmp in Hlate. clearbody doy.
  assert (m <= 2 <-> 10 <= mp) as Hm2 by (subst mp; destruct (Z.ltb_spec 2 m); lia). clearbody mp.
  set (y' := y - _). assert (-1 <= y' <= 9999 /\ (y' = -1 -> m <= 2) /\ (y' = 9999 -> 2 < m)) as Hy'.
  { subst y'. destruct (Z.leb_spec m 2); lia. }
  clearbody y'. set (era := Z.quot _ 400). assert (0 <= y' - era * 400 <= 399) as Hyoe by (subst era; destruct (Z.leb_spec 0 y'); dlia).
  clearbody era. set (yoe := y' - era * 400) in *. assert (y' = yoe + era * 400) as Ey by (subst yoe; lia). clearbody yoe.
  rewrite !Z.quot_div_nonneg by lia. assert (-1 <= era <= 24) as He by lia. clear Hmp Hmon Hd Hy Hm.
  destruct (Z.eq_dec era (-1)) as [->|]; [assert (yoe = 399) as -> by lia|destruct (Z.eq_dec yoe 399) as [->|]];
    try change (399 / 4) with 99; try change (399 / 100) with 3; [lia| |dlia].
  destruct (Z.eq_dec era 24); lia.
Qed.

Lemma field_digits l v :
  Forall (fun b => 48 <= b <= 57) l -> (0 < length l)%nat -> parse_i64 l = Some v ->
  pad0 (length l) v = l /\ 0 <= v < 10 ^ Z.of_nat (length l).
Proof. apply pad0_parsed. Qed.

Lemma read_formats t v : all_digits t -> parse_rfc3339_utc t = Ok v -> format_epoch_secs v = t /\ first_stamp <= v <= last_stamp.
Proof.
  intros Hd Hv. destruct (accepted_shape t v Hv) as (Y & M & D & h & mi & s & Hf & ->). rewrite stamp_parse in Hv by done.
  pose proof (stamp_digits _ _ _ _ _ _ Hf Hd) as HF. destruct Hf as [HY HM HD Hh Hmi Hs]. clear Hd.
  repeat match type of Hv with context [ok_or (parse_i64 ?l) _] =>
    let x := fresh "x" in let E := fresh "E" in destruct (parse_i64 l) as [x|] eqn:E; [|discriminate Hv]; cbn [ok_or mbind result_bind] in Hv;
    let X := fresh "HX" in apply Forall_cons in HF as [X HF]; apply (field_digits _ _ X ltac:(lia)) in E; clear X;
    let R := fresh "R" in destruct E as [E R]
  end.
  rewrite HY in *. rewrite HM in *. rewrite HD in *. rewrite Hh in *. rewrite Hmi in *. rewrite Hs in *.
  rename x into y, x0 into m, x1 into d, x2 into hh, x3 into mm, x4 into ss. cbn in R, R0, R1, R2, R3, R4.
  destruct (_ && _) eqn:Em; [|done]. cbn [negb] in Hv. destruct (_ || _) eqn:Et in Hv; [done|]. destruct (_ || _) eqn:Ed in Hv; [done|].
  injection Hv as <-. rewrite !orb_false_iff in Et, Ed. assert (1 <= m <= 12) as Hm by lia. assert (1 <= d <= max_day y m) as Hd by lia.
  pose proof (days_range y m d ltac:(lia) Hm Hd) as Hdays. pose proof (civil_date y m d Hm Hd) as Hciv.
  set (days := days_from_civil y m d) in *. clearbody days. set (v := days * 86400 + hh * 3600 + mm * 60 + ss).
  assert (first_stamp <= v <= last_stamp) as Hr by (unfold first_stamp, last_stamp; subst v; lia). split; [|done].
  pose proof (day_split v Hr) as H. cbn zeta in H. unfold format_epoch_secs. set (q := Z.quot (as_i64 _) 86400) in *.
  destruct H as (_ & Hv & Hrem). assert (q = days) as -> by lia. assert (v mod 86400 = hh * 3600 + mm * 60 + ss) as -> by lia.
  rewrite Hciv. clear Hciv. assert (Z.quot (hh * 3600 + mm * 60 + ss) 3600 = hh) as -> by dlia.
  assert (Z.quot (Z.rem (hh * 3600 + mm * 60 + ss) 3600) 60 = mm) as -> by dlia.
  assert (Z.rem (hh * 3600 + mm * 60 + ss) 60 = ss) as -> by dlia. rewrite E, E0, E1, E2, E3, E4. done.
Qed.

(** Whatever is accepted, signs included, fits 64 bits. *)
Lemma timestamp_range t v : parse_rfc3339_utc t = Ok v -> is_i64 v.
Proof.
  intros Hv. destruct (accepted_shape t v Hv) as (Y & M & D & h & mi & s & [HY HM HD Hh Hmi Hs] & ->). rewrite stamp_parse in Hv by done.
  repeat match type of Hv with context [ok_or (parse_i64 ?l) _] =>
    let x := fresh "x" in let E := fresh "E" in destruct (parse_i64 l) as [x|] eqn:E; [|discriminate Hv]; cbn [ok_or mbind result_bind] in Hv;
    apply parse_signed_bound in E
  end.
  rewrite HY in *. rewrite HM in *. rewrite HD in *. rewrite Hh in *. rewrite Hmi in *. rewrite Hs in *.
  rename x into y, x0 into m, x1 into d, x2 into hh, x3 into mm, x4 into ss. cbn in E, E0, E1, E2, E3, E4.
  destruct (_ && _) eqn:Em; [|done]. cbn [negb] in Hv. destruct (_ || _) in Hv; [done|]. destruct (_ || _) in Hv; [done|].
  injection Hv as <-. assert (-20000000 <= days_from_civil y m d <= 20000000); [|width]. clear -E E1 Em.
  unfold days_from_civil. set (y' := y - _). assert (-10000 <= y' <= 10000) by (subst y'; destruct (m <=? 2); lia). clearbody y'.
  set (mp := m + _). assert (0 <= mp <= 21) by (subst mp; destruct (Z.ltb_spec 2 m); lia). clearbody mp.
  set (era := Z.quot _ 400). assert (0 <= y' - era * 400 <= 399 /\ -100 <= era <= 100) as [Hy He] by (subst era; destruct (Z.leb_spec 0 y'); dlia).
  clearbody era. set (yoe := y' - era * 400) in *. clearbody yoe. dlia.
Qed.

(** Timestamps round trip on every four-digit year: the text printed for a
    second from 0000-01-01T00:00:00Z to 9999-12-31T23:59:59Z reads back as that
    second, and any text the reader accepts whose fields are digits is exactly
    the text printed for the second it reads (so dates that do not exist, leap
    days included, are refused). *)
Theorem timestamps_roundtrip (secs : Z) (t : bytes) (v : Z) :
  (first_stamp <= secs <= last_stamp -> parse_rfc3339_utc (format_epoch_secs secs) = Ok secs) /\
  (all_digits t -> parse_rfc3339_utc t = Ok v -> format_epoch_secs v = t /\ first_stamp <= v <= last_stamp).
Proof. split; [apply format_reads|apply read_formats]. Qed.

Lemma timestamps_roundtrip_witness :
  parse_rfc3339_utc (format_epoch_secs (-1)) = Ok (-1) /\ format_epoch_secs 1078056000 = bs "2004-02-29T12:00:00Z".
Proof.
  split.
  - apply (timestamps_roundtrip (-1) [] 0). unfold first_stamp, last_stamp. lia.
  - apply (timestamps_roundtrip 0 (bs "2004-02-29T12:00:00Z") 1078056000); [|vm_compute; reflexivity].
    intros i b Hi Hs. vm_compute in Hi. do 20 (destruct i as [|i]; [injection Hi as <-; first [lia|discriminate Hs]|]). discriminate Hi.
Defined.

(** The reader's fields may carry a sign: a clock field of [-1] is below
    every upper bound it is checked against, so a text that is no timestamp is
    read as another day's second. *)
Theorem timestamp_sign_accepted :
  parse_rfc3339_utc (bs "2026-02-20T-1:00:00Z") = parse_rfc3339_utc (bs "2026-02-19T23:00:00Z") /\
  parse_rfc3339_utc (bs "2026-02--1T00:00:00Z") = parse_rfc3339_utc (bs "2026-01-30T00:00:00Z") /\
  exists v, parse_rfc3339_utc (bs "2026-02-20T-1:00:00Z") = Ok v.
Proof. split; [vm_compute; reflexivity|]. split; [vm_compute; reflexivity|]. eexists. vm_compute. reflexivity. Qed.
