(* ===== verification/Count.v ===== *)
(** * Counting members below a bound

    [cnt f n] is how many of [0 .. n-1] satisfy [f].  Ranks, populations and
    prefix sums of the id set are all instances; the lemmas here split a count
    at a bound, relate it to population counts of machine words and to the
    length of sorted lists. *)

From S2P Require Import Prelude.

Definition b2z (b : bool) : Z := if b then 1 else 0.

Fixpoint cnt (f : Z -> bool) (n : nat) : Z :=
  match n with
  | O => 0
  | S n => cnt f n + b2z (f (Z.of_nat n))
  end.

Lemma cnt_ext f g n : (forall i, 0 <= i < Z.of_nat n -> f i = g i) -> cnt f n = cnt g n.
Proof.
  induction n as [|n IH]; intros H; simpl; [done|].
  rewrite IH, (H (Z.of_nat n)); [done|lia|]. intros. apply H. lia.
Qed.

Lemma cnt_nonneg f n : 0 <= cnt f n.
Proof. induction n as [|n IH]; simpl; [done|]. destruct (f (Z.of_nat n)); simpl; lia. Qed.

Lemma cnt_le f n : cnt f n <= Z.of_nat n.
Proof. induction n as [|n IH]; simpl; [done|]. destruct (f (Z.of_nat n)); simpl; lia. Qed.

Lemma cnt_false f n : (forall i, 0 <= i < Z.of_nat n -> f i = false) -> cnt f n = 0.
Proof.
  intros H. rewrite (cnt_ext f (fun _ => false) n H). clear H.
  induction n as [|n IH]; simpl; [done|]. by rewrite IH.
Qed.

Lemma cnt_add f a b : cnt f (a + b) = cnt f a + cnt (fun i => f (Z.of_nat a + i)) b.
Proof.
  induction b as [|b IH]; [rewrite Nat.add_0_r; simpl; lia|].
  rewrite Nat.add_succ_r. simpl. rewrite IH.
  replace (Z.of_nat (a + b)) with (Z.of_nat a + Z.of_nat b) by lia. lia.
Qed.

Lemma cnt_S_l f n : cnt f (S n) = b2z (f 0) + cnt (fun i => f (1 + i)) n.
Proof.
  change (S n) with (1 + n)%nat. rewrite cnt_add. cbn [cnt].
  change (Z.of_nat 0) with 0. change (Z.of_nat 1) with 1. lia.
Qed.

Lemma cnt_mono f a b : (a <= b)%nat -> cnt f a <= cnt f b.
Proof.
  intros H. replace b with (a + (b - a))%nat by lia. rewrite cnt_add.
  pose proof (cnt_nonneg (fun i => f (Z.of_nat a + i)) (b - a)). lia.
Qed.

(** A member below the bound is counted; a count is zero only without one. *)
Lemma cnt_lt f a b : 0 <= a < b -> f a = true -> cnt f (Z.to_nat a) < cnt f (Z.to_nat b).
Proof.
  intros Hab Hf. assert (S (Z.to_nat a) <= Z.to_nat b)%nat as Hle by lia.
  pose proof (cnt_mono f _ _ Hle) as H. simpl in H.
  rewrite Z2Nat.id, Hf in H by lia. simpl in H. lia.
Qed.

(** Several blocks of the same size. *)
Lemma cnt_blocks (f : Z -> bool) (size k : nat) (g : nat -> Z) :
  (forall j, (j < k)%nat -> cnt (fun i => f (Z.of_nat (j * size) + i)) size = g j) ->
  cnt f (k * size) = foldr Z.add 0 (g <$> seq 0 k).
Proof.
  induction k as [|k IH]; intros H; [done|].
  rewrite seq_S, fmap_app, foldr_app. simpl.
  replace (size + k * size)%nat with (k * size + size)%nat by lia.
  rewrite cnt_add, IH by (intros; apply H; lia). rewrite H by lia.
  generalize (g <$> seq 0 k) as l. intros l.
  assert (forall a, foldr Z.add a l = foldr Z.add 0 l + a) as Ha.
  { induction l as [|x l IHl]; intros a; simpl; [lia|]. rewrite IHl. lia. }
  rewrite (Ha (g k + 0)). lia.
Qed.

(** ** Population counts *)

Fixpoint pos_ones (p : positive) : Z :=
  match p with
  | xH => 1
  | xO p => pos_ones p
  | xI p => 1 + pos_ones p
  end.

(** [count_ones] of an unsigned word. *)
Definition count_ones (w : Z) : Z := match w with Zpos p => pos_ones p | _ => 0 end.

Fixpoint pos_trailing_zeros (p : positive) : Z :=
  match p with
  | xO p => 1 + pos_trailing_zeros p
  | _ => 0
  end.

(** [u64::trailing_zeros] and [u64::leading_zeros]. *)
Definition trailing_zeros (w : Z) : Z :=
  match w with Zpos p => pos_trailing_zeros p | _ => 64 end.

Definition leading_zeros (w : Z) : Z := if w =? 0 then 64 else 63 - Z.log2 w.

Lemma cnt_testbit_double (b : bool) w n :
  cnt (Z.testbit (2 * w + b2z b)) (S n) = b2z b + cnt (Z.testbit w) n.
Proof.
  rewrite cnt_S_l. f_equal.
  - f_equal. destruct b; simpl b2z.
    + by rewrite Z.testbit_odd_0.
    + by rewrite Z.add_0_r, Z.testbit_even_0.
  - apply cnt_ext. intros i Hi. rewrite Z.add_1_l. destruct b; simpl b2z.
    + apply Z.testbit_odd_succ; lia.
    + rewrite Z.add_0_r. apply Z.testbit_even_succ; lia.
Qed.

Lemma count_ones_cnt w n : 0 <= w < 2 ^ Z.of_nat n -> count_ones w = cnt (Z.testbit w) n.
Proof.
  intros [H0 Hlt]. destruct w as [|p|p]; [|clear H0|lia].
  { symmetry. apply cnt_false. intros. apply Z.bits_0. }
  simpl count_ones. revert n Hlt. induction p as [p IH|p IH|]; intros n Hlt.
  all: destruct n as [|n]; [simpl in Hlt; lia|].
  all: rewrite Nat2Z.inj_succ, Z.pow_succ_r in Hlt by lia.
  - change (Z.pos p~1) with (2 * Z.pos p + b2z true). rewrite cnt_testbit_double.
    simpl. rewrite (IH n) by lia. done.
  - change (Z.pos p~0) with (2 * Z.pos p + b2z false). rewrite cnt_testbit_double.
    simpl. rewrite (IH n) by lia. done.
  - cbn [pos_ones]. change (Z.testbit 1) with (Z.testbit (2 * 0 + b2z true)).
    rewrite cnt_testbit_double, cnt_false; [done|]. intros. apply Z.bits_0.
Qed.

(** Masking the low [k] bits counts the members below [k]. *)
Lemma count_ones_mask w k n :
  0 <= w < 2 ^ Z.of_nat n -> (k <= n)%nat ->
  count_ones (Z.land w (2 ^ Z.of_nat k - 1)) = cnt (Z.testbit w) k.
Proof.
  intros Hw Hk. rewrite land_ones_mod by lia.
  rewrite (count_ones_cnt _ k) by (apply Z.mod_pos_bound; lia).
  apply cnt_ext. intros i Hi. apply Z.mod_pow2_bits_low. lia.
Qed.

(** ** Sorted lists *)

(** The members below a bound, listed. *)
Lemma cnt_filter (f : Z -> bool) (n : nat) :
  cnt f n = Z.of_nat (length (filter (fun i => f i = true) (seqZ 0 (Z.of_nat n)))).
Proof.
  induction n as [|n IH]; [done|].
  rewrite seqZ_S, filter_app, length_app. cbn [cnt]. rewrite IH.
  rewrite Z.add_0_l, filter_cons, filter_nil.
  destruct (f (Z.of_nat n)) eqn:Hf.
  - rewrite decide_True by done. cbn [length b2z]. lia.
  - rewrite decide_False by done. cbn [length b2z]. lia.
Qed.

(** Two strictly ascending lists with the same members are equal. *)
Lemma sorted_ext (l k : list Z) :
  StronglySorted Z.lt l -> StronglySorted Z.lt k -> (forall x, x ∈ l <-> x ∈ k) -> l = k.
Proof.
  intros Hl. revert k. induction Hl as [|x l Hl IH Hx]; intros k Hk Heq.
  { destruct k as [|y k]; [done|]. exfalso. apply (not_elem_of_nil y), Heq. set_solver. }
  destruct Hk as [|y k Hk Hy].
  { exfalso. apply (not_elem_of_nil x), Heq. set_solver. }
  rewrite Forall_forall in Hx, Hy.
  assert (x = y) as ->.
  { assert (x ∈ y :: k) as [?|Hxk]%elem_of_cons by (apply Heq; set_solver); [done|].
    assert (y ∈ x :: l) as [?|Hyl]%elem_of_cons by (apply Heq; set_solver); [done|].
    specialize (Hx _ Hyl). specialize (Hy _ Hxk). cbv beta in *. lia. }
  f_equal. apply IH; [done|]. intros z. specialize (Heq z). rewrite !elem_of_cons in Heq.
  split; intros Hz.
  - destruct (proj1 Heq (or_intror Hz)) as [->|]; [|done]. specialize (Hx _ Hz). cbv beta in *. lia.
  - destruct (proj2 Heq (or_intror Hz)) as [->|]; [|done]. specialize (Hy _ Hz). cbv beta in *. lia.
Qed.

Lemma StronglySorted_filter_lt (P : Z -> Prop) `{!forall x, Decision (P x)} (l : list Z) :
  StronglySorted Z.lt l -> StronglySorted Z.lt (filter P l).
Proof.
  induction 1 as [|x l Hs IH Hx]; [constructor|]. rewrite filter_cons.
  destruct (decide (P x)); [|done]. constructor; [done|].
  rewrite Forall_forall in *. intros y [_ Hy]%list_elem_of_filter. auto.
Qed.

Lemma StronglySorted_seqZ m n : StronglySorted Z.lt (seqZ m n).
Proof.
  destruct (Z.le_gt_cases 0 n) as [Hn|Hn]; [|rewrite seqZ_nil by lia; constructor].
  revert m. pattern n. apply natlike_ind; [..|done].
  - intros m. rewrite seqZ_nil by lia. constructor.
  - intros k Hk IH m. rewrite seqZ_cons, Z.pred_succ by lia. constructor; [done|].
    apply Forall_seqZ. lia.
Qed.

(** The members of [f] in [0, n), ascending. *)
Definition members_below (f : Z -> bool) (n : Z) : list Z :=
  filter (fun i => f i = true) (seqZ 0 n).

Lemma members_below_sorted f n : StronglySorted Z.lt (members_below f n).
Proof. apply StronglySorted_filter_lt, StronglySorted_seqZ. Qed.

Lemma elem_of_members_below f n x : x ∈ members_below f n <-> 0 <= x < n /\ f x = true.
Proof. unfold members_below. rewrite list_elem_of_filter, elem_of_seqZ. naive_solver lia. Qed.

Lemma length_members_below f n : 0 <= n -> Z.of_nat (length (members_below f n)) = cnt f (Z.to_nat n).
Proof. intros Hn. rewrite cnt_filter, Z2Nat.id by lia. done. Qed.

(** Cutting the list at a bound. *)
Lemma filter_members_below f n k :
  0 <= k <= n -> filter (fun x => x < k) (members_below f n) = members_below f k.
Proof.
  intros Hk. apply sorted_ext.
  - apply StronglySorted_filter_lt, members_below_sorted.
  - apply members_below_sorted.
  - intros x. rewrite list_elem_of_filter, !elem_of_members_below. naive_solver lia.
Qed.
