(* ===== verification/OsmId.v ===== *)
(** * Canonical order of OSM element ids ([src/osm_id.rs])

    The order is [0], then the negative ids by ascending magnitude, then the
    positive ids.  [osm_id_key] maps an id to a pair compared lexicographically;
    [blob_osm_*] derive bounds for a blob from its numeric id range; and
    [OrderWatermark] is the running check that a stream of blobs is sorted. *)

From S2P Require Import Prelude.

(** [OsmIdKey = (u8, u64)] *)
Abbreviation OsmIdKey := (Z * Z)%type.

(** ** Comparison of keys: Rust's lexicographic [Ord] on tuples *)

Definition key_cmp (a b : OsmIdKey) : comparison :=
  match a.1 ?= b.1 with Eq => a.2 ?= b.2 | c => c end.
Definition key_ltb (a b : OsmIdKey) : bool :=
  match key_cmp a b with Lt => true | _ => false end.
Definition key_leb (a b : OsmIdKey) : bool :=
  match key_cmp a b with Gt => false | _ => true end.
Definition key_max (a b : OsmIdKey) : OsmIdKey :=
  if key_ltb b a then a else b.

Definition key_le (a b : OsmIdKey) : Prop := a.1 < b.1 \/ a.1 = b.1 /\ a.2 <= b.2.
Definition key_lt (a b : OsmIdKey) : Prop := a.1 < b.1 \/ a.1 = b.1 /\ a.2 < b.2.

(** ** The key of an id and back *)

Definition osm_id_key (id : Z) : OsmIdKey :=
  if 0 <? id then (2, Z.abs id)
  else if id =? 0 then (0, 0)
  else (1, Z.abs id).

(** [wrapping_neg] on [i64]. *)
Definition wrapping_neg (z : Z) : Z := as_i64 (- z).

Definition osm_id_from_key (key : OsmIdKey) : Z :=
  if key.1 =? 0 then 0
  else if key.1 =? 1 then wrapping_neg (as_i64 key.2)
  else as_i64 key.2.

Definition osm_id_cmp (a b : Z) : comparison := key_cmp (osm_id_key a) (osm_id_key b).

(** ** Bounds of a blob from its numeric id range *)

Definition blob_osm_first_key (min_id max_id : Z) : OsmIdKey :=
  if 0 <=? min_id then osm_id_key min_id
  else if max_id <=? 0 then osm_id_key max_id
  else osm_id_key 0.

Definition blob_osm_last_key (min_id max_id : Z) : OsmIdKey :=
  if 0 <=? min_id then osm_id_key max_id
  else if max_id <=? 0 then osm_id_key min_id
  else osm_id_key max_id.

Definition blob_osm_first_id (min_id max_id : Z) : Z :=
  if 0 <=? min_id then min_id
  else if max_id <=? 0 then max_id
  else 0.

Definition blob_osm_last_id (min_id max_id : Z) : Z :=
  if (max_id <=? 0) && (min_id <? 0) then min_id else max_id.

Definition blob_osm_present_first_key (min_id max_id : Z) : OsmIdKey :=
  if (min_id <? 0) && (0 <? max_id) then osm_id_key min_id
  else blob_osm_first_key min_id max_id.

(** ** The order watermark *)

Record OrderViolation := {
  previous_kind : Z;
  previous_id : Z;
  first_id : Z;
}.

Record OrderWatermark := { last : option (Z * OsmIdKey) }.

Definition OrderWatermark_default : OrderWatermark := {| last := None |}.

Definition observe_keys (w : OrderWatermark) (kind : Z) (first last0 : OsmIdKey)
    : result OrderViolation OrderWatermark :=
  let last1 := key_max last0 first in
  match last w with
  | Some (pk, pl) =>
      if (kind <? pk) || ((kind =? pk) && key_ltb first pl) then
        Err {| previous_kind := pk;
               previous_id := osm_id_from_key pl;
               first_id := osm_id_from_key first |}
      else
        let last2 := if kind =? pk then key_max last1 pl else last1 in
        Ok {| last := Some (kind, last2) |}
  | None => Ok {| last := Some (kind, last1) |}
  end.

Definition observe (w : OrderWatermark) (kind min_id max_id : Z)
    : result OrderViolation OrderWatermark :=
  observe_keys w kind (blob_osm_present_first_key min_id max_id)
    (blob_osm_last_key min_id max_id).

(** ** Facts about the key order *)

Lemma key_ltb_lt a b : key_ltb a b = true <-> key_lt a b.
Proof.
  unfold key_ltb, key_cmp, key_lt.
  destruct (Z.compare_spec a.1 b.1), (Z.compare_spec a.2 b.2); split; intros; try done; lia.
Qed.

Lemma key_leb_le a b : key_leb a b = true <-> key_le a b.
Proof.
  unfold key_leb, key_cmp, key_le.
  destruct (Z.compare_spec a.1 b.1), (Z.compare_spec a.2 b.2); split; intros; try done; lia.
Qed.

Lemma key_ltb_ge a b : key_ltb a b = false <-> key_le b a.
Proof.
  unfold key_ltb, key_cmp, key_le.
  destruct (Z.compare_spec a.1 b.1), (Z.compare_spec a.2 b.2); split; intros; try done; lia.
Qed.

Lemma key_le_refl a : key_le a a.
Proof. unfold key_le. lia. Qed.

Lemma key_le_trans a b c : key_le a b -> key_le b c -> key_le a c.
Proof. unfold key_le. lia. Qed.

Lemma key_le_total a b : key_le a b \/ key_le b a.
Proof. unfold key_le. lia. Qed.

Lemma key_le_antisym a b : key_le a b -> key_le b a -> a = b.
Proof. destruct a, b. unfold key_le; simpl. intros. f_equal; lia. Qed.

Lemma key_max_l a b : key_le a (key_max a b).
Proof.
  unfold key_max. destruct (key_ltb b a) eqn:E; [apply key_le_refl|].
  by apply key_ltb_ge.
Qed.

Lemma key_max_r a b : key_le b (key_max a b).
Proof.
  unfold key_max. destruct (key_ltb b a) eqn:E; [|apply key_le_refl].
  apply key_ltb_lt in E. unfold key_lt, key_le in *. lia.
Qed.

Lemma key_max_case a b : key_max a b = a \/ key_max a b = b.
Proof. unfold key_max. destruct (key_ltb b a); auto. Qed.

#[export] Hint Resolve key_le_refl key_max_l key_max_r : pbf.

(** Unfolds every key of an id and reduces the goal to integer arithmetic. *)
Ltac keys :=
  unfold osm_id_key, key_le, key_lt, i64_min, i64_max in *;
  repeat case_match; unbool; simpl in *; try lia.

(** The key is injective. *)
Lemma osm_id_key_inj a b : osm_id_key a = osm_id_key b -> a = b.
Proof. unfold osm_id_key. intros H. repeat case_match; simplify_eq; unbool; lia. Qed.

Lemma osm_id_from_key_key id : is_i64 id -> osm_id_from_key (osm_id_key id) = id.
Proof.
  intros H. unfold osm_id_key, osm_id_from_key, wrapping_neg.
  destruct (Z.ltb_spec 0 id) as [?|?]; [|destruct (Z.eqb_spec id 0) as [->|?]]; simpl;
    [width|done|width].
Qed.

Lemma osm_id_cmp_eq a b : osm_id_cmp a b = Eq <-> a = b.
Proof.
  split.
  - unfold osm_id_cmp, key_cmp. intros H.
    destruct (Z.compare_spec (osm_id_key a).1 (osm_id_key b).1); try done.
    apply Z.compare_eq in H. apply osm_id_key_inj.
    by apply injective_projections.
  - intros ->. unfold osm_id_cmp, key_cmp. by rewrite !Z.compare_refl.
Qed.

(** Every id of a numeric range lies between the range's first and last key. *)
Lemma blob_keys_bound min_id max_id x :
  min_id <= x <= max_id ->
  key_le (blob_osm_first_key min_id max_id) (osm_id_key x) /\
  key_le (osm_id_key x) (blob_osm_last_key min_id max_id).
Proof. intros H. unfold blob_osm_first_key, blob_osm_last_key. split; keys. Qed.

(** The last key is the key of an end of the range, so of an element a blob
    with exact ends holds. *)
Lemma blob_last_key_present min_id max_id :
  blob_osm_last_key min_id max_id = osm_id_key min_id \/
  blob_osm_last_key min_id max_id = osm_id_key max_id.
Proof. unfold blob_osm_last_key. repeat case_match; auto. Qed.

Lemma blob_present_first_key_present min_id max_id :
  min_id <= max_id ->
  blob_osm_present_first_key min_id max_id = osm_id_key min_id \/
  blob_osm_present_first_key min_id max_id = osm_id_key max_id.
Proof.
  intros. unfold blob_osm_present_first_key, blob_osm_first_key.
  repeat case_match; unbool; auto.
  apply andb_false_iff in H0 as [|]; unbool; lia.
Qed.

(** On a single-sign range the present-first key bounds every element. *)
Lemma blob_present_first_bound min_id max_id x :
  min_id <= x <= max_id -> 0 <= min_id \/ max_id <= 0 ->
  key_le (blob_osm_present_first_key min_id max_id) (osm_id_key x).
Proof.
  intros Hx Hs. unfold blob_osm_present_first_key.
  destruct (Z.ltb_spec min_id 0), (Z.ltb_spec 0 max_id); simpl; try lia;
    apply (blob_keys_bound min_id max_id x Hx).
Qed.

(** ** Streams of blobs

    A blob as an order check sees it: a kind ordinal, the numeric id range of
    its index, and the ids it holds.  The range is exact when both ends are
    ids of the blob and no id lies outside. *)

Record blob := {
  bd_kind : Z;
  bd_min : Z;
  bd_max : Z;
  bd_ids : list Z;
}.

Definition exact (b : blob) : Prop :=
  bd_min b ∈ bd_ids b /\ bd_max b ∈ bd_ids b /\
  Forall (fun x => bd_min b <= x <= bd_max b) (bd_ids b).

(** Running the watermark over a stream, as the sorted readers do. *)
Fixpoint observe_all (w : OrderWatermark) (bs : list blob)
    : result OrderViolation OrderWatermark :=
  match bs with
  | [] => Ok w
  | b :: bs => w' ← observe w (bd_kind b) (bd_min b) (bd_max b); observe_all w' bs
  end.

Definition blob_elements (b : blob) : list (Z * Z) := pair (bd_kind b) <$> bd_ids b.
Definition elements (bs : list blob) : list (Z * Z) := bs ≫= blob_elements.

(** Canonical type-then-id order on [(kind, id)]. *)
Definition elem_le (a b : Z * Z) : Prop :=
  a.1 < b.1 \/ a.1 = b.1 /\ key_le (osm_id_key a.2) (osm_id_key b.2).

Lemma elem_le_trans a b c : elem_le a b -> elem_le b c -> elem_le a c.
Proof.
  unfold elem_le. intros [|[? ?]] [|[? ?]]; try lia.
  right. split; [lia|]. by eapply key_le_trans.
Qed.

Lemma elem_of_elements_head b bs x : x ∈ bd_ids b -> (bd_kind b, x) ∈ elements (b :: bs).
Proof. intros. simpl. apply elem_of_app. left. by apply list_elem_of_fmap_2. Qed.

Lemma StronglySorted_app_le {A} (R : A -> A -> Prop) (l k : list A) :
  StronglySorted R (l ++ k) ->
  StronglySorted R l /\ StronglySorted R k /\ (forall x y, x ∈ l -> y ∈ k -> R x y).
Proof.
  induction l as [|a l IH]; simpl; intros H.
  - split_and!; [constructor|done|set_solver].
  - apply StronglySorted_inv in H as [H Hall].
    destruct (IH H) as (H1 & H2 & H3). apply Forall_app in Hall as [Ha Hk].
    split_and!; [by constructor|done|].
    intros x y [->|Hx]%elem_of_cons Hy; [by eapply Forall_forall in Hk|eauto].
Qed.

Lemma StronglySorted_app_intro {A} (R : A -> A -> Prop) (l k : list A) :
  StronglySorted R l -> StronglySorted R k -> (forall x y, x ∈ l -> y ∈ k -> R x y) ->
  StronglySorted R (l ++ k).
Proof.
  induction 1 as [|a l Hl IH Ha]; simpl; intros Hk H; [done|].
  constructor; [apply IH; [done|set_solver]|].
  apply Forall_app. split; [done|]. apply Forall_forall. set_solver.
Qed.

(** The watermark after one accepted blob is the key of an element of the
    blob, or the one it had when the kind did not change. *)
Lemma observe_last_present w b w' :
  exact b -> observe w (bd_kind b) (bd_min b) (bd_max b) = Ok w' ->
  exists k, last w' = Some (bd_kind b, k) /\
    ((exists x, x ∈ bd_ids b /\ k = osm_id_key x) \/ last w = Some (bd_kind b, k)).
Proof.
  intros (Hmin & Hmax & Hall) H.
  assert (bd_min b <= bd_max b) as Hle.
  { rewrite Forall_forall in Hall. by destruct (Hall _ Hmin). }
  unfold observe, observe_keys in H.
  set (lk := key_max (blob_osm_last_key _ _) (blob_osm_present_first_key _ _)) in *.
  assert (exists x, x ∈ bd_ids b /\ lk = osm_id_key x) as (x & Hx & Hlk).
  { unfold lk. destruct (key_max_case (blob_osm_last_key (bd_min b) (bd_max b))
      (blob_osm_present_first_key (bd_min b) (bd_max b))) as [-> | ->].
    - destruct (blob_last_key_present (bd_min b) (bd_max b)) as [-> | ->]; eauto.
    - destruct (blob_present_first_key_present _ _ Hle) as [-> | ->]; eauto. }
  destruct (last w) as [[pk pl]|] eqn:Hw; [|injection H as <-; exists lk; simpl; eauto].
  destruct (_ || _); [done|]. injection H as <-. simpl. eexists. split; [done|].
  destruct (Z.eqb_spec (bd_kind b) pk) as [->|]; [|eauto].
  destruct (key_max_case lk pl) as [-> | ->]; eauto.
Qed.

Lemma observe_all_accepts bs w :
  Forall exact bs -> StronglySorted elem_le (elements bs) ->
  (forall pk pl, last w = Some (pk, pl) ->
     exists e, pl = osm_id_key e /\ forall x, x ∈ elements bs -> elem_le (pk, e) x) ->
  exists w', observe_all w bs = Ok w'.
Proof.
  revert w. induction bs as [|b bs IH]; intros w Hex Hs Hw; [by eexists|].
  apply Forall_cons in Hex as [Hb Hex]. simpl in Hs.
  apply StronglySorted_app_le in Hs as (Hs1 & Hs2 & Hlt).
  assert (exists w', observe w (bd_kind b) (bd_min b) (bd_max b) = Ok w') as [w' Hw'].
  { unfold observe, observe_keys. destruct (last w) as [[pk pl]|] eqn:E; [|eauto].
    destruct (Hw pk pl eq_refl) as (e & -> & He).
    destruct Hb as (Hmin & Hmax & Hall).
    assert (bd_min b <= bd_max b) as Hle by (rewrite Forall_forall in Hall; by apply Hall).
    assert (exists f, f ∈ bd_ids b /\
      blob_osm_present_first_key (bd_min b) (bd_max b) = osm_id_key f) as (f & Hf & ->)
      by (destruct (blob_present_first_key_present _ _ Hle) as [-> | ->]; eauto).
    specialize (He _ (elem_of_elements_head b bs f Hf)). unfold elem_le in He; simpl in He.
    destruct (Z.ltb_spec (bd_kind b) pk), (Z.eqb_spec (bd_kind b) pk); simpl; try lia; eauto.
    destruct He as [|[_ He]]; [lia|]. apply key_ltb_ge in He. rewrite He. eauto. }
  simpl. rewrite Hw'. simpl. apply (IH w' Hex Hs2).
  intros pk pl Hl.
  destruct (observe_last_present w b w' Hb Hw') as (k & Hk & Hor).
  rewrite Hl in Hk. simplify_eq.
  destruct Hor as [(x & Hx & ->)|Hor].
  - exists x. split; [done|]. intros y Hy. apply Hlt; [|done]. by apply list_elem_of_fmap_2.
  - destruct (Hw _ _ Hor) as (e & -> & He). exists e. split; [done|].
    intros y Hy. apply He. simpl. apply elem_of_app. by right.
Qed.

(** The order watermark refuses only real disorder: over any stream of
    blobs with exact ranges whose elements, read in file order, are in
    canonical type-then-id order (mixed-sign ranges included), [observe]
    accepts every blob. *)
Theorem watermark_accepts_sorted (bs : list blob) :
  Forall exact bs -> StronglySorted elem_le (elements bs) ->
  exists w, observe_all OrderWatermark_default bs = Ok w.
Proof. intros Hex Hs. by apply observe_all_accepts. Qed.

Definition sample_blobs : list blob :=
  [ {| bd_kind := 0; bd_min := -1; bd_max := -1; bd_ids := [-1] |};
    {| bd_kind := 0; bd_min := -2; bd_max := 1; bd_ids := [-2; 1] |};
    {| bd_kind := 1; bd_min := 5; bd_max := 9; bd_ids := [5; 9] |} ].

Lemma sample_blobs_exact : Forall exact sample_blobs.
Proof.
  repeat constructor; unfold exact; simpl; split_and?; repeat constructor; simpl; lia.
Qed.

Lemma sample_blobs_sorted : StronglySorted elem_le (elements sample_blobs).
Proof.
  unfold elements, sample_blobs; simpl. ssorted; unfold elem_le, key_le; simpl; lia.
Qed.

Lemma watermark_accepts_sorted_witness :
  exists w, observe_all OrderWatermark_default sample_blobs = Ok w.
Proof. exact (watermark_accepts_sorted sample_blobs sample_blobs_exact sample_blobs_sorted). Defined.

(** On blobs of one sign whose own ids ascend, an accepted stream is sorted. *)
Definition single_sign (b : blob) : Prop := 0 <= bd_min b \/ bd_max b <= 0.

Definition sorted_inside (b : blob) : Prop :=
  StronglySorted (fun x y => key_le (osm_id_key x) (osm_id_key y)) (bd_ids b).

Lemma blob_elements_sorted b : sorted_inside b -> StronglySorted elem_le (blob_elements b).
Proof.
  unfold sorted_inside, blob_elements. induction 1 as [|x l Hl IH Hx]; simpl; constructor; [done|].
  apply Forall_fmap. eapply Forall_impl; [exact Hx|]. intros y Hy. right. done.
Qed.

(** What an accepted blob says of the watermark before and after it. *)
Lemma observe_bounds w b w' x :
  exact b -> single_sign b ->
  observe w (bd_kind b) (bd_min b) (bd_max b) = Ok w' -> x ∈ bd_ids b ->
  (forall pk pl, last w = Some (pk, pl) ->
     pk < bd_kind b \/ pk = bd_kind b /\ key_le pl (osm_id_key x)) /\
  exists k, last w' = Some (bd_kind b, k) /\ key_le (osm_id_key x) k /\
    (forall pl, last w = Some (bd_kind b, pl) -> key_le pl k).
Proof.
  intros (Hmin & Hmax & Hall) Hsign H Hx. rewrite Forall_forall in Hall.
  pose proof (Hall x Hx) as Hr.
  pose proof (blob_present_first_bound _ _ _ Hr Hsign) as Hfirst.
  destruct (blob_keys_bound _ _ _ Hr) as [_ Hlast].
  unfold observe, observe_keys in H.
  set (f := blob_osm_present_first_key _ _) in *. set (l := blob_osm_last_key _ _) in *.
  assert (key_le (osm_id_key x) (key_max l f)) by (eapply key_le_trans; eauto with pbf).
  destruct (last w) as [[pk pl]|] eqn:E.
  - destruct (_ || _) eqn:Hc; [done|]. injection H as <-. unbool. split.
    + intros ? ? [= -> ->]. destruct (Z.eqb_spec (bd_kind b) pk0); simpl in *; [|lia].
      right. split; [lia|]. apply key_ltb_ge in H1. by eapply key_le_trans.
    + eexists. split; [done|]. destruct (Z.eqb_spec (bd_kind b) pk) as [Heq|Hne]; split.
      * eapply key_le_trans; eauto with pbf.
      * intros ? [= ?]; subst. eauto with pbf.
      * done.
      * intros ? [= ? ?]; subst. done.
  - injection H as <-. split; [done|]. eexists. split; [done|]. done.
Qed.

Lemma observe_all_sorted bs w w' :
  Forall exact bs -> Forall single_sign bs -> Forall sorted_inside bs ->
  observe_all w bs = Ok w' ->
  StronglySorted elem_le (elements bs) /\
  (forall pk pl x, last w = Some (pk, pl) -> x ∈ elements bs ->
     pk < x.1 \/ pk = x.1 /\ key_le pl (osm_id_key x.2)).
Proof.
  revert w. induction bs as [|b bs IH]; intros w Hex Hsi Hso H.
  { split; [constructor|]. intros ? ? ? _ Hx. by apply not_elem_of_nil in Hx. }
  apply Forall_cons in Hex as [Hb Hex], Hsi as [Hsb Hsi], Hso as [Hob Hso].
  simpl in H. destruct (observe w _ _ _) as [w1|] eqn:Ho; [|done].
  destruct (IH w1 Hex Hsi Hso H) as [Hs Hbound].
  simpl. split.
  - apply StronglySorted_app_intro; [by apply blob_elements_sorted|done|].
    intros x y (x0 & -> & Hx0)%list_elem_of_fmap Hy.
    destruct (observe_bounds w b w1 x0 Hb Hsb Ho Hx0) as (_ & k & Hk & Hle & _).
    destruct (Hbound _ _ y Hk Hy) as [|[? ?]]; [left; simpl; lia|].
    right. simpl. split; [done|]. by eapply key_le_trans.
  - intros pk pl x Hw [Hx|Hx]%elem_of_app.
    + apply list_elem_of_fmap in Hx as (x0 & -> & Hx0).
      destruct (observe_bounds w b w1 x0 Hb Hsb Ho Hx0) as [H1 _]. simpl. by apply H1.
    + destruct (observe_bounds w b w1 (bd_min b) Hb Hsb Ho) as (H1 & k & Hk & _ & Hpl);
        [apply Hb|].
      destruct (Hbound _ _ x Hk Hx) as [|[Heq Hkx]].
      * destruct (H1 _ _ Hw) as [|[? _]]; lia.
      * destruct (H1 _ _ Hw) as [|[-> _]]; [lia|].
        right. split; [done|]. eapply key_le_trans; [by apply Hpl|done].
Qed.

(** The converse for single-sign blobs: when every blob is sorted inside,
    has an exact range and does not mix signs, a stream the watermark accepts
    is in canonical order as a whole. *)
Theorem watermark_accepted_is_sorted (bs : list blob) (w : OrderWatermark) :
  Forall exact bs -> Forall single_sign bs -> Forall sorted_inside bs ->
  observe_all OrderWatermark_default bs = Ok w ->
  StronglySorted elem_le (elements bs).
Proof. intros ? ? ? H. by eapply observe_all_sorted. Qed.

Definition sample_blobs_one_sign : list blob :=
  [ {| bd_kind := 0; bd_min := -3; bd_max := 0; bd_ids := [0; -1; -3] |};
    {| bd_kind := 0; bd_min := 2; bd_max := 4; bd_ids := [2; 4] |};
    {| bd_kind := 2; bd_min := 1; bd_max := 1; bd_ids := [1] |} ].

Lemma watermark_accepted_is_sorted_witness :
  StronglySorted elem_le (elements sample_blobs_one_sign).
Proof.
  refine (watermark_accepted_is_sorted sample_blobs_one_sign _ _ _ _ eq_refl).
  - repeat constructor; unfold exact; simpl; split_and?; repeat constructor; simpl; lia.
  - repeat apply Forall_cons_2; try apply Forall_nil_2; unfold single_sign; simpl; lia.
  - repeat apply Forall_cons_2; try apply Forall_nil_2;
      unfold sorted_inside; simpl; ssorted; unfold key_le; simpl; lia.
Defined.

(** [osm_id_key] and [osm_id_from_key] are inverse on every [i64],
    [i64::MIN] included, and the key decides identity: two ids compare equal
    exactly when they are the same id. *)
Theorem osm_id_key_roundtrip (id : Z) :
  is_i64 id ->
  osm_id_from_key (osm_id_key id) = id /\ (forall b, osm_id_cmp id b = Eq <-> id = b).
Proof. intros H. split; [by apply osm_id_from_key_key|]. intros b. apply osm_id_cmp_eq. Qed.

Lemma osm_id_key_roundtrip_witness :
  osm_id_from_key (osm_id_key i64_min) = i64_min /\
  (forall b, osm_id_cmp i64_min b = Eq <-> i64_min = b).
Proof. apply osm_id_key_roundtrip. unfold is_s, i64_min; lia. Defined.

(** The conservative key span of a blob's numeric range covers every id in
    the range, so a blob whose span misses a key holds no element with it. *)
Theorem blob_span_conservative (min_id max_id x : Z) :
  min_id <= x <= max_id ->
  key_leb (blob_osm_first_key min_id max_id) (osm_id_key x) = true /\
  key_leb (osm_id_key x) (blob_osm_last_key min_id max_id) = true.
Proof. intros H. rewrite !key_leb_le. by apply blob_keys_bound. Qed.

Lemma blob_span_conservative_witness :
  key_leb (blob_osm_first_key (-2) 7) (osm_id_key (-1)) = true /\
  key_leb (osm_id_key (-1)) (blob_osm_last_key (-2) 7) = true.
Proof. apply blob_span_conservative. lia. Defined.
