(* ===== verification/ReorderBuffer.v ===== *)
(** * The sequence-number reorder buffer ([src/reorder_buffer.rs])

    Worker pools hand results over out of order, each with a sequence number;
    the buffer releases them in order.  [pending] holds the slots from
    [next_seq] on.  The file models every operation, states the abstract
    reorder queue ([Spec]) and proves that the buffer refines it; that items
    come out in sequence order whatever the arrival order follows from the
    refinement. *)

From S2P Require Import Prelude.

(** [tunables::DEFAULT_MAX_WINDOW] *)
Definition DEFAULT_MAX_WINDOW : nat := Z.to_nat 65536.

Section Buffer.
Context {T : Type}.

Record ReorderBuffer := {
  next_seq : nat;
  filled : nat;
  max_window : nat;
  pending : list (option T);
}.

(** The reason of a refused push. *)
Inductive Reason :=
| Stale (seq next : nat)
| WindowExceeded (seq slot_idx next max : nat)
| Duplicate (seq : nat).

Record Rejected := { rej_item : T; reason : Reason }.

(** [None] is the failed [assert!]. *)
Definition with_max_window (capacity window : nat) : option ReorderBuffer :=
  if decide (capacity <= window)%nat then
    Some {| next_seq := 0; filled := 0; max_window := window; pending := [] |}
  else None.

Definition with_capacity (capacity : nat) : option ReorderBuffer :=
  with_max_window capacity (DEFAULT_MAX_WINDOW `max` capacity).

(** [VecDeque::resize_with(n, || None)], which only grows here. *)
Definition resize_none (n : nat) (l : list (option T)) : list (option T) :=
  l ++ replicate (n - length l) None.

Definition try_push (b : ReorderBuffer) (seq : nat) (item : T)
    : ReorderBuffer * result Rejected unit :=
  if decide (seq < next_seq b)%nat then
    (b, Err {| rej_item := item; reason := Stale seq (next_seq b) |})
  else
    let slot_idx := (seq - next_seq b)%nat in
    if decide (max_window b <= slot_idx)%nat then
      (b, Err {| rej_item := item;
                 reason := WindowExceeded seq slot_idx (next_seq b) (max_window b) |})
    else
      let pending1 := if decide (length (pending b) <= slot_idx)%nat
                      then resize_none (S slot_idx) (pending b) else pending b in
      match pending1 !! slot_idx with
      | Some (Some _) =>
          ({| next_seq := next_seq b; filled := filled b; max_window := max_window b;
              pending := pending1 |},
           Err {| rej_item := item; reason := Duplicate seq |})
      | _ =>
          ({| next_seq := next_seq b; filled := S (filled b); max_window := max_window b;
              pending := <[slot_idx := Some item]> pending1 |}, Ok ())
      end.

(** [push] panics on a refusal. *)
Definition push (b : ReorderBuffer) (seq : nat) (item : T) : option ReorderBuffer :=
  match try_push b seq item with
  | (b', Ok _) => Some b'
  | (_, Err _) => None
  end.

Definition drain_filled (b : ReorderBuffer) : ReorderBuffer * list T :=
  ({| next_seq := next_seq b; filled := 0; max_window := max_window b; pending := [] |},
   omap id (pending b)).

Definition pop_ready (b : ReorderBuffer) : ReorderBuffer * option T :=
  match pending b with
  | Some item :: rest =>
      ({| next_seq := S (next_seq b); filled := filled b - 1; max_window := max_window b;
          pending := rest |}, Some item)
  | _ => (b, None)
  end.

Definition filled_len (b : ReorderBuffer) : nat := filled b.
Definition pending_len (b : ReorderBuffer) : nat := length (pending b).

(** ** The abstract reorder queue

    [delivered] are the items released so far, the item of sequence number [i]
    at position [i]; [waiting] holds the accepted items not yet released. *)

Record Spec := { delivered : list T; waiting : gmap nat T; window : nat }.

Inductive spec_push (s : Spec) (seq : nat) (item : T) : Spec -> Prop :=
| spec_push_accept :
    (length (delivered s) <= seq < length (delivered s) + window s)%nat ->
    waiting s !! seq = None ->
    spec_push s seq item
      {| delivered := delivered s; waiting := <[seq := item]> (waiting s); window := window s |}.

Definition spec_pop (s : Spec) : Spec * option T :=
  match waiting s !! length (delivered s) with
  | Some item =>
      ({| delivered := delivered s ++ [item];
          waiting := delete (length (delivered s)) (waiting s); window := window s |},
       Some item)
  | None => (s, None)
  end.

(** The refinement relation: slot [i] is the waiting item of [next_seq + i],
    nothing waits outside the slots, and [filled] counts the filled slots. *)
Record refines (b : ReorderBuffer) (s : Spec) : Prop := {
  ref_next : next_seq b = length (delivered s);
  ref_window : max_window b = window s;
  ref_slots : forall i, waiting s !! (next_seq b + i)%nat = mjoin (pending b !! i);
  ref_old : forall seq, (seq < next_seq b)%nat -> waiting s !! seq = None;
  ref_filled : filled b = length (omap id (pending b));
  ref_bound : (length (pending b) <= max_window b)%nat;
}.

Lemma omap_id_insert_None (l : list (option T)) i x :
  l !! i = Some None ->
  length (omap id (<[i := Some x]> l)) = S (length (omap id l)).
Proof.
  revert i. induction l as [|[y|] l IH]; intros [|i] H; try done; simpl in *; auto.
Qed.

Lemma omap_id_replicate_None n : omap id (replicate n (@None T)) = [].
Proof. by induction n. Qed.

Lemma mjoin_lookup_resize (l : list (option T)) n i :
  mjoin (resize_none n l !! i) = mjoin (l !! i).
Proof.
  unfold resize_none. rewrite lookup_app.
  destruct (l !! i) as [o|] eqn:E; [done|]. simpl.
  destruct (replicate _ None !! _) as [o|] eqn:E2; [|done].
  by apply lookup_replicate in E2 as [-> _].
Qed.

Lemma refines_init capacity w b :
  with_max_window capacity w = Some b ->
  refines b {| delivered := []; waiting := ∅; window := w |}.
Proof.
  unfold with_max_window. case_decide; [|done]. intros [= <-].
  split; simpl; try done; try lia.
Qed.

(** The slots a push works on: resized when the slot is past the end. *)
Lemma push_slots (b : ReorderBuffer) (slot_idx : nat) :
  (length (pending b) <= max_window b)%nat -> (slot_idx < max_window b)%nat ->
  let p := if decide (length (pending b) <= slot_idx)%nat
           then resize_none (S slot_idx) (pending b) else pending b in
  (slot_idx < length p)%nat /\ (length p <= max_window b)%nat /\
  omap id p = omap id (pending b) /\
  (forall i, mjoin (p !! i) = mjoin (pending b !! i)).
Proof.
  intros Hb Hs p. unfold p. case_decide as Hd.
  - split_and!.
    + unfold resize_none. rewrite length_app, length_replicate. lia.
    + unfold resize_none. rewrite length_app, length_replicate. lia.
    + unfold resize_none. rewrite omap_app, omap_id_replicate_None. by rewrite app_nil_r.
    + intros. apply mjoin_lookup_resize.
  - split_and!; [lia|lia|done|done].
Qed.

Lemma try_push_refines b s seq item :
  refines b s ->
  match try_push b seq item with
  | (b', Ok _) => exists s', spec_push s seq item s' /\ refines b' s'
  | (b', Err r) => b' = b /\ rej_item r = item /\ ~ (exists s', spec_push s seq item s')
  end.
Proof.
  intros [Hn Hw Hs Ho Hf Hb]. unfold try_push.
  case_decide as H1.
  { split_and!; [done|done|]. intros [s' Hp]. inversion Hp. lia. }
  case_decide as H2.
  { split_and!; [done|done|]. intros [s' Hp]. inversion Hp. lia. }
  set (idx := (seq - next_seq b)%nat) in *.
  destruct (push_slots b idx Hb ltac:(lia)) as (Hlt & Hlen & Hom & Hj).
  set (p := if decide _ then _ else _) in *.
  assert (seq = next_seq b + idx)%nat as Hseq by lia.
  destruct (p !! idx) as [[y|]|] eqn:Hp.
  - split_and!; [|done|].
    + destruct b as [n f m q]; simpl in *. f_equal. unfold p in *. case_decide; [|done].
      exfalso. specialize (Hj idx). rewrite Hp in Hj. simpl in Hj.
      rewrite lookup_ge_None_2 in Hj by done. done.
    + intros [s' Hpp]. inversion Hpp as [_ Hnone].
      rewrite Hseq, Hs, <- Hj, Hp in Hnone. done.
  - eexists. split.
    + constructor; [lia|]. rewrite Hseq, Hs, <- Hj, Hp. done.
    + split; simpl; try done.
      * intros i. rewrite Hseq. destruct (decide (i = idx)) as [->|Hne].
        -- rewrite lookup_insert_eq, list_lookup_insert_eq by done. done.
        -- rewrite lookup_insert_ne by lia. rewrite list_lookup_insert_ne by done.
           by rewrite Hs, Hj.
      * intros q Hq. rewrite lookup_insert_ne by lia. auto.
      * rewrite omap_id_insert_None by done. by rewrite Hom, Hf.
      * by rewrite length_insert.
  - apply lookup_ge_None in Hp. lia.
Qed.

Lemma pop_ready_refines b s :
  refines b s -> refines (pop_ready b).1 (spec_pop s).1 /\ (pop_ready b).2 = (spec_pop s).2.
Proof.
  intros Href. pose proof Href as [Hn Hw Hs Ho Hf Hb]. unfold pop_ready, spec_pop.
  pose proof (Hs 0%nat) as H0. rewrite Nat.add_0_r, Hn in H0. rewrite H0.
  destruct (pending b) as [|[x|] q] eqn:Hp; simpl; [done| |done].
  split; [|done]. split; simpl; try done.
  - rewrite length_app, Hn. simpl. lia.
  - intros i. rewrite <- Hn, lookup_delete_ne by lia.
    specialize (Hs (S i)). simpl in Hs. rewrite <- Hs. f_equal. lia.
  - intros q' Hq. rewrite <- Hn. destruct (decide (q' = next_seq b)) as [->|].
    + apply lookup_delete_eq.
    + rewrite lookup_delete_ne by done. apply Ho. lia.
  - rewrite Hf, ?Hp. change (omap id (Some x :: q)) with (x :: omap id q). simpl. lia.
  - rewrite ?Hp in Hb. simpl in Hb. lia.
Qed.

(** ** Histories of operations *)

Inductive op := OpPush (seq : nat) (item : T) | OpPop.

(** Runs a history; a refused push leaves the buffer and continues, as the
    gzip writer's consumer does.  Returns the items released, in order. *)
Fixpoint run (b : ReorderBuffer) (ops : list op) : ReorderBuffer * list T :=
  match ops with
  | [] => (b, [])
  | OpPush seq item :: ops => run (try_push b seq item).1 ops
  | OpPop :: ops =>
      let '(b', o) := pop_ready b in
      let '(b'', out) := run b' ops in
      (b'', option_list o ++ out)
  end.

(** Every waiting or delivered item was pushed under its own number. *)
Definition explained (s : Spec) (ops : list op) : Prop :=
  (forall i x, delivered s !! i = Some x -> OpPush i x ∈ ops) /\
  (forall i x, waiting s !! i = Some x -> OpPush i x ∈ ops).

Lemma spec_pop_explained s past : explained s past -> explained (spec_pop s).1 past.
Proof.
  intros [Hd Hw]. unfold spec_pop. destruct (waiting s !! _) as [x|] eqn:E; [|done].
  split; simpl; intros i y.
  - intros [?|[Hge Hy]]%lookup_app_Some; [eauto|].
    destruct (i - length (delivered s))%nat as [|k] eqn:Hk; simpl in Hy; [|by destruct k].
    simplify_eq. replace i with (length (delivered s)) by lia. eauto.
  - intros H. apply lookup_delete_Some in H as [_ H]. eauto.
Qed.
Lemma spec_push_explained s seq item s' past :
  spec_push s seq item s' -> explained s past -> explained s' (past ++ [OpPush seq item]).
Proof.
  intros Hp [Hd Hw]. inversion Hp; subst. split; simpl; intros i y H'.
  - apply elem_of_app. left. eauto.
  - apply elem_of_app. apply lookup_insert_Some in H' as [[-> ->]|[_ H']]; [right|left; eauto].
    by apply list_elem_of_singleton.
Qed.

Lemma explained_weaken s past o : explained s past -> explained s (past ++ [o]).
Proof. intros [Hd Hw]. split; intros; apply elem_of_app; left; eauto. Qed.

Lemma run_refines ops b s past :
  refines b s -> explained s past ->
  exists s', refines (run b ops).1 s' /\ explained s' (past ++ ops) /\
    delivered s' = delivered s ++ (run b ops).2 /\ window s' = window s.
Proof.
  revert b s past. induction ops as [|[seq item|] ops IH]; intros b s past Hr He; simpl.
  - exists s. rewrite !app_nil_r. done.
  - replace (past ++ OpPush seq item :: ops) with ((past ++ [OpPush seq item]) ++ ops)
      by (by rewrite <- app_assoc).
    pose proof (try_push_refines b s seq item Hr) as Hp.
    destruct (try_push b seq item) as [b' [u|r]].
    + destruct Hp as (s' & Hp & Hr'). simpl.
      assert (delivered s' = delivered s /\ window s' = window s) as [<- <-]
        by (by inversion Hp).
      apply IH; [done|]. by eapply spec_push_explained.
    + destruct Hp as (-> & _ & _). simpl. apply IH; [done|]. by apply explained_weaken.
  - replace (past ++ OpPop :: ops) with ((past ++ [OpPop]) ++ ops) by (by rewrite <- app_assoc).
    destruct (pop_ready_refines b s Hr) as [Hr' Ho].
    apply (spec_pop_explained _ past) in He. apply (explained_weaken _ _ OpPop) in He.
    destruct (IH _ _ _ Hr' He) as (s' & H1 & H2 & H3 & H4).
    destruct (pop_ready b) as [b' o]. simpl in *. destruct (run b' ops) as [b'' out]. simpl in *.
    exists s'. rewrite H3, H4, Ho.
    unfold spec_pop. destruct (waiting s !! _); simpl; split_and!; try done.
    by rewrite <- app_assoc.
Qed.

(** C32. Refinement and in-order delivery: whatever the order in which items
    arrive and whatever pushes are refused, after any history from a new buffer
    the [i]-th item released was pushed with sequence number [i], [next_seq] is
    the number of items released, [filled_len] counts the filled slots, and the
    buffer never holds more slots than its window. *)
Theorem reorder_buffer_in_order (capacity w : nat) (b0 : ReorderBuffer) (ops : list op) :
  with_max_window capacity w = Some b0 ->
  let '(b, out) := run b0 ops in
  (forall i x, out !! i = Some x -> OpPush i x ∈ ops) /\
  next_seq b = length out /\
  filled_len b = length (omap id (pending b)) /\
  (pending_len b <= w)%nat.
Proof.
  intros Hb0. pose proof (refines_init _ _ _ Hb0) as Hr.
  destruct (run_refines ops b0 _ [] Hr) as (s & [Hn Hw _ _ Hf Hbd] & [Hd _] & Hout & Hwin);
    [by split|].
  destruct (run b0 ops) as [b out]. simpl in *. rewrite Hout in Hn, Hd.
  unfold filled_len, pending_len. rewrite Hwin in Hw. simpl in *. split_and!; [exact Hd|done|done|lia].
Qed.

(** ** Completeness: every permutation of a window is released in order *)

Fixpoint push_all (b : ReorderBuffer) (l : list (nat * T)) : option ReorderBuffer :=
  match l with
  | [] => Some b
  | (seq, x) :: l => b' ← push b seq x; push_all b' l
  end.

(** Pops until the front slot is not ready. *)
Fixpoint pop_all (fuel : nat) (b : ReorderBuffer) : ReorderBuffer * list T :=
  match fuel with
  | O => (b, [])
  | S fuel =>
      match pop_ready b with
      | (b', Some x) => let '(b'', out) := pop_all fuel b' in (b'', x :: out)
      | (b', None) => (b', [])
      end
  end.

Lemma push_all_ok l b s :
  refines b s -> NoDup l.*1 ->
  Forall (fun p => (length (delivered s) <= p.1 < length (delivered s) + window s)%nat
                   /\ waiting s !! p.1 = None) l ->
  exists b' s', push_all b l = Some b' /\ refines b' s' /\
    delivered s' = delivered s /\
    (forall i, waiting s' !! i = match list_find (fun p => p.1 = i) l with
                               | Some (_, p) => Some p.2 | None => waiting s !! i end).
Proof.
  revert b s. induction l as [|[q x] l IH]; intros b s Hr Hnd Hall.
  { exists b, s. done. }
  apply NoDup_cons in Hnd as [Hq Hnd]. apply Forall_cons in Hall as [[Hrange Hnone] Hall].
  pose proof (try_push_refines b s q x Hr) as Hp. simpl. unfold push.
  destruct (try_push b q x) as [b1 [u|r]].
  2:{ destruct Hp as (_ & _ & []). eexists. by constructor. }
  destruct Hp as (s1 & Hp & Hr1). inversion Hp as [Hrange' Hnone' Heq].
  destruct (IH b1 s1 Hr1 Hnd) as (b' & s' & Hb' & Hr' & Hd' & Hw').
  { subst s1. simpl. apply Forall_forall. intros [q' x'] Hin. simpl.
    rewrite Forall_forall in Hall. destruct (Hall _ Hin) as [? ?]. split; [done|].
    rewrite lookup_insert_ne; [done|]. intros ->. apply Hq.
    by apply (list_elem_of_fmap_2 fst l (q', x')). }
  exists b', s'. simpl. split_and!; [done|done|by subst s1|].
  intros i. rewrite Hw'. subst s1. simpl. case_decide as Hi.
  - subst i. rewrite (proj2 (list_find_None _ l)); [by rewrite lookup_insert_eq|].
    apply Forall_forall. intros [q' x'] Hin Heq. simpl in Heq. subst q'.
    apply Hq. by apply (list_elem_of_fmap_2 fst l (q, x')).
  - destruct (list_find (fun p => p.1 = i) l) as [[? ?]|]; simpl; [done|].
    by rewrite lookup_insert_ne.
Qed.

Lemma pop_all_spec xs fuel b s :
  refines b s -> (length xs < fuel)%nat ->
  (forall i, waiting s !! (length (delivered s) + i)%nat = xs !! i) ->
  exists b', pop_all fuel b = (b', xs) /\ (exists s', refines b' s' /\ forall i, waiting s' !! i = None).
Proof.
  revert fuel b s. induction xs as [|x xs IH]; intros fuel b s Hr Hf Hw;
    destruct fuel as [|fuel]; simpl in Hf; try lia; simpl;
    destruct (pop_ready_refines b s Hr) as [Hr' Ho];
    pose proof (Hw 0%nat) as H0; rewrite Nat.add_0_r in H0; unfold spec_pop in Hr', Ho;
    rewrite H0 in Hr', Ho; simpl in Hr', Ho;
    destruct (pop_ready b) as [b1 o]; simpl in *; subst o.
  - exists b1. split; [done|]. exists s. split; [done|]. intros i.
    destruct (decide (i < length (delivered s))%nat).
    + apply (ref_old _ _ Hr). by rewrite (ref_next _ _ Hr).
    + replace i with (length (delivered s) + (i - length (delivered s)))%nat by lia. apply Hw.
  - edestruct (IH fuel b1) as (b' & Hb' & Hs'); [exact Hr'|lia| |].
    + intros i. simpl. rewrite length_app. simpl.
      rewrite lookup_delete_ne by lia. specialize (Hw (S i)). simpl in Hw. rewrite <- Hw.
      f_equal. lia.
    + exists b'. by rewrite Hb'.
Qed.

Lemma list_find_perm_imap (xs : list T) (l : list (nat * T)) i :
  Permutation l (imap pair xs) ->
  match list_find (fun p : nat * T => p.1 = i) l with
  | Some (_, p) => Some p.2 | None => None end = xs !! i.
Proof.
  intros Hp. destruct (list_find _ l) as [[k p]|] eqn:E.
  - apply list_find_Some in E as (Hk & Hpi & _). apply list_elem_of_lookup_2 in Hk.
    rewrite Hp in Hk. apply elem_of_lookup_imap in Hk as (j & y & -> & Hy). simpl in *. by subst.
  - apply list_find_None in E. destruct (xs !! i) as [y|] eqn:Hy; [|done].
    exfalso. rewrite Forall_forall in E. apply (E (i, y)); [|done].
    rewrite Hp. apply elem_of_lookup_imap. eauto.
Qed.

(** Completeness: the items of any batch that fits the window, pushed in
    any order under their positions, are all accepted (no panic) and are then
    released exactly once each, in position order, leaving the buffer empty. *)
Theorem reorder_buffer_permutation (capacity w : nat) (b0 : ReorderBuffer)
    (xs : list T) (l : list (nat * T)) :
  with_max_window capacity w = Some b0 ->
  (length xs <= w)%nat -> Permutation l (imap pair xs) ->
  exists b1 b2, push_all b0 l = Some b1 /\ pop_all (S (length xs)) b1 = (b2, xs) /\
    filled_len b2 = 0%nat.
Proof.
  intros Hb0 Hlen Hp. pose proof (refines_init _ _ _ Hb0) as Hr.
  destruct (push_all_ok l b0 _ Hr) as (b1 & s1 & Hb1 & Hr1 & Hd1 & Hw1).
  - rewrite Hp. rewrite fmap_imap. apply NoDup_alt. intros i j k.
    rewrite !list_lookup_imap. destruct (xs !! i), (xs !! j); simpl; intros; by simplify_eq.
  - rewrite Hp. apply Forall_forall. intros [i x] (j & y & [= -> ->] & Hy)%elem_of_lookup_imap.
    simpl. apply lookup_lt_Some in Hy. split; [lia|done].
  - destruct (pop_all_spec xs (S (length xs)) b1 s1 Hr1) as (b2 & Hb2 & s2 & Hr2 & Hw2).
    + lia.
    + intros i. rewrite Hw1, Hd1. simpl. rewrite <- (list_find_perm_imap xs l i Hp).
      case_match; [case_match|]; [done|by rewrite lookup_empty].
    + exists b1, b2. split_and!; [done|done|].
      unfold filled_len. rewrite (ref_filled _ _ Hr2).
      assert (forall q : list (option T), (forall i, mjoin (q !! i) = None) -> omap id q = []) as Hnil.
      { induction q as [|[y|] q IH]; intros H; [done|by specialize (H 0%nat)|].
        apply IH. intros i. by specialize (H (S i)). }
      rewrite Hnil; [done|]. intros i. by rewrite <- (ref_slots _ _ Hr2).
Qed.
End Buffer.
Arguments ReorderBuffer : clear implicits.
Arguments Spec : clear implicits.
Arguments Rejected : clear implicits.
Arguments op : clear implicits.

Definition sample_buffer : ReorderBuffer nat :=
  {| next_seq := 0; filled := 0; max_window := 4; pending := [] |}.

Definition sample_ops : list (op nat) :=
  [OpPush 2 30; OpPush 0 10; OpPop; OpPush 0 99; OpPush 1 20; OpPop; OpPop; OpPop]%nat.

Lemma reorder_buffer_in_order_witness :
  let '(b, out) := run sample_buffer sample_ops in
  (forall i x, out !! i = Some x -> OpPush i x ∈ sample_ops) /\
  next_seq b = length out /\
  filled_len b = length (omap id (pending b)) /\
  (pending_len b <= 4)%nat.
Proof. exact (reorder_buffer_in_order 2 4 sample_buffer sample_ops eq_refl). Defined.

Example sample_run_output : (run sample_buffer sample_ops).2 = [10; 20; 30]%nat.
Proof. reflexivity. Qed.

Lemma reorder_buffer_permutation_witness :
  exists b1 b2, push_all sample_buffer [(2, 30); (0, 10); (1, 20)]%nat = Some b1 /\
    pop_all 4 b1 = (b2, [10; 20; 30]%nat) /\ filled_len b2 = 0%nat.
Proof.
  refine (reorder_buffer_permutation 2 4 sample_buffer [10; 20; 30]%nat _ eq_refl _ _).
  - simpl; lia.
  - simpl. change ([(2, 30); (0, 10); (1, 20)]%nat ≡ₚ [(0, 10); (1, 20)]%nat ++ [(2, 30)]%nat).
    apply Permutation_cons_append.
Defined.
