(* ===== verification/WritePipe.v ===== *)
(** * The pipelined writer (src/src/write/pipeline.rs, write/writer.rs)

    One producer, a pool of framing jobs and a writer thread, joined by four
    channels: the bounded item channel, the delivery window's tokens, the
    dispatch permits and the end-of-stream count.  [step] interleaves them one
    channel operation at a time; an event is a call returning to the producer.
    What a job frames is the relation [frames] (its scratch buffers are the
    worker's), what the backend does with bytes is the interface
    [OutputSink]. *)

From S2P Require Import Prelude ReorderBuffer.

Definition PIPELINE_DISPATCH_PERMITS : nat := 64.
Definition WRITE_AHEAD : nat := PIPELINE_DISPATCH_PERMITS.
Definition PIPELINE_DELIVERY_WINDOW : nat := 512.

(** ** The writing session of an output (src/src/output.rs) *)

Inductive Session := Reserved | Writing | Finished | Failed.

(** [begin]: [None] is the error of a second session. *)
Definition session_begin (s : Session) : option Session := match s with Reserved => Some Writing | _ => None end.
Definition session_finish (s : Session) : Session := match s with Writing => Finished | _ => s end.
Definition session_fail (s : Session) : Session := Failed.

(** ** Chunks and the backend *)

Section Pipe.
Context {E Input Job : Type}.

Inductive OutputChunk :=
| Raw (b : bytes)
| RawChunks (chunks : list bytes)
| CopyRange (in_file : Input) (offset len : Z).

Inductive PipeError :=
| Cause (e : E)
| EndedWithoutResult (seq : nat)
| InteriorGap (pending_len : nat)
| TrailingGap (delivered total : nat)
| FinishedBeforeAllSent
| WriterTerminated
| WriterPanicked
| Cancelled
| WriterConsumed.

Abbreviation presult := (result PipeError).

(** [OutputSink], and the backend's own finalization after the loop. *)
Class OutputSink (S : Type) := {
  write_owned : S -> bytes -> S * result E unit;
  copy_range : S -> Input -> Z -> Z -> S * result E unit;
  after_drain : S -> S * result E unit;
  sink_finish : S -> S * result E unit }.

(** What a backend promises: [file] is the output it has accepted so far, and
    an operation that succeeds appends exactly what it was handed. *)
Class OutputSinkLaws {S : Type} `{OutputSink S} (file : S -> bytes) (range : Input -> Z -> Z -> bytes) := {
  write_owned_appends s b s' : write_owned s b = (s', Ok tt) -> file s' = file s ++ b;
  copy_range_appends s i o l s' : copy_range s i o l = (s', Ok tt) ->
    file s' = file s ++ range i o l /\ Z.of_nat (length (range i o l)) = l;
  after_drain_keeps s s' : after_drain s = (s', Ok tt) -> file s' = file s;
  finish_keeps_file s s' : sink_finish s = (s', Ok tt) -> file s' = file s }.

Context {S : Type} `{OutputSink S} (frames : Job -> result E bytes -> Prop).

Definition accept (s : S * Z) (b : bytes) : (S * Z) * result E unit :=
  let '(sink, written) := s in
  match write_owned sink b with
  | (sink, Ok _) => ((sink, written + Z.of_nat (length b)), Ok tt)
  | (sink, Err e) => ((sink, written), Err e)
  end.

Fixpoint accept_all (s : S * Z) (chunks : list bytes) : (S * Z) * result E unit :=
  match chunks with
  | [] => (s, Ok tt)
  | b :: chunks => match accept s b with (s, Ok _) => accept_all s chunks | r => r end
  end.

Definition hand_off (s : S * Z) (chunk : OutputChunk) : (S * Z) * result E unit :=
  match chunk with
  | Raw b => accept s b
  | RawChunks chunks => accept_all s chunks
  | CopyRange in_file offset len =>
      match copy_range s.1 in_file offset len with
      | (sink, Ok _) => ((sink, s.2 + len), Ok tt)
      | (sink, Err e) => ((sink, s.2), Err e)
      end
  end.

(** ** The writer thread *)

Inductive Phase := Receiving | Draining.

Record Thread := mkThread {
  th_pending : ReorderBuffer (presult OutputChunk);
  th_sink : S * Z;
  th_phase : Phase }.

Inductive WriterThread := Running (t : Thread) | Exited (r : presult unit) (sink : S * Z).

Definition check_stream_complete (pending_len delivered : nat) (expected : option nat) : presult unit :=
  if (0 <? pending_len)%nat then Err (InteriorGap pending_len)
  else match expected with
       | Some total => if (delivered <? total)%nat then Err (TrailingGap delivered total) else Ok tt
       | None => Ok tt
       end.

Definition cause {A} (r : result E A) : presult A := match r with Ok a => Ok a | Err e => Err (Cause e) end.

(** One received item: [push] panics on a refusal. *)
Definition thread_recv (t : Thread) (seq : nat) (d : presult OutputChunk) : WriterThread :=
  match push (th_pending t) seq d with
  | Some b => Running (mkThread b (th_sink t) Draining)
  | None => Exited (Err WriterPanicked) (th_sink t)
  end.

(** One turn of the inner loop; [true] when a window token goes back. *)
Definition thread_drain (t : Thread) : WriterThread * bool :=
  match pop_ready (th_pending t) with
  | (b, Some (Ok chunk)) =>
      match hand_off (th_sink t) chunk with
      | (s, Ok _) => (Running (mkThread b s Draining), true)
      | (s, Err e) => (Exited (Err (Cause e)) s, false)
      end
  | (b, Some (Err e)) => (Exited (Err e) (th_sink t), false)
  | (b, None) =>
      match after_drain (th_sink t).1 with
      | (sink, Ok _) => (Running (mkThread b (sink, (th_sink t).2) Receiving), false)
      | (sink, Err e) => (Exited (Err (Cause e)) (sink, (th_sink t).2), false)
      end
  end.

(** The channel closed: prove the stream complete, then finish the output. *)
Definition thread_close (t : Thread) (expected : option nat) : WriterThread :=
  match check_stream_complete (pending_len (th_pending t)) (next_seq (th_pending t)) expected with
  | Err e => Exited (Err e) (th_sink t)
  | Ok _ => let '(sink, r) := sink_finish (th_sink t).1 in Exited (cause r) (sink, (th_sink t).2)
  end.

(** ** Jobs and the producer *)

(** A framing job: before framing, with a result to send (and whether a failed
    send is to be recorded), and with only its permit left. *)
Inductive JobState :=
| JFraming (seq : nat) (j : Job)
| JSending (seq : nat) (d : presult OutputChunk) (records : bool)
| JHolding.

Inductive Call := CBlock (j : Job) | CRaw (chunk : OutputChunk).

Inductive Producer :=
| PIdle
| PToken (c : Call)
| PPermit (c : Call)
| PSend (seq : nat) (chunk : OutputChunk)
| PRecoverWait (c : Call) (taken : nat)
| PRecoverJoin (c : Call)
| PCloseWait (flushing : bool) (taken : nat)
| PCloseJoin (flushing : bool)
| PFinished
| PDropped.

Record Pipe := mkPipe {
  p_seq : nat;
  p_permits : nat;
  p_tokens : nat;
  p_items : list (nat * presult OutputChunk);
  p_jobs : list JobState;
  p_gone : bool;
  p_expected : option nat;
  p_tx : bool;
  p_thread : WriterThread;
  p_handle : bool;
  p_session : option Session;
  p_producer : Producer }.

(** Calls returning: a write, or a flush. *)
Inductive Event := EWrite (c : Call) (r : presult unit) | EFlush (r : presult unit).

(** [WritePipeline::spawn]: the header is already in the sink. *)
Definition pipe_new (b : ReorderBuffer (presult OutputChunk)) (sink : S * Z) (session : option Session) : Pipe :=
  mkPipe 0 PIPELINE_DISPATCH_PERMITS PIPELINE_DELIVERY_WINDOW [] [] false None true
    (Running (mkThread b sink Receiving)) true session PIdle.

(** What the join of an exited writer thread tells a write that recovers it. *)
Definition recovered (handle : bool) (r : presult unit) : PipeError :=
  if handle then match r with Err e => e | Ok _ => FinishedBeforeAllSent end else WriterTerminated.

Definition holds_sender (j : JobState) : bool := match j with JHolding => false | _ => true end.

(** No sender of the item channel is left. *)
Definition senders_gone (tx : bool) (jobs : list JobState) : bool := negb tx && negb (existsb holds_sender jobs).

(** ** Calls begin *)

Definition fail (ss : option Session) : option Session := session_fail <$> ss.

(** The caller's side: a cancelled token or a finished pipeline answers at
    once, a recorded death goes to recovery, anything else reserves a slot. *)
Inductive starts : Pipe -> option Event -> Pipe -> Prop :=
| start_cancelled n pm tk ch js g ex tx th h ss pr c :
    pr = PIdle \/ pr = PFinished ->
    starts (mkPipe n pm tk ch js g ex tx th h ss pr) (Some (EWrite c (Err Cancelled)))
           (mkPipe n pm tk ch js g ex tx th h (fail ss) pr)
| start_consumed n pm tk ch js g ex tx th h ss c :
    starts (mkPipe n pm tk ch js g ex tx th h ss PFinished) (Some (EWrite c (Err WriterConsumed)))
           (mkPipe n pm tk ch js g ex tx th h (fail ss) PFinished)
| start_gone n pm tk ch js ex tx th h ss c :
    starts (mkPipe n pm tk ch js true ex tx th h ss PIdle) None
           (mkPipe n pm tk ch js true ex tx th h (fail ss) (PRecoverWait c 0))
| start_write n pm tk ch js ex tx th h ss c :
    starts (mkPipe n pm tk ch js false ex tx th h ss PIdle) None
           (mkPipe n pm tk ch js false ex tx th h ss (PToken c))
| start_flush n pm tk ch js g ex tx th h ss :
    starts (mkPipe n pm tk ch js g ex tx th h ss PIdle) None
           (mkPipe n pm tk ch js g (Some n) tx th h ss (PCloseWait true 0))
| start_flush_again n pm tk ch js g ex tx th h ss :
    starts (mkPipe n pm tk ch js g ex tx th h ss PFinished) (Some (EFlush (Ok tt)))
           (mkPipe n pm tk ch js g ex tx th h (session_finish <$> ss) PFinished)
| start_drop n pm tk ch js g ex tx th h ss :
    starts (mkPipe n pm tk ch js g ex tx th h ss PIdle) None
           (mkPipe n pm tk ch js g ex tx th h ss (PCloseWait false 0)).

(** ** Everything that happens without the caller *)

Inductive moves : Pipe -> option Event -> Pipe -> Prop :=
(* reserve: the window token, then the dispatch permit and the sequence number *)
| move_token n pm tk ch js g ex tx th h ss c :
    moves (mkPipe n pm (Datatypes.S tk) ch js g ex tx th h ss (PToken c)) None
          (mkPipe n pm tk ch js g ex tx th h ss (PPermit c))
| move_token_gone n pm ch js g ex tx r k h ss c :
    moves (mkPipe n pm 0 ch js g ex tx (Exited r k) h ss (PToken c)) None
          (mkPipe n pm 0 ch js true ex tx (Exited r k) h (fail ss) (PRecoverWait c 0))
| move_dispatch n pm tk ch js g ex tx th h ss j :
    moves (mkPipe n (Datatypes.S pm) tk ch js g ex tx th h ss (PPermit (CBlock j))) (Some (EWrite (CBlock j) (Ok tt)))
          (mkPipe (Datatypes.S n) pm tk ch (js ++ [JFraming n j]) g ex tx th h ss PIdle)
| move_slot n pm tk ch js g ex tx th h ss chunk :
    moves (mkPipe n (Datatypes.S pm) tk ch js g ex tx th h ss (PPermit (CRaw chunk))) None
          (mkPipe (Datatypes.S n) pm tk ch js g ex tx th h ss (PSend n chunk))
(* send_raw, the permit held across the send *)
| move_send n pm tk ch js g ex tx t h ss seq chunk :
    (length ch < WRITE_AHEAD)%nat ->
    moves (mkPipe n pm tk ch js g ex tx (Running t) h ss (PSend seq chunk)) (Some (EWrite (CRaw chunk) (Ok tt)))
          (mkPipe n (Datatypes.S pm) tk (ch ++ [(seq, Ok chunk)]) js g ex tx (Running t) h ss PIdle)
| move_send_gone n pm tk ch js g ex tx r k h ss seq chunk :
    moves (mkPipe n pm tk ch js g ex tx (Exited r k) h ss (PSend seq chunk)) None
          (mkPipe n (Datatypes.S pm) tk ch js true ex tx (Exited r k) h (fail ss) (PRecoverWait (CRaw chunk) 0))
(* pipeline_send_error: wait_for_framing, then the join *)
| move_recover_take n pm tk ch js g ex tx th h ss c taken :
    (taken < PIPELINE_DISPATCH_PERMITS)%nat ->
    moves (mkPipe n (Datatypes.S pm) tk ch js g ex tx th h ss (PRecoverWait c taken)) None
          (mkPipe n pm tk ch js g ex tx th h ss (PRecoverWait c (Datatypes.S taken)))
| move_recover_waited n pm tk ch js g ex tx th h ss c :
    moves (mkPipe n pm tk ch js g ex tx th h ss (PRecoverWait c PIPELINE_DISPATCH_PERMITS)) None
          (mkPipe n (pm + PIPELINE_DISPATCH_PERMITS) tk ch js g ex tx th h ss (PRecoverJoin c))
| move_recover n pm tk ch js g ex tx r k h ss c :
    moves (mkPipe n pm tk ch js g ex tx (Exited r k) h ss (PRecoverJoin c)) (Some (EWrite c (Err (recovered h r))))
          (mkPipe n pm tk ch js g ex tx (Exited r k) false (fail ss) PIdle)
(* flush_inner and drop: wait_for_framing, drop the sender, join *)
| move_close_take n pm tk ch js g ex tx th h ss fl taken :
    (taken < PIPELINE_DISPATCH_PERMITS)%nat ->
    moves (mkPipe n (Datatypes.S pm) tk ch js g ex tx th h ss (PCloseWait fl taken)) None
          (mkPipe n pm tk ch js g ex tx th h ss (PCloseWait fl (Datatypes.S taken)))
| move_close_waited n pm tk ch js g ex tx th h ss fl :
    moves (mkPipe n pm tk ch js g ex tx th h ss (PCloseWait fl PIPELINE_DISPATCH_PERMITS)) None
          (mkPipe n (pm + PIPELINE_DISPATCH_PERMITS) tk ch js g ex false th h ss (PCloseJoin fl))
| move_flush n pm tk ch js g ex tx r k ss :
    moves (mkPipe n pm tk ch js g ex tx (Exited r k) true ss (PCloseJoin true)) (Some (EFlush r))
          (mkPipe n pm tk ch js g ex tx (Exited r k) false
             ((match r with Ok _ => session_finish | Err _ => session_fail end) <$> ss) PFinished)
| move_flush_joined n pm tk ch js g ex tx th ss :
    moves (mkPipe n pm tk ch js g ex tx th false ss (PCloseJoin true)) (Some (EFlush (Ok tt)))
          (mkPipe n pm tk ch js g ex tx th false (session_finish <$> ss) PFinished)
| move_drop n pm tk ch js g ex tx r k h ss :
    moves (mkPipe n pm tk ch js g ex tx (Exited r k) h ss (PCloseJoin false)) None
          (mkPipe n pm tk ch js g ex tx (Exited r k) false ss PDropped)
(* FramingJob::run; a panic, or a closure dropped unrun, drops the slot *)
| move_frame n pm tk ch js1 js2 g ex tx th h ss pr seq j r :
    frames j r ->
    moves (mkPipe n pm tk ch (js1 ++ JFraming seq j :: js2) g ex tx th h ss pr) None
          (mkPipe n pm tk ch (js1 ++ JSending seq (cause (match r with Ok b => Ok (Raw b) | Err e => Err e end)) true :: js2)
             g ex tx th h ss pr)
| move_unwind n pm tk ch js1 js2 g ex tx th h ss pr seq j :
    moves (mkPipe n pm tk ch (js1 ++ JFraming seq j :: js2) g ex tx th h ss pr) None
          (mkPipe n pm tk ch (js1 ++ JSending seq (Err (EndedWithoutResult seq)) false :: js2) g ex tx th h ss pr)
| move_job_send n pm tk ch js1 js2 g ex tx t h ss pr seq d rec :
    (length ch < WRITE_AHEAD)%nat ->
    moves (mkPipe n pm tk ch (js1 ++ JSending seq d rec :: js2) g ex tx (Running t) h ss pr) None
          (mkPipe n pm tk (ch ++ [(seq, d)]) (js1 ++ JHolding :: js2) g ex tx (Running t) h ss pr)
| move_job_send_gone n pm tk ch js1 js2 g ex tx r k h ss pr seq d rec :
    moves (mkPipe n pm tk ch (js1 ++ JSending seq d rec :: js2) g ex tx (Exited r k) h ss pr) None
          (mkPipe n pm tk ch (js1 ++ JHolding :: js2) (g || rec) ex tx (Exited r k) h ss pr)
| move_job_done n pm tk ch js1 js2 g ex tx th h ss pr :
    moves (mkPipe n pm tk ch (js1 ++ JHolding :: js2) g ex tx th h ss pr) None
          (mkPipe n (Datatypes.S pm) tk ch (js1 ++ js2) g ex tx th h ss pr)
(* deliver_in_order; an exit drops the channel with whatever it holds *)
| move_recv n pm tk ch js g ex tx t h ss pr seq d th :
    th_phase t = Receiving -> thread_recv t seq d = th ->
    moves (mkPipe n pm tk ((seq, d) :: ch) js g ex tx (Running t) h ss pr) None
          (mkPipe n pm tk (match th with Running _ => ch | Exited _ _ => [] end) js g ex tx th h ss pr)
| move_drain n pm tk ch js g ex tx t h ss pr th (back : bool) :
    th_phase t = Draining -> thread_drain t = (th, back) ->
    moves (mkPipe n pm tk ch js g ex tx (Running t) h ss pr) None
          (mkPipe n pm (if back then Datatypes.S tk else tk) (match th with Running _ => ch | Exited _ _ => [] end)
             js g ex tx th h ss pr)
| move_end n pm tk js g ex tx t h ss pr :
    th_phase t = Receiving -> senders_gone tx js = true -> (forall q c, pr <> PSend q c) ->
    moves (mkPipe n pm tk [] js g ex tx (Running t) h ss pr) None
          (mkPipe n pm tk [] js g ex tx (thread_close t ex) h ss pr).

Definition step (p : Pipe) (e : option Event) (p' : Pipe) : Prop := starts p e p' \/ moves p e p'.

Inductive runs : Pipe -> list Event -> Pipe -> Prop :=
| runs_refl p : runs p [] p
| runs_step p evs p' e p'' : runs p evs p' -> step p' e p'' -> runs p (evs ++ option_list e) p''.

End Pipe.

Arguments OutputChunk : clear implicits.
Arguments PipeError : clear implicits.
Arguments Call : clear implicits.
Arguments JobState : clear implicits.
Arguments Producer : clear implicits.
Arguments Event : clear implicits.
Arguments Thread : clear implicits.
Arguments WriterThread : clear implicits.
Arguments Pipe : clear implicits.
Arguments OutputSink : clear implicits.
