(* ===== verification/WritePipeSpec.v ===== *)
(** * What the pipelined writer guarantees

    The invariant of [WritePipe.step]: permits and window tokens are conserved,
    every reserved sequence number is in exactly one place between the
    reservation and the handoff, and what has been handed off is the output of
    the first calls, in order. *)

From S2P Require Import Prelude ReorderBuffer WritePipe.

(** Constants are atoms of the accounting. *)
#[local] Opaque PIPELINE_DISPATCH_PERMITS WRITE_AHEAD PIPELINE_DELIVERY_WINDOW.

Lemma bounds_positive :
  (0 < PIPELINE_DISPATCH_PERMITS)%nat /\ (0 < WRITE_AHEAD)%nat /\ (0 < PIPELINE_DELIVERY_WINDOW)%nat.
Proof. Transparent PIPELINE_DISPATCH_PERMITS WRITE_AHEAD PIPELINE_DELIVERY_WINDOW. cbv. lia. Qed.
#[local] Opaque PIPELINE_DISPATCH_PERMITS WRITE_AHEAD PIPELINE_DELIVERY_WINDOW.

Section Spec.
Context {E Input Job S : Type} `{Sk : OutputSink E Input S} (frames : Job -> result E bytes -> Prop).
Context (file : S -> bytes) (range : Input -> Z -> Z -> bytes) `{!OutputSinkLaws file range}.

Abbreviation Chunk := (OutputChunk Input).
Abbreviation perr := (PipeError E).
Abbreviation call := (Call Input Job).
Abbreviation event := (Event E Input Job).
Abbreviation pipe := (Pipe E Input Job S).
Abbreviation data := (result perr Chunk).

(** ** What a call is to write *)

Definition chunk_bytes (ch : Chunk) : bytes :=
  match ch with Raw b => b | RawChunks bs => concat bs | CopyRange i o l => range i o l end.

Definition yields (c : call) (ch : Chunk) : Prop :=
  match c with CBlock j => exists b, ch = Raw b /\ frames j (Ok b) | CRaw ch' => ch = ch' end.

(** The item of slot [i]: its call's output, or its call's own failure. *)
Definition may (calls : list call) (i : nat) (d : data) : Prop :=
  exists c, calls !! i = Some c /\
    match d with
    | Ok ch => yields c ch
    | Err e => match c with
               | CBlock j => (exists e0, e = Cause e0 /\ frames j (Err e0)) \/ e = EndedWithoutResult i
               | CRaw _ => False
               end
    end.

(** The failures that are causes: never a gap, a panic or a lost thread. *)
Definition real (e : perr) : Prop := match e with Cause _ | EndedWithoutResult _ => True | _ => False end.

Lemma may_mono calls more i d : may calls i d -> may (calls ++ more) i d.
Proof. intros (c & Hc & Hd). exists c. split; [by apply lookup_app_l_Some|done]. Qed.

Lemma may_real calls i e : may calls i (Err e) -> real e.
Proof. intros ([j|ch] & _ & H); [|done]. destruct H as [(e0 & -> & _)| ->]; done. Qed.

(** The calls that returned well, and the one whose slot is reserved. *)
Definition ok_write (ev : event) : option call := match ev with EWrite c (Ok _) => Some c | _ => None end.
Definition oks (evs : list event) : list call := omap ok_write evs.

Definition sending (pr : Producer Input Job) : list call := match pr with PSend _ ch => [CRaw ch] | _ => [] end.
Definition reserved (evs : list event) (p : pipe) : list call := oks evs ++ sending (p_producer p).

Definition failed_event (ev : event) : bool := match ev with EWrite _ (Err _) | EFlush (Err _) => true | _ => false end.
Definition clean (evs : list event) : Prop := Forall (fun ev => failed_event ev = false) evs.

(** ** Where a sequence number is *)

Definition job_seq (j : JobState E Input Job) : option nat :=
  match j with JFraming q _ | JSending q _ _ => Some q | JHolding => None end.
Definition in_jobs (i : nat) (js : list (JobState E Input Job)) : nat := length (filter (fun j => job_seq j = Some i) js).
Definition in_items (i : nat) (ch : list (nat * data)) : nat := length (filter (fun x => x.1 = i) ch).
Definition in_hand (i : nat) (pr : Producer Input Job) : nat :=
  match pr with PSend q _ => if decide (q = i) then 1%nat else 0%nat | _ => 0%nat end.
Definition in_wait (i : nat) (w : gmap nat data) : nat := if decide (is_Some (w !! i)) then 1%nat else 0%nat.

Lemma in_jobs_app i a b : in_jobs i (a ++ b) = (in_jobs i a + in_jobs i b)%nat.
Proof. unfold in_jobs. by rewrite filter_app, length_app. Qed.

Lemma in_jobs_cons i j js : in_jobs i (j :: js) = ((if decide (job_seq j = Some i) then 1 else 0) + in_jobs i js)%nat.
Proof. unfold in_jobs. rewrite filter_cons. by case_decide. Qed.

Lemma in_items_app i a b : in_items i (a ++ b) = (in_items i a + in_items i b)%nat.
Proof. unfold in_items. by rewrite filter_app, length_app. Qed.

Lemma in_items_cons i x ch : in_items i (x :: ch) = ((if decide (x.1 = i) then 1 else 0) + in_items i ch)%nat.
Proof. unfold in_items. rewrite filter_cons. by case_decide. Qed.

Definition job_ok (calls : list call) (j : JobState E Input Job) : Prop :=
  match j with
  | JFraming q j => calls !! q = Some (CBlock j)
  | JSending q d _ => may calls q d
  | JHolding => True
  end.

(** ** The invariant *)

Definition held (pr : Producer Input Job) : nat :=
  match pr with PSend _ _ => 1%nat | PRecoverWait _ k | PCloseWait _ k => k | _ => 0%nat end.
Definition token_held (pr : Producer Input Job) : nat := match pr with PPermit _ => 1%nat | _ => 0%nat end.
Definition closed (pr : Producer Input Job) : bool := match pr with PCloseJoin _ | PFinished | PDropped => true | _ => false end.
Definition recovering (pr : Producer Input Job) : bool := match pr with PRecoverWait _ _ | PRecoverJoin _ => true | _ => false end.
Definition ended (pr : Producer Input Job) : bool := match pr with PFinished | PDropped => true | _ => false end.
Definition exited (th : WriterThread E Input S) : bool := match th with Exited _ _ => true | Running _ => false end.

Context (base : bytes) (wrote0 : Z).

(** The output after the calls' chunks. *)
Definition output (chunks : list Chunk) (k : S * Z) : Prop :=
  file k.1 = base ++ concat (chunk_bytes <$> chunks) /\
  k.2 = wrote0 + Z.of_nat (length (concat (chunk_bytes <$> chunks))).

(** The buffer ends in an item: slots exist only up to one. *)
Definition tail_filled (b : ReorderBuffer data) : Prop := pending b = [] \/ exists x, list.last (pending b) = Some (Some x).

Lemma push_tail b q d b' : tail_filled b -> push b q d = Some b' -> tail_filled b'.
Proof.
  intros Ht. unfold push, try_push. case_decide; [done|]. case_decide; [done|].
  set (idx := (q - next_seq b)%nat). set (l := if decide _ then _ else _).
  assert (idx < length l)%nat as Hlt.
  { subst l. case_decide; [|lia]. unfold resize_none. rewrite length_app, length_replicate. lia. }
  destruct (l !! idx) as [[y|]|] eqn:El; [done| |by apply lookup_ge_None in El; lia]. intros [= <-]. right. cbn [pending].
  rewrite last_lookup, length_insert. destruct (decide (idx = pred (length l))) as [Heq|Hne].
  { exists d. rewrite <- Heq. apply list_lookup_insert_eq. lia. }
  rewrite list_lookup_insert_ne by done. clear El. unfold l in *. case_decide as Hlen.
  { exfalso. apply Hne. unfold resize_none. rewrite length_app, length_replicate. lia. }
  destruct Ht as [Hnil|[x Hx]]; [rewrite Hnil in Hlt; cbn in Hlt; lia|]. exists x. by rewrite <- last_lookup.
Qed.

Lemma pop_tail b : tail_filled b -> tail_filled (pop_ready b).1.
Proof.
  intros Ht. unfold pop_ready. destruct (pending b) as [|[x|] l] eqn:Hp; cbn [fst]; [done| |done].
  destruct Ht as [Ht|[y Hy]]; [congruence|]. rewrite Hp in Hy. destruct l as [|z l]; [by left|]. right. by exists y.
Qed.

(** A running writer thread: what it has handed off and what is on its way. *)
Record live (calls : list call) (p : pipe) (t : Thread E Input S) (chunks : list Chunk) (wait : gmap nat data) : Prop := {
  lv_refines : refines (th_pending t) {| delivered := Ok <$> chunks; waiting := wait; window := PIPELINE_DELIVERY_WINDOW |};
  lv_count : length calls = p_seq p;
  lv_behind : (length chunks <= p_seq p)%nat;
  lv_chunks : forall i ch, chunks !! i = Some ch -> exists c, calls !! i = Some c /\ yields c ch;
  lv_output : output chunks (th_sink t);
  lv_place : forall i, (in_jobs i (p_jobs p) + in_items i (p_items p) + in_hand i (p_producer p) + in_wait i wait)%nat =
    if decide (length chunks <= i < p_seq p)%nat then 1%nat else 0%nat;
  lv_jobs : Forall (job_ok calls) (p_jobs p);
  lv_items : Forall (fun x => may calls x.1 x.2) (p_items p);
  lv_wait : map_Forall (may calls) wait;
  lv_tokens : (p_tokens p + (p_seq p - length chunks) + token_held (p_producer p))%nat = PIPELINE_DELIVERY_WINDOW;
  lv_phase : th_phase t = Receiving -> wait !! length chunks = None;
  lv_slot : forall q ch, p_producer p = PSend q ch -> calls !! q = Some (CRaw ch);
  lv_tail : tail_filled (th_pending t) }.

Definition complete (evs : list event) (k : S * Z) : Prop :=
  exists chunks, Forall2 yields (oks evs) chunks /\ output chunks k.

(** Permits, the sender, the channel and the thread. *)
Record sound (evs : list event) (p : pipe) : Prop := {
  so_permits : (p_permits p + length (p_jobs p) + held (p_producer p))%nat = PIPELINE_DISPATCH_PERMITS;
  so_closed : if closed (p_producer p) then p_tx p = false /\ p_jobs p = [] else p_tx p = true;
  so_announced : match p_producer p with
                 | PCloseWait true _ | PCloseJoin true => p_expected p = Some (p_seq p)
                 | PFinished => True
                 | _ => p_expected p = None
                 end;
  so_thread : match p_thread p with
              | Running t => exists chunks wait, live (reserved evs p) p t chunks wait
              | Exited (Ok _) k => p_tx p = false /\ complete evs k
              | Exited (Err e) _ => real e
              end;
  so_gone : p_gone p = true -> exited (p_thread p) = true;
  so_recovering : recovering (p_producer p) = true -> exited (p_thread p) = true;
  so_ended : ended (p_producer p) = true -> exited (p_thread p) = true;
  so_joined : p_handle p = false -> exited (p_thread p) = true;
  so_items : exited (p_thread p) = true -> p_items p = [] }.

(** What the caller has been told, and the session. *)
Record told (evs : list event) (p : pipe) : Prop := {
  to_handle : p_handle p = false -> ~ clean evs \/ ended (p_producer p) = true;
  to_finished : p_producer p = PFinished -> ~ clean evs \/ EFlush (Ok tt) ∈ evs /\ exists k, p_thread p = Exited (Ok tt) k;
  to_failed : ~ clean evs \/ recovering (p_producer p) = true -> p_session p = None \/ p_session p = Some Failed;
  to_session : p_session p <> Some Reserved;
  to_certified : p_session p = Some Finished -> p_producer p = PFinished;
  to_flushed : EFlush (Ok tt) ∈ evs -> p_producer p = PFinished }.

(** ** The sink *)

Lemma accept_ok s b s' : accept s b = (s', Ok tt) ->
  file s'.1 = file s.1 ++ b /\ s'.2 = s.2 + Z.of_nat (length b).
Proof.
  unfold accept. destruct s as [k w]. destruct (write_owned k b) as [k' [[]|e]] eqn:Hw; [|done]. intros [= <-].
  by apply write_owned_appends in Hw.
Qed.

Lemma accept_all_ok bs s s' : accept_all s bs = (s', Ok tt) ->
  file s'.1 = file s.1 ++ concat bs /\ s'.2 = s.2 + Z.of_nat (length (concat bs)).
Proof.
  revert s. induction bs as [|b bs IH]; intros s; cbn [accept_all concat].
  { intros [= <-]. rewrite app_nil_r. cbn. split; [done|lia]. }
  destruct (accept s b) as [s1 [[]|e]] eqn:Ha; [|done]. intros [H1 H2]%IH. apply accept_ok in Ha as [H3 H4].
  rewrite H1, H2, H3, H4, <- app_assoc, length_app. split; [done|lia].
Qed.

Lemma hand_off_ok s ch s' : hand_off s ch = (s', Ok tt) ->
  file s'.1 = file s.1 ++ chunk_bytes ch /\ s'.2 = s.2 + Z.of_nat (length (chunk_bytes ch)).
Proof.
  destruct ch as [b|bs|i o l]; cbn [hand_off chunk_bytes]; [apply accept_ok|apply accept_all_ok|].
  destruct (copy_range s.1 i o l) as [k [[]|e]] eqn:Hc; [|done]. intros [= <-]. apply copy_range_appends in Hc as [? ?]. cbn. split; [done|lia].
Qed.

Lemma hand_off_output chunks s ch s' : output chunks s -> hand_off s ch = (s', Ok tt) -> output (chunks ++ [ch]) s'.
Proof.
  intros [H1 H2] [H3 H4]%hand_off_ok. unfold output. rewrite fmap_app, concat_app, H3, H1, H4, H2.
  cbn [fmap list_fmap concat]. rewrite app_nil_r, <- app_assoc, length_app. split; [done|lia].
Qed.

(** ** Events *)

Lemma oks_snoc evs ev : oks (evs ++ [ev]) = oks evs ++ option_list (ok_write ev).
Proof. unfold oks. rewrite omap_app. cbn. by destruct (ok_write ev). Qed.

Lemma clean_snoc evs ev : clean (evs ++ [ev]) <-> clean evs /\ failed_event ev = false.
Proof. unfold clean. by rewrite Forall_app, Forall_singleton. Qed.

(** ** The caller's steps keep the invariant *)

Lemma live_calls calls more p p' t chunks wait :
  live calls p t chunks wait ->
  p_seq p' = (p_seq p + length more)%nat -> p_items p' = p_items p ->
  (forall i, (in_jobs i (p_jobs p') + in_hand i (p_producer p'))%nat =
     (in_jobs i (p_jobs p) + in_hand i (p_producer p) + if decide (p_seq p <= i < p_seq p')%nat then 1 else 0)%nat) ->
  Forall (job_ok (calls ++ more)) (p_jobs p') ->
  (p_tokens p' + (p_seq p' - p_seq p) + token_held (p_producer p'))%nat = (p_tokens p + token_held (p_producer p))%nat ->
  (forall q ch, p_producer p' = PSend q ch -> (calls ++ more) !! q = Some (CRaw ch)) ->
  live (calls ++ more) p' t chunks wait.
Proof.
  intros [L1 L2 L3 L4 L5 L6 L7 L8 L9 L10 L11 L12 L13] Hseq Hit Hpl Hjobs Htok Hslot. split; try done.
  - rewrite length_app. lia.
  - lia.
  - intros i ch Hi. destruct (L4 i ch Hi) as (c & Hc & Hy). exists c. split; [by apply lookup_app_l_Some|done].
  - intros i. specialize (L6 i). specialize (Hpl i). rewrite Hit. repeat case_decide; lia.
  - rewrite Hit. eapply Forall_impl; [exact L8|]. intros x. apply may_mono.
  - intros i d Hi. apply may_mono. by apply L9.
  - lia.
Qed.

Lemma live_same calls p p' t chunks wait :
  live calls p t chunks wait -> p_seq p' = p_seq p -> p_items p' = p_items p -> p_jobs p' = p_jobs p ->
  (forall i, in_hand i (p_producer p') = in_hand i (p_producer p)) ->
  (p_tokens p' + token_held (p_producer p'))%nat = (p_tokens p + token_held (p_producer p))%nat ->
  (forall q ch, p_producer p' = PSend q ch -> p_producer p = PSend q ch) ->
  live calls p' t chunks wait.
Proof.
  intros HL Hs Hi Hj Hh Ht Hq. rewrite <- (app_nil_r calls). pose proof HL as [_ _ _ _ _ _ L7 _ _ _ _ L12 _].
  eapply live_calls; [exact HL|cbn; lia|done| | |lia|].
  - intros i. rewrite Hj, Hh, Hs. rewrite decide_False by lia. lia.
  - rewrite Hj, app_nil_r. done.
  - intros q ch H. rewrite app_nil_r. eauto.
Qed.

Lemma session_failed (ss : option Session) : (session_fail <$> ss) = None \/ (session_fail <$> ss) = Some Failed.
Proof. destruct ss; [by right|by left]. Qed.

Lemma session_fail_not (ss : option Session) s : (session_fail <$> ss) = Some s -> s = Failed.
Proof. by destruct ss; intros [= <-]. Qed.

Lemma session_finished (ss : option Session) : ss <> Some Reserved -> (session_finish <$> ss) <> Some Reserved.
Proof. by destruct ss as [[]|]. Qed.

Lemma session_finish_failed (ss : option Session) : ss = None \/ ss = Some Failed -> (session_finish <$> ss) = None \/ (session_finish <$> ss) = Some Failed.
Proof. intros [->| ->]; [by left|by right]. Qed.

(** Cases of what the caller knows: the event list grows by at most one. *)
Ltac told_auto :=
  split; unfold fail; cbn [p_handle p_producer p_session p_thread ended recovering option_list option_rect];
  rewrite ?app_nil_r, ?clean_snoc, ?elem_of_app, ?list_elem_of_singleton; cbn [failed_event];
  try (by intros; first [apply session_failed|apply session_finished]);
  try (by intros ?%session_fail_not);
  try (by intuition (congruence || eauto using session_finish_failed)).

Lemma starts_told evs p e p' : told evs p -> starts p e p' -> told (evs ++ option_list e) p'.
Proof.
  intros [T1 T2 T3 T4 T5 T6] Hst.
  destruct Hst as [n pm tk ch js g ex tx th h ss pr c Hpr|n pm tk ch js g ex tx th h ss c|n pm tk ch js ex tx th h ss c
    |n pm tk ch js ex tx th h ss c|n pm tk ch js g ex tx th h ss|n pm tk ch js g ex tx th h ss|n pm tk ch js g ex tx th h ss];
    cbn in *; told_auto.
Qed.

Lemma moves_told evs p e p' : told evs p -> moves frames p e p' -> told (evs ++ option_list e) p'.
Proof.
  intros [T1 T2 T3 T4 T5 T6] Hst. destruct Hst; cbn in *; told_auto.
  all: try (intros Hpr; destruct (T2 Hpr) as [|(_ & ? & ?)]; [by left|done]).
  all: destruct r as [[]|e]; eauto using session_failed, session_finished.
  - intros _. left. by intros [_ ?].
  - intros [H|]; [|done]. apply session_finish_failed, T3. left. intros Hc. by apply H.
  - by intros ?%session_fail_not.
Qed.

(** A step that leaves the calls, the jobs and the channel alone. *)
Ltac live_same :=
  match goal with
  | H : exists _ _, live _ _ _ _ _ |- exists _ _, live _ _ _ _ _ =>
      destruct H as (chunks & wait & HL); exists chunks, wait;
      unfold reserved in *; cbn [p_producer sending option_list option_rect] in *;
      rewrite ?oks_snoc, ?app_nil_r in *; cbn [ok_write option_list option_rect] in *; rewrite ?app_nil_r in *;
      eapply live_same; [exact HL|first [done|cbn; lia|by intros]..]
  end.

Ltac complete_same :=
  unfold complete in *; rewrite ?app_nil_r, ?oks_snoc; cbn [ok_write option_list option_rect]; rewrite ?app_nil_r; done.

Lemma starts_sound evs p e p' : sound evs p -> starts p e p' -> sound (evs ++ option_list e) p'.
Proof.
  intros [S1 S2 Sx S3 S4 S5 S6 S7 S8] Hst.
  destruct Hst as [n pm tk ch js g ex tx th h ss pr c Hpr|n pm tk ch js g ex tx th h ss c|n pm tk ch js ex tx th h ss c
    |n pm tk ch js ex tx th h ss c|n pm tk ch js g ex tx th h ss|n pm tk ch js g ex tx th h ss|n pm tk ch js g ex tx th h ss];
    split; cbn in *; try done; try lia; try (by intros; auto);
    destruct th as [t|[[]|e] k]; try done; try live_same; try complete_same.
Qed.

Ltac fields :=
  cbn [p_seq p_permits p_tokens p_items p_jobs p_gone p_expected p_tx p_thread p_handle p_session p_producer
       delivered waiting window th_pending th_sink th_phase fst snd] in *.

(** ** The writer thread *)

(** Something on its way moves from one place to the next. *)
Lemma live_moved calls p p' t chunks wait :
  live calls p t chunks wait -> p_seq p' = p_seq p ->
  (forall i, (in_jobs i (p_jobs p') + in_items i (p_items p') + in_hand i (p_producer p'))%nat =
     (in_jobs i (p_jobs p) + in_items i (p_items p) + in_hand i (p_producer p))%nat) ->
  Forall (job_ok calls) (p_jobs p') -> Forall (fun x => may calls x.1 x.2) (p_items p') ->
  (p_tokens p' + token_held (p_producer p'))%nat = (p_tokens p + token_held (p_producer p))%nat ->
  (forall q ch, p_producer p' = PSend q ch -> p_producer p = PSend q ch) ->
  live calls p' t chunks wait.
Proof.
  intros [L1 L2 L3 L4 L5 L6 L7 L8 L9 L10 L11 L12 L13] Hs Hpl Hj Hi Ht Hq.
  split; rewrite ?Hs; try done; try lia; [|eauto].
  intros i. specialize (L6 i). specialize (Hpl i). lia.
Qed.

(** The push of an item on its way is never refused. *)
Lemma recv_live calls n pm tk ch js g ex tx t h ss pr seq d chunks wait :
  let p := mkPipe n pm tk ((seq, d) :: ch) js g ex tx (Running t) h ss pr in
  live calls p t chunks wait ->
  exists b, thread_recv t seq d = Running (mkThread b (th_sink t) Draining) /\
    forall p', p' = mkPipe n pm tk ch js g ex tx (Running (mkThread b (th_sink t) Draining)) h ss pr ->
    live calls p' (mkThread b (th_sink t) Draining) chunks (<[seq := d]> wait).
Proof.
  intros p HL. subst p. destruct HL as [L1 L2 L3 L4 L5 L6 L7 L8 L9 L10 L11 L12 L13]. fields. pose proof (L6 seq) as Hseq.
  rewrite in_items_cons in Hseq. cbn [fst] in Hseq. rewrite decide_True in Hseq by done.
  case_decide as Hrange; [|lia]. assert (wait !! seq = None) as Hnone.
  { unfold in_wait in Hseq. case_decide as Hw; [lia|]. by apply eq_None_not_Some. }
  unfold thread_recv. pose proof (try_push_refines _ _ seq d L1) as Hp. pose proof (fun b' => push_tail (th_pending t) seq d b' L13) as Htl. unfold push in *.
  destruct (try_push (th_pending t) seq d) as [b [u|r]].
  - destruct Hp as (s' & Hsp & Href). inversion Hsp; subst s'. exists b. split; [done|]. intros p' ->.
    apply Forall_cons in L8 as [Hd L8]. split; fields; try done.
    + intros i. specialize (L6 i). rewrite in_items_cons in L6. cbn [fst] in L6. unfold in_wait in *.
      destruct (decide (seq = i)) as [->|Hne].
      * rewrite lookup_insert_eq. rewrite Hnone in L6. rewrite (decide_True (P := is_Some (Some d))) by eauto.
        rewrite (decide_False (P := is_Some None)) in L6 by by intros [? ?]. lia.
      * rewrite lookup_insert_ne by done. lia.
    + by apply map_Forall_insert_2.
    + by apply Htl.
  - exfalso. destruct Hp as (_ & _ & []). eexists. constructor; [|done]. fields. rewrite length_fmap. lia.
Qed.

Lemma drain_live calls n pm tk ch js g ex tx t h ss pr chunks wait th (back : bool) :
  let p := mkPipe n pm tk ch js g ex tx (Running t) h ss pr in
  live calls p t chunks wait -> thread_drain t = (th, back) ->
  match th with
  | Running t' => exists chunks' wait', forall p',
      p' = mkPipe n pm (if back then Datatypes.S tk else tk) ch js g ex tx (Running t') h ss pr -> live calls p' t' chunks' wait'
  | Exited (Ok _) _ => False
  | Exited (Err e) _ => real e
  end.
Proof.
  intros p HL Hd. subst p. destruct HL as [L1 L2 L3 L4 L5 L6 L7 L8 L9 L10 L11 L12 L13]. fields. unfold thread_drain in Hd.
  destruct (pop_ready_refines _ _ L1) as [Href Hpop]. unfold spec_pop in Href, Hpop. fields.
  rewrite length_fmap in Href, Hpop. pose proof (pop_tail _ L13) as Htl. destruct (pop_ready (th_pending t)) as [b o]. fields. subst o.
  destruct (wait !! length chunks) as [d|] eqn:Hw; fields.
  - pose proof (L9 _ _ Hw) as Hmay. destruct d as [chk|e]; [|injection Hd as <- <-; by eapply may_real].
    destruct (hand_off (th_sink t) chk) as [k [[]|e]] eqn:Hh; injection Hd as <- <-; [|done].
    exists (chunks ++ [chk]), (delete (length chunks) wait). intros p' ->.
    assert (length chunks < n)%nat as Hlt.
    { destruct Hmay as (c & Hc & _). apply lookup_lt_Some in Hc. lia. }
    split; fields; try done; rewrite ?length_app; cbn [length]; try lia.
    + rewrite fmap_app. done.
    + intros i ch' Hi. apply lookup_app_Some in Hi as [|[Hge Hi]]; [eauto|].
      apply list_lookup_singleton_Some in Hi as [Hi <-]. replace i with (length chunks) by lia. exact Hmay.
    + by eapply hand_off_output.
    + intros i. specialize (L6 i). unfold in_wait in *. destruct (decide (i = length chunks)) as [->|Hne].
      * rewrite lookup_delete_eq. rewrite Hw in L6. rewrite decide_True in L6 by eauto.
        rewrite (decide_False (P := is_Some None)) by by intros [? ?]. repeat case_decide; lia.
      * rewrite lookup_delete_ne by done. repeat case_decide; lia.
    + by apply map_Forall_delete.
  - destruct (after_drain (th_sink t).1) as [sink [[]|e]] eqn:Ha; injection Hd as <- <-; [|done].
    exists chunks, wait. intros p' ->. split; try done. fields. destruct L5 as [H1 H2]. split; cbn; [|done].
    apply after_drain_keeps in Ha. by rewrite Ha.
Qed.

Lemma no_senders js i : existsb holds_sender js = false -> in_jobs i js = 0%nat.
Proof.
  induction js as [|j js IH]; [done|]. cbn [existsb]. intros [Hj Hjs]%orb_false_iff. rewrite in_jobs_cons, IH by done.
  by destruct j.
Qed.

(** At the end of the stream every reserved slot has been handed off. *)
Lemma close_live calls n pm tk js g ex tx t h ss pr chunks wait :
  let p := mkPipe n pm tk [] js g ex tx (Running t) h ss pr in
  live calls p t chunks wait -> th_phase t = Receiving -> existsb holds_sender js = false ->
  (forall q c, pr <> PSend q c) -> ex = None \/ ex = Some n ->
  match thread_close t ex with
  | Running _ => False
  | Exited (Ok _) k => Forall2 yields calls chunks /\ output chunks k
  | Exited (Err e) _ => real e
  end.
Proof.
  intros p HL. subst p. destruct HL as [L1 L2 L3 L4 L5 L6 L7 L8 L9 L10 L11 L12 L13]. fields. intros Hph Hjs Hpr Hex.
  specialize (L11 Hph). assert (forall i, in_wait i wait = if decide (length chunks <= i < n)%nat then 1%nat else 0%nat) as Hw.
  { intros i. rewrite <- L6, no_senders by done. assert (in_hand i pr = 0%nat) as ->; [|done].
    destruct pr; try done. exfalso. by eapply Hpr. }
  assert (n = length chunks) as ->.
  { specialize (Hw (length chunks)). unfold in_wait in Hw. rewrite L11 in Hw. repeat case_decide; try lia.
    match goal with H : is_Some None |- _ => by destruct H end. }
  destruct L1 as [R1 _ R3 _ _ _]. fields. rewrite length_fmap in R1.
  assert (pending (th_pending t) = []) as Hnil.
  { destruct L13 as [|[x Hx]]; [done|]. exfalso. rewrite last_lookup in Hx.
    specialize (R3 (pred (length (pending (th_pending t))))). rewrite Hx in R3. cbn in R3.
    specialize (Hw (next_seq (th_pending t) + pred (length (pending (th_pending t))))%nat). unfold in_wait in Hw. rewrite R3 in Hw.
    rewrite decide_True in Hw by eauto. case_decide; lia. }
  assert (check_stream_complete (E := E) (pending_len (th_pending t)) (next_seq (th_pending t)) ex = Ok tt) as Hc.
  { unfold check_stream_complete, pending_len. rewrite Hnil, R1. destruct Hex as [->| ->]; [done|].
    change (0 <? length (@nil (option data)))%nat with false. by rewrite Nat.ltb_irrefl. }
  unfold thread_close. rewrite Hc.
  destruct (sink_finish (th_sink t).1) as [sink [[]|e]] eqn:Hf; cbn [cause]; [|done]. split.
  - apply Forall2_same_length_lookup_2; [done|]. intros i c ch Hi Hch. destruct (L4 i ch Hch) as (c1 & Hc1 & Hy). congruence.
  - destruct L5 as [H1 H2]. split; cbn [fst snd]; [|done]. by apply finish_keeps_file in Hf as ->.
Qed.

Lemma jobs_middle calls js1 j js2 j' :
  Forall (job_ok calls) (js1 ++ j :: js2) -> job_ok calls j' -> Forall (job_ok calls) (js1 ++ j' :: js2).
Proof. rewrite !Forall_app, !Forall_cons. tauto. Qed.

Lemma exited_not_ok (th : WriterThread E Input S) (tx : bool) evs :
  match th with
  | Running _ => False
  | Exited (Ok _) k => tx = false /\ complete evs k
  | Exited (Err e) _ => real e
  end -> tx = true -> exists e k, th = Exited (Err e) k /\ real e.
Proof. destruct th as [t|[[]|e] k]; [done| |eauto]. intros [-> _]. done. Qed.

Lemma reserved_none evs (p p' : pipe) :
  sending (p_producer p') = sending (p_producer p) -> reserved (evs ++ option_list None) p' = reserved evs p.
Proof. intros H. unfold reserved. cbn [option_list option_rect]. by rewrite app_nil_r, H. Qed.

(** The producer turns a permit into a slot. *)
Lemma slot_live evs (p p' : pipe) t chunks wait c more :
  live (reserved evs p) p t chunks wait -> p_producer p = PPermit c ->
  p_seq p' = Datatypes.S (p_seq p) -> p_items p' = p_items p -> p_tokens p' = p_tokens p ->
  (match c with
   | CBlock j => p_jobs p' = p_jobs p ++ [JFraming (p_seq p) j] /\ p_producer p' = PIdle
   | CRaw ch => p_jobs p' = p_jobs p /\ p_producer p' = PSend (p_seq p) ch
   end) ->
  reserved (evs ++ option_list more) p' = reserved evs p ++ [c] ->
  live (reserved (evs ++ option_list more) p') p' t chunks wait.
Proof.
  intros HL Hpr Hs Hi Ht Hc ->. pose proof HL as [_ L2 _ _ _ _ L7 _ _ _ _ _ _].
  eapply live_calls; [exact HL|rewrite Hs; cbn; lia|done| | | |].
  - intros i. rewrite Hpr. cbn [in_hand]. destruct c as [j|ch]; destruct Hc as [-> ->]; rewrite Hs.
    + rewrite in_jobs_app, in_jobs_cons. cbn [job_seq in_hand]. change (in_jobs i []) with 0%nat.
      repeat case_decide; simplify_eq; try lia.
      match goal with Hx : Some _ <> Some _ |- _ => destruct Hx; f_equal; lia end.
    + cbn [in_hand]. repeat case_decide; lia.
  - assert (Forall (job_ok (reserved evs p ++ [c])) (p_jobs p)) as HF.
    { eapply Forall_impl; [exact L7|]. intros [q j|q d rec|]; cbn [job_ok]; [|by apply may_mono|done].
      intros. by apply lookup_app_l_Some. }
    destruct c as [j|ch]; destruct Hc as [-> _]; [|done]. apply Forall_app. split; [done|]. apply Forall_singleton. cbn [job_ok].
    rewrite <- L2. by apply list_lookup_middle.
  - rewrite Hpr, Ht, Hs. destruct c as [j|ch]; destruct Hc as [_ ->]; cbn [token_held]; lia.
  - intros q ch. destruct c as [j|ch']; destruct Hc as [_ ->]; [done|]. intros [= <- <-]. rewrite <- L2. by apply list_lookup_middle.
Qed.

(** The cases of a running thread, one kind of step each. *)
Definition alive (evs : list event) (p : pipe) (t : Thread E Input S) : Prop :=
  exists chunks wait, live (reserved evs p) p t chunks wait.

Lemma alive_slot evs (p p' : pipe) t c more :
  alive evs p t -> p_producer p = PPermit c ->
  p_seq p' = Datatypes.S (p_seq p) -> p_items p' = p_items p -> p_tokens p' = p_tokens p ->
  (match c with
   | CBlock j => p_jobs p' = p_jobs p ++ [JFraming (p_seq p) j] /\ p_producer p' = PIdle
   | CRaw ch => p_jobs p' = p_jobs p /\ p_producer p' = PSend (p_seq p) ch
   end) ->
  reserved (evs ++ option_list more) p' = reserved evs p ++ [c] -> alive (evs ++ option_list more) p' t.
Proof. intros (chunks & wait & HL) ? ? ? ? ? ?. exists chunks, wait. by eapply slot_live. Qed.

Lemma alive_send evs n pm tk ch js g ex tx t h ss seq chunk :
  alive evs (mkPipe n pm tk ch js g ex tx (Running t) h ss (PSend seq chunk)) t ->
  alive (evs ++ option_list (Some (EWrite (CRaw chunk) (Ok tt))))
    (mkPipe n (Datatypes.S pm) tk (ch ++ [(seq, Ok chunk)]) js g ex tx (Running t) h ss PIdle) t.
Proof.
  intros (chunks & wait & HL). exists chunks, wait. pose proof HL as [_ _ _ _ _ _ L7 L8 _ _ _ L12 _]. fields.
  assert (reserved (evs ++ option_list (Some (EWrite (CRaw chunk) (Ok tt))))
    (mkPipe n (Datatypes.S pm) tk (ch ++ [(seq, Ok chunk)]) js g ex tx (Running t) h ss PIdle) =
    reserved evs (mkPipe n pm tk ch js g ex tx (Running t) h ss (PSend seq chunk))) as ->.
  { unfold reserved. cbn [option_list option_rect p_producer sending]. by rewrite oks_snoc, !app_nil_r. }
  eapply live_moved; [exact HL|done| |done| |done|done]; fields.
  - intros i. rewrite in_items_app, in_items_cons. cbn [in_hand fst]. change (in_items i []) with 0%nat. lia.
  - apply Forall_app. split; [done|]. apply Forall_singleton. exists (CRaw chunk). split; [by apply L12|done].
Qed.

Lemma alive_jobs evs n pm pm' tk ch js js' g ex tx t h ss pr :
  (forall i, in_jobs i js' = in_jobs i js) -> (forall calls, Forall (job_ok calls) js -> Forall (job_ok calls) js') ->
  alive evs (mkPipe n pm tk ch js g ex tx (Running t) h ss pr) t ->
  alive (evs ++ option_list None) (mkPipe n pm' tk ch js' g ex tx (Running t) h ss pr) t.
Proof.
  intros Hi Hj (chunks & wait & HL). exists chunks, wait.
  rewrite (reserved_none evs (mkPipe n pm tk ch js g ex tx (Running t) h ss pr)) by done.
  eapply live_moved; [exact HL|done| |apply Hj, HL|apply HL|done|done]; fields. intros i. by rewrite Hi.
Qed.

Lemma alive_job_send evs n pm tk ch js1 js2 g ex tx t h ss pr seq d rec :
  alive evs (mkPipe n pm tk ch (js1 ++ JSending seq d rec :: js2) g ex tx (Running t) h ss pr) t ->
  alive (evs ++ option_list None) (mkPipe n pm tk (ch ++ [(seq, d)]) (js1 ++ JHolding :: js2) g ex tx (Running t) h ss pr) t.
Proof.
  intros (chunks & wait & HL). exists chunks, wait. rewrite (reserved_none evs _ _ eq_refl).
  pose proof HL as [_ _ _ _ _ _ L7 L8 _ _ _ _ _]. eapply live_moved; [exact HL|done| | | |done|done]; fields.
  - intros i. rewrite !in_jobs_app, !in_jobs_cons, in_items_app, in_items_cons. cbn [job_seq fst]. change (in_items i []) with 0%nat.
    repeat case_decide; simplify_eq; lia.
  - by eapply jobs_middle.
  - apply Forall_app. split; [done|]. apply Forall_singleton. apply Forall_app in L7 as [_ L7]. by apply Forall_inv in L7.
Qed.

(** What a step of the thread leaves. *)
Definition left_by (evs : list event) (p : pipe) : Prop :=
  match p_thread p with
  | Running t => alive evs p t
  | Exited (Ok _) k => p_tx p = false /\ complete evs k
  | Exited (Err e) _ => real e
  end.

Lemma recv_leaves evs n pm tk ch js g ex tx t h ss pr seq d th :
  alive evs (mkPipe n pm tk ((seq, d) :: ch) js g ex tx (Running t) h ss pr) t -> thread_recv t seq d = th ->
  left_by (evs ++ option_list None)
    (mkPipe n pm tk (match th with Running _ => ch | Exited _ _ => [] end) js g ex tx th h ss pr).
Proof.
  intros (chunks & wait & HL) <-. destruct (recv_live _ _ _ _ _ _ _ _ _ _ _ _ _ _ _ _ _ HL) as (b & Hb & Hl).
  unfold left_by. fields. rewrite Hb. exists chunks, (<[seq := d]> wait).
  rewrite (reserved_none evs (mkPipe n pm tk ((seq, d) :: ch) js g ex tx (Running t) h ss pr)) by done. by apply Hl.
Qed.

Lemma drain_leaves evs n pm tk ch js g ex tx t h ss pr th (back : bool) :
  alive evs (mkPipe n pm tk ch js g ex tx (Running t) h ss pr) t -> thread_drain t = (th, back) ->
  left_by (evs ++ option_list None)
    (mkPipe n pm (if back then Datatypes.S tk else tk) (match th with Running _ => ch | Exited _ _ => [] end) js g ex tx th h ss pr).
Proof.
  intros (chunks & wait & HL) Hd. pose proof (drain_live _ _ _ _ _ _ _ _ _ _ _ _ _ _ _ _ _ HL Hd) as Hr. unfold left_by. fields.
  destruct th as [t'|[[]|e0] k]; [|done..]. destruct Hr as (chunks' & wait' & Hl). exists chunks', wait'.
  rewrite (reserved_none evs (mkPipe n pm tk ch js g ex tx (Running t) h ss pr)) by done. by apply Hl.
Qed.

Lemma close_leaves evs n pm tk js g ex tx t h ss pr :
  alive evs (mkPipe n pm tk [] js g ex tx (Running t) h ss pr) t -> th_phase t = Receiving -> senders_gone tx js = true ->
  (forall q c, pr <> PSend q c) -> ex = None \/ ex = Some n ->
  left_by (evs ++ option_list None) (mkPipe n pm tk [] js g ex tx (thread_close t ex) h ss pr).
Proof.
  intros (chunks & wait & HL) Hph [Htx%negb_true_iff Hjs%negb_true_iff]%andb_true_iff Hpr Hex. subst tx.
  pose proof (close_live _ _ _ _ _ _ _ _ _ _ _ _ _ _ HL Hph Hjs Hpr Hex) as Hr.
  assert (reserved evs (mkPipe n pm tk [] js g ex false (Running t) h ss pr) = oks evs) as Hres.
  { unfold reserved. destruct pr; cbn [p_producer sending]; try (by rewrite app_nil_r). by destruct (Hpr seq chunk). }
  unfold left_by. fields. destruct (thread_close t ex) as [t'|[[]|e0] k]; [done| |done]. split; [done|]. exists chunks.
  cbn [option_list option_rect]. rewrite app_nil_r, <- Hres. done.
Qed.

Lemma moves_sound evs p e p' : sound evs p -> moves frames p e p' -> sound (evs ++ option_list e) p'.
Proof.
  intros [S1 S2 Sx S3 S4 S5 S6 S7 S8] Hst. destruct Hst; fields.
  all: split; fields; try (cbn [held closed recovering ended exited option_list option_rect length] in *;
    rewrite ?length_app, ?app_nil_r in *; cbn [length] in *; first [done|lia|by intros; auto|by auto]).
  all: try (destruct (closed pr); [destruct S2 as [_ Hnil]; by destruct js1|done]).
  all: try (destruct th as [t|[[]|e0] k]; [|try complete_same|try done]).
  all: try (destruct r as [[]|e0]; [complete_same|done]).
  all: try live_same.
  all: try (destruct S3 as [Htx _]; cbn [closed] in S2; congruence).
  all: try (discriminate (S7 eq_refl)).
  all: try (unfold complete in *; rewrite ?oks_snoc; cbn [option_list option_rect ok_write]; rewrite ?oks_snoc, ?app_nil_r;
            cbn [ok_write option_list option_rect]; rewrite ?app_nil_r; by first [apply S3|destruct r as [[]|]; [apply S3|]]).
  all: try (cbn [closed held] in *; destruct js; [done|cbn in S1; lia]).
  all: try (by destruct th).
  - eapply alive_slot; [exact S3|done..|]. unfold reserved. cbn [option_list option_rect p_producer sending]. by rewrite oks_snoc, !app_nil_r.
  - eapply alive_slot; [exact S3|done..|]. unfold reserved. cbn [option_list option_rect p_producer sending]. by rewrite !app_nil_r.
  - by apply alive_send.
  - apply (alive_jobs evs n pm _ tk ch (js1 ++ JFraming seq j :: js2)); [intros i; by rewrite !in_jobs_app, !in_jobs_cons| |exact S3]. intros calls HF. eapply jobs_middle; [exact HF|].
    apply Forall_app in HF as [_ HF]. apply Forall_inv in HF. exists (CBlock j). split; [exact HF|]. destruct r as [b|e0]; cbn [cause yields]; eauto.
  - apply (alive_jobs evs n pm _ tk ch (js1 ++ JFraming seq j :: js2)); [intros i; by rewrite !in_jobs_app, !in_jobs_cons| |exact S3]. intros calls HF. eapply jobs_middle; [exact HF|].
    apply Forall_app in HF as [_ HF]. apply Forall_inv in HF. exists (CBlock j). eauto.
  - by eapply alive_job_send.
  - apply (alive_jobs evs n pm _ tk ch (js1 ++ JHolding :: js2)); [intros i; by rewrite !in_jobs_app, !in_jobs_cons| |exact S3].
    intros calls [HF HF']%Forall_app. apply Forall_cons in HF' as [_ HF']. by apply Forall_app.
  - by eapply recv_leaves.
  - by eapply drain_leaves.
  - refine (close_leaves evs n pm tk js g ex tx t h ss pr S3 _ _ _ _); [assumption..|].
    match goal with Hg : senders_gone tx js = true |- _ => apply andb_true_iff in Hg as [Htx%negb_true_iff _] end. subst tx.
    destruct pr as [| | | | | |[] ?|[]| |]; cbn in *; auto; try done. discriminate (S6 eq_refl).
Qed.

End Spec.

(** ** Claims

    Certification, reported causes, bounds and termination, from the invariant. *)



Section Claims.
Context {E Input Job S : Type} `{Sk : OutputSink E Input S} (frames : Job -> result E bytes -> Prop).
Context (file : S -> bytes) (range : Input -> Z -> Z -> bytes) `{HL : !OutputSinkLaws file range}.

Abbreviation Chunk := (OutputChunk Input).
Abbreviation event := (Event E Input Job).
Abbreviation pipe := (Pipe E Input Job S).
Abbreviation data := (result (PipeError E) Chunk).

(** A pipeline over a sink that holds the header, for an output or for a path. *)
Definition begun (b : ReorderBuffer data) (ss : option Session) : Prop :=
  with_max_window WRITE_AHEAD PIPELINE_DELIVERY_WINDOW = Some b /\ (ss = None \/ ss = Some Writing).

Section Run.
Context (b : ReorderBuffer data) (sink : S * Z) (ss : option Session).
Context (Hbegun : begun b ss).

Abbreviation start := (pipe_new (Job := Job) b sink ss).
Abbreviation sound := (sound frames file range (file sink.1) sink.2).

Lemma start_sound : sound [] start.
Proof.
  destruct Hbegun as [Hb _]. split; cbn; try done.
  exists [], ∅. pose proof (refines_init _ _ _ Hb) as Hr. split; cbn; try done; try lia.
  - split; cbn; [by rewrite app_nil_r|lia].
  - unfold with_max_window in Hb. case_decide; [|done]. injection Hb as <-. by left.
Qed.

Lemma start_told : told [] start.
Proof.
  destruct Hbegun as [_ Hs]. split; cbn; try done; try set_solver.
  intros [H|]; [|done]. destruct H. constructor.
Qed.

Lemma runs_keep evs p : runs frames start evs p -> sound evs p /\ told evs p.
Proof.
  remember start as p0. intros Hr. induction Hr as [p|p evs p' e p'' Hr IH Hs]; subst.
  { split; [apply start_sound|apply start_told]. }
  destruct IH as [IH1 IH2]; [done|]. destruct Hs as [Hs|Hs].
  - split; [by eapply starts_sound|by eapply starts_told].
  - split; [by eapply moves_sound|by eapply moves_told].
Qed.

Lemma runs_split pre ev post p :
  runs frames start (pre ++ ev :: post) p -> exists p1 p2, runs frames start pre p1 /\ step frames p1 (Some ev) p2.
Proof.
  remember (pre ++ ev :: post) as evs. remember start as p0. intros Hr. revert post Heqevs.
  induction Hr as [p|p evs p' e p'' Hr IH Hs]; intros post Heq; subst; [by destruct pre|].
  destruct e as [e|]; cbn [option_list option_rect] in Heq.
  - destruct (decide (post = [])) as [->|Hne].
    + apply app_inj_tail in Heq as [-> ->]. eauto.
    + destruct (exists_last Hne) as (post' & x & ->). rewrite app_comm_cons, app_assoc in Heq.
      apply app_inj_tail in Heq as [-> ->]. by eapply IH.
  - rewrite app_nil_r in Heq. subst. by eapply IH.
Qed.

(** A finished session, or a clean flush, in a sound state. *)
Lemma certified evs p : sound evs p -> told evs p ->
  p_session p = Some Finished \/ clean evs /\ EFlush (Ok tt) ∈ evs ->
  clean evs /\ exists k, p_thread p = Exited (Ok tt) k /\ complete frames file range (file sink.1) sink.2 evs k.
Proof.
  intros [_ _ _ S3 _ _ _ _ _] [_ T2 T3 _ T5 T6] Hc.
  assert (clean evs /\ p_producer p = PFinished) as [Hcl Hp].
  { destruct Hc as [Hf|[? ?]]; [|by auto]. split; [|by auto]. destruct (decide (clean evs)) as [|Hn]; [done|].
    destruct (T3 (or_introl Hn)); congruence. }
  destruct (T2 Hp) as [|(_ & k & Hk)]; [done|]. rewrite Hk in S3. destruct S3 as [_ Hcomp]. split; [done|]. by exists k.
Qed.

(** C5. What is certified is there.  In any interleaving of a pipelined
    writer's producer, framing jobs and writer thread: once the output's
    session is finished, or a flush has returned well with no call before it
    failing, no call at all has failed, the writer thread has ended well, and
    the file is the header followed by the frame of every accepted block and
    the bytes of every accepted raw write, each once, in the order of the
    calls, with exactly their bytes counted. *)
Theorem pipeline_certifies (evs : list event) (p : pipe) :
  runs frames start evs p ->
  p_session p = Some Finished \/ clean evs /\ EFlush (Ok tt) ∈ evs ->
  exists k chunks, clean evs /\ p_thread p = Exited (Ok tt) k /\
    Forall2 (yields frames) (oks evs) chunks /\
    file k.1 = file sink.1 ++ concat (chunk_bytes range <$> chunks) /\
    k.2 = sink.2 + Z.of_nat (length (concat (chunk_bytes range <$> chunks))).
Proof.
  intros Hr Hc. destruct (runs_keep _ _ Hr) as [Hs Ht].
  destruct (certified _ _ Hs Ht Hc) as (Hcl & k & Hk & chunks & HF & H1 & H2). by exists k, chunks.
Qed.

(** ** Reported causes *)

Lemma step_error evs p ev p' :
  sound evs p -> told evs p -> clean evs -> step frames p (Some ev) p' -> failed_event ev = true ->
  (exists c, ev = EWrite c (Err Cancelled)) \/
  (exists c, ev = EWrite c (Err WriterConsumed) /\ EFlush (Ok tt) ∈ evs) \/
  exists e k, real e /\ p_thread p = Exited (Err e) k /\ (ev = EFlush (Err e) \/ exists c, ev = EWrite c (Err e)).
Proof.
  intros [_ S2 _ S3 _ S5 _ _ _] [T1 T2 _ _ _ _] Hc Hs Hf.
  destruct Hs as [Hs|Hs]; inversion Hs; subst; try done; cbn [p_producer p_thread p_handle p_tx] in *.
  - left. eauto.
  - right. left. exists c. split; [done|]. by destruct (T2 eq_refl) as [|[? _]].
  - right. right. destruct h; [|by destruct (T1 eq_refl)]. destruct r as [[]|e].
    { destruct S3 as [Htx _]. cbn in S2. congruence. }
    exists e, k. cbn. eauto.
  - right. right. destruct r as [[]|e]; [done|]. exists e, k. eauto.
Qed.


(** ** Bounds *)

Lemma moves_items p e p' : moves frames p e p' -> (length (p_items p) <= WRITE_AHEAD)%nat -> (length (p_items p') <= WRITE_AHEAD)%nat.
Proof.
  intros Hm. destruct Hm; cbn [p_items]; rewrite ?length_app; cbn [length]; try done; try lia.
  all: destruct th; cbn [length]; lia.
Qed.

Lemma runs_items evs p : runs frames start evs p -> (length (p_items p) <= WRITE_AHEAD)%nat.
Proof.
  remember start as p0. intros Hr. induction Hr as [p|p evs p' e p'' Hr IH Hs]; subst; [cbn; lia|].
  specialize (IH eq_refl). destruct Hs as [Hs|Hs]; [by destruct Hs|by eapply moves_items].
Qed.

(** C19. The pipeline is bounded whatever the schedule.  Never more than
    [PIPELINE_DISPATCH_PERMITS] framing jobs exist, the item channel never
    holds more than its capacity, and while the writer thread runs the calls
    accepted but not yet handed to the sink, and the slots of the reorder
    buffer, never number more than [PIPELINE_DELIVERY_WINDOW]; every item it
    receives is accepted by the buffer, and no returned permit or token finds
    its channel full. *)
Theorem pipeline_bounded (evs : list event) (p : pipe) :
  runs frames start evs p ->
  (length (p_jobs p) <= PIPELINE_DISPATCH_PERMITS)%nat /\ (length (p_items p) <= WRITE_AHEAD)%nat /\
  (p_permits p + length (p_jobs p) <= PIPELINE_DISPATCH_PERMITS)%nat /\
  forall t, p_thread p = Running t ->
    (p_seq p - next_seq (th_pending t) <= PIPELINE_DELIVERY_WINDOW)%nat /\
    (pending_len (th_pending t) <= PIPELINE_DELIVERY_WINDOW)%nat /\
    (p_tokens p + (p_seq p - next_seq (th_pending t)) <= PIPELINE_DELIVERY_WINDOW)%nat /\
    forall seq d rest, p_items p = (seq, d) :: rest -> is_Some (push (th_pending t) seq d).
Proof.
  intros Hr. destruct (runs_keep _ _ Hr) as [[S1 _ _ S3 _ _ _ _ _] _]. split_and!; [lia|by eapply runs_items|lia|].
  intros t Ht. rewrite Ht in S3. destruct S3 as (chunks & wait & Hl). pose proof Hl as [[R1 R2 _ _ _ R6] _ _ _ _ _ _ _ _ L10 _ _ _].
  cbn in R1, R2. rewrite length_fmap in R1. unfold pending_len. rewrite R1. split_and!; [lia|lia|lia|].
  intros seq d rest Hi. destruct p as [n pm tk ch js g ex tx th h ss' pr]. cbn in Ht, Hi. subst th ch.
  destruct (recv_live _ _ _ _ _ _ _ _ _ _ _ _ _ _ _ _ _ _ _ _ _ _ Hl) as (b' & Hb & _). unfold thread_recv in Hb.
  destruct (push (th_pending t) seq d); [eauto|done].
Qed.

(** ** Every call returns *)

Definition job_weight (j : JobState E Input Job) : nat :=
  match j with JFraming _ _ => 8%nat | JSending _ _ _ => 7%nat | JHolding => 1%nat end.
Definition jobs_weight (js : list (JobState E Input Job)) : nat := foldr (fun j n => (job_weight j + n)%nat) 0%nat js.
Definition thread_weight (th : WriterThread E Input S) : nat :=
  match th with
  | Running t => (2 + 3 * filled (th_pending t) + match th_phase t with Draining => 1 | Receiving => 0 end)%nat
  | Exited _ _ => 0%nat
  end.
Definition producer_weight (pr : Producer Input Job) : nat :=
  match pr with
  | PToken _ => (PIPELINE_DISPATCH_PERMITS + 30)%nat
  | PPermit _ => (PIPELINE_DISPATCH_PERMITS + 20)%nat
  | PSend _ _ => (PIPELINE_DISPATCH_PERMITS + 10)%nat
  | PRecoverWait _ k | PCloseWait _ k => (2 + PIPELINE_DISPATCH_PERMITS - k)%nat
  | PRecoverJoin _ | PCloseJoin _ => 1%nat
  | _ => 0%nat
  end.

(** The work left: it shrinks with every move. *)
Definition work (p : pipe) : nat :=
  (jobs_weight (p_jobs p) + 5 * length (p_items p) + thread_weight (p_thread p) + producer_weight (p_producer p))%nat.

Lemma jobs_weight_app a c : jobs_weight (a ++ c) = (jobs_weight a + jobs_weight c)%nat.
Proof. unfold jobs_weight. induction a as [|j a IH]; [done|]. cbn [app foldr]. rewrite IH. lia. Qed.

Lemma push_filled (buf buf' : ReorderBuffer data) q d : push buf q d = Some buf' -> filled buf' = Datatypes.S (filled buf).
Proof.
  unfold push, try_push. case_decide; [done|]. case_decide; [done|].
  match goal with |- context [?l !! ?i] => destruct (l !! i) as [[y|]|] end; [done|by intros [= <-]|by intros [= <-]].
Qed.

Lemma pop_filled (buf : ReorderBuffer data) sp buf' d :
  refines buf sp -> pop_ready buf = (buf', Some d) -> (filled buf' < filled buf)%nat.
Proof.
  intros [_ _ _ _ Hf _]. unfold pop_ready. destruct (pending buf) as [|[x|] l] eqn:Hp; [done| |done].
  intros [= <- _]. cbn [filled]. rewrite Hf. cbn. lia.
Qed.

Lemma pop_none_filled (buf buf' : ReorderBuffer data) : pop_ready buf = (buf', None) -> buf' = buf.
Proof. unfold pop_ready. destruct (pending buf) as [|[x|] l]; by intros [= <-]. Qed.

Lemma thread_recv_work t seq d : th_phase t = Receiving -> (thread_weight (thread_recv t seq d) < 5 + thread_weight (Running t))%nat.
Proof.
  intros Hp. unfold thread_recv. destruct (push (th_pending t) seq d) as [b'|] eqn:Hb; cbn [thread_weight th_pending th_phase]; [|lia].
  rewrite (push_filled _ _ _ _ Hb), Hp. lia.
Qed.

Lemma thread_drain_work t sp th back : refines (th_pending t) sp -> th_phase t = Draining -> thread_drain t = (th, back) ->
  (thread_weight th < thread_weight (Running t))%nat.
Proof.
  intros Hr Hp. unfold thread_drain. destruct (pop_ready (th_pending t)) as [b' [[chunk|e]|]] eqn:Hb.
  - pose proof (pop_filled _ _ _ _ Hr Hb). destruct (hand_off (th_sink t) chunk) as [k [[]|e]]; intros [= <- <-]; cbn; rewrite ?Hp; lia.
  - intros [= <- <-]. cbn. lia.
  - apply pop_none_filled in Hb as ->. destruct (after_drain (th_sink t).1) as [k [[]|e]]; intros [= <- <-]; cbn; rewrite ?Hp; lia.
Qed.

Lemma thread_close_work t ex : (thread_weight (thread_close t ex) < thread_weight (Running t))%nat.
Proof.
  unfold thread_close. destruct (check_stream_complete _ _ _) as [[]|e]; [|cbn; lia].
  destruct (sink_finish (th_sink t).1) as [k r]. cbn. lia.
Qed.

Lemma moves_work evs p e p' : sound evs p -> moves frames p e p' -> (work p' < work p)%nat.
Proof.
  intros Hso Hm. destruct Hm; unfold work; cbn [p_jobs p_items p_thread p_producer];
    rewrite ?jobs_weight_app, ?length_app; cbn [jobs_weight foldr job_weight length producer_weight]; try lia.
  - fold (jobs_weight js2). lia.
  - match goal with Hp : th_phase t = Receiving |- _ => pose proof (thread_recv_work t seq d Hp) end. subst th.
    destruct (thread_recv t seq d); cbn [length]; lia.
  - destruct Hso as [_ _ _ S3 _ _ _ _ _]. cbn [p_thread] in S3. destruct S3 as (chunks & wait & [Hr _ _ _ _ _ _ _ _ _ _ _ _]).
    match goal with Hp : th_phase t = Draining, Hd : thread_drain t = _ |- _ => pose proof (thread_drain_work t _ _ _ Hr Hp Hd) end.
    destruct th; cbn [length]; lia.
  - pose proof (thread_close_work t ex). lia.
Qed.

Context (frames_total : forall j, exists r, frames j r).

Definition moving (p : pipe) : Prop := exists e p', moves frames p e p'.

Lemma thread_moving p t : p_thread p = Running t -> p_items p <> [] \/ th_phase t = Draining -> moving p.
Proof.
  destruct p as [n pm tk ch js g ex tx th h ss' pr]. cbn. intros -> Hw. destruct (th_phase t) eqn:Hp.
  - destruct Hw as [Hne|]; [|done]. destruct ch as [|[q d] ch]; [done|]. eexists None, _. by eapply move_recv.
  - destruct (thread_drain t) as [th back] eqn:Hd. eexists None, _. by eapply move_drain.
Qed.

Lemma job_moving p j : j ∈ p_jobs p -> moving p.
Proof.
  destruct p as [n pm tk ch js g ex tx th h ss' pr]. cbn. intros (js1 & js2 & ->)%list_elem_of_split.
  destruct j as [q j|q d rec|].
  - destruct (frames_total j) as [r Hr]. eexists None, _. by apply move_frame.
  - destruct th as [t|r k]; [|eexists None, _; by apply move_job_send_gone].
    destruct (decide (length ch < WRITE_AHEAD)%nat) as [Hlt|Hge]; [eexists None, _; by apply move_job_send|].
    apply (thread_moving _ t); [done|]. left. cbn. intros ->. pose proof bounds_positive. cbn in Hge. lia.
  - eexists None, _. apply move_job_done.
Qed.

(** With a token missing, the item it is held for is on its way. *)
Lemma window_moving evs p t : sound evs p -> p_thread p = Running t -> p_tokens p = 0%nat -> token_held (p_producer p) = 0%nat ->
  (forall q ch, p_producer p <> PSend q ch) -> moving p.
Proof.
  intros [_ _ _ S3 _ _ _ _ _] Ht Htk Hh Hs. rewrite Ht in S3. destruct S3 as (chunks & wait & [_ _ L3 _ _ L6 _ _ _ L10 L11 _ _]).
  destruct (th_phase t) eqn:Hp; [|by apply (thread_moving p t); auto].
  destruct (p_items p) as [|x ch] eqn:Hi; [|apply (thread_moving p t); [done|left; by rewrite Hi]].
  specialize (L6 (length chunks)). pose proof bounds_positive. rewrite decide_True in L6 by lia.
  assert (in_hand (length chunks) (p_producer p) = 0%nat) as Hz.
  { destruct (p_producer p); try done. by destruct (Hs seq chunk). }
  unfold in_wait in L6. rewrite L11 in L6 by done. rewrite (decide_False (P := is_Some None)) in L6 by by intros [? ?].
  rewrite Hz in L6. change (in_items (length chunks) []) with 0%nat in L6. unfold in_jobs in L6.
  destruct (filter _ (p_jobs p)) as [|j js] eqn:Hf; [cbn in L6; lia|].
  apply (job_moving p j). assert (j ∈ j :: js) as Hj by left. rewrite <- Hf in Hj. by apply list_elem_of_filter in Hj as [_ ?].
Qed.

(** With a permit missing, a job holds it. *)
Lemma permit_moving evs p : sound evs p -> p_permits p = 0%nat -> (held (p_producer p) < PIPELINE_DISPATCH_PERMITS)%nat -> moving p.
Proof.
  intros [S1 _ _ _ _ _ _ _ _] Hp Hh. destruct (p_jobs p) as [|j js] eqn:Hj; [cbn in S1; lia|].
  apply (job_moving p j). rewrite Hj. left.
Qed.

Definition busy (pr : Producer Input Job) : bool := match pr with PIdle | PFinished | PDropped => false | _ => true end.

Lemma progress evs p : sound evs p -> busy (p_producer p) = true -> moving p.
Proof.
  intros Hso Hb. pose proof Hso as [S1 S2 _ S3 _ S5 _ S7 _]. pose proof bounds_positive as (Hpos & Hwa & _).
  destruct p as [n pm tk ch js g ex tx th h ss' pr]. cbn [p_producer p_permits p_jobs p_tx p_thread p_handle] in *.
  destruct pr as [|c|c|q chunk|c k|c|fl k|fl| |]; try done; cbn [held closed recovering] in *.
  - destruct tk as [|tk]; [|eexists None, _; apply move_token]. destruct th as [t|r k]; [|eexists None, _; apply move_token_gone].
    by eapply (window_moving evs _ t).
  - destruct pm as [|pm]; [by apply (permit_moving evs)|]. destruct c as [j|chunk].
    + eexists (Some _), _. apply move_dispatch.
    + eexists None, _. apply move_slot.
  - destruct th as [t|r k]; [|eexists None, _; apply move_send_gone].
    destruct (decide (length ch < WRITE_AHEAD)%nat) as [Hlt|Hge]; [eexists (Some _), _; by apply move_send|].
    apply (thread_moving _ t); [done|]. left. cbn. intros ->. cbn in Hge. lia.
  - destruct (decide (k = PIPELINE_DISPATCH_PERMITS)) as [->|Hne]; [eexists None, _; apply move_recover_waited|].
    destruct pm as [|pm]; [apply (permit_moving evs); [done|done|cbn; lia]|]. eexists None, _. apply move_recover_take. lia.
  - destruct th as [t|r k]; [by specialize (S5 eq_refl)|]. eexists (Some _), _. apply move_recover.
  - destruct (decide (k = PIPELINE_DISPATCH_PERMITS)) as [->|Hne]; [eexists None, _; apply move_close_waited|].
    destruct pm as [|pm]; [apply (permit_moving evs); [done|done|cbn; lia]|]. eexists None, _. apply move_close_take. lia.
  - destruct th as [t|r k].
    + destruct S2 as [-> ->]. destruct (th_phase t) eqn:Hp; [|by apply (thread_moving _ t); auto].
      destruct ch as [|x ch]; [|apply (thread_moving _ t); [done|by left]].
      eexists None, _. apply move_end; [done|done|]. by intros.
    + destruct fl; [|eexists None, _; apply move_drop]. destruct h; eexists (Some _), _; [apply move_flush|apply move_flush_joined].
Qed.

(** Under every schedule, the producer is back with its caller in the end. *)
Inductive returns : pipe -> Prop :=
| returned p : busy (p_producer p) = false -> returns p
| returning p : moving p -> (forall e p', moves frames p e p' -> returns p') -> returns p.

Lemma sound_returns w : forall evs p, (work p < w)%nat -> sound evs p -> returns p.
Proof.
  induction w as [|w IH]; intros evs p Hw Hso; [lia|]. destruct (busy (p_producer p)) eqn:Hb; [|by apply returned].
  apply returning; [by eapply progress|]. intros e p' Hm. apply (IH (evs ++ option_list e)).
  - pose proof (moves_work _ _ _ _ Hso Hm). lia.
  - by eapply moves_sound.
Qed.

(** C10. Every call of the pipelined writer returns.  In any reachable state,
    whatever order the jobs, the writer thread and the producer then move in,
    some move is possible until the call in progress has returned, and it
    returns after finitely many: no write, flush or drop waits for a token, a
    permit, a full channel or the writer thread forever. *)
Theorem pipeline_calls_return (evs : list event) (p : pipe) : runs frames start evs p -> returns p.
Proof. intros Hr. destruct (runs_keep _ _ Hr) as [Hso _]. apply (sound_returns (Datatypes.S (work p)) evs); [lia|done]. Qed.

End Run.
End Claims.
