(* ===== verification/ElementKind.v ===== *)
(** * Element kinds, kind sets and type filters ([src/element_kind.rs], [src/owned.rs]) *)

From S2P Require Import Prelude.

Inductive ElementKind := Node | Way | Relation.

#[export] Instance ElementKind_eq_dec : EqDecision ElementKind.
Proof. solve_decision. Defined.

Definition as_str (k : ElementKind) : string :=
  match k with Node => "node" | Way => "way" | Relation => "relation" end.

Definition ordinal (k : ElementKind) : Z :=
  match k with Node => 0 | Way => 1 | Relation => 2 end.

Definition type_char (k : ElementKind) : string :=
  match k with Node => "n" | Way => "w" | Relation => "r" end.

Definition from_name (name : string) : option ElementKind :=
  if decide (name = "node"%string) then Some Node
  else if decide (name = "way"%string) then Some Way
  else if decide (name = "relation"%string) then Some Relation
  else None.

Definition from_ordinal (o : Z) : option ElementKind :=
  if o =? 0 then Some Node
  else if o =? 1 then Some Way
  else if o =? 2 then Some Relation
  else None.

(** [FromStr]: the one-letter forms, then the full names. *)
Definition from_str (s : string) : result string ElementKind :=
  if decide (s = "n"%string) then Ok Node
  else if decide (s = "w"%string) then Ok Way
  else if decide (s = "r"%string) then Ok Relation
  else ok_or (from_name s) s.

(** ** Kind sets: a [u8] bit per ordinal *)

Record KindSet := { kinds : Z }.
Definition KindSet_default : KindSet := {| kinds := 0 |}.

Definition bit (k : ElementKind) : Z := Z.shiftl 1 (ordinal k).

Definition add (s : KindSet) (k : ElementKind) : KindSet :=
  {| kinds := Z.lor (kinds s) (bit k) |}.

Definition union (s t : KindSet) : KindSet := {| kinds := Z.lor (kinds s) (kinds t) |}.

Definition has (s : KindSet) (k : ElementKind) : bool := negb (Z.land (kinds s) (bit k) =? 0).

(** [!x] on a [u8]. *)
Definition not_u8 (z : Z) : Z := Z.lxor z 255.

Definition foreign_to (s : KindSet) (claimed : ElementKind) : option ElementKind :=
  if Z.land (kinds s) (not_u8 (bit claimed)) =? 0 then None
  else snd <$> list_find (fun k => k <> claimed /\ has s k = true) [Node; Way; Relation].

(** [KindContradiction]. *)
Record KindContradiction := { claimed : ElementKind; found : ElementKind }.

Definition refuse_under (s : KindSet) (claim : option ElementKind)
    : result KindContradiction unit :=
  match claim with
  | Some c =>
      match foreign_to s c with
      | Some f => Err {| claimed := c; found := f |}
      | None => Ok ()
      end
  | None => Ok ()
  end.

(** ** Facts *)

Lemma from_ordinal_ordinal k : from_ordinal (ordinal k) = Some k.
Proof. by destruct k. Qed.

Lemma ordinal_inj a b : ordinal a = ordinal b -> a = b.
Proof. by destruct a, b. Qed.

(** The set a walk over elements of the given kinds builds. *)
Definition kinds_of (ks : list ElementKind) : KindSet := foldl add KindSet_default ks.

Lemma has_testbit s k : has s k = Z.testbit (kinds s) (ordinal k).
Proof.
  unfold has, bit. rewrite Z.shiftl_1_l, land_pow2_eqb by (destruct k; simpl; lia).
  apply negb_involutive.
Qed.

Lemma has_add s k k' : has (add s k) k' = has s k' || bool_decide (k = k').
Proof.
  rewrite !has_testbit. unfold add, bit. simpl.
  rewrite Z.lor_spec, Z.shiftl_1_l, Z.pow2_bits_eqb by (destruct k; simpl; lia).
  f_equal. by destruct k, k'.
Qed.

Lemma foldl_add_has ks s k :
  has (foldl add s ks) k = true <-> has s k = true \/ k ∈ ks.
Proof.
  revert s. induction ks as [|k' ks IH]; intros s; simpl; [set_solver|].
  rewrite IH, has_add, orb_true_iff, bool_decide_eq_true, elem_of_cons. naive_solver.
Qed.

Lemma kinds_of_has ks k : has (kinds_of ks) k = true <-> k ∈ ks.
Proof. unfold kinds_of. rewrite foldl_add_has. split; [intros [H|]|]; [by destruct k|done|auto]. Qed.

(** A kind set is three bits. *)
Definition wf (s : KindSet) : Prop := 0 <= kinds s < 8.

Lemma add_wf s k : wf s -> wf (add s k).
Proof.
  destruct s as [z]. unfold wf, add. simpl. intros H.
  assert (z ∈ [0; 1; 2; 3; 4; 5; 6; 7]) as Hin by (repeat (rewrite elem_of_cons; rewrite ?elem_of_nil); lia).
  repeat (apply elem_of_cons in Hin as [->|Hin]; [destruct k; by vm_compute|]). by apply elem_of_nil in Hin.
Qed.

Lemma kinds_of_wf ks : wf (kinds_of ks).
Proof.
  unfold kinds_of. assert (wf KindSet_default) as H by (unfold wf; simpl; lia). revert H.
  generalize KindSet_default as s. induction ks as [|k ks IH]; intros s H; simpl; [done|].
  by apply IH, add_wf.
Qed.

Lemma foreign_to_spec s c :
  wf s ->
  match foreign_to s c with
  | Some f => f <> c /\ has s f = true /\
              (forall k, ordinal k < ordinal f -> k <> c -> has s k = false)
  | None => forall k, has s k = true -> k = c
  end.
Proof.
  unfold wf. destruct s as [z]; simpl. intros H.
  assert (z ∈ [0; 1; 2; 3; 4; 5; 6; 7]) as Hin by (repeat (rewrite elem_of_cons; rewrite ?elem_of_nil); lia).
  repeat (apply elem_of_cons in Hin as [->|Hin];
    [destruct c; vm_compute; repeat split; try done; intros []; by vm_compute|]).
  by apply elem_of_nil in Hin.
Qed.

Lemma foreign_to_some s c f : foreign_to s c = Some f -> f <> c /\ has s f = true.
Proof.
  unfold foreign_to. destruct (_ =? _); [done|]. intros Hf.
  apply fmap_Some in Hf as ([i g] & Hf & ->). apply list_find_Some in Hf as (_ & Hp & _). exact Hp.
Qed.

Lemma foreign_to_none s c : foreign_to s c = None -> forall k, has s k = true -> k = c.
Proof.
  unfold foreign_to. destruct (Z.eqb_spec (Z.land (kinds s) (not_u8 (bit c))) 0) as [H0|_].
  - intros _ k Hk. rewrite has_testbit in Hk. apply (f_equal (fun z => Z.testbit z (ordinal k))) in H0.
    rewrite Z.land_spec, Hk, Z.bits_0 in H0. by destruct c, k.
  - intros Hf k Hk. destruct (decide (k = c)) as [->|Hne]; [done|]. apply fmap_None, list_find_None in Hf.
    rewrite Forall_forall in Hf. exfalso. apply (Hf k); [destruct k; set_solver|done].
Qed.

(** A decoded block is refused under a kind claim exactly when it holds an
    element of another kind; the refusal names the claim and the first foreign
    kind in node, way, relation order.  A blob without a claim is never
    refused. *)
Theorem refuse_under_exact (ks : list ElementKind) (c : ElementKind) :
  refuse_under (kinds_of ks) None = Ok () /\
  match refuse_under (kinds_of ks) (Some c) with
  | Ok _ => Forall (fun k => k = c) ks
  | Err e => claimed e = c /\ found e <> c /\ found e ∈ ks /\
             (forall k, k ∈ ks -> k <> c -> ordinal (found e) <= ordinal k)
  end.
Proof.
  split; [done|]. simpl. pose proof (foreign_to_spec _ c (kinds_of_wf ks)) as H.
  destruct (foreign_to (kinds_of ks) c) as [f|]; simpl.
  - destruct H as (Hne & Hf & Hmin). split_and!; [done|done|by apply kinds_of_has|].
    intros k Hk Hkc. destruct (Z.le_gt_cases (ordinal f) (ordinal k)); [done|].
    apply kinds_of_has in Hk. rewrite Hmin in Hk by done. done.
  - apply Forall_forall. intros k Hk. by apply H, kinds_of_has.
Qed.

(** Spellings round trip: the ordinal, the full name and the one-letter
    form of a kind each parse back to it, and any string that parses is one of
    those spellings. *)
Theorem kind_spellings_roundtrip (k : ElementKind) (s : string) :
  from_ordinal (ordinal k) = Some k /\ from_name (as_str k) = Some k /\
  from_str (as_str k) = Ok k /\ from_str (type_char k) = Ok k /\
  (from_str s = Ok k <-> s = as_str k \/ s = type_char k).
Proof.
  split_and!; [by destruct k..|]. unfold from_str, from_name, ok_or.
  split.
  - repeat case_decide; subst; intros [= <-]; auto.
  - intros [-> | ->]; by destruct k.
Qed.

(** ** Type filters (src/src/owned.rs, [TypeFilter])

    The element kinds a command was asked for. *)


Record TypeFilter := mkFilter { nodes : bool; ways : bool; relations : bool }.

Definition TypeFilter_all : TypeFilter := mkFilter true true true.
Definition TypeFilter_none : TypeFilter := mkFilter false false false.

(** [TypeFilter::admits] *)
Definition takes_kind (f : TypeFilter) (k : ElementKind) : bool :=
  match k with Node => nodes f | Way => ways f | Relation => relations f end.
