(* ===== verification/CoordPack.v ===== *)
(** * The coordinate slot encoding ([src/coord_pack.rs])

    One 64-bit word per node coordinate: the latitude biased by 90 degrees in
    the low 31 bits, the presence flag in bit 31, the longitude's bits above.
    An all-zero word is an absent slot, so a store that zero-fills on creation
    can tell Null Island from a slot never written. *)

From S2P Require Import Prelude.

Definition LAT_BIAS : Z := 900000000.
Definition PRESENT : Z := Z.shiftl 1 31.
Definition LON_LIMIT : Z := 1800000000.

Definition in_domain (lat lon : Z) : bool :=
  ((- LAT_BIAS <=? lat) && (lat <=? LAT_BIAS)) &&
  ((- LON_LIMIT <=? lon) && (lon <=? LON_LIMIT)).

Definition pack (lat lon : Z) : option Z :=
  if negb (in_domain lat lon) then None
  else
    let biased_lat := as_u64 (lat + LAT_BIAS) in
    let lon_bits := as_u32 (as_i32 lon) in
    Some (Z.lor (Z.lor biased_lat PRESENT) (as_u64 (Z.shiftl lon_bits 32))).

Definition unpack (packed : Z) : option (Z * Z) :=
  if Z.land packed PRESENT =? 0 then None
  else
    let lat := as_i32 (as_i64 (Z.land packed 2147483647) - LAT_BIAS) in
    let lon := as_i32 (as_u32 (Z.shiftr packed 32)) in
    Some (lat, lon).

Lemma in_domain_spec lat lon :
  in_domain lat lon = true <-> - LAT_BIAS <= lat <= LAT_BIAS /\ - LON_LIMIT <= lon <= LON_LIMIT.
Proof. unfold in_domain. rewrite !andb_true_iff, !Z.leb_le. lia. Qed.

(** The word as a sum of its three disjoint fields. *)
Lemma pack_sum lat lon :
  in_domain lat lon = true ->
  pack lat lon = Some (lat + 900000000 + 2147483648 + (lon mod 4294967296) * 4294967296).
Proof.
  intros Hd. unfold pack. rewrite Hd. simpl negb. cbv iota zeta.
  apply in_domain_spec in Hd. unfold LAT_BIAS, LON_LIMIT in *. f_equal.
  rewrite (as_u_id 64) by width.
  assert (Z.lor (lat + 900000000) PRESENT = lat + 900000000 + 1 * 2 ^ 31) as ->.
  { unfold PRESENT. apply lor_shiftl_add; [lia|]. change (2 ^ 31) with 2147483648. lia. }
  assert (as_u32 (as_i32 lon) = lon mod 4294967296) as ->.
  { rewrite (as_s_id 32) by width. done. }
  assert (0 <= lon mod 4294967296 < 4294967296) by (apply Z.mod_pos_bound; lia).
  rewrite as_u_id by (rewrite Z.shiftl_mul_pow2 by lia; width).
  rewrite lor_shiftl_add; [change (2 ^ 31) with 2147483648; change (2 ^ 32) with 4294967296; lia|lia|].
  change (2 ^ 31) with 2147483648. change (2 ^ 32) with 4294967296. lia.
Qed.

(** Packing is lossless: a coordinate is refused exactly when it is outside
    +/-90 by +/-180 degrees; every other one packs into a nonzero [u64] that
    unpacks to the same latitude and longitude. *)
Theorem pack_unpack (lat lon : Z) :
  match pack lat lon with
  | Some w => in_domain lat lon = true /\ is_u64 w /\ w <> 0 /\ unpack w = Some (lat, lon)
  | None => in_domain lat lon = false
  end.
Proof.
  destruct (in_domain lat lon) eqn:Hd.
  2:{ unfold pack. by rewrite Hd. }
  rewrite (pack_sum lat lon Hd). split; [done|].
  apply in_domain_spec in Hd. unfold LAT_BIAS, LON_LIMIT in *.
  assert (0 <= lon mod 4294967296 < 4294967296) by (apply Z.mod_pos_bound; lia).
  set (L := lon mod 4294967296) in *.
  set (w := lat + 900000000 + 2147483648 + L * 4294967296).
  split; [width|]. split; [lia|].
  unfold unpack, PRESENT. change (Z.shiftl 1 31) with (2 ^ 31). rewrite land_pow2_eqb by lia.
  rewrite Z.testbit_eqb by lia. change (2 ^ 31) with 2147483648.
  assert (w / 2147483648 = 1 + 2 * L) as ->
    by (symmetry; apply Z.div_unique with (lat + 900000000); unfold w; lia).
  assert ((1 + 2 * L) mod 2 = 1) as -> by dlia. simpl. f_equal. f_equal.
  - change 2147483647 with (2 ^ 31 - 1). rewrite land_ones_mod by lia.
    change (2 ^ 31) with 2147483648.
    assert (w mod 2147483648 = lat + 900000000) as ->
      by (symmetry; apply Z.mod_unique with (1 + 2 * L); unfold w; lia).
    unfold LAT_BIAS. rewrite (as_s_id 64) by width.
    replace (lat + 900000000 - 900000000) with lat by lia. apply as_s_id; width.
  - rewrite Z.shiftr_div_pow2 by lia. change (2 ^ 32) with 4294967296.
    assert (w / 4294967296 = L) as ->
      by (symmetry; apply Z.div_unique with (lat + 900000000 + 2147483648); unfold w; lia).
    unfold L. rewrite (as_u_id 32) by width. width.
Qed.

(** A zero-filled store reads as absent everywhere. *)
Example unpack_zero : unpack 0 = None.
Proof. reflexivity. Qed.
