(* ===== verification/BlobMeta.v ===== *)
(** * Blob indexdata ([src/blob_meta/mod.rs])

    The per-blob index stored in the BlobHeader: element kind, id range, count
    and spatial box.  [serialize] writes the 42-byte v3 layout,
    [classify_wire_indexdata] admits a raw field into the fixed-size carrier
    and [deserialize] reads it. *)

From S2P Require Import Prelude ElementKind.

(** ** Boxes *)

Record BlobBbox := { min_lat : Z; max_lat : Z; min_lon : Z; max_lon : Z }.

#[export] Instance BlobBbox_eq_dec : EqDecision BlobBbox.
Proof. solve_decision. Defined.

Definition contains (b inner : BlobBbox) : bool :=
  (min_lat b <=? min_lat inner) && (max_lat inner <=? max_lat b) &&
  (min_lon b <=? min_lon inner) && (max_lon inner <=? max_lon b).

Definition intersects (b other : BlobBbox) : bool :=
  (min_lat b <=? max_lat other) && (min_lat other <=? max_lat b) &&
  (min_lon b <=? max_lon other) && (min_lon other <=? max_lon b).

(** ** The index *)

Record BlobIndex := {
  kind : ElementKind;
  min_id : Z;
  max_id : Z;
  count : Z;
  bbox : option BlobBbox;
}.

Inductive BboxClaim :=
| Absent
| NotNodes
| Holds
| TooSmall (claimed observed : BlobBbox)
| OutOfRange (claimed : BlobBbox).

Definition bbox_claim (self scanned : BlobIndex) : BboxClaim :=
  match bbox self with
  | None => Absent
  | Some claimed =>
      if decide (kind scanned <> Node) then NotNodes
      else match bbox scanned with
           | Some observed =>
               if contains claimed observed then Holds else TooSmall claimed observed
           | None => OutOfRange claimed
           end
  end.

(** ** Wire layout *)

Definition INDEX_VERSION_V1 : Z := 1.
Definition INDEX_VERSION_V2 : Z := 2.
Definition INDEX_VERSION : Z := 3.
Definition BBOX_ABSENT : list Z := [i32_max; i32_min; i32_max; i32_min].
Definition INDEX_SIZE_V1 : nat := 26.
Definition INDEX_SIZE : nat := 42.

Definition version_size (version : Z) : option nat :=
  if version =? INDEX_VERSION_V1 then Some INDEX_SIZE_V1
  else if (version =? INDEX_VERSION_V2) || (version =? INDEX_VERSION) then Some INDEX_SIZE
  else None.

Inductive WireIndexdata :=
| Carrier (c : bytes)
| UnrecognisedLength (len : nat)
| VersionLengthMismatch.

Definition classify_wire_indexdata (b : bytes) : WireIndexdata :=
  let len := length b in
  if decide (len <> INDEX_SIZE_V1 /\ len <> INDEX_SIZE) then UnrecognisedLength len
  else
    match head b ≫= version_size with
    | Some declared =>
        if decide (declared <> len) then VersionLengthMismatch
        else Carrier (b ++ replicate (INDEX_SIZE - len) 0)
    | None => Carrier (b ++ replicate (INDEX_SIZE - len) 0)
    end.

(** [le_at::<n>(data, at)]: [n] bytes at offset [at], if the slice has them. *)
Definition le_at (n : nat) (data : bytes) (at_ : nat) : option bytes :=
  if decide (at_ + n <= length data)%nat then Some (take n (drop at_ data)) else None.

Definition serialize (ix : BlobIndex) : bytes :=
  let words := match bbox ix with
               | Some b => [min_lat b; max_lat b; min_lon b; max_lon b]
               | None => BBOX_ABSENT
               end in
  [INDEX_VERSION; ordinal (kind ix)] ++ to_le 8 (min_id ix) ++ to_le 8 (max_id ix) ++
  to_le 8 (count ix) ++ mjoin (to_le 4 <$> words).

(** The box words of a v2/v3 node index.  Absence is any inverted box, and in
    v2 also four zero words. *)
Definition read_bbox (version : Z) (data : bytes) : option (option BlobBbox) :=
  w0 ← le_at 4 data 26; w1 ← le_at 4 data 30;
  w2 ← le_at 4 data 34; w3 ← le_at 4 data 38;
  let a := as_i32 (from_le w0) in let b := as_i32 (from_le w1) in
  let c := as_i32 (from_le w2) in let d := as_i32 (from_le w3) in
  let absent := (version =? INDEX_VERSION_V2) &&
                  ((a =? 0) && (b =? 0) && (c =? 0) && (d =? 0))
                || (b <? a) || (d <? c) in
  Some (if absent then None
        else Some {| min_lat := a; max_lat := b; min_lon := c; max_lon := d |}).

(** [None] is the source's [None].  The indexing [data[1]] cannot fail: the
    lengths let through are 26 and 42. *)
Definition deserialize (data : bytes) : option BlobIndex :=
  version ← head data;
  declared ← version_size version;
  if decide (length data <> declared /\ length data <> INDEX_SIZE) then None
  else
    k ← data !! 1%nat ≫= from_ordinal;
    mn ← le_at 8 data 2; mx ← le_at 8 data 10; ct ← le_at 8 data 18;
    let min_id := as_i64 (from_le mn) in
    let max_id := as_i64 (from_le mx) in
    if max_id <? min_id then None
    else
      bb ← (if decide (declared = INDEX_SIZE /\ k = Node)
            then read_bbox version data else Some None);
      Some {| kind := k; min_id := min_id; max_id := max_id;
              count := from_le ct; bbox := bb |}.

(** ** Well-formed indexes *)

Definition bbox_wf (b : BlobBbox) : Prop :=
  (is_i32 (min_lat b) /\ is_i32 (max_lat b) /\ is_i32 (min_lon b) /\ is_i32 (max_lon b)) /\
  min_lat b <= max_lat b /\ min_lon b <= max_lon b.

Definition index_wf (ix : BlobIndex) : Prop :=
  is_i64 (min_id ix) /\ is_i64 (max_id ix) /\ is_u64 (count ix) /\
  min_id ix <= max_id ix /\
  match bbox ix with Some b => kind ix = Node /\ bbox_wf b | None => True end.

Lemma le_at_here (n : nat) (x rest : bytes) : length x = n -> le_at n (x ++ rest) 0 = Some x.
Proof.
  intros <-. unfold le_at. rewrite length_app, decide_True by lia.
  by rewrite drop_0, take_app_length.
Qed.

Lemma le_at_skip (n : nat) (x rest : bytes) (k : nat) :
  le_at n (x ++ rest) (length x + k) = le_at n rest k.
Proof.
  unfold le_at. rewrite length_app.
  destruct (decide (k + n <= length rest)%nat).
  - rewrite decide_True by lia. by rewrite drop_app_add.
  - by rewrite decide_False by lia.
Qed.

(** [le_at] at the end of a known prefix. *)
Lemma le_at_after (n k : nat) (pre x rest : bytes) :
  length pre = k -> length x = n -> le_at n (pre ++ x ++ rest) k = Some x.
Proof.
  intros <- Hx. rewrite <- (Nat.add_0_r (length pre)), le_at_skip. by apply le_at_here.
Qed.

Lemma length_serialize ix : length (serialize ix) = INDEX_SIZE.
Proof.
  unfold serialize. rewrite !length_app, !length_to_le. by destruct (bbox ix).
Qed.

Lemma i32_le_roundtrip z : is_i32 z -> as_i32 (from_le (to_le 4 z)) = z.
Proof. intros. by apply (from_to_le_s 4); [lia|]. Qed.

Lemma i64_le_roundtrip z : is_i64 z -> as_i64 (from_le (to_le 8 z)) = z.
Proof. intros. by apply (from_to_le_s 8); [lia|]. Qed.

Lemma read_bbox_serialized version (pre : bytes) (a b c d : Z) :
  length pre = 26%nat -> is_i32 a -> is_i32 b -> is_i32 c -> is_i32 d ->
  read_bbox version (pre ++ mjoin (to_le 4 <$> [a; b; c; d])) =
  Some (if (version =? INDEX_VERSION_V2) && ((a =? 0) && (b =? 0) && (c =? 0) && (d =? 0))
           || (b <? a) || (d <? c)
        then None else Some {| min_lat := a; max_lat := b; min_lon := c; max_lon := d |}).
Proof.
  intros Hpre Ha Hb Hc Hd. unfold read_bbox. cbn [fmap list_fmap mjoin list_join].
  rewrite (le_at_after 4 26) by done.
  rewrite (app_assoc pre).
  rewrite (le_at_after 4 30) by (rewrite ?length_app, ?length_to_le, ?Hpre; done).
  rewrite (app_assoc (pre ++ _)).
  rewrite (le_at_after 4 34) by (rewrite ?length_app, ?length_to_le, ?Hpre; done).
  rewrite (app_assoc ((pre ++ _) ++ _)).
  rewrite (le_at_after 4 38) by (rewrite ?length_app, ?length_to_le, ?Hpre; done).
  obind. by rewrite !i32_le_roundtrip.
Qed.

Lemma indexdata_reads (ix : BlobIndex) :
  index_wf ix ->
  length (serialize ix) = INDEX_SIZE /\
  classify_wire_indexdata (serialize ix) = Carrier (serialize ix) /\
  deserialize (serialize ix) = Some ix.
Proof.
  intros (Hmin & Hmax & Hct & Hle & Hbb). split; [apply length_serialize|]. split.
  - unfold classify_wire_indexdata. rewrite length_serialize.
    rewrite decide_False by tauto. simpl. by rewrite app_nil_r.
  - unfold deserialize. rewrite length_serialize.
    destruct ix as [k mn mx ct bb]. unfold serialize. simpl in Hmin, Hmax, Hct, Hle, Hbb.
    cbn [kind min_id max_id count bbox].
    set (hd := [INDEX_VERSION; ordinal k]).
    set (words := match bb with Some _ => _ | None => _ end).
    change (head (hd ++ _)) with (Some INDEX_VERSION). obind.
    change (version_size INDEX_VERSION) with (Some INDEX_SIZE). obind.
    rewrite decide_False by tauto.
    change ((hd ++ _) !! 1%nat) with (Some (ordinal k)). obind.
    rewrite from_ordinal_ordinal. obind.
    rewrite (le_at_after 8 2) by done. obind.
    rewrite (app_assoc hd). rewrite (le_at_after 8 10) by done. obind.
    rewrite (app_assoc (hd ++ _)). rewrite (le_at_after 8 18) by done. obind.
    rewrite !i64_le_roundtrip, from_to_le_u by done.
    replace (mx <? mn) with false by (symmetry; by apply Z.ltb_ge).
    destruct (decide (INDEX_SIZE = INDEX_SIZE /\ k = Node)) as [[_ ->]|Hk].
    + rewrite (app_assoc ((hd ++ _) ++ _)). unfold words.
      destruct bb as [[a b c d]|]; cbn [min_lat max_lat min_lon max_lon].
      * destruct Hbb as [_ ((Ha & Hb & Hc & Hd) & Hab & Hcd)].
        cbn [min_lat max_lat min_lon max_lon] in Ha, Hb, Hc, Hd, Hab, Hcd.
        rewrite read_bbox_serialized by done. obind. do 2 f_equal.
        change (INDEX_VERSION =? INDEX_VERSION_V2) with false. simpl.
        rewrite (proj2 (Z.ltb_ge b a)), (proj2 (Z.ltb_ge d c)) by done. done.
      * unfold BBOX_ABSENT. rewrite read_bbox_serialized by (done || width). done.
    + obind. do 2 f_equal. destruct bb; [|done]. destruct Hbb as [-> _]. exfalso. tauto.
Qed.

(** Indexdata round trip: a well-formed index (non-inverted id range, box
    only on node blobs and not inverted) serializes to 42 bytes, is classified
    as a carrier unchanged, and deserializes to itself; in particular a box at
    Null Island survives. *)
Theorem indexdata_roundtrip (ix : BlobIndex) :
  index_wf ix ->
  length (serialize ix) = INDEX_SIZE /\
  classify_wire_indexdata (serialize ix) = Carrier (serialize ix) /\
  deserialize (serialize ix) = Some ix.
Proof. apply indexdata_reads. Qed.

Definition null_island_index : BlobIndex :=
  {| kind := Node; min_id := -5; max_id := 7; count := 3;
     bbox := Some {| min_lat := 0; max_lat := 0; min_lon := 0; max_lon := 0 |} |}.

Lemma null_island_index_wf : index_wf null_island_index.
Proof. unfold index_wf, bbox_wf, null_island_index; simpl; split_and!; (done || width). Qed.

Lemma indexdata_roundtrip_witness :
  length (serialize null_island_index) = INDEX_SIZE /\
  classify_wire_indexdata (serialize null_island_index) = Carrier (serialize null_island_index) /\
  deserialize (serialize null_island_index) = Some null_island_index.
Proof. exact (indexdata_roundtrip null_island_index null_island_index_wf). Defined.

Lemma le_at_wf n data k x : Forall is_byte data -> le_at n data k = Some x ->
  Forall is_byte x /\ length x = n.
Proof.
  unfold le_at. intros Hd. case_decide; [|done]. intros [= <-]. split.
  - by apply Forall_take, Forall_drop.
  - rewrite length_take, length_drop. lia.
Qed.

(** Whatever bytes arrive, an index that deserializes is well formed: the
    id range is not inverted, every number fits its width, and a box is present
    only on a node index and is not inverted. *)
Theorem deserialize_wf (data : bytes) (ix : BlobIndex) :
  Forall is_byte data -> deserialize data = Some ix -> index_wf ix.
Proof.
  intros Hd H. unfold deserialize in H.
  destruct (head data) as [v|]; [|done]. simpl in H.
  destruct (version_size v) as [sz|]; [|done]. simpl in H.
  case_decide; [done|].
  destruct (data !! 1%nat ≫= from_ordinal) as [k|]; [|done]. simpl in H.
  destruct (le_at 8 data 2) as [mn|] eqn:Hmn; [|done]. simpl in H.
  destruct (le_at 8 data 10) as [mx|] eqn:Hmx; [|done]. simpl in H.
  destruct (le_at 8 data 18) as [ct|] eqn:Hct; [|done]. simpl in H.
  destruct (Z.ltb_spec (as_i64 (from_le mx)) (as_i64 (from_le mn))) as [|Hle]; [done|].
  apply le_at_wf in Hct as [Hctw Hctl]; [|done].
  pose proof (from_le_range ct Hctw) as Hr. rewrite Hctl in Hr.
  change (256 ^ Z.of_nat 8) with (2 ^ 64) in Hr.
  destruct (if decide _ then _ else _) as [bb|] eqn:Hbb; [|done]. simpl in H.
  injection H as <-. unfold index_wf; simpl.
  split_and!; [by apply as_s_range|by apply as_s_range|done|done|].
  case_decide as Hk; [|by injection Hbb as <-]. destruct Hk as [_ ->].
  unfold read_bbox in Hbb.
  destruct (le_at 4 data 26) as [w0|]; [|done]. destruct (le_at 4 data 30) as [w1|]; [|done].
  destruct (le_at 4 data 34) as [w2|]; [|done]. destruct (le_at 4 data 38) as [w3|]; [|done].
  cbn [mbind option_bind] in Hbb. injection Hbb as <-.
  destruct (_ || _) eqn:Habs; [done|]. unbool. split; [done|].
  split; [split_and!; by apply as_s_range|]. simpl. lia.
Qed.

Lemma deserialize_wf_witness : index_wf null_island_index.
Proof.
  apply (deserialize_wf (serialize null_island_index)).
  - apply Forall_forall. intros x Hx. vm_compute in Hx. unfold is_byte.
    repeat (apply elem_of_cons in Hx as [->|Hx]; [lia|]). by apply elem_of_nil in Hx.
  - reflexivity.
Defined.

Lemma le_at_app_l n (data pad : bytes) k :
  (k + n <= length data)%nat -> le_at n (data ++ pad) k = le_at n data k.
Proof.
  intros. unfold le_at. rewrite length_app, !decide_True by lia.
  rewrite drop_app_le by lia. rewrite take_app_le; [done|]. rewrite length_drop. lia.
Qed.

(** The fixed-size carrier is lossless: when a raw indexdata field is
    admitted, reading the zero-padded 42-byte carrier gives exactly what
    reading the field itself gives, so padding never manufactures a box. *)
Theorem carrier_lossless (field c : bytes) :
  classify_wire_indexdata field = Carrier c ->
  length c = INDEX_SIZE /\ deserialize c = deserialize field.
Proof.
  unfold classify_wire_indexdata. case_decide as Hlen; [done|].
  assert (length field = 26 \/ length field = 42)%nat as Hl by (unfold INDEX_SIZE, INDEX_SIZE_V1 in Hlen; lia).
  destruct field as [|v f]; [simpl in Hl; lia|].
  change (head (v :: f)) with (Some v). obind.
  assert (length ((v :: f) ++ replicate (INDEX_SIZE - length (v :: f)) 0) = INDEX_SIZE) as Hpad
    by (rewrite length_app, length_replicate; unfold INDEX_SIZE; lia).
  destruct (version_size v) as [sz|] eqn:Hv.
  - case_decide as Hsz; [done|]. intros [= <-].
    split; [done|].
    assert (sz = length (v :: f)) as -> by tauto.
    change (v :: f ++ ?p) with ((v :: f) ++ p).
    destruct Hl as [Hl|Hl]; rewrite Hl in Hv;
      [|replace (41 - length f)%nat with 0%nat by (simpl in Hl; lia); by rewrite app_nil_r].
    set (p := replicate _ _). assert (length p = 16%nat) as Hp16
      by (unfold p; rewrite length_replicate; simpl in Hl; lia).
    unfold deserialize.
    change (head ((v :: f) ++ p)) with (Some v). change (head (v :: f)) with (Some v). obind.
    rewrite Hv. obind. rewrite length_app, Hl, Hp16.
    rewrite !decide_False by (unfold INDEX_SIZE; lia).
    rewrite lookup_app_l by lia.
    rewrite !le_at_app_l by lia.
    repeat (match goal with |- ?m ≫= _ = ?m ≫= _ => destruct m; [obind|done] end).
    case_match; [done|].
    rewrite !decide_False by (intros [[=] _]). done.
  - intros [= <-].
    split; [done|].
    unfold deserialize. change (head (v :: _)) with (Some v). obind. by rewrite Hv.
Qed.

Definition v1_field : bytes := [1; 1] ++ to_le 8 3 ++ to_le 8 9 ++ to_le 8 2.

Lemma carrier_lossless_witness :
  length (v1_field ++ replicate 16 0) = INDEX_SIZE /\
  deserialize (v1_field ++ replicate 16 0) = deserialize v1_field.
Proof. apply carrier_lossless. reflexivity. Defined.

(** The bbox verdict: a stored box claim against a scan of the payload is
    reported as holding exactly when the payload is nodes, was scanned with a
    box, and every point of the scanned box lies in the stored one. *)
Theorem bbox_claim_holds (self scanned : BlobIndex) (observed : BlobBbox) :
  bbox scanned = Some observed -> bbox_wf observed ->
  (bbox_claim self scanned = Holds <->
   kind scanned = Node /\
   exists claimed, bbox self = Some claimed /\
     forall lat lon, min_lat observed <= lat <= max_lat observed ->
       min_lon observed <= lon <= max_lon observed ->
       min_lat claimed <= lat <= max_lat claimed /\ min_lon claimed <= lon <= max_lon claimed).
Proof.
  intros Hs (_ & Hlat & Hlon). unfold bbox_claim. rewrite Hs.
  destruct (bbox self) as [cl|]; [|naive_solver].
  case_decide as Hk; [naive_solver|].
  unfold contains. split.
  - case_match eqn:Hc; [|done]. intros _. unbool. split; [done|]. exists cl. split; [done|]. lia.
  - intros (_ & c & [= <-] & Hin).
    pose proof (Hin (min_lat observed) (min_lon observed) ltac:(lia) ltac:(lia)).
    pose proof (Hin (max_lat observed) (max_lon observed) ltac:(lia) ltac:(lia)).
    by rewrite !(proj2 (Z.leb_le _ _)) by lia.
Qed.

Lemma bbox_claim_holds_witness :
  bbox_claim null_island_index null_island_index = Holds.
Proof.
  apply (bbox_claim_holds null_island_index null_island_index
    {| min_lat := 0; max_lat := 0; min_lon := 0; max_lon := 0 |} eq_refl).
  - unfold bbox_wf; simpl. split_and!; width.
  - split; [done|]. eexists. split; [done|]. simpl. lia.
Defined.
