(* ===== verification/TagIndex.v ===== *)
(** * The per-blob tag key index ([src/blob_meta/tag_index.rs])

    A sorted, deduplicated list of tag keys with its wire encoding: a version
    byte, a key count and length-prefixed keys, all little-endian [u16].  The
    reader accepts only the canonical encoding, because lookups binary-search
    the list. *)

From S2P Require Import Prelude StdSlice BlobMeta.

(** ** Byte strings in Rust's slice order *)

Fixpoint bytes_cmp (a b : bytes) : comparison :=
  match a, b with
  | [], [] => Eq
  | [], _ :: _ => Lt
  | _ :: _, [] => Gt
  | x :: a, y :: b => match x ?= y with Eq => bytes_cmp a b | c => c end
  end.

Definition bytes_ltb (a b : bytes) : bool := match bytes_cmp a b with Lt => true | _ => false end.

Definition bytes_lt (a b : bytes) : Prop := bytes_cmp a b = Lt.
Definition bytes_le (a b : bytes) : Prop := bytes_cmp a b <> Gt.

#[export] Instance bytes_lt_dec a b : Decision (bytes_lt a b) := ltac:(unfold bytes_lt; solve_decision).
#[export] Instance bytes_le_dec a b : Decision (bytes_le a b) := ltac:(unfold bytes_le; solve_decision).

Lemma bytes_cmp_refl a : bytes_cmp a a = Eq.
Proof. induction a as [|x a IH]; simpl; [done|]. by rewrite Z.compare_refl. Qed.

Lemma bytes_cmp_eq a b : bytes_cmp a b = Eq -> a = b.
Proof.
  revert b. induction a as [|x a IH]; intros [|y b]; simpl; try done.
  destruct (Z.compare_spec x y); try done. intros H'. subst. f_equal. auto.
Qed.

Lemma bytes_cmp_antisym a b : bytes_cmp b a = CompOpp (bytes_cmp a b).
Proof.
  revert b. induction a as [|x a IH]; intros [|y b]; simpl; try done.
  rewrite (Z.compare_antisym x y). destruct (x ?= y); simpl; auto.
Qed.

Lemma bytes_lt_trans a b c : bytes_lt a b -> bytes_lt b c -> bytes_lt a c.
Proof.
  unfold bytes_lt. revert b c.
  induction a as [|x a IH]; intros [|y b] [|z c]; simpl; try done.
  destruct (Z.compare_spec x y), (Z.compare_spec y z), (Z.compare_spec x z); subst; try done; try lia.
  apply IH.
Qed.

Lemma bytes_lt_irrefl a : ~ bytes_lt a a.
Proof. unfold bytes_lt. by rewrite bytes_cmp_refl. Qed.

Lemma bytes_le_lt_eq a b : bytes_le a b <-> bytes_lt a b \/ a = b.
Proof.
  unfold bytes_le, bytes_lt. split.
  - destruct (bytes_cmp a b) eqn:E; try done; [|by left]. right. by apply bytes_cmp_eq.
  - intros [-> | ->]; [done|]. by rewrite bytes_cmp_refl.
Qed.

Lemma bytes_nlt_le a b : ~ bytes_lt a b <-> bytes_le b a.
Proof.
  unfold bytes_lt, bytes_le. rewrite (bytes_cmp_antisym a b). by destruct (bytes_cmp a b).
Qed.

Lemma bytes_le_trans a b c : bytes_le a b -> bytes_le b c -> bytes_le a c.
Proof.
  rewrite !bytes_le_lt_eq. intros [?| ->] [?| ->]; auto. left. by eapply bytes_lt_trans.
Qed.

#[export] Instance bytes_le_total : Total bytes_le.
Proof. intros a b. destruct (decide (bytes_lt a b)); [left|right]; [apply bytes_le_lt_eq; auto|by apply bytes_nlt_le]. Qed.
#[export] Instance bytes_le_transitive : Transitive bytes_le.
Proof. intros a b c. apply bytes_le_trans. Qed.

(** Between a prefix and a string it starts, everything starts with it. *)
Lemma prefix_between p k0 k :
  bytes_le p k0 -> bytes_le k0 k -> p `prefix_of` k -> p `prefix_of` k0.
Proof.
  unfold bytes_le. revert k0 k. induction p as [|x p IH]; intros k0 k H1 H2 Hp.
  { apply prefix_nil. }
  destruct Hp as [r ->]. destruct k0 as [|y k0]; [done|]. simpl in H1, H2.
  destruct (Z.compare_spec x y) as [->|?|?]; [|destruct (Z.compare_spec y x); try done; lia|done].
  rewrite Z.compare_refl in H2. apply prefix_cons.
  apply (IH k0 (p ++ r)); [done|done|]. by exists r.
Qed.

(** ** The index *)

Definition TAG_INDEX_VERSION : Z := 1.
Definition TAG_INDEX_MAX_KEYS : nat := Z.to_nat 65535.
Definition TAG_INDEX_MAX_KEY_LEN : nat := Z.to_nat 65535.

Record TagIndex := { keys : list bytes }.

(** The encoding loop: [None] on a key too long or not above the previous one. *)
Fixpoint encode_records (prev : option bytes) (ks : list bytes) : option bytes :=
  match ks with
  | [] => Some []
  | key :: ks =>
      if bool_decide (TAG_INDEX_MAX_KEY_LEN < length key)%nat ||
         match prev with Some p => negb (bytes_ltb p key) | None => false end
      then None
      else rest ← encode_records (Some key) ks;
           Some (to_le 2 (Z.of_nat (length key)) ++ key ++ rest)
  end.

(** [count] is what the iterator's [len] announces. *)
Definition encode_tag_index (count : nat) (ks : list bytes) : option bytes :=
  if bool_decide (TAG_INDEX_MAX_KEYS < count)%nat then None
  else
    body ← encode_records None ks;
    if bool_decide (length ks <> count) then None
    else Some ([TAG_INDEX_VERSION] ++ to_le 2 (Z.of_nat count) ++ body).

Definition serialize (ti : TagIndex) : option bytes :=
  encode_tag_index (length (keys ti)) (keys ti).

(** The decoding loop; [rest] is [data[pos..]]. *)
Fixpoint decode_records (n : nat) (prev : option bytes) (rest : bytes) : option (list bytes) :=
  match n with
  | O => if bool_decide (rest = []) then Some [] else None
  | S n =>
      lenb ← le_at 2 rest 0;
      let key_len := Z.to_nat (from_le lenb) in
      let rest1 := drop 2 rest in
      if bool_decide (length rest1 < key_len)%nat then None
      else
        let key := take key_len rest1 in
        if match prev with Some p => negb (bytes_ltb p key) | None => false end then None
        else ks ← decode_records n (Some key) (drop key_len rest1); Some (key :: ks)
  end.

Definition deserialize (data : bytes) : option TagIndex :=
  if bool_decide (length data < 3)%nat then None
  else if negb (bool_decide (data !! 0%nat = Some TAG_INDEX_VERSION)) then None
  else
    cb ← le_at 2 data 1;
    let key_count := Z.to_nat (from_le cb) in
    if bool_decide ((length data - 3) / 2 < key_count)%nat then None
    else ks ← decode_records key_count None (drop 3 data); Some {| keys := ks |}.

(** [Vec::dedup]: drops an element equal to the one kept before it. *)
Fixpoint dedup (prev : option bytes) (l : list bytes) : list bytes :=
  match l with
  | [] => []
  | x :: l => if decide (prev = Some x) then dedup prev l else x :: dedup (Some x) l
  end.

Definition from_keys (ks : list bytes) : TagIndex :=
  {| keys := dedup None (merge_sort bytes_le ks) |}.

Definition keys_empty (ti : TagIndex) : bool := bool_decide (keys ti = []).

Definition has_any_key (ti : TagIndex) (required : list bytes) : bool :=
  existsb (fun rk => match binary_search_by (fun k => bytes_cmp k rk) (keys ti) with
                     | Ok _ => true | Err _ => false end) required.

Definition starts_with (k p : bytes) : bool := bool_decide (take (length p) k = p).

Definition has_any_prefix (ti : TagIndex) (prefixes : list bytes) : bool :=
  existsb (fun p =>
    let idx := partition_point (fun k => bytes_ltb k p) (keys ti) in
    match keys ti !! idx with Some k => starts_with k p | None => false end) prefixes.

(** ** Encoding and decoding *)

Definition ascending (ks : list bytes) : Prop := StronglySorted bytes_lt ks.

Lemma bytes_ltb_lt a b : bytes_ltb a b = true <-> bytes_lt a b.
Proof. unfold bytes_ltb, bytes_lt. by destruct (bytes_cmp a b). Qed.

Definition above (prev : option bytes) (key : bytes) : Prop :=
  match prev with Some p => bytes_lt p key | None => True end.

Lemma above_ltb prev key :
  match prev with Some p => negb (bytes_ltb p key) | None => false end = false <-> above prev key.
Proof.
  destruct prev; simpl; [|done]. by rewrite negb_false_iff, bytes_ltb_lt.
Qed.

(** The loop succeeds exactly on short keys in strictly ascending order. *)
Lemma encode_records_Some prev ks :
  is_Some (encode_records prev ks) <->
  Forall (fun k => (length k <= TAG_INDEX_MAX_KEY_LEN)%nat) ks /\ ascending ks /\ Forall (above prev) ks.
Proof.
  revert prev. induction ks as [|k ks IH]; intros prev; simpl.
  { split; [|by eexists]. intros _. by repeat constructor. }
  destruct (bool_decide_reflect (TAG_INDEX_MAX_KEY_LEN < length k)%nat) as [Hl|Hl]; simpl.
  { split; [by intros []|]. intros (H & _). apply Forall_cons in H as [? _]. lia. }
  destruct (match prev with Some _ => _ | None => _ end) eqn:Hp.
  { split; [by intros []|]. intros (_ & _ & H). apply Forall_cons in H as [H%above_ltb _]. congruence. }
  apply above_ltb in Hp.
  assert (is_Some (encode_records (Some k) ks ≫= fun rest => Some (to_le 2 (Z.of_nat (length k)) ++ k ++ rest))
          <-> is_Some (encode_records (Some k) ks)) as ->.
  { destruct (encode_records (Some k) ks); simpl; split; intros []; (done || by eexists). }
  rewrite IH. split.
  - intros (H1 & H2 & H3). split_and!; [constructor; [lia|done]|by constructor|].
    constructor; [done|]. eapply Forall_impl; [exact H3|]. intros x Hx.
    destruct prev as [p|]; simpl in *; [by eapply bytes_lt_trans|done].
  - intros (H1 & H2 & H3). apply Forall_cons in H1 as [_ H1], H3 as [_ H3].
    apply StronglySorted_inv in H2 as [H2 H4]. done.
Qed.

Lemma decode_encode_records prev ks b :
  encode_records prev ks = Some b -> decode_records (length ks) prev b = Some ks.
Proof.
  revert prev b. induction ks as [|k ks IH]; intros prev b; cbn [encode_records decode_records length].
  { by intros [= <-]. }
  destruct (bool_decide_reflect (TAG_INDEX_MAX_KEY_LEN < length k)%nat) as [Hl|Hl]; cbn [orb]; [done|].
  destruct (match prev with Some _ => _ | None => _ end) eqn:Hp; [done|].
  destruct (encode_records (Some k) ks) as [rest|] eqn:Hr; obind; [|done]. intros <-%(inj Some).
  rewrite le_at_here by done. obind.
  rewrite from_to_le_u by (unfold TAG_INDEX_MAX_KEY_LEN, is_u in *; simpl; lia).
  rewrite Nat2Z.id. rewrite (drop_app_length' (to_le 2 _)) by done.
  rewrite bool_decide_eq_false_2 by (rewrite length_app; lia).
  rewrite take_app_length, drop_app_length, Hp. by rewrite (IH _ _ Hr).
Qed.

Lemma encode_decode_records n prev rest ks :
  Forall is_byte rest -> decode_records n prev rest = Some ks ->
  encode_records prev ks = Some rest /\ length ks = n.
Proof.
  revert prev rest ks. induction n as [|n IH]; intros prev rest ks Hw; cbn [decode_records].
  { case_bool_decide as Hr; [|done]. intros [= <-]. by subst. }
  destruct (le_at 2 rest 0) as [lenb|] eqn:Hlen; [|done]. obind.
  destruct (le_at_wf _ _ _ _ Hw Hlen) as [Hlw Hll].
  pose proof (from_le_range lenb Hlw) as Hrange. rewrite Hll in Hrange.
  change (256 ^ Z.of_nat 2) with 65536 in Hrange.
  assert (rest = lenb ++ drop 2 rest) as Hsplit.
  { unfold le_at in Hlen. case_decide; [|done]. injection Hlen as <-.
    by rewrite drop_0, take_drop. }
  set (r1 := drop 2 rest) in *. set (kl := Z.to_nat (from_le lenb)) in *.
  case_bool_decide as Hk; [done|].
  destruct (match prev with Some _ => _ | None => _ end) eqn:Hp; [done|].
  destruct (decode_records n _ _) as [ks'|] eqn:Hd; [|done]. intros [= <-].
  destruct (IH (Some (take kl r1)) (drop kl r1) ks') as [He Hn];
    [by apply Forall_drop, Forall_drop|done|].
  cbn [encode_records]. rewrite Hp.
  assert (length (take kl r1) = kl) as Htl by (rewrite length_take; lia).
  rewrite bool_decide_eq_false_2 by (rewrite Htl; unfold kl, TAG_INDEX_MAX_KEY_LEN; lia).
  cbn [orb]. rewrite He. obind. split; [|simpl; by f_equal]. f_equal.
  rewrite Hsplit. f_equal.
  - rewrite Htl. unfold kl. rewrite Z2Nat.id by lia.
    rewrite <- Hll. by apply to_from_le.
  - apply take_drop.
Qed.

Lemma records_length prev ks body : encode_records prev ks = Some body -> (2 * length ks <= length body)%nat.
Proof.
  revert prev body. induction ks as [|k ks IH]; intros prev body; simpl; [lia|].
  case_match; [done|]. destruct (encode_records (Some k) ks) as [r|] eqn:Hr; obind; [|done].
  intros <-%(inj Some). specialize (IH _ _ Hr). simpl. rewrite length_app. lia.
Qed.

Lemma encode_tag_index_decodes ks b :
  encode_tag_index (length ks) ks = Some b -> deserialize b = Some {| keys := ks |}.
Proof.
  unfold encode_tag_index. case_bool_decide as Hc; [done|].
  destruct (encode_records None ks) as [body|] eqn:He; obind; [|done].
  rewrite bool_decide_eq_false_2 by tauto. intros <-%(inj Some).
  unfold deserialize.
  rewrite bool_decide_eq_false_2 by (rewrite !length_app, length_to_le; simpl; lia).
  rewrite bool_decide_eq_true_2 by done. simpl negb. cbv iota.
  rewrite (le_at_after 2 1 [TAG_INDEX_VERSION]) by done. obind.
  rewrite from_to_le_u by (unfold TAG_INDEX_MAX_KEYS, is_u in *; simpl; lia). rewrite Nat2Z.id.
  change (drop 3 _) with (drop 2 (to_le 2 (Z.of_nat (length ks)) ++ body)).
  rewrite drop_app_length' by done.
  rewrite (decode_encode_records _ _ _ He).
  rewrite bool_decide_eq_false_2; [done|].
  rewrite !length_app, length_to_le. cbn [length]. pose proof (records_length _ _ _ He) as Hlen.
  replace (1 + (2 + length body) - 3)%nat with (length body) by lia. dlia.
Qed.

(** The encoder refuses a strictly ascending list only for its size. *)
Lemma encode_tag_index_refused ks :
  ascending ks -> encode_tag_index (length ks) ks = None ->
  (TAG_INDEX_MAX_KEYS < length ks)%nat \/ exists k, k ∈ ks /\ (TAG_INDEX_MAX_KEY_LEN < length k)%nat.
Proof.
  intros Ha. unfold encode_tag_index. case_bool_decide as Hc; [by left|]. intros He. right.
  destruct (decide (Forall (fun k => (length k <= TAG_INDEX_MAX_KEY_LEN)%nat) ks)) as [HF|HF].
  - destruct (proj2 (encode_records_Some None ks)) as [body Hb]; [split_and!; [done|done|by apply Forall_true]|].
    rewrite Hb in He. cbn [mbind option_bind] in He. by rewrite bool_decide_eq_false_2 in He by tauto.
  - apply not_Forall_Exists, Exists_exists in HF as (k & Hk & Hl); [|solve_decision]. exists k. split; [done|].
    destruct (Nat.lt_ge_cases TAG_INDEX_MAX_KEY_LEN (length k)) as [|Hge]; [done|]. by destruct (Hl Hge).
Qed.

Lemma sorted_nodup_ascending ks : StronglySorted bytes_le ks -> NoDup ks -> ascending ks.
Proof.
  induction 1 as [|k ks Hs IH Hk]; intros Hnd; [constructor|]. apply NoDup_cons in Hnd as [Hn Hnd].
  constructor; [by apply IH|]. apply Forall_forall. intros x Hx.
  pose proof (proj1 (Forall_forall _ _) Hk x Hx) as [Hlt| ->]%bytes_le_lt_eq; done.
Qed.

(** The tag index round trip: a key list is encoded exactly when it has at
    most 65535 keys of at most 65535 bytes in strictly ascending byte order,
    and what was encoded decodes to the same keys. *)
Theorem tag_index_roundtrip (ti : TagIndex) :
  (is_Some (serialize ti) <->
     (length (keys ti) <= TAG_INDEX_MAX_KEYS)%nat /\
     Forall (fun k => (length k <= TAG_INDEX_MAX_KEY_LEN)%nat) (keys ti) /\
     ascending (keys ti)) /\
  (forall b, serialize ti = Some b -> deserialize b = Some ti).
Proof.
  destruct ti as [ks]. split.
  - unfold serialize, encode_tag_index. cbn [keys]. pose proof (encode_records_Some None ks) as Hs.
    assert (Forall (above None) ks) as Habove by (apply Forall_true; done).
    case_bool_decide as Hc; [split; [by intros []|lia]|].
    destruct (encode_records None ks) as [body|]; simpl.
    + rewrite bool_decide_eq_false_2 by tauto. split; [|by eexists].
      intros _. split; [lia|]. destruct (proj1 Hs); [by eexists|tauto].
    + split; [by intros []|]. intros (_ & H1 & H2). exfalso.
      destruct (proj2 Hs) as [? ?]; [tauto|done].
  - intros b. unfold serialize. cbn [keys]. apply encode_tag_index_decodes.
Qed.

(** The reader accepts only the canonical encoding: bytes that decode to an
    index are byte for byte what the encoder writes for it, so the decoded key
    list is strictly ascending. *)
Theorem tag_index_canonical (data : bytes) (ti : TagIndex) :
  Forall is_byte data -> deserialize data = Some ti ->
  serialize ti = Some data /\ ascending (keys ti).
Proof.
  intros Hw. unfold deserialize. case_bool_decide as Hl; [done|].
  case_bool_decide as Hv; [|done]. simpl negb. cbv iota.
  destruct (le_at 2 data 1) as [cb|] eqn:Hcb; [|done]. obind.
  case_bool_decide as Hc; [done|].
  destruct (decode_records _ _ _) as [ks|] eqn:Hd; [|done]. intros [= <-].
  eapply encode_decode_records in Hd as [He Hn]; [|by apply Forall_drop].
  destruct (le_at_wf _ _ _ _ Hw Hcb) as [Hcw Hcl].
  pose proof (from_le_range cb Hcw) as Hr. rewrite Hcl in Hr. change (256 ^ Z.of_nat 2) with 65536 in Hr.
  split.
  - unfold serialize, encode_tag_index. cbn [keys].
    rewrite bool_decide_eq_false_2 by (unfold TAG_INDEX_MAX_KEYS; lia).
    rewrite He. obind. rewrite bool_decide_eq_false_2 by tauto. f_equal.
    rewrite Hn, Z2Nat.id by lia. rewrite <- Hcl, to_from_le by done.
    destruct data as [|v d]; [done|]. injection Hv as ->. unfold le_at in Hcb. case_decide; [|done]. injection Hcb as <-.
    destruct d as [|x [|y d]]; [simpl in Hl; lia..|done].
  - destruct (proj1 (encode_records_Some None ks)) as (_ & Ha & _); [by eexists|done].
Qed.

(** ** Building and searching *)

Lemma dedup_spec prev l :
  StronglySorted bytes_le l ->
  (forall p, prev = Some p -> Forall (bytes_le p) l) ->
  ascending (dedup prev l) /\ Forall (above prev) (dedup prev l) /\
  (forall x, x ∈ dedup prev l <-> x ∈ l /\ prev <> Some x).
Proof.
  intros Hs. revert prev. induction Hs as [|x l Hs IH Hx]; intros prev Hp; simpl.
  { split_and!; [constructor|constructor|]. intros x. split; [by intros ?%not_elem_of_nil|].
    by intros [?%not_elem_of_nil _]. }
  case_decide as Hd.
  - subst prev. destruct (IH (Some x)) as (H1 & H2 & H3); [by intros ? [= <-]|].
    split_and!; [done|done|]. intros y. rewrite H3, elem_of_cons. naive_solver.
  - destruct (IH (Some x)) as (H1 & H2 & H3); [by intros ? [= <-]|].
    assert (above prev x) as Habove.
    { destruct prev as [p|]; simpl; [|done]. specialize (Hp p eq_refl).
      apply Forall_cons in Hp as [Hpx _]. apply bytes_le_lt_eq in Hpx as [?| ->]; congruence. }
    split_and!.
    + by constructor.
    + constructor; [done|]. eapply Forall_impl; [exact H2|]. intros y Hy. simpl in Hy.
      destruct prev as [p|]; simpl in *; [by eapply bytes_lt_trans|done].
    + intros y. rewrite !elem_of_cons, H3. destruct (decide (y = x)) as [->|Hne]; [naive_solver|].
      assert (y ∈ l -> prev <> Some y) as Hprev.
      { intros Hy ->. simpl in Habove. rewrite Forall_forall in Hx. specialize (Hx y Hy).
        by apply bytes_nlt_le in Hx. }
      split; [intros [?|[? _]]; [done|auto]|].
      intros [[?|?] ?]; [done|]. right. split; [done|]. congruence.
Qed.

Lemma from_keys_spec ks :
  ascending (keys (from_keys ks)) /\ (forall x, x ∈ keys (from_keys ks) <-> x ∈ ks).
Proof.
  unfold from_keys. cbn [keys].
  destruct (dedup_spec None (merge_sort bytes_le ks)) as (H1 & _ & H3).
  - apply (StronglySorted_merge_sort bytes_le).
  - done.
  - split; [done|]. intros x. rewrite H3, (merge_sort_Permutation bytes_le ks). naive_solver.
Qed.

Lemma ascending_lookup ks i j a b :
  ascending ks -> (i < j)%nat -> ks !! i = Some a -> ks !! j = Some b -> bytes_lt a b.
Proof.
  intros Hs. revert i j. induction Hs as [|x l Hs IH Hx]; intros [|i] [|j] Hij Ha Hb;
    try done; try lia; simpl in *.
  - simplify_eq. rewrite Forall_forall in Hx. apply Hx. by eapply list_elem_of_lookup_2.
  - eapply (IH i j); [lia|done..].
Qed.

Lemma ascending_lookup_le ks i j a b :
  ascending ks -> (i <= j)%nat -> ks !! i = Some a -> ks !! j = Some b -> bytes_le a b.
Proof.
  intros Hs Hij Ha Hb. apply bytes_le_lt_eq.
  destruct (decide (i = j)) as [->|]; [right; congruence|left].
  eapply ascending_lookup; [done| |done..]. lia.
Qed.

Lemma ascending_ordered ks rk : ascending ks -> ordered_for (fun k => bytes_cmp k rk) ks.
Proof.
  intros Hs i j x y Hij Hx Hy.
  pose proof (ascending_lookup_le _ _ _ _ _ Hs Hij Hx Hy) as Hle.
  split; intros H.
  - destruct (bytes_cmp y rk) eqn:E; [| |done]; exfalso.
    + apply bytes_cmp_eq in E as ->. by apply Hle.
    + apply bytes_le_lt_eq in Hle as [Hlt| ->]; [|congruence].
      pose proof (bytes_lt_trans _ _ _ Hlt E) as Hc. unfold bytes_lt in Hc. congruence.
  - apply bytes_le_lt_eq in Hle as [Hlt| ->]; [|done]. by eapply bytes_lt_trans.
Qed.

Lemma ascending_partitioned ks p : ascending ks -> partitioned (fun k => bytes_ltb k p) ks.
Proof.
  intros Hs i j x y Hij Hx Hy H. apply bytes_ltb_lt in H. apply bytes_ltb_lt.
  pose proof (ascending_lookup_le _ _ _ _ _ Hs Hij Hx Hy) as Hle.
  apply bytes_le_lt_eq in Hle as [Hlt| ->]; [by eapply bytes_lt_trans|done].
Qed.

Lemma starts_with_prefix k p : starts_with k p = true <-> p `prefix_of` k.
Proof.
  unfold starts_with. rewrite bool_decide_eq_true. split.
  - intros H. exists (drop (length p) k). rewrite <- H at 1. by rewrite take_drop.
  - intros [r ->]. by rewrite take_app_length.
Qed.

Lemma has_any_key_spec ti required :
  ascending (keys ti) ->
  (has_any_key ti required = true <-> exists k, k ∈ required /\ k ∈ keys ti).
Proof.
  intros Hasc. unfold has_any_key. rewrite existsb_exists. split.
  - intros (rk & Hrk & H). apply list_elem_of_In in Hrk. exists rk. split; [done|].
    pose proof (binary_search_by_spec _ _ (ascending_ordered _ rk Hasc)) as Hs.
    destruct (binary_search_by _ _) as [i|i]; [|done]. destruct Hs as (x & Hx & Heq).
    apply bytes_cmp_eq in Heq as ->. by eapply list_elem_of_lookup_2.
  - intros (k & Hk & Hb). exists k. split; [by apply list_elem_of_In|].
    pose proof (binary_search_by_spec _ _ (ascending_ordered _ k Hasc)) as Hs.
    destruct (binary_search_by _ _) as [i|i]; [done|]. destruct Hs as (_ & Hlt & Hgt).
    apply list_elem_of_lookup in Hb as [j Hj].
    destruct (Nat.lt_ge_cases j i) as [Hji|Hji];
      [specialize (Hlt _ _ Hji Hj)|specialize (Hgt _ _ Hji Hj)];
      rewrite bytes_cmp_refl in *; done.
Qed.

Lemma prefix_le p k : p `prefix_of` k -> bytes_le p k.
Proof.
  intros [r ->]. unfold bytes_le.
  induction p as [|x p IH]; simpl; [by destruct r|]. by rewrite Z.compare_refl.
Qed.

Lemma has_any_prefix_spec ti prefixes :
  ascending (keys ti) ->
  (has_any_prefix ti prefixes = true <->
   exists p k, p ∈ prefixes /\ k ∈ keys ti /\ p `prefix_of` k).
Proof.
  intros Hasc. unfold has_any_prefix. rewrite existsb_exists. split.
  - intros (p & Hp & H). apply list_elem_of_In in Hp.
    destruct (keys ti !! _) as [k|] eqn:Hk; [|done].
    exists p, k. split_and!; [done|by eapply list_elem_of_lookup_2|]. by apply starts_with_prefix.
  - intros (p & k & Hp & Hk & Hpre). exists p. split; [by apply list_elem_of_In|].
    destruct (partition_point_spec _ _ (ascending_partitioned _ p Hasc)) as (Hle & Hlt & Hge).
    set (i := partition_point _ _) in *.
    apply list_elem_of_lookup in Hk as [j Hj]. pose proof (prefix_le p k Hpre) as Hpk.
    assert (i <= j)%nat as Hij.
    { destruct (Nat.lt_ge_cases j i) as [Hji|]; [|done].
      specialize (Hlt _ _ Hji Hj). apply bytes_ltb_lt in Hlt. by apply bytes_nlt_le in Hpk. }
    destruct (lookup_lt_is_Some_2 (keys ti) i) as [k0 Hk0].
    { apply lookup_lt_Some in Hj. lia. }
    rewrite Hk0. apply starts_with_prefix.
    apply (prefix_between p k0 k); [|by eapply ascending_lookup_le|done].
    specialize (Hge i k0 ltac:(lia) Hk0). apply bytes_nlt_le. intros H.
    apply bytes_ltb_lt in H. congruence.
Qed.

(** Lookups are exact: on the index built from the keys a block carries, in
    any order and with repeats, [has_any_key] holds exactly when a required key
    is among them, and [has_any_prefix] exactly when one of them starts with a
    required prefix. *)
Theorem tag_index_lookup_exact (block_keys required : list bytes) :
  (has_any_key (from_keys block_keys) required = true <->
     exists k, k ∈ required /\ k ∈ block_keys) /\
  (has_any_prefix (from_keys block_keys) required = true <->
     exists p k, p ∈ required /\ k ∈ block_keys /\ p `prefix_of` k).
Proof.
  destruct (from_keys_spec block_keys) as [Hasc Hin].
  rewrite has_any_key_spec, has_any_prefix_spec by done. by setoid_rewrite Hin.
Qed.

Definition sample_data : bytes := [1; 2; 0; 1; 0; 97; 2; 0; 97; 98].

Lemma sample_data_bytes : Forall is_byte sample_data.
Proof. unfold sample_data. repeat apply Forall_cons_2; try apply Forall_nil_2; unfold is_byte; lia. Qed.

Lemma tag_index_canonical_witness :
  serialize {| keys := [[97]; [97; 98]] |} = Some sample_data /\ ascending [[97]; [97; 98]].
Proof. exact (tag_index_canonical sample_data _ sample_data_bytes eq_refl). Defined.
