(* ===== verification/BlobFilter.v ===== *)
(** * Blob filters ([src/blob_meta/mod.rs], [BlobFilter])

    Which blobs a reader may skip without decompressing them, decided from the
    indexdata and the tag index.  A skip is sound when nothing in the blob could
    pass the filter; [blob_skip_sound] states it. *)

From S2P Require Import Prelude ElementKind BlobMeta TagIndex.

Record BlobFilter := {
  want_nodes : bool;
  want_ways : bool;
  want_relations : bool;
  node_bbox : option BlobBbox;
  required_tag_keys : option (list bytes);
  required_tag_prefixes : option (list bytes);
}.

Definition BlobFilter_new (n w r : bool) : BlobFilter :=
  {| want_nodes := n; want_ways := w; want_relations := r; node_bbox := None;
     required_tag_keys := None; required_tag_prefixes := None |}.

Definition only_nodes : BlobFilter := BlobFilter_new true false false.
Definition only_ways : BlobFilter := BlobFilter_new false true false.
Definition only_relations : BlobFilter := BlobFilter_new false false true.

Definition with_node_bbox (f : BlobFilter) (b : BlobBbox) : BlobFilter :=
  {| want_nodes := want_nodes f; want_ways := want_ways f;
     want_relations := want_relations f; node_bbox := Some b;
     required_tag_keys := required_tag_keys f;
     required_tag_prefixes := required_tag_prefixes f |}.

Definition with_required_tag_keys (f : BlobFilter) (ks : list bytes) : BlobFilter :=
  {| want_nodes := want_nodes f; want_ways := want_ways f;
     want_relations := want_relations f; node_bbox := node_bbox f;
     required_tag_keys := Some ks;
     required_tag_prefixes := required_tag_prefixes f |}.

Definition with_required_tag_prefixes (f : BlobFilter) (ps : list bytes) : BlobFilter :=
  {| want_nodes := want_nodes f; want_ways := want_ways f;
     want_relations := want_relations f; node_bbox := node_bbox f;
     required_tag_keys := required_tag_keys f;
     required_tag_prefixes := Some ps |}.

Definition wants (f : BlobFilter) (k : ElementKind) : bool :=
  match k with
  | Node => want_nodes f
  | Way => want_ways f
  | Relation => want_relations f
  end.

Definition is_some {A} (o : option A) : bool := match o with Some _ => true | None => false end.

Definition uses_index (f : BlobFilter) : bool :=
  negb (want_nodes f && want_ways f && want_relations f) || is_some (node_bbox f).

Definition wants_index (f : BlobFilter) (ix : BlobIndex) : bool :=
  if negb (wants f (kind ix)) then false
  else match node_bbox f, kind ix, bbox ix with
       | Some fb, Node, Some bb => intersects fb bb
       | _, _, _ => true
       end.

Definition has_tag_filter (f : BlobFilter) : bool :=
  is_some (required_tag_keys f) || is_some (required_tag_prefixes f).

Definition wants_tag_index (f : BlobFilter) (ti : TagIndex) : bool :=
  if match required_tag_keys f with Some ks => has_any_key ti ks | None => false end then true
  else if match required_tag_prefixes f with Some ps => has_any_prefix ti ps | None => false end
  then true
  else negb (has_tag_filter f).

(** ** What a filter asks of an element

    An element as the filter sees it: its kind, its coordinate when it is a
    node, and its tag keys. *)

Record element := { e_kind : ElementKind; e_lat : Z; e_lon : Z; e_keys : list bytes }.

Definition in_box (b : BlobBbox) (lat lon : Z) : Prop :=
  min_lat b <= lat <= max_lat b /\ min_lon b <= lon <= max_lon b.

(** The kind and spatial half of the filter, element by element. *)
Definition element_in_scope (f : BlobFilter) (e : element) : Prop :=
  wants f (e_kind e) = true /\
  match node_bbox f with
  | Some fb => e_kind e = Node -> in_box fb (e_lat e) (e_lon e)
  | None => True
  end.

(** The tag half: some key is required or starts with a required prefix. *)
Definition element_has_tag (f : BlobFilter) (e : element) : Prop :=
  (exists ks k, required_tag_keys f = Some ks /\ k ∈ ks /\ k ∈ e_keys e) \/
  (exists ps p k, required_tag_prefixes f = Some ps /\ p ∈ ps /\ k ∈ e_keys e /\ p `prefix_of` k).

(** An index describes a blob's elements: they have its kind, and the nodes
    lie in its box when it has one. *)
Definition describes (ix : BlobIndex) (es : list element) : Prop :=
  Forall (fun e => e_kind e = kind ix /\
    forall b, bbox ix = Some b -> in_box b (e_lat e) (e_lon e)) es.

Lemma intersects_point a b lat lon :
  in_box a lat lon -> in_box b lat lon -> intersects a b = true.
Proof.
  unfold in_box, intersects. intros ? ?. by rewrite !(proj2 (Z.leb_le _ _)) by lia.
Qed.

Lemma wants_tag_index_spec f ti :
  ascending (keys ti) -> has_tag_filter f = true ->
  (wants_tag_index f ti = true <->
   (exists ks k, required_tag_keys f = Some ks /\ k ∈ ks /\ k ∈ keys ti) \/
   (exists ps p k, required_tag_prefixes f = Some ps /\ p ∈ ps /\ k ∈ keys ti /\ p `prefix_of` k)).
Proof.
  intros Hasc Hf. unfold wants_tag_index. rewrite Hf. simpl.
  set (A := match required_tag_keys f with Some _ => _ | None => _ end).
  set (B := match required_tag_prefixes f with Some _ => _ | None => _ end).
  assert (A = true <-> exists ks k, required_tag_keys f = Some ks /\ k ∈ ks /\ k ∈ keys ti) as HA.
  { unfold A. destruct (required_tag_keys f) as [ks|]; [|split; [done|by intros (? & ? & ? & _)]].
    rewrite has_any_key_spec by done. split; [intros (k & ? & ?); eauto|].
    intros (? & k & [= <-] & ? & ?). eauto. }
  assert (B = true <-> exists ps p k,
    required_tag_prefixes f = Some ps /\ p ∈ ps /\ k ∈ keys ti /\ p `prefix_of` k) as HB.
  { unfold B. destruct (required_tag_prefixes f) as [ps|]; [|split; [done|by intros (? & ? & ? & ? & _)]].
    rewrite has_any_prefix_spec by done. split; [intros (q & k & ? & ? & ?); eauto 10|].
    intros (? & q & k & [= <-] & ? & ? & ?). eauto. }
  rewrite <- HA, <- HB. destruct A, B; intuition congruence.
Qed.

(** Skipping a blob is sound.  If a blob's index describes its elements and
    [wants_index] refuses it, no element is in the filter's kind and spatial
    scope.  If the filter has a tag part and [wants_tag_index] refuses the
    blob's tag index, no element carries a required key or prefix; a filter
    without a tag part never skips by tags. *)
Theorem blob_skip_sound (f : BlobFilter) (ix : BlobIndex) (es : list element) :
  (describes ix es -> wants_index f ix = false -> forall e, e ∈ es -> ~ element_in_scope f e) /\
  (wants_tag_index f (from_keys (es ≫= e_keys)) = false ->
     has_tag_filter f = true /\ forall e, e ∈ es -> ~ element_has_tag f e).
Proof.
  split.
  - intros Hd Hw e He [Hk Hbox]. unfold describes in Hd. rewrite Forall_forall in Hd.
    destruct (Hd e He) as [Hkind Hin]. unfold wants_index in Hw.
    rewrite <- Hkind, Hk in Hw. simpl in Hw.
    destruct (node_bbox f) as [fb|]; [|done]. destruct (e_kind e) eqn:Ek; [|done..].
    destruct (bbox ix) as [bb|]; [|done].
    enough (intersects fb bb = true) by congruence.
    apply (intersects_point fb bb (e_lat e) (e_lon e)); auto.
  - intros Hw. destruct (has_tag_filter f) eqn:Hf.
    2:{ unfold wants_tag_index in Hw. rewrite Hf in Hw. by repeat case_match. }
    split; [done|]. intros e He Htag.
    destruct (from_keys_spec (es ≫= e_keys)) as [Hasc Hin].
    assert (forall k, k ∈ e_keys e -> k ∈ keys (from_keys (es ≫= e_keys))) as Hk.
    { intros k Hk. apply Hin, list_elem_of_bind. eauto. }
    assert (wants_tag_index f (from_keys (es ≫= e_keys)) = true) as Ht; [|congruence].
    apply wants_tag_index_spec; [done|done|].
    destruct Htag as [(ks & k & ? & ? & ?)|(ps & q & k & ? & ? & ? & ?)]; [left|right]; eauto 10.
Qed.

(** A filter that reads no indexdata refuses nothing through it: when
    [uses_index] is false, [wants_index] accepts every index. *)
Theorem unused_index_accepts (f : BlobFilter) :
  uses_index f = false <-> forall ix, wants_index f ix = true.
Proof.
  unfold uses_index, wants_index. split.
  - intros H ix. apply orb_false_iff in H as [H1 H2]. apply negb_false_iff in H1.
    apply andb_true_iff in H1 as [[H1 H3]%andb_true_iff H4].
    destruct (node_bbox f); [done|].
    destruct (kind ix); simpl; rewrite ?H1, ?H3, ?H4; done.
  - intros H.
    pose (probe := fun k b => {| kind := k; min_id := 0; max_id := 0; count := 1; bbox := b |}).
    pose proof (H (probe Node None)) as Hn. pose proof (H (probe Way None)) as Hw.
    pose proof (H (probe Relation None)) as Hr. simpl in *.
    destruct (want_nodes f) eqn:E1; [|done]. destruct (want_ways f) eqn:E2; [|done].
    destruct (want_relations f) eqn:E3; [|done]. simpl.
    destruct (node_bbox f) as [fb|]; [|done]. exfalso.
    pose proof (H (probe Node (Some {| min_lat := max_lat fb + 1; max_lat := max_lat fb + 1;
      min_lon := 0; max_lon := 0 |}))) as Hx.
    simpl in Hx. rewrite E1 in Hx. simpl in Hx. unfold intersects in Hx. simpl in Hx. unbool. lia.
Qed.

Definition sample_elements : list element :=
  [ {| e_kind := Node; e_lat := 5; e_lon := 5; e_keys := [[104; 119]] |} ].
Definition sample_index : BlobIndex :=
  {| kind := Node; min_id := 1; max_id := 1; count := 1;
     bbox := Some {| min_lat := 5; max_lat := 5; min_lon := 5; max_lon := 5 |} |}.
Definition sample_filter : BlobFilter :=
  with_required_tag_keys
    (with_node_bbox only_nodes {| min_lat := 10; max_lat := 20; min_lon := 0; max_lon := 9 |})
    [[114]].

Lemma blob_skip_sound_witness :
  (forall e, e ∈ sample_elements -> ~ element_in_scope sample_filter e) /\
  (has_tag_filter sample_filter = true /\
   forall e, e ∈ sample_elements -> ~ element_has_tag sample_filter e).
Proof.
  destruct (blob_skip_sound sample_filter sample_index sample_elements) as [H1 H2]. split.
  - apply H1; [|reflexivity]. apply Forall_cons_2; [|apply Forall_nil_2].
    split; [done|]. intros bb [= <-]. unfold in_box; simpl; lia.
  - apply H2. reflexivity.
Defined.
