(* ===== verification/TagExpr.v ===== *)
(** * Tag expressions (src/src/tag_expr.rs, src/src/commands/tags_filter/mod.rs)

    The expression language of the tag commands ([nw/highway=primary,secondary],
    [name!=*strasse*], ...): its parser, its matcher, the reader of expression
    files, and the blob prescreen that tags-filter derives from a set of
    expressions, which may skip a blob only when no element in it can match.
    Every character the parser looks for is ASCII, so it works on bytes. *)

From S2P Require Import Prelude StdText ElementKind BlobMeta TagIndex BlobFilter.

(** ** Matchers *)

Inductive StringMatcher :=
| Always
| Equal (v : bytes)
| Alternatives (vs : list bytes)
| Prefix (p : bytes)
| Substring (s : bytes).

(** [str::starts_with] and [str::contains] *)
Fixpoint starts_with (s p : bytes) : bool :=
  match p, s with
  | [], _ => true
  | y :: p, x :: s => (x =? y) && starts_with s p
  | _, [] => false
  end.

Fixpoint contains (s sub : bytes) : bool :=
  starts_with s sub || match s with [] => false | _ :: s => contains s sub end.

Definition matches (m : StringMatcher) (s : bytes) : bool :=
  match m with
  | Always => true
  | Equal v => bool_decide (s = v)
  | Alternatives vs => existsb (fun v => bool_decide (v = s)) vs
  | Prefix p => starts_with s p
  | Substring sub => contains s sub
  end.

Record TagMatcher := mkMatcher { tm_key : StringMatcher; tm_value : option StringMatcher; tm_invert : bool }.

Record Expression := mkExpression { ex_types : TypeFilter; ex_matcher : TagMatcher }.

Definition tag_matches (m : TagMatcher) (key value : bytes) : bool :=
  if negb (matches (tm_key m) key) then false
  else match tm_value m with None => true | Some vm => xorb (matches vm value) (tm_invert m) end.

(** ** The parser *)

Definition SPACE : Z := 32.
Definition STAR : Z := 42.
Definition COMMA : Z := 44.
Definition SLASH : Z := 47.
Definition EQUALS : Z := 61.
Definition BANG : Z := 33.

Inductive ExprError := SpacedPrefix (prefix : bytes) | EmptyKey | EmptyExpression.

Fixpoint trim_start (s : bytes) : bytes :=
  match s with x :: r => if x =? SPACE then trim_start r else s | [] => [] end.

(** [trim_matches(' ')] *)
Definition strip_spaces (s : bytes) : bytes := reverse (trim_start (reverse (trim_start s))).

(** [find], as the text before and after. *)
Fixpoint split_once (c : Z) (s : bytes) : option (bytes * bytes) :=
  match s with
  | [] => None
  | x :: r => if x =? c then Some ([], r) else '(a, b) ← split_once c r; Some (x :: a, b)
  end.

(** [split(',')] *)
Fixpoint split_on (c : Z) (s : bytes) : list bytes :=
  match s with
  | [] => [[]]
  | x :: r =>
      if x =? c then [] :: split_on c r
      else match split_on c r with w :: ws => (x :: w) :: ws | [] => [[x]] end
  end.

(** [strip_suffix(c)] *)
Definition strip_last (c : Z) (s : bytes) : option bytes :=
  match reverse s with x :: r => if x =? c then Some (reverse r) else None | [] => None end.

Definition is_type_prefix (prefix : bytes) : bool :=
  match prefix with [] => false | _ => forallb (fun c => existsb (Z.eqb c) (bs "nwr")) prefix end.

Definition has_char (c : Z) (s : bytes) : bool := existsb (Z.eqb c) s.

Definition parse_type_prefix (input : bytes) : result ExprError (TypeFilter * bytes) :=
  match split_once SLASH input with
  | Some (prefix, rest) =>
      if is_type_prefix prefix then
        Ok (mkFilter (has_char 110 prefix) (has_char 119 prefix) (has_char 114 prefix), rest)
      else if has_char SPACE prefix && is_type_prefix (strip_spaces prefix) then Err (SpacedPrefix prefix)
      else Ok (TypeFilter_all, input)
  | None => Ok (TypeFilter_all, input)
  end.

Definition parse_string_matcher (input : bytes) : StringMatcher :=
  let s := strip_spaces input in
  if decide (s = [STAR]) then Always
  else
    let leading_star := match s with x :: _ => x =? STAR | [] => false end in
    let trailing_star := match last s with Some x => x =? STAR | None => false end in
    if negb leading_star && negb trailing_star then
      if has_char COMMA s then Alternatives (strip_spaces <$> split_on COMMA s) else Equal s
    else if trailing_star && negb leading_star then Prefix (take (length s - 1) s)
    else
      let inner := tail s in
      Substring (match strip_last STAR inner with Some inner => inner | None => inner end).

Definition parse_tag_matcher (input : bytes) : result ExprError TagMatcher :=
  let '(key_part, value_part) := match split_once EQUALS input with
                                 | Some (k, v) => (k, Some v)
                                 | None => (input, None)
                                 end in
  let '(raw_key, invert) := match value_part, strip_last BANG key_part with
                            | Some _, Some stripped => (stripped, true)
                            | _, _ => (key_part, false)
                            end in
  let key_str := strip_spaces raw_key in
  match key_str with
  | [] => Err (match value_part with Some _ => EmptyKey | None => EmptyExpression end)
  | _ => Ok (mkMatcher (parse_string_matcher key_str) (parse_string_matcher <$> value_part) invert)
  end.

Definition parse_expression (input : bytes) : result ExprError Expression :=
  '(type_filter, tag_part) ← parse_type_prefix input;
  matcher ← parse_tag_matcher tag_part;
  Ok (mkExpression type_filter matcher).

Definition parse_expressions (inputs : list bytes) : result ExprError (list Expression) := mapM parse_expression inputs.

(** *** Expression files *)

Definition expression_line (raw : bytes) : option bytes :=
  let line := match split_once 35 raw with Some (before, _) => before | None => raw end in
  let line := match strip_last 13 line with Some l => l | None => line end in
  match strip_spaces line with [] => None | _ => Some line end.

Definition read_expressions (contents : bytes) : list bytes := omap expression_line (split_on 10 contents).

(** ** Elements *)

Definition element_matches (expressions : list Expression) (tags : list (bytes * bytes)) (kind : ElementKind) : bool :=
  existsb (fun expr => takes_kind (ex_types expr) kind && existsb (fun '(key, value) => tag_matches (ex_matcher expr) key value) tags)
    expressions.

(** ** The blob prescreen *)

(** The sets of keys and prefixes, in the order they were first inserted. *)
Record Prescreen := mkPrescreen {
  ps_types : TypeFilter; ps_keys : list bytes; ps_prefixes : list bytes; ps_unconstrained : bool }.

Definition set_insert (k : bytes) (l : list bytes) : list bytes := if decide (k ∈ l) then l else l ++ [k].

Definition prescreen_step (p : Prescreen) (expr : Expression) : Prescreen :=
  let t := ex_types expr in
  let types := mkFilter (nodes (ps_types p) || nodes t) (ways (ps_types p) || ways t) (relations (ps_types p) || relations t) in
  match tm_key (ex_matcher expr) with
  | Equal key => mkPrescreen types (set_insert key (ps_keys p)) (ps_prefixes p) (ps_unconstrained p)
  | Alternatives alternatives => mkPrescreen types (foldl (flip set_insert) (ps_keys p) alternatives) (ps_prefixes p) (ps_unconstrained p)
  | Prefix prefix => mkPrescreen types (ps_keys p) (set_insert prefix (ps_prefixes p)) (ps_unconstrained p)
  | Substring _ | Always => mkPrescreen types (ps_keys p) (ps_prefixes p) true
  end.

Definition blob_filter_from_expressions (expressions : list Expression) : option BlobFilter :=
  let p := foldl prescreen_step (mkPrescreen TypeFilter_none [] [] false) expressions in
  let keys := if ps_unconstrained p then [] else ps_keys p in
  let prefixes := if ps_unconstrained p then [] else ps_prefixes p in
  let t := ps_types p in
  let all_types := nodes t && ways t && relations t in
  let has_tag_filter := negb (bool_decide (keys = [])) || negb (bool_decide (prefixes = [])) in
  if all_types && negb has_tag_filter then None
  else
    let f := BlobFilter_new (nodes t) (ways t) (relations t) in
    let f := if bool_decide (keys = []) then f else with_required_tag_keys f keys in
    let f := if bool_decide (prefixes = []) then f else with_required_tag_prefixes f prefixes in
    Some f.

Definition trusted_blob_filter (expressions : list Expression) (invert distrust_metadata : bool) : option BlobFilter :=
  if invert || distrust_metadata then None else blob_filter_from_expressions expressions.

(** ** What matches *)

Lemma starts_with_spec s p : starts_with s p = true <-> p `prefix_of` s.
Proof.
  revert s. induction p as [|y p IH]; intros s; [split; [intros _; apply prefix_nil|by destruct s]|].
  destruct s as [|x s]; cbn [starts_with]; [split; [done|by intros ?%prefix_nil_not]|].
  rewrite andb_true_iff, Z.eqb_eq, IH. split.
  - intros [-> Hp]. by apply prefix_cons.
  - intros Hp. split; [by eapply eq_sym, prefix_cons_inv_1|by eapply prefix_cons_inv_2].
Qed.

Lemma contains_sub_spec s sub : contains s sub = true <-> exists a b, s = a ++ sub ++ b.
Proof.
  induction s as [|x s IH]; cbn [contains]; rewrite orb_true_iff, starts_with_spec.
  - split; [intros [[b E]|?]; [by exists [], b|done]|intros (a & b & E)]. left. symmetry in E. apply app_nil in E as [-> E]. by exists b.
  - rewrite IH. split.
    + intros [[b E]|(a & b & ->)]; [by exists [], b|by exists (x :: a), b].
    + intros ([|y a] & b & E); [left; by exists b|]. cbn in E. simplify_eq. right. by exists a, b.
Qed.

(** A text the outer spaces are already gone from. *)
Definition stripped (t : bytes) : Prop := head t <> Some SPACE /\ list.last t <> Some SPACE.

Lemma trim_start_id s : head s <> Some SPACE -> trim_start s = s.
Proof. destruct s as [|x s]; [done|]. cbn. destruct (Z.eqb_spec x SPACE) as [->|]; [done|]. done. Qed.

Lemma strip_id t : stripped t -> strip_spaces t = t.
Proof.
  intros [Hh Hl]. unfold strip_spaces. rewrite (trim_start_id t) by done. rewrite trim_start_id, reverse_involutive; [done|].
  by rewrite head_reverse.
Qed.

Lemma trim_start_head s : head (trim_start s) <> Some SPACE.
Proof. induction s as [|x s IH]; [done|]. cbn [trim_start]. destruct (Z.eqb_spec x SPACE); [done|]. cbn. congruence. Qed.

Lemma trim_start_suffix s : trim_start s `suffix_of` s.
Proof. induction s as [|x s IH]; [done|]. cbn [trim_start]. destruct (_ =? _); [by apply suffix_cons_r|done]. Qed.

Lemma strip_stripped s : stripped (strip_spaces s).
Proof.
  unfold strip_spaces. set (u := trim_start s). split; [|rewrite last_reverse; apply trim_start_head].
  rewrite head_reverse. destruct (trim_start_suffix (reverse u)) as [k Hk].
  destruct (list.last (trim_start (reverse u))) as [x|] eqn:E; [|done]. intros [= ->].
  assert (list.last (reverse u) = Some SPACE) as Hl by (rewrite Hk, last_app, E; done).
  rewrite last_reverse in Hl. by apply (trim_start_head s).
Qed.

Definition no_star (t : bytes) : Prop := head t <> Some STAR /\ list.last t <> Some STAR.

Lemma leading_star_spec (s : bytes) : match s with x :: _ => x =? STAR | [] => false end = bool_decide (head s = Some STAR).
Proof. destruct s as [|x s]; [done|]. cbn. destruct (Z.eqb_spec x STAR) as [->|]; [by rewrite bool_decide_true|rewrite bool_decide_false; [done|congruence]]. Qed.

Lemma trailing_star_spec (s : bytes) : match list.last s with Some x => x =? STAR | None => false end = bool_decide (list.last s = Some STAR).
Proof. destruct (list.last s) as [x|]; [|done]. destruct (Z.eqb_spec x STAR) as [->|]; [by rewrite bool_decide_true|rewrite bool_decide_false; [done|congruence]]. Qed.

Lemma strip_last_snoc c s : strip_last c (s ++ [c]) = Some s.
Proof. unfold strip_last. rewrite reverse_snoc, Z.eqb_refl. by rewrite reverse_involutive. Qed.

Lemma strip_last_none c s : list.last s <> Some c -> strip_last c s = None.
Proof.
  intros Hl. unfold strip_last. rewrite <- (reverse_involutive s), last_reverse in Hl.
  destruct (reverse s) as [|x r]; [done|]. destruct (Z.eqb_spec x c) as [->|]; [done|done].
Qed.

Lemma has_char_spec c s : has_char c s = true <-> c ∈ s.
Proof. unfold has_char. rewrite existsb_exists. setoid_rewrite list_elem_of_In. split; [by intros (x & Hx & ->%Z.eqb_eq)|intros; exists c; by rewrite Z.eqb_refl]. Qed.

(** The rules of the language, by the shape of the text. *)
Lemma matcher_always : parse_string_matcher [STAR] = Always.
Proof. reflexivity. Qed.

Lemma matcher_plain t : stripped t -> no_star t ->
  parse_string_matcher t = if has_char COMMA t then Alternatives (strip_spaces <$> split_on COMMA t) else Equal t.
Proof.
  intros Hs [Hh Hl]. unfold parse_string_matcher. rewrite strip_id by done. rewrite decide_False by (intros ->; done).
  rewrite leading_star_spec, trailing_star_spec, !bool_decide_false by done. done.
Qed.

Lemma matcher_prefix p : stripped (p ++ [STAR]) -> head p <> Some STAR -> p <> [] -> parse_string_matcher (p ++ [STAR]) = Prefix p.
Proof.
  intros Hs Hh Hne. unfold parse_string_matcher. rewrite strip_id by done. rewrite decide_False by (destruct p as [|x [|]]; done).
  rewrite leading_star_spec, trailing_star_spec, last_snoc, (bool_decide_true (Some STAR = _)) by done.
  rewrite bool_decide_false by (by destruct p). cbn [negb andb]. rewrite length_app, Nat.add_sub. by rewrite take_app_length.
Qed.

Lemma matcher_substring t : stripped ([STAR] ++ t) -> t <> [] ->
  parse_string_matcher ([STAR] ++ t) = Substring (match strip_last STAR t with Some u => u | None => t end).
Proof.
  intros Hs Hne. unfold parse_string_matcher. rewrite strip_id by done. rewrite decide_False by (destruct t; done).
  rewrite leading_star_spec, trailing_star_spec. cbn [head app]. rewrite (bool_decide_true (Some STAR = _)) by done. cbn [negb andb].
  by rewrite andb_false_r.
Qed.

(** Each half of an expression matches as documented: with its outer spaces
    removed, a lone star matches anything; a text with no star at either end
    matches itself, or with commas any of its comma-separated parts, spaces
    around each removed; a text that only ends in a star matches what starts
    with the rest; and one that starts with a star matches what contains the
    rest, less one star at its end. *)
Theorem string_matcher_rules (input s : bytes) (t := strip_spaces input) :
  matches (parse_string_matcher input) s = true <->
    t = [STAR] \/
    (no_star t /\ COMMA ∉ t /\ s = t) \/
    (no_star t /\ COMMA ∈ t /\ exists part, part ∈ split_on COMMA t /\ s = strip_spaces part) \/
    (exists p, p <> [] /\ t = p ++ [STAR] /\ head p <> Some STAR /\ p `prefix_of` s) \/
    (exists u, t <> [STAR] /\ (t = [STAR] ++ u ++ [STAR] \/ (t = [STAR] ++ u /\ list.last u <> Some STAR)) /\ exists a b, s = a ++ u ++ b).
Proof.
  assert (parse_string_matcher input = parse_string_matcher t) as -> by (unfold parse_string_matcher; by rewrite (strip_id t) by apply strip_stripped).
  pose proof (strip_stripped input) as Hs. fold t in Hs. clearbody t.
  destruct (decide (t = [STAR])) as [->|Hne]; [rewrite matcher_always; naive_solver|].
  destruct (decide (head t = Some STAR)) as [Hh|Hh].
  - destruct t as [|x t]; [done|]. cbn in Hh. injection Hh as ->. change (STAR :: t) with ([STAR] ++ t) in *. assert (t <> []) as Ht by (by intros ->).
    rewrite matcher_substring by done. cbn [matches]. rewrite contains_sub_spec. split.
    + intros Hc. do 4 right. destruct (decide (list.last t = Some STAR)) as [Hl|Hl].
      * destruct t as [|z t _] using rev_ind; [done|]. rewrite last_snoc in Hl. injection Hl as ->. rewrite strip_last_snoc in Hc. exists t. auto.
      * rewrite strip_last_none in Hc by done. exists t. auto.
    + intros [?|[([? _] & _)|[([? _] & _)|[(p & Hp & E & Hhp & _)|(u & _ & [E|[E Hl]] & Hc)]]]]; [done..| | |].
      * destruct p as [|y p]; [done|]. cbn in E, Hhp. simplify_eq.
      * cbn in E. injection E as ->. by rewrite strip_last_snoc.
      * cbn in E. injection E as ->. by rewrite strip_last_none.
  - assert (forall u r, t <> [STAR] ++ u ++ r) as Hno by (by intros u r ->). destruct (decide (list.last t = Some STAR)) as [Hl|Hl].
    + destruct t as [|x p _] using rev_ind; [done|]. rewrite last_snoc in Hl. injection Hl as ->.
      assert (p <> []) as Hp by (by intros ->). assert (head p <> Some STAR) as Hhp by (by destruct p).
      rewrite matcher_prefix by done. cbn [matches]. rewrite starts_with_spec. split; [naive_solver|].
      intros [?|[([_ Hx] & _)|[([_ Hx] & _)|[(q & _ & E & _ & Hq)|(u & _ & [E|[E _]] & _)]]]].
      * done.
      * by rewrite last_snoc in Hx.
      * by rewrite last_snoc in Hx.
      * apply app_inj_tail in E as [-> _]. done.
      * by destruct (Hno u [STAR]).
      * destruct (Hno u []). by rewrite app_nil_r.
    + rewrite matcher_plain by done. destruct (has_char COMMA t) eqn:Ec.
      * apply has_char_spec in Ec. cbn [matches]. rewrite existsb_exists. split.
        -- intros (v & Hv & E%bool_decide_eq_true). subst v. apply list_elem_of_In, list_elem_of_fmap in Hv as (part & -> & Hpart). right; right; left. split; [done|]. split; [done|]. by exists part.
        -- intros [?|[(_ & Hc & _)|[(_ & _ & part & Hp & ->)|[(p & _ & E & _)|(u & _ & [E|[E _]] & _)]]]]; [done|done| | | |].
           ++ exists (strip_spaces part). split; [apply list_elem_of_In, list_elem_of_fmap_2; done|by apply bool_decide_eq_true].
           ++ subst t. by rewrite last_snoc in Hl.
           ++ by destruct (Hno u [STAR]).
           ++ destruct (Hno u []). by rewrite app_nil_r.
      * assert (COMMA ∉ t) as Hc by (intros Hc%has_char_spec; congruence). cbn [matches]. rewrite bool_decide_eq_true. split; [intros ->; right; left; done|].
        intros [?|[(_ & _ & ->)|[(_ & Hc' & _)|[(p & _ & E & _)|(u & _ & [E|[E _]] & _)]]]]; [done|done|done| | |].
        -- subst t. by rewrite last_snoc in Hl.
        -- by destruct (Hno u [STAR]).
        -- destruct (Hno u []). by rewrite app_nil_r.
Qed.

(** ** The prescreen loses nothing *)

(** The prescreen lets through what the expression can match. *)
Record covers (p : Prescreen) (expr : Expression) : Prop := {
  cv_types : forall k, takes_kind (ex_types expr) k = true -> takes_kind (ps_types p) k = true;
  cv_key : ps_unconstrained p = true \/
    match tm_key (ex_matcher expr) with
    | Equal key => key ∈ ps_keys p
    | Alternatives vs => forall v, v ∈ vs -> v ∈ ps_keys p
    | Prefix q => q ∈ ps_prefixes p
    | Substring _ | Always => False
    end }.

Lemma set_insert_spec k l x : x ∈ set_insert k l <-> x = k \/ x ∈ l.
Proof. unfold set_insert. destruct (decide (k ∈ l)); [naive_solver|]. rewrite elem_of_app, list_elem_of_singleton. tauto. Qed.

Lemma insert_all_spec ks l x : x ∈ foldl (flip set_insert) l ks <-> x ∈ ks \/ x ∈ l.
Proof.
  revert l. induction ks as [|k ks IH]; intros l; cbn [foldl]; [set_solver|]. rewrite IH. unfold flip. rewrite set_insert_spec, elem_of_cons. tauto.
Qed.

Lemma step_types p e k : takes_kind (ps_types (prescreen_step p e)) k = takes_kind (ps_types p) k || takes_kind (ex_types e) k.
Proof. unfold prescreen_step. destruct (tm_key _), k; done. Qed.

Lemma step_covers p e : covers (prescreen_step p e) e.
Proof.
  split; [intros k Hk; by rewrite step_types, Hk, orb_true_r|]. unfold prescreen_step.
  destruct (tm_key (ex_matcher e)) as [|key|vs|q|q]; cbn [ps_unconstrained ps_keys ps_prefixes]; [by left|right..|by left].
  - rewrite set_insert_spec. by left.
  - intros v Hv. rewrite insert_all_spec. by left.
  - rewrite set_insert_spec. by left.
Qed.

Lemma step_keeps p e e' : covers p e' -> covers (prescreen_step p e) e'.
Proof.
  intros [Ht Hk]. split; [intros k Hx; by rewrite step_types, (Ht k Hx)|].
  assert (forall x, x ∈ ps_keys p -> x ∈ ps_keys (prescreen_step p e)) as Hkeys.
  { intros x Hx. unfold prescreen_step. destruct (tm_key (ex_matcher e)); cbn [ps_keys]; rewrite ?set_insert_spec, ?insert_all_spec; auto. }
  assert (forall x, x ∈ ps_prefixes p -> x ∈ ps_prefixes (prescreen_step p e)) as Hpre.
  { intros x Hx. unfold prescreen_step. destruct (tm_key (ex_matcher e)); cbn [ps_prefixes]; rewrite ?set_insert_spec; auto. }
  destruct Hk as [Hu|Hk]; [left|right].
  - unfold prescreen_step. destruct (tm_key (ex_matcher e)); cbn; auto.
  - destruct (tm_key (ex_matcher e')); auto.
Qed.

Lemma prescreen_covers exprs p e : covers p e \/ e ∈ exprs -> covers (foldl prescreen_step p exprs) e.
Proof.
  revert p. induction exprs as [|x exprs IH]; intros p [Hc|Hin]; cbn [foldl]; [done|by apply elem_of_nil in Hin| |].
  - apply IH. left. by apply step_keeps.
  - apply elem_of_cons in Hin as [->|Hin]; apply IH; [left; apply step_covers|by right].
Qed.

(** An element of a blob, as a filter sees it. *)
Definition tagged (k : ElementKind) (tags : list (bytes * bytes)) : element :=
  {| e_kind := k; e_lat := 0; e_lon := 0; e_keys := tags.*1 |}.

Lemma element_matches_key exprs tags k :
  element_matches exprs tags k = true ->
  exists e key, e ∈ exprs /\ takes_kind (ex_types e) k = true /\ key ∈ tags.*1 /\ matches (tm_key (ex_matcher e)) key = true.
Proof.
  unfold element_matches. rewrite existsb_exists. intros (e & He & Hm). apply andb_true_iff in Hm as [Hk Hm].
  apply existsb_exists in Hm as ([key value] & Ht & Hm). exists e, key. apply list_elem_of_In in He, Ht. split_and!; [done|done|by apply (list_elem_of_fmap_2 fst) in Ht|].
  unfold tag_matches in Hm. by destruct (matches (tm_key _) key).
Qed.

(** The filter asks for each matched kind, and for the matched key when it asks for any. *)
Lemma filter_covers exprs f tags k :
  blob_filter_from_expressions exprs = Some f -> element_matches exprs tags k = true ->
  wants f k = true /\ node_bbox f = None /\ (has_tag_filter f = true -> element_has_tag f (tagged k tags)).
Proof.
  intros Hf (e & key & He & Hk & Hkey & Hm)%element_matches_key. unfold blob_filter_from_expressions in Hf.
  pose proof (prescreen_covers exprs (mkPrescreen TypeFilter_none [] [] false) e (or_intror He)) as [Ht Hc].
  set (p := foldl prescreen_step _ exprs) in *. clearbody p. specialize (Ht k Hk).
  destruct (_ && _) in Hf; [done|]. injection Hf as <-. set (keys := if ps_unconstrained p then [] else ps_keys p) in *.
  set (prefixes := if ps_unconstrained p then [] else ps_prefixes p) in *.
  assert (forall b1 b2 : bool, wants (if b1 then if b2 then BlobFilter_new (nodes (ps_types p)) (ways (ps_types p)) (relations (ps_types p))
      else with_required_tag_keys (BlobFilter_new (nodes (ps_types p)) (ways (ps_types p)) (relations (ps_types p))) keys
    else with_required_tag_prefixes (if b2 then BlobFilter_new (nodes (ps_types p)) (ways (ps_types p)) (relations (ps_types p))
      else with_required_tag_keys (BlobFilter_new (nodes (ps_types p)) (ways (ps_types p)) (relations (ps_types p))) keys) prefixes) k = true) as Hw.
  { intros [] []; destruct k; apply Ht. }
  split; [apply Hw|]. split; [by destruct (bool_decide (prefixes = [])), (bool_decide (keys = []))|].
  intros Htag. destruct (ps_unconstrained p) eqn:Eu; [subst keys prefixes; by rewrite !bool_decide_true in Htag by done|].
  destruct Hc as [?|Hc]; [done|]. change (ps_keys p) with keys in Hc. change (ps_prefixes p) with prefixes in Hc. unfold element_has_tag, tagged. cbn [e_keys].
  destruct (tm_key (ex_matcher e)) as [|v|vs|q|q]; try done; cbn [matches] in Hm.
  - apply bool_decide_eq_true in Hm as ->. left. exists keys, v. rewrite (bool_decide_false (keys = [])) by (intros E; rewrite E in Hc; by apply elem_of_nil in Hc).
    by destruct (bool_decide (prefixes = [])).
  - apply existsb_exists in Hm as (v & Hv & E%bool_decide_eq_true). subst v. apply list_elem_of_In, Hc in Hv. left. exists keys, key.
    rewrite (bool_decide_false (keys = [])) by (intros E; rewrite E in Hv; by apply elem_of_nil in Hv). by destruct (bool_decide (prefixes = [])).
  - apply starts_with_spec in Hm. right. exists prefixes, q, key. rewrite (bool_decide_false (prefixes = [])) by (intros E; rewrite E in Hc; by apply elem_of_nil in Hc).
    by destruct (bool_decide (keys = [])).
Qed.

(** C35. The prescreen of tags-filter loses nothing: when a set of expressions
    yields a blob filter, a blob that holds an element some expression matches
    passes it, whatever index says the blob is of that element's kind, and
    whatever keys its other elements carry; with inversion or distrusted
    metadata there is no filter, and every blob is decoded. *)
Theorem prescreen_keeps_matches (exprs : list Expression) (invert distrust : bool) (f : BlobFilter) (ix : BlobIndex)
    (blob : list (ElementKind * list (bytes * bytes))) (k : ElementKind) (tags : list (bytes * bytes)) :
  trusted_blob_filter exprs invert distrust = Some f -> (k, tags) ∈ blob -> kind ix = k -> element_matches exprs tags k = true ->
  wants_index f ix = true /\ wants_tag_index f (from_keys (blob ≫= (fun e => e.2.*1))) = true /\
  invert = false /\ distrust = false.
Proof.
  intros Hf Hin Hk Hm. unfold trusted_blob_filter in Hf. destruct invert, distrust; try done. cbn [orb] in Hf.
  destruct (filter_covers exprs f tags k Hf Hm) as (Hw & Hbox & Htag). split_and!; [| |done|done].
  - unfold wants_index. rewrite Hk, Hw, Hbox. done.
  - unfold wants_tag_index. destruct (has_tag_filter f) eqn:Eh; [|cbn; by repeat case_match].
    enough (wants_tag_index f (from_keys (blob ≫= (fun e => e.2.*1))) = true) as E by (unfold wants_tag_index in E; by rewrite Eh in E).
    destruct (from_keys_spec (blob ≫= (fun e => e.2.*1))) as [Hasc Hkeys]. apply wants_tag_index_spec; [done|done|].
    assert (forall key, key ∈ tags.*1 -> key ∈ keys (from_keys (blob ≫= (fun e => e.2.*1)))) as Hsub.
    { intros key Hkey. apply Hkeys, list_elem_of_bind. by exists (k, tags). }
    destruct (Htag eq_refl) as [(ks & key & ? & ? & ?)|(ps & q & key & ? & ? & ? & ?)]; [left; exists ks, key|right; exists ps, q, key]; auto.
Qed.

(** [w/highway=*] and [n/amenity,shop]: way blobs are kept for [highway]. *)
Definition sample_exprs : list Expression :=
  match parse_expressions [bs "w/highway=*"; bs "n/amenity,shop"] with Ok l => l | Err _ => [] end.

Lemma prescreen_keeps_matches_witness :
  exists f, trusted_blob_filter sample_exprs false false = Some f /\
    required_tag_keys f = Some [bs "highway"; bs "amenity"; bs "shop"] /\
    wants_index f {| kind := Way; min_id := 1; max_id := 9; count := 2; bbox := None |} = true /\
    wants_tag_index f (from_keys [bs "name"; bs "highway"]) = true.
Proof.
  eexists. split; [vm_compute; reflexivity|]. split; [reflexivity|].
  destruct (prescreen_keeps_matches sample_exprs false false _ {| kind := Way; min_id := 1; max_id := 9; count := 2; bbox := None |}
    [(Way, [(bs "name", [])]); (Way, [(bs "highway", bs "primary")])] Way [(bs "highway", bs "primary")] eq_refl ltac:(right; left) eq_refl
    ltac:(vm_compute; reflexivity)) as (H1 & H2 & _). split; [exact H1|exact H2].
Defined.
