(* ===== verification/Tally.v ===== *)
(** * Checking a blob's index claim against its elements ([src/blob_meta/tally.rs])

    [IdTally] counts the ids of a walk with their extremes, [ClaimWalk] compares
    a complete walk with the blob's index and the header's order claim, and
    [AscendingTally] is the cheap check the hot loops use for non-negative
    claims.  The cheap check and the full walk reach the same verdict. *)

From S2P Require Import Prelude OsmId ElementKind BlobMeta.

(** ** [IdTally] *)

Record IdTally := { t_count : Z; t_min : Z; t_max : Z }.

Definition IdTally_default : IdTally :=
  {| t_count := 0; t_min := i64_max; t_max := i64_min |}.

Definition tally_add (t : IdTally) (id : Z) : IdTally :=
  {| t_count := t_count t + 1; t_min := Z.min (t_min t) id; t_max := Z.max (t_max t) id |}.

Definition tally_of (count min max : Z) : IdTally :=
  if count =? 0 then IdTally_default
  else {| t_count := count; t_min := min; t_max := max |}.

Definition escapes (t : IdTally) (claim : BlobIndex) : bool :=
  negb (t_count t =? 0) && ((t_min t <? min_id claim) || (max_id claim <? t_max t)).

(** The refusals: [IndexdataMismatch] carries what the message prints, the
    tally, the claim and whether the walk was complete. *)
Inductive Error :=
| IndexdataMismatch (seen : IdTally) (claim : BlobIndex) (complete : bool)
| Unsorted (context : string) (id previous : Z)
| Internal.

Definition mismatch (t : IdTally) (claim : BlobIndex) (complete : bool) : Error :=
  IndexdataMismatch t claim complete.

Definition refuse_inexact (t : IdTally) (claim : BlobIndex) : result Error unit :=
  if negb (t_count t =? 0) && (t_count t =? count claim) &&
     (t_min t =? min_id claim) && (t_max t =? max_id claim)
  then Ok ()
  else Err (mismatch t claim true).

(** ** [ClaimWalk] *)

Inductive Order := Required (context : string) | Free.

Record ClaimWalk := {
  w_claim : option BlobIndex;
  w_order : Order;
  w_tally : IdTally;
  w_first : Z;
  w_previous : OsmIdKey;
}.

Definition ClaimWalk_new (claim : option BlobIndex) (order : Order) : ClaimWalk :=
  {| w_claim := claim; w_order := order; w_tally := IdTally_default; w_first := 0;
     w_previous := osm_id_key 0 |}.

Definition disorder (w : ClaimWalk) (id : Z) : Error :=
  let unsorted :=
    Unsorted (match w_order w with Required c => c | Free => "" end) id
      (osm_id_from_key (w_previous w)) in
  match w_claim w with
  | Some claim =>
      let seen := tally_add (w_tally w) id in
      if escapes seen claim then mismatch seen claim false else unsorted
  | None => unsorted
  end.

(** Counts an id that passed the order check. *)
Definition count_id (w : ClaimWalk) (id : Z) (previous : OsmIdKey) : ClaimWalk :=
  {| w_claim := w_claim w; w_order := w_order w;
     w_tally := tally_add (w_tally w) id;
     w_first := if t_count (w_tally w) =? 0 then id else w_first w;
     w_previous := previous |}.

Definition walk_observe (w : ClaimWalk) (id : Z) : result Error ClaimWalk :=
  match w_order w with
  | Required _ =>
      let key := osm_id_key id in
      if key_ltb key (w_previous w) then Err (disorder w id)
      else Ok (count_id w id key)
  | Free => Ok (count_id w id (w_previous w))
  end.

Definition walk_first (w : ClaimWalk) : option Z :=
  if t_count (w_tally w) =? 0 then None else Some (w_first w).

Definition walk_finish (w : ClaimWalk) : result Error (option Z) :=
  match w_claim w with
  | Some claim => _ ← refuse_inexact (w_tally w) claim; Ok (walk_first w)
  | None => Ok (walk_first w)
  end.

(** The loop every caller runs: observe each id, then finish. *)
Fixpoint walk_ids (w : ClaimWalk) (ids : list Z) : result Error (option Z) :=
  match ids with
  | [] => walk_finish w
  | id :: ids => w' ← walk_observe w id; walk_ids w' ids
  end.

(** ** [AscendingTally] *)

Record AscendingTally := {
  a_count : Z;
  a_first : Z;
  a_last : Z;
  a_descended : bool;
}.

Definition AscendingTally_default : AscendingTally :=
  {| a_count := 0; a_first := 0; a_last := i64_min; a_descended := false |}.

Definition asc_add (t : AscendingTally) (id : Z) : AscendingTally :=
  {| a_count := a_count t + 1;
     a_first := if a_count t =? 0 then id else a_first t;
     a_last := id;
     a_descended := a_descended t || (id <? a_last t) |}.

Definition holds (t : AscendingTally) (claim : BlobIndex) : result Error bool :=
  if min_id claim <? 0 then Err Internal
  else Ok (negb (a_descended t) && negb (a_count t =? 0) && (a_count t =? count claim) &&
           (a_first t =? min_id claim) && (a_last t =? max_id claim)).

Definition replay_refusal (claim : BlobIndex) (order : Order) (ids : list Z) : Error :=
  match walk_ids (ClaimWalk_new (Some claim) order) ids with
  | Err e => e
  | Ok _ => Internal
  end.

(** ** The exact claim of a list of ids *)

Definition claim_exact (claim : BlobIndex) (ids : list Z) : Prop :=
  ids <> [] /\ count claim = Z.of_nat (length ids) /\
  min_id claim ∈ ids /\ max_id claim ∈ ids /\
  Forall (fun x => min_id claim <= x <= max_id claim) ids.

Definition canonical (ids : list Z) : Prop :=
  StronglySorted (fun x y => key_le (osm_id_key x) (osm_id_key y)) ids.

Lemma foldl_tally_count ids t : t_count (foldl tally_add t ids) = t_count t + Z.of_nat (length ids).
Proof. revert t. induction ids as [|x ids IH]; intros t; simpl; [lia|]. rewrite IH. simpl. lia. Qed.

Lemma foldl_tally_min ids t :
  (t_min (foldl tally_add t ids) = t_min t \/ t_min (foldl tally_add t ids) ∈ ids) /\
  t_min (foldl tally_add t ids) <= t_min t /\
  Forall (fun x => t_min (foldl tally_add t ids) <= x) ids.
Proof.
  revert t. induction ids as [|x ids IH]; intros t; simpl; [split_and!; [auto|lia|constructor]|].
  destruct (IH (tally_add t x)) as (H1 & H2 & H3). simpl in *.
  split_and!; [|lia|constructor; [lia|done]].
  rewrite elem_of_cons. destruct H1 as [H1|]; [|tauto]. lia.
Qed.

Lemma foldl_tally_max ids t :
  (t_max (foldl tally_add t ids) = t_max t \/ t_max (foldl tally_add t ids) ∈ ids) /\
  t_max t <= t_max (foldl tally_add t ids) /\
  Forall (fun x => x <= t_max (foldl tally_add t ids)) ids.
Proof.
  revert t. induction ids as [|x ids IH]; intros t; simpl; [split_and!; [auto|lia|constructor]|].
  destruct (IH (tally_add t x)) as (H1 & H2 & H3). simpl in *.
  split_and!; [|lia|constructor; [lia|done]].
  rewrite elem_of_cons. destruct H1 as [H1|]; [|tauto]. lia.
Qed.

(** The tally of a list of ids. *)
Definition tally_ids (ids : list Z) : IdTally := foldl tally_add IdTally_default ids.

Lemma tally_ids_snoc ids x : tally_ids (ids ++ [x]) = tally_add (tally_ids ids) x.
Proof. unfold tally_ids. by rewrite foldl_app. Qed.

Lemma tally_ids_count ids : t_count (tally_ids ids) = Z.of_nat (length ids).
Proof. unfold tally_ids. by rewrite foldl_tally_count. Qed.

Lemma tally_ids_zero ids : (t_count (tally_ids ids) =? 0) = bool_decide (ids = []).
Proof.
  rewrite tally_ids_count. case_bool_decide as H; [by subst|].
  apply Z.eqb_neq. destruct ids; simpl; [done|lia].
Qed.

Lemma tally_extremes ids :
  Forall (is_s 64) ids -> ids <> [] ->
  t_min (tally_ids ids) ∈ ids /\ t_max (tally_ids ids) ∈ ids /\
  (forall x, x ∈ ids -> t_min (tally_ids ids) <= x <= t_max (tally_ids ids)).
Proof.
  intros Hw Hne. unfold tally_ids.
  destruct (foldl_tally_min ids IdTally_default) as (Hmin1 & _ & Hmin2).
  destruct (foldl_tally_max ids IdTally_default) as (Hmax1 & _ & Hmax2).
  remember (foldl tally_add IdTally_default ids) as t eqn:Ht. clear Ht. simpl in Hmin1, Hmax1.
  destruct ids as [|x ids]; [done|]. apply Forall_cons in Hw as [Hx _].
  pose proof (Forall_inv Hmin2) as Hm. pose proof (Forall_inv Hmax2) as HM. cbv beta in Hm, HM.
  rewrite Forall_forall in Hmin2, Hmax2. split_and!.
  - destruct Hmin1 as [E|]; [|done]. apply elem_of_cons. left. width.
  - destruct Hmax1 as [E|]; [|done]. apply elem_of_cons. left. width.
  - intros y Hy. split; [by apply Hmin2|by apply Hmax2].
Qed.

Lemma refuse_inexact_spec ids claim :
  Forall (is_s 64) ids ->
  (refuse_inexact (tally_ids ids) claim = Ok () <-> claim_exact claim ids).
Proof.
  intros Hw. unfold refuse_inexact, claim_exact.
  rewrite tally_ids_zero, tally_ids_count.
  destruct (decide (ids = [])) as [->|Hne]; [simpl; naive_solver|].
  rewrite bool_decide_eq_false_2 by done. simpl.
  destruct (tally_extremes ids Hw Hne) as (Ha & Hb & Hall). split.
  - destruct (_ && _) eqn:E; [|done]. intros _. unbool.
    split_and!; [done|lia|congruence|congruence|].
    apply Forall_forall. intros x Hx. specialize (Hall x Hx). lia.
  - intros (_ & Hct & Hmin & Hmax & Hin). rewrite Forall_forall in Hin.
    pose proof (Hin _ Ha). pose proof (Hin _ Hb). pose proof (Hall _ Hmin). pose proof (Hall _ Hmax).
    cbv beta in *.
    rewrite (proj2 (Z.eqb_eq (Z.of_nat (length ids)) _)) by lia.
    rewrite (proj2 (Z.eqb_eq (t_min _) _)) by lia.
    by rewrite (proj2 (Z.eqb_eq (t_max _) _)) by lia.
Qed.

Lemma escapes_spec ids claim :
  Forall (is_s 64) ids -> escapes (tally_ids ids) claim = true ->
  exists x, x ∈ ids /\ ~ (min_id claim <= x <= max_id claim).
Proof.
  unfold escapes. rewrite tally_ids_zero. intros Hw H. unbool.
  case_bool_decide as Hne; [done|].
  destruct (tally_extremes ids Hw Hne) as (Ha & Hb & _).
  apply orb_true_iff in H0 as [H0|H0]; unbool;
    [exists (t_min (tally_ids ids))|exists (t_max (tally_ids ids))]; (split; [done|lia]).
Qed.

(** ** The walk *)

Fixpoint canonical_from (p : OsmIdKey) (ids : list Z) : Prop :=
  match ids with
  | [] => True
  | x :: ids => key_le p (osm_id_key x) /\ canonical_from (osm_id_key x) ids
  end.

Lemma canonical_from_spec p ids :
  canonical_from p ids <-> canonical ids /\ Forall (fun x => key_le p (osm_id_key x)) ids.
Proof.
  unfold canonical. revert p. induction ids as [|x ids IH]; intros p; simpl.
  { split; [|done]. intros _. split; constructor. }
  rewrite IH. split.
  - intros (H1 & H2 & H3). split; [by constructor|]. constructor; [done|].
    eapply Forall_impl; [exact H3|]. intros y Hy. by eapply key_le_trans.
  - intros [H1 H2]. apply StronglySorted_inv in H1 as [H1 H3].
    apply Forall_cons in H2 as [H2 _]. done.
Qed.

Lemma key_zero_least x : key_le (osm_id_key 0) (osm_id_key x).
Proof. keys. Qed.

Lemma canonical_from_zero ids : canonical_from (osm_id_key 0) ids <-> canonical ids.
Proof.
  rewrite canonical_from_spec. split; [tauto|]. intros. split; [done|].
  apply Forall_forall. intros x _. apply key_zero_least.
Qed.

(** The state of a walk that has accepted [past] under required order. *)
Definition walked (claim : option BlobIndex) (c : string) (past : list Z) (w : ClaimWalk) : Prop :=
  w_claim w = claim /\ w_order w = Required c /\ w_tally w = tally_ids past /\
  (past <> [] -> Some (w_first w) = head past) /\
  (w_previous w = osm_id_key 0 \/ exists y, y ∈ past /\ w_previous w = osm_id_key y).

Lemma walk_observe_walked claim c past w x :
  walked claim c past w -> key_le (w_previous w) (osm_id_key x) ->
  walk_observe w x = Ok (count_id w x (osm_id_key x)) /\
  walked claim c (past ++ [x]) (count_id w x (osm_id_key x)).
Proof.
  intros (H1 & H2 & H3 & H4 & _) Hk. split.
  - unfold walk_observe. rewrite H2. apply key_ltb_ge in Hk. by rewrite Hk.
  - unfold walked, count_id. simpl. split_and!; [done|done| | |].
    + by rewrite H3, tally_ids_snoc.
    + intros _. rewrite H3, tally_ids_zero. case_bool_decide as Hp; [by subst|].
      rewrite H4 by done. by destruct past.
    + right. exists x. split; [set_solver|done].
Qed.

Definition truthful (claim : BlobIndex) (ids : list Z) (e : Error) : Prop :=
  match e with
  | IndexdataMismatch _ _ _ => ~ claim_exact claim ids
  | Unsorted _ _ _ => ~ canonical ids
  | Internal => False
  end.

Lemma walk_finish_spec claim c past w :
  Forall (is_s 64) past -> walked (Some claim) c past w ->
  match walk_finish w with
  | Ok r => claim_exact claim past /\ r = head past
  | Err e => truthful claim past e
  end.
Proof.
  intros Hw (H1 & H2 & H3 & H4 & _). unfold walk_finish. rewrite H1, H3.
  pose proof (refuse_inexact_spec past claim Hw) as Hr.
  destruct (refuse_inexact (tally_ids past) claim) as [[]|e] eqn:E; simpl.
  - split; [by apply Hr|]. unfold walk_first. rewrite H3, tally_ids_zero.
    case_bool_decide as Hp; [by subst|]. by apply H4.
  - unfold refuse_inexact in E. case_match; [done|]. injection E as <-. simpl.
    intros Hx. apply Hr in Hx. done.
Qed.

Lemma disorder_truthful claim c past w x rest :
  Forall (is_s 64) (past ++ x :: rest) -> walked (Some claim) c past w ->
  key_lt (osm_id_key x) (w_previous w) ->
  truthful claim (past ++ x :: rest) (disorder w x).
Proof.
  intros Hw (H1 & _ & H3 & _ & H5) Hlt. unfold disorder. rewrite H1, H3, <- tally_ids_snoc.
  destruct (escapes _ _) eqn:E; simpl.
  - intros (_ & _ & _ & _ & Hall). apply escapes_spec in E as (y & Hy & Hout).
    + rewrite Forall_forall in Hall. apply Hout, Hall. set_solver.
    + apply Forall_app in Hw as [? Hw]. apply Forall_app. split; [done|].
      apply Forall_cons in Hw as [? _]. by apply Forall_singleton.
  - intros Hc. destruct H5 as [H5|(y & Hy & H5)]; rewrite H5 in Hlt.
    + pose proof (key_zero_least x). unfold key_le, key_lt in *. lia.
    + apply StronglySorted_app_le in Hc as (_ & _ & Hc).
      specialize (Hc y x Hy ltac:(set_solver)). unfold key_le, key_lt in *. lia.
Qed.

Lemma walk_ids_spec claim c ids past w :
  Forall (is_s 64) (past ++ ids) -> walked (Some claim) c past w ->
  match walk_ids w ids with
  | Ok r => canonical_from (w_previous w) ids /\ claim_exact claim (past ++ ids) /\
            r = head (past ++ ids)
  | Err e => truthful claim (past ++ ids) e
  end.
Proof.
  revert past w. induction ids as [|x ids IH]; intros past w Hw Hwk.
  { simpl. rewrite app_nil_r in *. pose proof (walk_finish_spec _ _ _ _ Hw Hwk) as H.
    by destruct (walk_finish w). }
  cbn [walk_ids]. destruct (key_ltb (osm_id_key x) (w_previous w)) eqn:Hk.
  - assert (walk_observe w x = Err (disorder w x)) as ->.
    { destruct Hwk as (_ & H2 & _). unfold walk_observe. by rewrite H2, Hk. }
    simpl. apply key_ltb_lt in Hk. by eapply disorder_truthful.
  - apply key_ltb_ge in Hk.
    destruct (walk_observe_walked _ _ _ _ _ Hwk Hk) as [-> Hwk']. simpl.
    specialize (IH (past ++ [x]) (count_id w x (osm_id_key x))).
    rewrite <- app_assoc in IH. specialize (IH Hw Hwk').
    destruct (walk_ids _ ids); [|done]. destruct IH as (? & ? & ?). done.
Qed.

Lemma walk_verdict claim c ids :
  Forall (is_s 64) ids ->
  match walk_ids (ClaimWalk_new (Some claim) (Required c)) ids with
  | Ok r => canonical ids /\ claim_exact claim ids /\ r = head ids
  | Err e => truthful claim ids e
  end.
Proof.
  intros Hw. pose proof (walk_ids_spec claim c ids [] (ClaimWalk_new (Some claim) (Required c))) as H.
  cbn [app w_previous ClaimWalk_new] in H.
  assert (walked (Some claim) c [] (ClaimWalk_new (Some claim) (Required c))) as Hi
    by (unfold walked; simpl; split_and!; [done|done|done|done|by left]).
  specialize (H Hw Hi). destruct (walk_ids _ ids); [|done].
  destruct H as (?%canonical_from_zero & ? & ?). done.
Qed.

(** A complete walk under required order accepts exactly the blobs whose
    ids are in canonical order and whose index states their true count, minimum
    and maximum, and returns the first id; every refusal is truthful: an
    [IndexdataMismatch] means the claim is inexact, an [Unsorted] that the
    order is broken. *)
Theorem claim_walk_exact (claim : BlobIndex) (context : string) (ids : list Z) :
  Forall (is_s 64) ids ->
  match walk_ids (ClaimWalk_new (Some claim) (Required context)) ids with
  | Ok r => canonical ids /\ claim_exact claim ids /\ r = head ids
  | Err (IndexdataMismatch _ _ _) => ~ claim_exact claim ids
  | Err (Unsorted _ _ _) => ~ canonical ids
  | Err Internal => False
  end.
Proof.
  intros Hw. pose proof (walk_verdict claim context ids Hw) as H.
  destruct (walk_ids _ ids) as [r|e]; [done|]. by destruct e.
Qed.

Definition sample_claim : BlobIndex :=
  {| kind := Way; min_id := 3; max_id := 9; count := 3; bbox := None |}.

Lemma claim_walk_exact_witness :
  canonical [3; 5; 9] /\ claim_exact sample_claim [3; 5; 9] /\ Some 3 = head [3; 5; 9].
Proof.
  apply (claim_walk_exact sample_claim "sort" [3; 5; 9]).
  repeat apply Forall_cons_2; try apply Forall_nil_2; unfold is_s; lia.
Defined.

(** ** The ascending tally *)

Definition asc_ids (ids : list Z) : AscendingTally := foldl asc_add AscendingTally_default ids.

(** What the ascending tally knows after [ids]. *)
Lemma asc_ids_spec ids :
  Forall (is_s 64) ids ->
  a_count (asc_ids ids) = Z.of_nat (length ids) /\
  (ids <> [] -> Some (a_first (asc_ids ids)) = head ids /\ Some (a_last (asc_ids ids)) = List.last (Some <$> ids) None) /\
  (ids = [] -> a_last (asc_ids ids) = i64_min) /\
  (a_descended (asc_ids ids) = false <-> StronglySorted Z.le ids) /\
  (a_descended (asc_ids ids) = false -> Forall (fun x => x <= a_last (asc_ids ids)) ids).
Proof.
  unfold asc_ids. induction ids as [|x ids IH] using rev_ind; intros Hw.
  { simpl. split_and!; try done. split; [constructor|done]. }
  apply Forall_app in Hw as [Hw Hx]. apply Forall_cons in Hx as [Hx _].
  destruct (IH Hw) as (Hc & Hfl & Hl & Hs & Hb).
  rewrite foldl_app. simpl. set (t := foldl asc_add AscendingTally_default ids) in *.
  split_and!.
  - rewrite length_app, Hc. simpl. lia.
  - intros _. rewrite fmap_app. cbn [fmap list_fmap]. rewrite last_last. split; [|done].
    destruct ids as [|y ids]; simpl; [done|].
    rewrite Hc. simpl. by destruct (Hfl ltac:(done)) as [-> _].
  - intros H. by destruct ids.
  - split.
    + intros [Hd Hge]%orb_false_iff. unbool. apply StronglySorted_app_intro.
      * by apply Hs.
      * by repeat constructor.
      * intros a b Ha ->%list_elem_of_singleton. specialize (Hb Hd). rewrite Forall_forall in Hb.
        specialize (Hb a Ha). cbv beta in Hb. lia.
    + intros H. apply StronglySorted_app_le in H as (H1 & _ & H2).
      apply orb_false_iff. split; [by apply Hs|]. apply Z.ltb_ge.
      destruct ids as [|y ids _] using rev_ind; [rewrite Hl by done; width|].
      destruct Hfl as [_ Hlast]; [by destruct ids|].
      rewrite fmap_app in Hlast. cbn [fmap list_fmap] in Hlast. rewrite last_last in Hlast.
      injection Hlast as ->. apply H2; set_solver.
  - intros [Hd Hge]%orb_false_iff. unbool. apply Forall_app. split; [|apply Forall_singleton; lia].
    eapply Forall_impl; [exact (Hb Hd)|]. intros a Ha. cbv beta in Ha. lia.
Qed.

(** On non-negative ids canonical order is numeric order. *)
Lemma canonical_nonneg ids :
  Forall (fun x => 0 <= x) ids -> (canonical ids <-> StronglySorted Z.le ids).
Proof.
  unfold canonical. induction ids as [|x ids IH]; intros Hnn; [split; constructor|].
  apply Forall_cons in Hnn as [Hx Hnn]. rewrite Forall_forall in Hnn.
  assert (Forall (fun y => key_le (osm_id_key x) (osm_id_key y)) ids <-> Forall (Z.le x) ids) as Hiff.
  { rewrite !Forall_forall. split; intros H y Hy; specialize (H y Hy); specialize (Hnn y Hy);
      cbv beta in *; keys. }
  split; intros H; apply StronglySorted_inv in H as [H1 H2];
    (constructor; [apply IH; [by apply Forall_forall|done]|by apply Hiff]).
Qed.

Lemma sorted_head_min ids x :
  StronglySorted Z.le ids -> head ids = Some x -> x ∈ ids /\ Forall (Z.le x) ids.
Proof.
  intros H Hh. destruct H as [|a l Hs Ha]; [done|]. injection Hh as ->.
  split; [set_solver|]. by constructor.
Qed.

Lemma asc_holds_iff claim ids :
  Forall (is_s 64) ids -> 0 <= min_id claim ->
  (holds (asc_ids ids) claim = Ok true <-> canonical ids /\ claim_exact claim ids).
Proof.
  intros Hw Hmin. destruct (asc_ids_spec ids Hw) as (Hc & Hfl & _ & Hs & Hb).
  unfold holds. rewrite (proj2 (Z.ltb_ge _ _)) by done. unfold claim_exact.
  destruct (decide (ids = [])) as [->|Hne].
  { simpl. split; [done|]. by intros (_ & [] & _). }
  destruct (Hfl Hne) as [Hfirst Hlast].
  assert (length ids <> 0%nat) by (by destruct ids).
  assert (a_last (asc_ids ids) ∈ ids) as Hlin.
  { destruct ids as [|y ids _] using rev_ind; [done|].
    rewrite fmap_app in Hlast. cbn [fmap list_fmap] in Hlast. rewrite last_last in Hlast.
    injection Hlast as ->. set_solver. }
  split.
  - intros [= H']. unbool. apply Hs in H0 as Hsorted.
    destruct (sorted_head_min _ _ Hsorted (eq_sym Hfirst)) as [Hin Hall].
    rewrite Forall_forall in Hall. specialize (Hb H0). rewrite Forall_forall in Hb.
    split; [apply canonical_nonneg; [|done]; apply Forall_forall; intros x Hx;
      specialize (Hall x Hx); cbv beta in *; lia|].
    split_and!; [done|lia|congruence|congruence|].
    apply Forall_forall. intros x Hx. specialize (Hall x Hx). specialize (Hb x Hx). cbv beta in *. lia.
  - intros (Hcan & _ & Hct & Hmn & Hmx & Hall).
    assert (StronglySorted Z.le ids) as Hsorted.
    { apply canonical_nonneg; [|done]. eapply Forall_impl; [exact Hall|]. intros; cbv beta in *; lia. }
    destruct (sorted_head_min _ _ Hsorted (eq_sym Hfirst)) as [Hin Hge].
    assert (a_descended (asc_ids ids) = false) as Hd by (by apply Hs).
    specialize (Hb Hd). rewrite Forall_forall in Hb, Hge, Hall.
    pose proof (Hb _ Hmx). pose proof (Hge _ Hmn). pose proof (Hall _ Hin). pose proof (Hall _ Hlin).
    cbv beta in *. rewrite Hd. f_equal. simpl.
    rewrite (proj2 (Z.eqb_neq (a_count _) 0)) by lia.
    rewrite (proj2 (Z.eqb_eq (a_count _) _)) by lia.
    rewrite (proj2 (Z.eqb_eq (a_first _) _)) by lia.
    by rewrite (proj2 (Z.eqb_eq (a_last _) _)) by lia.
Qed.

(** The cheap check is the full one: for a claim with a non-negative
    minimum, [AscendingTally::holds] answers true exactly when a [ClaimWalk]
    under required order accepts the same ids, and false exactly when it
    refuses them, in which case replaying them gives one of the two real
    refusals, never the internal error. *)
Theorem ascending_tally_equiv (claim : BlobIndex) (context : string) (ids : list Z) :
  Forall (is_s 64) ids -> 0 <= min_id claim ->
  match holds (asc_ids ids) claim with
  | Ok true => walk_ids (ClaimWalk_new (Some claim) (Required context)) ids = Ok (head ids)
  | Ok false =>
      walk_ids (ClaimWalk_new (Some claim) (Required context)) ids
        = Err (replay_refusal claim (Required context) ids) /\
      replay_refusal claim (Required context) ids <> Internal
  | Err _ => False
  end.
Proof.
  intros Hw Hmin. pose proof (asc_holds_iff claim ids Hw Hmin) as Hiff.
  pose proof (walk_verdict claim context ids Hw) as Hv. unfold replay_refusal.
  destruct (holds (asc_ids ids) claim) as [[|]|] eqn:Hh.
  - destruct (proj1 Hiff eq_refl) as [Hcan Hex].
    destruct (walk_ids _ ids) as [r|[]]; simpl in Hv; [by destruct Hv as (_ & _ & ->)|done..].
  - assert (~ (canonical ids /\ claim_exact claim ids)) as Hno by (intros [=]%Hiff).
    destruct (walk_ids _ ids) as [r|e]; [tauto|]. split; [done|]. intros ->. done.
  - unfold holds in Hh. rewrite (proj2 (Z.ltb_ge _ _)) in Hh by done. done.
Qed.

Lemma ascending_tally_equiv_witness :
  walk_ids (ClaimWalk_new (Some sample_claim) (Required "altw")) [3; 9; 5]
    = Err (replay_refusal sample_claim (Required "altw") [3; 9; 5]) /\
  replay_refusal sample_claim (Required "altw") [3; 9; 5] <> Internal.
Proof.
  refine (ascending_tally_equiv sample_claim "altw" [3; 9; 5] _ _).
  - repeat apply Forall_cons_2; try apply Forall_nil_2; unfold is_s; lia.
  - simpl; lia.
Defined.
