(* ===== verification/IdSetChunk.v ===== *)
(** * One chunk of the id set (src/src/idset.rs)

    A chunk covers 2^25 ids, as a bit array of 524288 64-bit words or as a
    sorted vector of at most 1024 offsets.  Indexing and slicing out of range
    panic in the source; here every operation returns [None] on a panic and the
    specifications show that a well-formed chunk never does.  [mem] is the
    abstract view, the set of offsets; every operation is specified by it. *)

From S2P Require Import Prelude StdSlice Count.

Definition WORDS_PER_CHUNK : Z := 524288.
Definition ID_SHIFT : Z := 25.
Definition OFFSET_MASK : Z := 33554431.
Definition DIRECT_CHUNKS : Z := 262144.
Definition SPARSE_MAX : Z := 1024.
Definition WORDS_PER_BLOCK : Z := 8.
Definition BITS_PER_BLOCK : Z := 512.

(** Ids per chunk, [2^ID_SHIFT]. *)
Definition CHUNK_IDS : Z := 33554432.

Definition new_dense : list Z := replicate (Z.to_nat WORDS_PER_CHUNK) 0.

Definition word_at (off : Z) : nat := Z.to_nat (Z.shiftr off 6).
Definition bit_at (off : Z) : Z := Z.shiftl 1 (Z.land off 63).

Definition dense_insert (words : list Z) (off : Z) : option (list Z * bool) :=
  word ← words !! word_at off;
  let was_set := negb (Z.land word (bit_at off) =? 0) in
  Some (<[word_at off := Z.lor word (bit_at off)]> words, negb was_set).

(** [for &off in offsets { dense_insert(words, off); }] *)
Fixpoint dense_insert_all (words : list Z) (offsets : list Z) : option (list Z) :=
  match offsets with
  | [] => Some words
  | off :: rest => '(words', _) ← dense_insert words off; dense_insert_all words' rest
  end.

Definition dense_from_offsets (offsets : list Z) : option (list Z) :=
  dense_insert_all new_dense offsets.

(** The two-index merge loop, on the unread rests of [a] and [b]. *)
Fixpoint union_sorted (a : list Z) : list Z -> list Z :=
  fix inner (b : list Z) : list Z :=
    match a, b with
    | x :: a', y :: b' =>
        match x ?= y with
        | Lt => x :: union_sorted a' b
        | Gt => y :: inner b'
        | Eq => x :: union_sorted a' b'
        end
    | [], _ => b
    | _, [] => a
    end.

Inductive Chunk :=
| Dense (words : list Z)
| Sparse (offsets : list Z).

Definition new_sparse : Chunk := Sparse [].

Definition binary_search (offsets : list Z) (off : Z) : result nat nat :=
  binary_search_by (fun x => x ?= off) offsets.

Definition contains (c : Chunk) (off : Z) : option bool :=
  match c with
  | Dense words => word ← words !! word_at off; Some (negb (Z.land word (bit_at off) =? 0))
  | Sparse offsets => Some (match binary_search offsets off with Ok _ => true | Err _ => false end)
  end.

(** [Vec::insert(pos, off)] *)
Definition vec_insert (pos : nat) (off : Z) (l : list Z) : list Z := take pos l ++ off :: drop pos l.

Definition len (l : list Z) : Z := Z.of_nat (length l).

Definition promote_insert (offsets : list Z) (off : Z) : option (Chunk * bool) :=
  words ← dense_from_offsets offsets;
  '(words', _) ← dense_insert words off;
  Some (Dense words', true).

Definition insert (c : Chunk) (off : Z) : option (Chunk * bool) :=
  match c with
  | Dense words => '(words', fresh) ← dense_insert words off; Some (Dense words', fresh)
  | Sparse offsets =>
      if (match last offsets with None => true | Some l => l <? off end) then
        if len offsets <? SPARSE_MAX then Some (Sparse (offsets ++ [off]), true)
        else promote_insert offsets off
      else
        match binary_search offsets off with
        | Ok _ => Some (c, false)
        | Err pos =>
            if len offsets <? SPARSE_MAX then Some (Sparse (vec_insert pos off offsets), true)
            else promote_insert offsets off
        end
  end.

Definition promote (c : Chunk) : option Chunk :=
  match c with
  | Sparse offsets => words ← dense_from_offsets offsets; Some (Dense words)
  | Dense _ => Some c
  end.

Definition clone_chunk (c : Chunk) : Chunk :=
  match c with
  | Dense words => Dense ((fun w => w) <$> words)
  | Sparse offsets => Sparse offsets
  end.

(** [for (d, s) in dst.iter_mut().zip(src)]: words past the shorter side stay. *)
Fixpoint or_words (dst src : list Z) : list Z :=
  match dst, src with
  | d :: dst', s :: src' => Z.lor d s :: or_words dst' src'
  | _, _ => dst
  end.

Definition union_ref (self src : Chunk) : option Chunk :=
  self ← (match src with Dense _ => promote self | Sparse _ => Some self end);
  match self, src with
  | Dense dst, Dense s => Some (Dense (or_words dst s))
  | Dense dst, Sparse s => words ← dense_insert_all dst s; Some (Dense words)
  | Sparse dst, Sparse s =>
      let merged := union_sorted dst s in
      if SPARSE_MAX <? len merged then words ← dense_from_offsets merged; Some (Dense words)
      else Some (Sparse merged)
  | Sparse _, Dense _ => Some self
  end.

Definition union_owned (self src : Chunk) : option Chunk :=
  match src, self with
  | Dense s, Sparse dst => words ← dense_insert_all s dst; Some (Dense words)
  | _, _ => union_ref self src
  end.

Definition sum_ones (words : list Z) : Z := foldl (fun acc w => acc + count_ones w) 0 words.

Definition count (c : Chunk) : Z :=
  match c with
  | Dense words => sum_ones words
  | Sparse offsets => len offsets
  end.

(** The loop over [as_chunks::<WORDS_PER_BLOCK>().0]: whole blocks only.  The
    [u32] total stays below [2^25 + 1] ([rank_blocks_spec]), so the additions
    never wrap. *)
Fixpoint rank_blocks_loop (blocks : nat) (words : list Z) (prefix : list Z) (within : Z)
  : list Z * Z :=
  match blocks with
  | O => (prefix, within)
  | S blocks =>
      let n := Z.to_nat WORDS_PER_BLOCK in
      rank_blocks_loop blocks (drop n words) (prefix ++ [within])
        (foldl (fun acc w => acc + count_ones w) within (take n words))
  end.

Definition rank_blocks (c : Chunk) : option (list Z) * Z :=
  match c with
  | Dense words =>
      let '(prefix, within) :=
        rank_blocks_loop (length words / Z.to_nat WORDS_PER_BLOCK)%nat words [] 0 in
      (Some prefix, within)
  | Sparse offsets => (None, len offsets)
  end.

Definition rank_within (c : Chunk) (off : Z) (blocks : option (list Z)) : option Z :=
  match c with
  | Dense words =>
      let block_idx := Z.to_nat (off / BITS_PER_BLOCK) in
      r ← (match blocks with None => Some 0 | Some bp => bp !! block_idx end);
      let target_word := word_at off in
      scanned ← slice words (block_idx * Z.to_nat WORDS_PER_BLOCK) target_word;
      let r := foldl (fun acc w => acc + count_ones w) r scanned in
      let bit := Z.land off 63 in
      if 0 <? bit then
        word ← words !! target_word;
        Some (r + count_ones (Z.land word (Z.shiftl 1 bit - 1)))
      else Some r
  | Sparse offsets => Some (Z.of_nat (partition_point (fun x => x <? off) offsets))
  end.

(** The masked word at index [idx] of [any_in]. *)
Definition any_in_mask (start_word end_word lo hi idx value : Z) : Z :=
  let value := if idx =? start_word then Z.land value (as_u64 (Z.shiftl u64_max (Z.land lo 63)))
               else value in
  if (idx =? end_word) && negb (Z.land hi 63 =? 63)
  then Z.land value (Z.shiftl 1 (Z.land hi 63 + 1) - 1) else value.

Fixpoint any_in_loop (start_word end_word lo hi idx : Z) (words : list Z) : bool :=
  match words with
  | [] => false
  | w :: rest =>
      if negb (any_in_mask start_word end_word lo hi idx w =? 0) then true
      else any_in_loop start_word end_word lo hi (idx + 1) rest
  end.

Definition any_in (c : Chunk) (lo hi : Z) : option bool :=
  match c with
  | Dense words =>
      scanned ← slice words (word_at lo) (S (word_at hi));
      Some (any_in_loop (Z.shiftr lo 6) (Z.shiftr hi 6) lo hi (Z.shiftr lo 6) scanned)
  | Sparse offsets =>
      let i := partition_point (fun x => x <? lo) offsets in
      Some (match offsets !! i with Some x => x <=? hi | None => false end)
  end.

(** ** The offset iterator *)

Inductive ChunkOffsets :=
| DenseIt (words : list Z) (next : nat) (cur cur_base : Z)
| SparseIt (rest : list Z).

Definition offsets (c : Chunk) : ChunkOffsets :=
  match c with
  | Dense words => DenseIt words 0 0 0
  | Sparse l => SparseIt l
  end.

(** The [loop] of [next]: a word per turn until a set bit is left. *)
Fixpoint next_loop (fuel : nat) (words : list Z) (next : nat) (cur cur_base : Z)
  : option (Z * ChunkOffsets) :=
  if negb (cur =? 0) then
    Some (cur_base + trailing_zeros cur, DenseIt words next (Z.land cur (cur - 1)) cur_base)
  else
    match fuel, words !! next with
    | S fuel, Some w => next_loop fuel words (S next) w (Z.of_nat next * 64)
    | _, _ => None
    end.

Definition next (it : ChunkOffsets) : option (Z * ChunkOffsets) :=
  match it with
  | DenseIt words next cur cur_base => next_loop (length words) words next cur cur_base
  | SparseIt rest => match rest with [] => None | x :: rest => Some (x, SparseIt rest) end
  end.

(** Draining the iterator, at most [fuel] items. *)
Fixpoint drain (fuel : nat) (it : ChunkOffsets) : list Z :=
  match fuel with
  | O => []
  | S fuel => match next it with
              | None => []
              | Some (off, it) => off :: drain fuel it
              end
  end.

(** Every offset of a chunk: no chunk has more than [CHUNK_IDS]. *)
Definition offsets_list (c : Chunk) : list Z := drain (Z.to_nat CHUNK_IDS) (offsets c).

(** ** The abstract view *)

Definition wbit (words : list Z) (o : Z) : bool :=
  match words !! Z.to_nat (o / 64) with
  | Some w => Z.testbit w (o mod 64)
  | None => false
  end.

Definition mem (c : Chunk) (o : Z) : bool :=
  match c with
  | Dense words => wbit words o
  | Sparse l => bool_decide (o ∈ l)
  end.

Definition offset_ok (o : Z) : Prop := 0 <= o < CHUNK_IDS.

Definition wf_words (words : list Z) : Prop :=
  length words = Z.to_nat WORDS_PER_CHUNK /\ Forall is_u64 words.

Definition wf_chunk (c : Chunk) : Prop :=
  match c with
  | Dense words => wf_words words
  | Sparse l => StronglySorted Z.lt l /\ Forall offset_ok l /\ len l <= SPARSE_MAX
  end.

Definition members (c : Chunk) : list Z := members_below (mem c) CHUNK_IDS.

(** ** Words and bits *)

#[global] Opaque WORDS_PER_CHUNK CHUNK_IDS.

Ltac chunk_consts :=
  unfold offset_ok, is_u, BITS_PER_BLOCK, WORDS_PER_BLOCK, SPARSE_MAX in *;
  change WORDS_PER_CHUNK with 524288 in *; change CHUNK_IDS with 33554432 in *.

Lemma word_at_div o : word_at o = Z.to_nat (o / 64).
Proof. unfold word_at. by rewrite Z.shiftr_div_pow2. Qed.

Lemma land_63 o : Z.land o 63 = o mod 64.
Proof. exact (land_ones_mod o 6 ltac:(lia)). Qed.

Lemma bit_at_pow o : bit_at o = 2 ^ (o mod 64).
Proof.
  unfold bit_at. rewrite land_63. apply Z.shiftl_1_l.
Qed.

Lemma land_bit_at w o : (Z.land w (bit_at o) =? 0) = negb (Z.testbit w (o mod 64)).
Proof. rewrite bit_at_pow. apply land_pow2_eqb. dlia. Qed.

Lemma lor_bit_at w o i :
  0 <= i -> Z.testbit (Z.lor w (bit_at o)) i = Z.testbit w i || (o mod 64 =? i).
Proof. intros Hi. rewrite bit_at_pow, Z.lor_spec, Z.pow2_bits_eqb by dlia. done. Qed.

(** A word is what has no bit from 64 on. *)
Lemma u64_bits v : 0 <= v -> (forall m, 64 <= m -> Z.testbit v m = false) -> is_u64 v.
Proof.
  intros H0 Hb. replace v with (v mod 2 ^ 64); [apply (as_u_range 64); lia|].
  apply Z.bits_inj'. intros m Hm. destruct (Z.lt_ge_cases m 64).
  - by apply Z.mod_pow2_bits_low.
  - rewrite Hb by done. by apply Z.mod_pow2_bits_high.
Qed.

Lemma lor_u64 a b : is_u64 a -> is_u64 b -> is_u64 (Z.lor a b).
Proof.
  intros Ha Hb. apply u64_bits; [unfold is_u in *; apply Z.lor_nonneg; lia|].
  intros m Hm. rewrite Z.lor_spec, !(testbit_small _ 64 m) by done. done.
Qed.

Lemma land_u64 a b : is_u64 a -> 0 <= b -> is_u64 (Z.land a b).
Proof.
  intros Ha Hb. apply u64_bits; [unfold is_u in *; apply Z.land_nonneg; lia|].
  intros m Hm. rewrite Z.land_spec, (testbit_small _ 64 m) by done. done.
Qed.

Lemma bit_at_u64 o : is_u64 (bit_at o).
Proof.
  rewrite bit_at_pow. unfold is_u. split; [lia|]. apply Z.pow_lt_mono_r; [lia|lia|dlia].
Qed.

Lemma wf_words_lookup ws o :
  wf_words ws -> offset_ok o -> exists w, ws !! Z.to_nat (o / 64) = Some w /\ is_u64 w.
Proof.
  intros [Hl Hu] Ho. destruct (lookup_lt_is_Some_2 ws (Z.to_nat (o / 64))) as [w Hw].
  { rewrite Hl. chunk_consts. dlia. }
  exists w. split; [done|]. by eapply Forall_lookup_1.
Qed.

Lemma wbit_range ws o : wf_words ws -> 0 <= o -> wbit ws o = true -> offset_ok o.
Proof.
  intros [Hl _] Ho. unfold wbit. destruct (ws !! _) eqn:Hw; [|done]. intros _.
  apply lookup_lt_Some in Hw. chunk_consts. dlia.
Qed.

Lemma wbit_new_dense o : wbit new_dense o = false.
Proof.
  unfold wbit, new_dense. destruct (_ !! _) eqn:Hw; [|done].
  apply lookup_replicate in Hw as [-> _]. apply Z.bits_0.
Qed.

Lemma wf_new_dense : wf_words new_dense.
Proof.
  split; [apply length_replicate|]. apply Forall_replicate. unfold is_u. lia.
Qed.

#[global] Opaque new_dense.

(** ** Bit-array insertion *)

Lemma dense_insert_spec ws off :
  wf_words ws -> offset_ok off ->
  exists ws', dense_insert ws off = Some (ws', negb (wbit ws off)) /\ wf_words ws' /\
    forall o, 0 <= o -> wbit ws' o = (o =? off) || wbit ws o.
Proof.
  intros Hwf Ho. destruct (wf_words_lookup ws off Hwf Ho) as (w & Hw & Hu).
  unfold dense_insert. rewrite word_at_div, Hw. obind. rewrite land_bit_at.
  eexists. split; [unfold wbit; rewrite Hw, negb_involutive; done|]. split.
  - destruct Hwf as [Hl HF]. split; [by rewrite length_insert|].
    apply Forall_insert; [done|]. apply lor_u64; [done|apply bit_at_u64].
  - intros o Ho'. unfold wbit.
    destruct (Z.eq_dec (o / 64) (off / 64)) as [Heq|Hne].
    + rewrite Heq, list_lookup_insert_eq by (by eapply lookup_lt_Some).
      rewrite Hw, lor_bit_at by dlia. rewrite orb_comm. f_equal.
      apply Bool.eq_iff_eq_true. rewrite !Z.eqb_eq. dlia.
    + rewrite list_lookup_insert_ne by (chunk_consts; dlia).
      destruct (Z.eqb_spec o off) as [->|]; [lia|done].
Qed.

Lemma dense_insert_all_spec offs ws :
  wf_words ws -> Forall offset_ok offs ->
  exists ws', dense_insert_all ws offs = Some ws' /\ wf_words ws' /\
    forall o, 0 <= o -> wbit ws' o = bool_decide (o ∈ offs) || wbit ws o.
Proof.
  intros Hwf HF. revert ws Hwf. induction HF as [|off offs Ho _ IH]; intros ws Hwf.
  - exists ws. split_and!; [done..|]. intros o _. by rewrite bool_decide_eq_false_2 by set_solver.
  - destruct (dense_insert_spec ws off Hwf Ho) as (ws1 & He & Hwf1 & Hb1).
    destruct (IH ws1 Hwf1) as (ws2 & He2 & Hwf2 & Hb2).
    exists ws2. simpl. rewrite He. obind. split_and!; [done..|].
    intros o Hoo. rewrite Hb2, Hb1 by done. rewrite orb_assoc. f_equal.
    apply Bool.eq_iff_eq_true. rewrite orb_true_iff, !bool_decide_eq_true, Z.eqb_eq. set_solver.
Qed.

Lemma dense_from_offsets_spec offs :
  Forall offset_ok offs ->
  exists ws, dense_from_offsets offs = Some ws /\ wf_words ws /\
    forall o, 0 <= o -> wbit ws o = bool_decide (o ∈ offs).
Proof.
  intros HF. destruct (dense_insert_all_spec offs new_dense wf_new_dense HF) as (ws & He & Hwf & Hb).
  exists ws. split_and!; [done..|]. intros o Ho. by rewrite Hb, wbit_new_dense, orb_false_r.
Qed.

(** ** Sorted offset vectors *)

Lemma sorted_lookup_lt (l : list Z) i j x y :
  StronglySorted Z.lt l -> (i < j)%nat -> l !! i = Some x -> l !! j = Some y -> x < y.
Proof.
  intros Hs. revert i j. induction Hs as [|z l Hs IH Hz]; intros [|i] [|j] Hij Hx Hy;
    try done; try lia.
  - simpl in Hx. injection Hx as <-. eapply Forall_lookup_1 in Hz; [exact Hz|done].
  - simpl in Hx, Hy. eapply IH; [|done..]. lia.
Qed.

Lemma ordered_compare l off :
  StronglySorted Z.lt l -> ordered_for (fun x => x ?= off) l.
Proof.
  intros Hs i j x y Hij Hx Hy. destruct (decide (i = j)) as [->|].
  { rewrite Hx in Hy. by injection Hy as ->. }
  pose proof (sorted_lookup_lt l i j x y Hs ltac:(lia) Hx Hy).
  rewrite !Z.compare_gt_iff, !Z.compare_lt_iff. lia.
Qed.

Lemma binary_search_spec l off :
  StronglySorted Z.lt l ->
  match binary_search l off with
  | Ok i => l !! i = Some off
  | Err i => (i <= length l)%nat /\ Forall (fun x => x < off) (take i l) /\
             Forall (fun x => off < x) (drop i l)
  end.
Proof.
  intros Hs. unfold binary_search.
  pose proof (binary_search_by_spec _ l (ordered_compare l off Hs)) as H.
  destruct (binary_search_by _ l) as [i|i].
  - destruct H as (x & Hx & He). apply Z.compare_eq in He. by subst.
  - destruct H as (Hi & Hlt & Hgt).
    split_and!; [done| |]; apply Forall_lookup; intros k x Hx.
    + apply lookup_take_Some in Hx as [Hx Hk]. apply Z.compare_lt_iff. by eapply Hlt.
    + rewrite lookup_drop in Hx. apply Z.compare_gt_iff. eapply Hgt; [|done]. lia.
Qed.

Lemma partitioned_lt l off : StronglySorted Z.lt l -> partitioned (fun x => x <? off) l.
Proof.
  intros Hs i j x y Hij Hx Hy Hlt. unbool. apply Z.ltb_lt.
  destruct (decide (i = j)) as [->|]; [congruence|].
  pose proof (sorted_lookup_lt l i j x y Hs ltac:(lia) Hx Hy). lia.
Qed.

Lemma binary_search_mem l off :
  StronglySorted Z.lt l ->
  (match binary_search l off with Ok _ => true | Err _ => false end) = bool_decide (off ∈ l).
Proof.
  intros Hs. pose proof (binary_search_spec l off Hs) as H. symmetry.
  destruct (binary_search l off) as [i|i].
  - apply bool_decide_eq_true. by eapply list_elem_of_lookup_2.
  - destruct H as (_ & Hlt & Hgt). apply bool_decide_eq_false.
    rewrite <- (take_drop i l), elem_of_app. rewrite Forall_forall in Hlt, Hgt.
    intros [Hin|Hin]; [specialize (Hlt _ Hin)|specialize (Hgt _ Hin)]; cbv beta in *; lia.
Qed.

Lemma StronglySorted_insert_between (l1 l2 : list Z) x :
  StronglySorted Z.lt (l1 ++ l2) -> Forall (fun y => y < x) l1 -> Forall (fun y => x < y) l2 ->
  StronglySorted Z.lt (l1 ++ x :: l2).
Proof.
  induction l1 as [|y l1 IH]; simpl; intros Hs H1 H2.
  - by constructor.
  - apply StronglySorted_inv in Hs as [Hs Hy]. apply Forall_cons in H1 as [Hyx H1].
    constructor; [by apply IH|]. apply Forall_app in Hy as [Hy1 Hy2].
    apply Forall_app. split; [done|]. by constructor.
Qed.

Lemma sorted_last_lt l x off :
  StronglySorted Z.lt l -> last l = Some x -> x < off -> Forall (fun y => y < off) l.
Proof.
  intros Hs Hl Hx. destruct l as [|z l' _] using rev_ind; [done|].
  rewrite last_snoc in Hl. injection Hl as ->. apply Forall_forall. intros y Hy.
  apply elem_of_app in Hy as [Hy|Hy]; [|set_solver].
  apply list_elem_of_lookup in Hy as [i Hi].
  assert (y < x); [|lia]. eapply (sorted_lookup_lt (l' ++ [x]) i (length l')); [done| | |].
  - by eapply lookup_lt_Some.
  - by apply lookup_app_l_Some.
  - by rewrite list_lookup_middle.
Qed.

Lemma union_sorted_nil_l b : union_sorted [] b = b.
Proof. by destruct b. Qed.

Lemma union_sorted_nil_r a : union_sorted a [] = a.
Proof. by destruct a. Qed.

Lemma union_sorted_cons x a y b :
  union_sorted (x :: a) (y :: b) =
    match x ?= y with
    | Lt => x :: union_sorted a (y :: b)
    | Gt => y :: union_sorted (x :: a) b
    | Eq => x :: union_sorted a b
    end.
Proof. done. Qed.

Lemma elem_of_union_sorted a b z : z ∈ union_sorted a b <-> z ∈ a \/ z ∈ b.
Proof.
  revert b. induction a as [|x a IHa]; intros b; [rewrite union_sorted_nil_l; set_solver|].
  induction b as [|y b IHb]; [rewrite union_sorted_nil_r; set_solver|].
  rewrite union_sorted_cons. destruct (Z.compare_spec x y) as [->|?|?].
  - rewrite elem_of_cons, IHa. set_solver.
  - rewrite elem_of_cons, IHa. set_solver.
  - rewrite elem_of_cons, IHb. set_solver.
Qed.

Lemma union_sorted_sorted a b :
  StronglySorted Z.lt a -> StronglySorted Z.lt b -> StronglySorted Z.lt (union_sorted a b).
Proof.
  intros Ha. revert b. induction Ha as [|x a Ha IHa Hx]; intros b Hb; [by rewrite union_sorted_nil_l|].
  induction Hb as [|y b Hb IHb Hy]; [rewrite union_sorted_nil_r; by constructor|].
  rewrite union_sorted_cons. rewrite Forall_forall in Hx, Hy.
  destruct (Z.compare_spec x y) as [->|?|?].
  - constructor; [by apply IHa|]. apply Forall_forall. intros z [Hz|Hz]%elem_of_union_sorted; auto.
  - constructor; [apply IHa; constructor; [done|by apply Forall_forall]|].
    apply Forall_forall. intros z [Hz|[->|Hz]%elem_of_cons]%elem_of_union_sorted; auto.
    specialize (Hy _ Hz). cbv beta in *. lia.
  - constructor; [done|].
    apply Forall_forall. intros z [[->|Hz]%elem_of_cons|Hz]%elem_of_union_sorted; auto with lia.
    specialize (Hx _ Hz). cbv beta in *. lia.
Qed.

(** ** Chunk operations *)

Lemma contains_spec c off :
  wf_chunk c -> offset_ok off -> contains c off = Some (mem c off).
Proof.
  destruct c as [ws|l]; simpl; intros Hwf Ho.
  - destruct (wf_words_lookup ws off Hwf Ho) as (w & Hw & _).
    rewrite word_at_div, Hw. obind. rewrite land_bit_at. unfold wbit.
    by rewrite Hw, negb_involutive.
  - f_equal. apply binary_search_mem, Hwf.
Qed.

Lemma mem_ok c o : wf_chunk c -> 0 <= o -> mem c o = true -> offset_ok o.
Proof.
  destruct c as [ws|l]; simpl; [by apply wbit_range|].
  intros (_ & HF & _) _ Ho%bool_decide_eq_true. rewrite Forall_forall in HF. auto.
Qed.

(** [c'] is [c] with [off] added. *)
Definition adds (c : Chunk) (off : Z) (c' : Chunk) : Prop :=
  wf_chunk c' /\ forall o, 0 <= o -> mem c' o = (o =? off) || mem c o.

Lemma bool_decide_insert (l l' : list Z) (off o : Z) :
  (forall x : Z, x ∈ l' <-> x = off \/ x ∈ l) ->
  bool_decide (o ∈ l') = (o =? off) || bool_decide (o ∈ l).
Proof.
  intros H. apply Bool.eq_iff_eq_true.
  rewrite orb_true_iff, !bool_decide_eq_true, Z.eqb_eq. apply H.
Qed.

Lemma promote_insert_spec l off :
  Forall offset_ok l -> offset_ok off ->
  exists c', promote_insert l off = Some (c', true) /\ adds (Sparse l) off c'.
Proof.
  intros HF Ho. destruct (dense_from_offsets_spec l HF) as (ws & He & Hwf & Hb).
  destruct (dense_insert_spec ws off Hwf Ho) as (ws' & He' & Hwf' & Hb').
  exists (Dense ws'). unfold promote_insert. rewrite He. obind. rewrite He'. obind.
  split; [done|]. split; [done|]. intros o Hoo. simpl. by rewrite Hb', Hb.
Qed.

Lemma insert_spec c off :
  wf_chunk c -> offset_ok off ->
  exists c', insert c off = Some (c', negb (mem c off)) /\ adds c off c'.
Proof.
  destruct c as [ws|l]; intros Hwf Ho.
  { destruct (dense_insert_spec ws off Hwf Ho) as (ws' & He & Hwf' & Hb).
    exists (Dense ws'). simpl. rewrite He. obind. done. }
  destruct Hwf as (Hs & HF & Hlen). simpl insert.
  assert (off ∉ l -> negb (mem (Sparse l) off) = true) as Hneg.
  { intros Hn. simpl. by rewrite bool_decide_eq_false_2. }
  destruct (match last l with None => true | Some x => x <? off end) eqn:Hlast.
  - assert (Forall (fun y => y < off) l) as Hall.
    { destruct (last l) as [x|] eqn:Hl; [|by apply last_None in Hl as ->].
      unbool. by eapply sorted_last_lt. }
    assert (off ∉ l) as Hn.
    { intros Hin. rewrite Forall_forall in Hall. specialize (Hall _ Hin). cbv beta in *. lia. }
    destruct (Z.ltb_spec (len l) SPARSE_MAX).
    + exists (Sparse (l ++ [off])). split; [by rewrite Hneg|]. split; [split_and!|].
      * rewrite <- (app_nil_r l) in Hs. by apply StronglySorted_insert_between.
      * by apply Forall_app_2; [|apply Forall_singleton].
      * unfold len in *. rewrite length_app. simpl. lia.
      * intros o _. apply bool_decide_insert. set_solver.
    + destruct (promote_insert_spec l off HF Ho) as (c' & He & Ha).
      exists c'. split; [by rewrite He, Hneg|done].
  - pose proof (binary_search_spec l off Hs) as Hb.
    pose proof (binary_search_mem l off Hs) as Hm.
    destruct (binary_search l off) as [i|i].
    + exists (Sparse l). simpl mem. rewrite <- Hm. split; [done|]. split; [done|].
      intros o _. apply bool_decide_insert. symmetry in Hm. apply bool_decide_eq_true in Hm. set_solver.
    + symmetry in Hm. apply bool_decide_eq_false in Hm. destruct Hb as (Hi & Hlt & Hgt).
      destruct (Z.ltb_spec (len l) SPARSE_MAX).
      * exists (Sparse (vec_insert i off l)). split; [by rewrite Hneg|].
        unfold vec_insert. split; [split_and!|].
        -- apply StronglySorted_insert_between; [by rewrite take_drop|done..].
        -- apply Forall_app_2; [by apply Forall_take|]. constructor; [done|by apply Forall_drop].
        -- unfold len in *. rewrite length_app. cbn [length]. rewrite length_take, length_drop. lia.
        -- intros o _. apply bool_decide_insert. intros x.
           rewrite <- (take_drop i l) at 3. rewrite !elem_of_app, elem_of_cons. tauto.
      * destruct (promote_insert_spec l off HF Ho) as (c' & He & Ha).
        exists c'. split; [by rewrite He, Hneg|done].
Qed.

(** [c'] holds the offsets of [c] and of [d]. *)
Definition unites (c d c' : Chunk) : Prop :=
  wf_chunk c' /\ forall o, 0 <= o -> mem c' o = mem c o || mem d o.

Lemma promote_spec c :
  wf_chunk c ->
  exists ws, promote c = Some (Dense ws) /\ wf_words ws /\ forall o, 0 <= o -> wbit ws o = mem c o.
Proof.
  destruct c as [ws|l]; intros Hwf; [by exists ws|].
  destruct Hwf as (_ & HF & _). destruct (dense_from_offsets_spec l HF) as (ws & He & Hwf & Hb).
  exists ws. simpl. rewrite He. done.
Qed.

Lemma clone_chunk_id c : clone_chunk c = c.
Proof. destruct c as [ws|l]; [|done]. simpl. by rewrite list_fmap_id. Qed.

Lemma or_words_lookup dst src i :
  length dst = length src ->
  or_words dst src !! i = match dst !! i, src !! i with
                          | Some d, Some s => Some (Z.lor d s)
                          | _, _ => None
                          end.
Proof.
  revert src i. induction dst as [|d dst IH]; intros [|s src] i Hl; try done.
  destruct i as [|i]; [done|]. simpl. apply IH. by injection Hl.
Qed.

Lemma or_words_spec dst src :
  wf_words dst -> wf_words src -> unites (Dense dst) (Dense src) (Dense (or_words dst src)).
Proof.
  intros [Hl HF] [Hl' HF']. assert (length dst = length src) as Heq by congruence.
  split; [split|].
  - rewrite <- Hl. clear -Heq. revert src Heq.
    induction dst as [|d dst IH]; intros [|s src] H; try done. simpl. f_equal. apply IH. by injection H.
  - apply Forall_lookup. intros i x. rewrite or_words_lookup by done.
    destruct (dst !! i) eqn:Hd, (src !! i) eqn:Hs; try done. intros [= <-].
    rewrite Forall_lookup in HF, HF'. apply lor_u64; eauto.
  - intros o Ho. simpl. unfold wbit. rewrite or_words_lookup by done.
    destruct (dst !! _) eqn:Hd, (src !! _) eqn:Hs; try done.
    + apply Z.lor_spec.
    + apply lookup_lt_Some in Hd. apply lookup_ge_None in Hs. lia.
    + apply lookup_ge_None in Hd. apply lookup_lt_Some in Hs. lia.
Qed.

Lemma dense_union_sparse ws l :
  wf_words ws -> Forall offset_ok l ->
  exists ws', dense_insert_all ws l = Some ws' /\ unites (Dense ws) (Sparse l) (Dense ws').
Proof.
  intros Hwf HF. destruct (dense_insert_all_spec l ws Hwf HF) as (ws' & He & Hwf' & Hb).
  exists ws'. split; [done|]. split; [done|]. intros o Ho. simpl. rewrite Hb by done. apply orb_comm.
Qed.

Lemma union_ref_spec c d :
  wf_chunk c -> wf_chunk d -> exists c', union_ref c d = Some c' /\ unites c d c'.
Proof.
  intros Hc Hd. unfold union_ref. destruct d as [s|s].
  - destruct (promote_spec c Hc) as (ws & He & Hwf & Hb). rewrite He. obind.
    eexists. split; [done|]. destruct (or_words_spec ws s Hwf Hd) as [Hw Hm].
    split; [done|]. intros o Ho. rewrite Hm by done. simpl. by rewrite Hb.
  - obind. destruct Hd as (Hs & HF & _). destruct c as [ws|l].
    + destruct (dense_union_sparse ws s Hc HF) as (ws' & He & Hu). rewrite He. eauto.
    + destruct Hc as (Hsl & HFl & _).
      assert (Forall offset_ok (union_sorted l s)) as HFu.
      { rewrite Forall_forall in *. intros o [?|?]%elem_of_union_sorted; auto. }
      assert (forall o, bool_decide (o ∈ union_sorted l s) =
                        bool_decide (o ∈ l) || bool_decide (o ∈ s)) as Hmem.
      { intros o. apply Bool.eq_iff_eq_true. rewrite orb_true_iff, !bool_decide_eq_true.
        apply elem_of_union_sorted. }
      destruct (Z.ltb_spec SPARSE_MAX (len (union_sorted l s))).
      * destruct (dense_from_offsets_spec _ HFu) as (ws & He & Hwf & Hb). rewrite He. obind.
        eexists. split; [done|]. split; [done|]. intros o Ho. simpl. by rewrite Hb, Hmem.
      * eexists. split; [done|]. split; [|by intros o _; apply Hmem].
        split_and!; [by apply union_sorted_sorted|done|lia].
Qed.

Lemma union_owned_spec c d :
  wf_chunk c -> wf_chunk d -> exists c', union_owned c d = Some c' /\ unites c d c'.
Proof.
  intros Hc Hd. destruct d as [s|s]; [destruct c as [ws|l]|]; try by apply union_ref_spec.
  destruct Hc as (_ & HF & _). destruct (dense_union_sparse s l Hd HF) as (ws' & He & Hw & Hm).
  simpl. rewrite He. obind. eexists. split; [done|]. split; [done|].
  intros o Ho. rewrite Hm by done. apply orb_comm.
Qed.

(** ** Population counts and ranks *)

Lemma wbit_app_l ws w o :
  0 <= o < 64 * Z.of_nat (length ws) -> wbit (ws ++ [w]) o = wbit ws o.
Proof. intros Ho. unfold wbit. rewrite lookup_app_l by dlia. done. Qed.

Lemma wbit_snoc ws w i :
  0 <= i < 64 -> wbit (ws ++ [w]) (Z.of_nat (length ws * 64) + i) = Z.testbit w i.
Proof.
  intros Hi. unfold wbit.
  replace (Z.to_nat ((Z.of_nat (length ws * 64) + i) / 64)) with (length ws) by dlia.
  rewrite list_lookup_middle by done. f_equal. dlia.
Qed.

Abbreviation add_ones := (fun acc w => acc + count_ones w).

Lemma sum_ones_cnt ws :
  Forall is_u64 ws -> foldl add_ones 0 ws = cnt (wbit ws) (length ws * 64).
Proof.
  induction ws as [|w ws IH] using rev_ind; intros HF; [done|].
  apply Forall_app in HF as [HF Hw]. apply Forall_inv in Hw.
  rewrite foldl_snoc, IH, length_app by done. simpl length.
  replace ((length ws + 1) * 64)%nat with (length ws * 64 + 64)%nat by lia.
  rewrite cnt_add, (count_ones_cnt _ 64 Hw). f_equal.
  - apply cnt_ext. intros i Hi. rewrite wbit_app_l by lia. done.
  - apply cnt_ext. intros i Hi. rewrite wbit_snoc by lia. done.
Qed.

Lemma sum_ones_take ws a :
  Forall is_u64 ws -> (a <= length ws)%nat ->
  foldl add_ones 0 (take a ws) = cnt (wbit ws) (a * 64).
Proof.
  intros HF Ha. rewrite sum_ones_cnt by (by apply Forall_take).
  rewrite length_take_le by done. apply cnt_ext. intros i Hi.
  unfold wbit. rewrite lookup_take_lt by dlia. done.
Qed.

(** Scanning the words [a..b] carries the count from bit [64a] to bit [64b]. *)
Lemma sum_ones_slice ws a b :
  Forall is_u64 ws -> (a <= b <= length ws)%nat ->
  foldl add_ones (cnt (wbit ws) (a * 64)) (take (b - a) (drop a ws)) = cnt (wbit ws) (b * 64).
Proof.
  intros HF Hab. rewrite <- (sum_ones_take ws a), <- (sum_ones_take ws b) by (done || lia).
  rewrite <- foldl_app. f_equal.
  replace b with (a + (b - a))%nat at 2 by lia. by rewrite take_take_drop.
Qed.

Lemma rank_blocks_loop_spec ws n k :
  Forall is_u64 ws -> ((k + n) * 8 <= length ws)%nat ->
  rank_blocks_loop n (drop (k * 8) ws) ((fun j => cnt (wbit ws) (j * 512)) <$> seq 0 k)
    (cnt (wbit ws) (k * 512)) =
  ((fun j => cnt (wbit ws) (j * 512)) <$> seq 0 (k + n), cnt (wbit ws) ((k + n) * 512)).
Proof.
  intros HF. revert k. induction n as [|n IH]; intros k Hk; [by rewrite Nat.add_0_r|].
  cbn [rank_blocks_loop]. change (Z.to_nat WORDS_PER_BLOCK) with 8%nat.
  rewrite drop_drop. replace (k * 8 + 8)%nat with (S k * 8)%nat by lia.
  replace (k * 512)%nat with (k * 8 * 64)%nat at 2 by lia.
  pose proof (sum_ones_slice ws (k * 8) (S k * 8) HF ltac:(lia)) as Hs.
  replace (S k * 8 - k * 8)%nat with 8%nat in Hs by lia. rewrite Hs.
  replace (S k * 8 * 64)%nat with (S k * 512)%nat by lia.
  change [cnt (wbit ws) (k * 512)] with ((fun j => cnt (wbit ws) (j * 512)) <$> [k]).
  rewrite <- fmap_app. change ([k] : list nat) with (seq (0 + k) 1).
  rewrite <- seq_app. replace (k + 1)%nat with (S k) by lia.
  rewrite IH by lia. by replace (S k + n)%nat with (k + S n)%nat by lia.
Qed.

Lemma chunk_blocks (ws : list Z) :
  length ws = Z.to_nat WORDS_PER_CHUNK -> Z.to_nat CHUNK_IDS = ((0 + length ws / 8) * 512)%nat.
Proof. intros ->. chunk_consts. dlia. Qed.

Lemma chunk_bits (ws : list Z) :
  length ws = Z.to_nat WORDS_PER_CHUNK -> Z.to_nat CHUNK_IDS = (length ws * 64)%nat.
Proof. intros ->. chunk_consts. lia. Qed.

Lemma rank_blocks_dense ws :
  wf_words ws ->
  rank_blocks (Dense ws) =
    (Some ((fun j => cnt (wbit ws) (j * 512)) <$> seq 0 (length ws / 8)), cnt (wbit ws) (Z.to_nat CHUNK_IDS)).
Proof.
  intros [Hl HF]. unfold rank_blocks. change (Z.to_nat WORDS_PER_BLOCK) with 8%nat.
  pose proof (rank_blocks_loop_spec ws (length ws / 8) 0 HF ltac:(dlia)) as H.
  change (drop (0 * 8) ws) with ws in H. cbn [seq fmap list_fmap cnt Nat.mul] in H. rewrite H.
  rewrite (chunk_blocks ws Hl). reflexivity.
Qed.

Lemma sparse_count l n :
  StronglySorted Z.lt l -> Forall offset_ok l -> 0 <= n ->
  cnt (mem (Sparse l)) (Z.to_nat n) = Z.of_nat (length (filter (fun x => x < n) l)).
Proof.
  intros Hs HF Hn. rewrite <- length_members_below by done. do 2 f_equal. apply sorted_ext.
  - apply members_below_sorted.
  - by apply StronglySorted_filter_lt.
  - intros x. rewrite elem_of_members_below, list_elem_of_filter. simpl.
    rewrite bool_decide_eq_true. rewrite Forall_forall in HF. unfold offset_ok in HF.
    split; [intuition lia|]. intros [? Hin]. specialize (HF x Hin). intuition lia.
Qed.

Lemma filter_lt_chunk l : Forall offset_ok l -> filter (fun x => x < CHUNK_IDS) l = l.
Proof. intros HF. apply filter_all. eapply Forall_impl; [exact HF|]. intros x Hx. apply Hx. Qed.

Lemma count_spec c : wf_chunk c -> count c = Z.of_nat (length (members c)).
Proof.
  intros Hwf. unfold members. rewrite length_members_below by done. destruct c as [ws|l].
  - destruct Hwf as [Hl HF]. simpl. unfold sum_ones. rewrite sum_ones_cnt by done.
    rewrite (chunk_bits ws Hl). reflexivity.
  - destruct Hwf as (Hs & HF & _). rewrite sparse_count by done.
    rewrite filter_lt_chunk by done. done.
Qed.

Lemma rank_blocks_count c : wf_chunk c -> snd (rank_blocks c) = Z.of_nat (length (members c)).
Proof.
  intros Hwf. destruct c as [ws|l]; [|by apply (count_spec (Sparse l))].
  rewrite rank_blocks_dense by done. cbn [snd]. unfold members. by rewrite length_members_below.
Qed.

(** The bits of the target word below the offset. *)
Lemma rank_tail ws off w :
  0 <= off -> ws !! Z.to_nat (off / 64) = Some w -> is_u64 w ->
  cnt (wbit ws) (Z.to_nat off) =
    cnt (wbit ws) (Z.to_nat (off / 64) * 64) +
    count_ones (Z.land w (Z.shiftl 1 (off mod 64) - 1)).
Proof.
  intros Ho Hw Hu. rewrite Z.shiftl_1_l, <- (Z2Nat.id (off mod 64)) by dlia.
  rewrite (count_ones_mask w _ 64) by (done || dlia).
  replace (Z.to_nat off) with (Z.to_nat (off / 64) * 64 + Z.to_nat (off mod 64))%nat by dlia.
  rewrite cnt_add. f_equal. apply cnt_ext. intros i Hi. unfold wbit.
  replace (Z.to_nat ((Z.of_nat (Z.to_nat (off / 64) * 64) + i) / 64))
    with (Z.to_nat (off / 64)) by dlia.
  rewrite Hw. f_equal. dlia.
Qed.

Lemma rank_within_dense ws off :
  wf_words ws -> offset_ok off ->
  rank_within (Dense ws) off (fst (rank_blocks (Dense ws))) = Some (cnt (wbit ws) (Z.to_nat off)).
Proof.
  intros Hwf Ho. rewrite rank_blocks_dense by done. cbn [fst rank_within].
  destruct (wf_words_lookup ws off Hwf Ho) as (w & Hw & Hu).
  pose proof (lookup_lt_Some _ _ _ Hw) as Hword. destruct Hwf as [Hl HF].
  rewrite word_at_div, land_63. chunk_consts. change (Z.to_nat 8) with 8%nat.
  set (b := Z.to_nat (off / 512)).
  assert (b < length ws / 8 /\ b * 8 <= Z.to_nat (off / 64))%nat as [Hb1 Hb2] by (subst b; dlia).
  rewrite list_lookup_fmap, lookup_seq_lt by done.
  cbn [fmap option_fmap option_map Nat.add]. obind.
  unfold slice. rewrite decide_True by lia. obind.
  replace (b * 512)%nat with (b * 8 * 64)%nat by lia. rewrite sum_ones_slice by (done || lia).
  destruct (Z.ltb_spec 0 (off mod 64)).
  - rewrite Hw. obind. f_equal. symmetry. apply rank_tail; [lia|done..].
  - do 2 f_equal. clear -H Ho. dlia.
Qed.

(** The rank of an offset is the number of members strictly below it. *)
Lemma rank_within_spec c off :
  wf_chunk c -> offset_ok off ->
  rank_within c off (fst (rank_blocks c)) =
    Some (Z.of_nat (length (filter (fun x => x < off) (members c)))).
Proof.
  intros Hwf Ho. unfold members. rewrite filter_members_below by (chunk_consts; lia).
  rewrite length_members_below by (chunk_consts; lia).
  destruct c as [ws|l]; [by apply rank_within_dense|].
  destruct Hwf as (Hs & HF & _). rewrite sparse_count by (done || (chunk_consts; lia)).
  cbn [rank_within]. do 2 f_equal.
  pose proof (partitioned_lt l off Hs) as Hp.
  destruct (partition_point_filter _ _ Hp) as [Htake _].
  destruct (partition_point_spec _ _ Hp) as [Hle _].
  rewrite <- (length_take_le l (partition_point _ l)) by done. rewrite Htake.
  f_equal. apply list_filter_iff. intros x. apply Z.ltb_lt.
Qed.

(** ** Range queries *)

Lemma ones_testbit n i : 0 <= n -> 0 <= i -> Z.testbit (2 ^ n - 1) i = (i <? n).
Proof.
  intros Hn Hi. replace (2 ^ n - 1) with (Z.ones n) by (rewrite Z.ones_equiv; lia).
  destruct (Z.ltb_spec i n); [by apply Z.ones_spec_low|by apply Z.ones_spec_high].
Qed.

Lemma nonzero_bit v :
  is_u64 v -> v <> 0 <-> exists i, 0 <= i < 64 /\ Z.testbit v i = true.
Proof.
  intros Hv. unfold is_u in Hv. split.
  - intros Hn. exists (Z.log2 v). split; [|apply Z.bit_log2; lia].
    split; [apply Z.log2_nonneg|]. apply Z.log2_lt_pow2; lia.
  - intros (i & _ & Hi) ->. by rewrite Z.bits_0 in Hi.
Qed.

Lemma high_mask_bits k i :
  0 <= k < 64 -> 0 <= i < 64 -> Z.testbit (as_u64 (Z.shiftl u64_max k)) i = (k <=? i).
Proof.
  intros Hk Hi. unfold as_u. rewrite Z.mod_pow2_bits_low, Z.shiftl_spec by lia.
  destruct (Z.leb_spec k i).
  - change u64_max with (2 ^ 64 - 1). rewrite ones_testbit by lia. by apply Z.ltb_lt; lia.
  - by apply Z.testbit_neg_r; lia.
Qed.

Lemma any_in_mask_spec sw ew lo hi idx w :
  is_u64 w -> 0 <= lo -> 0 <= hi ->
  any_in_mask sw ew lo hi idx w <> 0 <->
  exists i, 0 <= i < 64 /\ Z.testbit w i = true /\
    (idx = sw -> lo mod 64 <= i) /\ (idx = ew -> i <= hi mod 64).
Proof.
  intros Hw Hlo Hhi. unfold any_in_mask. rewrite !land_63, Z.shiftl_1_l.
  assert (0 <= lo mod 64 < 64 /\ 0 <= hi mod 64 < 64) as [Hl Hh] by dlia.
  set (v1 := if idx =? sw then _ else w).
  assert (is_u64 v1 /\ forall i, 0 <= i < 64 ->
    Z.testbit v1 i = Z.testbit w i && implb (idx =? sw) (lo mod 64 <=? i)) as [Hv1 Hb1].
  { subst v1. destruct (idx =? sw).
    - split; [apply land_u64; [done|]; apply as_u_range; lia|].
      intros i Hi. rewrite Z.land_spec, high_mask_bits by lia. done.
    - split; [done|]. intros i Hi. by rewrite andb_true_r. }
  set (v2 := if _ && _ then _ else v1).
  assert (is_u64 v2 /\ forall i, 0 <= i < 64 ->
    Z.testbit v2 i = Z.testbit v1 i && implb (idx =? ew) (i <=? hi mod 64)) as [Hv2 Hb2].
  { subst v2. destruct (idx =? ew); simpl.
    - destruct (Z.eqb_spec (hi mod 64) 63) as [H63|]; simpl.
      + split; [done|]. intros i Hi. rewrite (proj2 (Z.leb_le _ _)) by lia. by rewrite andb_true_r.
      + split; [apply land_u64; [done|]; assert (0 < 2 ^ (hi mod 64 + 1)) by lia; lia|].
        intros i Hi. rewrite Z.land_spec, ones_testbit by lia. f_equal.
        apply Bool.eq_iff_eq_true. rewrite Z.ltb_lt, Z.leb_le. lia.
    - split; [done|]. intros i Hi. by rewrite andb_true_r. }
  rewrite (nonzero_bit v2 Hv2). split; intros (i & Hi & Hb); exists i; (split; [done|]).
  - rewrite Hb2, Hb1, !andb_true_iff, !implb_true_iff in Hb by done.
    destruct Hb as ((Hb & H1) & H2). rewrite Z.eqb_eq, Z.leb_le in H1, H2. done.
  - destruct Hb as (Hb & H1 & H2). rewrite Hb2, Hb1, !andb_true_iff, !implb_true_iff by done.
    rewrite !Z.eqb_eq, !Z.leb_le. done.
Qed.

Lemma any_in_loop_spec sw ew lo hi idx words :
  any_in_loop sw ew lo hi idx words = true <->
  exists k w, words !! k = Some w /\ any_in_mask sw ew lo hi (idx + Z.of_nat k) w <> 0.
Proof.
  revert idx. induction words as [|w words IH]; intros idx; simpl.
  { split; [done|]. by intros (? & ? & ? & _). }
  destruct (Z.eqb_spec (any_in_mask sw ew lo hi idx w) 0) as [H0|H0]; simpl.
  - rewrite IH. split.
    + intros (k & v & Hk & Hm). exists (S k), v. split; [done|].
      by replace (idx + Z.of_nat (S k)) with (idx + 1 + Z.of_nat k) by lia.
    + intros ([|k] & v & Hk & Hm).
      * injection Hk as ->. by rewrite Z.add_0_r in Hm.
      * exists k, v. split; [done|].
        by replace (idx + Z.of_nat (S k)) with (idx + 1 + Z.of_nat k) in Hm by lia.
  - split; [|done]. intros _. exists 0%nat, w. by rewrite Z.add_0_r.
Qed.

Lemma any_in_spec c lo hi :
  wf_chunk c -> 0 <= lo <= hi -> offset_ok hi ->
  exists b, any_in c lo hi = Some b /\
    (b = true <-> exists o, lo <= o <= hi /\ mem c o = true).
Proof.
  intros Hwf Hlo Hhi. destruct c as [ws|l].
  - destruct Hwf as [Hl HF]. simpl any_in. rewrite !word_at_div.
    unfold slice. rewrite decide_True by (chunk_consts; dlia). obind.
    eexists. split; [done|]. rewrite any_in_loop_spec, !Z.shiftr_div_pow2 by lia.
    change (2 ^ 6) with 64. split.
    + intros (k & w & Hk & Hm). apply lookup_take_Some in Hk as [Hk Hlt].
      rewrite lookup_drop in Hk. pose proof (Forall_lookup_1 _ _ _ _ HF Hk) as Hu.
      apply any_in_mask_spec in Hm as (i & Hi & Hb & H1 & H2); [|done|lia|lia].
      exists (64 * (lo / 64 + Z.of_nat k) + i). split; [clear -H1 H2 Hi Hlt Hlo; dlia|].
      simpl. unfold wbit.
      replace (Z.to_nat ((64 * (lo / 64 + Z.of_nat k) + i) / 64))
        with (Z.to_nat (lo / 64) + k)%nat by (clear -Hi Hlo; dlia).
      rewrite Hk. rewrite <- Hb. f_equal. clear -Hi. dlia.
    + intros (o & Ho & Hm). simpl in Hm. unfold wbit in Hm.
      destruct (ws !! Z.to_nat (o / 64)) as [w|] eqn:Hw; [|done].
      exists (Z.to_nat (o / 64 - lo / 64)), w. split.
      * rewrite lookup_take_lt by (clear -Ho Hlo; dlia). rewrite lookup_drop, <- Hw.
        f_equal. clear -Ho Hlo. dlia.
      * apply any_in_mask_spec; [by eapply Forall_lookup_1|lia|lia|].
        exists (o mod 64). split_and!; [dlia|dlia|done|clear -Ho Hlo; dlia|clear -Ho Hlo; dlia].
  - destruct Hwf as (Hs & HF & _). simpl. eexists. split; [done|].
    destruct (partition_point_spec _ _ (partitioned_lt l lo Hs)) as (Hk & Hlt & Hge).
    set (k := partition_point _ l) in *. split.
    + destruct (l !! k) as [x|] eqn:Hx; [|done]. intros Hxh. unbool. exists x.
      specialize (Hge k x ltac:(lia) Hx). cbv beta in Hge. unbool.
      split; [lia|]. apply bool_decide_eq_true. by eapply list_elem_of_lookup_2.
    + intros (o & Ho & Hm%bool_decide_eq_true). apply list_elem_of_lookup in Hm as [i Hi].
      destruct (decide (i < k)%nat) as [Hik|Hik].
      { specialize (Hlt i o Hik Hi). cbv beta in Hlt. unbool. lia. }
      destruct (lookup_lt_is_Some_2 l k) as [x Hx]; [apply lookup_lt_Some in Hi; lia|].
      rewrite Hx. apply Z.leb_le. destruct (decide (i = k)) as [->|]; [by simplify_eq; lia|].
      pose proof (sorted_lookup_lt l k i x o Hs ltac:(lia) Hx Hi). lia.
Qed.

(** ** The offset iterator *)

(** [trailing_zeros] is the lowest set bit, and [w & (w - 1)] clears it. *)
Lemma pos_trailing_zeros_spec p :
  let tz := pos_trailing_zeros p in
  0 <= tz /\ Z.testbit (Z.pos p) tz = true /\
  (forall i, 0 <= i < tz -> Z.testbit (Z.pos p) i = false) /\
  (forall i, 0 <= i ->
     Z.testbit (Z.land (Z.pos p) (Z.pos p - 1)) i = Z.testbit (Z.pos p) i && negb (i =? tz)).
Proof.
  induction p as [p _|p IH|]; cbn [pos_trailing_zeros]; cbv zeta.
  - split_and!; [lia|done|lia|]. intros i Hi. rewrite Z.land_spec.
    destruct (Z.eqb_spec i 0) as [->|Hne]; [by rewrite andb_false_r|].
    simpl negb. rewrite andb_true_r. replace i with (Z.succ (i - 1)) by lia.
    change (Z.pos p~1 - 1) with (2 * Z.pos p). change (Z.pos p~1) with (2 * Z.pos p + 1).
    rewrite Z.testbit_odd_succ, Z.testbit_even_succ by lia. apply andb_diag.
  - destruct IH as (H0 & H1 & H2 & H3). set (tz := pos_trailing_zeros p) in *.
    change (Z.pos p~0) with (2 * Z.pos p). split_and!; [lia| | |].
    + replace (1 + tz) with (Z.succ tz) by lia. rewrite Z.testbit_even_succ by lia. done.
    + intros i Hi. destruct (Z.eq_dec i 0) as [->|]; [by rewrite Z.testbit_even_0|].
      replace i with (Z.succ (i - 1)) by lia. rewrite Z.testbit_even_succ by lia. apply H2. lia.
    + intros i Hi. rewrite Z.land_spec. destruct (Z.eq_dec i 0) as [->|]; [by rewrite Z.testbit_even_0|].
      replace i with (Z.succ (i - 1)) by lia.
      replace (2 * Z.pos p - 1) with (2 * (Z.pos p - 1) + 1) by lia.
      rewrite Z.testbit_odd_succ, Z.testbit_even_succ by lia.
      rewrite <- Z.land_spec, H3 by lia. f_equal. f_equal.
      apply Bool.eq_iff_eq_true. rewrite !Z.eqb_eq. lia.
  - split_and!; [lia|done|lia|]. intros i Hi. rewrite Z.land_spec. change (1 - 1) with 0.
    rewrite Z.bits_0, andb_false_r. destruct (Z.eqb_spec i 0); [by rewrite andb_false_r|].
    simpl negb. rewrite andb_true_r. symmetry. rewrite (testbit_small 1 1 i); [done|lia|lia].
Qed.

(** The iterator has yielded every member below [p] and none from [p] on. *)
Definition stands_at (words : list Z) (nx : nat) (cur base p : Z) : Prop :=
  is_u64 cur /\ 0 <= p <= Z.of_nat nx * 64 /\
  (forall i, 0 <= i < 64 -> Z.testbit cur i = true ->
     base + 64 = Z.of_nat nx * 64 /\ wbit words (base + i) = true /\ p <= base + i) /\
  (forall o, p <= o < Z.of_nat nx * 64 -> wbit words o = true ->
     base + 64 = Z.of_nat nx * 64 /\ base <= o /\ Z.testbit cur (o - base) = true).

Lemma stands_at_start words : stands_at words 0 0 0 0.
Proof.
  split_and!; [unfold is_u; lia|lia|lia| |].
  - intros i _ H. by rewrite Z.bits_0 in H.
  - lia.
Qed.

(** A word is exhausted: load the next one. *)
Lemma stands_at_load words nx base p w :
  Forall is_u64 words -> stands_at words nx 0 base p -> words !! nx = Some w ->
  stands_at words (S nx) w (Z.of_nat nx * 64) (Z.of_nat nx * 64) /\
  forall o, p <= o < Z.of_nat nx * 64 -> wbit words o = false.
Proof.
  intros HF (Hu & Hp & Hcur & Hrest) Hw.
  assert (forall i, 0 <= i < 64 -> wbit words (Z.of_nat nx * 64 + i) = Z.testbit w i) as Hwb.
  { intros i Hi. unfold wbit. replace (Z.to_nat ((Z.of_nat nx * 64 + i) / 64)) with nx by dlia.
    rewrite Hw. f_equal. dlia. }
  split; [split_and!|].
  - by eapply Forall_lookup_1.
  - lia.
  - lia.
  - intros i Hi Hb. split_and!; [lia| |lia]. by rewrite Hwb.
  - intros o Ho Hb. split_and!; [lia|lia|]. rewrite <- Hwb by lia.
    by replace (Z.of_nat nx * 64 + (o - Z.of_nat nx * 64)) with o by lia.
  - intros o Ho. destruct (wbit words o) eqn:Hb; [|done].
    destruct (Hrest o Ho Hb) as (_ & _ & Hz). by rewrite Z.bits_0 in Hz.
Qed.

(** A yielded bit: the least member not below [p]. *)
Lemma stands_at_yield words nx cur base p :
  stands_at words nx cur base p -> cur <> 0 ->
  let off := base + trailing_zeros cur in
  p <= off /\ wbit words off = true /\ (forall o, p <= o < off -> wbit words o = false) /\
  stands_at words nx (Z.land cur (cur - 1)) base (off + 1).
Proof.
  intros (Hu & Hp & Hcur & Hrest) Hne. cbv zeta. destruct cur as [|q|q]; [done| |by destruct Hu].
  destruct (pos_trailing_zeros_spec q) as (H0 & H1 & H2 & H3). simpl trailing_zeros.
  set (tz := pos_trailing_zeros q) in *.
  assert (tz < 64) as Hlt.
  { destruct (Z.lt_ge_cases tz 64) as [|Hge]; [done|]. by rewrite (testbit_small _ 64 tz) in H1. }
  destruct (Hcur tz ltac:(lia) H1) as (Hbase & Hb & Hpo).
  split_and!; [done|done| |].
  { intros o Ho. destruct (wbit words o) eqn:Hbo; [|done].
    destruct (Hrest o ltac:(lia) Hbo) as (_ & Hge & Hbit). rewrite H2 in Hbit by lia. done. }
  split_and!.
  - apply land_u64; [done|lia].
  - lia.
  - lia.
  - intros i Hi. rewrite H3 by lia. intros [Hbi Hni]%andb_true_iff. unbool.
    destruct (Hcur i Hi Hbi) as (_ & Hwb & _). split_and!; [done|done|].
    destruct (Z.lt_ge_cases i tz); [|lia]. by rewrite H2 in Hbi by lia.
  - intros o Ho Hbo. destruct (Hrest o ltac:(lia) Hbo) as (_ & Hge & Hbit).
    split_and!; [done|done|]. rewrite H3, Hbit by lia. simpl. apply negb_true_iff, Z.eqb_neq. lia.
Qed.

Lemma next_loop_spec fuel words nx cur base p :
  Forall is_u64 words -> stands_at words nx cur base p -> (length words - nx <= fuel)%nat ->
  match next_loop fuel words nx cur base with
  | None => forall o, p <= o -> wbit words o = false
  | Some (off, it) =>
      p <= off /\ wbit words off = true /\ (forall o, p <= o < off -> wbit words o = false) /\
      exists nx' cur' base', it = DenseIt words nx' cur' base' /\ stands_at words nx' cur' base' (off + 1)
  end.
Proof.
  intros HF. revert nx cur base p. induction fuel as [|fuel IH]; intros nx cur base p Hat Hfuel.
  all: cbn [next_loop]; destruct (Z.eqb_spec cur 0) as [->|Hne]; cbn [negb];
    [|destruct (stands_at_yield _ _ _ _ _ Hat Hne) as (? & ? & ? & ?); eauto 10].
  all: destruct (words !! nx) as [w|] eqn:Hw; [pose proof (lookup_lt_Some _ _ _ Hw)|].
  2, 4: intros o Ho; destruct (wbit words o) eqn:Hb; [|done]; apply lookup_ge_None in Hw;
    destruct Hat as (_ & Hp & _ & Hrest); destruct (Hrest o) as (_ & _ & Hz); [|done|by rewrite Z.bits_0 in Hz];
    unfold wbit in Hb; destruct (words !! Z.to_nat (o / 64)) eqn:Hl; [|done];
    apply lookup_lt_Some in Hl; clear -Hl Hw Ho Hp; dlia.
  { lia. }
  destruct (stands_at_load _ _ _ _ _ HF Hat Hw) as [Hat' Hbelow].
  specialize (IH _ _ _ _ Hat' ltac:(lia)). destruct Hat as (_ & Hp & _).
  destruct (next_loop fuel words (S nx) w (Z.of_nat nx * 64)) as [[off it]|].
  - destruct IH as (Hge & Hb & Hnone & Hit). split_and!; [lia|done| |done].
    intros o Ho. destruct (Z.lt_ge_cases o (Z.of_nat nx * 64)); [apply Hbelow|apply Hnone]; lia.
  - intros o Ho. destruct (Z.lt_ge_cases o (Z.of_nat nx * 64)); [apply Hbelow|apply IH]; lia.
Qed.

Lemma drain_dense fuel words nx cur base p :
  wf_words words -> stands_at words nx cur base p -> CHUNK_IDS - p <= Z.of_nat fuel ->
  let l := drain fuel (DenseIt words nx cur base) in
  StronglySorted Z.lt l /\ forall o, o ∈ l <-> p <= o /\ wbit words o = true.
Proof.
  intros Hwf. pose proof Hwf as [Hl HF].
  revert nx cur base p. induction fuel as [|fuel IH]; intros nx cur base p Hat Hfuel; cbv zeta.
  - split; [constructor|]. intros o. split; [by intros ?%not_elem_of_nil|]. intros [Ho Hb].
    pose proof (wbit_range words o Hwf) as Hr. destruct Hat as (_ & Hp & _).
    destruct Hr; [lia|done|lia].
  - cbn [drain next]. pose proof (next_loop_spec (length words) words nx cur base p HF Hat ltac:(lia)) as Hn.
    destruct (next_loop _ _ _ _ _) as [[off it]|].
    + destruct Hn as (Hge & Hb & Hnone & nx' & cur' & base' & -> & Hat').
      destruct (IH _ _ _ _ Hat' ltac:(lia)) as [Hs Hm]. split.
      * constructor; [done|]. apply Forall_forall. intros o [Ho _]%Hm. lia.
      * intros o. rewrite elem_of_cons, Hm. split.
        -- intros [->|[Ho Hbo]]; [done|]. split; [lia|done].
        -- intros [Ho Hbo]. destruct (Z.lt_trichotomy o off) as [H|[->|H]]; [|by left|right; split; [lia|done]].
           rewrite Hnone in Hbo by lia. done.
    + split; [constructor|]. intros o. split; [by intros ?%not_elem_of_nil|].
      intros [Ho Hb]. by rewrite Hn in Hb.
Qed.

Lemma drain_sparse fuel l : (length l <= fuel)%nat -> drain fuel (SparseIt l) = l.
Proof.
  revert fuel. induction l as [|x l IH]; intros [|fuel] H; simpl in *; try done; [lia|].
  f_equal. apply IH. lia.
Qed.

(** Draining a chunk yields its members, ascending, each once. *)
Lemma offsets_list_spec c : wf_chunk c -> offsets_list c = members c.
Proof.
  intros Hwf. unfold offsets_list.
  refine (sorted_ext _ (members c) _ (members_below_sorted _ _) _).
  all: destruct c as [ws|l]; simpl offsets.
  1, 3: destruct (drain_dense (Z.to_nat CHUNK_IDS) ws 0 0 0 0 Hwf (stands_at_start ws)) as [Hs Hm];
    [chunk_consts; lia|].
  3, 4: destruct Hwf as (Hs & HF & Hlen); rewrite drain_sparse by (unfold len in *; chunk_consts; lia).
  - done.
  - intros x. rewrite Hm. unfold members. rewrite elem_of_members_below. simpl.
    pose proof (wbit_range ws x Hwf). unfold offset_ok in *. intuition lia.
  - done.
  - intros x. unfold members. rewrite elem_of_members_below. simpl. rewrite bool_decide_eq_true.
    rewrite Forall_forall in HF. specialize (HF x). unfold offset_ok in HF. intuition lia.
Qed.

Lemma next_none c : wf_chunk c -> next (offsets c) = None <-> members c = [].
Proof.
  intros Hwf. pose proof (offsets_list_spec c Hwf) as H. unfold offsets_list in H.
  destruct (Z.to_nat CHUNK_IDS) as [|n] eqn:Hn; [chunk_consts; lia|]. clear Hn.
  rewrite <- H. clear H. cbn [drain].
  destruct (next (offsets c)) as [[off it]|]; split; congruence.
Qed.
