(* ===== verification/IdSet.v ===== *)
(** * The id set (src/src/idset.rs)

    Ids are cut into chunks of 2^25; chunks below [DIRECT_CHUNKS] live in a
    directly indexed vector, the others in an ordered map.  The abstract view is
    a set of non-negative ids, [mem]; every mutator is specified as an update of
    it and every query as a question to it.  The atomic setters take [&self];
    here they return the set with the written word. *)

From S2P Require Import Prelude StdSlice Count IdSetChunk.

Record IdSet := mkIdSet {
  chunks : list (option Chunk);
  overflow : BTreeMap Chunk;
}.

Inductive Slot := Direct (i : nat) | Overflow.

Definition new : IdSet := mkIdSet [] [].

Definition split (id : Z) : option (Z * Z) :=
  if id <? 0 then None
  else let id := as_u64 id in Some (Z.shiftr id ID_SHIFT, as_u32 (Z.land id OFFSET_MASK)).

Definition chunk_of (id : Z) : option Z := fst <$> split id.

Definition is_some {A} (o : option A) : bool := match o with Some _ => true | None => false end.

Definition has_any (s : IdSet) : bool :=
  existsb is_some (chunks s) || negb (match overflow s with [] => true | _ => false end).

Definition allocated_chunk_count (s : IdSet) : Z :=
  Z.of_nat (length (List.filter is_some (chunks s)) + length (overflow s)).

Definition chunk (s : IdSet) (cid : Z) : option (Slot * Chunk) :=
  if cid <? DIRECT_CHUNKS then
    let i := Z.to_nat cid in
    slot ← chunks s !! i;
    c ← slot;
    Some (Direct i, c)
  else c ← bt_get cid (overflow s); Some (Overflow, c).

(** [resize_with(n, || None)] where [n] is past the end. *)
Definition grow (n : nat) (l : list (option Chunk)) : list (option Chunk) :=
  l ++ replicate (n - length l) None.

(** [f(self.chunk_entry(cid))]: the entry, created empty when absent, is
    updated in place. *)
Definition with_chunk_entry {A} (s : IdSet) (cid : Z) (f : Chunk -> option (Chunk * A))
  : option (IdSet * A) :=
  if cid <? DIRECT_CHUNKS then
    let i := Z.to_nat cid in
    let cs := if (length (chunks s) <=? i)%nat then grow (i + 1) (chunks s) else chunks s in
    slot ← cs !! i;
    '(c, a) ← f (match slot with Some c => c | None => new_sparse end);
    Some (mkIdSet (<[i := Some c]> cs) (overflow s), a)
  else
    '(c, a) ← f (match bt_get cid (overflow s) with Some c => c | None => new_sparse end);
    Some (mkIdSet (chunks s) (bt_insert cid c (overflow s)), a).

Definition set_if_new (s : IdSet) (id : Z) : option (IdSet * bool) :=
  match split id with
  | None => Some (s, false)
  | Some (cid, off) => with_chunk_entry s cid (fun c => IdSetChunk.insert c off)
  end.

Definition set (s : IdSet) (id : Z) : option IdSet :=
  match split id with
  | None => Some s
  | Some (cid, off) =>
      match chunks s !! Z.to_nat cid with
      | Some (Some (Dense words)) =>
          w ← words !! word_at off;
          Some (mkIdSet (<[Z.to_nat cid := Some (Dense (<[word_at off := Z.lor w (bit_at off)]> words))]>
                           (chunks s)) (overflow s))
      | _ => '(s', _) ← with_chunk_entry s cid (fun c => IdSetChunk.insert c off); Some s'
      end
  end.

(** One directory slot of [pre_allocate]. *)
Definition pre_slot (slot : option Chunk) : option (option Chunk) :=
  match slot with
  | Some c => c' ← promote c; Some (Some c')
  | None => Some (Some (Dense new_dense))
  end.

Fixpoint pre_slots (n : nat) (l : list (option Chunk)) : option (list (option Chunk)) :=
  match n, l with
  | O, _ => Some l
  | S n, slot :: l => slot' ← pre_slot slot; l' ← pre_slots n l; Some (slot' :: l')
  | S _, [] => None
  end.

Fixpoint pre_overflow (cids : list Z) (m : BTreeMap Chunk) : option (BTreeMap Chunk) :=
  match cids with
  | [] => Some m
  | cid :: cids =>
      c ← (match bt_get cid m with
           | Some c => promote c
           | None => Some (Dense new_dense)
           end);
      pre_overflow cids (bt_insert cid c m)
  end.

Definition pre_allocate (s : IdSet) (max_id : Z) : option IdSet :=
  match split max_id with
  | None => Some s
  | Some (max_cid, _) =>
      let direct_end := Z.to_nat (Z.min max_cid (DIRECT_CHUNKS - 1)) in
      let cs := if (length (chunks s) <=? direct_end)%nat
                then grow (direct_end + 1) (chunks s) else chunks s in
      cs' ← pre_slots (direct_end + 1) cs;
      m' ← pre_overflow (seqZ DIRECT_CHUNKS (max_cid + 1 - DIRECT_CHUNKS)) (overflow s);
      Some (mkIdSet cs' m')
  end.

Definition saturating_mul_u64 (a b : Z) : Z := Z.min (a * b) u64_max.

Definition file_bounded_max_id (claimed_max file_len ids_per_byte : Z) : Z :=
  let product := saturating_mul_u64 file_len ids_per_byte in
  let by_size := if product <=? i64_max then product else i64_max in
  Z.min claimed_max by_size.

(** The bit array an atomic setter may write, and where it lives. *)
Definition dense_for_atomic (s : IdSet) (id : Z) : option (Slot * Z * list Z * Z) :=
  '(cid, off) ← split id;
  '(slot, c) ← chunk s cid;
  match c with
  | Dense words => Some (slot, cid, words, off)
  | Sparse _ => None
  end.

(** Storing a written word back where the bit array lives. *)
Definition put_dense (s : IdSet) (slot : Slot) (cid : Z) (words : list Z) : IdSet :=
  match slot with
  | Direct i => mkIdSet (<[i := Some (Dense words)]> (chunks s)) (overflow s)
  | Overflow => mkIdSet (chunks s) (bt_insert cid (Dense words) (overflow s))
  end.

(** [words[off >> 6].fetch_or(bit)]: the set after it and the previous word. *)
Definition fetch_or (s : IdSet) (found : Slot * Z * list Z * Z) : option (IdSet * Z) :=
  let '(slot, cid, words, off) := found in
  prev ← words !! word_at off;
  Some (put_dense s slot cid (<[word_at off := Z.lor prev (bit_at off)]> words), prev).

(** [None] is the panic of [chunk_for_atomic]. *)
Definition set_atomic (s : IdSet) (id : Z) : option IdSet :=
  found ← dense_for_atomic s id;
  '(s', _) ← fetch_or s found;
  Some s'.

Definition set_atomic_if_new (s : IdSet) (id : Z) : option (IdSet * bool) :=
  found ← dense_for_atomic s id;
  '(s', prev) ← fetch_or s found;
  Some (s', Z.land prev (bit_at found.2) =? 0).

Definition set_atomic_checked (s : IdSet) (id : Z) : option (IdSet * bool) :=
  match dense_for_atomic s id with
  | None => Some (s, false)
  | Some found => '(s', _) ← fetch_or s found; Some (s', true)
  end.

Definition set_atomic_if_new_checked (s : IdSet) (id : Z) : option (IdSet * option bool) :=
  match dense_for_atomic s id with
  | None => Some (s, None)
  | Some found =>
      '(s', prev) ← fetch_or s found;
      Some (s', Some (Z.land prev (bit_at found.2) =? 0))
  end.

Definition get (s : IdSet) (id : Z) : option bool :=
  match split id with
  | None => Some false
  | Some (cid, off) => match chunk s cid with
                       | None => Some false
                       | Some (_, c) => contains c off
                       end
  end.

(** [clip] of [any_in_range] *)
Definition clip (min_cid min_off max_cid max_off cid : Z) : Z * Z :=
  (if cid =? min_cid then min_off else 0,
   if cid =? max_cid then max_off else as_u32 OFFSET_MASK).

Section AnyIn.
Variable clip_of : Z -> Z * Z.

Fixpoint any_direct (cs : list (option Chunk)) (cids : list Z) : option bool :=
  match cids with
  | [] => Some false
  | cid :: cids =>
      slot ← cs !! Z.to_nat cid;
      match slot with
      | None => any_direct cs cids
      | Some c =>
          found ← any_in c (clip_of cid).1 (clip_of cid).2;
          if found : bool then Some true else any_direct cs cids
      end
  end.

Fixpoint any_overflow (m : BTreeMap Chunk) : option bool :=
  match m with
  | [] => Some false
  | (cid, c) :: m =>
      found ← any_in c (clip_of cid).1 (clip_of cid).2;
      if found : bool then Some true else any_overflow m
  end.
End AnyIn.

Definition any_in_range (s : IdSet) (min_id max_id : Z) : option bool :=
  if (max_id <? min_id) || (max_id <? 0) then Some false
  else
    match split (Z.max min_id 0), split max_id with
    | Some (min_cid, min_off), Some (max_cid, max_off) =>
        let clip_of := clip min_cid min_off max_cid max_off in
        found ← (if (min_cid <? DIRECT_CHUNKS) && negb (length (chunks s) =? 0)%nat then
                   let last := Z.min max_cid (Z.of_nat (length (chunks s)) - 1) in
                   any_direct clip_of (chunks s) (seqZ min_cid (last + 1 - min_cid))
                 else Some false);
        if found : bool then Some true
        else if DIRECT_CHUNKS <=? max_cid then
          any_overflow clip_of (bt_range (Z.max min_cid DIRECT_CHUNKS) max_cid (overflow s))
        else Some false
    | _, _ => Some false
    end.

(** [chunks.iter().enumerate().filter_map(..)] from index [i] on *)
Fixpoint direct_entries (i : Z) (l : list (option Chunk)) : list (Z * Chunk) :=
  match l with
  | [] => []
  | Some c :: l => (i, c) :: direct_entries (i + 1) l
  | None :: l => direct_entries (i + 1) l
  end.

Definition chunk_ids (e : Z * Chunk) : list Z :=
  (fun off => as_i64 (as_u64 (Z.shiftl e.1 ID_SHIFT) + off)) <$> offsets_list e.2.

Definition iter (s : IdSet) : list Z :=
  concat (chunk_ids <$> (direct_entries 0 (chunks s) ++ overflow s)).

Definition iter_from (s : IdSet) (start : Z) : list Z :=
  let first_cid := Z.shiftr (Z.max start 0) ID_SHIFT in
  let skip := Z.to_nat first_cid in
  let direct := direct_entries (Z.of_nat skip) (drop skip (chunks s)) in
  let over := bt_range_from (Z.max first_cid DIRECT_CHUNKS) (overflow s) in
  filter (fun id => start <= id) (concat (chunk_ids <$> (direct ++ over))).

(** The two merges differ in how a source chunk is united or moved. *)
Section Merge.
Variable unite : Chunk -> Chunk -> option Chunk.
Variable take_over : Chunk -> Chunk.

Definition merge_slot (dst src : option Chunk) : option (option Chunk) :=
  match src, dst with
  | None, _ => Some dst
  | Some s, Some d => c ← unite d s; Some (Some c)
  | Some s, None => Some (Some (take_over s))
  end.

(** [self.chunks.iter_mut().zip(other.chunks)] *)
Fixpoint merge_slots (dst src : list (option Chunk)) : option (list (option Chunk)) :=
  match dst, src with
  | d :: dst, s :: src => d' ← merge_slot d s; rest ← merge_slots dst src; Some (d' :: rest)
  | _, _ => Some dst
  end.

Fixpoint merge_overflow (dst src : BTreeMap Chunk) : option (BTreeMap Chunk) :=
  match src with
  | [] => Some dst
  | (cid, s) :: src =>
      c ← (match bt_get cid dst with
           | Some d => unite d s
           | None => Some (take_over s)
           end);
      merge_overflow (bt_insert cid c dst) src
  end.

Definition merge_with (self other : IdSet) : option IdSet :=
  let cs := if (length (chunks self) <? length (chunks other))%nat
            then grow (length (chunks other)) (chunks self) else chunks self in
  cs' ← merge_slots cs (chunks other);
  m' ← merge_overflow (overflow self) (overflow other);
  Some (mkIdSet cs' m').
End Merge.

Definition merge_from (self other : IdSet) : option IdSet := merge_with union_ref clone_chunk self other.
Definition merge (self other : IdSet) : option IdSet := merge_with union_owned (fun c => c) self other.

(** [chunks.iter().flatten().chain(overflow.values())] *)
Definition all_chunks (s : IdSet) : list Chunk := omap id (chunks s) ++ (overflow s).*2.

Definition set_len (s : IdSet) : Z := foldl (fun acc c => acc + count c) 0 (all_chunks s).

Definition is_empty (s : IdSet) : bool :=
  forallb (fun c => negb (is_some (next (offsets c)))) (all_chunks s).

(** ** The abstract view *)

Definition lookup_chunk (s : IdSet) (cid : Z) : option Chunk := snd <$> chunk s cid.

Definition in_set (s : IdSet) (id : Z) : bool :=
  (0 <=? id) && match lookup_chunk s (id / CHUNK_IDS) with
                | Some c => mem c (id mod CHUNK_IDS)
                | None => false
                end.

(** Chunk ids of [i64] ids. *)
Definition MAX_CID : Z := 274877906944.

Definition wf (s : IdSet) : Prop :=
  Z.of_nat (length (chunks s)) <= DIRECT_CHUNKS /\
  Forall (fun o => match o with Some c => wf_chunk c | None => True end) (chunks s) /\
  bt_wf (overflow s) /\
  Forall (fun e => DIRECT_CHUNKS <= e.1 < MAX_CID /\ wf_chunk e.2) (overflow s).

(** ** Splitting and chunk lookup *)

Ltac set_consts :=
  unfold DIRECT_CHUNKS, MAX_CID, offset_ok in *; change CHUNK_IDS with 33554432 in *.

Lemma split_spec id :
  is_i64 id ->
  split id = if id <? 0 then None else Some (id / CHUNK_IDS, id mod CHUNK_IDS).
Proof.
  intros Hid. unfold split. destruct (Z.ltb_spec id 0); [done|].
  rewrite as_u_id by width. do 2 f_equal.
  - unfold ID_SHIFT. by rewrite Z.shiftr_div_pow2 by lia.
  - change OFFSET_MASK with (2 ^ 25 - 1). rewrite land_ones_mod by lia.
    rewrite as_u_id; [done|]. set_consts. unfold is_u. change (2 ^ 25) with 33554432. dlia.
Qed.

Lemma split_some id cid off :
  is_i64 id -> split id = Some (cid, off) ->
  0 <= id /\ 0 <= cid < MAX_CID /\ offset_ok off /\ id = cid * CHUNK_IDS + off.
Proof.
  intros Hid. rewrite split_spec by done. destruct (Z.ltb_spec id 0); [done|].
  intros [= <- <-]. set_consts. width.
Qed.

Lemma split_join cid off :
  0 <= cid < MAX_CID -> offset_ok off -> split (cid * CHUNK_IDS + off) = Some (cid, off).
Proof.
  intros Hc Ho. rewrite split_spec by (set_consts; width).
  destruct (Z.ltb_spec (cid * CHUNK_IDS + off) 0); [set_consts; lia|].
  do 2 f_equal; set_consts; dlia.
Qed.

Lemma lookup_chunk_alt s k :
  lookup_chunk s k = if k <? DIRECT_CHUNKS then mjoin (chunks s !! Z.to_nat k)
                     else bt_get k (overflow s).
Proof.
  unfold lookup_chunk, chunk. destruct (k <? DIRECT_CHUNKS).
  - by destruct (chunks s !! Z.to_nat k) as [[c|]|].
  - by destruct (bt_get k (overflow s)).
Qed.

Lemma wf_direct s i c : wf s -> chunks s !! i = Some (Some c) -> wf_chunk c.
Proof. intros (_ & HF & _) Hi. by apply (Forall_lookup_1 _ _ _ _ HF Hi). Qed.

Lemma wf_lookup s k c : wf s -> lookup_chunk s k = Some c -> wf_chunk c.
Proof.
  intros Hwf. rewrite lookup_chunk_alt. destruct (k <? DIRECT_CHUNKS).
  - destruct (chunks s !! Z.to_nat k) as [[c'|]|] eqn:Hc; [|done..].
    intros [= ->]. by eapply wf_direct.
  - intros Hg%bt_get_elem. destruct Hwf as (_ & _ & _ & HF).
    rewrite Forall_forall in HF. apply (HF _ Hg).
Qed.

(** [s'] is [s] with chunk [cid] holding [c]. *)
Definition stored (s : IdSet) (cid : Z) (c : Chunk) (s' : IdSet) : Prop :=
  wf s' /\ forall k, 0 <= k -> lookup_chunk s' k = if k =? cid then Some c else lookup_chunk s k.

Lemma wf_chunks_insert s cs i c :
  wf s -> Z.of_nat (length cs) <= DIRECT_CHUNKS ->
  (forall j d, cs !! j = Some (Some d) -> chunks s !! j = Some (Some d)) -> wf_chunk c ->
  wf (mkIdSet (<[i := Some c]> cs) (overflow s)).
Proof.
  intros (_ & HF & Hb & Ho) Hlen Hsub Hc. split_and!; simpl; [|apply Forall_insert; [|done]|done..].
  - by rewrite length_insert.
  - apply Forall_lookup. intros j [d|] Hj; [|done]. by apply (Forall_lookup_1 _ _ _ _ HF (Hsub _ _ Hj)).
Qed.

(** Writing slot [i] of a directory that extends the one of [s]. *)
Lemma stored_direct s cs i c :
  wf s -> Z.of_nat (length cs) <= DIRECT_CHUNKS -> (i < length cs)%nat ->
  (forall j, mjoin (cs !! j) = mjoin (chunks s !! j)) -> wf_chunk c ->
  stored s (Z.of_nat i) c (mkIdSet (<[i := Some c]> cs) (overflow s)).
Proof.
  intros Hwf Hlen Hi Hsub Hc. split.
  - apply wf_chunks_insert; [done..| |done]. intros j d Hj.
    specialize (Hsub j). rewrite Hj in Hsub. by destruct (chunks s !! j) as [[d'|]|]; simplify_eq/=.
  - intros k Hk. rewrite !lookup_chunk_alt. simpl.
    destruct (Z.ltb_spec k DIRECT_CHUNKS); [|by destruct (Z.eqb_spec k (Z.of_nat i)); [lia|]].
    destruct (Z.eqb_spec k (Z.of_nat i)) as [->|Hne].
    + by rewrite Nat2Z.id, list_lookup_insert_eq.
    + rewrite list_lookup_insert_ne by lia. apply Hsub.
Qed.

Lemma stored_overflow s cid c :
  wf s -> DIRECT_CHUNKS <= cid < MAX_CID -> wf_chunk c ->
  stored s cid c (mkIdSet (chunks s) (bt_insert cid c (overflow s))).
Proof.
  intros (Hl & HF & Hb & Ho) Hcid Hc. split.
  - split_and!; simpl; [done..|by apply bt_insert_wf|by apply bt_insert_Forall].
  - intros k Hk. rewrite !lookup_chunk_alt. simpl. rewrite bt_get_insert by done.
    destruct (Z.ltb_spec k DIRECT_CHUNKS), (Z.eqb_spec k cid); [lia|done..].
Qed.

Lemma grow_lookup n l j : mjoin (grow n l !! j) = mjoin (l !! j).
Proof.
  unfold grow. destruct (decide (j < length l)%nat).
  - by rewrite lookup_app_l.
  - rewrite (lookup_ge_None_2 l j), lookup_app_r by lia.
    destruct (replicate _ _ !! _) as [o|] eqn:Ho; [|done]. by apply lookup_replicate in Ho as [-> _].
Qed.

Lemma length_grow n l : length (grow n l) = Nat.max n (length l).
Proof. unfold grow. rewrite length_app, length_replicate. lia. Qed.

Lemma with_chunk_entry_spec {A} s cid (f : Chunk -> option (Chunk * A)) c a :
  wf s -> 0 <= cid < MAX_CID -> wf_chunk c ->
  f (default new_sparse (lookup_chunk s cid)) = Some (c, a) ->
  exists s', with_chunk_entry s cid f = Some (s', a) /\ stored s cid c s'.
Proof.
  intros Hwf Hcid Hc. rewrite lookup_chunk_alt. unfold with_chunk_entry.
  destruct (Z.ltb_spec cid DIRECT_CHUNKS) as [Hd|Hd].
  - set (i := Z.to_nat cid). replace cid with (Z.of_nat i) by lia.
    set (cs := if (length (chunks s) <=? i)%nat then _ else _).
    assert ((i < length cs)%nat /\ Z.of_nat (length cs) <= DIRECT_CHUNKS /\
            forall j, mjoin (cs !! j) = mjoin (chunks s !! j)) as (Hi & Hlen & Hsub).
    { subst cs. destruct Hwf as [Hl _]. destruct (Nat.leb_spec (length (chunks s)) i).
      - rewrite length_grow. split_and!; [lia|set_consts; lia|apply grow_lookup].
      - done. }
    rewrite <- Hsub. destruct (lookup_lt_is_Some_2 cs i Hi) as [slot Hslot]. rewrite Hslot.
    intros Hf. obind.
    assert (f (match slot with Some c => c | None => new_sparse end) = Some (c, a)) as ->
      by by destruct slot.
    obind. eexists. split; [done|]. by apply stored_direct.
  - intros Hf.
    assert (f (match bt_get cid (overflow s) with Some c => c | None => new_sparse end) = Some (c, a)) as ->
      by by destruct (bt_get cid (overflow s)).
    obind. eexists. split; [done|]. apply stored_overflow; [done|lia|done].
Qed.

Lemma in_set_split s cid off :
  0 <= cid -> offset_ok off ->
  in_set s (cid * CHUNK_IDS + off) =
    match lookup_chunk s cid with Some c => mem c off | None => false end.
Proof.
  intros Hc Ho. unfold in_set. rewrite (proj2 (Z.leb_le 0 _)) by (set_consts; lia).
  replace ((cid * CHUNK_IDS + off) / CHUNK_IDS) with cid by (set_consts; dlia).
  by replace ((cid * CHUNK_IDS + off) mod CHUNK_IDS) with off by (set_consts; dlia).
Qed.

(** Splitting a non-negative id in a goal about [in_set]. *)
Lemma id_split id : 0 <= id ->
  id = id / CHUNK_IDS * CHUNK_IDS + id mod CHUNK_IDS /\ 0 <= id / CHUNK_IDS /\ offset_ok (id mod CHUNK_IDS).
Proof. intros. set_consts. dlia. Qed.

Lemma in_set_neg s id : id < 0 -> in_set s id = false.
Proof. intros H. unfold in_set. by rewrite (proj2 (Z.leb_gt 0 id)). Qed.

Lemma mem_new_sparse o : mem new_sparse o = false.
Proof. by apply bool_decide_eq_false, not_elem_of_nil. Qed.

Lemma wf_new_sparse : wf_chunk new_sparse.
Proof. split_and!; [constructor|constructor|done]. Qed.

(** Adding an offset to a stored chunk adds one id. *)
Lemma stored_adds s cid off c s' j :
  stored s cid c s' -> 0 <= cid -> offset_ok off ->
  adds (default new_sparse (lookup_chunk s cid)) off c ->
  in_set s' j = (j =? cid * CHUNK_IDS + off) || in_set s j.
Proof.
  intros [_ Hlk] Hcid Hoff [_ Hm].
  destruct (Z.lt_ge_cases j 0) as [Hj|Hj].
  { rewrite !in_set_neg by done. rewrite orb_false_r. symmetry. apply Z.eqb_neq. set_consts. lia. }
  destruct (id_split j Hj) as (Hjeq & Hjc & Hjo).
  set (jc := j / CHUNK_IDS) in *. set (jo := j mod CHUNK_IDS) in *. rewrite Hjeq.
  rewrite !in_set_split by done. rewrite Hlk by done.
  destruct (Z.eqb_spec jc cid) as [->|Hne].
  - rewrite Hm by apply Hjo.
    assert ((cid * CHUNK_IDS + jo =? cid * CHUNK_IDS + off) = (jo =? off)) as ->.
    { apply Bool.eq_iff_eq_true. rewrite !Z.eqb_eq. lia. }
    f_equal. destruct (lookup_chunk s cid); [done|apply mem_new_sparse].
  - assert ((jc * CHUNK_IDS + jo =? cid * CHUNK_IDS + off) = false) as ->; [|done].
    apply Z.eqb_neq. set_consts. lia.
Qed.

Lemma entry_wf s cid : wf s -> wf_chunk (default new_sparse (lookup_chunk s cid)).
Proof.
  intros Hwf. destruct (lookup_chunk s cid) eqn:Hl; [by eapply wf_lookup|apply wf_new_sparse].
Qed.

Lemma entry_mem s cid off :
  0 <= cid -> offset_ok off ->
  mem (default new_sparse (lookup_chunk s cid)) off = in_set s (cid * CHUNK_IDS + off).
Proof.
  intros Hc Ho. rewrite in_set_split by done.
  destruct (lookup_chunk s cid); [done|apply mem_new_sparse].
Qed.

(** ** Mutators *)

(** [s'] is [s] with [id] added when it is not negative. *)
Definition adds_id (s : IdSet) (id : Z) (s' : IdSet) : Prop :=
  wf s' /\ forall j, in_set s' j = (j =? id) && (0 <=? id) || in_set s j.

Lemma set_if_new_spec s id :
  wf s -> is_i64 id ->
  exists s', set_if_new s id = Some (s', (0 <=? id) && negb (in_set s id)) /\ adds_id s id s'.
Proof.
  intros Hwf Hid. unfold set_if_new. destruct (split id) as [[cid off]|] eqn:Hsp.
  - destruct (split_some _ _ _ Hid Hsp) as (Hnn & Hc & Ho & ->).
    rewrite (proj2 (Z.leb_le 0 _)) by done.
    destruct (insert_spec _ off (entry_wf s cid Hwf) Ho) as (c' & He & Ha).
    destruct (with_chunk_entry_spec s cid (fun c => IdSetChunk.insert c off) c' _ Hwf Hc (proj1 Ha) He) as (s' & Hs' & Hst).
    exists s'. rewrite Hs', entry_mem by (done || lia). split; [done|].
    split; [apply Hst|]. intros j. rewrite (proj2 (Z.leb_le 0 _)), andb_true_r by done.
    eapply stored_adds; [done|lia|done..].
  - rewrite split_spec in Hsp by done. destruct (Z.ltb_spec id 0); [|done].
    rewrite (proj2 (Z.leb_gt 0 id)) by done. exists s. split; [done|]. split; [done|].
    intros j. by rewrite (proj2 (Z.leb_gt 0 id)), andb_false_r by done.
Qed.

(** The bit-array fast path of [set] is [dense_insert] without its answer. *)
Lemma dense_or_spec ws off :
  wf_words ws -> offset_ok off ->
  exists w, ws !! word_at off = Some w /\
    adds (Dense ws) off (Dense (<[word_at off := Z.lor w (bit_at off)]> ws)) /\
    (Z.land w (bit_at off) =? 0) = negb (wbit ws off).
Proof.
  intros Hwf Ho. destruct (dense_insert_spec ws off Hwf Ho) as (ws' & He & Hwf' & Hb).
  unfold dense_insert in He. destruct (ws !! word_at off) as [w|] eqn:Hw; [|done].
  cbn [mbind option_bind] in He. rewrite negb_involutive in He. injection He as <- He.
  exists w. done.
Qed.

Lemma set_spec s id :
  wf s -> is_i64 id -> exists s', set s id = Some s' /\ adds_id s id s'.
Proof.
  intros Hwf Hid. destruct (set_if_new_spec s id Hwf Hid) as (s1 & He1 & Ha1).
  unfold set. unfold set_if_new in He1.
  destruct (split id) as [[cid off]|] eqn:Hsp; [|injection He1 as <- _; eauto].
  destruct (chunks s !! Z.to_nat cid) as [[[ws|l]|]|] eqn:Hc.
  2, 3, 4: rewrite He1; obind; eauto.
  destruct (split_some _ _ _ Hid Hsp) as (Hnn & Hcid & Ho & ->).
  destruct (dense_or_spec ws off) as (w & Hw & Ha & _); [by apply (wf_direct s (Z.to_nat cid) (Dense ws))|done|].
  rewrite Hw. obind. eexists. split; [done|].
  pose proof (lookup_lt_Some _ _ _ Hc) as Hlt.
  pose proof (stored_direct s (chunks s) (Z.to_nat cid) _ Hwf (proj1 Hwf) Hlt (fun _ => eq_refl) (proj1 Ha)) as Hst.
  rewrite Z2Nat.id in Hst by lia.
  split; [apply Hst|]. intros j. rewrite (proj2 (Z.leb_le 0 _)), andb_true_r by done.
  eapply stored_adds; [done|lia|done|].
  rewrite lookup_chunk_alt, Hc. destruct (Z.ltb_spec cid DIRECT_CHUNKS); [done|].
  destruct Hwf as [Hl _]. lia.
Qed.

Lemma get_spec s id : wf s -> is_i64 id -> get s id = Some (in_set s id).
Proof.
  intros Hwf Hid. unfold get. destruct (split id) as [[cid off]|] eqn:Hsp.
  - destruct (split_some _ _ _ Hid Hsp) as (Hnn & Hc & Ho & ->).
    rewrite in_set_split by (done || lia). unfold lookup_chunk.
    destruct (chunk s cid) as [[slot c]|] eqn:Hch; [|done]. simpl.
    apply contains_spec; [|done]. apply (wf_lookup s cid); [done|].
    unfold lookup_chunk. by rewrite Hch.
  - rewrite split_spec in Hsp by done. destruct (Z.ltb_spec id 0); [|done].
    by rewrite in_set_neg.
Qed.

(** ** Atomic setters *)

Lemma chunk_slot s cid slot c :
  wf s -> 0 <= cid -> chunk s cid = Some (slot, c) ->
  match slot with
  | Direct i => cid = Z.of_nat i /\ (i < length (chunks s))%nat
  | Overflow => DIRECT_CHUNKS <= cid < MAX_CID
  end /\ lookup_chunk s cid = Some c.
Proof.
  intros Hwf Hcid Hc. split; [|unfold lookup_chunk; by rewrite Hc].
  unfold chunk in Hc. destruct (Z.ltb_spec cid DIRECT_CHUNKS).
  - destruct (chunks s !! Z.to_nat cid) as [[d|]|] eqn:Hd; try done.
    injection Hc as <- _. apply lookup_lt_Some in Hd. lia.
  - destruct (bt_get cid (overflow s)) as [d|] eqn:Hd; try done. injection Hc as <- _.
    apply bt_get_elem in Hd. destruct Hwf as (_ & _ & _ & HF). rewrite Forall_forall in HF.
    apply (HF _ Hd).
Qed.

(** Writable ids: those whose chunk is a bit array. *)
Definition writable (s : IdSet) (id : Z) : bool :=
  (0 <=? id) && match lookup_chunk s (id / CHUNK_IDS) with Some (Dense _) => true | _ => false end.

Lemma dense_for_atomic_spec s id :
  wf s -> is_i64 id ->
  match dense_for_atomic s id with
  | None => writable s id = false
  | Some found => writable s id = true /\
      exists s' prev, fetch_or s found = Some (s', prev) /\ adds_id s id s' /\
        (Z.land prev (bit_at found.2) =? 0) = negb (in_set s id) /\
        forall j, writable s' j = writable s j
  end.
Proof.
  intros Hwf Hid. unfold dense_for_atomic, writable. destruct (split id) as [[cid off]|] eqn:Hsp; obind.
  2: { rewrite split_spec in Hsp by done. destruct (Z.ltb_spec id 0); [|done].
       by rewrite (proj2 (Z.leb_gt 0 id)). }
  destruct (split_some _ _ _ Hid Hsp) as (Hnn & Hc & Ho & ->).
  rewrite (proj2 (Z.leb_le 0 _)) by done.
  replace ((cid * CHUNK_IDS + off) / CHUNK_IDS) with cid by (set_consts; dlia).
  destruct (chunk s cid) as [[slot c]|] eqn:Hch; obind.
  2: { unfold lookup_chunk. by rewrite Hch. }
  destruct (chunk_slot s cid slot c Hwf ltac:(lia) Hch) as [Hslot Hlk]. rewrite Hlk.
  destruct c as [ws|l]; [|done]. split; [done|].
  pose proof (wf_lookup s cid (Dense ws) Hwf Hlk) as Hww.
  destruct (dense_or_spec ws off Hww Ho) as (w & Hw & Ha & Hz).
  simpl fetch_or. rewrite Hw. obind. do 2 eexists. split; [done|]. cbn [snd].
  set (ws' := <[_ := _]> ws) in *.
  assert (stored s cid (Dense ws') (put_dense s slot cid ws')) as Hst.
  { destruct slot as [i|]; simpl.
    - destruct Hslot as [-> Hi]. apply stored_direct; [done|apply Hwf|done|done|apply Ha].
    - apply stored_overflow; [done|done|apply Ha]. }
  split_and!.
  - split; [apply Hst|]. intros j. rewrite (proj2 (Z.leb_le 0 _)), andb_true_r by done.
    eapply stored_adds; [done|lia|done|]. by rewrite Hlk.
  - rewrite Hz, in_set_split by (done || lia). by rewrite Hlk.
  - intros j. destruct (Z.leb_spec 0 j); [|done]. simpl.
    rewrite (proj2 Hst) by (set_consts; dlia).
    destruct (Z.eqb_spec (j / CHUNK_IDS) cid) as [->|]; [by rewrite Hlk|done].
Qed.

Lemma set_atomic_spec s id :
  wf s -> is_i64 id -> writable s id = true ->
  exists s', set_atomic s id = Some s' /\ adds_id s id s' /\ forall j, writable s' j = writable s j.
Proof.
  intros Hwf Hid Hwr. pose proof (dense_for_atomic_spec s id Hwf Hid) as H. unfold set_atomic.
  destruct (dense_for_atomic s id) as [found|]; [|congruence].
  destruct H as (_ & s' & prev & He & Ha & _ & Hw). obind. rewrite He. obind. eauto.
Qed.

(** ** Pre-allocation *)

Lemma pre_slot_spec slot :
  match slot with Some c => wf_chunk c | None => True end ->
  exists ws, pre_slot slot = Some (Some (Dense ws)) /\ wf_words ws /\
    forall o, 0 <= o -> wbit ws o = match slot with Some c => mem c o | None => false end.
Proof.
  destruct slot as [c|]; intros Hwf; simpl.
  - destruct (promote_spec c Hwf) as (ws & He & Hw & Hb). rewrite He. obind. eauto.
  - exists new_dense. split_and!; [done|apply wf_new_dense|]. intros o _. apply wbit_new_dense.
Qed.

(** What pre-allocation does to one chunk's place. *)
Definition pre_effect (covered : bool) (before after : option Chunk) : Prop :=
  if covered then exists ws, after = Some (Dense ws) /\ wf_words ws /\
    forall o, 0 <= o -> wbit ws o = match before with Some c => mem c o | None => false end
  else after = before.

Lemma pre_slots_spec n l :
  Forall (fun o => match o with Some c => wf_chunk c | None => True end) l -> (n <= length l)%nat ->
  exists l', pre_slots n l = Some l' /\ length l' = length l /\
    forall i, (i < length l)%nat ->
      pre_effect (i <? n)%nat (mjoin (l !! i)) (mjoin (l' !! i)).
Proof.
  revert l. induction n as [|n IH]; intros l HF Hn.
  { exists l. destruct l; done. }
  destruct l as [|slot l]; [simpl in Hn; lia|]. inversion HF as [|? ? Hslot HF']; subst.
  destruct (pre_slot_spec slot Hslot) as (ws & He & Hw & Hb).
  destruct (IH l HF' ltac:(simpl in Hn; lia)) as (l' & He' & Hlen & Hl').
  exists (Some (Dense ws) :: l'). cbn [pre_slots]. rewrite He. obind. rewrite He'. obind.
  split_and!; [done|simpl; lia|]. intros [|i] Hi; simpl in Hi.
  - simpl. exists ws. split_and!; [done|done|]. by destruct slot.
  - apply Hl'. lia.
Qed.

Lemma pre_overflow_spec cids m :
  NoDup cids -> bt_wf m ->
  Forall (fun e => DIRECT_CHUNKS <= e.1 < MAX_CID /\ wf_chunk e.2) m ->
  Forall (fun cid => DIRECT_CHUNKS <= cid < MAX_CID) cids ->
  exists m', pre_overflow cids m = Some m' /\ bt_wf m' /\
    Forall (fun e => DIRECT_CHUNKS <= e.1 < MAX_CID /\ wf_chunk e.2) m' /\
    forall k, pre_effect (bool_decide (k ∈ cids)) (bt_get k m) (bt_get k m').
Proof.
  intros Hnd. revert m. induction Hnd as [|cid cids Hni Hnd IH]; intros m Hm HF Hc.
  { exists m. split_and!; [done..|]. intros k. by rewrite bool_decide_eq_false_2 by apply not_elem_of_nil. }
  apply Forall_cons in Hc as [Hcid Hc].
  destruct (pre_slot_spec (bt_get cid m)) as (ws & He & Hw & Hb).
  { destruct (bt_get cid m) as [c|] eqn:Hg; [|done]. apply bt_get_elem in Hg.
    rewrite Forall_forall in HF. apply (HF _ Hg). }
  destruct (IH (bt_insert cid (Dense ws) m)) as (m' & He' & Hm' & HF' & Hk).
  { by apply bt_insert_wf. } { by apply bt_insert_Forall. } { done. }
  exists m'. cbn [pre_overflow].
  assert (match bt_get cid m with Some c => promote c | None => Some (Dense new_dense) end
          = Some (Dense ws)) as ->.
  { unfold pre_slot in He. destruct (bt_get cid m) as [c|]; [|congruence].
    destruct (promote c); cbn [mbind option_bind] in He; congruence. }
  obind. split_and!; [done..|]. intros k. specialize (Hk k). rewrite bt_get_insert in Hk by done.
  destruct (Z.eqb_spec k cid) as [Heq|Hne]; [subst k|].
  - rewrite (bool_decide_eq_false_2 (cid ∈ cids) Hni) in Hk. unfold pre_effect in *.
    rewrite bool_decide_eq_true_2 by set_solver. eauto.
  - assert (bool_decide (k ∈ cid :: cids) = bool_decide (k ∈ cids)) as ->; [|done].
    apply bool_decide_ext. set_solver.
Qed.

Lemma pre_effect_slot cov before after :
  pre_effect cov before after -> match before with Some c => wf_chunk c | None => True end ->
  match after with Some c => wf_chunk c | None => True end.
Proof. destruct cov; simpl; [intros (ws & -> & Hw & _) _; done|by intros ->]. Qed.

Lemma pre_allocate_spec s max_id :
  wf s -> is_i64 max_id ->
  exists s', pre_allocate s max_id = Some s' /\ wf s' /\
    forall k, 0 <= k -> pre_effect ((0 <=? max_id) && (k <=? max_id / CHUNK_IDS))
                          (lookup_chunk s k) (lookup_chunk s' k).
Proof.
  intros Hwf Hid. unfold pre_allocate. rewrite split_spec by done.
  destruct (Z.ltb_spec max_id 0) as [Hneg|Hnn].
  { exists s. split_and!; [done..|]. intros k _. by rewrite (proj2 (Z.leb_gt 0 max_id)). }
  rewrite (proj2 (Z.leb_le 0 max_id)) by done. set (mc := max_id / CHUNK_IDS).
  assert (0 <= mc < MAX_CID) as Hmc by (subst mc; set_consts; width).
  set (de := Z.to_nat (Z.min mc (DIRECT_CHUNKS - 1))).
  set (cs := if (length (chunks s) <=? de)%nat then _ else _).
  destruct Hwf as (Hl & HF & Hb & Ho).
  assert ((de + 1 <= length cs)%nat /\ Z.of_nat (length cs) <= DIRECT_CHUNKS /\
          forall j, mjoin (cs !! j) = mjoin (chunks s !! j)) as (Hi & Hlen & Hsub).
  { subst cs. destruct (Nat.leb_spec (length (chunks s)) de).
    - rewrite length_grow. split_and!; [lia|set_consts; lia|apply grow_lookup].
    - split_and!; [lia|done|done]. }
  destruct (pre_slots_spec (de + 1) cs) as (cs' & He & Hlen' & Hcs); [|done|].
  { subst cs. destruct (_ <=? _)%nat; [|done]. apply Forall_app_2; [done|]. by apply Forall_replicate. }
  destruct (pre_overflow_spec (seqZ DIRECT_CHUNKS (mc + 1 - DIRECT_CHUNKS)) (overflow s))
    as (m' & He' & Hm' & HF' & Hk); [apply NoDup_seqZ|done|done|apply Forall_seqZ; lia|].
  rewrite He. obind. rewrite He'. obind. eexists. split; [done|].
  assert (forall i, pre_effect (i <? de + 1)%nat (mjoin (chunks s !! i)) (mjoin (cs' !! i))) as Hdir.
  { intros i. destruct (decide (i < length cs)%nat) as [Hlt|Hge].
    - rewrite <- Hsub. by apply Hcs.
    - rewrite (proj2 (Nat.ltb_ge i (de + 1))) by lia. simpl. rewrite <- Hsub.
      rewrite !(proj2 (lookup_ge_None _ i)) by lia. done. }
  split; [split_and!; simpl; [lia| |done..]|].
  - apply Forall_lookup. intros i o Hio. specialize (Hdir i). rewrite Hio in Hdir. simpl in Hdir.
    apply (pre_effect_slot _ _ _ Hdir). destruct (chunks s !! i) as [[c|]|] eqn:Hc; [|done..].
    by apply (Forall_lookup_1 _ _ _ _ HF Hc).
  - intros k Hk0. rewrite !lookup_chunk_alt. simpl. destruct (Z.ltb_spec k DIRECT_CHUNKS).
    + specialize (Hdir (Z.to_nat k)).
      replace (k <=? mc) with (Z.to_nat k <? de + 1)%nat; [done|].
      apply Bool.eq_iff_eq_true. rewrite Nat.ltb_lt, Z.leb_le. subst de. lia.
    + specialize (Hk k). replace (k <=? mc) with (bool_decide (k ∈ seqZ DIRECT_CHUNKS (mc + 1 - DIRECT_CHUNKS))); [done|].
      apply Bool.eq_iff_eq_true. rewrite bool_decide_eq_true, elem_of_seqZ, Z.leb_le. lia.
Qed.

(** ** Merging *)

Section MergeSpec.
Variable unite : Chunk -> Chunk -> option Chunk.
Variable take_over : Chunk -> Chunk.
Hypothesis unite_spec : forall c d,
  wf_chunk c -> wf_chunk d -> exists c', unite c d = Some c' /\ unites c d c'.
Hypothesis take_over_id : forall c, take_over c = c.

Let slot_wf (o : option Chunk) : Prop := match o with Some c => wf_chunk c | None => True end.
Let slot_mem (o : option Chunk) (x : Z) : bool := match o with Some c => mem c x | None => false end.

(** The merged place holds the members of both. *)
Let joins (d s r : option Chunk) : Prop :=
  slot_wf r /\ forall x, 0 <= x -> slot_mem r x = slot_mem d x || slot_mem s x.

Lemma merge_slot_spec d s :
  slot_wf d -> slot_wf s -> exists r, merge_slot unite take_over d s = Some r /\ joins d s r.
Proof.
  intros Hd Hs. destruct s as [s|]; [destruct d as [d|]|]; simpl.
  - destruct (unite_spec d s Hd Hs) as (c & He & Hw & Hm). rewrite He. obind. by exists (Some c).
  - rewrite take_over_id. by exists (Some s).
  - exists d. split; [done|]. split; [done|]. intros x _. by rewrite orb_false_r.
Qed.

Lemma merge_slots_spec dst src :
  Forall slot_wf dst -> Forall slot_wf src -> (length src <= length dst)%nat ->
  exists r, merge_slots unite take_over dst src = Some r /\ length r = length dst /\
    Forall slot_wf r /\
    forall i, joins (mjoin (dst !! i)) (mjoin (src !! i)) (mjoin (r !! i)).
Proof.
  intros Hd. revert src. induction Hd as [|d dst Hd0 Hd IH]; intros src Hs Hlen.
  { destruct src as [|s src]; [|simpl in Hlen; lia]. by exists []. }
  destruct Hs as [|s src Hs0 Hs].
  { exists (d :: dst). split_and!; [done|done|by constructor|]. intros i. split.
    - destruct ((d :: dst) !! i) as [[c|]|] eqn:Hi; [|done..].
      by apply (Forall_lookup_1 slot_wf (d :: dst) i (Some c) (Forall_cons_2 _ _ _ Hd0 Hd)).
    - intros x _. simpl. by rewrite orb_false_r. }
  destruct (merge_slot_spec d s Hd0 Hs0) as (r0 & He & Hj).
  destruct (IH src Hs ltac:(simpl in Hlen; lia)) as (r & He' & Hl & HF & Hjs).
  exists (r0 :: r). cbn [merge_slots]. rewrite He. obind. rewrite He'. obind.
  split_and!; [done|simpl; lia|constructor; [apply Hj|done]|]. intros [|i]; [done|apply Hjs].
Qed.

Let entry_ok (e : Z * Chunk) : Prop := DIRECT_CHUNKS <= e.1 < MAX_CID /\ wf_chunk e.2.

Lemma merge_overflow_spec src dst :
  bt_wf dst -> Forall entry_ok dst -> bt_wf src -> Forall entry_ok src ->
  exists r, merge_overflow unite take_over dst src = Some r /\ bt_wf r /\ Forall entry_ok r /\
    forall k, joins (bt_get k dst) (bt_get k src) (bt_get k r).
Proof.
  revert dst. induction src as [|[cid s] src IH]; intros dst Hd HFd Hs HFs.
  { exists dst. split_and!; [done..|]. intros k. split.
    - destruct (bt_get k dst) as [c|] eqn:Hg; [|done]. apply bt_get_elem in Hg.
      rewrite Forall_forall in HFd. apply (HFd _ Hg).
    - intros x _. simpl. by rewrite orb_false_r. }
  apply StronglySorted_inv in Hs as [Hs Hlt]. apply Forall_cons in HFs as [[Hcid Hsw] HFs].
  destruct (merge_slot_spec (bt_get cid dst) (Some s)) as (r0 & He & Hj); [|done|].
  { destruct (bt_get cid dst) as [c|] eqn:Hg; [|done]. apply bt_get_elem in Hg.
    rewrite Forall_forall in HFd. apply (HFd _ Hg). }
  assert (exists c, r0 = Some c /\
    match bt_get cid dst with Some d => unite d s | None => Some (take_over s) end = Some c) as (c & -> & Hc).
  { simpl in He. destruct (bt_get cid dst) as [d|]; [|injection He as <-; eauto].
    destruct (unite d s) as [c|]; [|done]. injection He as <-. eauto. }
  destruct (IH (bt_insert cid c dst)) as (r & He' & Hr & HFr & Hjs).
  { by apply bt_insert_wf. } { apply bt_insert_Forall; [split; [done|apply Hj]|done]. } { done. } { done. }
  exists r. cbn [merge_overflow]. rewrite Hc. obind. split_and!; [done..|].
  intros k. specialize (Hjs k). rewrite bt_get_insert in Hjs by done. simpl.
  destruct (Z.eqb_spec k cid) as [Heq|Hne]; [subst k|done].
  assert (bt_get cid src = None) as Hnone.
  { apply bt_get_None. rewrite Forall_forall in Hlt. intros Hin. specialize (Hlt _ Hin).
    revert Hlt. apply Z.lt_irrefl. }
  rewrite Hnone in Hjs. destruct Hjs as [Hw Hm]. split; [done|]. intros x Hx.
  rewrite Hm by done. simpl. rewrite orb_false_r. by apply Hj.
Qed.

Lemma merge_with_spec a b :
  wf a -> wf b ->
  exists s, merge_with unite take_over a b = Some s /\ wf s /\
    forall id, in_set s id = in_set a id || in_set b id.
Proof.
  intros (Hla & HFa & Hba & Hoa) (Hlb & HFb & Hbb & Hob). unfold merge_with.
  set (cs := if (length (chunks a) <? length (chunks b))%nat then _ else _).
  assert ((length (chunks b) <= length cs)%nat /\ Z.of_nat (length cs) <= DIRECT_CHUNKS /\
          Forall slot_wf cs /\ forall j, mjoin (cs !! j) = mjoin (chunks a !! j)) as (Hi & Hlen & HF & Hsub).
  { subst cs. destruct (Nat.ltb_spec (length (chunks a)) (length (chunks b))).
    - rewrite length_grow. split_and!; [lia|lia| |apply grow_lookup].
      apply Forall_app_2; [done|]. by apply Forall_replicate.
    - split_and!; [lia|done..]. }
  destruct (merge_slots_spec cs (chunks b) HF HFb Hi) as (cs' & He & Hl & HF' & Hj).
  destruct (merge_overflow_spec (overflow b) (overflow a) Hba Hoa Hbb Hob) as (m' & He' & Hm & HFm & Hjm).
  rewrite He. obind. rewrite He'. obind. eexists. split; [done|].
  split; [split_and!; simpl; [lia|done..]|]. intros id.
  destruct (Z.lt_ge_cases id 0) as [Hneg|Hnn]; [by rewrite !in_set_neg|].
  destruct (id_split id Hnn) as (Heq & Hc & Ho). rewrite Heq, !in_set_split by done.
  rewrite !lookup_chunk_alt. simpl. destruct (_ <? DIRECT_CHUNKS).
  - specialize (Hj (Z.to_nat (id / CHUNK_IDS))). rewrite Hsub in Hj. apply Hj, Ho.
  - apply Hjm, Ho.
Qed.
End MergeSpec.

Lemma merge_from_spec a b :
  wf a -> wf b ->
  exists s, merge_from a b = Some s /\ wf s /\ forall id, in_set s id = in_set a id || in_set b id.
Proof. apply merge_with_spec; [apply union_ref_spec|apply clone_chunk_id]. Qed.

Lemma merge_spec a b :
  wf a -> wf b ->
  exists s, merge a b = Some s /\ wf s /\ forall id, in_set s id = in_set a id || in_set b id.
Proof. apply merge_with_spec; [apply union_owned_spec|done]. Qed.

(** ** Iteration *)

Definition entries (s : IdSet) : list (Z * Chunk) := direct_entries 0 (chunks s) ++ overflow s.

Definition entry_ids (e : Z * Chunk) : list Z := (fun o => e.1 * CHUNK_IDS + o) <$> members e.2.

(** The members, listed chunk by chunk. *)
Definition ids (s : IdSet) : list Z := concat (entry_ids <$> entries s).

Definition entry_wf_cid (e : Z * Chunk) : Prop := 0 <= e.1 < MAX_CID /\ wf_chunk e.2.

Lemma elem_of_direct_entries l i k c :
  (k, c) ∈ direct_entries i l <-> exists j, k = i + Z.of_nat j /\ l !! j = Some (Some c).
Proof.
  revert i. induction l as [|[d|] l IH]; intros i; simpl.
  - split; [by intros ?%not_elem_of_nil|]. by intros (j & _ & ?).
  - rewrite elem_of_cons, IH. split.
    + intros [[= -> ->]|(j & -> & Hj)]; [exists 0%nat; split; [lia|done]|exists (S j); split; [lia|done]].
    + intros ([|j] & -> & Hj); [left; simpl in Hj; simplify_eq; f_equal; lia|right; exists j; split; [lia|done]].
  - rewrite IH. split.
    + intros (j & -> & Hj). exists (S j). split; [lia|done].
    + intros ([|j] & -> & Hj); [done|]. exists j. split; [lia|done].
Qed.

Lemma direct_entries_sorted l i : StronglySorted Z.lt (direct_entries i l).*1.
Proof.
  revert i. induction l as [|[d|] l IH]; intros i; simpl; [constructor| |done].
  constructor; [done|]. apply Forall_forall. intros k ([k' c] & -> & Hk)%list_elem_of_fmap.
  apply elem_of_direct_entries in Hk as (j & -> & _). simpl. lia.
Qed.

Lemma elem_of_entries s k c :
  wf s -> (k, c) ∈ entries s <-> 0 <= k /\ lookup_chunk s k = Some c.
Proof.
  intros (Hl & _ & Hb & Ho). unfold entries. rewrite elem_of_app, elem_of_direct_entries, lookup_chunk_alt.
  rewrite Forall_forall in Ho. split.
  - intros [(j & -> & Hj)|Hin].
    + pose proof (lookup_lt_Some _ _ _ Hj). split; [lia|].
      rewrite (proj2 (Z.ltb_lt _ _)) by lia. rewrite Z.add_0_l, Nat2Z.id, Hj. done.
    + destruct (Ho _ Hin) as [Hk _]. simpl in Hk. split; [set_consts; lia|].
      rewrite (proj2 (Z.ltb_ge _ _)) by lia. by apply bt_get_Some.
  - intros [Hk Hlk]. destruct (Z.ltb_spec k DIRECT_CHUNKS).
    + left. exists (Z.to_nat k). split; [lia|].
      by destruct (chunks s !! Z.to_nat k) as [[d|]|]; simplify_eq/=.
    + right. by apply bt_get_Some.
Qed.

Lemma StronglySorted_app_lt (l k : list Z) :
  StronglySorted Z.lt l -> StronglySorted Z.lt k -> (forall x y, x ∈ l -> y ∈ k -> x < y) ->
  StronglySorted Z.lt (l ++ k).
Proof.
  induction 1 as [|x l Hl IH Hx]; intros Hk Hlk; simpl; [done|]. constructor.
  - apply IH; [done|]. intros. apply Hlk; [set_solver|done].
  - apply Forall_app_2; [done|]. apply Forall_forall. intros y Hy. apply Hlk; [set_solver|done].
Qed.

Lemma entries_sorted s : wf s -> StronglySorted Z.lt (entries s).*1.
Proof.
  intros (Hl & _ & Hb & Ho). unfold entries. rewrite fmap_app. apply StronglySorted_app_lt.
  - apply direct_entries_sorted.
  - done.
  - intros x y ([k c] & -> & Hk)%list_elem_of_fmap ([k' c'] & -> & Hk')%list_elem_of_fmap.
    apply elem_of_direct_entries in Hk as (j & -> & Hj). apply lookup_lt_Some in Hj.
    rewrite Forall_forall in Ho. destruct (Ho _ Hk') as [Hkk _]. simpl in *. lia.
Qed.

Lemma entries_wf s : wf s -> Forall entry_wf_cid (entries s).
Proof.
  intros Hwf. apply Forall_forall. intros [k c] Hin. pose proof Hin as [Hk Hlk]%elem_of_entries; [|done].
  split; [|by eapply wf_lookup]. simpl. split; [done|].
  destruct Hwf as (Hl & _ & _ & Ho). rewrite lookup_chunk_alt in Hlk.
  destruct (Z.ltb_spec k DIRECT_CHUNKS); [set_consts; lia|].
  apply bt_get_elem in Hlk. rewrite Forall_forall in Ho. apply (Ho _ Hlk).
Qed.

Lemma elem_of_entry_ids k c id :
  id ∈ entry_ids (k, c) <-> exists o, id = k * CHUNK_IDS + o /\ offset_ok o /\ mem c o = true.
Proof.
  unfold entry_ids. rewrite list_elem_of_fmap. simpl. unfold members.
  setoid_rewrite elem_of_members_below. unfold offset_ok. naive_solver.
Qed.

Lemma entry_ids_sorted e : StronglySorted Z.lt (entry_ids e).
Proof.
  unfold entry_ids. pose proof (members_below_sorted (mem e.2) CHUNK_IDS) as Hs. fold (members e.2) in Hs.
  induction Hs as [|x l Hs IH Hx]; simpl; [constructor|]. constructor; [done|].
  apply Forall_fmap. eapply Forall_impl; [exact Hx|]. intros y Hy. simpl. lia.
Qed.

Lemma concat_entry_ids_sorted es :
  StronglySorted Z.lt es.*1 -> StronglySorted Z.lt (concat (entry_ids <$> es)).
Proof.
  induction es as [|e es IH]; simpl; intros Hs; [constructor|].
  apply StronglySorted_inv in Hs as [Hs Hx]. apply StronglySorted_app_lt.
  - apply entry_ids_sorted.
  - by apply IH.
  - intros x y Hxin Hyin. destruct e as [k c]. apply elem_of_entry_ids in Hxin as (o & -> & Ho & _).
    apply list_elem_of_In, in_concat in Hyin as (l & Hl & Hy). apply list_elem_of_In in Hl, Hy.
    apply list_elem_of_fmap in Hl as ([k' c'] & -> & He').
    apply elem_of_entry_ids in Hy as (o' & -> & Ho' & _). rewrite Forall_forall in Hx.
    assert (k < k'); [|set_consts; lia]. apply Hx. apply list_elem_of_fmap. by exists (k', c').
Qed.

Lemma elem_of_concat_entry_ids es id :
  id ∈ concat (entry_ids <$> es) <-> exists e, e ∈ es /\ id ∈ entry_ids e.
Proof.
  rewrite list_elem_of_In, in_concat. setoid_rewrite <- list_elem_of_In. split.
  - intros (l & (e & -> & He)%list_elem_of_fmap & Hid). eauto.
  - intros (e & He & Hid). exists (entry_ids e). split; [|done]. apply list_elem_of_fmap. eauto.
Qed.

Lemma ids_sorted s : wf s -> StronglySorted Z.lt (ids s).
Proof. intros. by apply concat_entry_ids_sorted, entries_sorted. Qed.

Lemma elem_of_ids s id : wf s -> id ∈ ids s <-> in_set s id = true.
Proof.
  intros Hwf. unfold ids. rewrite elem_of_concat_entry_ids. split.
  - intros ([k c] & Hin & Hid). apply elem_of_entries in Hin as [Hk Hlk]; [|done].
    apply elem_of_entry_ids in Hid as (o & -> & Ho & Hm). by rewrite in_set_split, Hlk by done.
  - intros Hin. destruct (Z.lt_ge_cases id 0) as [|Hnn]; [by rewrite in_set_neg in Hin|].
    destruct (id_split id Hnn) as (Heq & Hc & Ho). rewrite Heq, in_set_split in Hin by done.
    destruct (lookup_chunk s (id / CHUNK_IDS)) as [c|] eqn:Hlk; [|done].
    exists (id / CHUNK_IDS, c). split; [by apply elem_of_entries|]. apply elem_of_entry_ids. eauto.
Qed.

Lemma chunk_ids_spec e : entry_wf_cid e -> chunk_ids e = entry_ids e.
Proof.
  intros [Hk Hwf]. unfold chunk_ids, entry_ids. rewrite offsets_list_spec by done.
  apply list_fmap_ext. intros i o Ho. apply list_elem_of_lookup_2 in Ho.
  unfold members in Ho. apply elem_of_members_below in Ho as [Ho _]. unfold ID_SHIFT. rewrite Z.shiftl_mul_pow2 by lia.
  change (2 ^ 25) with 33554432. set_consts. rewrite as_u_id by width. apply as_s_id; [lia|width].
Qed.

Lemma concat_chunk_ids es :
  Forall entry_wf_cid es -> concat (chunk_ids <$> es) = concat (entry_ids <$> es).
Proof. induction 1 as [|e es He _ IH]; [done|]. cbn [fmap list_fmap concat]. f_equal; [by apply chunk_ids_spec|exact IH]. Qed.

Lemma iter_ids s : wf s -> iter s = ids s.
Proof. intros Hwf. apply concat_chunk_ids, entries_wf, Hwf. Qed.

Lemma sub_entries s first k c :
  wf s -> 0 <= first ->
  (k, c) ∈ direct_entries (Z.of_nat (Z.to_nat first)) (drop (Z.to_nat first) (chunks s)) ++
           bt_range_from (Z.max first DIRECT_CHUNKS) (overflow s)
  <-> (k, c) ∈ entries s /\ first <= k.
Proof.
  intros (Hl & _ & _ & Ho) Hf. unfold entries, bt_range_from.
  rewrite !elem_of_app, list_elem_of_filter, !elem_of_direct_entries. simpl.
  rewrite Forall_forall in Ho. split.
  - intros [(j & -> & Hj)|[Hk Hin]].
    + rewrite lookup_drop in Hj. split; [|lia]. left. eexists. split; [|done]. lia.
    + split; [by right|lia].
  - intros [[(j & -> & Hj)|Hin] Hk].
    + left. exists (j - Z.to_nat first)%nat. rewrite lookup_drop. split; [lia|].
      by replace (Z.to_nat first + (j - Z.to_nat first))%nat with j by lia.
    + right. destruct (Ho _ Hin) as [Hr _]. simpl in Hr. split; [lia|done].
Qed.

Lemma StronglySorted_filter_keys (P : Z * Chunk -> Prop) `{!forall e, Decision (P e)} m :
  bt_wf m -> bt_wf (filter P m).
Proof.
  unfold bt_wf. induction m as [|[k c] m IH]; [done|].
  intros Hs. cbn [fmap list_fmap fst] in Hs. apply StronglySorted_inv in Hs as [Hs Hx].
  rewrite filter_cons. destruct (decide _); [|auto].
  cbn [fmap list_fmap fst]. constructor; [auto|]. rewrite Forall_forall in *.
  intros y ([k' c'] & -> & [_ Hin]%list_elem_of_filter)%list_elem_of_fmap. apply Hx.
  apply list_elem_of_fmap. by exists (k', c').
Qed.

Lemma iter_from_ids s start :
  wf s -> is_i64 start -> iter_from s start = filter (fun id => start <= id) (ids s).
Proof.
  intros Hwf Hst. unfold iter_from. set (first := Z.shiftr _ _).
  assert (first = Z.max start 0 / CHUNK_IDS) as Hfirst.
  { subst first. unfold ID_SHIFT. by rewrite Z.shiftr_div_pow2 by lia. }
  assert (0 <= first) as Hf by (rewrite Hfirst; set_consts; dlia).
  set (es := direct_entries _ _ ++ _).
  assert (forall k c, (k, c) ∈ es <-> (k, c) ∈ entries s /\ first <= k) as Hes.
  { intros k c. by apply sub_entries. }
  rewrite concat_chunk_ids.
  2: { apply Forall_forall. intros [k c] [Hin _]%Hes. pose proof (entries_wf s Hwf) as HF.
       rewrite Forall_forall in HF. by apply HF. }
  apply sorted_ext.
  - apply StronglySorted_filter_lt, concat_entry_ids_sorted. unfold es. rewrite fmap_app.
    destruct Hwf as (Hl & _ & Hb & Ho).
    apply StronglySorted_app_lt; [apply direct_entries_sorted|by apply StronglySorted_filter_keys|].
    intros x y ([k c] & -> & Hk)%list_elem_of_fmap ([k' c'] & -> & [Hk' _]%list_elem_of_filter)%list_elem_of_fmap.
    apply elem_of_direct_entries in Hk as (j & -> & Hj). rewrite lookup_drop in Hj.
    apply lookup_lt_Some in Hj. cbn [fst] in *. lia.
  - by apply StronglySorted_filter_lt, ids_sorted.
  - intros id. rewrite !list_elem_of_filter. unfold ids. rewrite !elem_of_concat_entry_ids.
    split; intros (Hge & [k c] & Hin & Hid); (split; [done|]); exists (k, c); (split; [|done]).
    + by apply Hes in Hin as [Hin _].
    + apply Hes. split; [done|]. apply elem_of_entry_ids in Hid as (o & -> & Ho & _).
      apply elem_of_entries in Hin as [Hk _]; [|done]. rewrite Hfirst. set_consts. dlia.
Qed.

(** ** Range queries *)

Section AnySpec.
Variables (clip_of : Z -> Z * Z).
Let clip_ok (cid : Z) : Prop := 0 <= (clip_of cid).1 <= (clip_of cid).2 /\ offset_ok (clip_of cid).2.
Let hit (cid : Z) (c : Chunk) : Prop :=
  exists o, (clip_of cid).1 <= o <= (clip_of cid).2 /\ mem c o = true.

Lemma any_overflow_spec m :
  Forall (fun e => clip_ok e.1 /\ wf_chunk e.2) m ->
  exists b, any_overflow clip_of m = Some b /\ (b = true <-> exists e, e ∈ m /\ hit e.1 e.2).
Proof.
  induction 1 as [|[cid c] m [Hcl Hc] _ (b & He & Hb)].
  { exists false. split; [done|]. split; [done|]. by intros (e & ?%not_elem_of_nil & _). }
  simpl in Hcl, Hc. destruct (any_in_spec c _ _ Hc (proj1 Hcl) (proj2 Hcl)) as (b0 & He0 & Hb0).
  cbn [any_overflow]. rewrite He0. obind. destruct b0.
  - exists true. split; [done|]. split; [|done]. intros _. exists (cid, c).
    split; [set_solver|]. by apply Hb0.
  - exists b. split; [done|]. rewrite Hb. split; intros (e & Hin & Hh); exists e.
    + split; [set_solver|done].
    + apply elem_of_cons in Hin as [->|Hin]; [|done]. by apply Hb0 in Hh.
Qed.

Lemma any_direct_spec cs cids :
  Forall (fun o => match o with Some c => wf_chunk c | None => True end) cs ->
  Forall (fun cid => clip_ok cid /\ 0 <= cid < Z.of_nat (length cs)) cids ->
  exists b, any_direct clip_of cs cids = Some b /\
    (b = true <-> exists cid c, cid ∈ cids /\ mjoin (cs !! Z.to_nat cid) = Some c /\ hit cid c).
Proof.
  intros HF. induction 1 as [|cid cids [Hcl Hr] _ (b & He & Hb)].
  { exists false. split; [done|]. split; [done|]. by intros (e & c & ?%not_elem_of_nil & _). }
  cbn [any_direct]. destruct (lookup_lt_is_Some_2 cs (Z.to_nat cid)) as [slot Hslot]; [lia|].
  rewrite Hslot. obind. destruct slot as [c|].
  2: { exists b. split; [done|]. rewrite Hb. split; intros (k & d & Hin & Hd & Hh); exists k, d.
       - split_and!; [set_solver|done..].
       - apply elem_of_cons in Hin as [->|Hin]; [|done]. by rewrite Hslot in Hd. }
  pose proof (Forall_lookup_1 _ _ _ _ HF Hslot) as Hc. simpl in Hc.
  destruct (any_in_spec c _ _ Hc (proj1 Hcl) (proj2 Hcl)) as (b0 & He0 & Hb0). rewrite He0. obind.
  destruct b0.
  - exists true. split; [done|]. split; [|done]. intros _. exists cid, c. rewrite Hslot.
    split_and!; [set_solver|done|by apply Hb0].
  - exists b. split; [done|]. rewrite Hb. split; intros (k & d & Hin & Hd & Hh); exists k, d.
    + split_and!; [set_solver|done..].
    + apply elem_of_cons in Hin as [->|Hin]; [|done]. rewrite Hslot in Hd. injection Hd as <-.
      by apply Hb0 in Hh.
Qed.
End AnySpec.

(** [clip] turns an id range into one offset range per chunk. *)
Lemma clip_range lc lo hc ho cid o :
  offset_ok lo -> offset_ok ho -> offset_ok o ->
  lc * CHUNK_IDS + lo <= cid * CHUNK_IDS + o <= hc * CHUNK_IDS + ho <->
  lc <= cid <= hc /\ (clip lc lo hc ho cid).1 <= o <= (clip lc lo hc ho cid).2.
Proof.
  intros. unfold clip. change (as_u32 OFFSET_MASK) with 33554431. simpl. set_consts.
  destruct (Z.eqb_spec cid lc), (Z.eqb_spec cid hc); subst; lia.
Qed.

Lemma clip_in lc lo hc ho cid :
  offset_ok lo -> offset_ok ho -> lc * CHUNK_IDS + lo <= hc * CHUNK_IDS + ho -> lc <= cid <= hc ->
  0 <= (clip lc lo hc ho cid).1 <= (clip lc lo hc ho cid).2 /\ offset_ok (clip lc lo hc ho cid).2.
Proof.
  intros. unfold clip. change (as_u32 OFFSET_MASK) with 33554431. simpl. set_consts.
  destruct (Z.eqb_spec cid lc), (Z.eqb_spec cid hc); subst; lia.
Qed.

(** Some chunk of [lc..hc] has a member in its clipped range. *)
Lemma range_hit s lc lo hc ho :
  wf s -> 0 <= lc -> offset_ok lo -> offset_ok ho ->
  (exists cid c, lc <= cid <= hc /\ lookup_chunk s cid = Some c /\
     exists o, (clip lc lo hc ho cid).1 <= o <= (clip lc lo hc ho cid).2 /\ mem c o = true) <->
  exists id, lc * CHUNK_IDS + lo <= id <= hc * CHUNK_IDS + ho /\ in_set s id = true.
Proof.
  intros Hwf Hlc Hlo Hho. split.
  - intros (cid & c & Hcid & Hlk & o & Ho & Hm).
    assert (0 <= o) as Hnn.
    { revert Ho. unfold clip. simpl. destruct (cid =? lc); set_consts; lia. }
    pose proof (mem_ok c o (wf_lookup _ _ _ Hwf Hlk) Hnn Hm) as Hok.
    exists (cid * CHUNK_IDS + o). split; [by apply clip_range|].
    rewrite in_set_split by (done || lia). by rewrite Hlk.
  - intros (id & Hr & Hin). assert (0 <= id) as Hnn by (set_consts; lia).
    destruct (id_split id Hnn) as (Heq & Hc & Ho). rewrite Heq in Hr, Hin.
    apply clip_range in Hr as [Hcid Hro]; [|done..]. rewrite in_set_split in Hin by done.
    destruct (lookup_chunk s (id / CHUNK_IDS)) as [c|] eqn:Hlk; [|done]. eauto 10.
Qed.

Section RangeParts.
Context (s : IdSet) (lc lo hc ho : Z).
Hypotheses (Hwf : wf s) (Hlc : 0 <= lc) (Hlo : offset_ok lo) (Hho : offset_ok ho)
  (Hle : lc * CHUNK_IDS + lo <= hc * CHUNK_IDS + ho).

Let hit_in (part : Z -> Prop) : Prop :=
  exists cid c, (lc <= cid <= hc /\ part cid) /\ lookup_chunk s cid = Some c /\
    exists o, (clip lc lo hc ho cid).1 <= o <= (clip lc lo hc ho cid).2 /\ mem c o = true.

Lemma range_direct :
  exists b,
    (if (lc <? DIRECT_CHUNKS) && negb (length (chunks s) =? 0)%nat then
       any_direct (clip lc lo hc ho) (chunks s)
         (seqZ lc (Z.min hc (Z.of_nat (length (chunks s)) - 1) + 1 - lc))
     else Some false) = Some b /\
    (b = true <-> hit_in (fun cid => cid < DIRECT_CHUNKS)).
Proof.
  pose proof Hwf as (Hl & HF & _).
  destruct (Z.ltb_spec lc DIRECT_CHUNKS), (Nat.eqb_spec (length (chunks s)) 0) as [Hz|Hz]; simpl.
  2: { destruct (any_direct_spec (clip lc lo hc ho) (chunks s)
         (seqZ lc (Z.min hc (Z.of_nat (length (chunks s)) - 1) + 1 - lc)) HF) as (b & He & Hbb).
       { apply Forall_seqZ. intros cid Hcid. split; [|lia]. apply clip_in; [done..|lia]. }
       exists b. split; [done|]. rewrite Hbb. split.
       - intros (cid & c & Hin%elem_of_seqZ & Hc & Hh). exists cid, c. split_and!; [lia..| |done].
         rewrite lookup_chunk_alt, (proj2 (Z.ltb_lt _ _)) by lia. done.
       - intros (cid & c & [Hcid Hd] & Hlk & Hh). exists cid, c.
         rewrite lookup_chunk_alt, (proj2 (Z.ltb_lt _ _)) in Hlk by lia.
         destruct (chunks s !! Z.to_nat cid) as [[c'|]|] eqn:Hcs; simplify_eq/=.
         apply lookup_lt_Some in Hcs. split_and!; [apply elem_of_seqZ; lia|done|done]. }
  all: exists false; split; [done|]; split; [done|]; intros (cid & c & [Hcid Hd] & Hlk & _); try lia.
  rewrite lookup_chunk_alt, (proj2 (Z.ltb_lt _ _)) in Hlk by lia.
  rewrite (proj2 (lookup_ge_None _ _)) in Hlk by lia. done.
Qed.

Lemma range_overflow :
  exists b,
    (if DIRECT_CHUNKS <=? hc then
       any_overflow (clip lc lo hc ho) (bt_range (Z.max lc DIRECT_CHUNKS) hc (overflow s))
     else Some false) = Some b /\
    (b = true <-> hit_in (fun cid => DIRECT_CHUNKS <= cid)).
Proof.
  pose proof Hwf as (_ & _ & Hb & Ho). rewrite Forall_forall in Ho.
  destruct (Z.leb_spec DIRECT_CHUNKS hc).
  - destruct (any_overflow_spec (clip lc lo hc ho) (bt_range (Z.max lc DIRECT_CHUNKS) hc (overflow s)))
      as (b & He & Hbb).
    { apply Forall_forall. intros [k c] [Hk Hin]%list_elem_of_filter. simpl in *.
      split; [|apply (Ho _ Hin)]. apply clip_in; [done..|lia]. }
    exists b. split; [done|]. rewrite Hbb. split.
    + intros ([k c] & [Hk Hin]%list_elem_of_filter & Hh). simpl in *. exists k, c.
      split_and!; [lia..| |done]. rewrite lookup_chunk_alt, (proj2 (Z.ltb_ge _ _)) by lia.
      by apply bt_get_Some.
    + intros (cid & c & [Hcid Hd] & Hlk & Hh).
      rewrite lookup_chunk_alt, (proj2 (Z.ltb_ge _ _)) in Hlk by lia.
      exists (cid, c). split; [|done]. apply list_elem_of_filter. simpl.
      split; [lia|]. by apply bt_get_Some.
  - exists false. split; [done|]. split; [done|]. intros (cid & c & [Hcid Hd] & _). lia.
Qed.
End RangeParts.

Lemma any_in_range_spec s min_id max_id :
  wf s -> is_i64 min_id -> is_i64 max_id ->
  exists b, any_in_range s min_id max_id = Some b /\
    (b = true <-> exists id, min_id <= id <= max_id /\ in_set s id = true).
Proof.
  intros Hwf Hmin Hmax. unfold any_in_range.
  destruct ((max_id <? min_id) || (max_id <? 0)) eqn:Hcond.
  { exists false. split; [done|]. split; [done|]. intros (id & Hr & Hin).
    apply orb_true_iff in Hcond as [?|?]; unbool; [lia|]. by rewrite in_set_neg in Hin by lia. }
  unbool. rewrite !split_spec by (done || width).
  destruct (Z.ltb_spec (Z.max min_id 0) 0); [lia|]. destruct (Z.ltb_spec max_id 0); [lia|].
  destruct (id_split (Z.max min_id 0)) as (Hml & Hlc & Hlo); [lia|].
  destruct (id_split max_id) as (Hmh & Hhc & Hho); [lia|].
  set (lc := Z.max min_id 0 / CHUNK_IDS) in *. set (lo := Z.max min_id 0 mod CHUNK_IDS) in *.
  set (hc := max_id / CHUNK_IDS) in *. set (ho := max_id mod CHUNK_IDS) in *.
  assert (lc * CHUNK_IDS + lo <= hc * CHUNK_IDS + ho) as Hle by lia.
  assert ((exists id, min_id <= id <= max_id /\ in_set s id = true) <->
          exists id, lc * CHUNK_IDS + lo <= id <= hc * CHUNK_IDS + ho /\ in_set s id = true) as Hiff.
  { split; intros (id & Hr & Hin); exists id; (split; [|done]); [|lia].
    destruct (Z.lt_ge_cases id 0); [by rewrite in_set_neg in Hin|]. lia. }
  rewrite <- range_hit in Hiff by done.
  destruct (range_direct s lc lo hc ho Hwf Hlc Hlo Hho Hle) as (b1 & He1 & Hb1).
  destruct (range_overflow s lc lo hc ho Hwf Hlo Hho Hle) as (b2 & He2 & Hb2).
  rewrite He1. obind. destruct b1.
  - exists true. split; [done|]. rewrite Hiff. split; [|done]. intros _.
    destruct (proj1 Hb1 eq_refl) as (cid & c & [? _] & ? & ?). eauto.
  - exists b2. split; [done|]. rewrite Hiff, Hb2. split.
    + intros (cid & c & [? _] & ? & ?). eauto.
    + intros (cid & c & Hcid & Hr). destruct (Z.lt_ge_cases cid DIRECT_CHUNKS); [|by exists cid, c].
      assert (false = true) as H'; [|done]. apply Hb1. by exists cid, c.
Qed.

(** ** Counting *)

Lemma all_chunks_entries s : all_chunks s = (entries s).*2.
Proof.
  unfold all_chunks, entries. rewrite fmap_app. f_equal. generalize 0 as i.
  induction (chunks s) as [|[c|] l IH]; intros i; [done|..]; simpl; [f_equal|]; apply IH.
Qed.

Lemma length_entry_ids e : length (entry_ids e) = length (members e.2).
Proof. apply length_fmap. Qed.

Lemma sum_counts es acc :
  Forall entry_wf_cid es ->
  foldl (fun acc c => acc + count c) acc es.*2 = acc + Z.of_nat (length (concat (entry_ids <$> es))).
Proof.
  intros HF. revert acc. induction HF as [|e es [_ He] _ IH]; intros acc;
    cbn [fmap list_fmap foldl concat length]; [lia|].
  rewrite count_spec by done. etransitivity; [apply IH|].
  rewrite length_app, length_entry_ids. cbn [fmap list_fmap]. lia.
Qed.

Lemma set_len_spec s : wf s -> set_len s = Z.of_nat (length (ids s)).
Proof.
  intros Hwf. unfold set_len. rewrite all_chunks_entries, sum_counts by (by apply entries_wf). done.
Qed.

Lemma is_empty_spec s : wf s -> is_empty s = true <-> ids s = [].
Proof.
  intros Hwf. unfold is_empty, ids. rewrite all_chunks_entries.
  induction (entries_wf s Hwf) as [|e es [_ He] _ IH]; [done|].
  cbn [fmap list_fmap forallb concat]. rewrite andb_true_iff.
  assert (entry_ids e = [] <-> next (offsets e.2) = None) as Hnil.
  { rewrite next_none by done. unfold entry_ids. split; [apply fmap_nil_inv|by intros ->]. }
  assert (forall l k : list Z, l ++ k = [] <-> l = [] /\ k = []) as Happ.
  { intros l k. split; [apply app_eq_nil|by intros [-> ->]]. }
  rewrite Happ, Hnil. destruct (next (offsets e.2)); simpl; [naive_solver|]. tauto.
Qed.
