(* ===== verification/IdSetRank.v ===== *)
(** * Ranked id sets (src/src/idset.rs)

    [into_ranked] freezes a set and builds prefix sums over its chunks; [rank]
    answers how many members lie strictly below an id from one prefix, one
    block prefix and at most eight words.  The theorems at the end state what
    the id set promises its clients: it behaves as a set of ids under every
    sequence of its mutators, its atomic setters commute, and its iteration,
    range and rank queries agree with that set. *)

From S2P Require Import Prelude StdSlice Count IdSetChunk IdSet.

Record RankIndex := mkRankIndex {
  chunk_prefix : list Z;
  block_prefix : list (option (list Z));
  ov_keys : list Z;
  ov_prefix : list Z;
  ov_block : list (option (list Z));
}.

Record RankedIdSet := mkRanked { ranked_set : IdSet; rank_index : RankIndex }.

(** The loop over [self.chunks]: prefixes, blocks and the running total. *)
Fixpoint rank_direct (cumulative : Z) (cs : list (option Chunk))
  : list Z * list (option (list Z)) * Z :=
  match cs with
  | [] => ([], [], cumulative)
  | slot :: cs =>
      let '(blocks, n) := match slot with
                          | Some c => rank_blocks c
                          | None => (None, 0)
                          end in
      let '(ps, bs, total) := rank_direct (cumulative + n) cs in
      (cumulative :: ps, blocks :: bs, total)
  end.

(** The loop over [self.overflow]. *)
Fixpoint rank_overflow (cumulative : Z) (m : BTreeMap Chunk)
  : list Z * list Z * list (option (list Z)) * Z :=
  match m with
  | [] => ([], [], [], cumulative)
  | (cid, c) :: m =>
      let '(blocks, n) := rank_blocks c in
      let '(ks, ps, bs, total) := rank_overflow (cumulative + n) m in
      (cid :: ks, cumulative :: ps, blocks :: bs, total)
  end.

Definition into_ranked (s : IdSet) : RankedIdSet :=
  let '(ps, bs, direct_total) := rank_direct 0 (chunks s) in
  let '(ks, ops, obs, total) := rank_overflow direct_total (overflow s) in
  mkRanked s (mkRankIndex (ps ++ [direct_total]) bs ks (ops ++ [total]) obs).

Definition total_count (r : RankedIdSet) : Z :=
  match last (ov_prefix (rank_index r)) with Some t => t | None => 0 end.

Definition ranked_get (r : RankedIdSet) (id : Z) : option bool := get (ranked_set r) id.

Definition rank_in_chunk (idx : RankIndex) (slot : Slot) (cid : Z) (c : Chunk) (off : Z) : option Z :=
  match slot with
  | Direct i =>
      p ← chunk_prefix idx !! i;
      b ← block_prefix idx !! i;
      r ← rank_within c off b;
      Some (p + r)
  | Overflow =>
      let i := partition_point (fun k => k <? cid) (ov_keys idx) in
      p ← ov_prefix idx !! i;
      b ← ov_block idx !! i;
      r ← rank_within c off b;
      Some (p + r)
  end.

Definition rank (r : RankedIdSet) (id : Z) : option Z :=
  if id <=? 0 then Some 0
  else
    let idx := rank_index r in
    match split id with
    | None => Some 0
    | Some (cid, off) =>
        let cs := chunks (ranked_set r) in
        if cid <? DIRECT_CHUNKS then
          let i := Z.to_nat cid in
          if (length cs <=? i)%nat then chunk_prefix idx !! length cs
          else
            slot ← cs !! i;
            match slot with
            | Some c => rank_in_chunk idx (Direct i) cid c off
            | None => chunk_prefix idx !! i
            end
        else
          let i := partition_point (fun k => k <? cid) (ov_keys idx) in
          p ← ov_prefix idx !! i;
          if bool_decide (ov_keys idx !! i = Some cid) then
            match bt_get cid (overflow (ranked_set r)) with
            | Some c => b ← ov_block idx !! i; w ← rank_within c off b; Some (p + w)
            | None => Some p
            end
          else Some p
    end.

(** The outer [None] is a panic, the inner one an id that is not set. *)
Definition rank_if_set (r : RankedIdSet) (id : Z) : option (option Z) :=
  match split id with
  | None => Some None
  | Some (cid, off) =>
      match chunk (ranked_set r) cid with
      | None => Some None
      | Some (slot, c) =>
          present ← contains c off;
          if negb present then Some None
          else k ← rank_in_chunk (rank_index r) slot cid c off; Some (Some k)
      end
  end.

(** ** The prefix sums *)

Definition slot_count (o : option Chunk) : Z :=
  match o with Some c => Z.of_nat (length (members c)) | None => 0 end.

Definition slot_blocks (o : option Chunk) : option (list Z) :=
  match o with Some c => fst (rank_blocks c) | None => None end.

Definition zsum (l : list Z) : Z := foldr Z.add 0 l.

Lemma zsum_app l k : zsum (l ++ k) = zsum l + zsum k.
Proof. induction l as [|x l IH]; simpl; [done|]. fold (zsum (l ++ k)). rewrite IH. unfold zsum. lia. Qed.

(** [prefixes acc l]: the running totals before each element. *)
Lemma rank_direct_spec acc cs :
  Forall (fun o => match o with Some c => wf_chunk c | None => True end) cs ->
  exists ps, rank_direct acc cs = (ps, slot_blocks <$> cs, acc + zsum (slot_count <$> cs)) /\
    length ps = length cs /\
    forall i, (i < length cs)%nat -> ps !! i = Some (acc + zsum (slot_count <$> take i cs)).
Proof.
  intros HF. revert acc. induction HF as [|o cs Ho _ IH]; intros acc.
  { exists []. split_and!; [simpl; f_equal; lia|done|]. simpl. lia. }
  assert (match o with Some c => rank_blocks c | None => (None, 0) end = (slot_blocks o, slot_count o)) as Hb.
  { destruct o as [c|]; [|done]. simpl. rewrite <- rank_blocks_count by done. by destruct (rank_blocks c). }
  destruct (IH (acc + slot_count o)) as (ps & He & Hl & Hps).
  exists (acc :: ps). cbn [rank_direct]. rewrite Hb, He. split_and!.
  - cbn [fmap list_fmap zsum foldr]. unfold zsum. f_equal. lia.
  - cbn [length]. lia.
  - intros [|i] Hi; cbn [length] in Hi.
    + cbn. f_equal. lia.
    + cbn [lookup list_lookup take fmap list_fmap]. etransitivity; [apply Hps; lia|].
      unfold zsum. cbn [fmap list_fmap foldr]. f_equal. lia.
Qed.

Lemma rank_overflow_spec acc m :
  Forall entry_wf_cid m ->
  exists ps, rank_overflow acc m =
      (m.*1, ps, (fun e => fst (rank_blocks e.2)) <$> m,
       acc + zsum ((fun e => slot_count (Some e.2)) <$> m)) /\
    length ps = length m /\
    forall i, (i < length m)%nat ->
      ps !! i = Some (acc + zsum ((fun e => slot_count (Some e.2)) <$> take i m)).
Proof.
  intros HF. revert acc. induction HF as [|[k c] m [_ Hc] _ IH]; intros acc.
  { exists []. split_and!; [simpl; f_equal; lia|done|]. simpl. lia. }
  simpl in Hc. destruct (IH (acc + slot_count (Some c))) as (ps & He & Hl & Hps).
  exists (acc :: ps). cbn [rank_overflow].
  assert (rank_blocks c = (fst (rank_blocks c), slot_count (Some c))) as Hb.
  { unfold slot_count. rewrite <- rank_blocks_count by done. by destruct (rank_blocks c). }
  rewrite Hb, He. split_and!.
  - cbn [fmap list_fmap zsum foldr fst snd]. unfold zsum. f_equal. lia.
  - cbn [length]. lia.
  - intros [|i] Hi; cbn [length] in Hi.
    + cbn. f_equal. lia.
    + cbn [lookup list_lookup take fmap list_fmap]. etransitivity; [apply Hps; lia|].
      unfold zsum. cbn [fmap list_fmap foldr snd]. f_equal. lia.
Qed.

(** ** Counting below an id *)

Definition below (es : list (Z * Chunk)) (id : Z) : Z :=
  Z.of_nat (length (filter (fun x => x < id) (concat (entry_ids <$> es)))).

Definition rank_of (c : Chunk) (off : Z) : Z :=
  Z.of_nat (length (filter (fun x => x < off) (members c))).

Lemma below_cons e es id :
  below (e :: es) id = Z.of_nat (length (filter (fun x => x < id) (entry_ids e))) + below es id.
Proof.
  unfold below. cbn [fmap list_fmap concat]. rewrite filter_app, length_app. cbn [fmap list_fmap]. lia.
Qed.

Lemma below_app es es' id : below (es ++ es') id = below es id + below es' id.
Proof.
  induction es as [|e es IH]; [done|]. cbn [app]. rewrite !below_cons, IH. lia.
Qed.

Lemma filter_fmap_add (l : list Z) base id :
  length (filter (fun x => x < id) ((fun o => base + o) <$> l)) =
  length (filter (fun o => o < id - base) l).
Proof.
  induction l as [|x l IH]; [done|]. cbn [fmap list_fmap]. rewrite !filter_cons.
  destruct (decide (base + x < id)), (decide (x < id - base)); try lia; cbn [length];
    cbn [fmap list_fmap] in IH; lia.
Qed.

(** What one chunk contributes below [cid * 2^25 + off]. *)
Lemma entry_below k c cid off :
  offset_ok off ->
  Z.of_nat (length (filter (fun x => x < cid * CHUNK_IDS + off) (entry_ids (k, c)))) =
    match k ?= cid with
    | Lt => slot_count (Some c)
    | Eq => rank_of c off
    | Gt => 0
    end.
Proof.
  intros Ho. unfold entry_ids. rewrite filter_fmap_add. cbn [fst snd].
  assert (Forall offset_ok (members c)) as HF.
  { apply Forall_forall. intros x Hx. unfold members in Hx. by apply elem_of_members_below in Hx as [? _]. }
  destruct (Z.compare_spec k cid) as [->|Hlt|Hgt].
  - unfold rank_of. do 2 f_equal. apply list_filter_iff. lia.
  - unfold slot_count. do 2 f_equal. apply filter_all. eapply Forall_impl; [exact HF|].
    intros x Hx. cbv beta in *. set_consts. lia.
  - rewrite filter_none; [done|]. eapply Forall_impl; [exact HF|].
    intros x Hx. cbv beta in *. set_consts. lia.
Qed.

Lemma below_before es cid off :
  offset_ok off -> Forall (fun e => e.1 < cid) es ->
  below es (cid * CHUNK_IDS + off) = zsum ((fun e => slot_count (Some e.2)) <$> es).
Proof.
  intros Ho. induction 1 as [|[k c] es Hk _ IH]; [done|].
  rewrite below_cons, entry_below, IH by done. simpl in Hk.
  rewrite (proj2 (Z.compare_lt_iff k cid)) by done. done.
Qed.

Lemma below_after es cid off :
  offset_ok off -> Forall (fun e => cid < e.1) es -> below es (cid * CHUNK_IDS + off) = 0.
Proof.
  intros Ho. induction 1 as [|[k c] es Hk _ IH]; [done|].
  rewrite below_cons, entry_below, IH by done. simpl in Hk.
  rewrite (proj2 (Z.compare_gt_iff k cid)) by done. done.
Qed.

Lemma direct_entries_from l i : Forall (fun e => i <= e.1) (direct_entries i l).
Proof.
  apply Forall_forall. intros [k c] (j & -> & _)%elem_of_direct_entries. simpl. lia.
Qed.

Lemma below_direct cs i j off :
  offset_ok off ->
  below (direct_entries i cs) ((i + Z.of_nat j) * CHUNK_IDS + off) =
    zsum (slot_count <$> take j cs) +
    match mjoin (cs !! j) with Some c => rank_of c off | None => 0 end.
Proof.
  intros Ho. revert i j. induction cs as [|o cs IH]; intros i j; [by destruct j|].
  destruct j as [|j].
  - rewrite Z.add_0_r. cbn [take fmap list_fmap lookup list_lookup mjoin option_join].
    assert (below (direct_entries (i + 1) cs) (i * CHUNK_IDS + off) = 0) as H0.
    { apply below_after; [done|]. eapply Forall_impl; [apply direct_entries_from|].
      intros e He. cbv beta in *. lia. }
    destruct o as [c|]; cbn [direct_entries]; [|by rewrite H0].
    rewrite below_cons, entry_below, H0, Z.compare_refl by done. unfold zsum. simpl. lia.
  - specialize (IH (i + 1) j). replace (i + Z.of_nat (S j)) with (i + 1 + Z.of_nat j) by lia.
    destruct o as [c|]; cbn [direct_entries take fmap list_fmap lookup list_lookup].
    + rewrite below_cons, entry_below by done.
      rewrite (proj2 (Z.compare_lt_iff _ _)) by lia. rewrite IH. unfold zsum. cbn [foldr fmap list_fmap].
      rewrite Z.add_assoc. done.
    + rewrite IH. unfold zsum. cbn [foldr fmap list_fmap slot_count]. done.
Qed.

(** The partition point of the sorted overflow keys splits the map. *)
Lemma overflow_split (m : BTreeMap Chunk) cid :
  bt_wf m ->
  let i := partition_point (fun k => k <? cid) m.*1 in
  (i <= length m)%nat /\ Forall (fun e => e.1 < cid) (take i m) /\
  match m !! i with
  | Some (k, c) => cid <= k /\ Forall (fun e => k < e.1) (drop (S i) m)
  | None => drop i m = []
  end.
Proof.
  intros Hwf. cbv zeta.
  destruct (partition_point_spec _ _ (partitioned_lt m.*1 cid Hwf)) as (Hi & Hlt & Hge).
  set (i := partition_point _ _) in *. rewrite length_fmap in Hi. split_and!; [done| |].
  - apply Forall_lookup. intros j e [He Hj]%lookup_take_Some.
    specialize (Hlt j e.1 Hj). rewrite list_lookup_fmap, He in Hlt. specialize (Hlt eq_refl).
    cbv beta in Hlt. unbool. done.
  - destruct (m !! i) as [[k c]|] eqn:Hm.
    + split.
      * specialize (Hge i k ltac:(lia)). rewrite list_lookup_fmap, Hm in Hge. specialize (Hge eq_refl).
        cbv beta in Hge. unbool. lia.
      * apply Forall_lookup. intros j e He. rewrite lookup_drop in He.
        apply (sorted_lookup_lt m.*1 i (S i + j)); [done|lia| |].
        -- by rewrite list_lookup_fmap, Hm.
        -- by rewrite list_lookup_fmap, He.
    + apply drop_ge. by apply lookup_ge_None.
Qed.

Lemma below_overflow (m : BTreeMap Chunk) cid off :
  bt_wf m -> offset_ok off ->
  let i := partition_point (fun k => k <? cid) m.*1 in
  below m (cid * CHUNK_IDS + off) =
    zsum ((fun e => slot_count (Some e.2)) <$> take i m) +
    match bt_get cid m with Some c => rank_of c off | None => 0 end /\
  (m.*1 !! i = Some cid <-> is_Some (bt_get cid m)) /\
  (forall c, bt_get cid m = Some c -> m !! i = Some (cid, c)).
Proof.
  intros Hwf Ho. cbv zeta. destruct (overflow_split m cid Hwf) as (Hi & Hlt & Hm).
  set (i := partition_point _ _) in *.
  assert (below m (cid * CHUNK_IDS + off) =
    zsum ((fun e => slot_count (Some e.2)) <$> take i m) + below (drop i m) (cid * CHUNK_IDS + off)) as Hsum.
  { rewrite <- (below_before _ cid off Ho Hlt), <- below_app. by rewrite take_drop. }
  assert (forall c, bt_get cid m = Some c -> m !! i = Some (cid, c)) as Hget.
  { intros c Hc%bt_get_elem. rewrite <- (take_drop i m), elem_of_app in Hc.
    rewrite Forall_forall in Hlt. destruct Hc as [Hc|Hc]; [specialize (Hlt _ Hc); simpl in Hlt; lia|].
    destruct (m !! i) as [[k d]|] eqn:Hmi; [|rewrite Hm in Hc; by apply not_elem_of_nil in Hc].
    rewrite (drop_S _ _ _ Hmi) in Hc. apply elem_of_cons in Hc as [->|Hc]; [done|].
    destruct Hm as [Hk HF]. rewrite Forall_forall in HF. specialize (HF _ Hc). simpl in HF. lia. }
  assert (m.*1 !! i = Some cid -> exists c, bt_get cid m = Some c) as Hkey.
  { rewrite list_lookup_fmap. destruct (m !! i) as [[k c]|] eqn:Hmi; [|done]. simpl. intros [= ->].
    exists c. apply bt_get_Some; [done|]. by eapply list_elem_of_lookup_2. }
  split_and!; [|split|done].
  - rewrite Hsum. f_equal. destruct (m !! i) as [[k c]|] eqn:Hmi.
    + destruct Hm as [Hk HF]. rewrite (drop_S _ _ _ Hmi), below_cons, entry_below by done.
      rewrite below_after by (first [done|eapply Forall_impl; [exact HF|intros e He; cbv beta in *; lia]]).
      destruct (Z.compare_spec k cid) as [Heq|?|Hgt]; [|lia|].
      * subst k. destruct Hkey as [d Hd]; [by rewrite list_lookup_fmap, Hmi|]. rewrite Hd.
        specialize (Hget _ Hd). injection Hget as <-. lia.
      * destruct (bt_get cid m) as [d|] eqn:Hd; [|done]. specialize (Hget _ eq_refl). injection Hget as -> _. lia.
    + rewrite Hm. destruct (bt_get cid m) as [d|] eqn:Hd; [|done]. specialize (Hget _ eq_refl). done.
  - intros H. destruct (Hkey H) as [c Hc]. by rewrite Hc.
  - intros [c Hc]. rewrite list_lookup_fmap, (Hget _ Hc). done.
Qed.

(** ** The index *)

Definition direct_total (s : IdSet) : Z := zsum (slot_count <$> chunks s).
Definition ov_sum (m : BTreeMap Chunk) : Z := zsum ((fun e => slot_count (Some e.2)) <$> m).

Lemma overflow_entries_wf s : wf s -> Forall entry_wf_cid (overflow s).
Proof.
  intros (_ & _ & _ & Ho). eapply Forall_impl; [exact Ho|]. intros e [Hk Hc].
  split; [set_consts; lia|done].
Qed.

Lemma prefix_snoc (ps : list Z) (f : nat -> Z) n i :
  length ps = n -> (forall j, (j < n)%nat -> ps !! j = Some (f j)) -> (i <= n)%nat ->
  (ps ++ [f n]) !! i = Some (f i).
Proof.
  intros Hl Hf Hi. destruct (decide (i = n)) as [->|].
  - by rewrite list_lookup_middle.
  - rewrite lookup_app_l by lia. apply Hf. lia.
Qed.

Lemma into_ranked_spec s :
  wf s ->
  let idx := rank_index (into_ranked s) in
  ranked_set (into_ranked s) = s /\
  (forall i, (i <= length (chunks s))%nat ->
     chunk_prefix idx !! i = Some (zsum (slot_count <$> take i (chunks s)))) /\
  block_prefix idx = slot_blocks <$> chunks s /\
  ov_keys idx = (overflow s).*1 /\
  (forall i, (i <= length (overflow s))%nat ->
     ov_prefix idx !! i = Some (direct_total s + ov_sum (take i (overflow s)))) /\
  ov_block idx = (fun e => fst (rank_blocks e.2)) <$> overflow s /\
  total_count (into_ranked s) = direct_total s + ov_sum (overflow s).
Proof.
  intros Hwf. unfold into_ranked, total_count.
  destruct (rank_direct_spec 0 (chunks s)) as (ps & -> & Hl & Hps); [apply Hwf|].
  destruct (rank_overflow_spec (0 + direct_total s) (overflow s)) as (ops & He & Hol & Hops);
    [by apply overflow_entries_wf|].
  fold (direct_total s). rewrite He. cbv zeta. cbn [rank_index ranked_set chunk_prefix block_prefix ov_keys ov_prefix ov_block].
  split_and!; try done.
  - intros i Hi.
    replace (0 + direct_total s) with (zsum (slot_count <$> take (length (chunks s)) (chunks s)))
      by (by rewrite firstn_all).
    apply (prefix_snoc ps (fun j => zsum (slot_count <$> take j (chunks s))) _ _ Hl); [|done].
    intros j Hj. rewrite Hps by done. done.
  - intros i Hi. fold (ov_sum (overflow s)).
    replace (0 + direct_total s + ov_sum (overflow s))
      with (direct_total s + ov_sum (take (length (overflow s)) (overflow s)))
      by (rewrite firstn_all; lia).
    apply (prefix_snoc ops (fun j => direct_total s + ov_sum (take j (overflow s))) _ _ Hol); [|done].
    intros j Hj. rewrite Hops by done. done.
  - rewrite last_snoc. unfold ov_sum. lia.
Qed.

Lemma below_total_direct s cid off :
  offset_ok off -> DIRECT_CHUNKS <= cid -> wf s ->
  below (direct_entries 0 (chunks s)) (cid * CHUNK_IDS + off) = direct_total s.
Proof.
  intros Ho Hcid Hwf. replace cid with (0 + Z.of_nat (Z.to_nat cid)) by (set_consts; lia).
  rewrite below_direct by done. destruct Hwf as (Hl & _).
  rewrite (proj2 (lookup_ge_None _ _)), take_ge by lia. unfold direct_total. simpl. lia.
Qed.

Lemma below_no_overflow s cid off :
  offset_ok off -> cid < DIRECT_CHUNKS -> wf s -> below (overflow s) (cid * CHUNK_IDS + off) = 0.
Proof.
  intros Ho Hcid (_ & _ & _ & HF). apply below_after; [done|]. eapply Forall_impl; [exact HF|].
  intros e [He _]. lia.
Qed.

Lemma slot_blocks_rank c off :
  wf_chunk c -> offset_ok off -> rank_within c off (slot_blocks (Some c)) = Some (rank_of c off).
Proof. apply rank_within_spec. Qed.

(** Both branches of [rank_in_chunk]. *)
Lemma rank_in_chunk_spec s slot cid c off :
  wf s -> 0 <= cid -> offset_ok off -> chunk s cid = Some (slot, c) ->
  rank_in_chunk (rank_index (into_ranked s)) slot cid c off =
    Some (below (entries s) (cid * CHUNK_IDS + off)).
Proof.
  intros Hwf Hcid Ho Hch. destruct (chunk_slot s cid slot c Hwf Hcid Hch) as [Hslot Hlk].
  destruct (into_ranked_spec s Hwf) as (_ & Hcp & Hbp & Hok & Hop & Hob & _).
  pose proof (wf_lookup _ _ _ Hwf Hlk) as Hc. rewrite lookup_chunk_alt in Hlk.
  unfold entries. rewrite below_app. destruct slot as [i|]; cbn [rank_in_chunk].
  - destruct Hslot as [-> Hi]. rewrite Nat2Z.id in Hlk. pose proof (proj1 Hwf) as Hlen.
    rewrite (proj2 (Z.ltb_lt _ _)) in Hlk by lia.
    destruct (chunks s !! i) as [[d|]|] eqn:Hd; simplify_eq/=.
    rewrite Hcp, Hbp, list_lookup_fmap, Hd by lia. obind. cbn [fmap option_fmap option_map].
    obind. rewrite slot_blocks_rank by done. obind. f_equal.
    rewrite below_no_overflow by (done || lia).
    change (Z.of_nat i) with (0 + Z.of_nat i). rewrite below_direct, Hd by done. simpl. lia.
  - rewrite (proj2 (Z.ltb_ge _ _)) in Hlk by lia. rewrite Hok.
    destruct (below_overflow (overflow s) cid off) as (Hb & _ & Hget); [apply Hwf|done|].
    specialize (Hget _ Hlk). set (i := partition_point _ _) in *.
    pose proof (lookup_lt_Some _ _ _ Hget) as Hi.
    rewrite Hop, Hob, list_lookup_fmap, Hget by lia. obind. cbn [fmap option_fmap option_map snd].
    obind. rewrite rank_within_spec by done. obind. f_equal.
    rewrite below_total_direct by (done || lia). rewrite Hb, Hlk. unfold ov_sum, rank_of. lia.
Qed.

Lemma rank_below s id :
  wf s -> is_i64 id -> rank (into_ranked s) id = Some (below (entries s) id).
Proof.
  intros Hwf Hid. unfold rank. destruct (Z.leb_spec id 0) as [Hle|Hgt].
  { unfold below. fold (ids s). rewrite filter_none; [done|]. apply Forall_forall.
    intros x Hx. apply elem_of_ids in Hx; [|done]. destruct (Z.lt_ge_cases x 0); [|lia].
    by rewrite in_set_neg in Hx. }
  destruct (split id) as [[cid off]|] eqn:Hsp.
  2: { rewrite split_spec in Hsp by done. by destruct (Z.ltb_spec id 0); [lia|]. }
  destruct (split_some _ _ _ Hid Hsp) as (Hnn & Hc & Ho & ->).
  destruct (into_ranked_spec s Hwf) as (Hset & Hcp & Hbp & Hok & Hop & Hob & _).
  rewrite Hset. destruct (Z.ltb_spec cid DIRECT_CHUNKS) as [Hd|Hd].
  - assert (below (entries s) (cid * CHUNK_IDS + off) =
            zsum (slot_count <$> take (Z.to_nat cid) (chunks s)) +
            match mjoin (chunks s !! Z.to_nat cid) with Some c => rank_of c off | None => 0 end) as Hb.
    { unfold entries. rewrite below_app, below_no_overflow by (done || lia).
      replace cid with (0 + Z.of_nat (Z.to_nat cid)) at 1 by lia. rewrite below_direct by done. lia. }
    destruct (Nat.leb_spec (length (chunks s)) (Z.to_nat cid)) as [Hlen|Hlen].
    { rewrite Hcp by lia. rewrite Hb, (proj2 (lookup_ge_None _ _)), !take_ge by lia. simpl.
      f_equal. lia. }
    destruct (lookup_lt_is_Some_2 _ _ Hlen) as [[c|] Hslot]; rewrite Hslot; obind.
    + apply rank_in_chunk_spec; [done|lia|done|]. unfold chunk.
      rewrite (proj2 (Z.ltb_lt _ _)), Hslot by done. done.
    + rewrite Hcp by lia. rewrite Hb, Hslot. simpl. f_equal. lia.
  - rewrite Hok. destruct (below_overflow (overflow s) cid off) as (Hb & Hkey & Hget); [apply Hwf|done|].
    destruct (overflow_split (overflow s) cid) as (Hi & _); [apply Hwf|].
    set (i := partition_point _ _) in *.
    assert (below (entries s) (cid * CHUNK_IDS + off) = direct_total s + ov_sum (take i (overflow s)) +
      match bt_get cid (overflow s) with Some c => rank_of c off | None => 0 end) as Hb'.
    { unfold entries. rewrite below_app, below_total_direct by (done || lia). rewrite Hb. unfold ov_sum. lia. }
    rewrite Hop by done. obind. rewrite Hb'. destruct (bt_get cid (overflow s)) as [c|] eqn:Hg.
    + rewrite bool_decide_eq_true_2 by (apply Hkey; eauto). rewrite Hob, list_lookup_fmap, (Hget _ eq_refl).
      cbn [fmap option_fmap option_map snd]. obind.
      rewrite rank_within_spec; [done| |done].
      apply (wf_lookup s cid); [done|]. rewrite lookup_chunk_alt, (proj2 (Z.ltb_ge _ _)) by done. done.
    + rewrite bool_decide_eq_false_2; [by rewrite Z.add_0_r|]. intros Hk%Hkey. by destruct Hk.
Qed.

Lemma total_count_spec s : wf s -> total_count (into_ranked s) = Z.of_nat (length (ids s)).
Proof.
  intros Hwf. destruct (into_ranked_spec s Hwf) as (_ & _ & _ & _ & _ & _ & ->).
  unfold ids, entries, direct_total, ov_sum. rewrite fmap_app, concat_app, length_app.
  assert (forall es, zsum ((fun e => slot_count (Some e.2)) <$> es) =
    Z.of_nat (length (concat (entry_ids <$> es)))) as Hes.
  { induction es as [|e es IH]; [done|]. cbn [fmap list_fmap concat]. rewrite length_app, length_entry_ids.
    cbn [zsum foldr]. unfold zsum in *. cbn [fmap list_fmap slot_count] in *. lia. }
  rewrite Hes. assert (forall i, zsum (slot_count <$> chunks s) =
    Z.of_nat (length (concat (entry_ids <$> direct_entries i (chunks s))))) as Hd.
  { induction (chunks s) as [|[c|] l IH]; intros i; [done|..]; cbn [direct_entries fmap list_fmap concat].
    - rewrite length_app, length_entry_ids. specialize (IH (i + 1)). cbn [fmap list_fmap] in *.
      unfold zsum in *. cbn [foldr slot_count snd]. lia.
    - specialize (IH (i + 1)). unfold zsum in *. cbn [foldr slot_count fmap list_fmap] in *. lia. }
  rewrite (Hd 0). lia.
Qed.

(** ** What the id set promises *)

(** Ways to build a set with its mutators. *)
Inductive Build :=
| BNew
| BSet (b : Build) (id : Z)
| BSetIfNew (b : Build) (id : Z)
| BPreAllocate (b : Build) (max_id : Z)
| BMergeFrom (b other : Build)
| BMerge (b other : Build).

Fixpoint build (b : Build) : option IdSet :=
  match b with
  | BNew => Some new
  | BSet b id => s ← build b; set s id
  | BSetIfNew b id => s ← build b; fst <$> set_if_new s id
  | BPreAllocate b max_id => s ← build b; pre_allocate s max_id
  | BMergeFrom b o => s ← build b; t ← build o; merge_from s t
  | BMerge b o => s ← build b; t ← build o; merge s t
  end.

(** The set of ids it stands for: negative ids are never stored. *)
Fixpoint meaning (b : Build) : gset Z :=
  match b with
  | BNew => ∅
  | BSet b id | BSetIfNew b id => if 0 <=? id then {[ id ]} ∪ meaning b else meaning b
  | BPreAllocate b _ => meaning b
  | BMergeFrom b o | BMerge b o => meaning b ∪ meaning o
  end.

Fixpoint args_i64 (b : Build) : Prop :=
  match b with
  | BNew => True
  | BSet b id | BSetIfNew b id | BPreAllocate b id => args_i64 b /\ is_i64 id
  | BMergeFrom b o | BMerge b o => args_i64 b /\ args_i64 o
  end.

Lemma wf_new : wf new.
Proof. split_and!; simpl; [done|constructor|constructor|constructor]. Qed.

Lemma in_set_new id : in_set new id = false.
Proof.
  unfold in_set. rewrite lookup_chunk_alt. simpl.
  destruct (_ <? DIRECT_CHUNKS); simpl; apply andb_false_r.
Qed.

(** Membership and the set it stands for. *)
Definition represents (s : IdSet) (m : gset Z) : Prop :=
  wf s /\ forall id, in_set s id = bool_decide (id ∈ m).

Lemma represents_add s m id s' :
  represents s m -> adds_id s id s' -> represents s' (if 0 <=? id then {[ id ]} ∪ m else m).
Proof.
  intros [Hwf Hm] [Hwf' Ha]. split; [done|]. intros j. rewrite Ha, Hm.
  apply Bool.eq_iff_eq_true. rewrite orb_true_iff, andb_true_iff, !bool_decide_eq_true, Z.eqb_eq, Z.leb_le.
  destruct (Z.leb_spec 0 id); set_solver by lia.
Qed.

Lemma represents_union s m t k u :
  represents s m -> represents t k -> wf u ->
  (forall id, in_set u id = in_set s id || in_set t id) -> represents u (m ∪ k).
Proof.
  intros [_ Hm] [_ Hk] Hu Hi. split; [done|]. intros id. rewrite Hi, Hm, Hk.
  apply Bool.eq_iff_eq_true. rewrite orb_true_iff, !bool_decide_eq_true. set_solver.
Qed.

Lemma pre_allocate_represents s m max_id :
  represents s m -> is_i64 max_id ->
  exists s', pre_allocate s max_id = Some s' /\ represents s' m /\
    forall id, 0 <= id <= max_id -> writable s' id = true.
Proof.
  intros [Hwf Hm] Hid. destruct (pre_allocate_spec s max_id Hwf Hid) as (s' & He & Hwf' & Hk).
  exists s'. split_and!; [done| |].
  - split; [done|]. intros id. rewrite <- Hm.
    destruct (Z.lt_ge_cases id 0) as [|Hnn]; [by rewrite !in_set_neg|].
    destruct (id_split id Hnn) as (Heq & Hc & Ho). rewrite Heq, !in_set_split by done.
    specialize (Hk (id / CHUNK_IDS) Hc). unfold pre_effect in Hk. destruct (_ && _).
    + destruct Hk as (ws & -> & _ & Hb). apply Hb, Ho.
    + by rewrite Hk.
  - intros id Hr. unfold writable. rewrite (proj2 (Z.leb_le 0 id)) by lia. simpl.
    specialize (Hk (id / CHUNK_IDS)). rewrite (proj2 (Z.leb_le 0 max_id)) in Hk by lia.
    rewrite (proj2 (Z.leb_le (id / CHUNK_IDS) _)) in Hk by (set_consts; dlia).
    destruct Hk as (ws & -> & _); [set_consts; dlia|]. done.
Qed.

Lemma build_represents b :
  args_i64 b -> exists s, build b = Some s /\ represents s (meaning b).
Proof.
  induction b as [|b IH id|b IH id|b IH id|b IH o IHo|b IH o IHo]; cbn [args_i64 build meaning]; intros H.
  - exists new. split; [done|]. split; [apply wf_new|]. intros id. rewrite in_set_new.
    symmetry. apply bool_decide_eq_false. set_solver.
  - destruct H as [Hb Hid]. destruct (IH Hb) as (s & He & Hr). rewrite He. obind.
    destruct (set_spec s id (proj1 Hr) Hid) as (s' & He' & Ha). exists s'. split; [done|].
    by eapply represents_add.
  - destruct H as [Hb Hid]. destruct (IH Hb) as (s & He & Hr). rewrite He. obind.
    destruct (set_if_new_spec s id (proj1 Hr) Hid) as (s' & He' & Ha). exists s'. rewrite He'.
    split; [done|]. by eapply represents_add.
  - destruct H as [Hb Hid]. destruct (IH Hb) as (s & He & Hr). rewrite He. obind.
    destruct (pre_allocate_represents s _ id Hr Hid) as (s' & He' & Hr' & _). eauto.
  - destruct H as [Hb Ho]. destruct (IH Hb) as (s & He & Hr), (IHo Ho) as (t & He2 & Hr2).
    rewrite He, He2. obind. destruct (merge_from_spec s t (proj1 Hr) (proj1 Hr2)) as (u & He3 & Hu & Hi).
    exists u. split; [done|]. by eapply represents_union.
  - destruct H as [Hb Ho]. destruct (IH Hb) as (s & He & Hr), (IHo Ho) as (t & He2 & Hr2).
    rewrite He, He2. obind. destruct (merge_spec s t (proj1 Hr) (proj1 Hr2)) as (u & He3 & Hu & Hi).
    exists u. split; [done|]. by eapply represents_union.
Qed.

(** C11. Under every sequence of [set], [set_if_new], [pre_allocate],
    [merge_from] and [merge] on [i64] arguments the id set never panics, stays
    well formed, and [get] answers membership in the mathematical set the
    sequence denotes; [set_if_new] then answers whether the id is new.  No
    representation detail (sorted array, bit array, promotion, overflow map)
    shows. *)
Theorem idset_refines_set (b : Build) (id : Z) :
  args_i64 b -> is_i64 id ->
  exists s, build b = Some s /\ wf s /\ get s id = Some (bool_decide (id ∈ meaning b)) /\
    exists s', set_if_new s id = Some (s', (0 <=? id) && bool_decide (id ∉ meaning b)).
Proof.
  intros Hb Hid. destruct (build_represents b Hb) as (s & He & Hwf & Hm).
  exists s. split_and!; [done..| |].
  - by rewrite get_spec, Hm.
  - destruct (set_if_new_spec s id Hwf Hid) as (s' & Hs & _). exists s'. rewrite Hs, Hm.
    by rewrite bool_decide_not.
Qed.

Lemma idset_refines_set_witness :
  exists s, build (BMerge (BSet (BSet BNew 7) 17592186044416) (BSetIfNew BNew 3)) = Some s /\ wf s /\
    get s 3 = Some true.
Proof.
  destruct (idset_refines_set (BMerge (BSet (BSet BNew 7) 17592186044416) (BSetIfNew BNew 3)) 3)
    as (s & He & Hwf & Hg & _).
  - cbn [args_i64]. unfold is_s. lia.
  - unfold is_s. lia.
  - exists s. split_and!; [done|done|]. rewrite Hg. reflexivity.
Defined.

(** A two-element set for the concrete instances below. *)
Definition small_set : IdSet := mkIdSet [Some (Sparse [2; 9])] [].

Lemma wf_small_set : wf small_set.
Proof.
  split_and!; cbn [chunks overflow length small_set].
  - unfold DIRECT_CHUNKS. lia.
  - constructor; [|constructor]. split_and!; [ssorted; lia| |unfold len, SPARSE_MAX; simpl; lia].
    chunk_consts. constructor; [lia|]. constructor; [lia|constructor].
  - constructor.
  - constructor.
Qed.

(** The iterator yields exactly the members, strictly ascending; and
    [iter_from] is the part of it at or above its argument. *)
Theorem idset_iter_exact (s : IdSet) (start : Z) :
  wf s -> is_i64 start ->
  StronglySorted Z.lt (iter s) /\
  (forall id, is_i64 id -> id ∈ iter s <-> get s id = Some true) /\
  iter_from s start = filter (fun id => start <= id) (iter s) /\
  set_len s = Z.of_nat (length (iter s)) /\
  (is_empty s = true <-> iter s = []).
Proof.
  intros Hwf Hst. rewrite iter_ids by done. split_and!.
  - by apply ids_sorted.
  - intros id Hid. rewrite elem_of_ids, get_spec by done. split; [by intros ->|by intros [=]].
  - by apply iter_from_ids.
  - by apply set_len_spec.
  - by apply is_empty_spec.
Qed.

Lemma idset_iter_exact_witness :
  iter_from small_set 5 = [9] /\ is_empty small_set = false.
Proof.
  destruct (idset_iter_exact small_set 5 wf_small_set) as (_ & _ & _ & Hlen & Hem); [unfold is_s; lia|].
  split; [reflexivity|]. destruct (is_empty small_set) eqn:He; [|done].
  pose proof (proj1 Hem eq_refl) as Hnil. rewrite Hnil in Hlen. done.
Defined.

(** The rank of any id is the number of members strictly below it,
    [rank_if_set] answers the same for a member and nothing otherwise, and
    [total_count] is the size: the two-level prefix index built by
    [into_ranked] agrees with counting. *)
Theorem rank_counts_members (s : IdSet) (id : Z) :
  wf s -> is_i64 id ->
  let k := Z.of_nat (length (filter (fun x => x < id) (iter s))) in
  rank (into_ranked s) id = Some k /\
  rank_if_set (into_ranked s) id = Some (if in_set s id then Some k else None) /\
  total_count (into_ranked s) = Z.of_nat (length (iter s)).
Proof.
  intros Hwf Hid. cbv zeta. rewrite iter_ids by done. split_and!.
  - by rewrite rank_below.
  - unfold rank_if_set. destruct (into_ranked_spec s Hwf) as (-> & _).
    destruct (split id) as [[cid off]|] eqn:Hsp.
    2: { rewrite split_spec in Hsp by done. destruct (Z.ltb_spec id 0); [|done]. by rewrite in_set_neg. }
    destruct (split_some _ _ _ Hid Hsp) as (Hnn & Hc & Ho & ->).
    rewrite in_set_split by (done || lia). unfold lookup_chunk.
    destruct (chunk s cid) as [[slot c]|] eqn:Hch; [|done].
    destruct (chunk_slot s cid slot c Hwf ltac:(lia) Hch) as [_ Hlk]. cbn [fmap option_fmap option_map snd].
    rewrite contains_spec by (done || by eapply wf_lookup). obind. destruct (mem c off); [|done].
    simpl negb. cbv iota. rewrite rank_in_chunk_spec by (done || lia). done.
  - by apply total_count_spec.
Qed.

Lemma rank_counts_members_witness :
  wf small_set /\ rank (into_ranked small_set) 9 = Some 1.
Proof.
  split; [exact wf_small_set|].
  destruct (rank_counts_members small_set 9 wf_small_set) as (H & _ & _); [unfold is_s; lia|].
  rewrite H. reflexivity.
Defined.

(** A range query answers exactly whether some member lies in the closed
    range, negative bounds included: the per-chunk clipping loses and adds
    nothing. *)
Theorem any_in_range_exact (s : IdSet) (min_id max_id : Z) :
  wf s -> is_i64 min_id -> is_i64 max_id ->
  any_in_range s min_id max_id =
    Some (bool_decide (Exists (fun id => min_id <= id <= max_id) (iter s))).
Proof.
  intros Hwf Hmin Hmax. destruct (any_in_range_spec s min_id max_id Hwf Hmin Hmax) as (b & He & Hb).
  rewrite He. f_equal. apply Bool.eq_iff_eq_true. rewrite bool_decide_eq_true, Hb, Exists_exists, iter_ids by done.
  split; intros (id & H1 & H2); exists id; [rewrite elem_of_ids by done|rewrite elem_of_ids in H1 by done]; done.
Qed.

Lemma any_in_range_exact_witness :
  any_in_range small_set (-4) 1 = Some (bool_decide (Exists (fun id => -4 <= id <= 1) (iter small_set))).
Proof. apply any_in_range_exact; [exact wf_small_set|unfold is_s; lia|unfold is_s; lia]. Defined.

(** ** Concurrent population *)

(** The [fetch_or]s of all threads in the order they take effect. *)
Fixpoint set_atomic_all (s : IdSet) (l : list Z) : option IdSet :=
  match l with
  | [] => Some s
  | id :: l => s' ← set_atomic s id; set_atomic_all s' l
  end.

(** The same for the reporting setter, with each call's answer. *)
Fixpoint if_new_all (s : IdSet) (l : list Z) : option (IdSet * list bool) :=
  match l with
  | [] => Some (s, [])
  | id :: l =>
      '(s', b) ← set_atomic_if_new s id;
      '(s'', bs) ← if_new_all s' l;
      Some (s'', b :: bs)
  end.

(** How many calls for [id] answered "new". *)
Fixpoint times_new (id : Z) (l : list Z) (bs : list bool) : Z :=
  match l, bs with
  | x :: l, b :: bs => (if (x =? id) && b then 1 else 0) + times_new id l bs
  | _, _ => 0
  end.

Definition covered (s : IdSet) (l : list Z) : Prop :=
  Forall (fun id => is_i64 id /\ writable s id = true) l.

Lemma covered_step s s' l : (forall j, writable s' j = writable s j) -> covered s l -> covered s' l.
Proof.
  intros Hw Hc. eapply Forall_impl; [exact Hc|]. intros id [? ?]. by rewrite Hw.
Qed.

Lemma writable_nonneg s id : writable s id = true -> 0 <= id.
Proof. unfold writable. intros H. unbool. done. Qed.

Lemma set_atomic_all_spec s l :
  wf s -> covered s l ->
  exists s', set_atomic_all s l = Some s' /\ wf s' /\
    forall j, in_set s' j = bool_decide (j ∈ l) || in_set s j.
Proof.
  intros Hwf Hc. revert s Hwf Hc. induction l as [|id l IH]; intros s Hwf Hc.
  { exists s. split_and!; [done..|]. intros j. by rewrite bool_decide_eq_false_2 by set_solver. }
  apply Forall_cons in Hc as [[Hid Hw] Hc].
  destruct (set_atomic_spec s id Hwf Hid Hw) as (s1 & He & [Hwf1 Ha] & Hsame).
  destruct (IH s1 Hwf1 (covered_step _ _ _ Hsame Hc)) as (s2 & He2 & Hwf2 & Hm).
  exists s2. simpl. rewrite He. obind. split_and!; [done..|]. intros j. rewrite Hm, Ha.
  rewrite (proj2 (Z.leb_le 0 id)), andb_true_r by (by eapply writable_nonneg).
  rewrite orb_assoc. f_equal. apply Bool.eq_iff_eq_true.
  rewrite orb_true_iff, !bool_decide_eq_true, Z.eqb_eq. set_solver.
Qed.

Lemma if_new_all_spec s l :
  wf s -> covered s l ->
  exists s' bs, if_new_all s l = Some (s', bs) /\ length bs = length l /\
    forall id, times_new id l bs = if bool_decide (id ∈ l) && negb (in_set s id) then 1 else 0.
Proof.
  intros Hwf Hc. revert s Hwf Hc. induction l as [|x l IH]; intros s Hwf Hc.
  { exists s, []. split_and!; [done..|]. intros id. by rewrite bool_decide_eq_false_2 by set_solver. }
  apply Forall_cons in Hc as [[Hid Hw] Hc].
  pose proof (dense_for_atomic_spec s x Hwf Hid) as H.
  cbn [if_new_all]. unfold set_atomic_if_new.
  destruct (dense_for_atomic s x) as [found|]; [|congruence].
  destruct H as (_ & s1 & prev & He & [Hwf1 Ha] & Hz & Hsame). obind. rewrite He. obind. rewrite Hz.
  destruct (IH s1 Hwf1 (covered_step _ _ _ Hsame Hc)) as (s2 & bs & He2 & Hl & Ht).
  rewrite He2. obind. do 2 eexists. split_and!; [done|simpl; lia|]. intros id. cbn [times_new].
  rewrite Ht, Ha, (proj2 (Z.leb_le 0 x)), andb_true_r by (by eapply writable_nonneg).
  destruct (Z.eqb_spec x id) as [->|Hne].
  - rewrite Z.eqb_refl, andb_false_r, (bool_decide_eq_true_2 (id ∈ id :: l)) by set_solver.
    simpl. by destruct (in_set s id).
  - rewrite (proj2 (Z.eqb_neq id x)) by done. simpl.
    assert (bool_decide (id ∈ x :: l) = bool_decide (id ∈ l)) as ->; [|done].
    apply bool_decide_ext. set_solver.
Qed.

(** After [pre_allocate(max_id)] any number of threads may insert ids of
    [0..=max_id] with the atomic setters: whatever the order their writes take
    effect in, no call panics, no insertion is lost, and the result does not
    depend on the order; with the reporting setter each id that was absent is
    reported new exactly once. *)
Theorem atomic_population_order_free (s : IdSet) (max_id : Z) (threads : list (list Z)) (order : list Z) :
  wf s -> is_i64 max_id ->
  Forall (fun id => 0 <= id <= max_id) (concat threads) -> order ≡ₚ concat threads ->
  exists s0 s', pre_allocate s max_id = Some s0 /\ set_atomic_all s0 order = Some s' /\ wf s' /\
    (forall id, is_i64 id ->
       get s' id = Some (bool_decide (id ∈ concat threads) || bool_decide (id ∈ iter s))) /\
    exists s'' bs, if_new_all s0 order = Some (s'', bs) /\
      forall id, times_new id order bs =
        if bool_decide (id ∈ concat threads) && bool_decide (id ∉ iter s) then 1 else 0.
Proof.
  intros Hwf Hmax HF Hperm.
  assert (represents s (list_to_set (iter s))) as Hr.
  { split; [done|]. intros id. apply Bool.eq_iff_eq_true.
    rewrite bool_decide_eq_true, elem_of_list_to_set, iter_ids, elem_of_ids by done. done. }
  destruct (pre_allocate_represents s _ max_id Hr Hmax) as (s0 & He0 & [Hwf0 Hm0] & Hw).
  assert (covered s0 order) as Hcov.
  { unfold covered. rewrite Hperm. eapply Forall_impl; [exact HF|]. intros id Hid. cbv beta in Hid.
    split; [width|by apply Hw]. }
  destruct (set_atomic_all_spec s0 order Hwf0 Hcov) as (s' & He' & Hwf' & Hm').
  destruct (if_new_all_spec s0 order Hwf0 Hcov) as (s'' & bs & He'' & _ & Ht).
  assert (forall id, bool_decide (id ∈ order) = bool_decide (id ∈ concat threads)) as Hord.
  { intros id. apply bool_decide_ext. by rewrite Hperm. }
  exists s0, s'. split_and!; [done..| |].
  - intros id Hid. rewrite get_spec, Hm', Hm0, Hord by done. do 2 f_equal.
    apply bool_decide_ext, elem_of_list_to_set.
  - exists s'', bs. split; [done|]. intros id. rewrite Ht, Hm0, Hord, <- bool_decide_not.
    assert (bool_decide (id ∉ (list_to_set (iter s) : gset Z)) = bool_decide (id ∉ iter s)) as ->; [|done].
    apply bool_decide_ext. by rewrite elem_of_list_to_set.
Qed.

Lemma atomic_population_order_free_witness :
  exists s0 s', pre_allocate small_set 40 = Some s0 /\ set_atomic_all s0 [7; 30; 7; 0] = Some s' /\
    get s' 30 = Some true.
Proof.
  destruct (atomic_population_order_free small_set 40 [[30; 7]; [7; 0]] [7; 30; 7; 0])
    as (s0 & s' & H0 & H1 & _ & Hg & _).
  - exact wf_small_set.
  - unfold is_s. lia.
  - cbn [concat app]. repeat (apply Forall_cons_2; [lia|]). apply Forall_nil_2.
  - cbn [concat app]. apply perm_swap.
  - exists s0, s'. split_and!; [done..|]. rewrite Hg by (unfold is_s; lia). reflexivity.
Defined.
