(* ===== verification/Proto.v ===== *)
(** * The protobuf primitives the readers and writers are built on

    The crate [protohoggr] (wire-format cursor, varints, packed iterators) is
    not part of the repository.  Its operations are the fields of the class
    [Protohoggr], a cursor being the bytes it has not consumed; what the code
    relies on is the class [ProtohoggrLaws], which states the protobuf wire
    format.  [RefProto] is a byte-level implementation that satisfies every
    law, used by the concrete instances. *)

From S2P Require Import Prelude.

Definition WIRE_VARINT : Z := 0.
Definition WIRE_LEN : Z := 2.

Definition blen (b : bytes) : Z := Z.of_nat (length b).

Lemma blen_app (a b : bytes) : blen (a ++ b) = blen a + blen b.
Proof. unfold blen. rewrite length_app. lia. Qed.

Lemma blen_nonneg (a : bytes) : 0 <= blen a.
Proof. unfold blen. lia. Qed.

(** Slices are shorter than [isize::MAX]. *)
Definition fits (b : bytes) : Prop := blen b < 2 ^ 63.

Class Protohoggr := {
  proto_error : Type;
  encode_varint : Z -> bytes;
  encode_tag : Z -> Z -> bytes;
  encode_bytes_field : Z -> bytes -> bytes;
  encode_bytes_field_always : Z -> bytes -> bytes;
  encode_int64_field : Z -> Z -> bytes;
  encode_int32_field : Z -> Z -> bytes;
  zigzag_encode_64 : Z -> Z;
  zigzag_decode_64 : Z -> Z;
  read_tag : bytes -> result proto_error (option (Z * Z) * bytes);
  read_varint : bytes -> result proto_error (Z * bytes);
  read_varint_i64 : bytes -> result proto_error (Z * bytes);
  read_varint_u32 : bytes -> result proto_error (Z * bytes);
  read_sint64 : bytes -> result proto_error (Z * bytes);
  read_len_delimited : bytes -> result proto_error (bytes * bytes);
  read_raw_field : Z -> bytes -> result proto_error (bytes * bytes);
  skip_field : Z -> bytes -> result proto_error bytes;
  packed_sint64 : bytes -> list Z;
  packed_uint32 : bytes -> list Z;
  packed_int32 : bytes -> list Z;
  zigzag_encode_32 : Z -> Z;
  zigzag_decode_32 : Z -> Z;
  packed_sint32 : bytes -> list Z;
  packed_bool : bytes -> list bool;
  encode_packed_sint64 : Z -> list Z -> bytes;
  encode_packed_int32 : Z -> list Z -> bytes;
  encode_packed_sint32 : Z -> list Z -> bytes;
  encode_packed_bool : Z -> list bool -> bytes;
  encode_int64_field_always : Z -> Z -> bytes;
  encode_sint64_field_always : Z -> Z -> bytes;
}.

(** A varint's own bytes: continuation bytes, then one below 128. *)
Definition terminated (b : bytes) : Prop :=
  exists init last, b = init ++ [last] /\ Forall (fun x => 128 <= x < 256) init /\ 0 <= last < 128.

(** The wire format's varint at the head of [c]: seven bits a byte, least
    significant first, ended by a byte below 128; [more] bytes may follow
    the current one, and the last of them holds the top bit of 64. *)
Fixpoint varint_of (more : nat) (c : bytes) : option (Z * bytes) :=
  match c with
  | [] => None
  | b :: c =>
      match more with
      | O => if b <=? 1 then Some (b, c) else None
      | S more =>
          if b <? 128 then Some (b, c)
          else '(v, c') ← varint_of more c; Some (b - 128 + 128 * v, c')
      end
  end.

(** A packed iterator: repeated [read_varint], each value narrowed; an error
    ends it. *)
Definition drains `{Protohoggr} {A} (it : bytes -> list A) (narrow : Z -> A) : Prop :=
  forall c, it c = match read_varint c with Ok (v, c') => narrow v :: it c' | Err _ => [] end.

Class ProtohoggrLaws (P : Protohoggr) := {
  encode_varint_small v : 0 <= v < 128 -> encode_varint v = [v];
  encode_varint_len v : is_u64 v -> blen (encode_varint v) = Z.log2 (Z.lor v 1) / 7 + 1;
  encode_varint_bytes v : is_u64 v -> Forall is_byte (encode_varint v);
  encode_tag_spec f w : encode_tag f w = encode_varint (f * 8 + w);
  encode_bytes_field_always_spec f d :
    encode_bytes_field_always f d = encode_tag f WIRE_LEN ++ encode_varint (blen d) ++ d;
  encode_bytes_field_spec f d :
    encode_bytes_field f d = match d with [] => [] | _ => encode_bytes_field_always f d end;
  encode_int64_field_spec f v :
    encode_int64_field f v = if v =? 0 then [] else encode_tag f WIRE_VARINT ++ encode_varint (as_u64 v);
  encode_int32_field_spec f v :
    encode_int32_field f v = if v =? 0 then [] else encode_tag f WIRE_VARINT ++ encode_varint (as_u64 v);
  zigzag_range z : is_i64 z -> is_u64 (zigzag_encode_64 z);
  zigzag_roundtrip z : is_i64 z -> zigzag_decode_64 (zigzag_encode_64 z) = z;
  zigzag_decode_range v : is_u64 v -> is_i64 (zigzag_decode_64 v);
  read_tag_nil : read_tag [] = Ok (None, []);
  read_tag_encode f w r :
    1 <= f < 2 ^ 29 -> 0 <= w <= 5 -> read_tag (encode_tag f w ++ r) = Ok (Some (f, w), r);
  read_tag_moves c t c' : read_tag c = Ok (Some t, c') -> c' `suffix_of` c /\ (length c' < length c)%nat;
  read_varint_encode v r : is_u64 v -> read_varint (encode_varint v ++ r) = Ok (v, r);
  read_varint_wire c v c' : varint_of 9 c = Some (v, c') -> read_varint c = Ok (v, c');
  read_varint_refused c : varint_of 9 c = None -> exists e, read_varint c = Err e;
  skip_varint c v c' : read_varint c = Ok (v, c') -> skip_field WIRE_VARINT c = Ok c';
  skip_len c :
    skip_field WIRE_LEN c = match read_len_delimited c with Ok (_, c') => Ok c' | Err e => Err e end;
  read_varint_i64_spec c :
    read_varint_i64 c = match read_varint c with Ok (v, c') => Ok (as_i64 v, c') | Err e => Err e end;
  read_sint64_spec c :
    read_sint64 c = match read_varint c with Ok (v, c') => Ok (zigzag_decode_64 v, c') | Err e => Err e end;
  read_len_delimited_encode d r :
    fits d -> read_len_delimited (encode_varint (blen d) ++ d ++ r) = Ok (d, r);
  read_len_delimited_split c d c' : read_len_delimited c = Ok (d, c') -> exists h, c = h ++ d ++ c';
  read_raw_field_split w c d c' : read_raw_field w c = Ok (d, c') -> c = d ++ c';
  skip_field_moves w c c' : skip_field w c = Ok c' -> c' `suffix_of` c;
  zigzag_range_32 z : is_i32 z -> is_u32 (zigzag_encode_32 z);
  zigzag_roundtrip_32 z : is_i32 z -> zigzag_decode_32 (zigzag_encode_32 z) = z;
  packed_sint64_drains : drains packed_sint64 zigzag_decode_64;
  packed_uint32_drains : drains packed_uint32 (as_u 32);
  packed_int32_drains : drains packed_int32 (as_s 32);
  packed_sint32_drains : drains packed_sint32 (fun v => zigzag_decode_32 (as_u 32 v));
  packed_bool_drains : drains packed_bool (fun v => negb (v =? 0));
  (** A packed field is the concatenation of its varints, written unless empty. *)
  encode_packed_sint64_spec f l :
    encode_packed_sint64 f l = encode_bytes_field f (concat ((fun z => encode_varint (zigzag_encode_64 z)) <$> l));
  encode_packed_int32_spec f l :
    encode_packed_int32 f l = encode_bytes_field f (concat ((fun z => encode_varint (as_u64 z)) <$> l));
  encode_packed_sint32_spec f l :
    encode_packed_sint32 f l = encode_bytes_field f (concat ((fun z => encode_varint (zigzag_encode_32 z)) <$> l));
  encode_packed_bool_spec f l : encode_packed_bool f l = encode_bytes_field f (Z.b2z <$> l);
  (** A varint above [u32::MAX] is refused, not narrowed. *)
  read_varint_u32_spec c :
    match read_varint c with
    | Ok (v, c') => if v <=? u32_max then read_varint_u32 c = Ok (v, c') else exists e, read_varint_u32 c = Err e
    | Err _ => exists e, read_varint_u32 c = Err e
    end;
  encode_int64_field_always_spec f v :
    encode_int64_field_always f v = encode_tag f WIRE_VARINT ++ encode_varint (as_u64 v);
  encode_sint64_field_always_spec f v :
    encode_sint64_field_always f v = encode_tag f WIRE_VARINT ++ encode_varint (zigzag_encode_64 v);
}.

Section Derived.
Context `{L : ProtohoggrLaws}.

Lemma encode_varint_pos v : is_u64 v -> (0 < length (encode_varint v))%nat.
Proof.
  intros Hv. pose proof (encode_varint_len v Hv) as H. unfold blen in H.
  pose proof (Z.log2_nonneg (Z.lor v 1)). dlia.
Qed.

(** A one-byte tag. *)
Lemma read_tag_byte t r : 8 <= t < 128 -> t mod 8 <= 5 -> read_tag (t :: r) = Ok (Some (t / 8, t mod 8), r).
Proof.
  intros Ht Hw. pose proof (read_tag_encode (t / 8) (t mod 8) r) as H.
  rewrite encode_tag_spec, encode_varint_small in H by dlia.
  replace (t / 8 * 8 + t mod 8) with t in H by dlia. apply H; dlia.
Qed.

Lemma tag_byte f w : 0 <= f < 16 -> 0 <= w < 8 -> encode_tag f w = [f * 8 + w].
Proof. intros. rewrite encode_tag_spec. apply encode_varint_small. lia. Qed.

Lemma read_sint64_encode z r :
  is_i64 z -> read_sint64 (encode_varint (zigzag_encode_64 z) ++ r) = Ok (z, r).
Proof.
  intros Hz. rewrite read_sint64_spec, read_varint_encode by (by apply zigzag_range).
  by rewrite zigzag_roundtrip.
Qed.

Lemma read_varint_i64_encode z r :
  is_i64 z -> read_varint_i64 (encode_varint (as_u64 z) ++ r) = Ok (z, r).
Proof.
  intros Hz. rewrite read_varint_i64_spec, read_varint_encode by (apply as_u_range; lia).
  rewrite as_s_as_u by lia. by rewrite as_s_id by (done || lia).
Qed.

Lemma varint_of_moves more c v c' : varint_of more c = Some (v, c') -> exists b h, c = b :: h ++ c'.
Proof.
  revert c v c'. induction more as [|more IH]; intros [|b c] v c'; cbn [varint_of]; try done.
  - destruct (b <=? 1); [|done]. intros [= <- <-]. by exists b, [].
  - destruct (b <? 128); [intros [= <- <-]; by exists b, []|].
    destruct (varint_of more c) as [[w c1]|] eqn:Hv; obind; [|done]. intros [= <- <-].
    apply IH in Hv as (b' & h & ->). by exists b, (b' :: h).
Qed.

(** [read_varint] is the wire format's varint. *)
Lemma read_varint_ok c v c' : read_varint c = Ok (v, c') <-> varint_of 9 c = Some (v, c').
Proof.
  split; [|apply read_varint_wire]. intros Hr. destruct (varint_of 9 c) as [[w c1]|] eqn:Hv.
  - apply read_varint_wire in Hv. congruence.
  - apply read_varint_refused in Hv as [e He]. congruence.
Qed.

Lemma read_varint_moves c v c' : read_varint c = Ok (v, c') -> c' `suffix_of` c.
Proof. intros (b & h & ->)%read_varint_ok%varint_of_moves. by exists (b :: h). Qed.

Lemma read_varint_consumes c v c' : read_varint c = Ok (v, c') -> (length c' < length c)%nat.
Proof. intros (b & h & ->)%read_varint_ok%varint_of_moves. simpl. rewrite length_app. lia. Qed.

Lemma varint_of_short init last more :
  Forall (fun x => 128 <= x < 256) init -> 0 <= last < 128 -> (length init < more)%nat ->
  exists v, 0 <= v < 128 ^ Z.of_nat more /\ forall r, varint_of more (init ++ [last] ++ r) = Some (v, r).
Proof.
  intros Hi Hl. revert more. induction Hi as [|b init Hb _ IH]; intros [|more] Hf; simpl in Hf; try lia.
  - exists last. rewrite Nat2Z.inj_succ, Z.pow_succ_r by lia.
    pose proof (Z.pow_pos_nonneg 128 (Z.of_nat more)). split; [nia|].
    intros r'. simpl. by rewrite (proj2 (Z.ltb_lt last 128)) by lia.
  - destruct (IH more ltac:(lia)) as (v & Hr & Hv). exists (b - 128 + 128 * v).
    rewrite Nat2Z.inj_succ, Z.pow_succ_r by lia. split; [lia|].
    intros r'. cbn [app varint_of]. rewrite (proj2 (Z.ltb_ge b 128)) by lia.
    cbn [app] in Hv. by rewrite Hv.
Qed.

Lemma read_varint_short b :
  terminated b -> (length b <= 9)%nat ->
  exists v, is_u64 v /\ forall r, read_varint (b ++ r) = Ok (v, r).
Proof.
  intros (init & l & -> & Hi & Hl) Hlen. rewrite length_app in Hlen. simpl in Hlen.
  destruct (varint_of_short init l 9 Hi Hl ltac:(lia)) as (v & Hr & Hv). exists v. split.
  - unfold is_u. change (128 ^ Z.of_nat 9) with (2 ^ 63) in Hr. split; [lia|].
    apply Z.lt_trans with (2 ^ 63); [lia|]. by apply Z.pow_lt_mono_r.
  - intros r. rewrite <- app_assoc. by apply read_varint_wire.
Qed.

(** A packed iterator reads back what its values' varints say. *)
Lemma drains_encode {A} (it : bytes -> list A) narrow (enc : A -> Z) l :
  drains it narrow -> Forall (fun x => is_u64 (enc x) /\ narrow (enc x) = x) l ->
  it (concat ((fun x => encode_varint (enc x)) <$> l)) = l.
Proof.
  intros Hit HF. induction HF as [|x l [Hu Hx] _ IH]; cbn [fmap list_fmap concat] in *.
  - rewrite Hit. by destruct (read_varint_refused [] eq_refl) as [e ->].
  - rewrite Hit, read_varint_encode by done. rewrite IH, Hx. done.
Qed.

Lemma packed_sint64_encode l :
  Forall is_i64 l -> packed_sint64 (concat ((fun z => encode_varint (zigzag_encode_64 z)) <$> l)) = l.
Proof.
  intros HF. apply (drains_encode _ zigzag_decode_64); [apply packed_sint64_drains|].
  eapply Forall_impl; [exact HF|]. intros z Hz. split; [by apply zigzag_range|by apply zigzag_roundtrip].
Qed.

Lemma packed_uint32_encode l : Forall is_u32 l -> packed_uint32 (concat (encode_varint <$> l)) = l.
Proof.
  intros HF. apply (drains_encode _ (as_u 32) (fun z => z)); [apply packed_uint32_drains|].
  eapply Forall_impl; [exact HF|]. intros z Hz. cbv beta in Hz. split; [width|by apply as_u_id].
Qed.

Lemma packed_int32_encode l :
  Forall is_i32 l -> packed_int32 (concat ((fun z => encode_varint (as_u64 z)) <$> l)) = l.
Proof.
  intros HF. apply (drains_encode _ (as_s 32)); [apply packed_int32_drains|].
  eapply Forall_impl; [exact HF|]. intros z Hz. cbv beta in Hz. split; [apply as_u_range; lia|width].
Qed.

Lemma packed_sint32_encode l :
  Forall is_i32 l -> packed_sint32 (concat ((fun z => encode_varint (zigzag_encode_32 z)) <$> l)) = l.
Proof.
  intros HF. apply (drains_encode _ (fun v => zigzag_decode_32 (as_u 32 v))); [apply packed_sint32_drains|].
  eapply Forall_impl; [exact HF|]. intros z Hz. pose proof (zigzag_range_32 z Hz) as Hr.
  split; [unfold is_u in *; width|]. by rewrite as_u_id, zigzag_roundtrip_32.
Qed.

Lemma packed_bool_encode l : packed_bool (Z.b2z <$> l) = l.
Proof.
  transitivity (packed_bool (concat ((fun x => encode_varint (Z.b2z x)) <$> l))).
  - f_equal. induction l as [|x l IH]; [done|]. cbn [fmap list_fmap concat] in *.
    rewrite encode_varint_small by (destruct x; simpl; lia). by rewrite IH.
  - apply (drains_encode _ (fun v => negb (v =? 0))); [apply packed_bool_drains|].
    apply Forall_true. intros []; split; try done; unfold is_u; simpl; lia.
Qed.

Lemma read_raw_field_moves w c d c' : read_raw_field w c = Ok (d, c') -> c' `suffix_of` c.
Proof. intros ->%read_raw_field_split. by exists d. Qed.

Lemma read_len_delimited_moves c d c' : read_len_delimited c = Ok (d, c') -> c' `suffix_of` c.
Proof. intros (h & ->)%read_len_delimited_split. exists (h ++ d). by rewrite app_assoc. Qed.

Lemma read_varint_i64_moves c v c' : read_varint_i64 c = Ok (v, c') -> c' `suffix_of` c.
Proof.
  rewrite read_varint_i64_spec. destruct (read_varint c) as [[w c1]|] eqn:Hr; [|done].
  intros [= _ <-]. by eapply read_varint_moves.
Qed.

Lemma read_sint64_moves c v c' : read_sint64 c = Ok (v, c') -> c' `suffix_of` c.
Proof.
  rewrite read_sint64_spec. destruct (read_varint c) as [[w c1]|] eqn:Hr; [|done].
  intros [= _ <-]. by eapply read_varint_moves.
Qed.

End Derived.

(** ** A byte-level implementation *)

Module RefProto.

Fixpoint enc (fuel : nat) (v : Z) : bytes :=
  match fuel with
  | O => [v]
  | S fuel => if v <? 128 then [v] else (128 + v mod 128) :: enc fuel (v / 128)
  end.

Definition read_varint (c : bytes) : result unit (Z * bytes) := ok_or (varint_of 9 c) tt.

Definition read_len (c : bytes) : result unit (bytes * bytes) :=
  match read_varint c with
  | Ok (n, c') => if n <=? blen c' then Ok (take (Z.to_nat n) c', drop (Z.to_nat n) c') else Err tt
  | Err e => Err e
  end.

Definition read_tag (c : bytes) : result unit (option (Z * Z) * bytes) :=
  match c with
  | [] => Ok (None, [])
  | _ => match read_varint c with Ok (v, c') => Ok (Some (v / 8, v mod 8), c') | Err e => Err e end
  end.

Definition skip (n : nat) (c : bytes) : result unit bytes :=
  if (n <=? length c)%nat then Ok (drop n c) else Err tt.

Definition skip_field (w : Z) (c : bytes) : result unit bytes :=
  if w =? 0 then match read_varint c with Ok (_, c') => Ok c' | Err e => Err e end
  else if w =? 1 then skip 8 c
  else if w =? 2 then match read_len c with Ok (_, c') => Ok c' | Err e => Err e end
  else if w =? 5 then skip 4 c
  else Err tt.

Definition read_raw (w : Z) (c : bytes) : result unit (bytes * bytes) :=
  match skip_field w c with
  | Ok c' => Ok (take (length c - length c') c, c')
  | Err e => Err e
  end.

Definition zz_enc (z : Z) : Z := if 0 <=? z then 2 * z else -2 * z - 1.
Definition zz_dec (v : Z) : Z := if Z.even v then v / 2 else - (v / 2) - 1.

Fixpoint packed {A} (f : Z -> A) (fuel : nat) (c : bytes) : list A :=
  match fuel with
  | O => []
  | S fuel => match read_varint c with
              | Ok (v, c') => f v :: packed f fuel c'
              | Err _ => []
              end
  end.

Definition field (f : Z) (d : bytes) : bytes :=
  match d with [] => [] | _ => enc 9 (f * 8 + WIRE_LEN) ++ enc 9 (blen d) ++ d end.

#[export] Instance ref_proto : Protohoggr := {|
  proto_error := unit;
  Proto.encode_varint := enc 9;
  Proto.encode_tag := fun f w => enc 9 (f * 8 + w);
  Proto.encode_bytes_field := field;
  Proto.encode_bytes_field_always := fun f d => enc 9 (f * 8 + WIRE_LEN) ++ enc 9 (blen d) ++ d;
  Proto.encode_int64_field := fun f v =>
    if v =? 0 then [] else enc 9 (f * 8 + WIRE_VARINT) ++ enc 9 (as_u64 v);
  Proto.encode_int32_field := fun f v =>
    if v =? 0 then [] else enc 9 (f * 8 + WIRE_VARINT) ++ enc 9 (as_u64 v);
  Proto.zigzag_encode_64 := zz_enc;
  Proto.zigzag_decode_64 := zz_dec;
  Proto.read_tag := read_tag;
  Proto.read_varint := read_varint;
  Proto.read_varint_i64 := fun c =>
    match read_varint c with Ok (v, c') => Ok (as_i64 v, c') | Err e => Err e end;
  Proto.read_varint_u32 := fun c =>
    match read_varint c with Ok (v, c') => if v <=? u32_max then Ok (v, c') else Err tt | Err e => Err e end;
  Proto.read_sint64 := fun c =>
    match read_varint c with Ok (v, c') => Ok (zz_dec v, c') | Err e => Err e end;
  Proto.read_len_delimited := read_len;
  Proto.read_raw_field := read_raw;
  Proto.skip_field := skip_field;
  Proto.packed_sint64 := fun c => packed zz_dec (length c) c;
  Proto.packed_uint32 := fun c => packed (as_u 32) (length c) c;
  Proto.packed_int32 := fun c => packed (as_s 32) (length c) c;
  Proto.zigzag_encode_32 := zz_enc;
  Proto.zigzag_decode_32 := zz_dec;
  Proto.packed_sint32 := fun c => packed (fun v => zz_dec (as_u 32 v)) (length c) c;
  Proto.packed_bool := fun c => packed (fun v => negb (v =? 0)) (length c) c;
  Proto.encode_packed_sint64 := fun f l => field f (concat ((fun z => enc 9 (zz_enc z)) <$> l));
  Proto.encode_packed_int32 := fun f l => field f (concat ((fun z => enc 9 (as_u64 z)) <$> l));
  Proto.encode_packed_sint32 := fun f l => field f (concat ((fun z => enc 9 (zz_enc z)) <$> l));
  Proto.encode_packed_bool := fun f l => field f (Z.b2z <$> l);
  Proto.encode_int64_field_always := fun f v => enc 9 (f * 8 + WIRE_VARINT) ++ enc 9 (as_u64 v);
  Proto.encode_sint64_field_always := fun f v => enc 9 (f * 8 + WIRE_VARINT) ++ enc 9 (zz_enc v);
|}.

Lemma varint_of_enc fuel v r :
  0 <= v < 2 * 128 ^ Z.of_nat fuel -> varint_of fuel (enc fuel v ++ r) = Some (v, r).
Proof.
  revert v. induction fuel as [|fuel IH]; intros v Hv.
  - simpl. change (128 ^ Z.of_nat 0) with 1 in Hv. destruct (Z.leb_spec v 1); [done|lia].
  - rewrite Nat2Z.inj_succ, Z.pow_succ_r in Hv by lia. cbn [enc].
    destruct (Z.ltb_spec v 128) as [Hlt|Hge].
    + cbn [app varint_of]. by rewrite (proj2 (Z.ltb_lt v 128)).
    + cbn [app varint_of]. destruct (Z.ltb_spec (128 + v mod 128) 128); [dlia|].
      rewrite IH; [|split; [dlia|apply Z.div_lt_upper_bound; lia]]. obind. do 2 f_equal. dlia.
Qed.

Lemma read_varint_enc v r : is_u64 v -> read_varint (enc 9 v ++ r) = Ok (v, r).
Proof. intros Hv. unfold read_varint. by rewrite varint_of_enc. Qed.

Lemma read_varint_shorter c v c' :
  read_varint c = Ok (v, c') -> c' `suffix_of` c /\ (length c' < length c)%nat.
Proof.
  unfold read_varint. destruct (varint_of 9 c) as [[w c1]|] eqn:Hd; [|done].
  intros [= <- <-]. apply varint_of_moves in Hd as (b & h & ->).
  split; [by exists (b :: h)|]. simpl. rewrite length_app. lia.
Qed.

Lemma read_len_split c d c' : read_len c = Ok (d, c') -> exists h, c = h ++ d ++ c'.
Proof.
  unfold read_len, read_varint. destruct (varint_of 9 c) as [[v c1]|] eqn:Hd; [|done]. cbn [ok_or].
  destruct (_ <=? _); [|done]. intros [= <- <-]. rewrite take_drop.
  apply varint_of_moves in Hd as (b & h & ->). by exists (b :: h).
Qed.

Lemma enc_pos fuel v : (0 < length (enc fuel v))%nat.
Proof. destruct fuel; simpl; [lia|]. destruct (v <? 128); simpl; lia. Qed.

Lemma enc_bytes fuel v : 0 <= v < 2 * 128 ^ Z.of_nat fuel -> Forall is_byte (enc fuel v).
Proof.
  revert v. induction fuel as [|fuel IH]; intros v Hv.
  - change (128 ^ Z.of_nat 0) with 1 in Hv. repeat constructor; lia.
  - rewrite Nat2Z.inj_succ, Z.pow_succ_r in Hv by lia. cbn [enc]. destruct (Z.ltb_spec v 128).
    + repeat constructor; lia.
    + constructor; [unfold is_byte; dlia|]. apply IH. split; [dlia|apply Z.div_lt_upper_bound; lia].
Qed.

Lemma log2_lor_1 v : 0 < v -> Z.log2 (Z.lor v 1) = Z.log2 v.
Proof. intros Hv. rewrite Z.log2_lor by lia. change (Z.log2 1) with 0. pose proof (Z.log2_nonneg v). lia. Qed.

Lemma enc_len fuel v :
  0 <= v < 128 ^ Z.of_nat (S fuel) -> Z.of_nat (length (enc fuel v)) = Z.log2 (Z.lor v 1) / 7 + 1.
Proof.
  assert (forall v, 0 <= v < 128 -> Z.log2 (Z.lor v 1) / 7 = 0) as Hsmall.
  { intros w Hw. destruct (Z.eq_dec w 0) as [->|]; [done|]. rewrite log2_lor_1 by lia.
    apply Z.div_small. split; [apply Z.log2_nonneg|]. apply Z.log2_lt_pow2; lia. }
  revert v. induction fuel as [|fuel IH]; intros v Hv.
  - change (128 ^ Z.of_nat 1) with 128 in Hv. simpl length. rewrite Hsmall by lia. done.
  - rewrite Nat2Z.inj_succ, Z.pow_succ_r in Hv by lia. cbn [enc]. destruct (Z.ltb_spec v 128) as [Hlt|Hge].
    + simpl length. rewrite Hsmall by lia. done.
    + cbn [length]. rewrite Nat2Z.inj_succ, IH by (split; [dlia|apply Z.div_lt_upper_bound; lia]).
      assert (0 < v / 128) by dlia. rewrite !log2_lor_1 by lia.
      assert (Z.log2 v = Z.log2 (v / 128) + 7) as ->; [|dlia].
      change 128 with (2 ^ 7). rewrite <- Z.shiftr_div_pow2, Z.log2_shiftr by lia.
      assert (7 <= Z.log2 v); [|lia]. change 7 with (Z.log2 128). apply Z.log2_le_mono. lia.
Qed.

Lemma zz_roundtrip z : zz_dec (zz_enc z) = z.
Proof.
  unfold zz_enc, zz_dec. destruct (Z.leb_spec 0 z).
  - rewrite Z.even_mul. simpl. dlia.
  - replace (-2 * z - 1) with (2 * (- z - 1) + 1) by lia. rewrite Z.even_add, Z.even_mul. simpl. dlia.
Qed.

Lemma packed_fuel {A} (f : Z -> A) n m c :
  (length c <= n)%nat -> (length c <= m)%nat -> packed f n c = packed f m c.
Proof.
  revert m c. induction n as [|n IH]; intros [|m] c Hn Hm; cbn [packed]; try done.
  1, 2: destruct c as [|b c]; [done|simpl in *; lia].
  destruct (read_varint c) as [[v c']|] eqn:Hr; [|done]. apply read_varint_shorter in Hr as [_ Hr].
  f_equal. apply IH; lia.
Qed.

Lemma packed_drains {A} (f : Z -> A) (c : bytes) :
  packed f (length c) c =
    match read_varint c with Ok (v, c') => f v :: packed f (length c') c' | Err _ => [] end.
Proof.
  destruct (length c) as [|n] eqn:Hn; [by destruct c|]. cbn [packed].
  destruct (read_varint c) as [[v c']|] eqn:Hr; [|done]. apply read_varint_shorter in Hr as [_ Hr].
  f_equal. apply packed_fuel; lia.
Qed.

Lemma skip_field_shorter w c c' : skip_field w c = Ok c' -> c' `suffix_of` c.
Proof.
  unfold skip_field, skip. repeat case_match; intros [= <-]; simplify_eq; try apply suffix_drop.
  - match goal with H : read_varint _ = _ |- _ => by apply read_varint_shorter in H as [? _] end.
  - match goal with H : read_len _ = _ |- _ => apply read_len_split in H as [h ->] end.
    rewrite app_assoc. by apply suffix_app_r.
Qed.

#[export] Instance ref_laws : ProtohoggrLaws ref_proto.
Proof.
  split; cbn [Proto.encode_varint Proto.encode_tag Proto.encode_bytes_field Proto.encode_bytes_field_always
    Proto.encode_int64_field Proto.encode_int32_field Proto.zigzag_encode_64 Proto.zigzag_decode_64 Proto.read_tag Proto.read_varint
    Proto.read_varint_i64 Proto.read_varint_u32 Proto.read_sint64 Proto.read_len_delimited Proto.read_raw_field Proto.skip_field
    Proto.packed_sint64 Proto.packed_uint32 Proto.packed_int32 Proto.proto_error Proto.zigzag_encode_32
    Proto.zigzag_decode_32
    Proto.packed_sint32 Proto.packed_bool Proto.encode_packed_sint64 Proto.encode_packed_int32
    Proto.encode_packed_sint32 Proto.encode_packed_bool ref_proto]; try done.
  - intros v Hv. simpl. by rewrite (proj2 (Z.ltb_lt v 128)) by lia.
  - intros v Hv. apply enc_len. unfold is_u in Hv. change (128 ^ Z.of_nat 10) with (2 ^ 70). split; [lia|].
    apply Z.lt_trans with (2 ^ 64); [lia|]. by apply Z.pow_lt_mono_r.
  - intros v Hv. by apply enc_bytes.
  - intros z Hz. unfold zz_enc. destruct (Z.leb_spec 0 z); width.
  - intros z _. apply zz_roundtrip.
  - intros v Hv. unfold zz_dec. destruct (Z.even v); width.
  - intros f w r Hf Hw. unfold read_tag. pose proof (enc_pos 9 (f * 8 + w)).
    destruct (enc 9 (f * 8 + w) ++ r) as [|b c] eqn:He.
    { apply (f_equal length) in He. rewrite length_app in He. cbn [length] in He. lia. }
    rewrite <- He, read_varint_enc by (change (2 ^ 29) with 536870912 in Hf; width). replace ((f * 8 + w) / 8) with f by dlia. by replace ((f * 8 + w) mod 8) with w by dlia.
  - intros [|b c] t c'; simpl; [done|]. destruct (read_varint (b :: c)) as [[v c1]|] eqn:Hv; [|done].
    intros [= _ <-]. by apply read_varint_shorter in Hv.
  - intros v r Hv. by apply read_varint_enc.
  - intros c v c' Hr. unfold read_varint. by rewrite Hr.
  - intros c Hr. exists tt. unfold read_varint. by rewrite Hr.
  - intros c v c' Hr. unfold skip_field. simpl Z.eqb. cbv iota. by rewrite Hr.
  - intros d r Hd. unfold read_len. rewrite read_varint_enc.
    + rewrite (proj2 (Z.leb_le _ _)) by (unfold blen; rewrite length_app; lia). unfold blen.
      by rewrite Nat2Z.id, take_app_length, drop_app_length.
    + unfold fits, blen in *. change (2 ^ 63) with 9223372036854775808 in Hd. width.
  - apply read_len_split.
  - intros w c d c'. unfold read_raw. destruct (skip_field w c) as [c1|] eqn:Hs; [|done].
    intros [= <- <-]. apply skip_field_shorter in Hs as [h ->].
    by rewrite length_app, Nat.add_sub, take_app_length.
  - apply skip_field_shorter.
  - intros z Hz. unfold zz_enc. destruct (Z.leb_spec 0 z); width.
  - intros z _. apply zz_roundtrip.
  - intros c. apply packed_drains.
  - intros c. apply packed_drains.
  - intros c. apply packed_drains.
  - intros c. apply packed_drains.
  - intros c. apply packed_drains.
  - intros c. destruct (read_varint c) as [[v c']|e]; [|by exists e]. destruct (v <=? u32_max); [done|by exists tt].
Qed.

End RefProto.
