(* ===== verification/Wire.v ===== *)
(** * PrimitiveBlock message parsers (src/src/read/wire.rs)

    Every parser is a [while let Some((field, wire_type)) = cursor.read_tag()?]
    loop over the message's fields.  The loop is [fields], whose fuel is the
    message's length: each turn consumes at least the tag, so it never runs out
    ([parse_enough_fuel]).  A parser is its per-field step. *)

From S2P Require Import Prelude Proto.

(** Refusals of repeated fields, one per field. *)
Definition DUP_GROUP_DENSE : string := "PrimitiveGroup.dense appears twice".
Definition DUP_NODE_KEYS : string := "Node.keys appears twice with data; packed field split across segments".
Definition DUP_NODE_VALS : string := "Node.vals appears twice with data; packed field split across segments".
Definition DUP_WAY_KEYS : string := "Way.keys appears twice with data; packed field split across segments".
Definition DUP_WAY_VALS : string := "Way.vals appears twice with data; packed field split across segments".
Definition DUP_WAY_REFS : string := "Way.refs appears twice with data; packed field split across segments".
Definition DUP_WAY_LAT : string := "Way.lat appears twice with data; packed field split across segments".
Definition DUP_WAY_LON : string := "Way.lon appears twice with data; packed field split across segments".
Definition DUP_REL_KEYS : string := "Relation.keys appears twice with data; packed field split across segments".
Definition DUP_REL_VALS : string := "Relation.vals appears twice with data; packed field split across segments".
Definition DUP_REL_ROLES : string := "Relation.roles_sid appears twice with data; packed field split across segments".
Definition DUP_REL_MEMIDS : string := "Relation.memids appears twice with data; packed field split across segments".
Definition DUP_REL_TYPES : string := "Relation.types appears twice with data; packed field split across segments".
Definition DUP_DENSE_ID : string := "DenseNodes.id appears twice with data; packed field split across segments".
Definition DUP_DENSE_LAT : string := "DenseNodes.lat appears twice with data; packed field split across segments".
Definition DUP_DENSE_LON : string := "DenseNodes.lon appears twice with data; packed field split across segments".
Definition DUP_DENSE_KV : string := "DenseNodes.keys_vals appears twice with data; packed field split across segments".
Definition DUP_NODE_INFO : string := "Node.info appears twice with data; message merge is unsupported".
Definition DUP_WAY_INFO : string := "Way.info appears twice with data; message merge is unsupported".
Definition DUP_REL_INFO : string := "Relation.info appears twice with data; message merge is unsupported".
Definition DUP_DENSE_INFO : string := "DenseNodes.denseinfo appears twice with data; message merge is unsupported".
Definition DUP_DI_VERSION : string := "DenseInfo.version appears twice with data; packed field split across segments".
Definition DUP_DI_TIMESTAMP : string := "DenseInfo.timestamp appears twice with data; packed field split across segments".
Definition DUP_DI_CHANGESET : string := "DenseInfo.changeset appears twice with data; packed field split across segments".
Definition DUP_DI_UID : string := "DenseInfo.uid appears twice with data; packed field split across segments".
Definition DUP_DI_USER_SID : string := "DenseInfo.user_sid appears twice with data; packed field split across segments".
Definition DUP_DI_VISIBLE : string := "DenseInfo.visible appears twice with data; packed field split across segments".

Section Wire.
Context {P : Protohoggr}.

Inductive WireError :=
| FromProto (e : proto_error)
| Message (msg : string)
| Panic
| OutOfFuel.

Abbreviation wresult := (result WireError).

Definition lift {A} (r : result proto_error A) : wresult A :=
  match r with Ok a => Ok a | Err e => Err (FromProto e) end.

Fixpoint fields {St} (step : St -> Z -> Z -> bytes -> wresult (St * bytes))
    (fuel : nat) (st : St) (c : bytes) : wresult St :=
  match read_tag c with
  | Err e => Err (FromProto e)
  | Ok (None, _) => Ok st
  | Ok (Some (field, wire_type), c) =>
      match fuel with
      | O => Err OutOfFuel
      | S fuel => '(st', c') ← step st field wire_type c; fields step fuel st' c'
      end
  end.

Definition parse {St} (step : St -> Z -> Z -> bytes -> wresult (St * bytes)) (st : St) (data : bytes)
  : wresult St := fields step (length data) st data.

(** Match arms [(f, WIRE_VARINT)], [(f, WIRE_LEN)] and [(f, WIRE_LEN | WIRE_VARINT)]. *)
Definition arm_varint (f field wt : Z) : bool := (field =? f) && (wt =? WIRE_VARINT).
Definition arm_len (f field wt : Z) : bool := (field =? f) && (wt =? WIRE_LEN).
Definition arm_packed (f field wt : Z) : bool := (field =? f) && ((wt =? WIRE_LEN) || (wt =? WIRE_VARINT)).

Definition read_int32 (c : bytes) (overflow_msg : string) : wresult (Z * bytes) :=
  '(v, c) ← lift (read_varint_i64 c);
  if (i32_min <=? v) && (v <=? i32_max) then Ok (v, c) else Err (Message overflow_msg).

(** The slot's new value and the cursor. *)
Definition take_packed (c : bytes) (wire_type : Z) (slot : bytes) (dup_msg : string)
  : wresult (bytes * bytes) :=
  '(b, c) ← lift (if wire_type =? WIRE_LEN then read_len_delimited c
                  else read_raw_field WIRE_VARINT c);
  match b, slot with
  | [], _ => Ok (slot, c)
  | _, [] => Ok (b, c)
  | _, _ => Err (Message dup_msg)
  end.

Definition take_message (c : bytes) (slot : option bytes) (dup_msg : string)
  : wresult (option bytes * bytes) :=
  '(b, c) ← lift (read_len_delimited c);
  match slot with
  | Some (_ :: _) => match b with [] => Ok (slot, c) | _ => Err (Message dup_msg) end
  | _ => Ok (Some b, c)
  end.

(** [_ => cursor.skip_field(wire_type)?] *)
Definition skip_arm {St} (st : St) (wt : Z) (c : bytes) : wresult (St * bytes) :=
  c ← lift (skip_field wt c); Ok (st, c).

(** ** Node *)

Record WireNode := mkWireNode {
  wn_id : Z; wn_lat : Z; wn_lon : Z;
  wn_keys : bytes; wn_vals : bytes; wn_info : option bytes }.

Definition WireNode_step (n : WireNode) (field wt : Z) (c : bytes) : wresult (WireNode * bytes) :=
  let 'mkWireNode id lat lon keys vals info := n in
  if arm_varint 1 field wt then
    '(id, c) ← lift (read_sint64 c); Ok (mkWireNode id lat lon keys vals info, c)
  else if arm_packed 2 field wt then
    '(keys, c) ← take_packed c wt keys DUP_NODE_KEYS; Ok (mkWireNode id lat lon keys vals info, c)
  else if arm_packed 3 field wt then
    '(vals, c) ← take_packed c wt vals DUP_NODE_VALS; Ok (mkWireNode id lat lon keys vals info, c)
  else if arm_len 4 field wt then
    '(info, c) ← take_message c info DUP_NODE_INFO; Ok (mkWireNode id lat lon keys vals info, c)
  else if arm_varint 8 field wt then
    '(lat, c) ← lift (read_sint64 c); Ok (mkWireNode id lat lon keys vals info, c)
  else if arm_varint 9 field wt then
    '(lon, c) ← lift (read_sint64 c); Ok (mkWireNode id lat lon keys vals info, c)
  else skip_arm n wt c.

Definition WireNode_parse (data : bytes) : wresult WireNode :=
  parse WireNode_step (mkWireNode 0 0 0 [] [] None) data.

(** ** Way *)

Record WireWay := mkWireWay {
  ww_id : Z; ww_keys : bytes; ww_vals : bytes; ww_refs : bytes;
  ww_lat : bytes; ww_lon : bytes; ww_info : option bytes; ww_pins : option bytes }.

Definition WireWay_step (w : WireWay) (field wt : Z) (c : bytes) : wresult (WireWay * bytes) :=
  let 'mkWireWay id keys vals refs lat lon info pins := w in
  if arm_varint 1 field wt then
    '(id, c) ← lift (read_varint_i64 c); Ok (mkWireWay id keys vals refs lat lon info pins, c)
  else if arm_packed 2 field wt then
    '(keys, c) ← take_packed c wt keys DUP_WAY_KEYS; Ok (mkWireWay id keys vals refs lat lon info pins, c)
  else if arm_packed 3 field wt then
    '(vals, c) ← take_packed c wt vals DUP_WAY_VALS; Ok (mkWireWay id keys vals refs lat lon info pins, c)
  else if arm_len 4 field wt then
    '(info, c) ← take_message c info DUP_WAY_INFO; Ok (mkWireWay id keys vals refs lat lon info pins, c)
  else if arm_packed 8 field wt then
    '(refs, c) ← take_packed c wt refs DUP_WAY_REFS; Ok (mkWireWay id keys vals refs lat lon info pins, c)
  else if arm_packed 9 field wt then
    '(lat, c) ← take_packed c wt lat DUP_WAY_LAT; Ok (mkWireWay id keys vals refs lat lon info pins, c)
  else if arm_packed 10 field wt then
    '(lon, c) ← take_packed c wt lon DUP_WAY_LON; Ok (mkWireWay id keys vals refs lat lon info pins, c)
  else if arm_len 20 field wt then
    '(b, c) ← lift (read_len_delimited c); Ok (mkWireWay id keys vals refs lat lon info (Some b), c)
  else skip_arm w wt c.

Definition WireWay_parse (data : bytes) : wresult WireWay :=
  parse WireWay_step (mkWireWay 0 [] [] [] [] [] None None) data.

(** ** Relation *)

Record WireRelation := mkWireRelation {
  wr_id : Z; wr_keys : bytes; wr_vals : bytes; wr_roles : bytes;
  wr_memids : bytes; wr_types : bytes; wr_info : option bytes }.

Definition WireRelation_step (r : WireRelation) (field wt : Z) (c : bytes)
  : wresult (WireRelation * bytes) :=
  let 'mkWireRelation id keys vals roles memids types info := r in
  if arm_varint 1 field wt then
    '(id, c) ← lift (read_varint_i64 c); Ok (mkWireRelation id keys vals roles memids types info, c)
  else if arm_packed 2 field wt then
    '(keys, c) ← take_packed c wt keys DUP_REL_KEYS;
    Ok (mkWireRelation id keys vals roles memids types info, c)
  else if arm_packed 3 field wt then
    '(vals, c) ← take_packed c wt vals DUP_REL_VALS;
    Ok (mkWireRelation id keys vals roles memids types info, c)
  else if arm_len 4 field wt then
    '(info, c) ← take_message c info DUP_REL_INFO;
    Ok (mkWireRelation id keys vals roles memids types info, c)
  else if arm_packed 8 field wt then
    '(roles, c) ← take_packed c wt roles DUP_REL_ROLES;
    Ok (mkWireRelation id keys vals roles memids types info, c)
  else if arm_packed 9 field wt then
    '(memids, c) ← take_packed c wt memids DUP_REL_MEMIDS;
    Ok (mkWireRelation id keys vals roles memids types info, c)
  else if arm_packed 10 field wt then
    '(types, c) ← take_packed c wt types DUP_REL_TYPES;
    Ok (mkWireRelation id keys vals roles memids types info, c)
  else skip_arm r wt c.

Definition WireRelation_parse (data : bytes) : wresult WireRelation :=
  parse WireRelation_step (mkWireRelation 0 [] [] [] [] [] None) data.

(** ** Dense nodes *)

Record WireDenseNodes := mkWireDenseNodes {
  wd_id : bytes; wd_lat : bytes; wd_lon : bytes; wd_keys_vals : bytes; wd_info : option bytes }.

Definition WireDenseNodes_step (d : WireDenseNodes) (field wt : Z) (c : bytes)
  : wresult (WireDenseNodes * bytes) :=
  let 'mkWireDenseNodes id lat lon kv info := d in
  if arm_packed 1 field wt then
    '(id, c) ← take_packed c wt id DUP_DENSE_ID; Ok (mkWireDenseNodes id lat lon kv info, c)
  else if arm_len 5 field wt then
    '(info, c) ← take_message c info DUP_DENSE_INFO; Ok (mkWireDenseNodes id lat lon kv info, c)
  else if arm_packed 8 field wt then
    '(lat, c) ← take_packed c wt lat DUP_DENSE_LAT; Ok (mkWireDenseNodes id lat lon kv info, c)
  else if arm_packed 9 field wt then
    '(lon, c) ← take_packed c wt lon DUP_DENSE_LON; Ok (mkWireDenseNodes id lat lon kv info, c)
  else if arm_packed 10 field wt then
    '(kv, c) ← take_packed c wt kv DUP_DENSE_KV; Ok (mkWireDenseNodes id lat lon kv info, c)
  else skip_arm d wt c.

Definition WireDenseNodes_parse (data : bytes) : wresult WireDenseNodes :=
  parse WireDenseNodes_step (mkWireDenseNodes [] [] [] [] None) data.

Record WireDenseInfo := mkWireDenseInfo {
  wi_version : bytes; wi_timestamp : bytes; wi_changeset : bytes;
  wi_uid : bytes; wi_user_sid : bytes; wi_visible : bytes }.

Definition WireDenseInfo_step (i : WireDenseInfo) (field wt : Z) (c : bytes)
  : wresult (WireDenseInfo * bytes) :=
  let 'mkWireDenseInfo ver ts cs uid sid vis := i in
  if arm_packed 1 field wt then
    '(ver, c) ← take_packed c wt ver DUP_DI_VERSION; Ok (mkWireDenseInfo ver ts cs uid sid vis, c)
  else if arm_packed 2 field wt then
    '(ts, c) ← take_packed c wt ts DUP_DI_TIMESTAMP; Ok (mkWireDenseInfo ver ts cs uid sid vis, c)
  else if arm_packed 3 field wt then
    '(cs, c) ← take_packed c wt cs DUP_DI_CHANGESET; Ok (mkWireDenseInfo ver ts cs uid sid vis, c)
  else if arm_packed 4 field wt then
    '(uid, c) ← take_packed c wt uid DUP_DI_UID; Ok (mkWireDenseInfo ver ts cs uid sid vis, c)
  else if arm_packed 5 field wt then
    '(sid, c) ← take_packed c wt sid DUP_DI_USER_SID; Ok (mkWireDenseInfo ver ts cs uid sid vis, c)
  else if arm_packed 6 field wt then
    '(vis, c) ← take_packed c wt vis DUP_DI_VISIBLE; Ok (mkWireDenseInfo ver ts cs uid sid vis, c)
  else skip_arm i wt c.

Definition WireDenseInfo_parse (data : bytes) : wresult WireDenseInfo :=
  parse WireDenseInfo_step (mkWireDenseInfo [] [] [] [] [] []) data.

(** ** Info *)

Record WireInfo := mkWireInfo {
  version : option Z; timestamp : option Z; changeset : option Z;
  uid : option Z; user_sid : option Z; visible : option bool }.

Definition WireInfo_default : WireInfo := mkWireInfo None None None None None None.

Definition WireInfo_step (i : WireInfo) (field wt : Z) (c : bytes) : wresult (WireInfo * bytes) :=
  let 'mkWireInfo ver ts cs uid sid vis := i in
  if arm_varint 1 field wt then
    '(v, c) ← lift (read_varint c); Ok (mkWireInfo (Some (as_i32 v)) ts cs uid sid vis, c)
  else if arm_varint 2 field wt then
    '(v, c) ← lift (read_varint_i64 c); Ok (mkWireInfo ver (Some v) cs uid sid vis, c)
  else if arm_varint 3 field wt then
    '(v, c) ← lift (read_varint_i64 c); Ok (mkWireInfo ver ts (Some v) uid sid vis, c)
  else if arm_varint 4 field wt then
    '(v, c) ← lift (read_varint c); Ok (mkWireInfo ver ts cs (Some (as_i32 v)) sid vis, c)
  else if arm_varint 5 field wt then
    '(v, c) ← lift (read_varint c); Ok (mkWireInfo ver ts cs uid (Some (as_i32 v)) vis, c)
  else if arm_varint 6 field wt then
    '(v, c) ← lift (read_varint c); Ok (mkWireInfo ver ts cs uid sid (Some (negb (v =? 0))), c)
  else skip_arm i wt c.

(** Osmosis writes -1 where version or changeset is absent. *)
Definition drop_sentinel (o : option Z) : option Z :=
  match o with Some v => if v =? -1 then None else Some v | None => None end.

Definition WireInfo_parse (data : bytes) : wresult WireInfo :=
  i ← parse WireInfo_step WireInfo_default data;
  Ok (mkWireInfo (drop_sentinel (version i)) (timestamp i) (drop_sentinel (changeset i))
        (uid i) (user_sid i) (visible i)).

(** [rest.iter().position(|&b| b & 0x80 == 0)] *)
Fixpoint position_end (rest : bytes) : option nat :=
  match rest with
  | [] => None
  | b :: rest => if Z.land b 128 =? 0 then Some 0%nat else S <$> position_end rest
  end.

(** [user_sid_of] from index [i] on; each turn moves [i] forward. *)
Fixpoint user_sid_loop (fuel : nat) (data : bytes) (i : nat) (user : option Z) : wresult (option Z) :=
  match data !! i with
  | None => Ok user
  | Some tag =>
      match fuel with
      | O => Err OutOfFuel
      | S fuel =>
          let fallback := user_sid <$> WireInfo_parse data in
          if negb (Z.land tag 135 =? 0) || (tag <? 8) then fallback
          else
            let start := S i in
            match position_end (drop start data) with
            | None => fallback
            | Some len =>
                if (9 <=? len)%nat then fallback
                else
                  let i' := (start + len + 1)%nat in
                  if tag =? Z.shiftl 5 3 then
                    b ← ok_or (slice data start i') Panic;
                    '(v, _) ← lift (read_varint b);
                    user_sid_loop fuel data i' (Some (as_i32 v))
                  else user_sid_loop fuel data i' user
            end
      end
  end.

Definition user_sid_of (data : bytes) : wresult (option Z) := user_sid_loop (length data) data 0 None.

(** ** Groups *)

Definition dense_step (st : option bytes) (field wt : Z) (c : bytes) : wresult (option bytes * bytes) :=
  if arm_len 2 field wt then
    match st with
    | Some _ => Err (Message DUP_GROUP_DENSE)
    | None => '(b, c) ← lift (read_len_delimited c); Ok (Some b, c)
    end
  else skip_arm st wt c.

Definition WireGroup_dense (data : bytes) : wresult (option bytes) := parse dense_step None data.

(** [WireMessageIter::next]: the next matching message and the cursor. *)
Fixpoint msg_next (fuel : nat) (target : Z) (c : bytes) : option (bytes * bytes) :=
  match fuel with
  | O => None
  | S fuel =>
      match read_tag c with
      | Ok (Some (field, wt), c) =>
          if (field =? target) && (wt =? WIRE_LEN) then
            match read_len_delimited c with Ok bc => Some bc | Err _ => None end
          else match skip_field wt c with Ok c => msg_next fuel target c | Err _ => None end
      | _ => None
      end
  end.

(** Draining the iterator: every item consumes its tag. *)
Fixpoint messages_loop (fuel : nat) (target : Z) (c : bytes) : list bytes :=
  match fuel with
  | O => []
  | S fuel => match msg_next (S (length c)) target c with
              | Some (b, c') => b :: messages_loop fuel target c'
              | None => []
              end
  end.

Definition messages (target : Z) (data : bytes) : list bytes := messages_loop (S (length data)) target data.
Definition WireGroup_nodes : bytes -> list bytes := messages 1.
Definition WireGroup_ways : bytes -> list bytes := messages 3.
Definition WireGroup_relations : bytes -> list bytes := messages 4.

End Wire.

(** ** The field loop *)

Section Loop.
Context `{L : ProtohoggrLaws}.

Lemma bind_ok {A B} (m : result WireError A) (f : A -> result WireError B) b :
  m ≫= f = Ok b -> exists a, m = Ok a /\ f a = Ok b.
Proof. destruct m as [a|e]; simpl; [eauto|done]. Qed.

Lemma lift_ok {A} (r : result proto_error A) a : lift r = Ok a -> r = Ok a.
Proof. by destruct r; simpl; intros [= ->]. Qed.

Definition shrinks {St} (step : St -> Z -> Z -> bytes -> result WireError (St * bytes)) : Prop :=
  forall st f w c st' c', step st f w c = Ok (st', c') -> c' `suffix_of` c.

Section Generic.
Context {St : Type} (step : St -> Z -> Z -> bytes -> result WireError (St * bytes)) (Hs : shrinks step).

Lemma fields_fuel n m st c :
  (length c <= n)%nat -> (length c <= m)%nat -> fields step n st c = fields step m st c.
Proof.
  revert m st c. induction n as [|n IH]; intros m st c Hn Hm.
  - destruct c as [|b c]; [|simpl in Hn; lia]. destruct m; simpl; by rewrite read_tag_nil.
  - destruct m as [|m].
    { destruct c as [|b c]; [|simpl in Hm; lia]. simpl. by rewrite read_tag_nil. }
    cbn [fields]. destruct (read_tag c) as [[[[f w]|] c1]|e] eqn:Ht; [|done..].
    apply read_tag_moves in Ht as [_ Ht].
    destruct (step st f w c1) as [[st' c2]|e] eqn:Hst; [|done]. simpl.
    apply Hs, suffix_length in Hst. apply IH; lia.
Qed.

Lemma parse_nil st : parse step st [] = Ok st.
Proof. unfold parse. simpl. by rewrite read_tag_nil. Qed.

(** One turn of the loop. *)
Lemma parse_turn st c f w c1 st' c2 :
  read_tag c = Ok (Some (f, w), c1) -> step st f w c1 = Ok (st', c2) ->
  parse step st c = parse step st' c2.
Proof.
  intros Ht Hst. unfold parse. destruct (read_tag_moves _ _ _ Ht) as [_ Hlt].
  destruct (length c) as [|n] eqn:Hn; [lia|]. cbn [fields]. rewrite Ht, Hst. simpl.
  apply Hs, suffix_length in Hst. apply fields_fuel; lia.
Qed.

(** The loop always ends: running out of fuel is not a result. *)
Lemma parse_enough_fuel st c :
  (forall st f w c, step st f w c <> Err OutOfFuel) -> parse step st c <> Err OutOfFuel.
Proof.
  intros Hne. unfold parse. assert (length c <= length c)%nat as Hle by lia. revert Hle.
  generalize (length c) at 2 3 as n. intros n. revert st c.
  induction n as [|n IH]; intros st c Hn.
  - destruct c as [|b c]; [|simpl in Hn; lia]. simpl. by rewrite read_tag_nil.
  - cbn [fields]. destruct (read_tag c) as [[[[f w]|] c1]|e] eqn:Ht; [|done..].
    apply read_tag_moves in Ht as [_ Ht]. destruct (step st f w c1) as [[st' c2]|e] eqn:Hst; simpl.
    + apply Hs, suffix_length in Hst. apply IH. lia.
    + intros [= ->]. by eapply Hne.
Qed.
End Generic.

(** Two loops over the same message in lock step. *)
Lemma parse_sim {A B} (sa : A -> Z -> Z -> bytes -> result WireError (A * bytes))
    (sb : B -> Z -> Z -> bytes -> result WireError (B * bytes)) (R : A -> B -> Prop) (data : bytes) a0 b0 a :
  shrinks sa ->
  (forall x y f w c x' c', c `suffix_of` data -> R x y -> sa x f w c = Ok (x', c') ->
     exists y', sb y f w c = Ok (y', c') /\ R x' y') ->
  R a0 b0 -> parse sa a0 data = Ok a -> exists b, parse sb b0 data = Ok b /\ R a b.
Proof.
  intros Hs Hstep. unfold parse.
  assert (forall n c x y, c `suffix_of` data -> R x y -> fields sa n x c = Ok a ->
    exists b, fields sb n y c = Ok b /\ R a b) as H; [|by apply H].
  induction n as [|n IH]; intros c x y Hc HR; cbn [fields].
  all: destruct (read_tag c) as [[[[f w]|] c1]|e] eqn:Ht; [|intros [= <-]; eauto|intros [=]].
  { intros [=]. }
  apply read_tag_moves in Ht as [Ht _].
  destruct (sa x f w c1) as [[x' c2]|e] eqn:Ha; [|intros [=]]. cbn [mbind result_bind]. intros Hrest.
  destruct (Hstep x y f w c1 x' c2) as (y' & -> & HR'); [by etrans|done|done|].
  cbn [mbind result_bind]. apply IH with x'; [|done|done]. apply Hs in Ha. etrans; [exact Ha|]. by etrans.
Qed.

(** ** Every step shrinks the cursor and fails only with real errors *)

Lemma take_packed_shrinks c wt slot msg s c' :
  take_packed c wt slot msg = Ok (s, c') -> c' `suffix_of` c.
Proof.
  unfold take_packed. intros H. apply bind_ok in H as ([b c1] & Hr & H). apply lift_ok in Hr.
  assert (c1 `suffix_of` c).
  { destruct (wt =? WIRE_LEN); [by eapply read_len_delimited_moves|by eapply read_raw_field_moves]. }
  by destruct b, slot; simplify_eq.
Qed.

Lemma take_message_shrinks c slot msg s c' :
  take_message c slot msg = Ok (s, c') -> c' `suffix_of` c.
Proof.
  unfold take_message. intros H. apply bind_ok in H as ([b c1] & Hr & H). apply lift_ok in Hr.
  apply read_len_delimited_moves in Hr. by repeat case_match; simplify_eq.
Qed.

Lemma skip_arm_shrinks {St} (st : St) wt c st' c' :
  skip_arm st wt c = Ok (st', c') -> c' `suffix_of` c.
Proof.
  unfold skip_arm. intros H. apply bind_ok in H as (c1 & Hr & H). apply lift_ok in Hr.
  simplify_eq. by eapply skip_field_moves.
Qed.

(** Runs a step down to the read of the arm taken. *)
Ltac step_arms :=
  repeat match goal with
  | |- context [if ?b then _ else _] => destruct b
  | H : context [if ?b then _ else _] |- _ => destruct b
  end.

Ltac shrink_arm :=
  match goal with
  | H : skip_arm _ _ _ = Ok _ |- _ => by apply skip_arm_shrinks in H
  | H : _ ≫= _ = Ok _ |- _ =>
      apply bind_ok in H as ([? ?] & H & ?); simplify_eq;
      first [ by apply take_packed_shrinks in H | by apply take_message_shrinks in H
            | apply lift_ok in H;
              first [ by apply read_varint_moves in H | by apply read_varint_i64_moves in H
                    | by apply read_sint64_moves in H | by apply read_len_delimited_moves in H ] ]
  end.

Lemma WireNode_shrinks : shrinks WireNode_step.
Proof. intros [] f w c st' c' H. unfold WireNode_step in H. step_arms; shrink_arm. Qed.
Lemma WireWay_shrinks : shrinks WireWay_step.
Proof. intros [] f w c st' c' H. unfold WireWay_step in H. step_arms; shrink_arm. Qed.
Lemma WireRelation_shrinks : shrinks WireRelation_step.
Proof. intros [] f w c st' c' H. unfold WireRelation_step in H. step_arms; shrink_arm. Qed.
Lemma WireDenseNodes_shrinks : shrinks WireDenseNodes_step.
Proof. intros [] f w c st' c' H. unfold WireDenseNodes_step in H. step_arms; shrink_arm. Qed.
Lemma WireDenseInfo_shrinks : shrinks WireDenseInfo_step.
Proof. intros [] f w c st' c' H. unfold WireDenseInfo_step in H. step_arms; shrink_arm. Qed.
Lemma WireInfo_shrinks : shrinks WireInfo_step.
Proof. intros [] f w c st' c' H. unfold WireInfo_step in H. step_arms; shrink_arm. Qed.
Lemma dense_shrinks : shrinks dense_step.
Proof. intros [] f w c st' c' H; unfold dense_step in H; step_arms; try done; shrink_arm. Qed.

End Loop.

(** ** Totality *)

Section Total.
Context `{L : ProtohoggrLaws}.

Lemma bind_total {A B} (m : result WireError A) (f : A -> result WireError B) :
  m <> Err OutOfFuel -> (forall a, f a <> Err OutOfFuel) -> m ≫= f <> Err OutOfFuel.
Proof. destruct m as [a|e]; simpl; [auto|]. intros H _ [= ->]. by apply H. Qed.

Lemma lift_total {A} (r : result proto_error A) : lift r <> Err OutOfFuel.
Proof. by destruct r. Qed.

Lemma take_packed_total c wt slot msg : take_packed c wt slot msg <> Err OutOfFuel.
Proof. apply bind_total; [apply lift_total|]. intros [b c1]. by repeat case_match. Qed.

Lemma take_message_total c slot msg : take_message c slot msg <> Err OutOfFuel.
Proof. apply bind_total; [apply lift_total|]. intros [b c1]. by repeat case_match. Qed.

Ltac step_total :=
  repeat match goal with |- context [if ?b then _ else _] => destruct b end;
  (apply bind_total;
   [first [apply lift_total|apply take_packed_total|apply take_message_total]
   |intros a; repeat match goal with p : _ * _ |- _ => destruct p end; discriminate]).

Lemma dense_step_total st f w c : dense_step st f w c <> Err OutOfFuel.
Proof. unfold dense_step. destruct (arm_len 2 f w), st; try discriminate; step_total. Qed.

Lemma WireInfo_parse_total data : WireInfo_parse data <> Err OutOfFuel.
Proof.
  apply bind_total; [|discriminate].
  apply (parse_enough_fuel _ WireInfo_shrinks). intros [] f w c. unfold WireInfo_step. step_total.
Qed.


(** ** The user index fast path *)

Lemma all_bytes (p : Z -> bool) : forallb p (seqZ 0 256) = true -> forall b, is_byte b -> p b = true.
Proof.
  intros H b Hb. rewrite forallb_forall in H. apply H, list_elem_of_In, elem_of_seqZ. unfold is_byte in Hb. lia.
Qed.

Lemma info_tag_byte tag :
  is_byte tag -> negb (Z.land tag 135 =? 0) || (tag <? 8) = false -> 8 <= tag < 128 /\ tag mod 8 = 0.
Proof.
  intros Hb H. pose proof (all_bytes (fun t => (negb (Z.land t 135 =? 0) || (t <? 8)) ||
    ((8 <=? t) && (t <? 128) && (t mod 8 =? 0))) eq_refl tag Hb) as Ha. cbv beta in Ha.
  rewrite H in Ha. cbn [orb] in Ha. unbool. done.
Qed.

Lemma byte_high b : is_byte b -> (Z.land b 128 =? 0) = (b <? 128).
Proof.
  intros Hb. pose proof (all_bytes (fun t => eqb (Z.land t 128 =? 0) (t <? 128)) eq_refl b Hb) as H.
  by apply eqb_prop in H.
Qed.

Lemma position_end_spec rest n :
  Forall is_byte rest -> position_end rest = Some n ->
  (n < length rest)%nat /\ terminated (take (S n) rest).
Proof.
  intros HF. revert n. induction HF as [|b rest Hb HF IH]; intros n; simpl; [done|].
  rewrite byte_high by done. unfold is_byte in Hb. destruct (Z.ltb_spec b 128).
  - intros [= <-]. split; [lia|]. exists [], b. split_and!; [done|constructor|lia|lia].
  - destruct (position_end rest) as [m|]; [|done]. intros [= <-].
    destruct (IH m eq_refl) as (Hm & init & l & Heq & Hi & Hl). split; [lia|].
    exists (b :: init), l. cbn [take] in *. rewrite Heq. split_and!; [done| |lia|lia].
    constructor; [lia|done].
Qed.

(** A varint field of [Info] advances the parse and touches the user index
    only when it is field 5. *)
Lemma info_turn st tag b r :
  8 <= tag < 128 -> tag mod 8 = 0 -> terminated b -> (length b <= 9)%nat ->
  exists v st', (forall r, read_varint (b ++ r) = Ok (v, r)) /\
    parse WireInfo_step st (tag :: b ++ r) = parse WireInfo_step st' r /\
    user_sid st' = if tag =? 40 then Some (as_i32 v) else user_sid st.
Proof.
  intros Ht Hm Hb Hlen. destruct (read_varint_short b Hb Hlen) as (v & Hv & Hr).
  exists v. destruct st as [ver ts cs u sid vis].
  assert (exists st', WireInfo_step (mkWireInfo ver ts cs u sid vis) (tag / 8) 0 (b ++ r) = Ok (st', r) /\
    user_sid st' = if tag =? 40 then Some (as_i32 v) else sid) as (st' & Hst & Hu).
  { pose proof (Hr r) as Hrv. pose proof (skip_varint _ _ _ Hrv) as Hsk. unfold WireInfo_step, arm_varint, skip_arm.
    rewrite read_varint_i64_spec, Hrv. change (0 =? WIRE_VARINT) with true. rewrite !andb_true_r.
    change 0 with WIRE_VARINT. rewrite Hsk. cbn [lift mbind result_bind].
    repeat match goal with |- context [(tag / 8 =? ?k)] => destruct (Z.eqb_spec (tag / 8) k) end.
    all: eexists; split; [done|]; cbn [user_sid]; destruct (Z.eqb_spec tag 40); try done; exfalso; dlia. }
  exists st'. split_and!; [intros r'; apply Hr| |done].
  eapply (parse_turn _ WireInfo_shrinks); [|exact Hst].
  rewrite read_tag_byte by lia. by rewrite Hm.
Qed.

Lemma user_sid_loop_spec fuel data i user st :
  Forall is_byte data -> (length data - i <= fuel)%nat -> user_sid st = user ->
  parse WireInfo_step WireInfo_default data = parse WireInfo_step st (drop i data) ->
  user_sid_loop fuel data i user = user_sid <$> WireInfo_parse data.
Proof.
  intros HF. revert i user st. induction fuel as [|fuel IH]; intros i user st Hf Hu Hp; cbn [user_sid_loop].
  all: destruct (data !! i) as [tag|] eqn:Htag.
  2, 4: apply lookup_ge_None in Htag; rewrite drop_ge, parse_nil in Hp by done;
    unfold WireInfo_parse; rewrite Hp, <- Hu; done.
  { apply lookup_lt_Some in Htag. lia. }
  pose proof (lookup_lt_Some _ _ _ Htag) as Hlt.
  destruct (negb (Z.land tag 135 =? 0) || (tag <? 8)) eqn:Hc; [done|].
  destruct (info_tag_byte tag (Forall_lookup_1 _ _ _ _ HF Htag) Hc) as [Ht Hm].
  destruct (position_end (drop (S i) data)) as [n|] eqn:Hpos; [|done].
  destruct (position_end_spec _ _ (Forall_drop _ _ _ HF) Hpos) as [Hn Hterm].
  rewrite length_drop in Hn. destruct (Nat.leb_spec 9 n); [done|].
  destruct (info_turn st tag _ (drop (S n) (drop (S i) data)) Ht Hm Hterm) as (v & st' & Hv & Hturn & Hu').
  { rewrite length_take. lia. }
  rewrite take_drop in Hturn. rewrite (drop_S _ _ _ Htag) in Hp. rewrite <- Hp in Hturn.
  rewrite drop_drop in Hturn. replace (S i + S n)%nat with (S i + n + 1)%nat in Hturn by lia.
  change (Z.shiftl 5 3) with 40. destruct (tag =? 40) eqn:H40.
  - unfold slice. rewrite decide_True by lia. cbn [ok_or mbind result_bind].
    replace (S i + n + 1 - S i)%nat with (S n) by lia.
    specialize (Hv []). rewrite app_nil_r in Hv. rewrite Hv. cbn [lift mbind result_bind].
    apply (IH _ _ st'); [lia|done|congruence].
  - apply (IH _ _ st'); [lia|congruence|congruence].
Qed.

(** The user-index fast path agrees with the full parse on every byte
    string: [user_sid_of] is the [user_sid] that [WireInfo::parse] returns, or
    the same error. *)
Theorem user_sid_of_agrees (data : bytes) :
  Forall is_byte data -> user_sid_of data = user_sid <$> WireInfo_parse data.
Proof.
  intros HF. apply (user_sid_loop_spec _ _ _ _ WireInfo_default); [done|lia|done|done].
Qed.

End Total.


Lemma user_sid_of_agrees_witness :
  user_sid_of (P := RefProto.ref_proto) [8; 3; 40; 150; 1; 40; 7] = Ok (Some 7).
Proof.
  rewrite (user_sid_of_agrees (L := RefProto.ref_laws)).
  - reflexivity.
  - unfold is_byte. repeat (apply Forall_cons_2; [lia|]). apply Forall_nil_2.
Defined.
