(* ===== verification/WireBlock.v ===== *)
(** * The block's inline tables (src/src/read/wire.rs)

    A scan of a PrimitiveBlock records where its strings and groups lie as
    [(u32, u32)] pairs, [inline_tables] appends the pairs to the block's own
    buffer, and [get] and [group] read them back from there.  A slice's offset
    in the buffer is a pointer difference in the source; here it is computed
    from the length of what the cursor has left. *)

From S2P Require Import Prelude Proto Wire.

Section Block.
Context {P : Protohoggr}.

(** [bytes.as_ptr() - buffer.as_ptr()] for a slice [b] the cursor has just
    returned, [c] being what is left of a message of [total] bytes that starts
    at [base]. *)
Definition slice_offset (base total : Z) (b c : bytes) : Z := base + (total - blen c - blen b).

Abbreviation entry_list := (list (Z * Z)).

Definition scan_entries_step (base total : Z) (out : entry_list) (field wt : Z) (c : bytes)
  : result WireError (entry_list * bytes) :=
  if arm_len 1 field wt then
    '(b, c) ← lift (read_len_delimited c);
    Ok (out ++ [(as_u32 (slice_offset base total b c), as_u32 (blen b))], c)
  else skip_arm out wt c.

Definition scan_entries (base : Z) (data : bytes) : result WireError entry_list :=
  parse (scan_entries_step base (blen data)) [] data.

Record BlockFields := mkBlockFields {
  granularity : Z; lat_offset : Z; lon_offset : Z; date_granularity : Z }.

(** The locals of [scan_block_fields]. *)
Record ScanState := mkScan {
  sc_fields : BlockFields; sc_st_offset : Z; sc_st_len : Z; sc_groups : entry_list }.

Definition scan_block_step (total : Z) (s : ScanState) (field wt : Z) (c : bytes)
  : result WireError (ScanState * bytes) :=
  let 'mkScan (mkBlockFields g lat lon dg as f) so sl gs := s in
  if arm_len 1 field wt then
    '(b, c) ← lift (read_len_delimited c);
    Ok (mkScan f (slice_offset 0 total b c) (blen b) gs, c)
  else if arm_len 2 field wt then
    '(b, c) ← lift (read_len_delimited c);
    Ok (mkScan f so sl (gs ++ [(as_u32 (slice_offset 0 total b c), as_u32 (blen b))]), c)
  else if arm_varint 17 field wt then
    '(g, c) ← read_int32 c "PrimitiveBlock.granularity exceeds int32";
    Ok (mkScan (mkBlockFields g lat lon dg) so sl gs, c)
  else if arm_varint 19 field wt then
    '(lat, c) ← lift (read_varint_i64 c); Ok (mkScan (mkBlockFields g lat lon dg) so sl gs, c)
  else if arm_varint 20 field wt then
    '(lon, c) ← lift (read_varint_i64 c); Ok (mkScan (mkBlockFields g lat lon dg) so sl gs, c)
  else if arm_varint 18 field wt then
    '(dg, c) ← read_int32 c "PrimitiveBlock.date_granularity exceeds int32";
    Ok (mkScan (mkBlockFields g lat lon dg) so sl gs, c)
  else skip_arm s wt c.

Definition scan_init : ScanState := mkScan (mkBlockFields 100 0 0 1000) 0 0 [].

(** The scalar fields, the string entries and the group entries. *)
Definition scan_block_fields (buffer : bytes)
  : result WireError (BlockFields * entry_list * entry_list) :=
  s ← parse (scan_block_step (blen buffer)) scan_init buffer;
  st_data ← (if 0 <? sc_st_len s then
               ok_or (slice buffer (Z.to_nat (sc_st_offset s)) (Z.to_nat (sc_st_offset s + sc_st_len s))) Panic
             else Ok []);
  st ← scan_entries (sc_st_offset s) st_data;
  Ok (sc_fields s, st, sc_groups s).

Record WireBlockMeta := mkMeta {
  proto_len : Z; st_inline_offset : Z; st_inline_count : Z;
  gr_inline_offset : Z; gr_inline_count : Z; meta_fields : BlockFields }.

Definition pair_bytes (e : Z * Z) : bytes := to_le 4 e.1 ++ to_le 4 e.2.

Definition inline_tables (buf : bytes) (st gr : entry_list) (f : BlockFields) : bytes * WireBlockMeta :=
  let buf1 := buf ++ concat (pair_bytes <$> st) in
  let buf2 := buf1 ++ concat (pair_bytes <$> gr) in
  (buf2, mkMeta (as_u32 (blen buf)) (as_u32 (blen buf)) (as_u32 (Z.of_nat (length st)))
           (as_u32 (blen buf1)) (as_u32 (Z.of_nat (length gr))) f).

Record WireStringTable := mkStringTable { tb_buffer : bytes; entries_offset : Z; entries_count : Z }.

Record WireBlock := mkWireBlock {
  wb_buffer : bytes; stringtable : WireStringTable;
  group_ranges_offset : Z; group_ranges_count : Z; wb_fields : BlockFields; wb_proto_len : Z }.

Definition from_inline (buffer : bytes) (m : WireBlockMeta) : WireBlock :=
  mkWireBlock buffer (mkStringTable buffer (st_inline_offset m) (st_inline_count m))
    (gr_inline_offset m) (gr_inline_count m) (meta_fields m) (proto_len m).

(** The pair at byte [base] and the slice it names; [None] is a panic. *)
Definition read_pair_slice (buffer : bytes) (base : nat) : option bytes :=
  o ← slice buffer base (base + 4);
  l ← slice buffer (base + 4) (base + 8);
  slice buffer (Z.to_nat (from_le o)) (Z.to_nat (from_le o + from_le l)).

(** [WireStringTable::get]; the outer [None] is a panic. *)
Definition table_get (t : WireStringTable) (index : nat) : option (option bytes) :=
  if entries_count t <=? Z.of_nat index then Some None
  else
    let base := (Z.to_nat (entries_offset t) + index * 8)%nat in
    if (length (tb_buffer t) <? base + 8)%nat then Some None
    else b ← read_pair_slice (tb_buffer t) base; Some (Some b).

Definition group_count (b : WireBlock) : Z := group_ranges_count b.

Definition group (b : WireBlock) (index : nat) : option bytes :=
  read_pair_slice (wb_buffer b) (Z.to_nat (group_ranges_offset b) + index * 8).

(** ** The slices themselves *)

(** What the same scans see when they keep the slices instead of offsets. *)
Definition strings_step (out : list bytes) (field wt : Z) (c : bytes)
  : result WireError (list bytes * bytes) :=
  if arm_len 1 field wt then '(b, c) ← lift (read_len_delimited c); Ok (out ++ [b], c)
  else skip_arm out wt c.

(** The last string table and the groups of a block. *)
Definition sections_step (s : bytes * list bytes) (field wt : Z) (c : bytes)
  : result WireError ((bytes * list bytes) * bytes) :=
  if arm_len 1 field wt then '(b, c) ← lift (read_len_delimited c); Ok ((b, s.2), c)
  else if arm_len 2 field wt then '(b, c) ← lift (read_len_delimited c); Ok ((s.1, s.2 ++ [b]), c)
  else skip_arm s wt c.

End Block.

(** ** Offsets name the slices *)

Section Tables.
Context `{L : ProtohoggrLaws}.

(** The entry names the slice [b] of [buffer]. *)
Definition names (buffer : bytes) (e : Z * Z) (b : bytes) : Prop :=
  0 <= e.1 /\ e.2 = blen b /\ e.1 + e.2 <= blen buffer /\
  slice buffer (Z.to_nat e.1) (Z.to_nat (e.1 + e.2)) = Some b.

Lemma slice_middle (h b t : bytes) : slice (h ++ b ++ t) (length h) (length h + length b) = Some b.
Proof.
  unfold slice. rewrite decide_True by (rewrite !length_app; lia).
  rewrite drop_app_length. replace (length h + length b - length h)%nat with (length b) by lia.
  by rewrite take_app_length.
Qed.

Lemma slice_app_l (l k : bytes) a b r : slice l a b = Some r -> slice (l ++ k) a b = Some r.
Proof.
  unfold slice. destruct (decide (a <= b /\ b <= length l)%nat) as [[Ha Hb]|]; [|done].
  intros [= <-]. rewrite decide_True by (rewrite length_app; lia).
  rewrite drop_app_le by lia. by rewrite take_app_le by (rewrite length_drop; lia).
Qed.

(** A slice the cursor returns while scanning [data], placed in [buffer]. *)
Lemma slice_offset_names buffer h0 data t0 c b c' :
  buffer = h0 ++ data ++ t0 -> blen buffer < 2 ^ 32 -> c `suffix_of` data ->
  read_len_delimited c = Ok (b, c') ->
  names buffer (as_u32 (slice_offset (blen h0) (blen data) b c'), as_u32 (blen b)) b.
Proof.
  intros -> Hlt [h ->] Hr. apply read_len_delimited_split in Hr as [h2 ->].
  unfold names, slice_offset, blen in *. rewrite !length_app in *. cbn [fst snd].
  change (2 ^ 32) with 4294967296 in Hlt. rewrite !as_u_id by width. split_and!; [lia|lia|lia|].
  pose proof (slice_middle (h0 ++ h ++ h2) b (c' ++ t0)) as Hs. rewrite !length_app in Hs.
  rewrite <- !app_assoc in Hs |- *. rewrite <- Hs. f_equal; [by rewrite <- (app_assoc b)|lia|lia].
Qed.

Lemma scan_entries_shrinks base total : shrinks (scan_entries_step base total).
Proof.
  intros st f w c st' c' H. unfold scan_entries_step in H. destruct (arm_len 1 f w).
  - apply bind_ok in H as ([b c1] & Hr%lift_ok & H). simplify_eq. by eapply read_len_delimited_moves.
  - by eapply skip_arm_shrinks.
Qed.

Lemma scan_entries_names buffer h0 data t0 st :
  buffer = h0 ++ data ++ t0 -> blen buffer < 2 ^ 32 ->
  scan_entries (blen h0) data = Ok st ->
  exists strings, parse strings_step [] data = Ok strings /\ Forall2 (names buffer) st strings.
Proof.
  intros Hb Hlt. unfold scan_entries.
  apply (parse_sim _ _ (fun st ss => Forall2 (names buffer) st ss)).
  - apply scan_entries_shrinks.
  - intros x y f w c x' c' Hc HR H. unfold scan_entries_step in H. unfold strings_step.
    destruct (arm_len 1 f w).
    + apply bind_ok in H as ([b c1] & Hr & H). rewrite Hr. apply lift_ok in Hr. simplify_eq.
      eexists. split; [done|]. apply Forall2_app; [done|]. constructor; [|constructor].
      by eapply slice_offset_names.
    + unfold skip_arm in *. apply bind_ok in H as (c1 & Hr & H). rewrite Hr. simplify_eq. eauto.
  - constructor.
Qed.

Definition scan_related (buffer : bytes) (s : ScanState) (t : bytes * list bytes) : Prop :=
  (exists h0 t0, buffer = h0 ++ t.1 ++ t0 /\ (t.1 = [] \/ sc_st_offset s = blen h0)) /\
  sc_st_len s = blen t.1 /\ Forall2 (names buffer) (sc_groups s) t.2.

Lemma read_int32_ok c msg v c' : read_int32 c msg = Ok (v, c') -> read_varint_i64 c = Ok (v, c').
Proof.
  unfold read_int32. intros H. apply bind_ok in H as ([z c1] & Hr%lift_ok & H).
  destruct (_ && _); simplify_eq. done.
Qed.

Lemma scan_block_shrinks total : shrinks (scan_block_step total).
Proof.
  intros [[]] f w c st' c' H. unfold scan_block_step in H.
  repeat match type of H with context [if ?b then _ else _] => destruct b end.
  all: try by eapply skip_arm_shrinks.
  all: apply bind_ok in H as ([? ?] & H & ?); simplify_eq.
  all: first [apply lift_ok in H|apply read_int32_ok in H].
  all: first [by apply read_varint_i64_moves in H|by apply read_len_delimited_moves in H].
Qed.

(** A varint read by the scan is skipped by the reference. *)
Lemma skip_read_varint {St} (st : St) c v c' :
  read_varint_i64 c = Ok (v, c') -> skip_arm st WIRE_VARINT c = Ok (st, c').
Proof.
  rewrite read_varint_i64_spec. destruct (read_varint c) as [[z c1]|] eqn:Hr; [|done].
  intros [= _ <-]. unfold skip_arm. by rewrite (skip_varint _ _ _ Hr).
Qed.

Lemma arm_varint_spec f field wt : arm_varint f field wt = true -> field = f /\ wt = WIRE_VARINT.
Proof. unfold arm_varint. intros [?%Z.eqb_eq ?%Z.eqb_eq]%andb_true_iff. done. Qed.

Lemma scan_block_sections buffer s :
  blen buffer < 2 ^ 32 ->
  parse (scan_block_step (blen buffer)) scan_init buffer = Ok s ->
  exists t, parse sections_step ([], []) buffer = Ok t /\ scan_related buffer s t.
Proof.
  intros Hlt. apply (parse_sim _ _ (scan_related buffer)).
  - apply scan_block_shrinks.
  - intros [[g lat lon dg] so sl gs] [tb grs] f w c x' c' Hc (Htb & Hsl & Hgs) H.
    unfold scan_block_step in H. unfold sections_step. cbn [fst snd sc_st_offset sc_st_len sc_groups] in *.
    destruct (arm_len 1 f w); [|destruct (arm_len 2 f w)].
    + apply bind_ok in H as ([b c1] & Hr & H). rewrite Hr. apply lift_ok in Hr. simplify_eq.
      eexists. split; [done|]. split_and!; [|done|done].
      destruct Hc as [h ->]. apply read_len_delimited_split in Hr as [h2 ->].
      exists (h ++ h2), c'. cbn [fst snd]. split; [by rewrite <- app_assoc|]. right.
      unfold slice_offset, blen. cbn [sc_st_offset]. rewrite !length_app. lia.
    + apply bind_ok in H as ([b c1] & Hr & H). rewrite Hr. apply lift_ok in Hr. simplify_eq.
      eexists. split; [done|]. split_and!; [done|done|]. cbn [fst snd sc_groups].
      apply Forall2_app; [done|]. constructor; [|constructor].
      apply (slice_offset_names buffer [] buffer [] c b c'); [by rewrite app_nil_r|done..].
    + repeat match type of H with
      | (if ?b then _ else _) = _ => destruct b eqn:?
      end.
      all: try match goal with
        | Hv : arm_varint _ _ _ = true |- _ =>
            apply arm_varint_spec in Hv as [-> ->];
            apply bind_ok in H as ([v c1] & Hr & H); simplify_eq;
            first [apply lift_ok in Hr|apply read_int32_ok in Hr];
            rewrite (skip_read_varint _ _ _ _ Hr); eexists; split; [done|]; split_and!; done
        end.
      unfold skip_arm in *. apply bind_ok in H as (c1 & Hr & H). rewrite Hr. simplify_eq.
      eexists. split; [done|]. split_and!; done.
  - split_and!; [|done|constructor]. exists [], buffer. split; [done|by left].
Qed.

(** ** Reading the tables back *)

Lemma length_pairs (l : list (Z * Z)) : length (concat (pair_bytes <$> l)) = (length l * 8)%nat.
Proof.
  induction l as [|e l IH]; [done|]. cbn [fmap list_fmap concat length]. rewrite length_app.
  unfold pair_bytes at 1. rewrite length_app, !length_to_le. cbn [fmap list_fmap] in IH. lia.
Qed.

Lemma pair_slices (pre post : bytes) l i e :
  l !! i = Some e ->
  let buffer := pre ++ concat (pair_bytes <$> l) ++ post in
  let base := (length pre + i * 8)%nat in
  slice buffer base (base + 4) = Some (to_le 4 e.1) /\
  slice buffer (base + 4) (base + 8) = Some (to_le 4 e.2).
Proof.
  intros Hi. apply list_elem_of_split_length in Hi as (l1 & l2 & -> & ->). cbv zeta.
  rewrite fmap_app, concat_app. cbn [fmap list_fmap concat]. unfold pair_bytes at 2 5.
  set (A := concat (pair_bytes <$> l1)). set (B := concat (list_fmap _ _ pair_bytes l2)).
  assert (length A = (length l1 * 8)%nat) as HA by apply length_pairs.
  split.
  - pose proof (slice_middle (pre ++ A) (to_le 4 e.1) (to_le 4 e.2 ++ B ++ post)) as H.
    rewrite length_app, HA, length_to_le in H. rewrite <- H. f_equal. by rewrite <- !app_assoc.
  - pose proof (slice_middle (pre ++ A ++ to_le 4 e.1) (to_le 4 e.2) (B ++ post)) as H.
    rewrite !length_app, HA, !length_to_le in H. rewrite <- H. f_equal; [by rewrite <- !app_assoc|lia|lia].
Qed.

Lemma read_pair_names (buf pre post : bytes) l i e b ext :
  l !! i = Some e -> names buf e b -> blen buf < 2 ^ 32 ->
  pre ++ concat (pair_bytes <$> l) ++ post = buf ++ ext ->
  read_pair_slice (buf ++ ext) (length pre + i * 8) = Some b.
Proof.
  intros Hi (H0 & Hlen & Hle & Hs) Hlt Heq. unfold read_pair_slice.
  destruct (pair_slices pre post l i e Hi) as [H1 H2]. rewrite Heq in H1, H2.
  rewrite H1. obind. rewrite H2. obind.
  change (2 ^ 32) with 4294967296 in Hlt. unfold blen in Hle, Hlt, Hlen.
  rewrite !from_to_le_u by (change (8 * Z.of_nat 4) with 32; width). by apply slice_app_l.
Qed.

(** The scan's entries name the strings and groups of the reference parse. *)
Lemma scan_fields_names buf f st gr :
  scan_block_fields buf = Ok (f, st, gr) -> blen buf < 2 ^ 32 ->
  exists table groups strings,
    parse sections_step ([], []) buf = Ok (table, groups) /\ parse strings_step [] table = Ok strings /\
    Forall2 (names buf) st strings /\ Forall2 (names buf) gr groups.
Proof.
  intros Hscan Hb. unfold scan_block_fields in Hscan.
  apply bind_ok in Hscan as (s & Hs & Hscan). apply bind_ok in Hscan as (sd & Hsd & Hscan).
  apply bind_ok in Hscan as (st' & Hst & Hscan). injection Hscan as _ -> <-.
  destruct (scan_block_sections buf s Hb Hs) as ([tb grs] & Hsec & (h0 & t0 & Hbuf & Hoff) & Hlen & Hgr).
  cbn [fst snd] in *. destruct (Z.ltb_spec 0 (sc_st_len s)) as [Hpos|Hz].
  - destruct Hoff as [->|Hoff]; [unfold blen in Hlen; simpl in Hlen; lia|].
    assert (sd = tb) as ->.
    { rewrite Hoff, Hlen, Hbuf in Hsd. pose proof (slice_middle h0 tb t0) as Hm. unfold blen in Hsd.
      rewrite Nat2Z.id, <- Nat2Z.inj_add, Nat2Z.id, Hm in Hsd. by injection Hsd. }
    rewrite Hoff in Hst. destruct (scan_entries_names buf h0 tb t0 st Hbuf Hb Hst) as (ss & Hss & Hnm).
    by exists tb, grs, ss.
  - assert (tb = []) as -> by (destruct tb; [done|unfold blen in Hlen; simpl in Hlen; lia]).
    injection Hsd as <-. unfold scan_entries in Hst. rewrite parse_nil in Hst. injection Hst as <-.
    exists [], grs, []. split_and!; [done|apply parse_nil|constructor|done].
Qed.

(** Entries written behind the buffer read back as the slices they name. *)
Lemma inline_tables_names buf f st gr strings groups :
  Forall2 (names buf) st strings -> Forall2 (names buf) gr groups ->
  blen buf + 8 * Z.of_nat (length st + length gr) < 2 ^ 32 ->
  let '(buf', meta) := inline_tables buf st gr f in
  let blk := from_inline buf' meta in
  (forall i, table_get (stringtable blk) i = Some (strings !! i)) /\
  group_count blk = Z.of_nat (length groups) /\
  (forall i g, groups !! i = Some g -> group blk i = Some g) /\
  wb_fields blk = f.
Proof.
  intros Hnm Hgr Hlt. unfold inline_tables. cbv zeta.
  pose proof (Forall2_length _ _ _ Hnm) as Hl1. pose proof (Forall2_length _ _ _ Hgr) as Hl2.
  unfold from_inline, group_count, group, table_get.
  cbn [stringtable wb_buffer group_ranges_offset group_ranges_count wb_fields tb_buffer entries_offset
    entries_count st_inline_offset st_inline_count gr_inline_offset gr_inline_count meta_fields].
  assert (blen (buf ++ concat (pair_bytes <$> st)) = blen buf + 8 * Z.of_nat (length st)) as Hb1
    by (unfold blen; rewrite length_app, length_pairs; lia).
  change (2 ^ 32) with 4294967296 in *. rewrite Hb1, !as_u_id by (unfold blen in *; width).
  split_and!; try done.
  - intros i. destruct (Z.leb_spec (Z.of_nat (length st)) (Z.of_nat i)).
    { by rewrite (lookup_ge_None_2 strings) by lia. }
    destruct (lookup_lt_is_Some_2 st i) as [e He]; [lia|].
    destruct (Forall2_lookup_l _ _ _ _ _ Hnm He) as (b & Hbi & Hn). rewrite Hbi.
    destruct (Nat.ltb_spec (length ((buf ++ concat (pair_bytes <$> st)) ++ concat (pair_bytes <$> gr)))
      (Z.to_nat (blen buf) + i * 8 + 8)) as [Hbad|_].
    { rewrite !length_app, !length_pairs in Hbad. unfold blen in Hbad. lia. }
    unfold blen. rewrite Nat2Z.id, <- app_assoc.
    rewrite (read_pair_names buf buf (concat (pair_bytes <$> gr)) st i e b); [done..| |done].
    change (2 ^ 32) with 4294967296. lia.
  - lia.
  - intros i g Hg. destruct (Forall2_lookup_r _ _ _ _ _ Hgr Hg) as (e & He & Hn).
    replace (Z.to_nat (blen buf + 8 * Z.of_nat (length st)))
      with (length (buf ++ concat (pair_bytes <$> st))) by (unfold blen in Hb1 |- *; lia).
    rewrite <- app_assoc.
    apply (read_pair_names buf _ [] gr i e g); [done..| |].
    + change (2 ^ 32) with 4294967296. lia.
    + by rewrite app_nil_r, <- app_assoc.
Qed.

(** The inline tables are exact: for a block whose fields scan and whose
    buffer stays below 4 GiB with its tables appended, [get] returns the i-th
    string of the block's string table for every index (and nothing past it)
    and [group] the i-th group, without a panic: the byte slices are those the
    cursor itself yields. *)
Theorem block_tables_exact (buf : bytes) (f : BlockFields) (st gr : list (Z * Z)) :
  scan_block_fields buf = Ok (f, st, gr) ->
  blen buf + 8 * Z.of_nat (length st + length gr) < 2 ^ 32 ->
  let '(buf', meta) := inline_tables buf st gr f in
  let blk := from_inline buf' meta in
  exists table groups strings,
    parse sections_step ([], []) buf = Ok (table, groups) /\ parse strings_step [] table = Ok strings /\
    (forall i, table_get (stringtable blk) i = Some (strings !! i)) /\
    group_count blk = Z.of_nat (length groups) /\
    (forall i g, groups !! i = Some g -> group blk i = Some g) /\
    wb_fields blk = f.
Proof.
  intros Hscan Hlt.
  destruct (scan_fields_names buf f st gr Hscan ltac:(lia)) as (tb & grs & ss & Hsec & Hss & Hst & Hgr).
  pose proof (inline_tables_names buf f st gr ss grs Hst Hgr Hlt) as Hi.
  destruct (inline_tables buf st gr f) as [buf' meta]. by exists tb, grs, ss.
Qed.

End Tables.

(** A string table with "" and "A", and one group. *)
Definition sample_block : bytes := [10; 5; 10; 0; 10; 1; 65; 18; 2; 8; 1].
Definition sample_scan : BlockFields * list (Z * Z) * list (Z * Z) :=
  (mkBlockFields 100 0 0 1000, [(4, 0); (6, 1)], [(9, 2)]).

Lemma block_tables_exact_witness :
  scan_block_fields (P := RefProto.ref_proto) sample_block = Ok sample_scan /\
  exists b', group (from_inline (fst (inline_tables sample_block sample_scan.1.2 sample_scan.2 sample_scan.1.1))
                     (snd (inline_tables sample_block sample_scan.1.2 sample_scan.2 sample_scan.1.1))) 0 = Some b' /\
    b' = [8; 1].
Proof.
  split; [reflexivity|].
  pose proof (block_tables_exact (L := RefProto.ref_laws) sample_block (mkBlockFields 100 0 0 1000)
    [(4, 0); (6, 1)] [(9, 2)]) as H.
  destruct H as (table & groups & strings & Hsec & _ & _ & _ & Hg & _); [reflexivity|reflexivity|].
  exists [8; 1]. split; [|done]. apply (Hg 0%nat [8; 1]).
  assert (parse (P := RefProto.ref_proto) sections_step ([], []) sample_block =
          Ok ([10; 0; 10; 1; 65], [[8; 1]])) as Hc by reflexivity.
  rewrite Hc in Hsec. injection Hsec as _ <-. reflexivity.
Defined.
