(* ===== verification/StringTable.v ===== *)
(** * The block-local string table (src/src/write/string_table.rs)

    One byte arena, one slot vector of [(start, end)] offsets and a hash index
    from string to slot.  The index is [hashbrown]'s [HashTable] with an FxHash
    hasher, neither part of the repository: [HashIndex] states their contract,
    an unordered bag of [(hash, slot)] pairs whose insertion may rehash every
    entry through the caller's hasher. *)

From S2P Require Import Prelude Proto Wire WireBlock.

Class HashIndex := {
  table : Type;
  table_empty : table;
  table_find : Z -> (Z -> bool) -> table -> option Z;
  (** [insert_unique(hash, value, hasher)] *)
  table_insert : Z -> Z -> (Z -> option Z) -> table -> table;
  hash : bytes -> Z;
  (** The stored pairs. *)
  content : table -> list (Z * Z);
  content_empty : content table_empty = [];
  find_some h eq t v : table_find h eq t = Some v -> (h, v) ∈ content t /\ eq v = true;
  find_none h eq t : table_find h eq t = None -> forall v, (h, v) ∈ content t -> eq v = false;
  content_insert h v hasher t :
    (forall h' v', (h', v') ∈ (h, v) :: content t -> hasher v' = Some h') ->
    forall e, e ∈ content (table_insert h v hasher t) <-> e = (h, v) \/ e ∈ content t;
}.

Section Table.
Context {P : Protohoggr} {H : HashIndex}.

Record StringTable := mkTable {
  st_bytes : bytes;
  slots : list (nat * nat);
  index : table }.

Definition StringTable_new : StringTable := mkTable [] [(0, 0)%nat] table_empty.

(** [get]; [None] is a panic. *)
Definition get (t : StringTable) (idx : nat) : option bytes :=
  '(start, stop) ← slots t !! idx;
  slice (st_bytes t) start stop.

(** The closure the index lookups compare with. *)
Definition slot_is (t : StringTable) (key : bytes) (i : Z) : bool :=
  bool_decide (get t (Z.to_nat i) = Some key).

Definition push_slot (t : StringTable) (key : bytes) : StringTable :=
  let start := length (st_bytes t) in
  let b := st_bytes t ++ key in
  mkTable b (slots t ++ [(start, length b)]) (index t).

Definition insert_index (t : StringTable) (h : Z) (idx : Z) : StringTable :=
  mkTable (st_bytes t) (slots t)
    (table_insert h idx (fun i => hash <$> get t (Z.to_nat i)) (index t)).

Definition add (t : StringTable) (key : bytes) : StringTable * Z :=
  let h := hash key in
  match table_find h (slot_is t key) (index t) with
  | Some idx => (t, idx)
  | None =>
      let next_idx := as_u32 (Z.of_nat (length (slots t))) in
      (insert_index (push_slot t key) h next_idx, next_idx)
  end.

Definition clear (t : StringTable) : StringTable := mkTable [] [(0, 0)%nat] table_empty.

(** One iteration of [pre_seed]'s loop. *)
Definition seed_one (t : StringTable) (entry : option bytes) : StringTable :=
  match entry with
  | None => t
  | Some key =>
      let h := hash key in
      let present := match table_find h (slot_is t key) (index t) with Some _ => true | None => false end in
      let idx := as_u32 (Z.of_nat (length (slots t))) in
      let t := push_slot t key in
      if present then t else insert_index t h idx
  end.

(** [entry i] is [block.string_table_entry(i)]. *)
Definition pre_seed (t : StringTable) (len : nat) (entry : nat -> option bytes) : StringTable :=
  let t := if (length (slots t) =? 1)%nat then t else clear t in
  foldl seed_one t (entry <$> seq 1 (len - 1)).

(** [varint_len] and [len_field_size] of src/src/write/encode.rs; [usize] is 64 bits. *)
Definition varint_len (value : Z) : Z :=
  let bits := 64 - (63 - Z.log2 (Z.lor value 1)) in
  (bits + 6) / 7.

Definition checked_add_usize (a b : Z) : option Z := if a + b <=? u64_max then Some (a + b) else None.

Definition len_field_size (body_len : Z) : option Z :=
  checked_add_usize (1 + varint_len (as_u64 body_len)) body_len.

(** [None] is the overflow error. *)
Fixpoint body_len_loop (acc : Z) (l : list (nat * nat)) : option Z :=
  match l with
  | [] => Some acc
  | (start, stop) :: l =>
      n ← len_field_size (Z.of_nat stop - Z.of_nat start);
      acc ← checked_add_usize acc n;
      body_len_loop acc l
  end.

Inductive EncodeError := Overflow | BodyLength (written body_len : Z) | EncodePanic.

Fixpoint encode_slots (t : StringTable) (l : list (nat * nat)) : option bytes :=
  match l with
  | [] => Some []
  | (start, stop) :: l =>
      b ← slice (st_bytes t) start stop;
      rest ← encode_slots t l;
      Some (encode_bytes_field_always 1 b ++ rest)
  end.

(** The bytes appended to [buf]. *)
Definition encode_to (t : StringTable) (buf : bytes) : result EncodeError bytes :=
  body_len ← ok_or (body_len_loop 0 (slots t)) Overflow;
  _ ← ok_or (len_field_size body_len) Overflow;
  let buf := buf ++ encode_tag 1 WIRE_LEN ++ encode_varint (as_u64 body_len) in
  body ← ok_or (encode_slots t (slots t)) EncodePanic;
  let written := blen body in
  if negb (written =? body_len) then Err (BodyLength written body_len)
  else Ok (buf ++ body).

(** ** Invariant *)

(** The strings of the slots, slot zero included. *)
Definition strings (t : StringTable) : list bytes :=
  (fun e => take (e.2 - e.1) (drop e.1 (st_bytes t))) <$> slots t.

Record wf (t : StringTable) : Prop := {
  wf_slots : Forall (fun e => e.1 <= e.2 /\ e.2 <= length (st_bytes t))%nat (slots t);
  wf_zero : slots t !! 0%nat = Some (0, 0)%nat;
  (** An index entry names a slot above zero and carries its hash. *)
  wf_index : forall h i, (h, i) ∈ content (index t) ->
    0 < i < Z.of_nat (length (slots t)) /\
    exists s, strings t !! Z.to_nat i = Some s /\ h = hash s;
  (** Every string above slot zero is found through the index. *)
  wf_complete : forall j s, (0 < j)%nat -> strings t !! j = Some s ->
    exists i, (hash s, i) ∈ content (index t) /\ strings t !! Z.to_nat i = Some s;
  (** One index entry per string. *)
  wf_unique : forall h i h' i' s, (h, i) ∈ content (index t) -> (h', i') ∈ content (index t) ->
    strings t !! Z.to_nat i = Some s -> strings t !! Z.to_nat i' = Some s -> i = i';
}.

Lemma length_strings t : length (strings t) = length (slots t).
Proof. apply length_fmap. Qed.

Lemma get_strings t i :
  Forall (fun e => e.1 <= e.2 /\ e.2 <= length (st_bytes t))%nat (slots t) -> get t i = strings t !! i.
Proof.
  intros HF. unfold get, strings. rewrite list_lookup_fmap.
  destruct (slots t !! i) as [[a b]|] eqn:Hs; [|done]. obind.
  pose proof (Forall_lookup_1 _ _ _ _ HF Hs) as Hab. simpl in *. unfold slice. by rewrite decide_True.
Qed.

Lemma strings_push t key :
  Forall (fun e => e.1 <= e.2 /\ e.2 <= length (st_bytes t))%nat (slots t) ->
  strings (push_slot t key) = strings t ++ [key] /\
  Forall (fun e => e.1 <= e.2 /\ e.2 <= length (st_bytes (push_slot t key)))%nat (slots (push_slot t key)).
Proof.
  intros HF. unfold strings, push_slot. cbn [st_bytes slots]. split.
  - rewrite fmap_app. f_equal.
    + apply list_fmap_ext. intros i [a b] Hi. pose proof (Forall_lookup_1 _ _ _ _ HF Hi) as Hab. cbn [fst snd] in *.
      rewrite drop_app_le by lia. apply take_app_le. rewrite length_drop. lia.
    + cbn [fmap list_fmap fst snd]. rewrite drop_app_length, length_app.
      by rewrite take_ge by lia.
  - apply Forall_app_2.
    + eapply Forall_impl; [exact HF|]. intros e He. cbv beta in *. rewrite length_app. lia.
    + constructor; [|constructor]. cbn [fst snd]. rewrite length_app. lia.
Qed.

Lemma strings_insert_index t h i : strings (insert_index t h i) = strings t.
Proof. done. Qed.

Lemma slot_is_spec t key i :
  wf t -> slot_is t key i = bool_decide (strings t !! Z.to_nat i = Some key).
Proof. intros Hwf. unfold slot_is. by rewrite get_strings by apply Hwf. Qed.

(** A failed lookup: the string is in no slot above zero. *)
Lemma find_absent t key j :
  wf t -> table_find (hash key) (slot_is t key) (index t) = None -> (0 < j)%nat ->
  strings t !! j <> Some key.
Proof.
  intros Hwf Hf Hj Hs. destruct (wf_complete t Hwf j key Hj Hs) as (i & Hi & Hsi).
  pose proof (find_none _ _ _ Hf i Hi) as Hb. rewrite slot_is_spec in Hb by done.
  by rewrite bool_decide_eq_true_2 in Hb.
Qed.

(** Appending a slot keeps the invariant when its string is new and indexed,
    or present already and not. *)
Lemma wf_push_new t key :
  wf t -> Z.of_nat (length (slots t)) < 2 ^ 32 ->
  table_find (hash key) (slot_is t key) (index t) = None ->
  wf (insert_index (push_slot t key) (hash key) (as_u32 (Z.of_nat (length (slots t))))).
Proof.
  intros Hwf Hlt Hf. pose proof (find_absent t key) as Habs.
  destruct (strings_push t key (wf_slots t Hwf)) as [Hstr HF].
  rewrite as_u_id by (unfold is_u; lia). set (n := Z.of_nat (length (slots t))).
  assert (0 < n) as Hn.
  { pose proof (lookup_lt_Some _ _ _ (wf_zero t Hwf)). lia. }
  assert (strings (push_slot t key) !! Z.to_nat n = Some key) as Hkey.
  { rewrite Hstr. subst n. rewrite Nat2Z.id, <- length_strings. by rewrite list_lookup_middle. }
  assert (forall i s, strings t !! i = Some s -> strings (push_slot t key) !! i = Some s) as Hold.
  { intros i s Hi. rewrite Hstr. by apply lookup_app_l_Some. }
  pose proof (content_insert (hash key) n (fun i => hash <$> get (push_slot t key) (Z.to_nat i)) (index t)) as Hc.
  cbn [insert_index] in *.
  assert (forall e, e ∈ content (index (insert_index (push_slot t key) (hash key) n)) <->
    e = (hash key, n) \/ e ∈ content (index t)) as Hcont.
  { apply Hc. intros h' v' [[= -> ->]|Hin]%elem_of_cons; rewrite get_strings by done.
    - by rewrite Hkey.
    - destruct (wf_index t Hwf _ _ Hin) as (_ & s & Hs & ->). by rewrite (Hold _ _ Hs). }
  split; cbn [slots st_bytes push_slot insert_index].
  - exact HF.
  - rewrite lookup_app_l by lia. apply Hwf.
  - intros h i [[= -> ->]|Hin]%Hcont; rewrite strings_insert_index, length_app; simpl length.
    + split; [lia|]. eauto.
    + destruct (wf_index t Hwf _ _ Hin) as (Hr & s & Hs & ->). split; [lia|]. eauto.
  - intros j s Hj. rewrite strings_insert_index. setoid_rewrite Hcont. rewrite Hstr at 1.
    intros [Hs|[Hge Hs]]%lookup_app_Some.
    + destruct (wf_complete t Hwf j s Hj Hs) as (i & Hi & Hsi). eauto.
    + apply list_lookup_singleton_Some in Hs as [_ ->]. eauto.
  - intros h i h' i' s Hi Hi'. rewrite strings_insert_index. apply Hcont in Hi, Hi'.
    assert (forall h i, (h, i) ∈ content (index t) -> strings (push_slot t key) !! Z.to_nat i = Some key -> False) as Hno.
    { intros h0 i0 H0 Hs. destruct (wf_index t Hwf _ _ H0) as (Hr & s0 & Hs0 & _).
      rewrite (Hold _ _ Hs0) in Hs. injection Hs as ->. by apply (Habs (Z.to_nat i0) Hwf Hf); [lia|]. }
    destruct Hi as [[= -> ->]|Hi], Hi' as [[= -> ->]|Hi']; intros Hs Hs'; [done| | |].
    + rewrite Hkey in Hs. injection Hs as <-. by destruct (Hno _ _ Hi' Hs').
    + rewrite Hkey in Hs'. injection Hs' as <-. by destruct (Hno _ _ Hi Hs).
    + destruct (wf_index t Hwf _ _ Hi) as (_ & s0 & Hs0 & _), (wf_index t Hwf _ _ Hi') as (_ & s1 & Hs1 & _).
      rewrite (Hold _ _ Hs0) in Hs. rewrite (Hold _ _ Hs1) in Hs'. simplify_eq.
      by apply (wf_unique t Hwf h i h' i' s).
Qed.

Lemma wf_push_present t key v :
  wf t -> table_find (hash key) (slot_is t key) (index t) = Some v -> wf (push_slot t key).
Proof.
  intros Hwf [Hin Hb]%find_some. rewrite slot_is_spec, bool_decide_eq_true in Hb by done.
  destruct (strings_push t key (wf_slots t Hwf)) as [Hstr HF].
  assert (forall i s, strings t !! i = Some s -> strings (push_slot t key) !! i = Some s) as Hold.
  { intros i s Hi. rewrite Hstr. by apply lookup_app_l_Some. }
  split; cbn [slots st_bytes push_slot index].
  - exact HF.
  - pose proof (lookup_lt_Some _ _ _ (wf_zero t Hwf)). rewrite lookup_app_l by lia. apply Hwf.
  - intros h i Hi. destruct (wf_index t Hwf _ _ Hi) as (Hr & s & Hs & ->). rewrite length_app. simpl length.
    split; [lia|]. eauto.
  - intros j s Hj. rewrite Hstr at 1. intros [Hs|[Hge Hs]]%lookup_app_Some.
    + destruct (wf_complete t Hwf j s Hj Hs) as (i & Hi & Hsi). eauto.
    + apply list_lookup_singleton_Some in Hs as [_ <-]. eauto.
  - intros h i h' i' s Hi Hi' Hs Hs'.
    destruct (wf_index t Hwf _ _ Hi) as (_ & s0 & Hs0 & _), (wf_index t Hwf _ _ Hi') as (_ & s1 & Hs1 & _).
    rewrite (Hold _ _ Hs0) in Hs. rewrite (Hold _ _ Hs1) in Hs'. simplify_eq.
    by apply (wf_unique t Hwf h i h' i' s).
Qed.

Lemma wf_fresh : wf StringTable_new.
Proof.
  split; cbn.
  - constructor; [simpl; lia|constructor].
  - done.
  - intros h i. rewrite content_empty. by intros ?%not_elem_of_nil.
  - intros [|[|j]] s Hj Hs; [lia|done|done].
  - intros h i h' i' s. rewrite content_empty. by intros ?%not_elem_of_nil.
Qed.

Lemma strings_fresh : strings StringTable_new = [[]].
Proof. done. Qed.

(** ** Interning *)

(** No string above slot zero is stored twice; true of tables that were not
    seeded from a source block. *)
Definition distinct (t : StringTable) : Prop :=
  forall i j s, (0 < i)%nat -> (0 < j)%nat -> strings t !! i = Some s -> strings t !! j = Some s -> i = j.

(** A later state of the table: slots keep their strings. *)
Definition extends (t t' : StringTable) : Prop :=
  strings t `prefix_of` strings t' /\ (distinct t -> distinct t').

#[export] Instance extends_preorder : PreOrder extends.
Proof.
  split; [by split|]. intros t1 t2 t3 [Hp1 Hd1] [Hp2 Hd2]. split; [by etrans|auto].
Qed.

Lemma distinct_fresh : distinct StringTable_new.
Proof. intros [|i] [|j] s Hi Hj; try lia. done. Qed.

Lemma distinct_snoc t t' key :
  strings t' = strings t ++ [key] -> (forall j, (0 < j)%nat -> strings t !! j <> Some key) -> distinct t -> distinct t'.
Proof.
  intros Hs Hnew Hd i j s Hi Hj. rewrite Hs.
  intros [Hsi|[Hgi Hsi]]%lookup_app_Some [Hsj|[Hgj Hsj]]%lookup_app_Some.
  - by eapply Hd.
  - apply list_lookup_singleton_Some in Hsj as [? <-]. by destruct (Hnew i Hi).
  - apply list_lookup_singleton_Some in Hsi as [? <-]. by destruct (Hnew j Hj).
  - apply list_lookup_singleton_Some in Hsi as [? _]. apply list_lookup_singleton_Some in Hsj as [? _]. lia.
Qed.

Lemma add_spec t key :
  wf t -> Z.of_nat (length (slots t)) < 2 ^ 32 ->
  let t' := (add t key).1 in let i := (add t key).2 in
  wf t' /\ extends t t' /\ (length (slots t') <= S (length (slots t)))%nat /\
  0 < i < 2 ^ 32 /\ strings t' !! Z.to_nat i = Some key /\
  add t' key = (t', i).
Proof.
  intros Hwf Hlt. unfold add. destruct (table_find (hash key) (slot_is t key) (index t)) as [v|] eqn:Hf.
  - cbn [fst snd]. pose proof Hf as [Hin Hb]%find_some.
    rewrite slot_is_spec, bool_decide_eq_true in Hb by done.
    destruct (wf_index t Hwf _ _ Hin) as (Hr & _). split_and!; [done|done|lia|lia|lia|done|].
    by rewrite Hf.
  - cbn [fst snd]. pose proof (wf_push_new t key Hwf Hlt Hf) as Hwf'.
    destruct (strings_push t key (wf_slots t Hwf)) as [Hstr _].
    pose proof (lookup_lt_Some _ _ _ (wf_zero t Hwf)) as H0.
    rewrite as_u_id in * by (unfold is_u; lia). set (n := Z.of_nat (length (slots t))) in *.
    set (t' := insert_index (push_slot t key) (hash key) n) in *.
    assert (strings t' !! Z.to_nat n = Some key) as Hkey.
    { subst t'. rewrite strings_insert_index, Hstr. subst n. rewrite Nat2Z.id, <- length_strings.
      by rewrite list_lookup_middle. }
    split_and!; [done| | |lia|lia|done|].
    + split; [subst t'; rewrite strings_insert_index, Hstr; by apply prefix_app_r|].
      apply (distinct_snoc t t' key); [subst t'; by rewrite strings_insert_index|].
      intros j Hj. by apply (find_absent t key j).
    + subst t'. cbn [slots insert_index push_slot]. rewrite length_app. simpl. lia.
    + assert ((hash key, n) ∈ content (index t')) as Hn.
      { destruct (wf_complete t' Hwf' (Z.to_nat n) key ltac:(lia) Hkey) as (i & Hi & Hsi).
        destruct (wf_index t' Hwf' _ _ Hi) as (Hr & _). destruct (Z.eq_dec i n) as [<-|Hne]; [done|].
        exfalso. apply (find_absent t key (Z.to_nat i) Hwf Hf); [lia|].
        subst t'. cbn [slots insert_index push_slot] in Hr. rewrite length_app in Hr. simpl in Hr.
        rewrite strings_insert_index, Hstr, lookup_app_l in Hsi by (rewrite length_strings; lia). done. }
      destruct (table_find (hash key) (slot_is t' key) (index t')) as [v|] eqn:Hf'.
      * apply find_some in Hf' as [Hin Hb]. rewrite slot_is_spec, bool_decide_eq_true in Hb by done.
        by rewrite (wf_unique t' Hwf' _ _ _ _ key Hin Hn).
      * by destruct (find_absent t' key (Z.to_nat n) Hwf' Hf' ltac:(lia)).
Qed.

(** ** Pre-seeding *)

Lemma seed_one_spec t key :
  wf t -> Z.of_nat (length (slots t)) < 2 ^ 32 ->
  wf (seed_one t (Some key)) /\ strings (seed_one t (Some key)) = strings t ++ [key].
Proof.
  intros Hwf Hlt. unfold seed_one. destruct (strings_push t key (wf_slots t Hwf)) as [Hstr _].
  destruct (table_find (hash key) (slot_is t key) (index t)) as [v|] eqn:Hf.
  - split; [by eapply wf_push_present|done].
  - split; [by apply wf_push_new|done].
Qed.

Lemma seed_all t keys :
  wf t -> Z.of_nat (length (slots t) + length keys) < 2 ^ 32 ->
  wf (foldl seed_one t (Some <$> keys)) /\ strings (foldl seed_one t (Some <$> keys)) = strings t ++ keys.
Proof.
  revert t. induction keys as [|key keys IH]; intros t Hwf Hlt; [by rewrite app_nil_r|].
  cbn [length] in Hlt. destruct (seed_one_spec t key Hwf ltac:(lia)) as [Hwf' Hs].
  cbn [fmap list_fmap foldl]. destruct (IH (seed_one t (Some key)) Hwf') as [Hw He].
  - rewrite <- length_strings, Hs, length_app, length_strings. cbn [length]. lia.
  - split; [done|]. etransitivity; [exact He|]. by rewrite Hs, <- app_assoc.
Qed.

Lemma lookups_tail (source : list bytes) :
  (fun i => source !! i) <$> seq 1 (length source - 1) = Some <$> tail source.
Proof.
  destruct source as [|x source]; [done|]. cbn [length tail]. rewrite Nat.sub_succ, Nat.sub_0_r.
  rewrite <- fmap_S_seq, <- list_fmap_compose.
  induction source as [|y source IH] using rev_ind; [done|].
  rewrite length_app, Nat.add_1_r, seq_S, !fmap_app. f_equal.
  - rewrite <- IH. apply list_fmap_ext. intros j k Hk. apply lookup_seq in Hk as [-> Hlt]. simpl.
    by rewrite lookup_app_l.
  - simpl. by rewrite list_lookup_middle.
Qed.

Lemma single_slot t : wf t -> length (slots t) = 1%nat -> strings t = [[]].
Proof.
  intros Hwf Hl. unfold strings. pose proof (wf_zero t Hwf) as H0.
  destruct (slots t) as [|e [|]]; try done. simpl in H0. injection H0 as ->. done.
Qed.

(** Whatever the table held, it holds the source strings after pre-seeding. *)
Lemma pre_seed_strings t source :
  wf t -> (0 < length source)%nat -> Z.of_nat (length source) < 2 ^ 32 ->
  let t' := pre_seed t (length source) (fun i => source !! i) in
  wf t' /\ strings t' = [] :: tail source.
Proof.
  intros Hwf H0 Hlt. unfold pre_seed. rewrite lookups_tail.
  set (t0 := if (length (slots t) =? 1)%nat then t else clear t).
  assert (wf t0 /\ strings t0 = [[]] /\ length (slots t0) = 1%nat) as (Hwf0 & Hs0 & Hl0).
  { subst t0. destruct (Nat.eqb_spec (length (slots t)) 1) as [H1|H1].
    - split_and!; [done|by apply single_slot|done].
    - split_and!; [apply wf_fresh|done|done]. }
  destruct (seed_all t0 (tail source) Hwf0) as [Hw He].
  - rewrite Hl0. destruct source; simpl in *; lia.
  - split; [done|]. rewrite He, Hs0. done.
Qed.

(** ** Encoding *)

Lemma varint_len_spec v : is_u64 v -> varint_len v = Z.log2 (Z.lor v 1) / 7 + 1.
Proof. intros Hv. unfold varint_len. pose proof (Z.log2_nonneg (Z.lor v 1)). dlia. Qed.

End Table.

Section Encode.
Context `{L : ProtohoggrLaws} {H : HashIndex}.

(** A string field of the table. *)
Abbreviation string_field := (encode_bytes_field_always 1).

Lemma string_field_len b :
  fits b -> blen (string_field b) = 1 + varint_len (as_u64 (blen b)) + blen b.
Proof.
  intros Hb. assert (is_u64 (blen b)) by (unfold fits, blen in *; change (2 ^ 63) with 9223372036854775808 in Hb; width).
  rewrite encode_bytes_field_always_spec, tag_byte, as_u_id, varint_len_spec, <- encode_varint_len by (done || lia).
  unfold blen. rewrite !length_app. simpl length. lia.
Qed.

Lemma len_field_size_spec b :
  fits b -> blen (string_field b) <= u64_max -> len_field_size (blen b) = Some (blen (string_field b)).
Proof.
  intros Hb Hle. unfold len_field_size, checked_add_usize. rewrite string_field_len in * by done.
  by rewrite (proj2 (Z.leb_le _ _)) by lia.
Qed.

(** The length computed from the slots is the length of the body written. *)
Lemma encode_slots_spec (b : bytes) (sl : list (nat * nat)) acc (ix : table) :
  let t := mkTable b sl ix in
  Forall (fun e => e.1 <= e.2 /\ e.2 <= length b)%nat sl ->
  let body := concat (string_field <$> strings t) in
  0 <= acc -> acc + blen body < 2 ^ 63 ->
  (forall all, encode_slots (mkTable b all ix) sl = Some body) /\
  body_len_loop acc sl = Some (acc + blen body).
Proof.
  cbv zeta. revert acc. induction sl as [|[x y] sl IH]; intros acc HF Hacc Hlt.
  { split; [done|]. simpl. f_equal. unfold blen. simpl. lia. }
  apply Forall_cons in HF as [Hxy HF]. cbn [fst snd] in Hxy.
  unfold strings in *. cbn [slots st_bytes fmap list_fmap concat fst snd] in *.
  set (s := take (y - x) (drop x b)) in *. rewrite blen_app in Hlt.
  set (body := concat _) in *. pose proof (blen_nonneg body) as Hb0. pose proof (blen_nonneg (string_field s)) as Hs0.
  assert (blen s = Z.of_nat y - Z.of_nat x) as Hsl.
  { subst s. unfold blen. rewrite length_take_le by (rewrite length_drop; lia). lia. }
  assert (fits s) as Hfit.
  { unfold fits. rewrite encode_bytes_field_always_spec, !blen_app in Hlt, Hs0.
    pose proof (blen_nonneg (encode_tag 1 WIRE_LEN)). pose proof (blen_nonneg (encode_varint (blen s))). lia. }
  destruct (IH (acc + blen (string_field s)) HF) as [He Hl]; [lia|lia|].
  split.
  - intros all. cbn [encode_slots st_bytes]. unfold slice. rewrite decide_True by done. obind.
    rewrite He. done.
  - cbn [body_len_loop]. rewrite <- Hsl, len_field_size_spec by (done || (unfold u64_max; lia)). obind.
    unfold checked_add_usize. rewrite (proj2 (Z.leb_le _ _)) by (unfold u64_max; lia). obind.
    rewrite Hl. f_equal. rewrite blen_app. lia.
Qed.

Lemma encode_to_spec t buf :
  wf t -> blen (concat (string_field <$> strings t)) < 2 ^ 62 ->
  encode_to t buf = Ok (buf ++ string_field (concat (string_field <$> strings t))).
Proof.
  intros Hwf Hlt. unfold encode_to. destruct t as [b sl ix].
  set (body := concat _) in *. pose proof (blen_nonneg body) as H0.
  destruct (encode_slots_spec b sl 0 ix (wf_slots _ Hwf)) as [He Hl]; [lia|fold body; lia|].
  fold body in He, Hl. cbn [slots]. rewrite Hl. cbn [ok_or mbind result_bind]. rewrite Z.add_0_l.
  assert (fits body) as Hf by (unfold fits; lia).
  rewrite len_field_size_spec; [|done|].
  - cbn [ok_or mbind result_bind]. rewrite He. cbn [ok_or mbind result_bind]. rewrite Z.eqb_refl. cbn [negb].
    rewrite encode_bytes_field_always_spec, as_u_id by (unfold is_u; lia). by rewrite <- !app_assoc.
  - rewrite string_field_len by done. rewrite as_u_id, varint_len_spec by (unfold is_u; lia).
    assert (Z.log2 (Z.lor (blen body) 1) < 64); [|unfold u64_max; dlia].
    rewrite Z.log2_lor by lia. change (Z.log2 1) with 0.
    destruct (Z.eq_dec (blen body) 0) as [->|]; [done|].
    assert (Z.log2 (blen body) < 62) by (apply Z.log2_lt_pow2; lia). lia.
Qed.

(** Reading a run of string fields. *)
Lemma strings_step_shrinks : shrinks strings_step.
Proof.
  intros st f w c st' c' Hs. unfold strings_step in Hs. destruct (arm_len 1 f w).
  - apply bind_ok in Hs as ([b c1] & Hr%lift_ok & Hs). simplify_eq. by eapply read_len_delimited_moves.
  - by eapply skip_arm_shrinks.
Qed.

Lemma parse_strings acc (l : list bytes) :
  Forall fits l -> parse strings_step acc (concat (string_field <$> l)) = Ok (acc ++ l).
Proof.
  intros HF. revert acc. induction HF as [|b l Hb _ IH]; intros acc.
  - rewrite app_nil_r. apply parse_nil.
  - cbn [fmap list_fmap concat]. rewrite encode_bytes_field_always_spec, <- !app_assoc.
    rewrite (parse_turn _ strings_step_shrinks acc _ 1 WIRE_LEN
      (encode_varint (blen b) ++ b ++ concat (string_field <$> l)) (acc ++ [b]) (concat (string_field <$> l))).
    + rewrite IH, <- app_assoc. done.
    + apply read_tag_encode; [lia|unfold WIRE_LEN; lia].
    + unfold strings_step. cbn [arm_len]. unfold arm_len. rewrite !Z.eqb_refl. cbn [andb].
      rewrite read_len_delimited_encode by done. done.
Qed.
(** ** Claims *)

Fixpoint add_all (t : StringTable) (keys : list bytes) : StringTable * list Z :=
  match keys with
  | [] => (t, [])
  | key :: keys =>
      let '(t1, i) := add t key in
      let '(t2, ixs) := add_all t1 keys in
      (t2, i :: ixs)
  end.

(** Index [i] is nonzero and names [key]. *)
Definition resolves (t : StringTable) (i : Z) (key : bytes) : Prop :=
  0 < i < 2 ^ 32 /\ strings t !! Z.to_nat i = Some key.

Lemma resolves_prefix t t' i key :
  extends t t' -> resolves t i key -> resolves t' i key.
Proof. intros [[k Hk] _] [Hi Hs]. split; [done|]. rewrite Hk. by apply lookup_app_l_Some. Qed.

Lemma add_all_spec t keys :
  wf t -> Z.of_nat (length (slots t) + length keys) < 2 ^ 32 ->
  let t' := (add_all t keys).1 in let ixs := (add_all t keys).2 in
  wf t' /\ extends t t' /\
  (length (slots t') <= length (slots t) + length keys)%nat /\ Forall2 (resolves t') ixs keys.
Proof.
  revert t. induction keys as [|key keys IH]; intros t Hwf Hlt; cbn [add_all length] in *.
  { cbn [fst snd]. split_and!; [done|done|lia|constructor]. }
  destruct (add_spec t key Hwf ltac:(lia)) as (Hwf1 & Hpre & Hlen & Hi & Hs & _).
  destruct (add t key) as [t1 i]. cbn [fst snd] in *.
  destruct (IH t1 Hwf1 ltac:(lia)) as (Hwf2 & Hpre2 & Hlen2 & HF).
  destruct (add_all t1 keys) as [t2 ixs]. cbn [fst snd] in *.
  split_and!; [done|by etrans|lia|]. constructor; [|done]. by eapply resolves_prefix.
Qed.

Lemma sections_step_shrinks : shrinks sections_step.
Proof.
  intros st f w c st' c' Hs. unfold sections_step in Hs. destruct (arm_len 1 f w); [|destruct (arm_len 2 f w)].
  1, 2: apply bind_ok in Hs as ([b c1] & Hr%lift_ok & Hs); simplify_eq; by eapply read_len_delimited_moves.
  by eapply skip_arm_shrinks.
Qed.

Lemma fits_list (l : list bytes) : blen (concat (string_field <$> l)) < 2 ^ 62 -> Forall fits l.
Proof.
  induction l as [|b l IH]; intros Hlt; [constructor|].
  cbn [fmap list_fmap concat] in Hlt. rewrite blen_app in Hlt.
  rewrite encode_bytes_field_always_spec, !blen_app in Hlt.
  pose proof (blen_nonneg (encode_tag 1 WIRE_LEN)). pose proof (blen_nonneg (encode_varint (blen b))).
  pose proof (blen_nonneg b). pose proof (blen_nonneg (concat (string_field <$> l))).
  constructor; [unfold fits; lia|]. apply IH. cbn [fmap list_fmap] in *. lia.
Qed.

(** String table round trip: intern any strings into a table, encode it as
    the block's string table and read the block back.  Encoding succeeds (the
    length computed from the slots is the length of the body written), the
    reader sees exactly the table's strings in slot order, and every index
    [add] returned is nonzero and names the interned string there. *)
Theorem string_table_roundtrip (t0 : StringTable) (keys : list bytes) :
  wf t0 -> Z.of_nat (length (slots t0) + length keys) < 2 ^ 32 ->
  blen (concat (string_field <$> strings (add_all t0 keys).1)) < 2 ^ 62 ->
  let t := (add_all t0 keys).1 in
  exists buf tb, encode_to t [] = Ok buf /\
    parse sections_step ([], []) buf = Ok (tb, []) /\ parse strings_step [] tb = Ok (strings t) /\
    Forall2 (fun i key => 0 < i /\ strings t !! Z.to_nat i = Some key) (add_all t0 keys).2 keys /\
    strings t0 `prefix_of` strings t.
Proof.
  intros Hwf Hlt Hsize. cbv zeta. destruct (add_all_spec t0 keys Hwf Hlt) as (Hwf' & Hpre & _ & HF).
  set (t := (add_all t0 keys).1) in *. set (body := concat (string_field <$> strings t)) in *.
  exists (string_field body), body. split_and!; [by rewrite encode_to_spec| | | |apply Hpre].
  - rewrite encode_bytes_field_always_spec, <- (app_nil_r body) at 1. rewrite <- (app_nil_r body) at 2.
    rewrite (parse_turn _ sections_step_shrinks _ _ 1 WIRE_LEN (encode_varint (blen body) ++ body ++ [])
      (body, []) []); [apply parse_nil| |].
    + rewrite app_nil_r. apply read_tag_encode; [lia|unfold WIRE_LEN; lia].
    + unfold sections_step, arm_len. rewrite !Z.eqb_refl. cbn [andb].
      rewrite read_len_delimited_encode by (unfold fits; lia). done.
  - apply (parse_strings []). by apply fits_list.
  - eapply Forall2_impl; [exact HF|]. intros i key [Hi Hs]. split; [lia|done].
Qed.

(** Pre-seeding is the identity on indices: whatever the table held before,
    after [pre_seed] from a block every slot above zero holds the block's string
    of the same index, duplicates and empty strings included, slot zero is the
    empty string, and interning a string of the block keeps all of them. *)
Theorem pre_seed_identity (t : StringTable) (source : list bytes) (key : bytes) :
  wf t -> (0 < length source)%nat -> Z.of_nat (length source) < 2 ^ 32 -> key ∈ tail source ->
  let t' := pre_seed t (length source) (fun i => source !! i) in
  strings t' = [] :: tail source /\
  (add t' key).1 = t' /\ resolves t' (add t' key).2 key.
Proof.
  intros Hwf H0 Hlt Hin. cbv zeta. destruct (pre_seed_strings t source Hwf H0 Hlt) as [Hwf' Hs].
  set (t' := pre_seed t _ _) in *. split; [done|].
  apply list_elem_of_lookup in Hin as [j Hj].
  assert (strings t' !! S j = Some key) as Hsj by (by rewrite Hs).
  destruct (add_spec t' key Hwf') as (_ & _ & _ & Hi & Hk & _).
  { rewrite <- length_strings, Hs. destruct source; simpl in *; lia. }
  assert ((add t' key).1 = t') as Heq.
  { unfold add. destruct (table_find (hash key) (slot_is t' key) (index t')) as [v|] eqn:Hf; [done|].
    by destruct (find_absent t' key (S j) Hwf' Hf ltac:(lia)). }
  split; [done|]. split; [done|]. by rewrite Heq in Hk.
Qed.

End Encode.

(** ** A concrete index *)

Module RefHash.

Definition find (h : Z) (eq : Z -> bool) (t : list (Z * Z)) : option Z :=
  snd <$> List.find (fun e => (e.1 =? h) && eq e.2) t.

#[export] Instance ref_index : HashIndex.
Proof.
  refine {| table := list (Z * Z); table_empty := []; table_find := find;
    table_insert := fun h v _ t => (h, v) :: t; hash := foldr Z.add 0; content := fun t => t |}.
  - reflexivity.
  - intros h eq t v. unfold find. destruct (List.find _ t) as [[h' v']|] eqn:Hf; [|done].
    intros [= <-]. apply List.find_some in Hf as [Hin Hb]. cbn [fst snd] in Hb. apply andb_true_iff in Hb as [Hh Hb]. apply Z.eqb_eq in Hh as ->.
    split; [by apply list_elem_of_In|done].
  - intros h eq t. unfold find. destruct (List.find _ t) as [[h' v']|] eqn:Hf; [done|].
    intros _ v Hin%list_elem_of_In. pose proof (List.find_none _ _ Hf _ Hin) as Hn. cbn [fst snd] in Hn.
    by rewrite Z.eqb_refl in Hn.
  - intros h v hasher t _ e. by rewrite elem_of_cons.
Defined.

End RefHash.

Lemma string_table_roundtrip_witness :
  let t0 := StringTable_new (H := RefHash.ref_index) in
  (add_all t0 [[104; 105]; []; [104; 105]]).2 = [1; 2; 1] /\
  exists buf tb, encode_to (P := RefProto.ref_proto) (add_all t0 [[104; 105]; []; [104; 105]]).1 [] = Ok buf /\
    parse (P := RefProto.ref_proto) sections_step ([], []) buf = Ok (tb, []).
Proof.
  intros t0. split; [reflexivity|].
  destruct (string_table_roundtrip (L := RefProto.ref_laws) (H := RefHash.ref_index) t0
    [[104; 105]; []; [104; 105]]) as (buf & tb & H1 & H2 & _).
  - apply wf_fresh.
  - reflexivity.
  - reflexivity.
  - exists buf, tb. split; [exact H1|exact H2].
Defined.

Lemma pre_seed_identity_witness :
  let t := pre_seed (StringTable_new (H := RefHash.ref_index)) 4 (fun i => [[]; [97]; [97]; []] !! i) in
  strings t = [[]; [97]; [97]; []] /\ (add t [97]).1 = t.
Proof.
  intros t.
  destruct (pre_seed_identity (H := RefHash.ref_index) StringTable_new [[]; [97]; [97]; []] [97]) as (Hs & Ha & _).
  - apply wf_fresh.
  - simpl. lia.
  - reflexivity.
  - simpl. set_solver.
  - split; [exact Hs|exact Ha].
Defined.
