(* ===== verification/Encode.v ===== *)
(** * Element encoders (src/src/write/encode.rs) and their readers

    Ways, relations and [Info] messages as the block builder writes them, over
    the string table and the protobuf primitives, together with the iterators
    of src/src/read/elements.rs that decode what was written.  The scratch
    buffers of the source are cleared before each use; here each is a value. *)

From S2P Require Import Prelude Proto Wire WireBlock StringTable.

Section Encode.
Context {P : Protohoggr} {H : HashIndex}.

Definition wrapping_sub_i64 (a b : Z) : Z := as_i64 (a - b).
Definition wrapping_add_i64 (a b : Z) : Z := as_i64 (a + b).

Record Metadata := mkMetadata {
  m_version : Z; m_timestamp : Z; m_changeset : Z; m_uid : Z; m_user : bytes; m_visible : bool }.

(** [varint_tag::<FIELD>()], [FIELD] in 1..=15 *)
Definition varint_tag (field : Z) : Z := as_u8 (Z.shiftl field 3).

Definition encode_optional_int32 (field value : Z) : bytes := [varint_tag field] ++ encode_varint (as_u64 value).
Definition encode_optional_int64 (field value : Z) : bytes := [varint_tag field] ++ encode_varint (as_u64 value).
Definition encode_optional_uint32 (field value : Z) : bytes := [varint_tag field] ++ encode_varint value.

Definition encode_info_to (t : StringTable) (meta : Metadata) : StringTable * bytes :=
  let '(t, sid) := add t (m_user meta) in
  (t, encode_optional_int32 1 (m_version meta) ++ encode_optional_int64 2 (m_timestamp meta) ++
      encode_optional_int64 3 (m_changeset meta) ++ encode_optional_int32 4 (m_uid meta) ++
      encode_optional_uint32 5 sid ++
      (if negb (m_visible meta) then [Z.shiftl 6 3; 0] else [])).

(** The loop of [encode_tags]: table, [keys_buf], [vals_buf], key indices. *)
Fixpoint encode_tags_loop (t : StringTable) (keys_buf vals_buf : bytes) (ki : gset Z)
    (tags : list (bytes * bytes)) : StringTable * bytes * bytes * gset Z :=
  match tags with
  | [] => (t, keys_buf, vals_buf, ki)
  | (key, val) :: tags =>
      let '(t, key_idx) := add t key in
      let '(t, val_idx) := add t val in
      encode_tags_loop t (keys_buf ++ encode_varint key_idx) (vals_buf ++ encode_varint val_idx)
        ({[ key_idx ]} ∪ ki) tags
  end.

Definition encode_tags (t : StringTable) (elem : bytes) (ki : gset Z) (tags : list (bytes * bytes))
  : StringTable * bytes * gset Z :=
  let '(t, keys_buf, vals_buf, ki) := encode_tags_loop t [] [] ki tags in
  let elem := match keys_buf with
              | [] => elem
              | _ => elem ++ encode_bytes_field 2 keys_buf ++ encode_bytes_field 3 vals_buf
              end in
  (t, elem, ki).

(** [encode_varint(packed, zigzag_encode_64(r.wrapping_sub(last_ref)))] *)
Fixpoint packed_deltas (last_ref : Z) (refs : list Z) : bytes :=
  match refs with
  | [] => []
  | r :: refs => encode_varint (zigzag_encode_64 (wrapping_sub_i64 r last_ref)) ++ packed_deltas r refs
  end.

Definition encode_metadata (t : StringTable) (elem : bytes) (metadata : option Metadata)
  : StringTable * bytes :=
  match metadata with
  | Some meta => let '(t, info) := encode_info_to t meta in (t, elem ++ encode_bytes_field 4 info)
  | None => (t, elem)
  end.

(** The element's bytes before they are wrapped as a group field. *)
Definition way_elem (t : StringTable) (ki : gset Z) (id : Z) (tags : list (bytes * bytes))
    (refs : list Z) (metadata : option Metadata) : StringTable * bytes * gset Z :=
  let elem := encode_int64_field 1 id in
  let '(t, elem, ki) := encode_tags t elem ki tags in
  let '(t, elem) := encode_metadata t elem metadata in
  let elem := match refs with
              | [] => elem
              | _ => elem ++ encode_bytes_field 8 (packed_deltas 0 refs)
              end in
  (t, elem, ki).

Definition encode_way (t : StringTable) (group_buf : bytes) (ki : gset Z) (id : Z)
    (tags : list (bytes * bytes)) (refs : list Z) (metadata : option Metadata)
  : StringTable * bytes * gset Z :=
  let '(t, elem, ki) := way_elem t ki id tags refs metadata in
  (t, group_buf ++ encode_bytes_field 3 elem, ki).

(** The three packed buffers of the zip loop.  The coordinates are [i32]s widened
    to [i64], so their plain difference stays in range and equals the wrapped one. *)
Definition way_loc_elem (t : StringTable) (ki : gset Z) (id : Z) (tags : list (bytes * bytes))
    (refs : list Z) (locations : list (Z * Z)) (metadata : option Metadata)
  : StringTable * bytes * gset Z :=
  let elem := encode_int64_field 1 id in
  let '(t, elem, ki) := encode_tags t elem ki tags in
  let '(t, elem) := encode_metadata t elem metadata in
  let pairs := zip refs locations in
  let elem := match refs with
              | [] => elem
              | _ => elem ++ encode_bytes_field 8 (packed_deltas 0 pairs.*1) ++
                       encode_bytes_field 9 (packed_deltas 0 pairs.*2.*1) ++
                       encode_bytes_field 10 (packed_deltas 0 pairs.*2.*2)
              end in
  (t, elem, ki).

Definition encode_way_with_locations (t : StringTable) (group_buf : bytes) (ki : gset Z) (id : Z)
    (tags : list (bytes * bytes)) (refs : list Z) (locations : list (Z * Z)) (metadata : option Metadata)
  : StringTable * bytes * gset Z :=
  let '(t, elem, ki) := way_loc_elem t ki id tags refs locations metadata in
  (t, group_buf ++ encode_bytes_field 3 elem, ki).

Definition opt_info_field (info : option bytes) : bytes :=
  match info with Some b => encode_bytes_field 4 b | None => [] end.

Definition way_raw_elem (id : Z) (keys vals refs : bytes) (info : option bytes) : bytes :=
  encode_int64_field 1 id ++ encode_bytes_field 2 keys ++ encode_bytes_field 3 vals ++
  opt_info_field info ++ encode_bytes_field 8 refs.

Definition encode_way_raw_bytes (group_buf : bytes) (id : Z) (keys vals refs : bytes) (info : option bytes)
  : bytes := group_buf ++ encode_bytes_field 3 (way_raw_elem id keys vals refs info).

Definition nonempty_field (field : Z) (b : bytes) : bytes :=
  match b with [] => [] | _ => encode_bytes_field field b end.

Definition way_raw_loc_elem (id : Z) (keys vals refs lat lon : bytes) (info : option bytes) : bytes :=
  encode_int64_field 1 id ++ encode_bytes_field 2 keys ++ encode_bytes_field 3 vals ++
  opt_info_field info ++ encode_bytes_field 8 refs ++ nonempty_field 9 lat ++ nonempty_field 10 lon.

Definition encode_way_raw_bytes_with_locations (group_buf : bytes) (id : Z)
    (keys vals refs lat lon : bytes) (info : option bytes) : bytes :=
  group_buf ++ encode_bytes_field 3 (way_raw_loc_elem id keys vals refs lat lon info).

(** ** Relations *)

Inductive MemberType := MNode | MWay | MRelation | MUnknown (v : Z).
Inductive MemberId := IdNode (id : Z) | IdWay (id : Z) | IdRelation (id : Z) | IdUnknown (v id : Z).

Definition member_id (m : MemberId) : Z :=
  match m with IdNode id | IdWay id | IdRelation id | IdUnknown _ id => id end.

Definition member_type (m : MemberId) : MemberType :=
  match m with
  | IdNode _ => MNode | IdWay _ => MWay | IdRelation _ => MRelation | IdUnknown v _ => MUnknown v
  end.

Definition member_type_value (mt : MemberType) : Z :=
  match mt with MNode => 0 | MWay => 1 | MRelation => 2 | MUnknown _ => 0 end.

Definition MemberType_from (v : Z) : MemberType :=
  if v =? 0 then MNode else if v =? 1 then MWay else if v =? 2 then MRelation else MUnknown v.

Definition from_id_and_type (id : Z) (mt : MemberType) : MemberId :=
  match mt with
  | MNode => IdNode id | MWay => IdWay id | MRelation => IdRelation id | MUnknown v => IdUnknown v id
  end.

Record MemberData := mkMember { md_id : MemberId; md_role : bytes }.

(** The roles loop: interning and the packed [int32] indices. *)
Fixpoint packed_roles (t : StringTable) (members : list MemberData) : StringTable * bytes :=
  match members with
  | [] => (t, [])
  | m :: members =>
      let '(t, idx) := add t (md_role m) in
      let '(t, rest) := packed_roles t members in
      (t, encode_varint (as_u64 (as_i32 idx)) ++ rest)
  end.

Definition packed_types (members : list MemberData) : bytes :=
  concat ((fun m => encode_varint (as_u64 (member_type_value (member_type (md_id m))))) <$> members).

Definition relation_elem (t : StringTable) (ki : gset Z) (id : Z) (tags : list (bytes * bytes))
    (members : list MemberData) (metadata : option Metadata) : StringTable * bytes * gset Z :=
  let elem := encode_int64_field 1 id in
  let '(t, elem, ki) := encode_tags t elem ki tags in
  let '(t, elem) := encode_metadata t elem metadata in
  match members with
  | [] => (t, elem, ki)
  | _ =>
      let '(t, roles) := packed_roles t members in
      (t, elem ++ encode_bytes_field 8 roles ++
          encode_bytes_field 9 (packed_deltas 0 ((fun m => member_id (md_id m)) <$> members)) ++
          encode_bytes_field 10 (packed_types members), ki)
  end.

Definition encode_relation (t : StringTable) (group_buf : bytes) (ki : gset Z) (id : Z)
    (tags : list (bytes * bytes)) (members : list MemberData) (metadata : option Metadata)
  : StringTable * bytes * gset Z :=
  let '(t, elem, ki) := relation_elem t ki id tags members metadata in
  (t, group_buf ++ encode_bytes_field 4 elem, ki).

Definition relation_raw_elem (id : Z) (keys vals roles memids types : bytes) (info : option bytes) : bytes :=
  encode_int64_field 1 id ++ encode_bytes_field 2 keys ++ encode_bytes_field 3 vals ++
  opt_info_field info ++ encode_bytes_field 8 roles ++ encode_bytes_field 9 memids ++
  encode_bytes_field 10 types.

Definition encode_relation_raw_bytes (group_buf : bytes) (id : Z)
    (keys vals roles memids types : bytes) (info : option bytes) : bytes :=
  group_buf ++ encode_bytes_field 4 (relation_raw_elem id keys vals roles memids types info).

(** [collect_checked_keys]: the set, and the first index not below [seeded]. *)
Fixpoint collect_loop (seeded : Z) (sids : list Z) (indices : gset Z) : gset Z * result Z unit :=
  match sids with
  | [] => (indices, Ok tt)
  | sid :: sids => if sid <? seeded then collect_loop seeded sids ({[ sid ]} ∪ indices)
                   else (indices, Err sid)
  end.

Definition collect_checked_keys (data : bytes) (seeded : Z) (indices : gset Z) : gset Z * result Z unit :=
  collect_loop seeded (packed_uint32 data) indices.

(** ** The decoding iterators of src/src/read/elements.rs *)

Fixpoint delta_sums (current : Z) (deltas : list Z) : list Z :=
  match deltas with
  | [] => []
  | d :: deltas => let c := wrapping_add_i64 current d in c :: delta_sums c deltas
  end.

(** [WayRefIter::delta_decoded(data)], drained *)
Definition delta_decoded (data : bytes) : list Z := delta_sums 0 (packed_sint64 data).

(** Two iterators advanced together and drained; [None] is the panic of
    [arrays_end_together] when one ends first. *)
Fixpoint lockstep {A B} (xs : list A) (ys : list B) : option (list (A * B)) :=
  match xs, ys with
  | [], [] => Some []
  | x :: xs, y :: ys => ((x, y) ::.) <$> lockstep xs ys
  | _, _ => None
  end.

(** [RawTagIter], drained *)
Definition raw_tags (keys vals : bytes) : option (list (Z * Z)) :=
  lockstep (packed_uint32 keys) (packed_uint32 vals).

(** [MemberIdIter], drained *)
Definition member_ids (memids types : bytes) : option (list MemberId) :=
  match lockstep (delta_decoded memids) (packed_int32 types) with
  | Some pairs => Some ((fun '(id, ty) => from_id_and_type id (MemberType_from ty)) <$> pairs)
  | None => None
  end.

(** [RelMemberIter], drained: role index and member *)
Definition rel_members (r : WireRelation) : option (list (Z * MemberId)) :=
  match member_ids (wr_memids r) (wr_types r) with
  | Some ids => lockstep (packed_int32 (wr_roles r)) ids
  | None => None
  end.

End Encode.

Lemma lockstep_zip {A B} (xs : list A) (ys : list B) :
  length xs = length ys -> lockstep xs ys = Some (zip xs ys).
Proof.
  revert ys. induction xs as [|x xs IH]; intros [|y ys] Hlen; simplify_eq/=; [done|]. by rewrite IH by lia.
Qed.

Section Roundtrip.
Context `{L : ProtohoggrLaws} {H : HashIndex}.

(** ** Delta arrays *)

Fixpoint deltas (last_ref : Z) (refs : list Z) : list Z :=
  match refs with
  | [] => []
  | r :: refs => wrapping_sub_i64 r last_ref :: deltas r refs
  end.

Lemma packed_deltas_concat last_ref refs :
  packed_deltas last_ref refs = concat ((fun z => encode_varint (zigzag_encode_64 z)) <$> deltas last_ref refs).
Proof. revert last_ref. induction refs as [|r refs IH]; intros l; [done|]. cbn. by rewrite IH. Qed.

Lemma deltas_i64 last_ref refs : Forall is_i64 (deltas last_ref refs).
Proof.
  revert last_ref. induction refs as [|r refs IH]; intros l; constructor; [|done]. apply as_s_range. lia.
Qed.

Lemma delta_sums_deltas last_ref refs : Forall is_i64 refs -> delta_sums last_ref (deltas last_ref refs) = refs.
Proof.
  intros HF. revert last_ref. induction HF as [|r refs Hr _ IH]; intros l; [done|].
  cbn [deltas delta_sums]. assert (wrapping_add_i64 l (wrapping_sub_i64 r l) = r) as Heq.
  { unfold wrapping_add_i64, wrapping_sub_i64, as_s. unfold is_s in Hr. width. }
  rewrite Heq. f_equal. apply IH.
Qed.

Lemma delta_roundtrip refs : Forall is_i64 refs -> delta_decoded (packed_deltas 0 refs) = refs.
Proof.
  intros HF. unfold delta_decoded. rewrite packed_deltas_concat, packed_sint64_encode by apply deltas_i64.
  by apply delta_sums_deltas.
Qed.

(** ** Fields *)

Section Fields.
Context {St : Type} (step : St -> Z -> Z -> bytes -> result WireError (St * bytes)) (Hs : shrinks step).

Lemma parse_bytes_field st f d r st' :
  1 <= f < 2 ^ 29 ->
  (d = [] -> st' = st) ->
  (d <> [] -> step st f WIRE_LEN (encode_varint (blen d) ++ d ++ r) = Ok (st', r)) ->
  parse step st (encode_bytes_field f d ++ r) = parse step st' r.
Proof.
  intros Hf Hnil Hcons. rewrite encode_bytes_field_spec. destruct d as [|b d]; [by rewrite Hnil|].
  rewrite encode_bytes_field_always_spec, <- !app_assoc.
  eapply (parse_turn _ Hs); [apply read_tag_encode; [done|unfold WIRE_LEN; lia]|]. by apply Hcons.
Qed.

Lemma parse_varint_field st f v r st' :
  1 <= f <= 15 -> step st f WIRE_VARINT (encode_varint v ++ r) = Ok (st', r) ->
  parse step st ([varint_tag f] ++ encode_varint v ++ r) = parse step st' r.
Proof.
  intros Hf Hst. eapply (parse_turn _ Hs); [|exact Hst].
  assert (varint_tag f = f * 8) as ->.
  { unfold varint_tag. rewrite Z.shiftl_mul_pow2 by lia. apply as_u_id. width. }
  cbn [app]. rewrite read_tag_byte by dlia. unfold WIRE_VARINT. do 4 f_equal; dlia.
Qed.

Lemma parse_int64_field st f v r st' :
  1 <= f < 2 ^ 29 -> (v = 0 -> st' = st) ->
  (v <> 0 -> step st f WIRE_VARINT (encode_varint (as_u64 v) ++ r) = Ok (st', r)) ->
  parse step st (encode_int64_field f v ++ r) = parse step st' r.
Proof.
  intros Hf H0 Hst. rewrite encode_int64_field_spec. destruct (Z.eqb_spec v 0) as [->|Hne]; [by rewrite H0|].
  rewrite <- app_assoc. eapply (parse_turn _ Hs); [|by apply Hst].
  apply read_tag_encode; [done|unfold WIRE_VARINT; lia].
Qed.
End Fields.

Lemma take_packed_fresh d r msg :
  fits d -> take_packed (encode_varint (blen d) ++ d ++ r) WIRE_LEN [] msg = Ok (d, r).
Proof.
  intros Hd. unfold take_packed. rewrite Z.eqb_refl, read_len_delimited_encode by done.
  cbn [lift mbind result_bind]. by destruct d.
Qed.

Lemma take_message_fresh d r msg :
  fits d -> take_message (encode_varint (blen d) ++ d ++ r) None msg = Ok (Some d, r).
Proof.
  intros Hd. unfold take_message. rewrite read_len_delimited_encode by done. done.
Qed.

(** Evaluates the match arms of a step at a literal field. *)
Ltac arms := unfold arm_varint, arm_len, arm_packed; cbn -[take_packed take_message encode_varint as_s as_u].

(** ** Ways and relations: raw passthrough *)

(** What an optional [Info] reads back as: an empty one is not written. *)
Definition info_read (info : option bytes) : option bytes :=
  match info with Some (_ :: _) => info | _ => None end.

Definition ofits (info : option bytes) : Prop := match info with Some b => fits b | None => True end.

Lemma parse_info_field {St} (step : St -> Z -> Z -> bytes -> result WireError (St * bytes))
    (Hs : shrinks step) (with_info : option bytes -> St) info r msg :
  ofits info ->
  (forall c, step (with_info None) 4 WIRE_LEN c =
     ('(i, c) ← take_message c None msg; Ok (with_info i, c))) ->
  parse step (with_info None) (opt_info_field info ++ r) = parse step (with_info (info_read info)) r.
Proof.
  intros Hf Hst. destruct info as [[|b d]|]; cbn [opt_info_field info_read].
  - by rewrite encode_bytes_field_spec.
  - apply (parse_bytes_field _ Hs); [lia|done|]. intros _. rewrite Hst, take_message_fresh by done. done.
  - done.
Qed.

Lemma nonempty_field_eq f b : nonempty_field f b = encode_bytes_field f b.
Proof. unfold nonempty_field. destruct b; [|done]. by rewrite encode_bytes_field_spec. Qed.

Lemma way_id_turn w id r :
  is_i64 id -> ww_id w = 0 ->
  parse WireWay_step w (encode_int64_field 1 id ++ r) =
  parse WireWay_step (mkWireWay id (ww_keys w) (ww_vals w) (ww_refs w) (ww_lat w) (ww_lon w) (ww_info w) (ww_pins w)) r.
Proof.
  intros Hid H0. destruct w as [i k v rf la lo inf pn]. cbn in H0. subst i. cbn. apply (parse_int64_field _ WireWay_shrinks); [lia|by intros ->|].
  intros _. arms. rewrite read_varint_i64_encode by done. done.
Qed.

Lemma way_tail_parse id keys vals refs lat lon info :
  Forall fits [keys; vals; refs; lat; lon] -> ofits info -> is_i64 id ->
  WireWay_parse (way_raw_loc_elem id keys vals refs lat lon info) =
    Ok (mkWireWay id keys vals refs lat lon (info_read info) None).
Proof.
  intros HF Hi Hid. apply Forall_cons in HF as [Hk HF]. apply Forall_cons in HF as [Hv HF].
  apply Forall_cons in HF as [Hr HF]. apply Forall_cons in HF as [Hlat HF]. apply Forall_cons in HF as [Hlon _].
  unfold WireWay_parse, way_raw_loc_elem. rewrite way_id_turn by done. cbn [ww_keys ww_vals ww_refs ww_lat ww_lon ww_info ww_pins].
  rewrite !nonempty_field_eq.
  rewrite (parse_bytes_field _ WireWay_shrinks _ 2 keys _ (mkWireWay id keys [] [] [] [] None None));
    [|lia|by intros ->|intros _; arms; rewrite take_packed_fresh by done; done].
  rewrite (parse_bytes_field _ WireWay_shrinks _ 3 vals _ (mkWireWay id keys vals [] [] [] None None));
    [|lia|by intros ->|intros _; arms; rewrite take_packed_fresh by done; done].
  rewrite (parse_info_field _ WireWay_shrinks (fun i => mkWireWay id keys vals [] [] [] i None) info _ DUP_WAY_INFO);
    [|done|intros c; by arms].
  rewrite (parse_bytes_field _ WireWay_shrinks _ 8 refs _ (mkWireWay id keys vals refs [] [] (info_read info) None));
    [|lia|by intros ->|intros _; arms; rewrite take_packed_fresh by done; done].
  rewrite (parse_bytes_field _ WireWay_shrinks _ 9 lat _ (mkWireWay id keys vals refs lat [] (info_read info) None));
    [|lia|by intros ->|intros _; arms; rewrite take_packed_fresh by done; done].
  rewrite <- (app_nil_r (encode_bytes_field 10 lon)).
  rewrite (parse_bytes_field _ WireWay_shrinks _ 10 lon _ (mkWireWay id keys vals refs lat lon (info_read info) None));
    [|lia|by intros ->|intros _; arms; rewrite take_packed_fresh by done; done].
  apply parse_nil.
Qed.

Lemma relation_tail_parse id keys vals roles memids types info :
  Forall fits [keys; vals; roles; memids; types] -> ofits info -> is_i64 id ->
  WireRelation_parse (relation_raw_elem id keys vals roles memids types info) =
    Ok (mkWireRelation id keys vals roles memids types (info_read info)).
Proof.
  intros HF Hi Hid. apply Forall_cons in HF as [Hk HF]. apply Forall_cons in HF as [Hv HF].
  apply Forall_cons in HF as [Hr HF]. apply Forall_cons in HF as [Hm HF]. apply Forall_cons in HF as [Ht _].
  unfold WireRelation_parse, relation_raw_elem.
  rewrite (parse_int64_field _ WireRelation_shrinks _ 1 id _ (mkWireRelation id [] [] [] [] [] None));
    [|lia|by intros ->|intros _; arms; rewrite read_varint_i64_encode by done; done].
  rewrite (parse_bytes_field _ WireRelation_shrinks _ 2 keys _ (mkWireRelation id keys [] [] [] [] None));
    [|lia|by intros ->|intros _; arms; rewrite take_packed_fresh by done; done].
  rewrite (parse_bytes_field _ WireRelation_shrinks _ 3 vals _ (mkWireRelation id keys vals [] [] [] None));
    [|lia|by intros ->|intros _; arms; rewrite take_packed_fresh by done; done].
  rewrite (parse_info_field _ WireRelation_shrinks (fun i => mkWireRelation id keys vals [] [] [] i) info _ DUP_REL_INFO);
    [|done|intros c; by arms].
  rewrite (parse_bytes_field _ WireRelation_shrinks _ 8 roles _ (mkWireRelation id keys vals roles [] [] (info_read info)));
    [|lia|by intros ->|intros _; arms; rewrite take_packed_fresh by done; done].
  rewrite (parse_bytes_field _ WireRelation_shrinks _ 9 memids _ (mkWireRelation id keys vals roles memids [] (info_read info)));
    [|lia|by intros ->|intros _; arms; rewrite take_packed_fresh by done; done].
  rewrite <- (app_nil_r (encode_bytes_field 10 types)).
  rewrite (parse_bytes_field _ WireRelation_shrinks _ 10 types _ (mkWireRelation id keys vals roles memids types (info_read info)));
    [|lia|by intros ->|intros _; arms; rewrite take_packed_fresh by done; done].
  apply parse_nil.
Qed.

(** ** Groups *)

Lemma msg_next_field n target d r :
  1 <= target < 2 ^ 29 -> d <> [] -> fits d ->
  msg_next (S n) target (encode_bytes_field target d ++ r) = Some (d, r).
Proof.
  intros Ht Hne Hd. rewrite encode_bytes_field_spec. destruct d as [|b d]; [done|].
  rewrite encode_bytes_field_always_spec, <- !app_assoc. cbn [msg_next].
  rewrite read_tag_encode by (done || (unfold WIRE_LEN; lia)). rewrite !Z.eqb_refl. cbn [andb].
  by rewrite read_len_delimited_encode.
Qed.

Lemma field_length f d : 1 <= f < 2 ^ 29 -> d <> [] -> fits d -> (0 < length (encode_bytes_field f d))%nat.
Proof.
  intros Hf Hne Hd. rewrite encode_bytes_field_spec. destruct d as [|b d]; [done|].
  rewrite encode_bytes_field_always_spec, !length_app. simpl. lia.
Qed.

Lemma messages_fields target elems :
  1 <= target < 2 ^ 29 -> Forall (fun d => d <> [] /\ fits d) elems ->
  messages target (concat (encode_bytes_field target <$> elems)) = elems.
Proof.
  intros Ht HF. unfold messages.
  assert (forall n, (length (concat (encode_bytes_field target <$> elems)) < n)%nat ->
    messages_loop n target (concat (encode_bytes_field target <$> elems)) = elems) as Hn; [|apply Hn; lia].
  induction HF as [|d elems [Hne Hd] _ IH]; intros n Hlt.
  - destruct n as [|n]; [done|]. cbn [fmap list_fmap concat messages_loop length msg_next].
    by rewrite read_tag_nil.
  - cbn [fmap list_fmap concat] in *. rewrite length_app in Hlt.
    pose proof (field_length target d Ht Hne Hd). destruct n as [|n]; [lia|].
    cbn [messages_loop]. rewrite msg_next_field by done. f_equal. apply IH. lia.
Qed.

(** Raw passthrough is lossless: ways whose packed arrays are
    copied field by field into a group come back from the group iterators in
    order, and each parses to the same id, arrays and [Info] (an empty [Info]
    reads as absent). *)
Theorem raw_passthrough (ways : list (Z * bytes * bytes * bytes * bytes * bytes * option bytes)) :
  Forall (fun '(id, keys, vals, refs, lat, lon, info) =>
    is_i64 id /\ Forall fits [keys; vals; refs; lat; lon] /\ ofits info /\
    way_raw_loc_elem id keys vals refs lat lon info <> [] /\
    fits (way_raw_loc_elem id keys vals refs lat lon info)) ways ->
  let group := foldl (fun g '(id, keys, vals, refs, lat, lon, info) =>
    encode_way_raw_bytes_with_locations g id keys vals refs lat lon info) [] ways in
  WireWay_parse <$> WireGroup_ways group =
    (fun '(id, keys, vals, refs, lat, lon, info) =>
       Ok (mkWireWay id keys vals refs lat lon (info_read info) None)) <$> ways.
Proof.
  intros HF. cbv zeta.
  set (elem := fun w : Z * bytes * bytes * bytes * bytes * bytes * option bytes =>
    let '(id, keys, vals, refs, lat, lon, info) := w in way_raw_loc_elem id keys vals refs lat lon info).
  assert (forall g, foldl (fun g '(id, keys, vals, refs, lat, lon, info) =>
    encode_way_raw_bytes_with_locations g id keys vals refs lat lon info) g ways =
    g ++ concat (encode_bytes_field 3 <$> (elem <$> ways))) as Hg.
  { clear HF. induction ways as [|w ways IH]; intros g; [by rewrite app_nil_r|].
    destruct w as [[[[[[id keys] vals] refs] lat] lon] info].
    cbn [foldl fmap list_fmap concat]. rewrite IH. unfold encode_way_raw_bytes_with_locations.
    by rewrite <- app_assoc. }
  rewrite Hg. cbn [app]. unfold WireGroup_ways. rewrite messages_fields; [|lia|].
  - rewrite <- list_fmap_compose. apply list_fmap_ext. intros i w Hw.
    pose proof (Forall_lookup_1 _ _ _ _ HF Hw) as Hok.
    destruct w as [[[[[[id keys] vals] refs] lat] lon] info]. destruct Hok as (Hid & Hf & Hi & _).
    simpl. by apply way_tail_parse.
  - apply Forall_fmap. eapply Forall_impl; [exact HF|].
    intros w Hok. destruct w as [[[[[[id keys] vals] refs] lat] lon] info]. simpl. tauto.
Qed.

(** ** Tags *)

Lemma packed_uint32_indices (t : StringTable) (ixs : list Z) keys :
  Forall2 (resolves t) ixs keys -> packed_uint32 (concat (encode_varint <$> ixs)) = ixs.
Proof.
  intros HF. apply packed_uint32_encode. induction HF as [|i k ixs keys [Hi _] _ IH]; constructor; [|done].
  unfold is_u. lia.
Qed.

Lemma Forall2_resolves_prefix t t' ixs keys :
  extends t t' -> Forall2 (resolves t) ixs keys -> Forall2 (resolves t') ixs keys.
Proof. intros Hp HF. eapply Forall2_impl; [exact HF|]. intros i k. by apply resolves_prefix. Qed.

Lemma encode_tags_loop_spec tags t kb vb ki :
  wf t -> Z.of_nat (length (slots t) + 2 * length tags) < 2 ^ 31 ->
  let '(t', kb', vb', ki') := encode_tags_loop t kb vb ki tags in
  wf t' /\ extends t t' /\
  (length (slots t') <= length (slots t) + 2 * length tags)%nat /\
  exists kis vis, kb' = kb ++ concat (encode_varint <$> kis) /\ vb' = vb ++ concat (encode_varint <$> vis) /\
    Forall2 (resolves t') kis tags.*1 /\ Forall2 (resolves t') vis tags.*2 /\ ki' = list_to_set kis ∪ ki.
Proof.
  revert t kb vb ki. induction tags as [|[key val] tags IH]; intros t kb vb ki Hwf Hlt; cbn [encode_tags_loop].
  { split_and!; [done|done|lia|]. exists [], []. cbn. rewrite !app_nil_r.
    split_and!; [done|done|constructor|constructor|set_solver]. }
  cbn [length] in Hlt. destruct (add_spec t key Hwf ltac:(lia)) as (Hwf1 & Hp1 & Hl1 & Hi1 & Hs1 & _).
  destruct (add t key) as [t1 k]. cbn [fst snd] in *.
  destruct (add_spec t1 val Hwf1 ltac:(lia)) as (Hwf2 & Hp2 & Hl2 & Hi2 & Hs2 & _).
  destruct (add t1 val) as [t2 v]. cbn [fst snd] in *.
  specialize (IH t2 (kb ++ encode_varint k) (vb ++ encode_varint v) ({[k]} ∪ ki) Hwf2 ltac:(lia)).
  destruct (encode_tags_loop t2 _ _ _ tags) as [[[t' kb'] vb'] ki'].
  destruct IH as (Hwf' & Hp & Hl & kis & vis & -> & -> & Hk & Hv & ->).
  split_and!; [done|by repeat (etrans; [eassumption|])|cbn [length]; lia|].
  exists (k :: kis), (v :: vis). cbn [fmap list_fmap concat fst snd]. rewrite <- !app_assoc.
  split_and!; [done|done| | |cbn [list_to_set]; set_solver].
  - constructor; [|done]. apply (resolves_prefix t1); [by etrans|]. by split; [lia|].
  - constructor; [|done]. apply (resolves_prefix t2); [done|]. by split; [lia|].
Qed.

(** ** Info *)

Definition meta_ok (m : Metadata) : Prop :=
  is_i32 (m_version m) /\ is_i64 (m_timestamp m) /\ is_i64 (m_changeset m) /\ is_i32 (m_uid m).

(** The parsed [Info] says what the metadata said; -1 versions and changesets
    read as absent, [visible] is written only when false. *)
Definition info_says (t : StringTable) (m : Metadata) (i : WireInfo) : Prop :=
  version i = drop_sentinel (Some (m_version m)) /\ timestamp i = Some (m_timestamp m) /\
  changeset i = drop_sentinel (Some (m_changeset m)) /\ uid i = Some (m_uid m) /\
  visible i = (if m_visible m then None else Some false) /\
  exists sid, user_sid i = Some sid /\ resolves t sid (m_user m).

Lemma as_i32_u64 v : is_i32 v -> as_i32 (as_u64 v) = v.
Proof. intros Hv. width. Qed.

Lemma i32_i64 v : is_i32 v -> is_i64 v.
Proof. intros Hv. width. Qed.

Lemma info_parse_spec t m :
  wf t -> Z.of_nat (length (slots t)) + 1 < 2 ^ 31 -> meta_ok m ->
  let '(t', info) := encode_info_to t m in
  wf t' /\ extends t t' /\ (length (slots t') <= S (length (slots t)))%nat /\
  info <> [] /\ exists i, WireInfo_parse info = Ok i /\ info_says t' m i.
Proof.
  intros Hwf Hlt (Hver & Hts & Hcs & Huid). unfold encode_info_to.
  destruct (add_spec t (m_user m) Hwf ltac:(lia)) as (Hwf1 & Hp1 & Hl1 & Hi1 & Hs1 & _).
  destruct (add t (m_user m)) as [t1 sid]. cbn [fst snd] in *.
  split_and!; [done|done|lia|by unfold encode_optional_int32|].
  assert (sid < 2 ^ 31) as Hsid.
  { pose proof (lookup_lt_Some _ _ _ Hs1). rewrite length_strings in *. lia. }
  assert (forall v, is_u64 (as_u64 v)) as Hu by (intros v; apply as_u_range; lia).
  unfold WireInfo_parse, encode_optional_int32, encode_optional_int64, encode_optional_uint32, WireInfo_default.
  set (vis := if negb (m_visible m) then _ else _). rewrite <- !app_assoc.
  rewrite (parse_varint_field _ WireInfo_shrinks _ 1 _ _ (mkWireInfo (Some (m_version m)) None None None None None));
    [|lia|arms; rewrite read_varint_encode by done; cbn [lift mbind result_bind]; rewrite as_i32_u64 by done; done].
  rewrite (parse_varint_field _ WireInfo_shrinks _ 2 _ _
    (mkWireInfo (Some (m_version m)) (Some (m_timestamp m)) None None None None));
    [|lia|arms; rewrite read_varint_i64_encode by done; done].
  rewrite (parse_varint_field _ WireInfo_shrinks _ 3 _ _
    (mkWireInfo (Some (m_version m)) (Some (m_timestamp m)) (Some (m_changeset m)) None None None));
    [|lia|arms; rewrite read_varint_i64_encode by done; done].
  rewrite (parse_varint_field _ WireInfo_shrinks _ 4 _ _
    (mkWireInfo (Some (m_version m)) (Some (m_timestamp m)) (Some (m_changeset m)) (Some (m_uid m)) None None));
    [|lia|arms; rewrite read_varint_encode by done; cbn [lift mbind result_bind]; rewrite as_i32_u64 by done; done].
  rewrite (parse_varint_field _ WireInfo_shrinks _ 5 _ _
    (mkWireInfo (Some (m_version m)) (Some (m_timestamp m)) (Some (m_changeset m)) (Some (m_uid m)) (Some sid) None));
    [|lia|arms; rewrite read_varint_encode by (unfold is_u; lia); cbn [lift mbind result_bind];
      rewrite as_s_id by (lia || (unfold is_s; lia)); done].
  assert (parse WireInfo_step (mkWireInfo (Some (m_version m)) (Some (m_timestamp m)) (Some (m_changeset m))
      (Some (m_uid m)) (Some sid) None) vis =
    Ok (mkWireInfo (Some (m_version m)) (Some (m_timestamp m)) (Some (m_changeset m)) (Some (m_uid m)) (Some sid)
      (if m_visible m then None else Some false))) as ->.
  { subst vis. destruct (m_visible m); cbn [negb]; [apply parse_nil|].
    change [Z.shiftl 6 3; 0] with ([varint_tag 6] ++ [0] ++ []).
    rewrite <- (encode_varint_small 0) at 1 by lia.
    rewrite (parse_varint_field _ WireInfo_shrinks _ 6 _ _ (mkWireInfo (Some (m_version m)) (Some (m_timestamp m))
      (Some (m_changeset m)) (Some (m_uid m)) (Some sid) (Some false))); [apply parse_nil|lia|].
    arms. rewrite read_varint_encode by (unfold is_u; lia). done. }
  cbn [mbind result_bind]. eexists. split; [done|]. unfold info_says. cbn [version timestamp changeset uid user_sid visible].
  split_and!; [done..|]. exists sid. split; [done|]. split; [lia|done].
Qed.

(** ** Elements *)

(** The metadata and what its [Info] bytes parse to. *)
Definition meta_read (t : StringTable) (meta : option Metadata) (info : option bytes) : Prop :=
  match meta, info with
  | None, None => True
  | Some m, Some b => b <> [] /\ exists i, WireInfo_parse b = Ok i /\ info_says t m i
  | _, _ => False
  end.

Lemma info_says_prefix t t' m i : extends t t' -> info_says t m i -> info_says t' m i.
Proof.
  intros Hp (H1 & H2 & H3 & H4 & H5 & sid & H6 & H7). do 5 (split; [done|]). exists sid.
  split; [done|]. by eapply resolves_prefix.
Qed.

Lemma meta_read_prefix t t' meta info :
  extends t t' -> meta_read t meta info -> meta_read t' meta info.
Proof.
  intros Hp. destruct meta as [m|], info as [b|]; cbn [meta_read]; try done.
  intros (Hne & i & Hi & Hs). split; [done|]. exists i. split; [done|]. by eapply info_says_prefix.
Qed.

Definition metas_ok (meta : option Metadata) : Prop := match meta with Some m => meta_ok m | None => True end.

Lemma tags_meta_spec t ki elem tags meta :
  wf t -> Z.of_nat (length (slots t) + 2 * length tags) + 1 < 2 ^ 31 -> metas_ok meta ->
  let '(t1, e1, ki') := encode_tags t elem ki tags in
  let '(t2, e2) := encode_metadata t1 e1 meta in
  wf t2 /\ extends t t2 /\
  (length (slots t2) <= length (slots t) + 2 * length tags + 1)%nat /\
  exists kis vis info,
    e2 = elem ++ encode_bytes_field 2 (concat (encode_varint <$> kis)) ++
           encode_bytes_field 3 (concat (encode_varint <$> vis)) ++ opt_info_field info /\
    Forall2 (resolves t2) kis tags.*1 /\ Forall2 (resolves t2) vis tags.*2 /\
    ki' = list_to_set kis ∪ ki /\ meta_read t2 meta info.
Proof.
  intros Hwf Hlt Hm. unfold encode_tags.
  pose proof (encode_tags_loop_spec tags t [] [] ki Hwf ltac:(lia)) as Hloop.
  destruct (encode_tags_loop t [] [] ki tags) as [[[t1 kb] vb] ki'].
  destruct Hloop as (Hwf1 & Hp1 & Hl1 & kis & vis & -> & -> & Hk & Hv & ->). rewrite !app_nil_l.
  set (e1 := match concat _ with [] => _ | _ => _ end).
  assert (e1 = elem ++ encode_bytes_field 2 (concat (encode_varint <$> kis)) ++
               encode_bytes_field 3 (concat (encode_varint <$> vis))) as ->.
  { subst e1. clear -L Hk Hv. destruct tags as [|[key val] tags]; inversion Hk as [|k ? kis' ? [Hk0 _] HF]; subst.
    - inversion Hv; subst. cbn [fmap list_fmap concat].
      rewrite !encode_bytes_field_spec. by rewrite !app_nil_r.
    - cbn [fmap list_fmap concat]. pose proof (encode_varint_pos k ltac:(unfold is_u; lia)).
      destruct (encode_varint k); [simpl in *; lia|done]. }
  destruct meta as [m|]; cbn [encode_metadata].
  - pose proof (info_parse_spec t1 m Hwf1 ltac:(lia) Hm) as Hinfo.
    destruct (encode_info_to t1 m) as [t2 info]. destruct Hinfo as (Hwf2 & Hp2 & Hl2 & Hne & i & Hi & Hs).
    split_and!; [done|by etrans|lia|]. exists kis, vis, (Some info). rewrite <- !app_assoc.
    split_and!; [done|by eapply Forall2_resolves_prefix|by eapply Forall2_resolves_prefix|done|].
    split; [done|]. eauto.
  - split_and!; [done|done|lia|]. exists kis, vis, None. cbn [opt_info_field]. rewrite app_nil_r.
    split_and!; done.
Qed.

Lemma field_ge f d : blen d <= blen (encode_bytes_field f d).
Proof.
  rewrite encode_bytes_field_spec. destruct d as [|b d]; [done|].
  rewrite encode_bytes_field_always_spec, !blen_app.
  pose proof (blen_nonneg (encode_tag f WIRE_LEN)). pose proof (blen_nonneg (encode_varint (blen (b :: d)))). lia.
Qed.

Lemma opt_info_fits info : blen (opt_info_field info) < 2 ^ 63 -> ofits info.
Proof. destruct info as [b|]; [|done]. cbn. unfold fits. pose proof (field_ge 4 b). lia. Qed.

Lemma meta_read_info t meta info : meta_read t meta info -> info_read info = info.
Proof. destruct meta, info as [[|]|]; cbn; try done. by intros [? _]. Qed.

(** The tag indices pair up with the tags they name. *)
Definition tags_say (t : StringTable) (pairs : option (list (Z * Z))) (tags : list (bytes * bytes)) : Prop :=
  exists ps, pairs = Some ps /\ Forall2 (fun p tag => resolves t p.1 tag.1 /\ resolves t p.2 tag.2) ps tags.

Lemma tags_say_intro t kis vis tags :
  Forall2 (resolves t) kis tags.*1 -> Forall2 (resolves t) vis tags.*2 ->
  tags_say t (raw_tags (concat (encode_varint <$> kis)) (concat (encode_varint <$> vis))) tags.
Proof.
  intros Hk Hv. unfold raw_tags. rewrite (packed_uint32_indices _ _ _ Hk), (packed_uint32_indices _ _ _ Hv).
  pose proof (Forall2_length _ _ _ Hk) as Hlk. pose proof (Forall2_length _ _ _ Hv) as Hlv.
  rewrite length_fmap in Hlk, Hlv. rewrite lockstep_zip by congruence. eexists. split; [done|]. clear Hlk Hlv.
  revert kis vis Hk Hv. induction tags as [|[k v] tags IH]; intros kis vis Hk Hv.
  - inversion Hk; subst. inversion Hv; subst. constructor.
  - inversion Hk; subst. inversion Hv; subst. constructor; [done|]. by apply IH.
Qed.

Lemma way_elem_parse id keys vals refs lat lon info :
  is_i64 id -> fits (way_raw_loc_elem id keys vals refs lat lon info) ->
  WireWay_parse (way_raw_loc_elem id keys vals refs lat lon info) =
    Ok (mkWireWay id keys vals refs lat lon (info_read info) None).
Proof.
  intros Hid Hfit. unfold fits, way_raw_loc_elem in Hfit. rewrite !blen_app, !nonempty_field_eq in Hfit.
  pose proof (field_ge 2 keys). pose proof (field_ge 3 vals). pose proof (field_ge 8 refs).
  pose proof (field_ge 9 lat). pose proof (field_ge 10 lon). pose proof (opt_info_fits info).
  pose proof (blen_nonneg (encode_int64_field 1 id)). pose proof (blen_nonneg (opt_info_field info)).
  pose proof (blen_nonneg keys). pose proof (blen_nonneg vals). pose proof (blen_nonneg refs).
  pose proof (blen_nonneg lat). pose proof (blen_nonneg lon).
  apply way_tail_parse; [|by auto with lia|done]. unfold fits.
  repeat (apply Forall_cons_2; [lia|]). apply Forall_nil_2.
Qed.

Lemma relation_elem_parse id keys vals roles memids types info :
  is_i64 id -> fits (relation_raw_elem id keys vals roles memids types info) ->
  WireRelation_parse (relation_raw_elem id keys vals roles memids types info) =
    Ok (mkWireRelation id keys vals roles memids types (info_read info)).
Proof.
  intros Hid Hfit. unfold fits, relation_raw_elem in Hfit. rewrite !blen_app in Hfit.
  pose proof (field_ge 2 keys). pose proof (field_ge 3 vals). pose proof (field_ge 8 roles).
  pose proof (field_ge 9 memids). pose proof (field_ge 10 types). pose proof (opt_info_fits info).
  pose proof (blen_nonneg (encode_int64_field 1 id)). pose proof (blen_nonneg (opt_info_field info)).
  pose proof (blen_nonneg keys). pose proof (blen_nonneg vals). pose proof (blen_nonneg roles).
  pose proof (blen_nonneg memids). pose proof (blen_nonneg types).
  apply relation_tail_parse; [|by auto with lia|done]. unfold fits.
  repeat (apply Forall_cons_2; [lia|]). apply Forall_nil_2.
Qed.

(** ** Elements against what was put in *)

(** The table after an encoder: well formed, extended, by at most [n] slots. *)
Definition grown (t t' : StringTable) (n : nat) : Prop :=
  wf t' /\ extends t t' /\ (length (slots t') <= length (slots t) + n)%nat.

(** The key indices collected for an element's tag keys. *)
Definition tracks (t : StringTable) (ki ki' : gset Z) (ks : list bytes) : Prop :=
  exists kis, ki' = list_to_set kis ∪ ki /\ Forall2 (resolves t) kis ks.

(** An array of complete varints of [w]-bit values. *)
Definition written (w : Z) (data : bytes) : Prop :=
  exists vs, Forall (is_u w) vs /\ data = concat (encode_varint <$> vs).

Lemma written_nil w : written w [].
Proof. exists []. split; [constructor|done]. Qed.

Lemma written_indices t kis ks : Forall2 (resolves t) kis ks -> written 32 (concat (encode_varint <$> kis)).
Proof.
  intros HF. exists kis. split; [|done]. induction HF as [|i k kis ks [Hi _] _ IH]; constructor; [|done].
  unfold is_u. lia.
Qed.

Lemma written_map {A} (f : A -> Z) w l :
  Forall (fun x => is_u w (f x)) l -> written w (concat ((fun x => encode_varint (f x)) <$> l)).
Proof. intros HF. exists (f <$> l). split; [by apply Forall_fmap|]. by rewrite <- list_fmap_compose. Qed.

Lemma written_deltas last refs : written 64 (packed_deltas last refs).
Proof.
  rewrite packed_deltas_concat. apply written_map. eapply Forall_impl; [apply deltas_i64|].
  intros z Hz. by apply zigzag_range.
Qed.

Definition way_written (w : WireWay) : Prop :=
  written 32 (ww_keys w) /\ written 32 (ww_vals w) /\ written 64 (ww_refs w) /\
  written 64 (ww_lat w) /\ written 64 (ww_lon w).

Definition way_says (t : StringTable) (w : WireWay) (id : Z) (tags : list (bytes * bytes)) (refs : list Z)
    (locations : list (Z * Z)) (meta : option Metadata) : Prop :=
  ww_id w = id /\ delta_decoded (ww_refs w) = refs /\
  lockstep (delta_decoded (ww_lat w)) (delta_decoded (ww_lon w)) = Some locations /\
  tags_say t (raw_tags (ww_keys w) (ww_vals w)) tags /\ meta_read t meta (ww_info w) /\ way_written w.

Lemma tags_say_prefix t t' ps tags :
  extends t t' -> tags_say t ps tags -> tags_say t' ps tags.
Proof.
  intros Hp (l & -> & HF). exists l. split; [done|]. eapply Forall2_impl; [exact HF|].
  intros p tag [Hk Hv]. split; by eapply resolves_prefix.
Qed.

Lemma way_says_prefix t t' w id tags refs locs meta :
  extends t t' -> way_says t w id tags refs locs meta -> way_says t' w id tags refs locs meta.
Proof.
  intros Hp (H1 & H2 & H3 & H4 & H5 & H6). unfold way_says.
  split_and!; [done|done|done|by eapply tags_say_prefix|by eapply meta_read_prefix|done].
Qed.

Lemma int64_field_nonempty id : id <> 0 -> is_i64 id -> encode_int64_field 1 id <> [].
Proof.
  intros Hne Hid. rewrite encode_int64_field_spec. destruct (Z.eqb_spec id 0); [done|].
  rewrite tag_byte by (unfold WIRE_VARINT; lia). done.
Qed.

Lemma delta_decoded_nil : delta_decoded [] = [].
Proof. apply (delta_roundtrip []). constructor. Qed.

Lemma lockstep_locations locations :
  Forall (fun l => is_i32 l.1 /\ is_i32 l.2) locations ->
  lockstep (delta_decoded (packed_deltas 0 locations.*1)) (delta_decoded (packed_deltas 0 locations.*2)) =
    Some locations.
Proof.
  intros HF. rewrite !delta_roundtrip, lockstep_zip, zip_fst_snd; [done|by rewrite !length_fmap|..].
  all: apply Forall_fmap; eapply Forall_impl; [exact HF|]; intros l [H1 H2]; by apply i32_i64.
Qed.

Lemma way_elem_spec t ki id tags refs meta :
  wf t -> Z.of_nat (length (slots t) + 2 * length tags) + 1 < 2 ^ 31 ->
  is_i64 id -> Forall is_i64 refs -> metas_ok meta ->
  let '(t', elem, ki') := way_elem t ki id tags refs meta in
  grown t t' (2 * length tags + 1) /\ tracks t' ki ki' tags.*1 /\ (id <> 0 -> elem <> []) /\
  (fits elem -> exists w, WireWay_parse elem = Ok w /\ way_says t' w id tags refs [] meta).
Proof.
  intros Hwf Hlt Hid Hrefs Hm. unfold way_elem.
  pose proof (tags_meta_spec t ki (encode_int64_field 1 id) tags meta Hwf Hlt Hm) as Htm.
  destruct (encode_tags t _ ki tags) as [[t1 e1] ki'].
  destruct (encode_metadata t1 e1 meta) as [t2 e2].
  destruct Htm as (Hwf2 & Hp & Hl & kis & vis & info & -> & Hk & Hv & Hki & Hmeta).
  set (kb := concat (encode_varint <$> kis)). set (vb := concat (encode_varint <$> vis)).
  set (e := match refs with [] => _ | _ => _ end).
  assert (e = way_raw_loc_elem id kb vb (packed_deltas 0 refs) [] [] info) as ->.
  { subst e. unfold way_raw_loc_elem. cbn [nonempty_field]. destruct refs; [cbn [packed_deltas]|].
    - by rewrite (encode_bytes_field_spec 8), !app_nil_r.
    - rewrite !app_nil_r. by rewrite <- !app_assoc. }
  split_and!; [split_and!; [done|done|lia]|by exists kis| |].
  - intros Hne. unfold way_raw_loc_elem. pose proof (int64_field_nonempty id Hne Hid).
    by destruct (encode_int64_field 1 id).
  - intros Hfit. eexists. split; [by apply way_elem_parse|]. unfold way_says.
    cbn [ww_id ww_refs ww_keys ww_vals ww_info ww_lat ww_lon]. rewrite delta_decoded_nil.
    split_and!; [done|by apply delta_roundtrip|done|by apply tags_say_intro| |].
    + by rewrite (meta_read_info _ _ _ Hmeta).
    + split_and!; [by eapply written_indices|by eapply written_indices|apply written_deltas|apply written_nil|apply written_nil].
Qed.

Lemma way_loc_elem_spec t ki id tags refs locations meta :
  wf t -> Z.of_nat (length (slots t) + 2 * length tags) + 1 < 2 ^ 31 ->
  is_i64 id -> Forall is_i64 refs -> Forall (fun l => is_i32 l.1 /\ is_i32 l.2) locations ->
  length locations = length refs -> metas_ok meta ->
  let '(t', elem, ki') := way_loc_elem t ki id tags refs locations meta in
  grown t t' (2 * length tags + 1) /\ tracks t' ki ki' tags.*1 /\ (id <> 0 -> elem <> []) /\
  (fits elem -> exists w, WireWay_parse elem = Ok w /\ way_says t' w id tags refs locations meta).
Proof.
  intros Hwf Hlt Hid Hrefs Hlocs Hlen Hm. unfold way_loc_elem.
  pose proof (tags_meta_spec t ki (encode_int64_field 1 id) tags meta Hwf Hlt Hm) as Htm.
  destruct (encode_tags t _ ki tags) as [[t1 e1] ki'].
  destruct (encode_metadata t1 e1 meta) as [t2 e2].
  destruct Htm as (Hwf2 & Hp & Hl & kis & vis & info & -> & Hk & Hv & Hki & Hmeta).
  rewrite fst_zip, snd_zip by lia.
  set (kb := concat (encode_varint <$> kis)). set (vb := concat (encode_varint <$> vis)).
  set (e := match refs with [] => _ | _ => _ end).
  assert (e = way_raw_loc_elem id kb vb (packed_deltas 0 refs) (packed_deltas 0 locations.*1)
                (packed_deltas 0 locations.*2) info) as ->.
  { subst e. unfold way_raw_loc_elem. rewrite !nonempty_field_eq. destruct refs.
    - destruct locations; [|done]. cbn [packed_deltas fmap list_fmap].
      by rewrite (encode_bytes_field_spec 8), (encode_bytes_field_spec 9), (encode_bytes_field_spec 10), !app_nil_r.
    - by rewrite <- !app_assoc. }
  split_and!; [split_and!; [done|done|lia]|by exists kis| |].
  - intros Hne. unfold way_raw_loc_elem. pose proof (int64_field_nonempty id Hne Hid).
    by destruct (encode_int64_field 1 id).
  - intros Hfit. eexists. split; [by apply way_elem_parse|]. unfold way_says.
    cbn [ww_id ww_refs ww_keys ww_vals ww_info ww_lat ww_lon].
    split_and!; [done|by apply delta_roundtrip|by apply lockstep_locations|by apply tags_say_intro| |].
    + by rewrite (meta_read_info _ _ _ Hmeta).
    + split_and!; [by eapply written_indices|by eapply written_indices|apply written_deltas..].
Qed.

(** Way round trip: encode a way with its tags, refs and metadata through
    the string table; the element appended to the group parses, and decoding it
    with the reader's iterators gives the same id, the same refs (deltas wrap,
    so any [i64]s do), no locations, tags whose indices resolve to the same
    strings, and the same metadata.  The table is extended, never changed. *)
Theorem way_roundtrip (t : StringTable) (group : bytes) (ki : gset Z) (id : Z)
    (tags : list (bytes * bytes)) (refs : list Z) (meta : option Metadata) :
  wf t -> Z.of_nat (length (slots t) + 2 * length tags) + 1 < 2 ^ 31 ->
  is_i64 id -> Forall is_i64 refs -> metas_ok meta -> fits (way_elem t ki id tags refs meta).1.2 ->
  let '(t', group', ki') := encode_way t group ki id tags refs meta in
  exists elem w,
    group' = group ++ encode_bytes_field 3 elem /\ WireWay_parse elem = Ok w /\
    grown t t' (2 * length tags + 1) /\ tracks t' ki ki' tags.*1 /\ way_says t' w id tags refs [] meta.
Proof.
  intros Hwf Hlt Hid Hrefs Hm Hfit. pose proof (way_elem_spec t ki id tags refs meta Hwf Hlt Hid Hrefs Hm) as Hs.
  unfold encode_way. destruct (way_elem t ki id tags refs meta) as [[t' elem] ki'].
  destruct Hs as (Hg & Ht & _ & Hw). destruct (Hw Hfit) as (w & Hp & Hsay). by exists elem, w.
Qed.

(** A way with embedded locations round trips: one location per ref gives
    back the refs and both coordinate columns exactly, beside the id, tags and
    metadata. *)
Theorem located_way_roundtrip (t : StringTable) (group : bytes) (ki : gset Z) (id : Z)
    (tags : list (bytes * bytes)) (refs : list Z) (locations : list (Z * Z)) (meta : option Metadata) :
  wf t -> Z.of_nat (length (slots t) + 2 * length tags) + 1 < 2 ^ 31 ->
  is_i64 id -> Forall is_i64 refs -> Forall (fun l => is_i32 l.1 /\ is_i32 l.2) locations ->
  length locations = length refs ->
  metas_ok meta -> fits (way_loc_elem t ki id tags refs locations meta).1.2 ->
  let '(t', group', ki') := encode_way_with_locations t group ki id tags refs locations meta in
  exists elem w,
    group' = group ++ encode_bytes_field 3 elem /\ WireWay_parse elem = Ok w /\
    grown t t' (2 * length tags + 1) /\ tracks t' ki ki' tags.*1 /\ way_says t' w id tags refs locations meta.
Proof.
  intros Hwf Hlt Hid Hrefs Hlocs Hlen Hm Hfit.
  pose proof (way_loc_elem_spec t ki id tags refs locations meta Hwf Hlt Hid Hrefs Hlocs Hlen Hm) as Hs.
  unfold encode_way_with_locations. destruct (way_loc_elem t ki id tags refs locations meta) as [[t' elem] ki'].
  destruct Hs as (Hg & Ht & _ & Hw). destruct (Hw Hfit) as (w & Hp & Hsay). by exists elem, w.
Qed.

(** ** Relations *)

(** What a member reads back as: an unknown type is written as a node. *)
Definition member_written (m : MemberId) : MemberId :=
  match m with IdUnknown _ id => IdNode id | _ => m end.

Lemma packed_roles_spec t members :
  wf t -> Z.of_nat (length (slots t) + length members) < 2 ^ 31 ->
  let '(t', roles) := packed_roles t members in
  wf t' /\ extends t t' /\ (length (slots t') <= length (slots t) + length members)%nat /\
  exists idxs, roles = concat ((fun z => encode_varint (as_u64 z)) <$> idxs) /\ Forall is_i32 idxs /\
    Forall2 (fun i m => resolves t' i (md_role m)) idxs members.
Proof.
  revert t. induction members as [|m members IH]; intros t Hwf Hlt; cbn [packed_roles].
  { split_and!; [done|done|lia|]. exists []. split_and!; [done|constructor|constructor]. }
  cbn [length] in Hlt. destruct (add_spec t (md_role m) Hwf ltac:(lia)) as (Hwf1 & Hp1 & Hl1 & Hi1 & Hs1 & _).
  destruct (add t (md_role m)) as [t1 i]. cbn [fst snd] in *.
  specialize (IH t1 Hwf1 ltac:(lia)). destruct (packed_roles t1 members) as [t' rest].
  destruct IH as (Hwf' & Hp & Hl & idxs & -> & H32 & HF).
  assert (i < 2 ^ 31) as Hi. { pose proof (lookup_lt_Some _ _ _ Hs1). rewrite length_strings in *. lia. }
  assert (is_i32 i) as Hi32 by (unfold is_s; lia).
  split_and!; [done|by etrans|cbn [length]; lia|]. exists (i :: idxs). split_and!.
  - cbn [fmap list_fmap concat]. by rewrite as_s_id by (lia || done).
  - by constructor.
  - constructor; [|done]. apply (resolves_prefix t1); [done|]. by split; [lia|].
Qed.

Lemma member_ids_roundtrip members :
  Forall (fun m => is_i64 (member_id (md_id m))) members ->
  member_ids (packed_deltas 0 ((fun m => member_id (md_id m)) <$> members)) (packed_types members) =
    Some ((fun m => member_written (md_id m)) <$> members).
Proof.
  intros HF. unfold member_ids. rewrite delta_roundtrip by by apply Forall_fmap.
  assert (packed_int32 (packed_types members) =
    (fun m => member_type_value (member_type (md_id m))) <$> members) as ->.
  { unfold packed_types. rewrite <- (packed_int32_encode ((fun m => member_type_value (member_type (md_id m))) <$> members)).
    - by rewrite <- list_fmap_compose.
    - apply Forall_fmap, Forall_true. intros m. unfold is_s. cbn. destruct (md_id m); cbn; lia. }
  rewrite lockstep_zip by by rewrite !length_fmap. f_equal.
  clear HF. induction members as [|[[] role] members IH]; [done|..]; cbn; by rewrite <- IH.
Qed.

Definition relation_written (r : WireRelation) : Prop :=
  written 32 (wr_keys r) /\ written 32 (wr_vals r) /\ written 64 (wr_roles r) /\
  written 64 (wr_memids r) /\ written 64 (wr_types r).

Definition relation_says (t : StringTable) (r : WireRelation) (id : Z) (tags : list (bytes * bytes))
    (members : list MemberData) (meta : option Metadata) : Prop :=
  wr_id r = id /\
  (exists ps, rel_members r = Some ps /\
     Forall2 (fun p m => resolves t p.1 (md_role m) /\ p.2 = member_written (md_id m)) ps members) /\
  tags_say t (raw_tags (wr_keys r) (wr_vals r)) tags /\ meta_read t meta (wr_info r) /\ relation_written r.

Lemma relation_says_prefix t t' r id tags members meta :
  extends t t' -> relation_says t r id tags members meta ->
  relation_says t' r id tags members meta.
Proof.
  intros Hp (H1 & (ps & H2 & HF) & H4 & H5 & H6). unfold relation_says.
  split_and!; [done| |by eapply tags_say_prefix|by eapply meta_read_prefix|done].
  exists ps. split; [done|]. eapply Forall2_impl; [exact HF|]. intros p m [Hr Hm]. split; [|done].
  by eapply resolves_prefix.
Qed.

Lemma relation_elem_spec t ki id tags members meta :
  wf t -> Z.of_nat (length (slots t) + 2 * length tags + length members) + 1 < 2 ^ 31 ->
  is_i64 id -> Forall (fun m => is_i64 (member_id (md_id m))) members -> metas_ok meta ->
  let '(t', elem, ki') := relation_elem t ki id tags members meta in
  grown t t' (2 * length tags + length members + 1) /\ tracks t' ki ki' tags.*1 /\ (id <> 0 -> elem <> []) /\
  (fits elem -> exists r, WireRelation_parse elem = Ok r /\ relation_says t' r id tags members meta).
Proof.
  intros Hwf Hlt Hid Hmem Hm. unfold relation_elem.
  pose proof (tags_meta_spec t ki (encode_int64_field 1 id) tags meta Hwf ltac:(lia) Hm) as Htm.
  destruct (encode_tags t _ ki tags) as [[t1 e1] ki'].
  destruct (encode_metadata t1 e1 meta) as [t2 e2].
  destruct Htm as (Hwf2 & Hp & Hl & kis & vis & info & -> & Hk & Hv & Hki & Hmeta).
  set (kb := concat (encode_varint <$> kis)). set (vb := concat (encode_varint <$> vis)).
  pose proof (packed_roles_spec t2 members Hwf2 ltac:(lia)) as Hroles.
  pose proof (member_ids_roundtrip members Hmem) as Hids.
  set (e := match members with [] => _ | _ => _ end).
  destruct (packed_roles t2 members) as [t3 roles] eqn:Hpr.
  destruct Hroles as (Hwf3 & Hp3 & Hl3 & idxs & Hrl & H32 & HF).
  assert (e = (t3, relation_raw_elem id kb vb roles
    (packed_deltas 0 ((fun m => member_id (md_id m)) <$> members)) (packed_types members) info, ki')) as ->.
  { subst e. unfold relation_raw_elem. destruct members as [|m members].
    - cbn in Hpr. injection Hpr as <- <-. cbn [packed_deltas fmap list_fmap].
      change (packed_types []) with (@nil Z).
      by rewrite (encode_bytes_field_spec 8), (encode_bytes_field_spec 9), (encode_bytes_field_spec 10), !app_nil_r.
    - by rewrite <- !app_assoc. }
  split_and!; [split_and!; [done|by etrans|lia]| | |].
  - exists kis. split; [done|]. by eapply Forall2_resolves_prefix.
  - intros Hne. unfold relation_raw_elem. pose proof (int64_field_nonempty id Hne Hid).
    by destruct (encode_int64_field 1 id).
  - intros Hfit. eexists. split; [by apply relation_elem_parse|]. unfold relation_says, rel_members.
    cbn [wr_id wr_keys wr_vals wr_info wr_roles wr_memids wr_types].
    rewrite Hids, Hrl, packed_int32_encode by done.
    rewrite lockstep_zip by (rewrite length_fmap; by eapply Forall2_length).
    split_and!; [done| |apply tags_say_intro; by eapply Forall2_resolves_prefix| |].
    + eexists. split; [done|]. clear -HF.
      induction HF as [|i m idxs members Hi _ IH]; cbn; constructor; done.
    + rewrite (meta_read_info _ _ _ Hmeta). by eapply meta_read_prefix.
    + split_and!; [by eapply written_indices|by eapply written_indices| |apply written_deltas|].
      * cbn. apply written_map, Forall_true. intros z. apply as_u_range. lia.
      * apply written_map, Forall_true. intros m. apply as_u_range. lia.
Qed.

(** Relation round trip: id, tags and metadata as for ways, and the member
    list the reader builds has each member's role string, id and type in order;
    a member of unknown type, which the block builder refuses, would read back
    as a node. *)
Theorem relation_roundtrip (t : StringTable) (group : bytes) (ki : gset Z) (id : Z)
    (tags : list (bytes * bytes)) (members : list MemberData) (meta : option Metadata) :
  wf t -> Z.of_nat (length (slots t) + 2 * length tags + length members) + 1 < 2 ^ 31 ->
  is_i64 id -> Forall (fun m => is_i64 (member_id (md_id m))) members -> metas_ok meta ->
  fits (relation_elem t ki id tags members meta).1.2 ->
  let '(t', group', ki') := encode_relation t group ki id tags members meta in
  exists elem r,
    group' = group ++ encode_bytes_field 4 elem /\ WireRelation_parse elem = Ok r /\
    grown t t' (2 * length tags + length members + 1) /\ tracks t' ki ki' tags.*1 /\
    relation_says t' r id tags members meta.
Proof.
  intros Hwf Hlt Hid Hmem Hm Hfit.
  pose proof (relation_elem_spec t ki id tags members meta Hwf Hlt Hid Hmem Hm) as Hs.
  unfold encode_relation. destruct (relation_elem t ki id tags members meta) as [[t' elem] ki'].
  destruct Hs as (Hg & Ht & _ & Hw). destruct (Hw Hfit) as (r & Hp & Hsay). by exists elem, r.
Qed.

End Roundtrip.

(** An element with id 0 and no content has no bytes, and the skip-if-empty
    field writer then appends nothing to the group. *)
Lemma empty_way_writes_nothing `{L : ProtohoggrLaws} {H : HashIndex} t group ki :
  encode_way t group ki 0 [] [] None = (t, group, ki).
Proof.
  unfold encode_way, way_elem, encode_tags. cbn [encode_tags_loop encode_metadata].
  by rewrite encode_int64_field_spec, encode_bytes_field_spec, app_nil_r.
Qed.

Section CheckedKeys.
Context {P : Protohoggr}.

Lemma collect_loop_spec seeded sids indices :
  match collect_loop seeded sids indices with
  | (s, Ok _) => Forall (fun sid => sid < seeded) sids /\ s = list_to_set sids ∪ indices
  | (s, Err sid) => exists pre post, sids = pre ++ sid :: post /\ Forall (fun sid => sid < seeded) pre /\
                      seeded <= sid /\ s = list_to_set pre ∪ indices
  end.
Proof.
  revert indices. induction sids as [|sid sids IH]; intros indices; cbn [collect_loop].
  { split; [constructor|set_solver]. }
  destruct (Z.ltb_spec sid seeded).
  - specialize (IH ({[sid]} ∪ indices)). destruct (collect_loop _ _ _) as [s [u|bad]].
    + destruct IH as [HF ->]. split; [by constructor|set_solver].
    + destruct IH as (pre & post & -> & HF & Hge & ->). exists (sid :: pre), post.
      split_and!; [done|by constructor|done|set_solver].
  - exists [], sids. split_and!; [done|constructor|done|set_solver].
Qed.

(** Key indices of a raw element are checked against the seeded table: the
    set grows by exactly the element's keys when all are below the bound;
    otherwise the error carries the first offender and the keys before it stay
    collected. *)
Theorem checked_keys_exact (data : bytes) (seeded : Z) (indices : gset Z) :
  match collect_checked_keys data seeded indices with
  | (s, Ok _) => Forall (fun sid => sid < seeded) (packed_uint32 data) /\
                 s = list_to_set (packed_uint32 data) ∪ indices
  | (s, Err sid) => exists pre post, packed_uint32 data = pre ++ sid :: post /\
                      Forall (fun sid => sid < seeded) pre /\ seeded <= sid /\ s = list_to_set pre ∪ indices
  end.
Proof. apply collect_loop_spec. Qed.

End CheckedKeys.

(** ** Concrete instances *)

#[local] Existing Instance RefProto.ref_proto.
#[local] Existing Instance RefProto.ref_laws.
#[local] Existing Instance RefHash.ref_index.

Lemma raw_passthrough_witness :
  exists ways : list (Z * bytes * bytes * bytes * bytes * bytes * option bytes), (1 < length ways)%nat /\
  WireWay_parse <$>
    WireGroup_ways (foldl (fun g '(id, keys, vals, refs, lat, lon, info) =>
      encode_way_raw_bytes_with_locations g id keys vals refs lat lon info) [] ways) =
    (fun '(id, keys, vals, refs, lat, lon, info) =>
       Ok (mkWireWay id keys vals refs lat lon (info_read info) None)) <$> ways.
Proof.
  exists [(7, [1], [2], [2; 2], [], [], Some []); (-8, [], [], [4], [6], [8], Some [8; 1])].
  split; [simpl; lia|]. apply raw_passthrough.
  repeat constructor; try (unfold is_s; lia); discriminate.
Defined.

Definition sample_meta : Metadata := mkMetadata 3 (-5) (-1) 12 [97] false.

Lemma sample_meta_ok : metas_ok (Some sample_meta).
Proof. repeat split; cbn; lia. Qed.

Lemma way_roundtrip_witness :
  let t := StringTable_new in
  let '(t', group', ki') := encode_way t [9] ∅ (-4) [([104], [105])]
    [5; -9223372036854775808; 9223372036854775807] (Some sample_meta) in
  exists elem w, group' = [9] ++ encode_bytes_field 3 elem /\ WireWay_parse elem = Ok w /\
    delta_decoded (ww_refs w) = [5; -9223372036854775808; 9223372036854775807].
Proof.
  intros t.
  pose proof (way_roundtrip t [9] ∅ (-4) [([104], [105])]
    [5; -9223372036854775808; 9223372036854775807] (Some sample_meta)) as HT.
  destruct (encode_way t [9] ∅ (-4) _ _ _) as [[t' group'] ki'].
  destruct HT as (elem & w & Hg & Hw & _ & _ & _ & Hr & _).
  - apply wf_fresh.
  - reflexivity.
  - unfold is_s. lia.
  - repeat constructor; unfold is_s; lia.
  - exact sample_meta_ok.
  - reflexivity.
  - exists elem, w. auto.
Defined.

Lemma located_way_roundtrip_witness :
  let t := StringTable_new in
  let '(t', group', ki') := encode_way_with_locations t [] ∅ 6 [] [5; -7] [(-2147483648, 3); (2147483647, -4)] None in
  exists elem w, group' = [] ++ encode_bytes_field 3 elem /\ WireWay_parse elem = Ok w /\
    lockstep (delta_decoded (ww_lat w)) (delta_decoded (ww_lon w)) = Some [(-2147483648, 3); (2147483647, -4)].
Proof.
  intros t.
  pose proof (located_way_roundtrip t [] ∅ 6 [] [5; -7] [(-2147483648, 3); (2147483647, -4)] None) as HT.
  destruct (encode_way_with_locations t [] ∅ 6 _ _ _ _) as [[t' group'] ki'].
  destruct HT as (elem & w & Hg & Hw & _ & _ & _ & _ & Hr & _).
  - apply wf_fresh.
  - reflexivity.
  - unfold is_s. lia.
  - repeat constructor; unfold is_s; lia.
  - repeat constructor; cbn; lia.
  - reflexivity.
  - exact I.
  - reflexivity.
  - exists elem, w. auto.
Defined.

Lemma relation_roundtrip_witness :
  let t := StringTable_new in
  let ms := [mkMember (IdNode 5) [105]; mkMember (IdRelation (-7)) []; mkMember (IdUnknown 9 8) [105]] in
  let '(t', group', ki') := encode_relation t [] ∅ 6 [] ms (Some sample_meta) in
  exists elem r, group' = [] ++ encode_bytes_field 4 elem /\ WireRelation_parse elem = Ok r /\
    exists ps, rel_members r = Some ps /\
    Forall2 (fun p m => resolves t' p.1 (md_role m) /\ p.2 = member_written (md_id m)) ps ms.
Proof.
  intros t ms.
  pose proof (relation_roundtrip t [] ∅ 6 [] ms (Some sample_meta)) as HT.
  destruct (encode_relation t [] ∅ 6 _ _ _) as [[t' group'] ki'].
  destruct HT as (elem & r & Hg & Hw & _ & _ & _ & Hr & _).
  - apply wf_fresh.
  - reflexivity.
  - unfold is_s. lia.
  - repeat constructor; cbn; lia.
  - exact sample_meta_ok.
  - reflexivity.
  - exists elem, r. auto.
Defined.
