(* ===== verification/Dense.v ===== *)
(** * The dense-node reader (src/src/read/dense.rs)

    [DenseNodeIter] walks the delta-coded id, latitude and longitude columns of
    a dense group in lockstep with the optional metadata columns, and cuts the
    shared [keys_vals] array into one run of tag pairs per node.  A packed
    iterator is the list of the values it has still to yield; a panic of
    [validated] or [arrays_end_together] is [None] of the outer [option]. *)

From S2P Require Import Prelude Proto Wire Encode.

(** Wrapping subtraction and addition at a width, as the deltas use them. *)
Definition wsub (w a b : Z) : Z := as_s w (a - b).
Definition wadd (w a b : Z) : Z := as_s w (a + b).
Definition wmul (w a b : Z) : Z := as_s w (a * b).

Section Dense.
Context {P : Protohoggr}.

Record DenseNodeInfo := mkDenseNodeInfo {
  di_version : Z; di_timestamp : Z; di_changeset : Z; di_uid : Z; di_user_sid : Z; di_visible : bool;
  di_date_granularity : Z }.

Record DenseNode := mkDenseNode {
  dn_id : Z; dn_lat : Z; dn_lon : Z; dn_tag_bytes : bytes; dn_info : option DenseNodeInfo;
  dn_granularity : Z; dn_lat_offset : Z; dn_lon_offset : Z }.

Definition nano_lat (n : DenseNode) : Z := wadd 64 (dn_lat_offset n) (wmul 64 (dn_granularity n) (dn_lat n)).
Definition nano_lon (n : DenseNode) : Z := wadd 64 (dn_lon_offset n) (wmul 64 (dn_granularity n) (dn_lon n)).

(** [(nano / 100) as i32]; the division truncates *)
Definition decimicro (nano : Z) : Z := as_i32 (Z.quot nano 100).

Definition milli_timestamp (i : DenseNodeInfo) : Z := wmul 64 (di_timestamp i) (di_date_granularity i).

(** ** Metadata columns *)

Record DenseNodeInfoIter := mkInfoIter {
  it_versions : list Z;
  it_dtimestamps : list Z; it_ctimestamp : Z;
  it_dchangesets : list Z; it_cchangeset : Z;
  it_duids : list Z; it_cuid : Z;
  it_duser_sids : list Z; it_cuser_sid : Z;
  it_visible : list bool;
  it_date_granularity : Z }.

Definition DenseNodeInfoIter_new (date_granularity : Z) (info : WireDenseInfo) : DenseNodeInfoIter :=
  mkInfoIter (packed_int32 (wi_version info)) (packed_sint64 (wi_timestamp info)) 0
    (packed_sint64 (wi_changeset info)) 0 (packed_sint32 (wi_uid info)) 0
    (packed_sint32 (wi_user_sid info)) 0 (packed_bool (wi_visible info)) date_granularity.

(** [DenseNodeInfoIter::next]; each [?] leaves the columns before it advanced. *)
Definition info_next (it : DenseNodeInfoIter) : option DenseNodeInfo * DenseNodeInfoIter :=
  let 'mkInfoIter vs dts cts dcs ccs dus cu dss cs vis dg := it in
  match vs with
  | [] => (None, it)
  | version :: vs =>
  match dts with
  | [] => (None, mkInfoIter vs dts cts dcs ccs dus cu dss cs vis dg)
  | dt :: dts =>
  match dcs with
  | [] => (None, mkInfoIter vs dts cts dcs ccs dus cu dss cs vis dg)
  | dc :: dcs =>
  match dus with
  | [] => (None, mkInfoIter vs dts cts dcs ccs dus cu dss cs vis dg)
  | du :: dus =>
  match dss with
  | [] => (None, mkInfoIter vs dts cts dcs ccs dus cu dss cs vis dg)
  | ds :: dss =>
      let cts := wadd 64 cts dt in
      let ccs := wadd 64 ccs dc in
      let cu := wadd 32 cu du in
      let cs := wadd 32 cs ds in
      (Some (mkDenseNodeInfo version cts ccs cu cs (default true (head vis)) dg),
       mkInfoIter vs dts cts dcs ccs dus cu dss cs (tail vis) dg)
  end end end end end.

(** ** The node iterator *)

Record DenseNodeIter := mkNodeIter {
  dit_dids : list Z; dit_cid : Z;
  dit_dlats : list Z; dit_clat : Z;
  dit_dlons : list Z; dit_clon : Z;
  dit_kv_data : bytes; dit_kv_pos : nat;
  dit_info : option DenseNodeInfoIter;
  dit_granularity : Z; dit_lat_offset : Z; dit_lon_offset : Z }.

(** The coordinate framing the block carries: granularity, offsets, date granularity. *)
Record Framing := mkFraming { fr_granularity : Z; fr_lat_offset : Z; fr_lon_offset : Z; fr_date_granularity : Z }.

Definition DenseNodeIter_new (fr : Framing) (dense : WireDenseNodes) : option DenseNodeIter :=
  let it info := mkNodeIter (packed_sint64 (wd_id dense)) 0 (packed_sint64 (wd_lat dense)) 0
    (packed_sint64 (wd_lon dense)) 0 (wd_keys_vals dense) 0 info
    (fr_granularity fr) (fr_lat_offset fr) (fr_lon_offset fr) in
  match wd_info dense with
  | None => Some (it None)
  | Some data => match WireDenseInfo_parse data with
                 | Ok info => Some (it (Some (DenseNodeInfoIter_new (fr_date_granularity fr) info)))
                 | Err _ => None
                 end
  end.

(** The [keys_vals] walk of one node: the new [kv_pos] and [tag_end]. *)
Fixpoint kv_scan (fuel : nat) (cursor : bytes) (kv_pos tag_end : nat) : option (nat * nat) :=
  match cursor with
  | [] => Some (kv_pos, tag_end)
  | _ =>
      match fuel with
      | O => None
      | S fuel =>
          let before := length cursor in
          match read_varint cursor with
          | Err _ => None
          | Ok (key, cursor) =>
              if key =? 0 then Some (kv_pos + (before - length cursor), tag_end)%nat
              else match read_varint cursor with
                   | Err _ => None
                   | Ok (_, cursor) =>
                       let kv_pos := (kv_pos + (before - length cursor))%nat in
                       kv_scan fuel cursor kv_pos kv_pos
                   end
          end
      end
  end.

Definition advance_info (o : option DenseNodeInfoIter) : option DenseNodeInfo * option DenseNodeInfoIter :=
  match o with
  | None => (None, None)
  | Some it => let '(i, it) := info_next it in (i, Some it)
  end.

(** [DenseNodeIter::next] *)
Definition dense_next (it : DenseNodeIter) : option (option DenseNode * DenseNodeIter) :=
  let 'mkNodeIter dids cid dlats clat dlons clon kv pos info g lo no := it in
  let '(i, info) := advance_info info in
  match dids, dlats, dlons with
  | did :: dids, dlat :: dlats, dlon :: dlons =>
      let cid := wadd 64 cid did in
      let clat := wadd 64 clat dlat in
      let clon := wadd 64 clon dlon in
      rest ← slice kv pos (length kv);
      '(pos', tag_end) ← kv_scan (length rest) rest pos pos;
      tag_bytes ← slice kv pos tag_end;
      Some (Some (mkDenseNode cid clat clon tag_bytes i g lo no),
            mkNodeIter dids cid dlats clat dlons clon kv pos' info g lo no)
  | [], [], [] => Some (None, mkNodeIter dids cid dlats clat dlons clon kv pos info g lo no)
  | _, _, _ => None
  end.

(** Draining the iterator; every node consumes an id. *)
Fixpoint dense_drain (fuel : nat) (it : DenseNodeIter) : option (list DenseNode) :=
  match fuel with
  | O => None
  | S fuel =>
      '(n, it) ← dense_next it;
      match n with
      | None => Some []
      | Some n => ns ← dense_drain fuel it; Some (n :: ns)
      end
  end.

Definition dense_nodes (it : DenseNodeIter) : option (list DenseNode) := dense_drain (S (length (dit_dids it))) it.

(** [validated_dense] of src/src/read/block.rs *)
Definition validated_dense (data : bytes) : option (option WireDenseNodes) :=
  match WireGroup_dense data with
  | Err _ => None
  | Ok None => Some None
  | Ok (Some d) => match WireDenseNodes_parse d with Ok w => Some (Some w) | Err _ => None end
  end.

(** [PrimitiveGroup::dense_nodes], drained; no dense message is the empty iterator *)
Definition group_dense_nodes (fr : Framing) (data : bytes) : option (list DenseNode) :=
  match validated_dense data with
  | None => None
  | Some None => Some []
  | Some (Some w) => it ← DenseNodeIter_new fr w; dense_nodes it
  end.

(** [DenseRawTagIter], drained *)
Fixpoint dense_raw_loop (fuel : nat) (cursor : bytes) : option (list (Z * Z)) :=
  match cursor with
  | [] => Some []
  | _ =>
      match fuel with
      | O => None
      | S fuel =>
          match read_varint cursor with
          | Err _ => None
          | Ok (key, cursor) =>
              match read_varint cursor with
              | Err _ => None
              | Ok (val, cursor) =>
                  tags ← dense_raw_loop fuel cursor; Some ((as_i32 key, as_i32 val) :: tags)
              end
          end
      end
  end.

Definition dense_raw_tags (n : DenseNode) : option (list (Z * Z)) :=
  dense_raw_loop (length (dn_tag_bytes n)) (dn_tag_bytes n).

End Dense.

(** ** Delta columns *)

Fixpoint wdeltas (w l : Z) (xs : list Z) : list Z :=
  match xs with
  | [] => []
  | x :: xs => wsub w x l :: wdeltas w x xs
  end.

Lemma wdeltas_snoc w l xs x : wdeltas w l (xs ++ [x]) = wdeltas w l xs ++ [wsub w x (default l (last xs))].
Proof.
  revert l. induction xs as [|y xs IH]; intros l; [done|]. cbn [app wdeltas]. rewrite IH. do 3 f_equal.
  rewrite last_cons. by destruct (last xs).
Qed.

Lemma wdeltas_range w l xs : 0 < w -> Forall (is_s w) (wdeltas w l xs).
Proof. intros Hw. revert l. induction xs; intros l; constructor; [by apply as_s_range|done]. Qed.

Lemma wdeltas_zeros w n : 0 < w -> wdeltas w 0 (replicate n 0) = replicate n 0.
Proof.
  intros Hw. induction n as [|n IH]; [done|]. cbn [replicate wdeltas]. rewrite IH. f_equal.
  apply as_s_id; [done|]. unfold is_s. pose proof (Z.pow_pos_nonneg 2 (w - 1)). lia.
Qed.

(** Adding a wrapped difference back gives the value. *)
Lemma wadd_wsub w x l : 0 < w -> is_s w x -> wadd w l (wsub w x l) = x.
Proof.
  intros Hw Hx. transitivity (as_s w x); [|by apply as_s_id]. unfold wadd, wsub, as_s. f_equal.
  replace (l + ((x - l + 2 ^ (w - 1)) mod 2 ^ w - 2 ^ (w - 1)) + 2 ^ (w - 1))
    with (l + (x - l + 2 ^ (w - 1)) mod 2 ^ w) by lia.
  rewrite Zplus_mod_idemp_r. f_equal. lia.
Qed.

Section Columns.
Context `{L : ProtohoggrLaws}.

(** ** Tag runs *)

Definition kvb (kvs : list (Z * Z)) : bytes :=
  concat ((fun p => encode_varint (as_u64 p.1) ++ encode_varint (as_u64 p.2)) <$> kvs).

Definition kv_ok (p : Z * Z) : Prop := 0 < p.1 < 2 ^ 31 /\ 0 <= p.2 < 2 ^ 31.

Lemma kv_scan_spec kvs r fuel pos :
  Forall kv_ok kvs -> (length (kvb kvs ++ encode_varint 0 ++ r) <= fuel)%nat ->
  kv_scan fuel (kvb kvs ++ encode_varint 0 ++ r) pos pos =
    Some (pos + (length (kvb kvs) + length (encode_varint 0)), pos + length (kvb kvs))%nat.
Proof.
  intros HF. revert fuel pos. induction HF as [|[k v] kvs [Hk Hv] _ IH]; intros fuel pos Hfuel.
  - change (kvb []) with (@nil Z) in *. cbn [app length] in *. rewrite encode_varint_small in * by lia.
    cbn [app length] in *. destruct fuel as [|fuel]; [lia|]. cbn [kv_scan length].
    pose proof (read_varint_encode 0 r ltac:(unfold is_u; lia)) as Hr.
    rewrite encode_varint_small in Hr by lia. cbn [app] in Hr. rewrite Hr. cbn [Z.eqb]. do 2 f_equal; lia.
  - assert (forall a, 0 <= a < 2 ^ 31 -> is_u64 (as_u64 a) /\ as_u64 a = a) as Hu.
    { intros a Ha. assert (is_u64 a) by (unfold is_u; lia). by rewrite as_u_id. }
    cbn [fst snd] in *. destruct (Hu k ltac:(lia)) as [Hk1 Hk2]. destruct (Hu v ltac:(lia)) as [Hv1 Hv2].
    change (kvb ((k, v) :: kvs)) with ((encode_varint (as_u64 k) ++ encode_varint (as_u64 v)) ++ kvb kvs) in *.
    rewrite <- !app_assoc in *. rewrite !length_app in Hfuel. rewrite !length_app.
    pose proof (encode_varint_pos _ Hk1) as Hpos. pose proof (encode_varint_pos _ Hv1) as Hpos'.
    destruct fuel as [|fuel]; [lia|]. set (tail := kvb kvs ++ encode_varint 0 ++ r).
    cbn [kv_scan]. destruct (encode_varint (as_u64 k) ++ encode_varint (as_u64 v) ++ tail) as [|b c] eqn:Hc.
    { apply (f_equal length) in Hc. rewrite length_app in Hc. cbn in Hc. lia. }
    rewrite <- Hc at 1. rewrite read_varint_encode by done.
    destruct (Z.eqb_spec (as_u64 k) 0); [lia|]. rewrite read_varint_encode by done.
    assert (length (b :: c) - length tail = length (encode_varint (as_u64 k)) + length (encode_varint (as_u64 v)))%nat as ->.
    { rewrite <- Hc, !length_app. lia. }
    subst tail. rewrite IH by (rewrite !length_app in *; lia). do 2 f_equal; lia.
Qed.

Lemma dense_raw_spec kvs fuel :
  Forall kv_ok kvs -> (length (kvb kvs) <= fuel)%nat -> dense_raw_loop fuel (kvb kvs) = Some kvs.
Proof.
  intros HF. revert fuel. induction HF as [|[k v] kvs [Hk Hv] _ IH]; intros fuel Hfuel; [by destruct fuel|].
  cbn [fst snd] in *. assert (forall a, 0 <= a < 2 ^ 31 -> is_u64 (as_u64 a) /\ as_i32 (as_u64 a) = a) as Hu.
  { intros a Ha. assert (is_u64 a) by (unfold is_u; lia). rewrite as_u_id by done. split; [done|].
    apply as_s_id; [lia|unfold is_s; lia]. }
  destruct (Hu k ltac:(lia)) as [Hk1 Hk2]. destruct (Hu v ltac:(lia)) as [Hv1 Hv2].
  change (kvb ((k, v) :: kvs)) with ((encode_varint (as_u64 k) ++ encode_varint (as_u64 v)) ++ kvb kvs) in *.
  rewrite <- !app_assoc, !length_app in *. pose proof (encode_varint_pos _ Hk1).
  destruct fuel as [|fuel]; [lia|]. cbn [dense_raw_loop].
  destruct (encode_varint (as_u64 k) ++ encode_varint (as_u64 v) ++ kvb kvs) as [|b c] eqn:Hc.
  { apply (f_equal length) in Hc. rewrite length_app in Hc. cbn in Hc. lia. }
  rewrite <- Hc, read_varint_encode, read_varint_encode, IH by (done || lia). cbn [mbind option_bind].
  by rewrite Hk2, Hv2.
Qed.

(** ** Whole columns *)

Record NodeCol := mkCol { c_id : Z; c_lat : Z; c_lon : Z; c_kvs : list (Z * Z) }.

Definition col_ok (n : NodeCol) : Prop :=
  is_i64 (c_id n) /\ is_i64 (c_lat n) /\ is_i64 (c_lon n) /\ Forall kv_ok (c_kvs n).

Definition kv_all (ns : list NodeCol) : bytes := concat ((fun n => kvb (c_kvs n) ++ encode_varint 0) <$> ns).

(** What the info iterator yields over the next nodes. *)
Fixpoint info_yields (o : option DenseNodeInfoIter) (infos : list (option DenseNodeInfo)) : Prop :=
  match infos with
  | [] => True
  | i :: infos => (advance_info o).1 = i /\ info_yields (advance_info o).2 infos
  end.

Definition node_of (fr : Framing) (n : NodeCol) (i : option DenseNodeInfo) : DenseNode :=
  mkDenseNode (c_id n) (c_lat n) (c_lon n) (kvb (c_kvs n)) i
    (fr_granularity fr) (fr_lat_offset fr) (fr_lon_offset fr).

Lemma slice_full {A} (pre r : list A) : slice (pre ++ r) (length pre) (length (pre ++ r)) = Some r.
Proof.
  unfold slice. rewrite length_app, decide_True by lia.
  rewrite drop_app_length. f_equal. apply take_ge. lia.
Qed.

Lemma slice_run {A} (pre m r : list A) : slice (pre ++ m ++ r) (length pre) (length pre + length m) = Some m.
Proof.
  unfold slice. rewrite !length_app, decide_True by lia.
  rewrite drop_app_length. f_equal. replace (length pre + length m - length pre)%nat with (length m) by lia.
  by rewrite take_app_length.
Qed.

Lemma dense_drain_spec fr ns infos cid clat clon pre info :
  Forall col_ok ns -> length infos = length ns -> info_yields info infos ->
  dense_drain (S (length ns))
    (mkNodeIter (wdeltas 64 cid (c_id <$> ns)) cid (wdeltas 64 clat (c_lat <$> ns)) clat
       (wdeltas 64 clon (c_lon <$> ns)) clon (pre ++ kv_all ns) (length pre) info
       (fr_granularity fr) (fr_lat_offset fr) (fr_lon_offset fr)) =
    Some (zip_with (node_of fr) ns infos).
Proof.
  intros HF. revert infos cid clat clon pre info.
  induction HF as [|n ns (Hid & Hlat & Hlon & Hkv) _ IH]; intros infos cid clat clon pre info Hlen Hy.
  { cbn. by destruct (advance_info info). }
  destruct infos as [|i infos]; [done|]. cbn [info_yields] in Hy. destruct Hy as [Hi Hy].
  cbn [length]. remember (S (length ns)) as m. cbn [dense_drain dense_next fmap list_fmap wdeltas].
  destruct (advance_info info) as [i' info']. cbn [fst snd] in Hi, Hy. subst i'.
  rewrite !wadd_wsub by (done || lia).
  change (kv_all (n :: ns)) with ((kvb (c_kvs n) ++ encode_varint 0) ++ kv_all ns). rewrite <- !app_assoc.
  rewrite slice_full. cbn [mbind option_bind]. rewrite kv_scan_spec by done. cbn [mbind option_bind].
  rewrite slice_run. cbn [mbind option_bind].
  replace (length pre + (length (kvb (c_kvs n)) + length (encode_varint 0)))%nat
    with (length (pre ++ kvb (c_kvs n) ++ encode_varint 0)) by by rewrite !length_app.
  replace (pre ++ kvb (c_kvs n) ++ encode_varint 0 ++ kv_all ns)
    with ((pre ++ kvb (c_kvs n) ++ encode_varint 0) ++ kv_all ns) by by rewrite <- !app_assoc.
  subst m. rewrite (IH infos) by (done || (cbn in Hlen; lia)). done.
Qed.

(** ** Metadata columns *)

Record InfoCol := mkInfoCol {
  ic_version : Z; ic_timestamp : Z; ic_changeset : Z; ic_uid : Z; ic_user_sid : Z; ic_visible : bool }.

Definition info_col_ok (i : InfoCol) : Prop :=
  is_i32 (ic_version i) /\ is_i64 (ic_timestamp i) /\ is_i64 (ic_changeset i) /\ is_i32 (ic_uid i) /\
  is_i32 (ic_user_sid i).

Definition info_of (dg : Z) (i : InfoCol) : DenseNodeInfo :=
  mkDenseNodeInfo (ic_version i) (ic_timestamp i) (ic_changeset i) (ic_uid i) (ic_user_sid i) (ic_visible i) dg.

Lemma info_yields_columns dg ms cts ccs cu cs :
  Forall info_col_ok ms ->
  info_yields (Some (mkInfoIter (ic_version <$> ms) (wdeltas 64 cts (ic_timestamp <$> ms)) cts
    (wdeltas 64 ccs (ic_changeset <$> ms)) ccs (wdeltas 32 cu (ic_uid <$> ms)) cu
    (wdeltas 32 cs (ic_user_sid <$> ms)) cs (ic_visible <$> ms) dg)) (Some ∘ info_of dg <$> ms).
Proof.
  intros HF. revert cts ccs cu cs. induction HF as [|i ms (Hv & Ht & Hc & Hu & Hs) _ IH]; intros cts ccs cu cs; [done|].
  cbn. rewrite !wadd_wsub by (done || lia). split; [done|]. apply IH.
Qed.

Lemma info_yields_none n : info_yields None (replicate n None).
Proof. induction n; [done|]. by split. Qed.

End Columns.
