(* ===== verification/Content.v ===== *)
(** * Element content (src/src/content.rs)

    What two elements of one kind and id are compared on, as a stream of
    tokens: [content_equal] is the relation diff reports as common, and
    [write_record] the bytes digest hashes. The theorem is that they agree: two
    element streams serialize alike exactly when they are equal element by
    element, so a digest can neither miss a difference diff would report nor
    report one diff would not. *)

From S2P Require Import Prelude ElementKind Encode.

(** ** Elements as content reads them *)

(** A failed string-table lookup. *)
Inductive LookupError := BadIndex (index : Z).

Abbreviation CheckedTag := (result LookupError (bytes * bytes)).

(** Ids, coordinates in decimicrodegrees, checked tags in stored order, refs, and
    members with their checked roles. *)
Inductive ContentElement :=
| CDenseNode (id lat lon : Z) (tags : list CheckedTag)
| CNode (id lat lon : Z) (tags : list CheckedTag)
| CWay (id : Z) (tags : list CheckedTag) (refs : list Z)
| CRelation (id : Z) (tags : list CheckedTag) (members : list (MemberId * result LookupError bytes)).

Inductive Token :=
| Coord (lat lon : Z)
| Tag (k v : bytes)
| Ref (r : Z)
| Member (id : MemberId) (role : bytes).

#[export] Instance MemberId_eq_dec : EqDecision MemberId.
Proof. solve_decision. Defined.
#[export] Instance Token_eq_dec : EqDecision Token.
Proof. solve_decision. Defined.

Definition content_kind (e : ContentElement) : ElementKind :=
  match e with CDenseNode _ _ _ _ | CNode _ _ _ _ => Node | CWay _ _ _ => Way | CRelation _ _ _ => Relation end.

Definition content_id (e : ContentElement) : Z :=
  match e with CDenseNode id _ _ _ | CNode id _ _ _ | CWay id _ _ | CRelation id _ _ => id end.

Definition tag_token (t : CheckedTag) : result LookupError Token :=
  match t with Ok (k, v) => Ok (Tag k v) | Err e => Err e end.

Definition member_token (m : MemberId * result LookupError bytes) : result LookupError Token :=
  match m.2 with Ok role => Ok (Member m.1 role) | Err e => Err e end.

(** [ElementTokens], drained *)
Definition content_tokens (e : ContentElement) : list (result LookupError Token) :=
  match e with
  | CDenseNode _ lat lon tags | CNode _ lat lon tags => Ok (Coord lat lon) :: (tag_token <$> tags)
  | CWay _ tags refs => (tag_token <$> tags) ++ ((fun r => Ok (Ref r)) <$> refs)
  | CRelation _ tags members => (tag_token <$> tags) ++ (member_token <$> members)
  end.

(** ** Equality *)

Fixpoint tokens_equal (a b : list (result LookupError Token)) : bool :=
  match a, b with
  | [], [] => true
  | Ok x :: a, Ok y :: b => if decide (x = y) then tokens_equal a b else false
  | _, _ => false
  end.

Definition content_equal (a b : ContentElement) : bool :=
  if decide (content_kind a = content_kind b) then tokens_equal (content_tokens a) (content_tokens b) else false.

(** ** Canonical serialization *)

Definition KIND_NODE : Z := 0x01.
Definition KIND_WAY : Z := 0x02.
Definition KIND_RELATION : Z := 0x03.
Definition TOKEN_COORD : Z := 0x10.
Definition TOKEN_TAG : Z := 0x11.
Definition TOKEN_REF : Z := 0x12.
Definition TOKEN_MEMBER : Z := 0x13.
Definition RECORD_END : Z := 0x1F.
Definition MEMBER_NODE : Z := 0x00.
Definition MEMBER_WAY : Z := 0x01.
Definition MEMBER_RELATION : Z := 0x02.
Definition MEMBER_UNKNOWN : Z := 0x03.

Inductive RecordError := Lookup (e : LookupError) | StringTooLong.

Definition write_str (out : bytes) (s : bytes) : result RecordError bytes :=
  if Z.of_nat (length s) <=? u32_max then Ok (out ++ to_le 4 (Z.of_nat (length s)) ++ s) else Err StringTooLong.

Definition write_tag (out : bytes) (k v : bytes) : result RecordError bytes :=
  out ← write_str (out ++ [TOKEN_TAG]) k; write_str out v.

Definition write_member (out : bytes) (id : MemberId) (role : bytes) : result RecordError bytes :=
  let out := out ++ [TOKEN_MEMBER] in
  let out := match id with
             | IdNode _ => out ++ [MEMBER_NODE]
             | IdWay _ => out ++ [MEMBER_WAY]
             | IdRelation _ => out ++ [MEMBER_RELATION]
             | IdUnknown raw _ => out ++ [MEMBER_UNKNOWN] ++ to_le 4 raw
             end in
  write_str (out ++ to_le 8 (member_id id)) role.

Definition write_token (out : bytes) (t : Token) : result RecordError bytes :=
  match t with
  | Coord lat lon => Ok (out ++ [TOKEN_COORD] ++ to_le 4 lat ++ to_le 4 lon)
  | Tag k v => write_tag out k v
  | Ref r => Ok (out ++ [TOKEN_REF] ++ to_le 8 r)
  | Member id role => write_member out id role
  end.

Fixpoint write_tokens (out : bytes) (ts : list (result LookupError Token)) : result RecordError bytes :=
  match ts with
  | [] => Ok out
  | Ok t :: ts => out ← write_token out t; write_tokens out ts
  | Err e :: _ => Err (Lookup e)
  end.

Definition kind_byte (k : ElementKind) : Z :=
  match k with Node => KIND_NODE | Way => KIND_WAY | Relation => KIND_RELATION end.

Definition write_record (e : ContentElement) (id : Z) (out : bytes) : result RecordError bytes :=
  out ← write_tokens (out ++ [kind_byte (content_kind e)] ++ to_le 8 id) (content_tokens e);
  Ok (out ++ [RECORD_END]).

(** The records of a stream of elements, one after another. *)
Fixpoint write_records (es : list ContentElement) (out : bytes) : result RecordError bytes :=
  match es with
  | [] => Ok out
  | e :: es => out ← write_record e (content_id e) out; write_records es out
  end.

(** ** The codes *)

Definition str_code (s : bytes) : bytes := to_le 4 (Z.of_nat (length s)) ++ s.

Definition member_code (id : MemberId) : bytes :=
  match id with
  | IdNode _ => [MEMBER_NODE]
  | IdWay _ => [MEMBER_WAY]
  | IdRelation _ => [MEMBER_RELATION]
  | IdUnknown raw _ => MEMBER_UNKNOWN :: to_le 4 raw
  end ++ to_le 8 (member_id id).

Definition token_code (t : Token) : bytes :=
  match t with
  | Coord lat lon => TOKEN_COORD :: to_le 4 lat ++ to_le 4 lon
  | Tag k v => TOKEN_TAG :: str_code k ++ str_code v
  | Ref r => TOKEN_REF :: to_le 8 r
  | Member id role => TOKEN_MEMBER :: member_code id ++ str_code role
  end.

(** Values within the widths the source's types give them. *)
Definition token_width (t : Token) : Prop :=
  match t with
  | Coord lat lon => is_s 32 lat /\ is_s 32 lon
  | Tag _ _ => True
  | Ref r => is_s 64 r
  | Member id _ => is_s 64 (member_id id) /\ match id with IdUnknown raw _ => is_s 32 raw | _ => True end
  end.

Definition fits (s : bytes) : Prop := Z.of_nat (length s) <= u32_max.

Definition token_fits (t : Token) : Prop :=
  match t with Tag k v => fits k /\ fits v | Member _ role => fits role | _ => True end.

Lemma write_str_ok out s r : write_str out s = Ok r <-> fits s /\ r = out ++ str_code s.
Proof. unfold write_str, fits, str_code. destruct (Z.leb_spec (Z.of_nat (length s)) u32_max); split; naive_solver lia. Qed.

Lemma write_token_ok out t r : write_token out t = Ok r <-> token_fits t /\ r = out ++ token_code t.
Proof.
  destruct t as [lat lon|k v|x|id role]; cbn [write_token token_fits token_code].
  - split; [by intros [= <-]|by intros [_ ->]].
  - unfold write_tag. destruct (write_str (out ++ [TOKEN_TAG]) k) as [o|e] eqn:E; cbn [mbind result_bind].
    + apply write_str_ok in E as [Hk ->]. rewrite write_str_ok, <- !app_assoc. naive_solver.
    + split; [done|]. intros [[Hk _] _]. assert (write_str (out ++ [TOKEN_TAG]) k = Ok ((out ++ [TOKEN_TAG]) ++ str_code k)) by (by apply write_str_ok). congruence.
  - split; [by intros [= <-]|by intros [_ ->]].
  - unfold write_member. rewrite write_str_ok. destruct id; cbn [member_code member_id app]; rewrite <- ?app_assoc; cbn [app]; done.
Qed.

Definition tokens_code (ts : list Token) : bytes := ts ≫= token_code.

Lemma write_tokens_ok ts out r :
  write_tokens out ts = Ok r <-> exists vs, ts = Ok <$> vs /\ Forall token_fits vs /\ r = out ++ tokens_code vs.
Proof.
  revert out. induction ts as [|[t|e] ts IH]; intros out; cbn [write_tokens].
  - split; [intros [= <-]; exists []; by rewrite app_nil_r|]. intros ([|] & E & _ & ->); [|done]. by rewrite app_nil_r.
  - destruct (write_token out t) as [o|e] eqn:E; cbn [mbind result_bind].
    + apply write_token_ok in E as [Ht ->]. rewrite IH. split.
      * intros (vs & -> & Hf & ->). exists (t :: vs). split_and!; [done|by constructor|]. cbn. by rewrite app_assoc.
      * intros ([|v vs] & Ev & Hf & ->); [done|]. injection Ev as -> ->. apply Forall_cons in Hf as [_ Hf]. exists vs. split_and!; [done|done|]. cbn. by rewrite app_assoc.
    + split; [done|]. intros ([|v vs] & Ev & Hf & ->); [done|]. injection Ev as -> ->. apply Forall_cons in Hf as [Hv _].
      assert (write_token out v = Ok (out ++ token_code v)) by (by apply write_token_ok). congruence.
  - split; [done|]. intros ([|v vs] & Ev & _); done.
Qed.

(** ** Unique parsing *)

Lemma cons_tail {A} (x y : A) l k : x :: l = y :: k -> l = k.
Proof. by intros [= _ ->]. Qed.

Lemma le_app_inj n a b r1 r2 : to_le n a ++ r1 = to_le n b ++ r2 -> to_le n a = to_le n b /\ r1 = r2.
Proof. apply app_inj_1. by rewrite !length_to_le. Qed.

Lemma le_app_inj_s n a b r1 r2 : (0 < n)%nat -> is_s (8 * Z.of_nat n) a -> is_s (8 * Z.of_nat n) b -> to_le n a ++ r1 = to_le n b ++ r2 -> a = b /\ r1 = r2.
Proof.
  intros Hn Ha Hb [E ->]%le_app_inj. split; [|done]. apply (f_equal (fun l => as_s (8 * Z.of_nat n) (from_le l))) in E.
  by rewrite !from_to_le_s in E by (lia || done).
Qed.

Lemma str_code_inj s1 s2 r1 r2 : fits s1 -> fits s2 -> str_code s1 ++ r1 = str_code s2 ++ r2 -> s1 = s2 /\ r1 = r2.
Proof.
  intros H1 H2 E. unfold str_code in E. rewrite <- !app_assoc in E. apply le_app_inj in E as [E1 E2].
  apply (f_equal from_le) in E1. unfold fits, u32_max in *. rewrite !from_to_le_u in E1 by (unfold is_u; cbn; lia). by apply app_inj_1 in E2; [|lia].
Qed.

Lemma member_code_inj i1 i2 r1 r2 :
  token_width (Member i1 []) -> token_width (Member i2 []) -> member_code i1 ++ r1 = member_code i2 ++ r2 -> i1 = i2 /\ r1 = r2.
Proof.
  intros [W1 V1] [W2 V2] E. unfold member_code in E. rewrite <- !app_assoc in E.
  destruct i1 as [x|x|x|v x], i2 as [y|y|y|u y]; cbn [app member_id] in *; try discriminate E; apply cons_tail in E.
  1-3: apply le_app_inj_s in E as [-> ->]; [done|lia|done|done].
  apply le_app_inj_s in E as [-> E]; [|lia|done|done]. apply le_app_inj_s in E as [-> ->]; [done|lia|done|done].
Qed.

Lemma token_code_inj t1 t2 r1 r2 :
  token_width t1 -> token_fits t1 -> token_width t2 -> token_fits t2 -> token_code t1 ++ r1 = token_code t2 ++ r2 -> t1 = t2 /\ r1 = r2.
Proof.
  intros W1 F1 W2 F2 E. destruct t1 as [a1 o1|k1 v1|x1|i1 s1], t2 as [a2 o2|k2 v2|x2|i2 s2]; cbn [token_code app] in E; try discriminate E; apply cons_tail in E; rewrite <- ?app_assoc in E.
  - destruct W1, W2. apply le_app_inj_s in E as [-> E]; [|lia|done|done]. apply le_app_inj_s in E as [-> ->]; [done|lia|done|done].
  - destruct F1, F2. apply str_code_inj in E as [-> E]; [|done|done]. by apply str_code_inj in E as [-> ->].
  - apply le_app_inj_s in E as [-> ->]; [done|lia|done|done].
  - apply member_code_inj in E as [-> E]; [|done|done]. by apply str_code_inj in E as [-> ->].
Qed.

Definition token_ok (t : Token) : Prop := token_width t /\ token_fits t.

Lemma tokens_code_inj ts1 ts2 r1 r2 :
  Forall token_ok ts1 -> Forall token_ok ts2 -> tokens_code ts1 ++ RECORD_END :: r1 = tokens_code ts2 ++ RECORD_END :: r2 -> ts1 = ts2 /\ r1 = r2.
Proof.
  intros H1. revert ts2. induction H1 as [|t1 ts1 [W1 F1] _ IH]; intros ts2 H2 E.
  - destruct H2 as [|t2 ts2 _ _]; cbn in E; [by apply cons_tail in E|]. destruct t2; discriminate E.
  - destruct H2 as [|t2 ts2 [W2 F2] H2]; cbn in E; [destruct t1; discriminate E|]. rewrite <- !app_assoc in E.
    apply token_code_inj in E as [-> E]; [|done..]. by apply IH in E as [-> ->].
Qed.

#[local] Instance Ok_inj {E A} : Inj (=) (=) (@Ok E A).
Proof. by intros x y [= ->]. Qed.

Lemma tokens_equal_ok a b : tokens_equal (Ok <$> a) (Ok <$> b) = bool_decide (a = b).
Proof.
  revert b. induction a as [|x a IH]; intros [|y b]; try done. rewrite !fmap_cons. cbn [tokens_equal]. case_decide as Hxy.
  - rewrite IH. subst. apply bool_decide_ext. naive_solver.
  - symmetry. apply bool_decide_eq_false. naive_solver.
Qed.

(** The values of an element's types fit their widths. *)
Definition element_width (e : ContentElement) : Prop :=
  is_s 64 (content_id e) /\ Forall (fun t => match t with Ok t => token_width t | Err _ => True end) (content_tokens e).

Lemma write_record_ok e id out r :
  write_record e id out = Ok r <->
  exists vs, content_tokens e = Ok <$> vs /\ Forall token_fits vs /\
    r = out ++ (kind_byte (content_kind e) :: to_le 8 id) ++ tokens_code vs ++ [RECORD_END].
Proof.
  unfold write_record. destruct (write_tokens (out ++ [kind_byte (content_kind e)] ++ to_le 8 id) (content_tokens e)) as [o|x] eqn:E; cbn [mbind result_bind].
  - apply write_tokens_ok in E as (vs & Et & Hf & ->). split.
    + intros [= <-]. exists vs. split_and!; [done|done|]. by rewrite <- !app_assoc.
    + intros (vs' & Et' & _ & ->). rewrite Et in Et'. assert (vs = vs') as -> by (by apply (inj (fmap Ok)) in Et'). by rewrite <- !app_assoc.
  - split; [done|]. intros (vs & Et & Hf & ->). exfalso.
    assert (write_tokens (out ++ [kind_byte (content_kind e)] ++ to_le 8 id) (content_tokens e) = Ok ((out ++ [kind_byte (content_kind e)] ++ to_le 8 id) ++ tokens_code vs)) as E'
      by (apply write_tokens_ok; by exists vs). congruence.
Qed.

(** The record of an element on its own. *)
Definition record_of (e : ContentElement) : result RecordError bytes := write_record e (content_id e) [].

Lemma write_record_app e id out r : write_record e id out = Ok r <-> exists x, write_record e id [] = Ok x /\ r = out ++ x.
Proof.
  rewrite write_record_ok. setoid_rewrite write_record_ok. split.
  - intros (vs & H1 & H2 & ->). eexists. split; [by exists vs|done].
  - intros (x & (vs & H1 & H2 & ->) & ->). by exists vs.
Qed.

Lemma record_inj a b x y r1 r2 :
  element_width a -> element_width b -> record_of a = Ok x -> record_of b = Ok y -> x ++ r1 = y ++ r2 ->
  content_id a = content_id b /\ content_equal a b = true /\ r1 = r2.
Proof.
  intros [Ia Wa] [Ib Wb] Ea Eb E. apply write_record_ok in Ea as (va & Ta & Fa & ->). apply write_record_ok in Eb as (vb & Tb & Fb & ->).
  assert (forall vs ts, ts = Ok <$> vs -> Forall token_fits vs -> Forall (fun t : result LookupError Token => match t with Ok t => token_width t | Err _ => True end) ts -> Forall token_ok vs) as Hok.
  { intros vs ts -> Hf Hw. rewrite Forall_fmap in Hw. apply Forall_forall. intros t Ht. rewrite Forall_forall in Hf, Hw. split; [by apply (Hw t)|by apply Hf]. }
  cbn [app] in E. rewrite <- !app_assoc in E. assert (content_kind a = content_kind b) as Hk.
  { apply (f_equal head) in E. cbn in E. injection E as E. by destruct (content_kind a), (content_kind b). }
  apply cons_tail, le_app_inj_s in E as [Hid E]; [|lia|done|done]. rewrite <- ?app_assoc in E. cbn [app] in E.
  apply tokens_code_inj in E as [-> ->]; [|by eapply Hok|by eapply Hok]. split_and!; [done| |done].
  unfold content_equal. rewrite decide_True by done. rewrite Ta, Tb, tokens_equal_ok. by apply bool_decide_eq_true.
Qed.

Lemma record_same a b x y :
  content_id a = content_id b -> content_equal a b = true -> record_of a = Ok x -> record_of b = Ok y -> x = y.
Proof.
  intros Hid Hc Ea Eb. apply write_record_ok in Ea as (va & Ta & Fa & ->). apply write_record_ok in Eb as (vb & Tb & Fb & ->).
  unfold content_equal in Hc. case_decide as Hk; [|done]. rewrite Ta, Tb, tokens_equal_ok in Hc. apply bool_decide_eq_true in Hc as ->. by rewrite Hk, Hid.
Qed.

Lemma write_records_cons e es out r :
  write_records (e :: es) out = Ok r <-> exists x r', record_of e = Ok x /\ write_records es [] = Ok r' /\ r = out ++ x ++ r'.
Proof.
  assert (forall es out r, write_records es out = Ok r <-> exists r', write_records es [] = Ok r' /\ r = out ++ r') as Happ.
  { clear. induction es as [|e es IH]; intros out r; cbn [write_records].
    - split; [intros [= <-]; exists []; by rewrite app_nil_r|by intros (r' & [= <-] & ->); rewrite app_nil_r].
    - assert (forall o r, (o ← write_record e (content_id e) o; write_records es o) = Ok r <-> exists x, write_record e (content_id e) [] = Ok x /\ exists r', write_records es [] = Ok r' /\ r = o ++ x ++ r') as H.
      { intros o q. destruct (write_record e (content_id e) o) as [z|z] eqn:E; cbn [mbind result_bind].
        - apply write_record_app in E as (x & Ex & ->). rewrite IH, Ex. split.
          + intros (r' & Hr & ->). exists x. split; [done|]. exists r'. by rewrite app_assoc.
          + intros (x' & [= <-] & r' & Hr & ->). exists r'. by rewrite app_assoc.
        - split; [done|]. intros (x & Ex & _). assert (write_record e (content_id e) o = Ok (o ++ x)) by (apply write_record_app; by exists x). congruence. }
      rewrite H. setoid_rewrite H. naive_solver. }
  cbn [write_records]. split.
  - destruct (write_record e (content_id e) out) as [z|z] eqn:E; cbn [mbind result_bind]; [|done]. apply write_record_app in E as (x & Ex & ->).
    intros (r' & Hr & ->)%Happ. exists x, r'. split_and!; [done|done|by rewrite app_assoc].
  - intros (x & r' & Ex & Hr & ->). assert (write_record e (content_id e) out = Ok (out ++ x)) as -> by (apply write_record_app; by exists x).
    cbn [mbind result_bind]. apply Happ. exists r'. by rewrite app_assoc.
Qed.

(** The digest agrees with the diff: two element streams whose records can be
    written serialize to the same bytes exactly when they have the same length
    and their elements, position by position, have the same id and are
    [content_equal]. *)
Theorem digest_agrees_with_diff (a b : list ContentElement) (ra rb : bytes) :
  Forall element_width a -> Forall element_width b -> write_records a [] = Ok ra -> write_records b [] = Ok rb ->
  ra = rb <-> Forall2 (fun x y => content_id x = content_id y /\ content_equal x y = true) a b.
Proof.
  intros Ha. revert b ra rb. induction Ha as [|x a Hx Ha IH]; intros b ra rb Hb Ea Eb.
  - injection Ea as <-. destruct b as [|y b]; [injection Eb as <-; done|]. apply write_records_cons in Eb as (z & r & Ez & _ & ->).
    apply write_record_ok in Ez as (vs & _ & _ & ->). split; [done|]. by intros ?%Forall2_nil_inv_l.
  - apply write_records_cons in Ea as (zx & rx & Ezx & Erx & ->). destruct Hb as [|y b Hy Hb].
    + injection Eb as <-. apply write_record_ok in Ezx as (vs & _ & _ & ->). split; [done|]. by intros ?%Forall2_nil_inv_r.
    + apply write_records_cons in Eb as (zy & ry & Ezy & Ery & ->). cbn [app]. rewrite Forall2_cons, <- (IH b rx ry) by done. split.
      * intros E. destruct (record_inj x y zx zy rx ry) as (H1 & H2 & H3); done.
      * intros [[H1 H2] ->]. by rewrite (record_same x y zx zy).
Qed.

Definition sample_way (ref : Z) : ContentElement := CWay 7 [Ok ([104], [105])] [1; ref].

Lemma digest_agrees_with_diff_witness :
  exists r, write_records [sample_way 2] [] = Ok r /\ (r = r <-> Forall2 (fun x y => content_id x = content_id y /\ content_equal x y = true) [sample_way 2] [sample_way 2]) /\
  exists r', write_records [sample_way 3] [] = Ok r' /\ (r = r' <-> Forall2 (fun x y => content_id x = content_id y /\ content_equal x y = true) [sample_way 2] [sample_way 3]).
Proof.
  assert (forall n, is_s 64 n -> Forall element_width [sample_way n]) as Hw by
    (intros n Hn; constructor; [|constructor]; split; [unfold is_s; cbn; lia|]; repeat (apply Forall_cons; split; [cbn; first [done|unfold is_s; lia]|]); apply Forall_nil; done).
  eexists. split; [vm_compute; reflexivity|]. split.
  - apply digest_agrees_with_diff; [apply Hw; unfold is_s; lia|apply Hw; unfold is_s; lia|vm_compute; reflexivity|vm_compute; reflexivity].
  - eexists. split; [vm_compute; reflexivity|]. apply digest_agrees_with_diff; [apply Hw; unfold is_s; lia|apply Hw; unfold is_s; lia|vm_compute; reflexivity|vm_compute; reflexivity].
Defined.
