(* ===== verification/DiffJoin.v ===== *)
(** * The block-pair merge of diff (src/src/osc/merge_join.rs)

    [diff] compares two sorted files kind by kind. On indexed inputs it works on
    pairs of blobs: a blob that lies wholly before the other side's is reported
    without a comparison, two blobs with the same bytes without decoding, and the
    rest is merged element by element, each work unit clipped to its window of
    ids. This file holds the merge of one unit; [DiffUnits] cuts the units and
    [DiffStream] is the path for inputs without indexdata. *)

From S2P Require Import Prelude OsmId ElementKind BlobMeta Content.

Inductive DiffError :=
| Foreign (c : KindContradiction)
| ClaimContradicted (claimed_last merge_up_to : Z)
| UnsortedBlobs (v : OrderViolation)
| UnsortedElement (k : ElementKind) (id previous : Z)
| UnsortedBlock (found phase : ElementKind)
| MixedBlock
| MissingIndex
| Unsplittable (k : ElementKind) (at_key : OsmIdKey) (bytes_held : Z)
| Corrupt
| Internal.

(** ** Actions *)

(** A single-sided run of a decoded block. *)
Record BlockRun := mkRun { run_block : list ContentElement; run_skip : nat; run_end : option nat; run_count : Z }.

Definition run_elements (r : BlockRun) : list ContentElement :=
  let rest := drop (run_skip r) (run_block r) in
  match run_end r with Some e => take (e - run_skip r) rest | None => rest end.

Inductive Action :=
| BlobEqual (cnt : Z)
| BlobOldOnly (r : BlockRun)
| BlobNewOnly (r : BlockRun)
| ElementEqual (e : ContentElement)
| ElementModified (o n : ContentElement)
| ElementOldOnly (e : ContentElement)
| ElementNewOnly (e : ContentElement).

(** ** Frames and windows *)

(** A blob's claim, the length of its body, and what its body holds: the raw
    payload with its compression, and the decoded elements. *)
Record Frame := mkFrame {
  f_index : BlobIndex; f_len : Z;
  f_payload : result DiffError (option (Z * bytes)); f_block : result DiffError (list ContentElement) }.

Definition first_key (f : Frame) : OsmIdKey := blob_osm_first_key (min_id (f_index f)) (max_id (f_index f)).
Definition last_key (f : Frame) : OsmIdKey := blob_osm_last_key (min_id (f_index f)) (max_id (f_index f)).

Record Window := mkWindow { w_start : option OsmIdKey; w_end : option OsmIdKey }.

Definition crosses (w : Window) (f : Frame) : bool :=
  match w_start w with Some s => key_ltb (first_key f) s | None => false end ||
  match w_end w with Some e => key_leb e (last_key f) | None => false end.

(** ** One side of a unit *)

Record BlockState := mkState {
  bs_block : list ContentElement; bs_skip : nat; bs_end : option nat; bs_clip_last : option Z; bs_index : BlobIndex }.

Definition spent (s : BlockState) : bool :=
  match bs_end s with Some e => (e <=? bs_skip s)%nat | None => false end.

Definition state_run (s : BlockState) : BlockRun :=
  let cnt := match bs_end s with
             | Some e => Z.of_nat (e - Nat.min (bs_skip s) e)
             | None => Z.of_nat (length (bs_block s) - bs_skip s)
             end in
  mkRun (bs_block s) (bs_skip s) (bs_end s) cnt.

Record BlockPairSide := mkSide {
  ps_frames : list Frame; ps_next : nat; ps_current : nat; ps_held : bool; ps_window : Window }.

Definition side_new (frames : list Frame) (w : Window) : BlockPairSide := mkSide frames 0 0 false w.

Definition next_blob (s : BlockPairSide) : BlockPairSide * option Frame :=
  if ps_held s then (mkSide (ps_frames s) (ps_next s) (ps_current s) false (ps_window s), ps_frames s !! ps_current s)
  else
    match ps_frames s !! ps_next s with
    | None => (s, None)
    | Some f => (mkSide (ps_frames s) (S (ps_next s)) (ps_next s) false (ps_window s), Some f)
    end.

Definition hold (s : BlockPairSide) : BlockPairSide := mkSide (ps_frames s) (ps_next s) (ps_current s) true (ps_window s).

(** The walk of [clip]: elements before the window, the first past it, the last
    id inside. *)
Fixpoint clip_loop (w : Window) (i skip : nat) (last_inside : option Z) (es : list ContentElement) : nat * nat * option Z :=
  match es with
  | [] => (Nat.min skip i, i, last_inside)
  | e :: es =>
      let key := osm_id_key (content_id e) in
      if match w_end w with Some stop => key_leb stop key | None => false end then (Nat.min skip i, i, last_inside)
      else if match w_start w with Some start => key_ltb key start | None => false end
      then clip_loop w (S i) (S i) last_inside es
      else clip_loop w (S i) skip (Some (content_id e)) es
  end.

Definition clip (es : list ContentElement) (w : Window) : nat * nat * option Z := clip_loop w 0 0 None es.

Definition decode (s : BlockPairSide) (f : Frame) : result DiffError BlockState :=
  es ← f_block f;
  _ ← match refuse_under (kinds_of (content_kind <$> es)) (Some (kind (f_index f))) with Ok u => Ok u | Err c => Err (Foreign c) end;
  Ok (if crosses (ps_window s) f then
        let '(skip, stop, last_inside) := clip es (ps_window s) in mkState es skip (Some stop) last_inside (f_index f)
      else mkState es 0 None None (f_index f)).

Fixpoint next_decoded_loop (fuel : nat) (s : BlockPairSide) : result DiffError (BlockPairSide * option BlockState) :=
  match fuel with
  | O => Ok (s, None)
  | S fuel =>
      match next_blob s with
      | (s, None) => Ok (s, None)
      | (s, Some f) => st ← decode s f; if spent st then next_decoded_loop fuel s else Ok (s, Some st)
      end
  end.

(** Every frame is yielded at most once more. *)
Definition next_decoded (s : BlockPairSide) : result DiffError (BlockPairSide * option BlockState) :=
  next_decoded_loop (S (S (length (ps_frames s)))) s.

(** ** Merging a pair *)

Definition blob_last (ix : BlobIndex) : Z := blob_osm_last_id (min_id ix) (max_id ix).

Definition cmp_le (a b : Z) : bool := match osm_id_cmp a b with Gt => false | _ => true end.
Definition cmp_lt (a b : Z) : bool := match osm_id_cmp a b with Lt => true | _ => false end.

Definition state_last (s : BlockState) : Z :=
  let l := blob_last (bs_index s) in
  match bs_clip_last s with Some inside => if cmp_lt inside l then inside else l | None => l end.

Definition blob_entirely_before (a b : BlobIndex) : bool :=
  key_ltb (blob_osm_last_key (min_id a) (max_id a)) (blob_osm_first_key (min_id b) (max_id b)).

Definition pair_action (o n : ContentElement) : Action :=
  if content_equal o n then ElementEqual o else ElementModified o n.

(** [element_merge_pair]: the counts consumed, what is left, the actions *)
Fixpoint pair_loop (fuel : nat) (up_to : Z) (o n : list ContentElement) (oc nc : nat) (out : list Action)
    : nat * nat * list ContentElement * list ContentElement * list Action :=
  match fuel with
  | O => (oc, nc, o, n, out)
  | S fuel =>
      let in_range e := if cmp_le (content_id e) up_to then Some e else None in
      match head o ≫= in_range, head n ≫= in_range with
      | None, None => (oc, nc, o, n, out)
      | Some x, None => pair_loop fuel up_to (tail o) n (S oc) nc (out ++ [ElementOldOnly x])
      | None, Some y => pair_loop fuel up_to o (tail n) oc (S nc) (out ++ [ElementNewOnly y])
      | Some x, Some y =>
          match osm_id_cmp (content_id x) (content_id y) with
          | Lt => pair_loop fuel up_to (tail o) n (S oc) nc (out ++ [ElementOldOnly x])
          | Gt => pair_loop fuel up_to o (tail n) oc (S nc) (out ++ [ElementNewOnly y])
          | Eq => pair_loop fuel up_to (tail o) (tail n) (S oc) (S nc) (out ++ [pair_action x y])
          end
      end
  end.

Definition element_merge_pair (os ns : BlockState) (up_to : Z) (out : list Action) :=
  let o := run_elements (state_run os) in
  let n := run_elements (state_run ns) in
  pair_loop (length o + length n) up_to o n 0 0 out.

Definition check_claimed_max (ix : BlobIndex) (has_more : bool) (up_to : Z) : result DiffError unit :=
  if negb has_more then Ok ()
  else if cmp_le (blob_last ix) up_to then Err (ClaimContradicted (blob_last ix) up_to) else Ok ().

Definition skip_more (s : BlockState) (n : nat) : BlockState :=
  mkState (bs_block s) (bs_skip s + n) (bs_end s) (bs_clip_last s) (bs_index s).

Definition merge_decoded_pair (os ns : BlockState) (out : list Action)
    : result DiffError (option BlockState * option BlockState * list Action) :=
  let up_to := if cmp_le (state_last os) (state_last ns) then state_last os else state_last ns in
  let '(oc, nc, o, n, out) := element_merge_pair os ns up_to out in
  let old_more := bool_decide (o <> []) in
  let new_more := bool_decide (n <> []) in
  _ ← check_claimed_max (bs_index os) old_more up_to;
  _ ← check_claimed_max (bs_index ns) new_more up_to;
  Ok ((if old_more then Some (skip_more os oc) else None), (if new_more then Some (skip_more ns nc) else None), out).

Definition emit_block (s : BlockState) (is_old : bool) (out : list Action) : list Action :=
  if spent s then out else out ++ [if is_old then BlobOldOnly (state_run s) else BlobNewOnly (state_run s)].

Fixpoint drain_loop (fuel : nat) (s : BlockPairSide) (is_old : bool) (out : list Action) : result DiffError (list Action) :=
  match fuel with
  | O => Ok out
  | S fuel =>
      '(s, r) ← next_decoded s;
      match r with Some st => drain_loop fuel s is_old (emit_block st is_old out) | None => Ok out end
  end.

Definition drain_remaining (s : BlockPairSide) (is_old : bool) (out : list Action) : result DiffError (list Action) :=
  drain_loop (S (S (length (ps_frames s)))) s is_old out.

Definition payload_equal (a b : option (Z * bytes)) : bool :=
  match a, b with Some (ak, ab), Some (bk, bb) => (ak =? bk) && bool_decide (ab = bb) | _, _ => false end.

Definition blobs_byte_equal (w : Window) (o n : Frame) : result DiffError bool :=
  if negb (min_id (f_index o) =? min_id (f_index n)) || negb (max_id (f_index o) =? max_id (f_index n)) ||
     negb (count (f_index o) =? count (f_index n)) then Ok false
  else if crosses w o then Ok false
  else a ← f_payload o; b ← f_payload n; Ok (payload_equal a b).

(** ** The unit's loop *)

Definition unless_spent (s : BlockState) : option BlockState := if spent s then None else Some s.

Definition refill (s : BlockPairSide) (st : option BlockState) : result DiffError (BlockPairSide * option BlockState) :=
  match st with Some x => Ok (s, Some x) | None => next_decoded s end.

Record PairMerge := mkPair {
  pm_old : BlockPairSide; pm_new : BlockPairSide; pm_old_decoded : option BlockState; pm_new_decoded : option BlockState;
  pm_out : list Action }.

(** The loop's second half: at least one side has a decoded block. *)
Definition slow_path (m : PairMerge) : result DiffError (PairMerge + list Action) :=
  '(old, os) ← refill (pm_old m) (pm_old_decoded m);
  '(new, ns) ← refill (pm_new m) (pm_new_decoded m);
  match os, ns with
  | None, None => Ok (inr (pm_out m))
  | Some os, None => Ok (inl (mkPair old new None None (emit_block os true (pm_out m))))
  | None, Some ns => Ok (inl (mkPair old new None None (emit_block ns false (pm_out m))))
  | Some os, Some ns =>
      if blob_entirely_before (bs_index os) (bs_index ns) then Ok (inl (mkPair old new None (Some ns) (emit_block os true (pm_out m))))
      else if blob_entirely_before (bs_index ns) (bs_index os) then Ok (inl (mkPair old new (Some os) None (emit_block ns false (pm_out m))))
      else
        '(os, ns, out) ← merge_decoded_pair os ns (pm_out m);
        Ok (inl (mkPair old new os ns out))
  end.

(** One turn: the next state, or the finished actions. *)
Definition pair_step (skip_equal : bool) (m : PairMerge) : result DiffError (PairMerge + list Action) :=
  match pm_old_decoded m, pm_new_decoded m with
  | None, None =>
      let '(old, op) := next_blob (pm_old m) in
      let '(new, np) := next_blob (pm_new m) in
      match op, np with
      | None, None => Ok (inr (pm_out m))
      | Some op, None =>
          os ← decode old op;
          out ← drain_remaining old true (emit_block os true (pm_out m));
          Ok (inr out)
      | None, Some np =>
          ns ← decode new np;
          out ← drain_remaining new false (emit_block ns false (pm_out m));
          Ok (inr out)
      | Some op, Some np =>
          if blob_entirely_before (f_index op) (f_index np) then
            os ← decode old op;
            Ok (inl (mkPair old (hold new) None None (emit_block os true (pm_out m))))
          else if blob_entirely_before (f_index np) (f_index op) then
            ns ← decode new np;
            Ok (inl (mkPair (hold old) new None None (emit_block ns false (pm_out m))))
          else
            equal ← (if skip_equal : bool then blobs_byte_equal (ps_window old) op np else Ok false);
            if equal : bool then Ok (inl (mkPair old new None None (pm_out m ++ [BlobEqual (count (f_index op))])))
            else
              os ← decode old op;
              ns ← decode new np;
              slow_path (mkPair old new (unless_spent os) (unless_spent ns) (pm_out m))
      end
  | _, _ => slow_path m
  end.

Fixpoint pair_steps (fuel : nat) (skip_equal : bool) (m : PairMerge) : result DiffError (list Action) :=
  match fuel with
  | O => Err Internal
  | S fuel =>
      r ← pair_step skip_equal m;
      match r with inl m => pair_steps fuel skip_equal m | inr out => Ok out end
  end.

(** Every turn finishes a blob or half of one. *)
Definition block_pair_merge_phase (old new : BlockPairSide) (skip_equal : bool) : result DiffError (list Action) :=
  pair_steps (S (2 * (length (ps_frames old) + length (ps_frames new)))) skip_equal (mkPair old new None None []).
