(* ===== verification/PackedCount.v ===== *)
(** * Counting packed varints (src/src/read/block.rs)

    Block validation never decodes a packed array: it counts its values by a
    byte scan that must accept exactly the arrays the packed iterators read to
    the end.  [packed_varint_count] works eight bytes at a time, with a per-byte
    fallback; [packed_uint32_count] also bounds the values.  The theorems tie
    both to [read_varint]. *)

From S2P Require Import Prelude Count Proto Wire.

Definition HIGH : Z := 9259542123273814144.

(** [slice::as_chunks::<8>] *)
Fixpoint as_chunks (data : bytes) : list bytes * bytes :=
  match data with
  | b0 :: b1 :: b2 :: b3 :: b4 :: b5 :: b6 :: b7 :: rest =>
      let '(words, tail) := as_chunks rest in ([b0; b1; b2; b3; b4; b5; b6; b7] :: words, tail)
  | _ => ([], data)
  end.

(** [!x] on [u64]. *)
Definition not_u64 (x : Z) : Z := u64_max - x.

(** [count], [run] and [long_run]. *)
Abbreviation scan_state := (Z * Z * bool)%type.

Definition word_step (st : scan_state) (word : bytes) : scan_state :=
  let '(count, run, long_run) := st in
  let terminals := Z.land (not_u64 (from_le word)) HIGH in
  let lead := trailing_zeros terminals / 8 in
  (count + count_ones terminals,
   if terminals =? 0 then Z.min (run + 8) 9 else leading_zeros terminals / 8,
   long_run || (9 <=? run + lead)).

Definition tail_step (st : scan_state) (b : Z) : scan_state :=
  let '(count, run, long_run) := st in
  if Z.land b 128 =? 0 then (count + 1, 0, long_run)
  else (count, run + 1, long_run || (9 <=? run + 1)).

Section Counters.
Context {P : Protohoggr}.

Definition MID_VARINT : WireError := Message "packed varint array ends mid-varint".
Definition overlong_varint_err : WireError := Message "packed varint array holds a varint wider than 64 bits".

(** [pos] is the index of the current byte within its varint. *)
Fixpoint count_exact_loop (data : bytes) (count pos : Z) : result WireError Z :=
  match data with
  | [] => if negb (pos =? 0) then Err MID_VARINT else Ok count
  | b :: data =>
      if pos =? 9 then
        if 1 <? b then Err overlong_varint_err else count_exact_loop data (count + 1) 0
      else if Z.land b 128 =? 0 then count_exact_loop data (count + 1) 0
      else count_exact_loop data count (pos + 1)
  end.

Definition packed_varint_count_exact (data : bytes) : result WireError Z := count_exact_loop data 0 0.

Definition packed_varint_count (data : bytes) : result WireError Z :=
  let '(words, tail) := as_chunks data in
  let '(count, run, long_run) := fold_left tail_step tail (fold_left word_step words (0, 0, false)) in
  if long_run then packed_varint_count_exact data
  else if negb (run =? 0) then Err MID_VARINT
  else Ok count.

Definition too_wide (pos payload : Z) : bool :=
  if pos <=? 3 then false else if pos =? 4 then 15 <? payload else negb (payload =? 0).

Fixpoint uint32_count_loop (data : bytes) (count pos : Z) : result WireError Z :=
  match data with
  | [] => if negb (pos =? 0) then Err MID_VARINT else Ok count
  | b :: data =>
      if too_wide pos (Z.land b 127) then Err (Message "tag string index exceeds uint32")
      else if Z.land b 128 =? 0 then uint32_count_loop data (count + 1) 0
      else if pos =? 9 then Err overlong_varint_err
      else uint32_count_loop data count (pos + 1)
  end.

Definition packed_uint32_count (data : bytes) : result WireError Z := uint32_count_loop data 0 0.

(** ** What the decoder reads *)

(** The bytes are the varints of [vs], read one after the other to the end. *)
Inductive reads_all : bytes -> list Z -> Prop :=
| reads_nil : reads_all [] []
| reads_cons c v c' vs : read_varint c = Ok (v, c') -> reads_all c' vs -> reads_all c (v :: vs).

End Counters.

(** ** Eight bytes at a time *)

Definition flag (b : Z) : bool := b <? 128.
Definition top (t : bool) : Z := if t then 128 else 0.

Lemma land_bytes a c x y :
  is_byte a -> is_byte c -> Z.land (a + 256 * x) (c + 256 * y) = Z.land a c + 256 * Z.land x y.
Proof.
  intros Ha Hc. unfold is_byte in *.
  assert (forall b z, 0 <= b < 256 -> b + 256 * z = Z.lor b (Z.shiftl z 8)) as E.
  { intros b z Hb. rewrite lor_shiftl_add by (change (2 ^ 8) with 256; lia).
    change (2 ^ 8) with 256. lia. }
  assert (0 <= Z.land a c < 256) as Hl.
  { split; [apply Z.land_nonneg; lia|]. change 256 with (2 ^ 8).
    destruct (Z.eq_dec (Z.land a c) 0) as [->|]; [lia|]. apply Z.log2_lt_pow2.
    { assert (0 <= Z.land a c) by (apply Z.land_nonneg; lia). lia. }
    eapply Z.le_lt_trans; [apply Z.log2_land; lia|]. apply Z.min_lt_iff. left.
    destruct (Z.eq_dec a 0) as [->|]; [done|]. apply Z.log2_lt_pow2; [lia|]. change (2 ^ 8) with 256. lia. }
  rewrite !E by done. apply Z.bits_inj'. intros n Hn.
  rewrite !Z.land_spec, !Z.lor_spec, !Z.shiftl_spec, Z.land_spec by done.
  destruct (Z.ltb_spec n 8).
  - rewrite (Z.testbit_neg_r x), (Z.testbit_neg_r y), (Z.testbit_neg_r (Z.land x y)) by lia.
    by rewrite !orb_false_r.
  - rewrite !(testbit_small _ 8 n) by (change (2 ^ 8) with 256; lia). cbn [andb orb].
    by rewrite Z.land_spec.
Qed.

Lemma from_le_cons b bs : from_le (b :: bs) = b + 256 * from_le bs.
Proof. reflexivity. Qed.

Lemma terminals_of ws :
  Forall is_byte ws ->
  Z.land (from_le (replicate (length ws) 255) - from_le ws) (from_le (replicate (length ws) 128)) =
    from_le (top <$> (flag <$> ws)).
Proof.
  induction 1 as [|b ws Hb _ IH]; [done|]. cbn [length replicate fmap list_fmap]. rewrite !from_le_cons.
  set (F := from_le (replicate (length ws) 255)) in *. unfold is_byte in Hb.
  replace (255 + 256 * F - (b + 256 * from_le ws)) with (255 - b + 256 * (F - from_le ws)) by lia.
  rewrite land_bytes by (unfold is_byte; lia). rewrite IH. f_equal.
  pose proof (all_bytes (fun b => Z.land (255 - b) 128 =? top (flag b)) eq_refl b Hb) as Ht.
  by apply Z.eqb_eq in Ht.
Qed.

Lemma word_terminals word :
  length word = 8%nat -> Forall is_byte word ->
  Z.land (not_u64 (from_le word)) HIGH = from_le (top <$> (flag <$> word)).
Proof. intros Hl Hb. rewrite <- terminals_of by done. by rewrite Hl. Qed.

(** The per-byte scan, on flags. *)
Definition flag_step (st : scan_state) (t : bool) : scan_state :=
  let '(count, run, long_run) := st in
  if t then (count + 1, 0, long_run) else (count, run + 1, long_run || (9 <=? run + 1)).

Lemma tail_step_flag st b : is_byte b -> tail_step st b = flag_step st (flag b).
Proof. intros Hb. destruct st as [[c r] l]. unfold tail_step, flag_step, flag. by rewrite byte_high. Qed.

(** Runs agree exactly below 9, where only the bound matters. *)
Definition scan_sim (s r : scan_state) : Prop :=
  s.1.1 = r.1.1 /\ s.2 = r.2 /\ 0 <= s.1.2 /\ 0 <= r.1.2 /\ (s.1.2 = r.1.2 \/ 9 <= s.1.2 /\ 9 <= r.1.2) /\
  (r.2 = false -> r.1.2 < 9).

Lemma flag_step_sim s r t : scan_sim s r -> scan_sim (flag_step s t) (flag_step r t).
Proof.
  destruct s as [[c n] l], r as [[c' n'] l']. unfold scan_sim, flag_step. cbn [fst snd].
  intros (-> & -> & H0 & H1 & H2 & H3). destruct t; cbn [fst snd]; split_and!; try done; lia.
Qed.

Lemma flags_sim fs s r : scan_sim s r -> scan_sim (fold_left flag_step fs s) (fold_left flag_step fs r).
Proof. revert s r. induction fs as [|t fs IH]; intros s r H; [done|]. apply IH, flag_step_sim, H. Qed.

(** Leading and trailing continuation flags. *)
Fixpoint lead_falses (fs : list bool) : Z :=
  match fs with false :: fs => 1 + lead_falses fs | _ => 0 end.

Definition ones (fs : list bool) : Z := Z.of_nat (count_occ bool_dec fs true).

(** The population and zero counts of a word of terminal bits. *)
Lemma word_bits fs (t := from_le (top <$> fs)) :
  length fs = 8%nat ->
  count_ones t = ones fs /\ trailing_zeros t / 8 = lead_falses fs /\ (t =? 0) = negb (existsb id fs) /\
  (existsb id fs = true -> leading_zeros t / 8 = lead_falses (reverse fs) /\ lead_falses (reverse fs) < 8) /\
  (existsb id fs = false -> lead_falses fs = 8).
Proof.
  intros Hl. do 8 (destruct fs as [|[] fs]; [done| |]).
  all: destruct fs; [|done]; subst t; vm_compute; split_and!; try done; by split.
Qed.

Lemma lead_falses_nonneg fs : 0 <= lead_falses fs.
Proof. induction fs as [|[] fs IH]; simpl; lia. Qed.

(** A run too short to reach nine leaves [long_run] alone. *)
Lemma short_flags fs c n l :
  0 <= n -> n + Z.of_nat (length fs) < 9 ->
  fold_left flag_step fs (c, n, l) =
    (c + ones fs, if existsb id fs then lead_falses (reverse fs) else n + Z.of_nat (length fs), l).
Proof.
  revert c n l. induction fs as [|t fs IH] using rev_ind; intros c n l Hn Hlt.
  { unfold ones. cbn. by rewrite !Z.add_0_r. }
  rewrite length_app in Hlt |- *. cbn [length] in Hlt |- *. rewrite fold_left_app, IH by lia.
  assert (ones (fs ++ [t]) = ones fs + b2z t) as ->.
  { unfold ones. rewrite count_occ_app. destruct t; cbn; lia. }
  rewrite existsb_app, reverse_snoc. cbn [fold_left flag_step existsb id].
  assert (lead_falses (reverse fs) <= Z.of_nat (length fs)).
  { rewrite <- length_reverse. generalize (reverse fs) as k. induction k as [|[] k IHk]; simpl; lia. }
  pose proof (lead_falses_nonneg (reverse fs)).
  destruct t; cbn [lead_falses b2z].
  - rewrite !orb_true_r. by rewrite Z.add_assoc.
  - rewrite !orb_false_r, Z.add_0_r.
    destruct (existsb id fs); rewrite (proj2 (Z.leb_gt 9 _)) by lia; rewrite orb_false_r; do 2 f_equal; lia.
Qed.

Lemma lead_falses_app fs k :
  lead_falses (fs ++ k) = if existsb id fs then lead_falses fs else Z.of_nat (length fs) + lead_falses k.
Proof. induction fs as [|[] fs IH]; simpl; [lia|done|]. rewrite IH. destruct (existsb id fs); lia. Qed.

Lemma existsb_reverse (fs : list bool) : existsb id (reverse fs) = existsb id fs.
Proof.
  induction fs as [|t fs IH]; [done|]. rewrite reverse_cons, existsb_app, IH. cbn. rewrite orb_false_r. apply orb_comm.
Qed.

(** Eight flags at once. *)
Lemma flags_word fs c n l :
  0 <= n -> (l = false -> n < 9) -> (length fs <= 8)%nat ->
  fold_left flag_step fs (c, n, l) =
    (c + ones fs, if existsb id fs then lead_falses (reverse fs) else n + Z.of_nat (length fs),
     l || (9 <=? n + lead_falses fs)).
Proof.
  revert c n l. induction fs as [|t fs IH]; intros c n l Hn Hl Hlen.
  { unfold ones. cbn. rewrite !Z.add_0_r. destruct l; [done|]. by rewrite (proj2 (Z.leb_gt 9 n)) by auto. }
  cbn [length] in Hlen. cbn [fold_left flag_step existsb id length]. rewrite reverse_cons, lead_falses_app,
    existsb_reverse, length_reverse. pose proof (lead_falses_nonneg fs).
  assert (ones (t :: fs) = b2z t + ones fs) as -> by (unfold ones; destruct t; cbn; lia).
  destruct t; cbn [lead_falses b2z orb].
  - rewrite short_flags by lia. rewrite !Z.add_0_r, Z.add_0_l, Z.add_assoc. f_equal.
    destruct l; [done|]. by rewrite (proj2 (Z.leb_gt 9 n)) by auto.
  - rewrite IH by lia. rewrite Z.add_0_l. f_equal.
    + f_equal. destruct (existsb id fs); lia.
    + rewrite <- orb_assoc. f_equal. lia.
Qed.

Lemma word_step_flags word s r :
  length word = 8%nat -> Forall is_byte word -> scan_sim s r ->
  scan_sim (word_step s word) (fold_left flag_step (flag <$> word) r).
Proof.
  intros Hl Hb Hsim. destruct s as [[c n] l], r as [[c' n'] l']. unfold word_step.
  rewrite word_terminals by done. unfold scan_sim in Hsim. cbn [fst snd] in Hsim.
  destruct Hsim as (-> & -> & H0 & H1 & H2 & H3). rewrite flags_word by (rewrite ?length_fmap; lia || auto).
  destruct (word_bits (flag <$> word)) as (-> & -> & -> & Hsome & Hnone); [by rewrite length_fmap|].
  rewrite length_fmap, Hl. set (fs := flag <$> word) in *.
  pose proof (lead_falses_nonneg fs). pose proof (lead_falses_nonneg (reverse fs)).
  unfold scan_sim. cbn [fst snd]. destruct (existsb id fs) eqn:He; cbn [negb].
  - destruct Hsome as [-> Hlt]; [done|]. split_and!; try done; lia.
  - rewrite Hnone by done. split_and!; try done; lia.
Qed.

Lemma as_chunks_spec n data words tail :
  (length data <= n)%nat -> as_chunks data = (words, tail) ->
  data = concat words ++ tail /\ Forall (fun w => length w = 8%nat) words.
Proof.
  revert data words tail. induction n as [|n IH]; intros data words tail Hn.
  { destruct data; [|simpl in Hn; lia]. intros [= <- <-]. by split. }
  do 8 (destruct data as [|? data]; [intros [= <- <-]; by split|]). cbn [as_chunks].
  destruct (as_chunks data) as [ws tl] eqn:Hc. intros [= <- <-].
  apply IH in Hc as [-> HF]; [|simpl in Hn; lia]. split; [done|by constructor].
Qed.

Lemma words_flags words s r :
  Forall (fun w => length w = 8%nat) words -> Forall is_byte (concat words) -> scan_sim s r ->
  scan_sim (fold_left word_step words s) (fold_left flag_step (flag <$> concat words) r).
Proof.
  intros HF. revert s r. induction HF as [|w words Hw _ IH]; intros s r Hb Hs; [done|].
  cbn [concat] in *. apply Forall_app in Hb as [Hbw Hb]. rewrite fmap_app, fold_left_app.
  cbn [fold_left]. apply IH; [done|]. by apply word_step_flags.
Qed.

Lemma tail_flags tail s : Forall is_byte tail -> fold_left tail_step tail s = fold_left flag_step (flag <$> tail) s.
Proof.
  intros HF. revert s. induction HF as [|b tail Hb _ IH]; intros s; [done|].
  cbn [fold_left fmap list_fmap]. rewrite tail_step_flag by done. apply IH.
Qed.

Lemma flags_long fs c n : exists c' n', fold_left flag_step fs (c, n, true) = (c', n', true).
Proof. revert c n. induction fs as [|[] fs IH]; intros c n; cbn; eauto. Qed.

Section Exact.
Context {P : Protohoggr}.

(** Without a run of nine continuation bytes the exact scan never leaves the
    common case. *)
Lemma flags_exact data c n c' n' :
  Forall is_byte data -> 0 <= n < 9 ->
  fold_left flag_step (flag <$> data) (c, n, false) = (c', n', false) ->
  count_exact_loop data c n = if negb (n' =? 0) then Err MID_VARINT else Ok c'.
Proof.
  intros HF. revert c n. induction HF as [|b data Hb _ IH]; intros c n Hn.
  { cbn. by intros [= <- <-]. }
  cbn [fmap list_fmap fold_left flag_step count_exact_loop]. rewrite (proj2 (Z.eqb_neq n 9)) by lia.
  rewrite byte_high by done. fold (flag b). destruct (flag b); [apply IH; lia|]. cbn [orb].
  destruct (Z.leb_spec 9 (n + 1)); [|apply IH; lia].
  destruct (flags_long (flag <$> data) c (n + 1)) as (? & ? & ->). done.
Qed.

(** The word scan and the byte scan give the same answer. *)
Lemma count_is_exact data :
  Forall is_byte data -> packed_varint_count data = packed_varint_count_exact data.
Proof.
  intros Hb. unfold packed_varint_count. destruct (as_chunks data) as [words tail] eqn:Hc.
  destruct (as_chunks_spec (length data) data words tail) as [Hd HF]; [done|done|].
  pose proof Hb as Hb'. rewrite Hd in Hb'. apply Forall_app in Hb' as [Hw Ht].
  assert (scan_sim (0, 0, false) (0, 0, false)) as Hs by (unfold scan_sim; cbn; split_and!; auto; lia).
  apply (words_flags words _ _ HF Hw) in Hs. rewrite tail_flags by done.
  apply (flags_sim (flag <$> tail)) in Hs. rewrite <- fold_left_app, <- fmap_app, <- Hd in Hs.
  destruct (fold_left flag_step (flag <$> data) _) as [[c' n'] l'] eqn:Hfl.
  destruct (fold_left flag_step (flag <$> tail) _) as [[c n] l].
  unfold scan_sim in Hs. cbn [fst snd] in Hs. destruct Hs as (-> & -> & H0 & H1 & H2 & H3).
  destruct l'; [done|]. specialize (H3 eq_refl). assert (n = n') as -> by lia.
  unfold packed_varint_count_exact. symmetry. by apply flags_exact.
Qed.

End Exact.

(** ** Against the decoder *)

Section Decoder.
Context `{L : ProtohoggrLaws}.

(** The exact scan over one varint of which [9 - more] bytes are behind it. *)
Lemma exact_varint (more : nat) c count v c' :
  Forall is_byte c -> (more <= 9)%nat -> varint_of more c = Some (v, c') ->
  count_exact_loop c count (9 - Z.of_nat more) = count_exact_loop c' (count + 1) 0.
Proof.
  intros HF. revert c HF v. induction more as [|more IH]; intros c HF v Hm; destruct HF as [|b c Hb HF]; cbn [varint_of count_exact_loop]; try done.
  - destruct (Z.leb_spec b 1); [|done]. intros [= <- <-]. rewrite (proj2 (Z.ltb_ge 1 b)) by lia. done.
  - rewrite (proj2 (Z.eqb_neq _ 9)) by lia. rewrite byte_high by done.
    destruct (b <? 128); [by intros [= <- <-]|].
    destruct (varint_of more c) as [[w c1]|] eqn:Hv; obind; [|done]. intros [= <- <-].
    replace (9 - Z.of_nat (S more) + 1) with (9 - Z.of_nat more) by lia. eapply IH; [done|lia|done].
Qed.

Lemma exact_refused (more : nat) c count :
  Forall is_byte c -> (more <= 9)%nat -> (c = [] -> (more < 9)%nat) -> varint_of more c = None ->
  exists e, count_exact_loop c count (9 - Z.of_nat more) = Err e.
Proof.
  intros HF. revert c HF. induction more as [|more IH]; intros c HF Hm Hne; destruct HF as [|b c Hb HF]; cbn [varint_of count_exact_loop].
  - eauto.
  - destruct (Z.leb_spec b 1); [done|]. intros _. rewrite (proj2 (Z.ltb_lt 1 b)) by lia. eauto.
  - intros _. specialize (Hne eq_refl). rewrite (proj2 (Z.eqb_neq _ 0)) by lia. eauto.
  - rewrite (proj2 (Z.eqb_neq _ 9)) by lia. rewrite byte_high by done.
    destruct (b <? 128); [done|]. destruct (varint_of more c) as [[w c1]|] eqn:Hv; obind; [done|]. intros _.
    replace (9 - Z.of_nat (S more) + 1) with (9 - Z.of_nat more) by lia. apply IH; [done|lia|lia|done].
Qed.

Lemma bytes_suffix (c c' : bytes) : c' `suffix_of` c -> Forall is_byte c -> Forall is_byte c'.
Proof. intros [h ->] HF. by apply Forall_app in HF as [_ ?]. Qed.

Lemma reads_all_count c vs count :
  Forall is_byte c -> reads_all c vs -> count_exact_loop c count 0 = Ok (count + Z.of_nat (length vs)).
Proof.
  intros HF Hr. revert count HF. induction Hr as [|c v c' vs Hr _ IH]; intros count HF.
  { cbn. by rewrite Z.add_0_r. }
  pose proof (read_varint_moves _ _ _ Hr) as Hsuf. apply read_varint_ok in Hr.
  change 0 with (9 - Z.of_nat 9) at 1. erewrite exact_varint; [|done|lia|done].
  rewrite IH by (by eapply bytes_suffix). f_equal. cbn [length]. lia.
Qed.

Lemma count_reads_all c count n :
  Forall is_byte c -> count_exact_loop c count 0 = Ok n ->
  exists vs, reads_all c vs /\ n = count + Z.of_nat (length vs).
Proof.
  assert (length c <= length c)%nat as Hle by lia. revert Hle. generalize (length c) at 2 as k.
  intros k. revert c count. induction k as [|k IH]; intros c count Hk HF.
  all: destruct c as [|b c]; [intros [= <-]; exists []; split; [apply reads_nil|cbn; lia]|].
  { simpl in Hk. lia. }
  destruct (varint_of 9 (b :: c)) as [[v c']|] eqn:Hv.
  - pose proof (exact_varint 9 (b :: c) count v c' HF ltac:(lia) Hv) as E. change (9 - Z.of_nat 9) with 0 in E.
    rewrite E. apply read_varint_ok in Hv. intros H. apply IH in H as (vs & Hr & ->).
    + exists (v :: vs). split; [by econstructor|cbn [length]; lia].
    + apply read_varint_consumes in Hv. simpl in *. lia.
    + apply read_varint_moves in Hv. by eapply bytes_suffix.
  - destruct (exact_refused 9 (b :: c) count HF ltac:(lia) ltac:(done) Hv) as [e E].
    change (9 - Z.of_nat 9) with 0 in E. rewrite E. done.
Qed.

Lemma packed_varint_count_ok c n :
  Forall is_byte c -> packed_varint_count c = Ok n <-> exists vs, reads_all c vs /\ n = Z.of_nat (length vs).
Proof.
  intros HF. rewrite count_is_exact by done. split.
  - by apply count_reads_all.
  - intros (vs & Hr & ->). by apply (reads_all_count c vs 0).
Qed.

(** A packed iterator over counted bytes yields every value. *)
Lemma reads_all_drains {A} (it : bytes -> list A) narrow c vs :
  drains it narrow -> reads_all c vs -> it c = narrow <$> vs.
Proof.
  intros Hit Hr. induction Hr as [|c v c' vs Hr _ IH].
  - rewrite Hit. by destruct (read_varint_refused [] eq_refl) as [e ->].
  - rewrite Hit, Hr, IH. done.
Qed.

Lemma reads_all_fun c vs vs' : reads_all c vs -> reads_all c vs' -> vs = vs'.
Proof.
  intros H. revert vs'. induction H as [|c v c' vs Hr _ IH]; intros vs' H'.
  - inversion H' as [|? ? ? ? Hr]; [done|]. by apply read_varint_consumes in Hr; simpl in Hr; lia.
  - inversion H'; subst.
    + by apply read_varint_consumes in Hr; simpl in Hr; lia.
    + rewrite Hr in *. simplify_eq. f_equal. by apply IH.
Qed.

(** ** Indices that fit [u32] *)

(** What is left of [2^32] for the bytes from position [pos] on. *)
Definition room (pos : Z) : Z := if pos <=? 4 then 2 ^ (32 - 7 * pos) else 1.

Lemma room_step pos b v :
  128 <= b < 256 -> 0 <= pos < 9 -> 0 <= v ->
  b - 128 + 128 * v < room pos <-> too_wide pos (Z.land b 127) = false /\ v < room (pos + 1).
Proof.
  intros Hb Hp Hv. assert (Z.land b 127 = b - 128) as ->.
  { pose proof (all_bytes (fun b => (b <? 128) || (Z.land b 127 =? b - 128)) eq_refl b ltac:(unfold is_byte; lia)) as H.
    cbv beta in H. rewrite (proj2 (Z.ltb_ge b 128)) in H by lia. by apply Z.eqb_eq in H. }
  unfold room, too_wide.
  assert (pos = 0 \/ pos = 1 \/ pos = 2 \/ pos = 3 \/ pos = 4 \/ 5 <= pos) as [->|[->|[->|[->|[->|H5]]]]] by lia.
  1-5: cbn -[Z.mul Z.add Z.sub Z.lt]; zcases; cbn; split; intros; try (destruct_and?; split); try done; try lia.
  rewrite (proj2 (Z.leb_gt pos 4)), (proj2 (Z.leb_gt pos 3)), (proj2 (Z.eqb_neq pos 4)), (proj2 (Z.leb_gt (pos + 1) 4)) by lia.
  zcases; cbn; split; intros; destruct_and?; try split; try done; try lia.
Qed.

Lemma room_last pos b :
  0 <= b < 128 -> 0 <= pos <= 9 -> b < room pos <-> too_wide pos (Z.land b 127) = false.
Proof.
  intros Hb Hp. assert (Z.land b 127 = b) as ->.
  { pose proof (all_bytes (fun b => (128 <=? b) || (Z.land b 127 =? b)) eq_refl b ltac:(unfold is_byte; lia)) as H.
    cbv beta in H. rewrite (proj2 (Z.leb_gt 128 b)) in H by lia. by apply Z.eqb_eq in H. }
  unfold room, too_wide.
  assert (pos = 0 \/ pos = 1 \/ pos = 2 \/ pos = 3 \/ pos = 4 \/ 5 <= pos) as [->|[->|[->|[->|[->|H5]]]]] by lia.
  1-5: cbn -[Z.mul Z.add Z.sub Z.lt]; zcases; cbn; split; intros; try done; try lia.
  rewrite (proj2 (Z.leb_gt pos 4)), (proj2 (Z.leb_gt pos 3)), (proj2 (Z.eqb_neq pos 4)) by lia.
  zcases; cbn; split; intros; try done; try lia.
Qed.

Lemma varint_of_nonneg more c v c' : Forall is_byte c -> varint_of more c = Some (v, c') -> 0 <= v.
Proof.
  intros HF. revert c HF v. induction more as [|more IH]; intros c HF v; destruct HF as [|b c Hb HF]; cbn [varint_of]; try done.
  all: unfold is_byte in Hb.
  - destruct (b <=? 1); [|done]. intros [= <- _]. lia.
  - destruct (Z.ltb_spec b 128); [intros [= <- _]; lia|].
    destruct (varint_of more c) as [[w c1]|] eqn:Hv; obind; [|done]. intros [= <- <-]. apply IH in Hv; [lia|done].
Qed.

Definition fails {A} (r : result WireError A) : Prop := exists e, r = Err e.

(** One varint under the bound, over it, or refused. *)
Lemma uint32_varint (more : nat) c count :
  Forall is_byte c -> (more <= 9)%nat ->
  match varint_of more c with
  | Some (v, c') =>
      if v <? room (9 - Z.of_nat more)
      then uint32_count_loop c count (9 - Z.of_nat more) = uint32_count_loop c' (count + 1) 0
      else fails (uint32_count_loop c count (9 - Z.of_nat more))
  | None => (c = [] -> (more < 9)%nat) -> fails (uint32_count_loop c count (9 - Z.of_nat more))
  end.
Proof.
  intros HF. revert c HF. induction more as [|more IH]; intros c HF Hm.
  all: destruct HF as [|b c Hb HF]; cbn [varint_of uint32_count_loop].
  - intros _. by eexists.
  - rewrite byte_high by done. change (9 - Z.of_nat 0 =? 9) with true. unfold is_byte in Hb.
    destruct (Z.leb_spec b 1) as [Hle|Hgt].
    + pose proof (room_last 9 b ltac:(lia) ltac:(lia)) as Hr. change (9 - Z.of_nat 0) with 9 in *.
      rewrite (proj2 (Z.ltb_lt b 128)) by lia.
      destruct (Z.ltb_spec b (room 9)); [by rewrite (proj1 Hr)|]. destruct (too_wide 9 (Z.land b 127)); [by eexists|].
      exfalso. assert (b < room 9) by by apply Hr. lia.
    + intros _. destruct (Z.ltb_spec b 128).
      * pose proof (room_last 9 b ltac:(lia) ltac:(lia)) as Hr. change (9 - Z.of_nat 0) with 9 in *.
        destruct (too_wide 9 (Z.land b 127)); [by eexists|]. assert (b < room 9) by by apply Hr.
        change (room 9) with 1 in *. lia.
      * destruct (too_wide _ _); by eexists.
  - intros Hne. specialize (Hne eq_refl). rewrite (proj2 (Z.eqb_neq _ 0)) by lia. by eexists.
  - rewrite byte_high by done. set (pos := 9 - Z.of_nat (S more)). unfold is_byte in Hb.
    rewrite (proj2 (Z.eqb_neq pos 9)) by lia. destruct (Z.ltb_spec b 128) as [Hlt|Hge].
    + pose proof (room_last pos b ltac:(lia) ltac:(lia)) as Hr. destruct (Z.ltb_spec b (room pos)); [by rewrite (proj1 Hr)|].
      destruct (too_wide pos (Z.land b 127)); [by eexists|]. assert (b < room pos) by by apply Hr. lia.
    + specialize (IH c HF ltac:(lia)). replace (9 - Z.of_nat more) with (pos + 1) in IH by lia.
      destruct (varint_of more c) as [[v c']|] eqn:Hv; obind.
      * pose proof (varint_of_nonneg _ _ _ _ HF Hv). pose proof (room_step pos b v ltac:(lia) ltac:(lia) ltac:(lia)) as Hr.
        destruct (too_wide pos (Z.land b 127)).
        { rewrite (proj2 (Z.ltb_ge _ _)); [by eexists|]. destruct (Z.ltb_spec (b - 128 + 128 * v) (room pos)) as [Hl|]; [|lia].
          by apply Hr in Hl as [? _]. }
        destruct (Z.ltb_spec v (room (pos + 1))) as [Hl|Hl].
        -- rewrite (proj2 (Z.ltb_lt _ _)); [done|]. by apply Hr.
        -- rewrite (proj2 (Z.ltb_ge _ _)); [done|]. destruct (Z.ltb_spec (b - 128 + 128 * v) (room pos)) as [Hl'|]; [|lia].
           apply Hr in Hl' as [_ ?]. lia.
      * intros _. destruct (too_wide pos (Z.land b 127)); [by eexists|]. apply IH. lia.
Qed.

Lemma uint32_reads c vs count :
  Forall is_byte c -> Forall is_u32 vs -> reads_all c vs ->
  uint32_count_loop c count 0 = Ok (count + Z.of_nat (length vs)).
Proof.
  intros HF Hv Hr. revert count HF Hv. induction Hr as [|c v c' vs Hr _ IH]; intros count HF Hv.
  { cbn. by rewrite Z.add_0_r. }
  pose proof (read_varint_moves _ _ _ Hr) as Hsuf. apply read_varint_ok in Hr.
  apply Forall_cons in Hv as [Hv Hvs].
  pose proof (uint32_varint 9 c count HF ltac:(lia)) as Hu. rewrite Hr in Hu.
  change (9 - Z.of_nat 9) with 0 in Hu. change (room 0) with (2 ^ 32) in Hu.
  rewrite (proj2 (Z.ltb_lt _ _)) in Hu by apply Hv. rewrite Hu.
  rewrite IH by (done || by eapply bytes_suffix). f_equal. cbn [length]. lia.
Qed.

Lemma uint32_count_reads c count n :
  Forall is_byte c -> uint32_count_loop c count 0 = Ok n ->
  exists vs, reads_all c vs /\ Forall is_u32 vs /\ n = count + Z.of_nat (length vs).
Proof.
  assert (length c <= length c)%nat as Hle by lia. revert Hle. generalize (length c) at 2 as k.
  intros k. revert c count. induction k as [|k IH]; intros c count Hk HF.
  all: destruct c as [|b c]; [intros [= <-]; exists []; split_and!; [apply reads_nil|done|cbn; lia]|].
  { simpl in Hk. lia. }
  pose proof (uint32_varint 9 (b :: c) count HF ltac:(lia)) as Hu. change (9 - Z.of_nat 9) with 0 in Hu.
  destruct (varint_of 9 (b :: c)) as [[v c']|] eqn:Hv.
  - change (room 0) with (2 ^ 32) in Hu. pose proof (varint_of_nonneg _ _ _ _ HF Hv). destruct (Z.ltb_spec v (2 ^ 32)).
    + rewrite Hu. apply read_varint_ok in Hv. intros H1. apply IH in H1 as (vs & Hr & Hvs & ->).
      * exists (v :: vs). split_and!; [by econstructor|by constructor|cbn [length]; lia].
      * apply read_varint_consumes in Hv. simpl in *. lia.
      * apply read_varint_moves in Hv. by eapply bytes_suffix.
    + destruct Hu as [e ->]. done.
  - destruct (Hu ltac:(done)) as [e ->]. done.
Qed.

Lemma packed_uint32_count_ok c n :
  Forall is_byte c -> packed_uint32_count c = Ok n <->
  exists vs, reads_all c vs /\ Forall is_u32 vs /\ n = Z.of_nat (length vs).
Proof.
  intros HF. split; [by apply uint32_count_reads|].
  intros (vs & Hr & Hv & ->). by apply (uint32_reads c vs 0).
Qed.

(** Counting a packed array eight bytes at a time gives, on every byte
    string, what the per-byte scan gives, and the scan accepts exactly the
    arrays repeated [read_varint] consumes in full, with the number of values
    read: on an accepted array every packed iterator yields that many values
    and none is lost to an error the iterator cannot report. *)
Theorem packed_count_matches_decoder (data : bytes) (n : Z) :
  Forall is_byte data ->
  packed_varint_count data = packed_varint_count_exact data /\
  (packed_varint_count data = Ok n <-> exists vs, reads_all data vs /\ n = Z.of_nat (length vs)) /\
  (packed_varint_count data = Ok n ->
   Z.of_nat (length (packed_sint64 data)) = n /\ Z.of_nat (length (packed_int32 data)) = n /\
   Z.of_nat (length (packed_sint32 data)) = n /\ Z.of_nat (length (packed_uint32 data)) = n /\
   Z.of_nat (length (packed_bool data)) = n).
Proof.
  intros HF. split_and!; [by apply count_is_exact|by apply packed_varint_count_ok|].
  intros (vs & Hr & ->)%packed_varint_count_ok; [|done].
  rewrite (reads_all_drains _ _ _ _ packed_sint64_drains Hr), (reads_all_drains _ _ _ _ packed_int32_drains Hr),
    (reads_all_drains _ _ _ _ packed_sint32_drains Hr), (reads_all_drains _ _ _ _ packed_uint32_drains Hr),
    (reads_all_drains _ _ _ _ packed_bool_drains Hr), !length_fmap. done.
Qed.

(** [packed_uint32_count] accepts exactly the arrays of complete varints
    whose values fit [u32], and on those the narrowing iterator yields the
    values themselves: no index aliases another. *)
Theorem packed_uint32_count_exact (data : bytes) (n : Z) :
  Forall is_byte data ->
  packed_uint32_count data = Ok n <->
  exists vs, reads_all data vs /\ Forall is_u32 vs /\ packed_uint32 data = vs /\ n = Z.of_nat (length vs).
Proof.
  intros HF. rewrite packed_uint32_count_ok by done. split.
  - intros (vs & Hr & Hv & ->). exists vs. split_and!; [done|done| |done].
    rewrite (reads_all_drains _ _ _ _ packed_uint32_drains Hr). clear Hr.
    induction Hv as [|v vs Hv _ IH]; [done|]. cbn [fmap list_fmap]. rewrite IH. f_equal. by apply as_u_id.
  - intros (vs & Hr & Hv & _ & ->). eauto.
Qed.

End Decoder.

(** Nine continuation bytes: the word scan falls back and the tenth byte decides. *)
Definition long_varint : bytes := replicate 9 128 ++ [1].

Lemma packed_count_matches_decoder_witness :
  packed_varint_count (P := RefProto.ref_proto) (5 :: long_varint ++ [200; 3]) = Ok 3 /\
  packed_varint_count (P := RefProto.ref_proto) (replicate 9 128 ++ [2]) = Err overlong_varint_err /\
  packed_varint_count (P := RefProto.ref_proto) [1; 2; 3; 4; 5; 6; 7; 8; 129] = Err MID_VARINT.
Proof.
  assert (forall l, forallb (fun b => (0 <=? b) && (b <? 256)) l = true -> Forall is_byte l) as Hb.
  { intros l H. apply Forall_forall. intros b Hin. rewrite forallb_forall in H.
    apply list_elem_of_In, H in Hin. unbool. by split. }
  destruct (packed_count_matches_decoder (L := RefProto.ref_laws) (5 :: long_varint ++ [200; 3]) 3
    ltac:(by apply Hb)) as (E & _ & _).
  split_and!; [rewrite E; reflexivity|reflexivity|reflexivity].
Defined.

Lemma packed_uint32_count_exact_witness :
  packed_uint32_count (P := RefProto.ref_proto) [255; 255; 255; 255; 15; 1] = Ok 2 /\
  packed_uint32_count (P := RefProto.ref_proto) [255; 255; 255; 255; 31] = Err (Message "tag string index exceeds uint32").
Proof.
  split; [|reflexivity]. apply (packed_uint32_count_exact (L := RefProto.ref_laws)).
  - unfold is_byte. repeat (apply Forall_cons_2; [lia|]). apply Forall_nil_2.
  - exists [4294967295; 1]. split_and!; try reflexivity.
    + eapply reads_cons; [reflexivity|]. eapply reads_cons; [reflexivity|]. apply reads_nil.
    + unfold is_u. repeat (apply Forall_cons_2; [lia|]). apply Forall_nil_2.
Defined.
