(* ===== verification/Utf8.v ===== *)
(** * UTF-8 validation ([std::str::from_utf8])

    The string table's entries are checked with the standard library's
    validator before the reader treats them as [str]; [utf8_loop] is its
    acceptance table, with the position and length of the first error.
    [encode_utf8] is the encoding of one scalar value; the validator accepts
    exactly the concatenations of encoded scalar values. *)

From S2P Require Import Prelude.

(** [Utf8Error]: [valid_up_to] and [error_len]. *)
Record Utf8Error := mkUtf8Error { valid_up_to : Z; error_len : option Z }.

(** A continuation byte: [(b as i8) < -64]. *)
Definition cont (b : Z) : bool := (128 <=? b) && (b <? 192).

Definition within (lo hi b : Z) : bool := (lo <=? b) && (b <=? hi).

(** The second byte of a three-byte and of a four-byte sequence. *)
Definition second3 (first b : Z) : bool :=
  (first =? 224) && within 160 191 b || within 225 236 first && within 128 191 b ||
  (first =? 237) && within 128 159 b || within 238 239 first && within 128 191 b.

Definition second4 (first b : Z) : bool :=
  (first =? 240) && within 144 191 b || within 241 243 first && within 128 191 b ||
  (first =? 244) && within 128 143 b.

Fixpoint utf8_loop (c : bytes) (pos : Z) : result Utf8Error unit :=
  let err len := Err (mkUtf8Error pos len) in
  match c with
  | [] => Ok tt
  | b0 :: c =>
      if b0 <? 128 then utf8_loop c (pos + 1)
      else if within 194 223 b0 then
        match c with
        | [] => err None
        | b1 :: c => if cont b1 then utf8_loop c (pos + 2) else err (Some 1)
        end
      else if within 224 239 b0 then
        match c with
        | [] => err None
        | b1 :: c =>
            if negb (second3 b0 b1) then err (Some 1)
            else match c with
                 | [] => err None
                 | b2 :: c => if cont b2 then utf8_loop c (pos + 3) else err (Some 2)
                 end
        end
      else if within 240 244 b0 then
        match c with
        | [] => err None
        | b1 :: c =>
            if negb (second4 b0 b1) then err (Some 1)
            else match c with
                 | [] => err None
                 | b2 :: c =>
                     if negb (cont b2) then err (Some 2)
                     else match c with
                          | [] => err None
                          | b3 :: c => if cont b3 then utf8_loop c (pos + 4) else err (Some 3)
                          end
                 end
        end
      else err (Some 1)
  end.

Definition from_utf8 (c : bytes) : result Utf8Error unit := utf8_loop c 0.

(** ** What is accepted *)

Definition scalar (c : Z) : Prop := 0 <= c < 55296 \/ 57344 <= c <= 1114111.

Definition encode_utf8 (c : Z) : bytes :=
  if c <? 128 then [c]
  else if c <? 2048 then [192 + c / 64; 128 + c mod 64]
  else if c <? 65536 then [224 + c / 4096; 128 + c / 64 mod 64; 128 + c mod 64]
  else [240 + c / 262144; 128 + c / 4096 mod 64; 128 + c / 64 mod 64; 128 + c mod 64].

(** Decides a byte-class test on the parts of [c]. *)
Ltac byte_class := unfold second3, second4, within, cont; dlia.

Lemma utf8_loop_encode c r pos :
  scalar c -> exists n, 0 < n /\ utf8_loop (encode_utf8 c ++ r) pos = utf8_loop r (pos + n).
Proof.
  intros Hc. unfold encode_utf8, scalar in *.
  destruct (Z.ltb_spec c 128); [|destruct (Z.ltb_spec c 2048); [|destruct (Z.ltb_spec c 65536)]]; cbn [app utf8_loop].
  - exists 1. split; [done|]. by rewrite (proj2 (Z.ltb_lt c 128)) by lia.
  - exists 2. split; [done|].
    replace (192 + c / 64 <? 128) with false by byte_class.
    replace (within 194 223 (192 + c / 64)) with true by byte_class.
    by replace (cont (128 + c mod 64)) with true by byte_class.
  - exists 3. split; [done|]. set (b0 := 224 + c / 4096).
    replace (b0 <? 128) with false by byte_class. replace (within 194 223 b0) with false by byte_class.
    replace (within 224 239 b0) with true by byte_class.
    replace (second3 b0 (128 + c / 64 mod 64)) with true by byte_class.
    by replace (cont (128 + c mod 64)) with true by byte_class.
  - exists 4. split; [done|]. set (b0 := 240 + c / 262144).
    replace (b0 <? 128) with false by byte_class. replace (within 194 223 b0) with false by byte_class.
    replace (within 224 239 b0) with false by byte_class. replace (within 240 244 b0) with true by byte_class.
    replace (second4 b0 (128 + c / 4096 mod 64)) with true by byte_class.
    replace (cont (128 + c / 64 mod 64)) with true by byte_class.
    by replace (cont (128 + c mod 64)) with true by byte_class.
Qed.

(** The scalar value each accepted sequence encodes. *)
Lemma encode2 b0 b1 :
  within 194 223 b0 = true -> cont b1 = true ->
  let c := (b0 - 192) * 64 + (b1 - 128) in scalar c /\ encode_utf8 c = [b0; b1].
Proof.
  intros H0 H1 c. unfold within, cont in *. unbool. assert (128 <= c < 2048) by lia. split; [unfold scalar; lia|].
  unfold encode_utf8. rewrite (proj2 (Z.ltb_ge c 128)), (proj2 (Z.ltb_lt c 2048)) by lia.
  repeat f_equal; subst c; dlia.
Qed.

Lemma encode3 b0 b1 b2 :
  within 224 239 b0 = true -> second3 b0 b1 = true -> cont b2 = true ->
  let c := (b0 - 224) * 4096 + (b1 - 128) * 64 + (b2 - 128) in scalar c /\ encode_utf8 c = [b0; b1; b2].
Proof.
  intros H0 H1 H2 c. assert (2048 <= c < 65536 /\ scalar c /\ 128 <= b1 < 192 /\ 128 <= b2 < 192) as (? & ? & ? & ?).
  { unfold second3, within, cont, scalar in *. lia. }
  split; [done|]. unfold encode_utf8.
  rewrite (proj2 (Z.ltb_ge c 128)), (proj2 (Z.ltb_ge c 2048)), (proj2 (Z.ltb_lt c 65536)) by lia.
  repeat f_equal; subst c; dlia.
Qed.

Lemma encode4 b0 b1 b2 b3 :
  within 240 244 b0 = true -> second4 b0 b1 = true -> cont b2 = true -> cont b3 = true ->
  let c := (b0 - 240) * 262144 + (b1 - 128) * 4096 + (b2 - 128) * 64 + (b3 - 128) in
  scalar c /\ encode_utf8 c = [b0; b1; b2; b3].
Proof.
  intros H0 H1 H2 H3 c.
  assert (65536 <= c /\ scalar c /\ 128 <= b1 < 192 /\ 128 <= b2 < 192 /\ 128 <= b3 < 192) as (? & ? & ? & ? & ?).
  { unfold second4, within, cont, scalar in *. lia. }
  split; [done|]. unfold encode_utf8.
  rewrite (proj2 (Z.ltb_ge c 128)), (proj2 (Z.ltb_ge c 2048)), (proj2 (Z.ltb_ge c 65536)) by lia.
  repeat f_equal; subst c; dlia.
Qed.

Lemma utf8_loop_decode n c pos :
  (length c <= n)%nat -> Forall is_byte c -> utf8_loop c pos = Ok tt ->
  exists cs, Forall scalar cs /\ c = concat (encode_utf8 <$> cs).
Proof.
  assert (forall x l c, scalar x -> encode_utf8 x = l ->
    (exists cs, Forall scalar cs /\ c = concat (encode_utf8 <$> cs)) ->
    exists cs, Forall scalar cs /\ l ++ c = concat (encode_utf8 <$> cs)) as Hcons.
  { intros x l c' Hx <- (cs & Hcs & ->). exists (x :: cs). split; [by constructor|done]. }
  revert c pos. induction n as [|n IH]; intros c pos Hn HF.
  { destruct c; [|simpl in Hn; lia]. intros _. by exists []. }
  destruct HF as [|b0 c H0 HF]; [intros _; by exists []|]. cbn [utf8_loop]. cbn [length] in Hn.
  destruct (Z.ltb_spec b0 128) as [Hlt|_].
  { intros H. apply (Hcons b0 [b0]); [unfold scalar, is_byte in *; lia|unfold encode_utf8; by rewrite (proj2 (Z.ltb_lt b0 128))|].
    eapply IH; [lia|done|done]. }
  destruct (within 194 223 b0) eqn:E2.
  { destruct HF as [|b1 c H1 HF]; [done|]. destruct (cont b1) eqn:C1; [|done]. intros H.
    destruct (encode2 b0 b1 E2 C1). apply (Hcons _ [b0; b1] c ltac:(done) ltac:(done)).
    eapply IH; [cbn [length] in Hn; lia|done|done]. }
  destruct (within 224 239 b0) eqn:E3.
  { destruct HF as [|b1 c H1 HF]; [done|]. destruct (second3 b0 b1) eqn:S3; [|done]. cbn [negb].
    destruct HF as [|b2 c H2 HF]; [done|]. destruct (cont b2) eqn:C2; [|done]. intros H.
    destruct (encode3 b0 b1 b2 E3 S3 C2). apply (Hcons _ [b0; b1; b2] c ltac:(done) ltac:(done)).
    eapply IH; [cbn [length] in Hn; lia|done|done]. }
  destruct (within 240 244 b0) eqn:E4; [|done].
  destruct HF as [|b1 c H1 HF]; [done|]. destruct (second4 b0 b1) eqn:S4; [|done]. cbn [negb].
  destruct HF as [|b2 c H2 HF]; [done|]. destruct (cont b2) eqn:C2; [|done]. cbn [negb].
  destruct HF as [|b3 c H3 HF]; [done|]. destruct (cont b3) eqn:C3; [|done]. intros H.
  destruct (encode4 b0 b1 b2 b3 E4 S4 C2 C3). apply (Hcons _ [b0; b1; b2; b3] c ltac:(done) ltac:(done)).
  eapply IH; [cbn [length] in Hn; lia|done|done].
Qed.

(** The validator accepts exactly the encodings of scalar values. *)
Lemma from_utf8_ok c :
  Forall is_byte c -> from_utf8 c = Ok tt <-> exists cs, Forall scalar cs /\ c = concat (encode_utf8 <$> cs).
Proof.
  intros HF. split; [by apply (utf8_loop_decode (length c))|].
  intros (cs & Hcs & ->). clear HF. unfold from_utf8. generalize 0 as pos.
  induction Hcs as [|x cs Hx _ IH]; intros pos; [done|]. cbn [fmap list_fmap concat].
  destruct (utf8_loop_encode x (concat (encode_utf8 <$> cs)) pos Hx) as (k & _ & ->). apply IH.
Qed.
