(* ===== verification/Float64.v ===== *)
(** * Degrees and nanodegrees as f64

    The f64 operations of the header code, on the Standard Library's executable
    specification of IEEE 754 ([SpecFloat], binary64): casts from and to i64,
    products, quotients, comparison and [round].  Every operation on normal
    numbers is within half a unit of the last of 53 places ([round_near]), so an
    i64 of up to 48 bits survives the way to degrees and back. *)

From S2P Require Import Prelude.
From Stdlib Require Import SpecFloat.

Abbreviation f64 := spec_float.

Definition fmul : f64 -> f64 -> f64 := SFmul 53 1024.
Definition fdiv : f64 -> f64 -> f64 := SFdiv 53 1024.
Definition fneg : f64 -> f64 := SFopp.
Definition f64_nan : f64 := S754_nan.
Definition fle : f64 -> f64 -> bool := SFleb.
Definition flt : f64 -> f64 -> bool := SFltb.

(** [n as f64] *)
Definition of_i64 (n : Z) : f64 := binary_normalize 53 1024 n 0 false.

Definition is_finite (x : f64) : bool := match x with S754_zero _ | S754_finite _ _ _ => true | _ => false end.

(** [f64::min] and [f64::max]: a NaN operand is ignored. *)
Definition fmin (x y : f64) : f64 :=
  match SFcompare x y with
  | Some Gt => y
  | Some _ => x
  | None => match x with S754_nan => y | _ => x end
  end.
Definition fmax (x y : f64) : f64 :=
  match SFcompare x y with
  | Some Lt => y
  | Some _ => x
  | None => match x with S754_nan => y | _ => x end
  end.

(** [x.round() as i64]: half away from zero, saturating, NaN to 0. *)
Definition sat_i64 (z : Z) : Z := Z.max (- 2 ^ 63) (Z.min (2 ^ 63 - 1) z).
Definition round_i64 (x : f64) : Z :=
  match x with
  | S754_zero _ | S754_nan => 0
  | S754_infinity s => sat_i64 (if s then - 2 ^ 64 else 2 ^ 64)
  | S754_finite s m e =>
      let r := if 0 <=? e then Zpos m * 2 ^ e else (Zpos m + 2 ^ (- e - 1)) / 2 ^ (- e) in
      sat_i64 (if s then - r else r)
  end.

(** The literals [1.0e-9] and [1e9], and the bounds of a box. *)
Definition F1EM9 : f64 := S754_finite false 4835703278458517 (-82).
Definition F1E9 : f64 := S754_finite false 8388608000000000 (-23).
Definition F180 : f64 := S754_finite false 6333186975989760 (-45).
Definition F90 : f64 := S754_finite false 6333186975989760 (-46).

(** ** Rounding *)

Lemma digits2_log2 p : Zpos (digits2_pos p) = Z.log2 (Zpos p) + 1.
Proof.
  induction p as [p IH|p IH|]; cbn [digits2_pos]; [| |done]; rewrite Pos2Z.inj_succ, IH.
  - by rewrite (Pos2Z.inj_xI p), Z.log2_succ_double by lia.
  - by rewrite (Pos2Z.inj_xO p), Z.log2_double by lia.
Qed.

(** A shift record stands for a quotient: its floor, its next bit, and whether
    anything is left. *)
Definition stands (X D : Z) (r : shr_record) : Prop :=
  shr_m r = X / D /\ shr_r r = (D <=? 2 * (X mod D)) /\ shr_s r = negb ((2 * (X mod D)) mod D =? 0).

Lemma sticky_bit D k : 0 <= k < D -> negb ((2 * k) mod D =? 0) = negb ((2 * k =? 0) || (2 * k =? D)).
Proof.
  intros Hk. f_equal. destruct (Z.lt_ge_cases (2 * k) D).
  - rewrite Z.mod_small by lia. lia.
  - replace (2 * k) with (2 * k - D + 1 * D) at 1 by lia. rewrite Z_mod_plus_full, Z.mod_small by lia. lia.
Qed.

Lemma shr_1_stands X D r : 0 <= X -> 0 < D -> stands X D r -> stands X (2 * D) (shr_1 r).
Proof.
  intros HX HD (Hm & Hr & Hs). destruct r as [m r s]. cbn in Hm, Hr, Hs.
  assert (0 <= m) by (subst m; apply Z.div_pos; lia).
  assert (X = D * m + X mod D) as HX' by (subst m; apply Z.div_mod; lia).
  pose proof (Z.mod_pos_bound X D HD) as Hk. set (k := X mod D) in *. clearbody k.
  rewrite (sticky_bit D k Hk) in Hs.
  assert (forall q b, m = 2 * q + Z.b2z b -> stands X (2 * D) (Build_shr_record q b (r || s))) as Hgo.
  { intros q b Hq. assert (X = (2 * D) * q + (Z.b2z b * D + k)) as HX2 by (rewrite HX', Hq; lia).
    assert (0 <= Z.b2z b * D + k < 2 * D) by (destruct b; cbn [Z.b2z]; lia).
    assert (X mod (2 * D) = Z.b2z b * D + k) as Hmod by (symmetry; by apply (Z.mod_unique_pos _ _ q)).
    split_and!; cbn.
    - by apply (Z.div_unique_pos _ _ _ (Z.b2z b * D + k)).
    - rewrite Hmod. destruct b; cbn [Z.b2z]; lia.
    - rewrite Hmod, Hr, Hs. destruct b; cbn [Z.b2z].
      + replace (2 * (1 * D + k)) with (2 * k + 1 * (2 * D)) by lia. rewrite Z_mod_plus_full, Z.mod_small by lia. lia.
      + rewrite Z.mod_small by lia. lia. }
  unfold shr_1. destruct m as [|[p|p|]|p]; [apply (Hgo 0 false)|apply (Hgo (Zpos p) true)|apply (Hgo (Zpos p) false)|apply (Hgo 0 true)|]; cbn; lia.
Qed.

Lemma shr_iter_stands X D p r : 0 <= X -> 0 < D -> stands X D r -> stands X (D * 2 ^ Zpos p) (iter_pos shr_1 p r).
Proof.
  intros HX. revert D r. induction p as [p IH|p IH|]; intros D r HD Hr; cbn [iter_pos].
  - replace (D * 2 ^ Zpos p~1) with (2 * D * 2 ^ Zpos p * 2 ^ Zpos p).
    + apply IH; [nia|]. apply IH; [lia|]. by apply shr_1_stands.
    + rewrite (Pos2Z.inj_xI p). replace (2 * Zpos p + 1) with (Zpos p + Zpos p + 1) by lia. rewrite !Z.pow_add_r by lia. lia.
  - replace (D * 2 ^ Zpos p~0) with (D * 2 ^ Zpos p * 2 ^ Zpos p); [apply IH; [nia|by apply IH]|].
    rewrite (Pos2Z.inj_xO p). replace (2 * Zpos p) with (Zpos p + Zpos p) by lia. rewrite !Z.pow_add_r by lia. lia.
  - rewrite Z.pow_1_r, Z.mul_comm. by apply shr_1_stands.
Qed.

Lemma shr_stands X D r e n r' e' : 0 <= X -> 0 < D -> 0 <= n -> stands X D r -> shr r e n = (r', e') ->
  stands X (D * 2 ^ n) r' /\ e' = e + n.
Proof.
  intros HX HD Hn Hr. destruct n as [|p|p]; [|intros [= <- <-]|lia].
  - intros [= <- <-]. by rewrite Z.pow_0_r, Z.mul_1_r, Z.add_0_r.
  - split; [|done]. by apply shr_iter_stands.
Qed.

Lemma round_stands X D r : 0 <= X -> 0 < D -> stands X D r ->
  2 * Z.abs (round_nearest_even (shr_m r) (loc_of_shr_record r) * D - X) <= D /\
  X / D <= round_nearest_even (shr_m r) (loc_of_shr_record r) <= X / D + 1.
Proof.
  intros HX HD (Hm & Hr & Hs). destruct r as [m r s]. cbn in Hm, Hr, Hs |- *.
  pose proof (Z.div_mod X D ltac:(lia)) as Hd. pose proof (Z.mod_pos_bound X D HD) as Hk. rewrite <- Hm in Hd |- *. clear Hm.
  set (k := X mod D) in *. clearbody k.
  rewrite (sticky_bit D k Hk) in Hs.
  assert (m * D - X = - k /\ (m + 1) * D - X = D - k) as [E1 E2] by lia.
  destruct r, s; cbn [round_nearest_even]; try (rewrite E1; lia); try (rewrite E2; lia).
  destruct (Z.even m); [rewrite E1|rewrite E2]; lia.
Qed.

Lemma fexp_normal d : -1021 <= d -> fexp 53 1024 d = d - 53.
Proof. unfold fexp, emin. lia. Qed.

Lemma shr_fexp_big m e l : 2 ^ 52 <= m -> -1021 <= Z.log2 m + 1 + e ->
  shr_fexp 53 1024 m e l = shr (shr_record_of_loc m l) e (Z.log2 m - 52).
Proof.
  intros Hm He. unfold shr_fexp. destruct m as [|p|p]; [lia| |lia]. cbn [Zdigits2]. rewrite digits2_log2, fexp_normal by lia.
  f_equal. lia.
Qed.

Lemma stands_exact X : stands X 1 (shr_record_of_loc X loc_Exact).
Proof. split_and!; cbn; [by rewrite Z.div_1_r|by rewrite Z.mod_1_r|by rewrite Z.mod_1_r]. Qed.

(** A normal result is the nearest number of 53 places: [m * 2 ^ e] for the
    quotient [X / D] times [2 ^ ex]. *)
Lemma round_near sx X D ex lx :
  0 < D -> stands X D (shr_record_of_loc (X / D) lx) -> 2 ^ 52 <= X / D -> -1000 <= ex -> Z.log2 (X / D) + ex <= 1000 ->
  exists m k, binary_round_aux 53 1024 sx (X / D) ex lx = S754_finite sx m (ex + k) /\
    2 ^ 52 <= Zpos m < 2 ^ 53 /\ 0 <= k <= Z.log2 (X / D) - 51 /\ 2 ^ 53 * Z.abs (Zpos m * 2 ^ k * D - X) <= X.
Proof.
  intros HD Hst Hq Hex Hhi. set (q := X / D) in *.
  assert (D * q <= X < D * (q + 1)) as HX by (split; [apply Z.mul_div_le; lia|apply Z.mul_succ_div_gt; lia]).
  assert (52 <= Z.log2 q) as Hlog by (apply Z.log2_le_pow2; lia).
  pose proof (Z.log2_spec q ltac:(lia)) as [Hq1 Hq2]. unfold binary_round_aux. rewrite shr_fexp_big by lia.
  set (n := Z.log2 q - 52) in *. assert (0 <= n) by lia.
  assert (2 ^ Z.log2 q = 2 ^ 52 * 2 ^ n) as Hl by (rewrite <- Z.pow_add_r by lia; f_equal; lia).
  rewrite Z.pow_succ_r, Hl in Hq2 by lia. rewrite Hl in Hq1. assert (0 < 2 ^ n) as Hn by lia.
  destruct (shr _ ex n) as [r e1] eqn:Hs. apply (shr_stands X D) in Hs as [Hr ->]; [|lia|lia|lia|done].
  apply round_stands in Hr as [He Hb]; [|nia|nia].
  set (w := round_nearest_even _ _) in *. clearbody w. clear Hst r.
  assert (X / (D * 2 ^ n) = q / 2 ^ n) as Hqq by (rewrite <- Z.div_div by lia; done).
  assert (2 ^ 52 <= q / 2 ^ n < 2 ^ 53) as Hqn.
  { split; [apply Z.div_le_lower_bound; lia|apply Z.div_lt_upper_bound; lia]. }
  rewrite Hqq in Hb. assert (2 ^ 52 * (D * 2 ^ n) <= X) as Hbig by nia.
  assert (2 ^ 52 <= w <= 2 ^ 53) as Hw by lia.
  rewrite shr_fexp_big; [|lia|pose proof (Z.log2_nonneg w); lia].
  destruct (decide (w = 2 ^ 53)) as [->|Hne].
  - change (Z.log2 (2 ^ 53) - 52) with 1. cbn [shr iter_pos shr_record_of_loc]. change (2 ^ 53) with (Zpos 9007199254740992) at 1.
    cbn [shr_1 shr_m]. rewrite (proj2 (Z.leb_le _ _)) by lia. exists 4503599627370496%positive, (n + 1). split; [f_equal; lia|].
    split_and!; [lia|lia|lia|lia|]. rewrite Z.pow_add_r by lia. lia.
  - assert (Z.log2 w = 52) as -> by (apply Z.log2_unique; lia). change (52 - 52) with 0. cbn [shr shr_m shr_record_of_loc].
    destruct w as [|m|m]; [lia| |lia]. rewrite (proj2 (Z.leb_le _ _)) by lia. exists m, n. split_and!; try done; lia.
Qed.

(** ** Products, quotients and casts of normal numbers *)

Definition places (m : positive) : Prop := 2 ^ 52 <= Zpos m < 2 ^ 53.

Lemma mul_near s1 s2 m1 m2 e1 e2 : places m1 -> places m2 -> -400 <= e1 <= 400 -> -400 <= e2 <= 400 ->
  exists m k, fmul (S754_finite s1 m1 e1) (S754_finite s2 m2 e2) = S754_finite (xorb s1 s2) m (e1 + e2 + k) /\
    places m /\ 0 <= k <= 55 /\ 2 ^ 53 * Z.abs (Zpos m * 2 ^ k - Zpos m1 * Zpos m2) <= Zpos m1 * Zpos m2.
Proof.
  intros H1 H2 He1 He2. unfold places in H1, H2. cbn [fmul SFmul]. unfold fmul, SFmul.
  assert (2 ^ 104 <= Zpos (m1 * m2) < 2 ^ 106) as HX by (rewrite Pos2Z.inj_mul; nia).
  assert (Z.log2 (Zpos (m1 * m2)) < 106) as Hl by (apply Z.log2_lt_pow2; lia).
  destruct (round_near (xorb s1 s2) (Zpos (m1 * m2)) 1 (e1 + e2) loc_Exact) as (m & k & E & Hm & Hk & Hn);
    rewrite ?Z.div_1_r in *; try lia; [apply stands_exact|].
  exists m, k. split_and!; try done; lia.
Qed.

Lemma stands_rem X D : 0 < D -> 0 <= X -> stands X D (shr_record_of_loc (X / D) (new_location D (X mod D))).
Proof.
  intros HD HX. pose proof (Z.mod_pos_bound X D HD) as Hk. unfold stands. rewrite (sticky_bit _ _ Hk). set (k := X mod D) in *. clearbody k.
  unfold new_location, new_location_even, new_location_odd.
  destruct (Z.even D) eqn:Ev; destruct (k =? 0) eqn:E0; try (split_and!; cbn; lia).
  - destruct (Z.compare_spec (2 * k) D); split_and!; cbn; lia.
  - assert (2 * k <> D) by (intros <-; by rewrite Z.even_mul in Ev).
    destruct (Z.compare_spec (2 * k + 1) D); split_and!; cbn; lia.
Qed.

Lemma div_near s1 s2 m1 m2 e1 e2 : places m1 -> places m2 -> -400 <= e1 <= 400 -> -400 <= e2 <= 400 ->
  exists m k, fdiv (S754_finite s1 m1 e1) (S754_finite s2 m2 e2) = S754_finite (xorb s1 s2) m (e1 - e2 - 53 + k) /\
    places m /\ 0 <= k <= 3 /\ 2 ^ 53 * Z.abs (Zpos m * 2 ^ k * Zpos m2 - Zpos m1 * 2 ^ 53) <= Zpos m1 * 2 ^ 53.
Proof.
  intros H1 H2 He1 He2. unfold places in H1, H2. unfold fdiv, SFdiv, SFdiv_core_binary. cbn [Zdigits2].
  assert (forall m, 2 ^ 52 <= Zpos m < 2 ^ 53 -> Zpos (digits2_pos m) = 53) as Hd.
  { intros m Hm. rewrite digits2_log2. enough (Z.log2 (Zpos m) = 52) by lia. apply Z.log2_unique; lia. }
  rewrite !Hd, fexp_normal by lia. replace (Z.min (53 + e1 - (53 + e2) - 53) (e1 - e2)) with (e1 - e2 - 53) by lia.
  replace (e1 - e2 - (e1 - e2 - 53)) with 53 by lia. rewrite Z.shiftl_mul_pow2 by lia.
  set (X := Zpos m1 * 2 ^ 53). assert (2 ^ 52 <= X / Zpos m2 < 2 ^ 54) as Hq.
  { split; [apply Z.div_le_lower_bound|apply Z.div_lt_upper_bound]; unfold X; lia. }
  assert (Z.log2 (X / Zpos m2) < 54) as Hl by (apply Z.log2_lt_pow2; lia).
  assert (Z.div_eucl X (Zpos m2) = (X / Zpos m2, X mod Zpos m2)) as -> by (unfold Z.div, Z.modulo; by destruct (Z.div_eucl X (Zpos m2))).
  destruct (round_near (xorb s1 s2) X (Zpos m2) (e1 - e2 - 53) (new_location (Zpos m2) (X mod Zpos m2)))
    as (m & k & E & Hm & Hk & Hn); try lia; [apply stands_rem; unfold X; lia|].
  exists m, k. split_and!; try done; lia.
Qed.

Lemma iter_xO m d : Zpos (Pos.iter xO m d) = Zpos m * 2 ^ Zpos d.
Proof.
  induction d as [|d IH] using Pos.peano_ind; [cbn; lia|].
  rewrite Pos.iter_succ, Pos2Z.inj_xO, IH, Pos2Z.inj_succ, Z.pow_succ_r by lia. lia.
Qed.

Lemma of_i64_pos n : (0 < n < 2 ^ 52) -> exists m k, of_i64 n = S754_finite false m (- k) /\ places m /\ 0 <= k <= 52 /\ Zpos m = n * 2 ^ k.
Proof.
  intros Hn. destruct n as [|p|p]; [lia| |lia]. unfold of_i64, binary_normalize, binary_round.
  pose proof (Z.log2_spec (Zpos p) ltac:(lia)) as [L1 L2]. pose proof (Z.log2_nonneg (Zpos p)) as L3.
  assert (Z.log2 (Zpos p) < 52) as L4 by (apply Z.log2_lt_pow2; lia).
  rewrite digits2_log2, fexp_normal by lia. set (k := 52 - Z.log2 (Zpos p)).
  replace (Z.log2 (Zpos p) + 1 + 0 - 53) with (- k) by lia.
  assert (2 ^ 52 = 2 ^ Z.log2 (Zpos p) * 2 ^ k) as E52 by (rewrite <- Z.pow_add_r by lia; f_equal; lia).
  rewrite Z.pow_succ_r in L2 by lia.
  assert (exists d, k = Zpos d) as [d Hd] by (exists (Z.to_pos k); rewrite Z2Pos.id; lia).
  unfold shl_align. rewrite Hd. change (- Zpos d - 0) with (Z.neg d). cbv beta iota zeta. change (PosDef.Pos.iter xO p d) with (Pos.iter xO p d). pose proof (iter_xO p d) as Hi. set (mz := Pos.iter xO p d) in *. rewrite <- Hd in Hi.
  assert (2 ^ 52 <= Zpos mz < 2 ^ 53) as Hz by (rewrite Hi; nia).
  assert (Z.log2 (Zpos mz) = 52) as Hl by (apply Z.log2_unique; lia).
  destruct (round_near false (Zpos mz) 1 (- k) loc_Exact) as (m & j & E & Hm & Hj & He); rewrite ?Z.div_1_r in *; try lia; [apply stands_exact|].
  rewrite <- Hd, E. rewrite Hl in Hj.
  assert (Zpos m * 2 ^ j = Zpos mz) as Heq by lia. assert (j = 0) as -> by (assert (j = 0 \/ j = 1) as [|] by lia; subst; lia).
  exists m, k. split; [f_equal; lia|]. rewrite Z.pow_0_r in Heq. split_and!; try apply Hm; lia.
Qed.

(** ** The sign *)

Lemma round_aux_opp s m e l : binary_round_aux 53 1024 (negb s) m e l = SFopp (binary_round_aux 53 1024 s m e l).
Proof.
  unfold binary_round_aux. destruct (shr_fexp 53 1024 m e l) as [r1 e1]. destruct (shr_fexp 53 1024 _ e1 loc_Exact) as [r2 e2].
  destruct (shr_m r2); [done| |done]. by destruct (e2 <=? 1024 - 53).
Qed.

Lemma fmul_opp x m e : fmul (SFopp x) (S754_finite false m e) = SFopp (fmul x (S754_finite false m e)).
Proof. destruct x as [s|s| |s m' e']; cbn; rewrite ?xorb_false_r; try done. apply round_aux_opp. Qed.

Lemma fdiv_opp x m e : fdiv (SFopp x) (S754_finite false m e) = SFopp (fdiv x (S754_finite false m e)).
Proof.
  destruct x as [s|s| |s m' e']; unfold fdiv, SFdiv; cbn [SFopp]; rewrite ?xorb_false_r; try done.
  destruct (SFdiv_core_binary 53 1024 (Zpos m') e' (Zpos m) e) as [[mz ez] lz]. apply round_aux_opp.
Qed.

Lemma of_i64_opp n : 0 < n -> of_i64 (- n) = SFopp (of_i64 n).
Proof.
  intros Hn. destruct n as [|p|p]; [lia| |lia]. change (- Zpos p) with (Zneg p). unfold of_i64, binary_normalize, binary_round.
  destruct (shl_align p 0 _) as [mz ez]. apply (round_aux_opp false).
Qed.

Lemma round_i64_opp x : (forall s, x <> S754_infinity s) -> Z.abs (round_i64 x) < 2 ^ 63 - 1 -> round_i64 (SFopp x) = - round_i64 x.
Proof.
  intros Hi Hr. destruct x as [s|s| |s m e]; cbn [SFopp round_i64] in *; try done; [by destruct (Hi s)|].
  set (r := if 0 <=? e then _ else _) in *. clearbody r. unfold sat_i64 in *. destruct s; cbn [negb]; lia.
Qed.

Lemma compare_opp s1 m1 e1 s2 m2 e2 :
  SFcompare (SFopp (S754_finite s2 m2 e2)) (SFopp (S754_finite s1 m1 e1)) = SFcompare (S754_finite s1 m1 e1) (S754_finite s2 m2 e2).
Proof.
  cbn [SFopp SFcompare]. destruct s1, s2; cbn [negb]; try done; f_equal; rewrite (Z.compare_antisym e1 e2); destruct (e1 ?= e2); cbn [CompOpp]; try done;
    change (Pos.compare_cont Eq) with Pos.compare; rewrite (Pos.compare_antisym m1 m2); by destruct (m1 ?= m2)%positive.
Qed.

(** ** Nanodegrees to degrees and back *)

(** [n as f64 * 1.0e-9], [n as f64 / 1e9] and [(x * 1e9).round() as i64]. *)
Definition to_degrees (n : Z) : f64 := fmul (of_i64 n) F1EM9.
Definition over_1e9 (n : Z) : f64 := fdiv (of_i64 n) F1E9.
Definition to_nanos (x : f64) : Z := round_i64 (fmul x F1E9).

Lemma F1EM9_places : places 4835703278458517. Proof. unfold places. lia. Qed.
Lemma F1E9_places : places 8388608000000000. Proof. unfold places. lia. Qed.

(** A number within half of an integer rounds to it. *)
Lemma round_within m e n T : e <= 0 -> T = 2 ^ (- e) -> 0 < n < 2 ^ 62 -> 2 * Z.abs (Zpos m - n * T) < T -> round_i64 (S754_finite false m e) = n.
Proof.
  intros He HT Hn Hm. cbn [round_i64]. assert ((if 0 <=? e then Zpos m * 2 ^ e else (Zpos m + 2 ^ (- e - 1)) / 2 ^ (- e)) = n) as ->.
  - destruct (Z.leb_spec 0 e) as [H0|H0].
    + assert (e = 0) as -> by lia. cbn in HT. lia.
    + assert (T = 2 * 2 ^ (- e - 1)) as HT2 by (rewrite HT, <- Z.pow_succ_r by lia; f_equal; lia).
      rewrite <- HT. symmetry. apply (Z.div_unique_pos _ _ _ (Zpos m + 2 ^ (- e - 1) - n * T)); lia.
  - unfold sat_i64. lia.
Qed.

(** Multiplying an approximation of [n / 10^9] by [1e9] comes within half of
    [n]: [m * 2 ^ (j - k - B + 23)] is off by less than one part in [2 ^ 50]. *)
Lemma back_near m n j k B : places m -> 0 < n <= 2 ^ 48 -> 0 <= j <= 55 -> 0 <= k <= 52 -> 53 <= B <= 105 ->
  2 ^ 50 * Z.abs (Zpos m * 2 ^ j * 8388608000000000 - n * 2 ^ k * 2 ^ B) <= n * 2 ^ k * 2 ^ B ->
  to_nanos (S754_finite false m (j - k - B + 23)) = n.
Proof.
  intros Hm Hn Hj Hk HB Hnear. unfold to_nanos, F1E9.
  destruct (mul_near false false m 8388608000000000 (j - k - B + 23) (-23) Hm F1E9_places ltac:(lia) ltac:(lia)) as (m' & j' & -> & Hm' & Hj' & He).
  cbn [xorb]. replace (j - k - B + 23 + -23 + j') with (j + j' - (k + B)) by lia.
  set (U := 2 ^ (k + B)). assert (2 ^ k * 2 ^ B = U) as HU by (unfold U; rewrite Z.pow_add_r by lia; done).
  set (J := 2 ^ (j + j')). assert (2 ^ j' * 2 ^ j = J) as HJ by (unfold J; rewrite Z.pow_add_r by lia; lia).
  assert (0 < 2 ^ j) as H2j by lia. assert (0 < U) by lia. assert (0 < J) by lia.
  replace (n * 2 ^ k * 2 ^ B) with (n * U) in Hnear by (rewrite <- HU; lia).
  assert (2 ^ 53 * Z.abs (Zpos m' * J - Zpos m * 2 ^ j * 8388608000000000) <= Zpos m * 2 ^ j * 8388608000000000) as Hu.
  { rewrite <- HJ. replace (Zpos m' * (2 ^ j' * 2 ^ j) - Zpos m * 2 ^ j * 8388608000000000)
      with ((Zpos m' * 2 ^ j' - Zpos m * 8388608000000000) * 2 ^ j) by lia. rewrite Z.abs_mul, (Z.abs_eq (2 ^ j)) by lia. nia. }
  set (v := Zpos m * 2 ^ j * 8388608000000000) in *. clearbody v.
  assert (n * U <= 2 ^ 48 * U) as HnU by nia. set (z := n * U) in *.
  assert (2 * Z.abs (Zpos m' * J - z) < U) as Hclose by lia.
  assert (j + j' <= k + B) as Hle.
  { destruct (Z.le_gt_cases (j + j') (k + B)) as [|Hgt]; [done|]. exfalso.
    assert (U <= J) by (apply Z.pow_le_mono_r; lia). unfold places in Hm'. assert (2 ^ 52 * U <= Zpos m' * J) by nia. lia. }
  apply (round_within _ _ _ (2 ^ (k + B - (j + j')))); [lia|f_equal; lia|lia|].
  set (T := 2 ^ (k + B - (j + j'))). assert (T * J = U) as HT by (unfold T, J, U; rewrite <- Z.pow_add_r by lia; f_equal; lia).
  apply (Z.mul_lt_mono_pos_r J); [lia|]. rewrite HT.
  replace (2 * Z.abs (Zpos m' - n * T) * J) with (2 * Z.abs (Zpos m' * J - z)); [done|].
  unfold z. rewrite <- HT. replace (Zpos m' * J - n * (T * J)) with ((Zpos m' - n * T) * J) by lia. rewrite Z.abs_mul, (Z.abs_eq J); lia.
Qed.

Lemma to_degrees_pos n : 0 < n <= 2 ^ 48 -> exists m j k, to_degrees n = S754_finite false m (j - k - 82) /\ places m /\
  0 <= j <= 55 /\ 0 <= k <= 52 /\ 2 ^ 53 * Z.abs (Zpos m * 2 ^ j - n * 2 ^ k * 4835703278458517) <= n * 2 ^ k * 4835703278458517.
Proof.
  intros Hn. destruct (of_i64_pos n ltac:(lia)) as (m0 & k & E0 & Hm0 & Hk & Hv). unfold to_degrees. rewrite E0. unfold F1EM9.
  destruct (mul_near false false m0 4835703278458517 (- k) (-82) Hm0 F1EM9_places ltac:(lia) ltac:(lia)) as (m & j & -> & Hm & Hj & He).
  exists m, j, k. rewrite Hv in He. split_and!; try apply Hm; try lia. cbn [xorb]. f_equal. lia.
Qed.

Lemma over_1e9_pos n : 0 < n <= 2 ^ 48 -> exists m j k, over_1e9 n = S754_finite false m (j - k - 53 + 23) /\ places m /\
  0 <= j <= 3 /\ 0 <= k <= 52 /\ 2 ^ 53 * Z.abs (Zpos m * 2 ^ j * 8388608000000000 - n * 2 ^ k * 2 ^ 53) <= n * 2 ^ k * 2 ^ 53.
Proof.
  intros Hn. destruct (of_i64_pos n ltac:(lia)) as (m0 & k & E0 & Hm0 & Hk & Hv). unfold over_1e9. rewrite E0. unfold F1E9.
  destruct (div_near false false m0 8388608000000000 (- k) (-23) Hm0 F1E9_places ltac:(lia) ltac:(lia)) as (m & j & -> & Hm & Hj & He).
  exists m, j, k. rewrite Hv in He. split_and!; try apply Hm; try lia. cbn [xorb]. f_equal. lia.
Qed.

(** By the sign: what holds of the positive i64 holds of all of them. *)
Lemma nanos_back (f : Z -> f64) n :
  to_nanos (f 0) = 0 -> (forall n, 0 < n -> f (- n) = SFopp (f n)) ->
  (forall n, 0 < n <= 2 ^ 48 -> (exists m e, f n = S754_finite false m e) /\ to_nanos (f n) = n) ->
  Z.abs n <= 2 ^ 48 -> to_nanos (f n) = n.
Proof.
  intros H0 Hopp Hpos Hn. destruct (Z.lt_trichotomy n 0) as [Hlt|[->|Hgt]]; [|done|by apply Hpos; lia].
  destruct (Hpos (- n) ltac:(lia)) as [(m & e & Hf) Hb]. replace n with (- - n) at 1 by lia. rewrite Hopp by lia.
  unfold to_nanos in *. unfold F1E9 in *. rewrite fmul_opp, round_i64_opp; [lia| |lia].
  intros s Hs. rewrite Hs in Hb. unfold round_i64, sat_i64 in Hb. destruct s; lia.
Qed.

Lemma degrees_back n : Z.abs n <= 2 ^ 48 -> to_nanos (to_degrees n) = n.
Proof.
  apply nanos_back; [done|intros; unfold to_degrees, F1EM9; by rewrite of_i64_opp, fmul_opp by done|].
  intros p Hp. destruct (to_degrees_pos p Hp) as (m & j & k & E & Hm & Hj & Hk & He). rewrite E. split; [by eexists _, _|].
  replace (j - k - 82) with (j - k - 105 + 23) by lia. apply back_near; try done; lia.
Qed.

Lemma quotient_back n : Z.abs n <= 2 ^ 48 -> to_nanos (over_1e9 n) = n.
Proof.
  apply nanos_back; [done|intros; unfold over_1e9, F1E9; by rewrite of_i64_opp, fdiv_opp by done|].
  intros p Hp. destruct (over_1e9_pos p Hp) as (m & j & k & E & Hm & Hj & Hk & He). rewrite E. split; [by eexists _, _|].
  apply back_near; try done; lia.
Qed.

(** ** Order *)

Lemma normal_lt s1 s2 m1 m2 e1 e2 K : s1 = false -> s2 = false -> places m1 -> places m2 -> 0 <= e1 + K -> 0 <= e2 + K ->
  Zpos m1 * 2 ^ (e1 + K) < Zpos m2 * 2 ^ (e2 + K) -> SFcompare (S754_finite s1 m1 e1) (S754_finite s2 m2 e2) = Some Lt.
Proof.
  intros -> -> H1 H2 He1 He2 Hlt. unfold places in *. cbn [SFcompare]. f_equal. destruct (Z.compare_spec e1 e2) as [->|Hl|Hg]; [|done|].
  - apply Pos.compare_lt_iff. apply Z.mul_lt_mono_pos_r in Hlt; lia.
  - exfalso. assert (2 * 2 ^ (e2 + K) <= 2 ^ (e1 + K)) as Hp.
    { rewrite <- Z.pow_succ_r by lia. apply Z.pow_le_mono_r; lia. }
    assert (0 < 2 ^ (e2 + K)) by lia. nia.
Qed.

Lemma degrees_lt_pos a b : 0 < a -> a < b -> b <= 2 ^ 48 -> SFcompare (to_degrees a) (to_degrees b) = Some Lt.
Proof.
  intros Ha Hab Hb.
  assert (forall n, 0 < n <= 2 ^ 48 -> exists m e, to_degrees n = S754_finite false m e /\ places m /\ 0 <= e + 134 /\
    2 ^ 53 * Z.abs (Zpos m * 2 ^ (e + 134) - n * 2 ^ 52 * 4835703278458517) <= n * 2 ^ 52 * 4835703278458517) as Hv.
  { intros n Hn. destruct (to_degrees_pos n Hn) as (m & j & k & E & Hm & Hj & Hk & He). exists m, (j - k - 82). split_and!; try done; [lia|].
    replace (j - k - 82 + 134) with (j + (52 - k)) by lia. rewrite Z.pow_add_r by lia.
    assert (2 ^ 52 = 2 ^ k * 2 ^ (52 - k)) as -> by (rewrite <- Z.pow_add_r by lia; f_equal; lia).
    replace (Zpos m * (2 ^ j * 2 ^ (52 - k)) - n * (2 ^ k * 2 ^ (52 - k)) * 4835703278458517)
      with ((Zpos m * 2 ^ j - n * 2 ^ k * 4835703278458517) * 2 ^ (52 - k)) by lia.
    assert (0 < 2 ^ (52 - k)) by lia. rewrite Z.abs_mul, (Z.abs_eq (2 ^ (52 - k))) by lia. nia. }
  destruct (Hv a ltac:(lia)) as (m1 & e1 & -> & Hm1 & He1 & Hn1), (Hv b ltac:(lia)) as (m2 & e2 & -> & Hm2 & He2 & Hn2).
  apply (normal_lt _ _ _ _ _ _ 134); try done. lia.
Qed.

Lemma degrees_sign n : Z.abs n <= 2 ^ 48 -> n <> 0 -> exists m e, to_degrees n = S754_finite (n <? 0) m e.
Proof.
  intros Hn H0. destruct (Z.lt_ge_cases n 0).
  - destruct (to_degrees_pos (- n) ltac:(lia)) as (m & j & k & E & _). exists m, (j - k - 82).
    rewrite (proj2 (Z.ltb_lt _ _)) by lia. replace n with (- - n) by lia. unfold to_degrees, F1EM9 in *. by rewrite of_i64_opp, fmul_opp, E by lia.
  - destruct (to_degrees_pos n ltac:(lia)) as (m & j & k & E & _). exists m, (j - k - 82). by rewrite (proj2 (Z.ltb_ge _ _)) by lia.
Qed.

Lemma degrees_lt a b : Z.abs a <= 2 ^ 48 -> Z.abs b <= 2 ^ 48 -> a < b -> SFcompare (to_degrees a) (to_degrees b) = Some Lt.
Proof.
  intros Ha Hb Hab. destruct (decide (0 < a)) as [H0|H0]; [apply degrees_lt_pos; lia|].
  destruct (decide (b < 0)) as [H1|H1].
  - pose proof (degrees_lt_pos (- b) (- a) ltac:(lia) ltac:(lia) ltac:(lia)) as Hc.
    assert (forall n, n < 0 -> to_degrees n = SFopp (to_degrees (- n))) as Hopp.
    { intros n Hn. replace n with (- - n) at 1 by lia. unfold to_degrees, F1EM9. by rewrite of_i64_opp, fmul_opp by lia. }
    destruct (degrees_sign (- a) ltac:(lia) ltac:(lia)) as (m1 & e1 & E1), (degrees_sign (- b) ltac:(lia) ltac:(lia)) as (m2 & e2 & E2).
    rewrite E1, E2 in Hc. rewrite (Hopp a), (Hopp b), E1, E2 by lia. by rewrite compare_opp.
  - destruct (decide (a = 0)) as [->|Na], (decide (b = 0)) as [->|Nb]; try lia.
    + destruct (degrees_sign b ltac:(lia) Nb) as (m & e & ->). by rewrite (proj2 (Z.ltb_ge _ _)) by lia.
    + destruct (degrees_sign a ltac:(lia) Na) as (m & e & ->). by rewrite (proj2 (Z.ltb_lt _ _)) by lia.
    + destruct (degrees_sign a ltac:(lia) Na) as (m1 & e1 & ->), (degrees_sign b ltac:(lia) Nb) as (m2 & e2 & ->).
      by rewrite (proj2 (Z.ltb_ge b 0)), (proj2 (Z.ltb_lt a 0)) by lia.
Qed.

Lemma compare_gt x y : SFcompare x y = Some Lt -> SFcompare y x = Some Gt.
Proof.
  destruct x as [s1|s1| |s1 m1 e1], y as [s2|s2| |s2 m2 e2]; cbn [SFcompare]; try done; try (destruct s1; done); try (destruct s2; done); try (destruct s1, s2; done).
  change (Pos.compare_cont Eq) with Pos.compare. rewrite (Z.compare_antisym e1 e2), (Pos.compare_antisym m1 m2).
  destruct s1, s2, (e1 ?= e2), (m1 ?= m2)%positive; done.
Qed.

Lemma fmin_degrees a b : Z.abs a <= 2 ^ 48 -> Z.abs b <= 2 ^ 48 -> fmin (to_degrees a) (to_degrees b) = to_degrees (Z.min a b).
Proof.
  intros Ha Hb. unfold fmin. destruct (Z.lt_trichotomy a b) as [H|[<-|H]].
  - rewrite (degrees_lt a b), Z.min_l by lia. done.
  - rewrite Z.min_id. by destruct (SFcompare _ _) as [[]|], (to_degrees a).
  - by rewrite (compare_gt _ _ (degrees_lt b a Hb Ha H)), Z.min_r by lia.
Qed.

Lemma fmax_degrees a b : Z.abs a <= 2 ^ 48 -> Z.abs b <= 2 ^ 48 -> fmax (to_degrees a) (to_degrees b) = to_degrees (Z.max a b).
Proof.
  intros Ha Hb. unfold fmax. destruct (Z.lt_trichotomy a b) as [H|[<-|H]].
  - rewrite (degrees_lt a b), Z.max_r by lia. done.
  - rewrite Z.max_id. by destruct (SFcompare _ _) as [[]|], (to_degrees a).
  - by rewrite (compare_gt _ _ (degrees_lt b a Hb Ha H)), Z.max_l by lia.
Qed.

Lemma finite_degrees n : Z.abs n <= 2 ^ 48 -> is_finite (to_degrees n) = true.
Proof. intros Hn. destruct (decide (n = 0)) as [->|H0]; [done|]. by destruct (degrees_sign n Hn H0) as (m & e & ->). Qed.

Lemma finite_over_1e9 n : Z.abs n <= 2 ^ 48 -> is_finite (over_1e9 n) = true.
Proof.
  intros Hn. destruct (Z.lt_trichotomy n 0) as [H|[->|H]]; [|done|].
  - destruct (over_1e9_pos (- n) ltac:(lia)) as (m & j & k & E & _). replace n with (- - n) by lia. unfold over_1e9, F1E9 in *.
    by rewrite of_i64_opp, fdiv_opp, E by lia.
  - by destruct (over_1e9_pos n ltac:(lia)) as (m & j & k & -> & _).
Qed.

Lemma degrees_eq a : Z.abs a <= 2 ^ 48 -> SFcompare (to_degrees a) (to_degrees a) = Some Eq.
Proof.
  intros Ha. destruct (decide (a = 0)) as [->|H0]; [done|]. destruct (degrees_sign a Ha H0) as (m & e & ->). cbn [SFcompare].
  rewrite Z.compare_refl. change (Pos.compare_cont Eq m m) with (m ?= m)%positive. rewrite Pos.compare_refl. by destruct (a <? 0).
Qed.

Lemma fle_degrees a b : Z.abs a <= 2 ^ 48 -> Z.abs b <= 2 ^ 48 -> fle (to_degrees a) (to_degrees b) = (a <=? b).
Proof.
  intros Ha Hb. unfold fle, SFleb. destruct (Z.lt_trichotomy a b) as [H|[<-|H]].
  - rewrite (degrees_lt a b) by lia. lia.
  - rewrite degrees_eq by done. lia.
  - rewrite (compare_gt _ _ (degrees_lt b a Hb Ha H)). lia.
Qed.

Lemma flt_degrees a b : Z.abs a <= 2 ^ 48 -> Z.abs b <= 2 ^ 48 -> flt (to_degrees a) (to_degrees b) = (a <? b).
Proof.
  intros Ha Hb. unfold flt, SFltb. destruct (Z.lt_trichotomy a b) as [H|[<-|H]].
  - rewrite (degrees_lt a b) by lia. lia.
  - rewrite degrees_eq by done. lia.
  - rewrite (compare_gt _ _ (degrees_lt b a Hb Ha H)). lia.
Qed.

Lemma round_i64_range x : is_i64 (round_i64 x).
Proof.
  unfold is_s. destruct x as [s|s| |s m e]; cbn [round_i64]; try (cbn; lia).
  - destruct s; unfold sat_i64; lia.
  - set (r := if s then _ else _). clearbody r. unfold sat_i64. cbn. lia.
Qed.

Lemma F180_degrees : F180 = to_degrees 180000000000 /\ fneg F180 = to_degrees (-180000000000) /\
  F90 = to_degrees 90000000000 /\ fneg F90 = to_degrees (-90000000000).
Proof. split_and!; vm_compute; reflexivity. Qed.
