(* ===== verification/Codec.v ===== *)
(** * Compression backends and buffers

    zlib ([flate2]) and [zstd] are not part of the repository.  Their
    operations are the fields of the class [Codec]: a streaming inflate step
    that consumes some input and produces at most the room it is given, the
    bounded [zstd] read, and the two compressors.  [CodecLaws] states what the
    readers rely on: a stream's content does not depend on how its output is
    cut into steps, a step that moves nothing with room to spare cannot be
    completed, and a compressor's output decodes to its input.  [Allocator] is
    [Vec::reserve_exact], which may give more than it was asked for.
    [RefCodec] satisfies every law. *)

From S2P Require Import Prelude Proto.

Class Codec := {
  codec_error : Type;
  Inflate : Type;
  (** The decompressor after [reset(true)]. *)
  inflate_reset : Inflate;
  (** [decompress(input, room)]: the next state, the bytes consumed, the bytes
      produced, and whether the stream ended. *)
  inflate : Inflate -> bytes -> Z -> result codec_error (Inflate * Z * bytes * bool);
  (** [Decoder::new(compressed)?.take(limit).read_to_end(buf)?]: what is appended. *)
  zstd_read : bytes -> Z -> result codec_error bytes;
  Deflate : Type;
  deflate_new : Z -> Deflate;
  deflate_reset : Deflate -> Deflate;
  (** [compress_vec(input, room, Finish)]: the compressor after, the output and
      whether the stream ended. *)
  compress_vec : Deflate -> bytes -> Z -> Deflate * result codec_error (bytes * bool);
  zstd_compress_bound : Z -> Z;
  (** [zstd::bulk::Compressor::new(level)] and [compress_to_buffer] with some room. *)
  zstd_new : Z -> result codec_error unit;
  zstd_compress : Z -> bytes -> Z -> result codec_error bytes;
}.

Class CodecLaws (C : Codec) := {
  (** The content of the stream still to come; [None] when it cannot be completed. *)
  inflated : Inflate -> bytes -> option bytes;
  inflate_bounds st inp room st' n p fin :
    0 < room -> inflate st inp room = Ok (st', n, p, fin) -> 0 <= n <= blen inp /\ blen p <= room;
  inflate_end st inp room st' n p : inflate st inp room = Ok (st', n, p, true) -> inflated st inp = Some p;
  inflate_more st inp room st' n p :
    inflate st inp room = Ok (st', n, p, false) -> 0 < n \/ p <> [] ->
    inflated st inp = app p <$> inflated st' (drop (Z.to_nat n) inp);
  inflate_stuck st inp room st' : 0 < room -> inflate st inp room = Ok (st', 0, [], false) -> inflated st inp = None;
  inflate_refused st inp room e : inflate st inp room = Err e -> inflated st inp = None;
  compress_inflated level d room s out :
    compress_vec (deflate_new level) d room = (s, Ok (out, true)) -> inflated inflate_reset out = Some d;
  deflate_reset_new level d room s r : compress_vec (deflate_new level) d room = (s, r) -> deflate_reset s = deflate_new level;
  zstd_decoded level d room out limit :
    zstd_compress level d room = Ok out -> 0 <= limit -> zstd_read out limit = Ok (take (Z.to_nat limit) d);
}.

(** [Vec::reserve_exact(additional)] on a vector of length [len]: its capacity after. *)
Class Allocator := {
  reserve_exact : Z -> Z -> Z -> Z;
  (** [Vec::reserve(additional)], and the growth of [extend_from_slice]. *)
  reserve_amortized : Z -> Z -> Z -> Z }.

Class AllocatorLaws (A : Allocator) := {
  reserve_enough cap len more : len + more <= reserve_exact cap len more;
  reserve_keeps cap len more : cap <= reserve_exact cap len more;
  amortized_enough cap len more : len + more <= reserve_amortized cap len more;
  amortized_keeps cap len more : cap <= reserve_amortized cap len more;
}.

(** ** A codec that satisfies the laws

    Each byte is marked, and the end of the stream is a mark of its own. *)

Module RefCodec.

Fixpoint pack (d : bytes) : bytes := match d with [] => [0] | b :: d => 1 :: b :: pack d end.

Fixpoint unpack (inp : bytes) (room : nat) : result unit (Z * bytes * bool) :=
  match inp with
  | m :: inp =>
      if m =? 0 then Ok (1, [], true)
      else if m =? 1 then
        match inp, room with
        | b :: inp, S room =>
            match unpack inp room with
            | Ok (n, p, fin) => Ok (n + 2, b :: p, fin)
            | Err e => Err e
            end
        | _, _ => Ok (0, [], false)
        end
      else Err tt
  | [] => Ok (0, [], false)
  end.

Fixpoint content (inp : bytes) : option bytes :=
  match inp with
  | m :: inp =>
      if m =? 0 then Some []
      else if m =? 1 then match inp with b :: inp => cons b <$> content inp | [] => None end
      else None
  | [] => None
  end.

#[export] Instance ref_codec : Codec := {|
  codec_error := unit;
  Inflate := unit;
  inflate_reset := tt;
  inflate := fun _ inp room =>
    match unpack inp (Z.to_nat room) with Ok (n, p, fin) => Ok (tt, n, p, fin) | Err e => Err e end;
  zstd_read := fun c limit => Ok (take (Z.to_nat limit) c);
  Deflate := Z * bytes;
  deflate_new := fun level => (level, []);
  deflate_reset := fun s => (s.1, []);
  compress_vec := fun s d room =>
    let out := s.2 ++ pack d in
    if blen out <=? room then ((s.1, []), Ok (out, true))
    else ((s.1, drop (Z.to_nat room) out), Ok (take (Z.to_nat room) out, false));
  zstd_compress_bound := fun n => n;
  zstd_new := fun _ => Ok tt;
  zstd_compress := fun _ d room => if blen d <=? room then Ok d else Err tt;
|}.

#[export] Instance exact_allocator : Allocator := {|
  reserve_exact := fun cap len more => Z.max cap (len + more);
  reserve_amortized := fun cap len more => Z.max cap (len + more) |}.
#[export] Instance exact_laws : AllocatorLaws exact_allocator.
Proof. split; simpl; lia. Qed.

(** Two bytes of input a step. *)
Lemma pairs_ind (Q : bytes -> Prop) :
  Q [] -> (forall m, Q [m]) -> (forall m b inp, Q inp -> Q (m :: b :: inp)) -> forall inp, Q inp.
Proof.
  intros H0 H1 H2. fix IH 1. intros [|m [|b inp]]; [done|done|]. apply H2, IH.
Qed.

Lemma unpack_spec inp : forall room n p fin,
  unpack inp room = Ok (n, p, fin) ->
  0 <= n <= blen inp /\ (length p <= room)%nat /\
  (if fin then content inp = Some p
   else content inp = app p <$> content (drop (Z.to_nat n) inp) /\
        (n = 0 -> (0 < room)%nat -> content inp = None)).
Proof.
  unfold blen. induction inp as [|m|m b inp IH] using pairs_ind; intros room n p fin; cbn [unpack content length].
  - intros [= <- <- <-]. simpl. repeat split; lia.
  - destruct (m =? 0) eqn:H0; [intros [= <- <- <-]; simpl; repeat split; lia|].
    destruct (m =? 1) eqn:Hm; [|done]. intros [= <- <- <-]. simpl. rewrite ?H0, ?Hm.
    repeat split; simpl; lia.
  - destruct (m =? 0) eqn:H0; [intros [= <- <- <-]; simpl; repeat split; lia|].
    destruct (m =? 1) eqn:Hm; [|done]. destruct room as [|room].
    { intros [= <- <- <-]. change (drop (Z.to_nat 0) (m :: b :: inp)) with (m :: b :: inp). cbn [content]. rewrite H0, Hm.
      repeat split; try lia; simpl; by destruct (content inp). }
    destruct (unpack inp room) as [[[n' p'] fin']|] eqn:Hu; [|done]. intros [= <- <- <-].
    apply IH in Hu as (Hn & Hp & Hc). cbn [length]. split; [lia|]. split; [lia|]. destruct fin'; [by rewrite Hc|].
    destruct Hc as [Hc _]. split; [|lia]. replace (Z.to_nat (n' + 2)) with (S (S (Z.to_nat n'))) by lia.
    cbn [drop]. rewrite Hc. by destruct (content (drop _ inp)).
Qed.

Lemma unpack_refused inp : forall room e, unpack inp room = Err e -> content inp = None.
Proof.
  induction inp as [|m|m b inp IH] using pairs_ind; intros room e; cbn [unpack content]; [done|by repeat case_match|].
  destruct (m =? 0); [done|]. destruct (m =? 1); [|done]. destruct room as [|room]; [done|].
  destruct (unpack inp room) as [[[n p] fin]|] eqn:Hu; [done|]. intros _. by rewrite (IH _ _ Hu).
Qed.

Lemma content_pack d : content (pack d) = Some d.
Proof. induction d as [|b d IH]; [done|]. cbn [pack content Z.eqb Pos.eqb]. by rewrite IH. Qed.

#[export] Program Instance ref_codec_laws : CodecLaws ref_codec := {| inflated := fun _ inp => content inp |}.
Next Obligation.
  cbn. intros _ inp room st' n p fin Hr. destruct (unpack _ _) as [[[n' p'] fin']|] eqn:Hu; [|done].
  intros [= _ <- <- <-]. apply unpack_spec in Hu as (Hn & Hp & _). unfold blen in *. lia.
Qed.
Next Obligation.
  cbn. intros _ inp room st' n p. destruct (unpack _ _) as [[[n' p'] fin']|] eqn:Hu; [|done].
  intros [= _ <- <- ->]. by apply unpack_spec in Hu as (_ & _ & Hu).
Qed.
Next Obligation.
  cbn. intros _ inp room st' n p. destruct (unpack _ _) as [[[n' p'] fin']|] eqn:Hu; [|done].
  intros [= _ <- <- ->] _. by apply unpack_spec in Hu as (_ & _ & Hu & _).
Qed.
Next Obligation.
  cbn. intros _ inp room st' Hr. destruct (unpack _ _) as [[[n' p'] fin']|] eqn:Hu; [|done].
  intros [= _ -> -> ->]. apply unpack_spec in Hu as (_ & _ & _ & Hu). apply Hu; lia.
Qed.
Next Obligation.
  cbn. intros _ inp room e. destruct (unpack _ _) as [[[n' p'] fin']|] eqn:Hu; [done|]. intros _.
  by apply unpack_refused in Hu.
Qed.
Next Obligation. cbn. intros level d room s out. case_match; [|done]. intros [= _ <-]. apply content_pack. Qed.
Next Obligation. cbn. intros level d room s r. by case_match; intros [= <- _]. Qed.
Next Obligation. cbn. intros _ d room out limit. case_match; [|done]. by intros [= ->] _. Qed.

End RefCodec.
