(* ===== verification/BlobWire.v ===== *)
(** * Blob envelopes (src/src/read/blob_wire.rs, src/src/read/wire_schema.rs)

    The parsers of the two messages a frame holds: [WireBlobHeader_parse] for
    the [BlobHeader], [WireBlob_parse] for the [Blob], with the size limits and
    the [raw_size] check.  [parse_raw_envelope] is the second [Blob] parser,
    of src/src/read/decompress.rs.  A [String] is its UTF-8 bytes. *)

From S2P Require Import Prelude StdText Proto Wire Encode Utf8 BlobMeta.

(** ** Field numbers and limits *)

Module blob.
Definition RAW : Z := 1.
Definition RAW_SIZE : Z := 2.
Definition ZLIB_DATA : Z := 3.
Definition ZSTD_DATA : Z := 7.
End blob.

Module blob_header.
Definition TYPE : Z := 1.
Definition INDEXDATA : Z := 2.
Definition DATASIZE : Z := 3.
Definition TAGDATA : Z := 4.
Definition WAYMEMBERS : Z := 5.
End blob_header.

Definition MAX_BLOB_HEADER_SIZE : Z := 64 * 1024.
Definition MAX_BLOB_MESSAGE_SIZE : Z := 32 * 1024 * 1024.
Definition MAX_BLOB_DATASIZE : Z := MAX_BLOB_MESSAGE_SIZE.

Definition HEADER_UNFRAMED : string :=
  "BlobHeader type is length-delimited and datasize is a varint; the blob cannot be framed otherwise".
Definition TYPE_NOT_UTF8 : string := "invalid UTF-8 in BlobHeader type".
Definition NO_TYPE : string := "BlobHeader has no type field".
Definition DATASIZE_RANGE : string := "BlobHeader.datasize exceeds int32".
Definition RAW_SIZE_RANGE : string := "Blob.raw_size exceeds int32".
Definition TWO_PAYLOADS : string := "Blob carries more than one of the mutually exclusive payload fields".
Definition RAW_SIZE_DISAGREES : string := "Blob raw_size disagrees with the payload that came out of it".

(** ** The header *)

Inductive BlobKind := OsmHeader | OsmData | UnknownKind (name : bytes).

#[export] Instance BlobKind_eq_dec : EqDecision BlobKind.
Proof. solve_decision. Defined.

Record WireBlobHeader := mkWireBlobHeader {
  bh_type : BlobKind;
  bh_datasize : Z;
  bh_indexdata : option bytes;
  bh_index_present : bool;
  bh_unrecognised : option nat;
  bh_tagdata : option bytes;
  bh_tag_present : bool;
  bh_waymembers : option bytes }.

Definition header_init : WireBlobHeader :=
  mkWireBlobHeader (UnknownKind []) 0 None false None None false None.

Section Wire.
Context {P : Protohoggr}.

Abbreviation wresult := (result WireError).

(** The wire type each known field must have. *)
Definition expected_wire (field : Z) : option Z :=
  if field =? blob_header.DATASIZE then Some WIRE_VARINT
  else if (field =? blob_header.TYPE) || (field =? blob_header.INDEXDATA)
       || (field =? blob_header.TAGDATA) || (field =? blob_header.WAYMEMBERS) then Some WIRE_LEN
  else None.

Definition kind_of_type (b : bytes) : wresult BlobKind :=
  if bool_decide (b = bs "OSMHeader") then Ok OsmHeader
  else if bool_decide (b = bs "OSMData") then Ok OsmData
  else match from_utf8 b with Ok _ => Ok (UnknownKind b) | Err _ => Err (Message TYPE_NOT_UTF8) end.

(** The claim fields: an empty occurrence contributes nothing, a second
    non-empty one leaves the blob with none. *)
Definition take_indexdata (h : WireBlobHeader) (b : bytes) : WireBlobHeader :=
  let 'mkWireBlobHeader ty ds ix ixp un td tdp wm := h in
  match b with
  | [] => h
  | _ =>
      let '(ix, un) :=
        if ixp then (None, un)
        else match classify_wire_indexdata b with
             | Carrier c => (Some c, un)
             | UnrecognisedLength len => (ix, Some len)
             | VersionLengthMismatch => (ix, un)
             end in
      mkWireBlobHeader ty ds ix true un td tdp wm
  end.

Definition take_tagdata (h : WireBlobHeader) (b : bytes) : WireBlobHeader :=
  let 'mkWireBlobHeader ty ds ix ixp un td tdp wm := h in
  match b with
  | [] => h
  | _ => mkWireBlobHeader ty ds ix ixp un (if tdp then None else Some b) true wm
  end.

Definition take_waymembers (h : WireBlobHeader) (b : bytes) : WireBlobHeader :=
  let 'mkWireBlobHeader ty ds ix ixp un td tdp wm := h in
  match b with [] => h | _ => mkWireBlobHeader ty ds ix ixp un td tdp (Some b) end.

Definition header_step (parse_tagdata parse_indexdata parse_waymembers : bool)
    (h : WireBlobHeader) (field wt : Z) (c : bytes) : wresult (WireBlobHeader * bytes) :=
  let 'mkWireBlobHeader ty ds ix ixp un td tdp wm := h in
  if match expected_wire field with Some w => negb (w =? wt) | None => false end then
    if (field =? blob_header.TYPE) || (field =? blob_header.DATASIZE) then Err (Message HEADER_UNFRAMED)
    else skip_arm h wt c
  else if field =? blob_header.TYPE then
    '(b, c) ← lift (read_len_delimited c);
    ty ← kind_of_type b;
    Ok (mkWireBlobHeader ty ds ix ixp un td tdp wm, c)
  else if (field =? blob_header.INDEXDATA) && parse_indexdata then
    '(b, c) ← lift (read_len_delimited c); Ok (take_indexdata h b, c)
  else if field =? blob_header.DATASIZE then
    '(ds, c) ← read_int32 c DATASIZE_RANGE;
    Ok (mkWireBlobHeader ty ds ix ixp un td tdp wm, c)
  else if (field =? blob_header.TAGDATA) && parse_tagdata then
    '(b, c) ← lift (read_len_delimited c); Ok (take_tagdata h b, c)
  else if (field =? blob_header.WAYMEMBERS) && parse_waymembers then
    '(b, c) ← lift (read_len_delimited c); Ok (take_waymembers h b, c)
  else skip_arm h wt c.

Definition WireBlobHeader_parse (data : bytes) (parse_tagdata parse_indexdata parse_waymembers : bool)
  : wresult WireBlobHeader :=
  h ← parse (header_step parse_tagdata parse_indexdata parse_waymembers) header_init data;
  match bh_type h with UnknownKind [] => Err (Message NO_TYPE) | _ => Ok h end.

(** ** The blob *)

Inductive BlobData := Raw (b : bytes) | Zlib (b : bytes) | Zstd (b : bytes).

Record WireBlob := mkWireBlob { wb_data : option BlobData; wb_raw_size : option Z }.

Definition is_payload (field : Z) : bool :=
  (field =? blob.RAW) || (field =? blob.ZLIB_DATA) || (field =? blob.ZSTD_DATA).

Definition payload_data (field : Z) (payload : bytes) : BlobData :=
  if field =? blob.RAW then Raw payload
  else if field =? blob.ZLIB_DATA then Zlib payload else Zstd payload.

Definition blob_step (w : WireBlob) (field wt : Z) (c : bytes) : wresult (WireBlob * bytes) :=
  if is_payload field then
    '(payload, c) ← lift (read_len_delimited c);
    match wb_data w with
    | Some _ => Err (Message TWO_PAYLOADS)
    | None => Ok (mkWireBlob (Some (payload_data field payload)) (wb_raw_size w), c)
    end
  else if field =? blob.RAW_SIZE then
    '(v, c) ← read_int32 c RAW_SIZE_RANGE; Ok (mkWireBlob (wb_data w) (Some v), c)
  else skip_arm w wt c.

Definition WireBlob_parse (input : bytes) : wresult WireBlob := parse blob_step (mkWireBlob None None) input.

(** A copy of the input, then [parse]. *)
Definition parse_slice (data : bytes) : wresult WireBlob := WireBlob_parse data.

Definition estimated_capacity (w : WireBlob) : Z :=
  Z.min (Z.max (default 0 (wb_raw_size w)) 0) MAX_BLOB_MESSAGE_SIZE.

Definition check_raw_size (declared : option Z) (actual : nat) : wresult unit :=
  match declared with
  | Some d =>
      let actual := Z.of_nat actual in
      if d =? (if actual <=? i64_max then actual else i64_max) then Ok tt
      else Err (Message RAW_SIZE_DISAGREES)
  | None => Ok tt
  end.

(** [decompress::parse_raw_envelope]: the payload field's number and bytes, and
    the declared [raw_size]. *)
Definition envelope : Type := option (Z * bytes) * option Z.

Definition envelope_step (e : envelope) (field wt : Z) (c : bytes) : wresult (envelope * bytes) :=
  let '(payload, raw_size) := e in
  if is_payload field then
    '(b, c) ← lift (read_len_delimited c);
    match payload with
    | Some _ => Err (Message TWO_PAYLOADS)
    | None => Ok ((Some (field, b), raw_size), c)
    end
  else if field =? blob.RAW_SIZE then
    '(v, c) ← read_int32 c RAW_SIZE_RANGE; Ok ((payload, Some v), c)
  else skip_arm e wt c.

Definition parse_raw_envelope (raw_blob : bytes) : wresult envelope := parse envelope_step (None, None) raw_blob.

End Wire.

(** ** The loops *)

Section Facts.
Context `{L : ProtohoggrLaws}.

Lemma read_int32_moves c msg v c' : read_int32 c msg = Ok (v, c') -> c' `suffix_of` c.
Proof.
  unfold read_int32. intros H. apply bind_ok in H as ([w c1] & Hr & H). apply lift_ok in Hr.
  apply read_varint_i64_moves in Hr. by case_match; simplify_eq.
Qed.

Lemma read_int32_encode v r msg :
  is_i32 v -> read_int32 (encode_varint (as_u64 v) ++ r) msg = Ok (v, r).
Proof.
  intros Hv. unfold read_int32. rewrite read_varint_i64_encode by width. cbn [lift mbind result_bind].
  rewrite (proj2 (Z.leb_le i32_min v)), (proj2 (Z.leb_le v i32_max)) by width. done.
Qed.

(** The field an [int32] writer leaves, read by a step that ends it. *)
Lemma parse_int32_field {St} (step : St -> Z -> Z -> bytes -> result WireError (St * bytes)) st f v r st' :
  shrinks step -> 1 <= f < 2 ^ 29 -> (v = 0 -> st' = st) ->
  (v <> 0 -> step st f WIRE_VARINT (encode_varint (as_u64 v) ++ r) = Ok (st', r)) ->
  parse step st (encode_int32_field f v ++ r) = parse step st' r.
Proof.
  intros Hs Hf H0 Hst. rewrite encode_int32_field_spec, <- encode_int64_field_spec.
  by apply (parse_int64_field _ Hs).
Qed.

Ltac envelope_arm :=
  match goal with
  | H : skip_arm _ _ _ = Ok _ |- _ => by apply skip_arm_shrinks in H
  | H : _ ≫= _ = Ok _ |- _ =>
      apply bind_ok in H as ([? ?] & H & ?);
      first [apply read_int32_moves in H|apply lift_ok, read_len_delimited_moves in H];
      repeat match goal with
             | H' : _ ≫= _ = Ok _ |- _ => apply bind_ok in H' as (? & _ & ?)
             | H' : match ?o with _ => _ end = Ok _ |- _ => destruct o
             end; by simplify_eq
  end.

Lemma header_shrinks pt pi pw : shrinks (header_step pt pi pw).
Proof. intros [] f w c st' c' H. unfold header_step in H. repeat case_match; try done; envelope_arm. Qed.

Lemma blob_shrinks : shrinks blob_step.
Proof. intros st f w c st' c' H. unfold blob_step in H. repeat case_match; try done; envelope_arm. Qed.

Lemma envelope_shrinks : shrinks envelope_step.
Proof. intros [] f w c st' c' H. unfold envelope_step in H. repeat case_match; try done; envelope_arm. Qed.

End Facts.
