(* ===== verification/BlobDecode.v ===== *)
(** * Blob decompression (src/src/read/decompress.rs)

    The bounded inflate loops, the buffer pool and the entry points that turn a
    [Blob] into its content.  A buffer is its bytes and its capacity, since the
    inflate step fills a buffer to its capacity.  The loops' fuel is the input
    left plus the output budget left, and each turn uses at least one of either
    ([zlib_loop_exact]). *)

From S2P Require Import Prelude Proto Wire BlobWire Codec.

Record Vec := mkVec { vdata : bytes; vcap : Z }.

Definition DECOMPRESS_POOL_MAX_RETAINED_CAPACITY : Z := 16 * 1024 * 1024.
Definition DECOMPRESS_POOL_MAX_RETAINED_BYTES : Z := 256 * 1024 * 1024.
Definition DECOMPRESS_POOL_MAX_BUFFERS : Z := 64.
Definition DECOMPRESS_EXPANSION_GUESS : Z := 4.

(** ** The buffer pool *)

Record IdleBuffers := mkIdle { buffers : list Vec; retained_bytes : Z }.

Record PoolMetrics := mkPoolMetrics {
  oversize_drops : Z; oversize_bytes : Z; full_drops : Z; full_bytes : Z;
  poisoned_drops : Z; poisoned_bytes : Z }.

(** [poisoned]: a thread panicked holding the lock. *)
Record DecompressPool := mkPool { idle : IdleBuffers; poisoned : bool; metrics : PoolMetrics }.

Definition pool_new : DecompressPool := mkPool (mkIdle [] 0) false (mkPoolMetrics 0 0 0 0 0 0).

(** [DecompressPool::get]: [buffers] is a stack, its top first. *)
Definition get (p : DecompressPool) : Vec * DecompressPool :=
  if poisoned p then (mkVec [] 0, p)
  else match buffers (idle p) with
       | [] => (mkVec [] 0, p)
       | b :: bufs => (b, mkPool (mkIdle bufs (retained_bytes (idle p) - vcap b)) (poisoned p) (metrics p))
       end.

Definition rejects_oversize (capacity : Z) (m : PoolMetrics) : bool * PoolMetrics :=
  if DECOMPRESS_POOL_MAX_RETAINED_CAPACITY <? capacity then
    (true, mkPoolMetrics (oversize_drops m + 1) (oversize_bytes m + capacity) (full_drops m) (full_bytes m)
             (poisoned_drops m) (poisoned_bytes m))
  else (false, m).

Definition put (p : DecompressPool) (buf : Vec) : DecompressPool :=
  let capacity := vcap buf in
  let '(rejected, m) := rejects_oversize capacity (metrics p) in
  if rejected then mkPool (idle p) (poisoned p) m
  else if poisoned p then
    mkPool (idle p) (poisoned p)
      (mkPoolMetrics (oversize_drops m) (oversize_bytes m) (full_drops m) (full_bytes m)
         (poisoned_drops m + 1) (poisoned_bytes m + capacity))
  else if (Z.of_nat (length (buffers (idle p))) <? DECOMPRESS_POOL_MAX_BUFFERS)
       && (retained_bytes (idle p) + capacity <=? DECOMPRESS_POOL_MAX_RETAINED_BYTES) then
    mkPool (mkIdle (mkVec [] capacity :: buffers (idle p)) (retained_bytes (idle p) + capacity)) (poisoned p) m
  else
    mkPool (idle p) (poisoned p)
      (mkPoolMetrics (oversize_drops m) (oversize_bytes m) (full_drops m + 1) (full_bytes m + capacity)
         (poisoned_drops m) (poisoned_bytes m)).

Definition release_decode_outlier (buf : Vec) (m : PoolMetrics) : Vec * PoolMetrics :=
  let '(rejected, m) := rejects_oversize (vcap buf) m in
  (if rejected then mkVec [] 0 else buf, m).

Definition clamp_capacity_hint (hint : Z) : Z := Z.min hint MAX_BLOB_MESSAGE_SIZE.

Section Decode.
Context {P : Protohoggr} {C : Codec} {A : Allocator}.

Inductive DecodeError :=
| WireFault (e : WireError)
| MessageTooBig (size : Z)
| BlobEmpty
| ZlibFault (e : codec_error)
| ZlibTruncated
| ZstdFault (e : codec_error)
| OffsetOverflow
| SlicePanic
| LoopFuel.

Abbreviation dresult := (result DecodeError).

Definition wired {B} (r : result WireError B) : dresult B :=
  match r with Ok b => Ok b | Err e => Err (WireFault e) end.

Definition clear (v : Vec) : Vec := mkVec [] (vcap v).
Definition reserve (v : Vec) (more : Z) : Vec := mkVec (vdata v) (reserve_exact (vcap v) (blen (vdata v)) more).
Definition extend (v : Vec) (b : bytes) : Vec :=
  mkVec (vdata v ++ b) (reserve_amortized (vcap v) (blen (vdata v)) (blen b)).

(** [pool_get]: a pooled buffer, or a fresh one. *)
Definition pool_get (pool : option DecompressPool) (capacity : Z) : Vec * option DecompressPool :=
  match pool with
  | Some p => let '(buf, p) := get p in (reserve buf capacity, Some p)
  | None => (reserve (mkVec [] 0) capacity, None)
  end.

(** ** Bounded inflation *)

Definition zstd_decompress_into (compressed : bytes) (buf : Vec) : dresult Vec :=
  let limit := MAX_BLOB_MESSAGE_SIZE + 1 in
  match zstd_read compressed limit with
  | Err e => Err (ZstdFault e)
  | Ok out =>
      let buf := extend buf out in
      if MAX_BLOB_MESSAGE_SIZE <? blen out then Err (MessageTooBig (blen out)) else Ok buf
  end.

Definition zlib_size_within_cap (start end_ : Z) : dresult unit :=
  let size := end_ - start in
  if MAX_BLOB_MESSAGE_SIZE <? size then Err (MessageTooBig size) else Ok tt.

(** [buf[pos..]] overwritten by [p]. *)
Definition write_at (buf : bytes) (pos : Z) (p : bytes) : bytes :=
  take (Z.to_nat pos) buf ++ p ++ drop (Z.to_nat (pos + blen p)) buf.

Fixpoint slice_loop (fuel : nat) (st : Inflate) (input buf : bytes) (pos limit : Z)
  : bytes * Z * dresult unit :=
  match fuel with
  | O => (buf, pos, Err LoopFuel)
  | S fuel =>
      if limit <=? pos then (buf, pos, Err (MessageTooBig (MAX_BLOB_MESSAGE_SIZE + 1)))
      else match inflate st input (limit - pos) with
           | Err e => (buf, pos, Err (ZlibFault e))
           | Ok (st, consumed, produced, ended) =>
               let buf := write_at buf pos produced in
               let pos := pos + blen produced in
               if blen input <? consumed then (buf, pos, Err SlicePanic)
               else
                 let input := drop (Z.to_nat consumed) input in
                 if ended then (buf, pos, Ok tt)
                 else if (consumed =? 0) && (blen produced =? 0) then (buf, pos, Err ZlibTruncated)
                 else slice_loop fuel st input buf pos limit
           end
  end.

Definition zlib_inflate_into_slice (st : Inflate) (input buf : bytes) (pos limit : Z)
  : bytes * Z * dresult unit :=
  let buf := buf ++ replicate (Z.to_nat (limit - blen buf)) 0 in
  slice_loop (S (length input + Z.to_nat (limit - pos))) st input buf pos limit.

Fixpoint zlib_loop (fuel : nat) (st : Inflate) (input : bytes) (buf : Vec) (start limit : Z) : dresult Vec :=
  match fuel with
  | O => Err LoopFuel
  | S fuel =>
      let len := blen (vdata buf) in
      if limit <=? len then Err (MessageTooBig (MAX_BLOB_MESSAGE_SIZE + 1))
      else
        let buf := if len =? vcap buf then reserve buf (Z.min (Z.max (vcap buf) 4096) (limit - len)) else buf in
        if limit <? vcap buf then
          let '(data, pos, r) := zlib_inflate_into_slice st input (vdata buf) len limit in
          let data := take (Z.to_nat pos) data in
          _ ← r; _ ← zlib_size_within_cap start pos; Ok (mkVec data (vcap buf))
        else
          match inflate st input (vcap buf - len) with
          | Err e => Err (ZlibFault e)
          | Ok (st, consumed, produced, ended) =>
              let buf := mkVec (vdata buf ++ produced) (vcap buf) in
              if blen input <? consumed then Err SlicePanic
              else
                let input := drop (Z.to_nat consumed) input in
                if ended then _ ← zlib_size_within_cap start (blen (vdata buf)); Ok buf
                else if (consumed =? 0) && (blen (vdata buf) =? len) then Err ZlibTruncated
                else zlib_loop fuel st input buf start limit
          end
  end.

Definition zlib_decompress_into (compressed : bytes) (buf : Vec) : dresult Vec :=
  let budget := MAX_BLOB_MESSAGE_SIZE + 1 in
  let start := blen (vdata buf) in
  let limit := start + budget in
  if u64_max <? limit then Err OffsetOverflow
  else zlib_loop (S (length compressed + Z.to_nat budget)) inflate_reset compressed buf start limit.

(** ** Entry points *)

Definition raw_into (b : bytes) (buf : Vec) : dresult Vec :=
  if MAX_BLOB_MESSAGE_SIZE <? blen b then Err (MessageTooBig (blen b))
  else Ok (extend (reserve buf (blen b)) b).

Definition reserve_hint (buf : Vec) (cap : Z) : Vec := if 0 <? cap then reserve buf cap else buf.

Definition decompress_parsed_blob_body (b : WireBlob) (buf : Vec) : dresult Vec :=
  let buf := clear buf in
  match wb_data b with
  | Some (Raw d) => raw_into d buf
  | Some (Zlib d) => zlib_decompress_into d (reserve_hint buf (estimated_capacity b))
  | Some (Zstd d) => zstd_decompress_into d (reserve_hint buf (estimated_capacity b))
  | None => Err BlobEmpty
  end.

Definition decompress_parsed_blob_into (b : WireBlob) (buf : Vec) : dresult Vec :=
  buf ← decompress_parsed_blob_body b buf;
  _ ← wired (check_raw_size (wb_raw_size b) (length (vdata buf)));
  Ok buf.

Definition decompress_blob_data_into (blob_bytes : bytes) (buf : Vec) : dresult Vec :=
  b ← wired (parse_slice blob_bytes); decompress_parsed_blob_into b buf.

Definition decompress_blob_raw (raw_blob : bytes) (buf : Vec) : dresult Vec :=
  let buf := clear buf in
  '(payload, raw_size) ← wired (parse_raw_envelope raw_blob);
  match payload with
  | None => Err BlobEmpty
  | Some (field, d) =>
      buf ← (if field =? blob.RAW then raw_into d buf
             else
               let buf := match raw_size with
                          | Some rs => if 0 <? rs then reserve buf (clamp_capacity_hint rs) else buf
                          | None => buf
                          end in
               if field =? blob.ZLIB_DATA then zlib_decompress_into d buf else zstd_decompress_into d buf);
      _ ← wired (check_raw_size raw_size (length (vdata buf)));
      Ok buf
  end.

Definition raw_blob_payload (raw_blob : bytes) : result WireError (option (Z * bytes)) :=
  match parse_raw_envelope raw_blob with
  | Ok (Some (field, d), _) =>
      Ok (Some (if field =? blob.RAW then 0 else if field =? blob.ZLIB_DATA then 1 else 2, d))
  | Ok (None, _) => Ok None
  | Err e => Err e
  end.

(** The content and the pool the buffer came from; the buffer goes back to the
    pool when the content is dropped ([put]). *)
Definition decompress_blob_body (b : WireBlob) (pool : option DecompressPool)
  : dresult (bytes * option DecompressPool) :=
  let capacity (d : bytes) :=
    let est := estimated_capacity b in
    if 0 <? est then est
    else clamp_capacity_hint (Z.min (blen d * DECOMPRESS_EXPANSION_GUESS) u64_max) in
  match wb_data b with
  | Some (Raw d) =>
      if MAX_BLOB_MESSAGE_SIZE <? blen d then Err (MessageTooBig (blen d)) else Ok (d, pool)
  | Some (Zlib d) =>
      let '(buf, pool) := pool_get pool (capacity d) in
      buf ← zlib_decompress_into d buf; Ok (vdata buf, pool)
  | Some (Zstd d) =>
      let '(buf, pool) := pool_get pool (capacity d) in
      buf ← zstd_decompress_into d buf; Ok (vdata buf, pool)
  | None => Err BlobEmpty
  end.

Definition decompress_blob (b : WireBlob) (pool : option DecompressPool)
  : dresult (bytes * option DecompressPool) :=
  '(decoded, pool) ← decompress_blob_body b pool;
  _ ← wired (check_raw_size (wb_raw_size b) (length decoded));
  Ok (decoded, pool).

Definition decompress_wire_blob_into (b : WireBlob) (buf : Vec) : dresult Vec :=
  let buf := clear buf in
  buf ← match wb_data b with
        | Some (Raw d) => raw_into d buf
        | Some (Zlib d) => zlib_decompress_into d (reserve_hint buf (estimated_capacity b))
        | Some (Zstd d) => zstd_decompress_into d (reserve_hint buf (estimated_capacity b))
        | None => Err BlobEmpty
        end;
  _ ← wired (check_raw_size (wb_raw_size b) (length (vdata buf)));
  Ok buf.

End Decode.

(** ** The loops decode exactly the stream's content *)

Section Exact.
Context {P : Protohoggr} `{CL : CodecLaws} `{AL : AllocatorLaws}.

(** What inflating [input] from [st] into [budget] bytes of room must give:
    the content when it ends below the budget, the size refusal when it does
    not, and an error of the stream when it cannot be completed. *)
Definition decided (st : Inflate) (input : bytes) (budget : Z) (r : result DecodeError bytes) : Prop :=
  match inflated st input with
  | Some out => r = if blen out <? budget then Ok out else Err (MessageTooBig (MAX_BLOB_MESSAGE_SIZE + 1))
  | None => exists e, r = Err e /\ e <> LoopFuel /\ e <> SlicePanic
  end.

Lemma decided_more st st' input input' p budget r :
  inflated st input = app p <$> inflated st' input' ->
  decided st' input' (budget - blen p) r -> decided st input budget (app p <$> r).
Proof.
  unfold decided. intros ->. destruct (inflated st' input') as [out|]; cbn [fmap option_fmap option_map].
  - intros ->. rewrite blen_app. replace (blen p + blen out <? budget) with (blen out <? budget - blen p) by lia.
    by destruct (_ <? _).
  - intros (e & -> & He). by exists e.
Qed.

Lemma decided_error st input budget e :
  inflated st input = None -> e <> LoopFuel -> e <> SlicePanic -> decided st input budget (Err e).
Proof. unfold decided. intros ->. eauto. Qed.

Lemma decided_full st input budget :
  budget <= 0 -> decided st input budget (Err (MessageTooBig (MAX_BLOB_MESSAGE_SIZE + 1))).
Proof.
  unfold decided. intros Hb. destruct (inflated st input) as [out|]; [|by eexists].
  by rewrite (proj2 (Z.ltb_ge _ _)) by (pose proof (blen_nonneg out); lia).
Qed.

Lemma fmap_app_assoc (a b : bytes) (r : result (@DecodeError P _) bytes) :
  app a <$> (app b <$> r) = app (a ++ b) <$> r.
Proof. destruct r; simpl; [by rewrite app_assoc|done]. Qed.

Lemma write_at_len buf pos p :
  0 <= pos -> pos + blen p <= blen buf -> blen (write_at buf pos p) = blen buf.
Proof.
  intros. unfold write_at, blen in *. rewrite !length_app, length_take, length_drop. lia.
Qed.

Lemma write_at_take buf pos p :
  0 <= pos -> pos + blen p <= blen buf ->
  take (Z.to_nat (pos + blen p)) (write_at buf pos p) = take (Z.to_nat pos) buf ++ p.
Proof.
  intros. unfold write_at, blen in *. rewrite app_assoc, take_app_length'; [done|].
  rewrite length_app, length_take. lia.
Qed.

(** [buf.truncate(pos); result?; return zlib_size_within_cap(start, pos)] *)
Definition slice_result (start : Z) (s : bytes * Z * result DecodeError unit) : result DecodeError bytes :=
  let '(data, pos, r) := s in
  _ ← r; _ ← zlib_size_within_cap start pos; Ok (take (Z.to_nat pos) data).

Lemma sized_within start limit len p st input :
  limit = start + MAX_BLOB_MESSAGE_SIZE + 1 -> len + blen p <= limit -> inflated st input = Some p ->
  decided st input (limit - len)
    (match zlib_size_within_cap start (len + blen p) with Ok _ => Ok p | Err e => Err e end).
Proof.
  unfold decided. intros -> Hp ->. unfold zlib_size_within_cap.
  destruct (Z.ltb_spec MAX_BLOB_MESSAGE_SIZE (len + blen p - start)), (Z.ltb_spec (blen p) (start + MAX_BLOB_MESSAGE_SIZE + 1 - len));
    try lia; [|done]. do 2 f_equal. lia.
Qed.

Lemma progress_turn (n : Z) (p : bytes) : 0 <= n -> (n =? 0) && (blen p =? 0) = false -> 0 < n \/ p <> [].
Proof. destruct p; [|by right]. intros Hn H. left. change (blen [] =? 0) with true in H. lia. Qed.

Lemma stuck_turn (n : Z) (p : bytes) : (n =? 0) && (blen p =? 0) = true -> n = 0 /\ p = [].
Proof.
  intros [->%Z.eqb_eq Hp%Z.eqb_eq]%andb_prop. split; [done|]. apply nil_length_inv. unfold blen in Hp. lia.
Qed.

Lemma slice_loop_exact fuel : forall st input buf pos limit start,
  blen input + (limit - pos) < Z.of_nat fuel -> 0 <= pos <= limit -> blen buf = limit ->
  limit = start + MAX_BLOB_MESSAGE_SIZE + 1 ->
  exists r, decided st input (limit - pos) r /\
    slice_result start (slice_loop fuel st input buf pos limit) = app (take (Z.to_nat pos) buf) <$> r.
Proof.
  induction fuel as [|fuel IH]; intros st input buf pos limit start Hf Hpos Hbuf Hlim.
  { pose proof (blen_nonneg input). lia. }
  cbn [slice_loop]. destruct (Z.leb_spec limit pos).
  { eexists. split; [apply decided_full; lia|done]. }
  destruct (inflate st input (limit - pos)) as [[[[st' n] p] ended]|e] eqn:Hi; cbn zeta.
  2: { exists (Err (ZlibFault e)). split; [|done]. by apply decided_error; [eapply inflate_refused|..]. }
  destruct (inflate_bounds st input (limit - pos) st' n p ended ltac:(lia) Hi) as [Hn Hp].
  destruct (Z.ltb_spec (blen input) n); [lia|]. destruct ended.
  { eexists. split; [eapply (sized_within start); [done| |by eapply inflate_end]; lia|].
    cbn [slice_result mbind result_bind]. rewrite write_at_take by lia. by destruct (zlib_size_within_cap _ _). }
  destruct ((n =? 0) && (blen p =? 0)) eqn:Hstuck.
  { apply stuck_turn in Hstuck as [-> ->].
    exists (Err ZlibTruncated). split; [|done]. apply decided_error; [|done..]. eapply inflate_stuck; [|exact Hi]. lia. }
  apply progress_turn in Hstuck; [|lia].
  destruct (IH st' (drop (Z.to_nat n) input) (write_at buf pos p) (pos + blen p) limit start) as (r & Hr & Hres).
  - unfold blen in *. rewrite length_drop. assert (Z.of_nat (length input - Z.to_nat n) = Z.of_nat (length input) - n) by lia.
    destruct Hstuck as [|Hne]; [lia|]. destruct p; [done|cbn [length] in *; lia].
  - pose proof (blen_nonneg p). lia.
  - rewrite write_at_len; lia.
  - done.
  - exists (app p <$> r). rewrite Hres, write_at_take, fmap_app_assoc by lia. split; [|done].
    eapply decided_more; [by eapply inflate_more|]. by replace (limit - pos - blen p) with (limit - (pos + blen p)) by lia.
Qed.

Lemma slice_exact st input buf limit start :
  blen buf <= limit -> limit = start + MAX_BLOB_MESSAGE_SIZE + 1 ->
  exists r, decided st input (limit - blen buf) r /\
    slice_result start (zlib_inflate_into_slice st input buf (blen buf) limit) = app buf <$> r.
Proof.
  intros Hb Hlim. pose proof (blen_nonneg buf). unfold zlib_inflate_into_slice.
  edestruct (slice_loop_exact (S (length input + Z.to_nat (limit - blen buf)))) as (r & Hr & Hres); last first.
  - exists r. split; [exact Hr|]. rewrite Hres. unfold blen. by rewrite Nat2Z.id, take_app_length.
  - done.
  - rewrite blen_app. unfold blen at 2. rewrite length_replicate. lia.
  - lia.
  - unfold blen in *. lia.
Qed.

Definition vec_wf (v : Vec) : Prop := blen (vdata v) <= vcap v.

Lemma reserve_wf v more : vec_wf v -> vec_wf (reserve v more).
Proof. unfold vec_wf, reserve. cbn. pose proof (reserve_keeps (vcap v) (blen (vdata v)) more). lia. Qed.

(** The buffer a turn inflates into: the same bytes, with room. *)
Lemma grown v limit :
  vec_wf v -> blen (vdata v) < limit ->
  let len := blen (vdata v) in
  let v' := if len =? vcap v then reserve v (Z.min (Z.max (vcap v) 4096) (limit - len)) else v in
  vdata v' = vdata v /\ len < vcap v'.
Proof.
  intros Hw Hl. unfold vec_wf in Hw. cbn zeta.
  destruct (Z.eqb_spec (blen (vdata v)) (vcap v)); [|split; [done|lia]]. split; [done|].
  pose proof (reserve_enough (vcap v) (blen (vdata v)) (Z.min (Z.max (vcap v) 4096) (limit - blen (vdata v)))).
  unfold reserve. cbn [vcap]. lia.
Qed.

Lemma zlib_loop_exact fuel : forall st input buf limit start,
  blen input + (limit - blen (vdata buf)) < Z.of_nat fuel -> blen (vdata buf) <= limit -> vec_wf buf ->
  limit = start + MAX_BLOB_MESSAGE_SIZE + 1 ->
  exists r, decided st input (limit - blen (vdata buf)) r /\
    vdata <$> zlib_loop fuel st input buf start limit = app (vdata buf) <$> r.
Proof.
  induction fuel as [|fuel IH]; intros st input buf limit start Hf Hl Hw Hlim.
  { pose proof (blen_nonneg input). lia. }
  cbn [zlib_loop]. destruct (Z.leb_spec limit (blen (vdata buf))).
  { eexists. split; [apply decided_full; lia|done]. }
  destruct (grown buf limit Hw) as [Hd Hroom]; [done|]. cbn zeta in *.
  set (v := if _ =? _ then _ else _) in *. clearbody v. rewrite <- Hd in *. clear buf Hd Hw.
  destruct (Z.ltb_spec limit (vcap v)).
  { destruct (slice_exact st input (vdata v) limit start) as (r & Hr & Hres); [lia|done|]. exists r. split; [done|].
    destruct (zlib_inflate_into_slice _ _ _ _ _) as [[data pos] q]. cbn [slice_result] in Hres.
    rewrite <- Hres. destruct q; [|done]. cbn [mbind result_bind]. by destruct (zlib_size_within_cap _ _). }
  destruct (inflate st input (vcap v - blen (vdata v))) as [[[[st' n] p] ended]|e] eqn:Hi; cbn zeta.
  2: { exists (Err (ZlibFault e)). split; [|done]. by apply decided_error; [eapply inflate_refused|..]. }
  destruct (inflate_bounds st input (vcap v - blen (vdata v)) st' n p ended ltac:(lia) Hi) as [Hn Hp].
  cbn [vdata]. rewrite blen_app. destruct (Z.ltb_spec (blen input) n); [lia|]. destruct ended.
  { eexists. split; [eapply (sized_within start); [done| |by eapply inflate_end]; lia|].
    by destruct (zlib_size_within_cap _ _). }
  replace (blen (vdata v) + blen p =? blen (vdata v)) with (blen p =? 0) by lia.
  destruct ((n =? 0) && (blen p =? 0)) eqn:Hstuck.
  { apply stuck_turn in Hstuck as [-> ->]. exists (Err ZlibTruncated). split; [|done].
    apply decided_error; [|done..]. eapply inflate_stuck; [|exact Hi]. lia. }
  apply progress_turn in Hstuck; [|lia].
  destruct (IH st' (drop (Z.to_nat n) input) (mkVec (vdata v ++ p) (vcap v)) limit start) as (r & Hr & Hres).
  - cbn [vdata]. rewrite blen_app. unfold blen in *. rewrite length_drop.
    assert (Z.of_nat (length input - Z.to_nat n) = Z.of_nat (length input) - n) by lia.
    destruct Hstuck as [|Hne]; [lia|]. destruct p; [done|cbn [length] in *; lia].
  - cbn [vdata]. rewrite blen_app. lia.
  - unfold vec_wf. cbn. rewrite blen_app. lia.
  - done.
  - exists (app p <$> r). cbn [vdata] in *. rewrite Hres, fmap_app_assoc. split; [|done].
    eapply decided_more; [by eapply inflate_more|]. rewrite blen_app in Hr.
    by replace (limit - blen (vdata v) - blen p) with (limit - (blen (vdata v) + blen p)) by lia.
Qed.

(** What a compressed payload stands for. *)
Definition zlib_content (d : bytes) : option bytes :=
  out ← inflated inflate_reset d; if blen out <=? MAX_BLOB_MESSAGE_SIZE then Some out else None.

Definition ok_part {E B} (r : result E B) : option B := match r with Ok b => Some b | Err _ => None end.

Lemma decided_ok_part d r :
  decided inflate_reset d (MAX_BLOB_MESSAGE_SIZE + 1) r -> ok_part r = zlib_content d.
Proof.
  unfold decided, zlib_content. destruct (inflated inflate_reset d) as [out|]; [|by intros (e & -> & _)].
  intros ->. replace (blen out <? MAX_BLOB_MESSAGE_SIZE + 1) with (blen out <=? MAX_BLOB_MESSAGE_SIZE) by lia.
  obind. by destruct (_ <=? _).
Qed.

Lemma zlib_exact (d : bytes) (buf : Vec) :
  vdata buf = [] -> 0 <= vcap buf ->
  exists r, decided inflate_reset d (MAX_BLOB_MESSAGE_SIZE + 1) r /\ vdata <$> zlib_decompress_into d buf = r.
Proof.
  destruct buf as [data cap]. cbn [vdata vcap]. intros -> Hcap. unfold zlib_decompress_into. cbn [vdata].
  change (blen []) with 0. destruct (Z.ltb_spec u64_max (0 + (MAX_BLOB_MESSAGE_SIZE + 1))) as [Hx|_].
  { unfold u64_max, MAX_BLOB_MESSAGE_SIZE in Hx. lia. }
  edestruct (zlib_loop_exact (S (length d + Z.to_nat (MAX_BLOB_MESSAGE_SIZE + 1))) inflate_reset d (mkVec [] cap))
    as (r & Hr & Hres); last first.
  - exists r. cbn [vdata] in *. change (blen []) with 0 in *. split; [|rewrite Hres; by destruct r].
    exact Hr.
  - lia.
  - exact Hcap.
  - cbn. change (blen []) with 0. unfold MAX_BLOB_MESSAGE_SIZE. lia.
  - cbn [vdata]. change (blen []) with 0. unfold blen, MAX_BLOB_MESSAGE_SIZE. lia.
Qed.

End Exact.

(** ** The entry points agree *)

Section Agree.
Context {P : Protohoggr} `{CL : CodecLaws} `{AL : AllocatorLaws}.

Definition within_cap (out : bytes) : option bytes :=
  if blen out <=? MAX_BLOB_MESSAGE_SIZE then Some out else None.

Definition zstd_content (d : bytes) : option bytes :=
  match zstd_read d (MAX_BLOB_MESSAGE_SIZE + 1) with Ok out => within_cap out | Err _ => None end.

(** The content of a parsed blob, by its encoding. *)
Definition body_content (b : WireBlob) : option bytes :=
  match wb_data b with
  | Some (Raw d) => within_cap d
  | Some (Zlib d) => zlib_content d
  | Some (Zstd d) => zstd_content d
  | None => None
  end.

Definition blob_content (b : WireBlob) : option bytes :=
  out ← body_content b; _ ← ok_part (check_raw_size (wb_raw_size b) (length out)); Some out.

Definition content_of (raw : bytes) : option bytes := b ← ok_part (WireBlob_parse raw); blob_content b.

Definition decoded {E} (r : result E Vec) : option bytes := vdata <$> ok_part r.

Definition fresh (v : Vec) : Prop := vdata v = [] /\ 0 <= vcap v.

Lemma fresh_reserve v more : fresh v -> fresh (reserve v more).
Proof. intros [Hd Hc]. split; [done|]. cbn. pose proof (reserve_keeps (vcap v) (blen (vdata v)) more). lia. Qed.

Lemma fresh_hint v cap : fresh v -> fresh (reserve_hint v cap).
Proof. unfold reserve_hint. case_match; auto using fresh_reserve. Qed.

Lemma fresh_clear v : 0 <= vcap v -> fresh (clear v).
Proof. by split. Qed.

Lemma zlib_decoded d buf : fresh buf -> decoded (zlib_decompress_into d buf) = zlib_content d.
Proof.
  intros [Hd Hc]. destruct (zlib_exact d buf Hd Hc) as (r & Hr & Hres). apply decided_ok_part in Hr.
  rewrite <- Hr, <- Hres. unfold decoded. by destruct (zlib_decompress_into d buf).
Qed.

Lemma zstd_decoded_buf d buf : fresh buf -> decoded (zstd_decompress_into d buf) = zstd_content d.
Proof.
  intros [Hd _]. unfold zstd_decompress_into, zstd_content, within_cap. destruct (zstd_read d _) as [out|]; [|done].
  rewrite Z.ltb_antisym. destruct (_ <=? _); [|done]. unfold decoded, extend. cbn. by rewrite Hd.
Qed.

Lemma raw_decoded d buf : fresh buf -> decoded (raw_into d buf) = within_cap d.
Proof.
  intros [Hd _]. unfold raw_into, within_cap. rewrite Z.ltb_antisym. destruct (_ <=? _); [|done].
  unfold decoded, extend. cbn. by rewrite Hd.
Qed.

(** Every body decoder ends with the same [raw_size] check. *)
Lemma decoded_checked (r : result DecodeError Vec) (rs : option Z) :
  decoded (buf ← r; _ ← wired (check_raw_size rs (length (vdata buf))); Ok buf) =
    (out ← decoded r; _ ← ok_part (check_raw_size rs (length out)); Some out).
Proof.
  destruct r as [v|e]; [|done]. unfold decoded. cbn [mbind result_bind ok_part fmap option_fmap option_map option_bind].
  by destruct (check_raw_size _ _).
Qed.

Hint Resolve fresh_hint fresh_clear : core.

Lemma wire_blob_into_decoded b buf : 0 <= vcap buf -> decoded (decompress_wire_blob_into b buf) = blob_content b.
Proof.
  intros Hb. unfold decompress_wire_blob_into, blob_content, body_content. rewrite decoded_checked.
  destruct (wb_data b) as [[d|d|d]|]; [rewrite raw_decoded|rewrite zlib_decoded|rewrite zstd_decoded_buf|]; auto.
Qed.

Lemma parsed_blob_into_decoded b buf :
  decompress_parsed_blob_into b buf = decompress_wire_blob_into b buf.
Proof. done. Qed.

Lemma blob_data_into_decoded raw buf : 0 <= vcap buf -> decoded (decompress_blob_data_into raw buf) = content_of raw.
Proof.
  intros Hb. unfold decompress_blob_data_into, content_of, parse_slice.
  destruct (WireBlob_parse raw) as [b|e]; [|done]. cbn [wired mbind result_bind ok_part option_bind].
  by rewrite parsed_blob_into_decoded, wire_blob_into_decoded.
Qed.

(** The two [Blob] parsers are one: a step of the one is the image of a step of
    the other. *)
Definition blob_of (e : envelope) : WireBlob :=
  mkWireBlob ((fun '(field, d) => payload_data field d) <$> e.1) e.2.

Lemma parse_image {X Y} (sa : X -> Z -> Z -> bytes -> result WireError (X * bytes))
    (sb : Y -> Z -> Z -> bytes -> result WireError (Y * bytes)) (f : X -> Y) a data :
  (forall a fd wt c, sb (f a) fd wt c = prod_map f id <$> sa a fd wt c) ->
  parse sb (f a) data = f <$> parse sa a data.
Proof.
  intros Hstep. unfold parse. generalize (length data) as n. intros n. revert a data.
  induction n as [|n IH]; intros a c; cbn [fields].
  all: destruct (read_tag c) as [[[[fd wt]|] c1]|e]; try done.
  rewrite Hstep. destruct (sa a fd wt c1) as [[a' c2]|e]; [|done]. cbn. apply IH.
Qed.

Lemma envelope_is_blob raw : WireBlob_parse raw = blob_of <$> parse_raw_envelope raw.
Proof.
  unfold WireBlob_parse, parse_raw_envelope. change (mkWireBlob None None) with (blob_of (None, None)).
  apply parse_image. intros [payload rs] fd wt c. unfold blob_step, envelope_step. destruct (is_payload fd).
  - destruct (read_len_delimited c) as [[d c1]|e]; [|done]. cbn. by destruct payload.
  - destruct (fd =? blob.RAW_SIZE); [by destruct (read_int32 c _) as [[]|]|].
    unfold skip_arm. by destruct (skip_field wt c).
Qed.

Lemma raw_blob_decoded raw buf : 0 <= vcap buf -> decoded (decompress_blob_raw raw buf) = content_of raw.
Proof.
  intros Hb. unfold decompress_blob_raw, content_of. rewrite envelope_is_blob.
  destruct (parse_raw_envelope raw) as [[[[field d]|] rs]|e]; [|done..].
  cbn [wired mbind result_bind fmap result_fmap ok_part option_bind]. rewrite decoded_checked.
  unfold blob_content, body_content, blob_of. cbn [wb_data wb_raw_size fst snd fmap option_fmap option_map].
  unfold payload_data. destruct (field =? blob.RAW); [by rewrite raw_decoded by auto|].
  set (v := match rs with Some _ => _ | None => _ end).
  assert (fresh v) as Hv.
  { subst v. destruct rs as [z|]; [|auto]. case_match; auto using fresh_reserve. }
  destruct (field =? blob.ZLIB_DATA); [by rewrite zlib_decoded|by rewrite zstd_decoded_buf].
Qed.

(** ** The pool *)

Definition pool_wf (p : DecompressPool) : Prop :=
  let bufs := buffers (idle p) in
  Forall (fun v => vdata v = [] /\ 0 <= vcap v <= DECOMPRESS_POOL_MAX_RETAINED_CAPACITY) bufs /\
  retained_bytes (idle p) = foldr (fun v acc => vcap v + acc) 0 bufs /\
  retained_bytes (idle p) <= DECOMPRESS_POOL_MAX_RETAINED_BYTES /\
  Z.of_nat (length bufs) <= DECOMPRESS_POOL_MAX_BUFFERS.

Lemma pool_new_wf : pool_wf pool_new.
Proof. split; [constructor|]. unfold DECOMPRESS_POOL_MAX_RETAINED_BYTES, DECOMPRESS_POOL_MAX_BUFFERS. cbn. lia. Qed.

Lemma get_wf p : pool_wf p -> pool_wf (get p).2 /\ fresh (get p).1.
Proof.
  intros (HF & Hr & Hmax & Hn). unfold get. destruct (poisoned p); [by split|].
  destruct (buffers (idle p)) as [|b bufs] eqn:Hb.
  { split; [|done]. unfold pool_wf. cbn [snd]. by rewrite Hb. }
  apply Forall_cons in HF as [[Hd Hc] HF]. cbn in Hr, Hn. split; [|split; cbn [fst]; [done|lia]].
  unfold pool_wf. cbn [snd idle buffers retained_bytes]. repeat split; [done|lia|lia|lia].
Qed.

Lemma put_wf p buf : pool_wf p -> 0 <= vcap buf -> pool_wf (put p buf).
Proof.
  intros Hp Hc. unfold put, rejects_oversize. destruct (Z.ltb_spec DECOMPRESS_POOL_MAX_RETAINED_CAPACITY (vcap buf)); [done|].
  destruct (poisoned p); [done|]. destruct (_ && _) eqn:Hfits; [|done]. apply andb_prop in Hfits as [Hn Hmax].
  destruct Hp as (HF & Hr & _ & _). unfold pool_wf. cbn [idle buffers retained_bytes foldr length].
  split; [by constructor|]. split; [simpl; lia|]. lia.
Qed.

Lemma pool_get_fresh pool capacity :
  (forall p, pool = Some p -> pool_wf p) -> fresh (pool_get pool capacity).1.
Proof.
  intros Hp. unfold pool_get. destruct pool as [p|]; [|by apply fresh_reserve].
  destruct (get_wf p (Hp p eq_refl)) as [_ Hf]. destruct (get p). by apply fresh_reserve.
Qed.

Lemma blob_decoded b pool :
  (forall p, pool = Some p -> pool_wf p) -> fst <$> ok_part (decompress_blob b pool) = blob_content b.
Proof.
  intros Hp. unfold decompress_blob, decompress_blob_body, blob_content, body_content.
  destruct (wb_data b) as [[d|d|d]|]; [|set (cap := if 0 <? _ then _ else _)..|done].
  - unfold within_cap. rewrite Z.ltb_antisym. destruct (_ <=? _); [|done]. cbn. by destruct (check_raw_size _ _).
  - pose proof (pool_get_fresh pool cap Hp) as Hf. destruct (pool_get pool cap) as [v pool'].
    rewrite <- (zlib_decoded d v Hf). destruct (zlib_decompress_into d v) as [out|e]; [|done].
    cbn. by destruct (check_raw_size _ _).
  - pose proof (pool_get_fresh pool cap Hp) as Hf. destruct (pool_get pool cap) as [v pool'].
    rewrite <- (zstd_decoded_buf d v Hf). destruct (zstd_decompress_into d v) as [out|e]; [|done].
    cbn. by destruct (check_raw_size _ _).
Qed.

End Agree.

(** ** Claims *)

Section Claims.
Context {P : Protohoggr} `{CL : CodecLaws} `{AL : AllocatorLaws}.


(** C25. One blob, one content: the four ways the readers decompress a blob
    (from raw bytes read at an offset, through the envelope parser into a
    reused buffer, from a parsed blob into a reused buffer, and into pooled
    storage) accept the same byte strings and give the same content, whatever
    the state of the buffers and of the pool.  In particular the two envelope
    parsers agree on every input. *)
Theorem blob_decoders_agree (raw : bytes) (buf buf' : Vec) (pool : option DecompressPool) :
  0 <= vcap buf -> 0 <= vcap buf' -> (forall p, pool = Some p -> pool_wf p) ->
  let by_raw := decoded (decompress_blob_raw raw buf) in
  by_raw = decoded (decompress_blob_data_into raw buf') /\
  by_raw = (b ← ok_part (WireBlob_parse raw); decoded (decompress_wire_blob_into b buf')) /\
  by_raw = (b ← ok_part (WireBlob_parse raw); fst <$> ok_part (decompress_blob b pool)).
Proof.
  intros Hb Hb' Hp. cbn zeta. rewrite raw_blob_decoded by done. split; [by rewrite blob_data_into_decoded|].
  unfold content_of. destruct (WireBlob_parse raw) as [b|e]; [|done]. cbn [ok_part mbind option_bind].
  by rewrite wire_blob_into_decoded, blob_decoded.
Qed.

End Claims.

(** A step of the pool: a buffer taken, or one given back. *)
Inductive pool_op := Take | Give (buf : Vec).

Definition pool_step (p : DecompressPool) (op : pool_op) : DecompressPool :=
  match op with Take => (get p).2 | Give buf => put p buf end.

(** C40. The decompression pool stays within its limits: after any sequence of
    takes and returns it holds at most [DECOMPRESS_POOL_MAX_BUFFERS] buffers,
    each empty and of at most the retained capacity, and [retained_bytes] is
    exactly the sum of their capacities and within the byte limit. *)
Theorem pool_stays_bounded (ops : list pool_op) :
  Forall (fun op => match op with Give buf => 0 <= vcap buf | Take => True end) ops ->
  pool_wf (fold_left pool_step ops pool_new).
Proof.
  generalize pool_new_wf. generalize pool_new as p. induction ops as [|op ops IH]; intros p Hp HF; [done|].
  apply Forall_cons in HF as [Hop HF]. apply IH; [|done].
  destruct op; [by apply get_wf|by apply put_wf].
Qed.

(** ** Witnesses *)

Import RefProto RefCodec.


(** An uncompressed blob of three bytes that declares its size. *)
Definition sample_blob : bytes := [16; 3; 10; 3; 5; 6; 7].

Lemma blob_decoders_agree_witness :
  content_of sample_blob = Some [5; 6; 7] /\
  decoded (decompress_blob_raw sample_blob (mkVec [1] 1)) =
    decoded (decompress_blob_data_into sample_blob (mkVec [] 64)).
Proof.
  split; [done|].
  apply (blob_decoders_agree sample_blob (mkVec [1] 1) (mkVec [] 64) (Some pool_new)); [done|done|].
  intros p [= <-]. apply pool_new_wf.
Defined.

Lemma pool_stays_bounded_witness :
  pool_wf (fold_left pool_step [Give (mkVec [1] 8); Give (mkVec [] 4); Take] pool_new).
Proof. apply (pool_stays_bounded [Give (mkVec [1] 8); Give (mkVec [] 4); Take]). repeat (apply Forall_cons; split; [try exact I; cbn; lia|]). apply Forall_nil_2. Defined.
