(* ===== verification/Framing.v ===== *)
(** * Blob framing (src/src/write/framing.rs)

    From an uncompressed block to the bytes of its frame,
    [[4-byte BE header_len][BlobHeader][Blob]]: the body encoder, the header
    encoder with its size policy, the reusable scratch the framing threads keep
    between blobs, and the passthrough forms that rebuild or strip a header.

    The scratch is threaded explicitly, with whatever the last blob left in it;
    [scratch_ok] is what a successful framing keeps true of it.  Timings are
    not modelled; the counters the framing updates are. *)

From S2P Require Import Prelude StdText Proto Wire Encode BlobWire Codec BlobDecode.

Inductive Compression := NoCompression | ZlibLevel (level : Z) | ZstdLevel (level : Z).

Inductive OversizePart := Header | HeaderWayMembers | Body | Payload | OsmHeaderPayload | OsmHeaderBody.

Definition OSM_HEADER : bytes := bs "OSMHeader".
Definition OSM_DATA : bytes := bs "OSMData".

Definition MAX_RETAINED_SCRATCH_CAPACITY : Z := 4 * 1024 * 1024.
Definition ZLIB_RESERVE_SHIFT : Z := 10.
Definition ZLIB_RESERVE_SLACK : Z := 64.

Record WriterMetrics := mkWriterMetrics {
  capped_buffers : Z; capped_bytes : Z; tagdata_dropped : Z; bytes_framed : Z }.

Section Framing.
Context {P : Protohoggr} {C : Codec} {A : Allocator}.

Inductive FramingError :=
| BlobTooLarge (part : OversizePart) (size limit : Z)
| ZlibCompressFault (e : codec_error)
| ZlibIncomplete
| ZstdCompressFault (e : codec_error)
| SizeOverflow (size : Z).

Abbreviation fresult := (result FramingError).

Record FrameScratch := mkScratch {
  body_head : bytes;
  header_buf : Vec;
  compress_buf : Vec;
  zlib_compressor : option (Z * Deflate);
  zstd_compressor : option Z }.

Definition scratch_new : FrameScratch := mkScratch [] (mkVec [] 0) (mkVec [] 0) None None.

Definition record_capped_capacity (capacity : Z) (m : WriterMetrics) : WriterMetrics :=
  mkWriterMetrics (capped_buffers m + 1) (capped_bytes m + capacity) (tagdata_dropped m) (bytes_framed m).

(** One retained buffer: dropped when it grew past the cap. *)
Definition trim_buffer (v : Vec) (m : WriterMetrics) : Vec * WriterMetrics :=
  if MAX_RETAINED_SCRATCH_CAPACITY <? vcap v then (mkVec [] 0, record_capped_capacity (vcap v) m) else (v, m).

Definition trim_oversize_retained_buffers (s : FrameScratch) (m : WriterMetrics) : FrameScratch * WriterMetrics :=
  let '(h, m) := trim_buffer (header_buf s) m in
  let '(c, m) := trim_buffer (compress_buf s) m in
  (mkScratch (body_head s) h c (zlib_compressor s) (zstd_compressor s), m).

(** ** Pieces *)

(** Copies one part: the piece being filled and its target length, the bytes
    left in all, and the pieces done.  Each turn copies at least one byte. *)
Fixpoint split_part (fuel : nat) (rest : bytes) (piece : nat) (st : nat * nat * bytes * list bytes)
  : option (nat * nat * bytes * list bytes) :=
  match rest, fuel with
  | [], _ => Some st
  | _, O => None
  | _, S fuel =>
      let '(remaining, target, current, out) := st in
      let n := Nat.min (target - length current) (length rest) in
      let current := current ++ take n rest in
      let rest := drop n rest in
      if (length current =? target)%nat then
        let remaining := (remaining - target)%nat in
        split_part fuel rest piece (remaining, Nat.min remaining piece, [], out ++ [current])
      else split_part fuel rest piece (remaining, target, current, out)
  end.

(** [None] is a loop that does not end. *)
Definition split_into_pieces (parts : list bytes) (total piece : nat) (out : list bytes) : option (list bytes) :=
  let step st part := st ≫= split_part (length part) part piece in
  '(_, _, _, out) ← fold_left step parts (Some (total, Nat.min total piece, [], out));
  Some out.

(** ** Headers *)

Definition encode_opt (field : Z) (data : option bytes) : bytes :=
  match data with Some d => encode_bytes_field field d | None => [] end.

Definition encode_blob_header_fields (blob_type : bytes) (datasize : Z)
    (indexdata tagdata way_members : option bytes) : bytes :=
  encode_bytes_field blob_header.TYPE blob_type ++
  encode_opt blob_header.INDEXDATA indexdata ++
  encode_int32_field blob_header.DATASIZE datasize ++
  encode_opt blob_header.TAGDATA tagdata ++
  encode_opt blob_header.WAYMEMBERS way_members.

(** The header, and whether its tag index was dropped. *)
Definition encode_blob_header_into (blob_type : bytes) (datasize : Z)
    (indexdata tagdata way_members : option bytes) : fresult (bytes * bool) :=
  let small (b : bytes) := blen b <? MAX_BLOB_HEADER_SIZE in
  let refuse (b : bytes) :=
    let culprit :=
      match way_members with
      | Some _ => if small (encode_blob_header_fields blob_type datasize indexdata None None)
                  then HeaderWayMembers else Header
      | None => Header
      end in
    Err (BlobTooLarge culprit (blen b) MAX_BLOB_HEADER_SIZE) in
  let full := encode_blob_header_fields blob_type datasize indexdata tagdata way_members in
  if small full then Ok (full, false)
  else match tagdata with
       | Some _ =>
           let bare := encode_blob_header_fields blob_type datasize indexdata None way_members in
           if small bare then Ok (bare, true) else refuse bare
       | None => refuse full
       end.

(** The length prefix and the header. *)
Definition encode_frame_header (blob_type : bytes) (body_len : Z) (indexdata tagdata way_members : option bytes)
    (m : WriterMetrics) : WriterMetrics * fresult (bytes * bytes) :=
  if MAX_BLOB_DATASIZE <=? body_len then
    (m, Err (BlobTooLarge (if bool_decide (blob_type = OSM_HEADER) then OsmHeaderBody else Body)
               body_len MAX_BLOB_DATASIZE))
  else if i32_max <? body_len then (m, Err (SizeOverflow body_len))
  else match encode_blob_header_into blob_type body_len indexdata tagdata way_members with
       | Err e => (m, Err e)
       | Ok (header, dropped) =>
           let m := if dropped : bool
                    then mkWriterMetrics (capped_buffers m) (capped_bytes m) (tagdata_dropped m + 1) (bytes_framed m)
                    else m in
           if u32_max <? blen header then (m, Err (SizeOverflow (blen header)))
           else (m, Ok (to_be 4 (blen header), header))
       end.

(** ** Bodies *)

Inductive PayloadSource := Input | Compressed.

Definition encode_payload_field_head (head : bytes) (field len : Z) : bytes :=
  head ++ encode_tag field WIRE_LEN ++ encode_varint len.

Definition with_body (s : FrameScratch) (head : bytes) : FrameScratch :=
  mkScratch head (header_buf s) (compress_buf s) (zlib_compressor s) (zstd_compressor s).

Definition with_compressed (s : FrameScratch) (v : Vec) : FrameScratch :=
  mkScratch (body_head s) (header_buf s) v (zlib_compressor s) (zstd_compressor s).

(** [raw_size] and the payload field's head, once the payload is in [compress_buf]. *)
Definition compressed_head (s : FrameScratch) (field raw_len : Z) : FrameScratch * fresult PayloadSource :=
  if i32_max <? raw_len then (s, Err (SizeOverflow raw_len))
  else
    let head := body_head s ++ encode_int32_field blob.RAW_SIZE raw_len in
    (with_body s (encode_payload_field_head head field (blen (vdata (compress_buf s)))), Ok Compressed).

Definition compress_zlib (d : bytes) (level : Z) (s : FrameScratch) : FrameScratch * fresult PayloadSource :=
  let c := match zlib_compressor s with
           | Some (cached, c) => if cached =? level then c else deflate_new level
           | None => deflate_new level
           end in
  let more := blen d + Z.shiftr (blen d) ZLIB_RESERVE_SHIFT + ZLIB_RESERVE_SLACK in
  let buf := mkVec [] (reserve_amortized (vcap (compress_buf s)) 0 more) in
  let kept c := mkScratch (body_head s) (header_buf s) buf (Some (level, c)) (zstd_compressor s) in
  let '(c, r) := compress_vec c d (vcap buf) in
  match r with
  | Err e => (kept c, Err (ZlibCompressFault e))
  | Ok (out, ended) =>
      let s := with_compressed (kept c) (mkVec out (vcap buf)) in
      if ended : bool then
        compressed_head (mkScratch (body_head s) (header_buf s) (compress_buf s) (Some (level, deflate_reset c))
                           (zstd_compressor s)) blob.ZLIB_DATA (blen d)
      else (s, Err ZlibIncomplete)
  end.

Definition compress_zstd (d : bytes) (level : Z) (s : FrameScratch) : FrameScratch * fresult PayloadSource :=
  let ready := match zstd_compressor s with
               | Some cached => if cached =? level then Ok tt else zstd_new level
               | None => zstd_new level
               end in
  match ready with
  | Err e => (s, Err (ZstdCompressFault e))
  | Ok _ =>
      let cap := reserve_amortized (vcap (compress_buf s)) 0 (zstd_compress_bound (blen d)) in
      let s := mkScratch (body_head s) (header_buf s) (mkVec [] cap) (zlib_compressor s) (Some level) in
      match zstd_compress level d cap with
      | Err e => (s, Err (ZstdCompressFault e))
      | Ok out => compressed_head (with_compressed s (mkVec out cap)) blob.ZSTD_DATA (blen d)
      end
  end.

Definition encode_blob_body (d : bytes) (compression : Compression) (payload_part : OversizePart)
    (s : FrameScratch) : FrameScratch * fresult PayloadSource :=
  let s := with_body s [] in
  if MAX_BLOB_MESSAGE_SIZE <? blen d then (s, Err (BlobTooLarge payload_part (blen d) MAX_BLOB_MESSAGE_SIZE))
  else match compression with
       | NoCompression => (with_body s (encode_payload_field_head [] blob.RAW (blen d)), Ok Input)
       | ZlibLevel level => compress_zlib d level s
       | ZstdLevel level => compress_zstd d level s
       end.

(** ** Frames *)

Record ScratchFrame := mkScratchFrame {
  sf_prefix : bytes; sf_header : bytes; sf_body_head : bytes; sf_payload : bytes }.

Definition parts (f : ScratchFrame) : list bytes := [sf_prefix f; sf_header f; sf_body_head f; sf_payload f].
Definition frame_len (f : ScratchFrame) : nat := foldr (fun p n => (length p + n)%nat) 0%nat (parts f).

Definition frame_in_scratch (blob_type d : bytes) (compression : Compression)
    (indexdata tagdata way_members : option bytes) (s : FrameScratch) (m : WriterMetrics)
  : FrameScratch * WriterMetrics * fresult ScratchFrame :=
  let '(s, m) := trim_oversize_retained_buffers s m in
  let payload_part := if bool_decide (blob_type = OSM_HEADER) then OsmHeaderPayload else Payload in
  let '(s, r) := encode_blob_body d compression payload_part s in
  match r with
  | Err e => (trim_oversize_retained_buffers s m, Err e)
  | Ok source =>
      let payload := match source with Input => d | Compressed => vdata (compress_buf s) end in
      let '(m, r) := encode_frame_header blob_type (blen (body_head s) + blen payload)
                       indexdata tagdata way_members m in
      match r with
      | Err e => (trim_oversize_retained_buffers s m, Err e)
      | Ok (prefix, header) =>
          let s := mkScratch (body_head s)
                     (mkVec header (reserve_amortized (vcap (header_buf s)) 0 (blen header)))
                     (compress_buf s) (zlib_compressor s) (zstd_compressor s) in
          let frame := mkScratchFrame prefix header (body_head s) payload in
          (s, mkWriterMetrics (capped_buffers m) (capped_bytes m) (tagdata_dropped m)
                (bytes_framed m + Z.of_nat (frame_len frame)), Ok frame)
      end
  end.

Definition frame_blob_into (blob_type d : bytes) (compression : Compression)
    (indexdata tagdata way_members : option bytes) (s : FrameScratch) (m : WriterMetrics)
  : FrameScratch * WriterMetrics * fresult bytes :=
  let '(s, m, r) := frame_in_scratch blob_type d compression indexdata tagdata way_members s m in
  match r with
  | Err e => (s, m, Err e)
  | Ok framed => (trim_oversize_retained_buffers s m, Ok (concat (parts framed)))
  end.

Definition frame_blob (blob_type d : bytes) (compression : Compression) (indexdata : option bytes)
    (m : WriterMetrics) : WriterMetrics * fresult bytes :=
  let '(_, m, r) := frame_blob_into blob_type d compression indexdata None None scratch_new m in (m, r).

Definition frame_blob_pipelined (d : bytes) (compression : Compression)
    (indexdata tagdata way_members : option bytes) (s : FrameScratch) (m : WriterMetrics)
  : FrameScratch * WriterMetrics * fresult bytes :=
  frame_blob_into OSM_DATA d compression indexdata tagdata way_members s m.

Definition frame_blob_pipelined_pieces (d : bytes) (compression : Compression)
    (indexdata tagdata way_members : option bytes) (s : FrameScratch) (m : WriterMetrics)
    (piece : nat) (pieces : list bytes) : FrameScratch * WriterMetrics * fresult (option (list bytes)) :=
  let '(s, m, r) := frame_in_scratch OSM_DATA d compression indexdata tagdata way_members s m in
  match r with
  | Err e => (s, m, Err e)
  | Ok framed =>
      (trim_oversize_retained_buffers s m, Ok (split_into_pieces (parts framed) (frame_len framed) piece pieces))
  end.

Definition reframe_raw_with_index (blob_bytes indexdata : bytes) (tagdata : option bytes) (m : WriterMetrics)
  : WriterMetrics * fresult bytes :=
  let '(m, r) := encode_frame_header OSM_DATA (blen blob_bytes) (Some indexdata) tagdata None m in
  (m, '(prefix, header) ← r; Ok (prefix ++ header ++ blob_bytes)).

(** ** Stripping header fields *)

(** [strip_message_fields]: [start] is the position of the field in the message. *)
Fixpoint strip_loop (fuel : nat) (strip : Z -> bool) (c out : bytes) : result WireError bytes :=
  match read_tag c with
  | Err e => Err (FromProto e)
  | Ok (None, _) => Ok out
  | Ok (Some (field, wire_type), c1) =>
      match fuel with
      | O => Err OutOfFuel
      | S fuel =>
          match skip_field wire_type c1 with
          | Err e => Err (FromProto e)
          | Ok c2 =>
              strip_loop fuel strip c2
                (if strip field then out else out ++ take (length c - length c2) c)
          end
      end
  end.

Definition strip_message_fields (msg : bytes) (strip : Z -> bool) : result WireError bytes :=
  strip_loop (length msg) strip msg [].

Inductive BlobHeaderField := FIndexdata | FTagdata.
Definition header_field_number (f : BlobHeaderField) : Z :=
  match f with FIndexdata => blob_header.INDEXDATA | FTagdata => blob_header.TAGDATA end.

Definition strip_blob_header_fields (header_bytes : bytes) (strip_fields : list BlobHeaderField) : result WireError bytes :=
  strip_message_fields header_bytes (fun field => existsb (fun f => header_field_number f =? field) strip_fields).

Inductive HeaderBlockField :=
| FBbox | FWritingProgram | FReplicationTimestamp | FReplicationSequenceNumber | FReplicationBaseUrl.
Definition block_field_number (f : HeaderBlockField) : Z :=
  match f with
  | FBbox => 1 | FWritingProgram => 16 | FReplicationTimestamp => 32
  | FReplicationSequenceNumber => 33 | FReplicationBaseUrl => 34
  end.

Definition strip_header_block_fields (block_bytes : bytes) (strip_fields : list HeaderBlockField) : result WireError bytes :=
  strip_message_fields block_bytes (fun field => existsb (fun f => block_field_number f =? field) strip_fields).

End Framing.

(** ** Pieces *)

(** [done] pieces while [room] bytes are still to be placed: all full, except
    that the last may be short once nothing is room. *)
Definition pieces_ok (piece room : nat) (done : list bytes) : Prop :=
  Forall (fun p => length p = piece) (removelast done) /\
  Forall (fun p => (0 < length p <= piece)%nat /\ (0 < room -> length p = piece)%nat) done.

Lemma removelast_full {X} (Q : X -> Prop) l : Forall Q l -> Forall Q (removelast l).
Proof.
  induction 1 as [|x [|y l] Hx HF IH]; [constructor|constructor|]. change (Forall Q (x :: removelast (y :: l))).
  by constructor.
Qed.

Lemma pieces_ok_push piece room target done cur :
  pieces_ok piece room done -> target = Nat.min room piece -> (0 < room)%nat -> (0 < piece)%nat -> length cur = target ->
  pieces_ok piece (room - target) (done ++ [cur]).
Proof.
  intros [_ HF] -> Hl Hp Hc. unfold pieces_ok. rewrite removelast_last. split.
  - eapply Forall_impl; [exact HF|]. intros p [_ Hp']. by apply Hp'.
  - apply Forall_app. split; [|apply Forall_singleton; lia].
    eapply Forall_impl; [exact HF|]. intros p [Hp1 Hp2]. split; [done|]. intros _. by apply Hp2.
Qed.

(** Between turns: [room] bytes from the start of the current piece on, of
    which [todo] are still to be copied. *)
Definition split_inv (piece todo : nat) (base done : list bytes) (st : nat * nat * bytes * list bytes) : Prop :=
  let '(room, target, cur, out) := st in
  room = (length cur + todo)%nat /\ target = Nat.min room piece /\ (0 < todo -> length cur < target)%nat /\
  (todo = 0%nat -> cur = []) /\ out = base ++ done /\ pieces_ok piece room done.

Lemma split_part_ok piece base fuel : (0 < piece)%nat -> forall rest todo done st,
  (length rest <= fuel)%nat -> split_inv piece (length rest + todo) base done st ->
  exists st' done', split_part fuel rest piece st = Some st' /\ split_inv piece todo base done' st' /\
    concat done' ++ st'.1.2 = concat done ++ st.1.2 ++ rest.
Proof.
  intros Hp. induction fuel as [|fuel IH]; intros rest todo done [[[room target] cur] out] Hf Hinv.
  { destruct rest; [|simpl in Hf; lia]. exists (room, target, cur, out), done. split; [done|].
    split; [done|]. simpl. by rewrite app_nil_r. }
  destruct rest as [|b rest0].
  { exists (room, target, cur, out), done. split; [done|]. split; [done|]. simpl. by rewrite app_nil_r. }
  destruct Hinv as (Hl & Ht & Hlt & _ & Hout & Hok).
  assert (length cur < target)%nat as Hlt' by (apply Hlt; simpl; lia). clear Hlt.
  cbn [split_part]. set (rest := b :: rest0) in *. set (n := Nat.min (target - length cur) (length rest)).
  assert (0 < n <= length rest)%nat as Hn by (subst n rest; simpl; lia).
  assert (length (cur ++ take n rest) = length cur + n)%nat as Hlen by (rewrite length_app, length_take; lia).
  rewrite Hlen. assert (length (drop n rest) = length rest - n)%nat as Hdrop by apply length_drop.
  destruct (Nat.eqb_spec (length cur + n) target) as [Hfull|Hpart].
  - edestruct (IH (drop n rest) todo (done ++ [cur ++ take n rest])
      ((room - target)%nat, Nat.min (room - target) piece, [], out ++ [cur ++ take n rest]))
      as (st' & done' & Hs & Hi & Hc).
    + lia.
    + split; [simpl; lia|]. split; [reflexivity|]. split; [simpl; lia|]. split; [done|].
      split; [by rewrite app_assoc, Hout|]. apply pieces_ok_push; lia || done.
    + exists st', done'. split; [exact Hs|]. split; [done|]. rewrite Hc. simpl.
      rewrite concat_app. simpl. rewrite app_nil_r, <- !app_assoc. do 2 f_equal. by rewrite take_drop.
  - edestruct (IH (drop n rest) todo done (room, target, cur ++ take n rest, out)) as (st' & done' & Hs & Hi & Hc).
    + lia.
    + split; [lia|]. split; [done|]. split; [lia|]. split; [|done].
      intros Hz. subst n. lia.
    + exists st', done'. split; [exact Hs|]. split; [done|]. rewrite Hc. simpl. rewrite <- !app_assoc. do 2 f_equal.
      by rewrite take_drop.
Qed.

Lemma split_into_pieces_ok (parts : list bytes) (piece : nat) (out : list bytes) :
  (0 < piece)%nat ->
  exists done, split_into_pieces parts (length (concat parts)) piece out = Some (out ++ done) /\
    concat done = concat parts /\ Forall (fun p => length p = piece) (removelast done) /\
    Forall (fun p => 0 < length p <= piece)%nat done.
Proof.
  intros Hp. unfold split_into_pieces.
  assert (forall parts done st,
    split_inv piece (length (concat parts)) out done st ->
    exists st' done', fold_left (fun st part => st ≫= split_part (length part) part piece) parts (Some st) = Some st' /\
      split_inv piece 0 out done' st' /\ concat done' ++ st'.1.2 = concat done ++ st.1.2 ++ concat parts) as H.
  { clear parts. intros ps. induction ps as [|part ps IH]; intros done st Hi; cbn [fold_left concat].
    - exists st, done. by rewrite app_nil_r.
    - cbn [concat] in Hi. rewrite length_app in Hi.
      destruct (split_part_ok piece out (length part) Hp part _ done st (le_n _) Hi) as (st1 & done1 & Hs & Hi1 & Hc1).
      destruct (IH done1 st1 Hi1) as (st' & done' & Hs' & Hi' & Hc'). exists st', done'.
      cbn [mbind option_bind]. rewrite Hs. split; [done|]. split; [done|].
      rewrite Hc', app_assoc, Hc1, <- !app_assoc. done. }
  destruct (H parts [] (length (concat parts), Nat.min (length (concat parts)) piece, [], out))
    as ([[[room target] cur] out'] & done & Hs & Hi & Hc).
  { split; [done|]. split; [done|]. split; [simpl; lia|]. split; [done|].
    split; [by rewrite app_nil_r|]. split; constructor. }
  destruct Hi as (_ & _ & _ & Hcur & -> & Hfull & HF). rewrite (Hcur eq_refl) in Hc. simpl in Hc.
  exists done. cbn [mbind option_bind] in *. rewrite Hs. rewrite app_nil_r in Hc. split; [done|]. split; [done|]. split; [done|].
  eapply Forall_impl; [exact HF|]. by intros p [Hp' _].
Qed.
