(* ===== verification/Header.v ===== *)
(** * The header block (src/src/read/block.rs, write/header_builder.rs, commands/output_header.rs)

    [WireHeaderBlock_parse] reads the [OSMHeader] blob's message,
    [HeaderBuilder] writes one, and [Module output_header] is the policy by
    which a command derives the header of its output from those of its inputs
    and the facts it states.  A [String] is its UTF-8 bytes; degrees are
    [Float64]'s f64. *)

From S2P Require Import Prelude StdText Float64 Proto Wire Encode Utf8 Codec BlobMeta BlobWire BlobDecode Framing Timestamp TagExpr.

(** ** Field numbers and features *)

Module header_block.
Definition BBOX : Z := 1.
Definition REQUIRED_FEATURES : Z := 4.
Definition OPTIONAL_FEATURES : Z := 5.
Definition WRITING_PROGRAM : Z := 16.
Definition SOURCE : Z := 17.
Definition REPLICATION_TIMESTAMP : Z := 32.
Definition REPLICATION_SEQUENCE_NUMBER : Z := 33.
Definition REPLICATION_BASE_URL : Z := 34.
End header_block.

Module header_bbox.
Definition LEFT : Z := 1.
Definition RIGHT : Z := 2.
Definition TOP : Z := 3.
Definition BOTTOM : Z := 4.
End header_bbox.

Definition OSM_SCHEMA_V06 : bytes := bs "OsmSchema-V0.6".
Definition DENSE_NODES : bytes := bs "DenseNodes".
Definition SORT_TYPE_THEN_ID : bytes := bs "Sort.Type_then_ID".
Definition LOCATIONS_ON_WAYS : bytes := bs "LocationsOnWays".
Definition WAY_MEMBERS_V1 : bytes := bs "pbfhogg.WayMembers-v1".
Definition SHARED_NODE_PINS_V1 : bytes := bs "pbfhogg.SharedNodePins-v1".
Definition HISTORICAL_INFORMATION : bytes := bs "HistoricalInformation".

(** ** Reading *)

Record WireHeaderBBox := mkHeaderBBox { hx_left : Z; hx_right : Z; hx_top : Z; hx_bottom : Z }.

Record WireHeaderBlock := mkHeaderBlock {
  wh_bbox : option WireHeaderBBox;
  wh_required_features : list bytes;
  wh_optional_features : list bytes;
  wh_writingprogram : option bytes;
  wh_source : option bytes;
  wh_replication_timestamp : option Z;
  wh_replication_sequence_number : option Z;
  wh_replication_base_url : option bytes }.

Section Reading.
Context {P : Protohoggr}.

Definition bbox_step (b : WireHeaderBBox) (field wt : Z) (c : bytes) : result WireError (WireHeaderBBox * bytes) :=
  let 'mkHeaderBBox l r t bt := b in
  if arm_varint header_bbox.LEFT field wt then '(v, c) ← lift (read_sint64 c); Ok (mkHeaderBBox v r t bt, c)
  else if arm_varint header_bbox.RIGHT field wt then '(v, c) ← lift (read_sint64 c); Ok (mkHeaderBBox l v t bt, c)
  else if arm_varint header_bbox.TOP field wt then '(v, c) ← lift (read_sint64 c); Ok (mkHeaderBBox l r v bt, c)
  else if arm_varint header_bbox.BOTTOM field wt then '(v, c) ← lift (read_sint64 c); Ok (mkHeaderBBox l r t v, c)
  else skip_arm b wt c.

Definition WireHeaderBBox_parse (data : bytes) : result WireError WireHeaderBBox := parse bbox_step (mkHeaderBBox 0 0 0 0) data.

Definition REQUIRED_NOT_UTF8 : string := "invalid UTF-8 in required_features".
Definition OPTIONAL_NOT_UTF8 : string := "invalid UTF-8 in optional_features".
Definition PROGRAM_NOT_UTF8 : string := "invalid UTF-8 in writingprogram".
Definition SOURCE_NOT_UTF8 : string := "invalid UTF-8 in source".
Definition URL_NOT_UTF8 : string := "invalid UTF-8 in replication_base_url".

(** A string field, whatever wire type its tag claims. *)
Definition read_string (c : bytes) (msg : string) : result WireError (bytes * bytes) :=
  '(b, c) ← lift (read_len_delimited c);
  match from_utf8 b with Ok _ => Ok (b, c) | Err _ => Err (Message msg) end.

Definition header_block_step (h : WireHeaderBlock) (field wt : Z) (c : bytes) : result WireError (WireHeaderBlock * bytes) :=
  let 'mkHeaderBlock bb rf fs wp so ts sq url := h in
  if field =? header_block.BBOX then
    '(sub, c) ← lift (read_len_delimited c); bb ← WireHeaderBBox_parse sub; Ok (mkHeaderBlock (Some bb) rf fs wp so ts sq url, c)
  else if field =? header_block.REQUIRED_FEATURES then
    '(s, c) ← read_string c REQUIRED_NOT_UTF8; Ok (mkHeaderBlock bb (rf ++ [s]) fs wp so ts sq url, c)
  else if field =? header_block.OPTIONAL_FEATURES then
    '(s, c) ← read_string c OPTIONAL_NOT_UTF8; Ok (mkHeaderBlock bb rf (fs ++ [s]) wp so ts sq url, c)
  else if field =? header_block.WRITING_PROGRAM then
    '(s, c) ← read_string c PROGRAM_NOT_UTF8; Ok (mkHeaderBlock bb rf fs (Some s) so ts sq url, c)
  else if field =? header_block.SOURCE then
    '(s, c) ← read_string c SOURCE_NOT_UTF8; Ok (mkHeaderBlock bb rf fs wp (Some s) ts sq url, c)
  else if field =? header_block.REPLICATION_TIMESTAMP then
    '(v, c) ← lift (read_varint_i64 c); Ok (mkHeaderBlock bb rf fs wp so (Some v) sq url, c)
  else if field =? header_block.REPLICATION_SEQUENCE_NUMBER then
    '(v, c) ← lift (read_varint_i64 c); Ok (mkHeaderBlock bb rf fs wp so ts (Some v) url, c)
  else if field =? header_block.REPLICATION_BASE_URL then
    '(s, c) ← read_string c URL_NOT_UTF8; Ok (mkHeaderBlock bb rf fs wp so ts sq (Some s), c)
  else skip_arm h wt c.

Definition header_block_init : WireHeaderBlock := mkHeaderBlock None [] [] None None None None None.

Definition WireHeaderBlock_parse (data : bytes) : result WireError WireHeaderBlock := parse header_block_step header_block_init data.

End Reading.

(** [HeaderBlock]: the box in degrees (left, right, top, bottom) and as
    stored, and the features it declares. *)
Definition header_bbox_degrees (h : WireHeaderBlock) : option (f64 * f64 * f64 * f64) :=
  (fun b => (to_degrees (hx_left b), to_degrees (hx_right b), to_degrees (hx_top b), to_degrees (hx_bottom b))) <$> wh_bbox h.
Definition raw_bbox (h : WireHeaderBlock) : option (Z * Z * Z * Z) :=
  (fun b => (hx_left b, hx_right b, hx_top b, hx_bottom b)) <$> wh_bbox h.

Definition is_sorted (h : WireHeaderBlock) : bool := existsb (fun f => bool_decide (f = SORT_TYPE_THEN_ID)) (wh_optional_features h).
Definition has_locations_on_ways (h : WireHeaderBlock) : bool := existsb (fun f => bool_decide (f = LOCATIONS_ON_WAYS)) (wh_optional_features h).
Definition has_way_members_v1 (h : WireHeaderBlock) : bool := existsb (fun f => bool_decide (f = WAY_MEMBERS_V1)) (wh_optional_features h).
Definition has_shared_node_pins_v1 (h : WireHeaderBlock) : bool := existsb (fun f => bool_decide (f = SHARED_NODE_PINS_V1)) (wh_optional_features h).
Definition has_historical_information (h : WireHeaderBlock) : bool :=
  existsb (fun f => bool_decide (f = HISTORICAL_INFORMATION)) (wh_required_features h).

(** ** The builder *)

(** [concat!("pbfhogg/", env!("CARGO_PKG_VERSION"))] *)
Definition DEFAULT_WRITING_PROGRAM : bytes := bs "pbfhogg/0.5.0".

Record HeaderBuilder := mkHeaderBuilder {
  hb_bbox : option (f64 * f64 * f64 * f64);
  hb_bbox_from_input : bool;
  hb_replication_timestamp : option Z;
  hb_replication_sequence_number : option Z;
  hb_replication_base_url : option bytes;
  hb_source : option bytes;
  hb_optional_features : list bytes;
  hb_historical_information : bool;
  hb_sorted : bool;
  hb_writing_program : bytes }.

Definition HeaderBuilder_new : HeaderBuilder := mkHeaderBuilder None false None None None None [] false false DEFAULT_WRITING_PROGRAM.

Definition set_bbox (left bottom right top : f64) (b : HeaderBuilder) : HeaderBuilder :=
  let 'mkHeaderBuilder _ _ ts sq url so fs hi st wp := b in mkHeaderBuilder (Some (left, bottom, right, top)) false ts sq url so fs hi st wp.
Definition set_input_bbox (left bottom right top : f64) (b : HeaderBuilder) : HeaderBuilder :=
  let 'mkHeaderBuilder _ _ ts sq url so fs hi st wp := b in mkHeaderBuilder (Some (left, bottom, right, top)) true ts sq url so fs hi st wp.
Definition without_bbox (b : HeaderBuilder) : HeaderBuilder :=
  let 'mkHeaderBuilder _ fi ts sq url so fs hi st wp := b in mkHeaderBuilder None fi ts sq url so fs hi st wp.
(** [replication_timestamp] and [without_replication_timestamp], and so on. *)
Definition put_timestamp (ts : option Z) (b : HeaderBuilder) : HeaderBuilder :=
  let 'mkHeaderBuilder bx fi _ sq url so fs hi st wp := b in mkHeaderBuilder bx fi ts sq url so fs hi st wp.
Definition put_sequence_number (sq : option Z) (b : HeaderBuilder) : HeaderBuilder :=
  let 'mkHeaderBuilder bx fi ts _ url so fs hi st wp := b in mkHeaderBuilder bx fi ts sq url so fs hi st wp.
Definition put_base_url (url : option bytes) (b : HeaderBuilder) : HeaderBuilder :=
  let 'mkHeaderBuilder bx fi ts sq _ so fs hi st wp := b in mkHeaderBuilder bx fi ts sq url so fs hi st wp.
Definition put_source (so : option bytes) (b : HeaderBuilder) : HeaderBuilder :=
  let 'mkHeaderBuilder bx fi ts sq url _ fs hi st wp := b in mkHeaderBuilder bx fi ts sq url so fs hi st wp.
Definition set_sorted (b : HeaderBuilder) : HeaderBuilder :=
  let 'mkHeaderBuilder bx fi ts sq url so fs hi _ wp := b in mkHeaderBuilder bx fi ts sq url so fs hi true wp.
Definition optional_feature (f : bytes) (b : HeaderBuilder) : HeaderBuilder :=
  let 'mkHeaderBuilder bx fi ts sq url so fs hi st wp := b in mkHeaderBuilder bx fi ts sq url so (fs ++ [f]) hi st wp.
Definition set_historical (b : HeaderBuilder) : HeaderBuilder :=
  let 'mkHeaderBuilder bx fi ts sq url so fs _ st wp := b in mkHeaderBuilder bx fi ts sq url so fs true st wp.
Definition set_writing_program (wp : bytes) (b : HeaderBuilder) : HeaderBuilder :=
  let 'mkHeaderBuilder bx fi ts sq url so fs hi st _ := b in mkHeaderBuilder bx fi ts sq url so fs hi st wp.

Inductive HeaderError := BoxNotFinite | BoxLongitude | BoxLatitude | BoxInverted | NoInputs.

Definition within (lo hi x : f64) : bool := fle lo x && fle x hi.

(** The box of [build]: checked, then quantized, as (left, bottom, right, top). *)
Definition check_bbox (b : HeaderBuilder) : result HeaderError (option (Z * Z * Z * Z)) :=
  match hb_bbox b with
  | None => Ok None
  | Some (l, bt, r, t) =>
      if negb (is_finite l && is_finite bt && is_finite r && is_finite t) then Err BoxNotFinite
      else if negb (hb_bbox_from_input b) && negb (within (fneg F180) F180 l && within (fneg F180) F180 r) then Err BoxLongitude
      else if negb (hb_bbox_from_input b) && negb (within (fneg F90) F90 bt && within (fneg F90) F90 t) then Err BoxLatitude
      else if negb (hb_bbox_from_input b) && (flt r l || flt t bt) then Err BoxInverted
      else Ok (Some (to_nanos l, to_nanos bt, to_nanos r, to_nanos t))
  end.

Section Building.
Context {P : Protohoggr}.

Definition bbox_message (left bottom right top : Z) : bytes :=
  encode_sint64_field_always header_bbox.LEFT left ++ encode_sint64_field_always header_bbox.RIGHT right ++
  encode_sint64_field_always header_bbox.TOP top ++ encode_sint64_field_always header_bbox.BOTTOM bottom.

Definition when {A} (o : option A) (f : A -> bytes) : bytes := match o with Some a => f a | None => [] end.

Definition header_build (b : HeaderBuilder) : result HeaderError bytes :=
  bbox ← check_bbox b;
  Ok (when bbox (fun '(l, bt, r, t) => encode_bytes_field header_block.BBOX (bbox_message l bt r t)) ++
      encode_bytes_field header_block.REQUIRED_FEATURES OSM_SCHEMA_V06 ++
      encode_bytes_field header_block.REQUIRED_FEATURES DENSE_NODES ++
      (if hb_historical_information b then encode_bytes_field header_block.REQUIRED_FEATURES HISTORICAL_INFORMATION else []) ++
      (if hb_sorted b then encode_bytes_field header_block.OPTIONAL_FEATURES SORT_TYPE_THEN_ID else []) ++
      concat (encode_bytes_field header_block.OPTIONAL_FEATURES <$> hb_optional_features b) ++
      encode_bytes_field_always header_block.WRITING_PROGRAM (hb_writing_program b) ++
      when (hb_source b) (encode_bytes_field_always header_block.SOURCE) ++
      when (hb_replication_timestamp b) (encode_int64_field_always header_block.REPLICATION_TIMESTAMP) ++
      when (hb_replication_sequence_number b) (encode_int64_field_always header_block.REPLICATION_SEQUENCE_NUMBER) ++
      when (hb_replication_base_url b) (encode_bytes_field_always header_block.REPLICATION_BASE_URL)).

End Building.

(** ** Overrides (src/src/commands/mod.rs) *)

Inductive FieldOverride (T : Type) := Unchanged | Set_ (v : T) | Clear.
Arguments Unchanged {T}.
Arguments Set_ {T} v.
Arguments Clear {T}.

Record HeaderOverrides := mkOverrides {
  ho_generator : option bytes;
  ho_replication_timestamp : FieldOverride Z;
  ho_replication_sequence_number : FieldOverride Z;
  ho_replication_base_url : FieldOverride bytes }.

Inductive HeaderOverrideKind := KTimestamp | KSequenceNumber | KBaseUrl.

(** [HeaderOverrideKey::ALL] and [HeaderOverrideKey::parse] *)
Definition OVERRIDE_KEYS : list (HeaderOverrideKind * bytes) :=
  [(KTimestamp, bs "osmosis_replication_timestamp"); (KSequenceNumber, bs "osmosis_replication_sequence_number");
   (KBaseUrl, bs "osmosis_replication_base_url")].
Definition key_parse (value : bytes) : option HeaderOverrideKind :=
  fst <$> List.find (fun '(_, name) => bool_decide (name = value)) OVERRIDE_KEYS.

Inductive OutputHeaderEntry :=
| ReplicationTimestamp (v : option Z)
| ReplicationSequenceNumber (v : option Z)
| ReplicationBaseUrl (v : option bytes).

Inductive EntryError := NotAnEntry (entry : bytes) | UnknownKey (key : bytes) | BadTimestamp (value : bytes) | BadSequenceNumber (value : bytes).

(** [OutputHeaderEntry::from_str] *)
Definition entry_from_str (entry : bytes) : result EntryError OutputHeaderEntry :=
  match split_once EQUALS entry with
  | None => Err (NotAnEntry entry)
  | Some (key, value) =>
      match key_parse key, value with
      | None, _ => Err (UnknownKey key)
      | Some KTimestamp, [] => Ok (ReplicationTimestamp None)
      | Some KSequenceNumber, [] => Ok (ReplicationSequenceNumber None)
      | Some KBaseUrl, [] => Ok (ReplicationBaseUrl None)
      | Some KTimestamp, _ =>
          match parse_i64 value with
          | Some seconds => Ok (ReplicationTimestamp (Some seconds))
          | None => match parse_rfc3339_utc value with
                    | Ok seconds => Ok (ReplicationTimestamp (Some seconds))
                    | Err _ => Err (BadTimestamp value)
                    end
          end
      | Some KSequenceNumber, _ =>
          match parse_i64 value with
          | Some seq => Ok (ReplicationSequenceNumber (Some seq))
          | None => Err (BadSequenceNumber value)
          end
      | Some KBaseUrl, _ => Ok (ReplicationBaseUrl (Some value))
      end
  end.

Definition override_field {T} (v : option T) : FieldOverride T := match v with Some t => Set_ t | None => Clear end.

(** One turn of [from_entries]: a later entry replaces an earlier one. *)
Definition take_entry (ov : HeaderOverrides) (e : OutputHeaderEntry) : HeaderOverrides :=
  let 'mkOverrides g ts sq url := ov in
  match e with
  | ReplicationTimestamp v => mkOverrides g (override_field v) sq url
  | ReplicationSequenceNumber v => mkOverrides g ts (override_field v) url
  | ReplicationBaseUrl v => mkOverrides g ts sq (override_field v)
  end.
Definition from_entries (generator : option bytes) (entries : list OutputHeaderEntry) : HeaderOverrides :=
  foldl take_entry (mkOverrides generator Unchanged Unchanged Unchanged) entries.

Fixpoint parse_entries (l : list bytes) : result EntryError (list OutputHeaderEntry) :=
  match l with
  | [] => Ok []
  | e :: l => e ← entry_from_str e; es ← parse_entries l; Ok (e :: es)
  end.
(** [HeaderOverrides::parse] *)
Definition overrides_parse (generator : option bytes) (output_headers : list bytes) : result EntryError HeaderOverrides :=
  entries ← parse_entries output_headers; Ok (from_entries generator entries).

Definition overridden {T} (o : FieldOverride T) (put : option T -> HeaderBuilder -> HeaderBuilder) (b : HeaderBuilder) : HeaderBuilder :=
  match o with Unchanged => b | Set_ v => put (Some v) b | Clear => put None b end.

Definition overrides_apply (ov : HeaderOverrides) (b : HeaderBuilder) : HeaderBuilder :=
  let b := match ho_generator ov with Some program => set_writing_program program b | None => b end in
  overridden (ho_replication_base_url ov) put_base_url
    (overridden (ho_replication_sequence_number ov) put_sequence_number
       (overridden (ho_replication_timestamp ov) put_timestamp b)).

(** ** The policy of output headers (src/src/commands/output_header.rs) *)

Module output_header.

Inductive Order := Sorted | AsInput | Unsorted.
Inductive Ways := Reencoded | Stripped | ReencodedWithLocations | PayloadsCopied | BlobsCopied | Located (prepass : bool).
Inductive Bbox := Carry | Region (left bottom right top : f64) | Drop.
Inductive Replication := CarryState | AsOf (cutoff : Z) | FeedOnly | DropState.

Definition from_copy (any_way_rewritten any_way_reframed : bool) : Ways :=
  if any_way_rewritten then Reencoded else if any_way_reframed then PayloadsCopied else BlobsCopied.

Record OutputFacts := mkFacts { of_order : Order; of_ways : Ways; of_bbox : Bbox; of_replication : Replication }.

Definition facts_carry (ways : Ways) : OutputFacts := mkFacts AsInput ways Carry CarryState.
Definition facts_sorted (ways : Ways) : OutputFacts := mkFacts Sorted ways Carry CarryState.

Record Declared := mkDeclared { d_sorted : bool; d_locations_on_ways : bool; d_way_members : bool; d_shared_node_pins : bool }.

Definition way_enrichment (d : Declared) : bool := d_locations_on_ways d || d_way_members d || d_shared_node_pins d.

(** The features [broken_by_unindexed_way_blob] names. *)
Definition broken_features (d : Declared) : list bytes :=
  snd <$> filter (fun p => p.1 = true)
    [(d_locations_on_ways d, LOCATIONS_ON_WAYS); (d_way_members d, WAY_MEMBERS_V1); (d_shared_node_pins d, SHARED_NODE_PINS_V1)].

Definition declare (inputs : list WireHeaderBlock) (facts : OutputFacts) : Declared :=
  let all has := forallb has inputs in
  let one has := match inputs with [h] => has h | _ => false end in
  mkDeclared
    (match of_order facts with Sorted => true | AsInput => one is_sorted | Unsorted => false end)
    (match of_ways facts with
     | Reencoded | Stripped => false
     | ReencodedWithLocations | PayloadsCopied | BlobsCopied => all has_locations_on_ways
     | Located _ => true
     end)
    (match of_ways facts with BlobsCopied => one has_way_members_v1 | Located prepass => prepass | _ => false end)
    (match of_ways facts with
     | Reencoded | Stripped | ReencodedWithLocations => false
     | PayloadsCopied | BlobsCopied => one has_shared_node_pins_v1
     | Located prepass => prepass
     end).

(** [warn_undeclared]: the features warned of. *)
Definition undeclared (inputs : list WireHeaderBlock) (d : Declared) : list bytes :=
  snd <$> filter (fun p => p.1 = true)
    [(negb (d_locations_on_ways d) && existsb has_locations_on_ways inputs, LOCATIONS_ON_WAYS);
     (negb (d_way_members d) && existsb has_way_members_v1 inputs, WAY_MEMBERS_V1);
     (negb (d_shared_node_pins d) && existsb has_shared_node_pins_v1 inputs, SHARED_NODE_PINS_V1)].

Definition widen (edge : f64) (outer : Z -> Z -> Z) : f64 :=
  let nanos := to_nanos edge in over_1e9 (outer nanos (Z.quot nanos 100 * 100)).

Definition reduce (pick : f64 -> f64 -> f64) (l : list f64) : f64 :=
  match l with [] => f64_nan | x :: l => foldl pick x l end.

(** (left, bottom, right, top) *)
Definition carried_bbox (inputs : list WireHeaderBlock) : option (f64 * f64 * f64 * f64) :=
  boxes ← mapM header_bbox_degrees inputs;
  let fold pick (get : f64 * f64 * f64 * f64 -> f64) := reduce pick (get <$> boxes) in
  Some (widen (fold fmin (fun b => b.1.1.1)) Z.min, widen (fold fmin (fun b => b.2)) Z.min,
        widen (fold fmax (fun b => b.1.1.2)) Z.max, widen (fold fmax (fun b => b.1.2)) Z.max).

(** The value every header agrees on. *)
Definition agreed {T} `{EqDecision T} (headers : list WireHeaderBlock) (get : WireHeaderBlock -> option T) : option T :=
  h ← head headers; first ← get h;
  if forallb (fun h => bool_decide (get h = Some first)) headers then Some first else None.

Definition replication_state (h : WireHeaderBlock) : option Z * option Z * option bytes :=
  (wh_replication_timestamp h, wh_replication_sequence_number h, wh_replication_base_url h).

Definition agreed_replication (inputs : list WireHeaderBlock) : option Z * option Z * option bytes :=
  let url := agreed inputs wh_replication_base_url in
  match head inputs with
  | Some h => let first := replication_state h in
      if forallb (fun h => bool_decide (replication_state h = first)) inputs then (first.1.1, first.1.2, url) else (None, None, url)
  | None => (None, None, url)
  end.

Definition policy_replication (r : Replication) (s : option Z * option Z * option bytes) : option Z * option Z * option bytes :=
  let '(ts, sq, url) := s in
  match r with
  | CarryState => s
  | AsOf cutoff => match ts with
                   | Some t => if t <=? cutoff then s else (Some cutoff, None, url)
                   | None => (ts, None, url)
                   end
  | FeedOnly => (None, None, url)
  | DropState => (None, None, None)
  end.

Definition put_some {T} (o : option T) (put : option T -> HeaderBuilder -> HeaderBuilder) (b : HeaderBuilder) : HeaderBuilder :=
  match o with Some v => put (Some v) b | None => b end.
Definition feature_if (on : bool) (f : bytes) (b : HeaderBuilder) : HeaderBuilder := if on then optional_feature f b else b.

(** The builder [build] fills, before the overrides. *)
Definition policy_builder (inputs : list WireHeaderBlock) (facts : OutputFacts) : HeaderBuilder :=
  let d := declare inputs facts in
  let hb := HeaderBuilder_new in
  let hb := match of_bbox facts with
            | Carry => match carried_bbox inputs with Some (l, bt, r, t) => set_input_bbox l bt r t hb | None => hb end
            | Region l bt r t => set_bbox l bt r t hb
            | Drop => hb
            end in
  let '(ts, sq, url) := policy_replication (of_replication facts) (agreed_replication inputs) in
  let hb := put_some ts put_timestamp hb in
  let hb := put_some sq put_sequence_number hb in
  let hb := put_some url put_base_url hb in
  let hb := put_some (agreed inputs wh_source) put_source hb in
  let hb := if existsb has_historical_information inputs then set_historical hb else hb in
  let hb := if d_sorted d then set_sorted hb else hb in
  let hb := feature_if (d_locations_on_ways d) LOCATIONS_ON_WAYS hb in
  let hb := feature_if (d_way_members d) WAY_MEMBERS_V1 hb in
  feature_if (d_shared_node_pins d) SHARED_NODE_PINS_V1 hb.

Section Policy.
Context {P : Protohoggr}.

(** [build]: what it warned of, and the header's bytes and declaration. *)
Definition build (inputs : list WireHeaderBlock) (facts : OutputFacts) (overrides : HeaderOverrides)
  : list bytes * result HeaderError (bytes * Declared) :=
  match inputs with
  | [] => ([], Err NoInputs)
  | _ =>
      let d := declare inputs facts in
      (match of_ways facts with Stripped => [] | _ => undeclared inputs d end,
       bytes ← header_build (overrides_apply overrides (policy_builder inputs facts)); Ok (bytes, d))
  end.

Definition build_one (input : WireHeaderBlock) (facts : OutputFacts) (overrides : HeaderOverrides)
  : list bytes * result HeaderError (bytes * Declared) := build [input] facts overrides.

Definition overrides_it {T} (o : FieldOverride T) : bool := match o with Unchanged => false | _ => true end.
Definition when_set {T} (o : FieldOverride T) (f : T -> bytes) : bytes := match o with Set_ v => f v | _ => [] end.

Definition verbatim_strip (strip_bbox : bool) (ov : HeaderOverrides) : list HeaderBlockField :=
  (if strip_bbox then [FBbox] else []) ++ (if bool_decide (is_Some (ho_generator ov)) then [FWritingProgram] else []) ++
  (if overrides_it (ho_replication_timestamp ov) then [FReplicationTimestamp] else []) ++
  (if overrides_it (ho_replication_sequence_number ov) then [FReplicationSequenceNumber] else []) ++
  (if overrides_it (ho_replication_base_url ov) then [FReplicationBaseUrl] else []).

Definition verbatim (header_block : bytes) (strip_bbox : bool) (ov : HeaderOverrides) : result WireError bytes :=
  match verbatim_strip strip_bbox ov with
  | [] => Ok header_block
  | strip =>
      out ← strip_header_block_fields header_block strip;
      Ok (out ++ when (ho_generator ov) (encode_bytes_field_always header_block.WRITING_PROGRAM) ++
          when_set (ho_replication_timestamp ov) (encode_int64_field_always header_block.REPLICATION_TIMESTAMP) ++
          when_set (ho_replication_sequence_number ov) (encode_int64_field_always header_block.REPLICATION_SEQUENCE_NUMBER) ++
          when_set (ho_replication_base_url ov) (encode_bytes_field_always header_block.REPLICATION_BASE_URL))
  end.

End Policy.
End output_header.
