(* ===== verification/HeaderSpec.v ===== *)
(** * What a header says

    The header a builder writes read back ([header_reads_back]), and the output
    policy against its inputs: a header declares no feature, box or replication
    state its inputs and the command's facts do not support. *)

From S2P Require Import Prelude StdText Float64 Proto Wire Encode Utf8 Codec BlobMeta BlobWire BlobDecode Framing Timestamp TagExpr Header.

(** A [String]: UTF-8, and short enough to be a slice. *)
Definition text (s : bytes) : Prop := from_utf8 s = Ok tt /\ fits s.
Definition otext (o : option bytes) : Prop := forall s, o = Some s -> text s.
Definition oi64 (o : option Z) : Prop := forall v, o = Some v -> is_i64 v.

Definition builder_ok (b : HeaderBuilder) : Prop :=
  oi64 (hb_replication_timestamp b) /\ oi64 (hb_replication_sequence_number b) /\ otext (hb_replication_base_url b) /\
  otext (hb_source b) /\ Forall text (hb_optional_features b) /\ text (hb_writing_program b).

(** The header a builder stands for, its box being [box] (left, bottom, right,
    top); an empty feature name is not written. *)
Definition header_said (b : HeaderBuilder) (box : option (Z * Z * Z * Z)) : WireHeaderBlock :=
  mkHeaderBlock ((fun '(l, bt, r, t) => mkHeaderBBox l r t bt) <$> box)
    ([OSM_SCHEMA_V06; DENSE_NODES] ++ if hb_historical_information b then [HISTORICAL_INFORMATION] else [])
    (filter (fun f => f <> []) ((if hb_sorted b then [SORT_TYPE_THEN_ID] else []) ++ hb_optional_features b))
    (Some (hb_writing_program b)) (hb_source b) (hb_replication_timestamp b) (hb_replication_sequence_number b)
    (hb_replication_base_url b).

Section Fields.
Context `{L : ProtohoggrLaws}.

Lemma read_string_moves c msg s c' : read_string c msg = Ok (s, c') -> c' `suffix_of` c.
Proof.
  unfold read_string. intros H. apply bind_ok in H as ([b c1] & Hr & H). apply lift_ok, read_len_delimited_moves in Hr.
  destruct (from_utf8 b); by simplify_eq.
Qed.

(** The arm a step took, down to its read. *)
Ltac header_arm :=
  match goal with
  | H : skip_arm _ _ _ = Ok _ |- _ => by apply skip_arm_shrinks in H
  | H : _ ≫= _ = Ok _ |- _ =>
      apply bind_ok in H as ([? ?] & H & ?);
      first [apply read_string_moves in H|apply lift_ok in H; first [apply read_len_delimited_moves in H
        |apply read_sint64_moves in H|apply read_varint_i64_moves in H]];
      repeat match goal with H' : _ ≫= _ = Ok _ |- _ => apply bind_ok in H' as (? & _ & ?) end; by simplify_eq
  end.

Lemma bbox_shrinks : shrinks bbox_step.
Proof. intros [] f w c st' c' H. unfold bbox_step in H. repeat case_match; header_arm. Qed.

Lemma header_block_shrinks : shrinks header_block_step.
Proof. intros [] f w c st' c' H. unfold header_block_step in H. repeat case_match; header_arm. Qed.

Lemma parse_always {St} (step : St -> Z -> Z -> bytes -> result WireError (St * bytes)) st f d r st' :
  shrinks step -> 1 <= f < 2 ^ 29 -> step st f WIRE_LEN (encode_varint (blen d) ++ d ++ r) = Ok (st', r) ->
  parse step st (encode_bytes_field_always f d ++ r) = parse step st' r.
Proof.
  intros Hs Hf Hst. rewrite encode_bytes_field_always_spec, <- !app_assoc.
  eapply (parse_turn _ Hs); [apply read_tag_encode; [done|unfold WIRE_LEN; lia]|done].
Qed.

Lemma parse_int64_always {St} (step : St -> Z -> Z -> bytes -> result WireError (St * bytes)) st f v r st' :
  shrinks step -> 1 <= f < 2 ^ 29 -> step st f WIRE_VARINT (encode_varint (as_u64 v) ++ r) = Ok (st', r) ->
  parse step st (encode_int64_field_always f v ++ r) = parse step st' r.
Proof.
  intros Hs Hf Hst. rewrite encode_int64_field_always_spec, <- !app_assoc.
  eapply (parse_turn _ Hs); [apply read_tag_encode; [done|unfold WIRE_VARINT; lia]|done].
Qed.

Lemma parse_sint64_always {St} (step : St -> Z -> Z -> bytes -> result WireError (St * bytes)) st f v r st' :
  shrinks step -> 1 <= f < 2 ^ 29 -> step st f WIRE_VARINT (encode_varint (zigzag_encode_64 v) ++ r) = Ok (st', r) ->
  parse step st (encode_sint64_field_always f v ++ r) = parse step st' r.
Proof.
  intros Hs Hf Hst. rewrite encode_sint64_field_always_spec, <- !app_assoc.
  eapply (parse_turn _ Hs); [apply read_tag_encode; [done|unfold WIRE_VARINT; lia]|done].
Qed.

Lemma bbox_message_parse l bt r t : is_i64 l -> is_i64 bt -> is_i64 r -> is_i64 t ->
  WireHeaderBBox_parse (bbox_message l bt r t) = Ok (mkHeaderBBox l r t bt).
Proof.
  intros Hl Hbt Hr Ht. unfold WireHeaderBBox_parse, bbox_message.
  rewrite <- (app_nil_r (encode_sint64_field_always header_bbox.BOTTOM bt)).
  do 4 (erewrite parse_sint64_always;
    [|exact bbox_shrinks|done|cbn -[read_sint64]; rewrite read_sint64_encode by done; cbn [lift mbind result_bind]; reflexivity]).
  apply parse_nil.
Qed.

Lemma encode_varint_short v : is_u64 v -> 0 < blen (encode_varint v) <= 10.
Proof.
  intros Hv. rewrite encode_varint_len by done. unfold is_u in Hv. rewrite Z.log2_lor by lia. change (Z.log2 1) with 0.
  assert (Z.log2 v < 64) by (destruct (decide (v = 0)) as [->|]; [done|apply Z.log2_lt_pow2; lia]).
  pose proof (Z.log2_nonneg v). rewrite Z.max_l by done. dlia.
Qed.

Lemma bbox_message_fits l bt r t : is_i64 l -> is_i64 bt -> is_i64 r -> is_i64 t -> fits (bbox_message l bt r t) /\ bbox_message l bt r t <> [].
Proof.
  intros Hl Hbt Hr Ht. unfold bbox_message. rewrite !encode_sint64_field_always_spec.
  assert (forall f z, 1 <= f <= 4 -> is_i64 z -> 0 < blen (encode_tag f WIRE_VARINT ++ encode_varint (zigzag_encode_64 z)) <= 20) as Hz.
  { intros f z Hf Hz. rewrite blen_app, encode_tag_spec.
    pose proof (encode_varint_short (f * 8 + WIRE_VARINT) ltac:(unfold WIRE_VARINT; width)).
    pose proof (encode_varint_short _ (zigzag_range z Hz)). lia. }
  pose proof (Hz header_bbox.LEFT l ltac:(done) Hl). pose proof (Hz header_bbox.RIGHT r ltac:(done) Hr).
  pose proof (Hz header_bbox.TOP t ltac:(done) Ht). pose proof (Hz header_bbox.BOTTOM bt ltac:(done) Hbt).
  split; [unfold fits; rewrite !blen_app in *; lia|]. intros Hn. apply (f_equal blen) in Hn. change (blen []) with 0 in Hn. rewrite !blen_app in *. lia.
Qed.

Lemma read_string_encode s r msg : text s -> read_string (encode_varint (blen s) ++ s ++ r) msg = Ok (s, r).
Proof. intros [Hu Hf]. unfold read_string. rewrite read_len_delimited_encode by done. cbn [lift mbind result_bind]. by rewrite Hu. Qed.

Lemma parse_feature h f r : text f ->
  parse header_block_step h (encode_bytes_field header_block.OPTIONAL_FEATURES f ++ r) =
    parse header_block_step
      (let 'mkHeaderBlock bb rf fs wp so ts sq url := h in mkHeaderBlock bb rf (fs ++ filter (fun f => f <> []) [f]) wp so ts sq url) r.
Proof.
  intros Hf. destruct h as [bb rf fs wp so ts sq url]. apply (parse_bytes_field _ header_block_shrinks); [done|intros ->; by rewrite app_nil_r|].
  intros Hne. rewrite filter_cons_True by done. cbn -[read_string from_utf8]. by rewrite read_string_encode.
Qed.

Lemma parse_features bb rf fs wp so ts sq url l r : Forall text l ->
  parse header_block_step (mkHeaderBlock bb rf fs wp so ts sq url) (concat (encode_bytes_field header_block.OPTIONAL_FEATURES <$> l) ++ r) =
    parse header_block_step (mkHeaderBlock bb rf (fs ++ filter (fun f => f <> []) l) wp so ts sq url) r.
Proof.
  revert fs. induction l as [|f l IH]; intros fs HF; [by rewrite app_nil_r|]. apply Forall_cons in HF as [Hf HF].
  cbn [fmap list_fmap concat]. rewrite <- app_assoc, parse_feature by done. rewrite IH by done.
  by rewrite <- app_assoc, <- filter_app.
Qed.

Lemma parse_required bb rf fs wp so ts sq url f r : text f -> f <> [] ->
  parse header_block_step (mkHeaderBlock bb rf fs wp so ts sq url) (encode_bytes_field header_block.REQUIRED_FEATURES f ++ r) =
    parse header_block_step (mkHeaderBlock bb (rf ++ [f]) fs wp so ts sq url) r.
Proof.
  intros Hf Hne. apply (parse_bytes_field _ header_block_shrinks); [done|done|]. intros _. cbn -[read_string from_utf8]. by rewrite read_string_encode.
Qed.

Lemma named_text : text OSM_SCHEMA_V06 /\ text DENSE_NODES /\ text HISTORICAL_INFORMATION /\ text SORT_TYPE_THEN_ID /\
  text LOCATIONS_ON_WAYS /\ text WAY_MEMBERS_V1 /\ text SHARED_NODE_PINS_V1 /\ text DEFAULT_WRITING_PROGRAM.
Proof. unfold text, fits. split_and!; vm_compute; done. Qed.

(** One string or number field that is present or not. *)
Ltac header_field lem rd := erewrite lem; [|exact header_block_shrinks|done|cbn -[read_string from_utf8 read_varint_i64];
  rewrite rd by eauto; cbn [lift mbind result_bind]; reflexivity].

Lemma said_parse b box : builder_ok b -> (forall l bt r t, box = Some (l, bt, r, t) -> is_i64 l /\ is_i64 bt /\ is_i64 r /\ is_i64 t) ->
  check_bbox b = Ok box -> exists bytes, header_build b = Ok bytes /\ WireHeaderBlock_parse bytes = Ok (header_said b box).
Proof.
  intros (Hts & Hsq & Hurl & Hso & Hfs & Hwp) Hbox Hc. unfold header_build. rewrite Hc. cbn [mbind result_bind]. eexists. split; [reflexivity|].
  unfold WireHeaderBlock_parse, header_said, header_block_init.
  destruct named_text as (N1 & N2 & N3 & N4 & _). destruct b as [bx fi ts sq url so fs hi st wp]. cbn in *.
  assert (forall r, parse header_block_step (mkHeaderBlock None [] [] None None None None None)
      (when box (fun '(l, bt, r, t) => encode_bytes_field header_block.BBOX (bbox_message l bt r t)) ++ r) =
    parse header_block_step (mkHeaderBlock ((fun '(l, bt, r, t) => mkHeaderBBox l r t bt) <$> box) [] [] None None None None None) r) as Hb.
  { intros r'. destruct box as [[[[l bt] r] t]|]; [|done]. destruct (Hbox _ _ _ _ eq_refl) as (? & ? & ? & ?). cbn [when fmap option_fmap option_map].
    destruct (bbox_message_fits l bt r t) as [Hf Hne]; try done.
    apply (parse_bytes_field _ header_block_shrinks); [done|done|]. intros _. cbn -[read_len_delimited WireHeaderBBox_parse bbox_message].
    rewrite read_len_delimited_encode by done. cbn [lift mbind result_bind]. by rewrite bbox_message_parse. }
  rewrite Hb, !parse_required by done. clear Hb. set (bb := _ <$> box). clearbody bb. cbn [app].
  replace (parse header_block_step _ _) with
    (parse header_block_step
       (mkHeaderBlock bb ([OSM_SCHEMA_V06; DENSE_NODES] ++ if hi then [HISTORICAL_INFORMATION] else [])
          (filter (fun f => f <> []) ((if st then [SORT_TYPE_THEN_ID] else []) ++ fs)) None None None None None)
       (encode_bytes_field_always header_block.WRITING_PROGRAM wp ++ when so (encode_bytes_field_always header_block.SOURCE) ++
        when ts (encode_int64_field_always header_block.REPLICATION_TIMESTAMP) ++
        when sq (encode_int64_field_always header_block.REPLICATION_SEQUENCE_NUMBER) ++
        when url (encode_bytes_field_always header_block.REPLICATION_BASE_URL) ++ [])).
  2: { destruct hi, st; cbn [app]; rewrite ?parse_required, ?parse_feature, parse_features by done; rewrite ?app_nil_r, ?filter_app; done. }
  header_field @parse_always @read_string_encode.
  destruct so; cbn [when app]; [header_field @parse_always @read_string_encode|].
  all: destruct ts; cbn [when app]; [header_field @parse_int64_always @read_varint_i64_encode|].
  all: destruct sq; cbn [when app]; [header_field @parse_int64_always @read_varint_i64_encode|].
  all: destruct url; cbn [when app]; [header_field @parse_always @read_string_encode|].
  all: apply parse_nil.
Qed.
End Fields.

(** ** Boxes *)

(** A nanodegree a header may hold: the widest longitude is below 2^38. *)
Definition near (n : Z) : Prop := Z.abs n <= 2 ^ 48.

(** What [build] refuses of a box of nanodegrees; a box taken from an input is
    never refused. *)
Definition caller_refusal (from_input : bool) (l bt r t : Z) : option HeaderError :=
  if from_input then None
  else if negb ((-180000000000 <=? l) && (l <=? 180000000000) && ((-180000000000 <=? r) && (r <=? 180000000000))) then Some BoxLongitude
  else if negb ((-90000000000 <=? bt) && (bt <=? 90000000000) && ((-90000000000 <=? t) && (t <=? 90000000000))) then Some BoxLatitude
  else if (r <? l) || (t <? bt) then Some BoxInverted else None.

Lemma check_degrees b l bt r t : near l -> near bt -> near r -> near t ->
  hb_bbox b = Some (to_degrees l, to_degrees bt, to_degrees r, to_degrees t) ->
  check_bbox b = match caller_refusal (hb_bbox_from_input b) l bt r t with Some e => Err e | None => Ok (Some (l, bt, r, t)) end.
Proof.
  unfold near. intros Hl Hbt Hr Ht Hb. unfold check_bbox, within, caller_refusal. rewrite Hb, !finite_degrees by done.
  destruct F180_degrees as (-> & -> & -> & ->). rewrite !fle_degrees, !flt_degrees, !degrees_back by lia. cbn [andb negb].
  by destruct (hb_bbox_from_input b); cbn [andb negb]; repeat case_match.
Qed.

Lemma check_i64 b l bt r t : check_bbox b = Ok (Some (l, bt, r, t)) -> is_i64 l /\ is_i64 bt /\ is_i64 r /\ is_i64 t.
Proof.
  unfold check_bbox. destruct (hb_bbox b) as [[[[fl fbt] fr] ft]|]; [|done]. repeat case_match; try done. intros [= <- <- <- <-].
  unfold to_nanos. split_and!; apply round_i64_range.
Qed.

Lemma check_presence b box : check_bbox b = Ok box -> box = None <-> hb_bbox b = None.
Proof. unfold check_bbox. destruct (hb_bbox b) as [[[[l bt] r] t]|]; repeat case_match; intros [= <-]; done. Qed.

(** ** What a parsed header holds *)

Definition header_ok (h : WireHeaderBlock) : Prop :=
  oi64 (wh_replication_timestamp h) /\ oi64 (wh_replication_sequence_number h) /\ otext (wh_replication_base_url h) /\ otext (wh_source h).

Section Parsed.
Context `{L : ProtohoggrLaws}.

Lemma read_string_text c msg s c' : fits c -> read_string c msg = Ok (s, c') -> text s.
Proof.
  intros Hc H. unfold read_string in H. apply bind_ok in H as ([b c1] & Hr & H). apply lift_ok in Hr.
  apply read_len_delimited_split in Hr as [p ->]. destruct (from_utf8 b) as [[]|] eqn:Hu; [|done]. injection H as <- <-. split; [done|].
  unfold fits in *. rewrite !blen_app in Hc. pose proof (blen_nonneg p). pose proof (blen_nonneg c1). lia.
Qed.

Lemma header_step_ok h f w c h' c' : fits c -> header_ok h -> header_block_step h f w c = Ok (h', c') -> header_ok h'.
Proof.
  intros Hc (H1 & H2 & H3 & H4) H. destruct h as [bb rf fs wp so ts sq url]. unfold header_block_step in H. cbn in H1, H2, H3, H4.
  repeat case_match; try (apply bind_ok in H as ([v c1] & Hv & H)).
  all: try (unfold skip_arm in H; apply bind_ok in H as (c2 & _ & H)).
  all: repeat match goal with H' : _ ≫= _ = Ok _ |- _ => apply bind_ok in H' as (? & _ & ?) end; simplify_eq.
  all: split_and!; cbn; try done.
  all: try (intros s [= <-]; by eapply read_string_text).
  all: apply lift_ok in Hv; rewrite read_varint_i64_spec in Hv; destruct (read_varint c) as [[u c2]|]; [|done]; simplify_eq.
  all: intros s [= <-]; by apply as_s_range.
Qed.

Lemma parsed_ok data h : fits data -> WireHeaderBlock_parse data = Ok h -> header_ok h.
Proof.
  intros Hd Hp. destruct (parse_sim header_block_step header_block_step (fun x y => x = y /\ header_ok x) data header_block_init header_block_init h)
    as (h' & _ & _ & Hok); try done; [apply header_block_shrinks|].
  intros x y f w c x' c' [p Hc] [<- Hx] Hs. exists x'. split; [done|]. split; [done|]. eapply header_step_ok; [|exact Hx|exact Hs].
  unfold fits in *. rewrite Hc, blen_app in Hd. pose proof (blen_nonneg p). lia.
Qed.
End Parsed.

(** ** The carried box *)

Definition box_near (b : WireHeaderBBox) : Prop := near (hx_left b) /\ near (hx_right b) /\ near (hx_top b) /\ near (hx_bottom b).

Lemma near_pick pick (l : list Z) x : (forall a b, pick a b = a \/ pick a b = b) -> near x -> Forall near l -> near (foldl pick x l).
Proof.
  intros Hp. revert x. induction l as [|y l IH]; intros x Hx HF; [done|]. apply Forall_cons in HF as [Hy HF]. cbn. apply IH; [|done].
  by destruct (Hp x y) as [->| ->].
Qed.

Lemma fold_degrees fpick pick (l : list Z) x :
  (forall a b, near a -> near b -> fpick (to_degrees a) (to_degrees b) = to_degrees (pick a b)) -> (forall a b, pick a b = a \/ pick a b = b) ->
  near x -> Forall near l -> foldl fpick (to_degrees x) (to_degrees <$> l) = to_degrees (foldl pick x l).
Proof.
  intros Hf Hp. revert x. induction l as [|y l IH]; intros x Hx HF; [done|]. apply Forall_cons in HF as [Hy HF]. cbn [fmap list_fmap foldl].
  rewrite Hf by done. apply IH; [|done]. by destruct (Hp x y) as [->| ->].
Qed.

Lemma fold_min_le (l : list Z) x : foldl Z.min x l <= x /\ forall y, y ∈ l -> foldl Z.min x l <= y.
Proof.
  revert x. induction l as [|z l IH]; intros x; cbn [foldl]; [split; [lia|intros y Hy; by apply not_elem_of_nil in Hy]|].
  destruct (IH (Z.min x z)) as [H1 H2]. split; [lia|]. intros y [->|Hy]%elem_of_cons; [lia|by apply H2].
Qed.

Lemma fold_max_le (l : list Z) x : x <= foldl Z.max x l /\ forall y, y ∈ l -> y <= foldl Z.max x l.
Proof.
  revert x. induction l as [|z l IH]; intros x; cbn [foldl]; [split; [lia|intros y Hy; by apply not_elem_of_nil in Hy]|].
  destruct (IH (Z.max x z)) as [H1 H2]. split; [lia|]. intros y [->|Hy]%elem_of_cons; [lia|by apply H2].
Qed.

(** Onto the grid of 100 nanodegrees, toward zero, as the decoder does. *)
Definition on_grid (n : Z) : Z := Z.quot n 100 * 100.

Lemma on_grid_mono a b : a <= b -> on_grid a <= on_grid b.
Proof. intros H. unfold on_grid. pose proof (Z.quot_le_mono a b 100 ltac:(lia) H). lia. Qed.

Lemma on_grid_near a : near a -> near (on_grid a).
Proof. unfold near, on_grid. intros H. pose proof (Z.quot_rem' a 100). pose proof (Z.rem_bound_abs a 100 ltac:(lia)). dlia. Qed.

(** Edges of a carried box, from the inputs' edges. *)
Definition low_edge (l : list Z) : Z := match l with [] => 0 | x :: l => let m := foldl Z.min x l in Z.min m (on_grid m) end.
Definition high_edge (l : list Z) : Z := match l with [] => 0 | x :: l => let m := foldl Z.max x l in Z.max m (on_grid m) end.

Lemma low_edge_covers l x n : x ∈ l -> x <= n -> low_edge l <= n /\ low_edge l <= on_grid n.
Proof.
  destruct l as [|z l]; [intros H; by apply not_elem_of_nil in H|]. intros Hx Hn. cbn [low_edge]. destruct (fold_min_le l z) as [H1 H2].
  assert (foldl Z.min z l <= n) as Hm by (apply elem_of_cons in Hx as [->|Hx]; [lia|specialize (H2 _ Hx); lia]).
  apply on_grid_mono in Hm as Hg. lia.
Qed.

Lemma high_edge_covers l x n : x ∈ l -> n <= x -> n <= high_edge l /\ on_grid n <= high_edge l.
Proof.
  destruct l as [|z l]; [intros H; by apply not_elem_of_nil in H|]. intros Hx Hn. cbn [high_edge]. destruct (fold_max_le l z) as [H1 H2].
  assert (n <= foldl Z.max z l) as Hm by (apply elem_of_cons in Hx as [->|Hx]; [lia|specialize (H2 _ Hx); lia]).
  apply on_grid_mono in Hm as Hg. lia.
Qed.

Import output_header.

Lemma widen_low l : l <> [] -> Forall near l -> widen (reduce fmin (to_degrees <$> l)) Z.min = over_1e9 (low_edge l) /\ near (low_edge l).
Proof.
  intros Hne HF. destruct l as [|x l]; [done|]. apply Forall_cons in HF as [Hx HF]. cbn [fmap list_fmap reduce low_edge].
  rewrite (fold_degrees fmin Z.min _ _ fmin_degrees ltac:(lia)) by done. unfold widen.
  pose proof (near_pick Z.min l x ltac:(lia) Hx HF) as Hm. rewrite degrees_back by done. split; [done|].
  destruct (Z.min_spec (foldl Z.min x l) (on_grid (foldl Z.min x l))) as [[_ ->]|[_ ->]]; [done|by apply on_grid_near].
Qed.

Lemma widen_high l : l <> [] -> Forall near l -> widen (reduce fmax (to_degrees <$> l)) Z.max = over_1e9 (high_edge l) /\ near (high_edge l).
Proof.
  intros Hne HF. destruct l as [|x l]; [done|]. apply Forall_cons in HF as [Hx HF]. cbn [fmap list_fmap reduce high_edge].
  rewrite (fold_degrees fmax Z.max _ _ fmax_degrees ltac:(lia)) by done. unfold widen.
  pose proof (near_pick Z.max l x ltac:(lia) Hx HF) as Hm. rewrite degrees_back by done. split; [done|].
  destruct (Z.max_spec (foldl Z.max x l) (on_grid (foldl Z.max x l))) as [[_ ->]|[_ ->]]; [by apply on_grid_near|done].
Qed.

Lemma carried_spec inputs boxes : Forall2 (fun h b => wh_bbox h = Some b) inputs boxes -> boxes <> [] -> Forall box_near boxes ->
  carried_bbox inputs = Some (over_1e9 (low_edge (hx_left <$> boxes)), over_1e9 (low_edge (hx_bottom <$> boxes)),
                              over_1e9 (high_edge (hx_right <$> boxes)), over_1e9 (high_edge (hx_top <$> boxes))) /\
  near (low_edge (hx_left <$> boxes)) /\ near (low_edge (hx_bottom <$> boxes)) /\
  near (high_edge (hx_right <$> boxes)) /\ near (high_edge (hx_top <$> boxes)).
Proof.
  intros HF2 Hne HF. unfold carried_bbox.
  set (deg b := (to_degrees (hx_left b), to_degrees (hx_right b), to_degrees (hx_top b), to_degrees (hx_bottom b))).
  assert (mapM header_bbox_degrees inputs = Some (deg <$> boxes)) as ->.
  { apply mapM_Some. clear Hne HF. induction HF2 as [|h b inputs boxes Hb _ IH]; [constructor|]. constructor; [|exact IH].
    unfold header_bbox_degrees. by rewrite Hb. }
  cbn [mbind option_bind]. rewrite <- !list_fmap_compose.
  assert (forall get, (forall b, box_near b -> near (get b)) -> (get <$> boxes) <> [] /\ Forall near (get <$> boxes)) as Hg.
  { intros get Hget. split; [by destruct boxes|]. apply Forall_fmap. eapply Forall_impl; [exact HF|]. done. }
  destruct (Hg hx_left) as [L1 L2]; [by intros ? (? & ? & ? & ?)|]. destruct (Hg hx_bottom) as [B1 B2]; [by intros ? (? & ? & ? & ?)|].
  destruct (Hg hx_right) as [R1 R2]; [by intros ? (? & ? & ? & ?)|]. destruct (Hg hx_top) as [T1 T2]; [by intros ? (? & ? & ? & ?)|].
  destruct (widen_low _ L1 L2) as [EL NL], (widen_low _ B1 B2) as [EB NB], (widen_high _ R1 R2) as [ER NR], (widen_high _ T1 T2) as [ET NT].
  rewrite <- list_fmap_compose in EL, EB, ER, ET. split; [|done]. f_equal. repeat f_equal; done.
Qed.

Lemma carried_none inputs h : h ∈ inputs -> wh_bbox h = None -> carried_bbox inputs = None.
Proof.
  intros Hin Hb. unfold carried_bbox. destruct (mapM header_bbox_degrees inputs) as [bs|] eqn:Hm; [|done]. exfalso.
  apply mapM_Some in Hm. apply list_elem_of_lookup in Hin as [i Hi]. destruct (Forall2_lookup_l _ _ _ _ _ Hm Hi) as (b & _ & Hh).
  unfold header_bbox_degrees in Hh. by rewrite Hb in Hh.
Qed.

(** A box carried from nanodegrees is checked as those nanodegrees. *)
Lemma check_carried b l bt r t : near l -> near bt -> near r -> near t -> hb_bbox_from_input b = true ->
  hb_bbox b = Some (over_1e9 l, over_1e9 bt, over_1e9 r, over_1e9 t) -> check_bbox b = Ok (Some (l, bt, r, t)).
Proof.
  unfold near. intros Hl Hbt Hr Ht Hi Hb. unfold check_bbox. rewrite Hb, Hi, !finite_over_1e9 by done. cbn [andb negb].
  by rewrite !quotient_back.
Qed.

(** ** The policy's builder *)

Definition final {T} (o : FieldOverride T) (v : option T) : option T :=
  match o with Unchanged => v | Set_ x => Some x | Clear => None end.

Definition declared_features (d : Declared) : list bytes :=
  (if d_locations_on_ways d then [LOCATIONS_ON_WAYS] else []) ++ (if d_way_members d then [WAY_MEMBERS_V1] else []) ++
  (if d_shared_node_pins d then [SHARED_NODE_PINS_V1] else []).

Definition policy_box (inputs : list WireHeaderBlock) (facts : OutputFacts) : option (f64 * f64 * f64 * f64) * bool :=
  match of_bbox facts with
  | Carry => match carried_bbox inputs with Some b => (Some b, true) | None => (None, false) end
  | Region l bt r t => (Some (l, bt, r, t), false)
  | Drop => (None, false)
  end.

Lemma put_some_ts bx fi sq url so fs hi st wp ts :
  put_some ts put_timestamp (mkHeaderBuilder bx fi None sq url so fs hi st wp) = mkHeaderBuilder bx fi ts sq url so fs hi st wp.
Proof. by destruct ts. Qed.
Lemma put_some_sq bx fi ts url so fs hi st wp sq :
  put_some sq put_sequence_number (mkHeaderBuilder bx fi ts None url so fs hi st wp) = mkHeaderBuilder bx fi ts sq url so fs hi st wp.
Proof. by destruct sq. Qed.
Lemma put_some_url bx fi ts sq so fs hi st wp url :
  put_some url put_base_url (mkHeaderBuilder bx fi ts sq None so fs hi st wp) = mkHeaderBuilder bx fi ts sq url so fs hi st wp.
Proof. by destruct url. Qed.
Lemma put_some_source bx fi ts sq url fs hi st wp so :
  put_some so put_source (mkHeaderBuilder bx fi ts sq url None fs hi st wp) = mkHeaderBuilder bx fi ts sq url so fs hi st wp.
Proof. by destruct so. Qed.
Lemma feature_if_adds bx fi ts sq url so fs hi st wp (on : bool) f :
  feature_if on f (mkHeaderBuilder bx fi ts sq url so fs hi st wp) =
    mkHeaderBuilder bx fi ts sq url so (fs ++ if on then [f] else []) hi st wp.
Proof. destruct on; [done|by rewrite app_nil_r]. Qed.
Lemma apply_final bx fi ts sq url so fs hi st wp ov :
  overrides_apply ov (mkHeaderBuilder bx fi ts sq url so fs hi st wp) =
    mkHeaderBuilder bx fi (final (ho_replication_timestamp ov) ts) (final (ho_replication_sequence_number ov) sq)
      (final (ho_replication_base_url ov) url) so fs hi st (default wp (ho_generator ov)).
Proof. by destruct ov as [[g|] [| |] [| |] [| |]]. Qed.

Lemma policy_filled inputs facts ov ts sq url :
  policy_replication (of_replication facts) (agreed_replication inputs) = (ts, sq, url) ->
  overrides_apply ov (policy_builder inputs facts) =
    mkHeaderBuilder (policy_box inputs facts).1 (policy_box inputs facts).2
      (final (ho_replication_timestamp ov) ts) (final (ho_replication_sequence_number ov) sq) (final (ho_replication_base_url ov) url)
      (agreed inputs wh_source) (declared_features (declare inputs facts)) (existsb has_historical_information inputs)
      (d_sorted (declare inputs facts)) (default DEFAULT_WRITING_PROGRAM (ho_generator ov)).
Proof.
  intros Hr. unfold policy_builder. rewrite Hr. unfold declared_features. set (d := declare inputs facts). clearbody d.
  set (hb := match of_bbox facts with Carry => _ | _ => _ end).
  assert (hb = mkHeaderBuilder (policy_box inputs facts).1 (policy_box inputs facts).2 None None None None [] false false DEFAULT_WRITING_PROGRAM) as ->.
  { unfold hb, policy_box. destruct (of_bbox facts); [destruct (carried_bbox inputs) as [[[[? ?] ?] ?]|]| |]; done. }
  rewrite put_some_ts, put_some_sq, put_some_url, put_some_source.
  replace (if existsb has_historical_information inputs then _ else _) with
    (mkHeaderBuilder (policy_box inputs facts).1 (policy_box inputs facts).2 ts sq url (agreed inputs wh_source) []
       (existsb has_historical_information inputs) false DEFAULT_WRITING_PROGRAM) by (by destruct (existsb _ inputs)).
  replace (if d_sorted d then _ else _) with
    (mkHeaderBuilder (policy_box inputs facts).1 (policy_box inputs facts).2 ts sq url (agreed inputs wh_source) []
       (existsb has_historical_information inputs) (d_sorted d) DEFAULT_WRITING_PROGRAM) by (by destruct (d_sorted d)).
  by rewrite !feature_if_adds, apply_final, <- !app_assoc.
Qed.

Section Claims.
Context `{L : ProtohoggrLaws}.

(** C20. A built header reads back.  Whatever a builder was given, the bytes it
    writes parse as exactly its features (an empty name apart), writing program,
    source and replication state, with a box exactly when one was set; a builder
    without a box always succeeds; and a box of nanodegrees converted to degrees
    comes back as the same nanodegrees, a caller's being refused exactly when it
    is out of range, longitude first, or inverted, and an input's never. *)
Theorem header_reads_back (b : HeaderBuilder) : builder_ok b ->
  (forall bytes, header_build b = Ok bytes ->
     exists box, WireHeaderBlock_parse bytes = Ok (header_said b box) /\ (box = None <-> hb_bbox b = None)) /\
  (hb_bbox b = None -> exists bytes, header_build b = Ok bytes) /\
  (forall l bt r t, near l -> near bt -> near r -> near t ->
     hb_bbox b = Some (to_degrees l, to_degrees bt, to_degrees r, to_degrees t) ->
     match caller_refusal (hb_bbox_from_input b) l bt r t with
     | Some e => header_build b = Err e
     | None => exists bytes, header_build b = Ok bytes /\ WireHeaderBlock_parse bytes = Ok (header_said b (Some (l, bt, r, t)))
     end).
Proof.
  intros Hb. assert (forall box, check_bbox b = Ok box ->
    exists bytes, header_build b = Ok bytes /\ WireHeaderBlock_parse bytes = Ok (header_said b box)) as Hgo.
  { intros box Hc. apply said_parse; [done| |done]. intros l bt r t ->. by eapply check_i64. }
  split_and!.
  - intros bytes Hbb. destruct (check_bbox b) as [box|e] eqn:Hc; [|unfold header_build in Hbb; by rewrite Hc in Hbb].
    destruct (Hgo box eq_refl) as (bytes' & Hb' & Hp). rewrite Hbb in Hb'. injection Hb' as <-. exists box. split; [done|].
    by apply check_presence.
  - intros Hn. destruct (Hgo None) as (bytes & Hb' & _); [unfold check_bbox; by rewrite Hn|by exists bytes].
  - intros l bt r t Hl Hbt Hr Ht Hx. pose proof (check_degrees b l bt r t Hl Hbt Hr Ht Hx) as Hc.
    destruct (caller_refusal _ l bt r t); [unfold header_build; by rewrite Hc|by apply Hgo].
Qed.

(** Headers as the readers give them, of inputs whose boxes are on the globe. *)
Definition input_header (data : bytes) (h : WireHeaderBlock) : Prop :=
  fits data /\ WireHeaderBlock_parse data = Ok h /\ forall b, wh_bbox h = Some b -> box_near b.

Definition overrides_ok (ov : HeaderOverrides) : Prop :=
  otext (ho_generator ov) /\ (forall v, ho_replication_timestamp ov = Set_ v -> is_i64 v) /\
  (forall v, ho_replication_sequence_number ov = Set_ v -> is_i64 v) /\ (forall u, ho_replication_base_url ov = Set_ u -> text u).

Lemma agreed_all {T} `{EqDecision T} inputs (get : WireHeaderBlock -> option T) v :
  agreed inputs get = Some v -> inputs <> [] /\ Forall (fun h => get h = Some v) inputs.
Proof.
  unfold agreed. destruct inputs as [|h inputs]; [done|]. cbn [head mbind option_bind]. destruct (get h) as [w|]; [|done]. cbn [mbind option_bind].
  destruct (forallb _ (h :: inputs)) eqn:Hf; [|done]. intros [= <-]. split; [done|]. apply Forall_forall. intros x Hx.
  rewrite forallb_forall in Hf. specialize (Hf x (proj1 (list_elem_of_In _ _) Hx)). by apply bool_decide_eq_true in Hf.
Qed.

Lemma agreed_state inputs ts sq url : agreed_replication inputs = (ts, sq, url) ->
  (url = agreed inputs wh_replication_base_url) /\
  (ts <> None \/ sq <> None -> inputs <> [] /\ exists u, Forall (fun h => replication_state h = (ts, sq, u)) inputs).
Proof.
  unfold agreed_replication. destruct inputs as [|h inputs]; cbn [head]; [intros [= <- <- <-]; split; [done|tauto]|].
  destruct (forallb _ (h :: inputs)) eqn:Hf; intros [= <- <- <-]; (split; [done|]); [|tauto].
  intros _. split; [done|]. exists (wh_replication_base_url h). apply Forall_forall. intros x Hx. rewrite forallb_forall in Hf.
  specialize (Hf x (proj1 (list_elem_of_In _ _) Hx)). by apply bool_decide_eq_true in Hf.
Qed.

Lemma final_ok {T} (Q : T -> Prop) (o : FieldOverride T) v : (forall x, o = Set_ x -> Q x) -> (forall x, v = Some x -> Q x) ->
  forall x, final o v = Some x -> Q x.
Proof. intros Ho Hv x. destruct o; cbn; [by apply Hv|intros [= <-]; by apply Ho|done]. Qed.

(** What the policy keeps of the agreed state. *)
Lemma policy_kept r ts sq url ts' sq' url' : policy_replication r (ts, sq, url) = (ts', sq', url') ->
  (ts' = ts \/ ts' = None \/ exists c, r = AsOf c /\ ts' = Some c) /\ (sq' = sq \/ sq' = None) /\ (url' = url \/ url' = None).
Proof. destruct r; cbn; repeat case_match; intros [= <- <- <-]; eauto 10. Qed.

Definition cutoff_ok (facts : OutputFacts) : Prop := forall c, of_replication facts = AsOf c -> is_i64 c.

Lemma policy_ok datas inputs facts ov : Forall2 input_header datas inputs -> overrides_ok ov -> cutoff_ok facts ->
  builder_ok (overrides_apply ov (policy_builder inputs facts)).
Proof.
  intros HF (O1 & O2 & O3 & O4) Hcut. destruct (agreed_replication inputs) as [[ts0 sq0] url0] eqn:Ha.
  destruct (policy_replication (of_replication facts) (ts0, sq0, url0)) as [[ts sq] url] eqn:Hr.
  rewrite (policy_filled inputs facts ov ts sq url) by (by rewrite Ha).
  assert (Forall header_ok inputs) as Hok.
  { clear -HF L. induction HF as [|d h datas inputs (Hf & Hp & _) _ IH]; constructor; [by eapply parsed_ok|done]. }
  destruct (agreed_state _ _ _ _ Ha) as [-> Hst]. destruct (policy_kept _ _ _ _ _ _ _ Hr) as (K1 & K2 & K3).
  assert (forall {T} `{EqDecision T} (get : WireHeaderBlock -> option T) (Q : T -> Prop), (forall h, header_ok h -> forall v, get h = Some v -> Q v) ->
    forall v, agreed inputs get = Some v -> Q v) as Hag.
  { intros T ? get Q Hq v [Hne Hv]%agreed_all. destruct inputs as [|h inputs]; [done|]. apply Forall_cons in Hok as [Hh _], Hv as [Hv _]. by eapply Hq. }
  destruct named_text as (N1 & N2 & N3 & N4 & N5 & N6 & N7 & N8). split_and!; cbn [hb_replication_timestamp hb_replication_sequence_number
    hb_replication_base_url hb_source hb_optional_features hb_writing_program]; unfold oi64, otext.
  - apply final_ok; [done|]. intros x Hx. destruct K1 as [->|[->|(c & Hc & ->)]]; [|done|injection Hx as <-; by apply Hcut].
    destruct Hst as [Hne [u Hu]]; [left; by rewrite Hx|]. destruct inputs as [|h inputs]; [done|]. apply Forall_cons in Hok as [(H1 & _) _], Hu as [Hu _].
    apply H1. unfold replication_state in Hu. injection Hu as Hu _ _. by rewrite Hu.
  - apply final_ok; [done|]. intros x Hx. destruct K2 as [->| ->]; [|done]. destruct Hst as [Hne [u Hu]]; [right; by rewrite Hx|].
    destruct inputs as [|h inputs]; [done|]. apply Forall_cons in Hok as [(_ & H1 & _) _], Hu as [Hu _].
    apply H1. unfold replication_state in Hu. injection Hu as _ Hu _. by rewrite Hu.
  - apply final_ok; [done|]. intros x Hx. destruct K3 as [->| ->]; [|done]. revert x Hx. apply Hag. by intros h (_ & _ & ? & _).
  - intros x Hx. revert x Hx. apply Hag. by intros h (_ & _ & _ & ?).
  - unfold declared_features. destruct (declare inputs facts) as [? [] [] []]; repeat constructor; done.
  - destruct (ho_generator ov) as [g|] eqn:Hg; [by apply O1|done].
Qed.

(** The header a successful build writes. *)
Lemma build_said datas inputs facts ov warned bytes d : Forall2 input_header datas inputs -> overrides_ok ov -> cutoff_ok facts ->
  build inputs facts ov = (warned, Ok (bytes, d)) ->
  inputs <> [] /\ d = declare inputs facts /\ warned = (match of_ways facts with Stripped => [] | _ => undeclared inputs d end) /\
  exists box, WireHeaderBlock_parse bytes = Ok (header_said (overrides_apply ov (policy_builder inputs facts)) box) /\
    check_bbox (overrides_apply ov (policy_builder inputs facts)) = Ok box.
Proof.
  intros HF Ho Hcut Hb. assert (inputs <> []) as Hne by (by intros ->). pose proof (policy_ok _ _ facts _ HF Ho Hcut) as Hok.
  unfold build in Hb. destruct inputs as [|i inputs]; [done|]. set (b := overrides_apply _ _) in *. injection Hb as Hw Hb.
  destruct (header_build b) as [bytes'|e] eqn:Hbb; [|done]. injection Hb as -> <-. split; [done|]. split; [done|]. split; [done|].
  destruct (check_bbox b) as [box|e] eqn:Hc; [|unfold header_build in Hbb; by rewrite Hc in Hbb]. exists box. split; [|done].
  destruct (said_parse b box Hok) as (b2 & Hb2 & Hp); [|done|]; [intros l bt r t ->; by eapply check_i64|]. rewrite Hbb in Hb2. by injection Hb2 as <-.
Qed.

Lemma one_true (inputs : list WireHeaderBlock) (has : WireHeaderBlock -> bool) :
  match inputs with [h] => has h | _ => false end = true <-> exists i, inputs = [i] /\ has i = true.
Proof.
  destruct inputs as [|i [|j inputs]]; split; try done; try (intros (x & Hx & _); done).
  - intros H. by exists i.
  - by intros (x & [= <-] & H).
Qed.

Lemma all_true (inputs : list WireHeaderBlock) (has : WireHeaderBlock -> bool) : forallb has inputs = true <-> Forall (fun i => has i = true) inputs.
Proof.
  rewrite forallb_forall, Forall_forall. split; intros H x Hx; apply H; by apply list_elem_of_In.
Qed.

Lemma any_true (inputs : list WireHeaderBlock) (has : WireHeaderBlock -> bool) : existsb has inputs = true <-> exists i, i ∈ inputs /\ has i = true.
Proof. rewrite existsb_exists. split; intros (x & Hx & H); exists x; by (split; [apply list_elem_of_In|]). Qed.

Lemma declare_spec inputs facts :
  (d_sorted (declare inputs facts) = true <->
     of_order facts = Sorted \/ of_order facts = AsInput /\ exists i, inputs = [i] /\ is_sorted i = true) /\
  (d_locations_on_ways (declare inputs facts) = true <->
     (exists p, of_ways facts = Located p) \/
     of_ways facts ∈ [ReencodedWithLocations; PayloadsCopied; BlobsCopied] /\ Forall (fun i => has_locations_on_ways i = true) inputs) /\
  (d_way_members (declare inputs facts) = true <->
     of_ways facts = Located true \/ of_ways facts = BlobsCopied /\ exists i, inputs = [i] /\ has_way_members_v1 i = true) /\
  (d_shared_node_pins (declare inputs facts) = true <->
     of_ways facts = Located true \/
     of_ways facts ∈ [PayloadsCopied; BlobsCopied] /\ exists i, inputs = [i] /\ has_shared_node_pins_v1 i = true).
Proof.
  unfold declare. cbn [d_sorted d_locations_on_ways d_way_members d_shared_node_pins]. rewrite <- !one_true, <- all_true.
  split_and!; [destruct (of_order facts)|destruct (of_ways facts) as [| | | | |[]]..]; set_solver.
Qed.

Lemma said_features b box d : hb_sorted b = d_sorted d -> hb_optional_features b = declared_features d ->
  let h := header_said b box in
  is_sorted h = d_sorted d /\ has_locations_on_ways h = d_locations_on_ways d /\ has_way_members_v1 h = d_way_members d /\
  has_shared_node_pins_v1 h = d_shared_node_pins d /\
  (forall f, f ∈ wh_optional_features h -> f ∈ [SORT_TYPE_THEN_ID; LOCATIONS_ON_WAYS; WAY_MEMBERS_V1; SHARED_NODE_PINS_V1]).
Proof.
  intros Hs Hf h. subst h. unfold is_sorted, has_locations_on_ways, has_way_members_v1, has_shared_node_pins_v1, header_said. cbn [wh_optional_features].
  rewrite Hs, Hf. unfold declared_features. destruct d as [ds dl dw dp]. cbn [d_sorted d_locations_on_ways d_way_members d_shared_node_pins].
  split_and!; try (destruct ds, dl, dw, dp; vm_compute; reflexivity).
  intros f [_ Hin]%list_elem_of_filter. destruct ds, dl, dw, dp; set_solver.
Qed.

(** What each replication field of the output stands on. *)
Definition timestamp_stands (inputs : list WireHeaderBlock) (r : Replication) (t : Z) : Prop :=
  exists t0 s u, Forall (fun i => replication_state i = (Some t0, s, u)) inputs /\
    (r = CarryState /\ t = t0 \/ exists c, r = AsOf c /\ t = Z.min t0 c).
Definition sequence_stands (inputs : list WireHeaderBlock) (r : Replication) (s : Z) : Prop :=
  exists t0 u, Forall (fun i => replication_state i = (t0, Some s, u)) inputs /\
    (r = CarryState \/ exists c t, r = AsOf c /\ t0 = Some t /\ t <= c).
Definition url_stands (inputs : list WireHeaderBlock) (r : Replication) (u : bytes) : Prop :=
  Forall (fun i => wh_replication_base_url i = Some u) inputs /\ r <> DropState.

(** The field an override leaves: its own value, none, or what stands. *)
Definition overridden_field {T} (o : FieldOverride T) (v : option T) (stands : T -> Prop) : Prop :=
  match o with Set_ x => v = Some x | Clear => v = None | Unchanged => forall x, v = Some x -> stands x end.

Lemma replication_stands inputs facts ts sq url :
  policy_replication (of_replication facts) (agreed_replication inputs) = (ts, sq, url) ->
  (forall t, ts = Some t -> timestamp_stands inputs (of_replication facts) t) /\
  (forall s, sq = Some s -> sequence_stands inputs (of_replication facts) s) /\
  (forall u, url = Some u -> url_stands inputs (of_replication facts) u).
Proof.
  intros Hr. destruct (agreed_replication inputs) as [[ts0 sq0] url0] eqn:Ha. destruct (agreed_state _ _ _ _ Ha) as [-> Hst].
  assert (forall t, ts0 = Some t -> exists u, Forall (fun h => replication_state h = (Some t, sq0, u)) inputs) as Ht.
  { intros t ->. destruct Hst as [_ H]; [by left|done]. }
  assert (forall s, sq0 = Some s -> exists u, Forall (fun h => replication_state h = (ts0, Some s, u)) inputs) as Hs.
  { intros s ->. destruct Hst as [_ H]; [by right|done]. }
  clear Hst. unfold timestamp_stands, sequence_stands, url_stands. destruct (of_replication facts) as [|c| |]; cbn in Hr.
  - injection Hr as <- <- <-. split_and!.
    + intros t E. destruct (Ht t E) as [u Hu]. eauto 10.
    + intros s E. destruct (Hs s E) as [u Hu]. eauto 10.
    + intros u [_ Hu]%agreed_all. done.
  - assert (forall u, agreed inputs wh_replication_base_url = Some u ->
      Forall (fun i => wh_replication_base_url i = Some u) inputs /\ AsOf c <> DropState) as Hu by (intros u [_ Hu]%agreed_all; done).
    destruct ts0 as [t0|]; [destruct (Z.leb_spec t0 c)|]; injection Hr as <- <- <-; (split_and!; [..|done]).
    + intros t [= <-]. destruct (Ht t0 eq_refl) as [u Hf]. exists t0, sq0, u. split; [done|]. right. exists c. split; [done|lia].
    + intros s E. destruct (Hs s E) as [u Hf]. exists (Some t0), u. split; [done|]. right. by exists c, t0.
    + intros t [= <-]. destruct (Ht t0 eq_refl) as [u Hf]. exists t0, sq0, u. split; [done|]. right. exists c. split; [done|lia].
    + done.
    + done.
    + done.
  - injection Hr as <- <- <-. split_and!; [done|done|]. by intros u [_ Hu]%agreed_all.
  - by injection Hr as <- <- <-.
Qed.


Definition in_box (b : WireHeaderBBox) (lon lat : Z) : Prop := hx_left b <= lon <= hx_right b /\ hx_bottom b <= lat <= hx_top b.

Definition gridded (b : WireHeaderBBox) : Prop :=
  on_grid (hx_left b) = hx_left b /\ on_grid (hx_right b) = hx_right b /\ on_grid (hx_top b) = hx_top b /\ on_grid (hx_bottom b) = hx_bottom b.

(** The box of a header whose inputs all have one, and of one where some has none. *)
Lemma carried_written datas inputs facts ov : Forall2 input_header datas inputs -> overrides_ok ov -> cutoff_ok facts -> inputs <> [] ->
  of_bbox facts = Carry -> exists warned bytes d h, build inputs facts ov = (warned, Ok (bytes, d)) /\ WireHeaderBlock_parse bytes = Ok h /\
    ((exists i, i ∈ inputs /\ wh_bbox i = None) /\ wh_bbox h = None \/
     exists boxes, Forall2 (fun h b => wh_bbox h = Some b) inputs boxes /\
       wh_bbox h = Some (mkHeaderBBox (low_edge (hx_left <$> boxes)) (high_edge (hx_right <$> boxes)) (high_edge (hx_top <$> boxes))
                           (low_edge (hx_bottom <$> boxes)))).
Proof.
  intros HF Ho Hcut Hne Hcarry. pose proof (policy_ok _ _ facts _ HF Ho Hcut) as Hok.
  destruct (policy_replication (of_replication facts) (agreed_replication inputs)) as [[ts sq] url] eqn:Hr.
  pose proof (policy_filled inputs facts ov _ _ _ Hr) as Hpf. set (b := overrides_apply _ _) in *.
  assert (forall box, check_bbox b = Ok box -> exists warned bytes d,
    build inputs facts ov = (warned, Ok (bytes, d)) /\ WireHeaderBlock_parse bytes = Ok (header_said b box)) as Hgo.
  { intros box Hc. destruct (said_parse b box Hok) as (bytes & Hb & Hp); [intros l bt r t ->; by eapply check_i64|done|].
    unfold build. destruct inputs as [|i inputs]; [done|]. fold b. rewrite Hb. cbn [mbind result_bind]. by do 3 eexists. }
  assert ((exists i, i ∈ inputs /\ wh_bbox i = None) \/ exists boxes, Forall2 (fun h b => wh_bbox h = Some b) inputs boxes) as [(i & Hi & Hb)|[boxes Hbx]].
  { clear. induction inputs as [|i inputs IH]; [right; by exists []|]. destruct (wh_bbox i) as [x|] eqn:E; [|left; set_solver].
    destruct IH as [(j & Hj & Hn)|[boxes Hb]]; [left; set_solver|right]. exists (x :: boxes). by constructor. }
  - assert (hb_bbox b = None) as Hn by (rewrite Hpf; unfold policy_box; rewrite Hcarry; by rewrite (carried_none _ i)).
    destruct (Hgo None) as (w & bytes & d & Hb' & Hp); [unfold check_bbox; by rewrite Hn|].
    exists w, bytes, d, (header_said b None). split_and!; [done|done|]. left. split; [by exists i|done].
  - assert (Forall box_near boxes) as Hnear.
    { clear -HF Hbx. revert datas HF. induction Hbx as [|h x inputs boxes Hx _ IH]; intros datas HF; [constructor|].
      inversion HF as [|d ? datas' ? (_ & _ & Hd) HF']; subst. constructor; [by apply Hd|by eapply IH]. }
    assert (boxes <> []) as Hbn by (intros ->; by inversion Hbx; subst).
    destruct (carried_spec _ _ Hbx Hbn Hnear) as (Hc & N1 & N2 & N3 & N4).
    destruct (Hgo (Some (low_edge (hx_left <$> boxes), low_edge (hx_bottom <$> boxes), high_edge (hx_right <$> boxes), high_edge (hx_top <$> boxes))))
      as (w & bytes & d & Hb' & Hp).
    { apply check_carried; try done; rewrite Hpf; unfold policy_box; by rewrite Hcarry, Hc. }
    eexists w, bytes, d, _. split_and!; [done|exact Hp|]. right. by exists boxes.
Qed.

(** C21. A carried box covers the output.  When a command's coordinates come from
    its inputs, building the header succeeds; it has a box exactly when every
    input has one, the box then holds every point of every input's box and that
    point as a decoder truncates it onto the grid of 100 nanodegrees, and a
    single input's box already on the grid is carried to the nanodegree: the way
    through degrees in f64 loses nothing. *)
Theorem carried_box_covers (datas : list bytes) (inputs : list WireHeaderBlock) (facts : OutputFacts) (ov : HeaderOverrides) :
  Forall2 input_header datas inputs -> overrides_ok ov -> cutoff_ok facts -> inputs <> [] -> of_bbox facts = Carry ->
  exists warned bytes d h, build inputs facts ov = (warned, Ok (bytes, d)) /\ WireHeaderBlock_parse bytes = Ok h /\
    match wh_bbox h with
    | None => exists i, i ∈ inputs /\ wh_bbox i = None
    | Some b => forall i, i ∈ inputs -> exists bi, wh_bbox i = Some bi /\
        forall lon lat, in_box bi lon lat -> in_box b lon lat /\ in_box b (on_grid lon) (on_grid lat)
    end /\
    (forall i bi, inputs = [i] -> wh_bbox i = Some bi -> gridded bi -> wh_bbox h = Some bi).
Proof.
  intros HF Ho Hcut Hne Hcarry. destruct (carried_written _ _ _ _ HF Ho Hcut Hne Hcarry) as (w & bytes & d & h & Hb & Hp & Hbox).
  exists w, bytes, d, h. split; [done|]. split; [done|]. destruct Hbox as [[(i & Hi & Hn) ->]|(boxes & HF2 & ->)].
  - split; [by exists i|]. intros j bj -> Hj _. apply list_elem_of_singleton in Hi as ->. by rewrite Hn in Hj.
  - split.
    + intros i Hi. apply list_elem_of_lookup in Hi as [k Hk]. destruct (Forall2_lookup_l _ _ _ _ _ HF2 Hk) as (bi & Hbi & Hi). exists bi. split; [done|].
      intros lon lat [[X1 X2] [Y1 Y2]]. apply list_elem_of_lookup_2 in Hbi.
      destruct (low_edge_covers (hx_left <$> boxes) (hx_left bi) lon) as [A1 A2]; [by apply list_elem_of_fmap_2|done|].
      destruct (low_edge_covers (hx_bottom <$> boxes) (hx_bottom bi) lat) as [B1 B2]; [by apply list_elem_of_fmap_2|done|].
      destruct (high_edge_covers (hx_right <$> boxes) (hx_right bi) lon) as [C1 C2]; [by apply list_elem_of_fmap_2|done|].
      destruct (high_edge_covers (hx_top <$> boxes) (hx_top bi) lat) as [D1 D2]; [by apply list_elem_of_fmap_2|done|].
      done.
    + intros i bi -> Hbi (G1 & G2 & G3 & G4). apply Forall2_cons_inv_l in HF2 as (x & boxes' & Hx & HF2 & ->).
      inversion HF2; subst. rewrite Hbi in Hx. injection Hx as <-. destruct bi as [l r t bt]. cbn in *. rewrite G1, G2, G3, G4.
      by rewrite !Z.min_id, !Z.max_id.
Qed.

End Claims.

(** ** Samples *)

Import RefProto.

Definition sample_builder : HeaderBuilder :=
  optional_feature LOCATIONS_ON_WAYS (set_sorted (put_timestamp (Some 1700000000) (put_sequence_number (Some 0)
    (set_input_bbox (to_degrees (-9000000150)) (to_degrees 54000000000) (to_degrees 13000000000) (to_degrees 58000000050) HeaderBuilder_new)))).

Lemma sample_builder_ok : builder_ok sample_builder.
Proof.
  destruct named_text as (_ & _ & _ & _ & N5 & _ & _ & N8). unfold builder_ok.
  split_and!; [intros v [= <-]; by vm_compute|intros v [= <-]; by vm_compute|done|done|by constructor|done].
Qed.

Lemma header_reads_back_witness :
  exists bytes, header_build sample_builder = Ok bytes /\
    WireHeaderBlock_parse bytes = Ok (header_said sample_builder (Some (-9000000150, 54000000000, 13000000000, 58000000050))).
Proof.
  destruct (header_reads_back sample_builder sample_builder_ok) as (_ & _ & H).
  apply (H (-9000000150) 54000000000 13000000000 58000000050); try (unfold near; lia). reflexivity.
Defined.

Definition sample_data : bytes := match header_build sample_builder with Ok b => b | Err _ => [] end.
Definition sample_header : WireHeaderBlock := header_said sample_builder (Some (-9000000150, 54000000000, 13000000000, 58000000050)).
Definition sample_overrides : HeaderOverrides := mkOverrides None Unchanged Clear (Set_ (bs "https://planet.example")).

Lemma sample_input : Forall2 input_header [sample_data] [sample_header].
Proof.
  constructor; [|constructor]. split_and!.
  - vm_compute. reflexivity.
  - vm_cast_no_check (@eq_refl (result WireError WireHeaderBlock) (Ok sample_header)).
  - intros b [= <-]. unfold box_near, near. cbn. lia.
Qed.

Lemma sample_overrides_ok : overrides_ok sample_overrides.
Proof. split_and!; try done. intros u [= <-]. unfold text, fits. split; by vm_compute. Qed.


Lemma carried_box_covers_witness : exists warned bytes d h,
  build [sample_header] (facts_carry BlobsCopied) sample_overrides = (warned, Ok (bytes, d)) /\ WireHeaderBlock_parse bytes = Ok h /\
  exists b, wh_bbox h = Some b /\ in_box b (-9000000150) 58000000050 /\ in_box b (-9000000100) 58000000000.
Proof.
  destruct (carried_box_covers [sample_data] [sample_header] (facts_carry BlobsCopied) sample_overrides
    sample_input sample_overrides_ok ltac:(intros c Hc; discriminate Hc) ltac:(done) eq_refl) as (w & bytes & d & h & Hb & Hp & Hc & _).
  exists w, bytes, d, h. split; [done|]. split; [done|]. destruct (wh_bbox h) as [b|].
  - exists b. split; [done|]. destruct (Hc sample_header) as (bi & Hbi & Hin); [by left|]. injection Hbi as <-.
    apply (Hin (-9000000150) 58000000050). unfold in_box. cbn. lia.
  - destruct Hc as (i & Hi & Hn). apply list_elem_of_singleton in Hi as ->. discriminate Hn.
Defined.
