(* ===== verification/FrameSpec.v ===== *)
(** * What a frame says (src/src/write/framing.rs against src/src/read)

    The headers and bodies [Framing] writes, read by the parsers of [BlobWire]
    and the decoders of [BlobDecode]. *)

From S2P Require Import Prelude StdText Proto Wire Encode Utf8 BlobMeta BlobWire Codec BlobDecode Framing.

Section Headers.
Context `{L : ProtohoggrLaws}.

(** A blob type the readers accept: the two known ones, or another non-empty
    UTF-8 string. *)
Definition type_ok (ty : bytes) : Prop := ty <> [] /\ from_utf8 ty = Ok tt /\ fits ty.

Definition kind_named (ty : bytes) : BlobKind :=
  if bool_decide (ty = OSM_HEADER) then OsmHeader
  else if bool_decide (ty = OSM_DATA) then OsmData else UnknownKind ty.

Lemma kind_of_type_named ty : type_ok ty -> kind_of_type ty = Ok (kind_named ty).
Proof.
  intros (_ & Hu & _). unfold kind_of_type, kind_named, OSM_HEADER, OSM_DATA. repeat case_bool_decide; try done.
  by rewrite Hu.
Qed.

Definition kept (keep : bool) (take : WireBlobHeader -> bytes -> WireBlobHeader) (h : WireBlobHeader)
    (data : option bytes) : WireBlobHeader :=
  match data with Some d => if keep then take h d else h | None => h end.

(** The header a reader makes of what a writer was given. *)
Definition header_said (pt pi pw : bool) (ty : bytes) (datasize : Z) (ix td wm : option bytes) : WireBlobHeader :=
  kept pw take_waymembers
    (kept pt take_tagdata
      (kept pi take_indexdata (mkWireBlobHeader (kind_named ty) datasize None false None None false None) ix) td) wm.

Definition ofits' (d : option bytes) : Prop := match d with Some d => fits d | None => True end.

(** A retained optional field, or the same bytes skipped. *)
Lemma parse_kept pt pi pw h field keep take data r :
  (field, keep, take) ∈ [(blob_header.INDEXDATA, pi, take_indexdata); (blob_header.TAGDATA, pt, take_tagdata);
                         (blob_header.WAYMEMBERS, pw, take_waymembers)] ->
  ofits' data ->
  parse (header_step pt pi pw) h (encode_opt field data ++ r) = parse (header_step pt pi pw) (kept keep take h data) r.
Proof.
  intros Hin Hd. destruct data as [d|]; [|done]. cbn [encode_opt kept].
  assert (forall keep : bool, kept keep take h (Some []) = h) as Hnil.
  { intros k. repeat (apply elem_of_cons in Hin as [[= -> -> ->]|Hin]; [by destruct h, k|]). by apply elem_of_nil in Hin. }
  assert (1 <= field < 2 ^ 29) as Hf.
  { repeat (apply elem_of_cons in Hin as [[= -> -> ->]|Hin];
      [unfold blob_header.INDEXDATA, blob_header.TAGDATA, blob_header.WAYMEMBERS; lia|]). by apply elem_of_nil in Hin. }
  apply (parse_bytes_field _ (header_shrinks pt pi pw)); [done|intros ->; by apply (Hnil keep)|].
  intros _. clear Hnil Hf. unfold header_step. destruct h as [ty ds ix ixp un td tdp wm].
  repeat (apply elem_of_cons in Hin as [[= -> -> ->]|Hin];
    [destruct pi, pt, pw; unfold skip_arm; cbn -[read_len_delimited skip_field take_indexdata take_tagdata take_waymembers];
     rewrite ?skip_len, read_len_delimited_encode by done; done|]).
  by apply elem_of_nil in Hin.
Qed.

Lemma parse_type pt pi pw h ty r :
  type_ok ty ->
  parse (header_step pt pi pw) h (encode_bytes_field blob_header.TYPE ty ++ r) =
    parse (header_step pt pi pw)
      (mkWireBlobHeader (kind_named ty) (bh_datasize h) (bh_indexdata h) (bh_index_present h) (bh_unrecognised h)
         (bh_tagdata h) (bh_tag_present h) (bh_waymembers h)) r.
Proof.
  intros Hty. apply (parse_bytes_field _ (header_shrinks pt pi pw)); [done|by destruct Hty|]. intros _.
  destruct h. unfold header_step. cbn -[read_len_delimited kind_of_type].
  rewrite read_len_delimited_encode by apply Hty. cbn [lift mbind result_bind]. by rewrite kind_of_type_named.
Qed.

Lemma parse_datasize pt pi pw h v r :
  is_i32 v -> bh_datasize h = 0 ->
  parse (header_step pt pi pw) h (encode_int32_field blob_header.DATASIZE v ++ r) =
    parse (header_step pt pi pw)
      (mkWireBlobHeader (bh_type h) v (bh_indexdata h) (bh_index_present h) (bh_unrecognised h)
         (bh_tagdata h) (bh_tag_present h) (bh_waymembers h)) r.
Proof.
  intros Hv Hz. apply parse_int32_field; [apply header_shrinks|done|by intros ->; destruct h; simplify_eq/=|].
  intros _. destruct h. unfold header_step. cbn -[read_int32]. rewrite read_int32_encode by done. done.
Qed.

Lemma kept_datasize keep h ix v :
  let set h := mkWireBlobHeader (bh_type h) v (bh_indexdata h) (bh_index_present h) (bh_unrecognised h)
         (bh_tagdata h) (bh_tag_present h) (bh_waymembers h) in
  set (kept keep take_indexdata h ix) = kept keep take_indexdata (set h) ix /\
  bh_datasize (kept keep take_indexdata h ix) = bh_datasize h.
Proof.
  destruct ix as [[|b d]|], keep, h as [ty ds x ixp un td tdp wm]; try done. unfold kept, take_indexdata.
  destruct ixp; [done|]. by destruct (classify_wire_indexdata _).
Qed.

(** The optional fields leave the type and the size alone. *)
Lemma kept_framing keep (take : WireBlobHeader -> bytes -> WireBlobHeader) h data :
  take ∈ [take_indexdata; take_tagdata; take_waymembers] ->
  bh_type (kept keep take h data) = bh_type h /\ bh_datasize (kept keep take h data) = bh_datasize h.
Proof.
  intros Hin. destruct data as [[|b d]|], keep; try done.
  all: destruct h as [ty ds ix ixp un td tdp wm].
  all: repeat (apply elem_of_cons in Hin as [->|Hin]; [try done|]); try by apply elem_of_nil in Hin.
  cbn [kept take_indexdata]. destruct ixp; [done|]. by destruct (classify_wire_indexdata _).
Qed.

Lemma header_said_framing pt pi pw ty ds ix td wm :
  bh_type (header_said pt pi pw ty ds ix td wm) = kind_named ty /\
  bh_datasize (header_said pt pi pw ty ds ix td wm) = ds.
Proof.
  unfold header_said. rewrite !(proj1 (kept_framing _ take_waymembers _ _ ltac:(set_solver))),
    !(proj2 (kept_framing _ take_waymembers _ _ ltac:(set_solver))),
    !(proj1 (kept_framing _ take_tagdata _ _ ltac:(set_solver))), !(proj2 (kept_framing _ take_tagdata _ _ ltac:(set_solver))).
  by apply kept_framing; set_solver.
Qed.

(** What a header's fields read back as, whichever of them the reader keeps. *)
Lemma header_read_back pt pi pw ty ds ix td wm :
  type_ok ty -> is_i32 ds -> ofits' ix -> ofits' td -> ofits' wm ->
  WireBlobHeader_parse (encode_blob_header_fields ty ds ix td wm) pt pi pw = Ok (header_said pt pi pw ty ds ix td wm).
Proof.
  intros Hty Hds Hix Htd Hwm. unfold WireBlobHeader_parse, encode_blob_header_fields.
  rewrite <- (app_nil_r (encode_opt blob_header.WAYMEMBERS wm)).
  rewrite parse_type by done. rewrite (parse_kept pt pi pw _ _ pi take_indexdata) by (set_solver || done).
  destruct (kept_datasize pi (mkWireBlobHeader (kind_named ty) 0 None false None None false None) ix ds) as [Hset Hz].
  cbn in Hset. cbn [header_init bh_datasize bh_indexdata bh_index_present bh_unrecognised bh_tagdata bh_tag_present bh_waymembers].
  rewrite parse_datasize by done. rewrite Hset.
  rewrite (parse_kept pt pi pw _ _ pt take_tagdata) by (set_solver || done).
  rewrite (parse_kept pt pi pw _ _ pw take_waymembers) by (set_solver || done).
  rewrite (parse_nil (header_step pt pi pw)). cbn [mbind result_bind]. fold (header_said pt pi pw ty ds ix td wm).
  rewrite (proj1 (header_said_framing _ _ _ _ _ _ _ _)). destruct Hty as (Hne & _). unfold kind_named. repeat case_bool_decide; [done..|].
  by destruct ty.
Qed.

End Headers.

(** ** Bodies *)

Section Bodies.
Context `{L : ProtohoggrLaws} `{CL : CodecLaws} `{AL : AllocatorLaws}.

Lemma parse_payload rs f d :
  is_payload f = true -> fits d ->
  parse blob_step (mkWireBlob None rs) (encode_tag f WIRE_LEN ++ encode_varint (blen d) ++ d) =
    Ok (mkWireBlob (Some (payload_data f d)) rs).
Proof.
  intros Hf Hd. assert (1 <= f < 2 ^ 29) as Hr.
  { revert Hf. unfold is_payload, blob.RAW, blob.ZLIB_DATA, blob.ZSTD_DATA. lia. }
  rewrite <- (app_nil_r d) at 2. rewrite (parse_turn _ blob_shrinks _ _ f WIRE_LEN
    (encode_varint (blen d) ++ d ++ []) (mkWireBlob (Some (payload_data f d)) rs) []).
  - apply parse_nil.
  - apply read_tag_encode; [done|unfold WIRE_LEN; lia].
  - unfold blob_step. rewrite Hf, read_len_delimited_encode by done. done.
Qed.

Lemma parse_raw_size n r :
  is_i32 n ->
  parse blob_step (mkWireBlob None None) (encode_int32_field blob.RAW_SIZE n ++ r) =
    parse blob_step (mkWireBlob None (if n =? 0 then None else Some n)) r.
Proof.
  intros Hn. apply parse_int32_field; [apply blob_shrinks|done|by intros ->|]. intros Hne.
  unfold blob_step. cbn -[read_int32 Z.eqb]. change (is_payload blob.RAW_SIZE) with false.
  change (blob.RAW_SIZE =? blob.RAW_SIZE) with true. cbv iota. rewrite read_int32_encode by done.
  by rewrite (proj2 (Z.eqb_neq n 0)).
Qed.

Lemma raw_size_agrees (d : bytes) :
  blen d <= MAX_BLOB_MESSAGE_SIZE ->
  check_raw_size (if blen d =? 0 then None else Some (blen d)) (length d) = Ok tt.
Proof.
  intros Hd. unfold check_raw_size. destruct (Z.eqb_spec (blen d) 0); [done|]. unfold blen in *.
  rewrite (proj2 (Z.leb_le _ _)) by (unfold MAX_BLOB_MESSAGE_SIZE in Hd; unfold i64_max; lia). by rewrite Z.eqb_refl.
Qed.

Lemma within_cap_small d : blen d <= MAX_BLOB_MESSAGE_SIZE -> within_cap d = Some d.
Proof. intros Hd. unfold within_cap. by rewrite (proj2 (Z.leb_le _ _)). Qed.

(** The cached compressor is between streams. *)
Definition scratch_ok (s : FrameScratch) : Prop :=
  match zlib_compressor s with Some (level, c) => c = deflate_new level | None => True end.

Lemma trim_ok s m : scratch_ok s -> scratch_ok (trim_oversize_retained_buffers s m).1.
Proof.
  unfold trim_oversize_retained_buffers. destruct (trim_buffer (header_buf s) m) as [h m1].
  by destruct (trim_buffer (compress_buf s) m1).
Qed.

(** The payload of an encoded body, from where the encoder says it is. *)
Definition payload_of (s : FrameScratch) (d : bytes) (source : PayloadSource) : bytes :=
  match source with Input => d | Compressed => vdata (compress_buf s) end.

Definition body_ok (s : FrameScratch) (d payload : bytes) : Prop :=
  scratch_ok s /\
  (blen (body_head s) + blen payload < MAX_BLOB_DATASIZE -> content_of (body_head s ++ payload) = Some d).

Lemma compressed_ok s f (d out : bytes) s' src :
  (f = blob.ZLIB_DATA /\ zlib_content out = Some d) \/ (f = blob.ZSTD_DATA /\ zstd_content out = Some d) ->
  vdata (compress_buf s) = out -> body_head s = [] -> scratch_ok s -> blen d <= MAX_BLOB_MESSAGE_SIZE ->
  compressed_head s f (blen d) = (s', Ok src) -> body_ok s' d (payload_of s' d src).
Proof.
  intros Hf Hout Hhead Hs Hd. unfold compressed_head.
  destruct (Z.ltb_spec i32_max (blen d)) as [Hx|_]; [unfold i32_max, MAX_BLOB_MESSAGE_SIZE in *; lia|].
  intros [= <- <-]. split; [done|]. rewrite Hhead. cbn [with_body body_head payload_of compress_buf app].
  unfold encode_payload_field_head. rewrite Hout. intros Hlt. unfold content_of, WireBlob_parse.
  rewrite <- !app_assoc, parse_raw_size by (unfold MAX_BLOB_MESSAGE_SIZE, blen in *; width).
  rewrite parse_payload.
  - cbn [ok_part mbind option_bind]. unfold blob_content, body_content, payload_data. cbn [wb_data wb_raw_size].
    destruct Hf as [[-> Hc]|[-> Hc]]; cbn [Z.eqb blob.ZLIB_DATA blob.ZSTD_DATA blob.RAW Pos.eqb]; rewrite Hc;
      cbn [mbind option_bind]; by rewrite raw_size_agrees.
  - by destruct Hf as [[-> _]|[-> _]].
  - rewrite !blen_app in Hlt. pose proof (blen_nonneg (encode_int32_field blob.RAW_SIZE (blen d))).
    pose proof (blen_nonneg (encode_tag f WIRE_LEN)). pose proof (blen_nonneg (encode_varint (blen out))).
    unfold fits, MAX_BLOB_DATASIZE, MAX_BLOB_MESSAGE_SIZE in *. lia.
Qed.

Lemma zlib_content_small out d :
  inflated inflate_reset out = Some d -> blen d <= MAX_BLOB_MESSAGE_SIZE -> zlib_content out = Some d.
Proof. intros Hi Hd. unfold zlib_content. rewrite Hi. obind. by rewrite (proj2 (Z.leb_le _ _)). Qed.

Lemma compress_zlib_ok d level s s' src :
  scratch_ok s -> body_head s = [] -> blen d <= MAX_BLOB_MESSAGE_SIZE ->
  compress_zlib d level s = (s', Ok src) -> body_ok s' d (payload_of s' d src).
Proof.
  intros Hs Hhead Hd. unfold compress_zlib.
  set (c := match zlib_compressor s with Some _ => _ | None => _ end).
  assert (c = deflate_new level) as ->.
  { subst c. unfold scratch_ok in Hs. destruct (zlib_compressor s) as [[l c]|]; [|done].
    destruct (Z.eqb_spec l level); by subst. }
  destruct (compress_vec (deflate_new level) d _) as [c' [[out [|]]|e]] eqn:Hc; [|done..]. cbn zeta.
  apply compressed_ok with out; [|done|done| |done].
  - left. split; [done|]. eapply zlib_content_small; [|done]. by eapply compress_inflated.
  - cbn. by eapply deflate_reset_new.
Qed.

Lemma compress_zstd_ok d level s s' src :
  scratch_ok s -> body_head s = [] -> blen d <= MAX_BLOB_MESSAGE_SIZE ->
  compress_zstd d level s = (s', Ok src) -> body_ok s' d (payload_of s' d src).
Proof.
  intros Hs Hhead Hd. unfold compress_zstd. destruct (match zstd_compressor s with Some _ => _ | None => _ end); [|done].
  destruct (zstd_compress level d _) as [out|e] eqn:Hc; [|done].
  apply compressed_ok with out; [|done..]. right. split; [done|]. unfold zstd_content.
  rewrite (zstd_decoded _ _ _ _ _ Hc) by (unfold MAX_BLOB_MESSAGE_SIZE; lia).
  rewrite take_ge by (unfold blen in Hd; lia). by apply within_cap_small.
Qed.

Lemma encode_blob_body_ok d compression part s s' src :
  scratch_ok s -> encode_blob_body d compression part s = (s', Ok src) -> body_ok s' d (payload_of s' d src).
Proof.
  intros Hs. unfold encode_blob_body. destruct (Z.ltb_spec MAX_BLOB_MESSAGE_SIZE (blen d)) as [_|Hd]; [done|].
  destruct compression as [|level|level].
  - intros [= <- <-]. split; [done|]. intros _. cbn [with_body body_head payload_of].
    unfold encode_payload_field_head, content_of, WireBlob_parse. cbn [app]. rewrite <- app_assoc, parse_payload.
    + cbn. by rewrite within_cap_small.
    + done.
    + unfold fits. unfold MAX_BLOB_MESSAGE_SIZE in Hd. lia.
  - by apply compress_zlib_ok.
  - by apply compress_zstd_ok.
Qed.

End Bodies.

(** ** Frames *)

Section Frames.
Context `{L : ProtohoggrLaws} `{CL : CodecLaws} `{AL : AllocatorLaws}.

(** [frame] carries the block [d] under these header fields; its tag index is
    the one given, or absent because the header would not have fitted with it. *)
Record framed (ty d : bytes) (ix td wm : option bytes) (frame : bytes) (td' : option bytes) (hdr body : bytes) : Prop := {
  framed_bytes : frame = to_be 4 (blen hdr) ++ hdr ++ body;
  framed_header : hdr = encode_blob_header_fields ty (blen body) ix td' wm;
  framed_tagdata : td' = td \/
    td' = None /\ MAX_BLOB_HEADER_SIZE <= blen (encode_blob_header_fields ty (blen body) ix td wm);
  framed_header_small : blen hdr < MAX_BLOB_HEADER_SIZE;
  framed_body_small : blen body < MAX_BLOB_DATASIZE;
  framed_content : content_of body = Some d }.

Lemma encode_header_ok ty n ix td wm h dropped :
  encode_blob_header_into ty n ix td wm = Ok (h, dropped) ->
  exists td', h = encode_blob_header_fields ty n ix td' wm /\ blen h < MAX_BLOB_HEADER_SIZE /\
    (if dropped then td' = None /\ MAX_BLOB_HEADER_SIZE <= blen (encode_blob_header_fields ty n ix td wm) else td' = td).
Proof.
  unfold encode_blob_header_into. destruct (Z.ltb_spec (blen (encode_blob_header_fields ty n ix td wm)) MAX_BLOB_HEADER_SIZE).
  { intros [= <- <-]. eauto. }
  destruct td as [td|]; [|done].
  destruct (Z.ltb_spec (blen (encode_blob_header_fields ty n ix None wm)) MAX_BLOB_HEADER_SIZE); [|done].
  intros [= <- <-]. eauto.
Qed.

Lemma encode_frame_header_ok ty n ix td wm m m' pre h :
  encode_frame_header ty n ix td wm m = (m', Ok (pre, h)) ->
  pre = to_be 4 (blen h) /\ n < MAX_BLOB_DATASIZE /\ blen h < MAX_BLOB_HEADER_SIZE /\
  exists td', h = encode_blob_header_fields ty n ix td' wm /\
    (td' = td \/ td' = None /\ MAX_BLOB_HEADER_SIZE <= blen (encode_blob_header_fields ty n ix td wm)) /\
    tagdata_dropped m' = tagdata_dropped m + (if bool_decide (td' = td) then 0 else 1).
Proof.
  unfold encode_frame_header. destruct (Z.leb_spec MAX_BLOB_DATASIZE n); [done|].
  destruct (i32_max <? n); [done|].
  destruct (encode_blob_header_into ty n ix td wm) as [[h' dropped]|e] eqn:He; [|done].
  apply encode_header_ok in He as (td' & Hh & Hsmall & Hd). destruct (u32_max <? blen h'); [done|].
  intros [= <- <- <-]. split; [done|]. split; [done|]. split; [done|]. exists td'. split; [done|].
  destruct dropped; [|subst td'; split; [by left|]; rewrite bool_decide_eq_true_2 by done; lia].
  destruct Hd as [-> Hbig]. split; [by right|]. rewrite bool_decide_eq_false_2; [done|]. intros <-. subst h'. lia.
Qed.

Lemma frame_in_scratch_ok ty d comp ix td wm s m s' m' sf :
  scratch_ok s -> frame_in_scratch ty d comp ix td wm s m = (s', m', Ok sf) ->
  scratch_ok s' /\ exists td', framed ty d ix td wm (concat (parts sf)) td' (sf_header sf) (sf_body_head sf ++ sf_payload sf).
Proof.
  intros Hs. unfold frame_in_scratch. pose proof (trim_ok s m Hs) as Ht.
  destruct (trim_oversize_retained_buffers s m) as [s1 m1]. cbn [fst] in Ht.
  destruct (encode_blob_body d comp _ s1) as [s2 [src|e]] eqn:Hb; [|by intros [=]].
  apply encode_blob_body_ok in Hb as [Hs2 Hc]; [|done]. fold (payload_of s2 d src).
  destruct (encode_frame_header ty _ ix td wm m1) as [m2 [[pre h]|e]] eqn:Hh; [|by intros [=]].
  apply encode_frame_header_ok in Hh as (-> & Hn & Hsmall & td' & Hh & Htd & _). intros [= <- _ <-].
  split; [done|]. exists td'. cbn [sf_header sf_body_head sf_payload body_head].
  rewrite <- blen_app in *. constructor; try done; [|auto].
  unfold parts. cbn. by rewrite app_nil_r.
Qed.

Lemma frame_blob_into_ok ty d comp ix td wm s m s' m' frame :
  scratch_ok s -> frame_blob_into ty d comp ix td wm s m = (s', m', Ok frame) ->
  scratch_ok s' /\ exists td' hdr body, framed ty d ix td wm frame td' hdr body.
Proof.
  intros Hs. unfold frame_blob_into.
  destruct (frame_in_scratch ty d comp ix td wm s m) as [[s1 m1] [sf|e]] eqn:Hf; [|done].
  apply frame_in_scratch_ok in Hf as [Hs1 [td' Hfr]]; [|done]. pose proof (trim_ok s1 m1 Hs1) as Ht.
  destruct (trim_oversize_retained_buffers s1 m1). intros [= <- <- <-]. eauto.
Qed.

End Frames.

(** ** Pieces *)

Section Pieces.
Context {P : Protohoggr} {C : Codec} {A : Allocator}.

Lemma frame_len_parts (f : ScratchFrame) : frame_len f = length (concat (parts f)).
Proof. unfold frame_len, parts. cbn. rewrite !length_app. cbn. lia. Qed.

(** The pieces spell the frame: framing a block into buffers of at most
    [piece] bytes ends, refuses exactly when framing it whole does and with the
    same error, leaves the same scratch and counters, and gives buffers that
    concatenate to the whole frame, none empty, each of exactly [piece] bytes
    except possibly the last. *)
Theorem pieces_spell_frame (d : bytes) (comp : Compression) (ix td wm : option bytes) (s : FrameScratch)
    (m : WriterMetrics) (piece : nat) (before : list bytes) :
  (0 < piece)%nat ->
  let whole := frame_blob_pipelined d comp ix td wm s m in
  let split := frame_blob_pipelined_pieces d comp ix td wm s m piece before in
  split.1 = whole.1 /\
  match whole.2 with
  | Err e => split.2 = Err e
  | Ok frame => exists pieces, split.2 = Ok (Some (before ++ pieces)) /\ concat pieces = frame /\
      Forall (fun p => length p = piece) (removelast pieces) /\ Forall (fun p => 0 < length p <= piece)%nat pieces
  end.
Proof.
  intros Hp. cbn zeta. unfold frame_blob_pipelined, frame_blob_into, frame_blob_pipelined_pieces.
  destruct (frame_in_scratch OSM_DATA d comp ix td wm s m) as [[s' m'] [sf|e]]; [|done].
  destruct (split_into_pieces_ok (parts sf) piece before Hp) as (pieces & Hs & Hc & Hfull & Hall).
  rewrite <- frame_len_parts in Hs. split; [done|]. cbn [snd]. exists pieces. rewrite Hs. done.
Qed.

End Pieces.

(** ** Stripping *)

Section Strip.
Context `{L : ProtohoggrLaws}.

(** One field of a message as it stands: its number and its bytes, tag included. *)
Definition field_at (seg : Z * bytes) (after : bytes) : Prop :=
  exists w c, read_tag (seg.2 ++ after) = Ok (Some (seg.1, w), c) /\ skip_field w c = Ok after.

(** The message is these fields, one after another. *)
Inductive spelled : list (Z * bytes) -> bytes -> Prop :=
| spelled_end c c' : read_tag c = Ok (None, c') -> spelled [] c
| spelled_field seg segs c : field_at seg c -> spelled segs c -> spelled (seg :: segs) (seg.2 ++ c).

Definition unstripped (strip : Z -> bool) (segs : list (Z * bytes)) : bytes :=
  concat (snd <$> filter (fun seg => strip seg.1 = false) segs).

Lemma strip_loop_copies strip segs c : spelled segs c -> forall fuel out,
  (length c <= fuel)%nat -> strip_loop fuel strip c out = Ok (out ++ unstripped strip segs).
Proof.
  induction 1 as [c c' Hend|[n seg] segs c (w & c1 & Ht & Hsk) _ IH]; intros fuel out Hf.
  { unfold unstripped. cbn. rewrite app_nil_r. destruct fuel; cbn [strip_loop]; by rewrite Hend. }
  cbn [fst snd] in *. destruct (read_tag_moves _ _ _ Ht) as [_ Hlt]. pose proof (suffix_length _ _ (skip_field_moves _ _ _ Hsk)) as Hle.
  destruct fuel as [|fuel]; [lia|]. cbn [strip_loop]. rewrite Ht, Hsk. rewrite IH by lia.
  rewrite length_app, Nat.add_sub, take_app_length. unfold unstripped.
  destruct (strip n) eqn:Hs; [rewrite filter_cons_False by (cbn; congruence); done|].
  rewrite filter_cons_True by done. rewrite fmap_cons. cbn [concat]. by rewrite app_assoc.
Qed.

(** The loop ends, on any message. *)
Lemma strip_loop_total strip fuel : forall c out, (length c <= fuel)%nat -> strip_loop fuel strip c out <> Err OutOfFuel.
Proof.
  induction fuel as [|fuel IH]; intros c out Hf; cbn [strip_loop].
  - destruct c as [|x c]; [|simpl in Hf; lia]. by rewrite read_tag_nil.
  - destruct (read_tag c) as [[[[n w]|] c1]|e] eqn:Ht; [|done..]. destruct (read_tag_moves _ _ _ Ht) as [_ Hlt].
    destruct (skip_field w c1) as [c2|e] eqn:Hs; [|done]. apply skip_field_moves, suffix_length in Hs. apply IH. lia.
Qed.

(** Whatever the loop accepts is spelled by fields. *)
Lemma strip_loop_spelled strip fuel : forall c out r, strip_loop fuel strip c out = Ok r -> exists segs, spelled segs c.
Proof.
  induction fuel as [|fuel IH]; intros c out r; cbn [strip_loop].
  all: destruct (read_tag c) as [[[[n w]|] c1]|e] eqn:Ht; try done; try (intros _; exists []; by econstructor).
  destruct (skip_field w c1) as [c2|e] eqn:Hs; [|done]. intros [segs Hsp]%IH.
  destruct (read_tag_moves _ _ _ Ht) as [[h1 H1] _]. destruct (skip_field_moves _ _ _ Hs) as [h2 H2].
  assert (c = (h1 ++ h2) ++ c2) as Hc by (rewrite H1, H2; apply app_assoc).
  exists ((n, h1 ++ h2) :: segs). rewrite Hc. apply (spelled_field (n, h1 ++ h2)); [|done].
  exists w, c1. cbn [fst snd]. by rewrite <- Hc.
Qed.

(** Stripping copies verbatim: the loop ends on any message, and accepts it
    exactly when it is a sequence of fields; the result is then those fields in
    order, each with its bytes, tag included, as they stand, less exactly the
    fields whose number is stripped. *)
Theorem strip_copies_verbatim (strip : Z -> bool) (msg : bytes) :
  strip_message_fields msg strip <> Err OutOfFuel /\
  forall out, strip_message_fields msg strip = Ok out <->
    exists segs, spelled segs msg /\ out = unstripped strip segs.
Proof.
  split; [by apply strip_loop_total|]. intros out. split.
  - intros Ho. destruct (strip_loop_spelled _ _ _ _ _ Ho) as [segs Hs]. exists segs. split; [done|].
    unfold strip_message_fields in Ho. rewrite (strip_loop_copies strip segs msg Hs) in Ho by done. by injection Ho as <-.
  - intros (segs & Hs & ->). unfold strip_message_fields. by rewrite (strip_loop_copies strip segs msg Hs).
Qed.

End Strip.

(** ** Witnesses *)

Import RefProto RefCodec.

Definition sample_pieces :=
  frame_blob_pipelined_pieces [1; 2; 3] NoCompression None None None scratch_new (mkWriterMetrics 0 0 0 0) 7 [[9]].

Lemma pieces_spell_frame_witness :
  exists frame pieces,
    (frame_blob_pipelined [1; 2; 3] NoCompression None None None scratch_new (mkWriterMetrics 0 0 0 0)).2 = Ok frame /\
    sample_pieces.2 = Ok (Some ([[9]] ++ pieces)) /\ concat pieces = frame /\
    Forall (fun p => length p = 7%nat) (removelast pieces) /\ Forall (fun p => 0 < length p <= 7)%nat pieces.
Proof.
  destruct (pieces_spell_frame [1; 2; 3] NoCompression None None None scratch_new (mkWriterMetrics 0 0 0 0) 7 [[9]]
    ltac:(lia)) as [_ H].
  eexists. destruct H as (pieces & Hs & Hc & Hf & Ha). exists pieces. split; [reflexivity|].
  split; [exact Hs|]. split; [exact Hc|]. split; [exact Hf|exact Ha].
Defined.

Lemma strip_copies_verbatim_witness :
  strip_message_fields [18; 1; 5; 24; 9] (fun f => f =? 2) = Ok [24; 9] /\
  exists segs, spelled segs [18; 1; 5; 24; 9] /\ [24; 9] = unstripped (fun f => f =? 2) segs.
Proof.
  split; [done|]. apply (strip_copies_verbatim (fun f => f =? 2) [18; 1; 5; 24; 9]). done.
Defined.

(** A block that zlib leaves unfinished, then one it finishes. *)
Definition long_block : bytes := replicate 80 5.

Definition level_six (d : bytes) (s : FrameScratch) : FrameScratch * WriterMetrics * result FramingError bytes :=
  frame_blob_into OSM_DATA d (ZlibLevel 6) None None None s (mkWriterMetrics 0 0 0 0).

(** An unfinished compression is carried into the next frame: [compress_zlib]
    returns before it resets its compressor, the scratch keeps it, and the next
    block framed at that level succeeds with the rest of the unfinished stream
    ahead of its own, a frame other than the one a fresh scratch gives.  (With
    a real zlib the reserved capacity makes the first failure unreachable.) *)
Lemma unfinished_zlib_carries_over :
  let s := (level_six long_block scratch_new).1.1 in
  (level_six long_block scratch_new).2 = Err ZlibIncomplete /\
  exists carried clean, (level_six [7; 8] s).2 = Ok carried /\ (level_six [7; 8] scratch_new).2 = Ok clean /\ carried <> clean.
Proof.
  cbn zeta. split; [by vm_compute|]. eexists _, _. split; [by vm_compute|]. split; [by vm_compute|]. by vm_compute.
Qed.
