(* ===== verification/FrameSource.v ===== *)
(** * Where frames come from (src/src/read/frame.rs, src/src/read/header_walker.rs)

    The traits [FrameSource] and [FrameSkip], what the frame walk needs of an
    implementation ([SourceLaws], [ReadLaws], [SkipLaws]), and the sources of
    the crate: any [Read] ([Reader], which delivers its bytes in whatever
    chunks it likes, interruptions included), a seekable stream skipped by a
    relative seek and one sentinel byte ([SeekSource]), and the pread walker
    with its probe window ([PreadSource]). *)

From S2P Require Import Prelude Proto.

Inductive IoError := UnexpectedEof | IoFault (code : Z).

Class FrameSource (T : Type) := {
  (** At most [n] bytes from the current position, short only at the end. *)
  fill : Z -> T -> T * result IoError bytes;
  append : Z -> T -> T * result IoError bytes }.

Class FrameSkip (T : Type) := { skip_bytes : Z -> T -> T * result IoError bool }.

(** [rest]: the bytes a working source has still to deliver.  [ready]: at a
    frame boundary, where a length prefix may be asked for. *)
Class SourceLaws (T : Type) `{!FrameSource T} := {
  rest : T -> bytes;
  reliable : T -> Prop;
  ready : T -> Prop;
  ready_reliable t : ready t -> reliable t;
  fill_whole t : ready t -> 4 <= blen (rest t) ->
    exists t', fill 4 t = (t', Ok (take 4 (rest t))) /\ reliable t' /\ rest t' = drop 4 (rest t);
  fill_end t : ready t -> blen (rest t) < 4 -> exists t' b, fill 4 t = (t', Ok b) /\ blen b < 4;
  append_rest n t : reliable t -> 0 <= n ->
    exists t', append n t = (t', Ok (take (Z.to_nat n) (rest t))) /\ reliable t' /\ rest t' = drop (Z.to_nat n) (rest t) }.

(** A source that is ready wherever it stands. *)
Class ReadLaws (T : Type) `{SourceLaws T} := { reliable_ready t : reliable t -> ready t }.

Class SkipLaws (T : Type) `{SourceLaws T} `{!FrameSkip T} := {
  skip_whole n t : reliable t -> 0 <= n < 2 ^ 32 -> n <= blen (rest t) ->
    exists t', skip_bytes n t = (t', Ok true) /\ ready t' /\ rest t' = drop (Z.to_nat n) (rest t);
  skip_short n t : reliable t -> 0 <= n < 2 ^ 32 -> blen (rest t) < n ->
    exists t' r, skip_bytes n t = (t', r) /\ (r = Ok false \/ r = Err UnexpectedEof) }.

(** ** Any [Read] *)

(** What the calls of [read] on a stream will give, in order: bytes (a call
    with a smaller buffer takes part of them), an interruption, or a failure. *)
Inductive ReadEvent := Chunk (b : bytes) | Interrupted | Fault (e : IoError).
Definition Reader : Type := list ReadEvent.

Inductive ReadReply := Got (b : bytes) | GotInterrupted | GotFault (e : IoError).

Definition read (n : nat) (r : Reader) : Reader * ReadReply :=
  match r with
  | [] => ([], Got [])
  | Chunk b :: r => if (length b <=? n)%nat then (r, Got b) else (Chunk (drop n b) :: r, Got (take n b))
  | Interrupted :: r => (r, GotInterrupted)
  | Fault e :: r => (r, GotFault e)
  end.

(** The loop of [fill], which is also what [take(n).read_to_end] does: until
    the buffer is full, a read of nothing, or a failure other than an
    interruption.  Each turn but the last uses an event up. *)
Fixpoint read_loop (fuel n : nat) (acc : bytes) (r : Reader) : option (Reader * result IoError bytes) :=
  if (length acc <? n)%nat then
    match fuel with
    | O => None
    | S fuel =>
        match read (n - length acc) r with
        | (r, Got []) => Some (r, Ok acc)
        | (r, Got b) => read_loop fuel n (acc ++ b) r
        | (r, GotInterrupted) => read_loop fuel n acc r
        | (r, GotFault e) => Some (r, Err e)
        end
    end
  else Some (r, Ok acc).

Definition read_full (n : Z) (r : Reader) : Reader * result IoError bytes :=
  default (r, Err UnexpectedEof) (read_loop (S (length r)) (Z.to_nat n) [] r).

#[export] Instance reader_source : FrameSource Reader := {| fill := read_full; append := read_full |}.

Fixpoint delivered (r : Reader) : bytes :=
  match r with
  | [] => []
  | Chunk b :: r => b ++ delivered r
  | _ :: r => delivered r
  end.

(** No failure, and no empty read before the end. *)
Definition steady (r : Reader) : Prop :=
  Forall (fun e => match e with Chunk b => b <> [] | Interrupted => True | Fault _ => False end) r.

Lemma read_loop_steady fuel : forall n acc r,
  steady r -> (length acc <= n)%nat -> (length r < fuel)%nat ->
  exists r', read_loop fuel n acc r = Some (r', Ok (take n (acc ++ delivered r))) /\ steady r' /\
    delivered r' = drop (n - length acc) (delivered r).
Proof.
  induction fuel as [|fuel IH]; intros n acc r Hr Ha Hf; [lia|].
  cbn [read_loop]. destruct (Nat.ltb_spec (length acc) n) as [Hlt|Hge].
  2: { exists r. rewrite take_app_le, take_ge by lia. replace (n - length acc)%nat with 0%nat by lia. done. }
  destruct r as [|ev r].
  { exists []. cbn. rewrite app_nil_r, take_ge, drop_nil by lia. done. }
  apply Forall_cons in Hr as [Hev Hr]. cbn [length] in Hf. destruct ev as [b| |e]; [| |done]; cbn [read delivered].
  - destruct (Nat.leb_spec (length b) (n - length acc)) as [Hb|Hb].
    + destruct b as [|x b]; [done|]. destruct (IH n (acc ++ x :: b) r) as (r' & Heq & Hs & Hd); [done| |lia|].
      { rewrite length_app. lia. }
      exists r'. rewrite Heq, <- app_assoc. split; [done|]. split; [done|]. rewrite Hd, length_app.
      rewrite drop_app_ge by lia. f_equal. lia.
    + assert (take (n - length acc) b <> []) as Hne by (intros He; apply (f_equal length) in He; rewrite length_take in He; simpl in He; lia).
      destruct (take (n - length acc) b) as [|x p] eqn:Hp; [done|]. rewrite <- Hp.
      assert (length (take (n - length acc) b) = n - length acc)%nat as Hl by (rewrite length_take; lia).
      exists (Chunk (drop (n - length acc) b) :: r). destruct fuel as [|fuel]; [lia|]. cbn [read_loop].
      rewrite length_app, Hl. destruct (Nat.ltb_spec (length acc + (n - length acc)) n); [lia|].
      split; [|split].
      * do 3 f_equal. rewrite take_app_ge, take_app_le by lia. done.
      * constructor; [|done]. intros He. apply (f_equal length) in He. rewrite length_drop in He. simpl in He. lia.
      * cbn [delivered]. by rewrite drop_app_le by lia.
  - destruct (IH n acc r) as (r' & Heq & Hs & Hd); [done|done|lia|]. by exists r'.
Qed.

Lemma read_full_steady n r :
  steady r -> 0 <= n ->
  exists r', read_full n r = (r', Ok (take (Z.to_nat n) (delivered r))) /\ steady r' /\
    delivered r' = drop (Z.to_nat n) (delivered r).
Proof.
  intros Hr Hn. destruct (read_loop_steady (S (length r)) (Z.to_nat n) [] r) as (r' & Heq & Hs & Hd); [done|simpl; lia|lia|].
  exists r'. unfold read_full. rewrite Heq. cbn [default length] in *. by rewrite Nat.sub_0_r in Hd.
Qed.

#[export] Program Instance reader_laws : SourceLaws Reader :=
  {| rest := delivered; reliable := steady; ready := steady |}.
Next Obligation. done. Qed.
Next Obligation. intros t Ht _. by apply (read_full_steady 4). Qed.
Next Obligation.
  intros t Ht Hl. destruct (read_full_steady 4 t Ht) as (r' & Heq & _); [lia|]. exists r', (take 4 (delivered t)).
  split; [exact Heq|]. assert (Z.of_nat (length (delivered t)) < 4) by exact Hl. unfold blen. rewrite length_take. lia.
Qed.
Next Obligation. intros n t Ht Hn. by apply read_full_steady. Qed.

#[export] Instance reader_read_laws : ReadLaws Reader.
Proof. by split. Qed.

(** ** A seekable stream *)

(** The stream's bytes and the position in them, which a seek may move past
    the end. *)
Record SeekSource := mkSeekSource { contents : bytes; offset : Z }.

Definition seek_read (n : Z) (t : SeekSource) : SeekSource * result IoError bytes :=
  let b := take (Z.to_nat n) (drop (Z.to_nat (offset t)) (contents t)) in
  (mkSeekSource (contents t) (offset t + blen b), Ok b).

Definition skip_relative (n : Z) (t : SeekSource) : SeekSource := mkSeekSource (contents t) (offset t + n).

#[export] Instance seek_source : FrameSource SeekSource := {| fill := seek_read; append := seek_read |}.

(** Seek [n - 1] bytes on, then read the last byte: only the read can tell
    that the end has been passed. *)
Definition seek_skip_bytes (n : Z) (t : SeekSource) : SeekSource * result IoError bool :=
  if n =? 0 then (t, Ok true)
  else if i64_max <? n - 1 then (t, Err (IoFault 22))
  else
    let t := skip_relative (n - 1) t in
    let '(t, r) := fill 1 t in
    (t, sentinel ← r; Ok (blen sentinel =? 1)).

#[export] Instance seek_skip : FrameSkip SeekSource := {| skip_bytes := seek_skip_bytes |}.

Definition seek_rest (t : SeekSource) : bytes := drop (Z.to_nat (offset t)) (contents t).

Lemma seek_read_rest n t :
  0 <= offset t -> exists t', seek_read n t = (t', Ok (take (Z.to_nat n) (seek_rest t))) /\ 0 <= offset t' /\
    seek_rest t' = drop (Z.to_nat n) (seek_rest t).
Proof.
  intros Ho. eexists. split; [reflexivity|]. cbn [offset contents]. unfold seek_rest, blen. cbn [offset contents].
  split; [lia|]. rewrite length_take, length_drop, drop_drop.
  destruct (decide (Z.to_nat n <= length (contents t) - Z.to_nat (offset t))%nat).
  - f_equal. lia.
  - rewrite !drop_ge by lia. done.
Qed.

#[export] Program Instance seek_laws : SourceLaws SeekSource :=
  {| rest := seek_rest; reliable := fun t => 0 <= offset t; ready := fun t => 0 <= offset t |}.
Next Obligation. done. Qed.
Next Obligation. intros t Ht _. by apply (seek_read_rest 4). Qed.
Next Obligation.
  intros t Ht Hl. destruct (seek_read_rest 4 t Ht) as (t' & Heq & _). exists t', (take 4 (seek_rest t)).
  split; [exact Heq|]. assert (Z.of_nat (length (seek_rest t)) < 4) by exact Hl. unfold blen. rewrite length_take. lia.
Qed.
Next Obligation. intros n t Ht _. by apply seek_read_rest. Qed.

#[export] Instance seek_read_laws : ReadLaws SeekSource.
Proof. by split. Qed.

#[export] Instance seek_skip_laws : SkipLaws SeekSource.
Proof.
  assert (forall n t, 0 < n < 2 ^ 32 -> 0 <= offset t ->
    exists t', skip_bytes n t = (t', Ok (n <=? blen (seek_rest t))) /\
      (n <= blen (seek_rest t) -> 0 <= offset t' /\ seek_rest t' = drop (Z.to_nat n) (seek_rest t))) as H.
  { intros n t Hn Ho. cbn [skip_bytes seek_skip]. unfold seek_skip_bytes.
    rewrite (proj2 (Z.eqb_neq n 0)), (proj2 (Z.ltb_ge _ _)) by (unfold i64_max; change (2 ^ 32) with 4294967296 in Hn; lia).
    destruct (seek_read_rest 1 (skip_relative (n - 1) t)) as (t' & Heq & Ho' & Hr); [cbn; lia|].
    exists t'. change (fill 1 (skip_relative (n - 1) t)) with (seek_read 1 (skip_relative (n - 1) t)). rewrite Heq.
    assert (seek_rest (skip_relative (n - 1) t) = drop (Z.to_nat (n - 1)) (seek_rest t)) as Hs.
    { unfold seek_rest, skip_relative. cbn. rewrite drop_drop. f_equal. lia. }
    rewrite Hs in *. split.
    - cbn [mbind result_bind]. do 2 f_equal. unfold blen. rewrite length_take, length_drop. lia.
    - intros Hle. split; [done|]. rewrite Hr, drop_drop. f_equal. lia. }
  split; cbn [rest reliable ready seek_laws]; intros n t Ht Hn Hle.
  - destruct (Z.eq_dec n 0) as [->|Hne]; [by exists t|].
    destruct (H n t) as (t' & Heq & Hd); [lia|done|]. rewrite (proj2 (Z.leb_le _ _)) in Heq by done.
    exists t'. split; [done|]. by apply Hd.
  - destruct (Z.eq_dec n 0) as [->|Hne]; [unfold blen in Hle; lia|].
    destruct (H n t) as (t' & Heq & _); [lia|done|]. rewrite (proj2 (Z.leb_gt _ _)) in Heq by done.
    exists t', (Ok false). auto.
Qed.

(** ** The pread walker's source *)

Definition HEADER_PROBE_SIZE : Z := 4096.

(** [disk] is the file now, [file_size] its size captured at open. *)
Record PreadSource := mkPread {
  disk : bytes; pread_pos : Z; file_size : Z; window : bytes; window_at : Z; window_len : Z }.

Definition pread_exact (n at_ : Z) (disk : bytes) : result IoError bytes :=
  if at_ + n <=? blen disk then Ok (take (Z.to_nat n) (drop (Z.to_nat at_) disk)) else Err UnexpectedEof.

Definition remaining (t : PreadSource) : Z := Z.max 0 (file_size t - pread_pos t).

Definition windowed (t : PreadSource) : bytes :=
  let skip := pread_pos t - window_at t in
  if (0 <=? skip) && (skip <? window_len t)
  then drop (Z.to_nat skip) (take (Z.to_nat (window_len t)) (window t)) else [].

Definition advance (t : PreadSource) (n : Z) : PreadSource :=
  mkPread (disk t) (pread_pos t + n) (file_size t) (window t) (window_at t) (window_len t).

Definition pread_fill (n : Z) (t : PreadSource) : PreadSource * result IoError bytes :=
  let copy (t : PreadSource) :=
    let b := take (Z.to_nat n) (windowed t) in (advance t (blen b), Ok b) in
  match windowed t with
  | [] =>
      if remaining t <? n then (t, Ok [])
      else
        let probe := Z.min (remaining t) HEADER_PROBE_SIZE in
        match pread_exact probe (pread_pos t) (disk t) with
        | Err e => (mkPread (disk t) (pread_pos t) (file_size t) (replicate (Z.to_nat probe) 0)
                      (window_at t) (window_len t), Err e)
        | Ok w => copy (mkPread (disk t) (pread_pos t) (file_size t) w (pread_pos t) probe)
        end
  | _ => copy t
  end.

Definition pread_append (n : Z) (t : PreadSource) : PreadSource * result IoError bytes :=
  let want := Z.min (remaining t) n in
  let from_window := take (Z.to_nat want) (windowed t) in
  let t := advance t (blen from_window) in
  let more := want - blen from_window in
  if 0 <? more then
    match pread_exact more (pread_pos t) (disk t) with
    | Err e => (t, Err e)
    | Ok b => (advance t more, Ok (from_window ++ b))
    end
  else (t, Ok from_window).

Definition pread_skip_bytes (n : Z) (t : PreadSource) : PreadSource * result IoError bool :=
  let t := mkPread (disk t) (pread_pos t) (file_size t) (window t) (window_at t) 0 in
  if remaining t <? n then (t, Ok false) else (advance t n, Ok true).

#[export] Instance pread_source : FrameSource PreadSource := {| fill := pread_fill; append := pread_append |}.
#[export] Instance pread_skip : FrameSkip PreadSource := {| skip_bytes := pread_skip_bytes |}.

(** The walker's source at open. *)
Definition pread_open (disk : bytes) : PreadSource := mkPread disk 0 (blen disk) [] 0 0.

(** The file holds at least what it held at open, and the window is a copy of it. *)
Record pread_ok (t : PreadSource) : Prop := {
  pread_pos_ok : 0 <= pread_pos t <= file_size t;
  pread_size_ok : file_size t <= blen (disk t);
  pread_window_at : 0 <= window_at t;
  pread_window_len : 0 <= window_len t;
  pread_window_in : window_len t = 0 \/ window_at t + window_len t <= file_size t;
  pread_window : take (Z.to_nat (window_len t)) (window t) =
                 take (Z.to_nat (window_len t)) (drop (Z.to_nat (window_at t)) (disk t)) }.

Definition pread_rest (t : PreadSource) : bytes := drop (Z.to_nat (pread_pos t)) (take (Z.to_nat (file_size t)) (disk t)).

Lemma pread_rest_len t : pread_ok t -> blen (pread_rest t) = remaining t.
Proof.
  intros [Hp Hs _ _ _]. unfold pread_rest, remaining, blen in *. rewrite length_drop, length_take. lia.
Qed.

Lemma pread_rest_take t k :
  pread_ok t -> 0 <= k <= remaining t -> take (Z.to_nat k) (pread_rest t) = take (Z.to_nat k) (drop (Z.to_nat (pread_pos t)) (disk t)).
Proof.
  intros [Hp Hs _ _ _] Hk. unfold pread_rest, remaining in *. rewrite !take_drop_commute, take_take. do 2 f_equal. lia.
Qed.

Lemma windowed_prefix t : pread_ok t -> windowed t = take (length (windowed t)) (pread_rest t) /\ blen (windowed t) <= remaining t.
Proof.
  intros Hok. pose proof Hok as [Hp Hs Ha Hl Hin Hw]. unfold windowed.
  destruct ((0 <=? pread_pos t - window_at t) && (pread_pos t - window_at t <? window_len t)) eqn:Hb.
  2: { split; [done|]. unfold remaining, blen. simpl. lia. }
  apply andb_prop in Hb as [H1 H2]. destruct Hin as [|Hin]; [lia|]. rewrite Hw.
  set (skip := pread_pos t - window_at t) in *.
  assert (drop (Z.to_nat skip) (take (Z.to_nat (window_len t)) (drop (Z.to_nat (window_at t)) (disk t))) =
    take (Z.to_nat (window_len t - skip)) (drop (Z.to_nat (pread_pos t)) (disk t))) as ->.
  { rewrite !take_drop_commute, drop_drop. f_equal; [lia|]. f_equal. lia. }
  assert (length (take (Z.to_nat (window_len t - skip)) (drop (Z.to_nat (pread_pos t)) (disk t))) =
    Z.to_nat (window_len t - skip)) as Hlen.
  { rewrite length_take, length_drop. unfold blen in Hs. lia. }
  split; [|unfold blen, remaining; rewrite Hlen; lia]. rewrite Hlen, pread_rest_take; [done|done|].
  unfold remaining. lia.
Qed.

Lemma pread_advance_ok t k : pread_ok t -> 0 <= k <= remaining t -> pread_ok (advance t k) /\
  pread_rest (advance t k) = drop (Z.to_nat k) (pread_rest t).
Proof.
  intros Hok Hk. pose proof Hok as [Hp Hs Ha Hl Hin Hw]. unfold remaining in Hk. split.
  - constructor; cbn; try done. lia.
  - unfold pread_rest. cbn. rewrite drop_drop. f_equal. lia.
Qed.

Lemma pread_exact_ok t k :
  pread_ok t -> 0 <= k <= remaining t -> pread_exact k (pread_pos t) (disk t) = Ok (take (Z.to_nat k) (pread_rest t)).
Proof.
  intros Hok Hk. rewrite pread_rest_take by done. unfold pread_exact, remaining in *. destruct Hok as [Hp Hs _ _ _].
  by rewrite (proj2 (Z.leb_le _ _)) by lia.
Qed.

Lemma pread_fill_ok t :
  pread_ok t -> windowed t = [] -> 4 <= blen (pread_rest t) ->
  exists t', pread_fill 4 t = (t', Ok (take 4 (pread_rest t))) /\ pread_ok t' /\ pread_rest t' = drop 4 (pread_rest t).
Proof.
  intros Hok Hw Hl. rewrite pread_rest_len in Hl by done. unfold pread_fill. rewrite Hw.
  rewrite (proj2 (Z.ltb_ge _ _)) by done. set (probe := Z.min (remaining t) HEADER_PROBE_SIZE).
  assert (4 <= probe <= remaining t) as Hp by (unfold probe, HEADER_PROBE_SIZE; lia).
  rewrite pread_exact_ok by (done || lia).
  set (t1 := mkPread (disk t) (pread_pos t) (file_size t) (take (Z.to_nat probe) (pread_rest t)) (pread_pos t) probe).
  assert (pread_ok t1) as Hok1.
  { pose proof Hok as [H1 H2 _ _ _]. unfold remaining in *. constructor; cbn; try lia.
    rewrite take_take, Nat.min_id. apply pread_rest_take; [done|unfold remaining; lia]. }
  assert (windowed t1 = take (Z.to_nat probe) (pread_rest t)) as Hwin.
  { unfold windowed, t1. cbn [pread_pos window_at window_len window]. rewrite Z.sub_diag.
    rewrite (proj2 (Z.ltb_lt 0 probe)) by lia. cbn. by rewrite take_take, Nat.min_id. }
  rewrite Hwin, take_take. replace (Z.to_nat 4 `min` Z.to_nat probe)%nat with 4%nat by lia.
  assert (blen (take 4 (pread_rest t)) = 4) as Hlen.
  { unfold blen. rewrite length_take. pose proof (pread_rest_len t Hok). unfold blen in *. lia. }
  rewrite Hlen. destruct (pread_advance_ok t1 4 Hok1) as [Ho Hr]; [unfold remaining, t1 in *; cbn in *; lia|].
  exists (advance t1 4). split; [done|]. split; [done|]. exact Hr.
Qed.

Lemma pread_append_ok n t :
  pread_ok t -> 0 <= n ->
  exists t', pread_append n t = (t', Ok (take (Z.to_nat n) (pread_rest t))) /\ pread_ok t' /\
    pread_rest t' = drop (Z.to_nat n) (pread_rest t).
Proof.
  intros Hok Hn. unfold pread_append. set (want := Z.min (remaining t) n).
  assert (0 <= want <= remaining t) as Hwant by (unfold want, remaining; lia).
  destruct (windowed_prefix t Hok) as [Hwp Hwl]. set (fw := take (Z.to_nat want) (windowed t)).
  assert (fw = take (Z.to_nat (blen fw)) (pread_rest t) /\ blen fw <= want) as [Hfw Hle].
  { unfold fw. rewrite Hwp, take_take. unfold blen. rewrite Nat2Z.id, length_take.
    pose proof (pread_rest_len t Hok) as Hrl. unfold blen in *. split; [f_equal; lia|lia]. }
  assert (take (Z.to_nat n) (pread_rest t) = take (Z.to_nat want) (pread_rest t) /\
          drop (Z.to_nat n) (pread_rest t) = drop (Z.to_nat want) (pread_rest t)) as [-> ->].
  { pose proof (pread_rest_len t Hok) as Hrl. unfold blen, want in *.
    destruct (Z.le_gt_cases n (remaining t)); [by rewrite Z.min_r by lia|].
    rewrite Z.min_l, !take_ge, !drop_ge by lia. done. }
  assert (0 <= blen fw) as Hpos by (unfold blen; lia).
  destruct (pread_advance_ok t (blen fw) Hok) as [Ho1 Hr1]; [lia|].
  destruct (Z.ltb_spec 0 (want - blen fw)) as [Hmore|Hnone].
  - assert (remaining (advance t (blen fw)) = remaining t - blen fw) as Hrem by (unfold remaining in *; cbn in *; lia).
    rewrite pread_exact_ok by (done || lia). destruct (pread_advance_ok _ (want - blen fw) Ho1) as [Ho2 Hr2]; [lia|].
    eexists. split; [do 2 f_equal|split; [exact Ho2|]].
    + rewrite Hr1. rewrite Hfw at 1. rewrite take_take_drop. f_equal. lia.
    + rewrite Hr2, Hr1, drop_drop. f_equal. lia.
  - assert (blen fw = want) as Heq by lia. eexists. split; [do 2 f_equal; by rewrite Hfw at 1; rewrite Heq|].
    split; [done|]. by rewrite Hr1, Heq.
Qed.

#[export] Program Instance pread_laws : SourceLaws PreadSource :=
  {| rest := pread_rest; reliable := pread_ok; ready := fun t => pread_ok t /\ windowed t = [] |}.
Next Obligation. by intros t [? _]. Qed.
Next Obligation. intros t [Ht Hw] Hl. by apply pread_fill_ok. Qed.
Next Obligation.
  intros t [Ht Hw] Hl. exists t, []. cbn [fill pread_source]. unfold pread_fill. rewrite Hw.
  assert (remaining t < 4) as Hr by (rewrite <- pread_rest_len by done; exact Hl).
  by rewrite (proj2 (Z.ltb_lt _ _)).
Qed.
Next Obligation. intros n t Ht Hn. by apply pread_append_ok. Qed.

#[export] Instance pread_skip_laws : SkipLaws PreadSource.
Proof.
  split; cbn [rest reliable ready pread_laws skip_bytes pread_skip]; intros n t Ht Hn Hle;
    rewrite pread_rest_len in Hle by done; unfold pread_skip_bytes.
  all: set (t1 := mkPread (disk t) (pread_pos t) (file_size t) (window t) (window_at t) 0).
  all: change (remaining t1) with (remaining t).
  - rewrite (proj2 (Z.ltb_ge _ _)) by done.
    assert (pread_ok t1) as Ht1 by (destruct Ht; constructor; cbn; auto with lia).
    destruct (pread_advance_ok t1 n Ht1) as [Ho Hr]; [split; [lia|exact Hle]|].
    exists (advance t1 n). split; [done|]. split; [|exact Hr]. split; [done|]. unfold windowed. cbn.
    destruct (_ && _) eqn:Hb; [|done]. lia.
  - rewrite (proj2 (Z.ltb_lt _ _)) by done. eauto.
Qed.

Lemma pread_open_ready b : ready (pread_open b) /\ rest (pread_open b) = b.
Proof.
  split.
  - split; [|done]. constructor; cbn; unfold blen; try lia; done.
  - change (drop 0 (take (Z.to_nat (blen b)) b) = b). unfold blen. by rewrite Nat2Z.id, firstn_all.
Qed.
