(* ===== verification/FrameWalk.v ===== *)
(** * The frame walk (src/src/read/frame.rs, src/src/read/header_walker.rs)

    [Frames] is the one state machine every reader shares: it turns a byte
    source into blob frames, with the length guards, the leading-header rule,
    the truncation policy, the partial-index refusal and the position every
    failure is located at.  Its operations take the walk and return it with
    their result.  [HeaderWalker] is the walk that skips payloads.

    Diagnostics are the list of warnings raised; the input's path, which only
    decorates a location, is not modelled. *)

From S2P Require Import Prelude Proto Wire BlobMeta BlobWire FrameSource.

Record HeaderFields := mkHeaderFields { keep_tagdata : bool; keep_indexdata : bool; keep_waymembers : bool }.
Definition INDEXES : HeaderFields := mkHeaderFields true true false.

Record FrameId := mkFrameId { fid_start : option Z; fid_ordinal : option Z }.

#[export] Instance FrameId_eq_dec : EqDecision FrameId.
Proof. solve_decision. Defined.

Record FrameHeader := mkFrameHeader { fh_id : FrameId; fh_header_len : Z; fh_data_size : Z; fh_header : WireBlobHeader }.
Definition payload_offset (h : FrameHeader) : Z := 4 + fh_header_len h.

Record Pending := mkPending { pe_id : FrameId; pe_data_size : Z; pe_readable : option bool }.

(** ** The partial-index guard *)

Record PartialIndexGuard (X : Type) := mkGuard { first_indexed : option bool; first_unindexed : option X }.
Arguments mkGuard {X} _ _.
Arguments first_indexed {X} _.
Arguments first_unindexed {X} _.

Definition guard_default {X} : PartialIndexGuard X := mkGuard None None.

Definition observe {X} (g : PartialIndexGuard X) (indexed : bool) (at_ : X) : PartialIndexGuard X * option X :=
  let unindexed := match first_unindexed g with
                   | None => if negb indexed then Some at_ else None
                   | u => u
                   end in
  match first_indexed g with
  | None => (mkGuard (Some indexed) unindexed, None)
  | Some first => (mkGuard (Some first) unindexed, if negb (eqb first indexed) then unindexed else None)
  end.

Section Walk.
Context {P : Protohoggr}.

(** ** Errors *)

Inductive TruncatedPart := TruncatedHeader | TruncatedPayload.

Inductive BlobFault :=
| InvalidHeaderSize
| HeaderTooBig (size : Z)
| InvalidDataSize (size : Z)
| DataSizeTooBig (size : Z).

Inductive ErrorKind :=
| IoKind (e : IoError)
| WireKind (e : WireError)
| BlobKindError (e : BlobFault)
| Truncated (part : TruncatedPart) (len : Z) (start : option Z)
| SecondHeader
| PartialIndex
| Cancelled
| PendingPayload
| NoPendingPayload
| UsedAfterFailure.

(** An error and where it is located. *)
Record Error := mkError { err_kind : ErrorKind; err_at : option FrameId }.

Definition unlocated (k : ErrorKind) : Error := mkError k None.

(** [Error::locate]: keeps a location already attached, attaches no empty one. *)
Definition locate (id : FrameId) (e : Error) : Error :=
  match err_at e with
  | Some _ => e
  | None => if bool_decide (id = mkFrameId None None) then e else mkError (err_kind e) (Some id)
  end.

Abbreviation kresult := (result ErrorKind).
Abbreviation eresult := (result Error).

Definition check_header_len (header_len : Z) : kresult Z :=
  if header_len =? 0 then Err (BlobKindError InvalidHeaderSize)
  else if MAX_BLOB_HEADER_SIZE <=? header_len then Err (BlobKindError (HeaderTooBig header_len))
  else Ok header_len.

Definition check_header_position (blob_type : BlobKind) (at_start : bool) : kresult unit :=
  match blob_type with
  | OsmHeader => if at_start then Ok tt else Err SecondHeader
  | _ => Ok tt
  end.

(** ** The state machine *)

Section Source.
Context {T : Type} `{!FrameSource T}.

Record Frames := mkFrames {
  src : T;
  pos : option Z;
  stream_start : Z;
  next_ordinal : option Z;
  cancelled : bool;
  header_bytes_buf : bytes;
  keep : HeaderFields;
  pending : option Pending;
  failed : bool;
  partial_index : option (PartialIndexGuard FrameId);
  warnings : list (nat * option Z) }.

Definition frames_new (src : T) (start : option Z) (keep : HeaderFields) : Frames :=
  mkFrames src start (default 0 start)
    (match start with None => Some 0 | Some s => if s =? 0 then Some 0 else None end)
    false [] keep None false None [].

Definition refuse_partial_index (f : Frames) : Frames :=
  mkFrames (src f) (pos f) (stream_start f) (next_ordinal f) (cancelled f) (header_bytes_buf f) (keep f)
    (pending f) (failed f) (Some guard_default) (warnings f).

Definition accept_partial_index (f : Frames) : Frames :=
  mkFrames (src f) (pos f) (stream_start f) (next_ordinal f) (cancelled f) (header_bytes_buf f) (keep f)
    (pending f) (failed f) None (warnings f).

Definition of_input (src : T) : Frames := refuse_partial_index (frames_new src (Some 0) INDEXES).

Definition next_id (f : Frames) : FrameId := mkFrameId (pos f) (next_ordinal f).

Definition poison (f : Frames) : Frames :=
  mkFrames (src f) None (stream_start f) (next_ordinal f) (cancelled f) (header_bytes_buf f) (keep f)
    None true (partial_index f) (warnings f).

Definition reposition (f : Frames) (to : option Z) : Frames :=
  mkFrames (src f) to (stream_start f)
    (p ← to; if (p =? 0) && (stream_start f =? 0) then Some 0 else None)
    (cancelled f) (header_bytes_buf f) (keep f) None (failed f)
    (match partial_index f with Some _ => Some guard_default | None => None end) (warnings f).

Definition clear_failure (f : Frames) : Frames :=
  mkFrames (src f) (pos f) (stream_start f) (next_ordinal f) (cancelled f) (header_bytes_buf f) (keep f)
    (pending f) false (partial_index f) (warnings f).

Definition fail {X} (f : Frames) (id : FrameId) (k : ErrorKind) : Frames * eresult X :=
  (poison f, Err (locate id (unlocated k))).

Definition set_src (f : Frames) (t : T) : Frames :=
  mkFrames t (pos f) (stream_start f) (next_ordinal f) (cancelled f) (header_bytes_buf f) (keep f)
    (pending f) (failed f) (partial_index f) (warnings f).

Definition set_pos (f : Frames) (p : option Z) : Frames :=
  mkFrames (src f) p (stream_start f) (next_ordinal f) (cancelled f) (header_bytes_buf f) (keep f)
    (pending f) (failed f) (partial_index f) (warnings f).

Definition set_header (f : Frames) (b : bytes) : Frames :=
  mkFrames (src f) (pos f) (stream_start f) (next_ordinal f) (cancelled f) b (keep f)
    (pending f) (failed f) (partial_index f) (warnings f).

Definition warn (f : Frames) (w : nat * option Z) : Frames :=
  mkFrames (src f) (pos f) (stream_start f) (next_ordinal f) (cancelled f) (header_bytes_buf f) (keep f)
    (pending f) (failed f) (partial_index f) (warnings f ++ [w]).

(** An [append] whose [UnexpectedEof] reads as nothing delivered. *)
Definition appended (r : result IoError bytes) : kresult bytes :=
  match r with Ok b => Ok b | Err UnexpectedEof => Ok [] | Err e => Err (IoKind e) end.

(** The header of the frame at [id], its bytes in hand: the parse, the guard's
    observation, and the checks. *)
Definition judge_header (f : Frames) (id : FrameId) (header_len : Z) : Frames * kresult FrameHeader :=
  let refusing := match partial_index f with Some _ => true | None => false end in
  match WireBlobHeader_parse (header_bytes_buf f) (keep_tagdata (keep f))
          (keep_indexdata (keep f) || refusing) (keep_waymembers (keep f)) with
  | Err e => (f, Err (WireKind e))
  | Ok h =>
      let readable :=
        if refusing && bool_decide (bh_type h = OsmData)
        then Some (bool_decide (is_Some (bh_indexdata h ≫= deserialize))) else None in
      let h := if refusing && negb (keep_indexdata (keep f))
               then mkWireBlobHeader (bh_type h) (bh_datasize h) None false None
                      (bh_tagdata h) (bh_tag_present h) (bh_waymembers h)
               else h in
      let f := match bh_unrecognised h with Some len => warn f (len, fid_start id) | None => f end in
      let at_start := match fid_start id with
                      | Some start => start =? stream_start f
                      | None => bool_decide (fid_ordinal id = Some 0)
                      end in
      match check_header_position (bh_type h) at_start with
      | Err e => (f, Err e)
      | Ok _ =>
          if bh_datasize h <? 0 then (f, Err (BlobKindError (InvalidDataSize (bh_datasize h))))
          else if MAX_BLOB_DATASIZE <=? bh_datasize h
          then (f, Err (BlobKindError (DataSizeTooBig (bh_datasize h))))
          else
            let data_size := bh_datasize h in
            (mkFrames (src f) ((fun s => s + 4 + header_len) <$> fid_start id) (stream_start f) (next_ordinal f)
               (cancelled f) (header_bytes_buf f) (keep f) (Some (mkPending id data_size readable)) (failed f)
               (partial_index f) (warnings f),
             Ok (mkFrameHeader id header_len data_size h))
      end
  end.

Definition read_header (f : Frames) (id : FrameId) : Frames * kresult (option FrameHeader) :=
  let '(t, r) := fill 4 (src f) in
  let f := set_src f t in
  match r with
  | Err e => (f, Err (IoKind e))
  | Ok prefix =>
      if blen prefix <? 4 then (set_pos f ((fun s => s + blen prefix) <$> fid_start id), Ok None)
      else match check_header_len (from_be prefix) with
           | Err e => (f, Err e)
           | Ok header_len =>
               let header_start := (fun s => s + 4) <$> fid_start id in
               let '(t, r) := append header_len (src f) in
               let f := set_header (set_src f t) (match r with Ok b => b | Err _ => [] end) in
               match appended r with
               | Err e => (f, Err e)
               | Ok b =>
                   if blen b <? header_len then (f, Err (Truncated TruncatedHeader header_len header_start))
                   else let '(f, r) := judge_header f id header_len in (f, Some <$> r)
               end
           end
  end.

Definition next_header (f : Frames) : Frames * eresult (option FrameHeader) :=
  if failed f then (f, Err (unlocated UsedAfterFailure))
  else match pending f with
       | Some _ => (poison f, Err (unlocated PendingPayload))
       | None =>
           if cancelled f then (poison f, Err (unlocated Cancelled))
           else
             let id := next_id f in
             let '(f, r) := read_header f id in
             match r with Ok h => (f, Ok h) | Err e => fail f id e end
       end.

Definition take_pending (f : Frames) : Frames * eresult Pending :=
  if failed f then (f, Err (unlocated UsedAfterFailure))
  else match pending f with
       | Some p =>
           (mkFrames (src f) (pos f) (stream_start f) (next_ordinal f) (cancelled f) (header_bytes_buf f) (keep f)
              None (failed f) (partial_index f) (warnings f), Ok p)
       | None => (poison f, Err (unlocated NoPendingPayload))
       end.

(** The payload was consumed: the walk is at the next boundary, and a refusing
    walk judges the completed frame. *)
Definition finish (f : Frames) (p : Pending) : Frames * eresult unit :=
  let '(guard, refused) :=
    match pe_readable p, partial_index f with
    | Some readable, Some g => let '(g, at_) := observe g readable (pe_id p) in (Some g, at_)
    | _, g => (g, None)
    end in
  let f := mkFrames (src f) ((fun s => s + pe_data_size p) <$> pos f) (stream_start f)
             ((fun n => n + 1) <$> next_ordinal f) (cancelled f) (header_bytes_buf f) (keep f)
             (pending f) (failed f) guard (warnings f) in
  match refused with
  | Some at_ => (poison f, Err (locate at_ (unlocated PartialIndex)))
  | None => (f, Ok tt)
  end.

(** The payload's bytes, appended to the caller's buffer. *)
Definition read_payload (f : Frames) (out : bytes) : Frames * eresult bytes :=
  let '(f, r) := take_pending f in
  match r with
  | Err e => (f, Err e)
  | Ok p =>
      let '(t, r) := append (pe_data_size p) (src f) in
      let f := set_src f t in
      match appended r with
      | Err e => fail f (pe_id p) e
      | Ok b =>
          if blen b <? pe_data_size p
          then fail f (pe_id p) (Truncated TruncatedPayload (pe_data_size p) (pos f))
          else let '(f, r) := finish f p in (f, _ ← r; Ok (out ++ b))
      end
  end.

Record RawBlobFrame := mkRawFrame {
  frame_bytes : bytes; rf_type : BlobKind; blob_offset : Z; rf_index : option BlobIndex; rf_index_present : bool;
  rf_tagdata : option bytes; rf_tag_present : bool; rf_id : FrameId }.

Definition next_raw (f : Frames) : Frames * eresult (option RawBlobFrame) :=
  let '(f, r) := next_header f in
  match r with
  | Err e => (f, Err e)
  | Ok None => (f, Ok None)
  | Ok (Some h) =>
      let '(f, r) := read_payload f (to_be 4 (as_u 32 (fh_header_len h)) ++ header_bytes_buf f) in
      (f, bytes ← r;
          let hd := fh_header h in
          Ok (Some (mkRawFrame bytes (bh_type hd) (payload_offset h) (bh_indexdata hd ≫= deserialize)
                      (bh_index_present hd) (bh_tagdata hd) (bh_tag_present hd) (fh_id h))))
  end.

Definition blob_bytes (f : RawBlobFrame) : bytes := drop (Z.to_nat (blob_offset f)) (frame_bytes f).
Definition header_bytes (f : RawBlobFrame) : bytes :=
  drop 4 (take (Z.to_nat (blob_offset f)) (frame_bytes f)).
Definition file_offset (f : RawBlobFrame) : Z := default 0 (fid_start (rf_id f)).

Context `{!FrameSkip T}.

Definition skip_payload (f : Frames) : Frames * eresult unit :=
  let '(f, r) := take_pending f in
  match r with
  | Err e => (f, Err e)
  | Ok p =>
      let '(t, r) := skip_bytes (pe_data_size p) (src f) in
      let f := set_src f t in
      match r with
      | Ok true => finish f p
      | Ok false | Err UnexpectedEof => fail f (pe_id p) (Truncated TruncatedPayload (pe_data_size p) (pos f))
      | Err e => fail f (pe_id p) (IoKind e)
      end
  end.

(** ** The header walker *)

Record BlobHeaderMeta := mkMeta {
  bm_type : BlobKind; frame_start : Z; blob_index : Z; data_offset : Z; data_size : Z;
  bm_index : option BlobIndex; bm_tagdata : option bytes; frame_size : Z }.

(** [HeaderWalker::next_header]. *)
Definition walker_next (f : Frames) : Frames * eresult (option BlobHeaderMeta) :=
  let '(f, r) := next_header f in
  match r with
  | Err e => (f, Err e)
  | Ok None => (f, Ok None)
  | Ok (Some h) =>
      let '(f, r) := skip_payload f in
      (f, _ ← r;
          let start := default 0 (fid_start (fh_id h)) in
          let hd := fh_header h in
          Ok (Some (mkMeta (bh_type hd) start (default 0 (fid_ordinal (fh_id h))) (start + payload_offset h)
                      (fh_data_size h) (bh_indexdata hd ≫= deserialize) (bh_tagdata hd)
                      (payload_offset h + fh_data_size h))))
  end.

End Source.
Arguments Frames : clear implicits.

(** [HeaderWalker::open] on the file's bytes. *)
Definition walker_open (disk : bytes) : Frames PreadSource := of_input (pread_open disk).

(** ** Blob-count estimates *)

Definition SAMPLE_CAP : nat := 1000.

Record BlobCountEstimate := mkEstimate { osmdata_blobs : Z; exact_count : bool }.

Inductive EstimateError := MissingHeader | WalkFailed (e : Error).

Inductive ScanArm := Walker | FullScan.

Definition choose_scan_arm_at (estimate : BlobCountEstimate) (min_blobs : Z) : ScanArm :=
  if min_blobs <=? osmdata_blobs estimate then FullScan else Walker.

(** The probe walk: what is left of the cap, the first frame still to come,
    and the data frames sampled (count, bytes, end). *)
Fixpoint estimate_loop (cap : nat) (first : bool) (w : Frames PreadSource) (blobs sampled sampled_end size : Z)
  : result EstimateError BlobCountEstimate :=
  match cap with
  | O =>
      if blobs =? 0 then Ok (mkEstimate 0 false)
      else
        let mean := sampled / blobs in
        if mean =? 0 then Ok (mkEstimate blobs false)
        else Ok (mkEstimate (blobs + Z.max 0 (size - sampled_end) / mean) false)
  | S cap =>
      match walker_next w with
      | (_, Err e) => Err (WalkFailed e)
      | (_, Ok None) => Ok (mkEstimate blobs true)
      | (w, Ok (Some meta)) =>
          if first && negb (bool_decide (bm_type meta = OsmHeader)) then Err MissingHeader
          else if bool_decide (bm_type meta = OsmData) then
            estimate_loop cap false w (blobs + 1) (sampled + frame_size meta) (frame_start meta + frame_size meta) size
          else estimate_loop cap false w blobs sampled sampled_end size
      end
  end.

Definition estimate_blob_count (disk : bytes) : result EstimateError BlobCountEstimate :=
  if blen disk =? 0 then Err MissingHeader
  else estimate_loop SAMPLE_CAP true (accept_partial_index (walker_open disk)) 0 0 0 (blen disk).

End Walk.
Arguments Frames : clear implicits.

(** ** A failure ends the walk *)

Section Failure.
Context {P : Protohoggr} {T : Type} `{!FrameSource T} `{!FrameSkip T}.

(** The calls a reader makes of its walk, other than resuming it. *)
Inductive Call := CallHeader | CallPayload (out : bytes) | CallSkip | CallRaw | CallWalker | CallReposition (to : option Z).

(** The walk after a call, and whether the call failed. *)
Definition answered {X} (r : Frames T * result Error X) : Frames T * bool :=
  (r.1, match r.2 with Err _ => true | Ok _ => false end).

Definition call (f : Frames T) (c : Call) : Frames T * bool :=
  match c with
  | CallHeader => answered (next_header f)
  | CallPayload out => answered (read_payload f out)
  | CallSkip => answered (skip_payload f)
  | CallRaw => answered (next_raw f)
  | CallWalker => answered (walker_next f)
  | CallReposition to => (reposition f to, false)
  end.

(** The outcomes of a sequence of calls, the ones that answer. *)
Fixpoint outcomes (f : Frames T) (cs : list Call) : list bool :=
  match cs with
  | [] => []
  | CallReposition to :: cs => outcomes (reposition f to) cs
  | c :: cs => let '(f, e) := call f c in e :: outcomes f cs
  end.

Lemma next_header_fails f : (call f CallHeader).2 = true -> failed (call f CallHeader).1 = true.
Proof.
  cbn. unfold next_header. destruct (failed f) eqn:Hf; [done|]. destruct (pending f); [done|].
  destruct (cancelled f); [done|]. destruct (read_header f (next_id f)) as [g [h|e]]; done.
Qed.

Lemma take_pending_fails (f g : Frames T) e : take_pending f = (g, Err e) -> failed g = true.
Proof. unfold take_pending. destruct (failed f) eqn:Hf; [by intros [= <- _]|]. destruct (pending f); [done|]. by intros [= <- _]. Qed.

Lemma finish_fails (f g : Frames T) p e : finish f p = (g, Err e) -> failed g = true.
Proof. unfold finish. destruct (match pe_readable p with Some _ => _ | None => _ end) as [gd [at_|]]; [|done]. by intros [= <- _]. Qed.

Lemma read_payload_fails f out : (call f (CallPayload out)).2 = true -> failed (call f (CallPayload out)).1 = true.
Proof.
  cbn. unfold read_payload. destruct (take_pending f) as [g [p|e]] eqn:Ht; [|intros _; by eapply take_pending_fails].
  destruct (append _ _) as [t r]. destruct (appended r) as [b|e]; [|done]. destruct (_ <? _); [done|].
  destruct (finish (set_src g t) p) as [k [u|e]] eqn:Hk; [done|]. intros _. by eapply finish_fails.
Qed.

Lemma skip_payload_fails f : (call f CallSkip).2 = true -> failed (call f CallSkip).1 = true.
Proof.
  cbn. unfold skip_payload. destruct (take_pending f) as [g [p|e]] eqn:Ht; [|intros _; by eapply take_pending_fails].
  destruct (skip_bytes _ _) as [t [[|]|[|code]]]; [|done..].
  destruct (finish (set_src g t) p) as [k [u|e]] eqn:Hk; [done|]. intros _. by eapply finish_fails.
Qed.

(** Any failed call leaves the walk failed. *)
Lemma call_fails f c : (call f c).2 = true -> failed (call f c).1 = true.
Proof.
  destruct c as [|out| | | |to]; [apply next_header_fails|apply read_payload_fails|apply skip_payload_fails| | |done].
  - cbn. pose proof (next_header_fails f) as Hh. unfold next_raw. cbn in Hh.
    destruct (next_header f) as [g [[h|]|e]]; cbn in *; [|done|auto].
    match goal with |- context [read_payload g ?out] => pose proof (read_payload_fails g out) as Hp;
      cbn in Hp; destruct (read_payload g out) as [k [b|e]] end; cbn in *; auto.
  - cbn. pose proof (next_header_fails f) as Hh. unfold walker_next. cbn in Hh.
    destruct (next_header f) as [g [[h|]|e]]; cbn in *; [|done|auto].
    pose proof (skip_payload_fails g) as Hp. cbn in Hp. destruct (skip_payload g) as [k [b|e]]; cbn in *; auto.
Qed.

(** A failed walk answers every call with an error and stays as it is. *)
Lemma failed_stays f c : failed f = true -> (forall to, c <> CallReposition to) -> call f c = (f, true).
Proof.
  intros Hf Hc. destruct c as [|out| | | |to]; [..|by destruct (Hc to)]; cbn;
    unfold next_raw, walker_next, next_header, read_payload, skip_payload, take_pending; by rewrite Hf.
Qed.

Lemma failed_outcomes cs : forall f, failed f = true -> Forall (eq true) (outcomes f cs).
Proof.
  induction cs as [|c cs IH]; intros f Hf; [constructor|]. cbn [outcomes].
  destruct c as [|out| | | |to]; [..|by apply IH]; rewrite failed_stays by done; constructor; auto.
Qed.

(** A failure ends a frame walk: in any sequence of calls on a walk, over
    any source, whatever errors it raises (a misuse of the protocol and a
    repositioning included), every call after the first failed one fails too.
    A source that failed partway through a frame is never read on as if it
    stood at the next one. *)
Theorem failed_walk_stays_failed (f : Frames T) (cs : list Call) (i j : nat) :
  outcomes f cs !! i = Some true -> (i <= j < length (outcomes f cs))%nat -> outcomes f cs !! j = Some true.
Proof.
  revert f i j. induction cs as [|c cs IH]; intros f i j Hi Hj; [done|].
  assert (forall c, (forall to, c <> CallReposition to) ->
    (let '(g, e) := call f c in e :: outcomes g cs) !! i = Some true ->
    (i <= j < length (let '(g, e) := call f c in e :: outcomes g cs))%nat ->
    (let '(g, e) := call f c in e :: outcomes g cs) !! j = Some true) as Hstep.
  { intros c' _. pose proof (call_fails f c') as Hfail. destruct (call f c') as [g e]. cbn in Hfail.
    destruct i as [|i], j as [|j]; cbn; intros Hi' Hj'; [done| |lia|apply (IH g i j); [done|lia]].
    injection Hi' as ->. destruct (lookup_lt_is_Some_2 (outcomes g cs) j) as [b Hb]; [cbn in Hj'; lia|].
    change (outcomes g cs !! j = Some true). rewrite Hb. f_equal. symmetry. by apply (Forall_lookup_1 _ _ _ _ (failed_outcomes cs g (Hfail eq_refl)) Hb). }
  cbn [outcomes] in *. destruct c as [|out| | | |to]; [..|by eapply IH]; by apply Hstep.
Qed.

End Failure.

Import RefProto.

(** A stray length prefix, then calls that ask for more. *)
Lemma failed_walk_stays_failed_witness :
  let f := frames_new (mkSeekSource [0; 0; 0; 0; 0; 0; 0; 1; 8] 0) (Some 0) INDEXES in
  let cs := [CallHeader; CallReposition (Some 4); CallHeader; CallSkip; CallRaw] in
  outcomes f cs !! 0%nat = Some true /\ outcomes f cs !! 3%nat = Some true.
Proof.
  cbn zeta. split; [by vm_compute|].
  apply (failed_walk_stays_failed (frames_new (mkSeekSource [0; 0; 0; 0; 0; 0; 0; 1; 8] 0) (Some 0) INDEXES)
    [CallHeader; CallReposition (Some 4); CallHeader; CallSkip; CallRaw] 0 3); [by vm_compute|].
  vm_compute. lia.
Defined.
