(* ===== verification/FrameConform.v ===== *)
(** * Every source walks alike (src/src/read/frame.rs)

    The walk depends on its source only through the bytes the source has still
    to deliver, so the streaming readers, the seek-and-sentinel skip and the
    pread walker see the same frames and the same failures on every input. *)

From S2P Require Import Prelude Proto Wire BlobMeta BlobWire FrameSource FrameWalk.

Section Conform.
Context {P : Protohoggr}.

(** The walk with another source in place of its own. *)
Definition with_src {T U} (f : Frames T) (u : U) : Frames U :=
  mkFrames u (pos f) (stream_start f) (next_ordinal f) (cancelled f) (header_bytes_buf f) (keep f)
    (pending f) (failed f) (partial_index f) (warnings f).

Definition erased {T} (f : Frames T) : Frames unit := with_src f tt.

Lemma judge_erased {T} (f : Frames T) id n :
  erased (judge_header f id n).1 = (judge_header (erased f) id n).1 /\
  (judge_header f id n).2 = (judge_header (erased f) id n).2 /\
  src (judge_header f id n).1 = src f.
Proof.
  unfold judge_header. cbn [erased with_src partial_index header_bytes_buf keep stream_start].
  destruct (WireBlobHeader_parse _ _ _ _) as [h|e]; [|done]. cbn zeta.
  destruct (bh_unrecognised _); cbn [warn stream_start erased with_src];
    (destruct (check_header_position _ _); [|done]); (destruct (_ <? 0); [done|]); by destruct (_ <=? _).
Qed.

(** ** One header *)

Section One.
Context {T : Type} `{SL : SourceLaws T}.

(** What [read_header] makes of the bytes ahead. *)
Lemma read_header_ahead (f : Frames T) id :
  ready (src f) -> (4 <= blen (rest (src f)) -> 0 <= from_be (take 4 (rest (src f)))) ->
  let b := rest (src f) in
  if blen b <? 4 then exists t p, read_header f id = (set_pos (set_src f t) p, Ok None)
  else match check_header_len (from_be (take 4 b)) with
       | Err e => exists t, read_header f id = (set_src f t, Err e)
       | Ok n =>
           let hb := take (Z.to_nat n) (drop 4 b) in
           exists t, 0 <= n /\ reliable t /\ rest t = drop (Z.to_nat n) (drop 4 b) /\
             read_header f id =
               (let f := set_header (set_src f t) hb in
                if blen hb <? n then (f, Err (Truncated TruncatedHeader n ((fun s => s + 4) <$> fid_start id)))
                else let '(f, r) := judge_header f id n in (f, Some <$> r))
       end.
Proof.
  intros Hr Hby b. subst b. unfold read_header. destruct (Z.ltb_spec (blen (rest (src f))) 4) as [Hs|Hl].
  - destruct (fill_end (src f) Hr Hs) as (t & b & -> & Hb). rewrite (proj2 (Z.ltb_lt _ _)) by done. eauto.
  - destruct (fill_whole (src f) Hr Hl) as (t & -> & Ht & Hrest).
    assert (blen (take 4 (rest (src f))) = 4) as Hlen by (unfold blen in *; rewrite length_take; lia).
    rewrite Hlen. change (4 <? 4) with false. cbv iota.
    destruct (check_header_len _) as [n|e] eqn:Hn; [|eauto].
    assert (0 <= n) as Hn0.
    { unfold check_header_len in Hn. destruct (_ =? 0); [done|]. destruct (_ <=? _); [done|]. simplify_eq.
      by apply Hby. }
    destruct (append_rest n t Ht Hn0) as (t' & Happ & Ht' & Hrest'). cbn [src set_src]. rewrite Happ. cbn [appended].
    rewrite Hrest in *. exists t'. done.
Qed.

End One.

Lemma prefix_nonneg (b : bytes) : Forall is_byte b -> 0 <= from_be (take 4 b).
Proof. intros Hb. apply from_le_range, Forall_rev. by apply Forall_take. Qed.

Lemma judge_ok {T} (f f' : Frames T) id n h :
  judge_header f id n = (f', Ok h) ->
  fh_id h = id /\ fh_header_len h = n /\ 0 <= fh_data_size h < MAX_BLOB_DATASIZE /\
  bh_datasize (fh_header h) = fh_data_size h /\
  header_bytes_buf f' = header_bytes_buf f /\ failed f' = failed f /\ src f' = src f /\
  exists readable, pending f' = Some (mkPending id (fh_data_size h) readable).
Proof.
  unfold judge_header. destruct (WireBlobHeader_parse _ _ _ _) as [w|e]; [|done]. cbn zeta.
  match goal with |- context [bh_datasize ?x <? 0] => generalize x as w' end. intros w'.
  destruct (check_header_position _ _); [|done].
  destruct (Z.ltb_spec (bh_datasize w') 0); [done|]. destruct (Z.leb_spec MAX_BLOB_DATASIZE (bh_datasize w')); [done|].
  intros [= <- <-]. cbn. repeat split; try lia; eauto; by destruct (bh_unrecognised _).
Qed.

Lemma finish_erased {T} (f : Frames T) p :
  erased (finish f p).1 = (finish (erased f) p).1 /\ (finish f p).2 = (finish (erased f) p).2 /\
  src (finish f p).1 = src f.
Proof.
  unfold finish. cbn [erased with_src partial_index].
  destruct (pe_readable p), (partial_index f) as [g|]; try done. destruct (observe g b (pe_id p)) as [g' [at_|]]; done.
Qed.

Lemma finish_keeps {T} (f f' : Frames T) p : finish f p = (f', Ok tt) -> pending f' = pending f /\ failed f' = failed f.
Proof.
  unfold finish. destruct (match pe_readable p with Some _ => _ | None => _ end) as [g [at_|]]; [done|].
  by intros [= <-].
Qed.

(** What [read_payload] makes of the bytes ahead. *)
Lemma read_payload_ahead {T} `{SL : SourceLaws T} (f : Frames T) p out :
  reliable (src f) -> failed f = false -> pending f = Some p -> 0 <= pe_data_size p ->
  let b := take (Z.to_nat (pe_data_size p)) (rest (src f)) in
  exists t, reliable t /\ rest t = drop (Z.to_nat (pe_data_size p)) (rest (src f)) /\
    read_payload f out =
      (let g := mkFrames t (pos f) (stream_start f) (next_ordinal f) (cancelled f) (header_bytes_buf f) (keep f)
                  None (failed f) (partial_index f) (warnings f) in
       if blen b <? pe_data_size p then fail g (pe_id p) (Truncated TruncatedPayload (pe_data_size p) (pos f))
       else let '(g, r) := finish g p in (g, _ ← r; Ok (out ++ b))).
Proof.
  intros Hr Hf Hp Hsz. cbn zeta. unfold read_payload, take_pending. rewrite Hf, Hp. cbn [src].
  destruct (append_rest (pe_data_size p) (src f) Hr Hsz) as (t & -> & Ht & Hd). exists t. rewrite <- Hf. done.
Qed.

(** ** Two walks in step *)

Section Two.
Context {T U : Type} `{ST : SourceLaws T} `{SU : SourceLaws U}.

(** The same walk over sources with the same bytes ahead. *)
Definition level (f1 : Frames T) (f2 : Frames U) : Prop :=
  erased f1 = erased f2 /\ reliable (src f1) /\ reliable (src f2) /\ rest (src f1) = rest (src f2) /\
  Forall is_byte (rest (src f1)).

(** Level, at a frame boundary. *)
Definition boundary (f1 : Frames T) (f2 : Frames U) : Prop :=
  level f1 f2 /\ ready (src f1) /\ ready (src f2) /\ pending f1 = None.

Lemma erased_fields (f1 : Frames T) (f2 : Frames U) :
  erased f1 = erased f2 -> pos f1 = pos f2 /\ next_ordinal f1 = next_ordinal f2 /\ failed f1 = failed f2 /\
  cancelled f1 = cancelled f2 /\ pending f1 = pending f2 /\ header_bytes_buf f1 = header_bytes_buf f2.
Proof. by destruct f1, f2; intros [= ]. Qed.

Lemma erased_set_src (f1 : Frames T) (f2 : Frames U) t u :
  erased f1 = erased f2 -> erased (set_src f1 t) = erased (set_src f2 u).
Proof. by destruct f1, f2; intros [= ]; simplify_eq/=. Qed.

Lemma erased_set_header (f1 : Frames T) (f2 : Frames U) b :
  erased f1 = erased f2 -> erased (set_header f1 b) = erased (set_header f2 b).
Proof. destruct f1, f2. by intros [= ]; simplify_eq/=. Qed.

(** The outcome of a header, and where a header leaves both walks. *)
Lemma next_header_alike f1 f2 :
  boundary f1 f2 ->
  (next_header f1).2 = (next_header f2).2 /\
  forall h, (next_header f1).2 = Ok (Some h) ->
    let f1' := (next_header f1).1 in let f2' := (next_header f2).1 in
    level f1' f2' /\ failed f1' = false /\ (length (rest (src f1')) < length (rest (src f1)))%nat /\
    0 <= fh_data_size h < MAX_BLOB_DATASIZE /\ blen (header_bytes_buf f1') = fh_header_len h /\
    exists readable, pending f1' = Some (mkPending (fh_id h) (fh_data_size h) readable).
Proof.
  intros ((He & _ & _ & Hrest & Hby) & Hr1 & Hr2 & Hp1).
  destruct (erased_fields _ _ He) as (Hpos & Hord & Hf & Hc & Hp & _). unfold next_header.
  rewrite <- Hf, <- Hp, <- Hc, Hp1. destruct (failed f1) eqn:Hfail; [done|]. destruct (cancelled f1); [done|].
  assert (next_id f1 = next_id f2) as Hid by (unfold next_id; by rewrite Hpos, Hord). rewrite <- Hid.
  pose proof (read_header_ahead f1 (next_id f1) Hr1 (fun _ => prefix_nonneg _ Hby)) as H1.
  pose proof (read_header_ahead f2 (next_id f1) Hr2) as H2. rewrite <- Hrest in H2. specialize (H2 (fun _ => prefix_nonneg _ Hby)).
  cbn zeta in H1, H2. destruct (blen (rest (src f1)) <? 4) eqn:Hshort.
  { destruct H1 as (t1 & p1 & ->), H2 as (t2 & p2 & ->). done. }
  destruct (check_header_len (from_be (take 4 (rest (src f1))))) as [n|e].
  2: { destruct H1 as (t1 & ->), H2 as (t2 & ->). done. }
  destruct H1 as (t1 & Hn0 & Ht1 & Hd1 & ->), H2 as (t2 & _ & Ht2 & Hd2 & ->).
  set (hb := take (Z.to_nat n) (drop 4 (rest (src f1)))) in *.
  destruct (Z.ltb_spec (blen hb) n); [done|].
  set (g1 := set_header (set_src f1 t1) hb). set (g2 := set_header (set_src f2 t2) hb).
  assert (erased g1 = erased g2) as Hg by (by apply erased_set_header, erased_set_src).
  destruct (judge_erased g1 (next_id f1) n) as (Ha1 & Hb1 & Hs1).
  destruct (judge_erased g2 (next_id f1) n) as (Ha2 & Hb2 & Hs2). rewrite <- Hg in Ha2, Hb2.
  rewrite <- Ha2 in Ha1. rewrite <- Hb2 in Hb1.
  destruct (judge_header g1 (next_id f1) n) as [k1 r1] eqn:Hj1, (judge_header g2 (next_id f1) n) as [k2 r2] eqn:Hj2.
  rewrite ?Hj1, ?Hj2 in *. cbn [fst snd] in *. subst r2. destruct r1 as [h1|e1]; [|done].
  apply judge_ok in Hj1 as (Hid1 & Hlen1 & Hsz & _ & Hbuf & Hfl & _ & Hpe). split; [done|]. intros h [= <-].
  cbn zeta. cbn [fst snd fmap result_fmap] in *. change (src g1) with t1 in Hs1. change (src g2) with t2 in Hs2.
  split; [unfold level; split; [done|]; rewrite Hs1, Hs2, Hd1, Hd2; split_and!; try done; by apply Forall_drop, Forall_drop|].
  split; [by rewrite Hfl|]. split.
  { rewrite Hs1, Hd1, !length_drop. unfold blen in Hshort. lia. }
  split; [done|]. split; [|by rewrite Hid1].
  rewrite Hbuf, Hlen1. change (header_bytes_buf g1) with hb. assert (blen hb <= n) as Hle; [|lia].
  unfold hb, blen. rewrite length_take. lia.
Qed.

Context `{!ReadLaws T} `{!FrameSkip U} `{!SkipLaws U}.

(** Reading a payload on the one side is skipping it on the other. *)
Lemma payload_alike f1 f2 p out :
  level f1 f2 -> failed f1 = false -> pending f1 = Some p -> 0 <= pe_data_size p < MAX_BLOB_DATASIZE ->
  match (read_payload f1 out).2 with
  | Ok b => (skip_payload f2).2 = Ok tt /\ blen b = blen out + pe_data_size p /\
      b = out ++ take (Z.to_nat (pe_data_size p)) (rest (src f1)) /\
      boundary (read_payload f1 out).1 (skip_payload f2).1 /\ failed (read_payload f1 out).1 = false /\
      rest (src (read_payload f1 out).1) = drop (Z.to_nat (pe_data_size p)) (rest (src f1))
  | Err e => (skip_payload f2).2 = Err e
  end.
Proof.
  intros (He & Hr1 & Hr2 & Hrest & Hby) Hf Hp Hsz. destruct (erased_fields _ _ He) as (Hpos & _ & Hf2 & _ & Hp2 & _).
  destruct (read_payload_ahead f1 p out Hr1 Hf Hp) as (t1 & Ht1 & Hd1 & ->); [lia|].
  unfold skip_payload, take_pending. rewrite <- Hf2, <- Hp2, Hf, Hp. cbn [src]. cbn zeta.
  assert (0 <= pe_data_size p < 2 ^ 32) as Hsz32 by (unfold MAX_BLOB_DATASIZE, MAX_BLOB_MESSAGE_SIZE in Hsz; lia).
  set (b := take (Z.to_nat (pe_data_size p)) (rest (src f1))).
  destruct (Z.ltb_spec (blen b) (pe_data_size p)) as [Hshort|Hlen].
  - destruct (skip_short (pe_data_size p) (src f2) Hr2 Hsz32) as (t2 & r & -> & Hr).
    { rewrite <- Hrest. unfold b, blen in *. rewrite length_take in Hshort. lia. }
    cbn [fail snd pos set_src]. rewrite Hpos. by destruct Hr as [-> | ->].
  - assert (pe_data_size p <= blen (rest (src f1))) as Hle.
    { unfold b, blen in *. rewrite length_take in Hlen. lia. }
    assert (blen b = pe_data_size p) as Hb by (unfold b, blen in *; rewrite length_take in *; lia).
    destruct (skip_whole (pe_data_size p) (src f2) Hr2 Hsz32) as (t2 & -> & Ht2 & Hd2); [by rewrite <- Hrest|].
    set (g1 := mkFrames t1 _ _ _ _ _ _ _ _ _ _). set (g2 := set_src _ t2).
    assert (erased g1 = erased g2) as Hg by (subst g1 g2; destruct f1, f2; by injection He as ?; simplify_eq/=).
    destruct (finish_erased g1 p) as (Ha1 & Hc1 & Hs1), (finish_erased g2 p) as (Ha2 & Hc2 & Hs2).
    rewrite <- Hg in Ha2, Hc2. destruct (finish g1 p) as [k1 r1] eqn:Hk1, (finish g2 p) as [k2 r2] eqn:Hk2.
    rewrite ?Hk1, ?Hk2 in *. cbn [fst snd] in *. rewrite <- Hc1 in Hc2. subst r2.
    destruct r1 as [[]|e]; [|done]. cbn [mbind result_bind]. apply finish_keeps in Hk1 as [Hp1 Hf1].
    unfold blen. rewrite length_app. split; [done|]. split; [unfold blen in Hb; lia|]. split; [done|].
    change (src g1) with t1 in Hs1. change (src g2) with t2 in Hs2. split; [|split; [by rewrite Hf1|by rewrite Hs1]].
    unfold boundary, level. rewrite Hs1, Hs2, Hd1, Hd2, Hp1, <- Hrest. split_and!; try done.
    + by rewrite Ha1, Ha2.
    + by apply ready_reliable.
    + by apply Forall_drop.
    + by apply reliable_ready.
Qed.

(** ** Whole walks *)

(** The frames a raw walk delivers and how it ends; [None] is no end. *)
Fixpoint raw_walk (fuel : nat) (f : Frames T) : option (list RawBlobFrame * result Error unit) :=
  match fuel with
  | O => None
  | S fuel =>
      match next_raw f with
      | (_, Err e) => Some ([], Err e)
      | (_, Ok None) => Some ([], Ok tt)
      | (f, Ok (Some r)) => '(rs, e) ← raw_walk fuel f; Some (r :: rs, e)
      end
  end.

Fixpoint meta_walk (fuel : nat) (f : Frames U) : option (list BlobHeaderMeta * result Error unit) :=
  match fuel with
  | O => None
  | S fuel =>
      match walker_next f with
      | (_, Err e) => Some ([], Err e)
      | (_, Ok None) => Some ([], Ok tt)
      | (f, Ok (Some m)) => '(ms, e) ← meta_walk fuel f; Some (m :: ms, e)
      end
  end.

(** What a header walk reports of a frame a raw walk delivers. *)
Definition meta_of (r : RawBlobFrame) : BlobHeaderMeta :=
  let start := default 0 (fid_start (rf_id r)) in
  mkMeta (rf_type r) start (default 0 (fid_ordinal (rf_id r))) (start + blob_offset r)
    (blen (blob_bytes r)) (rf_index r) (rf_tagdata r) (blen (frame_bytes r)).

Lemma raw_walk_conforms fuel : forall f1 f2,
  boundary f1 f2 -> failed f1 = false -> (length (rest (src f1)) < fuel)%nat ->
  exists raws e, raw_walk fuel f1 = Some (raws, e) /\ meta_walk fuel f2 = Some (meta_of <$> raws, e).
Proof.
  induction fuel as [|fuel IH]; intros f1 f2 Hb Hf Hfuel; [lia|]. cbn [raw_walk meta_walk].
  unfold next_raw, walker_next. destruct (next_header_alike f1 f2 Hb) as [Hsame Hnext].
  destruct (next_header f1) as [g1 r1], (next_header f2) as [g2 r2]. cbn [fst snd] in *. subst r2.
  destruct r1 as [[h|]|e]; [|by exists [], (Ok tt)|by exists [], (Err e)].
  destruct (Hnext h eq_refl) as (Hl & Hf1 & Hlt & Hsz & Hbuf & readable & Hp). clear Hnext.
  set (out := to_be 4 (as_u32 (fh_header_len h)) ++ header_bytes_buf g1).
  pose proof (payload_alike g1 g2 _ out Hl Hf1 Hp Hsz) as Hpay. cbn [pe_data_size] in Hpay.
  destruct (read_payload g1 out) as [k1 [b|e]], (skip_payload g2) as [k2 q]; cbn [fst snd] in *.
  2: { subst q. by exists [], (Err e). }
  destruct Hpay as (-> & Hblen & _ & Hbd & Hf' & Hrest'). cbn [mbind result_bind].
  destruct (IH k1 k2 Hbd Hf') as (raws & e & -> & ->); [rewrite Hrest', length_drop; lia|].
  cbn [mbind option_bind]. eexists _, e. split; [done|]. cbn [fmap list_fmap].
  do 3 f_equal. unfold meta_of, blob_bytes, payload_offset. cbn.
  assert (blen out = 4 + fh_header_len h) as Hout.
  { unfold out, blen. rewrite length_app, length_to_be. unfold blen in Hbuf. lia. }
  rewrite Hout in Hblen. f_equal; unfold blen in *; rewrite ?length_drop; lia.
Qed.

End Two.
End Conform.

(** ** Claims *)

Section Claims.
Context {P : Protohoggr} {T U : Type}.
Context `{ST : SourceLaws T} `{!ReadLaws T} `{SU : SourceLaws U} `{!FrameSkip U} `{!SkipLaws U}.

(** A walk of a command input, with or without the partial-index refusal. *)
Definition input_walk {X : Type} (refusing : bool) (x : X) : Frames X :=
  if refusing then of_input x else accept_partial_index (of_input x).

(** C12. Every way of reading frames sees the same file: on any bytes at all,
    well formed or not, a raw walk over any stream (however it chunks its reads)
    and a header walk over any source that skips payloads both end, and deliver
    the same frames (same identity, type, index, tag data, extent) and the same
    outcome, clean end or the same error at the same place. *)
Theorem frame_walks_conform (refusing : bool) (t : T) (u : U) (file : bytes) :
  Forall is_byte file -> ready t -> rest t = file -> ready u -> rest u = file ->
  exists raws e,
    raw_walk (S (length file)) (input_walk refusing t) = Some (raws, e) /\
    meta_walk (S (length file)) (input_walk refusing u) = Some (meta_of <$> raws, e).
Proof.
  intros Hby Ht Hrt Hu Hru.
  assert (src (input_walk refusing t) = t /\ src (input_walk refusing u) = u) as [Hst Hsu] by (by destruct refusing).
  apply raw_walk_conforms.
  - unfold boundary, level. rewrite Hst, Hsu, Hrt, Hru. split_and!; try done; try (by apply ready_reliable); by destruct refusing.
  - by destruct refusing.
  - rewrite Hst, Hrt. lia.
Qed.

End Claims.

Import RefProto.

(** A header frame of type [OSMHeader] with an empty body, then three stray bytes. *)
Definition tiny_file : bytes := [0; 0; 0; 11; 10; 9] ++ [79; 83; 77; 72; 101; 97; 100; 101; 114] ++ [0; 0; 1].

Definition tiny_chunks : Reader := [Chunk [0; 0]; Interrupted; Chunk (drop 2 tiny_file)].

Lemma frame_walks_conform_witness :
  (exists raws e,
    raw_walk (S (length tiny_file)) (input_walk true tiny_chunks) = Some (raws, e) /\
    meta_walk (S (length tiny_file)) (input_walk true (pread_open tiny_file)) = Some (meta_of <$> raws, e)) /\
  (fst <$> raw_walk 19 (input_walk true tiny_chunks)) =
    Some [mkRawFrame (take 15 tiny_file) OsmHeader 15 None false None false (mkFrameId (Some 0) (Some 0))].
Proof.
  split; [|by vm_compute].
  apply (frame_walks_conform true tiny_chunks (pread_open tiny_file) tiny_file).
  - unfold tiny_file. repeat (apply Forall_cons; split; [unfold is_byte; lia|]). apply Forall_nil_2.
  - repeat (apply Forall_cons; split; [done|]). apply Forall_nil_2.
  - done.
  - apply pread_open_ready.
  - apply pread_open_ready.
Defined.
