(* ===== verification/FrameFile.v ===== *)
(** * Files of frames: what is written is what is read

    The frames [Framing] writes, walked by [FrameWalk] over any stream. *)

From S2P Require Import Prelude StdText Proto Wire Encode Utf8 BlobMeta BlobWire Codec BlobDecode Framing FrameSpec.
From S2P Require Import FrameSource FrameWalk FrameConform.

(** ** Well-formed frames *)

Section Files.
Context {P : Protohoggr}.

(** A frame's header and body bytes, and what the header says. *)
Record Framed := mkFramed { fr_header : bytes; fr_body : bytes; fr_said : WireBlobHeader }.

Definition frame_encoded (f : Framed) : bytes := to_be 4 (blen (fr_header f)) ++ fr_header f ++ fr_body f.

Record framed_ok (f : Framed) : Prop := {
  fo_header : 0 < blen (fr_header f) < MAX_BLOB_HEADER_SIZE;
  fo_parse : WireBlobHeader_parse (fr_header f) true true false = Ok (fr_said f);
  fo_size : bh_datasize (fr_said f) = blen (fr_body f);
  fo_body : blen (fr_body f) < MAX_BLOB_DATASIZE }.

Definition frame_total (f : Framed) : Z := 4 + blen (fr_header f) + blen (fr_body f).

Definition raw_of (id : FrameId) (f : Framed) : RawBlobFrame :=
  let h := fr_said f in
  mkRawFrame (frame_encoded f) (bh_type h) (4 + blen (fr_header f)) (bh_indexdata h ≫= deserialize)
    (bh_index_present h) (bh_tagdata h) (bh_tag_present h) id.

(** The guard's view of a completed frame. *)
Definition guard_step (g : option (PartialIndexGuard FrameId)) (id : FrameId) (h : WireBlobHeader)
  : option (PartialIndexGuard FrameId) * option FrameId :=
  match g with
  | Some g =>
      if bool_decide (bh_type h = OsmData)
      then let '(g, at_) := observe g (bool_decide (is_Some (bh_indexdata h ≫= deserialize))) id in (Some g, at_)
      else (Some g, None)
  | None => (None, None)
  end.

(** What a walk must deliver of these frames, the next of them at [start] and
    [ordinal]: each frame in order, up to the one that shows the input
    partially indexed. *)
Fixpoint delivers (g : option (PartialIndexGuard FrameId)) (start ordinal : Z) (fs : list Framed)
  : list RawBlobFrame * result Error unit :=
  match fs with
  | [] => ([], Ok tt)
  | f :: fs =>
      let id := mkFrameId (Some start) (Some ordinal) in
      let '(g, refused) := guard_step g id (fr_said f) in
      match refused with
      | Some at_ => ([], Err (locate at_ (unlocated PartialIndex)))
      | None => let '(rs, e) := delivers g (start + frame_total f) (ordinal + 1) fs in (raw_of id f :: rs, e)
      end
  end.

Lemma from_be_prefix (n : Z) (b : bytes) : 0 <= n < 2 ^ 32 -> from_be (take 4 (to_be 4 n ++ b)) = n.
Proof.
  intros Hn. rewrite take_app_length' by (by rewrite length_to_be). apply from_to_be_u. exact Hn.
Qed.

Lemma drop_prefix (n : Z) (b : bytes) : drop 4 (to_be 4 n ++ b) = b.
Proof. by rewrite drop_app_length' by (by rewrite length_to_be). Qed.

Lemma header_len_32 n : 0 < n < MAX_BLOB_HEADER_SIZE -> 0 <= n < 2 ^ 32 /\ check_header_len n = Ok n.
Proof.
  unfold MAX_BLOB_HEADER_SIZE. intros Hn. split; [lia|]. unfold check_header_len, MAX_BLOB_HEADER_SIZE.
  rewrite (proj2 (Z.eqb_neq _ _)), (proj2 (Z.leb_gt _ _)) by lia. done.
Qed.

Section Walk.
Context {T : Type} `{SL : SourceLaws T} `{!ReadLaws T}.

(** A raw walk standing at a boundary. *)
Record standing (f : Frames T) (start ordinal : Z) (g : option (PartialIndexGuard FrameId)) (ahead : bytes) : Prop := {
  st_ready : ready (src f);
  st_rest : rest (src f) = ahead;
  st_live : failed f = false /\ cancelled f = false /\ pending f = None;
  st_keep : keep f = INDEXES /\ stream_start f = 0;
  st_at : pos f = Some start /\ next_ordinal f = Some ordinal;
  st_guard : partial_index f = g }.

Definition leading (start : Z) (h : WireBlobHeader) : Prop := bh_type h = OsmHeader -> start = 0.

(** The header of a frame that begins the bytes ahead. *)
Lemma judge_said (f : Frames T) start ordinal g fr :
  framed_ok fr -> leading start (fr_said fr) -> header_bytes_buf f = fr_header fr -> keep f = INDEXES ->
  stream_start f = 0 -> partial_index f = g ->
  let id := mkFrameId (Some start) (Some ordinal) in
  exists ws, judge_header f id (blen (fr_header fr)) =
    (mkFrames (src f) (Some (start + 4 + blen (fr_header fr))) 0 (next_ordinal f) (cancelled f) (fr_header fr) INDEXES
       (Some (mkPending id (blen (fr_body fr))
          (match g with
           | Some _ => if bool_decide (bh_type (fr_said fr) = OsmData)
                       then Some (bool_decide (is_Some (bh_indexdata (fr_said fr) ≫= deserialize))) else None
           | None => None
           end))) (failed f) g ws,
     Ok (mkFrameHeader id (blen (fr_header fr)) (blen (fr_body fr)) (fr_said fr))).
Proof.
  intros [Hh Hparse Hsize Hbody] Hlead Hbuf Hkeep Hstart Hg. cbn zeta. unfold judge_header.
  rewrite Hbuf, Hkeep, Hg. cbn [keep_tagdata keep_indexdata keep_waymembers INDEXES orb]. rewrite Hparse.
  cbn [negb fid_start fid_ordinal]. rewrite andb_false_r.
  assert (check_header_position (bh_type (fr_said fr)) (start =? 0) = Ok tt) as Hpos.
  { unfold leading in Hlead. destruct (bh_type (fr_said fr)); try done. by rewrite (Hlead eq_refl). }
  pose proof (Zle_0_nat (length (fr_body fr))) as Hnn. fold (blen (fr_body fr)) in Hnn.
  exists (match bh_unrecognised (fr_said fr) with Some len => warnings f ++ [(len, Some start)] | None => warnings f end).
  destruct (bh_unrecognised (fr_said fr)); cbn [warn stream_start]; rewrite Hstart, Hpos, Hsize,
    (proj2 (Z.ltb_ge _ _)), (proj2 (Z.leb_gt _ _)) by done; cbn; rewrite ?Hbuf, ?Hkeep, ?Hg, ?Hstart; by destruct g.
Qed.

Lemma header_ahead f start ordinal g fr more :
  framed_ok fr -> leading start (fr_said fr) ->
  standing f start ordinal g (to_be 4 (blen (fr_header fr)) ++ fr_header fr ++ more) ->
  let id := mkFrameId (Some start) (Some ordinal) in
  exists t ws readable, reliable t /\ rest t = more /\
    readable = (match g with
           | Some _ => if bool_decide (bh_type (fr_said fr) = OsmData)
                       then Some (bool_decide (is_Some (bh_indexdata (fr_said fr) ≫= deserialize))) else None
           | None => None
           end) /\
    next_header f =
    (mkFrames t (Some (start + 4 + blen (fr_header fr))) 0 (Some ordinal) false (fr_header fr) INDEXES
       (Some (mkPending id (blen (fr_body fr)) readable)) false g ws,
     Ok (Some (mkFrameHeader id (blen (fr_header fr)) (blen (fr_body fr)) (fr_said fr)))).
Proof.
  intros Hfr Hlead [Hr Hrest (Hf & Hc & Hp) (Hkeep & Hss) (Hpos & Hord) Hg]. cbn zeta.
  destruct (header_len_32 _ (fo_header _ Hfr)) as [H32 Hlen]. unfold next_header. rewrite Hf, Hc, Hp. unfold next_id. rewrite Hpos, Hord.
  pose proof (read_header_ahead f (mkFrameId (Some start) (Some ordinal)) Hr) as H. cbn zeta in H. rewrite Hrest in H.
  rewrite from_be_prefix, drop_prefix in H by done. specialize (H (fun _ => proj1 H32)).
  assert (4 <= blen (to_be 4 (blen (fr_header fr)) ++ fr_header fr ++ more)) as Hbig.
  { unfold blen. rewrite length_app, length_to_be. lia. }
  rewrite (proj2 (Z.ltb_ge _ _)) in H by done. rewrite Hlen in H.
  assert (take (Z.to_nat (blen (fr_header fr))) (fr_header fr ++ more) = fr_header fr) as Htake.
  { unfold blen. by rewrite Nat2Z.id, take_app_length. }
  rewrite Htake, Z.ltb_irrefl in H. destruct H as (t & _ & Ht & Hd & ->).
  edestruct (judge_said (set_header (set_src f t) (fr_header fr)) start ordinal g fr) as (ws & ->); try done.
  cbn [fmap result_fmap src set_header set_src next_ordinal cancelled failed]. rewrite Hord, Hc, Hf.
  eexists t, ws, _. split; [done|]. split; [|done]. rewrite Hd. unfold blen. by rewrite Nat2Z.id, drop_app_length.
Qed.

Lemma next_raw_whole f start ordinal g fr more :
  framed_ok fr -> leading start (fr_said fr) -> standing f start ordinal g (frame_encoded fr ++ more) ->
  let id := mkFrameId (Some start) (Some ordinal) in
  let '(g', refused) := guard_step g id (fr_said fr) in
  match refused with
  | Some at_ => (next_raw f).2 = Err (locate at_ (unlocated PartialIndex))
  | None => exists f', next_raw f = (f', Ok (Some (raw_of id fr))) /\
              standing f' (start + frame_total fr) (ordinal + 1) g' more
  end.
Proof.
  intros Hfr Hlead Hst. cbn zeta.
  unfold frame_encoded in Hst. rewrite <- !app_assoc in Hst.
  destruct (header_ahead f start ordinal g fr _ Hfr Hlead Hst) as (t & ws & readable & Ht & Hrest & Hread & Hnext).
  unfold next_raw. rewrite Hnext. cbn [header_bytes_buf fh_header_len fh_header fh_id].
  destruct (header_len_32 _ (fo_header _ Hfr)) as [H32 _]. rewrite as_u_id by exact H32.
  set (k := mkFrames t _ _ _ _ _ _ _ _ _ _).
  destruct (read_payload_ahead k _ (to_be 4 (blen (fr_header fr)) ++ fr_header fr) Ht eq_refl eq_refl) as (t' & Ht' & Hd' & ->).
  { cbn. unfold blen. lia. }
  cbn [pe_data_size src k pos stream_start next_ordinal cancelled header_bytes_buf keep failed partial_index warnings] in *.
  rewrite Hrest in Hd' |- *. assert (Z.to_nat (blen (fr_body fr)) = length (fr_body fr)) as Hlen by (unfold blen; lia).
  rewrite Hlen in *. rewrite take_app_length, drop_app_length in *. rewrite Z.ltb_irrefl.
  unfold finish. cbn [pe_readable partial_index pe_id]. subst readable. unfold guard_step.
  assert (forall g, standing (mkFrames t' (Some (start + 4 + blen (fr_header fr) + blen (fr_body fr))) 0 (Some (ordinal + 1))
    false (fr_header fr) INDEXES None false g ws) (start + frame_total fr) (ordinal + 1) g more) as Hstand.
  { intros g'. constructor; try done; cbn; [by apply reliable_ready|]. unfold frame_total. split; [f_equal; lia|done]. }
  assert (forall s, mkRawFrame ((to_be 4 (blen (fr_header fr)) ++ fr_header fr) ++ fr_body fr) (bh_type (fr_said fr))
      (payload_offset (mkFrameHeader s (blen (fr_header fr)) (blen (fr_body fr)) (fr_said fr)))
      (bh_indexdata (fr_said fr) ≫= deserialize) (bh_index_present (fr_said fr)) (bh_tagdata (fr_said fr))
      (bh_tag_present (fr_said fr)) s = raw_of s fr) as Hraw.
  { intros s. unfold raw_of, frame_encoded. by rewrite <- app_assoc. }
  destruct g as [g|]; [case_bool_decide as Hdata|].
  - destruct (observe g _ _) as [g' [at_|]]; [done|]. eexists. split; [by rewrite <- Hraw|apply Hstand].
  - eexists. split; [by rewrite <- Hraw|apply Hstand].
  - eexists. split; [by rewrite <- Hraw|apply Hstand].
Qed.

Lemma next_raw_end f start ordinal g ahead :
  standing f start ordinal g ahead -> blen ahead < 4 -> (next_raw f).2 = Ok None.
Proof.
  intros [Hr Hrest (Hf & Hc & Hp) _ _ _] Hlt. unfold next_raw, next_header. rewrite Hf, Hc, Hp.
  pose proof (read_header_ahead f (next_id f) Hr) as H. cbn zeta in H. rewrite Hrest in H.
  rewrite (proj2 (Z.ltb_lt _ _)) in H by done. destruct H as (t & p & ->); [lia|done].
Qed.

(** The frame's bytes end [c] bytes in, past its length prefix. *)
Definition cut_error (fr : Framed) (start ordinal c : Z) : Error :=
  mkError (if c <? 4 + blen (fr_header fr)
           then Truncated TruncatedHeader (blen (fr_header fr)) (Some (start + 4))
           else Truncated TruncatedPayload (blen (fr_body fr)) (Some (start + 4 + blen (fr_header fr))))
    (Some (mkFrameId (Some start) (Some ordinal))).

Lemma take_prefix c n (b : bytes) : 4 <= c -> take (Z.to_nat c) (to_be 4 n ++ b) = to_be 4 n ++ take (Z.to_nat (c - 4)) b.
Proof. intros Hc. rewrite take_app_ge, length_to_be by (rewrite length_to_be; lia). do 2 f_equal. lia. Qed.

Lemma next_raw_cut f start ordinal g fr c :
  framed_ok fr -> leading start (fr_said fr) -> 4 <= c < frame_total fr ->
  standing f start ordinal g (take (Z.to_nat c) (frame_encoded fr)) ->
  (next_raw f).2 = Err (cut_error fr start ordinal c).
Proof.
  intros Hfr Hlead Hc Hst. unfold cut_error, frame_total in *.
  destruct (Z.ltb_spec c (4 + blen (fr_header fr))) as [Hh|Hb].
  - destruct Hst as [Hr Hrest (Hf & Hca & Hp) _ (Hpos & Hord) _]. unfold frame_encoded in Hrest.
    rewrite take_prefix, take_app_le in Hrest by (unfold blen in *; lia).
    unfold next_raw, next_header. rewrite Hf, Hca, Hp. unfold next_id. rewrite Hpos, Hord.
    destruct (header_len_32 _ (fo_header _ Hfr)) as [H32 Hlen].
    pose proof (read_header_ahead f (mkFrameId (Some start) (Some ordinal)) Hr) as H. cbn zeta in H. rewrite Hrest in H.
    rewrite from_be_prefix, drop_prefix in H by done. specialize (H (fun _ => proj1 H32)). rewrite Hlen in H.
    rewrite (proj2 (Z.ltb_ge _ _)) in H by (unfold blen; rewrite length_app, length_to_be; lia).
    destruct H as (t & _ & _ & _ & ->). rewrite take_take, (proj2 (Z.ltb_lt _ _)); [done|].
    unfold blen in *. rewrite length_take. lia.
  - (* the header is whole: walk past it over the body that is there *)
    assert (take (Z.to_nat c) (frame_encoded fr) =
      to_be 4 (blen (fr_header fr)) ++ fr_header fr ++ take (Z.to_nat (c - 4 - blen (fr_header fr))) (fr_body fr)) as Hcut.
    { unfold frame_encoded. rewrite take_prefix, take_app_ge by (unfold blen in *; lia). do 3 f_equal. unfold blen in *. lia. }
    rewrite Hcut in Hst. set (part := take _ (fr_body fr)) in *.
    destruct (header_ahead f start ordinal g fr part Hfr Hlead Hst) as (t & ws & readable & Ht & Hrest & Hread & Hnext).
    unfold next_raw. rewrite Hnext. cbn [header_bytes_buf fh_header_len fh_header fh_id].
    set (k := mkFrames t _ _ _ _ _ _ _ _ _ _).
    destruct (read_payload_ahead k _ (to_be 4 (as_u32 (blen (fr_header fr))) ++ fr_header fr) Ht eq_refl eq_refl)
      as (t' & _ & _ & ->); [cbn; unfold blen; lia|].
    cbn [pe_data_size src k pos]. rewrite Hrest, (proj2 (Z.ltb_lt _ _)); [done|].
    unfold part, blen in *. rewrite take_take, length_take. lia.
Qed.

(** ** Whole files *)

Definition lead_ok (start : Z) (fs : list Framed) : Prop :=
  match fs with
  | [] => True
  | f :: fs => leading start (fr_said f) /\ Forall (fun f => bh_type (fr_said f) <> OsmHeader) fs
  end.

Lemma lead_ok_next start start' f fs : lead_ok start (f :: fs) -> lead_ok start' fs.
Proof.
  intros [_ HF]. destruct fs as [|f' fs]; [done|]. apply Forall_cons in HF as [Hf HF]. split; [|done]. by intros ?.
Qed.

Definition file_of (fs : list Framed) : bytes := concat (frame_encoded <$> fs).

Definition file_total (fs : list Framed) : Z := foldr (fun f n => frame_total f + n) 0 fs.

(** Whatever follows the frames decides how a walk over them ends. *)
Lemma raw_walk_delivers fs : forall fuel f start ordinal g tail e,
  Forall framed_ok fs -> lead_ok start fs -> (length fs < fuel)%nat ->
  standing f start ordinal g (file_of fs ++ tail) ->
  (forall f' g', standing f' (start + file_total fs) (ordinal + Z.of_nat (length fs)) g' tail ->
     raw_walk (fuel - length fs) f' = Some ([], e)) ->
  raw_walk fuel f = Some (let '(rs, e') := delivers g start ordinal fs in (rs, _ ← e'; e)).
Proof.
  induction fs as [|fr fs IH]; intros fuel f start ordinal g tail e HF Hlead Hfuel Hst Htail.
  { cbn. rewrite Nat.sub_0_r in Htail. apply (Htail f g). cbn. by rewrite !Z.add_0_r. }
  apply Forall_cons in HF as [Hfr HF]. destruct fuel as [|fuel]; [simpl in Hfuel; lia|].
  unfold file_of in Hst. cbn [fmap list_fmap concat] in Hst. rewrite <- app_assoc in Hst.
  pose proof (next_raw_whole f start ordinal g fr _ Hfr (proj1 Hlead) Hst) as Hn. cbn [raw_walk delivers]. cbn zeta in Hn.
  destruct (guard_step g _ (fr_said fr)) as [g' [at_|]].
  { destruct (next_raw f) as [f' r]. cbn [snd] in Hn. by subst r. }
  destruct Hn as (f' & -> & Hst'). rewrite (IH fuel f' (start + frame_total fr) (ordinal + 1) g' tail e HF); last first.
  - intros f'' g'' Hs. apply (Htail f'' g'').
    assert (start + file_total (fr :: fs) = start + frame_total fr + file_total fs) as -> by (cbn; unfold file_total; lia).
    by replace (ordinal + Z.of_nat (length (fr :: fs))) with (ordinal + 1 + Z.of_nat (length fs)) by (simpl length; lia).
  - exact Hst'.
  - simpl in Hfuel. lia.
  - by eapply lead_ok_next.
  - cbn [mbind option_bind]. by destruct (delivers g' _ _ fs).
Qed.

(** A walk the guard ends does not depend on what follows. *)
Lemma raw_walk_refused fs : forall fuel f start ordinal g tail rs e,
  Forall framed_ok fs -> lead_ok start fs -> (length fs < fuel)%nat ->
  standing f start ordinal g (file_of fs ++ tail) -> delivers g start ordinal fs = (rs, Err e) ->
  raw_walk fuel f = Some (rs, Err e).
Proof.
  induction fs as [|fr fs IH]; intros fuel f start ordinal g tail rs e HF Hlead Hfuel Hst; [done|].
  apply Forall_cons in HF as [Hfr HF]. destruct fuel as [|fuel]; [simpl in Hfuel; lia|].
  unfold file_of in Hst. cbn [fmap list_fmap concat] in Hst. rewrite <- app_assoc in Hst.
  pose proof (next_raw_whole f start ordinal g fr _ Hfr (proj1 Hlead) Hst) as Hn. cbn [raw_walk delivers]. cbn zeta in Hn.
  destruct (guard_step g _ (fr_said fr)) as [g' [at_|]].
  { destruct (next_raw f) as [f' r]. cbn [snd] in Hn. subst r. by intros [= <- <-]. }
  destruct Hn as (f' & -> & Hst'). destruct (delivers g' _ _ fs) as [rs' e'] eqn:Hd. intros [= <- ->].
  rewrite (IH fuel f' (start + frame_total fr) (ordinal + 1) g' tail rs' e HF); [done| |simpl in Hfuel; lia|exact Hst'|done].
  by eapply lead_ok_next.
Qed.

End Walk.

(** ** The partial-index guard over a file *)

Definition is_data (f : Framed) : bool := bool_decide (bh_type (fr_said f) = OsmData).
Definition readable (f : Framed) : bool := bool_decide (is_Some (bh_indexdata (fr_said f) ≫= deserialize)).

(** The frames with the identity a walk from [start] gives them. *)
Fixpoint numbered (start ordinal : Z) (fs : list Framed) : list (FrameId * Framed) :=
  match fs with
  | [] => []
  | f :: fs => (mkFrameId (Some start) (Some ordinal), f) :: numbered (start + frame_total f) (ordinal + 1) fs
  end.

Definition raws (start ordinal : Z) (fs : list Framed) : list RawBlobFrame :=
  (fun '(id, f) => raw_of id f) <$> numbered start ordinal fs.

(** The first data frame. *)
Definition first_data (l : list (FrameId * Framed)) : option FrameId :=
  fst <$> head (filter (fun p => is_data p.2 = true) l).

(** All the data frames so far are readable alike, the first of them at [at_]. *)
Definition guard_after (b : bool) (at_ : option FrameId) : PartialIndexGuard FrameId :=
  mkGuard (const b <$> at_) (if b then None else at_).

Lemma guard_step_alike b at_ id f :
  (is_data f = true -> readable f = b) ->
  guard_step (Some (guard_after b at_)) id (fr_said f) =
    (Some (guard_after b (match at_ with None => if is_data f then Some id else None | _ => at_ end)), None).
Proof.
  intros Hb. unfold guard_step. change (bool_decide (bh_type (fr_said f) = OsmData)) with (is_data f).
  destruct (is_data f); [|by destruct at_]. specialize (Hb eq_refl). unfold readable in Hb. rewrite Hb.
  by destruct b, at_.
Qed.

Lemma delivers_alike b pre post : forall at_ start ordinal,
  Forall (fun f => is_data f = true -> readable f = b) pre ->
  delivers (Some (guard_after b at_)) start ordinal (pre ++ post) =
    let '(rs, e) := delivers (Some (guard_after b (match at_ with None => first_data (numbered start ordinal pre) | _ => at_ end)))
                      (start + file_total pre) (ordinal + Z.of_nat (length pre)) post in
    (raws start ordinal pre ++ rs, e).
Proof.
  induction pre as [|f pre IH]; intros at_ start ordinal HF.
  { cbn. rewrite !Z.add_0_r. destruct at_; by destruct (delivers _ _ _ post). }
  apply Forall_cons in HF as [Hf HF]. cbn [app delivers]. rewrite guard_step_alike, IH by done.
  replace (start + file_total (f :: pre)) with (start + frame_total f + file_total pre) by (cbn; unfold file_total; lia).
  replace (ordinal + Z.of_nat (length (f :: pre))) with (ordinal + 1 + Z.of_nat (length pre)) by (simpl length; lia).
  match goal with |- context [delivers (Some (guard_after b ?x)) _ _ post] => set (after := x) end.
  assert (match at_ with Some _ => at_ | None => first_data (numbered start ordinal (f :: pre)) end = after) as ->.
  { unfold after. destruct at_; [done|]. unfold first_data. cbn [numbered]. destruct (is_data f) eqn:Hd.
    - by rewrite filter_cons_True.
    - rewrite filter_cons_False by (cbn; congruence). done. }
  by destruct (delivers _ _ _ post).
Qed.

Lemma delivers_unguarded fs : forall start ordinal, delivers None start ordinal fs = (raws start ordinal fs, Ok tt).
Proof. induction fs as [|f fs IH]; intros start ordinal; [done|]. cbn [delivers guard_step]. by rewrite IH. Qed.

Lemma delivers_uniform b fs start ordinal :
  Forall (fun f => is_data f = true -> readable f = b) fs ->
  delivers (Some guard_default) start ordinal fs = (raws start ordinal fs, Ok tt).
Proof.
  intros HF. pose proof (delivers_alike b fs [] None start ordinal HF) as H. rewrite app_nil_r in H.
  replace (guard_after b None) with (@guard_default FrameId) in H by (by destruct b). rewrite H. cbn. by rewrite app_nil_r.
Qed.

Lemma delivers_mixed b pre f post first :
  Forall (fun f => is_data f = true -> readable f = b) pre -> first_data (numbered 0 0 pre) = Some first ->
  is_data f = true -> readable f = negb b ->
  delivers (Some guard_default) 0 0 (pre ++ f :: post) =
    (raws 0 0 pre,
     Err (locate (if b then mkFrameId (Some (file_total pre)) (Some (Z.of_nat (length pre))) else first)
            (unlocated PartialIndex))).
Proof.
  intros HF Hfirst Hd Hr. pose proof (delivers_alike b pre (f :: post) None 0 0 HF) as H.
  replace (guard_after b None) with (@guard_default FrameId) in H by (by destruct b). rewrite H, Hfirst.
  cbn [delivers guard_step]. unfold is_data in Hd. rewrite Hd. unfold readable in Hr. rewrite Hr, !Z.add_0_l.
  unfold guard_after, observe. cbn. by destruct b; cbn; rewrite app_nil_r.
Qed.

End Files.

(** ** Written files *)

Section Written.
Context `{L : ProtohoggrLaws} `{CL : CodecLaws} `{AL : AllocatorLaws}.

(** One blob handed to the writer. *)
Record Blob := mkBlob {
  b_type : bytes; b_data : bytes; b_compression : Compression;
  b_index : option bytes; b_tagdata : option bytes; b_waymembers : option bytes }.

(** The frames of consecutive blobs, framed through one scratch. *)
Fixpoint frame_all (s : FrameScratch) (m : WriterMetrics) (blobs : list Blob) : result FramingError (list bytes) :=
  match blobs with
  | [] => Ok []
  | b :: blobs =>
      let '(s, m, r) := frame_blob_into (b_type b) (b_data b) (b_compression b) (b_index b) (b_tagdata b)
                          (b_waymembers b) s m in
      frame ← r; frames ← frame_all s m blobs; Ok (frame :: frames)
  end.

Record blob_ok (b : Blob) : Prop := {
  bo_type : type_ok (b_type b);
  bo_fits : ofits' (b_index b) /\ ofits' (b_tagdata b) /\ ofits' (b_waymembers b) }.

(** The frame a blob was written as: its header says what it was given, except
    for a tag index that would not have fitted, and its body decodes to its
    block. *)
Definition carries (b : Blob) (frame : bytes) (f : Framed) : Prop :=
  frame = frame_encoded f /\ framed_ok f /\ content_of (fr_body f) = Some (b_data b) /\
  exists td, fr_said f = header_said true true false (b_type b) (blen (fr_body f)) (b_index b) td (b_waymembers b) /\
    fr_header f = encode_blob_header_fields (b_type b) (blen (fr_body f)) (b_index b) td (b_waymembers b) /\
    (td = b_tagdata b \/
     td = None /\ MAX_BLOB_HEADER_SIZE <=
       blen (encode_blob_header_fields (b_type b) (blen (fr_body f)) (b_index b) (b_tagdata b) (b_waymembers b))).

Lemma header_nonempty ty n ix td wm : type_ok ty -> 0 < blen (encode_blob_header_fields ty n ix td wm).
Proof.
  intros (Hne & _). unfold encode_blob_header_fields. rewrite encode_bytes_field_spec.
  destruct ty as [|b ty]; [done|]. rewrite encode_bytes_field_always_spec, encode_tag_spec.
  rewrite encode_varint_small by (unfold blob_header.TYPE, WIRE_LEN; lia). unfold blen. rewrite !length_app.
  cbn [length]. lia.
Qed.

Lemma framed_carries b frame td' hdr body :
  blob_ok b -> framed (b_type b) (b_data b) (b_index b) (b_tagdata b) (b_waymembers b) frame td' hdr body ->
  exists f, carries b frame f.
Proof.
  intros [Hty (Hix & Htd & Hwm)] [Hfr Hh Htd' Hsmall Hbody Hc].
  assert (is_i32 (blen body)) as H32.
  { pose proof (blen_nonneg body). unfold MAX_BLOB_DATASIZE, MAX_BLOB_MESSAGE_SIZE in Hbody. width. }
  exists (mkFramed hdr body (header_said true true false (b_type b) (blen body) (b_index b) td' (b_waymembers b))).
  split; [done|]. split; [constructor; cbn|split; [done|]; by exists td'].
  - split; [|done]. rewrite Hh. by apply header_nonempty.
  - rewrite Hh. apply header_read_back; try done. by destruct Htd' as [->|[-> _]].
  - apply (header_said_framing true true false).
  - done.
Qed.

Lemma frame_all_carries blobs : forall s m frames,
  scratch_ok s -> Forall blob_ok blobs -> frame_all s m blobs = Ok frames ->
  exists fs, Forall2 (fun bf f => carries bf.1 bf.2 f) (zip blobs frames) fs /\ length frames = length blobs /\
    frames = frame_encoded <$> fs.
Proof.
  induction blobs as [|b blobs IH]; intros s m frames Hs HF; cbn [frame_all].
  { intros [= <-]. by exists []. }
  apply Forall_cons in HF as [Hb HF]. destruct (frame_blob_into _ _ _ _ _ _ s m) as [[s' m'] [frame|e]] eqn:Hfr; [|done].
  cbn [mbind result_bind]. destruct (frame_all s' m' blobs) as [frames'|e] eqn:Hrest; [|done]. intros [= <-].
  apply frame_blob_into_ok in Hfr as (Hs' & td' & hdr & body & Hfr); [|done].
  apply framed_carries in Hfr as [f Hf]; [|done].
  destruct (IH s' m' frames' Hs' HF Hrest) as (fs & HF2 & Hlen & ->). exists (f :: fs). split; [by constructor|].
  split; [simpl; by rewrite Hlen|]. cbn. f_equal. by destruct Hf as [-> _].
Qed.

(** What a reader makes of the tag index and of the blob index it was given:
    an empty one is not written. *)
Definition nonempty (o : option bytes) : option bytes := match o with Some [] => None | _ => o end.
Definition index_read (ix : option bytes) : option BlobIndex :=
  o ← ix; match classify_wire_indexdata o with Carrier c => deserialize c | _ => None end.

Lemma header_said_claims pw ty ds ix td wm :
  bh_tagdata (header_said true true pw ty ds ix td wm) = nonempty td /\
  bh_indexdata (header_said true true pw ty ds ix td wm) ≫= deserialize = index_read ix.
Proof.
  assert (forall h d, bh_tagdata (kept pw take_waymembers h d) = bh_tagdata h /\
                      bh_indexdata (kept pw take_waymembers h d) = bh_indexdata h) as Hw.
  { intros [] [[|? ?]|]; by destruct pw. }
  unfold header_said. rewrite (proj1 (Hw _ _)), (proj2 (Hw _ _)). clear Hw. unfold index_read, kept.
  destruct ix as [[|x ix]|]; [by destruct td as [[]|]| |by destruct td as [[]|]].
  cbn [take_indexdata]. obind. destruct (classify_wire_indexdata (x :: ix)); by destruct td as [[|? ?]|].
Qed.

(** A walk's frame is the one the blob was written as. *)
Definition reads_back (b : Blob) (frame : bytes) (r : RawBlobFrame) : Prop :=
  frame_bytes r = frame /\ rf_type r = kind_named (b_type b) /\ content_of (blob_bytes r) = Some (b_data b) /\
  rf_index r = index_read (b_index b) /\
  exists td, rf_tagdata r = nonempty td /\
    WireBlobHeader_parse (header_bytes r) true true true =
      Ok (header_said true true true (b_type b) (blen (blob_bytes r)) (b_index b) td (b_waymembers b)) /\
    (td = b_tagdata b \/
     td = None /\ MAX_BLOB_HEADER_SIZE <=
       blen (encode_blob_header_fields (b_type b) (blen (blob_bytes r)) (b_index b) (b_tagdata b) (b_waymembers b))).

Lemma raw_parts id f : blob_bytes (raw_of id f) = fr_body f /\ header_bytes (raw_of id f) = fr_header f.
Proof.
  unfold blob_bytes, header_bytes, raw_of, frame_encoded. cbn [frame_bytes blob_offset].
  assert (Z.to_nat (4 + blen (fr_header f)) = length (to_be 4 (blen (fr_header f)) ++ fr_header f)) as ->.
  { rewrite length_app, length_to_be. unfold blen. lia. }
  rewrite app_assoc, drop_app_length, take_app_length. split; [done|]. by rewrite drop_app_length' by (by rewrite length_to_be).
Qed.

Lemma carries_reads_back b frame f id : blob_ok b -> carries b frame f -> reads_back b frame (raw_of id f).
Proof.
  intros [Hty (Hix & Htd & Hwm)] (-> & Hok & Hc & td & Hsaid & Hhdr & Hd).
  destruct (raw_parts id f) as [Hb Hh]. destruct (header_said_framing true true false (b_type b) (blen (fr_body f)) (b_index b) td (b_waymembers b)) as [Hk _].
  destruct (header_said_claims false (b_type b) (blen (fr_body f)) (b_index b) td (b_waymembers b)) as [Ht Hi].
  unfold reads_back. rewrite Hb, Hh. cbn [raw_of frame_bytes rf_type rf_index rf_tagdata]. rewrite Hsaid.
  split; [done|]. split; [done|]. split; [done|]. split; [done|]. exists td. split; [done|]. split; [|done].
  rewrite Hhdr. apply header_read_back; try done.
  - pose proof (blen_nonneg (fr_body f)). pose proof (fo_body _ Hok). unfold MAX_BLOB_DATASIZE, MAX_BLOB_MESSAGE_SIZE in *. width.
  - by destruct Hd as [->|[-> _]].
Qed.

(** The blobs' data agree on carrying a readable index. *)
Definition uniformly_indexed (blobs : list Blob) : Prop :=
  exists i, Forall (fun b => b_type b = OSM_DATA -> bool_decide (is_Some (index_read (b_index b))) = i) blobs.

(** Only the first blob may be a header. *)
Definition one_header (blobs : list Blob) : Prop := Forall (fun b => b_type b <> OSM_HEADER) (tail blobs).

Lemma kind_named_data ty : kind_named ty = OsmData -> ty = OSM_DATA.
Proof. unfold kind_named. repeat case_bool_decide; done. Qed.

Lemma kind_named_header ty : kind_named ty = OsmHeader -> ty = OSM_HEADER.
Proof. unfold kind_named. repeat case_bool_decide; done. Qed.

Lemma carries_type b frame f : carries b frame f -> bh_type (fr_said f) = kind_named (b_type b).
Proof. intros (_ & _ & _ & td & -> & _). apply (header_said_framing true true false). Qed.

Lemma carries_readable b frame f : carries b frame f -> readable f = bool_decide (is_Some (index_read (b_index b))).
Proof.
  intros (_ & _ & _ & td & Hs & _). unfold readable. rewrite Hs.
  by rewrite (proj2 (header_said_claims false (b_type b) (blen (fr_body f)) (b_index b) td (b_waymembers b))).
Qed.

(** What the frames of written blobs satisfy. *)
Lemma carried_ok blobs frames fs :
  length frames = length blobs -> one_header blobs -> Forall2 (fun bf f => carries bf.1 bf.2 f) (zip blobs frames) fs ->
  Forall framed_ok fs /\ lead_ok 0 fs.
Proof.
  intros Hlen Hone HF. split.
  - apply Forall_forall. intros f Hf. apply list_elem_of_lookup in Hf as [i Hi].
    destruct (Forall2_lookup_r _ _ _ _ _ HF Hi) as ([b fr] & _ & Hc). apply Hc.
  - destruct fs as [|f fs]; [done|]. destruct blobs as [|b blobs], frames as [|fr frames]; try done.
    { by apply Forall2_nil_inv_l in HF. }
    cbn [zip zip_with] in HF. apply Forall2_cons in HF as [_ HF]. split; [done|].
    apply Forall_forall. intros f' Hf'. apply list_elem_of_lookup in Hf' as [i Hi].
    destruct (Forall2_lookup_r _ _ _ _ _ HF Hi) as ([b' fr'] & Hb & Hc). cbn in Hc. rewrite (carries_type _ _ _ Hc).
    intros Hk%kind_named_header. apply lookup_zip_Some in Hb as [Hb _].
    by apply (Forall_lookup_1 _ _ _ _ Hone Hb).
Qed.

(** The identity of the [k]-th frame of a file. *)
Definition frame_id (frames : list bytes) (k : nat) : FrameId :=
  mkFrameId (Some (blen (concat (take k frames)))) (Some (Z.of_nat k)).

Lemma file_total_len fs : blen (concat (frame_encoded <$> fs)) = file_total fs.
Proof.
  induction fs as [|f fs IH]; [done|]. change (file_total (f :: fs)) with (frame_total f + file_total fs).
  rewrite fmap_cons. cbn [concat]. rewrite blen_app, IH. unfold frame_encoded, frame_total. rewrite !blen_app.
  assert (blen (to_be 4 (blen (fr_header f))) = 4) as -> by (unfold blen; by rewrite length_to_be). lia.
Qed.

Lemma numbered_lookup fs : forall start ordinal k,
  numbered start ordinal fs !! k =
    (fun f => (mkFrameId (Some (start + file_total (take k fs))) (Some (ordinal + Z.of_nat k)), f)) <$> fs !! k.
Proof.
  induction fs as [|f fs IH]; intros start ordinal [|k]; cbn [numbered lookup list_lookup take]; try done.
  - cbn. by rewrite !Z.add_0_r.
  - rewrite IH. destruct (fs !! k); [|done]. cbn. do 4 f_equal; [unfold file_total|]; lia.
Qed.

Lemma length_numbered fs : forall start ordinal, length (numbered start ordinal fs) = length fs.
Proof. induction fs as [|f fs IH]; intros; [done|]. cbn. by rewrite IH. Qed.

Lemma numbered_id fs k f : fs !! k = Some f -> numbered 0 0 fs !! k = Some (frame_id (frame_encoded <$> fs) k, f).
Proof.
  intros Hk. rewrite numbered_lookup, Hk. cbn [fmap option_fmap option_map]. unfold frame_id.
  by rewrite <- fmap_take, file_total_len, !Z.add_0_l.
Qed.

(** The raw frames a walk makes of written frames read back, each at its place. *)
Lemma raws_read_back blobs frames fs :
  Forall blob_ok blobs -> frames = frame_encoded <$> fs -> length frames = length blobs ->
  Forall2 (fun bf f => carries bf.1 bf.2 f) (zip blobs frames) fs ->
  Forall2 (fun bf r => reads_back bf.1 bf.2 r) (zip blobs frames) (raws 0 0 fs) /\
  rf_id <$> raws 0 0 fs = frame_id frames <$> seq 0 (length blobs).
Proof.
  intros HF Hfr Hlen HF2. assert (length fs = length blobs) as Hfs by (by rewrite <- Hlen, Hfr, length_fmap). split.
  - apply Forall2_same_length_lookup_2.
    { unfold raws. rewrite length_fmap, length_numbered. by apply Forall2_length in HF2. }
    intros k [b fr] r Hb Hr. unfold raws in Hr. rewrite list_lookup_fmap in Hr.
    destruct (fs !! k) as [f|] eqn:Hk; [|by rewrite numbered_lookup, Hk in Hr].
    rewrite (numbered_id _ _ _ Hk) in Hr. injection Hr as <-.
    apply carries_reads_back; [|exact (Forall2_lookup_lr _ _ _ _ _ _ HF2 Hb Hk)].
    apply lookup_zip_Some in Hb as [Hb _]. by apply (Forall_lookup_1 _ _ _ _ HF Hb).
  - apply list_eq. intros k. unfold raws. rewrite !list_lookup_fmap.
    destruct (fs !! k) as [f|] eqn:Hk.
    + rewrite (numbered_id _ _ _ Hk), <- Hfr. apply lookup_lt_Some in Hk. by rewrite lookup_seq_lt by lia.
    + rewrite numbered_lookup, Hk. apply lookup_ge_None in Hk. by rewrite lookup_seq_ge by lia.
Qed.

Lemma uniform_frames blobs frames fs i :
  Forall (fun b => b_type b = OSM_DATA -> bool_decide (is_Some (index_read (b_index b))) = i) blobs ->
  Forall2 (fun bf f => carries bf.1 bf.2 f) (zip blobs frames) fs ->
  Forall (fun f => is_data f = true -> readable f = i) fs.
Proof.
  intros HF HF2. apply Forall_forall. intros f Hf Hd. apply list_elem_of_lookup in Hf as [k Hk].
  destruct (Forall2_lookup_r _ _ _ _ _ HF2 Hk) as ([b fr] & Hb & Hc). cbn in Hc. rewrite (carries_readable _ _ _ Hc).
  apply lookup_zip_Some in Hb as [Hb _]. apply (Forall_lookup_1 _ _ _ _ HF Hb). unfold is_data in Hd.
  rewrite (carries_type _ _ _ Hc) in Hd. apply kind_named_data. by apply bool_decide_eq_true in Hd.
Qed.

Section Streams.
Context {T : Type} `{SL : SourceLaws T} `{!ReadLaws T}.

Lemma input_standing refusing (t : T) file :
  ready t -> rest t = file -> standing (input_walk refusing t) 0 0 (if refusing then Some guard_default else None) file.
Proof. intros Hr Hf. by destruct refusing; constructor. Qed.

Lemma delivers_all refusing blobs frames fs :
  (refusing = true -> uniformly_indexed blobs) -> Forall2 (fun bf f => carries bf.1 bf.2 f) (zip blobs frames) fs ->
  delivers (if refusing then Some guard_default else None) 0 0 fs = (raws 0 0 fs, Ok tt).
Proof.
  intros Hu HF2. destruct refusing; [|apply delivers_unguarded]. destruct (Hu eq_refl) as [i Hi].
  apply (delivers_uniform i). by eapply uniform_frames.
Qed.

(** Frames that carry these blobs, walked. *)
Lemma carried_file_reads_back (refusing : bool) blobs frames fs stray (t : T) :
  Forall blob_ok blobs -> one_header blobs -> length frames = length blobs -> frames = frame_encoded <$> fs ->
  Forall2 (fun bf f => carries bf.1 bf.2 f) (zip blobs frames) fs ->
  (refusing = true -> uniformly_indexed blobs) -> blen stray < 4 -> ready t -> rest t = concat frames ++ stray ->
  exists rs, raw_walk (S (length blobs)) (input_walk refusing t) = Some (rs, Ok tt) /\
    Forall2 (fun bf r => reads_back bf.1 bf.2 r) (zip blobs frames) rs /\
    rf_id <$> rs = frame_id frames <$> seq 0 (length blobs).
Proof.
  intros HF Hone Hlen Hfr HF2 Hu Hstray Hr Hrest. destruct (carried_ok _ _ _ Hlen Hone HF2) as [Hok Hlead].
  exists (raws 0 0 fs). split; [|by apply raws_read_back].
  assert (length fs = length blobs) as Hfs by (by rewrite <- Hlen, Hfr, length_fmap).
  rewrite (raw_walk_delivers fs _ _ 0 0 (if refusing then Some guard_default else None) stray (Ok tt) Hok Hlead).
  - by rewrite (delivers_all refusing blobs frames).
  - lia.
  - apply input_standing; [done|]. unfold file_of. by rewrite <- Hfr.
  - intros f' g' Hst. replace (S (length blobs) - length fs)%nat with 1%nat by lia. cbn [raw_walk].
    pose proof (next_raw_end f' _ _ _ _ Hst Hstray) as Hend. destruct (next_raw f') as [f'' r]. cbn in Hend. by subst r.
Qed.

(** C6. A written file reads back: blobs framed one after another through one
    scratch, with whatever compression each, give a file that a raw walk over
    any stream, however chunked and whatever it held before, delivers blob by
    blob and then ends cleanly, up to three stray bytes at the end included.
    Each frame comes back byte for byte, at its offset and ordinal, with its
    type, index and way members; its tag data is either the one given or,
    when the header would have reached the size limit with it, absent and
    never cut short; and its body decodes to the block that was written. *)
Theorem written_file_reads_back (refusing : bool) blobs s m frames stray (t : T) :
  scratch_ok s -> Forall blob_ok blobs -> one_header blobs -> frame_all s m blobs = Ok frames ->
  (refusing = true -> uniformly_indexed blobs) -> blen stray < 4 -> ready t -> rest t = concat frames ++ stray ->
  exists rs, raw_walk (S (length blobs)) (input_walk refusing t) = Some (rs, Ok tt) /\
    Forall2 (fun bf r => reads_back bf.1 bf.2 r) (zip blobs frames) rs /\
    rf_id <$> rs = frame_id frames <$> seq 0 (length blobs).
Proof.
  intros Hs HF Hone Hfa Hu Hstray Hr Hrest.
  destruct (frame_all_carries blobs s m frames Hs HF Hfa) as (fs & HF2 & Hlen & Hfr).
  by apply (carried_file_reads_back refusing blobs frames fs stray).
Qed.

(** Written frames, split at one of them. *)
Lemma frame_all_split pre b post s m frames frame later :
  scratch_ok s -> Forall blob_ok (pre ++ b :: post) -> one_header (pre ++ b :: post) ->
  frame_all s m (pre ++ b :: post) = Ok (frames ++ frame :: later) -> length frames = length pre ->
  exists fs f, frames = frame_encoded <$> fs /\ carries b frame f /\ leading (file_total fs) (fr_said f) /\
    Forall framed_ok fs /\ lead_ok 0 fs /\ Forall blob_ok pre /\
    Forall2 (fun bf f => carries bf.1 bf.2 f) (zip pre frames) fs.
Proof.
  intros Hs HF Hone Hfa Hlen. destruct (frame_all_carries _ s m _ Hs HF Hfa) as (fs & HF2 & Hl & Hfr).
  destruct (carried_ok _ _ _ Hl Hone HF2) as [Hok Hlead].
  rewrite zip_with_app in HF2 by done. apply Forall2_app_inv_l in HF2 as (fs1 & fs2 & HF1 & HF2 & ->).
  cbn [zip zip_with] in HF2. apply Forall2_cons_inv_l in HF2 as (f & fs3 & Hf & _ & ->).
  apply Forall_app in HF as [HFpre _]. apply Forall_app in Hok as [Hok1 _]. exists fs1, f.
  assert (length frames = length fs1) as Hlen1.
  { apply Forall2_length in HF1. rewrite length_zip_with in HF1. lia. }
  rewrite fmap_app in Hfr. apply app_inj_1 in Hfr as [Hfr _]; [|by rewrite length_fmap].
  split_and!; try done.
  - destruct fs1 as [|f1 fs1]; [done|]. destruct Hlead as [_ HF3]. apply Forall_app in HF3 as [_ HF3].
    apply Forall_cons in HF3 as [Hf3 _]. by intros ?.
  - destruct fs1 as [|f1 fs1]; [done|]. destruct Hlead as [Hl1 HF3]. split; [done|]. by apply Forall_app in HF3 as [? _].
Qed.


Lemma filter_head {X} (Q : X -> Prop) `{!forall x, Decision (Q x)} (l : list X) :
  Exists Q l -> exists k x, l !! k = Some x /\ Q x /\ head (filter Q l) = Some x /\
    forall j y, (j < k)%nat -> l !! j = Some y -> ~ Q y.
Proof.
  intros HE. induction l as [|x l IH]; [by apply Exists_nil in HE|]. destruct (decide (Q x)) as [Hx|Hx].
  - exists 0%nat, x. rewrite filter_cons_True by done. split_and!; try done. intros j y Hj. lia.
  - rewrite filter_cons_False by done. apply Exists_cons in HE as [|HE]; [done|].
    destruct (IH HE) as (k & y & Hk & Hy & Hh & Hb). exists (S k), y. split_and!; try done.
    intros [|j] z Hj Hz; [by simplify_eq/=|]. apply (Hb j z); [lia|done].
Qed.

Lemma first_data_id blobs frames fs :
  frames = frame_encoded <$> fs -> Forall2 (fun bf f => carries bf.1 bf.2 f) (zip blobs frames) fs ->
  length frames = length blobs -> Exists (fun b => b_type b = OSM_DATA) blobs ->
  exists k b, blobs !! k = Some b /\ b_type b = OSM_DATA /\ first_data (numbered 0 0 fs) = Some (frame_id frames k) /\
    forall j b', (j < k)%nat -> blobs !! j = Some b' -> b_type b' <> OSM_DATA.
Proof.
  intros Hfr HF2 Hlen HE.
  assert (forall j b' f, blobs !! j = Some b' -> fs !! j = Some f -> is_data f = true <-> b_type b' = OSM_DATA) as Hty.
  { intros j b' f Hb Hf. assert (exists fr, frames !! j = Some fr) as [fr Hfj].
    { rewrite Hfr, list_lookup_fmap, Hf. by eexists. }
    assert (carries b' fr f) as Hc.
    { apply (Forall2_lookup_lr _ _ _ j (b', fr) f HF2); [|done]. by apply lookup_zip_Some. }
    unfold is_data. rewrite (carries_type _ _ _ Hc), bool_decide_eq_true. split; [apply kind_named_data|].
    intros ->. done. }
  assert (length fs = length blobs) as Hfs by (by rewrite <- Hlen, Hfr, length_fmap).
  destruct (filter_head (fun p : FrameId * Framed => is_data p.2 = true) (numbered 0 0 fs)) as (k & [id f] & Hk & Hd & Hh & Hb).
  { apply Exists_exists in HE as (b' & Hin & Hb'). apply list_elem_of_lookup in Hin as [j Hj].
    destruct (lookup_lt_is_Some_2 fs j) as [f Hf]; [apply lookup_lt_Some in Hj; lia|].
    apply Exists_exists. exists (frame_id (frame_encoded <$> fs) j, f). split; [|by apply (Hty j b')].
    apply list_elem_of_lookup. exists j. by apply numbered_id. }
  destruct (fs !! k) as [f'|] eqn:Hf; [|by rewrite numbered_lookup, Hf in Hk].
  rewrite (numbered_id _ _ _ Hf) in Hk. injection Hk as <- <-.
  destruct (lookup_lt_is_Some_2 blobs k) as [b Hbk]; [apply lookup_lt_Some in Hf; lia|]. exists k, b.
  split; [done|]. split; [by apply (Hty k b f')|]. split; [unfold first_data; by rewrite Hh, Hfr|].
  intros j b' Hj Hbj Hdj. destruct (lookup_lt_is_Some_2 fs j) as [fj Hfj]; [apply lookup_lt_Some in Hbj; lia|].
  apply (Hb j _ Hj (numbered_id _ _ _ Hfj)). by apply (Hty j b').
Qed.

(** C24. A partially indexed input is refused: when the data blobs of a written
    file agree on carrying a readable index up to one that does not agree, a
    walk of a command input delivers the blobs before that one and then fails
    with the partial-index error, located at the first data blob of the file
    without a readable index, whether that is the disagreeing blob or an
    earlier one. *)
Theorem partial_index_refused pre b post s m frames frame later (i : bool) more (t : T) :
  scratch_ok s -> Forall blob_ok (pre ++ b :: post) -> one_header (pre ++ b :: post) ->
  frame_all s m (pre ++ b :: post) = Ok (frames ++ frame :: later) -> length frames = length pre ->
  Forall (fun b => b_type b = OSM_DATA -> bool_decide (is_Some (index_read (b_index b))) = i) pre ->
  Exists (fun b => b_type b = OSM_DATA) pre ->
  b_type b = OSM_DATA -> bool_decide (is_Some (index_read (b_index b))) = negb i ->
  ready t -> rest t = concat (frames ++ [frame]) ++ more ->
  exists rs k bk,
    raw_walk (S (S (length pre))) (input_walk true t) =
      Some (rs, Err (mkError PartialIndex (Some (frame_id (frames ++ [frame]) k)))) /\
    Forall2 (fun bf r => reads_back bf.1 bf.2 r) (zip pre frames) rs /\
    (pre ++ [b]) !! k = Some bk /\ b_type bk = OSM_DATA /\ index_read (b_index bk) = None /\
    forall j bj, (j < k)%nat -> pre !! j = Some bj -> b_type bj = OSM_DATA -> is_Some (index_read (b_index bj)).
Proof.
  intros Hs HF Hone Hfa Hlen Hi Hex Hbd Hbi Hr Hrest.
  destruct (frame_all_split _ _ _ _ _ _ _ _ Hs HF Hone Hfa Hlen)
    as (fs & f & Hfr & Hcar & Hlf & Hok & Hlead & HFpre & HF2).
  assert (length fs = length pre) as Hfs by (by rewrite <- Hlen, Hfr, length_fmap).
  destruct (first_data_id pre frames fs Hfr HF2 Hlen Hex) as (k0 & b0 & Hk0 & Hd0 & Hfirst & Hbefore).
  assert (is_data f = true) as Hdf.
  { unfold is_data. rewrite (carries_type _ _ _ Hcar), Hbd. done. }
  pose proof (delivers_mixed i fs f [] _ (uniform_frames _ _ _ i Hi HF2) Hfirst Hdf
    ltac:(by rewrite (carries_readable _ _ _ Hcar))) as Hdel.
  exists (raws 0 0 fs). set (k := if i then length pre else k0). exists k, (if i then b else b0).
  assert (frame_id (frames ++ [frame]) k =
    if i then mkFrameId (Some (file_total fs)) (Some (Z.of_nat (length fs))) else frame_id frames k0) as Hid.
  { unfold k, frame_id. destruct i.
    - rewrite take_app_length' by done. by rewrite Hfr, file_total_len, Hfs.
    - rewrite take_app_le; [done|]. apply lookup_lt_Some in Hk0. lia. }
  split; [|split; [by apply raws_read_back|]].
  - destruct Hcar as (-> & Hfok & _).
    assert (standing (input_walk true t) 0 0 (Some guard_default) (file_of (fs ++ [f]) ++ more)) as Hst.
    { apply (input_standing true); [done|]. rewrite Hrest, Hfr. unfold file_of. by rewrite fmap_app. }
    eapply (raw_walk_refused (fs ++ [f]) _ _ 0 0 _ more); [|..|exact Hst|]; [by apply Forall_app; split; [|apply Forall_singleton]| |rewrite length_app; simpl; lia|].
    + destruct fs as [|f1 fs']; [by split|]. destruct Hlead as [Hl1 HF3]. split; [done|]. apply Forall_app. split; [done|].
      apply Forall_singleton. unfold is_data in Hdf. apply bool_decide_eq_true in Hdf. by rewrite Hdf.
    + rewrite Hdel. do 2 f_equal. rewrite Hid. by destruct i.
  - assert (forall bx, bool_decide (is_Some (index_read (b_index bx))) = false -> index_read (b_index bx) = None) as Hnone.
    { intros bx Hx. apply bool_decide_eq_false in Hx. by apply eq_None_not_Some. }
    subst k. destruct i.
    + split; [by rewrite lookup_app_r, Nat.sub_diag by lia|]. split; [done|]. split; [by apply Hnone|].
      intros j bj _ Hj Hdj. by eapply bool_decide_eq_true, (Forall_lookup_1 _ _ _ _ Hi Hj).
    + split; [by apply lookup_app_l_Some|]. split; [done|].
      split; [apply Hnone, (Forall_lookup_1 _ _ _ _ Hi Hk0 Hd0)|].
      intros j bj Hj Hbj Hdj. by destruct (Hbefore j bj Hj Hbj).
Qed.

End Streams.
End Written.

(** ** Witnesses *)

Import RefProto RefCodec.

Definition sample_header : Blob := mkBlob OSM_HEADER [1; 2] (ZlibLevel 6) None None None.
Definition sample_indexed : Blob :=
  mkBlob OSM_DATA [5; 6; 7] NoCompression (Some (serialize null_island_index)) (Some [1; 0; 0]) None.
Definition sample_bare : Blob := mkBlob OSM_DATA [8] (ZstdLevel 3) None None None.

Definition no_metrics : WriterMetrics := mkWriterMetrics 0 0 0 0.

Definition sample_framed (blobs : list Blob) : list bytes :=
  match frame_all scratch_new no_metrics blobs with Ok frames => frames | Err _ => [] end.

Definition sample_pair : list bytes := Eval vm_compute in sample_framed [sample_header; sample_indexed].
Definition sample_mixed : list bytes := Eval vm_compute in sample_framed [sample_header; sample_indexed; sample_bare].

Lemma sample_blobs_ok : Forall blob_ok [sample_header; sample_indexed; sample_bare].
Proof. repeat (apply Forall_cons; split; [by repeat split; vm_compute|]). apply Forall_nil_2. Qed.

Lemma sample_pair_framed : frame_all scratch_new no_metrics [sample_header; sample_indexed] = Ok sample_pair.
Proof. by vm_compute. Qed.

Lemma sample_mixed_framed :
  frame_all scratch_new no_metrics [sample_header; sample_indexed; sample_bare] = Ok sample_mixed.
Proof. by vm_compute. Qed.

(** Delivered byte by byte. *)
Definition trickle (b : bytes) : Reader := (fun x => Chunk [x]) <$> b.

Lemma trickle_ready b : ready (trickle b) /\ rest (trickle b) = b.
Proof.
  split.
  - apply Forall_fmap, Forall_true. done.
  - cbn. unfold trickle. induction b as [|x b IH]; [done|]. cbn. by f_equal.
Qed.

Lemma written_file_reads_back_witness :
  exists rs, raw_walk 3 (input_walk true (trickle (concat sample_pair ++ [0; 0]))) = Some (rs, Ok tt) /\
    Forall2 (fun bf r => reads_back bf.1 bf.2 r) (zip [sample_header; sample_indexed] sample_pair) rs /\
    rf_id <$> rs = frame_id sample_pair <$> seq 0 2.
Proof.
  apply (written_file_reads_back true [sample_header; sample_indexed] scratch_new no_metrics sample_pair [0; 0]
    (trickle (concat sample_pair ++ [0; 0]))).
  - done.
  - apply (Forall_app (blob_ok) [sample_header; sample_indexed] [sample_bare]), sample_blobs_ok.
  - apply Forall_singleton. done.
  - apply sample_pair_framed.
  - intros _. exists true. repeat (apply Forall_cons; split; [done|]). apply Forall_nil_2.
  - done.
  - apply trickle_ready.
  - apply trickle_ready.
Defined.


Lemma partial_index_refused_witness :
  exists rs k bk,
    raw_walk 4 (input_walk true (trickle (concat (take 2 sample_mixed ++ [default [] (sample_mixed !! 2%nat)]) ++ []))) =
      Some (rs, Err (mkError PartialIndex (Some (frame_id (take 2 sample_mixed ++ [default [] (sample_mixed !! 2%nat)]) k)))) /\
    Forall2 (fun bf r => reads_back bf.1 bf.2 r) (zip [sample_header; sample_indexed] (take 2 sample_mixed)) rs /\
    ([sample_header; sample_indexed] ++ [sample_bare]) !! k = Some bk /\ b_type bk = OSM_DATA /\
    index_read (b_index bk) = None /\
    forall j bj, (j < k)%nat -> [sample_header; sample_indexed] !! j = Some bj -> b_type bj = OSM_DATA ->
      is_Some (index_read (b_index bj)).
Proof.
  apply (partial_index_refused [sample_header; sample_indexed] sample_bare [] scratch_new no_metrics
    (take 2 sample_mixed) (default [] (sample_mixed !! 2%nat)) [] true []
    (trickle (concat (take 2 sample_mixed ++ [default [] (sample_mixed !! 2%nat)]) ++ []))).
  - done.
  - apply sample_blobs_ok.
  - repeat (apply Forall_cons; split; [done|]). apply Forall_nil_2.
  - apply sample_mixed_framed.
  - done.
  - repeat (apply Forall_cons; split; [done|]). apply Forall_nil_2.
  - apply Exists_cons_tl, Exists_cons_hd. done.
  - done.
  - done.
  - apply trickle_ready.
  - apply trickle_ready.
Defined.
