(* ===== verification/Block.v ===== *)
(** * Blocks: validation, construction and iteration (src/src/read/block.rs)

    A decompressed block is validated once, where an error can be returned;
    after that the iterators re-parse the same bytes and treat a failure as a
    broken invariant (a panic, [None] here).  [validate_block] runs with a
    projection riding on it ([GroupProjection]); [block_of] is construction,
    [elements] and [for_each_element] the two ways to walk a block. *)

From S2P Require Import Prelude ElementKind Proto Wire WireBlock Encode Dense PackedCount Utf8.

Section Block.
Context {P : Protohoggr}.

Inductive BlockError :=
| WireFormat (e : WireError)
| StringtableUtf8 (err : Utf8Error) (index : nat)
| KindContradicted (k : KindContradiction).

Abbreviation bresult := (result BlockError).

Definition wire {A} (r : result WireError A) : bresult A :=
  match r with Ok a => Ok a | Err e => Err (WireFormat e) end.

Definition wire_error {A} (msg : string) : bresult A := Err (WireFormat (Message msg)).

(** ** The pieces of the validator *)

Definition validate_info (info_data : option bytes) : bresult (option WireInfo) :=
  match info_data with
  | Some data => i ← wire (WireInfo_parse data); Ok (Some i)
  | None => Ok None
  end.

Definition validate_tag_arrays (keys_data vals_data : bytes) (mismatch : string) : bresult unit :=
  keys ← wire (packed_uint32_count keys_data);
  vals ← wire (packed_uint32_count vals_data);
  if negb (keys =? vals) then wire_error mismatch else Ok tt.

Definition validate_way_geometry_arrays (way : WireWay) : bresult unit :=
  refs ← wire (packed_varint_count (ww_refs way));
  lats ← wire (packed_varint_count (ww_lat way));
  lons ← wire (packed_varint_count (ww_lon way));
  if (lats =? 0) && (lons =? 0) then Ok tt
  else if negb (lats =? lons) then wire_error "way has mismatched lat/lon node-location array lengths"
  else if negb (lats =? refs) then
    wire_error "way has a node-location count that disagrees with its node-reference count"
  else Ok tt.

Definition validate_relation_member_arrays (relation : WireRelation) : bresult unit :=
  roles ← wire (packed_varint_count (wr_roles relation));
  memids ← wire (packed_varint_count (wr_memids relation));
  types ← wire (packed_varint_count (wr_types relation));
  if negb (roles =? memids) || negb (roles =? types) then
    wire_error "relation has mismatched roles_sid/memids/types member array lengths"
  else Ok tt.

(** The walk of [keys_vals]: the number of runs. *)
Fixpoint keys_vals_loop (fuel : nat) (cursor : bytes) (runs : Z) (in_run : bool) : bresult Z :=
  match cursor with
  | [] => Ok (if in_run then runs + 1 else runs)
  | _ =>
      match fuel with
      | O => Err (WireFormat OutOfFuel)
      | S fuel =>
          '(key, cursor) ← wire (lift (read_varint cursor));
          if 2147483647 <? key then wire_error "dense tag string index exceeds int32"
          else if key =? 0 then keys_vals_loop fuel cursor (runs + 1) false
          else match cursor with
               | [] => wire_error "dense keys_vals ends with a key that has no value"
               | _ =>
                   '(val, cursor) ← wire (lift (read_varint cursor));
                   if 2147483647 <? val then wire_error "dense tag string index exceeds int32"
                   else keys_vals_loop fuel cursor runs true
               end
      end
  end.

Definition validate_dense_keys_vals (keys_vals_data : bytes) (node_count : Z) : bresult unit :=
  match keys_vals_data with
  | [] => Ok tt
  | _ =>
      runs ← keys_vals_loop (length keys_vals_data) keys_vals_data 0 false;
      if negb (runs =? node_count) then
        wire_error "dense keys_vals describes a different number of nodes than the id array"
      else Ok tt
  end.

(** The loop over the core arrays: how many are present. *)
Fixpoint core_present (core : list bytes) (node_count present : Z) : bresult Z :=
  match core with
  | [] => Ok present
  | data :: core =>
      count ← wire (packed_varint_count data);
      if count =? 0 then core_present core node_count present
      else if negb (count =? node_count) then
        wire_error "dense denseinfo array length does not match the id array"
      else core_present core node_count (present + 1)
  end.

Definition validate_dense_info_arrays (info_data : bytes) (node_count : Z) : bresult (option WireDenseInfo) :=
  info ← wire (WireDenseInfo_parse info_data);
  let core := [wi_version info; wi_timestamp info; wi_changeset info; wi_uid info; wi_user_sid info] in
  present ← core_present core node_count 0;
  visible ← wire (packed_varint_count (wi_visible info));
  if negb (visible =? 0) && negb (visible =? node_count) then
    wire_error "dense denseinfo visible array length does not match the id array"
  else if negb (present =? 0) && negb (present =? 5) then
    wire_error "dense denseinfo has some but not all of its parallel arrays"
  else if (present =? 0) && negb (visible =? 0) then
    wire_error "dense denseinfo has a visible array but no metadata arrays"
  else Ok (if present =? 5 then Some info else None).

(** ** Projections *)

Class GroupProjection (A : Type) := {
  group_begin : A -> A;
  on_node : A -> WireNode -> option WireInfo -> A;
  on_way : A -> WireWay -> option WireInfo -> A;
  on_relation : A -> WireRelation -> option WireInfo -> A;
  on_dense : A -> WireDenseNodes -> Z -> option WireDenseInfo -> A;
  group_end : A -> KindSet -> A;
}.

(** [NoProjection] *)
#[export] Instance NoProjection : GroupProjection unit := {|
  group_begin := fun p => p;
  on_node := fun p _ _ => p;
  on_way := fun p _ _ => p;
  on_relation := fun p _ _ => p;
  on_dense := fun p _ _ _ => p;
  group_end := fun p _ => p;
|}.

(** [impl GroupProjection for (A, B)] *)
#[export] Instance PairProjection A B `{GroupProjection A, GroupProjection B} : GroupProjection (A * B) := {|
  group_begin := fun '(a, b) => (group_begin a, group_begin b);
  on_node := fun '(a, b) n i => (on_node a n i, on_node b n i);
  on_way := fun '(a, b) w i => (on_way a w i, on_way b w i);
  on_relation := fun '(a, b) r i => (on_relation a r i, on_relation b r i);
  on_dense := fun '(a, b) d n i => (on_dense a d n i, on_dense b d n i);
  group_end := fun '(a, b) k => (group_end a k, group_end b k);
|}.

(** [impl GroupProjection for Option<P>] *)
#[export] Instance OptionProjection A `{GroupProjection A} : GroupProjection (option A) := {|
  group_begin := fun o => group_begin <$> o;
  on_node := fun o n i => (fun p => on_node p n i) <$> o;
  on_way := fun o w i => (fun p => on_way p w i) <$> o;
  on_relation := fun o r i => (fun p => on_relation p r i) <$> o;
  on_dense := fun o d n i => (fun p => on_dense p d n i) <$> o;
  group_end := fun o k => (fun p => group_end p k) <$> o;
|}.

(** ** The group walk *)

Section Groups.
Context {A : Type} `{GroupProjection A}.

(** The locals of one group's walk. *)
Record WalkState := mkWalk { wk_kinds : KindSet; wk_count : Z; wk_proj : A }.

Definition validate_node (s : WalkState) (element : bytes) : bresult WalkState :=
  let kinds := add (wk_kinds s) Node in
  node ← wire (WireNode_parse element);
  info ← validate_info (wn_info node);
  _ ← validate_tag_arrays (wn_keys node) (wn_vals node) "node has mismatched keys/vals tag array lengths";
  Ok (mkWalk kinds (wk_count s + 1) (on_node (wk_proj s) node info)).

Definition validate_way (s : WalkState) (element : bytes) : bresult WalkState :=
  let kinds := add (wk_kinds s) Way in
  way ← wire (WireWay_parse element);
  info ← validate_info (ww_info way);
  _ ← validate_tag_arrays (ww_keys way) (ww_vals way) "way has mismatched keys/vals tag array lengths";
  _ ← validate_way_geometry_arrays way;
  Ok (mkWalk kinds (wk_count s + 1) (on_way (wk_proj s) way info)).

Definition validate_relation (s : WalkState) (element : bytes) : bresult WalkState :=
  let kinds := add (wk_kinds s) Relation in
  relation ← wire (WireRelation_parse element);
  info ← validate_info (wr_info relation);
  _ ← validate_tag_arrays (wr_keys relation) (wr_vals relation)
        "relation has mismatched keys/vals tag array lengths";
  _ ← validate_relation_member_arrays relation;
  Ok (mkWalk kinds (wk_count s + 1) (on_relation (wk_proj s) relation info)).

Definition validate_dense (s : WalkState) (dense_data : bytes) : bresult WalkState :=
  dense ← wire (WireDenseNodes_parse dense_data);
  ids ← wire (packed_varint_count (wd_id dense));
  lats ← wire (packed_varint_count (wd_lat dense));
  lons ← wire (packed_varint_count (wd_lon dense));
  if negb (ids =? lats) || negb (ids =? lons) then
    wire_error "dense group has mismatched id/lat/lon array lengths"
  else
    _ ← validate_dense_keys_vals (wd_keys_vals dense) ids;
    info ← match wd_info dense with
           | Some info_data => validate_dense_info_arrays info_data ids
           | None => Ok None
           end;
    let kinds := if 0 <? ids then add (wk_kinds s) Node else wk_kinds s in
    Ok (mkWalk kinds (wk_count s + ids) (on_dense (wk_proj s) dense ids info)).

(** A loop over the elements that stops at the first error. *)
Fixpoint walk {B S} (f : S -> B -> bresult S) (s : S) (l : list B) : bresult S :=
  match l with
  | [] => Ok s
  | x :: l => s ← f s x; walk f s l
  end.

(** The framing walk: every field is skipped. *)
Definition frame_step (st : unit) (field wt : Z) (c : bytes) : result WireError (unit * bytes) := skip_arm st wt c.

Definition validate_group (st : KindSet * Z * A) (data : bytes) : bresult (KindSet * Z * A) :=
  let '(kinds, count, proj) := st in
  _ ← wire (parse frame_step tt data);
  s ← walk validate_node (mkWalk KindSet_default count (group_begin proj)) (WireGroup_nodes data);
  s ← walk validate_way s (WireGroup_ways data);
  s ← walk validate_relation s (WireGroup_relations data);
  dense ← wire (WireGroup_dense data);
  s ← match dense with Some d => validate_dense s d | None => Ok s end;
  Ok (union kinds (wk_kinds s), wk_count s, group_end (wk_proj s) (wk_kinds s)).

(** [group(i)] for [i] in [0..group_count]; a [None] slice is a panic. *)
Definition validate_groups (group_count : nat) (group : nat -> option bytes) (projection : A)
  : bresult (KindSet * Z * A) :=
  walk (fun st i => data ← ok_or (group i) (WireFormat Panic); validate_group st data)
    (KindSet_default, 0, projection) (seq 0 group_count).

(** ** The block *)

Fixpoint validate_stringtable_utf8 (index : nat) (entries : list (option bytes)) : bresult unit :=
  match entries with
  | [] => Ok tt
  | e :: entries =>
      raw ← ok_or e (WireFormat Panic);
      match from_utf8 raw with
      | Ok _ => validate_stringtable_utf8 (S index) entries
      | Err err => Err (StringtableUtf8 err index)
      end
  end.

Record BlockScan := mkBlockScan { bs_fields : BlockFields; bs_kinds : KindSet; bs_element_count : Z }.

(** [&buffer[offset..offset + len]] *)
Definition entry_slice (buffer : bytes) (e : Z * Z) : option bytes :=
  slice buffer (Z.to_nat e.1) (Z.to_nat (e.1 + e.2)).

(** The projection, what the scan found, and the entry tables. *)
Definition validate_block (buffer : bytes) (make : BlockFields -> list (Z * Z) -> A)
  : bresult (A * BlockScan * (list (Z * Z) * list (Z * Z))) :=
  '(fields, st, groups) ← wire (scan_block_fields buffer);
  '(kinds, count, projection) ←
     validate_groups (length groups) (fun i => e ← groups !! i; entry_slice buffer e) (make fields st);
  _ ← validate_stringtable_utf8 0 (entry_slice buffer <$> st);
  Ok (projection, mkBlockScan fields kinds count, (st, groups)).

Definition validate_in_place (buffer : bytes) (claim : option ElementKind)
    (make : BlockFields -> list (Z * Z) -> A) : bresult (A * BlockScan * (list (Z * Z) * list (Z * Z))) :=
  '(projection, scan, tables) ← validate_block buffer make;
  match refuse_under (bs_kinds scan) claim with
  | Ok _ => Ok (projection, scan, tables)
  | Err k => Err (KindContradicted k)
  end.

(** [ValidatedBlock]: the bytes, the tables and the scan. *)
Record ValidatedBlock := mkValidated {
  vb_buffer : bytes; vb_st : list (Z * Z); vb_groups : list (Z * Z); vb_scan : BlockScan }.

(** [BlockBuffer::project] *)
Definition project (buffer : bytes) (claim : option ElementKind) (make : BlockFields -> list (Z * Z) -> A)
  : bresult (A * ValidatedBlock) :=
  '(projection, scan, (st, groups)) ← validate_in_place buffer claim make;
  Ok (projection, mkValidated buffer st groups scan).

End Groups.

(** [ValidatedBlock::string]: the outer [None] is a panic. *)
Definition vb_string (v : ValidatedBlock) (index : nat) : option (option bytes) :=
  match vb_st v !! index with
  | None => Some None
  | Some e => b ← entry_slice (vb_buffer v) e; Some (Some b)
  end.

Record PrimitiveBlock := mkPrimitiveBlock { pb_block : WireBlock; pb_kinds : KindSet; pb_element_count : Z }.

(** [ValidatedBlock::into_block], with [PrimitiveBlock::assemble] *)
Definition into_block (v : ValidatedBlock) : PrimitiveBlock :=
  let '(buffer, meta) := inline_tables (vb_buffer v) (vb_st v) (vb_groups v) (bs_fields (vb_scan v)) in
  mkPrimitiveBlock (from_inline buffer meta) (bs_kinds (vb_scan v)) (bs_element_count (vb_scan v)).

(** [BlockBuffer::block], and [PrimitiveBlock::from_vec] when no claim is made *)
Definition block_of (buffer : bytes) (claim : option ElementKind) : bresult PrimitiveBlock :=
  '(_, v) ← project (A := unit) buffer claim (fun _ _ => tt);
  Ok (into_block v).

(** ** Element views *)

Definition framing_of (f : BlockFields) : Framing :=
  mkFraming (granularity f) (lat_offset f) (lon_offset f) (date_granularity f).

Definition framing (b : WireBlock) : Framing := framing_of (wb_fields b).

Record NodeView := mkNode { nv_block : WireBlock; nv_node : WireNode }.

(** [Node::nano_lat] and [Node::nano_lon], wrapping like the dense ones. *)
Definition node_nano_lat (n : NodeView) : Z :=
  let f := wb_fields (nv_block n) in wadd 64 (lat_offset f) (wmul 64 (granularity f) (wn_lat (nv_node n))).
Definition node_nano_lon (n : NodeView) : Z :=
  let f := wb_fields (nv_block n) in wadd 64 (lon_offset f) (wmul 64 (granularity f) (wn_lon (nv_node n))).
Record WayView := mkWay { wv_block : WireBlock; wv_way : WireWay }.
Record RelationView := mkRelation { rv_block : WireBlock; rv_rel : WireRelation }.

Inductive Element :=
| ElNode (n : NodeView)
| ElDenseNode (n : DenseNode)
| ElWay (w : WayView)
| ElRelation (r : RelationView).

Definition element_kind (e : Element) : ElementKind :=
  match e with ElNode _ | ElDenseNode _ => Node | ElWay _ => Way | ElRelation _ => Relation end.

(** [validated]: a failed re-parse is a panic. *)
Definition validated {A} (r : result WireError A) : option A :=
  match r with Ok a => Some a | Err _ => None end.

(** [validated_info] of src/src/read/elements.rs *)
Definition validated_info (info_data : option bytes) : option WireInfo :=
  match info_data with None => Some WireInfo_default | Some data => validated (WireInfo_parse data) end.

(** [Way::node_locations], drained: nanodegrees, scaled with wrap-around *)
Definition node_locations (w : WayView) : option (list (Z * Z)) :=
  let f := wb_fields (wv_block w) in
  match lockstep (delta_decoded (ww_lat (wv_way w))) (delta_decoded (ww_lon (wv_way w))) with
  | Some ps => Some ((fun '(lat, lon) => (wadd 64 (lat_offset f) (wmul 64 (granularity f) lat),
                                          wadd 64 (lon_offset f) (wmul 64 (granularity f) lon))) <$> ps)
  | None => None
  end.

(** ** The element iterator *)

Definition dense_empty (b : WireBlock) : DenseNodeIter :=
  mkNodeIter [] 0 [] 0 [] 0 [] 0 None (granularity (wb_fields b)) (lat_offset (wb_fields b)) (lon_offset (wb_fields b)).

Definition dense_skip_metadata (b : WireBlock) (dense : WireDenseNodes) : DenseNodeIter :=
  mkNodeIter (packed_sint64 (wd_id dense)) 0 (packed_sint64 (wd_lat dense)) 0 (packed_sint64 (wd_lon dense)) 0
    (wd_keys_vals dense) 0 None (granularity (wb_fields b)) (lat_offset (wb_fields b)) (lon_offset (wb_fields b)).

Inductive ElementsIterState := StGroup | StDenseNode | StNode | StWay | StRelation.

(** The message iterators are the bytes they have left. *)
Record BlockElementsIter := mkElementsIter {
  ei_block : WireBlock; ei_state : ElementsIterState; ei_index : nat; ei_count : nat;
  ei_dense : DenseNodeIter; ei_nodes : bytes; ei_ways : bytes; ei_relations : bytes; ei_skip : bool }.

Definition elements_new (b : WireBlock) (skip_metadata : bool) : BlockElementsIter :=
  mkElementsIter b StGroup 0 (Z.to_nat (group_count b)) (dense_empty b) [] [] [] skip_metadata.

(** [WireMessageIter::next] *)
Definition message_next (target : Z) (c : bytes) : option (bytes * bytes) := msg_next (S (length c)) target c.

(** The outcome of [step]: go on, end, or an element. *)
Inductive Step := Continue | Finished | Yield (e : Element).

Definition elements_step (it : BlockElementsIter) : option (Step * BlockElementsIter) :=
  let 'mkElementsIter b st i n dense nodes ways rels skip := it in
  match st with
  | StGroup =>
      if (n <=? i)%nat then Some (Finished, it)
      else
        data ← group b i;
        d ← validated_dense data;
        dense ← match d with
                | Some w => if skip then Some (dense_skip_metadata b w) else DenseNodeIter_new (framing b) w
                | None => Some (dense_empty b)
                end;
        Some (Continue, mkElementsIter b StDenseNode (S i) n dense data data data skip)
  | StDenseNode =>
      '(x, dense) ← dense_next dense;
      match x with
      | Some node => Some (Yield (ElDenseNode node), mkElementsIter b st i n dense nodes ways rels skip)
      | None => Some (Continue, mkElementsIter b StNode i n dense nodes ways rels skip)
      end
  | StNode =>
      match message_next 1 nodes with
      | Some (data, nodes) =>
          w ← validated (WireNode_parse data);
          Some (Yield (ElNode (mkNode b w)), mkElementsIter b st i n dense nodes ways rels skip)
      | None => Some (Continue, mkElementsIter b StWay i n dense nodes ways rels skip)
      end
  | StWay =>
      match message_next 3 ways with
      | Some (data, ways) =>
          w ← validated (WireWay_parse data);
          Some (Yield (ElWay (mkWay b w)), mkElementsIter b st i n dense nodes ways rels skip)
      | None => Some (Continue, mkElementsIter b StRelation i n dense nodes ways rels skip)
      end
  | StRelation =>
      match message_next 4 rels with
      | Some (data, rels) =>
          w ← validated (WireRelation_parse data);
          Some (Yield (ElRelation (mkRelation b w)), mkElementsIter b st i n dense nodes ways rels skip)
      | None => Some (Continue, mkElementsIter b StGroup i n dense nodes ways rels skip)
      end
  end.

(** [next] drained: the outer [None] is a panic or exhausted fuel. *)
Fixpoint elements_drain (fuel : nat) (it : BlockElementsIter) : option (list Element) :=
  match fuel with
  | O => None
  | S fuel =>
      '(s, it) ← elements_step it;
      match s with
      | Continue => elements_drain fuel it
      | Finished => Some []
      | Yield e => es ← elements_drain fuel it; Some (e :: es)
      end
  end.

(** ** Group by group *)

(** The group iterators: [GroupNodeIter], [GroupWayIter], [GroupRelationIter], drained. *)
Definition group_nodes (b : WireBlock) (data : bytes) : option (list NodeView) :=
  mapM (fun d => mkNode b <$> validated (WireNode_parse d)) (WireGroup_nodes data).
Definition group_ways (b : WireBlock) (data : bytes) : option (list WayView) :=
  mapM (fun d => mkWay b <$> validated (WireWay_parse d)) (WireGroup_ways data).
Definition group_relations (b : WireBlock) (data : bytes) : option (list RelationView) :=
  mapM (fun d => mkRelation b <$> validated (WireRelation_parse d)) (WireGroup_relations data).

(** The groups [GroupIter] yields. *)
Definition groups (b : WireBlock) : option (list bytes) :=
  mapM (group b) (seq 0 (Z.to_nat (group_count b))).

(** [for_each_element]: the elements the closure is called with, in order. *)
Definition for_each_element (b : WireBlock) : option (list Element) :=
  gs ← groups b;
  els ← mapM (fun data =>
    nodes ← group_nodes b data;
    dense ← group_dense_nodes (framing b) data;
    ways ← group_ways b data;
    rels ← group_relations b data;
    Some ((ElNode <$> nodes) ++ (ElDenseNode <$> dense) ++ (ElWay <$> ways) ++ (ElRelation <$> rels))) gs;
  Some (concat els).

(** ** Classification *)

Inductive BlockType := BtDenseNodes | BtNodes | BtWays | BtRelations | BtMixed | BtEmpty.

#[export] Instance BlockType_eq_dec : EqDecision BlockType.
Proof. solve_decision. Defined.

Definition classify_group (data : bytes) : BlockType :=
  match data with
  | [] => BtEmpty
  | tag_byte :: _ =>
      let field := Z.shiftr tag_byte 3 in
      if negb (Z.land tag_byte 7 =? 2) then BtMixed
      else if field =? 1 then BtNodes
      else if field =? 2 then BtDenseNodes
      else if field =? 3 then BtWays
      else if field =? 4 then BtRelations
      else BtMixed
  end.

Fixpoint block_type_loop (b : WireBlock) (indices : list nat) (result : option BlockType) : option BlockType :=
  match indices with
  | [] => Some (default BtEmpty result)
  | i :: indices =>
      data ← group b i;
      let t := classify_group data in
      if decide (t = BtEmpty) then block_type_loop b indices result
      else match result with
           | None => block_type_loop b indices (Some t)
           | Some prev => if decide (prev = t) then block_type_loop b indices result else Some BtMixed
           end
  end.

(** [block_type]; [None] is a panic *)
Definition block_type (b : WireBlock) : option BlockType :=
  block_type_loop b (seq 0 (Z.to_nat (group_count b))) None.

End Block.
