(* ===== verification/BlobScan.v ===== *)
(** * The block scanner (src/src/blob_meta/scan.rs)

    One pass over a decompressed block that gathers what its blob header
    claims: kind, count, id range, bounding box, whether the ids are in
    canonical order, and the tag keys.  [run] is the walk, [scan_index] and
    [scan_tags] what it found; a loop over a packed array has the array's
    length as fuel, each turn reading at least one byte. *)

From S2P Require Import Prelude Proto Wire WireBlock ElementKind OsmId BlobMeta TagIndex.

Section Scan.
Context {P : Protohoggr}.

Inductive ScanError := ScanWire (e : WireError) | KeyOutOfBounds (index : Z).

Abbreviation sresult := (result ScanError).

Definition scanned {A} (r : result WireError A) : sresult A :=
  match r with Ok a => Ok a | Err e => Err (ScanWire e) end.

Record RawExtent := mkExtent { ex_min_lat : Z; ex_max_lat : Z; ex_min_lon : Z; ex_max_lon : Z }.

Record Walk := mkWalk {
  w_collect_keys : bool; w_strings : list bytes;
  w_granularity : Z; w_lat_offset : Z; w_lon_offset : Z; w_groups : nat;
  w_kind : option ElementKind; w_kinds_differ : bool; w_unsupported : bool;
  w_count : Z; w_min_id : Z; w_max_id : Z; w_prev_id : option Z; w_sorted : bool;
  w_extent : option RawExtent;
  w_key_seen : list bool; w_max_key_sid : option Z }.

(** ** Observations *)

Definition element (w : Walk) (k : ElementKind) (id : Z) : Walk :=
  let 'mkWalk ck st g la lo gs kd df us n mi ma pr so ex ks mk := w in
  let '(kd, df) := match kd with
                   | None => (Some k, df)
                   | Some k0 => (kd, if decide (k0 = k) then df else true)
                   end in
  let so := match pr with
            | Some prev => match osm_id_cmp id prev with Lt => false | _ => so end
            | None => so
            end in
  mkWalk ck st g la lo gs kd df us (n + 1) (Z.min mi id) (Z.max ma id) (Some id) so ex ks mk.

Definition coordinate (w : Walk) (lat lon : Z) : Walk :=
  let 'mkWalk ck st g la lo gs kd df us n mi ma pr so ex ks mk := w in
  let ex := match ex with
            | None => mkExtent lat lat lon lon
            | Some e => mkExtent (Z.min (ex_min_lat e) lat) (Z.max (ex_max_lat e) lat)
                          (Z.min (ex_min_lon e) lon) (Z.max (ex_max_lon e) lon)
            end in
  mkWalk ck st g la lo gs kd df us n mi ma pr so (Some ex) ks mk.

Definition key (w : Walk) (sid : Z) : Walk :=
  let 'mkWalk ck st g la lo gs kd df us n mi ma pr so ex ks mk := w in
  mkWalk ck st g la lo gs kd df us n mi ma pr so ex
    (if ck then <[Z.to_nat sid := true]> ks else ks)
    (Some (match mk with Some m => Z.max m sid | None => sid end)).

(** ** Packed arrays *)

Fixpoint keys_loop (fuel : nat) (w : Walk) (cur : bytes) : result WireError Walk :=
  match cur, fuel with
  | [], _ => Ok w
  | _, O => Err OutOfFuel
  | _, S fuel => '(sid, cur) ← lift (read_varint_u32 cur); keys_loop fuel (key w sid) cur
  end.

Fixpoint vals_loop (fuel : nat) (cur : bytes) : result WireError unit :=
  match cur, fuel with
  | [], _ => Ok tt
  | _, O => Err OutOfFuel
  | _, S fuel => '(_, cur) ← lift (read_varint_u32 cur); vals_loop fuel cur
  end.

Definition packed_keys (w : Walk) (keys vals : bytes) : result WireError Walk :=
  w ← keys_loop (length keys) w keys;
  _ ← vals_loop (length vals) vals;
  Ok w.

Definition DENSE_LENGTH_MISMATCH : string := "dense group has mismatched id/lat/lon array lengths".
Definition DENSE_KEY_WITHOUT_VALUE : string := "dense keys_vals ends with a key that has no value".
Definition DENSE_RUNS_MISMATCH : string :=
  "dense keys_vals describes a different number of nodes than the id array".

(** The three delta-coded columns in step; the number of nodes. *)
Fixpoint dense_loop (fuel : nat) (w : Walk) (ids lats lons : bytes) (id lat lon nodes : Z)
  : result WireError (Walk * Z) :=
  match ids, fuel with
  | [], _ =>
      match lats, lons with [], [] => Ok (w, nodes) | _, _ => Err (Message DENSE_LENGTH_MISMATCH) end
  | _, O => Err OutOfFuel
  | _, S fuel =>
      '(did, ids) ← lift (read_sint64 ids);
      match lats, lons with
      | [], _ | _, [] => Err (Message DENSE_LENGTH_MISMATCH)
      | _, _ =>
          '(dlat, lats) ← lift (read_sint64 lats);
          '(dlon, lons) ← lift (read_sint64 lons);
          let id := as_i64 (id + did) in
          let lat := as_i64 (lat + dlat) in
          let lon := as_i64 (lon + dlon) in
          dense_loop fuel (element (coordinate w lat lon) Node id) ids lats lons id lat lon (nodes + 1)
      end
  end.

(** The runs of pairs; the number of runs. *)
Fixpoint kv_loop (fuel : nat) (w : Walk) (kv : bytes) (runs : Z) (in_run : bool) : result WireError (Walk * Z) :=
  match kv, fuel with
  | [], _ => Ok (w, if in_run then runs + 1 else runs)
  | _, O => Err OutOfFuel
  | _, S fuel =>
      '(k, kv) ← lift (read_varint kv);
      if k =? 0 then kv_loop fuel w kv (runs + 1) false
      else match kv with
           | [] => Err (Message DENSE_KEY_WITHOUT_VALUE)
           | _ => '(_, kv) ← lift (read_varint kv); kv_loop fuel (key w k) kv runs true
           end
  end.

Definition dense_keys_vals (w : Walk) (keys_vals : bytes) (nodes : Z) : result WireError Walk :=
  match keys_vals with
  | [] => Ok w
  | _ =>
      '(w, runs) ← kv_loop (length keys_vals) w keys_vals 0 false;
      if runs =? nodes then Ok w else Err (Message DENSE_RUNS_MISMATCH)
  end.

Definition dense (w : Walk) (d : WireDenseNodes) : result WireError Walk :=
  '(w, nodes) ← dense_loop (length (wd_id d)) w (wd_id d) (wd_lat d) (wd_lon d) 0 0 0 0;
  dense_keys_vals w (wd_keys_vals d) nodes.

(** ** Groups *)

(** The walk, and the bit set [seen] of the element fields met. *)
Definition group_step (s : Walk * Z) (field wt : Z) (c : bytes) : result WireError ((Walk * Z) * bytes) :=
  let '(w, seen) := s in
  let saw w c := Ok ((w, Z.lor seen (Z.shiftl 1 field)), c) in
  if arm_len 1 field wt then
    '(b, c) ← lift (read_len_delimited c); n ← WireNode_parse b;
    w ← packed_keys w (wn_keys n) (wn_vals n);
    saw (element (coordinate w (wn_lat n) (wn_lon n)) Node (wn_id n)) c
  else if arm_len 2 field wt then
    if Z.testbit seen 2 then Err (Message DUP_GROUP_DENSE)
    else '(b, c) ← lift (read_len_delimited c); d ← WireDenseNodes_parse b; w ← dense w d; saw w c
  else if arm_len 3 field wt then
    '(b, c) ← lift (read_len_delimited c); v ← WireWay_parse b;
    w ← packed_keys w (ww_keys v) (ww_vals v); saw (element w Way (ww_id v)) c
  else if arm_len 4 field wt then
    '(b, c) ← lift (read_len_delimited c); r ← WireRelation_parse b;
    w ← packed_keys w (wr_keys r) (wr_vals r); saw (element w Relation (wr_id r)) c
  else skip_arm s wt c.

(** [u8::count_ones] *)
Definition count_ones (seen : Z) : nat := length (filter (fun i => Z.testbit seen i = true) (seqZ 0 8)).

Definition mark_unsupported (w : Walk) : Walk :=
  let 'mkWalk ck st g la lo gs kd df us n mi ma pr so ex ks mk := w in
  mkWalk ck st g la lo gs kd df true n mi ma pr so ex ks mk.

Definition scan_group (w : Walk) (data : bytes) : result WireError Walk :=
  '(w, seen) ← parse group_step (w, 0) data;
  Ok (if (1 <? count_ones seen)%nat then mark_unsupported w else w).

(** ** The block *)

(** The scalar fields, the last string table and the groups. *)
Definition block_fields_step (s : (Z * Z * Z) * (bytes * list bytes)) (field wt : Z) (c : bytes)
  : result WireError ((Z * Z * Z) * (bytes * list bytes) * bytes) :=
  let '((g, lat, lon), (st, gs)) := s in
  if arm_len 1 field wt then '(b, c) ← lift (read_len_delimited c); Ok ((g, lat, lon), (b, gs), c)
  else if arm_len 2 field wt then '(b, c) ← lift (read_len_delimited c); Ok ((g, lat, lon), (st, gs ++ [b]), c)
  else if arm_varint 17 field wt then
    '(g, c) ← read_int32 c "PrimitiveBlock.granularity exceeds int32"; Ok ((g, lat, lon), (st, gs), c)
  else if arm_varint 18 field wt then
    '(_, c) ← read_int32 c "PrimitiveBlock.date_granularity exceeds int32"; Ok (s, c)
  else if arm_varint 19 field wt then
    '(lat, c) ← lift (read_varint_i64 c); Ok ((g, lat, lon), (st, gs), c)
  else if arm_varint 20 field wt then
    '(lon, c) ← lift (read_varint_i64 c); Ok ((g, lat, lon), (st, gs), c)
  else skip_arm s wt c.

Definition block_fields (raw : bytes) : result WireError ((Z * Z * Z) * (bytes * list bytes)) :=
  parse block_fields_step ((100, 0, 0), ([], [])) raw.

Definition strings_loop (out : list bytes) (field wt : Z) (c : bytes) : result WireError (list bytes * bytes) :=
  if arm_len 1 field wt then '(b, c) ← lift (read_len_delimited c); Ok (out ++ [b], c)
  else skip_arm out wt c.

Fixpoint scan_groups (w : Walk) (gs : list bytes) : result WireError Walk :=
  match gs with
  | [] => Ok w
  | g :: gs => w ← scan_group w g; scan_groups w gs
  end.

Definition walk_over (collect_keys : bool) (g lat lon : Z) (strings : list bytes) (groups : nat) : Walk :=
  mkWalk collect_keys strings g lat lon groups None false false 0 i64_max i64_min None true None
    (if collect_keys then replicate (length strings) false else []) None.

Definition run (raw : bytes) (collect_keys : bool) : sresult Walk :=
  '((g, lat, lon), (stringtable, gs)) ← scanned (block_fields raw);
  strings ← scanned (parse strings_loop [] stringtable);
  w ← scanned (scan_groups (walk_over collect_keys g lat lon strings (length gs)) gs);
  match w_max_key_sid w with
  | Some sid => if Z.of_nat (length (w_strings w)) <=? sid then Err (KeyOutOfBounds sid) else Ok w
  | None => Ok w
  end.

(** ** What the walk found *)

Definition floor_div (a b : Z) : Z :=
  let d := Z.quot a b in
  let r := Z.rem a b in
  if negb (r =? 0) && (Z.lxor r b <? 0) then d - 1 else d.

Definition ceil_div (a b : Z) : Z :=
  let d := Z.quot a b in
  let r := Z.rem a b in
  if negb (r =? 0) && (0 <=? Z.lxor r b) then d + 1 else d.

Definition try_i32 (z : Z) : option Z := if (i32_min <=? z) && (z <=? i32_max) then Some z else None.

Definition transform_range (lo hi offset granularity : Z) : option (Z * Z) :=
  let a := offset + granularity * lo in
  let b := offset + granularity * hi in
  let '(min_nano, max_nano) := if a <=? b then (a, b) else (b, a) in
  x ← try_i32 (floor_div min_nano 100);
  y ← try_i32 (ceil_div max_nano 100);
  Some (x, y).

Definition scan_bbox (w : Walk) (k : ElementKind) : option BlobBbox :=
  if decide (k = Node) then
    e ← w_extent w;
    '(a, b) ← transform_range (ex_min_lat e) (ex_max_lat e) (w_lat_offset w) (w_granularity w);
    '(c, d) ← transform_range (ex_min_lon e) (ex_max_lon e) (w_lon_offset w) (w_granularity w);
    Some {| min_lat := a; max_lat := b; min_lon := c; max_lon := d |}
  else None.

Definition scan_index (w : Walk) : option (BlobIndex * bool) :=
  if w_unsupported w || w_kinds_differ w then None
  else
    k ← w_kind w;
    Some ({| kind := k; min_id := w_min_id w; max_id := w_max_id w; count := w_count w; bbox := scan_bbox w k |},
          w_sorted w).

Definition scan_tags (w : Walk) : option TagIndex :=
  if (w_groups w =? 0)%nat || w_unsupported w then None
  else Some (from_keys (omap (fun '(seen, s) => if seen : bool then Some s else None) (zip (w_key_seen w) (w_strings w)))).

Definition try_scan_block_ids_checked (raw : bytes) : sresult (option (BlobIndex * bool)) :=
  w ← run raw false; Ok (scan_index w).

Definition try_scan_block_ids_and_tags (raw : bytes) : sresult (option (BlobIndex * bool) * option TagIndex) :=
  w ← run raw true; Ok (scan_index w, scan_tags w).

Definition try_scan_block_tags (raw : bytes) : sresult (option TagIndex) :=
  w ← run raw true; Ok (scan_tags w).

(** [scan_block_tags] and [scan_block_ids_and_tags] of blob_meta/mod.rs. *)
Definition scan_block_tags (raw : bytes) : option TagIndex :=
  match try_scan_block_tags raw with Ok t => t | Err _ => None end.

Definition scan_block_ids_and_tags (raw : bytes) : sresult (option BlobIndex * option TagIndex) :=
  match try_scan_block_ids_and_tags raw with
  | Ok (index, tags) => Ok (fst <$> index, tags)
  | Err e => Err e
  end.

End Scan.
