(* ===== verification/BlockWalk.v ===== *)
(** * A validated block is walked without loss (src/src/read/block.rs)

    The construction invariant: on bytes [validate_block] accepted, no re-parse
    of the iterators fails, no pair of parallel arrays ends early, and the
    elements yielded are as many as the validator counted, of the kinds it
    recorded. *)

From S2P Require Import Prelude ElementKind Proto Wire WireBlock Encode Dense PackedCount Utf8 Block.

Section Runs.
Context `{L : ProtohoggrLaws}.

(** ** Tag runs of a dense group *)

(** The largest [int32]. *)
Definition sid_max : Z := 2147483647.

(** One node's run: its pairs, up to a zero key or the end of the array. *)
Inductive kv_run : bytes -> list (Z * Z) -> bytes -> Prop :=
| run_end : kv_run [] [] []
| run_zero c c' : read_varint c = Ok (0, c') -> kv_run c [] c'
| run_pair c k c1 v c2 kvs rest :
    read_varint c = Ok (k, c1) -> 0 < k <= sid_max ->
    read_varint c1 = Ok (v, c2) -> 0 <= v <= sid_max ->
    kv_run c2 kvs rest -> kv_run c ((k, v) :: kvs) rest.

(** A whole [keys_vals] array: one run per node. *)
Inductive kv_runs : bytes -> list (list (Z * Z)) -> Prop :=
| runs_nil : kv_runs [] []
| runs_cons c kvs rest rs : c <> [] -> kv_run c kvs rest -> kv_runs rest rs -> kv_runs c (kvs :: rs).

Lemma wire_ok {A} (r : result WireError A) a : wire r = Ok a -> r = Ok a.
Proof. by destruct r; cbn; intros [= ->]. Qed.

Lemma bbind_ok {A B} (m : result BlockError A) (f : A -> result BlockError B) b :
  m ≫= f = Ok b -> exists a, m = Ok a /\ f a = Ok b.
Proof. destruct m as [a|e]; simpl; [eauto|done]. Qed.

Lemma read_varint_nonneg c v c' : Forall is_byte c -> read_varint c = Ok (v, c') -> 0 <= v.
Proof. intros HF Hr. apply read_varint_ok in Hr. by eapply varint_of_nonneg. Qed.

Lemma read_varint_bytes c v c' : Forall is_byte c -> read_varint c = Ok (v, c') -> Forall is_byte c'.
Proof. intros HF Hr. apply read_varint_moves in Hr. by eapply bytes_suffix. Qed.

(** The validator's walk, started inside a run or between runs. *)
Lemma keys_vals_loop_runs fuel c runs in_run n :
  Forall is_byte c -> keys_vals_loop fuel c runs in_run = Ok n ->
  if in_run then
    exists kvs rest rs, kv_run c kvs rest /\ kv_runs rest rs /\ n = runs + 1 + Z.of_nat (length rs)
  else exists rs, kv_runs c rs /\ n = runs + Z.of_nat (length rs).
Proof.
  revert c runs in_run. induction fuel as [|fuel IH]; intros c runs in_run HF.
  all: destruct c as [|b c]; cbn [keys_vals_loop].
  1, 3: intros [= <-]; destruct in_run.
  1, 3: exists [], [], []; split_and!; [constructor|constructor|cbn; lia].
  1, 2: exists []; split; [constructor|cbn; lia].
  { done. }
  intros H. apply bbind_ok in H as ([k c1] & Hk%wire_ok%lift_ok & H).
  pose proof (read_varint_nonneg _ _ _ HF Hk) as Hk0. pose proof (read_varint_bytes _ _ _ HF Hk) as HF1.
  destruct (Z.ltb_spec 2147483647 k); [done|].
  assert (kv_run (b :: c) [] c1 \/ 0 < k) as Hz by (destruct (Z.eq_dec k 0) as [->|]; [left; by constructor|lia]).
  destruct (Z.eqb_spec k 0) as [->|Hne].
  - apply IH in H as (rs & Hrs & ->); [|done]. destruct Hz as [Hz|]; [|lia]. destruct in_run.
    + exists [], c1, rs. split_and!; [done|done|lia].
    + exists ([] :: rs). split; [by econstructor|cbn [length]; lia].
  - destruct c1 as [|b1 c1]; [done|].
    apply bbind_ok in H as ([v c2] & Hv%wire_ok%lift_ok & H).
    pose proof (read_varint_nonneg _ _ _ HF1 Hv) as Hv0. pose proof (read_varint_bytes _ _ _ HF1 Hv) as HF2.
    destruct (Z.ltb_spec 2147483647 v); [done|].
    apply IH in H as (kvs & rest & rs & Hrun & Hrs & ->); [|done].
    assert (kv_run (b :: c) ((k, v) :: kvs) rest) as Hr.
    { eapply run_pair; [done|unfold sid_max; lia|done|unfold sid_max; lia|done]. }
    destruct in_run.
    + exists ((k, v) :: kvs), rest, rs. split_and!; [done|done|lia].
    + exists (((k, v) :: kvs) :: rs). split; [by econstructor|cbn [length]; lia].
Qed.

Lemma keys_vals_fuel n m c runs in_run :
  (length c <= n)%nat -> (length c <= m)%nat -> keys_vals_loop n c runs in_run = keys_vals_loop m c runs in_run.
Proof.
  revert m c runs in_run. induction n as [|n IH]; intros m c runs in_run Hn Hm.
  { destruct c; [by destruct m|simpl in Hn; lia]. }
  destruct c as [|b c]; [by destruct m|]. destruct m as [|m]; [simpl in Hm; lia|]. cbn [keys_vals_loop].
  destruct (read_varint (b :: c)) as [[k c1]|e] eqn:Hk; [|done]. cbn [lift wire mbind result_bind].
  apply read_varint_consumes in Hk. destruct (_ <? k); [done|]. destruct (k =? 0); [apply IH; lia|].
  destruct c1 as [|b1 c1]; [done|].
  destruct (read_varint (b1 :: c1)) as [[v c2]|e] eqn:Hv; [|done]. cbn [lift wire mbind result_bind].
  apply read_varint_consumes in Hv. destruct (_ <? v); [done|]. apply IH; lia.
Qed.

Lemma kv_run_loop c kvs rest fuel runs in_run :
  kv_run c kvs rest -> (c = [] -> in_run = true) -> (length c <= fuel)%nat ->
  keys_vals_loop fuel c runs in_run = keys_vals_loop (length rest) rest (runs + 1) false.
Proof.
  intros Hr. revert fuel runs in_run. induction Hr as [|c c' Hz|c k c1 v c2 kvs rest Hk Hk0 Hv Hv0 Hr IH]; intros fuel runs in_run Hin Hf.
  - rewrite Hin by done. by destruct fuel.
  - destruct c as [|b c]; [by apply read_varint_consumes in Hz; simpl in Hz; lia|].
    destruct fuel as [|fuel]; [simpl in Hf; lia|]. cbn [keys_vals_loop]. rewrite Hz. cbn.
    apply read_varint_consumes in Hz. simpl in Hz, Hf. apply keys_vals_fuel; lia.
  - destruct c as [|b c]; [by apply read_varint_consumes in Hk; simpl in Hk; lia|].
    destruct fuel as [|fuel]; [simpl in Hf; lia|]. cbn [keys_vals_loop]. rewrite Hk. cbn [lift wire mbind result_bind].
    unfold sid_max in *. rewrite (proj2 (Z.ltb_ge _ k)), (proj2 (Z.eqb_neq k 0)) by lia.
    destruct c1 as [|b1 c1]; [by apply read_varint_consumes in Hv; simpl in Hv; lia|].
    rewrite Hv. cbn [lift wire mbind result_bind]. rewrite (proj2 (Z.ltb_ge _ v)) by lia.
    apply read_varint_consumes in Hk, Hv. simpl in Hf. apply IH; [done|simpl in *; lia].
Qed.

Lemma kv_runs_loop c rs fuel runs :
  kv_runs c rs -> (length c <= fuel)%nat -> keys_vals_loop fuel c runs false = Ok (runs + Z.of_nat (length rs)).
Proof.
  intros Hr. revert fuel runs. induction Hr as [|c kvs rest rs Hne Hrun _ IH]; intros fuel runs Hf.
  - destruct fuel; cbn; by rewrite Z.add_0_r.
  - rewrite (kv_run_loop _ _ _ _ _ _ Hrun) by done. rewrite IH by done. f_equal. cbn [length]. lia.
Qed.

(** [validate_dense_keys_vals] accepts exactly the arrays that hold one run per
    node, or none at all. *)
Lemma validate_keys_vals_ok c n :
  Forall is_byte c -> 0 <= n ->
  validate_dense_keys_vals c n = Ok tt <-> c = [] \/ exists rs, kv_runs c rs /\ n = Z.of_nat (length rs).
Proof.
  intros HF Hn. unfold validate_dense_keys_vals. destruct c as [|b c]; [split; [auto|done]|].
  set (c0 := b :: c) in *. split.
  - intros H. apply bbind_ok in H as (runs & Hl & H). destruct (Z.eqb_spec runs n) as [->|]; [|done].
    apply keys_vals_loop_runs in Hl as (rs & Hrs & ->); [|done]. right. by exists rs.
  - intros [|(rs & Hrs & ->)]; [done|]. rewrite (kv_runs_loop _ _ _ _ Hrs) by done.
    cbn [mbind result_bind]. by rewrite Z.add_0_l, Z.eqb_refl.
Qed.

(** ** The node iterator's scan of one run *)

Lemma varint_of_app more h c' v : varint_of more (h ++ c') = Some (v, c') -> forall r, varint_of more (h ++ r) = Some (v, r).
Proof.
  revert h v. induction more as [|more IH]; intros [|b h] v H r.
  1, 3: apply varint_of_moves in H as (? & h & H); apply (f_equal length) in H; cbn [app] in H;
    rewrite length_cons, length_app in H; lia.
  all: cbn [app varint_of] in *.
  - destruct (b <=? 1); [|done]. injection H as <- H. apply (f_equal length) in H. rewrite length_app in H.
    destruct h; [done|simpl in H; lia].
  - destruct (b <? 128).
    + injection H as <- H. apply (f_equal length) in H. rewrite length_app in H. destruct h; [done|simpl in H; lia].
    + destruct (varint_of more (h ++ c')) as [[w c1]|] eqn:Hv; [|done]. cbn [mbind option_bind] in H.
      injection H as <- ->. by rewrite (IH h w Hv r).
Qed.

(** What a read consumed reads the same before any other tail. *)
Lemma read_varint_split c v c' :
  read_varint c = Ok (v, c') -> exists h, c = h ++ c' /\ (0 < length h)%nat /\ forall r, read_varint (h ++ r) = Ok (v, r).
Proof.
  intros Hr. pose proof (read_varint_consumes _ _ _ Hr) as Hlt. destruct (read_varint_moves _ _ _ Hr) as [h ->].
  exists h. split_and!; [done|rewrite length_app in Hlt; lia|]. intros r. apply read_varint_ok in Hr.
  apply read_varint_wire. by eapply varint_of_app.
Qed.

(** A run's pairs are its first bytes; the scan stops there and skips the
    delimiter, and the pairs read back from those bytes alone. *)
Lemma kv_run_scan c kvs rest :
  kv_run c kvs rest -> exists h z, c = h ++ z ++ rest /\
    (forall fuel pos, (length c <= fuel)%nat ->
       kv_scan fuel c pos pos = Some (pos + length h + length z, pos + length h)%nat) /\
    (forall fuel, (length h <= fuel)%nat -> dense_raw_loop fuel h = Some kvs).
Proof.
  intros Hr. induction Hr as [|c c' Hz|c k c1 v c2 kvs rest Hk Hk0 Hv Hv0 Hr (h & z & -> & Hscan & Hraw)].
  - exists [], []. split_and!; [done| |by intros []]. intros fuel pos _. destruct fuel; cbn; do 2 f_equal; lia.
  - destruct (read_varint_split _ _ _ Hz) as (z & -> & Hlen & _). exists [], z. split_and!; [done| |by intros []].
    intros fuel pos Hf. rewrite length_app in Hf. destruct fuel as [|fuel]; [lia|]. cbn [kv_scan].
    destruct (z ++ c') as [|b c] eqn:Hc; [destruct z; [simpl in Hlen; lia|done]|]. rewrite <- Hc in *. rewrite Hz.
    cbn [Z.eqb]. rewrite length_app. do 2 f_equal; cbn [length]; lia.
  - destruct (read_varint_split _ _ _ Hk) as (hk & -> & Hlk & Hk'). destruct (read_varint_split _ _ _ Hv) as (hv & -> & Hlv & Hv').
    exists (hk ++ hv ++ h), z. split_and!; [by rewrite <- !app_assoc| |].
    + intros fuel pos Hf. rewrite !length_app in Hf. destruct fuel as [|fuel]; [lia|]. cbn [kv_scan].
      destruct (hk ++ hv ++ h ++ z ++ rest) as [|b c] eqn:Hc; [destruct hk; [simpl in Hlk; lia|done]|]. rewrite <- Hc in *.
      rewrite Hk, (proj2 (Z.eqb_neq k 0)) by lia. rewrite Hv.
      replace (length (hk ++ hv ++ h ++ z ++ rest) - length (h ++ z ++ rest))%nat with (length hk + length hv)%nat by (rewrite !length_app; lia).
      rewrite Hscan by (rewrite !length_app; lia). rewrite !length_app. do 2 f_equal; lia.
    + intros fuel Hf. rewrite !length_app in Hf. destruct fuel as [|fuel]; [lia|]. cbn [dense_raw_loop].
      destruct (hk ++ hv ++ h) as [|b c] eqn:Hc; [destruct hk; [simpl in Hlk; lia|done]|]. rewrite <- Hc in *.
      rewrite Hk', Hv', Hraw by lia. cbn [mbind option_bind]. unfold sid_max in *.
      rewrite !as_s_id by (lia || unfold is_s; lia). done.
Qed.

(** ** Draining a validated dense group *)

(** What is left of [keys_vals] for the nodes still to come. *)
Definition kv_tail (c : bytes) (rs : list (list (Z * Z))) : Prop :=
  (c = [] /\ Forall (eq []) rs) \/ kv_runs c rs.

Lemma kv_tail_step c kvs rs : kv_tail c (kvs :: rs) -> exists rest, kv_run c kvs rest /\ kv_tail rest rs.
Proof.
  intros [[-> HF]|Hr].
  - apply Forall_cons in HF as [<- HF]. exists []. split; [constructor|by left].
  - inversion Hr as [|? ? rest ? Hne Hrun Hrest]; subst. exists rest. split; [done|by right].
Qed.

Lemma dense_drain_valid dids dlats dlons rs cid clat clon pre c info g lo no :
  length dlats = length dids -> length dlons = length dids -> length rs = length dids -> kv_tail c rs ->
  exists ns,
    dense_drain (S (length dids)) (mkNodeIter dids cid dlats clat dlons clon (pre ++ c) (length pre) info g lo no) = Some ns /\
    dn_id <$> ns = delta_sums cid dids /\ dn_lat <$> ns = delta_sums clat dlats /\
    dn_lon <$> ns = delta_sums clon dlons /\ dense_raw_tags <$> ns = Some <$> rs.
Proof.
  revert dlats dlons rs cid clat clon pre c info.
  induction dids as [|did dids IH]; intros dlats dlons rs cid clat clon pre c info Hlat Hlon Hrs Hkv.
  { destruct dlats, dlons, rs; try done. exists []. split_and!; try done. cbn. by destruct (advance_info info). }
  destruct dlats as [|dlat dlats], dlons as [|dlon dlons], rs as [|kvs rs]; try done.
  apply kv_tail_step in Hkv as (rest & Hrun & Hkv). destruct (kv_run_scan _ _ _ Hrun) as (h & z & -> & Hscan & Hraw).
  cbn [length]. remember (S (length dids)) as m. cbn [dense_drain dense_next].
  destruct (advance_info info) as [i info']. rewrite slice_full. cbn [mbind option_bind].
  rewrite Hscan by done. cbn [mbind option_bind]. rewrite slice_run. cbn [mbind option_bind].
  replace (pre ++ h ++ z ++ rest) with ((pre ++ h ++ z) ++ rest) by by rewrite <- !app_assoc.
  replace (length pre + length h + length z)%nat with (length (pre ++ h ++ z)) by (rewrite !length_app; lia).
  destruct (IH dlats dlons rs (wadd 64 cid did) (wadd 64 clat dlat) (wadd 64 clon dlon) (pre ++ h ++ z) rest info')
    as (ns & Hd & H1 & H2 & H3 & H4); [simpl in *; lia..|done|].
  subst m. rewrite Hd. cbn [mbind option_bind]. eexists. split; [done|].
  split_and!; cbn [fmap list_fmap delta_sums dn_id dn_lat dn_lon]; [by f_equal|by f_equal|by f_equal|].
  unfold dense_raw_tags at 1. cbn [dn_tag_bytes]. by rewrite Hraw, <- H4.
Qed.

Lemma length_delta_sums cur ds : length (delta_sums cur ds) = length ds.
Proof. revert cur. induction ds as [|d ds IH]; intros cur; [done|]. cbn. by rewrite IH. Qed.

(** What [validate_dense] established of a dense message. *)
Definition dense_valid (d : WireDenseNodes) (n : nat) : Prop :=
  length (packed_sint64 (wd_id d)) = n /\ length (packed_sint64 (wd_lat d)) = n /\
  length (packed_sint64 (wd_lon d)) = n /\ (exists rs, kv_tail (wd_keys_vals d) rs /\ length rs = n) /\
  match wd_info d with Some i => is_Some (validated (WireDenseInfo_parse i)) | None => True end /\
  (exists vs, reads_all (wd_id d) vs) /\ (exists vs, reads_all (wd_lat d) vs) /\ (exists vs, reads_all (wd_lon d) vs).

Lemma dense_nodes_of d n info g lo no :
  dense_valid d n -> exists ns rs,
    dense_nodes (mkNodeIter (packed_sint64 (wd_id d)) 0 (packed_sint64 (wd_lat d)) 0 (packed_sint64 (wd_lon d)) 0
      (wd_keys_vals d) 0 info g lo no) = Some ns /\ length ns = n /\
    dn_id <$> ns = delta_decoded (wd_id d) /\ dn_lat <$> ns = delta_decoded (wd_lat d) /\
    dn_lon <$> ns = delta_decoded (wd_lon d) /\ kv_tail (wd_keys_vals d) rs /\ dense_raw_tags <$> ns = Some <$> rs.
Proof.
  intros (Hi & Hla & Hlo & (rs & Hkv & Hrs) & _).
  destruct (dense_drain_valid (packed_sint64 (wd_id d)) (packed_sint64 (wd_lat d)) (packed_sint64 (wd_lon d)) rs
    0 0 0 [] (wd_keys_vals d) info g lo no) as (ns & Hd & H1 & H2 & H3 & H4); [congruence..|done|].
  exists ns, rs. split_and!; try done.
  apply (f_equal length) in H1. rewrite length_fmap, length_delta_sums in H1. congruence.
Qed.

End Runs.

(** ** Parsed slices are bytes *)

Section Slices.
Context `{L : ProtohoggrLaws}.

Abbreviation all_bytes_of := (Forall is_byte).

Lemma parse_inv {St} (step : St -> Z -> Z -> bytes -> result WireError (St * bytes)) (I : St -> Prop) st data st' :
  shrinks step -> all_bytes_of data ->
  (forall x f w c x' c', all_bytes_of c -> I x -> step x f w c = Ok (x', c') -> I x') ->
  I st -> parse step st data = Ok st' -> I st'.
Proof.
  intros Hs Hb Hstep Hst Hp.
  destruct (parse_sim step step (fun x y => x = y /\ I x) data st st st' Hs) as (y & _ & _ & HI); [|done|done|done].
  intros x y f w c x' c' Hc [-> HI] H. exists x'. split; [done|]. split; [done|].
  eapply Hstep; [|done|done]. by eapply bytes_suffix.
Qed.

Lemma read_len_bytes c d c' : all_bytes_of c -> read_len_delimited c = Ok (d, c') -> all_bytes_of d.
Proof. intros Hb (h & ->)%read_len_delimited_split. apply Forall_app in Hb as [_ Hb]. by apply Forall_app in Hb as [? _]. Qed.

Lemma take_packed_bytes c wt slot msg s c' :
  all_bytes_of c -> all_bytes_of slot -> take_packed c wt slot msg = Ok (s, c') -> all_bytes_of s.
Proof.
  intros Hc Hs. unfold take_packed. intros H. apply bind_ok in H as ([b c1] & Hr & H). apply lift_ok in Hr.
  assert (all_bytes_of b) as Hb.
  { destruct (wt =? WIRE_LEN); [exact (read_len_bytes _ _ _ Hc Hr)|]. apply read_raw_field_split in Hr as ->. by apply Forall_app in Hc as [? _]. }
  by destruct b, slot; simplify_eq.
Qed.

Definition obytes (o : option bytes) : Prop := match o with Some b => all_bytes_of b | None => True end.

Lemma take_message_bytes c slot msg s c' :
  all_bytes_of c -> obytes slot -> take_message c slot msg = Ok (s, c') -> obytes s.
Proof.
  intros Hc Hs. unfold take_message. intros H. apply bind_ok in H as ([b c1] & Hr & H). apply lift_ok in Hr.
  apply read_len_bytes in Hr; [|done].
  destruct slot as [[|x slot]|]; [|destruct b|]; simplify_eq; done.
Qed.

Definition node_bytes (n : WireNode) : Prop :=
  all_bytes_of (wn_keys n) /\ all_bytes_of (wn_vals n) /\ obytes (wn_info n).
Definition way_bytes (w : WireWay) : Prop :=
  all_bytes_of (ww_keys w) /\ all_bytes_of (ww_vals w) /\ all_bytes_of (ww_refs w) /\
  all_bytes_of (ww_lat w) /\ all_bytes_of (ww_lon w) /\ obytes (ww_info w).
Definition relation_bytes (r : WireRelation) : Prop :=
  all_bytes_of (wr_keys r) /\ all_bytes_of (wr_vals r) /\ all_bytes_of (wr_roles r) /\
  all_bytes_of (wr_memids r) /\ all_bytes_of (wr_types r) /\ obytes (wr_info r).
Definition dense_bytes (d : WireDenseNodes) : Prop :=
  all_bytes_of (wd_id d) /\ all_bytes_of (wd_lat d) /\ all_bytes_of (wd_lon d) /\
  all_bytes_of (wd_keys_vals d) /\ obytes (wd_info d).
Definition dense_info_bytes (i : WireDenseInfo) : Prop :=
  all_bytes_of (wi_version i) /\ all_bytes_of (wi_timestamp i) /\ all_bytes_of (wi_changeset i) /\
  all_bytes_of (wi_uid i) /\ all_bytes_of (wi_user_sid i) /\ all_bytes_of (wi_visible i).

(** One arm of a step: only the slot it takes changes. *)
Ltac bytes_arm H :=
  repeat match type of H with (if ?b then _ else _) = _ => destruct b end;
  lazymatch type of H with
  | skip_arm _ _ _ = _ => unfold skip_arm in H; apply bind_ok in H as (? & _ & H)
  | _ => apply bind_ok in H as ([? ?] & ? & H)
  end;
  simplify_eq; unfold node_bytes, way_bytes, relation_bytes, dense_bytes, dense_info_bytes in *;
  cbn in *; destruct_and?; split_and?; try done;
  match goal with
  | Hc : all_bytes_of ?c, Ht : take_packed ?c _ _ _ = _ |- _ => refine (take_packed_bytes _ _ _ _ _ _ Hc _ Ht); done
  | Hc : all_bytes_of ?c, Ht : take_message ?c _ _ = _ |- _ => refine (take_message_bytes _ _ _ _ _ Hc _ Ht); done
  end.

Ltac bytes_parse step Hs :=
  intros Hb; apply (parse_inv step); [apply Hs|done| |repeat split; cbn; apply Forall_nil_2];
  intros [] f w c x' c' Hc HI H;
  cbv delta [WireNode_step WireWay_step WireRelation_step WireDenseNodes_step WireDenseInfo_step] in H;
  cbv beta iota in H; bytes_arm H.

Lemma WireNode_bytes data n : all_bytes_of data -> WireNode_parse data = Ok n -> node_bytes n.
Proof. bytes_parse WireNode_step WireNode_shrinks. Qed.
Lemma WireWay_bytes data n : all_bytes_of data -> WireWay_parse data = Ok n -> way_bytes n.
Proof. bytes_parse WireWay_step WireWay_shrinks. Qed.
Lemma WireRelation_bytes data n : all_bytes_of data -> WireRelation_parse data = Ok n -> relation_bytes n.
Proof. bytes_parse WireRelation_step WireRelation_shrinks. Qed.
Lemma WireDenseNodes_bytes data n : all_bytes_of data -> WireDenseNodes_parse data = Ok n -> dense_bytes n.
Proof. bytes_parse WireDenseNodes_step WireDenseNodes_shrinks. Qed.
Lemma WireDenseInfo_bytes data n : all_bytes_of data -> WireDenseInfo_parse data = Ok n -> dense_info_bytes n.
Proof. bytes_parse WireDenseInfo_step WireDenseInfo_shrinks. Qed.

(** ** What each check establishes *)

(** Both index arrays are read to the end, their values unaliased. *)
Definition tags_ok (keys vals : bytes) : Prop :=
  exists ks vs, reads_all keys ks /\ reads_all vals vs /\ Forall is_u32 ks /\ Forall is_u32 vs /\
    length ks = length vs /\ raw_tags keys vals = Some (zip ks vs).

Lemma packed_uint32_reads c vs : Forall is_u32 vs -> reads_all c vs -> packed_uint32 c = vs.
Proof.
  intros HF Hr. rewrite (reads_all_drains _ _ _ _ packed_uint32_drains Hr). clear Hr.
  induction HF as [|v vs Hv _ IH]; [done|]. cbn [fmap list_fmap]. rewrite IH, as_u_id by done. done.
Qed.

Lemma tag_arrays_ok keys vals msg :
  all_bytes_of keys -> all_bytes_of vals -> validate_tag_arrays keys vals msg = Ok tt <-> tags_ok keys vals.
Proof.
  intros Hk Hv. unfold validate_tag_arrays. split.
  - intros H. apply bbind_ok in H as (nk & Hnk%wire_ok & H). apply bbind_ok in H as (nv & Hnv%wire_ok & H).
    apply packed_uint32_count_ok in Hnk as (ks & Hks & Fk & ->); [|done].
    apply packed_uint32_count_ok in Hnv as (vs & Hvs & Fv & ->); [|done].
    destruct (Z.eqb_spec (Z.of_nat (length ks)) (Z.of_nat (length vs))); [|done].
    exists ks, vs. split_and!; [done..|lia|]. unfold raw_tags. rewrite (packed_uint32_reads _ _ Fk Hks), (packed_uint32_reads _ _ Fv Hvs).
    apply lockstep_zip. lia.
  - intros (ks & vs & Hks & Hvs & Fk & Fv & Hl & _).
    rewrite (proj2 (packed_uint32_count_ok keys (Z.of_nat (length ks)) Hk)) by eauto.
    rewrite (proj2 (packed_uint32_count_ok vals (Z.of_nat (length vs)) Hv)) by eauto.
    cbn. by rewrite Hl, Z.eqb_refl.
Qed.

Lemma info_ok o i : validate_info o = Ok i -> is_Some (validated_info o).
Proof.
  unfold validate_info, validated_info. destruct o as [d|]; [|eauto].
  intros H. apply bbind_ok in H as (x & Hx%wire_ok & _). rewrite Hx. by eexists.
Qed.

(** References read to the end; locations absent, or one per reference. *)
Definition way_arrays_ok (w : WayView) : Prop :=
  exists refs locs, reads_all (ww_refs (wv_way w)) refs /\
    length (delta_decoded (ww_refs (wv_way w))) = length refs /\
    node_locations w = Some locs /\ (locs = [] \/ length locs = length refs).

Lemma count_length c n :
  all_bytes_of c -> packed_varint_count c = Ok n ->
  exists vs, reads_all c vs /\ n = Z.of_nat (length vs) /\
    (forall A (it : bytes -> list A) narrow, drains it narrow -> length (it c) = length vs).
Proof.
  intros Hb (vs & Hr & ->)%packed_varint_count_ok; [|done]. exists vs. split_and!; [done|done|].
  intros A it narrow Hit. by rewrite (reads_all_drains _ _ _ _ Hit Hr), length_fmap.
Qed.

Lemma length_delta_decoded c : length (delta_decoded c) = length (packed_sint64 c).
Proof. apply length_delta_sums. Qed.

Lemma geometry_ok b way :
  way_bytes way -> validate_way_geometry_arrays way = Ok tt -> way_arrays_ok (mkWay b way).
Proof.
  intros (_ & _ & Hr & Hla & Hlo & _). unfold validate_way_geometry_arrays. intros H.
  apply bbind_ok in H as (nr & Hnr%wire_ok & H). apply bbind_ok in H as (na & Hna%wire_ok & H).
  apply bbind_ok in H as (no & Hno%wire_ok & H).
  apply count_length in Hnr as (refs & Hrefs & -> & Lr); [|done].
  apply count_length in Hna as (las & Hlas & -> & La); [|done].
  apply count_length in Hno as (los & Hlos & -> & Lo); [|done].
  specialize (Lr _ _ _ packed_sint64_drains). specialize (La _ _ _ packed_sint64_drains). specialize (Lo _ _ _ packed_sint64_drains).
  assert (length las = length los /\ (length las = 0%nat \/ length las = length refs)) as [E1 E2].
  { destruct (Z.eqb_spec (Z.of_nat (length las)) 0), (Z.eqb_spec (Z.of_nat (length los)) 0); cbn in H; try lia;
      destruct (Z.eqb_spec (Z.of_nat (length las)) (Z.of_nat (length los))); try done;
      destruct (Z.eqb_spec (Z.of_nat (length las)) (Z.of_nat (length refs))); try done; lia. }
  unfold way_arrays_ok, node_locations. cbn [wv_way wv_block].
  rewrite lockstep_zip by (rewrite !length_delta_decoded; lia).
  eexists refs, _. split_and!; [done|by rewrite length_delta_decoded|done|].
  rewrite length_fmap, length_zip_with, !length_delta_decoded, La, Lo, <- E1, Nat.min_id.
  destruct E2 as [E2|E2]; [left|right; lia]. apply nil_length_inv.
  rewrite length_fmap, length_zip_with, !length_delta_decoded, La, E2. done.
Qed.

(** All three member arrays are read to the end, one entry each per member. *)
Definition members_ok (r : WireRelation) : Prop :=
  exists roles ids types ms, reads_all (wr_roles r) roles /\ reads_all (wr_memids r) ids /\
    reads_all (wr_types r) types /\ rel_members r = Some ms /\
    length ms = length roles /\ length ids = length roles /\ length types = length roles.

Lemma member_arrays_ok rel :
  relation_bytes rel -> validate_relation_member_arrays rel = Ok tt -> members_ok rel.
Proof.
  intros (_ & _ & Hr & Hm & Ht & _). unfold validate_relation_member_arrays. intros H.
  apply bbind_ok in H as (nr & Hnr%wire_ok & H). apply bbind_ok in H as (nm & Hnm%wire_ok & H).
  apply bbind_ok in H as (nt & Hnt%wire_ok & H).
  apply count_length in Hnr as (roles & Hro & -> & Lr); [|done].
  apply count_length in Hnm as (ids & Hid & -> & Lm); [|done].
  apply count_length in Hnt as (types & Hty & -> & Lt); [|done].
  specialize (Lr _ _ _ packed_int32_drains). specialize (Lm _ _ _ packed_sint64_drains). specialize (Lt _ _ _ packed_int32_drains).
  assert (length ids = length roles /\ length types = length roles) as [E1 E2].
  { destruct (Z.eqb_spec (Z.of_nat (length roles)) (Z.of_nat (length ids))), (Z.eqb_spec (Z.of_nat (length roles)) (Z.of_nat (length types))); try done; lia. }
  unfold members_ok, rel_members, member_ids.
  rewrite lockstep_zip by (rewrite length_delta_decoded; lia).
  rewrite lockstep_zip by (rewrite length_fmap, length_zip_with, length_delta_decoded; lia).
  eexists roles, ids, types, _. split_and!; [done..| |done|done].
  rewrite length_zip_with, length_fmap, length_zip_with, length_delta_decoded. lia.
Qed.

(** ** Message iterators *)

Lemma msg_next_moves fuel target c b c' :
  msg_next fuel target c = Some (b, c') -> (length c' < length c)%nat /\ exists h, c = h ++ b ++ c'.
Proof.
  revert c. induction fuel as [|fuel IH]; intros c; [done|]. cbn [msg_next].
  destruct (read_tag c) as [[[[f w]|] c1]|e] eqn:Ht; [|done..]. apply read_tag_moves in Ht as [[h ->] Hlt].
  destruct (_ && _).
  - destruct (read_len_delimited c1) as [[b1 c2]|] eqn:Hr; [|done]. intros [= <- <-].
    apply read_len_delimited_split in Hr as [h2 ->]. rewrite !length_app in *. split; [lia|].
    exists (h ++ h2). by rewrite <- app_assoc.
  - destruct (skip_field w c1) as [c2|] eqn:Hsk; [|done]. intros Hm. apply skip_field_moves in Hsk as [h2 ->].
    apply IH in Hm as (Hl & h3 & ->). rewrite !length_app in *. split; [lia|]. exists (h ++ h2 ++ h3). by rewrite <- !app_assoc.
Qed.

Lemma msg_next_fuel n m target c :
  (length c < n)%nat -> (length c < m)%nat -> msg_next n target c = msg_next m target c.
Proof.
  revert m c. induction n as [|n IH]; intros [|m] c Hn Hm; [lia..|]. cbn [msg_next].
  destruct (read_tag c) as [[[[f w]|] c1]|e] eqn:Ht; [|done..]. apply read_tag_moves in Ht as [_ Hlt].
  destruct (_ && _); [done|]. destruct (skip_field w c1) as [c2|] eqn:Hsk; [|done].
  apply skip_field_moves, suffix_length in Hsk. apply IH; lia.
Qed.

Lemma messages_loop_fuel n m target c :
  (length c < n)%nat -> (length c < m)%nat -> messages_loop n target c = messages_loop m target c.
Proof.
  revert m c. induction n as [|n IH]; intros [|m] c Hn Hm; [lia..|]. cbn [messages_loop].
  destruct (msg_next (S (length c)) target c) as [[b c']|] eqn:Hx; [|done].
  apply msg_next_moves in Hx as [Hlt _]. f_equal. apply IH; lia.
Qed.

Lemma messages_unfold target c :
  messages target c = match message_next target c with Some (b, c') => b :: messages target c' | None => [] end.
Proof.
  unfold message_next. change (messages target c) with (messages_loop (S (length c)) target c).
  cbn [messages_loop]. destruct (msg_next (S (length c)) target c) as [[b c']|] eqn:Hx; [|done].
  apply msg_next_moves in Hx as [Hlt _]. f_equal. unfold messages. apply messages_loop_fuel; lia.
Qed.

Lemma messages_bytes target c : all_bytes_of c -> Forall (Forall is_byte) (messages target c).
Proof.
  remember (length c) as n eqn:Hn. revert c Hn. induction n as [n IH] using lt_wf_ind. intros c -> Hc.
  rewrite messages_unfold. destruct (message_next target c) as [[b c']|] eqn:Hx; [|constructor].
  apply msg_next_moves in Hx as (Hlt & h & ->). apply Forall_app in Hc as [_ Hc]. apply Forall_app in Hc as [Hb Hc].
  constructor; [done|]. by eapply IH.
Qed.

(** The messages of one field, collected by a fallible parse. *)
Definition collect_step (target : Z) (out : list bytes) (field wt : Z) (c : bytes)
  : result WireError (list bytes * bytes) :=
  if arm_len target field wt then '(b, c) ← lift (read_len_delimited c); Ok (out ++ [b], c)
  else skip_arm out wt c.

(** On framed bytes the iterator never meets the error it would hide. *)
Lemma framed_messages target data :
  parse frame_step tt data = Ok tt -> parse (collect_step target) [] data = Ok (messages target data).
Proof.
  unfold parse.
  assert (forall n c out, fields frame_step n tt c = Ok tt ->
    fields (collect_step target) n out c = Ok (out ++ messages target c)) as H; [|by apply H].
  induction n as [|n IH]; intros c out; cbn [fields]; rewrite messages_unfold; unfold message_next; cbn [msg_next].
  all: destruct (read_tag c) as [[[[f w]|] c1]|e] eqn:Ht; try done; try by (intros _; rewrite app_nil_r).
  intros H. apply bind_ok in H as ([[] c2] & Hs & H). unfold frame_step, skip_arm in Hs.
  apply bind_ok in Hs as (c3 & Hs%lift_ok & Heq). injection Heq as ->.
  assert (msg_next (length c) target c2 = msg_next (S (length c2)) target c2) as Hfuel.
  { apply read_tag_moves in Ht as [_ Ht]. apply skip_field_moves, suffix_length in Hs. apply msg_next_fuel; lia. }
  destruct ((f =? target) && (w =? WIRE_LEN)) eqn:Harm.
  - assert (w = WIRE_LEN) as -> by by apply andb_true_iff in Harm as [_ ?%Z.eqb_eq]. rewrite skip_len in Hs.
    destruct (read_len_delimited c1) as [[b c4]|] eqn:Hr; [|done]. injection Hs as ->.
    assert (collect_step target out f WIRE_LEN c1 = Ok (out ++ [b], c2)) as ->.
    { unfold collect_step, arm_len. by rewrite Harm, Hr. }
    cbn [mbind result_bind]. rewrite IH by done. by rewrite <- app_assoc.
  - assert (collect_step target out f w c1 = Ok (out, c2)) as ->.
    { unfold collect_step, arm_len, skip_arm. by rewrite Harm, Hs. }
    cbn [mbind result_bind]. rewrite IH, Hs, Hfuel by done. by rewrite messages_unfold.
Qed.

(** ** The validator's count and kinds *)

Definition element_ok (e : Element) : Prop :=
  match e with
  | ElNode n => tags_ok (wn_keys (nv_node n)) (wn_vals (nv_node n)) /\ is_Some (validated_info (wn_info (nv_node n)))
  | ElDenseNode d => is_Some (dense_raw_tags d)
  | ElWay w => tags_ok (ww_keys (wv_way w)) (ww_vals (wv_way w)) /\ is_Some (validated_info (ww_info (wv_way w))) /\
               way_arrays_ok w
  | ElRelation r => tags_ok (wr_keys (rv_rel r)) (wr_vals (rv_rel r)) /\
                    is_Some (validated_info (wr_info (rv_rel r))) /\ members_ok (rv_rel r)
  end.

(** From kinds [k0] and count [c0] to [k1] and [c1] by the elements [es]. *)
Definition adds (k0 k1 : KindSet) (c0 c1 : Z) (es : list Element) : Prop :=
  c1 = c0 + Z.of_nat (length es) /\ forall k, has k1 k = true <-> has k0 k = true \/ k ∈ element_kind <$> es.

Lemma adds_nil k c : adds k k c c [].
Proof. split; [cbn; lia|]. intros k'. cbn. set_solver. Qed.

Lemma adds_app k0 k1 k2 c0 c1 c2 e1 e2 : adds k0 k1 c0 c1 e1 -> adds k1 k2 c1 c2 e2 -> adds k0 k2 c0 c2 (e1 ++ e2).
Proof.
  intros [-> H1] [-> H2]. split; [rewrite length_app; lia|]. intros k.
  rewrite H2, H1, fmap_app, elem_of_app. tauto.
Qed.

Lemma adds_one s c e : adds s (add s (element_kind e)) c (c + 1) [e].
Proof.
  split; [done|]. intros k. rewrite has_add, orb_true_iff, bool_decide_eq_true. cbn. set_solver.
Qed.

Section Walks.
Context {A : Type} `{GroupProjection A} (b : WireBlock).

Abbreviation state := (WalkState (A := A)).
Definition grown (s s' : state) (es : list Element) : Prop :=
  adds (wk_kinds s) (wk_kinds s') (wk_count s) (wk_count s') es.

Lemma walk_grown {X} (f : state -> bytes -> result BlockError state) (view : bytes -> option X) (inj : X -> Element) l s s' :
  (forall s d s', all_bytes_of d -> f s d = Ok s' -> exists x, view d = Some x /\ element_ok (inj x) /\ grown s s' [inj x]) ->
  Forall (Forall is_byte) l -> walk f s l = Ok s' ->
  exists xs, mapM view l = Some xs /\ Forall element_ok (inj <$> xs) /\ grown s s' (inj <$> xs).
Proof.
  intros Hf Hl. revert s. induction Hl as [|d l Hd _ IH]; intros s; cbn [walk].
  { intros [= <-]. exists []. split_and!; [done|constructor|apply adds_nil]. }
  intros H1. apply bbind_ok in H1 as (s1 & Hs1 & H1). apply Hf in Hs1 as (x & Hv & Hx & Hg); [|done].
  apply IH in H1 as (xs & Hm & Hxs & Hgs). exists (x :: xs). cbn [mapM]. rewrite Hv, Hm.
  split_and!; [done|by constructor|]. by apply (adds_app _ _ _ _ _ _ [inj x] _ Hg Hgs).
Qed.

Lemma node_grown s d s' :
  all_bytes_of d -> validate_node s d = Ok s' ->
  exists x, mkNode b <$> validated (WireNode_parse d) = Some x /\ element_ok (ElNode x) /\ grown s s' [ElNode x].
Proof.
  intros Hb H1. unfold validate_node in H1. apply bbind_ok in H1 as (n & Hn%wire_ok & H1).
  apply bbind_ok in H1 as (i & Hi & H1). apply bbind_ok in H1 as ([] & Ht & H1). injection H1 as <-.
  destruct (WireNode_bytes _ _ Hb Hn) as (Hk & Hv & _). rewrite Hn. exists (mkNode b n).
  split_and!; [done| |exact (adds_one _ _ (ElNode (mkNode b n)))]. split; cbn.
  - by apply (tag_arrays_ok _ _ _ Hk Hv) in Ht.
  - by eapply info_ok.
Qed.

Lemma way_grown s d s' :
  all_bytes_of d -> validate_way s d = Ok s' ->
  exists x, mkWay b <$> validated (WireWay_parse d) = Some x /\ element_ok (ElWay x) /\ grown s s' [ElWay x].
Proof.
  intros Hb H1. unfold validate_way in H1. apply bbind_ok in H1 as (n & Hn%wire_ok & H1).
  apply bbind_ok in H1 as (i & Hi & H1). apply bbind_ok in H1 as ([] & Ht & H1).
  apply bbind_ok in H1 as ([] & Hg & H1). injection H1 as <-.
  pose proof (WireWay_bytes _ _ Hb Hn) as Hw. pose proof Hw as (Hk & Hv & _). rewrite Hn. exists (mkWay b n).
  split_and!; [done| |exact (adds_one _ _ (ElWay (mkWay b n)))]. split_and!; cbn.
  - by apply (tag_arrays_ok _ _ _ Hk Hv) in Ht.
  - by eapply info_ok.
  - by apply geometry_ok.
Qed.

Lemma relation_grown s d s' :
  all_bytes_of d -> validate_relation s d = Ok s' ->
  exists x, mkRelation b <$> validated (WireRelation_parse d) = Some x /\ element_ok (ElRelation x) /\ grown s s' [ElRelation x].
Proof.
  intros Hb H1. unfold validate_relation in H1. apply bbind_ok in H1 as (n & Hn%wire_ok & H1).
  apply bbind_ok in H1 as (i & Hi & H1). apply bbind_ok in H1 as ([] & Ht & H1).
  apply bbind_ok in H1 as ([] & Hg & H1). injection H1 as <-.
  pose proof (WireRelation_bytes _ _ Hb Hn) as Hw. pose proof Hw as (Hk & Hv & _). rewrite Hn. exists (mkRelation b n).
  split_and!; [done| |exact (adds_one _ _ (ElRelation (mkRelation b n)))]. split_and!; cbn.
  - by apply (tag_arrays_ok _ _ _ Hk Hv) in Ht.
  - by eapply info_ok.
  - by apply member_arrays_ok.
Qed.

(** A dense message adds one node per id. *)
Lemma dense_grown s d s' :
  all_bytes_of d -> validate_dense s d = Ok s' ->
  exists w n, WireDenseNodes_parse d = Ok w /\ dense_valid w n /\
    forall ns, length ns = n -> grown s s' (ElDenseNode <$> ns).
Proof.
  intros Hb H1. unfold validate_dense in H1. apply bbind_ok in H1 as (w & Hw%wire_ok & H1).
  destruct (WireDenseNodes_bytes _ _ Hb Hw) as (Bi & Bla & Blo & Bkv & Binf).
  apply bbind_ok in H1 as (ni & Hi%wire_ok & H1). apply bbind_ok in H1 as (nla & Hla%wire_ok & H1).
  apply bbind_ok in H1 as (nlo & Hlo%wire_ok & H1).
  apply count_length in Hi as (ids & Ri & -> & Li); [|done].
  apply count_length in Hla as (las & Rla & -> & Lla); [|done].
  apply count_length in Hlo as (los & Rlo & -> & Llo); [|done].
  specialize (Li _ _ _ packed_sint64_drains). specialize (Lla _ _ _ packed_sint64_drains). specialize (Llo _ _ _ packed_sint64_drains).
  destruct (Z.eqb_spec (Z.of_nat (length ids)) (Z.of_nat (length las))) as [E1|]; [|done].
  destruct (Z.eqb_spec (Z.of_nat (length ids)) (Z.of_nat (length los))) as [E2|]; [|done]. cbn [negb orb] in H1.
  apply bbind_ok in H1 as ([] & Hkv & H1). apply bbind_ok in H1 as (info & Hinfo & H1). injection H1 as <-.
  exists w, (length ids). split_and!; [done| |].
  - split_and!; [lia..| | |by exists ids|by exists las|by exists los].
    + apply validate_keys_vals_ok in Hkv as [->|(rs & Hrs & Hn)]; [| |done|lia].
      * exists (replicate (length ids) []). split; [left; split; [done|by apply Forall_replicate]|by rewrite length_replicate].
      * exists rs. split; [by right|lia].
    + destruct (wd_info w) as [idata|]; [|done]. apply bbind_ok in Hinfo as (x & Hx%wire_ok & _). rewrite Hx. by eexists.
  - intros ns <-. unfold grown. cbn [wk_kinds wk_count]. split; [by rewrite length_fmap|]. intros k.
    destruct ns as [|n ns]; cbn [length]; [cbn; set_solver|]. rewrite (proj2 (Z.ltb_lt 0 _)) by lia.
    rewrite has_add, orb_true_iff, bool_decide_eq_true. cbn. rewrite elem_of_cons, <- list_fmap_compose, list_elem_of_fmap.
    cbn. naive_solver.
Qed.

End Walks.
End Slices.

(** ** Projections ride on one validator

    A reader that needs less than a block passes its own projection to the
    validator.  Whatever a projection computes, the verdict, the error and what
    the scan found are those of block construction, and two projections run
    together compute what each computes alone. *)


Section Sim.
Context {P : Protohoggr}.

(** Equal errors, related results. *)
Definition res_sim {A B E} (R : A -> B -> Prop) (r : result E A) (r' : result E B) : Prop :=
  match r, r' with Ok a, Ok b => R a b | Err e, Err e' => e = e' | _, _ => False end.

Lemma res_sim_same {A A' C E} (R : A -> A' -> Prop) (m : result E C) (f : C -> result E A) (g : C -> result E A') :
  (forall c, res_sim R (f c) (g c)) -> res_sim R (m ≫= f) (m ≫= g).
Proof. intros H. destruct m; cbn; [apply H|done]. Qed.

Lemma res_sim_bind {A A' C C' E} (Q : C -> C' -> Prop) (R : A -> A' -> Prop) (m : result E C) (m' : result E C') f g :
  res_sim Q m m' -> (forall c c', Q c c' -> res_sim R (f c) (g c')) -> res_sim R (m ≫= f) (m' ≫= g).
Proof. intros Hm Hf. destruct m, m'; cbn in *; try done. by apply Hf. Qed.

Section Hooks.
Context {A B : Type} `{GroupProjection A, GroupProjection B} (R : A -> B -> Prop).

(** [R] relates two projections that are handed the same pieces. *)
Record hooks_sim : Prop := {
  sim_begin a b : R a b -> R (group_begin a) (group_begin b);
  sim_node a b n i : R a b -> R (on_node a n i) (on_node b n i);
  sim_way a b n i : R a b -> R (on_way a n i) (on_way b n i);
  sim_relation a b n i : R a b -> R (on_relation a n i) (on_relation b n i);
  sim_dense a b d n i : R a b -> R (on_dense a d n i) (on_dense b d n i);
  sim_end a b k : R a b -> R (group_end a k) (group_end b k);
}.

Context (HR : hooks_sim).

Definition walk_rel (s : WalkState (A := A)) (t : WalkState (A := B)) : Prop :=
  wk_kinds s = wk_kinds t /\ wk_count s = wk_count t /\ R (wk_proj s) (wk_proj t).

Lemma walk_sim {C S T} (Q : S -> T -> Prop) (f : S -> C -> result BlockError S) (g : T -> C -> result BlockError T) l s t :
  (forall s t x, Q s t -> res_sim Q (f s x) (g t x)) -> Q s t -> res_sim Q (walk f s l) (walk g t l).
Proof.
  intros Hf. revert s t. induction l as [|x l IH]; intros s t Hst; cbn [walk]; [done|].
  eapply res_sim_bind; [by apply Hf|]. intros s' t' Hst'. by apply IH.
Qed.

Ltac hook l := intros (Hk & Hc & Hp); unfold l; rewrite Hk, Hc;
  repeat (apply res_sim_same; intros ?);
  split_and!; cbn [wk_kinds wk_count wk_proj]; [done|done|].

Lemma validate_node_sim s t e : walk_rel s t -> res_sim walk_rel (validate_node s e) (validate_node t e).
Proof. hook @validate_node. by apply sim_node. Qed.
Lemma validate_way_sim s t e : walk_rel s t -> res_sim walk_rel (validate_way s e) (validate_way t e).
Proof. hook @validate_way. by apply sim_way. Qed.
Lemma validate_relation_sim s t e : walk_rel s t -> res_sim walk_rel (validate_relation s e) (validate_relation t e).
Proof. hook @validate_relation. by apply sim_relation. Qed.

Lemma validate_dense_sim s t e : walk_rel s t -> res_sim walk_rel (validate_dense s e) (validate_dense t e).
Proof.
  intros (Hk & Hc & Hp). unfold validate_dense. rewrite Hk, Hc.
  do 4 (apply res_sim_same; intros ?). destruct (_ || _); [done|].
  do 2 (apply res_sim_same; intros ?). split_and!; cbn [wk_kinds wk_count wk_proj]; [done|done|].
  by apply sim_dense.
Qed.

Definition group_rel (s : KindSet * Z * A) (t : KindSet * Z * B) : Prop := s.1 = t.1 /\ R s.2 t.2.

Lemma validate_group_sim s t data : group_rel s t -> res_sim group_rel (validate_group s data) (validate_group t data).
Proof.
  destruct s as [[k c] a], t as [[k' c'] b]. unfold group_rel. cbn [fst snd]. intros [[= -> ->] Hab].
  unfold validate_group. apply res_sim_same. intros _.
  eapply res_sim_bind; [apply walk_sim; [apply validate_node_sim|]|intros s t Hst].
  { split_and!; [done|done|by apply sim_begin]. }
  eapply res_sim_bind; [apply walk_sim; [apply validate_way_sim|exact Hst]|clear s t Hst; intros s t Hst].
  eapply res_sim_bind; [apply walk_sim; [apply validate_relation_sim|exact Hst]|clear s t Hst; intros s t Hst].
  apply res_sim_same. intros d. apply (res_sim_bind walk_rel).
  - destruct d; [by apply validate_dense_sim|done].
  - intros s' t' (-> & -> & Hp). split; [done|by apply sim_end].
Qed.

Lemma validate_block_sim buffer make make' :
  (forall f st, R (make f st) (make' f st)) ->
  res_sim (fun x y => x.1.2 = y.1.2 /\ x.2 = y.2 /\ R x.1.1 y.1.1) (validate_block buffer make) (validate_block buffer make').
Proof.
  intros Hmake. unfold validate_block. apply res_sim_same. intros [[f st] gr].
  apply (res_sim_bind group_rel).
  - apply walk_sim; [|split; [done|apply Hmake]]. intros s t i Hst. apply res_sim_same. intros data. by apply validate_group_sim.
  - intros [[k c] a] [[k' c'] b] [[= -> ->] Hab]. by apply res_sim_same.
Qed.

End Hooks.

Lemma sim_any {A} `{GroupProjection A} : hooks_sim (fun (_ : A) (_ : unit) => True).
Proof. by split. Qed.

Lemma sim_fst {A B} `{GroupProjection A, GroupProjection B} : hooks_sim (fun (p : A * B) (a : A) => p.1 = a).
Proof. split; intros [] ?; cbn; intros; by subst. Qed.

Lemma sim_snd {A B} `{GroupProjection A, GroupProjection B} : hooks_sim (fun (p : A * B) (b : B) => p.2 = b).
Proof. split; intros [] ?; cbn; intros; by subst. Qed.

Lemma sim_some {A} `{GroupProjection A} : hooks_sim (fun (o : option A) (a : A) => o = Some a).
Proof. split; intros; by subst. Qed.

(** Every projection sees the verdict of block construction: with any
    projection the validator accepts the same blocks, refuses the others with
    the same error, and reports the same kinds, count and tables; two
    projections riding together compute what each computes alone, and an
    optional projection is skipped or run as it is. *)
Theorem projections_ride {A B} `{GroupProjection A, GroupProjection B} (buffer : bytes)
    (ma : BlockFields -> list (Z * Z) -> A) (mb : BlockFields -> list (Z * Z) -> B) :
  res_sim (fun x y => x.1.2 = y.1.2 /\ x.2 = y.2)
    (validate_block buffer ma) (validate_block (A := unit) buffer (fun _ _ => tt)) /\
  match validate_block buffer (fun f st => (ma f st, mb f st)) with
  | Ok ((a, b), scan, tables) =>
      validate_block buffer ma = Ok (a, scan, tables) /\ validate_block buffer mb = Ok (b, scan, tables) /\
      validate_block buffer (fun f st => Some (ma f st)) = Ok (Some a, scan, tables)
  | Err e => validate_block buffer ma = Err e /\ validate_block buffer mb = Err e
  end.
Proof.
  split.
  - pose proof (validate_block_sim _ sim_any buffer ma (fun _ _ => tt) (fun _ _ => I)) as H1.
    destruct (validate_block buffer ma), (validate_block buffer (fun _ _ => ())); cbn in *; naive_solver.
  - pose proof (validate_block_sim _ sim_fst buffer (fun f st => (ma f st, mb f st)) ma (fun _ _ => eq_refl)) as H1.
    pose proof (validate_block_sim _ sim_snd buffer (fun f st => (ma f st, mb f st)) mb (fun _ _ => eq_refl)) as H2.
    pose proof (validate_block_sim _ sim_some buffer (fun f st => Some (ma f st)) ma (fun _ _ => eq_refl)) as H3.
    destruct (validate_block buffer (fun f st => (ma f st, mb f st))) as [[[[a b] scan] tables]|e].
    + destruct (validate_block buffer ma) as [[[? ?] ?]|], (validate_block buffer mb) as [[[? ?] ?]|],
        (validate_block buffer (fun f st => Some (ma f st))) as [[[? ?] ?]|]; cbn in *; naive_solver.
    + destruct (validate_block buffer ma), (validate_block buffer mb); cbn in *; naive_solver.
Qed.

End Sim.
