(* ===== verification/BlockValid.v ===== *)
(** * The construction invariant, end to end (src/src/read/block.rs)

    From the validator's verdict on a buffer to the elements the iterators of
    the constructed block yield. *)

From S2P Require Import Prelude ElementKind Proto Wire WireBlock Encode Dense PackedCount Utf8 Block BlockWalk.

Section Groups.
Context `{L : ProtohoggrLaws}.

(** The dense iterator of one group, as the element iterator opens it. *)
Definition open_dense (b : WireBlock) (skip : bool) (data : bytes) : option DenseNodeIter :=
  d ← validated_dense data;
  match d with
  | Some w => if skip then Some (dense_skip_metadata b w) else DenseNodeIter_new (framing b) w
  | None => Some (dense_empty b)
  end.

(** One group's elements in iteration order. *)
Definition group_elements (b : WireBlock) (skip : bool) (data : bytes) : option (list Element) :=
  it ← open_dense b skip data;
  dense ← dense_nodes it;
  nodes ← group_nodes b data;
  ways ← group_ways b data;
  rels ← group_relations b data;
  Some ((ElDenseNode <$> dense) ++ (ElNode <$> nodes) ++ (ElWay <$> ways) ++ (ElRelation <$> rels)).

(** ** A validated group *)

Lemma has_union s t k : has (union s t) k = has s k || has t k.
Proof. rewrite !has_testbit. unfold union. cbn. by rewrite Z.lor_spec. Qed.

Lemma adds_union k0 k1 k c c' es : adds KindSet_default k1 c c' es -> k0 = k -> adds k (union k0 k1) c c' es.
Proof.
  intros [-> Ha] ->. split; [done|]. intros j. rewrite has_union, orb_true_iff, Ha.
  assert (has KindSet_default j <> true) by by destruct j. tauto.
Qed.

Lemma adds_perm k k' c c' es es' : es ≡ₚ es' -> adds k k' c c' es -> adds k k' c c' es'.
Proof. intros HP [-> Ha]. split; [by rewrite HP|]. intros j. by rewrite Ha, HP. Qed.

(** The nodes of a block carry its granularity and offsets. *)
Definition framed_in (f : BlockFields) (n : DenseNode) : Prop :=
  dn_granularity n = granularity f /\ dn_lat_offset n = lat_offset f /\ dn_lon_offset n = lon_offset f.

Lemma dense_drain_framed f fuel : forall it ns,
  dit_granularity it = granularity f -> dit_lat_offset it = lat_offset f -> dit_lon_offset it = lon_offset f ->
  dense_drain fuel it = Some ns -> Forall (framed_in f) ns.
Proof.
  induction fuel as [|fuel IH]; intros it ns Hg Hla Hlo; [done|]. cbn [dense_drain].
  destruct (dense_next it) as [[o it']|] eqn:Hn; cbn [mbind option_bind]; [|done].
  destruct it as [dids cid dlats clat dlons clon kv pos info g lo no]. cbn in Hg, Hla, Hlo. subst.
  unfold dense_next in Hn. destruct (advance_info info) as [i info'].
  destruct dids as [|? ?], dlats as [|? ?], dlons as [|? ?]; try done.
  { injection Hn as <- <-. intros [= <-]. constructor. }
  destruct (slice kv pos (length kv)) as [r|]; cbn [mbind option_bind] in Hn; [|done].
  destruct (kv_scan (length r) r pos pos) as [[pos' te]|]; cbn [mbind option_bind] in Hn; [|done].
  destruct (slice kv pos te) as [tb|]; cbn [mbind option_bind] in Hn; [|done]. injection Hn as <- <-.
  destruct (dense_drain fuel _) as [ns'|] eqn:Hd; cbn [mbind option_bind]; [|done]. intros [= <-].
  constructor; [done|]. by eapply IH, Hd.
Qed.

(** A dense iterator over a valid message drains, with or without metadata. *)
Lemma open_dense_valid b skip data d w n :
  WireGroup_dense data = Ok (Some d) -> WireDenseNodes_parse d = Ok w -> dense_valid w n ->
  exists it ns rs, open_dense b skip data = Some it /\ dense_nodes it = Some ns /\ length ns = n /\
    dn_id <$> ns = delta_decoded (wd_id w) /\ kv_tail (wd_keys_vals w) rs /\ dense_raw_tags <$> ns = Some <$> rs /\
    dn_lat <$> ns = delta_decoded (wd_lat w) /\ dn_lon <$> ns = delta_decoded (wd_lon w) /\
    Forall (framed_in (wb_fields b)) ns.
Proof.
  intros Hd Hw Hv. unfold open_dense, validated_dense. rewrite Hd, Hw. cbn [mbind option_bind].
  assert (exists info, (if skip then Some (dense_skip_metadata b w) else DenseNodeIter_new (framing b) w) =
    Some (mkNodeIter (packed_sint64 (wd_id w)) 0 (packed_sint64 (wd_lat w)) 0 (packed_sint64 (wd_lon w)) 0
      (wd_keys_vals w) 0 info (granularity (wb_fields b)) (lat_offset (wb_fields b)) (lon_offset (wb_fields b)))) as (info & ->).
  { destruct skip; [by exists None|]. unfold DenseNodeIter_new, framing, framing_of. cbn.
    destruct Hv as (_ & _ & _ & _ & Hi & _). destruct (wd_info w) as [i|]; [|by exists None].
    destruct (WireDenseInfo_parse i); [by eexists|]. by destruct Hi. }
  destruct (dense_nodes_of w n info (granularity (wb_fields b)) (lat_offset (wb_fields b)) (lon_offset (wb_fields b)) Hv)
    as (ns & rs & Hns & Hlen & Hid & Hlat & Hlon & Hkv & Hraw).
  eexists _, ns, rs. split_and!; try done. by eapply dense_drain_framed, Hns.
Qed.

Lemma raw_tags_ok ns rs : dense_raw_tags <$> ns = Some <$> rs -> Forall element_ok (ElDenseNode <$> ns).
Proof.
  intros H. apply Forall_fmap, Forall_forall. intros d Hd. cbn.
  assert (dense_raw_tags d ∈ Some <$> rs) as Hin by (rewrite <- H; by apply list_elem_of_fmap_2).
  apply list_elem_of_fmap_1 in Hin as (r & -> & _). by eexists.
Qed.

Context {A : Type} `{GroupProjection A}.

(** The accepted pieces of one group, as the walks leave them. *)
Lemma validate_group_pieces (k : KindSet) c (p : A) k' c' p' data b :
  Forall is_byte data -> validate_group (k, c, p) data = Ok (k', c', p') ->
  exists ns ws rs, group_nodes b data = Some ns /\ group_ways b data = Some ws /\ group_relations b data = Some rs /\
    Forall element_ok ((ElNode <$> ns) ++ (ElWay <$> ws) ++ (ElRelation <$> rs)) /\
    parse frame_step tt data = Ok tt /\
    ((validated_dense data = Some None /\ adds k k' c c' ((ElNode <$> ns) ++ (ElWay <$> ws) ++ (ElRelation <$> rs))) \/
     exists d w n, WireGroup_dense data = Ok (Some d) /\ WireDenseNodes_parse d = Ok w /\ dense_valid w n /\
       forall ds, length ds = n ->
         adds k k' c c' ((ElNode <$> ns) ++ (ElWay <$> ws) ++ (ElRelation <$> rs) ++ (ElDenseNode <$> ds))).
Proof.
  intros Hb HV. unfold validate_group in HV. apply bbind_ok in HV as ([] & Hf%wire_ok & HV).
  apply bbind_ok in HV as (s1 & H1 & HV). apply bbind_ok in HV as (s2 & H2 & HV).
  apply bbind_ok in HV as (s3 & H3 & HV). apply bbind_ok in HV as (dd & Hdd%wire_ok & HV).
  apply bbind_ok in HV as (s4 & H4 & HV). injection HV as <- <- _.
  eapply walk_grown in H1 as (ns & Mn & On & Gn); [|apply node_grown|by apply messages_bytes].
  eapply walk_grown in H2 as (ws & Mw & Ow & Gw); [|apply way_grown|by apply messages_bytes].
  eapply walk_grown in H3 as (rs & Mr & Or & Gr); [|apply relation_grown|by apply messages_bytes].
  exists ns, ws, rs. split_and!; [done|done|done|by rewrite !Forall_app|done|].
  pose proof (adds_app _ _ _ _ _ _ _ _ Gn (adds_app _ _ _ _ _ _ _ _ Gw Gr)) as Hall.
  cbn [wk_kinds wk_count] in Hall. destruct dd as [d|].
  - right. assert (Forall is_byte d) as Hbd.
    { assert (obytes (Some d)) as Ho; [|exact Ho].
      eapply (parse_inv dense_step obytes None data (Some d)); [apply dense_shrinks|exact Hb| |done|done].
      intros x f w c0 x' c1 Hc0 Hx Hs. unfold dense_step in Hs. destruct (arm_len 2 f w).
      - destruct x; [done|]. apply bind_ok in Hs as ([b0 c2] & Hr%lift_ok & Heq). simplify_eq. exact (read_len_bytes _ _ _ Hc0 Hr).
      - unfold skip_arm in Hs. apply bind_ok in Hs as (c2 & _ & Heq). by simplify_eq. }
    apply dense_grown in H4 as (w & n & Hw & Hv & Hg); [|done].
    exists d, w, n. split_and!; [done..|]. intros ds Hds. apply adds_union; [|done].
    pose proof (adds_app _ _ _ _ _ _ _ _ Hall (Hg ds Hds)) as Hx. by rewrite <- !app_assoc in Hx.
  - left. injection H4 as <-. split; [unfold validated_dense; by rewrite Hdd|]. by apply adds_union.
Qed.

(** Both walks of a validated group succeed, on the same elements. *)
Lemma validated_group (k : KindSet) c (p : A) k' c' p' data b skip :
  Forall is_byte data -> validate_group (k, c, p) data = Ok (k', c', p') ->
  exists es, group_elements b skip data = Some es /\ Forall element_ok es /\ adds k k' c c' es.
Proof.
  intros Hb HV. apply (validate_group_pieces _ _ _ _ _ _ _ b) in HV as (ns & ws & rs & Mn & Mw & Mr & Hok & _ & HD); [|done].
  unfold group_elements. destruct HD as [[Hnone Ha]|(d & w & n & Hd & Hw & Hv & Ha)].
  - unfold open_dense. rewrite Hnone. cbn [mbind option_bind]. change (dense_nodes (dense_empty b)) with (Some (@nil DenseNode)).
    cbn [mbind option_bind]. rewrite Mn, Mw, Mr. cbn [mbind option_bind fmap list_fmap app]. eauto.
  - destruct (open_dense_valid b skip data d w n Hd Hw Hv) as (it & ds & runs & -> & Hds & Hlen & _ & _ & Hraw & _).
    cbn [mbind option_bind]. rewrite Hds, Mn, Mw, Mr. cbn [mbind option_bind]. eexists. split; [done|]. split.
    + apply Forall_app. split; [by eapply raw_tags_ok|done].
    + specialize (Ha ds Hlen). revert Ha. apply adds_perm. rewrite (Permutation_app_comm (ElDenseNode <$> ds)).
      by rewrite <- !app_assoc.
Qed.

End Groups.

(** ** The element iterator, phase by phase *)

Section Iterator.
Context `{L : ProtohoggrLaws} (b : WireBlock) (n : nat) (skip : bool).

(** [fuel] more steps after [es] have been yielded. *)
Definition then_drain (es : list Element) (o : option (list Element)) : option (list Element) := (es ++.) <$> o.

Lemma then_drain_nil o : then_drain [] o = o.
Proof. by destruct o. Qed.

Lemma then_drain_app e1 e2 o : then_drain e1 (then_drain e2 o) = then_drain (e1 ++ e2) o.
Proof. destruct o; [|done]. cbn. by rewrite app_assoc. Qed.

Lemma then_drain_cons e es o : (x ← then_drain es o; Some (e :: x)) = then_drain (e :: es) o.
Proof. by destruct o. Qed.

Lemma phase_dense k i dense ns nodes ways rels :
  dense_drain k dense = Some ns ->
  exists dense', forall fuel,
    elements_drain (S (length ns) + fuel) (mkElementsIter b StDenseNode i n dense nodes ways rels skip) =
    then_drain (ElDenseNode <$> ns) (elements_drain fuel (mkElementsIter b StNode i n dense' nodes ways rels skip)).
Proof.
  revert dense ns. induction k as [|k IH]; intros dense ns; [done|]. cbn [dense_drain].
  destruct (dense_next dense) as [[[x|] dense1]|] eqn:Hx; cbn [mbind option_bind]; [| |done].
  - destruct (dense_drain k dense1) as [ns1|] eqn:Hd; [|done]. intros [= <-].
    destruct (IH _ _ Hd) as [dense' Hall]. exists dense'. intros fuel. specialize (Hall fuel).
    cbn [length Nat.add]. remember (S (length ns1 + fuel)) as m eqn:Hm. cbn [elements_drain elements_step].
    rewrite Hx. cbn [mbind option_bind]. subst m. cbn [Nat.add] in Hall. rewrite Hall, then_drain_cons. done.
  - intros [= <-]. exists dense1. intros fuel. cbn [length Nat.add elements_drain elements_step]. rewrite Hx.
    cbn [mbind option_bind]. by rewrite then_drain_nil.
Qed.

(** One phase over the messages of a field. *)
Lemma phase_messages {X} target (view : bytes -> option X) inj (here next : bytes -> BlockElementsIter) c xs :
  (forall c, elements_step (here c) =
     match message_next target c with
     | Some (d, c') => x ← view d; Some (Yield (inj x), here c')
     | None => Some (Continue, next c)
     end) ->
  mapM view (messages target c) = Some xs ->
  exists c', forall fuel,
    elements_drain (S (length xs) + fuel) (here c) = then_drain (inj <$> xs) (elements_drain fuel (next c')).
Proof.
  intros Hstep. remember (length c) as m0 eqn:Hm0. revert c Hm0 xs. induction m0 as [m0 IH] using lt_wf_ind.
  intros c -> xs. rewrite messages_unfold. specialize (Hstep c) as Hc.
  destruct (message_next target c) as [[d c1]|] eqn:Hx.
  - cbn [mapM]. destruct (view d) as [x|] eqn:Hv; cbn [mbind option_bind] in *; [|done].
    destruct (mapM view (messages target c1)) as [xs1|] eqn:Hrest; [|done]. intros [= <-].
    destruct (msg_next_moves _ _ _ _ _ Hx) as [Hlt _]. destruct (IH (length c1) Hlt c1 eq_refl xs1 Hrest) as [c' Hall].
    exists c'. intros fuel. specialize (Hall fuel). cbn [length Nat.add] in *. remember (S (length xs1 + fuel)) as m eqn:Em.
    cbn [elements_drain]. rewrite Hc. cbn [mbind option_bind]. by rewrite Hall, then_drain_cons.
  - intros [= <-]. exists c. intros fuel. cbn [length Nat.add elements_drain]. rewrite Hc. cbn [mbind option_bind].
    by rewrite then_drain_nil.
Qed.

Ltac step_of_view := intros c0; cbn [elements_step]; destruct (message_next _ c0) as [[? ?]|]; [|done];
  match goal with |- context [validated ?p] => by destruct (validated p) end.

(** A whole group: five steps and one per element. *)
Lemma phase_group i data es dense nodes ways rels :
  (i < n)%nat -> group b i = Some data -> group_elements b skip data = Some es ->
  exists dense' nodes' ways' rels', forall fuel,
    elements_drain (5 + length es + fuel) (mkElementsIter b StGroup i n dense nodes ways rels skip) =
    then_drain es (elements_drain fuel (mkElementsIter b StGroup (S i) n dense' nodes' ways' rels' skip)).
Proof.
  intros Hi Hg He. unfold group_elements in He.
  destruct (open_dense b skip data) as [it|] eqn:Ho; [|done]. cbn [mbind option_bind] in He.
  destruct (dense_nodes it) as [ds|] eqn:Hd; [|done]. cbn [mbind option_bind] in He.
  destruct (group_nodes b data) as [ns|] eqn:Hn; [|done]. cbn [mbind option_bind] in He.
  destruct (group_ways b data) as [ws|] eqn:Hw; [|done]. cbn [mbind option_bind] in He.
  destruct (group_relations b data) as [rs|] eqn:Hr; [|done]. injection He as <-.
  destruct (phase_dense _ (S i) it ds data data data Hd) as [d' P1].
  destruct (phase_messages 1 (fun d => mkNode b <$> validated (WireNode_parse d)) ElNode
    (fun c => mkElementsIter b StNode (S i) n d' c data data skip)
    (fun c => mkElementsIter b StWay (S i) n d' c data data skip) data ns ltac:(step_of_view) Hn) as [n' P2].
  destruct (phase_messages 3 (fun d => mkWay b <$> validated (WireWay_parse d)) ElWay
    (fun c => mkElementsIter b StWay (S i) n d' n' c data skip)
    (fun c => mkElementsIter b StRelation (S i) n d' n' c data skip) data ws ltac:(step_of_view) Hw) as [w' P3].
  destruct (phase_messages 4 (fun d => mkRelation b <$> validated (WireRelation_parse d)) ElRelation
    (fun c => mkElementsIter b StRelation (S i) n d' n' w' c skip)
    (fun c => mkElementsIter b StGroup (S i) n d' n' w' c skip) data rs ltac:(step_of_view) Hr) as [r' P4].
  cbv beta in P2, P3, P4.
  exists d', n', w', r'. intros fuel. rewrite !length_app, !length_fmap.
  replace (5 + (length ds + (length ns + (length ws + length rs))) + fuel)%nat
    with (S (S (length ds) + (S (length ns) + (S (length ws) + (S (length rs) + fuel))))) by lia.
  cbn [elements_drain]. cbn [elements_step]. rewrite (proj2 (Nat.leb_gt n i)), Hg by lia. cbn [mbind option_bind].
  unfold open_dense in Ho. destruct (validated_dense data) as [o|]; [|done]. cbn [mbind option_bind] in Ho |- *.
  rewrite Ho. cbn [mbind option_bind]. by rewrite P1, P2, P3, P4, !then_drain_app, <- !app_assoc.
Qed.

(** All groups from [i] on. *)
Lemma phase_groups gs els i dense nodes ways rels :
  (i + length gs = n)%nat -> (forall j g, gs !! j = Some g -> group b (i + j) = Some g) ->
  mapM (group_elements b skip) gs = Some els ->
  exists need, forall fuel, (need <= fuel)%nat ->
    elements_drain fuel (mkElementsIter b StGroup i n dense nodes ways rels skip) = Some (concat els).
Proof.
  revert els i dense nodes ways rels. induction gs as [|g gs IH]; intros els i dense nodes ways rels Hn Hg Hm.
  - injection Hm as <-. exists 1%nat. intros [|fuel] Hf; [lia|]. cbn in *. by rewrite (proj2 (Nat.leb_le n i)) by lia.
  - cbn [mapM] in Hm. destruct (group_elements b skip g) as [es|] eqn:He; [|done]. cbn [mbind option_bind] in Hm.
    destruct (mapM (group_elements b skip) gs) as [els'|] eqn:Hrest; [|done]. injection Hm as <-.
    cbn [length] in Hn. pose proof (Hg 0%nat g eq_refl) as H0. rewrite Nat.add_0_r in H0.
    destruct (phase_group i g es dense nodes ways rels ltac:(lia) H0 He) as (d & a & w & r & Hp).
    destruct (IH els' (S i) d a w r ltac:(lia)) as [need Hneed]; [|done|].
    { intros j g' Hj. specialize (Hg (S j) g' Hj). by replace (S i + j)%nat with (i + S j)%nat by lia. }
    exists (5 + length es + need)%nat. intros fuel Hf.
    replace fuel with (5 + length es + (fuel - (5 + length es)))%nat by lia.
    rewrite Hp, Hneed by lia. done.
Qed.

End Iterator.

(** ** The whole block *)

Section Whole.
Context `{L : ProtohoggrLaws}.

(** Indexing the groups one by one is walking their list. *)
Lemma walk_indices {S} (f : S -> bytes -> result BlockError S) (group : nat -> option bytes) gs i s :
  (forall j g, gs !! j = Some g -> group (i + j)%nat = Some g) ->
  walk (fun st i => data ← ok_or (group i) (WireFormat Panic); f st data) s (seq i (length gs)) = walk f s gs.
Proof.
  revert i s. induction gs as [|g gs IH]; intros i s Hg; [done|]. cbn [length seq walk].
  pose proof (Hg 0%nat g eq_refl) as H0. rewrite Nat.add_0_r in H0. rewrite H0. cbn [ok_or mbind result_bind].
  destruct (f s g) as [s'|e]; [|done]. cbn [mbind result_bind]. apply IH. intros j g' Hj.
  specialize (Hg (Datatypes.S j) g' Hj). by rewrite Nat.add_succ_r in Hg.
Qed.

Lemma walk_groups {A} `{GroupProjection A} b skip gs k c (p : A) k' c' p' :
  Forall (Forall is_byte) gs -> walk validate_group (k, c, p) gs = Ok (k', c', p') ->
  exists els, mapM (group_elements b skip) gs = Some els /\ Forall element_ok (concat els) /\ adds k k' c c' (concat els).
Proof.
  intros Hgs. revert k c p. induction Hgs as [|g gs Hg _ IH]; intros k c p; cbn [walk].
  { intros [= <- <- _]. exists []. split_and!; [done|constructor|apply adds_nil]. }
  intros H1. apply bbind_ok in H1 as ([[k1 c1] p1] & H1 & H2).
  destruct (validated_group _ _ _ _ _ _ _ b skip Hg H1) as (es & He & Hok & Ha).
  apply IH in H2 as (els & Hm & Hoks & Has). exists (es :: els). cbn [mapM]. rewrite He, Hm.
  split_and!; [done|cbn; by apply Forall_app|]. cbn. by eapply adds_app.
Qed.

Lemma names_bytes buffer e g : Forall is_byte buffer -> names buffer e g -> Forall is_byte g.
Proof.
  intros Hb (_ & _ & _ & Hs). unfold slice in Hs. destruct (decide _); [|done]. injection Hs as <-.
  by apply Forall_take, Forall_drop.
Qed.

Lemma Forall2_names_bytes buffer es gs :
  Forall is_byte buffer -> Forall2 (names buffer) es gs -> Forall (Forall is_byte) gs.
Proof. intros Hb. induction 1; constructor; [by eapply names_bytes|done]. Qed.

Lemma names_slice buffer es gs i g :
  Forall2 (names buffer) es gs -> gs !! i = Some g -> (e ← es !! i; entry_slice buffer e) = Some g.
Proof.
  intros HF Hg. destruct (Forall2_lookup_r _ _ _ _ _ HF Hg) as (e & He & _ & _ & _ & Hs). by rewrite He.
Qed.

(** The strings and groups of a buffer, as the reference parse sees them, and
    its scalar fields. *)
Definition laid_out (buffer : bytes) (f : BlockFields) (strings groups : list bytes) : Prop :=
  exists table st gr, parse sections_step ([], []) buffer = Ok (table, groups) /\
    parse strings_step [] table = Ok strings /\ scan_block_fields buffer = Ok (f, st, gr).

(** What an accepted buffer says: the slices its tables name, the walk over
    its groups, and its strings. *)
Lemma validate_block_ok {A} `{GroupProjection A} buffer (make : BlockFields -> list (Z * Z) -> A) a scan st gr :
  Forall is_byte buffer -> blen buffer < 2 ^ 32 -> validate_block buffer make = Ok (a, scan, (st, gr)) ->
  exists strings groups p0, laid_out buffer (bs_fields scan) strings groups /\
    Forall2 (names buffer) st strings /\ Forall2 (names buffer) gr groups /\
    walk validate_group (KindSet_default, 0, p0) groups = Ok (bs_kinds scan, bs_element_count scan, a) /\
    Forall (fun s => from_utf8 s = Ok tt) strings /\ Forall (Forall is_byte) groups /\
    Forall (Forall is_byte) strings.
Proof.
  intros Hb Hlt HV. unfold validate_block in HV. apply bbind_ok in HV as ([[f st'] gr'] & Hs%wire_ok & HV).
  apply bbind_ok in HV as ([[k c] p] & Hg & HV). apply bbind_ok in HV as ([] & Hu & HV). injection HV as -> <- -> ->.
  destruct (scan_fields_names _ _ _ _ Hs Hlt) as (tb & groups & strings & Hsec & Hstr & Hst & Hgr).
  exists strings, groups, (make f st). split_and!; [by exists tb, st, gr|done|done| | |by eapply Forall2_names_bytes|by eapply Forall2_names_bytes].
  - unfold validate_groups in Hg. rewrite (Forall2_length _ _ _ Hgr) in Hg. rewrite walk_indices in Hg; [done|].
    intros j g Hj. by apply (names_slice buffer gr groups).
  - clear Hs Hg Hgr Hsec Hstr. revert Hu. generalize 0%nat as i. induction Hst as [|e s st strings Hn _ IH]; intros i; [constructor|].
    cbn [fmap list_fmap validate_stringtable_utf8]. assert (entry_slice buffer e = Some s) as -> by apply Hn.
    cbn [ok_or mbind result_bind]. destruct (from_utf8 s) as [[]|] eqn:E; [|done]. intros Hu. constructor; [done|by eapply IH].
Qed.

Lemma blen_inline buf st gr f :
  blen (inline_tables buf st gr f).1 = blen buf + 8 * Z.of_nat (length st + length gr).
Proof. cbn [inline_tables fst]. unfold blen. rewrite !length_app, !length_pairs. lia. Qed.

Lemma block_of_ok buffer claim pb :
  Forall is_byte buffer -> block_of buffer claim = Ok pb -> blen (wb_buffer (pb_block pb)) < 2 ^ 32 ->
  exists strings groups p, laid_out buffer (wb_fields (pb_block pb)) strings groups /\
    walk validate_group (KindSet_default, 0, tt) groups = Ok (pb_kinds pb, pb_element_count pb, p) /\
    Forall (Forall is_byte) groups /\
    Forall (fun s => from_utf8 s = Ok tt) strings /\ Forall (Forall is_byte) strings /\
    refuse_under (pb_kinds pb) claim = Ok tt /\
    (forall i, table_get (stringtable (pb_block pb)) i = Some (strings !! i)) /\
    group_count (pb_block pb) = Z.of_nat (length groups) /\
    (forall i g, groups !! i = Some g -> group (pb_block pb) i = Some g).
Proof.
  intros Hb HB Hlt. unfold block_of, project in HB. apply bbind_ok in HB as ([u v] & Hv & HB). injection HB as <-.
  apply bbind_ok in Hv as ([[u' scan] [st gr]] & Hv & Heq). injection Heq as -> <-.
  unfold validate_in_place in Hv. apply bbind_ok in Hv as ([[u' scan'] [st' gr']] & Hv & Heq).
  destruct (refuse_under (bs_kinds scan') claim) as [[]|] eqn:Hc; [|done]. injection Heq as -> -> -> ->.
  unfold into_block in *. cbn [vb_buffer vb_st vb_groups vb_scan] in *.
  pose proof (blen_inline buffer st gr (bs_fields scan)) as Hlen.
  destruct (inline_tables buffer st gr (bs_fields scan)) as [buf' meta] eqn:Hin. cbn [fst] in Hlen.
  cbn [pb_block pb_kinds pb_element_count wb_buffer from_inline] in *.
  assert (blen buffer + 8 * Z.of_nat (length st + length gr) < 2 ^ 32) as Hsz by lia.
  destruct (validate_block_ok _ _ _ _ _ _ Hb ltac:(lia) Hv) as (strings & groups & [] & Hlay & Hst & Hgr & Hw & Hu & Hgb & Hsb).
  pose proof (inline_tables_names buffer (bs_fields scan) st gr strings groups Hst Hgr Hsz) as Hi.
  rewrite Hin in Hi. destruct Hi as (H1 & H2 & H3 & H4). exists strings, groups, u. split_and!; try done. by rewrite H4.
Qed.

(** [for_each_element] visits what iteration yields, in another order. *)
Lemma for_each_groups b gs els :
  groups b = Some gs -> mapM (group_elements b false) gs = Some els ->
  exists es, for_each_element b = Some es /\ es ≡ₚ concat els.
Proof.
  intros Hg Hm. unfold for_each_element. rewrite Hg. cbn [mbind option_bind]. clear Hg.
  match goal with |- context [mapM ?f gs] => set (body := f) end.
  assert (forall g es, group_elements b false g = Some es -> exists es', body g = Some es' /\ es' ≡ₚ es) as Hbody.
  { intros g es He. unfold group_elements in He. subst body. cbn beta.
    assert (group_dense_nodes (framing b) g = open_dense b false g ≫= dense_nodes) as ->.
    { unfold group_dense_nodes, open_dense. by destruct (validated_dense g) as [[w|]|]. }
    destruct (open_dense b false g) as [it|]; [|done]. cbn [mbind option_bind] in He |- *.
    destruct (dense_nodes it) as [ds|]; [|done]. cbn [mbind option_bind] in He |- *.
    destruct (group_nodes b g) as [ns|]; [|done]. cbn [mbind option_bind] in He |- *.
    destruct (group_ways b g) as [ws|]; [|done]. cbn [mbind option_bind] in He |- *.
    destruct (group_relations b g) as [rs|]; [|done]. injection He as <-. eexists. split; [done|].
    rewrite !app_assoc. by rewrite (Permutation_app_comm (ElNode <$> ns)). }
  revert els Hm. induction gs as [|g gs IH]; intros els Hm.
  { injection Hm as <-. by exists []. }
  cbn [mapM] in Hm. destruct (group_elements b false g) as [es|] eqn:He; [|done]. cbn [mbind option_bind] in Hm.
  destruct (mapM (group_elements b false) gs) as [els'|]; [|done]. injection Hm as <-.
  destruct (Hbody _ _ He) as (es' & Hb' & HP). destruct (IH els' eq_refl) as (rest & Hr & HPr).
  cbn [mapM]. rewrite Hb'. cbn [mbind option_bind]. destruct (mapM body gs) as [l|]; [|done].
  cbn [mbind option_bind] in *. injection Hr as <-. eexists. split; [done|]. cbn. by rewrite HP, HPr.
Qed.

(** C16. The construction invariant: once [block_of] (from_vec, under any kind
    claim) accepts a buffer, the element iterator runs to its end without a
    panic, with or without metadata; it yields exactly [element_count] elements,
    their kinds are exactly the recorded kinds and, under a claim, only the
    claimed one; every element's tags, references, locations, members and Info
    read to the end without a panic; and [for_each_element] visits the same
    elements. *)
Theorem validated_block_walks (buffer : bytes) (claim : option ElementKind) (pb : PrimitiveBlock) (skip : bool) :
  Forall is_byte buffer -> block_of buffer claim = Ok pb -> blen (wb_buffer (pb_block pb)) < 2 ^ 32 ->
  exists es need,
    (forall fuel, (need <= fuel)%nat -> elements_drain fuel (elements_new (pb_block pb) skip) = Some es) /\
    Z.of_nat (length es) = pb_element_count pb /\
    (forall k, has (pb_kinds pb) k = true <-> k ∈ element_kind <$> es) /\
    (forall k, claim = Some k -> Forall (fun e => element_kind e = k) es) /\
    Forall element_ok es /\
    (skip = false -> exists es', for_each_element (pb_block pb) = Some es' /\ es' ≡ₚ es).
Proof.
  intros Hb HB Hlt. destruct (block_of_ok _ _ _ Hb HB Hlt) as (strings & gs & p & _ & Hw & Hgb & _ & _ & Hc & _ & Hn & Hg).
  destruct (walk_groups (pb_block pb) skip _ _ _ _ _ _ _ Hgb Hw) as (els & Hm & Hok & Hcount & Hkinds).
  assert (forall k, has (pb_kinds pb) k = true <-> k ∈ element_kind <$> concat els) as Hk.
  { intros k. rewrite Hkinds. assert (has KindSet_default k <> true) by by destruct k. tauto. }
  destruct (phase_groups (pb_block pb) (length gs) skip gs els 0 (dense_empty (pb_block pb)) [] [] []) as [need Hd]; [done|done|done|].
  exists (concat els), need. split_and!; [|lia|done| |done|].
  - intros fuel Hf. unfold elements_new. rewrite Hn, Nat2Z.id. by apply Hd.
  - intros k ->. apply Forall_forall. intros e He. cbn in Hc. destruct (foreign_to (pb_kinds pb) k) as [f|] eqn:Hf; [done|].
    pose proof (foreign_to_none _ _ Hf (element_kind e)) as Hx. apply Hx, Hk. by apply list_elem_of_fmap_2.
  - intros ->. apply (for_each_groups _ gs); [|done]. unfold groups. rewrite Hn, Nat2Z.id.
    apply mapM_Some. rewrite Forall2_lookup. intros i. destruct (gs !! i) as [g|] eqn:E.
    + rewrite lookup_seq_lt by by apply lookup_lt_Some in E. constructor. by apply Hg.
    + rewrite lookup_seq_ge by by apply lookup_ge_None in E. constructor.
Qed.


End Whole.

(** ** A concrete block *)

#[local] Existing Instance RefProto.ref_proto.
#[local] Existing Instance RefProto.ref_laws.

(** The strings "" and "hi", and one way of id 5 tagged hi=hi. *)
Definition sample_block : bytes :=
  [10; 6; 10; 0; 10; 2; 104; 105] ++ [18; 14; 26; 12; 8; 5; 18; 1; 1; 26; 1; 1; 66; 2; 6; 7].

Lemma sample_block_bytes : Forall is_byte sample_block.
Proof. repeat (constructor; [by split|]). constructor. Qed.

Lemma validated_block_walks_witness :
  exists pb, block_of sample_block (Some Way) = Ok pb /\ exists es need,
    (forall fuel, (need <= fuel)%nat -> elements_drain fuel (elements_new (pb_block pb) false) = Some es) /\
    Z.of_nat (length es) = pb_element_count pb /\
    (forall k, has (pb_kinds pb) k = true <-> k ∈ element_kind <$> es) /\
    (forall k, Some Way = Some k -> Forall (fun e => element_kind e = k) es) /\
    Forall element_ok es /\
    (false = false -> exists es', for_each_element (pb_block pb) = Some es' /\ es' ≡ₚ es).
Proof.
  eexists. split; [reflexivity|].
  apply (validated_block_walks sample_block (Some Way)); [exact sample_block_bytes|reflexivity|reflexivity].
Defined.

