(* ===== verification/BlockBuilder.v ===== *)
(** * The block builder (src/src/write/block_builder.rs)

    [BlockBuilder] accumulates the elements of one output block: dense columns
    for nodes, an encoded group for ways and relations, one string table, and
    the ranges and tag keys the blob index and tagdata are made of.  Its fields
    are grouped here into sub-records; the scratch buffers, which every use
    clears first, and the capacity bookkeeping ([encode_reserve],
    [release_outliers]) carry no data and have no counterpart.  A formatted
    reason is the constructor of [Poison] or [BuilderError] with the values it
    prints. *)

From S2P Require Import Prelude Proto Wire WireBlock ElementKind BlobMeta TagIndex StringTable Encode Dense.

Inductive BlockType := DenseNodes | Ways | Relations.

#[export] Instance BlockType_eq_dec : EqDecision BlockType.
Proof. solve_decision. Defined.

Inductive Refusal :=
| HoldsOther (attempted : BlockType) (id : Z) (held : BlockType)
| FullBlock (attempted : BlockType) (id cap : Z).

(** ** Accumulators *)

Record DenseCols := mkCols {
  dc_ids : list Z; dc_lats : list Z; dc_lons : list Z; dc_keys_vals : list Z;
  dc_last_id : Z; dc_last_lat : Z; dc_last_lon : Z }.

Record DenseMeta := mkDenseMeta {
  dm_versions : list Z; dm_timestamps : list Z; dm_changesets : list Z; dm_uids : list Z;
  dm_user_sids : list Z; dm_visibles : list bool; dm_has : bool;
  dm_last_timestamp : Z; dm_last_changeset : Z; dm_last_uid : Z; dm_last_user_sid : Z }.

Record Ranges := mkRanges {
  rg_min_id : Z; rg_max_id : Z; rg_min_lat : Z; rg_max_lat : Z; rg_min_lon : Z; rg_max_lon : Z }.

Definition cols_empty : DenseCols := mkCols [] [] [] [] 0 0 0.
Definition meta_empty : DenseMeta := mkDenseMeta [] [] [] [] [] [] false 0 0 0 0.
Definition ranges_empty : Ranges := mkRanges i64_max i64_min i32_max i32_min i32_max i32_min.

Definition track_id (r : Ranges) (id : Z) : Ranges :=
  let 'mkRanges mini maxi a b c d := r in
  mkRanges (if id <? mini then id else mini) (if maxi <? id then id else maxi) a b c d.

Definition track_coords (r : Ranges) (lat lon : Z) : Ranges :=
  let 'mkRanges mini maxi a b c d := r in
  mkRanges mini maxi (if lat <? a then lat else a) (if b <? lat then lat else b)
    (if lon <? c then lon else c) (if d <? lon then lon else d).

Definition push_cols (c : DenseCols) (id lat lon : Z) : DenseCols :=
  mkCols (dc_ids c ++ [wsub 64 id (dc_last_id c)]) (dc_lats c ++ [wsub 64 lat (dc_last_lat c)])
    (dc_lons c ++ [wsub 64 lon (dc_last_lon c)]) (dc_keys_vals c) id lat lon.

Definition push_kvs (c : DenseCols) (kvs : list Z) : DenseCols :=
  mkCols (dc_ids c) (dc_lats c) (dc_lons c) (dc_keys_vals c ++ kvs)
    (dc_last_id c) (dc_last_lat c) (dc_last_lon c).

(** [RawMetadata], and the columns both metadata paths push. *)
Record RawMetadata := mkRawMeta {
  rm_version : Z; rm_timestamp : Z; rm_changeset : Z; rm_uid : Z; rm_user_sid : Z; rm_visible : bool }.

Definition add_dense_metadata_raw (d : DenseMeta) (m : RawMetadata) : DenseMeta :=
  mkDenseMeta (dm_versions d ++ [rm_version m])
    (dm_timestamps d ++ [wsub 64 (rm_timestamp m) (dm_last_timestamp d)])
    (dm_changesets d ++ [wsub 64 (rm_changeset m) (dm_last_changeset d)])
    (dm_uids d ++ [wsub 32 (rm_uid m) (dm_last_uid d)])
    (dm_user_sids d ++ [wsub 32 (rm_user_sid m) (dm_last_user_sid d)])
    (dm_visibles d ++ [rm_visible m]) true
    (rm_timestamp m) (rm_changeset m) (rm_uid m) (rm_user_sid m).

Definition backfill_default_dense_metadata (d : DenseMeta) (count : Z) : DenseMeta :=
  let n := Z.to_nat count in
  mkDenseMeta (dm_versions d ++ replicate n 0) (dm_timestamps d ++ replicate n 0)
    (dm_changesets d ++ replicate n 0) (dm_uids d ++ replicate n 0) (dm_user_sids d ++ replicate n 0)
    (dm_visibles d ++ replicate n true) true
    (dm_last_timestamp d) (dm_last_changeset d) (dm_last_uid d) (dm_last_user_sid d).

Definition wneg (w a : Z) : Z := as_s w (- a).

Definition push_default_dense_metadata (d : DenseMeta) : DenseMeta :=
  mkDenseMeta (dm_versions d ++ [0]) (dm_timestamps d ++ [wneg 64 (dm_last_timestamp d)])
    (dm_changesets d ++ [wneg 64 (dm_last_changeset d)]) (dm_uids d ++ [wneg 32 (dm_last_uid d)])
    (dm_user_sids d ++ [wneg 32 (dm_last_user_sid d)]) (dm_visibles d ++ [true]) (dm_has d) 0 0 0 0.

Section Builder.
Context {P : Protohoggr} {H : HashIndex}.

(** A refused raw string index: the element, the field and the index. *)
Inductive RawIndexError :=
| IndexOutOfBounds (what : BlockType) (id : Z) (field : string) (sid : Z)
| NegativeIndex (what : BlockType) (id : Z) (field : string) (sid : Z)
| InfoError (e : WireError).

Inductive Poison :=
| Refused (r : Refusal)
| LocationCount (id : Z) (refs locations : nat)
| MemberTypeValue (id raw : Z)
| RawIndex (e : RawIndexError).

Inductive BuilderError :=
| RefusedToEncode (p : Poison)
| Internal (r : Refusal)
| NotPreSeeded
| NotEmpty
| SlotZero
| BadIndex (e : RawIndexError)
| TableError (e : EncodeError)
| DenseOverflow
| TagdataPanic
| CallerError.

Record BlockBuilder := mkBuilder {
  bb_table : StringTable;
  bb_type : option BlockType;
  bb_count : Z;
  bb_cap : Z;
  bb_ranges : Ranges;
  bb_tag_keys : gset Z;
  bb_tagdata : option bytes;
  bb_cols : DenseCols;
  bb_meta : DenseMeta;
  bb_group : bytes;
  bb_encode_buf : bytes;
  bb_seeded : option Z;
  bb_poison : option Poison }.

Definition with_element_cap (cap : Z) : BlockBuilder :=
  mkBuilder StringTable_new None 0 cap ranges_empty ∅ None cols_empty meta_empty [] [] None None.

Definition poison (b : BlockBuilder) (reason : Poison) : BlockBuilder :=
  let 'mkBuilder t ty n cap rg ki td cols meta gr eb sd po := b in
  match po with
  | Some _ => b
  | None => mkBuilder t ty n cap rg ki td cols meta gr eb sd (Some reason)
  end.

Definition refusal (b : BlockBuilder) (attempted : BlockType) (id : Z) : Refusal :=
  match bb_type b with
  | Some held => if decide (held <> attempted) then HoldsOther attempted id held
                 else FullBlock attempted id (bb_cap b)
  | None => FullBlock attempted id (bb_cap b)
  end.

Definition refuse (b : BlockBuilder) (attempted : BlockType) (id : Z) : BlockBuilder :=
  poison b (Refused (refusal b attempted id)).

Definition is_empty (b : BlockBuilder) : bool := bb_count b =? 0.

Definition should_flush (b : BlockBuilder) : bool := bb_cap b <=? bb_count b.

(** [can_add_node], [can_add_way], [can_add_relation] *)
Definition can_add (b : BlockBuilder) (kind : BlockType) : bool :=
  match bb_type b with
  | None => true
  | Some held => if decide (held = kind) then negb (should_flush b) else false
  end.

Definition reset (b : BlockBuilder) : BlockBuilder :=
  mkBuilder (clear (bb_table b)) None 0 (bb_cap b) ranges_empty ∅ (bb_tagdata b) cols_empty meta_empty []
    (bb_encode_buf b) None (bb_poison b).

(** The tag loop of [add_node]: table, key indices, interleaved indices. *)
Fixpoint node_tags (t : StringTable) (ki : gset Z) (tags : list (bytes * bytes))
  : StringTable * gset Z * list Z :=
  match tags with
  | [] => (t, ki, [])
  | (key, val) :: tags =>
      let '(t, key_idx) := StringTable.add t key in
      let '(t, val_idx) := StringTable.add t val in
      let '(t, ki, kvs) := node_tags t ({[ key_idx ]} ∪ ki) tags in
      (t, ki, as_i32 key_idx :: as_i32 val_idx :: kvs)
  end.

Definition add_dense_metadata (t : StringTable) (d : DenseMeta) (m : Metadata) : StringTable * DenseMeta :=
  let '(t, sid) := StringTable.add t (m_user m) in
  (t, add_dense_metadata_raw d
        (mkRawMeta (m_version m) (m_timestamp m) (m_changeset m) (m_uid m) (as_i32 sid) (m_visible m))).

(** The metadata step of [add_node]: backfill, push, or push a default. *)
Definition backfill (d : DenseMeta) (count : Z) : DenseMeta :=
  if negb (dm_has d) && (0 <? count) then backfill_default_dense_metadata d count else d.

Definition node_meta (t : StringTable) (d : DenseMeta) (count : Z) (metadata : option Metadata)
  : StringTable * DenseMeta :=
  match metadata with
  | Some m => add_dense_metadata t (backfill d count) m
  | None => if dm_has d then (t, push_default_dense_metadata d) else (t, d)
  end.

Definition add_node (b : BlockBuilder) (id lat lon : Z) (tags : list (bytes * bytes))
    (metadata : option Metadata) : BlockBuilder :=
  if negb (can_add b DenseNodes) then refuse b DenseNodes id
  else
    let 'mkBuilder t ty n cap rg ki td cols meta gr eb sd po := b in
    let cols := push_cols cols id lat lon in
    let rg := track_coords rg lat lon in
    let '(t, ki, kvs) := node_tags t ki tags in
    let cols := push_kvs cols (kvs ++ [0]) in
    let '(t, meta) := node_meta t meta n metadata in
    mkBuilder t (Some DenseNodes) (n + 1) cap (track_id rg id) ki td cols meta gr eb sd po.

Definition add_way (b : BlockBuilder) (id : Z) (tags : list (bytes * bytes)) (refs : list Z)
    (metadata : option Metadata) : BlockBuilder :=
  if negb (can_add b Ways) then refuse b Ways id
  else
    let 'mkBuilder t ty n cap rg ki td cols meta gr eb sd po := b in
    let '(t, gr, ki) := encode_way t gr ki id tags refs metadata in
    mkBuilder t (Some Ways) (n + 1) cap (track_id rg id) ki td cols meta gr eb sd po.

Definition add_way_with_locations (b : BlockBuilder) (id : Z) (tags : list (bytes * bytes)) (refs : list Z)
    (locations : list (Z * Z)) (metadata : option Metadata) : BlockBuilder :=
  if decide (length refs <> length locations) then
    poison b (LocationCount id (length refs) (length locations))
  else if negb (can_add b Ways) then refuse b Ways id
  else
    let 'mkBuilder t ty n cap rg ki td cols meta gr eb sd po := b in
    let '(t, gr, ki) := encode_way_with_locations t gr ki id tags refs locations metadata in
    mkBuilder t (Some Ways) (n + 1) cap (track_id rg id) ki td cols meta gr eb sd po.

(** [members.iter().find_map(..)]: the first member type without an enum value *)
Fixpoint unknown_member (members : list MemberData) : option Z :=
  match members with
  | [] => None
  | m :: members => match member_type (md_id m) with MUnknown raw => Some raw | _ => unknown_member members end
  end.

Definition add_relation (b : BlockBuilder) (id : Z) (tags : list (bytes * bytes))
    (members : list MemberData) (metadata : option Metadata) : BlockBuilder :=
  match unknown_member members with
  | Some raw => poison b (MemberTypeValue id raw)
  | None =>
      if negb (can_add b Relations) then refuse b Relations id
      else
        let 'mkBuilder t ty n cap rg ki td cols meta gr eb sd po := b in
        let '(t, gr, ki) := encode_relation t gr ki id tags members metadata in
        mkBuilder t (Some Relations) (n + 1) cap (track_id rg id) ki td cols meta gr eb sd po
  end.

(** ** Raw string indices *)

Definition pre_seed_string_table (b : BlockBuilder) (len : nat) (entry : nat -> option bytes)
  : BlockBuilder * result BuilderError unit :=
  if negb (is_empty b) then (b, Err NotEmpty)
  else if decide (entry 0%nat <> Some []) then (b, Err SlotZero)
  else
    let 'mkBuilder t ty n cap rg ki td cols meta gr eb sd po := reset b in
    (mkBuilder (pre_seed t len entry) ty n cap rg ki td cols meta gr eb (Some (Z.of_nat len)) po, Ok tt).

Definition refuse_raw_index {A} (b : BlockBuilder) (e : RawIndexError) : BlockBuilder * result BuilderError A :=
  (poison b (RawIndex e), Err (BadIndex e)).

Definition check_signed_sid (what : BlockType) (id : Z) (field : string) (sid seeded : Z)
  : result RawIndexError unit :=
  if sid <? 0 then Err (NegativeIndex what id field sid)
  else if sid <? seeded then Ok tt
  else Err (IndexOutOfBounds what id field sid).

Fixpoint check_unsigned (what : BlockType) (id : Z) (field : string) (sids : list Z) (seeded : Z)
  : result RawIndexError unit :=
  match sids with
  | [] => Ok tt
  | sid :: sids => if sid <? seeded then check_unsigned what id field sids seeded
                   else Err (IndexOutOfBounds what id field sid)
  end.

Fixpoint check_signed (what : BlockType) (id : Z) (field : string) (sids : list Z) (seeded : Z)
  : result RawIndexError unit :=
  match sids with
  | [] => Ok tt
  | sid :: sids => _ ← check_signed_sid what id field sid seeded; check_signed what id field sids seeded
  end.

Definition check_raw_values (what : BlockType) (id : Z) (vals roles : bytes) (info : option bytes) (seeded : Z)
  : result RawIndexError unit :=
  _ ← check_unsigned what id "tag value" (packed_uint32 vals) seeded;
  _ ← check_signed Relations id "role" (packed_int32 roles) seeded;
  match info with
  | None => Ok tt
  | Some info =>
      match user_sid_of info with
      | Err e => Err (InfoError e)
      | Ok None => Ok tt
      | Ok (Some sid) => check_signed_sid what id "user name" sid seeded
      end
  end.

Definition set_tag_keys (b : BlockBuilder) (ki : gset Z) : BlockBuilder :=
  let 'mkBuilder t ty n cap rg _ td cols meta gr eb sd po := b in
  mkBuilder t ty n cap rg ki td cols meta gr eb sd po.

Definition check_raw_strings (b : BlockBuilder) (what : BlockType) (id : Z) (keys vals roles : bytes)
    (info : option bytes) : BlockBuilder * result BuilderError unit :=
  match bb_seeded b with
  | None => (b, Err NotPreSeeded)
  | Some seeded =>
      match check_raw_values what id vals roles info seeded with
      | Err e => refuse_raw_index b e
      | Ok _ =>
          let '(ki, r) := collect_checked_keys keys seeded (bb_tag_keys b) in
          let b := set_tag_keys b ki in
          match r with
          | Ok _ => (b, Ok tt)
          | Err sid => refuse_raw_index b (IndexOutOfBounds what id "tag key" sid)
          end
      end
  end.

(** The encoding half of the raw way and relation adds. *)
Definition append_raw (b : BlockBuilder) (what : BlockType) (id : Z) (encode : bytes -> bytes) : BlockBuilder :=
  let 'mkBuilder t ty n cap rg ki td cols meta gr eb sd po := b in
  mkBuilder t (Some what) (n + 1) cap (track_id rg id) ki td cols meta (encode gr) eb sd po.

Definition add_raw (b : BlockBuilder) (what : BlockType) (id : Z) (keys vals roles : bytes)
    (info : option bytes) (encode : bytes -> bytes) : BlockBuilder * result BuilderError unit :=
  if negb (can_add b what) then (b, Err (Internal (refusal b what id)))
  else
    let '(b, r) := check_raw_strings b what id keys vals roles info in
    match r with
    | Err e => (b, Err e)
    | Ok _ => (append_raw b what id encode, Ok tt)
    end.

Definition add_way_raw_bytes (b : BlockBuilder) (id : Z) (keys vals refs : bytes) (info : option bytes) :=
  add_raw b Ways id keys vals [] info (fun gr => encode_way_raw_bytes gr id keys vals refs info).

Definition add_way_raw_bytes_with_locations (b : BlockBuilder) (id : Z) (keys vals refs lat lon : bytes)
    (info : option bytes) :=
  add_raw b Ways id keys vals [] info
    (fun gr => encode_way_raw_bytes_with_locations gr id keys vals refs lat lon info).

Definition add_relation_raw_bytes (b : BlockBuilder) (id : Z) (keys vals roles memids types : bytes)
    (info : option bytes) :=
  add_raw b Relations id keys vals roles info
    (fun gr => encode_relation_raw_bytes gr id keys vals roles memids types info).

(** The tag loop of [add_node_raw]; what was pushed before a bad index stays. *)
Fixpoint raw_node_tags (id seeded : Z) (t : StringTable) (ki : gset Z) (kvs : list Z) (tags : list (Z * Z))
  : StringTable * gset Z * list Z * result RawIndexError unit :=
  match tags with
  | [] => (t, ki, kvs, Ok tt)
  | (key_sid, val_sid) :: tags =>
      if negb (key_sid <? seeded) then (t, ki, kvs, Err (IndexOutOfBounds DenseNodes id "tag key" key_sid))
      else if negb (val_sid <? seeded) then (t, ki, kvs, Err (IndexOutOfBounds DenseNodes id "tag value" val_sid))
      else
        let '(t, key_sid) := if key_sid =? 0 then StringTable.add t [] else (t, key_sid) in
        raw_node_tags id seeded t ({[ key_sid ]} ∪ ki) (kvs ++ [as_i32 key_sid; as_i32 val_sid]) tags
  end.

Definition raw_node_meta (d : DenseMeta) (count : Z) (metadata : option RawMetadata) : DenseMeta :=
  match metadata with
  | Some m => add_dense_metadata_raw (backfill d count) m
  | None => if dm_has d then push_default_dense_metadata d else d
  end.

Definition check_user (id seeded : Z) (metadata : option RawMetadata) : result RawIndexError unit :=
  match metadata with
  | Some m => check_signed_sid DenseNodes id "user name" (rm_user_sid m) seeded
  | None => Ok tt
  end.

Definition add_node_raw (b : BlockBuilder) (id lat lon : Z) (raw_tags : list (Z * Z))
    (metadata : option RawMetadata) : BlockBuilder * result BuilderError unit :=
  if negb (can_add b DenseNodes) then (b, Err (Internal (refusal b DenseNodes id)))
  else
    match bb_seeded b with
    | None => (b, Err NotPreSeeded)
    | Some seeded =>
        match check_user id seeded metadata with
        | Err e => refuse_raw_index b e
        | Ok _ =>
            let 'mkBuilder t ty n cap rg ki td cols meta gr eb sd po := b in
            let cols := push_cols cols id lat lon in
            let rg := track_coords rg lat lon in
            let '(t, ki, kvs, r) := raw_node_tags id seeded t ki [] raw_tags in
            match r with
            | Err e =>
                refuse_raw_index (mkBuilder t (Some DenseNodes) n cap rg ki td (push_kvs cols kvs) meta gr eb sd po) e
            | Ok _ =>
                (mkBuilder t (Some DenseNodes) (n + 1) cap (track_id rg id) ki td (push_kvs cols (kvs ++ [0]))
                   (raw_node_meta meta n metadata) gr eb sd po, Ok tt)
            end
        end
    end.

(** ** Finishing a block *)

Definition dense_info_body (d : DenseMeta) : bytes :=
  encode_packed_int32 1 (dm_versions d) ++ encode_packed_sint64 2 (dm_timestamps d) ++
  encode_packed_sint64 3 (dm_changesets d) ++ encode_packed_sint32 4 (dm_uids d) ++
  encode_packed_sint32 5 (dm_user_sids d) ++ encode_packed_bool 6 (dm_visibles d).

Definition dense_body (c : DenseCols) (d : DenseMeta) : bytes :=
  encode_packed_sint64 1 (dc_ids c) ++
  (if dm_has d then encode_bytes_field 5 (dense_info_body d) else []) ++
  encode_packed_sint64 8 (dc_lats c) ++ encode_packed_sint64 9 (dc_lons c) ++
  encode_packed_int32 10 (dc_keys_vals c).

Definition encode_dense_nodes_group (c : DenseCols) (d : DenseMeta) (encode_buf : bytes)
  : result BuilderError bytes :=
  let body := dense_body c d in
  let dense_len := blen body in
  match len_field_size dense_len with
  | None => Err DenseOverflow
  | Some group_len =>
      match len_field_size group_len with
      | None => Err DenseOverflow
      | Some _ =>
          Ok (encode_buf ++ encode_tag 2 WIRE_LEN ++ encode_varint (as_u64 group_len) ++
                encode_tag 2 WIRE_LEN ++ encode_varint (as_u64 dense_len) ++ body)
      end
  end.

(** The tagdata build: the strings of the tracked keys, sorted by content, and
    deduplicated when the table was seeded. *)
Definition build_tagdata (b : BlockBuilder) : result BuilderError (option bytes) :=
  match elements (bb_tag_keys b) with
  | [] => Ok None
  | idxs =>
      ks ← ok_or (mapM (fun i => get (bb_table b) (Z.to_nat i)) idxs) TagdataPanic;
      let sorted := merge_sort bytes_le ks in
      let ks := match bb_seeded b with Some _ => dedup None sorted | None => sorted end in
      Ok (encode_tag_index (length ks) ks)
  end.

Definition block_kind (ty : BlockType) : ElementKind :=
  match ty with DenseNodes => Node | Ways => Way | Relations => Relation end.

Definition block_index (b : BlockBuilder) (ty : BlockType) : BlobIndex :=
  let r := bb_ranges b in
  {| kind := block_kind ty; BlobMeta.min_id := rg_min_id r; BlobMeta.max_id := rg_max_id r;
     count := bb_count b;
     bbox := if decide (block_kind ty = Node /\ rg_min_lat r <= rg_max_lat r) then
               Some {| min_lat := rg_min_lat r; max_lat := rg_max_lat r;
                       min_lon := rg_min_lon r; max_lon := rg_max_lon r |}
             else None |}.

Definition set_encode_buf (b : BlockBuilder) (eb : bytes) : BlockBuilder :=
  let 'mkBuilder t ty n cap rg ki td cols meta gr _ sd po := b in
  mkBuilder t ty n cap rg ki td cols meta gr eb sd po.

Definition set_tagdata (b : BlockBuilder) (td : option bytes) : BlockBuilder :=
  let 'mkBuilder t ty n cap rg ki _ cols meta gr eb sd po := b in
  mkBuilder t ty n cap rg ki td cols meta gr eb sd po.

Definition encode_group (b : BlockBuilder) (ty : BlockType) (eb : bytes) : result BuilderError bytes :=
  match ty with
  | DenseNodes => encode_dense_nodes_group (bb_cols b) (bb_meta b) eb
  | Ways | Relations => Ok (eb ++ encode_bytes_field 2 (bb_group b))
  end.

Definition encode_block (b : BlockBuilder) : BlockBuilder * result BuilderError (option BlobIndex) :=
  match bb_poison b with
  | Some reason => (b, Err (RefusedToEncode reason))
  | None =>
      match bb_type b with
      | None => (reset b, Ok None)
      | Some ty =>
          match encode_to (bb_table b) [] with
          | Err e => (set_encode_buf b [], Err (TableError e))
          | Ok eb =>
              match encode_group b ty eb with
              | Err e => (set_encode_buf b eb, Err e)
              | Ok eb =>
                  let b := set_encode_buf b eb in
                  match build_tagdata b with
                  | Err e => (b, Err e)
                  | Ok td => (reset (set_tagdata b td), Ok (Some (block_index b ty)))
                  end
              end
          end
      end
  end.

Definition builder_take (b : BlockBuilder) : BlockBuilder * result BuilderError (option bytes) :=
  let '(b, r) := encode_block b in
  match r with
  | Err e => (b, Err e)
  | Ok (Some _) => (b, Ok (Some (bb_encode_buf b)))
  | Ok None => (b, Ok None)
  end.

Record OwnedBlock := mkOwned { ob_bytes : bytes; ob_index : BlobIndex; ob_tagdata : option bytes }.

Definition take_owned (b : BlockBuilder) : BlockBuilder * result BuilderError (option OwnedBlock) :=
  let '(b, r) := encode_block b in
  match r with
  | Err e => (b, Err e)
  | Ok (Some index) => (set_encode_buf (set_tagdata b None) [], Ok (Some (mkOwned (bb_encode_buf b) index (bb_tagdata b))))
  | Ok None => (b, Ok None)
  end.

(** [lend_encoded]: the block is lent to [use_block], and the buffers stay. *)
Definition lend_encoded {R} (b : BlockBuilder) (use_block : OwnedBlock -> result BuilderError R)
  : BlockBuilder * result BuilderError (option R) :=
  let '(b, r) := encode_block b in
  match r with
  | Err e => (b, Err e)
  | Ok None => (b, Ok None)
  | Ok (Some index) =>
      match use_block (mkOwned (bb_encode_buf b) index (bb_tagdata b)) with
      | Err e => (b, Err e)
      | Ok used => (b, Ok (Some used))
      end
  end.

End Builder.

(** ** Operation sequences *)

Section Sequences.
Context {P : Protohoggr} {H : HashIndex}.

Inductive Op :=
| AddNode (id lat lon : Z) (tags : list (bytes * bytes)) (meta : option Metadata)
| AddWay (id : Z) (tags : list (bytes * bytes)) (refs : list Z) (meta : option Metadata)
| AddLocatedWay (id : Z) (tags : list (bytes * bytes)) (refs : list Z) (locations : list (Z * Z))
    (meta : option Metadata)
| AddRelation (id : Z) (tags : list (bytes * bytes)) (members : list MemberData) (meta : option Metadata)
| RawNode (id lat lon : Z) (tags : list (Z * Z)) (meta : option RawMetadata)
| RawWay (id : Z) (keys vals refs : bytes) (info : option bytes)
| RawLocatedWay (id : Z) (keys vals refs lat lon : bytes) (info : option bytes)
| RawRelation (id : Z) (keys vals roles memids types : bytes) (info : option bytes)
| PreSeed (len : nat) (entry : nat -> option bytes)
| Take
| TakeOwned
| Lend (accept : bool).

(** The builder after an operation, what the caller gets back, and the block it
    emits, if any. *)
Definition run_op (b : BlockBuilder) (op : Op) : BlockBuilder * result BuilderError unit * option bytes :=
  match op with
  | AddNode id lat lon tags meta => (add_node b id lat lon tags meta, Ok tt, None)
  | AddWay id tags refs meta => (add_way b id tags refs meta, Ok tt, None)
  | AddLocatedWay id tags refs locs meta => (add_way_with_locations b id tags refs locs meta, Ok tt, None)
  | AddRelation id tags members meta => (add_relation b id tags members meta, Ok tt, None)
  | RawNode id lat lon tags meta => (add_node_raw b id lat lon tags meta, None)
  | RawWay id keys vals refs info => (add_way_raw_bytes b id keys vals refs info, None)
  | RawLocatedWay id keys vals refs lat lon info =>
      (add_way_raw_bytes_with_locations b id keys vals refs lat lon info, None)
  | RawRelation id keys vals roles memids types info =>
      (add_relation_raw_bytes b id keys vals roles memids types info, None)
  | PreSeed len entry => (pre_seed_string_table b len entry, None)
  | Take => let '(b, r) := builder_take b in
            match r with Ok o => (b, Ok tt, o) | Err e => (b, Err e, None) end
  | TakeOwned => let '(b, r) := take_owned b in
                 match r with Ok o => (b, Ok tt, ob_bytes <$> o) | Err e => (b, Err e, None) end
  | Lend accept =>
      let '(b, r) := lend_encoded b (fun ob => if accept then Ok (ob_bytes ob) else Err CallerError) in
      match r with Ok o => (b, Ok tt, o) | Err e => (b, Err e, None) end
  end.

Fixpoint run (b : BlockBuilder) (ops : list Op) : BlockBuilder * list bytes :=
  match ops with
  | [] => (b, [])
  | op :: ops =>
      let '(b, _, o) := run_op b op in
      let '(b, out) := run b ops in
      (b, match o with Some block => block :: out | None => out end)
  end.

(** An add whose element did not make it into the block: an interning add that
    left the count alone, or a raw add that answered with a bad index. *)
Definition lost (b : BlockBuilder) (op : Op) : Prop :=
  match op with
  | AddNode _ _ _ _ _ | AddWay _ _ _ _ | AddLocatedWay _ _ _ _ _ | AddRelation _ _ _ _ =>
      bb_count (run_op b op).1.1 = bb_count b
  | RawNode _ _ _ _ _ | RawWay _ _ _ _ _ | RawLocatedWay _ _ _ _ _ _ _ | RawRelation _ _ _ _ _ _ _ =>
      exists e, (run_op b op).1.2 = Err (BadIndex e)
  | _ => False
  end.

Lemma poison_some b r : is_Some (bb_poison (poison b r)).
Proof. destruct b as [? ? ? ? ? ? ? ? ? ? ? ? [p|]]; by eexists. Qed.

Lemma poison_keeps b r p : bb_poison b = Some p -> bb_poison (poison b r) = Some p.
Proof. destruct b as [? ? ? ? ? ? ? ? ? ? ? ? po]. cbn. intros ->. done. Qed.

Ltac builder_cases :=
  repeat match goal with
  | |- context [match ?x with _ => _ end] => destruct x eqn:?; simplify_eq/=
  | |- context [let '(_, _) := ?x in _] => destruct x eqn:?; simplify_eq/=
  end.

Lemma check_raw_poison b what id keys vals roles info p :
  bb_poison b = Some p -> bb_poison (check_raw_strings b what id keys vals roles info).1 = Some p.
Proof.
  intros Hp. unfold check_raw_strings, refuse_raw_index, set_tag_keys, poison. destruct b. cbn in Hp. subst.
  cbn. builder_cases; done.
Qed.

Lemma add_raw_poison b what id keys vals roles info enc p :
  bb_poison b = Some p -> bb_poison (add_raw b what id keys vals roles info enc).1 = Some p.
Proof.
  intros Hp. unfold add_raw. destruct (negb _); [done|].
  pose proof (check_raw_poison b what id keys vals roles info p Hp) as Hc.
  destruct (check_raw_strings _ _ _ _ _ _ _) as [b' [[]|e]]; [|done]. by destruct b'.
Qed.

Lemma check_raw_bad b what id keys vals roles info e :
  (check_raw_strings b what id keys vals roles info).2 = Err (BadIndex e) ->
  is_Some (bb_poison (check_raw_strings b what id keys vals roles info).1).
Proof.
  unfold check_raw_strings, refuse_raw_index. destruct (bb_seeded b); [|done].
  destruct (check_raw_values _ _ _ _ _ _); [|intros _; apply poison_some].
  destruct (collect_checked_keys _ _ _) as [ki [[]|sid]]; [done|intros _; apply poison_some].
Qed.

Lemma add_raw_bad b what id keys vals roles info enc e :
  (add_raw b what id keys vals roles info enc).2 = Err (BadIndex e) ->
  is_Some (bb_poison (add_raw b what id keys vals roles info enc).1).
Proof.
  unfold add_raw. destruct (negb _); [done|]. pose proof (check_raw_bad b what id keys vals roles info e) as Hc.
  destruct (check_raw_strings _ _ _ _ _ _ _) as [b' [[]|e']]; [done|]. apply Hc.
Qed.

Lemma encode_block_poison b p :
  bb_poison b = Some p -> encode_block b = (b, Err (RefusedToEncode p)).
Proof. intros Hp. unfold encode_block. by rewrite Hp. Qed.

Lemma run_op_poison b op p :
  bb_poison b = Some p -> bb_poison (run_op b op).1.1 = Some p /\ (run_op b op).2 = None.
Proof.
  intros Hp. destruct op; cbn [run_op fst snd]; (split; [|try done]).
  all: try by apply add_raw_poison.
  all: try (unfold builder_take, take_owned, lend_encoded; by rewrite (encode_block_poison _ _ Hp)).
  - unfold add_node, refuse. destruct b. cbn in Hp. subst. builder_cases; done.
  - unfold add_way, refuse. destruct b. cbn in Hp. subst. builder_cases; done.
  - unfold add_way_with_locations, refuse. destruct b. cbn in Hp. subst. builder_cases; done.
  - unfold add_relation, refuse. destruct b. cbn in Hp. subst. builder_cases; done.
  - unfold add_node_raw, refuse_raw_index. destruct b. cbn in Hp. subst. builder_cases; done.
  - unfold pre_seed_string_table. destruct b. cbn in Hp. subst. builder_cases; done.
Qed.

Lemma lost_poisons b op : lost b op -> is_Some (bb_poison (run_op b op).1.1).
Proof.
  destruct op; cbn [lost run_op fst snd]; try done.
  - unfold add_node. destruct (negb _); [intros _; apply poison_some|].
    destruct b. builder_cases; intros; lia.
  - unfold add_way. destruct (negb _); [intros _; apply poison_some|].
    destruct b. builder_cases; intros; lia.
  - unfold add_way_with_locations. destruct (decide _); [intros _; apply poison_some|].
    destruct (negb _); [intros _; apply poison_some|]. destruct b. builder_cases; intros; lia.
  - unfold add_relation. destruct (unknown_member _); [intros _; apply poison_some|].
    destruct (negb _); [intros _; apply poison_some|]. destruct b. builder_cases; intros; lia.
  - intros [e He]. revert He. unfold add_node_raw, refuse_raw_index. destruct b.
    builder_cases; intros; simplify_eq; first [apply poison_some|by eexists].
  - intros [e He]. by eapply add_raw_bad.
  - intros [e He]. by eapply add_raw_bad.
  - intros [e He]. by eapply add_raw_bad.
Qed.

Lemma run_poison ops b p :
  bb_poison b = Some p -> bb_poison (run b ops).1 = Some p /\ (run b ops).2 = [].
Proof.
  revert b. induction ops as [|op ops IH]; intros b Hp; [done|]. cbn [run].
  destruct (run_op_poison b op p Hp) as [Hp' Ho]. destruct (run_op b op) as [[b1 r] o]. cbn [fst snd] in *.
  destruct (IH b1 Hp') as [H1 H2]. destruct (run b1 ops) as [b2 out]. cbn [fst snd] in *. by subst.
Qed.


End Sequences.

(** The empty-element corner: a way with id zero and no tags, refs or
    metadata is accepted and counted, and extends the id range, but nothing is
    written for it: its message is empty, and the group field writer skips empty
    messages.  The index of such a block counts an element the block lacks. *)
Theorem empty_way_counted_not_written `{L : ProtohoggrLaws} {H : HashIndex} (b : BlockBuilder) :
  can_add b Ways = true ->
  bb_count (add_way b 0 [] [] None) = bb_count b + 1 /\
  bb_ranges (add_way b 0 [] [] None) = track_id (bb_ranges b) 0 /\
  bb_group (add_way b 0 [] [] None) = bb_group b.
Proof.
  intros Hc. unfold add_way. rewrite Hc. destruct b. cbn [negb bb_group]. by rewrite empty_way_writes_nothing.
Qed.

Lemma empty_way_counted_not_written_witness :
  bb_group (add_way (P := RefProto.ref_proto) (H := RefHash.ref_index) (with_element_cap 8) 0 [] [] None) = [].
Proof.
  apply (empty_way_counted_not_written (L := RefProto.ref_laws) (H := RefHash.ref_index) (with_element_cap 8)).
  reflexivity.
Defined.

