(* ===== verification/BuilderSpec.v ===== *)
(** * What the block builder writes, against the readers

    A block taken from the builder is scanned, its tables inlined and its one
    group decoded by the readers of [WireBlock], [Wire], [Encode] and [Dense];
    the theorems relate what comes back to the elements that were added. *)

From S2P Require Import Prelude Proto Wire WireBlock ElementKind BlobMeta TagIndex StringTable Encode Dense.
From S2P Require Import BlockBuilder.

Section Spec.
Context `{L : ProtohoggrLaws} {H : HashIndex}.

Abbreviation string_field := (encode_bytes_field_always 1).

(** ** Reading a two-section block *)

Definition default_fields : BlockFields := mkBlockFields 100 0 0 1000.

(** Scanning [block] and inlining its tables resolves every index to [strs] and
    gives one group with the format's default framing. *)
Definition reads_as (block : bytes) (strs : list bytes) (grp : bytes) : Prop :=
  exists st gr, scan_block_fields block = Ok (default_fields, st, gr) /\
    let '(buf, meta) := inline_tables block st gr default_fields in
    let blk := from_inline buf meta in
    (forall i, table_get (stringtable blk) i = Some (strs !! i)) /\
    group_count blk = 1 /\ group blk 0 = Some grp /\ wb_fields blk = default_fields.

Lemma parse_entries ss base total out :
  Forall fits ss ->
  exists st, parse (scan_entries_step base total) out (concat (string_field <$> ss)) = Ok st /\
    length st = (length out + length ss)%nat.
Proof.
  intros HF. revert out. induction HF as [|b ss Hb _ IH]; intros out.
  { exists out. split; [apply parse_nil|cbn; lia]. }
  cbn [fmap list_fmap concat]. rewrite encode_bytes_field_always_spec, <- !app_assoc.
  set (r := concat (list_fmap _ _ string_field ss)).
  rewrite (parse_turn _ (scan_entries_shrinks base total) _ _ 1 WIRE_LEN (encode_varint (blen b) ++ b ++ r)
    (out ++ [(as_u32 (slice_offset base total b r), as_u32 (blen b))]) r).
  - destruct (IH (out ++ [(as_u32 (slice_offset base total b r), as_u32 (blen b))])) as (st & Hst & Hl).
    exists st. split; [exact Hst|]. rewrite Hl, length_app. cbn. lia.
  - apply read_tag_encode; [lia|unfold WIRE_LEN; lia].
  - unfold scan_entries_step, arm_len. rewrite !Z.eqb_refl. cbn [andb].
    by rewrite read_len_delimited_encode by done.
Qed.

Section Turns.
Context {St : Type} (step : St -> Z -> Z -> bytes -> result WireError (St * bytes)) (Hs : shrinks step).

Lemma section_turn st f d r st' :
  1 <= f < 2 ^ 29 -> step st f WIRE_LEN (encode_varint (blen d) ++ d ++ r) = Ok (st', r) ->
  parse step st (encode_bytes_field_always f d ++ r) = parse step st' r.
Proof.
  intros Hf Hst. rewrite encode_bytes_field_always_spec, <- !app_assoc.
  eapply (parse_turn _ Hs); [apply read_tag_encode; [done|unfold WIRE_LEN; lia]|done].
Qed.
End Turns.

Lemma two_sections body grp :
  fits body -> fits grp ->
  parse sections_step ([], []) (encode_bytes_field_always 1 body ++ encode_bytes_field_always 2 grp) =
    Ok (body, [grp]).
Proof.
  intros Hb Hg. rewrite <- (app_nil_r (encode_bytes_field_always 2 grp)).
  rewrite (section_turn _ sections_step_shrinks _ 1 body _ (body, []));
    [|lia|unfold sections_step; cbn -[encode_varint]; by rewrite read_len_delimited_encode].
  rewrite (section_turn _ sections_step_shrinks _ 2 grp _ (body, [grp]));
    [|lia|unfold sections_step; cbn -[encode_varint]; by rewrite read_len_delimited_encode].
  apply parse_nil.
Qed.

(** The scan of a block that has only the two sections succeeds. *)
Lemma two_sections_scan ss grp :
  let body := concat (string_field <$> ss) in
  let block := encode_bytes_field_always 1 body ++ encode_bytes_field_always 2 grp in
  fits body -> fits grp -> Forall fits ss ->
  exists st gr, scan_block_fields block = Ok (default_fields, st, gr) /\ length st = length ss /\ length gr = 1%nat.
Proof.
  intros body block Hfb Hfg Hfs. set (r := encode_bytes_field_always 2 grp) in *.
  set (off := slice_offset 0 (blen block) body r).
  set (s := mkScan default_fields off (blen body) [(as_u32 (slice_offset 0 (blen block) grp []), as_u32 (blen grp))]).
  assert (parse (scan_block_step (blen block)) scan_init block = Ok s) as Hscan.
  { unfold block at 2. rewrite (section_turn _ (scan_block_shrinks _) _ 1 body r (mkScan default_fields off (blen body) []));
      [|lia|unfold scan_block_step, scan_init; cbn -[encode_varint slice_offset]; by rewrite read_len_delimited_encode].
    unfold r. rewrite <- (app_nil_r (encode_bytes_field_always 2 grp)).
    rewrite (section_turn _ (scan_block_shrinks _) _ 2 grp [] s);
      [apply parse_nil|lia|unfold scan_block_step; cbn -[encode_varint slice_offset]; by rewrite read_len_delimited_encode]. }
  set (h := encode_tag 1 WIRE_LEN ++ encode_varint (blen body)).
  assert (block = h ++ body ++ r) as Hblk.
  { unfold block, h. by rewrite encode_bytes_field_always_spec, <- !app_assoc. }
  assert (off = blen h) as Hoff by (unfold off, slice_offset; rewrite Hblk, !blen_app; lia).
  destruct (parse_entries ss off (blen body) [] Hfs) as (st & Hst & Hl).
  exists st, (sc_groups s). split_and!; [|done|done].
  unfold scan_block_fields. rewrite Hscan. cbn [mbind result_bind s sc_st_len sc_st_offset sc_fields sc_groups].
  assert ((if 0 <? blen body then ok_or (slice block (Z.to_nat off) (Z.to_nat (off + blen body))) Panic else Ok [])
    = Ok body) as ->.
  { destruct (Z.ltb_spec 0 (blen body)) as [_|Hz].
    - rewrite Hoff, Hblk. unfold blen. rewrite <- Nat2Z.inj_add, !Nat2Z.id. by rewrite slice_middle.
    - destruct body; [done|unfold blen in Hz; simpl in Hz; lia]. }
  cbn [mbind result_bind]. unfold scan_entries. fold body in Hst. by rewrite Hst.
Qed.

Lemma block_reads ss grp :
  let block := encode_bytes_field_always 1 (concat (string_field <$> ss)) ++ encode_bytes_field_always 2 grp in
  blen block + 8 * Z.of_nat (length ss + 1) < 2 ^ 32 -> reads_as block ss grp.
Proof.
  intros block Hlt. set (body := concat (string_field <$> ss)) in *.
  assert (blen body + blen grp <= blen block) as Hsz.
  { subst block. rewrite !encode_bytes_field_always_spec, !blen_app.
    pose proof (blen_nonneg (encode_tag 1 WIRE_LEN)). pose proof (blen_nonneg (encode_tag 2 WIRE_LEN)).
    pose proof (blen_nonneg (encode_varint (blen body))). pose proof (blen_nonneg (encode_varint (blen grp))). lia. }
  pose proof (blen_nonneg body). pose proof (blen_nonneg grp).
  assert (blen body < 2 ^ 62 /\ blen grp < 2 ^ 62) as [Hb Hg] by lia.
  assert (Forall fits ss) as Hfs by by apply fits_list.
  destruct (two_sections_scan ss grp) as (st & gr & Hscan & Hl1 & Hl2); [unfold fits; fold body; lia|unfold fits; lia|done|].
  fold body block in Hscan. exists st, gr. split; [done|].
  destruct (scan_fields_names block default_fields st gr Hscan ltac:(lia)) as (tb & grs & ss' & Hsec & Hss & Hst & Hgr).
  unfold block in Hsec at 1. rewrite two_sections in Hsec by (unfold fits; lia). injection Hsec as <- <-.
  unfold body in Hss. rewrite parse_strings in Hss by done. injection Hss as <-. cbn [app] in Hst.
  pose proof (inline_tables_names block default_fields st gr ss [grp] Hst Hgr ltac:(lia)) as Hi.
  destruct (inline_tables block st gr default_fields) as [buf meta]. destruct Hi as (Hi1 & Hi2 & Hi3 & Hi4).
  split_and!; [done|done|by apply (Hi3 0%nat)|done].
Qed.

(** ** Elements *)

Inductive Elem :=
| ENode (id lat lon : Z) (tags : list (bytes * bytes)) (meta : option Metadata)
| EWay (id : Z) (tags : list (bytes * bytes)) (refs : list Z) (meta : option Metadata)
| ELocatedWay (id : Z) (tags : list (bytes * bytes)) (refs : list Z) (locations : list (Z * Z))
    (meta : option Metadata)
| ERelation (id : Z) (tags : list (bytes * bytes)) (members : list MemberData) (meta : option Metadata).

Definition add_elem (b : BlockBuilder) (e : Elem) : BlockBuilder :=
  match e with
  | ENode id lat lon tags meta => add_node b id lat lon tags meta
  | EWay id tags refs meta => add_way b id tags refs meta
  | ELocatedWay id tags refs locs meta => add_way_with_locations b id tags refs locs meta
  | ERelation id tags members meta => add_relation b id tags members meta
  end.

Definition e_id (e : Elem) : Z :=
  match e with ENode id _ _ _ _ | EWay id _ _ _ | ELocatedWay id _ _ _ _ | ERelation id _ _ _ => id end.

Definition e_tags (e : Elem) : list (bytes * bytes) :=
  match e with
  | ENode _ _ _ tags _ | EWay _ tags _ _ | ELocatedWay _ tags _ _ _ | ERelation _ tags _ _ => tags
  end.

Definition e_meta (e : Elem) : option Metadata :=
  match e with ENode _ _ _ _ m | EWay _ _ _ m | ELocatedWay _ _ _ _ m | ERelation _ _ _ m => m end.

Definition e_type (e : Elem) : BlockType :=
  match e with ENode _ _ _ _ _ => DenseNodes | EWay _ _ _ _ | ELocatedWay _ _ _ _ _ => Ways | ERelation _ _ _ _ => Relations end.

(** How many table slots an element can add. *)
Definition e_cost (e : Elem) : nat :=
  (2 * length (e_tags e) + match e with ERelation _ _ ms _ => length ms | _ => 0 end + 1)%nat.

Definition e_ok (e : Elem) : Prop :=
  is_i64 (e_id e) /\ metas_ok (e_meta e) /\
  match e with
  | ENode _ lat lon _ _ => is_i32 lat /\ is_i32 lon
  | EWay _ _ refs _ => Forall is_i64 refs
  | ELocatedWay _ _ refs locs _ =>
      Forall is_i64 refs /\ Forall (fun l => is_i32 l.1 /\ is_i32 l.2) locs /\ length locs = length refs
  | ERelation _ _ ms _ => Forall (fun m => is_i64 (member_id (md_id m))) ms /\ unknown_member ms = None
  end.

(** ** Ranges *)

Definition e_track (r : Ranges) (e : Elem) : Ranges :=
  match e with
  | ENode id lat lon _ _ => track_id (track_coords r lat lon) id
  | _ => track_id r (e_id e)
  end.

(** Folding minima and maxima. *)
Definition mins (z : Z) (l : list Z) : Z := foldr Z.min z l.
Definition maxs (z : Z) (l : list Z) : Z := foldr Z.max z l.

Definition e_lats (es : list Elem) : list Z := omap (fun e => match e with ENode _ lat _ _ _ => Some lat | _ => None end) es.
Definition e_lons (es : list Elem) : list Z := omap (fun e => match e with ENode _ _ lon _ _ => Some lon | _ => None end) es.

Lemma mins_app z l k : mins z (l ++ k) = mins (mins z k) l.
Proof. unfold mins. by rewrite foldr_app. Qed.

Lemma maxs_app z l k : maxs z (l ++ k) = maxs (maxs z k) l.
Proof. unfold maxs. by rewrite foldr_app. Qed.

Lemma mins_snoc z l x : mins z (l ++ [x]) = Z.min x (mins z l).
Proof. rewrite mins_app. unfold mins. induction l as [|y l IH]; [done|]. cbn in *. lia. Qed.

Lemma maxs_snoc z l x : maxs z (l ++ [x]) = Z.max x (maxs z l).
Proof. rewrite maxs_app. unfold maxs. induction l as [|y l IH]; [done|]. cbn in *. lia. Qed.

Lemma ranges_spec es :
  foldl e_track ranges_empty es =
    mkRanges (mins i64_max (e_id <$> es)) (maxs i64_min (e_id <$> es))
      (mins i32_max (e_lats es)) (maxs i32_min (e_lats es)) (mins i32_max (e_lons es)) (maxs i32_min (e_lons es)).
Proof.
  induction es as [|e es IH] using rev_ind; [done|].
  rewrite foldl_snoc, IH. unfold e_lats, e_lons. rewrite fmap_app, !omap_app. cbn [fmap list_fmap].
  destruct e; cbn [e_track track_id track_coords omap list_omap e_id]; rewrite ?app_nil_r, ?mins_snoc, ?maxs_snoc.
  all: f_equal; repeat match goal with |- context [?a <? ?b] => destruct (Z.ltb_spec a b) end; lia.
Qed.

Lemma mins_least z l : (forall x, x ∈ l -> mins z l <= x) /\ (mins z l = z \/ mins z l ∈ l).
Proof.
  unfold mins. induction l as [|y l [IH1 IH2]]; [set_solver|]. cbn [foldr]. split.
  - intros x [->|Hx]%elem_of_cons; [lia|]. specialize (IH1 x Hx). lia.
  - destruct (Z.min_spec y (foldr Z.min z l)) as [[_ ->]|[_ ->]]; [set_solver|].
    destruct IH2 as [IH2|IH2]; [by left|right; by constructor].
Qed.

Lemma maxs_greatest z l : (forall x, x ∈ l -> x <= maxs z l) /\ (maxs z l = z \/ maxs z l ∈ l).
Proof.
  unfold maxs. induction l as [|y l [IH1 IH2]]; [set_solver|]. cbn [foldr]. split.
  - intros x [->|Hx]%elem_of_cons; [lia|]. specialize (IH1 x Hx). lia.
  - destruct (Z.max_spec y (foldr Z.max z l)) as [[_ ->]|[_ ->]]; [|set_solver].
    destruct IH2 as [IH2|IH2]; [by left|right; by constructor].
Qed.

(** The least and greatest of a nonempty list within the start value's bound. *)
Definition least (m : Z) (l : list Z) : Prop := m ∈ l /\ Forall (fun x => m <= x) l.
Definition greatest (m : Z) (l : list Z) : Prop := m ∈ l /\ Forall (fun x => x <= m) l.

Lemma mins_exact z l : l <> [] -> Forall (fun x => x <= z) l -> least (mins z l) l.
Proof.
  intros Hne HF. destruct (mins_least z l) as [Hle Hin]. split; [|by apply Forall_forall].
  destruct Hin as [Hz|]; [|done]. destruct l as [|x l]; [done|].
  assert (x = mins z (x :: l)) as Hx; [|rewrite <- Hx; left].
  apply Z.le_antisymm; [|apply Hle; left]. rewrite Hz. by apply Forall_inv in HF.
Qed.

Lemma maxs_exact z l : l <> [] -> Forall (fun x => z <= x) l -> greatest (maxs z l) l.
Proof.
  intros Hne HF. destruct (maxs_greatest z l) as [Hle Hin]. split; [|by apply Forall_forall].
  destruct Hin as [Hz|]; [|done]. destruct l as [|x l]; [done|].
  assert (x = maxs z (x :: l)) as Hx; [|rewrite <- Hx; left].
  apply Z.le_antisymm; [apply Hle; left|]. rewrite Hz. by apply Forall_inv in HF.
Qed.

(** ** Node columns *)

Definition flat (kvs : list (Z * Z)) : list Z := concat ((fun p => [p.1; p.2]) <$> kvs).

Definition pairs_say (t : StringTable) (ps : list (Z * Z)) (tags : list (bytes * bytes)) : Prop :=
  Forall2 (fun p tag => resolves t p.1 tag.1 /\ resolves t p.2 tag.2) ps tags.

Lemma pairs_say_prefix t t' ps tags :
  extends t t' -> pairs_say t ps tags -> pairs_say t' ps tags.
Proof. intros Hp HF. eapply Forall2_impl; [exact HF|]. intros p tag [Hk Hv]. split; by eapply resolves_prefix. Qed.

Lemma node_tags_spec tags t ki :
  wf t -> Z.of_nat (length (slots t) + 2 * length tags) < 2 ^ 31 ->
  let '(t', ki', kvs) := node_tags t ki tags in
  grown t t' (2 * length tags) /\ tracks t' ki ki' tags.*1 /\
  exists ps, kvs = flat ps /\ Forall kv_ok ps /\ pairs_say t' ps tags.
Proof.
  revert t ki. induction tags as [|[key val] tags IH]; intros t ki Hwf Hlt; cbn [node_tags].
  { split_and!; [split_and!; [done|done|lia]| |].
    - exists []. split; [set_solver|constructor].
    - exists []. split_and!; [done|constructor|constructor]. }
  cbn [length] in Hlt. destruct (add_spec t key Hwf ltac:(lia)) as (Hwf1 & Hp1 & Hl1 & Hi1 & Hs1 & _).
  destruct (StringTable.add t key) as [t1 k]. cbn [fst snd] in *.
  destruct (add_spec t1 val Hwf1 ltac:(lia)) as (Hwf2 & Hp2 & Hl2 & Hi2 & Hs2 & _).
  destruct (StringTable.add t1 val) as [t2 v]. cbn [fst snd] in *.
  assert (k < 2 ^ 31 /\ v < 2 ^ 31) as [Hk Hv].
  { pose proof (lookup_lt_Some _ _ _ Hs1). pose proof (lookup_lt_Some _ _ _ Hs2). rewrite length_strings in *. lia. }
  specialize (IH t2 ({[k]} ∪ ki) Hwf2 ltac:(lia)). destruct (node_tags t2 _ tags) as [[t' ki'] kvs].
  destruct IH as ((Hwf' & Hp & Hl) & (kis & -> & Hkis) & ps & -> & Hok & Hps).
  assert (resolves t1 k key /\ resolves t2 v val) as [Hrk Hrv] by (split; (split; [lia|done])).
  split_and!; [split_and!; [done|by repeat (etrans; [eassumption|])|cbn [length]; lia]| |].
  - exists (k :: kis). split; [cbn [list_to_set]; set_solver|]. constructor; [|done].
    apply (resolves_prefix t1); [by etrans|done].
  - exists ((k, v) :: ps). rewrite !as_s_id by (lia || (unfold is_s; lia)). split_and!; [done| |].
    + constructor; [|done]. unfold kv_ok. cbn. lia.
    + constructor; [|done]. split; [apply (resolves_prefix t1); [by etrans|done]|by apply (resolves_prefix t2)].
Qed.

(** ** Node metadata columns *)

Definition zero_col : InfoCol := mkInfoCol 0 0 0 0 0 true.

(** The slot stored for a node: its metadata, or zeros. *)
Definition col_says (t : StringTable) (c : InfoCol) (meta : option Metadata) : Prop :=
  match meta with
  | None => c = zero_col
  | Some m => meta_ok m /\ ic_version c = m_version m /\ ic_timestamp c = m_timestamp m /\
      ic_changeset c = m_changeset m /\ ic_uid c = m_uid m /\ ic_visible c = m_visible m /\
      is_i32 (ic_user_sid c) /\ resolves t (ic_user_sid c) (m_user m)
  end.

Lemma col_says_prefix t t' c meta : extends t t' -> col_says t c meta -> col_says t' c meta.
Proof. intros Hp. destruct meta as [m|]; [|done]. cbn. intros. intuition. by eapply resolves_prefix. Qed.

Lemma col_says_ok t c meta : col_says t c meta -> info_col_ok c.
Proof.
  destruct meta as [m|]; cbn.
  - intros ((Hv & Ht & Hc & Hu) & E1 & E2 & E3 & E4 & _ & Hs & _). unfold info_col_ok. by rewrite E1, E2, E3, E4.
  - intros ->. unfold info_col_ok, zero_col, is_s. cbn. lia.
Qed.

(** The accumulator holding the columns of [ms]. *)
Definition meta_cols (has : bool) (ms : list InfoCol) : DenseMeta :=
  mkDenseMeta (ic_version <$> ms) (wdeltas 64 0 (ic_timestamp <$> ms)) (wdeltas 64 0 (ic_changeset <$> ms))
    (wdeltas 32 0 (ic_uid <$> ms)) (wdeltas 32 0 (ic_user_sid <$> ms)) (ic_visible <$> ms) has
    (default 0 (last (ic_timestamp <$> ms))) (default 0 (last (ic_changeset <$> ms)))
    (default 0 (last (ic_uid <$> ms))) (default 0 (last (ic_user_sid <$> ms))).

Definition raw_of (c : InfoCol) : RawMetadata :=
  mkRawMeta (ic_version c) (ic_timestamp c) (ic_changeset c) (ic_uid c) (ic_user_sid c) (ic_visible c).

Lemma push_col has ms c : add_dense_metadata_raw (meta_cols has ms) (raw_of c) = meta_cols true (ms ++ [c]).
Proof.
  unfold add_dense_metadata_raw, meta_cols. cbn. rewrite !fmap_app. cbn [fmap list_fmap].
  by rewrite !wdeltas_snoc, !last_snoc.
Qed.

Lemma push_zero_col ms : push_default_dense_metadata (meta_cols true ms) = meta_cols true (ms ++ [zero_col]).
Proof. rewrite <- (push_col true). done. Qed.

Lemma backfill_cols n :
  backfill meta_empty (Z.of_nat n) = meta_cols (bool_decide (0 < n)%nat) (replicate n zero_col).
Proof.
  unfold backfill. cbn [dm_has meta_empty negb andb]. destruct (Z.ltb_spec 0 (Z.of_nat n)).
  - rewrite bool_decide_eq_true_2 by lia. unfold backfill_default_dense_metadata, meta_cols. cbn. rewrite Nat2Z.id.
    rewrite !fmap_replicate. cbn [zero_col ic_version ic_timestamp ic_changeset ic_uid ic_user_sid ic_visible].
    rewrite !wdeltas_zeros by lia. assert (default 0 (last (replicate n 0)) = 0) as ->; [|done].
    destruct n as [|n]; [done|]. rewrite replicate_S_end. by rewrite last_snoc.
  - assert (n = 0)%nat as -> by lia. done.
Qed.

(** The metadata accumulator after nodes with these metadata. *)
Definition meta_inv (t : StringTable) (d : DenseMeta) (metas : list (option Metadata)) : Prop :=
  (d = meta_empty /\ Forall (.= None) metas) \/
  (exists ms, d = meta_cols true ms /\ Forall2 (col_says t) ms metas /\ ~ Forall (.= None) metas).

Lemma meta_inv_prefix t t' d metas : extends t t' -> meta_inv t d metas -> meta_inv t' d metas.
Proof.
  intros Hp [?|(ms & -> & HF & Hn)]; [by left|]. right. exists ms. split_and!; [done| |done].
  eapply Forall2_impl; [exact HF|]. intros c m. by apply col_says_prefix.
Qed.

Lemma node_meta_spec t d metas meta :
  wf t -> Z.of_nat (length (slots t)) + 1 < 2 ^ 31 -> metas_ok meta -> meta_inv t d metas ->
  let '(t', d') := node_meta t d (Z.of_nat (length metas)) meta in
  grown t t' 1 /\ meta_inv t' d' (metas ++ [meta]).
Proof.
  intros Hwf Hlt Hm Hinv. destruct meta as [m|]; cbn [node_meta].
  - unfold add_dense_metadata. destruct (add_spec t (m_user m) Hwf ltac:(lia)) as (Hwf1 & Hp1 & Hl1 & Hi1 & Hs1 & _).
    destruct (StringTable.add t (m_user m)) as [t1 sid]. cbn [fst snd] in *.
    assert (sid < 2 ^ 31). { pose proof (lookup_lt_Some _ _ _ Hs1). rewrite length_strings in *. lia. }
    rewrite as_s_id by (lia || (unfold is_s; lia)).
    set (c := mkInfoCol (m_version m) (m_timestamp m) (m_changeset m) (m_uid m) sid (m_visible m)).
    change (mkRawMeta _ _ _ _ _ _) with (raw_of c).
    assert (col_says t1 c (Some m)) as Hc.
    { cbn. split_and!; try done; try (unfold is_s; lia); split; try done; lia. }
    split; [split_and!; [done|done|lia]|]. right.
    assert (~ Forall (.= None) (metas ++ [Some m])) as Hsome by (intros [_ Hbad%Forall_inv]%Forall_app; done).
    destruct Hinv as [[-> HN]|(ms & -> & HF & _)].
    + rewrite backfill_cols, push_col. eexists. split_and!; [done| |done]. apply Forall2_app; [|by constructor].
      clear -HN. induction HN as [|x l -> _ IH]; [constructor|]. cbn. by constructor.
    + unfold backfill. cbn [dm_has meta_cols negb andb]. rewrite push_col. eexists. split_and!; [done| |done].
      apply Forall2_app; [|by constructor]. eapply Forall2_impl; [exact HF|]. intros c' m'. by apply col_says_prefix.
  - destruct Hinv as [[-> HN]|(ms & -> & HF & Hn)]; cbn [dm_has meta_empty meta_cols].
    + split; [split_and!; [done|done|lia]|]. left. split; [done|]. apply Forall_app. by split; [|constructor].
    + fold (meta_cols true ms). rewrite push_zero_col. split; [split_and!; [done|done|lia]|]. right. eexists.
      split_and!; [done| |by intros [? _]%Forall_app]. apply Forall2_app; [done|]. by constructor.
Qed.

(** ** The builder's invariant *)

Definition total_cost (es : list Elem) : nat := sum_list_with e_cost es.

Lemma total_cost_snoc es e : total_cost (es ++ [e]) = (total_cost es + e_cost e)%nat.
Proof. unfold total_cost. rewrite sum_list_with_app. cbn [sum_list_with]. lia. Qed.

(** The tracked key indices are those of the added tag keys. *)
Definition keys_inv (t : StringTable) (ki : gset Z) (es : list Elem) : Prop :=
  (forall i, i ∈ ki -> exists e key, e ∈ es /\ key ∈ (e_tags e).*1 /\ resolves t i key) /\
  (forall e key, e ∈ es -> key ∈ (e_tags e).*1 -> exists i, i ∈ ki /\ resolves t i key).

Lemma keys_inv_step t t' ki ki' es e :
  keys_inv t ki es -> extends t t' -> tracks t' ki ki' (e_tags e).*1 ->
  keys_inv t' ki' (es ++ [e]).
Proof.
  intros [H1 H2] Hp (kis & -> & HF). split.
  - intros i [Hi|Hi]%elem_of_union.
    + apply elem_of_list_to_set, list_elem_of_lookup in Hi as [j Hj].
      destruct (Forall2_lookup_l _ _ _ _ _ HF Hj) as (key & Hk & Hr).
      exists e, key. split_and!; [set_solver|by eapply list_elem_of_lookup_2|done].
    + destruct (H1 i Hi) as (e' & key & He & Hk & Hr). exists e', key.
      split_and!; [set_solver|done|by eapply resolves_prefix].
  - intros e' key He Hk. apply elem_of_app in He as [He|He]; [|apply list_elem_of_singleton in He as ->].
    + destruct (H2 e' key He Hk) as (i & Hi & Hr). exists i. split; [set_solver|by eapply resolves_prefix].
    + apply list_elem_of_lookup in Hk as [j Hj]. destruct (Forall2_lookup_r _ _ _ _ _ HF Hj) as (i & Hi & Hr).
      exists i. split; [|done]. apply elem_of_union_l, elem_of_list_to_set. by eapply list_elem_of_lookup_2.
Qed.

Record common (cap : Z) (k : BlockType) (es : list Elem) (b : BlockBuilder) : Prop := {
  cm_wf : wf (bb_table b);
  cm_distinct : distinct (bb_table b);
  cm_slots : (length (slots (bb_table b)) <= 1 + total_cost es)%nat;
  cm_type : bb_type b = match es with [] => None | _ => Some k end;
  cm_count : bb_count b = Z.of_nat (length es);
  cm_cap : bb_cap b = cap;
  cm_seeded : bb_seeded b = None;
  cm_poison : bb_poison b = None;
  cm_ranges : bb_ranges b = foldl e_track ranges_empty es;
  cm_keys : keys_inv (bb_table b) (bb_tag_keys b) es;
}.

Lemma common_new cap k : common cap k [] (with_element_cap cap).
Proof.
  split; try done; cbn.
  - apply wf_fresh.
  - apply distinct_fresh.
  - split; set_solver.
Qed.

Lemma common_step cap k es e b t' ki' td cols meta gr eb :
  common cap k es b -> grown (bb_table b) t' (e_cost e) -> tracks t' (bb_tag_keys b) ki' (e_tags e).*1 ->
  common cap k (es ++ [e]) (mkBuilder t' (Some k) (bb_count b + 1) (bb_cap b) (e_track (bb_ranges b) e) ki' td
    cols meta gr eb (bb_seeded b) (bb_poison b)).
Proof.
  intros [] (Hwf & Hp & Hl) Ht. split; cbn; try done.
  - by apply Hp.
  - rewrite total_cost_snoc. lia.
  - by destruct es.
  - rewrite length_app. cbn. lia.
  - by rewrite foldl_snoc, cm_ranges0.
  - by eapply keys_inv_step.
Qed.

Lemma common_can_add cap k es b :
  common cap k es b -> Z.of_nat (length es) < cap -> can_add b k = true.
Proof.
  intros [] Hlt. unfold can_add. rewrite cm_type0. destruct es; [done|]. rewrite decide_True by done.
  unfold should_flush. rewrite cm_count0, cm_cap0. by destruct (Z.leb_spec cap (Z.of_nat (length (e :: es)))); [lia|].
Qed.

(** ** Content: dense columns *)

Definition node_cols (cs : list NodeCol) : DenseCols :=
  mkCols (wdeltas 64 0 (c_id <$> cs)) (wdeltas 64 0 (c_lat <$> cs)) (wdeltas 64 0 (c_lon <$> cs))
    (concat ((fun c => flat (c_kvs c) ++ [0]) <$> cs))
    (default 0 (last (c_id <$> cs))) (default 0 (last (c_lat <$> cs))) (default 0 (last (c_lon <$> cs))).

Definition col_of (t : StringTable) (c : NodeCol) (e : Elem) : Prop :=
  match e with
  | ENode id lat lon tags _ =>
      c_id c = id /\ c_lat c = lat /\ c_lon c = lon /\ Forall kv_ok (c_kvs c) /\ pairs_say t (c_kvs c) tags
  | _ => False
  end.

Lemma col_of_prefix t t' c e : extends t t' -> col_of t c e -> col_of t' c e.
Proof. intros Hp. destruct e; cbn; try done. intros (? & ? & ? & ? & ?). split_and!; try done. by eapply pairs_say_prefix. Qed.

Lemma push_node_col cs id lat lon ps :
  push_kvs (push_cols (node_cols cs) id lat lon) (flat ps ++ [0]) = node_cols (cs ++ [mkCol id lat lon ps]).
Proof.
  unfold push_kvs, push_cols, node_cols. cbn. rewrite !fmap_app, concat_app. cbn [fmap list_fmap concat].
  by rewrite !wdeltas_snoc, !last_snoc, app_nil_r.
Qed.

Definition nodes_inv (es : list Elem) (b : BlockBuilder) : Prop :=
  (exists cs, bb_cols b = node_cols cs /\ Forall2 (col_of (bb_table b)) cs es) /\
  meta_inv (bb_table b) (bb_meta b) (e_meta <$> es).

Lemma add_node_step cap es b id lat lon tags meta :
  let e := ENode id lat lon tags meta in
  common cap DenseNodes es b -> nodes_inv es b -> e_ok e -> Z.of_nat (length es) < cap ->
  Z.of_nat (1 + total_cost (es ++ [e])) < 2 ^ 31 ->
  common cap DenseNodes (es ++ [e]) (add_node b id lat lon tags meta) /\
  nodes_inv (es ++ [e]) (add_node b id lat lon tags meta).
Proof.
  intros e Hc Hn (Hid & Hm & Hlat & Hlon) Hcap Hcost. unfold add_node.
  rewrite (common_can_add _ _ _ _ Hc Hcap). cbn [negb]. pose proof Hc as Hc'.
  destruct b as [t ty n cap' rg ki td cols dm gr eb sd po]. destruct Hc' as []. destruct Hn as ((cs & Hcs & HF) & Hmi).
  cbn in cm_wf0, cm_slots0, cm_count0, Hcs, HF, Hmi. subst cols n.
  assert (total_cost (es ++ [e]) = total_cost es + (2 * length tags + 1))%nat as Htot.
  { rewrite total_cost_snoc. cbn. lia. }
  pose proof (node_tags_spec tags t ki cm_wf0 ltac:(lia)) as Ht.
  destruct (node_tags t ki tags) as [[t1 ki1] kvs]. destruct Ht as ((Hwf1 & Hp1 & Hl1) & Htr & ps & -> & Hok & Hps).
  pose proof (node_meta_spec t1 dm (e_meta <$> es) meta Hwf1 ltac:(lia) Hm (meta_inv_prefix _ _ _ _ Hp1 Hmi)) as Hmt.
  rewrite length_fmap in Hmt. destruct (node_meta t1 dm _ meta) as [t2 d2].
  destruct Hmt as ((Hwf2 & Hp2 & Hl2) & Hmi2). split.
  - apply (common_step cap DenseNodes es e _ t2 ki1 td _ d2 gr eb Hc).
    + split_and!; [done|by etrans|cbn; lia].
    + destruct Htr as (kis & -> & Hk). exists kis. split; [done|]. by eapply Forall2_resolves_prefix.
  - split; cbn.
    + eexists. rewrite push_node_col. split; [done|]. apply Forall2_app.
      * eapply Forall2_impl; [exact HF|]. intros c e'. apply col_of_prefix. by etrans.
      * constructor; [|constructor]. cbn. split_and!; [done..|by eapply pairs_say_prefix].
    + by rewrite fmap_app.
Qed.

(** ** Content: encoded ways and relations *)

Definition elem_reads (t : StringTable) (eb : bytes) (e : Elem) : Prop :=
  match e with
  | ENode _ _ _ _ _ => False
  | EWay id tags refs meta => exists w, WireWay_parse eb = Ok w /\ way_says t w id tags refs [] meta
  | ELocatedWay id tags refs locs meta => exists w, WireWay_parse eb = Ok w /\ way_says t w id tags refs locs meta
  | ERelation id tags members meta => exists r, WireRelation_parse eb = Ok r /\ relation_says t r id tags members meta
  end.

Lemma elem_reads_prefix t t' eb e :
  extends t t' -> elem_reads t eb e -> elem_reads t' eb e.
Proof.
  intros Hp. destruct e; cbn; try done; intros (x & Hx & Hs); exists x; (split; [done|]).
  1, 2: by eapply way_says_prefix.
  by eapply relation_says_prefix.
Qed.

Definition elem_encoded (t : StringTable) (eb : bytes) (e : Elem) : Prop :=
  (e_id e <> 0 -> eb <> []) /\ (fits eb -> elem_reads t eb e).

(** The group field the kind is written as. *)
Definition group_field (k : BlockType) : Z := match k with DenseNodes => 2 | Ways => 3 | Relations => 4 end.

Definition group_inv (k : BlockType) (es : list Elem) (b : BlockBuilder) : Prop :=
  exists ebs, bb_group b = concat (encode_bytes_field (group_field k) <$> ebs) /\
    Forall2 (elem_encoded (bb_table b)) ebs es.

Lemma group_step cap k es e b t' eb ki' :
  common cap k es b -> group_inv k es b -> grown (bb_table b) t' (e_cost e) ->
  tracks t' (bb_tag_keys b) ki' (e_tags e).*1 -> elem_encoded t' eb e ->
  e_track (bb_ranges b) e = track_id (bb_ranges b) (e_id e) ->
  let b' := mkBuilder t' (Some k) (bb_count b + 1) (bb_cap b) (track_id (bb_ranges b) (e_id e)) ki' (bb_tagdata b)
    (bb_cols b) (bb_meta b) (bb_group b ++ encode_bytes_field (group_field k) eb) (bb_encode_buf b) (bb_seeded b)
    (bb_poison b) in
  common cap k (es ++ [e]) b' /\ group_inv k (es ++ [e]) b'.
Proof.
  intros Hc (ebs & Hg & HF) Hgr Htr He Hrg b'. split.
  - unfold b'. rewrite <- Hrg. by apply common_step.
  - exists (ebs ++ [eb]). unfold b'. cbn [bb_group bb_table]. rewrite Hg, fmap_app, concat_app. cbn [fmap list_fmap concat].
    rewrite app_nil_r. split; [done|]. apply Forall2_app; [|by constructor].
    eapply Forall2_impl; [exact HF|]. intros eb' e' [Hne Hr]. split; [done|]. intros Hf.
    destruct Hgr as (_ & Hp & _). by eapply elem_reads_prefix, Hr.
Qed.

Lemma add_way_step cap es b id tags refs meta :
  let e := EWay id tags refs meta in
  common cap Ways es b -> group_inv Ways es b -> e_ok e -> Z.of_nat (length es) < cap ->
  Z.of_nat (1 + total_cost (es ++ [e])) < 2 ^ 31 ->
  common cap Ways (es ++ [e]) (add_elem b e) /\ group_inv Ways (es ++ [e]) (add_elem b e).
Proof.
  intros e Hc Hg (Hid & Hm & Hrefs) Hcap Hcost. cbn [add_elem e]. unfold add_way.
  rewrite (common_can_add _ _ _ _ Hc Hcap). cbn [negb]. rewrite total_cost_snoc in Hcost. cbn in Hcost.
  pose proof (cm_slots _ _ _ _ Hc). unfold encode_way.
  pose proof (way_elem_spec (bb_table b) (bb_tag_keys b) id tags refs meta (cm_wf _ _ _ _ Hc) ltac:(lia) Hid Hrefs Hm) as Hs.
  destruct b as [t ty n cap' rg ki td cols dm gr eb sd po]. cbn [bb_table bb_tag_keys] in *.
  destruct (way_elem t ki id tags refs meta) as [[t' elem] ki']. destruct Hs as (Hgr & Htr & Hne & Hw).
  apply (group_step cap Ways es e _ t' elem ki' Hc Hg); [|done|by split|done].
  destruct Hgr as (? & ? & ?). split_and!; [done|done|cbn; lia].
Qed.

Lemma add_located_step cap es b id tags refs locs meta :
  let e := ELocatedWay id tags refs locs meta in
  common cap Ways es b -> group_inv Ways es b -> e_ok e -> Z.of_nat (length es) < cap ->
  Z.of_nat (1 + total_cost (es ++ [e])) < 2 ^ 31 ->
  common cap Ways (es ++ [e]) (add_elem b e) /\ group_inv Ways (es ++ [e]) (add_elem b e).
Proof.
  intros e Hc Hg (Hid & Hm & Hrefs & Hlocs & Hlen) Hcap Hcost. cbn [add_elem e]. unfold add_way_with_locations.
  rewrite decide_False by (by intros []). rewrite (common_can_add _ _ _ _ Hc Hcap). cbn [negb].
  rewrite total_cost_snoc in Hcost. cbn in Hcost. pose proof (cm_slots _ _ _ _ Hc). unfold encode_way_with_locations.
  pose proof (way_loc_elem_spec (bb_table b) (bb_tag_keys b) id tags refs locs meta (cm_wf _ _ _ _ Hc) ltac:(lia) Hid Hrefs
    Hlocs Hlen Hm) as Hs.
  destruct b as [t ty n cap' rg ki td cols dm gr eb sd po]. cbn [bb_table bb_tag_keys] in *.
  destruct (way_loc_elem t ki id tags refs locs meta) as [[t' elem] ki']. destruct Hs as (Hgr & Htr & Hne & Hw).
  apply (group_step cap Ways es e _ t' elem ki' Hc Hg); [|done|by split|done].
  destruct Hgr as (? & ? & ?). split_and!; [done|done|cbn; lia].
Qed.

Lemma add_relation_step cap es b id tags members meta :
  let e := ERelation id tags members meta in
  common cap Relations es b -> group_inv Relations es b -> e_ok e -> Z.of_nat (length es) < cap ->
  Z.of_nat (1 + total_cost (es ++ [e])) < 2 ^ 31 ->
  common cap Relations (es ++ [e]) (add_elem b e) /\ group_inv Relations (es ++ [e]) (add_elem b e).
Proof.
  intros e Hc Hg (Hid & Hm & Hmem & Hunk) Hcap Hcost. cbn [add_elem e]. unfold add_relation. rewrite Hunk.
  rewrite (common_can_add _ _ _ _ Hc Hcap). cbn [negb].
  rewrite total_cost_snoc in Hcost. cbn in Hcost. pose proof (cm_slots _ _ _ _ Hc). unfold encode_relation.
  pose proof (relation_elem_spec (bb_table b) (bb_tag_keys b) id tags members meta (cm_wf _ _ _ _ Hc) ltac:(lia) Hid Hmem Hm) as Hs.
  destruct b as [t ty n cap' rg ki td cols dm gr eb sd po]. cbn [bb_table bb_tag_keys] in *.
  destruct (relation_elem t ki id tags members meta) as [[t' elem] ki']. destruct Hs as (Hgr & Htr & Hne & Hw).
  apply (group_step cap Relations es e _ t' elem ki' Hc Hg); [|done|by split|done].
  destruct Hgr as (? & ? & ?). split_and!; [done|done|cbn; lia].
Qed.

(** ** Filling a block *)

Definition content (k : BlockType) (es : list Elem) (b : BlockBuilder) : Prop :=
  match k with DenseNodes => nodes_inv es b | _ => group_inv k es b end.

(** What a caller must respect for a block of kind [k] to take [es]. *)
Definition block_ok (cap : Z) (k : BlockType) (es : list Elem) : Prop :=
  Forall e_ok es /\ Forall (fun e => e_type e = k) es /\ Z.of_nat (length es) <= cap /\
  Z.of_nat (1 + total_cost es) < 2 ^ 31.

Definition fill (cap : Z) (es : list Elem) : BlockBuilder := foldl add_elem (with_element_cap cap) es.

Lemma fill_spec cap k es : block_ok cap k es -> common cap k es (fill cap es) /\ content k es (fill cap es).
Proof.
  induction es as [|e es IH] using rev_ind; intros (Hok & Hty & Hcap & Hcost).
  { split; [apply common_new|]. destruct k; cbn.
    - split; [exists []; split; [done|constructor]|]. left. split; [done|constructor].
    - exists []. split; [done|constructor].
    - exists []. split; [done|constructor]. }
  apply Forall_app in Hok as [Hok He%Forall_inv]. apply Forall_app in Hty as [Hty Hk%Forall_inv].
  rewrite length_app in Hcap. cbn [length] in Hcap.
  destruct IH as [Hc Hn]; [rewrite total_cost_snoc in Hcost; split_and!; [done|done|lia|lia]|].
  unfold fill in *. rewrite foldl_snoc. subst k.
  destruct e; cbn [e_type content] in *;
    [apply add_node_step|apply add_way_step|apply add_located_step|apply add_relation_step]; try done; lia.
Qed.

(** ** Tagdata *)

Definition used_key (es : list Elem) (key : bytes) : Prop := exists e, e ∈ es /\ key ∈ (e_tags e).*1.

(** Tagdata lists exactly the tag keys of the block; it is left out only for a
    block without tags or with keys the format cannot hold. *)
Definition tagdata_says (es : list Elem) (td : option bytes) : Prop :=
  match td with
  | Some tb => exists ti, TagIndex.deserialize tb = Some ti /\ forall key, key ∈ keys ti <-> used_key es key
  | None => (forall key, ~ used_key es key) \/
      exists ks, NoDup ks /\ Forall (used_key es) ks /\
        ((TAG_INDEX_MAX_KEYS < length ks)%nat \/ exists k, k ∈ ks /\ (TAG_INDEX_MAX_KEY_LEN < length k)%nat)
  end.

(** The strings of the tracked indices: the used keys, each once. *)
Lemma tracked_strings t ki es :
  wf t -> distinct t -> keys_inv t ki es ->
  exists ks, mapM (fun i => get t (Z.to_nat i)) (elements ki) = Some ks /\ NoDup ks /\
    forall key, key ∈ ks <-> used_key es key.
Proof.
  intros Hwf Hd [H1 H2].
  assert (forall l, NoDup l -> (forall i, i ∈ l -> i ∈ ki) ->
    exists ks, mapM (fun i => get t (Z.to_nat i)) l = Some ks /\ NoDup ks /\
      forall key, key ∈ ks <-> exists i, i ∈ l /\ resolves t i key) as Hl.
  { induction l as [|i l IH]; intros Hnd Hin.
    { exists []. split_and!; [done|constructor|]. set_solver. }
    apply NoDup_cons in Hnd as [Hni Hnd]. destruct IH as (ks & Hks & Hnk & Hiff); [done|set_solver|].
    destruct (H1 i ltac:(set_solver)) as (e & key & _ & _ & Hr & Hs).
    exists (key :: ks). cbn [mapM]. rewrite get_strings by apply (wf_slots t Hwf). rewrite Hs. cbn [mbind option_bind].
    rewrite Hks. cbn [mbind option_bind]. split_and!; [done| |].
    - apply NoDup_cons. split; [|done]. rewrite Hiff. intros (j & Hj & Hrj & Hsj).
      assert (Z.to_nat i = Z.to_nat j) by (apply (Hd _ _ key); [lia|lia|done|done]).
      assert (i = j) as -> by lia. done.
    - intros k. rewrite elem_of_cons, Hiff. split.
      + intros [->|(j & Hj & Hrj)]; [exists i; split; [set_solver|done]|exists j; split; [set_solver|done]].
      + intros (j & [->|Hj]%elem_of_cons & Hrj & Hsj); [left; congruence|right; by exists j]. }
  destruct (Hl (elements ki)) as (ks & Hks & Hnd & Hiff); [apply NoDup_elements|set_solver|].
  exists ks. split_and!; [done|done|]. intros key. rewrite Hiff. unfold used_key. split.
  - intros (i & Hi & Hr & Hs). destruct (H1 i ltac:(set_solver)) as (e & key' & He & Hk & Hr' & Hs').
    exists e. split; [done|]. congruence.
  - intros (e & He & Hk). destruct (H2 e key He Hk) as (i & Hi & Hr). exists i. split; [set_solver|done].
Qed.

Lemma build_tagdata_spec cap k es b :
  common cap k es b -> exists td, build_tagdata b = Ok td /\ tagdata_says es td.
Proof.
  intros Hc. destruct (tracked_strings _ _ _ (cm_wf _ _ _ _ Hc) (cm_distinct _ _ _ _ Hc) (cm_keys _ _ _ _ Hc))
    as (ks & Hks & Hnd & Hiff).
  unfold build_tagdata. destruct (elements (bb_tag_keys b)) as [|i idxs] eqn:He.
  { exists None. split; [done|]. left. intros key. rewrite <- Hiff. injection Hks as <-. set_solver. }
  rewrite Hks. cbn [ok_or mbind result_bind]. rewrite (cm_seeded _ _ _ _ Hc).
  set (sorted := merge_sort bytes_le ks). eexists. split; [done|].
  assert (sorted ≡ₚ ks) as Hperm by apply merge_sort_Permutation.
  assert (ascending sorted) as Ha.
  { apply sorted_nodup_ascending; [apply (StronglySorted_merge_sort bytes_le)|by rewrite Hperm]. }
  destruct (encode_tag_index (length sorted) sorted) as [tb|] eqn:Ht.
  - eexists. split; [by apply encode_tag_index_decodes|]. intros key. cbn [keys]. by rewrite Hperm.
  - right. exists sorted. split_and!; [by rewrite Hperm| |by apply encode_tag_index_refused].
    apply Forall_forall. intros key. by rewrite Hperm, Hiff.
Qed.

End Spec.
