(* ===== verification/BlockRoundtrip.v ===== *)
(** * Blocks out and back in

    Taking a filled block and reading it with the readers: the blob index and
    tagdata describe exactly what was added, and the decoded elements are the
    added ones, for dense nodes, ways and relations. *)

From S2P Require Import Prelude Proto Wire WireBlock ElementKind BlobMeta TagIndex StringTable Encode Dense Block.
From S2P Require Import BlockBuilder BuilderSpec.

Section BlockRoundtrip.
Context `{L : ProtohoggrLaws} {H : HashIndex}.

Abbreviation string_field := (encode_bytes_field_always 1).

(** ** Dense messages *)

Ltac arms := unfold arm_varint, arm_len, arm_packed; cbn -[take_packed take_message encode_varint as_s as_u].

(** One packed field of a message, and one submessage field. *)
Ltac packed_turn step f d st :=
  rewrite (parse_bytes_field _ step _ f d _ st);
    [|lia|by intros ->|intros _; arms; rewrite take_packed_fresh by done; done].

Lemma dense_info_parse d :
  fits (dense_info_body d) ->
  exists i, WireDenseInfo_parse (dense_info_body d) = Ok i /\
    i = mkWireDenseInfo (concat ((fun z => encode_varint (as_u64 z)) <$> dm_versions d))
      (concat ((fun z => encode_varint (zigzag_encode_64 z)) <$> dm_timestamps d))
      (concat ((fun z => encode_varint (zigzag_encode_64 z)) <$> dm_changesets d))
      (concat ((fun z => encode_varint (zigzag_encode_32 z)) <$> dm_uids d))
      (concat ((fun z => encode_varint (zigzag_encode_32 z)) <$> dm_user_sids d))
      (Z.b2z <$> dm_visibles d).
Proof.
  unfold dense_info_body. rewrite encode_packed_int32_spec, !encode_packed_sint64_spec, !encode_packed_sint32_spec,
    encode_packed_bool_spec.
  set (ver := concat (_ <$> dm_versions d)). set (ts := concat (_ <$> dm_timestamps d)).
  set (cs := concat (_ <$> dm_changesets d)). set (uid := concat (_ <$> dm_uids d)).
  set (sid := concat (_ <$> dm_user_sids d)). set (vis := Z.b2z <$> dm_visibles d).
  unfold fits. rewrite !blen_app. intros Hfit.
  pose proof (field_ge 1 ver). pose proof (field_ge 2 ts). pose proof (field_ge 3 cs). pose proof (field_ge 4 uid).
  pose proof (field_ge 5 sid). pose proof (field_ge 6 vis).
  pose proof (blen_nonneg ver). pose proof (blen_nonneg ts). pose proof (blen_nonneg cs).
  pose proof (blen_nonneg uid). pose proof (blen_nonneg sid). pose proof (blen_nonneg vis).
  assert (fits ver /\ fits ts /\ fits cs /\ fits uid /\ fits sid /\ fits vis) as (? & ? & ? & ? & ? & ?)
    by (unfold fits; lia).
  eexists. split; [|done]. unfold WireDenseInfo_parse.
  packed_turn WireDenseInfo_shrinks 1 ver (mkWireDenseInfo ver [] [] [] [] []).
  packed_turn WireDenseInfo_shrinks 2 ts (mkWireDenseInfo ver ts [] [] [] []).
  packed_turn WireDenseInfo_shrinks 3 cs (mkWireDenseInfo ver ts cs [] [] []).
  packed_turn WireDenseInfo_shrinks 4 uid (mkWireDenseInfo ver ts cs uid [] []).
  packed_turn WireDenseInfo_shrinks 5 sid (mkWireDenseInfo ver ts cs uid sid []).
  rewrite <- (app_nil_r (encode_bytes_field 6 vis)).
  packed_turn WireDenseInfo_shrinks 6 vis (mkWireDenseInfo ver ts cs uid sid vis).
  apply parse_nil.
Qed.

Lemma dense_nodes_parse c d :
  fits (dense_body c d) ->
  WireDenseNodes_parse (dense_body c d) =
    Ok (mkWireDenseNodes (concat ((fun z => encode_varint (zigzag_encode_64 z)) <$> dc_ids c))
      (concat ((fun z => encode_varint (zigzag_encode_64 z)) <$> dc_lats c))
      (concat ((fun z => encode_varint (zigzag_encode_64 z)) <$> dc_lons c))
      (concat ((fun z => encode_varint (as_u64 z)) <$> dc_keys_vals c))
      (info_read (if dm_has d then Some (dense_info_body d) else None))) /\
  (dm_has d = true -> fits (dense_info_body d)).
Proof.
  unfold dense_body. rewrite encode_packed_int32_spec, !encode_packed_sint64_spec.
  set (ids := concat (_ <$> dc_ids c)). set (lats := concat (_ <$> dc_lats c)). set (lons := concat (_ <$> dc_lons c)).
  set (kvs := concat (_ <$> dc_keys_vals c)). set (info := dense_info_body d).
  set (inf := if dm_has d then _ else _). unfold fits at 1. rewrite !blen_app. intros Hfit.
  pose proof (field_ge 1 ids). pose proof (field_ge 8 lats). pose proof (field_ge 9 lons). pose proof (field_ge 10 kvs).
  pose proof (field_ge 5 info). pose proof (blen_nonneg inf).
  pose proof (blen_nonneg ids). pose proof (blen_nonneg lats). pose proof (blen_nonneg lons). pose proof (blen_nonneg kvs).
  assert (fits ids /\ fits lats /\ fits lons /\ fits kvs) as (? & ? & ? & ?) by (unfold fits; lia).
  assert (dm_has d = true -> fits info) as Hfi by (intros Hh; unfold inf in *; rewrite Hh in *; unfold fits; lia).
  split; [|done]. unfold WireDenseNodes_parse.
  packed_turn WireDenseNodes_shrinks 1 ids (mkWireDenseNodes ids [] [] [] None).
  assert (forall r, parse WireDenseNodes_step (mkWireDenseNodes ids [] [] [] None) (inf ++ r) =
    parse WireDenseNodes_step (mkWireDenseNodes ids [] [] [] (info_read (if dm_has d then Some info else None))) r) as ->.
  { intros r. unfold inf. destruct (dm_has d); [|done].
    apply (parse_bytes_field _ WireDenseNodes_shrinks); [lia|by intros ->|]. intros Hne. arms.
    rewrite take_message_fresh by auto. by destruct info. }
  set (i := info_read _).
  packed_turn WireDenseNodes_shrinks 8 lats (mkWireDenseNodes ids lats [] [] i).
  packed_turn WireDenseNodes_shrinks 9 lons (mkWireDenseNodes ids lats lons [] i).
  rewrite <- (app_nil_r (encode_bytes_field 10 kvs)).
  packed_turn WireDenseNodes_shrinks 10 kvs (mkWireDenseNodes ids lats lons kvs i).
  apply parse_nil.
Qed.

Lemma kv_column cs :
  concat ((fun z => encode_varint (as_u64 z)) <$> concat ((fun c => flat (c_kvs c) ++ [0]) <$> cs)) = kv_all cs.
Proof.
  assert (forall ps, concat ((fun z => encode_varint (as_u64 z)) <$> flat ps) = kvb ps) as Hflat.
  { induction ps as [|p ps IH]; [done|]. unfold flat, kvb in *. cbn [fmap list_fmap concat app]. cbn in IH |- *.
    by rewrite IH, <- !app_assoc. }
  induction cs as [|c cs IH]; [done|]. cbn [fmap list_fmap concat]. unfold kv_all in *. cbn [fmap list_fmap concat].
  rewrite !fmap_app, !concat_app, Hflat. cbn [fmap list_fmap concat] in *. rewrite IH, app_nil_r. done.
Qed.

Lemma info_body_nonempty ms has : ms <> [] -> Forall info_col_ok ms -> dense_info_body (meta_cols has ms) <> [].
Proof.
  intros Hne HF. destruct ms as [|m ms]; [done|]. apply Forall_inv in HF as (Hv & _).
  unfold dense_info_body. cbn [meta_cols dm_versions fmap list_fmap]. rewrite encode_packed_int32_spec.
  cbn [fmap list_fmap concat]. pose proof (encode_varint_pos (as_u64 (ic_version m)) ltac:(apply as_u_range; lia)) as Hp.
  destruct (encode_varint (as_u64 (ic_version m))) as [|x r] eqn:He; [cbn in Hp; lia|].
  cbn [app]. rewrite encode_bytes_field_spec, encode_bytes_field_always_spec.
  rewrite tag_byte by (unfold WIRE_LEN; lia). done.
Qed.

(** The metadata iterator over the columns a builder wrote. *)
Lemma info_iter_columns dg ms :
  Forall info_col_ok ms -> fits (dense_info_body (meta_cols true ms)) ->
  exists i, WireDenseInfo_parse (dense_info_body (meta_cols true ms)) = Ok i /\
    info_yields (Some (DenseNodeInfoIter_new dg i)) (Some ∘ info_of dg <$> ms).
Proof.
  intros HF Hfit. destruct (dense_info_parse _ Hfit) as (i & Hi & ->). eexists. split; [done|].
  unfold DenseNodeInfoIter_new. cbn [wi_version wi_timestamp wi_changeset wi_uid wi_user_sid wi_visible meta_cols
    dm_versions dm_timestamps dm_changesets dm_uids dm_user_sids dm_visibles].
  rewrite !packed_sint64_encode, !packed_sint32_encode, packed_bool_encode by (apply wdeltas_range; lia).
  rewrite packed_int32_encode; [by apply info_yields_columns|].
  apply Forall_fmap. eapply Forall_impl; [exact HF|]. by intros c [Hv _].
Qed.

(** What the info iterator yields per node. *)
Definition infos_of (dg : Z) (has : bool) (cs : list NodeCol) (ms : list InfoCol) : list (option DenseNodeInfo) :=
  if has then Some ∘ info_of dg <$> ms else replicate (length cs) None.

Lemma dense_group_reads fr cs d has ms :
  Forall col_ok cs -> fits (dense_body (node_cols cs) d) ->
  (has = false /\ d = meta_empty) \/
  (has = true /\ d = meta_cols true ms /\ ms <> [] /\ Forall info_col_ok ms /\ length ms = length cs) ->
  group_dense_nodes fr (encode_bytes_field_always 2 (dense_body (node_cols cs) d)) =
    Some (zip_with (node_of fr) cs (infos_of (fr_date_granularity fr) has cs ms)).
Proof.
  intros Hcs Hfit Hd. destruct (dense_nodes_parse _ _ Hfit) as [Hp Hfi]. unfold group_dense_nodes, validated_dense.
  assert (WireGroup_dense (encode_bytes_field_always 2 (dense_body (node_cols cs) d)) =
    Ok (Some (dense_body (node_cols cs) d))) as ->.
  { unfold WireGroup_dense. rewrite <- (app_nil_r (encode_bytes_field_always _ _)).
    rewrite (section_turn _ dense_shrinks _ 2 _ [] (Some (dense_body (node_cols cs) d))); [apply parse_nil|lia|].
    unfold dense_step. cbn -[encode_varint]. by rewrite read_len_delimited_encode. }
  rewrite Hp. cbn [node_cols dc_ids dc_lats dc_lons dc_keys_vals]. rewrite kv_column.
  unfold DenseNodeIter_new. cbn [wd_info wd_id wd_lat wd_lon wd_keys_vals].
  rewrite !packed_sint64_encode by (apply wdeltas_range; lia).
  assert (forall info infos, length infos = length cs -> info_yields info infos ->
    dense_nodes (mkNodeIter (wdeltas 64 0 (c_id <$> cs)) 0 (wdeltas 64 0 (c_lat <$> cs)) 0
      (wdeltas 64 0 (c_lon <$> cs)) 0 (kv_all cs) 0 info (fr_granularity fr) (fr_lat_offset fr) (fr_lon_offset fr)) =
    Some (zip_with (node_of fr) cs infos)) as Hdrain.
  { intros info infos Hl Hy. unfold dense_nodes. cbn [dit_dids].
    assert (length (wdeltas 64 0 (c_id <$> cs)) = length cs) as ->.
    { rewrite <- (length_fmap c_id cs). generalize 0, (c_id <$> cs). intros z l. revert z.
      induction l as [|x l IH]; intros z; [done|]. cbn. by rewrite IH. }
    by apply (dense_drain_spec fr cs infos 0 0 0 [] info). }
  destruct Hd as [[-> ->]|(-> & -> & Hne & HF & Hlen)]; unfold infos_of; cbn [dm_has meta_empty meta_cols info_read].
  - apply Hdrain; [apply length_replicate|apply info_yields_none].
  - fold (meta_cols true ms). destruct (info_iter_columns (fr_date_granularity fr) ms HF (Hfi eq_refl)) as (i & Hi & Hy).
    pose proof (info_body_nonempty ms true Hne HF). destruct (dense_info_body (meta_cols true ms)) eqn:Hb; [done|].
    cbn [info_read]. rewrite Hi. apply Hdrain; [by rewrite length_fmap|done].
Qed.

(** ** Taking a block *)

Definition group_bytes (k : BlockType) (b : BlockBuilder) : bytes :=
  match k with
  | DenseNodes => encode_bytes_field_always 2 (dense_body (bb_cols b) (bb_meta b))
  | _ => bb_group b
  end.

Definition block_bytes (k : BlockType) (b : BlockBuilder) : bytes :=
  encode_bytes_field_always 1 (concat (string_field <$> strings (bb_table b))) ++
  encode_bytes_field_always 2 (group_bytes k b).

(** The block and the tables the reader puts behind it stay below 4 GiB. *)
Definition block_fits (k : BlockType) (b : BlockBuilder) : Prop :=
  blen (block_bytes k b) + 8 * Z.of_nat (length (slots (bb_table b)) + 1) < 2 ^ 32.

Lemma always_ge f d : blen d <= blen (encode_bytes_field_always f d).
Proof.
  rewrite encode_bytes_field_always_spec, !blen_app.
  pose proof (blen_nonneg (encode_tag f WIRE_LEN)). pose proof (blen_nonneg (encode_varint (blen d))). lia.
Qed.

Lemma always_len d : blen (encode_bytes_field_always 2 d) = blen (encode_bytes_field_always 1 d).
Proof. rewrite !encode_bytes_field_always_spec, !blen_app, !tag_byte by (unfold WIRE_LEN; lia). done. Qed.

Lemma dense_group_written c d eb :
  blen (encode_bytes_field_always 2 (encode_bytes_field_always 2 (dense_body c d))) < 2 ^ 32 ->
  encode_dense_nodes_group c d eb =
    Ok (eb ++ encode_bytes_field_always 2 (encode_bytes_field_always 2 (dense_body c d))).
Proof.
  intros Hlt. unfold encode_dense_nodes_group. set (body := dense_body c d) in *.
  set (grp := encode_bytes_field_always 2 body) in *.
  pose proof (always_ge 2 body) as H1. pose proof (always_ge 2 grp) as H2. fold grp in H1.
  pose proof (blen_nonneg body). pose proof (blen_nonneg grp).
  change (2 ^ 32) with 4294967296 in Hlt.
  rewrite len_field_size_spec; [|unfold fits; lia|rewrite <- always_len; fold grp; unfold u64_max; lia].
  rewrite <- always_len. fold grp.
  rewrite len_field_size_spec; [|unfold fits; lia|rewrite <- always_len; unfold u64_max; lia].
  rewrite !as_u_id by (unfold is_u; lia). do 2 f_equal.
  rewrite (encode_bytes_field_always_spec 2 grp). unfold grp at 3. by rewrite encode_bytes_field_always_spec.
Qed.

Lemma take_owned_written cap k es b :
  common cap k es b -> es <> [] -> (k <> DenseNodes -> bb_group b <> []) -> block_fits k b ->
  exists td, tagdata_says es td /\
    take_owned b = (with_element_cap cap, Ok (Some (mkOwned (block_bytes k b) (block_index b k) td))).
Proof.
  intros Hc Hne Hgne Hfit. destruct (build_tagdata_spec _ _ _ _ Hc) as (td & Htd & Hsay). exists td. split; [done|].
  destruct Hc. unfold block_fits, block_bytes in Hfit. rewrite blen_app in Hfit.
  set (body := concat (string_field <$> strings (bb_table b))) in *.
  pose proof (always_ge 1 body). pose proof (blen_nonneg body).
  pose proof (blen_nonneg (encode_bytes_field_always 2 (group_bytes k b))).
  pose proof (blen_nonneg (encode_bytes_field_always 1 body)).
  unfold take_owned, encode_block. rewrite cm_poison, cm_type. destruct es as [|e0 es']; [done|].
  rewrite encode_to_spec by (fold body; lia || done). fold body. cbn [app].
  assert (encode_group b k (encode_bytes_field_always 1 body) = Ok (block_bytes k b)) as ->.
  { unfold block_bytes. fold body. destruct k; cbn [encode_group group_bytes] in *.
    - apply dense_group_written. lia.
    - do 2 f_equal. rewrite encode_bytes_field_spec. by destruct (bb_group b); [destruct Hgne|].
    - do 2 f_equal. rewrite encode_bytes_field_spec. by destruct (bb_group b); [destruct Hgne|]. }
  assert (build_tagdata (set_encode_buf b (block_bytes k b)) = Ok td) as -> by (by destruct b).
  destruct b as [t ty n cap' rg ki td' cols dm gr eb sd po]. cbn in *. subst cap' sd po. done.
Qed.

(** ** The blob index *)

Definition index_says (k : BlockType) (es : list Elem) (ix : BlobIndex) : Prop :=
  kind ix = block_kind k /\ count ix = Z.of_nat (length es) /\
  least (BlobMeta.min_id ix) (e_id <$> es) /\ greatest (BlobMeta.max_id ix) (e_id <$> es) /\
  match k with
  | DenseNodes => exists box, bbox ix = Some box /\
      least (min_lat box) (e_lats es) /\ greatest (max_lat box) (e_lats es) /\
      least (min_lon box) (e_lons es) /\ greatest (max_lon box) (e_lons es)
  | _ => bbox ix = None
  end.

Lemma node_coords es :
  Forall (fun e => e_type e = DenseNodes) es -> Forall e_ok es -> es <> [] ->
  e_lats es <> [] /\ Forall is_i32 (e_lats es) /\ e_lons es <> [] /\ Forall is_i32 (e_lons es).
Proof.
  intros Ht Hok Hne. destruct es as [|e es]; [done|]. unfold e_lats, e_lons.
  assert (Forall is_i32 (e_lats (e :: es)) /\ Forall is_i32 (e_lons (e :: es))) as [H1 H2].
  { clear Ht Hne. induction Hok as [|e' es' (_ & _ & He) _ [IH1 IH2]]; [split; constructor|].
    unfold e_lats, e_lons in *. destruct e'; cbn [omap list_omap]; [|done..]. destruct He. by split; constructor. }
  unfold e_lats, e_lons in *. apply Forall_inv in Ht. destruct e; [|done..]. by split_and!.
Qed.

Lemma index_exact cap k es b :
  common cap k es b -> Forall e_ok es -> Forall (fun e => e_type e = k) es -> es <> [] ->
  index_says k es (block_index b k).
Proof.
  intros Hc Hok Ht Hne. unfold index_says, block_index. rewrite (cm_ranges _ _ _ _ Hc), ranges_spec.
  cbn [kind count BlobMeta.min_id BlobMeta.max_id bbox rg_min_id rg_max_id rg_min_lat rg_max_lat rg_min_lon rg_max_lon].
  assert (e_id <$> es <> []) as Hids by (by destruct es).
  assert (Forall is_i64 (e_id <$> es)) as H64.
  { apply Forall_fmap. eapply Forall_impl; [exact Hok|]. by intros e [He _]. }
  split_and!; [done|apply (cm_count _ _ _ _ Hc)| | |].
  - apply mins_exact; [done|]. eapply Forall_impl; [exact H64|]. intros x Hx. cbv beta in Hx. width.
  - apply maxs_exact; [done|]. eapply Forall_impl; [exact H64|]. intros x Hx. cbv beta in Hx. width.
  - destruct k; [|by rewrite decide_False by (by intros [? _])..].
    destruct (node_coords es Ht Hok Hne) as (Hl & HFl & Hn & HFn).
    assert (forall l, l <> [] -> Forall is_i32 l -> least (mins i32_max l) l /\ greatest (maxs i32_min l) l) as Hb.
    { intros l Hl0 HF. split; [apply mins_exact|apply maxs_exact]; try done;
        (eapply Forall_impl; [exact HF|]); intros x Hx; cbv beta in Hx; width. }
    destruct (Hb _ Hl HFl) as [Hb1 Hb2]. destruct (Hb _ Hn HFn) as [Hb3 Hb4].
    rewrite decide_True.
    + eexists. split; [done|]. by split_and!.
    + split; [done|]. destruct Hb1 as [Hin _]. by apply (proj1 (Forall_forall _ _) (proj2 Hb2)).
Qed.

Lemma taken_described (cap : Z) (k : BlockType) (es : list Elem) :
  block_ok cap k es -> es <> [] -> (k <> DenseNodes -> bb_group (fill cap es) <> []) ->
  block_fits k (fill cap es) ->
  exists block ix td,
    take_owned (fill cap es) = (with_element_cap cap, Ok (Some (mkOwned block ix td))) /\
    index_says k es ix /\ tagdata_says es td.
Proof.
  intros Hok Hne Hg Hfit. destruct (fill_spec cap k es Hok) as [Hc _]. destruct Hok as (He & Ht & _).
  destruct (take_owned_written cap k es _ Hc Hne Hg Hfit) as (td & Hsay & Htake).
  eexists _, _, td. split_and!; [exact Htake|by eapply index_exact|done].
Qed.

(** Finishing a block: fill a fresh builder with any elements of one kind
    within its cap, and take it.  The taken block comes with an index that is
    exact (kind, count, least and greatest id, and for nodes the tight bounding
    box) and tagdata that lists exactly the tag keys of the elements, left out
    only when there are none or the format cannot hold them; and the builder is
    back in its initial state, so nothing of the block reaches the next one. *)
Theorem taken_block_described (cap : Z) (k : BlockType) (es : list Elem) :
  block_ok cap k es -> es <> [] -> (k <> DenseNodes -> bb_group (fill cap es) <> []) ->
  block_fits k (fill cap es) ->
  exists block ix td,
    take_owned (fill cap es) = (with_element_cap cap, Ok (Some (mkOwned block ix td))) /\
    index_says k es ix /\ tagdata_says es td.
Proof. apply taken_described. Qed.

(** ** Dense blocks *)

(** Metadata as a dense slot holds it: absent when no node of the block has
    any, else the node's own or zeros. *)
Definition dense_info_says (t : StringTable) (es : list Elem) (meta : option Metadata)
    (i : option DenseNodeInfo) : Prop :=
  (Forall (fun e => e_meta e = None) es /\ i = None) \/
  (exists c, i = Some (info_of 1000 c) /\ col_says t c meta).

Definition node_says (t : StringTable) (es : list Elem) (n : DenseNode) (e : Elem) : Prop :=
  match e with
  | ENode id lat lon tags meta =>
      dn_id n = id /\ decimicro (nano_lat n) = lat /\ decimicro (nano_lon n) = lon /\
      (exists ps, dense_raw_tags n = Some ps /\ pairs_say t ps tags) /\ dense_info_says t es meta (dn_info n)
  | _ => False
  end.

Lemma decimicro_scaled lat : is_i32 lat -> decimicro (wadd 64 0 (wmul 64 100 lat)) = lat.
Proof.
  intros Hl. unfold decimicro, wadd, wmul. rewrite (as_s_id 64 (100 * lat)) by (lia || width).
  rewrite (as_s_id 64) by (lia || width). rewrite Z.add_0_l, Z.mul_comm, Z.quot_mul by lia.
  by apply as_s_id.
Qed.

Lemma node_of_says t es c e i :
  col_of t c e -> e_ok e -> dense_info_says t es (e_meta e) i ->
  node_says t es (node_of (framing_of default_fields) c i) e.
Proof.
  destruct e; cbn [col_of]; try done. intros (<- & <- & <- & Hok & Hps) (_ & _ & Hlat & Hlon) Hi.
  cbn [node_says node_of dn_id dn_info nano_lat nano_lon]. split_and!; [done| | | |done].
  - by apply decimicro_scaled.
  - by apply decimicro_scaled.
  - exists (c_kvs c). split; [|done]. by apply dense_raw_spec.
Qed.

Lemma zip_says t es cs infos es' :
  Forall2 (col_of t) cs es' -> Forall e_ok es' -> Forall2 (dense_info_says t es) (e_meta <$> es') infos ->
  Forall2 (node_says t es) (zip_with (node_of (framing_of default_fields)) cs infos) es'.
Proof.
  intros HF. revert infos. induction HF as [|c e cs es' Hc _ IH]; intros infos Hok Hi.
  { cbn in Hi. inversion Hi; subst. constructor. }
  cbn [fmap list_fmap] in Hi. inversion Hi; subst. apply Forall_cons in Hok as [He Hok].
  constructor; [by apply node_of_says|]. by apply IH.
Qed.

Lemma cols_ok t cs es : Forall2 (col_of t) cs es -> Forall e_ok es -> Forall col_ok cs.
Proof.
  induction 1 as [|c e cs es Hc _ IH]; intros Hok; [constructor|]. apply Forall_cons in Hok as [He Hok].
  constructor; [|by apply IH]. destruct e; try done. destruct Hc as (<- & <- & <- & Hk & _).
  destruct He as (Hid & _ & Hlat & Hlon). unfold col_ok. split_and!; [done|by apply i32_i64|by apply i32_i64|done].
Qed.

(** The infos the reader yields for the metadata the builder kept. *)
Lemma meta_inv_infos t d es cs :
  meta_inv t d (e_meta <$> es) -> length cs = length es -> es <> [] ->
  exists has ms,
    ((has = false /\ d = meta_empty) \/
     (has = true /\ d = meta_cols true ms /\ ms <> [] /\ Forall info_col_ok ms /\ length ms = length cs)) /\
    Forall2 (dense_info_says t es) (e_meta <$> es) (infos_of 1000 has cs ms).
Proof.
  intros Hmi Hlen Hne. destruct Hmi as [[-> HN]|(ms & -> & HF & _)].
  - exists false, []. split; [by left|]. unfold infos_of. rewrite Hlen.
    assert (Forall (fun e => e_meta e = None) es) as HN' by by apply Forall_fmap in HN.
    rewrite <- (length_fmap e_meta es). generalize (e_meta <$> es). intros l.
    induction l; cbn; constructor; [|done]. by left.
  - exists true, ms. pose proof (Forall2_length _ _ _ HF) as Hl. rewrite length_fmap in Hl. split.
    + right. split_and!; [done|done|by destruct ms, es| |congruence].
      clear -HF. induction HF as [|c m ms ml Hc _ IH]; constructor; [by eapply col_says_ok|done].
    + unfold infos_of. clear -HF. set (l := e_meta <$> es) in HF |- *. clearbody l.
      induction HF as [|c m ms l Hc _ IH]; cbn; constructor; [|done]. right. by exists c.
Qed.

Lemma dense_block_reads (cap : Z) (es : list Elem) :
  block_ok cap DenseNodes es -> es <> [] -> block_fits DenseNodes (fill cap es) ->
  exists block ix td grp nodes,
    take_owned (fill cap es) = (with_element_cap cap, Ok (Some (mkOwned block ix td))) /\
    reads_as block (strings (bb_table (fill cap es))) grp /\
    group_dense_nodes (framing_of default_fields) grp = Some nodes /\
    Forall2 (node_says (bb_table (fill cap es)) es) nodes es.
Proof.
  intros Hok Hne Hfit. destruct (fill_spec cap DenseNodes es Hok) as [Hc ((cs & Hcs & HF) & Hmi)].
  destruct (take_owned_written cap DenseNodes es _ Hc Hne ltac:(done) Hfit) as (td & _ & Htake).
  destruct Hok as (Hoks & _). pose proof (Forall2_length _ _ _ HF) as Hlen.
  destruct (meta_inv_infos _ _ _ _ Hmi Hlen Hne) as (has & ms & Hd & Hinfos).
  unfold block_fits in Hfit. pose proof Hfit as Hfit'. unfold block_bytes in Hfit'. rewrite blen_app in Hfit'.
  pose proof (blen_nonneg (encode_bytes_field_always 1 (concat (string_field <$> strings (bb_table (fill cap es)))))).
  cbn [group_bytes] in Hfit'.
  pose proof (always_ge 2 (encode_bytes_field_always 2 (dense_body (bb_cols (fill cap es)) (bb_meta (fill cap es))))).
  pose proof (always_ge 2 (dense_body (bb_cols (fill cap es)) (bb_meta (fill cap es)))).
  eexists _, _, td, _, _. split_and!; [exact Htake| | |].
  - apply block_reads. rewrite length_strings. exact Hfit.
  - cbn [group_bytes]. rewrite Hcs. apply dense_group_reads; [by eapply cols_ok| |exact Hd].
    rewrite <- Hcs. unfold fits. lia.
  - by apply zip_says.
Qed.

(** C15. Dense node blocks round trip: the taken block scans with the default
    framing, its string table reads back slot for slot, and its group decodes,
    without a panic, to the added nodes in order: same ids, same coordinates
    (through the granularity arithmetic), tags whose indices resolve to the
    added strings, and each node's metadata, zeros where another node of the
    block had metadata and it had none. *)
Theorem dense_block_roundtrip (cap : Z) (es : list Elem) :
  block_ok cap DenseNodes es -> es <> [] -> block_fits DenseNodes (fill cap es) ->
  exists block ix td grp nodes,
    take_owned (fill cap es) = (with_element_cap cap, Ok (Some (mkOwned block ix td))) /\
    reads_as block (strings (bb_table (fill cap es))) grp /\
    group_dense_nodes (framing_of default_fields) grp = Some nodes /\
    Forall2 (node_says (bb_table (fill cap es)) es) nodes es.
Proof. apply dense_block_reads. Qed.

(** ** Way and relation blocks *)

Definition group_elems (k : BlockType) (grp : bytes) : list bytes :=
  match k with Ways => WireGroup_ways grp | Relations => WireGroup_relations grp | DenseNodes => [] end.

(** A message is no longer than the group it is part of. *)
Lemma message_le f ebs d : d ∈ ebs -> blen d <= blen (concat (encode_bytes_field f <$> ebs)).
Proof.
  induction ebs as [|eb ebs IH]; [by intros ?%not_elem_of_nil|]. intros Hd.
  cbn [fmap list_fmap concat]. rewrite blen_app. pose proof (field_ge f eb).
  pose proof (blen_nonneg (encode_bytes_field f eb)). pose proof (blen_nonneg (concat (encode_bytes_field f <$> ebs))).
  apply elem_of_cons in Hd as [->|Hd]; [cbn in *; lia|]. specialize (IH Hd). cbn in *. lia.
Qed.

Lemma encoded_nonempty t ebs es :
  Forall2 (elem_encoded t) ebs es -> Forall (fun e => e_id e <> 0) es -> Forall (fun eb => eb <> []) ebs.
Proof.
  induction 1 as [|eb e ebs es [Hn _] _ IH]; intros Hids; [constructor|].
  apply Forall_cons in Hids as [Hid Hids]. constructor; auto.
Qed.

Lemma encoded_reads t ebs es :
  Forall2 (elem_encoded t) ebs es -> Forall fits ebs -> Forall2 (elem_reads t) ebs es.
Proof.
  induction 1 as [|eb e ebs es [_ Hr] _ IH]; intros Hf; constructor; apply Forall_cons in Hf as [? ?]; auto.
Qed.

Lemma group_nonempty f ebs : ebs <> [] -> Forall (fun eb => eb <> []) ebs -> concat (encode_bytes_field f <$> ebs) <> [].
Proof.
  intros Hne HF Hbad. destruct ebs as [|eb ebs]; [done|]. pose proof (message_le f (eb :: ebs) eb ltac:(left)) as Hle.
  rewrite Hbad in Hle. apply Forall_inv in HF. destruct eb; [done|]. unfold blen in Hle. cbn in Hle. lia.
Qed.

Lemma element_block_reads (cap : Z) (k : BlockType) (es : list Elem) :
  k <> DenseNodes -> block_ok cap k es -> es <> [] -> Forall (fun e => e_id e <> 0) es ->
  block_fits k (fill cap es) ->
  exists block ix td grp,
    take_owned (fill cap es) = (with_element_cap cap, Ok (Some (mkOwned block ix td))) /\
    reads_as block (strings (bb_table (fill cap es))) grp /\
    Forall2 (elem_reads (bb_table (fill cap es))) (group_elems k grp) es.
Proof.
  intros Hk Hok Hne Hids Hfit. destruct (fill_spec cap k es Hok) as [Hc Hct].
  assert (group_inv k es (fill cap es)) as (ebs & Hg & HF) by (by destruct k). clear Hct.
  pose proof (encoded_nonempty _ _ _ HF Hids) as Hebs.
  assert (bb_group (fill cap es) <> []) as Hgne.
  { rewrite Hg. apply group_nonempty; [|done]. intros ->. by inversion HF. }
  destruct (take_owned_written cap k es _ Hc Hne ltac:(done) Hfit) as (td & _ & Htake).
  assert (blen (bb_group (fill cap es)) < 2 ^ 32) as Hglt.
  { unfold block_fits, block_bytes in Hfit. rewrite blen_app in Hfit.
    pose proof (blen_nonneg (encode_bytes_field_always 1 (concat (string_field <$> strings (bb_table (fill cap es)))))).
    pose proof (always_ge 2 (group_bytes k (fill cap es))). destruct k; [done|..]; cbn [group_bytes] in *; lia. }
  assert (Forall fits ebs) as Hfits.
  { apply Forall_forall. intros d Hd. pose proof (message_le (group_field k) ebs d Hd). rewrite Hg in Hglt. unfold fits. lia. }
  eexists _, _, td, _. split_and!; [exact Htake|apply block_reads; rewrite length_strings; exact Hfit|].
  assert (group_elems k (group_bytes k (fill cap es)) = ebs) as ->; [|by apply encoded_reads].
  destruct k; [done|..]; cbn [group_elems group_bytes]; rewrite Hg; cbn [group_field];
    unfold WireGroup_ways, WireGroup_relations;
    (apply messages_fields; [lia|]); apply Forall_and; by split.
Qed.


End BlockRoundtrip.

(** ** Concrete instances *)

#[local] Existing Instance RefProto.ref_proto.
#[local] Existing Instance RefProto.ref_laws.
#[local] Existing Instance RefHash.ref_index.

Definition sample_nodes : list Elem :=
  [ENode 5 1 (-2) [([104], [105])] None; ENode (-9) (-2147483648) 2147483647 [] (Some sample_meta);
   ENode 7 3 4 [([105], [104]); ([104], [105])] None].

Definition sample_ways : list Elem :=
  [EWay 5 [([104], [105])] [3; -4; 5] (Some sample_meta); ELocatedWay 6 [] [8; 9] [(1, 2); (-3, 4)] None].

Lemma sample_nodes_ok : block_ok 8 DenseNodes sample_nodes.
Proof. unfold block_ok, sample_nodes. split_and!; [repeat constructor; cbn; lia..|done|done]. Qed.

Lemma sample_ways_ok : block_ok 8 Ways sample_ways.
Proof. unfold block_ok, sample_ways. split_and!; [repeat constructor; cbn; lia..|done|done]. Qed.

Lemma taken_block_described_witness :
  exists block ix td,
    take_owned (fill 8 sample_nodes) = (with_element_cap 8, Ok (Some (mkOwned block ix td))) /\
    index_says DenseNodes sample_nodes ix /\ tagdata_says sample_nodes td.
Proof.
  apply (taken_block_described 8 DenseNodes sample_nodes); [exact sample_nodes_ok|discriminate|done|reflexivity].
Defined.

Lemma dense_block_roundtrip_witness :
  exists block ix td grp nodes,
    take_owned (fill 8 sample_nodes) = (with_element_cap 8, Ok (Some (mkOwned block ix td))) /\
    reads_as block (strings (bb_table (fill 8 sample_nodes))) grp /\
    group_dense_nodes (framing_of default_fields) grp = Some nodes /\
    Forall2 (node_says (bb_table (fill 8 sample_nodes)) sample_nodes) nodes sample_nodes.
Proof.
  apply (dense_block_roundtrip 8 sample_nodes); [exact sample_nodes_ok|discriminate|reflexivity].
Defined.

