(* ===== verification/PbfWriter.v ===== *)
(** * The PBF writer (src/src/write/writer.rs)

    [PbfWriter] itself: where a block's header fields come from ([with_fields]),
    the framing job of the pipelined writer as the work [WritePipe] dispatches,
    and every operation of the synchronous writer, which frames on the caller
    through its own scratch and writes the parts to its inner writer.  The
    inner writer is the same interface as the pipeline's backend: [write_owned]
    is its [write_all], [sink_finish] its [finalize_writer]. *)

From S2P Require Import Prelude StdText Proto Wire WireBlock BlobMeta TagIndex BlobScan BlobWire Codec BlobDecode Framing.
From S2P Require Import BlockBuilder ReorderBuffer WritePipe.

Section Writer.
Context {P : Protohoggr} {C : Codec} {A : Allocator} {Io Input : Type}.

Inductive WriteFault := ScanFault (e : ScanError) | FramingFault (e : FramingError) | IoFault (e : Io).

(** ** Header fields *)

Inductive MetaSource :=
| Scan
| Bare
| Given (index : option BlobIndex) (tagdata way_members : option bytes).

(** [BlobMeta::with_fields]: the fields handed to [frame]. *)
Definition meta_fields (meta : MetaSource) (block : bytes) : result WriteFault (option bytes * option bytes * option bytes) :=
  match meta with
  | Scan =>
      match scan_block_ids_and_tags block with
      | Ok (index, tags) => Ok (BlobMeta.serialize <$> index, tags ≫= TagIndex.serialize, None)
      | Err e => Err (ScanFault e)
      end
  | Bare => Ok (None, None, None)
  | Given index tagdata way_members => Ok (BlobMeta.serialize <$> index, tagdata, way_members)
  end.

(** ** The framing job *)

Record FramingJob := mkJob { fj_compression : Compression; fj_uncompressed : bytes; fj_meta : MetaSource }.

(** [FramingJob::run] up to its send, on a worker whose scratch is [s]. *)
Definition job_result (j : FramingJob) (s : FrameScratch) (m : WriterMetrics) : result WriteFault bytes :=
  match meta_fields (fj_meta j) (fj_uncompressed j) with
  | Err e => Err e
  | Ok (indexdata, tagdata, way_members) =>
      match frame_blob_into OSM_DATA (fj_uncompressed j) (fj_compression j) indexdata tagdata way_members s m with
      | (_, _, Ok frame) => Ok frame
      | (_, _, Err e) => Err (FramingFault e)
      end
  end.

(** ** The synchronous writer *)

Record Counters := mkCounters {
  payload_framed_items : Z; payload_framed_bytes : Z; payload_raw_items : Z; payload_raw_bytes : Z;
  payload_raw_chunk_items : Z; payload_raw_chunk_bytes : Z; payload_copy_range_items : Z; payload_copy_range_bytes : Z;
  bytes_written : Z }.

Definition counters_new : Counters := mkCounters 0 0 0 0 0 0 0 0 0.

Inductive RawPayload :=
| Borrowed (b : bytes)
| Owned (b : bytes)
| Chunks (chunks : list bytes)
| CopyOf (in_file : Input) (offset len : Z).

(** [RawPayload::count] *)
Definition count_payload (p : RawPayload) (c : Counters) : Counters :=
  let 'mkCounters fi fb ri rb ci cb pi pb w := c in
  match p with
  | Borrowed b | Owned b => mkCounters fi fb (ri + 1) (rb + blen b) ci cb pi pb w
  | Chunks chunks => mkCounters fi fb ri rb (ci + 1) (cb + blen (concat chunks)) pi pb w
  | CopyOf _ _ len => mkCounters fi fb ri rb ci cb (pi + 1) (pb + len) w
  end.

Definition count_framed (n : nat) (c : Counters) : Counters :=
  let 'mkCounters fi fb ri rb ci cb pi pb w := c in mkCounters (fi + 1) (fb + Z.of_nat n) ri rb ci cb pi pb w.

Definition set_written (w : Z) (c : Counters) : Counters :=
  let 'mkCounters fi fb ri rb ci cb pi pb _ := c in mkCounters fi fb ri rb ci cb pi pb w.

Inductive SyncError := SyncCause (e : WriteFault) | SyncCancelled | SyncConsumed | SyncCopyRange.

Context {W : Type} `{OutputSink WriteFault Input W}.

Record PbfWriter := mkWriter {
  pw_writer : option W;
  pw_compression : Compression;
  pw_scratch : FrameScratch;
  pw_metrics : WriterMetrics;
  pw_counters : Counters;
  pw_completion : option Session;
  pw_cancelled : bool }.

Abbreviation outcome := (PbfWriter * result SyncError unit)%type.

(** [with_permit], and [with_completion] for an output's session. *)
Definition writer_new (writer : W) (compression : Compression) (completion : option Session) : PbfWriter :=
  mkWriter (Some writer) compression scratch_new (mkWriterMetrics 0 0 0 0) counters_new completion false.

Definition set_completion (w : PbfWriter) (c : option Session) : PbfWriter :=
  mkWriter (pw_writer w) (pw_compression w) (pw_scratch w) (pw_metrics w) (pw_counters w) c (pw_cancelled w).

Definition poison_on_error (r : outcome) : outcome :=
  match r with
  | (w, Err e) => (set_completion w (session_fail <$> pw_completion w), Err e)
  | (w, Ok u) => (w, Ok u)
  end.

(** The parts of a frame, or raw chunks, through [write_accepted] in order. *)
Definition write_parts (w : PbfWriter) (inner : W) (ps : list bytes) : outcome :=
  let '((inner, written), r) := accept_all (inner, bytes_written (pw_counters w)) ps in
  (mkWriter (Some inner) (pw_compression w) (pw_scratch w) (pw_metrics w) (set_written written (pw_counters w))
     (pw_completion w) (pw_cancelled w),
   match r with Ok _ => Ok tt | Err e => Err (SyncCause e) end).

Definition write_framed_blob_inner (w : PbfWriter) (blob_type d : bytes) (indexdata tagdata way_members : option bytes) : outcome :=
  let '(s, m, r) := frame_in_scratch blob_type d (pw_compression w) indexdata tagdata way_members
                      (pw_scratch w) (pw_metrics w) in
  let counters := match r with
                  | Ok frame => if bool_decide (blob_type = OSM_DATA) then count_framed (frame_len frame) (pw_counters w)
                                else pw_counters w
                  | Err _ => pw_counters w
                  end in
  let w := mkWriter (pw_writer w) (pw_compression w) s m counters (pw_completion w) (pw_cancelled w) in
  match r with
  | Err e => (w, Err (SyncCause (FramingFault e)))
  | Ok frame => match pw_writer w with
                | None => (w, Err SyncConsumed)
                | Some inner => write_parts w inner (parts frame)
                end
  end.

Definition write_framed_blob (w : PbfWriter) (blob_type d : bytes) (indexdata tagdata way_members : option bytes) : outcome :=
  let '(w, r) := write_framed_blob_inner w blob_type d indexdata tagdata way_members in
  let '(s, m) := trim_oversize_retained_buffers (pw_scratch w) (pw_metrics w) in
  (mkWriter (pw_writer w) (pw_compression w) s m (pw_counters w) (pw_completion w) (pw_cancelled w), r).

Definition write_header (w : PbfWriter) (header_block : bytes) : outcome :=
  poison_on_error (write_framed_blob w OSM_HEADER header_block None None None).

Definition check_cancel (w : PbfWriter) (k : PbfWriter -> outcome) : outcome :=
  poison_on_error (if pw_cancelled w then (w, Err SyncCancelled) else k w).

Definition write_osm_data (block : bytes) (meta : MetaSource) (w : PbfWriter) : outcome :=
  match meta_fields meta block with
  | Err e => (w, Err (SyncCause e))
  | Ok (indexdata, tagdata, way_members) => write_framed_blob w OSM_DATA block indexdata tagdata way_members
  end.

Definition write_primitive_block (w : PbfWriter) (block : bytes) : outcome := check_cancel w (write_osm_data block Scan).
Definition write_primitive_block_no_indexdata (w : PbfWriter) (block : bytes) : outcome :=
  check_cancel w (write_osm_data block Bare).

(** [write_owned_block]; [way_members] is the block's fourth field, which the
    builder leaves empty. *)
Definition write_owned_block (w : PbfWriter) (b : OwnedBlock) (way_members : option bytes) (keep_indexdata : bool) : outcome :=
  check_cancel w (write_osm_data (ob_bytes b)
    (Given (if keep_indexdata then Some (ob_index b) else None) (ob_tagdata b) way_members)).

Definition write_raw_sync (p : RawPayload) (w : PbfWriter) : outcome :=
  let w := mkWriter (pw_writer w) (pw_compression w) (pw_scratch w) (pw_metrics w) (count_payload p (pw_counters w))
             (pw_completion w) (pw_cancelled w) in
  match pw_writer w with
  | None => (w, Err SyncConsumed)
  | Some inner =>
      match p with
      | Borrowed b | Owned b => write_parts w inner [b]
      | Chunks chunks => write_parts w inner chunks
      | CopyOf _ _ _ => (w, Err SyncCopyRange)
      end
  end.

Definition write_raw (w : PbfWriter) (frame : bytes) : outcome := check_cancel w (write_raw_sync (Borrowed frame)).
Definition write_raw_owned (w : PbfWriter) (frame : bytes) : outcome := check_cancel w (write_raw_sync (Owned frame)).
Definition write_raw_chunks (w : PbfWriter) (chunks : list bytes) : outcome := check_cancel w (write_raw_sync (Chunks chunks)).

(** [flush], with the writer it finalized: finishing a session lets it go. *)
Definition flush (w : PbfWriter) : outcome :=
  let '(writer, r) := match pw_writer w with
                      | Some inner =>
                          let '(inner, r) := sink_finish inner in
                          (Some inner, match r with Ok _ => Ok tt | Err e => Err (SyncCause e) end)
                      | None => (None, Ok tt)
                      end in
  let set writer c := mkWriter writer (pw_compression w) (pw_scratch w) (pw_metrics w) (pw_counters w) c (pw_cancelled w) in
  match pw_completion w, r with
  | None, _ => (set writer None, r)
  | Some c, Ok _ => (set None (Some (session_finish c)), r)
  | Some c, Err _ => (set writer (Some (session_fail c)), r)
  end.

(** [into_inner] consumes the writer: the session it was to certify fails. *)
Definition into_inner (w : PbfWriter) : option Session * result SyncError W :=
  (session_fail <$> pw_completion w, match pw_writer w with Some inner => Ok inner | None => Err SyncConsumed end).

(** What the caller may do between the start and a flush; the invocation's
    token may trip at any time. *)
Inductive Op :=
| OpHeader (block : bytes)
| OpBlock (block : bytes) (meta : MetaSource)
| OpRaw (p : RawPayload)
| OpTrip.

Definition op_step (w : PbfWriter) (o : Op) : outcome :=
  match o with
  | OpHeader block => write_header w block
  | OpBlock block meta => check_cancel w (write_osm_data block meta)
  | OpRaw p => check_cancel w (write_raw_sync p)
  | OpTrip => (mkWriter (pw_writer w) (pw_compression w) (pw_scratch w) (pw_metrics w) (pw_counters w) (pw_completion w) true, Ok tt)
  end.

Fixpoint op_run (w : PbfWriter) (ops : list Op) : PbfWriter * list (result SyncError unit) :=
  match ops with
  | [] => (w, [])
  | o :: ops => let '(w, r) := op_step w o in let '(w, rs) := op_run w ops in (w, r :: rs)
  end.

End Writer.
Arguments WriteFault {P C} Io.
Arguments SyncError {P C} Io.
