(* ===== verification/WriterSpec.v ===== *)
(** * What the PBF writer puts in the file

    The synchronous writer's certification, and for the pipelined writer the
    composition with the readers: a file it certifies reads back. *)

From S2P Require Import Prelude StdText Proto Wire WireBlock Encode Utf8 BlobMeta TagIndex BlobScan BlobWire Codec BlobDecode.
From S2P Require Import Framing FrameSpec FrameSource FrameWalk FrameConform FrameFile BlockBuilder.
From S2P Require Import ReorderBuffer WritePipe WritePipeSpec PbfWriter.

Section Sync.
Context `{L : ProtohoggrLaws} `{CL : CodecLaws} `{AL : AllocatorLaws} {Io Input W : Type}.
Context `{Sk : OutputSink (WriteFault Io) Input W} (file : W -> bytes) (range : Input -> Z -> Z -> bytes).
Context `{HL : !OutputSinkLaws file range}.

Abbreviation writer := (PbfWriter (W := W)).
Abbreviation op := (Op (Input := Input)).

Definition payload_bytes (p : RawPayload (Input := Input)) : bytes :=
  match p with Borrowed b | Owned b => b | Chunks chunks => concat chunks | CopyOf i o l => range i o l end.

(** What an accepted operation adds to the file. *)
Definition op_wrote (o : op) (b : bytes) : Prop :=
  match o with
  | OpHeader block => exists td hdr body, framed OSM_HEADER block None None None b td hdr body
  | OpBlock block meta => exists ix td wm td' hdr body, meta_fields (Io := Io) meta block = Ok (ix, td, wm) /\
      framed OSM_DATA block ix td wm b td' hdr body
  | OpRaw p => b = payload_bytes p
  | OpTrip => b = []
  end.

(** A writer that is still sound, with its inner writer and byte count. *)
Record open_at (w : writer) (completion : option Session) (content : bytes) (written : Z) (inner : W) : Prop := {
  oa_writer : pw_writer w = Some inner;
  oa_content : file inner = content;
  oa_written : bytes_written (pw_counters w) = written;
  oa_scratch : scratch_ok (pw_scratch w);
  oa_completion : pw_completion w = completion }.

Definition extended (w' : writer) (completion : option Session) (content : bytes) (written : Z) (b : bytes) : Prop :=
  exists inner', open_at w' completion (content ++ b) (written + blen b) inner'.

Lemma write_parts_ok w inner ps w' completion content written :
  open_at w completion content written inner -> write_parts w inner ps = (w', Ok tt) ->
  extended w' completion content written (concat ps).
Proof.
  intros [O1 O2 O3 O4 O5] Hw. unfold write_parts in Hw.
  destruct (accept_all (inner, bytes_written (pw_counters w)) ps) as [[inner' n] [[]|e]] eqn:Ha; [|done].
  injection Hw as <-. apply (accept_all_ok file range) in Ha as [H1 H2]. cbn [fst snd] in H1, H2.
  exists inner'. split; cbn; try done; [by rewrite H1, O2|]. destruct (pw_counters w). cbn in *. subst. done.
Qed.

Lemma count_framed_written n c : bytes_written (count_framed n c) = bytes_written c.
Proof. by destruct c. Qed.

Lemma count_payload_written p c : bytes_written (count_payload (Input := Input) p c) = bytes_written c.
Proof. by destruct c, p. Qed.

Lemma write_framed_blob_ok w inner ty d ix td wm w' completion content written :
  open_at w completion content written inner -> write_framed_blob w ty d ix td wm = (w', Ok tt) ->
  exists b td' hdr body, framed ty d ix td wm b td' hdr body /\ extended w' completion content written b.
Proof.
  intros [O1 O2 O3 O4 O5] Hw. unfold write_framed_blob, write_framed_blob_inner in Hw.
  destruct (frame_in_scratch ty d (pw_compression w) ix td wm (pw_scratch w) (pw_metrics w)) as [[s m] [sf|e]] eqn:Hf;
    [|by destruct (trim_oversize_retained_buffers _ _)].
  apply frame_in_scratch_ok in Hf as (Hs & td' & Hfr); [|done]. rewrite O1 in Hw. cbn [pw_writer] in Hw.
  match type of Hw with context [write_parts ?w0 inner _] => destruct (write_parts w0 inner (parts sf)) as [w1 r1] eqn:Hp; set (wf := w0) in * end.
  destruct (trim_oversize_retained_buffers (pw_scratch w1) (pw_metrics w1)) as [s1 m1] eqn:Htr. injection Hw as <- ->.
  assert (open_at wf completion content written inner) as Ho.
  { split; cbn; try done. case_bool_decide; [by rewrite count_framed_written|done]. }
  destruct (write_parts_ok _ _ _ _ _ _ _ Ho Hp) as (inner' & [Q1 Q2 Q3 Q4 Q5]).
  exists (concat (parts sf)), td', (sf_header sf), (sf_body_head sf ++ sf_payload sf). split; [done|].
  exists inner'. split; cbn; try done. pose proof (trim_ok (pw_scratch w1) (pw_metrics w1) Q4) as Ht. by rewrite Htr in Ht.
Qed.

Lemma poison_ok (r : writer * result (SyncError Io) unit) w' : poison_on_error r = (w', Ok tt) -> r = (w', Ok tt).
Proof. destruct r as [w [[]|e]]; [|done]. by intros [= <-]. Qed.

Lemma check_cancel_ok (w : writer) (k : writer -> writer * result (SyncError Io) unit) w' : check_cancel w k = (w', Ok tt) -> k w = (w', Ok tt).
Proof. intros Hc%poison_ok. by destruct (pw_cancelled w). Qed.

Lemma op_step_ok w inner o w' completion content written :
  open_at w completion content written inner -> op_step w o = (w', Ok tt) ->
  exists b, op_wrote o b /\ extended w' completion content written b.
Proof.
  intros Ho. destruct o as [block|block meta|p|]; cbn [op_step].
  - intros Hw%poison_ok. destruct (write_framed_blob_ok _ _ _ _ _ _ _ _ _ _ _ Ho Hw) as (b & td & hdr & body & ? & ?).
    exists b. split; [|done]. by exists td, hdr, body.
  - intros Hw%check_cancel_ok. unfold write_osm_data in Hw. destruct (meta_fields meta block) as [[[ix td] wm]|e] eqn:Hm; [|done].
    destruct (write_framed_blob_ok _ _ _ _ _ _ _ _ _ _ _ Ho Hw) as (b & td' & hdr & body & ? & ?).
    exists b. split; [|done]. by exists ix, td, wm, td', hdr, body.
  - intros Hw%check_cancel_ok. unfold write_raw_sync in Hw. destruct Ho as [O1 O2 O3 O4 O5]. cbn [pw_writer] in Hw. rewrite O1 in Hw.
    assert (open_at (mkWriter (Some inner) (pw_compression w) (pw_scratch w) (pw_metrics w) (count_payload p (pw_counters w))
      (pw_completion w) (pw_cancelled w)) completion content written inner) as Ho.
    { split; cbn; try done. by rewrite count_payload_written. }
    rewrite <- O1 in Ho. exists (payload_bytes p). split; [done|].
    destruct p as [b|b|chunks|]; try done; apply (write_parts_ok _ _ _ _ _ _ _ Ho) in Hw; cbn in Hw; rewrite ?app_nil_r in Hw; done.
  - intros [= <-]. exists []. split; [done|]. destruct Ho as [O1 O2 O3 O4 O5]. exists inner. split; cbn; try done; [by rewrite app_nil_r|].
    change (blen []) with 0. lia.
Qed.

(** ** The session *)

(** An operation that fails fails the session, one that succeeds leaves it. *)
Definition after (r : result (SyncError Io) unit) (c : option Session) : option Session :=
  match r with Ok _ => c | Err _ => session_fail <$> c end.

Lemma write_parts_completion (w : writer) inner ps : pw_completion (write_parts w inner ps).1 = pw_completion w.
Proof. unfold write_parts. by destruct (accept_all _ ps) as [[? ?] ?]. Qed.

Lemma write_framed_completion (w : writer) ty d ix td wm : pw_completion (write_framed_blob w ty d ix td wm).1 = pw_completion w.
Proof.
  unfold write_framed_blob. destruct (write_framed_blob_inner w ty d ix td wm) as [w1 r] eqn:Hw.
  destruct (trim_oversize_retained_buffers _ _). cbn [fst pw_completion]. unfold write_framed_blob_inner in Hw.
  destruct (frame_in_scratch _ _ _ _ _ _ _ _) as [[s1 m1] [sf|e]]; [|by injection Hw as <- _].
  cbn [pw_writer] in Hw. destruct (pw_writer w); [|by injection Hw as <- _].
  apply (f_equal fst) in Hw. cbn [fst] in Hw. by rewrite <- Hw, write_parts_completion.
Qed.

Lemma poison_completion (r : writer * result (SyncError Io) unit) :
  pw_completion (poison_on_error r).1 = after (poison_on_error r).2 (pw_completion r.1).
Proof. by destruct r as [w [[]|e]]. Qed.

Lemma op_step_completion w o : pw_completion (op_step w o).1 = after (op_step w o).2 (pw_completion w).
Proof.
  destruct o as [block|block meta|p|]; cbn [op_step]; [| | |done].
  - unfold write_header. rewrite poison_completion. f_equal. apply write_framed_completion.
  - unfold check_cancel. rewrite poison_completion. f_equal. destruct (pw_cancelled w); [done|].
    unfold write_osm_data. destruct (meta_fields meta block) as [[[ix td] wm]|e]; [apply write_framed_completion|done].
  - unfold check_cancel. rewrite poison_completion. f_equal. destruct (pw_cancelled w); [done|].
    unfold write_raw_sync. cbn [pw_writer]. destruct (pw_writer w); [|done]. destruct p; try done; by rewrite write_parts_completion.
Qed.

(** A writer let go of takes nothing. *)
Lemma poison_err (r : writer * result (SyncError Io) unit) e : r.2 = Err e -> (poison_on_error r).2 = Err e.
Proof. by destruct r as [w [[]|e']]; intros [= ->]. Qed.

Lemma write_framed_closed (w : writer) ty d ix td wm : pw_writer w = None -> exists e, (write_framed_blob w ty d ix td wm).2 = Err e.
Proof.
  intros Hw. unfold write_framed_blob, write_framed_blob_inner.
  destruct (frame_in_scratch _ _ _ _ _ _ _ _) as [[s1 m1] [sf|e]]; rewrite Hw; cbn [pw_writer];
    destruct (trim_oversize_retained_buffers _ _); eauto.
Qed.

Lemma op_step_closed w o : pw_writer w = None -> o <> OpTrip -> exists e, (op_step w o).2 = Err e.
Proof.
  intros Hw Ho. destruct o as [block|block meta|p|]; [| | |done]; cbn [op_step].
  - destruct (write_framed_closed w OSM_HEADER block None None None Hw) as [e He]. exists e. by apply poison_err.
  - unfold check_cancel. destruct (pw_cancelled w); [by eexists; apply poison_err|]. unfold write_osm_data.
    destruct (meta_fields meta block) as [[[ix td] wm]|e]; [|by eexists; apply poison_err].
    destruct (write_framed_closed w OSM_DATA block ix td wm Hw) as [e He]. exists e. by apply poison_err.
  - unfold check_cancel. destruct (pw_cancelled w); [by eexists; apply poison_err|]. unfold write_raw_sync. cbn [pw_writer].
    rewrite Hw. by eexists; apply poison_err.
Qed.

Definition sound_session (c : option Session) : Prop := c = None \/ c = Some Writing.
Definition failed_session (c : option Session) : Prop := c = None \/ c = Some Failed.

Lemma after_failed r c : failed_session c -> failed_session (after r c).
Proof. unfold failed_session. destruct r; [done|]. intros [->| ->]; [by left|by right]. Qed.

Lemma op_run_failed ops : forall w, failed_session (pw_completion w) -> failed_session (pw_completion (op_run w ops).1).
Proof.
  induction ops as [|o ops IH]; intros w Hw; [done|]. cbn [op_run]. pose proof (op_step_completion w o) as Ho.
  destruct (op_step w o) as [w1 r]. cbn [fst snd] in Ho. specialize (IH w1). destruct (op_run w1 ops) as [w2 rs]. cbn [fst] in *.
  apply IH. rewrite Ho. by apply after_failed.
Qed.

(** A run of operations: all accepted, or one refused and the session with it. *)
Lemma op_run_ok ops : forall w inner completion content written,
  open_at w completion content written inner -> sound_session completion ->
  let '(w', rs) := op_run w ops in
  (Forall (eq (Ok tt)) rs /\ exists outs, Forall2 op_wrote ops outs /\ extended w' completion content written (concat outs)) \/
  (~ Forall (eq (Ok tt)) rs /\ failed_session (pw_completion w')).
Proof.
  induction ops as [|o ops IH]; intros w inner completion content written Ho Hc; cbn [op_run].
  { left. split; [constructor|]. exists []. split; [constructor|]. exists inner. destruct Ho as [O1 O2 O3 O4 O5].
    split; try done; cbn; [by rewrite app_nil_r|]. change (blen []) with 0. lia. }
  destruct (op_step w o) as [w1 [[]|e]] eqn:Hs.
  - destruct (op_step_ok _ _ _ _ _ _ _ Ho Hs) as (b & Hb & inner1 & Ho1).
    specialize (IH w1 inner1 _ _ _ Ho1 Hc). destruct (op_run w1 ops) as [w2 rs].
    destruct IH as [[HF (outs & HF2 & inner2 & [Q1 Q2 Q3 Q4 Q5])]|[HF Hf]].
    + left. split; [by constructor|]. exists (b :: outs). split; [by constructor|]. exists inner2.
      split; try done; cbn [concat]; [by rewrite app_assoc|]. rewrite blen_app. lia.
    + right. split; [|done]. intros HF'. by apply Forall_cons in HF' as [_ ?].
  - pose proof (op_step_completion w o) as Hco. rewrite Hs in Hco. cbn [fst snd after] in Hco.
    pose proof (op_run_failed ops w1) as Hf. destruct (op_run w1 ops) as [w2 rs]. right. split.
    + intros HF'. by apply Forall_cons in HF' as [? _].
    + apply Hf. rewrite Hco, (oa_completion _ _ _ _ _ Ho). destruct Hc as [->| ->]; [by left|by right].
Qed.

(** C22. The synchronous writer certifies what it wrote.  Of any writes, the
    invocation's token tripping among them, then a flush: if all return well,
    or the output's session ends finished, then all of them were accepted, and
    the finalized inner writer holds, after what it held, the frame of every
    header and block and the bytes of every raw write, in order, with exactly
    their bytes counted.  A session that finished takes no further write. *)
Theorem sync_writer_certifies (inner0 : W) (compression : Compression) (completion : option Session) (ops : list op) (o : op)
    (w w' : writer) rs r :
  sound_session completion -> op_run (writer_new inner0 compression completion) ops = (w, rs) -> flush w = (w', r) ->
  Forall (eq (Ok tt)) rs /\ r = Ok tt \/ pw_completion w' = Some Finished ->
  Forall (eq (Ok tt)) rs /\ r = Ok tt /\
  (exists inner inner' outs, pw_writer w = Some inner /\ sink_finish inner = (inner', Ok tt) /\ Forall2 op_wrote ops outs /\
     file inner' = file inner0 ++ concat outs /\ bytes_written (pw_counters w') = blen (concat outs)) /\
  (pw_completion w' = Some Finished -> o <> OpTrip ->
     exists w'' e, op_step w' o = (w'', Err e) /\ pw_completion w'' = Some Failed).
Proof.
  intros Hc Hrun Hfl Hcert.
  assert (open_at (writer_new inner0 compression completion) completion (file inner0) 0 inner0) as Ho by by split.
  pose proof (op_run_ok ops _ _ _ _ _ Ho Hc) as Hok. rewrite Hrun in Hok.
  unfold flush in Hfl. destruct Hok as [[HF (outs & HF2 & inner & [O1 O2 O3 O4 O5])]|[HF Hf]].
  - rewrite O1, O5 in Hfl. destruct (sink_finish inner) as [inner' [[]|e]] eqn:Hfin.
    + assert (r = Ok tt) as -> by (destruct completion; by injection Hfl).
      split; [done|]. split; [done|]. split.
      * exists inner, inner', outs. split_and!; try done; [by apply finish_keeps_file in Hfin as ->|].
        destruct completion; injection Hfl as <-; cbn; lia.
      * intros Hd Ho'. destruct completion as [c|]; [|by injection Hfl as <-]. injection Hfl as <-.
        destruct (op_step_closed (mkWriter None (pw_compression w) (pw_scratch w) (pw_metrics w) (pw_counters w)
          (Some (session_finish c)) (pw_cancelled w)) o eq_refl Ho') as [e He].
        pose proof (op_step_completion (mkWriter None (pw_compression w) (pw_scratch w) (pw_metrics w) (pw_counters w)
          (Some (session_finish c)) (pw_cancelled w)) o) as Hco. rewrite He in Hco.
        destruct (op_step _ o) as [w'' r'']. cbn [fst snd] in *. subst r''. by exists w'', e.
    + exfalso. destruct Hcert as [[_ ->]|Hd]; destruct completion; injection Hfl as <-; done.
  - exfalso. destruct Hcert as [[? _]|Hd]; [done|]. destruct Hf as [Hf|Hf]; rewrite Hf in Hfl;
      destruct (match pw_writer w with Some _ => _ | None => _ end) as [x [[]|e]]; by injection Hfl as <-.
Qed.

End Sync.

(** ** The pipelined writer, read back *)

Section Pipelined.
Context `{L : ProtohoggrLaws} `{CL : CodecLaws} `{AL : AllocatorLaws} {Io Input S : Type}.
Context `{Sk : OutputSink (WriteFault Io) Input S} (file : S -> bytes) (range : Input -> Z -> Z -> bytes).
Context `{HL : !OutputSinkLaws file range}.

(** A job's framing on a worker whose compressor is between streams. *)
Definition job_frames (j : FramingJob) (r : result (WriteFault Io) bytes) : Prop :=
  exists s m, scratch_ok s /\ job_result j s m = r.

Definition job_blob (j : FramingJob) (b : Blob) : Prop :=
  exists ix td wm, meta_fields (Io := Io) (fj_meta j) (fj_uncompressed j) = Ok (ix, td, wm) /\
    b = mkBlob OSM_DATA (fj_uncompressed j) (fj_compression j) ix td wm.

Definition carried (bl : list Blob) (fs : list Framed) : Prop := Forall2 (fun b f => carries b (frame_encoded f) f) bl fs.

(** The blobs a call puts in the file: a block is one, and raw bytes are the
    frames of those they were taken from. *)
Definition stands_for (c : Call Input FramingJob) (bl : list Blob) : Prop :=
  match c with
  | CBlock j => exists b, bl = [b] /\ job_blob j b
  | CRaw ch => exists fs, carried bl fs /\ chunk_bytes range ch = concat (frame_encoded <$> fs)
  end.

Lemma call_carried c ch bl : yields job_frames c ch -> stands_for c bl -> Forall blob_ok bl ->
  exists fs, carried bl fs /\ chunk_bytes range ch = concat (frame_encoded <$> fs).
Proof.
  destruct c as [j|ch']; cbn [yields stands_for]; [|by intros ->].
  intros (b0 & -> & s & m & Hs & Hj) (b & -> & ix & td & wm & Hm & ->) HF%Forall_inv.
  unfold job_result in Hj. rewrite Hm in Hj.
  destruct (frame_blob_into OSM_DATA _ _ ix td wm s m) as [[s' m'] [frame|e]] eqn:Hf; [|done]. injection Hj as ->.
  apply frame_blob_into_ok in Hf as (_ & td' & hdr & body & Hfr); [|done].
  destruct (framed_carries _ _ _ _ _ HF Hfr) as [f Hc]. exists [f]. pose proof Hc as [-> _].
  split; [by constructor|]. cbn. by rewrite app_nil_r.
Qed.

Lemma calls_carried calls chunks : Forall2 (yields job_frames) calls chunks -> forall bls,
  Forall2 stands_for calls bls -> Forall blob_ok (concat bls) ->
  exists fs, carried (concat bls) fs /\ concat (chunk_bytes range <$> chunks) = concat (frame_encoded <$> fs).
Proof.
  induction 1 as [|c ch calls chunks Hy _ IH]; intros bls HF2 HF.
  { inversion HF2; subst. exists []. split; [constructor|done]. }
  inversion HF2 as [|? bl ? bls' Hb Hbs]; subst. cbn [concat] in HF. apply Forall_app in HF as [HF1 HF3].
  destruct (call_carried _ _ _ Hy Hb HF1) as (fs1 & H1 & H2), (IH _ Hbs HF3) as (fs2 & H3 & H4).
  exists (fs1 ++ fs2). split; [by apply Forall2_app|]. cbn [fmap list_fmap concat]. by rewrite fmap_app, concat_app, H2, H4.
Qed.

Lemma carried_zip bl fs : carried bl fs -> Forall2 (fun bf f => carries bf.1 bf.2 f) (zip bl (frame_encoded <$> fs)) fs.
Proof. induction 1; cbn; constructor; done. Qed.

Lemma zip_reads_back bl fs rs : length fs = length bl ->
  Forall2 (fun bf r => reads_back bf.1 bf.2 r) (zip bl fs) rs -> Forall2 (fun b r => exists frame, reads_back b frame r) bl rs.
Proof.
  revert fs rs. induction bl as [|b bl IH]; intros [|f fs] rs Hlen HF; try done; [inversion HF; constructor|].
  cbn in HF. inversion HF as [|? r ? rs' Hr HF']; subst. constructor; [by exists f|]. apply (IH fs); [cbn in Hlen; lia|done].
Qed.

Lemma header_blob_ok header comp : blob_ok (mkBlob OSM_HEADER header comp None None None).
Proof. split; [|done]. split; [done|]. split; [by vm_compute|]. by vm_compute. Qed.

Context {T : Type} `{SL : SourceLaws T} `{!ReadLaws T}.

(** C4. A file the pipelined writer certifies reads back.  Whatever order the
    framing jobs and the writer thread ran in: once the session is finished,
    or a clean flush has returned, a walk over the file delivers the header
    and then, in the order of the calls, the blob of every accepted block,
    with its index, tag data and way members as resolved by its metadata
    source and a body that decodes to the block, and every blob the raw writes
    passed through; nothing else, nothing twice, and a clean end. *)
Theorem pipelined_file_reads_back b sink ss evs p header comp m m' bls (refusing : bool) :
  begun b ss -> frame_blob OSM_HEADER header comp None m = (m', Ok (file sink.1)) ->
  runs job_frames (pipe_new b sink ss) evs p -> p_session p = Some Finished \/ clean evs /\ EFlush (Ok tt) ∈ evs ->
  Forall2 stands_for (oks evs) bls -> Forall blob_ok (concat bls) -> Forall (fun b => b_type b <> OSM_HEADER) (concat bls) ->
  let blobs := mkBlob OSM_HEADER header comp None None None :: concat bls in
  (refusing = true -> uniformly_indexed blobs) ->
  exists k, p_thread p = Exited (Ok tt) k /\
    forall t : T, ready t -> rest t = file k.1 ->
    exists rs, raw_walk (Datatypes.S (length blobs)) (input_walk refusing t) = Some (rs, Ok tt) /\
      Forall2 (fun b r => exists frame, reads_back b frame r) blobs rs.
Proof.
  intros Hb Hh Hr Hc HF2 HF Hty blobs Hu. destruct (runs_keep job_frames file range b sink ss Hb _ _ Hr) as [Hs Ht].
  destruct (certified _ _ _ _ _ _ Hs Ht Hc) as (_ & k & Hk & chunks & HY & Hfile & _). exists k. split; [done|].
  intros t Hready Hrest. destruct (calls_carried _ _ HY _ HF2 HF) as (fs & Hcar & Hbytes).
  unfold frame_blob in Hh. destruct (frame_blob_into OSM_HEADER header comp None None None scratch_new m) as [[s1 m1] r1] eqn:Hf.
  injection Hh as -> ->. apply frame_blob_into_ok in Hf as (_ & td' & hdr & body & Hfr); [|done].
  destruct (framed_carries (mkBlob OSM_HEADER header comp None None None) _ _ _ _ (header_blob_ok _ _) Hfr) as [f0 Hf0].
  assert (carried blobs (f0 :: fs)) as Hall by (constructor; [by pose proof Hf0 as [<- _]|done]).
  pose proof (Forall2_length _ _ _ Hall) as Hlen.
  destruct (carried_file_reads_back refusing blobs (frame_encoded <$> f0 :: fs) (f0 :: fs) [] t) as (rs & Hw & HFr & _); try done.
  - constructor; [apply header_blob_ok|done].
  - by rewrite length_fmap.
  - by apply carried_zip.
  - rewrite app_nil_r, Hrest, Hfile, Hbytes. cbn [fmap list_fmap concat]. f_equal. by pose proof Hf0 as [<- _].
  - exists rs. split; [done|]. eapply zip_reads_back; [|done]. by rewrite length_fmap.
Qed.

End Pipelined.
