(* ===== verification/WriterSamples.v ===== *)
(** * A pipelined writer at work

    Concrete runs of [WritePipe.step] over a sink in memory, at which the
    claims about the writers are applied. *)

From S2P Require Import Prelude StdText Proto Wire WireBlock Encode Utf8 BlobMeta TagIndex BlobScan BlobWire Codec BlobDecode.
From S2P Require Import Framing FrameSpec FrameSource FrameWalk FrameConform FrameFile BlockBuilder.
From S2P Require Import ReorderBuffer WritePipe WritePipeSpec PbfWriter WriterSpec.

(** ** A sink in memory *)

#[export] Instance memory E : OutputSink E Empty_set bytes := {|
  write_owned s b := (s ++ b, Ok tt);
  copy_range := fun s (i : Empty_set) _ _ => match i return bytes * result E unit with end;
  after_drain s := (s, Ok tt);
  sink_finish s := (s, Ok tt) |}.

Definition no_range (i : Empty_set) (offset len : Z) : bytes := match i with end.

#[export] Instance memory_laws E : OutputSinkLaws (E := E) id no_range.
Proof. split; cbn; try done; by intros ? ? ? [= <-] || by intros ? ? [= <-]. Qed.

(** ** One block, one raw write, a flush *)

Section Run.
Context {E Job : Type} (frames : Job -> result E bytes -> Prop) (j : Job) (frame raw header : bytes).
Context (Hj : frames j (Ok frame)).

Abbreviation data := (result (PipeError E) (OutputChunk Empty_set)).

Definition new_buffer : ReorderBuffer data :=
  {| next_seq := 0; filled := 0; max_window := PIPELINE_DELIVERY_WINDOW; pending := [] |}.

Lemma new_begun ss : ss = None \/ ss = Some Writing -> begun new_buffer ss.
Proof. intros H. split; [reflexivity|done]. Qed.

Abbreviation begin := (pipe_new (Job := Job) (S := bytes) new_buffer (header, 0) (Some Writing)).

Lemma takes evs n tk ch js g ex tx th h ss fl k : (k <= PIPELINE_DISPATCH_PERMITS)%nat ->
  runs frames begin evs (mkPipe n PIPELINE_DISPATCH_PERMITS tk ch js g ex tx th h ss (PCloseWait fl 0)) ->
  runs frames begin evs (mkPipe n (PIPELINE_DISPATCH_PERMITS - k) tk ch js g ex tx th h ss (PCloseWait fl k)).
Proof.
  induction k as [|k IH]; intros Hk Hr; [by rewrite Nat.sub_0_r|]. specialize (IH ltac:(lia) Hr).
  replace (PIPELINE_DISPATCH_PERMITS - k)%nat with (Datatypes.S (PIPELINE_DISPATCH_PERMITS - Datatypes.S k)) in IH by lia.
  rewrite <- (app_nil_r evs). eapply (runs_step _ _ _ _ None); [exact IH|]. right. apply move_close_take. lia.
Qed.

Definition written : list (Event E Empty_set Job) :=
  [EWrite (CBlock j) (Ok tt); EWrite (CRaw (Raw raw)) (Ok tt); EFlush (Ok tt)].

(** A running writer thread. *)
Definition at_work (next n : nat) (l : list (option data)) (out : bytes) (count : Z) (ph : Phase) : WriterThread E Empty_set bytes :=
  Running (mkThread {| next_seq := next; filled := n; max_window := PIPELINE_DELIVERY_WINDOW; pending := l |} (out, count) ph).

Definition finished_pipe : Pipe E Empty_set Job bytes :=
  mkPipe 2 PIPELINE_DISPATCH_PERMITS PIPELINE_DELIVERY_WINDOW [] [] false (Some 2%nat) false
    (Exited (Ok tt) ((header ++ frame) ++ raw, 0 + Z.of_nat (length frame) + Z.of_nat (length raw))) false (Some Finished) PFinished.

Lemma then_start evs p e p' : runs frames begin evs p -> starts p e p' -> runs frames begin (evs ++ option_list e) p'.
Proof. intros Hr Hs. eapply runs_step; [done|by left]. Qed.

Lemma then_move evs p e p' : runs frames begin evs p -> moves frames p e p' -> runs frames begin (evs ++ option_list e) p'.
Proof. intros Hr Hs. eapply runs_step; [done|by right]. Qed.

Lemma sample_run : runs frames begin written finished_pipe.
Proof.
  pose proof (runs_refl frames begin) as R. unfold pipe_new in R.
  eapply then_start in R; [|apply (start_write _ _ _ _ _ _ _ _ _ _ (CBlock j))].
  eapply then_move in R; [|apply (move_token frames _ _ 511)].
  eapply then_move in R; [|apply (move_dispatch frames _ 63)].
  eapply then_move in R; [|apply (move_frame frames _ _ _ _ [] []); exact Hj]. cbn [cause] in R.
  eapply then_start in R; [|apply (start_write _ _ _ _ _ _ _ _ _ _ (CRaw (Raw raw)))].
  eapply then_move in R; [|apply (move_token frames _ _ 510)].
  eapply then_move in R; [|apply (move_slot frames _ 62)].
  eapply then_move in R; [|apply move_send; cbv; lia].
  cbn [app option_list option_rect] in R.
  (* item 1 arrives before item 0 and waits for it *)
  eapply then_move in R; [|apply (move_recv frames _ _ _ _ _ _ _ _ _ _ _ _ _ _ (at_work 0 1 [None; Some (Ok (Raw raw))] header 0 Draining)); by vm_compute].
  eapply then_move in R; [|apply (move_drain frames _ _ _ _ _ _ _ _ _ _ _ _ (at_work 0 1 [None; Some (Ok (Raw raw))] header 0 Receiving) false); by vm_compute].
  eapply then_move in R; [|apply (move_job_send frames _ _ _ _ [] []); cbv; lia].
  cbn [app option_list option_rect at_work] in R.
  eapply then_move in R; [|apply (move_recv frames _ _ _ _ _ _ _ _ _ _ _ _ _ _
    (at_work 0 2 [Some (Ok (Raw frame)); Some (Ok (Raw raw))] header 0 Draining)); by vm_compute].
  eapply then_move in R; [|apply (move_drain frames _ _ _ _ _ _ _ _ _ _ _ _
    (at_work 1 1 [Some (Ok (Raw raw))] (header ++ frame) (0 + Z.of_nat (length frame)) Draining) true); done].
  eapply then_move in R; [|apply (move_drain frames _ _ _ _ _ _ _ _ _ _ _ _
    (at_work 2 0 [] ((header ++ frame) ++ raw) (0 + Z.of_nat (length frame) + Z.of_nat (length raw)) Draining) true); done].
  eapply then_move in R; [|apply (move_drain frames _ _ _ _ _ _ _ _ _ _ _ _
    (at_work 2 0 [] ((header ++ frame) ++ raw) (0 + Z.of_nat (length frame) + Z.of_nat (length raw)) Receiving) false); done].
  eapply then_move in R; [|apply (move_job_done frames _ _ _ _ [] [])].
  eapply then_start in R; [|apply start_flush].
  cbn [app option_list option_rect at_work] in R.
  apply (takes _ _ _ _ _ _ _ _ _ _ _ _ PIPELINE_DISPATCH_PERMITS) in R; [|done]. rewrite Nat.sub_diag in R.
  eapply then_move in R; [|apply move_close_waited].
  eapply then_move in R; [|apply move_end; [done|done|by intros]].
  eapply then_move in R; [|apply move_flush]. exact R.
Qed.

End Run.

(** ** Witnesses *)

Import RefProto RefCodec.

(** Jobs whose frame is their block. *)
Definition plain (j : bytes) (r : result unit bytes) : Prop := r = Ok j.

Definition sample_pipe : Pipe unit Empty_set bytes bytes := finished_pipe [7; 8] [9] [1].

Lemma pipeline_certifies_witness :
  exists k chunks, clean (written (E := unit) [7; 8] [9]) /\ p_thread sample_pipe = Exited (Ok tt) k /\
    Forall2 (yields plain) (oks (written (E := unit) [7; 8] [9])) chunks /\
    id k.1 = [1] ++ concat (chunk_bytes no_range <$> chunks) /\
    k.2 = 0 + Z.of_nat (length (concat (chunk_bytes no_range <$> chunks))).
Proof.
  apply (pipeline_certifies plain id no_range new_buffer ([1], 0) (Some Writing)).
  - apply new_begun. by right.
  - by apply sample_run.
  - by left.
Defined.


Lemma pipeline_bounded_witness :
  (length (p_jobs sample_pipe) <= PIPELINE_DISPATCH_PERMITS)%nat /\ (length (p_items sample_pipe) <= WRITE_AHEAD)%nat /\
  (p_permits sample_pipe + length (p_jobs sample_pipe) <= PIPELINE_DISPATCH_PERMITS)%nat /\
  forall t, p_thread sample_pipe = Running t ->
    (p_seq sample_pipe - next_seq (th_pending t) <= PIPELINE_DELIVERY_WINDOW)%nat /\
    (pending_len (th_pending t) <= PIPELINE_DELIVERY_WINDOW)%nat /\
    (p_tokens sample_pipe + (p_seq sample_pipe - next_seq (th_pending t)) <= PIPELINE_DELIVERY_WINDOW)%nat /\
    forall seq d rest, p_items sample_pipe = (seq, d) :: rest -> is_Some (push (th_pending t) seq d).
Proof.
  apply (pipeline_bounded plain id no_range new_buffer ([1], 0) (Some Writing)) with (evs := written (E := unit) [7; 8] [9]).
  - apply new_begun. by right.
  - by apply sample_run.
Defined.

(** A write that has begun. *)
Definition begun_write : Pipe unit Empty_set bytes bytes :=
  mkPipe 0 PIPELINE_DISPATCH_PERMITS PIPELINE_DELIVERY_WINDOW [] [] false None true
    (Running (mkThread new_buffer ([1], 0) Receiving)) true (Some Writing) (PToken (CBlock [7; 8])).

Lemma pipeline_calls_return_witness : returns plain begun_write.
Proof.
  apply (pipeline_calls_return plain id no_range new_buffer ([1], 0) (Some Writing)) with (evs := []).
  - apply new_begun. by right.
  - intros j. by exists (Ok j).
  - apply (runs_step plain _ [] _ None _ (runs_refl plain _)). left. apply start_write.
Defined.

(** The synchronous writer: a header, a bare block, raw bytes. *)
Definition sync_ops : list (Op (Input := Empty_set)) := [OpHeader [1; 2]; OpBlock [5; 6; 7] Bare; OpRaw (Borrowed [9])].

Definition sync_start : PbfWriter (W := bytes) := writer_new [] NoCompression (Some Writing).
Definition sync_written := Eval vm_compute in op_run (Io := unit) sync_start sync_ops.
Definition sync_flushed := Eval vm_compute in flush (Io := unit) sync_written.1.

Lemma sync_written_run : op_run (Io := unit) sync_start sync_ops = (sync_written.1, sync_written.2).
Proof. vm_cast_no_check (eq_refl sync_written). Qed.
Lemma sync_flushed_run : flush (Io := unit) sync_written.1 = (sync_flushed.1, sync_flushed.2).
Proof. vm_cast_no_check (eq_refl sync_flushed). Qed.

Lemma sync_writer_certifies_witness :
  Forall (eq (Ok tt)) sync_written.2 /\ sync_flushed.2 = Ok tt /\
  (exists inner inner' outs, pw_writer sync_written.1 = Some inner /\ sink_finish (E := WriteFault unit) inner = (inner', Ok tt) /\
     Forall2 (op_wrote (Io := unit) no_range) sync_ops outs /\
     id inner' = id [] ++ concat outs /\ bytes_written (pw_counters sync_flushed.1) = blen (concat outs)) /\
  (pw_completion sync_flushed.1 = Some Finished -> OpHeader (Input := Empty_set) [1] <> OpTrip ->
     exists w'' e, op_step (Io := unit) sync_flushed.1 (OpHeader (Input := Empty_set) [1]) = (w'', Err e) /\
       pw_completion w'' = Some Failed).
Proof.
  apply (sync_writer_certifies id no_range [] NoCompression (Some Writing) sync_ops (OpHeader [1])
    sync_written.1 sync_flushed.1 sync_written.2 sync_flushed.2).
  - by right.
  - exact sync_written_run.
  - exact sync_flushed_run.
  - right. by vm_compute.
Defined.

(** The pipelined writer over real framing jobs: a block, then a passed-through frame. *)
Definition sample_job : FramingJob := mkJob NoCompression [5; 6; 7] Bare.
Definition sample_block_blob : Blob := mkBlob OSM_DATA [5; 6; 7] NoCompression None None None.
Definition bytes_or_nil {A} (r : result A bytes) : bytes := match r with Ok b => b | Err _ => [] end.
Definition header_frame : bytes := Eval vm_compute in bytes_or_nil (frame_blob OSM_HEADER [1; 2] NoCompression None no_metrics).2.
Definition job_frame : bytes := Eval vm_compute in bytes_or_nil (job_result (Io := unit) sample_job scratch_new no_metrics).
Definition passed_frame : bytes := Eval vm_compute in
  match frame_all scratch_new no_metrics [sample_indexed] with Ok [b] => b | _ => [] end.

Lemma sample_job_framed : job_result (Io := unit) sample_job scratch_new no_metrics = Ok job_frame.
Proof. vm_cast_no_check (eq_refl (Ok (E := WriteFault unit) job_frame)). Qed.

Lemma sample_passed : exists fs, carried [sample_indexed] fs /\ passed_frame = concat (frame_encoded <$> fs).
Proof.
  assert (frame_all scratch_new no_metrics [sample_indexed] = Ok [passed_frame]) as Hf by by vm_compute.
  destruct (frame_all_carries [sample_indexed] scratch_new no_metrics [passed_frame]) as (fs & HF & _ & Hfr); [done| |done|].
  - pose proof sample_blobs_ok as HF. apply Forall_cons in HF as [_ HF]. apply Forall_cons in HF as [HF _]. by apply Forall_singleton.
  - exists fs. rewrite <- Hfr. split; [|by vm_compute]. cbn [zip zip_with] in HF. inversion HF as [|? f ? fs' Hc HF']; subst.
    inversion HF'; subst. constructor; [|constructor]. cbn [fst snd] in Hc. pose proof Hc as [Heq _]. by rewrite <- Heq.
Qed.

Lemma pipelined_file_reads_back_witness :
  let pipe := finished_pipe (E := WriteFault unit) (Job := FramingJob) job_frame passed_frame header_frame in
  let blobs := [mkBlob OSM_HEADER [1; 2] NoCompression None None None; sample_block_blob; sample_indexed] in
  exists k, p_thread pipe = Exited (Ok tt) k /\
    forall t : Reader, ready t -> rest t = id k.1 ->
    exists rs, raw_walk 4 (input_walk false t) = Some (rs, Ok tt) /\
      Forall2 (fun b r => exists frame, reads_back b frame r) blobs rs.
Proof.
  intros pipe blobs.
  apply (pipelined_file_reads_back id no_range new_buffer (header_frame, 0) (Some Writing)
    (written (E := WriteFault unit) sample_job passed_frame) pipe [1; 2] NoCompression no_metrics
    (frame_blob OSM_HEADER [1; 2] NoCompression None no_metrics).1 [[sample_block_blob]; [sample_indexed]] false).
  - apply new_begun. by right.
  - by vm_compute.
  - apply sample_run. exists scratch_new, no_metrics. split; [exact I|exact sample_job_framed].
  - by left.
  - constructor; [|constructor; [exact sample_passed|constructor]]. exists sample_block_blob. split; [done|]. by exists None, None, None.
  - constructor; [by repeat split; vm_compute|]. apply Forall_singleton.
    pose proof sample_blobs_ok as HF. apply Forall_cons in HF as [_ HF]. by apply Forall_cons in HF as [HF _].
  - repeat (constructor; [done|]). constructor.
  - done.
Defined.
