(* ===== verification/ScanSpec.v ===== *)
(** * What the block scanner's answer says of the block

    The scanner walks wire messages and the decoder decodes elements; here the
    first is related to the second on every block the decoder accepts: the
    scan fails only on a tag key outside the string table, its index describes
    exactly the decoded elements, and its tag index lists exactly their keys. *)

From S2P Require Import Prelude Proto Wire WireBlock Encode Dense PackedCount Utf8 Block BlockWalk BlockValid.
From S2P Require Import ElementKind OsmId BlobMeta TagIndex StringTable BlockBuilder BuilderSpec BlobScan.

(** ** Observations commute *)

Definition see_element (w : Walk) (x : ElementKind * Z) : Walk := element w x.1 x.2.
Definition see_coord (w : Walk) (x : Z * Z) : Walk := coordinate w x.1 x.2.

(** The walk after key indices, coordinates and elements have been seen. *)
Definition took (w : Walk) (ks : list Z) (cs : list (Z * Z)) (els : list (ElementKind * Z)) : Walk :=
  foldl see_element (foldl see_coord (foldl key w ks) cs) els.

Lemma element_key w k x : key (see_element w x) k = see_element (key w k) x.
Proof. destruct w as [? ? ? ? ? ? [k0|] ? ? ? ? ? [p|] ? ? ? ?]; done. Qed.

Lemma element_coord w c x : see_coord (see_element w x) c = see_element (see_coord w c) x.
Proof. destruct w as [? ? ? ? ? ? [k0|] ? ? ? ? ? [p|] ? ? ? ?]; done. Qed.

Lemma coord_key w k c : key (see_coord w c) k = see_coord (key w k) c.
Proof. by destruct w. Qed.

Lemma mark_key w k : key (mark_unsupported w) k = mark_unsupported (key w k).
Proof. by destruct w. Qed.

Lemma mark_coord w c : see_coord (mark_unsupported w) c = mark_unsupported (see_coord w c).
Proof. by destruct w. Qed.

Lemma mark_element w x : see_element (mark_unsupported w) x = mark_unsupported (see_element w x).
Proof. destruct w as [? ? ? ? ? ? [k0|] ? ? ? ? ? [p|] ? ? ? ?]; done. Qed.

(** A fold moves past an operation it commutes with. *)
Lemma foldl_comm {A B} (f : A -> B -> A) (g : A -> A) (l : list B) w :
  (forall w x, g (f w x) = f (g w) x) -> g (foldl f w l) = foldl f (g w) l.
Proof. intros H. revert w. induction l as [|x l IH]; intros w; [done|]. cbn. by rewrite IH, H. Qed.

Lemma foldl_swap {A B C} (f : A -> B -> A) (g : A -> C -> A) (l : list B) (m : list C) w :
  (forall w x y, g (f w x) y = f (g w y) x) -> foldl g (foldl f w l) m = foldl f (foldl g w m) l.
Proof.
  intros H. revert w. induction m as [|y m IH]; intros w; [done|]. cbn.
  rewrite <- IH. f_equal. apply (foldl_comm f (fun a => g a y)). intros. apply H.
Qed.

Lemma took_took w k1 c1 e1 k2 c2 e2 : took (took w k1 c1 e1) k2 c2 e2 = took w (k1 ++ k2) (c1 ++ c2) (e1 ++ e2).
Proof.
  unfold took. rewrite !foldl_app. f_equal.
  rewrite (foldl_swap see_element key) by (intros; apply element_key).
  rewrite (foldl_swap see_element see_coord) by (intros; apply element_coord). f_equal.
  rewrite (foldl_swap see_coord key) by (intros; apply coord_key). done.
Qed.

Lemma took_mark w ks cs els : took (mark_unsupported w) ks cs els = mark_unsupported (took w ks cs els).
Proof.
  unfold took. rewrite <- (foldl_comm key mark_unsupported) by (intros; by rewrite mark_key).
  rewrite <- (foldl_comm see_coord mark_unsupported) by (intros; by rewrite mark_coord).
  by rewrite <- (foldl_comm see_element mark_unsupported) by (intros; by rewrite mark_element).
Qed.

(** ** The folds *)

(** Canonical id order, with equal ids allowed. *)
Definition in_order (ids : list Z) : Prop :=
  StronglySorted (fun a b => key_leb (osm_id_key a) (osm_id_key b) = true) ids.

Definition same_frame (w w' : Walk) : Prop :=
  w_collect_keys w' = w_collect_keys w /\ w_strings w' = w_strings w /\ w_granularity w' = w_granularity w /\
  w_lat_offset w' = w_lat_offset w /\ w_lon_offset w' = w_lon_offset w /\ w_groups w' = w_groups w /\
  w_unsupported w' = w_unsupported w.

Definition tallied (w : Walk) : option ElementKind * bool * Z * Z * Z * option Z * bool :=
  (w_kind w, w_kinds_differ w, w_count w, w_min_id w, w_max_id w, w_prev_id w, w_sorted w).

Definition keyed (w : Walk) : list bool * option Z := (w_key_seen w, w_max_key_sid w).

Lemma fold_keys ks w :
  same_frame w (foldl key w ks) /\ tallied (foldl key w ks) = tallied w /\ w_extent (foldl key w ks) = w_extent w.
Proof.
  induction ks as [|k ks IH] using rev_ind; [done|]. rewrite foldl_snoc.
  destruct (foldl key w ks), IH as (Hf & Ht & He). by split_and!.
Qed.

Lemma fold_coords cs w :
  same_frame w (foldl see_coord w cs) /\ tallied (foldl see_coord w cs) = tallied w /\
  keyed (foldl see_coord w cs) = keyed w.
Proof.
  induction cs as [|c cs IH] using rev_ind; [done|]. rewrite foldl_snoc.
  destruct (foldl see_coord w cs), IH as (Hf & Ht & He). by split_and!.
Qed.

Lemma fold_elements els w :
  same_frame w (foldl see_element w els) /\ w_extent (foldl see_element w els) = w_extent w /\
  keyed (foldl see_element w els) = keyed w.
Proof.
  induction els as [|x els IH] using rev_ind; [done|]. rewrite foldl_snoc.
  destruct (foldl see_element w els) as [? ? ? ? ? ? [k0|] ? ? ? ? ? [p|] ? ? ? ?], IH as (Hf & He & Hk); by split_and!.
Qed.

Lemma took_frame w ks cs els : same_frame w (took w ks cs els).
Proof.
  unfold took. destruct (fold_keys ks w) as (H1 & _), (fold_coords cs (foldl key w ks)) as (H2 & _),
    (fold_elements els (foldl see_coord (foldl key w ks) cs)) as (H3 & _).
  unfold same_frame in *. naive_solver congruence.
Qed.

(** The tags a walk saw: the flag of an entry is set exactly when it was a key,
    and the largest index is remembered. *)
Lemma took_keys (w : Walk) ks cs els :
  Forall (fun k => 0 <= k) ks -> w_max_key_sid w = None ->
  (forall i, w_collect_keys w = true -> (i < length (w_key_seen w))%nat ->
     w_key_seen (took w ks cs els) !! i = Some (bool_decide (Z.of_nat i ∈ ks) || default false (w_key_seen w !! i))) /\
  length (w_key_seen (took w ks cs els)) = length (w_key_seen w) /\
  match w_max_key_sid (took w ks cs els) with
  | Some m => m ∈ ks /\ Forall (fun k => k <= m) ks
  | None => ks = []
  end.
Proof.
  intros Hpos Hnone. unfold took.
  pose proof (proj2 (proj2 (fold_elements els (foldl see_coord (foldl key w ks) cs)))) as He.
  pose proof (proj2 (proj2 (fold_coords cs (foldl key w ks)))) as Hc. rewrite Hc in He. clear Hc.
  unfold keyed in He. injection He as -> ->.
  induction ks as [|k ks IH] using rev_ind.
  { cbn. rewrite Hnone. split_and!; [|done|done]. intros i _ Hi. destruct (lookup_lt_is_Some_2 _ _ Hi) as [b Hb]. by rewrite Hb. }
  apply Forall_app in Hpos as [Hpos Hk]. apply Forall_inv in Hk. specialize (IH Hpos) as (IH1 & IH2 & IH3).
  rewrite foldl_snoc. pose proof (proj1 (fold_keys ks w)) as Hfr. destruct (foldl key w ks) as [ck ? ? ? ? ? ? ? ? ? ? ? ? ? ? seen mk].
  cbn [w_key_seen w_max_key_sid key] in *. destruct Hfr as (Hck & _). cbn in Hck. subst ck. split; [|split].
  - intros i Hcol Hi. rewrite Hcol. specialize (IH1 i Hcol Hi). destruct (decide (Z.of_nat i = k)) as [<-|Hne].
    + rewrite Nat2Z.id, list_lookup_insert_eq by lia. rewrite bool_decide_eq_true_2 by set_solver. done.
    + rewrite list_lookup_insert_ne by lia. rewrite IH1. f_equal. f_equal. apply bool_decide_ext. set_solver.
  - destruct (w_collect_keys w); by rewrite ?length_insert.
  - destruct mk as [m|].
    + destruct IH3 as [Hin HF]. destruct (Z.max_spec m k) as [[Hlt ->]|[Hge ->]].
      * split; [set_solver|]. apply Forall_app. split; [|by apply Forall_singleton].
        eapply Forall_impl; [exact HF|]. cbn. lia.
      * split; [set_solver|]. apply Forall_app. split; [done|by apply Forall_singleton].
    + subst ks. split; [set_solver|]. by apply Forall_singleton.
Qed.

Lemma osm_id_not_lt a b :
  match osm_id_cmp a b with Lt => false | _ => true end = key_leb (osm_id_key b) (osm_id_key a).
Proof.
  unfold osm_id_cmp, key_cmp, key_leb, key_cmp. destruct (osm_id_key a) as [a1 a2], (osm_id_key b) as [b1 b2]. cbn [fst snd].
  rewrite (Z.compare_antisym a1 b1), (Z.compare_antisym a2 b2).
  by destruct (a1 ?= b1), (a2 ?= b2).
Qed.

Lemma in_order_snoc ids id :
  in_order (ids ++ [id]) <->
  in_order ids /\ match list.last ids with Some p => key_leb (osm_id_key p) (osm_id_key id) = true | None => True end.
Proof.
  unfold in_order. induction ids as [|x ids IH]; [repeat constructor|]. cbn [app]. split.
  - intros H. apply StronglySorted_inv in H as [H HF]. apply IH in H as [H Hl]. apply Forall_app in HF as [HF Hx].
    split; [by constructor|]. destruct ids as [|y ids]; [by apply Forall_inv in Hx|]. done.
  - intros [H Hl]. apply StronglySorted_inv in H as [H HF]. constructor.
    + apply IH. split; [done|]. by destruct ids as [|y ids].
    + apply Forall_app. split; [done|]. apply Forall_singleton. destruct ids as [|y ids]; [done|].
      rewrite last_cons_cons in Hl. destruct (list.last (y :: ids)) as [p|] eqn:Hp; [|by apply last_None in Hp].
      apply last_Some_elem_of in Hp. rewrite Forall_forall in HF. specialize (HF _ Hp).
      rewrite !key_leb_le in *. by eapply key_le_trans.
Qed.

(** What a fresh walk knows of the elements it has seen. *)
Record counted (w : Walk) (els : list (ElementKind * Z)) : Prop := {
  ct_kind : w_kind w = head (fst <$> els);
  ct_differ : w_kinds_differ w = negb (bool_decide (Forall (fun k => Some k = head (fst <$> els)) (fst <$> els)));
  ct_count : w_count w = Z.of_nat (length els);
  ct_min : w_min_id w = mins i64_max (snd <$> els);
  ct_max : w_max_id w = maxs i64_min (snd <$> els);
  ct_prev : w_prev_id w = list.last (snd <$> els);
  ct_sorted : w_sorted w = true <-> in_order (snd <$> els) }.

Lemma counted_one w els k id : counted w els -> counted (element w k id) (els ++ [(k, id)]).
Proof.
  intros [Hk Hd Hc Hmi Hma Hp Hs]. destruct w as [ck st g la lo gs kd df us n mi ma pr so ex ks mk]. cbn in Hk, Hd, Hc, Hmi, Hma, Hp, Hs.
  assert (element (mkWalk ck st g la lo gs kd df us n mi ma pr so ex ks mk) k id =
    mkWalk ck st g la lo gs (Some (default k kd)) (match kd with Some k0 => if decide (k0 = k) then df else true | None => df end)
      us (n + 1) (Z.min mi id) (Z.max ma id) (Some id)
      (so && match pr with Some p => key_leb (osm_id_key p) (osm_id_key id) | None => true end) ex ks mk) as ->.
  { cbn. destruct kd, pr as [p|]; rewrite ?andb_true_r; rewrite <- ?osm_id_not_lt; try done;
      (destruct (osm_id_cmp id p); by rewrite ?andb_true_r, ?andb_false_r). }
  split; cbn [w_kind w_kinds_differ w_count w_min_id w_max_id w_prev_id w_sorted].
  - subst kd. by destruct els as [|[k0 i0] els].
  - subst kd df. rewrite fmap_app. destruct els as [|[k0 i0] els]; cbn [fmap list_fmap head app fst].
    + by rewrite !bool_decide_eq_true_2 by by first [apply Forall_nil_2 | apply Forall_singleton].
    + rewrite (bool_decide_ext (Forall _ (k0 :: _ ++ _)) (Forall (fun k => Some k = Some k0) (k0 :: (fst <$> els)) /\ k = k0)).
      * case_decide as Hkk; [subst k|]; [f_equal; apply bool_decide_ext; naive_solver|].
        rewrite bool_decide_eq_false_2 by naive_solver. done.
      * rewrite app_comm_cons, Forall_app, Forall_singleton. naive_solver.
  - rewrite length_app. cbn. lia.
  - rewrite fmap_app. change (snd <$> [(k, id)]) with [id]. rewrite mins_snoc. lia.
  - rewrite fmap_app. change (snd <$> [(k, id)]) with [id]. rewrite maxs_snoc. lia.
  - rewrite fmap_app. change (snd <$> [(k, id)]) with [id]. by rewrite last_snoc.
  - rewrite fmap_app. change (snd <$> [(k, id)]) with [id]. rewrite andb_true_iff, in_order_snoc, Hs, Hp.
    destruct (list.last (snd <$> els)); naive_solver.
Qed.

Lemma took_counted w ks cs els : counted w [] -> counted (took w ks cs els) els.
Proof.
  intros Hw. unfold took. assert (counted (foldl see_coord (foldl key w ks) cs) []) as H0.
  { pose proof (proj1 (proj2 (fold_coords cs (foldl key w ks)))) as H. rewrite (proj1 (proj2 (fold_keys ks w))) in H.
    unfold tallied in H. injection H as H1 H2 H3 H4 H5 H6 H7. destruct Hw. split; congruence || by rewrite H7. }
  revert H0. generalize (foldl see_coord (foldl key w ks) cs) as w0. intros w0 H0.
  induction els as [|[k id] els IH] using rev_ind; [done|]. rewrite foldl_snoc. by apply counted_one.
Qed.

Definition coords_extent (cs : list (Z * Z)) : option RawExtent :=
  match cs with
  | [] => None
  | c :: _ => Some (mkExtent (mins c.1 (fst <$> cs)) (maxs c.1 (fst <$> cs)) (mins c.2 (snd <$> cs)) (maxs c.2 (snd <$> cs)))
  end.

Lemma took_extent w ks cs els : w_extent w = None -> w_extent (took w ks cs els) = coords_extent cs.
Proof.
  intros Hw. unfold took. rewrite (proj1 (proj2 (fold_elements _ _))).
  assert (w_extent (foldl key w ks) = None) as H0 by by rewrite (proj2 (proj2 (fold_keys ks w))).
  revert H0. generalize (foldl key w ks) as w0. intros w0 H0.
  induction cs as [|[la lo] cs IH] using rev_ind; [done|]. rewrite foldl_snoc.
  destruct (foldl see_coord w0 cs) as [ck st g gla glo gs kd df us n mi ma pr so ex kseen mk]. cbn [see_coord coordinate w_extent fst snd] in *. rewrite IH.
  destruct cs as [|[la0 lo0] cs]; cbn [coords_extent app].
  { cbn. by rewrite !Z.min_id, !Z.max_id. }
  rewrite !app_comm_cons, !fmap_app. cbn [fmap list_fmap fst snd ex_min_lat ex_max_lat ex_min_lon ex_max_lon].
  rewrite !mins_snoc, !maxs_snoc. do 2 f_equal; lia.
Qed.

(** ** Elements as the scanner sees them *)

Definition el_id {P : Protohoggr} (e : Element) : Z :=
  match e with
  | ElNode n => wn_id (nv_node n)
  | ElDenseNode d => dn_id d
  | ElWay w => ww_id (wv_way w)
  | ElRelation r => wr_id (rv_rel r)
  end.

(** The raw string-table indices of its tags. *)
Definition el_tags {P : Protohoggr} (e : Element) : option (list (Z * Z)) :=
  match e with
  | ElNode n => raw_tags (wn_keys (nv_node n)) (wn_vals (nv_node n))
  | ElDenseNode d => dense_raw_tags d
  | ElWay w => raw_tags (ww_keys (wv_way w)) (ww_vals (wv_way w))
  | ElRelation r => raw_tags (wr_keys (rv_rel r)) (wr_vals (rv_rel r))
  end.

Definition el_keys {P : Protohoggr} (e : Element) : list Z := fst <$> default [] (el_tags e).

(** A node's raw coordinate. *)
Definition el_coords {P : Protohoggr} (e : Element) : list (Z * Z) :=
  match e with
  | ElNode n => [(wn_lat (nv_node n), wn_lon (nv_node n))]
  | ElDenseNode d => [(dn_lat d, dn_lon d)]
  | _ => []
  end.

Section Spec.
Context `{L : ProtohoggrLaws}.

Definition took_all (w : Walk) (es : list Element) : Walk :=
  took w (es ≫= el_keys) (es ≫= el_coords) ((fun e => (element_kind e, el_id e)) <$> es).

Lemma took_all_app w a b : took_all (took_all w a) b = took_all w (a ++ b).
Proof. unfold took_all. by rewrite took_took, !bind_app, fmap_app. Qed.

Lemma took_all_mark w es : took_all (mark_unsupported w) es = mark_unsupported (took_all w es).
Proof. apply took_mark. Qed.

(** ** Packed arrays *)

Lemma nonempty_read c v c' : read_varint c = Ok (v, c') -> exists b c0, c = b :: c0.
Proof. intros H. destruct c as [|b c]; [by apply read_varint_consumes in H; simpl in H; lia|eauto]. Qed.

Lemma read_u32 c v c' : read_varint c = Ok (v, c') -> is_u32 v -> read_varint_u32 c = Ok (v, c').
Proof.
  intros H Hv. pose proof (read_varint_u32_spec c) as Hs. rewrite H in Hs.
  rewrite (proj2 (Z.leb_le v u32_max)) in Hs by width. done.
Qed.

Lemma keys_loop_ok c ks : reads_all c ks -> Forall is_u32 ks -> forall fuel w, (length c <= fuel)%nat ->
  keys_loop fuel w c = Ok (foldl key w ks).
Proof.
  induction 1 as [|c v c' vs Hr _ IH]; intros HF fuel w Hf; [by destruct fuel|].
  apply Forall_cons in HF as [Hv HF]. pose proof (read_u32 _ _ _ Hr Hv) as H32. pose proof (read_varint_consumes _ _ _ Hr) as Hc.
  destruct (nonempty_read _ _ _ Hr) as (b & c0 & ->). destruct fuel as [|fuel]; [cbn in Hf; lia|].
  cbn [keys_loop]. rewrite H32. cbn [lift mbind result_bind foldl]. apply IH; [done|cbn [length] in *; lia].
Qed.

Lemma vals_loop_ok c vs : reads_all c vs -> Forall is_u32 vs -> forall fuel, (length c <= fuel)%nat ->
  vals_loop fuel c = Ok tt.
Proof.
  induction 1 as [|c v c' vs Hr _ IH]; intros HF fuel Hf; [by destruct fuel|].
  apply Forall_cons in HF as [Hv HF]. pose proof (read_u32 _ _ _ Hr Hv) as H32. pose proof (read_varint_consumes _ _ _ Hr) as Hc.
  destruct (nonempty_read _ _ _ Hr) as (b & c0 & ->). destruct fuel as [|fuel]; [cbn in Hf; lia|].
  cbn [vals_loop]. rewrite H32. cbn [lift mbind result_bind]. apply IH; [done|cbn [length] in *; lia].
Qed.

Lemma packed_keys_ok w keys vals :
  tags_ok keys vals -> packed_keys w keys vals = Ok (foldl key w (fst <$> default [] (raw_tags keys vals))).
Proof.
  intros (ks & vs & Hk & Hv & Fk & Fv & Hlen & Ht). unfold packed_keys.
  rewrite (keys_loop_ok _ _ Hk Fk), (vals_loop_ok _ _ Hv Fv) by done. cbn [mbind result_bind].
  rewrite Ht. change (default [] (Some (zip ks vs))) with (zip ks vs). by rewrite fst_zip by lia.
Qed.

Lemma read_sint c v c' : read_varint c = Ok (v, c') -> read_sint64 c = Ok (zigzag_decode_64 v, c').
Proof. intros H. by rewrite read_sint64_spec, H. Qed.

(** The three columns of a dense message, read in step. *)
Lemma dense_loop_ok ids vi : reads_all ids vi -> forall lats vla lons vlo, reads_all lats vla -> reads_all lons vlo ->
  length vla = length vi -> length vlo = length vi -> forall fuel w id lat lon n, (length ids <= fuel)%nat ->
  dense_loop fuel w ids lats lons id lat lon n =
    Ok (took w [] (zip (delta_sums lat (zigzag_decode_64 <$> vla)) (delta_sums lon (zigzag_decode_64 <$> vlo)))
          (pair Node <$> delta_sums id (zigzag_decode_64 <$> vi)),
        n + Z.of_nat (length vi)).
Proof.
  induction 1 as [|c v c' vs Hr _ IH]; intros lats vla lons vlo Hla Hlo L1 L2 fuel w id lat lon n Hf.
  { destruct vla, vlo; try done. inversion Hla; inversion Hlo; subst. cbn. rewrite Z.add_0_r. by destruct fuel. }
  inversion Hla as [|? vl lats' vla' Hrl Hla']; subst; [done|]. inversion Hlo as [|? vo lons' vlo' Hro Hlo']; subst; [done|].
  pose proof (read_varint_consumes _ _ _ Hr) as Hc. pose proof (read_sint _ _ _ Hr) as H1.
  pose proof (read_sint _ _ _ Hrl) as H2. pose proof (read_sint _ _ _ Hro) as H3.
  destruct (nonempty_read _ _ _ Hr) as (b & c0 & ->), (nonempty_read _ _ _ Hrl) as (bl & cl & ->), (nonempty_read _ _ _ Hro) as (bo & co & ->).
  destruct fuel as [|fuel]; [cbn in Hf; lia|]. cbn [dense_loop]. rewrite H1. cbn [lift mbind result_bind].
  rewrite H2. cbn [lift mbind result_bind]. rewrite H3. cbn [lift mbind result_bind].
  rewrite (IH lats' vla' lons' vlo' Hla' Hlo') by (cbn [length] in *; lia). f_equal. f_equal; [|cbn [length]; lia].
  cbn [fmap list_fmap delta_sums zip zip_with].
  exact (took_took w [] [(_, _)] [(Node, _)] [] _ _).
Qed.

Lemma kv_loop_fuel n m w c runs in_run :
  (length c <= n)%nat -> (length c <= m)%nat -> kv_loop n w c runs in_run = kv_loop m w c runs in_run.
Proof.
  revert m w c runs in_run. induction n as [|n IH]; intros [|m] w [|b c] runs in_run Hn Hm; cbn [length] in Hn, Hm; try done; try lia.
  cbn [kv_loop]. destruct (read_varint (b :: c)) as [[k c1]|] eqn:Hk; [|done]. cbn [lift mbind result_bind].
  apply read_varint_consumes in Hk. cbn [length] in Hk. destruct (k =? 0); [apply IH; lia|]. destruct c1 as [|b1 c1]; [done|].
  destruct (read_varint (b1 :: c1)) as [[v c2]|] eqn:Hv; [|done]. cbn [lift mbind result_bind].
  apply read_varint_consumes in Hv. cbn [length] in *. apply IH; lia.
Qed.

(** One run of pairs. *)
Lemma kv_run_ok c kvs rest : kv_run c kvs rest -> forall fuel w runs in_run,
  (c = [] -> in_run = true) -> (length c <= fuel)%nat ->
  kv_loop fuel w c runs in_run = kv_loop (length rest) (foldl key w (fst <$> kvs)) rest (runs + 1) false.
Proof.
  induction 1 as [|c c' Hz|c k c1 v c2 kvs rest Hk Hk0 Hv Hv0 Hr IH]; intros fuel w runs in_run Hin Hf.
  - rewrite Hin by done. by destruct fuel.
  - pose proof (read_varint_consumes _ _ _ Hz) as Hc. destruct (nonempty_read _ _ _ Hz) as (b & c0 & ->).
    destruct fuel as [|fuel]; [cbn in Hf; lia|]. cbn [kv_loop]. rewrite Hz. cbn [lift mbind result_bind Z.eqb].
    apply kv_loop_fuel; cbn [length] in *; lia.
  - pose proof (read_varint_consumes _ _ _ Hk) as Hc. pose proof (read_varint_consumes _ _ _ Hv) as Hc1.
    destruct (nonempty_read _ _ _ Hk) as (b & c0 & ->), (nonempty_read _ _ _ Hv) as (b1 & c10 & ->).
    destruct fuel as [|fuel]; [cbn in Hf; lia|]. cbn [kv_loop]. rewrite Hk. cbn [lift mbind result_bind].
    rewrite (proj2 (Z.eqb_neq k 0)) by lia. rewrite Hv. cbn [lift mbind result_bind fmap list_fmap foldl fst].
    apply IH; [done|cbn [length] in *; lia].
Qed.

Lemma kv_runs_ok c rs : kv_runs c rs -> forall fuel w runs, (length c <= fuel)%nat ->
  kv_loop fuel w c runs false = Ok (foldl key w (rs ≫= fmap fst), runs + Z.of_nat (length rs)).
Proof.
  induction 1 as [|c kvs rest rs Hne Hrun _ IH]; intros fuel w runs Hf.
  - destruct fuel; cbn; by rewrite Z.add_0_r.
  - rewrite (kv_run_ok _ _ _ Hrun) by done. rewrite IH by done. cbn [mbind list_bind length]. rewrite foldl_app.
    f_equal. f_equal. lia.
Qed.

Lemma bind_keys (ns : list DenseNode) rs :
  dense_raw_tags <$> ns = Some <$> rs -> (ElDenseNode <$> ns) ≫= el_keys = rs ≫= fmap fst.
Proof.
  revert rs. induction ns as [|n ns IH]; intros [|r rs] H; try done. cbn [fmap list_fmap] in H. injection H as H1 H2.
  cbn [fmap list_fmap mbind list_bind]. unfold el_keys at 1. cbn [el_tags]. rewrite H1. cbn. f_equal. by apply IH.
Qed.

(** A dense message's nodes. *)
Lemma dense_ok w d n ns rs :
  dense_valid d n -> length ns = n -> dn_id <$> ns = delta_decoded (wd_id d) -> dn_lat <$> ns = delta_decoded (wd_lat d) ->
  dn_lon <$> ns = delta_decoded (wd_lon d) -> kv_tail (wd_keys_vals d) rs -> dense_raw_tags <$> ns = Some <$> rs ->
  dense w d = Ok (took_all w (ElDenseNode <$> ns)).
Proof.
  intros (Hi & Hla & Hlo & _ & _ & (vi & Ri) & (vla & Rla) & (vlo & Rlo)) Hn Eid Elat Elon Hkv Hraw.
  rewrite (reads_all_drains _ _ _ _ packed_sint64_drains Ri), length_fmap in Hi.
  rewrite (reads_all_drains _ _ _ _ packed_sint64_drains Rla), length_fmap in Hla.
  rewrite (reads_all_drains _ _ _ _ packed_sint64_drains Rlo), length_fmap in Hlo.
  unfold dense. rewrite (dense_loop_ok _ _ Ri _ _ _ _ Rla Rlo) by (try done; lia). cbn [mbind result_bind].
  assert (length rs = length ns) as Hrs by (apply (f_equal length) in Hraw; by rewrite !length_fmap in Hraw).
  assert (took_all w (ElDenseNode <$> ns) = foldl key
    (took w [] (zip (delta_sums 0 (zigzag_decode_64 <$> vla)) (delta_sums 0 (zigzag_decode_64 <$> vlo)))
       (pair Node <$> delta_sums 0 (zigzag_decode_64 <$> vi))) (rs ≫= fmap fst)) as ->.
  { unfold took_all. rewrite (bind_keys _ _ Hraw).
    transitivity (took (took w [] (zip (dn_lat <$> ns) (dn_lon <$> ns)) (pair Node <$> (dn_id <$> ns))) (rs ≫= fmap fst) [] []).
    - rewrite took_took, !app_nil_r. cbn [app]. f_equal.
      + clear. induction ns as [|n ns IH]; [done|]. cbn in *. by f_equal.
      + rewrite <- !list_fmap_compose. done.
    - rewrite Eid, Elat, Elon. unfold delta_decoded.
      by rewrite !(reads_all_drains _ _ _ _ packed_sint64_drains Ri), !(reads_all_drains _ _ _ _ packed_sint64_drains Rla),
        !(reads_all_drains _ _ _ _ packed_sint64_drains Rlo). }
  unfold dense_keys_vals. destruct Hkv as [[Hnil HF]|Hr].
  - rewrite Hnil. f_equal. assert (rs ≫= fmap fst = []) as ->; [|done].
    clear -HF. induction HF as [|r rs <- _ IH]; [done|]. cbn. done.
  - destruct (wd_keys_vals d) as [|b kv] eqn:Ekv.
    { inversion Hr; subst; [|done]. done. }
    rewrite (kv_runs_ok _ _ Hr) by done. cbn [mbind result_bind]. rewrite (proj2 (Z.eqb_eq _ _)) by lia. done.
Qed.

(** ** The messages of a group, in wire order *)

Fixpoint each {S B} (f : S -> B -> result WireError S) (s : S) (l : list B) : result WireError S :=
  match l with
  | [] => Ok s
  | x :: l => s ← f s x; each f s l
  end.

(** [group_step] on a message already read. *)
Definition on_message (s : Walk * Z) (m : Z * bytes) : result WireError (Walk * Z) :=
  let '(w, seen) := s in
  let saw w := Ok (w, Z.lor seen (Z.shiftl 1 m.1)) in
  if m.1 =? 1 then
    n ← WireNode_parse m.2; w ← packed_keys w (wn_keys n) (wn_vals n);
    saw (element (coordinate w (wn_lat n) (wn_lon n)) Node (wn_id n))
  else if m.1 =? 2 then
    if Z.testbit seen 2 then Err (Message DUP_GROUP_DENSE)
    else d ← WireDenseNodes_parse m.2; w ← dense w d; saw w
  else if m.1 =? 3 then
    v ← WireWay_parse m.2; w ← packed_keys w (ww_keys v) (ww_vals v); saw (element w Way (ww_id v))
  else
    r ← WireRelation_parse m.2; w ← packed_keys w (wr_keys r) (wr_vals r); saw (element w Relation (wr_id r)).

Definition bodies (target : Z) (ms : list (Z * bytes)) : list bytes := snd <$> filter (fun m => m.1 = target) ms.

(** What [WireGroup_dense] makes of the dense messages. *)
Fixpoint dense_left (d : option bytes) (ds : list bytes) : result WireError (option bytes) :=
  match ds with
  | [] => Ok d
  | b :: ds => match d with Some _ => Err (Message DUP_GROUP_DENSE) | None => dense_left (Some b) ds end
  end.

Lemma bodies_cons target m ms :
  bodies target (m :: ms) = if decide (m.1 = target) then m.2 :: bodies target ms else bodies target ms.
Proof. unfold bodies. rewrite filter_cons. by case_decide. Qed.

Lemma element_arms f w :
  (exists t, (t = 1 \/ t = 2 \/ t = 3 \/ t = 4) /\ f = t /\ w = WIRE_LEN) \/
  (forall t, t = 1 \/ t = 2 \/ t = 3 \/ t = 4 -> arm_len t f w = false).
Proof.
  unfold arm_len. destruct (Z.eqb_spec w WIRE_LEN) as [->|]; [|right; intros; apply andb_false_r].
  destruct (decide (f = 1 \/ f = 2 \/ f = 3 \/ f = 4)); [left; by exists f|].
  right. intros t Ht. rewrite (proj2 (Z.eqb_neq f t)); [done|]. by intros ->.
Qed.

Lemma group_messages n : forall c, fields frame_step n tt c = Ok tt -> exists ms,
  Forall (fun m => m.1 = 1 \/ m.1 = 2 \/ m.1 = 3 \/ m.1 = 4) ms /\
  (forall s, fields group_step n s c = each on_message s ms) /\
  (forall target out, target = 1 \/ target = 2 \/ target = 3 \/ target = 4 ->
     fields (collect_step target) n out c = Ok (out ++ bodies target ms)) /\
  (forall d, fields dense_step n d c = dense_left d (bodies 2 ms)).
Proof.
  induction n as [|n IH]; intros c; cbn [fields].
  all: destruct (read_tag c) as [[[[f w]|] c1]|e] eqn:Ht; try done;
    try (intros _; exists []; split; [constructor|]; split_and!; [done|intros; by rewrite app_nil_r|done]).
  intros H. apply bind_ok in H as ([[] c2] & Hs & H). unfold frame_step, skip_arm in Hs.
  apply bind_ok in Hs as (c3 & Hs%lift_ok & Heq). injection Heq as ->. destruct (IH c2 H) as (ms & HF & Hg & Hc & Hd).
  destruct (element_arms f w) as [(t & Hcase & -> & ->)|Hno].
  - rewrite skip_len in Hs. destruct (read_len_delimited c1) as [[b c4]|] eqn:Hr; [|done]. injection Hs as ->.
    exists ((t, b) :: ms). split; [by constructor|]. split_and!.
    + intros [wk seen]. cbn [each on_message fst snd]. unfold group_step, arm_len.
      destruct Hcase as [->|[->|[->| ->]]]; cbn [Z.eqb Pos.eqb andb WIRE_LEN]; rewrite ?Hr; cbn [lift mbind result_bind].
      all: repeat match goal with |- context [@mbind _ _ _ _ _ ?m] =>
        match m with
        | WireNode_parse _ => destruct m | WireDenseNodes_parse _ => destruct m | WireWay_parse _ => destruct m
        | WireRelation_parse _ => destruct m | packed_keys _ _ _ => destruct m | dense _ _ => destruct m
        | (if Z.testbit ?sn 2 then _ else _) => destruct (Z.testbit sn 2)
        end; cbn [lift mbind result_bind]; try done end; try apply Hg.
    + intros target out Hcase'. rewrite bodies_cons. cbn [fst snd].
      assert (collect_step target out t WIRE_LEN c1 = Ok (if decide (t = target) then out ++ [b] else out, c2)) as ->.
      { unfold collect_step, arm_len. case_decide as Heq; [subst target; rewrite Z.eqb_refl|rewrite (proj2 (Z.eqb_neq t target)) by done].
        - by rewrite Hr.
        - unfold skip_arm. by rewrite skip_len, Hr. }
      cbn [mbind result_bind]. rewrite Hc by done. case_decide; [by rewrite <- app_assoc|done].
    + intros d. rewrite bodies_cons. cbn [fst snd].
      assert (dense_step d t WIRE_LEN c1 = if decide (t = 2) then match d with Some _ => Err (Message DUP_GROUP_DENSE) | None => Ok (Some b, c2) end
                                           else Ok (d, c2)) as ->.
      { unfold dense_step, arm_len. case_decide as Heq; [subst t|rewrite (proj2 (Z.eqb_neq t 2)) by done].
        - by rewrite Hr.
        - unfold skip_arm. by rewrite skip_len, Hr. }
      case_decide; [destruct d; [done|]|]; apply Hd.
  - exists ms. split; [done|]. split_and!.
    + intros s. assert (group_step s f w c1 = Ok (s, c2)) as ->; [|apply Hg].
      destruct s as [wk seen]. unfold group_step. rewrite !Hno by tauto. unfold skip_arm. by rewrite Hs.
    + intros target out Hcase. assert (collect_step target out f w c1 = Ok (out, c2)) as ->; [|by apply Hc].
      unfold collect_step. rewrite Hno by done. unfold skip_arm. by rewrite Hs.
    + intros d. assert (dense_step d f w c1 = Ok (d, c2)) as ->; [|by apply Hd].
      unfold dense_step. rewrite Hno by tauto. unfold skip_arm. by rewrite Hs.
Qed.

(** ** Groups that mix element fields *)

(** The number of element fields a group uses. *)
Definition fields_used (data : bytes) : nat :=
  (if decide (WireGroup_nodes data = []) then 0 else 1) +
  match WireGroup_dense data with Ok (Some _) => 1 | _ => 0 end +
  (if decide (WireGroup_ways data = []) then 0 else 1) +
  (if decide (WireGroup_relations data = []) then 0 else 1).

Definition mixed (data : bytes) : bool := (1 <? fields_used data)%nat.

Definition seen_after (seen : Z) (ms : list (Z * bytes)) : Z :=
  foldl (fun s (m : Z * bytes) => Z.lor s (Z.shiftl 1 m.1)) seen ms.

Lemma seen_bit ms i : 0 <= i -> Forall (fun m => 0 <= m.1) ms ->
  Z.testbit (seen_after 0 ms) i = bool_decide (i ∈ fst <$> ms).
Proof.
  intros Hi. unfold seen_after. induction ms as [|[t b] ms IH] using rev_ind; intros HF.
  { by rewrite Z.testbit_0_l. }
  apply Forall_app in HF as [HF Ht]. apply Forall_inv in Ht. cbn in Ht. rewrite foldl_snoc, Z.lor_spec, IH, fmap_app by done.
  rewrite Z.shiftl_spec by done. cbn [fst]. apply eq_bool_prop_intro. rewrite orb_True, !bool_decide_spec, elem_of_app.
  destruct (decide (i = t)) as [->|Hne].
  - rewrite Z.sub_diag. cbn. set_solver.
  - rewrite Z.bit0_odd || idtac. assert (Z.testbit 1 (i - t) = false) as ->; [|set_solver].
    destruct (Z.lt_ge_cases i t); [by rewrite Z.testbit_neg_r by lia|].
    change 1 with (2 ^ 0). rewrite Z.pow2_bits_false by lia. done.
Qed.

Lemma bodies_nonempty t ms : bodies t ms = [] <-> t ∉ fst <$> ms.
Proof.
  unfold bodies. induction ms as [|[t' b] ms IH]; [set_solver|]. rewrite filter_cons. cbn [fst fmap list_fmap].
  case_decide as H; cbn [fst] in H; [subst|]; [cbn; set_solver|]. rewrite IH. set_solver.
Qed.

Definition element_field (m : Z * bytes) : Prop := m.1 = 1 \/ m.1 = 2 \/ m.1 = 3 \/ m.1 = 4.

(** A group's messages, with what the decoder's accessors see of them. *)
Record wire_order (data : bytes) (ms : list (Z * bytes)) (d : option bytes) : Prop := {
  wo_fields : Forall element_field ms;
  wo_scan : forall s, parse group_step s data = each on_message s ms;
  wo_nodes : WireGroup_nodes data = bodies 1 ms;
  wo_ways : WireGroup_ways data = bodies 3 ms;
  wo_relations : WireGroup_relations data = bodies 4 ms;
  wo_dense : WireGroup_dense data = Ok d /\ bodies 2 ms = option_list d }.

Lemma group_wire_order data d : parse frame_step tt data = Ok tt -> WireGroup_dense data = Ok d ->
  exists ms, wire_order data ms d.
Proof.
  intros Hf Hd. destruct (group_messages (length data) data Hf) as (ms & HF & Hg & Hc & Hds). exists ms.
  assert (forall t, t = 1 \/ t = 2 \/ t = 3 \/ t = 4 -> messages t data = bodies t ms) as Hm.
  { intros t Ht. pose proof (framed_messages t data Hf) as Hfm. unfold parse in Hfm. rewrite Hc in Hfm by done. by injection Hfm. }
  split; [done|exact Hg|by apply Hm; tauto..|]. split; [done|].
  unfold WireGroup_dense, parse in Hd. rewrite Hds in Hd. destruct (bodies 2 ms) as [|b [|b' bs]]; cbn in Hd; by simplify_eq.
Qed.

Lemma count_ones_bits seen :
  Z.testbit seen 0 = false -> Z.testbit seen 5 = false -> Z.testbit seen 6 = false -> Z.testbit seen 7 = false ->
  count_ones seen = (Nat.b2n (Z.testbit seen 1) + Nat.b2n (Z.testbit seen 2) + Nat.b2n (Z.testbit seen 3) + Nat.b2n (Z.testbit seen 4))%nat.
Proof.
  intros H0 H5 H6 H7. unfold count_ones. change (seqZ 0 8) with [0; 1; 2; 3; 4; 5; 6; 7].
  rewrite !filter_cons, H0, H5, H6, H7. cbn [decide].
  destruct (Z.testbit seen 1), (Z.testbit seen 2), (Z.testbit seen 3), (Z.testbit seen 4); done.
Qed.

Lemma mixed_seen data ms d : wire_order data ms d -> (1 <? count_ones (seen_after 0 ms))%nat = mixed data.
Proof.
  intros [HF _ Hn Hw Hr [Hd Hb]]. unfold mixed, fields_used. rewrite Hn, Hw, Hr, Hd.
  assert (Forall (fun m : Z * bytes => 0 <= m.1) ms) as Hpos.
  { eapply Forall_impl; [exact HF|]. unfold element_field. lia. }
  assert (forall i, i <> 1 -> i <> 2 -> i <> 3 -> i <> 4 -> i ∉ fst <$> ms) as Hout.
  { intros i ? ? ? ? (m & -> & Hm)%list_elem_of_fmap_1. rewrite Forall_forall in HF. destruct (HF m Hm) as [|[|[|]]]; congruence. }
  rewrite count_ones_bits by (rewrite seen_bit by done; apply bool_decide_eq_false_2, Hout; lia).
  rewrite !seen_bit by done.
  assert (forall t, Nat.b2n (bool_decide (t ∈ fst <$> ms)) = if decide (bodies t ms = []) then 0%nat else 1%nat) as Hone.
  { intros t. case_decide as H; rewrite bodies_nonempty in H; [by rewrite bool_decide_eq_false_2|].
    by rewrite bool_decide_eq_true_2 by (by apply dec_stable). }
  rewrite !Hone. rewrite Hb. destruct d as [d|]; cbn [option_list]; f_equal.
Qed.

(** ** One group *)

Definition view_node (b : WireBlock) (d : bytes) : option NodeView := mkNode b <$> validated (WireNode_parse d).
Definition view_way (b : WireBlock) (d : bytes) : option WayView := mkWay b <$> validated (WireWay_parse d).
Definition view_relation (b : WireBlock) (d : bytes) : option RelationView := mkRelation b <$> validated (WireRelation_parse d).

(** The elements of one message; [ds] are those of the group's dense message. *)
Definition message_says (b : WireBlock) (ds : list DenseNode) (m : Z * bytes) (es : list Element) : Prop :=
  (m.1 = 1 /\ exists x, view_node b m.2 = Some x /\ es = [ElNode x]) \/
  (m.1 = 2 /\ es = ElDenseNode <$> ds) \/
  (m.1 = 3 /\ exists x, view_way b m.2 = Some x /\ es = [ElWay x]) \/
  (m.1 = 4 /\ exists x, view_relation b m.2 = Some x /\ es = [ElRelation x]).

Lemma validated_ok {A} (r : result WireError A) x : validated r = Some x -> r = Ok x.
Proof. destruct r; cbn; [by intros [= ->]|done]. Qed.

Lemma seen_other seen t : t <> 2 -> 0 <= t -> Z.testbit (Z.lor seen (Z.shiftl 1 t)) 2 = Z.testbit seen 2.
Proof.
  intros Ht Hpos. rewrite Z.lor_spec, Z.shiftl_spec by lia. assert (Z.testbit 1 (2 - t) = false) as ->; [|apply orb_false_r].
  destruct (Z.lt_ge_cases 2 t); [by rewrite Z.testbit_neg_r by lia|]. change 1 with (2 ^ 0). by rewrite Z.pow2_bits_false by lia.
Qed.

(** Scanning a message takes its elements. *)
Lemma on_message_ok b ds m es w seen :
  message_says b ds m es -> Forall element_ok es ->
  (m.1 = 2 -> Z.testbit seen 2 = false /\ exists d, WireDenseNodes_parse m.2 = Ok d /\ dense w d = Ok (took_all w (ElDenseNode <$> ds))) ->
  on_message (w, seen) m = Ok (took_all w es, Z.lor seen (Z.shiftl 1 m.1)).
Proof.
  intros Hm Hok Hd. unfold on_message. unfold message_says in Hm. destruct m as [t body]. cbn [fst snd] in *.
  destruct Hm as [(-> & x & Hx & ->)|[(-> & ->)|[(-> & x & Hx & ->)|(-> & x & Hx & ->)]]]; cbn [Z.eqb Pos.eqb].
  - apply Forall_inv in Hok as [Ht _]. unfold view_node in Hx. apply fmap_Some in Hx as (n & Hn%validated_ok & ->).
    cbn [nv_node] in Ht. rewrite Hn. cbn [mbind result_bind]. rewrite (packed_keys_ok w _ _ Ht). cbn [mbind result_bind].
    unfold took_all. cbn [mbind list_bind app fmap list_fmap el_coords element_kind el_id nv_node]. by rewrite app_nil_r.
  - destruct (Hd eq_refl) as (-> & d & -> & Hdd). cbn [mbind result_bind]. rewrite Hdd. done.
  - apply Forall_inv in Hok as [Ht _]. unfold view_way in Hx. apply fmap_Some in Hx as (n & Hn%validated_ok & ->).
    cbn [wv_way] in Ht. rewrite Hn. cbn [mbind result_bind]. rewrite (packed_keys_ok w _ _ Ht). cbn [mbind result_bind].
    unfold took_all. cbn [mbind list_bind app fmap list_fmap el_coords element_kind el_id wv_way]. by rewrite app_nil_r.
  - apply Forall_inv in Hok as [Ht _]. unfold view_relation in Hx. apply fmap_Some in Hx as (n & Hn%validated_ok & ->).
    cbn [rv_rel] in Ht. rewrite Hn. cbn [mbind result_bind]. rewrite (packed_keys_ok w _ _ Ht). cbn [mbind result_bind].
    unfold took_all. cbn [mbind list_bind app fmap list_fmap el_coords element_kind el_id rv_rel]. by rewrite app_nil_r.
Qed.

Lemma each_ok b ds ms ess : Forall2 (message_says b ds) ms ess -> Forall (Forall element_ok) ess -> forall w seen,
  (bodies 2 ms = [] \/
   Z.testbit seen 2 = false /\ exists dd d, bodies 2 ms = [dd] /\ WireDenseNodes_parse dd = Ok d /\
     forall w, dense w d = Ok (took_all w (ElDenseNode <$> ds))) ->
  each on_message (w, seen) ms = Ok (took_all w (concat ess), seen_after seen ms).
Proof.
  induction 1 as [|m es ms ess Hm HF2 IH]; intros Hok w seen Hd; [done|]. apply Forall_cons in Hok as [Hes Hok].
  cbn [each]. rewrite bodies_cons in Hd. rewrite (on_message_ok b ds m es w seen Hm Hes).
  - cbn [mbind result_bind concat]. rewrite <- took_all_app. cbn [seen_after foldl]. apply IH; [done|].
    case_decide as Ht.
    + left. destruct Hd as [|(_ & dd & d & Heq & _)]; [done|]. by injection Heq.
    + destruct Hd as [|(Hs & Hd)]; [by left|right]. split; [|done]. rewrite seen_other; [done|done|].
      destruct Hm as [(-> & _)|[(-> & _)|[(-> & _)|(-> & _)]]]; lia.
  - intros Ht. rewrite decide_True in Hd by done. destruct Hd as [|(Hs & dd & d & Heq & Hp & Hdd)]; [done|].
    injection Heq as -> _. split; [done|]. by exists d.
Qed.

(** The messages decode, and to elements the decoder's accessors yield. *)
Lemma messages_decoded b ds ms : Forall element_field ms -> forall ns ws rs,
  mapM (view_node b) (bodies 1 ms) = Some ns -> mapM (view_way b) (bodies 3 ms) = Some ws ->
  mapM (view_relation b) (bodies 4 ms) = Some rs ->
  exists ess, Forall2 (message_says b ds) ms ess /\
    concat ess ≡ₚ (bodies 2 ms ≫= fun _ => ElDenseNode <$> ds) ++ (ElNode <$> ns) ++ (ElWay <$> ws) ++ (ElRelation <$> rs).
Proof.
  induction 1 as [|[t body] ms Hm HF IH]; intros ns ws rs Hn Hw Hr.
  { injection Hn as <-. injection Hw as <-. injection Hr as <-. by exists []. }
  rewrite !bodies_cons in *. unfold element_field in Hm. cbn [fst snd] in *.
  destruct Hm as [->|[->|[->| ->]]]; cbn [decide] in *; rewrite ?decide_True in * by done; rewrite ?decide_False in * by done.
  - apply mapM_Some in Hn. inversion Hn as [|? x ? ns' Hx Hn']; subst. apply mapM_Some in Hn'.
    destruct (IH ns' ws rs Hn' Hw Hr) as (ess & HF2 & HP). exists ([ElNode x] :: ess). split; [constructor; [left; eauto|done]|].
    cbn [concat app fmap list_fmap]. rewrite HP. by rewrite Permutation_middle.
  - destruct (IH ns ws rs Hn Hw Hr) as (ess & HF2 & HP). exists ((ElDenseNode <$> ds) :: ess).
    split; [constructor; [right; left; eauto|done]|].
    cbn [concat mbind list_bind]. by rewrite HP, <- app_assoc.
  - apply mapM_Some in Hw. inversion Hw as [|? x ? ws' Hx Hw']; subst. apply mapM_Some in Hw'.
    destruct (IH ns ws' rs Hn Hw' Hr) as (ess & HF2 & HP). exists ([ElWay x] :: ess). split; [constructor; [right; right; left; eauto|done]|].
    cbn [concat app fmap list_fmap]. rewrite HP, !app_assoc, <- Permutation_middle. by rewrite <- !app_assoc.
  - apply mapM_Some in Hr. inversion Hr as [|? x ? rs' Hx Hr']; subst. apply mapM_Some in Hr'.
    destruct (IH ns ws rs' Hn Hw Hr') as (ess & HF2 & HP). exists ([ElRelation x] :: ess). split; [constructor; [right; right; right; eauto|done]|].
    cbn [concat app fmap list_fmap]. rewrite HP, !app_assoc, <- Permutation_middle. by rewrite <- !app_assoc.
Qed.

Lemma uniform_bodies t ms : Forall (fun m => m.1 = t) ms -> bodies t ms = snd <$> ms.
Proof. induction 1 as [|m ms Hm _ IH]; [done|]. by rewrite bodies_cons, decide_True, IH by done. Qed.

(** When every message is of one field, wire order is decoding order. *)
Lemma uniform_views {X} (view : bytes -> option X) (inj : X -> Element) (ms : list (Z * bytes)) ess xs :
  Forall2 (fun m es => exists x, view m.2 = Some x /\ es = [inj x]) ms ess -> mapM view (snd <$> ms) = Some xs ->
  concat ess = inj <$> xs.
Proof.
  intros HF2. revert xs. induction HF2 as [|m es ms ess (x & Hx & ->) _ IH]; intros xs Hm; [by injection Hm as <-|].
  cbn [fmap list_fmap mapM] in Hm. rewrite Hx in Hm. cbn [mbind option_bind] in Hm.
  destruct (mapM view (snd <$> ms)) as [xs'|] eqn:E; [|done]. injection Hm as <-.
  cbn [concat fmap list_fmap app]. f_equal. by apply IH.
Qed.

Lemma only_field t ms : Forall element_field ms -> (forall u, u <> t -> bodies u ms = []) -> Forall (fun m => m.1 = t) ms.
Proof.
  intros HF Hu. apply Forall_forall. intros m Hm. destruct (decide (m.1 = t)); [done|]. exfalso.
  apply (proj1 (bodies_nonempty m.1 ms) (Hu m.1 ltac:(done))). by apply list_elem_of_fmap_2.
Qed.

Lemma says_of b ds t ms ess :
  Forall (fun m => m.1 = t) ms -> Forall2 (message_says b ds) ms ess ->
  (t = 1 -> Forall2 (fun m es => exists x, view_node b m.2 = Some x /\ es = [ElNode x]) ms ess) /\
  (t = 3 -> Forall2 (fun m es => exists x, view_way b m.2 = Some x /\ es = [ElWay x]) ms ess) /\
  (t = 4 -> Forall2 (fun m es => exists x, view_relation b m.2 = Some x /\ es = [ElRelation x]) ms ess).
Proof.
  intros HF HF2. split_and!; intros ->;
    induction HF2 as [|m es ms ess Hm _ IH]; try constructor; apply Forall_cons in HF as [Ht HF]; auto;
    destruct Hm as [(Hm & Hx)|[(Hm & Hx)|[(Hm & Hx)|(Hm & Hx)]]]; done || lia.
Qed.

(** The messages of an unmixed group, one field or none. *)
Lemma unmixed_elements b data ms d ds ns ws rs ess :
  wire_order data ms d -> mixed data = false -> (d = None -> ds = []) ->
  mapM (view_node b) (bodies 1 ms) = Some ns -> mapM (view_way b) (bodies 3 ms) = Some ws ->
  mapM (view_relation b) (bodies 4 ms) = Some rs -> Forall2 (message_says b ds) ms ess ->
  concat ess = (ElDenseNode <$> ds) ++ (ElNode <$> ns) ++ (ElWay <$> ws) ++ (ElRelation <$> rs).
Proof.
  intros Hwo Hmix Hds Hn Hw Hr HF2. destruct Hwo as [HF _ En Ew Er [Ed Eb]].
  unfold mixed, fields_used in Hmix. rewrite En, Ew, Er, Ed in Hmix. apply Nat.ltb_ge in Hmix.
  assert (forall t, t <> 1 -> t <> 2 -> t <> 3 -> t <> 4 -> bodies t ms = []) as Hout.
  { intros t ? ? ? ?. apply bodies_nonempty. intros (m & -> & Hm)%list_elem_of_fmap_1. rewrite Forall_forall in HF.
    destruct (HF m Hm) as [|[|[|]]]; congruence. }
  assert (forall t, (forall u, u <> t -> u = 1 \/ u = 2 \/ u = 3 \/ u = 4 -> bodies u ms = []) -> Forall (fun m => m.1 = t) ms) as Honly.
  { intros t Hu. apply only_field; [done|]. intros u Hne. destruct (decide (u = 1 \/ u = 2 \/ u = 3 \/ u = 4)); [by apply Hu|].
    apply Hout; tauto. }
  assert (forall X (view : bytes -> option X) t xs, bodies t ms = [] -> mapM view (bodies t ms) = Some xs -> xs = []) as Hnil.
  { intros X view t xs -> H. by injection H as <-. }
  destruct (decide (bodies 1 ms = [])) as [H1|H1]; [rewrite (Hnil _ _ _ _ H1 Hn); clear Hn|].
  all: destruct (decide (bodies 3 ms = [])) as [H3|H3]; [rewrite (Hnil _ _ _ _ H3 Hw); clear Hw|].
  all: destruct (decide (bodies 4 ms = [])) as [H4|H4]; [rewrite (Hnil _ _ _ _ H4 Hr); clear Hr|].
  all: destruct d as [d|]; cbn [option_list] in Eb; try lia; try rewrite (Hds eq_refl).
  all: cbn [fmap list_fmap app]; rewrite ?app_nil_r.
  - assert (Forall (fun m => m.1 = 2) ms) as Hall by (apply Honly; intros u ? [->|[->|[->| ->]]]; done).
    rewrite (uniform_bodies 2 ms Hall) in Eb. destruct ms as [|m [|m' ms]]; try done. apply Forall_inv in Hall.
    inversion HF2 as [|? es ? ess' Hm Hrest]; subst. inversion Hrest; subst. cbn [concat]. rewrite app_nil_r.
    destruct Hm as [(Hm & _)|[(_ & ->)|[(Hm & _)|(Hm & _)]]]; done || lia.
  - assert (Forall (fun m => m.1 = 1) ms) as Hall by (apply Honly; intros u ? [->|[->|[->| ->]]]; done).
    destruct ms as [|m ms]; [inversion HF2; subst; done|]. rewrite (uniform_bodies 1 _ Hall) in H1. done.
  - assert (Forall (fun m => m.1 = 4) ms) as Hall by (apply Honly; intros u ? [->|[->|[->| ->]]]; done).
    rewrite (uniform_bodies 4 _ Hall) in Hr. eapply uniform_views; [by apply (says_of b ds 4)|done].
  - assert (Forall (fun m => m.1 = 3) ms) as Hall by (apply Honly; intros u ? [->|[->|[->| ->]]]; done).
    rewrite (uniform_bodies 3 _ Hall) in Hw. eapply uniform_views; [by apply (says_of b ds 3)|done].
  - assert (Forall (fun m => m.1 = 1) ms) as Hall by (apply Honly; intros u ? [->|[->|[->| ->]]]; done).
    rewrite (uniform_bodies 1 _ Hall) in Hn. eapply uniform_views; [by apply (says_of b ds 1)|done].
Qed.

(** A node carries its block's granularity and offsets. *)
Definition el_framed (f : BlockFields) (e : Element) : Prop :=
  match e with
  | ElNode n => wb_fields (nv_block n) = f
  | ElDenseNode d => framed_in f d
  | _ => True
  end.

Lemma nodes_framed b l ns : mapM (view_node b) l = Some ns -> Forall (fun n => nv_block n = b) ns.
Proof.
  intros H. apply mapM_Some in H. induction H as [|d n l ns Hd _ IH]; [constructor|]. constructor; [|done].
  unfold view_node in Hd. by apply fmap_Some in Hd as (x & _ & ->).
Qed.

(** *** Ids are 64-bit *)

Lemma varint_of_range n c v c' : Forall is_byte c -> varint_of n c = Some (v, c') -> 0 <= v < 2 ^ (7 * Z.of_nat n + 1).
Proof.
  revert c v. induction n as [|n IH]; intros c v Hb; (destruct c as [|b c]; [done|]); apply Forall_cons in Hb as [Hb Hc]; cbn [varint_of].
  - destruct (Z.leb_spec b 1); [|done]. intros [= <- <-]. change (7 * Z.of_nat 0 + 1) with 1. unfold is_byte in Hb. lia.
  - replace (7 * Z.of_nat (S n) + 1) with (7 + (7 * Z.of_nat n + 1)) by lia. rewrite Z.pow_add_r by lia.
    assert (0 < 2 ^ (7 * Z.of_nat n + 1)) by (apply Z.pow_pos_nonneg; lia). change (2 ^ 7) with 128.
    destruct (Z.ltb_spec b 128).
    + intros [= <- <-]. unfold is_byte in Hb. nia.
    + destruct (varint_of n c) as [[v0 c0]|] eqn:E; [|done]. intros [= <- <-]. apply IH in E; [|done]. unfold is_byte in Hb. nia.
Qed.

Lemma read_varint_u64 c v c' : Forall is_byte c -> read_varint c = Ok (v, c') -> is_u64 v.
Proof.
  intros Hb Hr. destruct (varint_of 9 c) as [[v0 c0]|] eqn:E.
  - rewrite (read_varint_wire _ _ _ E) in Hr. injection Hr as -> ->. by apply varint_of_range in E.
  - destruct (read_varint_refused _ E) as [e He]. congruence.
Qed.

Lemma sint64_range c v c' : Forall is_byte c -> read_sint64 c = Ok (v, c') -> is_i64 v.
Proof.
  intros Hb. rewrite read_sint64_spec. destruct (read_varint c) as [[z c1]|] eqn:E; [|done]. intros [= <- <-].
  by eapply zigzag_decode_range, read_varint_u64.
Qed.

Lemma varint_i64_range c v c' : read_varint_i64 c = Ok (v, c') -> is_i64 v.
Proof.
  rewrite read_varint_i64_spec. destruct (read_varint c) as [[z c1]|] eqn:E; [|done]. intros [= <- <-]. by apply as_s_range.
Qed.

(** One arm of an element's parse, for its id. *)
Ltac id_arm H :=
  repeat match type of H with (if ?b then _ else _) = _ => destruct b end;
  lazymatch type of H with
  | skip_arm _ _ _ = _ => unfold skip_arm in H; apply bind_ok in H as (? & _ & H)
  | _ => apply bind_ok in H as ([? ?] & ? & H)
  end; simplify_eq; cbn [wn_id ww_id wr_id] in *; try done;
  match goal with Hr : lift _ = Ok _ |- _ => apply lift_ok in Hr; first [by eapply sint64_range|by eapply varint_i64_range] end.

Lemma WireNode_id data n : Forall is_byte data -> WireNode_parse data = Ok n -> is_i64 (wn_id n).
Proof.
  intros Hb. apply (parse_inv WireNode_step (fun n => is_i64 (wn_id n))); [apply WireNode_shrinks|done| |by split].
  intros [i la lo ks vs inf] f w c x' c' Hc HI H. unfold WireNode_step in H. cbv beta iota in H. id_arm H.
Qed.
Lemma WireWay_id data n : Forall is_byte data -> WireWay_parse data = Ok n -> is_i64 (ww_id n).
Proof.
  intros Hb. apply (parse_inv WireWay_step (fun n => is_i64 (ww_id n))); [apply WireWay_shrinks|done| |by split].
  intros [i ks vs rf la lo inf pn] f w c x' c' Hc HI H. unfold WireWay_step in H. cbv beta iota in H. id_arm H.
Qed.
Lemma WireRelation_id data n : Forall is_byte data -> WireRelation_parse data = Ok n -> is_i64 (wr_id n).
Proof.
  intros Hb. apply (parse_inv WireRelation_step (fun n => is_i64 (wr_id n))); [apply WireRelation_shrinks|done| |by split].
  intros [i ks vs ro me ty inf] f w c x' c' Hc HI H. unfold WireRelation_step in H. cbv beta iota in H. id_arm H.
Qed.

Lemma delta_sums_i64 c l : Forall is_i64 (delta_sums c l).
Proof. revert c. induction l as [|d l IH]; intros c; cbn [delta_sums]; constructor; [by apply as_s_range|apply IH]. Qed.

Lemma views_ids {X} (view : bytes -> option X) (id : X -> Z) l xs :
  (forall d x, Forall is_byte d -> view d = Some x -> is_i64 (id x)) -> Forall (Forall is_byte) l -> mapM view l = Some xs ->
  Forall (fun x => is_i64 (id x)) xs.
Proof.
  intros Hv Hb Hm. apply mapM_Some in Hm. induction Hm as [|d x l xs Hd _ IH]; [constructor|].
  apply Forall_cons in Hb as [H1 H2]. constructor; [by eapply Hv|by apply IH].
Qed.

Lemma kv_tail_keys c rs : kv_tail c rs -> Forall (fun k => 0 <= k) (rs ≫= fmap fst).
Proof.
  intros [[-> HF]|Hr]; [by induction HF as [|r rs <- _ IH]|].
  induction Hr as [|c kvs rest rs Hne Hrun _ IH]; [constructor|]. cbn [mbind list_bind]. apply Forall_app. split; [|done].
  clear IH Hne. induction Hrun; [apply Forall_nil_2..|]. constructor; [cbn; lia|done].
Qed.

Lemma tags_ok_keys keys vals : tags_ok keys vals -> Forall (fun k => 0 <= k) (fst <$> default [] (raw_tags keys vals)).
Proof.
  intros (ks & vs & _ & _ & Fk & _ & Hlen & ->). change (default [] (Some (zip ks vs))) with (zip ks vs).
  rewrite fst_zip by lia. eapply Forall_impl; [exact Fk|]. unfold is_u. cbn. lia.
Qed.

Lemma tagged_keys ns ws rs :
  Forall element_ok ((ElNode <$> ns) ++ (ElWay <$> ws) ++ (ElRelation <$> rs)) ->
  Forall (fun k => 0 <= k) (((ElNode <$> ns) ++ (ElWay <$> ws) ++ (ElRelation <$> rs)) ≫= el_keys).
Proof.
  intros HF. rewrite Forall_forall in HF. rewrite Forall_forall. intros k (e & Hk & He)%list_elem_of_bind. specialize (HF e He).
  apply elem_of_app in He as [(n & -> & _)%list_elem_of_fmap_1|[(n & -> & _)%list_elem_of_fmap_1|(n & -> & _)%list_elem_of_fmap_1]%elem_of_app];
    destruct HF as [Ht _]; apply tags_ok_keys in Ht; rewrite Forall_forall in Ht; by apply Ht.
Qed.

(** The decoder's elements of a group, and the scanner's. *)
Record group_seen (b : WireBlock) (skip : bool) (data : bytes) (es es' : list Element) : Prop := {
  gs_decoded : group_elements b skip data = Some es;
  gs_scanned : forall w, scan_group w data = Ok (if mixed data then mark_unsupported (took_all w es') else took_all w es');
  gs_order : mixed data = false -> es' = es;
  gs_perm : es' ≡ₚ es;
  gs_framed : Forall (el_framed (wb_fields b)) es;
  gs_ids : Forall (fun e => is_i64 (el_id e)) es;
  gs_ok : Forall element_ok es;
  gs_keys : Forall (fun k => 0 <= k) (es ≫= el_keys) }.

Lemma scan_group_ok {A} `{GroupProjection A} k c (p : A) k' c' p' data b skip :
  Forall is_byte data -> validate_group (k, c, p) data = Ok (k', c', p') -> exists es es', group_seen b skip data es es'.
Proof.
  intros Hb HV. destruct (validated_group _ _ _ _ _ _ _ b skip Hb HV) as (es & Hes & Hok & _).
  apply (validate_group_pieces _ _ _ _ _ _ _ b) in HV as (ns & ws & rs & Mn & Mw & Mr & _ & Hf & HD); [|done].
  assert (exists d ds, WireGroup_dense data = Ok d /\ (d = None -> ds = []) /\ Forall (framed_in (wb_fields b)) ds /\ Forall (fun n => is_i64 (dn_id n)) ds /\
    Forall (fun k => 0 <= k) ((ElDenseNode <$> ds) ≫= el_keys) /\
    es = (ElDenseNode <$> ds) ++ (ElNode <$> ns) ++ (ElWay <$> ws) ++ (ElRelation <$> rs) /\
    forall dd, d = Some dd -> exists w, WireDenseNodes_parse dd = Ok w /\ forall wk, dense wk w = Ok (took_all wk (ElDenseNode <$> ds)))
    as (d & ds & Hd & Hnil & Hfr & Hids & Hks & -> & Hdense).
  { unfold group_elements in Hes. rewrite Mn, Mw, Mr in Hes. destruct HD as [[Hnone _]|(dd & w & n & Hdd & Hw & Hv & _)].
    - exists None, []. unfold open_dense in Hes. rewrite Hnone in Hes. cbn [mbind option_bind] in Hes.
      change (dense_nodes (dense_empty b)) with (Some (@nil DenseNode)) in Hes. cbn [mbind option_bind] in Hes. injection Hes as <-.
      split_and!; try done. unfold validated_dense in Hnone. destruct (WireGroup_dense data) as [[dd|]|]; [|done..].
      by destruct (WireDenseNodes_parse dd).
    - destruct (open_dense_valid b skip data dd w n Hdd Hw Hv) as (it & ds & runs & Hit & Hds & Hlen & Hid & Hkv & Hraw & Hlat & Hlon & Hfr).
      rewrite Hit in Hes. cbn [mbind option_bind] in Hes. rewrite Hds in Hes. cbn [mbind option_bind] in Hes. injection Hes as <-.
      exists (Some dd), ds. split_and!; try done.
      { apply (Forall_fmap dn_id is_i64). rewrite Hid. apply delta_sums_i64. }
      { rewrite (bind_keys _ _ Hraw). by eapply kv_tail_keys. }
      intros ? [= <-]. exists w. split; [done|]. intros wk. by eapply dense_ok. }
  assert (Forall (fun n => is_i64 (wn_id (nv_node n))) ns /\ Forall (fun w => is_i64 (ww_id (wv_way w))) ws /\
    Forall (fun r => is_i64 (wr_id (rv_rel r))) rs) as (Hin & Hiw & Hir).
  { split_and!; (eapply views_ids; [|by apply messages_bytes|done]); intros dt x Hdt (y & Hy%validated_ok & ->)%fmap_Some.
    - by eapply WireNode_id. - by eapply WireWay_id. - by eapply WireRelation_id. }
  destruct (group_wire_order data d Hf Hd) as [ms Hwo]. pose proof Hwo as [HF Hscan En Ew Er [_ Eb]].
  unfold group_nodes, group_ways, group_relations in Mn, Mw, Mr. rewrite En in Mn. rewrite Ew in Mw. rewrite Er in Mr.
  destruct (messages_decoded b ds ms HF ns ws rs Mn Mw Mr) as (ess & HF2 & Hsay).
  assert (concat ess ≡ₚ (ElDenseNode <$> ds) ++ (ElNode <$> ns) ++ (ElWay <$> ws) ++ (ElRelation <$> rs)) as HP.
  { rewrite Hsay, Eb. destruct d as [dd|]; cbn [option_list]; [cbn; by rewrite app_nil_r|]. by rewrite (Hnil eq_refl). }
  exists ((ElDenseNode <$> ds) ++ (ElNode <$> ns) ++ (ElWay <$> ws) ++ (ElRelation <$> rs)), (concat ess). split; [done| | |done| | |done|].
  - intros w. unfold scan_group. rewrite Hscan, (each_ok b ds ms ess HF2).
    + cbn [mbind result_bind]. by rewrite (mixed_seen data ms d Hwo).
    + apply Forall_forall. intros es' Hes'. apply Forall_forall. intros e He. rewrite Forall_forall in Hok. apply Hok. rewrite <- HP.
      rewrite list_elem_of_In. apply in_concat. exists es'. by rewrite <- !list_elem_of_In.
    + destruct d as [dd|]; [right|by left]. split; [apply Z.testbit_0_l|].
      destruct (Hdense dd eq_refl) as (wd & Hwd & Hall). by exists dd, wd.
  - intros Hmix. by eapply unmixed_elements.
  - rewrite !Forall_app, !Forall_fmap. split_and!; [done| |by apply Forall_true..].
    eapply Forall_impl; [by eapply nodes_framed|]. by intros n <-.
  - by rewrite !Forall_app, !Forall_fmap.
  - rewrite bind_app, Forall_app. split; [done|]. apply Forall_app in Hok as [_ Hok]. by eapply tagged_keys.
Qed.

(** ** The whole block *)

(** The scanner's block-level walk sees the decoder's fields ... *)
Lemma block_fields_scalars buffer s :
  parse (scan_block_step (blen buffer)) scan_init buffer = Ok s ->
  exists tg, block_fields buffer = Ok ((granularity (sc_fields s), lat_offset (sc_fields s), lon_offset (sc_fields s)), tg).
Proof.
  intros Hs.
  destruct (parse_sim (scan_block_step (blen buffer)) block_fields_step
    (fun x y => y.1 = (granularity (sc_fields x), lat_offset (sc_fields x), lon_offset (sc_fields x))) buffer
    scan_init ((100, 0, 0), ([], [])) s (scan_block_shrinks _)) as ([fr tg] & Hbf & Hfr); [|done|done|].
  - intros [[g la lo dg] so sl gs] [[[g' la'] lo'] [tb gs']] fd wt c x' c' _ Heq Hstep. cbn in Heq. injection Heq as -> -> ->.
    unfold scan_block_step in Hstep. unfold block_fields_step.
    repeat match type of Hstep with
           | (if ?b then _ else _) = _ => destruct b eqn:?
           end.
    all: try match goal with
         | H : arm_varint _ _ _ = true |- _ => apply arm_varint_spec in H as [-> ->]; cbn [arm_varint Z.eqb Pos.eqb andb]
         end.
    all: try (apply bind_ok in Hstep as ([v c2] & Hr & Heq); rewrite Hr; injection Heq as <- <-; eexists; by split).
    unfold skip_arm in *. apply bind_ok in Hstep as (c2 & Hr & Heq); rewrite Hr; injection Heq as <- <-; eexists; by split.
  - cbn in Hfr. subst fr. by exists tg.
Qed.

Lemma block_fields_shrinks : shrinks block_fields_step.
Proof.
  intros [[[g la] lo] [tb gs]] f w c st' c' H. unfold block_fields_step in H.
  repeat match type of H with context [if ?b then _ else _] => destruct b end.
  all: try by eapply skip_arm_shrinks.
  all: apply bind_ok in H as ([? ?] & H & ?); simplify_eq.
  all: first [apply lift_ok in H|apply read_int32_ok in H].
  all: first [by apply read_varint_i64_moves in H|by apply read_len_delimited_moves in H].
Qed.

(** ... and its string table and groups. *)
Lemma block_fields_sections buffer s t :
  block_fields buffer = Ok (s, t) -> parse sections_step ([], []) buffer = Ok t.
Proof.
  intros Hbf. destruct (parse_sim block_fields_step sections_step (fun x y => x.2 = y) buffer
    ((100, 0, 0), ([], [])) ([], []) (s, t) block_fields_shrinks) as (y & Hy & Heq); [|done|done|by cbn in Heq; subst y].
  intros [[[g la] lo] [tb gs]] y f w c x' c' _ <- H. unfold block_fields_step in H. unfold sections_step. cbn [snd fst].
  destruct (arm_len 1 f w); [|destruct (arm_len 2 f w)].
  1-2: apply bind_ok in H as ([b c1] & Hr & H); rewrite Hr; simplify_eq; eexists; by split.
  repeat match type of H with
  | (if ?b then _ else _) = _ => destruct b eqn:?
  end.
  all: try match goal with
    | Hv : arm_varint _ _ _ = true |- _ =>
        apply arm_varint_spec in Hv as [-> ->];
        apply bind_ok in H as ([v c1] & Hr & H); simplify_eq;
        first [apply lift_ok in Hr|apply read_int32_ok in Hr];
        rewrite (skip_read_varint _ _ _ _ Hr); eexists; by split
    end.
  unfold skip_arm in *. apply bind_ok in H as (c1 & Hr & H). rewrite Hr. simplify_eq. eexists. by split.
Qed.

Lemma block_fields_ok buffer f strings groups :
  laid_out buffer f strings groups -> exists table,
    block_fields buffer = Ok ((granularity f, lat_offset f, lon_offset f), (table, groups)) /\
    parse strings_loop [] table = Ok strings.
Proof.
  intros (table & st & gr & Hsec & Hstr & Hscan). exists table. split; [|exact Hstr].
  unfold scan_block_fields in Hscan. apply bind_ok in Hscan as (s & Hs & Hscan). apply bind_ok in Hscan as (sd & _ & Hscan).
  apply bind_ok in Hscan as (st' & _ & Hscan). injection Hscan as <- _ _.
  destruct (block_fields_scalars buffer s Hs) as [tg Htg]. rewrite Htg. pose proof (block_fields_sections _ _ _ Htg) as Hy. congruence.
Qed.

End Spec.
