(* ===== verification/ScanBlock.v ===== *)
(** * The scan of a whole block

    On every block the decoder accepts, the scan either names a tag key
    outside the string table or returns an index and a tag index that
    describe the decoded elements: [scan_describes_block]. *)

From S2P Require Import Prelude Proto Wire WireBlock Encode Dense PackedCount Utf8 Block BlockWalk BlockValid.
From S2P Require Import ElementKind OsmId BlobMeta TagIndex StringTable BlockBuilder BuilderSpec BlobScan ScanSpec.

(** ** The box *)

Lemma floor_div_le a : 100 * floor_div a 100 <= a.
Proof.
  unfold floor_div. pose proof (Z.quot_rem' a 100) as H. pose proof (Z.rem_bound_abs a 100 ltac:(lia)) as Hb.
  destruct (Z.eqb_spec (Z.rem a 100) 0) as [Hr|Hr]; cbn [negb andb]; [lia|].
  destruct (Z.ltb_spec (Z.lxor (Z.rem a 100) 100) 0) as [Hx|Hx]; [lia|]. apply Z.lxor_nonneg in Hx. lia.
Qed.

Lemma ceil_div_ge a : a <= 100 * ceil_div a 100.
Proof.
  unfold ceil_div. pose proof (Z.quot_rem' a 100) as H. pose proof (Z.rem_bound_abs a 100 ltac:(lia)) as Hb.
  destruct (Z.eqb_spec (Z.rem a 100) 0) as [Hr|Hr]; cbn [negb andb]; [lia|].
  destruct (Z.leb_spec 0 (Z.lxor (Z.rem a 100) 100)) as [Hx|Hx]; [lia|].
  destruct (Z.le_gt_cases 0 (Z.rem a 100)); [|lia]. exfalso. apply (Z.lt_irrefl 0), Z.le_lt_trans with (Z.lxor (Z.rem a 100) 100); [|done].
  apply Z.lxor_nonneg. lia.
Qed.

Lemma try_i32_some z x : try_i32 z = Some x -> x = z /\ is_i32 z.
Proof.
  unfold try_i32. destruct (Z.leb_spec i32_min z), (Z.leb_spec z i32_max); try done. intros [= <-]. split; [done|width].
Qed.

Lemma wrapped_affine off g v : is_i64 (off + g * v) -> wadd 64 off (wmul 64 g v) = off + g * v.
Proof.
  intros H. transitivity (as_s 64 (off + g * v)); [|apply as_s_id; done || lia]. unfold wadd, wmul, as_s. f_equal.
  replace (off + ((g * v + 2 ^ (64 - 1)) mod 2 ^ 64 - 2 ^ (64 - 1)) + 2 ^ (64 - 1))
    with (off + (g * v + 2 ^ (64 - 1)) mod 2 ^ 64) by lia.
  rewrite Zplus_mod_idemp_r. f_equal. lia.
Qed.

(** The stored range holds every coordinate between the raw ones. *)
Lemma transform_range_holds lo hi off g x y v :
  transform_range lo hi off g = Some (x, y) -> lo <= v <= hi -> x <= decimicro (wadd 64 off (wmul 64 g v)) <= y.
Proof.
  intros Ht Hv. unfold transform_range in Ht.
  destruct (if _ <=? _ then _ else _) as [mn mx] eqn:E. 
  apply bind_Some in Ht as (x0 & (-> & Hx)%try_i32_some & Ht). apply bind_Some in Ht as (y0 & (-> & Hy)%try_i32_some & [= <- <-]).
  pose proof (floor_div_le mn) as Hf. pose proof (ceil_div_ge mx) as Hc.
  assert (mn <= off + g * v <= mx) as He.
  { destruct (Z.leb_spec (off + g * lo) (off + g * hi)); injection E as <- <-; destruct (Z.le_gt_cases 0 g); nia. }
  set (e := off + g * v) in *. unfold is_s in Hx, Hy. change (2 ^ (32 - 1)) with 2147483648 in *.
  rewrite wrapped_affine by (fold e; unfold is_s; change (2 ^ (64 - 1)) with 9223372036854775808; lia). fold e.
  assert (floor_div mn 100 <= Z.quot e 100 <= ceil_div mx 100) as Hq.
  { pose proof (Z.quot_rem' e 100) as Hqr. pose proof (Z.rem_bound_abs e 100 ltac:(lia)). 
    pose proof (Z.rem_sign_mul e 100 ltac:(lia)). lia. }
  unfold decimicro. rewrite as_s_id; [done|lia|]. unfold is_s. change (2 ^ (32 - 1)) with 2147483648. lia.
Qed.

(** ** All groups *)

Section Whole.
Context `{L : ProtohoggrLaws}.

Definition marked (m : bool) (w : Walk) : Walk := if m then mark_unsupported w else w.

Lemma marked_took m w es : took_all (marked m w) es = marked m (took_all w es).
Proof. destruct m; [apply took_all_mark|done]. Qed.

Lemma marked_marked m n w : marked m (marked n w) = marked (n || m) w.
Proof. destruct m, n; try done. by destruct w. Qed.

(** [group_seen], for the groups of a block. *)
Record groups_seen (b : WireBlock) (skip : bool) (gs : list bytes) (els : list (list Element)) (es' : list Element) : Prop := {
  as_decoded : mapM (group_elements b skip) gs = Some els;
  as_scanned : forall w, scan_groups w gs = Ok (marked (existsb mixed gs) (took_all w es'));
  as_order : existsb mixed gs = false -> es' = concat els;
  as_perm : es' ≡ₚ concat els;
  as_framed : Forall (el_framed (wb_fields b)) (concat els);
  as_ids : Forall (fun e => is_i64 (el_id e)) (concat els);
  as_keys : Forall (fun k => 0 <= k) (concat els ≫= el_keys) }.

Lemma scan_groups_ok {A} `{GroupProjection A} b skip gs k c (p : A) r :
  Forall (Forall is_byte) gs -> walk validate_group (k, c, p) gs = Ok r -> exists els es', groups_seen b skip gs els es'.
Proof.
  intros Hgs. revert k c p. induction Hgs as [|g gs Hg _ IH]; intros k c p Hw.
  { exists [], []. split; try done; constructor. }
  cbn [walk] in Hw. apply bbind_ok in Hw as ([[k1 c1] p1] & H1 & H2).
  destruct (scan_group_ok _ _ _ _ _ _ _ b skip Hg H1) as (es & es' & [G1 G2 G3 G4 G5 G6 G7 G8]).
  destruct (IH _ _ _ H2) as (els & ess' & [A1 A2 A3 A4 A5 A6 A7]). exists (es :: els), (es' ++ ess').
  split; cbn [concat].
  - cbn [mapM]. by rewrite G1, A1.
  - intros w. cbn [scan_groups existsb]. rewrite G2. cbn [mbind result_bind]. fold (marked (mixed g) (took_all w es')).
    by rewrite A2, marked_took, marked_marked, took_all_app.
  - cbn [existsb]. intros [Hm Hms]%orb_false_iff. by rewrite G3, A3.
  - by rewrite G4, A4.
  - by apply Forall_app.
  - by apply Forall_app.
  - rewrite bind_app. by apply Forall_app.
Qed.

(** What a finished walk holds, for the elements it has seen. *)
Record finished (w : Walk) (ck : bool) (f : BlockFields) (strings gs : list bytes) (es' : list Element) : Prop := {
  fi_frame : w_granularity w = granularity f /\ w_lat_offset w = lat_offset f /\ w_lon_offset w = lon_offset f;
  fi_strings : w_strings w = strings;
  fi_groups : w_groups w = length gs;
  fi_unsupported : w_unsupported w = existsb mixed gs;
  fi_counted : counted w ((fun e => (element_kind e, el_id e)) <$> es');
  fi_extent : w_extent w = coords_extent (es' ≫= el_coords);
  fi_seen : ck = true -> length (w_key_seen w) = length strings /\
    forall i, (i < length strings)%nat -> w_key_seen w !! i = Some (bool_decide (Z.of_nat i ∈ es' ≫= el_keys));
  fi_max : match w_max_key_sid w with
           | Some m => m ∈ es' ≫= el_keys /\ Forall (fun k => k <= m) (es' ≫= el_keys)
           | None => es' ≫= el_keys = []
           end }.

Lemma marked_finished w m ck f strings gs es' :
  w_unsupported w = false -> m = existsb mixed gs ->
  (forall us, us = existsb mixed gs -> let 'mkWalk ck' st g la lo n kd df _ c mi ma pr so ex ks mk := w in
     finished (mkWalk ck' st g la lo n kd df us c mi ma pr so ex ks mk) ck f strings gs es') ->
  finished (marked m w) ck f strings gs es'.
Proof. destruct w, m; cbn; intros -> ? HF; by apply HF. Qed.

Lemma walk_finished ck f strings gs es' :
  Forall (fun k => 0 <= k) (es' ≫= el_keys) ->
  finished (marked (existsb mixed gs) (took_all (walk_over ck (granularity f) (lat_offset f) (lon_offset f) strings (length gs)) es'))
    ck f strings gs es'.
Proof.
  intros Hks. set (w0 := walk_over ck _ _ _ _ _).
  pose proof (took_frame w0 (es' ≫= el_keys) (es' ≫= el_coords) ((fun e => (element_kind e, el_id e)) <$> es')) as Hf.
  pose proof (took_counted w0 (es' ≫= el_keys) (es' ≫= el_coords) ((fun e => (element_kind e, el_id e)) <$> es')) as Hc.
  pose proof (took_extent w0 (es' ≫= el_keys) (es' ≫= el_coords) ((fun e => (element_kind e, el_id e)) <$> es') eq_refl) as He.
  pose proof (took_keys w0 (es' ≫= el_keys) (es' ≫= el_coords) ((fun e => (element_kind e, el_id e)) <$> es') Hks eq_refl) as (Hseen & Hlen & Hmax).
  fold (took_all w0 es') in Hf, Hc, He, Hseen, Hlen, Hmax. destruct Hf as (F1 & F2 & F3 & F4 & F5 & F6 & F7).
  apply marked_finished; [exact F7|done|]. intros us ->.
  assert (counted w0 []) as H0.
  { split; try done. unfold in_order. split; [constructor|done]. }
  specialize (Hc H0). destruct (took_all w0 es') as [ck' st g la lo n kd df us' c mi ma pr so ex ks mk].
  cbn in F1, F2, F3, F4, F5, F6, Hlen. subst ck' st g la lo n. destruct Hc as [C1 C2 C3 C4 C5 C6 C7].
  split; try done.
  intros ->. cbn [w_key_seen] in *. rewrite length_replicate in Hlen. split; [done|]. intros i Hi.
  rewrite Hseen by (done || by cbn; rewrite length_replicate). f_equal.
  subst w0. cbn. rewrite lookup_replicate_2 by done. cbn. by rewrite orb_false_r.
Qed.

(** The walk, and its check of the largest key index. *)
Lemma run_ok buffer ck f strings gs es' :
  laid_out buffer f strings gs -> (forall w, scan_groups w gs = Ok (marked (existsb mixed gs) (took_all w es'))) ->
  Forall (fun k => 0 <= k) (es' ≫= el_keys) ->
  exists w, finished w ck f strings gs es' /\
    if decide (Forall (fun k => k < Z.of_nat (length strings)) (es' ≫= el_keys)) then run buffer ck = Ok w
    else exists i, greatest i (es' ≫= el_keys) /\ Z.of_nat (length strings) <= i /\ run buffer ck = Err (KeyOutOfBounds i).
Proof.
  intros Hlay Hscan Hks. destruct (block_fields_ok _ _ _ _ Hlay) as (table & Hbf & Hst).
  pose proof (walk_finished ck f strings gs es' Hks) as HF. eexists. split; [exact HF|].
  unfold run. rewrite Hbf. cbn [scanned mbind result_bind]. rewrite Hst. cbn [scanned mbind result_bind].
  rewrite Hscan. cbn [scanned mbind result_bind].
  destruct HF as [_ Hs _ _ _ _ _ Hmax]. rewrite Hs. destruct (w_max_key_sid _) as [m|].
  - pose proof Hmax as [Hin Hle]. rewrite Forall_forall in Hle. case_decide as Hall.
    + rewrite Forall_forall in Hall. by rewrite (proj2 (Z.leb_gt _ _)) by by apply Hall.
    + assert (Z.of_nat (length strings) <= m) as Hm.
      { apply Z.le_ngt. intros Hlt. apply Hall, Forall_forall. intros k Hk. specialize (Hle k Hk). lia. }
      exists m. by rewrite (proj2 (Z.leb_le _ _)).
  - rewrite decide_True; [done|]. by rewrite Hmax.
Qed.

(** ** What the answers say *)

Definition el_nano (e : Element) : option (Z * Z) :=
  match e with
  | ElNode n => Some (node_nano_lat n, node_nano_lon n)
  | ElDenseNode d => Some (nano_lat d, nano_lon d)
  | _ => None
  end.

(** A node lies in the box, at the stored precision. *)
Definition within (bb : BlobBbox) (e : Element) : Prop :=
  match el_nano e with
  | Some (lat, lon) => min_lat bb <= decimicro lat <= max_lat bb /\ min_lon bb <= decimicro lon <= max_lon bb
  | None => True
  end.

(** The index a header would carry, against the elements in file order. *)
Record describes (es : list Element) (ix : BlobIndex) (sorted : bool) : Prop := {
  de_kind : Forall (fun e => element_kind e = kind ix) es;
  de_count : count ix = Z.of_nat (length es);
  de_min : least (min_id ix) (el_id <$> es);
  de_max : greatest (max_id ix) (el_id <$> es);
  de_sorted : sorted = true <-> in_order (el_id <$> es);
  de_bbox : forall bb, bbox ix = Some bb -> kind ix = Node /\ Forall (within bb) es }.

Lemma extent_bounds cs e la lo : coords_extent cs = Some e -> (la, lo) ∈ cs ->
  ex_min_lat e <= la <= ex_max_lat e /\ ex_min_lon e <= lo <= ex_max_lon e.
Proof.
  destruct cs as [|c cs]; [done|]. unfold coords_extent. intros [= <-] Hin. cbn [ex_min_lat ex_max_lat ex_min_lon ex_max_lon].
  pose proof (list_elem_of_fmap_2 fst _ _ Hin) as H1. pose proof (list_elem_of_fmap_2 snd _ _ Hin) as H2. cbn [fst snd] in H1, H2.
  pose proof (proj1 (mins_least c.1 (fst <$> c :: cs)) _ H1). pose proof (proj1 (maxs_greatest c.1 (fst <$> c :: cs)) _ H1).
  pose proof (proj1 (mins_least c.2 (snd <$> c :: cs)) _ H2). pose proof (proj1 (maxs_greatest c.2 (snd <$> c :: cs)) _ H2). done.
Qed.

Lemma bbox_within w ck f strings gs es k bb :
  finished w ck f strings gs es -> Forall (el_framed f) es -> scan_bbox w k = Some bb -> k = Node /\ Forall (within bb) es.
Proof.
  intros HF Hfr Hbb. unfold scan_bbox in Hbb. case_decide as Hk; [|done]. split; [done|].
  destruct (w_extent w) as [e|] eqn:He; [|done]. cbn [mbind option_bind] in Hbb.
  destruct HF as [(Eg & Ela & Elo) _ _ _ _ Hex _ _]. rewrite Hex in He. rewrite Eg, Ela, Elo in Hbb.
  apply bind_Some in Hbb as ([a b] & Hlat & Hbb). apply bind_Some in Hbb as ([c d] & Hlon & [= <-]).
  rewrite Forall_forall in Hfr. apply Forall_forall. intros x Hx. specialize (Hfr x Hx). unfold within.
  destruct x as [n|n|n|n]; cbn [el_nano]; try done; cbn [min_lat max_lat min_lon max_lon].
  - destruct (extent_bounds _ _ (wn_lat (nv_node n)) (wn_lon (nv_node n)) He) as [Hla Hlo].
    { apply list_elem_of_bind. exists (ElNode n). split; [left|done]. }
    cbn in Hfr. unfold node_nano_lat, node_nano_lon. rewrite Hfr.
    split; [exact (transform_range_holds _ _ _ _ _ _ _ Hlat Hla)|exact (transform_range_holds _ _ _ _ _ _ _ Hlon Hlo)].
  - destruct (extent_bounds _ _ (dn_lat n) (dn_lon n) He) as [Hla Hlo].
    { apply list_elem_of_bind. exists (ElDenseNode n). split; [left|done]. }
    cbn in Hfr. destruct Hfr as (Hg & Ho & Ho'). unfold nano_lat, nano_lon. rewrite Hg, Ho, Ho'.
    split; [exact (transform_range_holds _ _ _ _ _ _ _ Hlat Hla)|exact (transform_range_holds _ _ _ _ _ _ _ Hlon Hlo)].
Qed.

Lemma scan_index_ok w ck f strings gs es :
  finished w ck f strings gs es -> Forall (el_framed f) es -> Forall (fun e => is_i64 (el_id e)) es ->
  match scan_index w with
  | Some (ix, sorted) => existsb mixed gs = false /\ describes es ix sorted
  | None => existsb mixed gs = true \/ es = [] \/ exists a b, a ∈ es /\ b ∈ es /\ element_kind a <> element_kind b
  end.
Proof.
  intros HF Hfr Hids. pose proof HF as [_ _ _ Hu [C1 C2 C3 C4 C5 _ C7] _ _ _]. unfold scan_index. rewrite Hu.
  rewrite <- !list_fmap_compose in *. unfold compose in *. cbn [fst snd] in *.
  change ((fun x => el_id x) <$> es) with (el_id <$> es) in *.
  destruct (existsb mixed gs); cbn [orb]; [by left|]. destruct es as [|e es]; [rewrite C1, C2; cbn; right; by left|].
  cbn [fmap list_fmap head] in C1, C2. rewrite C1, C2. cbn [mbind option_bind].
  destruct (bool_decide_reflect (Forall (fun k => Some k = Some (element_kind e)) (element_kind e :: ((fun x => element_kind x) <$> es)))) as [Hall|Hall]; cbn [negb].
  - split; [done|]. assert (Forall (fun i => is_i64 i) (el_id <$> e :: es)) as Hi by by apply Forall_fmap.
    split; cbn [kind count min_id max_id bbox].
    + apply Forall_cons. split; [done|]. apply Forall_cons in Hall as [_ Hall]. apply Forall_fmap in Hall.
      eapply Forall_impl; [exact Hall|]. by intros x [= ->].
    + rewrite C3. by rewrite length_fmap.
    + rewrite C4. apply mins_exact; [done|]. eapply Forall_impl; [exact Hi|]. cbn. width.
    + rewrite C5. apply maxs_exact; [done|]. eapply Forall_impl; [exact Hi|]. cbn. width.
    + exact C7.
    + intros bb Hbb. by eapply bbox_within.
  - right. right. apply Forall_Exists_neg in Hall || apply not_Forall_Exists in Hall; [|apply _]. apply Exists_exists in Hall as (k & Hk & Hne).
    change (element_kind e :: ((fun x => element_kind x) <$> es)) with (element_kind <$> e :: es) in Hk.
    apply list_elem_of_fmap_1 in Hk as (x & -> & Hx). exists e, x. split_and!; [left|done|congruence].
Qed.

Lemma key_strings_ok (flags : list bool) (strings : list bytes) s :
  length flags = length strings ->
  (s ∈ omap (fun '(seen, s) => if seen : bool then Some s else None) (zip flags strings) <->
   exists i, flags !! i = Some true /\ strings !! i = Some s).
Proof.
  intros Hlen. rewrite list_elem_of_omap. split.
  - intros ([b x] & Hin & Hs). destruct b; [|done]. injection Hs as ->. apply list_elem_of_lookup_1 in Hin as [i Hi].
    apply lookup_zip_with_Some in Hi as (? & ? & [= -> ->] & ? & ?). by exists i.
  - intros (i & Hf & Hs). exists (true, s). split; [|done]. apply (list_elem_of_lookup_2 _ i). by rewrite lookup_zip_with, Hf, Hs.
Qed.

Lemma scan_tags_ok w f strings gs es :
  finished w true f strings gs es ->
  match scan_tags w with
  | Some t => existsb mixed gs = false /\ ascending (keys t) /\
      forall s, s ∈ keys t <-> exists i, Z.of_nat i ∈ es ≫= el_keys /\ strings !! i = Some s
  | None => existsb mixed gs = true \/ gs = []
  end.
Proof.
  intros [_ Hs Hg Hu _ _ Hseen _]. unfold scan_tags. rewrite Hg, Hu, Hs. destruct (Hseen eq_refl) as [Hlen Hk].
  destruct gs as [|g gs]; [by right|]. cbn [length Nat.eqb orb]. destruct (existsb mixed (g :: gs)); [by left|].
  split; [done|]. match goal with |- context [from_keys ?l] => destruct (from_keys_spec l) as [Hasc Hin] end.
  split; [done|]. intros s. rewrite Hin, key_strings_ok by done. split; intros (i & Hi & Hsi); exists i; (split; [|done]).
  - rewrite Hk in Hi by by apply lookup_lt_Some in Hsi. injection Hi as Hi. by apply bool_decide_eq_true in Hi.
  - rewrite Hk by by apply lookup_lt_Some in Hsi. by rewrite bool_decide_eq_true_2.
Qed.

(** Two walks that differ only in collecting keys. *)
Lemma run_agrees buffer f strings gs es' :
  laid_out buffer f strings gs -> (forall w, scan_groups w gs = Ok (marked (existsb mixed gs) (took_all w es'))) ->
  Forall (fun k => 0 <= k) (es' ≫= el_keys) ->
  try_scan_block_ids_checked buffer = (match try_scan_block_ids_and_tags buffer with Ok r => Ok r.1 | Err e => Err e end).
Proof.
  intros Hlay Hscan Hks. unfold try_scan_block_ids_checked, try_scan_block_ids_and_tags.
  destruct (run_ok _ false _ _ _ _ Hlay Hscan Hks) as (w & Hw & Hr), (run_ok _ true _ _ _ _ Hlay Hscan Hks) as (w' & Hw' & Hr').
  case_decide as Hall.
  - rewrite Hr, Hr'. cbn [mbind result_bind fst]. f_equal.
    destruct Hw as [(E1 & E2 & E3) _ _ U [C1 C2 C3 C4 C5 _ C7] X _ _], Hw' as [(E1' & E2' & E3') _ _ U' [C1' C2' C3' C4' C5' _ C7'] X' _ _].
    unfold scan_index, scan_bbox. rewrite U, U', C1, C1', C2, C2', C3, C3', C4, C4', C5, C5', X, X', E1, E2, E3, E1', E2', E3'.
    assert (w_sorted w = w_sorted w') as ->; [|done]. destruct (w_sorted w), (w_sorted w'); naive_solver.
  - destruct Hr as (i & [Hi Hle] & _ & ->), Hr' as (i' & [Hi' Hle'] & _ & ->). cbn [mbind result_bind]. do 2 f_equal.
    rewrite Forall_forall in Hle. rewrite Forall_forall in Hle'. specialize (Hle i' Hi'). specialize (Hle' i Hi). lia.
Qed.

Definition mixed_group (b : WireBlock) : Prop :=
  exists i g, Z.of_nat i < group_count b /\ group b i = Some g /\ mixed g = true.

Lemma mixed_groups b gs :
  group_count b = Z.of_nat (length gs) -> (forall i g, gs !! i = Some g -> group b i = Some g) ->
  (existsb mixed gs = true <-> mixed_group b).
Proof.
  intros Hn Hg. rewrite existsb_exists. split.
  - intros (g & Hin & Hm). apply list_elem_of_In, list_elem_of_lookup_1 in Hin as [i Hi]. exists i, g.
    split_and!; [|by apply Hg|done]. rewrite Hn. apply lookup_lt_Some in Hi. lia.
  - intros (i & g & Hi & Hgi & Hm). rewrite Hn in Hi. destruct (lookup_lt_is_Some_2 gs i ltac:(lia)) as [g' Hg'].
    pose proof (Hg _ _ Hg') as H. exists g'. split; [by eapply list_elem_of_In, list_elem_of_lookup_2|congruence].
Qed.

(** C9. The scanner and the decoder agree on every block the decoder accepts.
    The scan fails only by naming a tag key of a decoded element that lies
    outside the string table.  Otherwise every key index is inside the table,
    and: an index, when one is given, states the one kind of all elements,
    their number, their exact least and greatest id, whether they stand in
    canonical order, and a box that holds every node's coordinates; none is
    given only for an empty block, a block of several kinds or one with a
    mixed group; the tag index lists, sorted, exactly the strings that are
    keys of some element; and the id-only scan gives the same index. *)
Theorem scan_describes_block (buffer : bytes) (claim : option ElementKind) (pb : PrimitiveBlock) (skip : bool) :
  Forall is_byte buffer -> block_of buffer claim = Ok pb -> blen (wb_buffer (pb_block pb)) < 2 ^ 32 ->
  exists es need strings,
    (forall fuel, (need <= fuel)%nat -> elements_drain fuel (elements_new (pb_block pb) skip) = Some es) /\
    (forall i, table_get (stringtable (pb_block pb)) i = Some (strings !! i)) /\
    match try_scan_block_ids_and_tags buffer with
    | Err e => try_scan_block_ids_checked buffer = Err e /\ exists i el,
        e = KeyOutOfBounds i /\ el ∈ es /\ i ∈ el_keys el /\ Z.of_nat (length strings) <= i
    | Ok (index, tags) => try_scan_block_ids_checked buffer = Ok index /\
        Forall (fun el => Forall (fun i => 0 <= i < Z.of_nat (length strings)) (el_keys el)) es /\
        match index with
        | Some (ix, sorted) => ~ mixed_group (pb_block pb) /\ describes es ix sorted
        | None => mixed_group (pb_block pb) \/ es = [] \/ exists a b, a ∈ es /\ b ∈ es /\ element_kind a <> element_kind b
        end /\
        match tags with
        | Some t => ~ mixed_group (pb_block pb) /\ ascending (keys t) /\
            forall s, s ∈ keys t <-> exists el i, el ∈ es /\ Z.of_nat i ∈ el_keys el /\ strings !! i = Some s
        | None => mixed_group (pb_block pb) \/ group_count (pb_block pb) = 0
        end
    end.
Proof.
  intros Hb HB Hlt. destruct (block_of_ok _ _ _ Hb HB Hlt) as (strings & gs & p & Hlay & Hw & Hgb & _ & _ & _ & Ht & Hn & Hg).
  destruct (scan_groups_ok (pb_block pb) skip gs _ _ _ _ Hgb Hw) as (els & es' & [A1 A2 A3 A4 A5 A6 A7]).
  destruct (phase_groups (pb_block pb) (length gs) skip gs els 0 (dense_empty (pb_block pb)) [] [] []) as [need Hd]; [done|done|done|].
  exists (concat els), need, strings. split_and!; [intros fuel Hf; unfold elements_new; rewrite Hn, Nat2Z.id; by apply Hd|done|].
  rewrite <- A4 in A5, A6, A7. pose proof (run_agrees _ _ _ _ _ Hlay A2 A7) as Hag.
  destruct (run_ok _ true _ _ _ _ Hlay A2 A7) as (w & Hfin & Hr). rewrite Hag. unfold try_scan_block_ids_and_tags.
  pose proof (mixed_groups _ _ Hn Hg) as Hmix. case_decide as Hall.
  - rewrite Hr. cbn [mbind result_bind fst]. split; [done|]. split; [|split].
    + apply Forall_forall. intros el Hel. apply Forall_forall. intros i Hi. rewrite Forall_forall in A7, Hall.
      assert (i ∈ es' ≫= el_keys) as Hin by (apply list_elem_of_bind; exists el; by rewrite A4). split; [by apply A7|by apply Hall].
    + pose proof (scan_index_ok _ _ _ _ _ _ Hfin A5 A6) as Hix. destruct (scan_index w) as [[ix so]|].
      * destruct Hix as [Hm Hde]. rewrite <- (A3 Hm). split; [|done]. rewrite <- Hmix. congruence.
      * rewrite <- Hmix. destruct Hix as [|[->|(a & c & Ha & Hc & Hne)]]; [by left| |].
        -- right. left. by apply Permutation_nil_l in A4 || by apply Permutation_nil.
        -- right. right. exists a, c. by rewrite <- A4.
    + pose proof (scan_tags_ok _ _ _ _ _ Hfin) as Htg. destruct (scan_tags w) as [t|].
      * destruct Htg as (Hm & Hasc & Hin). split_and!; [rewrite <- Hmix; congruence|done|]. intros s. rewrite Hin.
        split; [intros (i & (el & Hi & Hel)%list_elem_of_bind & Hs); exists el, i; by rewrite <- A4|].
        intros (el & i & Hel & Hi & Hs). exists i. split; [|done]. apply list_elem_of_bind. exists el. by rewrite A4.
      * rewrite <- Hmix. destruct Htg as [| ->]; [by left|by right].
  - destruct Hr as (i & [Hi _] & Hle & ->). cbn [mbind result_bind]. split; [done|].
    apply list_elem_of_bind in Hi as (el & Hi & Hel). exists i, el. by rewrite <- A4.
Qed.

End Whole.

Section Samples.
#[local] Existing Instances RefProto.ref_proto RefProto.ref_laws.

Lemma scan_describes_block_witness :
  exists pb, block_of sample_block None = Ok pb /\ exists es need strings,
    (forall fuel, (need <= fuel)%nat -> elements_drain fuel (elements_new (pb_block pb) true) = Some es) /\
    (forall i, table_get (stringtable (pb_block pb)) i = Some (strings !! i)) /\
    match try_scan_block_ids_and_tags sample_block with
    | Err e => try_scan_block_ids_checked sample_block = Err e /\ exists i el,
        e = KeyOutOfBounds i /\ el ∈ es /\ i ∈ el_keys el /\ Z.of_nat (length strings) <= i
    | Ok (index, tags) => try_scan_block_ids_checked sample_block = Ok index /\
        Forall (fun el => Forall (fun i => 0 <= i < Z.of_nat (length strings)) (el_keys el)) es /\
        match index with
        | Some (ix, sorted) => ~ mixed_group (pb_block pb) /\ describes es ix sorted
        | None => mixed_group (pb_block pb) \/ es = [] \/ exists a b, a ∈ es /\ b ∈ es /\ element_kind a <> element_kind b
        end /\
        match tags with
        | Some t => ~ mixed_group (pb_block pb) /\ ascending (keys t) /\
            forall s, s ∈ keys t <-> exists el i, el ∈ es /\ Z.of_nat i ∈ el_keys el /\ strings !! i = Some s
        | None => mixed_group (pb_block pb) \/ group_count (pb_block pb) = 0
        end
    end.
Proof.
  eexists. split; [reflexivity|].
  apply (scan_describes_block sample_block None); [exact sample_block_bytes|reflexivity|reflexivity].
Defined.

(** The sample block: one way, id 5, tag key "hi". *)
Example sample_block_scanned :
  try_scan_block_ids_and_tags sample_block =
    Ok (Some ({| kind := Way; min_id := 5; max_id := 5; count := 1; bbox := None |}, true), Some {| keys := [[104; 105]] |}).
Proof. reflexivity. Qed.

End Samples.
