(* ===== verification/BlockAccepted.v ===== *)
(** * The reader accepts what the builder writes

    The writer's side of the construction invariant: the arrays the encoders
    write are complete varints of the right width and length, so block
    construction accepts every block taken from the builder, under the kind the
    builder recorded, and counts the added elements. *)

From S2P Require Import Prelude ElementKind Proto Wire WireBlock BlobMeta TagIndex StringTable Encode Dense.
From S2P Require Import PackedCount Utf8 Block BlockWalk BlockValid.
From S2P Require Import BlockBuilder BuilderSpec BlockRoundtrip.

Section Accepted.
Context `{L : ProtohoggrLaws} {H : HashIndex}.

Abbreviation string_field := (encode_bytes_field_always 1).

(** ** Written arrays *)

Lemma written_reads w data :
  0 <= w <= 64 -> written w data -> Forall is_byte data /\ exists vs, Forall (is_u w) vs /\ reads_all data vs.
Proof.
  intros Hw (vs & HF & ->). assert (Forall is_u64 vs) as H64.
  { eapply Forall_impl; [exact HF|]. intros v Hv. unfold is_u in *. pose proof (Z.pow_le_mono_r 2 w 64). lia. }
  split.
  - clear HF. induction H64 as [|v vs Hv _ IH]; [constructor|]. cbn [fmap list_fmap concat].
    apply Forall_app. split; [by apply encode_varint_bytes|done].
  - exists vs. split; [done|]. clear HF. induction H64 as [|v vs Hv _ IH]; [constructor|]. cbn [fmap list_fmap concat].
    econstructor; [by apply read_varint_encode|done].
Qed.

Lemma written_count data : written 64 data -> packed_varint_count data = Ok (Z.of_nat (length (packed_sint64 data))).
Proof.
  intros Hw. apply written_reads in Hw as (Hb & vs & _ & Hr); [|lia].
  rewrite (reads_all_drains _ _ _ _ packed_sint64_drains Hr), length_fmap. apply packed_varint_count_ok; eauto.
Qed.

Lemma written_lengths {A} (it : bytes -> list A) narrow data :
  written 64 data -> drains it narrow -> length (it data) = length (packed_sint64 data).
Proof.
  intros Hw Hit. apply written_reads in Hw as (Hb & vs & _ & Hr); [|lia].
  by rewrite (reads_all_drains _ _ _ _ Hit Hr), (reads_all_drains _ _ _ _ packed_sint64_drains Hr), !length_fmap.
Qed.

Lemma lockstep_length {A B} (xs : list A) (ys : list B) ps :
  lockstep xs ys = Some ps -> length xs = length ps /\ length ys = length ps.
Proof.
  revert ys ps. induction xs as [|x xs IH]; intros [|y ys] ps; cbn; try done; [by intros [= <-]|].
  destruct (lockstep xs ys) as [l|] eqn:E; [|done]. intros [= <-]. apply IH in E as [-> ->]. done.
Qed.

Lemma written_tags keys vals t tags msg :
  written 32 keys -> written 32 vals -> tags_say t (raw_tags keys vals) tags -> validate_tag_arrays keys vals msg = Ok tt.
Proof.
  intros Hk Hv (ps & Hps & _). apply written_reads in Hk as (Bk & ks & Fk & Rk); [|lia].
  apply written_reads in Hv as (Bv & vs & Fv & Rv); [|lia]. apply (tag_arrays_ok _ _ _ Bk Bv).
  exists ks, vs. unfold raw_tags in *. rewrite (packed_uint32_reads _ _ Fk Rk), (packed_uint32_reads _ _ Fv Rv) in *.
  pose proof (lockstep_length _ _ _ Hps) as [E1 E2]. split_and!; [done..|congruence|]. apply lockstep_zip. congruence.
Qed.

Lemma read_info_ok t meta info : meta_read t meta info -> exists i, validate_info info = Ok i.
Proof.
  destruct meta, info; cbn; try done; [|eauto]. intros (_ & i & Hi & _). rewrite Hi. by eexists.
Qed.

(** ** Elements *)

Context {A : Type} `{GroupProjection A}.

Lemma way_accepted (s : WalkState (A := A)) t eb w id tags refs locs meta :
  WireWay_parse eb = Ok w -> way_says t w id tags refs locs meta -> (locs = [] \/ length locs = length refs) ->
  exists s', validate_way s eb = Ok s' /\ wk_count s' = wk_count s + 1 /\ wk_kinds s' = ElementKind.add (wk_kinds s) Way.
Proof.
  intros Hp (_ & Hrefs & Hlocs & Htags & Hmeta & Hk & Hv & Hr & Hla & Hlo) Hl.
  destruct (read_info_ok _ _ _ Hmeta) as [i Hi]. unfold validate_way. rewrite Hp. cbn [wire mbind result_bind].
  rewrite Hi. cbn [mbind result_bind]. rewrite (written_tags _ _ _ _ _ Hk Hv Htags). cbn [mbind result_bind].
  assert (validate_way_geometry_arrays w = Ok tt) as ->; [|by eexists].
  unfold validate_way_geometry_arrays. rewrite !written_count by done. cbn [wire mbind result_bind].
  apply lockstep_length in Hlocs as [E1 E2]. rewrite length_delta_decoded in E1, E2.
  apply (f_equal length) in Hrefs. rewrite length_delta_decoded in Hrefs. rewrite E1, E2, Hrefs, Z.eqb_refl. cbn [negb].
  destruct Hl as [Hl|Hl]; rewrite Hl; [done|]. rewrite Z.eqb_refl. by destruct (_ && _).
Qed.

Lemma relation_accepted (s : WalkState (A := A)) t eb r id tags ms meta :
  WireRelation_parse eb = Ok r -> relation_says t r id tags ms meta ->
  exists s', validate_relation s eb = Ok s' /\ wk_count s' = wk_count s + 1 /\
    wk_kinds s' = ElementKind.add (wk_kinds s) Relation.
Proof.
  intros Hp (_ & (ps & Hps & _) & Htags & Hmeta & Hk & Hv & Hr & Hm & Ht).
  destruct (read_info_ok _ _ _ Hmeta) as [i Hi]. unfold validate_relation. rewrite Hp. cbn [wire mbind result_bind].
  rewrite Hi. cbn [mbind result_bind]. rewrite (written_tags _ _ _ _ _ Hk Hv Htags). cbn [mbind result_bind].
  assert (validate_relation_member_arrays r = Ok tt) as ->; [|by eexists].
  unfold validate_relation_member_arrays. rewrite !written_count by done. cbn [wire mbind result_bind].
  unfold rel_members, member_ids in Hps. destruct (lockstep (delta_decoded (wr_memids r)) _) as [ids|] eqn:E; [|done].
  apply lockstep_length in E as [E1 E2]. apply lockstep_length in Hps as [E3 E4]. rewrite length_fmap in E4.
  rewrite length_delta_decoded in E1. rewrite (written_lengths _ _ _ Ht packed_int32_drains) in E2.
  rewrite (written_lengths _ _ _ Hr packed_int32_drains) in E3. rewrite E1, E2, E3, E4, !Z.eqb_refl. done.
Qed.


(** ** Dense groups *)

Lemma written_sint64 l : Forall is_i64 l -> written 64 (concat ((fun z => encode_varint (zigzag_encode_64 z)) <$> l)).
Proof. intros HF. apply written_map. eapply Forall_impl; [exact HF|]. intros z. apply zigzag_range. Qed.

Lemma count_written_map {B} (f : B -> Z) l :
  Forall (fun x => is_u64 (f x)) l -> packed_varint_count (concat ((fun x => encode_varint (f x)) <$> l)) = Ok (Z.of_nat (length l)).
Proof.
  intros HF. destruct (written_reads 64 (concat ((fun x => encode_varint (f x)) <$> l))) as (Hb & _); [lia|by apply written_map|].
  apply packed_varint_count_ok; [done|]. exists (f <$> l). split; [|by rewrite length_fmap]. clear Hb.
  induction HF as [|x l Hx _ IH]; [constructor|]. cbn [fmap list_fmap concat]. econstructor; [by apply read_varint_encode|done].
Qed.

Lemma kvb_run kvs r : Forall kv_ok kvs -> kv_run (kvb kvs ++ encode_varint 0 ++ r) kvs r.
Proof.
  induction 1 as [|[k v] kvs [Hk Hv] _ IH].
  - constructor. apply read_varint_encode. unfold is_u. lia.
  - change (kvb ((k, v) :: kvs)) with ((encode_varint (as_u64 k) ++ encode_varint (as_u64 v)) ++ kvb kvs).
    cbn [fst snd] in *. assert (is_u64 k /\ is_u64 v) as [Uk Uv] by (unfold is_u; lia).
    rewrite <- !app_assoc, !as_u_id by done. eapply run_pair.
    + by apply read_varint_encode.
    + unfold sid_max. lia.
    + by apply read_varint_encode.
    + unfold sid_max. lia.
    + done.
Qed.

Lemma kv_all_runs cs : Forall col_ok cs -> kv_runs (kv_all cs) (c_kvs <$> cs).
Proof.
  induction 1 as [|c cs (_ & _ & _ & Hk) _ IH]; [constructor|].
  change (kv_all (c :: cs)) with ((kvb (c_kvs c) ++ encode_varint 0) ++ kv_all cs). rewrite <- app_assoc.
  econstructor; [|by apply kvb_run|done]. rewrite encode_varint_small by lia. by destruct (kvb (c_kvs c)).
Qed.

Lemma length_wdeltas w z l : length (wdeltas w z l) = length l.
Proof. revert z. induction l as [|x l IH]; intros z; [done|]. cbn. by rewrite IH. Qed.

(** The metadata arrays are all present, one value per node. *)
Lemma dense_info_accepted ms (n : nat) :
  Forall info_col_ok ms -> length ms = n -> ms <> [] -> fits (dense_info_body (meta_cols true ms)) ->
  exists i, validate_dense_info_arrays (dense_info_body (meta_cols true ms)) (Z.of_nat n) = Ok i.
Proof.
  intros HF Hn Hne Hfit. destruct (dense_info_parse _ Hfit) as (i & Hi & ->). unfold validate_dense_info_arrays.
  rewrite Hi. cbn [wire mbind result_bind meta_cols dm_versions dm_timestamps dm_changesets dm_uids dm_user_sids dm_visibles
    wi_version wi_timestamp wi_changeset wi_uid wi_user_sid wi_visible].
  assert (forall l, Forall is_i64 l -> packed_varint_count (concat ((fun z => encode_varint (zigzag_encode_64 z)) <$> l)) = Ok (Z.of_nat (length l))) as C64.
  { intros l Hl. apply (count_written_map zigzag_encode_64). eapply Forall_impl; [exact Hl|]. intros z. apply zigzag_range. }
  assert (forall l, Forall is_i32 l -> packed_varint_count (concat ((fun z => encode_varint (zigzag_encode_32 z)) <$> l)) = Ok (Z.of_nat (length l))) as C32.
  { intros l Hl. apply (count_written_map zigzag_encode_32). eapply Forall_impl; [exact Hl|]. intros z Hz.
    pose proof (zigzag_range_32 z Hz) as Hr. unfold is_u in *. lia. }
  assert (forall l, packed_varint_count (concat ((fun z => encode_varint (as_u64 z)) <$> l)) = Ok (Z.of_nat (length l))) as CI.
  { intros l. apply (count_written_map as_u64), Forall_true. intros z. apply as_u_range. lia. }
  assert (packed_varint_count (Z.b2z <$> (ic_visible <$> ms)) = Ok (Z.of_nat (length ms))) as CB.
  { replace (Z.b2z <$> (ic_visible <$> ms)) with (concat ((fun b => encode_varint (Z.b2z b)) <$> (ic_visible <$> ms))).
    - rewrite (count_written_map Z.b2z); [by rewrite length_fmap|]. apply Forall_true. intros []; unfold is_u; cbn; lia.
    - clear -L. induction ms as [|m ms IH]; [done|]. cbn [fmap list_fmap concat] in *. rewrite encode_varint_small by (destruct (ic_visible m); cbn; lia). by rewrite <- IH. }
  cbn [core_present].
  rewrite CI, !C64, !C32 by (apply wdeltas_range; lia). cbn [wire mbind result_bind]. rewrite !length_wdeltas, !length_fmap, Hn.
  assert (n <> 0%nat) by (destruct ms; [done|cbn in Hn; lia]).
  rewrite (proj2 (Z.eqb_neq (Z.of_nat n) 0)) by lia. rewrite Z.eqb_refl. cbn [negb mbind result_bind].
  rewrite CB, Hn. cbn [wire mbind result_bind]. rewrite (proj2 (Z.eqb_neq (Z.of_nat n) 0)) by lia. rewrite Z.eqb_refl. by eexists.
Qed.

Lemma dense_accepted (s : WalkState (A := A)) cs d has ms :
  Forall col_ok cs -> cs <> [] -> fits (dense_body (node_cols cs) d) ->
  (has = false /\ d = meta_empty) \/
  (has = true /\ d = meta_cols true ms /\ ms <> [] /\ Forall info_col_ok ms /\ length ms = length cs) ->
  exists s', validate_dense s (dense_body (node_cols cs) d) = Ok s' /\
    wk_count s' = wk_count s + Z.of_nat (length cs) /\ wk_kinds s' = ElementKind.add (wk_kinds s) Node.
Proof.
  intros Hcs Hne Hfit Hd. destruct (dense_nodes_parse _ _ Hfit) as [Hp Hfi]. unfold validate_dense. rewrite Hp.
  cbn [wire mbind result_bind wd_id wd_lat wd_lon wd_keys_vals wd_info node_cols dc_ids dc_lats dc_lons dc_keys_vals].
  assert (forall l, packed_varint_count (concat ((fun z => encode_varint (zigzag_encode_64 z)) <$> wdeltas 64 0 l)) = Ok (Z.of_nat (length l))) as C.
  { intros l. rewrite (count_written_map zigzag_encode_64); [by rewrite length_wdeltas|].
    eapply Forall_impl; [apply wdeltas_range; lia|]. intros z. apply zigzag_range. }
  rewrite !C, !length_fmap. cbn [wire mbind result_bind]. rewrite Z.eqb_refl. cbn [negb orb]. rewrite kv_column.
  assert (validate_dense_keys_vals (kv_all cs) (Z.of_nat (length cs)) = Ok tt) as ->.
  { apply validate_keys_vals_ok; [|lia|right; exists (c_kvs <$> cs); split; [by apply kv_all_runs|by rewrite length_fmap]].
    rewrite <- kv_column. eapply (written_reads 64); [lia|]. apply written_map, Forall_true. intros z. apply as_u_range. lia. }
  cbn [mbind result_bind].
  assert (exists i, match info_read (if dm_has d then Some (dense_info_body d) else None) with
                    | Some info_data => validate_dense_info_arrays info_data (Z.of_nat (length cs))
                    | None => Ok None end = Ok i) as [i ->].
  { destruct Hd as [[-> ->]|(-> & -> & Hms & HF & Hlen)]; [by eexists|]. cbn [dm_has meta_cols].
    fold (meta_cols true ms). pose proof (info_body_nonempty ms true Hms HF).
    destruct (dense_info_accepted ms (length cs) HF Hlen Hms (Hfi eq_refl)) as [i Hi].
    destruct (dense_info_body (meta_cols true ms)); [done|]. exists i. exact Hi. }
  cbn [mbind result_bind]. eexists. split; [done|]. cbn [wk_count wk_kinds]. split; [done|].
  rewrite (proj2 (Z.ltb_lt 0 _)); [done|]. destruct cs; [done|cbn; lia].
Qed.

(** ** Groups *)

Lemma skip_arm_len {St} (st : St) d r : fits d -> skip_arm st WIRE_LEN (encode_varint (blen d) ++ d ++ r) = Ok (st, r).
Proof. intros Hd. unfold skip_arm. by rewrite skip_len, read_len_delimited_encode. Qed.

Lemma skip_arm_shrink {St} (st : St) w c st' c' : skip_arm st w c = Ok (st', c') -> c' `suffix_of` c.
Proof. unfold skip_arm. intros H1. apply bind_ok in H1 as (c1 & Hs%lift_ok & H1). simplify_eq. by apply skip_field_moves in Hs. Qed.

Lemma frame_shrinks : shrinks frame_step.
Proof. intros st f w c st' c' H1. by eapply skip_arm_shrink. Qed.

Lemma collect_shrinks target : shrinks (collect_step target).
Proof.
  intros st f w c st' c' H1. unfold collect_step in H1. destruct (arm_len target f w); [|by eapply skip_arm_shrink].
  apply bind_ok in H1 as ([b c1] & Hr%lift_ok & H1). simplify_eq. by eapply read_len_delimited_moves.
Qed.

(** Fields a step skips leave its state alone. *)
Lemma skip_fields {St} (step : St -> Z -> Z -> bytes -> result WireError (St * bytes)) st f ds :
  shrinks step -> 1 <= f < 2 ^ 29 -> Forall fits ds ->
  (forall d r, fits d -> step st f WIRE_LEN (encode_varint (blen d) ++ d ++ r) = Ok (st, r)) ->
  parse step st (concat (encode_bytes_field f <$> ds)) = Ok st.
Proof.
  intros Hs Hf HF Hskip. induction HF as [|d ds Hd _ IH]; [apply parse_nil|]. cbn [fmap list_fmap concat].
  rewrite (parse_bytes_field _ Hs st f d _ st); [done|done|done|]. intros _. by apply Hskip.
Qed.

(** The other message iterators of a group of one field are empty. *)
Lemma messages_other target f ds :
  1 <= f < 2 ^ 29 -> Forall fits ds -> target <> f -> messages target (concat (encode_bytes_field f <$> ds)) = [].
Proof.
  intros Hf HF Hne. pose proof (skip_fields frame_step tt f ds frame_shrinks Hf HF) as Hframe.
  pose proof (framed_messages target (concat (encode_bytes_field f <$> ds))) as Hm.
  rewrite (skip_fields _ [] f ds (collect_shrinks target) Hf HF) in Hm.
  - assert (Ok (E := WireError) (@nil bytes) = Ok (messages target (concat (encode_bytes_field f <$> ds)))) as E; [|by injection E].
    apply Hm, Hframe. intros d r Hd. by apply skip_arm_len.
  - intros d r Hd. unfold collect_step, arm_len. rewrite (proj2 (Z.eqb_neq f target)) by congruence. by apply skip_arm_len.
Qed.

(** One more element of the walk, [n] times. *)
Lemma walk_accepted {B} (f : WalkState (A := A) -> B -> result BlockError WalkState) k (s : WalkState (A := A)) l :
  l <> [] ->
  (forall s x, x ∈ l -> exists s', f s x = Ok s' /\ wk_count s' = wk_count s + 1 /\ wk_kinds s' = ElementKind.add (wk_kinds s) k) ->
  exists s', walk f s l = Ok s' /\ wk_count s' = wk_count s + Z.of_nat (length l) /\
    forall j, has (wk_kinds s') j = true <-> has (wk_kinds s) j = true \/ j = k.
Proof.
  revert s. induction l as [|x l IH]; intros s Hne Hf; [done|]. cbn [walk].
  destruct (Hf s x ltac:(set_solver)) as (s1 & -> & Hc & Hk). cbn [mbind result_bind].
  assert (forall j, has (wk_kinds s1) j = true <-> has (wk_kinds s) j = true \/ j = k) as Hj.
  { intros j. rewrite Hk, has_add, orb_true_iff, bool_decide_eq_true. naive_solver. }
  destruct l as [|y l].
  - exists s1. cbn. split_and!; [done|lia|done].
  - destruct (IH s1 ltac:(done)) as (s' & Hw & Hc' & Hk'); [intros; apply Hf; set_solver|].
    exists s'. split_and!; [done|rewrite Hc', Hc; cbn [length]; lia|]. intros j. rewrite Hk', Hj. tauto.
Qed.

Definition only (ks : KindSet) (k : ElementKind) : Prop := forall j, has ks j = true <-> j = k.

Lemma only_union ks k : only ks k -> only (ElementKind.union KindSet_default ks) k.
Proof. intros Ho j. rewrite has_union, <- (Ho j). assert (has KindSet_default j = false) as -> by by destruct j. done. Qed.

Lemma encoded_group_accepted k t ebs es (p : A) :
  k <> DenseNodes -> Forall2 (elem_reads t) ebs es -> Forall (fun e => e_ok e /\ e_type e = k) es -> ebs <> [] ->
  Forall (fun eb => eb <> []) ebs -> Forall fits ebs ->
  exists ks p', validate_group (KindSet_default, 0, p) (concat (encode_bytes_field (group_field k) <$> ebs)) =
    Ok (ks, Z.of_nat (length ebs), p') /\ only ks (block_kind k).
Proof.
  intros Hk HF Hok Hne Hnn Hfits. set (data := concat _). set (f := group_field k) in *.
  assert (1 <= f < 2 ^ 29 /\ f <> 2) as [Hf Hf2] by (subst f; destruct k; try done; cbn; lia).
  unfold validate_group. assert (parse frame_step tt data = Ok tt) as ->.
  { apply skip_fields; [apply frame_shrinks|done|done|]. intros d r Hd. by apply skip_arm_len. }
  cbn [wire mbind result_bind].
  assert (WireGroup_dense data = Ok None) as ->.
  { apply skip_fields; [apply dense_shrinks|done|done|]. intros d r Hd. unfold dense_step, arm_len.
    rewrite (proj2 (Z.eqb_neq f 2)) by done. by apply skip_arm_len. }
  unfold WireGroup_nodes, WireGroup_ways, WireGroup_relations.
  assert (messages f data = ebs) as Hself by (apply messages_fields; [done|]; apply Forall_and; by split).
  assert (forall s : WalkState (A := A), exists s',
    walk (match k with Ways => validate_way | _ => validate_relation end) s ebs = Ok s' /\
    wk_count s' = wk_count s + Z.of_nat (length ebs) /\
    forall j, has (wk_kinds s') j = true <-> has (wk_kinds s) j = true \/ j = block_kind k) as Hwalk.
  { intros s. apply walk_accepted; [done|]. intros s1 eb Heb.
    apply list_elem_of_lookup in Heb as [i Hi]. destruct (Forall2_lookup_l _ _ _ _ _ HF Hi) as (e & He & Hr).
    pose proof (Forall_lookup_1 _ _ _ _ Hok He) as [Heok Hty]. destruct k; [done|..]; destruct e; cbn in Hr, Hty; try done.
    - destruct Hr as (w & Hp & Hs). by apply (way_accepted s1 _ _ _ _ _ _ _ _ Hp Hs); left.
    - destruct Hr as (w & Hp & Hs). apply (way_accepted s1 _ _ _ _ _ _ _ _ Hp Hs). right. by destruct Heok as (_ & _ & _ & _ & ?).
    - destruct Hr as (w & Hp & Hs). by apply (relation_accepted s1 _ _ _ _ _ _ _ Hp Hs). }
  destruct (Hwalk (mkWalk KindSet_default 0 (group_begin p))) as (s' & Hw & Hc & Hks). cbn [wk_count wk_kinds] in Hc, Hks.
  exists (ElementKind.union KindSet_default (wk_kinds s')), (group_end (wk_proj s') (wk_kinds s')). split.
  - subst f data. destruct k; [done|..]; cbn [group_field] in *.
    + rewrite (messages_other 1), (messages_other 4), Hself by (done || lia). cbn [walk mbind result_bind]. rewrite Hw.
      cbn [mbind result_bind wire]. by rewrite Hc.
    + rewrite (messages_other 1), (messages_other 3), Hself by (done || lia). cbn [walk mbind result_bind]. rewrite Hw.
      cbn [mbind result_bind wire]. by rewrite Hc.
  - apply only_union. intros j. rewrite Hks. assert (has KindSet_default j <> true) by by destruct j. tauto.
Qed.

(** A step that skips the one field of a group. *)
Lemma skip_always {St} (step : St -> Z -> Z -> bytes -> result WireError (St * bytes)) st f d :
  shrinks step -> 1 <= f < 2 ^ 29 ->
  (forall r, step st f WIRE_LEN (encode_varint (blen d) ++ d ++ r) = Ok (st, r)) ->
  parse step st (encode_bytes_field_always f d) = Ok st.
Proof.
  intros Hs Hf Hskip. rewrite <- (app_nil_r (encode_bytes_field_always f d)).
  rewrite (section_turn _ Hs st f d [] st); [apply parse_nil|done|apply Hskip].
Qed.

Lemma dense_group_accepted cs d hm ms (p : A) :
  Forall col_ok cs -> cs <> [] -> fits (dense_body (node_cols cs) d) ->
  (hm = false /\ d = meta_empty) \/
  (hm = true /\ d = meta_cols true ms /\ ms <> [] /\ Forall info_col_ok ms /\ length ms = length cs) ->
  exists ks p', validate_group (KindSet_default, 0, p) (encode_bytes_field_always 2 (dense_body (node_cols cs) d)) =
    Ok (ks, Z.of_nat (length cs), p') /\ only ks Node.
Proof.
  intros Hcs Hne Hfit Hd. set (body := dense_body (node_cols cs) d) in *. unfold validate_group.
  assert (parse frame_step tt (encode_bytes_field_always 2 body) = Ok tt) as Hframe.
  { apply skip_always; [apply frame_shrinks|lia|]. intros r. by apply skip_arm_len. }
  rewrite Hframe. cbn [wire mbind result_bind].
  assert (forall target, target <> 2 -> messages target (encode_bytes_field_always 2 body) = []) as Hno.
  { intros target Ht. pose proof (framed_messages target _ Hframe) as Hm. rewrite skip_always in Hm; [by injection Hm|apply collect_shrinks|lia|].
    intros r. unfold collect_step, arm_len. rewrite (proj2 (Z.eqb_neq 2 target)) by congruence. by apply skip_arm_len. }
  unfold WireGroup_nodes, WireGroup_ways, WireGroup_relations. rewrite !Hno by lia. cbn [walk mbind result_bind].
  assert (WireGroup_dense (encode_bytes_field_always 2 body) = Ok (Some body)) as ->.
  { unfold WireGroup_dense. rewrite <- (app_nil_r (encode_bytes_field_always _ _)).
    rewrite (section_turn _ dense_shrinks _ 2 _ [] (Some body)); [apply parse_nil|lia|].
    unfold dense_step. cbn -[encode_varint]. by rewrite read_len_delimited_encode. }
  cbn [wire mbind result_bind].
  destruct (dense_accepted (mkWalk KindSet_default 0 (group_begin p)) cs d hm ms Hcs Hne Hfit Hd) as (s' & Hs & Hc & Hk).
  fold body in Hs. rewrite Hs. cbn [mbind result_bind]. rewrite Hc, Hk. eexists _, _. split; [done|].
  apply only_union. intros j. rewrite has_add, orb_true_iff, bool_decide_eq_true. cbn [wk_kinds].
  assert (has KindSet_default j <> true) by by destruct j. naive_solver.
Qed.

End Accepted.

(** ** Whole blocks *)

Section Built.
Context `{L : ProtohoggrLaws} {H : HashIndex}.

Abbreviation string_field := (encode_bytes_field_always 1).

Lemma utf8_accepted buffer st ss i :
  Forall2 (names buffer) st ss -> Forall (fun s => from_utf8 s = Ok tt) ss ->
  validate_stringtable_utf8 i (entry_slice buffer <$> st) = Ok tt.
Proof.
  intros HF. revert i. induction HF as [|e s st ss Hn _ IH]; intros i Hu; [done|]. apply Forall_cons in Hu as [Hs Hu].
  cbn [fmap list_fmap validate_stringtable_utf8]. assert (entry_slice buffer e = Some s) as -> by apply Hn.
  cbn [ok_or mbind result_bind]. rewrite Hs. by apply IH.
Qed.

(** A block of a string table and one accepted group is constructed. *)
Lemma two_sections_accepted ss grp ks n k :
  let block := encode_bytes_field_always 1 (concat (string_field <$> ss)) ++ encode_bytes_field_always 2 grp in
  blen block + 8 * Z.of_nat (length ss + 1) < 2 ^ 32 -> Forall (fun s => from_utf8 s = Ok tt) ss ->
  (exists p, validate_group (KindSet_default, 0, tt) grp = Ok (ks, n, p)) -> only ks k ->
  exists pb, block_of block (Some k) = Ok pb /\ pb_kinds pb = ks /\ pb_element_count pb = n /\
    blen (wb_buffer (pb_block pb)) < 2 ^ 32.
Proof.
  intros block Hlt Hu [[] Hg] Ho. set (body := concat (string_field <$> ss)) in *.
  assert (blen body + blen grp <= blen block) as Hsz.
  { subst block. rewrite blen_app. pose proof (always_ge 1 body). pose proof (always_ge 2 grp). lia. }
  pose proof (blen_nonneg body). pose proof (blen_nonneg grp).
  assert (Forall fits ss) as Hfs by (apply fits_list; fold body; lia).
  destruct (two_sections_scan ss grp) as (st & gr & Hscan & Hl1 & Hl2); [unfold fits; fold body; lia|unfold fits; lia|done|].
  fold body block in Hscan.
  destruct (scan_fields_names block default_fields st gr Hscan ltac:(lia)) as (tb & grs & ss' & Hsec & Hss & Hst & Hgr).
  unfold block in Hsec at 1. rewrite two_sections in Hsec by (unfold fits; lia). injection Hsec as <- <-.
  unfold body in Hss. rewrite parse_strings in Hss by done. injection Hss as <-. cbn [app] in Hst.
  unfold block_of, project, validate_in_place, validate_block. rewrite Hscan. cbn [wire mbind result_bind].
  unfold validate_groups. rewrite (Forall2_length _ _ _ Hgr), walk_indices; [|intros j g Hj; by apply (names_slice block gr [grp])].
  cbn [walk]. rewrite Hg. cbn [mbind result_bind]. rewrite (utf8_accepted _ _ _ _ Hst Hu). cbn [mbind result_bind bs_kinds].
  assert (refuse_under ks (Some k) = Ok tt) as ->.
  { unfold refuse_under. destruct (foreign_to ks k) as [f|] eqn:Hf; [|done]. exfalso.
    apply foreign_to_some in Hf as [Hne Hf]. by apply Ho in Hf. }
  cbn [mbind result_bind]. eexists. split; [done|]. unfold into_block. cbn [vb_buffer vb_st vb_groups vb_scan bs_fields].
  pose proof (blen_inline block st gr default_fields) as Hb. destruct (inline_tables block st gr default_fields) as [buf meta].
  cbn [fst] in Hb. cbn [pb_kinds pb_element_count pb_block bs_kinds bs_element_count wb_buffer from_inline].
  split_and!; [done|done|]. rewrite Hb, Hl1, Hl2. lia.
Qed.

(** The group of a filled builder passes the group walk, and counts its elements. *)
Lemma built_group_accepted cap k es :
  block_ok cap k es -> es <> [] -> (k <> DenseNodes -> Forall (fun e => e_id e <> 0) es) ->
  blen (group_bytes k (fill cap es)) < 2 ^ 32 ->
  (k <> DenseNodes -> bb_group (fill cap es) <> []) /\
  exists ks p, validate_group (KindSet_default, 0, tt) (group_bytes k (fill cap es)) = Ok (ks, Z.of_nat (length es), p) /\
    only ks (block_kind k).
Proof.
  intros Hok Hne Hids Hlt. destruct (fill_spec cap k es Hok) as [_ Hct]. destruct Hok as (Hoks & Hty & _).
  destruct (decide (k = DenseNodes)) as [->|Hk].
  - split; [done|]. destruct Hct as ((cs & Hcs & HF) & Hmi). pose proof (Forall2_length _ _ _ HF) as Hlen.
    destruct (meta_inv_infos _ _ _ _ Hmi Hlen Hne) as (hm & ms & Hd & _). cbn [group_bytes block_kind] in *.
    rewrite <- Hlen, Hcs in *. eapply dense_group_accepted; [by eapply cols_ok|by destruct cs, es| |exact Hd].
    pose proof (always_ge 2 (dense_body (node_cols cs) (bb_meta (fill cap es)))). unfold fits. lia.
  - specialize (Hids Hk). assert (group_inv k es (fill cap es)) as (ebs & Hg & HF) by (by destruct k). clear Hct.
    pose proof (encoded_nonempty _ _ _ HF Hids) as Hebs. assert (ebs <> []) as Hebne by (intros ->; by inversion HF).
    split; [intros _; rewrite Hg; by apply group_nonempty|].
    assert (group_bytes k (fill cap es) = concat (encode_bytes_field (group_field k) <$> ebs)) as Hgb by (by destruct k).
    rewrite Hgb in *. rewrite <- (Forall2_length _ _ _ HF).
    assert (Forall fits ebs) as Hfits.
    { apply Forall_forall. intros d Hd. pose proof (message_le (group_field k) ebs d Hd). unfold fits. lia. }
    eapply encoded_group_accepted; [done|by apply encoded_reads| |done..]. apply Forall_and. by split.
Qed.


End Built.

(** ** Concrete instances *)

#[local] Existing Instance RefProto.ref_proto.
#[local] Existing Instance RefProto.ref_laws.
#[local] Existing Instance RefHash.ref_index.

