(* ===== verification/OscInterner.v ===== *)
(** * The change overlay's string interner (src/src/osc/interner.rs)

    Tag keys, member roles and user names of a change file are kept once, in one
    flat string, and named by [u32] ids.  A [&str] is its UTF-8 bytes; [resolve]
    slices the flat string with [str::get], which also refuses a range that cuts
    a character, and an id it cannot resolve is a panic ([None]). *)

From S2P Require Import Prelude Utf8.

Definition utf8 (s : bytes) : Prop := from_utf8 s = Ok tt.

(** [str::is_char_boundary] and [str::get(a..b)]. *)
Definition is_char_boundary (s : bytes) (i : nat) : bool :=
  match i with
  | O => true
  | _ => match s !! i with Some b => negb (cont b) | None => (i =? length s)%nat end
  end.

Definition str_get (s : bytes) (a b : nat) : option bytes :=
  if (a <=? b)%nat && is_char_boundary s a && is_char_boundary s b then slice s a b else None.

Record StringTable := mkStrings { st_data : bytes; st_table : list (Z * Z) }.

Record StringInterner := mkInterner { in_strings : StringTable; in_lookup : gmap bytes Z }.

Inductive InternError := InternerOverflow (what : string).

Definition interner_new : StringInterner := mkInterner (mkStrings [] [(0, 0)]) {[ [] := 0 ]}.

(** [u32::try_from] of a [usize] *)
Definition u32_try_from {E} (n : Z) (e : E) : result E Z := if n <=? u32_max then Ok n else Err e.

Definition intern (t : StringInterner) (s : bytes) : result InternError (Z * StringInterner) :=
  match in_lookup t !! s with
  | Some id => Ok (id, t)
  | None =>
      let 'mkStrings data table := in_strings t in
      offset ← u32_try_from (Z.of_nat (length data)) (InternerOverflow "string bytes");
      len ← u32_try_from (Z.of_nat (length s)) (InternerOverflow "a single string");
      _ ← u32_try_from (offset + len) (InternerOverflow "string bytes");
      id ← u32_try_from (Z.of_nat (length table)) (InternerOverflow "distinct strings");
      Ok (id, mkInterner (mkStrings (data ++ s) (table ++ [(offset, len)])) (<[s := id]> (in_lookup t)))
  end.

Definition resolve (t : StringTable) (id : Z) : option bytes :=
  '(offset, len) ← st_table t !! Z.to_nat id;
  let start := Z.to_nat offset in
  str_get (st_data t) start (start + Z.to_nat len).

(** ** The invariant *)

Fixpoint spans (at_ : nat) (ss : list bytes) : list (Z * Z) :=
  match ss with
  | [] => []
  | s :: ss => (Z.of_nat at_, Z.of_nat (length s)) :: spans (at_ + length s) ss
  end.

(** The interned strings, in id order. *)
Record interner_is (t : StringInterner) (ss : list bytes) : Prop := {
  ii_data : st_data (in_strings t) = concat ss;
  ii_table : st_table (in_strings t) = spans 0 ss;
  ii_head : ss !! 0%nat = Some [];
  ii_utf8 : Forall utf8 ss;
  ii_lookup : forall s id, in_lookup t !! s = Some id <-> 0 <= id /\ ss !! Z.to_nat id = Some s;
  ii_nodup : NoDup ss;
  ii_count : Z.of_nat (length ss) <= u32_max + 1;
}.

Lemma length_spans n ss : length (spans n ss) = length ss.
Proof. revert n. induction ss as [|s ss IH]; intros n; [done|]. cbn. by rewrite IH. Qed.

Lemma spans_app n ss s : spans n (ss ++ [s]) = spans n ss ++ [(Z.of_nat (n + length (concat ss)), Z.of_nat (length s))].
Proof.
  revert n. induction ss as [|x ss IH]; intros n; cbn; [by rewrite Nat.add_0_r|].
  by rewrite IH, length_app, Nat.add_assoc.
Qed.

Lemma spans_lookup n ss i s :
  ss !! i = Some s ->
  exists pre post, concat ss = pre ++ s ++ post /\ concat (drop (S i) ss) = post /\
    spans n ss !! i = Some (Z.of_nat (n + length pre), Z.of_nat (length s)).
Proof.
  revert n i. induction ss as [|x ss IH]; intros n [|i] Hi; [done..| |]; cbn in Hi.
  - simplify_eq. exists [], (concat ss). by rewrite Nat.add_0_r.
  - destruct (IH (n + length x)%nat i Hi) as (pre & post & Hc & Hp & Hs). exists (x ++ pre), post.
    split_and!; [cbn; by rewrite Hc, <- app_assoc|done|]. change (spans (n + length x) ss !! i = Some (Z.of_nat (n + length (x ++ pre)), Z.of_nat (length s))). by rewrite Hs, length_app, Nat.add_assoc.
Qed.

(** A character starts where a UTF-8 string does. *)
Lemma utf8_head b s : utf8 (b :: s) -> cont b = false.
Proof.
  unfold utf8, from_utf8. cbn [utf8_loop]. destruct (Z.ltb_spec b 128); [intros _; unfold cont; lia|].
  unfold within, cont. destruct (_ && _) eqn:E1; [intros _; lia|]. destruct (_ && _) eqn:E2 in |- *; [intros _; lia|].
  destruct (_ && _) eqn:E3 in |- *; [intros _; lia|done].
Qed.

Lemma boundary_app pre ss : Forall utf8 ss -> is_char_boundary (pre ++ concat ss) (length pre) = true.
Proof.
  intros Hss. unfold is_char_boundary. destruct (length pre) eqn:E; [done|]. rewrite <- E.
  rewrite lookup_app_r, Nat.sub_diag by lia. assert (concat ss = [] \/ exists b c, concat ss = b :: c /\ cont b = false) as Hc.
  { clear E. induction Hss as [|s ss Hs _ IH]; [by left|]. destruct s as [|b s]; [done|].
    right. exists b, (s ++ concat ss). split; [done|by eapply utf8_head]. }
  destruct Hc as [->|(b & c & -> & Hb)]; cbn.
  - rewrite app_nil_r. apply Nat.eqb_refl.
  - by rewrite Hb.
Qed.

Lemma slice_mid {A} (pre s post : list A) : slice (pre ++ s ++ post) (length pre) (length pre + length s) = Some s.
Proof.
  unfold slice. rewrite decide_True by (rewrite !length_app; lia). f_equal.
  rewrite drop_app_length, take_app_le by lia. apply take_ge. lia.
Qed.

Lemma resolve_interned t ss i s : interner_is t ss -> ss !! i = Some s -> resolve (in_strings t) (Z.of_nat i) = Some s.
Proof.
  intros [Hd Ht _ Hu _ _ _] Hi. destruct (spans_lookup 0 ss i s Hi) as (pre & post & Hc & Hp & Hs).
  unfold resolve. rewrite Ht, Hd, Nat2Z.id, Hs. cbn [mbind option_bind]. rewrite !Nat2Z.id, Nat.add_0_l.
  unfold str_get. rewrite (proj2 (Nat.leb_le _ _)), Hc, slice_mid by lia.
  assert (Forall utf8 (s :: drop (S i) ss)) as Hsd.
  { constructor; [by eapply Forall_lookup_1|by apply Forall_drop]. }
  pose proof (boundary_app pre (s :: drop (S i) ss) Hsd) as B1. cbn [concat] in B1. rewrite Hp in B1. rewrite B1.
  apply Forall_cons in Hsd as [_ Hsd]. pose proof (boundary_app (pre ++ s) (drop (S i) ss) Hsd) as B2.
  rewrite Hp, <- app_assoc, length_app in B2. by rewrite B2.
Qed.

Lemma interner_new_is : interner_is interner_new [ [] ].
Proof.
  split; try done; [by apply Forall_singleton| |apply NoDup_singleton].
  intros s id. cbn [in_lookup interner_new]. rewrite lookup_singleton_Some. split.
  - intros [<- <-]. done.
  - intros [Hid Hs]. destruct (Z.to_nat id) eqn:E; [|done]. cbn in Hs. simplify_eq. split; [done|lia].
Qed.

(** Interning: the id resolves, and earlier ids keep their strings. *)
Lemma intern_is t ss s id t' :
  interner_is t ss -> utf8 s -> intern t s = Ok (id, t') ->
  exists ss', interner_is t' ss' /\ (ss' = ss \/ ss' = ss ++ [s]) /\ 0 <= id <= u32_max /\ ss' !! Z.to_nat id = Some s.
Proof.
  intros Hi Hs Hint. unfold intern in Hint. destruct (in_lookup t !! s) as [i|] eqn:El.
  - simplify_eq. exists ss. apply (ii_lookup _ _ Hi) in El as [H0 El]. pose proof (lookup_lt_Some _ _ _ El).
    pose proof (ii_count _ _ Hi). split_and!; [done|by left|done|lia|done].
  - destruct t as [[data table] lk]. cbn [in_strings in_lookup] in *. unfold u32_try_from in Hint.
    destruct (Z.leb_spec (Z.of_nat (length data)) u32_max) as [H1|]; [|done]. cbn [mbind result_bind] in Hint.
    destruct (Z.leb_spec (Z.of_nat (length s)) u32_max) as [H2|]; [|done]. cbn [mbind result_bind] in Hint.
    destruct (Z.leb_spec (Z.of_nat (length data) + Z.of_nat (length s)) u32_max) as [H3|]; [|done]. cbn [mbind result_bind] in Hint.
    destruct (Z.leb_spec (Z.of_nat (length table)) u32_max) as [H4|]; [|done]. cbn [mbind result_bind] in Hint. simplify_eq.
    destruct Hi as [Hd Ht Hh Hu Hl Hn Hc]. cbn [in_strings in_lookup st_data st_table] in *. subst data table.
    rewrite length_spans in *. assert (s ∉ ss) as Hnew.
    { intros [i Hi]%list_elem_of_lookup. assert (lk !! s = Some (Z.of_nat i)); [|congruence]. apply Hl. rewrite Nat2Z.id. split; [lia|done]. }
    exists (ss ++ [s]). split; [|split_and!; [by right|lia|lia|by rewrite Nat2Z.id, list_lookup_middle]].
    split; cbn [in_strings in_lookup st_data st_table].
    + rewrite concat_app. cbn. by rewrite app_nil_r.
    + rewrite spans_app. by rewrite Nat.add_0_l.
    + by apply lookup_app_l_Some.
    + apply Forall_app. split; [done|by constructor].
    + intros s' id. destruct (decide (s' = s)) as [->|Hne].
      * rewrite lookup_insert_eq. split; [intros [= <-]; rewrite Nat2Z.id, list_lookup_middle by done; split; [lia|done]|].
        intros [Hid Hs']. apply lookup_app_Some in Hs' as [Hs'|[Hge Hs']].
        -- by apply list_elem_of_lookup_2 in Hs'.
        -- apply list_lookup_singleton_Some in Hs' as [Hz _]. f_equal. lia.
      * rewrite lookup_insert_ne, Hl by done. split; intros [Hid Hs']; (split; [done|]); [by apply lookup_app_l_Some|].
        apply lookup_app_Some in Hs' as [Hs'|[Hge Hs']]; [done|]. apply list_lookup_singleton_Some in Hs' as [_ ->]. done.
    + apply NoDup_app. split_and!; [done| |apply NoDup_singleton]. intros x Hx ->%list_elem_of_singleton. done.
    + rewrite length_app. cbn [length]. lia.
Qed.

Lemma intern_fits t ss s :
  interner_is t ss -> Z.of_nat (length (concat ss) + length s) <= u32_max -> Z.of_nat (length ss) <= u32_max ->
  exists id t', intern t s = Ok (id, t').
Proof.
  intros [Hd Ht _ _ _ _ _] Hb Hn. unfold intern. destruct (in_lookup t !! s); [by eexists _, _|].
  destruct t as [[data table] lk]. cbn [in_strings st_data st_table] in *. subst data table. unfold u32_try_from.
  rewrite (proj2 (Z.leb_le (Z.of_nat (length (concat ss))) u32_max)) by lia. cbn [mbind result_bind].
  rewrite (proj2 (Z.leb_le (Z.of_nat (length s)) u32_max)) by lia. cbn [mbind result_bind].
  rewrite (proj2 (Z.leb_le (_ + _) u32_max)) by lia. cbn [mbind result_bind].
  rewrite length_spans, (proj2 (Z.leb_le (Z.of_nat (length ss)) u32_max)) by lia. by eexists _, _.
Qed.

(** Interning a sequence of strings. *)
Fixpoint intern_all (t : StringInterner) (ss : list bytes) : result InternError (list Z * StringInterner) :=
  match ss with
  | [] => Ok ([], t)
  | s :: ss => '(id, t) ← intern t s; '(ids, t) ← intern_all t ss; Ok (id :: ids, t)
  end.

Lemma intern_all_is ss t known :
  interner_is t known -> Forall utf8 ss ->
  Z.of_nat (length (concat known) + length (concat ss)) <= u32_max ->
  Z.of_nat (length known + length ss) <= u32_max + 1 ->
  exists ids t' all, intern_all t ss = Ok (ids, t') /\ interner_is t' all /\ known `prefix_of` all /\
    Forall2 (fun s id => 0 <= id /\ all !! Z.to_nat id = Some s) ss ids.
Proof.
  revert t known. induction ss as [|s ss IH]; intros t known Hi Hu Hb Hn.
  - exists [], t, known. by split_and!.
  - apply Forall_cons in Hu as [Hs Hu]. cbn [concat length] in Hb, Hn. rewrite length_app in Hb.
    destruct (intern_fits t known s Hi ltac:(lia) ltac:(lia)) as (id & t1 & E).
    destruct (intern_is _ _ _ _ _ Hi Hs E) as (k1 & Hk1 & Hgrow & Hid & Hat).
    assert (length (concat k1) <= length (concat known) + length s /\ length k1 <= S (length known) /\ known `prefix_of` k1)%nat as (L1 & L2 & L3).
    { destruct Hgrow as [->| ->]; [split_and!; [lia|lia|done]|].
      rewrite concat_app, !length_app. cbn. rewrite app_nil_r. split_and!; [lia|lia|by apply prefix_app_r]. }
    destruct (IH t1 k1 Hk1 Hu ltac:(lia) ltac:(lia)) as (ids & t' & all & E' & Hall & Hpre & HF).
    exists (id :: ids), t', all. cbn [intern_all]. rewrite E. cbn [mbind result_bind]. rewrite E'. split_and!; [done|done| |].
    + by etrans.
    + constructor; [|done]. split; [lia|]. by eapply prefix_lookup_Some.
Qed.

(** Interning is faithful: any strings whose bytes and number fit [u32] are
    all interned, each id resolves to its string in the final table, without a
    panic, however many strings were added after it, and two strings share an
    id exactly when they are equal. *)
Theorem interned_ids_resolve (ss : list bytes) :
  Forall utf8 ss -> Z.of_nat (length (concat ss)) <= u32_max -> Z.of_nat (length ss) <= u32_max ->
  exists ids t,
    intern_all interner_new ss = Ok (ids, t) /\
    Forall2 (fun s id => resolve (in_strings t) id = Some s) ss ids /\
    forall i j a b x y, ss !! i = Some a -> ss !! j = Some b -> ids !! i = Some x -> ids !! j = Some y -> (x = y <-> a = b).
Proof.
  intros Hu Hb Hn. destruct (intern_all_is ss interner_new [ [] ] interner_new_is Hu) as (ids & t & all & E & Hall & _ & HF).
  - cbn [concat length app]. lia.
  - cbn [length]. lia.
  - exists ids, t. split_and!; [done| |].
    + eapply Forall2_impl; [exact HF|]. intros s id [H0 Hs]. rewrite <- (Z2Nat.id id) by done. by eapply resolve_interned.
    + intros i j a b x y Ha Hb' Hx Hy. destruct (Forall2_lookup_lr _ _ _ _ _ _ HF Ha Hx) as [Hx0 Hxa].
      destruct (Forall2_lookup_lr _ _ _ _ _ _ HF Hb' Hy) as [Hy0 Hyb]. split; [intros ->; congruence|]. intros <-.
      assert (Z.to_nat x = Z.to_nat y); [|lia]. by eapply NoDup_lookup; [apply (ii_nodup _ _ Hall)|..].
Qed.

Lemma interned_ids_resolve_witness :
  exists ids t,
    intern_all interner_new [[104; 105]; []; [195; 169]; [104; 105]] = Ok (ids, t) /\
    Forall2 (fun s id => resolve (in_strings t) id = Some s) [[104; 105]; []; [195; 169]; [104; 105]] ids /\
    forall i j a b x y, [[104; 105]; []; [195; 169]; [104; 105]] !! i = Some a ->
      [[104; 105]; []; [195; 169]; [104; 105]] !! j = Some b -> ids !! i = Some x -> ids !! j = Some y -> (x = y <-> a = b).
Proof. apply interned_ids_resolve; [repeat (constructor; [reflexivity|]); constructor|done|done]. Defined.
