(* ===== verification/VersionFloor.v ===== *)
(** * The version-precedence rule (src/src/osc/version_floor.rs)

    The highest version claimed so far for one object.  Both consumers of change
    files (the overlay and the simplifier) build on it; [floor_of] is the floor
    a whole history of claims leaves, and [serial] the first refusal of a serial pass
    over all changes, which both are shown to compute. *)

From S2P Require Import Prelude.

Definition VersionFloor := option Z.

Definition floor_new (highest : option Z) : VersionFloor := highest.

(** [admit]: the floor the claim fell below, on refusal. *)
Definition floor_admit (self : VersionFloor) (claim : option Z) : result Z unit :=
  match claim, self with
  | Some claim, Some floor => if claim <? floor then Err floor else Ok tt
  | _, _ => Ok tt
  end.

Definition floor_raise (self : VersionFloor) (claim : option Z) : VersionFloor :=
  match claim with
  | Some claim => Some (match self with Some floor => Z.max floor claim | None => claim end)
  | None => self
  end.

(** The floor after a history of claims. *)
Definition floor_of (claims : list (option Z)) : VersionFloor := foldl floor_raise None claims.

Lemma floor_raise_none c : floor_raise None c = c.
Proof. by destruct c. Qed.

Lemma floor_raise_assoc f a b : floor_raise (floor_raise f a) b = floor_raise f (floor_raise a b).
Proof. destruct f, a, b; cbn; f_equal; lia. Qed.

Lemma floor_of_snoc cs c : floor_of (cs ++ [c]) = floor_raise (floor_of cs) c.
Proof. unfold floor_of. by rewrite foldl_app. Qed.

Lemma floor_raise_idem f c : floor_admit f c = Ok tt -> forall v, c = Some v -> floor_raise f c = c.
Proof. intros H v ->. destruct f as [x|]; [|done]. cbn in *. destruct (Z.ltb_spec v x); [done|]. f_equal. lia. Qed.

(** The floor is the highest claim. *)
Lemma floor_of_spec cs :
  match floor_of cs with
  | Some v => Some v ∈ cs /\ forall w, Some w ∈ cs -> w <= v
  | None => forall w, Some w ∉ cs
  end.
Proof.
  induction cs as [|c cs IH] using rev_ind; [intros w; apply not_elem_of_nil|]. rewrite floor_of_snoc.
  destruct (floor_of cs) as [v|], c as [x|]; cbn.
  - destruct IH as [Hv Hle]. split.
    + destruct (Z.max_spec v x) as [[_ ->]|[_ ->]]; set_solver.
    + intros w Hw. apply elem_of_app in Hw as [Hw|Hw]; [specialize (Hle w Hw); lia|]. apply list_elem_of_singleton in Hw. simplify_eq. lia.
  - destruct IH as [Hv Hle]. split; [set_solver|]. intros w Hw. apply Hle. set_solver.
  - split; [set_solver|]. intros w Hw. apply elem_of_app in Hw as [Hw|Hw]; [by apply IH in Hw|]. apply list_elem_of_singleton in Hw. simplify_eq. lia.
  - intros w Hw. apply elem_of_app in Hw as [Hw|Hw]; [by apply IH in Hw|set_solver].
Qed.

(** ** The serial pass

    Changes carry a key (the object) and a claim; a serial pass in input order
    refuses the first change whose claim falls below the floor its object's
    earlier changes left. *)

Section Serial.
Context {A K : Type} `{EqDecision K} (key : A -> K) (claim : A -> option Z).

(** The changes of one object, in order. *)
Definition history (k : K) (xs : list A) : list A := filter (fun x => key x = k) xs.

Definition object_floor (k : K) (xs : list A) : VersionFloor := floor_of (claim <$> history k xs).

Fixpoint serial_from (before rest : list A) : option (nat * A * Z * Z) :=
  match rest with
  | [] => None
  | x :: rest =>
      match claim x, floor_admit (object_floor (key x) before) (claim x) with
      | Some v, Err held => Some (length before, x, v, held)
      | _, _ => serial_from (before ++ [x]) rest
      end
  end.

(** The first refusal: its position, change, version and the floor it fell below. *)
Definition serial (xs : list A) : option (nat * A * Z * Z) := serial_from [] xs.

Lemma history_snoc k xs x :
  history k (xs ++ [x]) = history k xs ++ (if decide (key x = k) then [x] else []).
Proof. unfold history. rewrite filter_app, filter_cons, filter_nil. by destruct (decide _). Qed.

Lemma history_self xs x : history (key x) (xs ++ [x]) = history (key x) xs ++ [x].
Proof. rewrite history_snoc. by rewrite decide_True. Qed.

Lemma history_other k xs x : key x <> k -> history k (xs ++ [x]) = history k xs.
Proof. intros. rewrite history_snoc, decide_False by done. apply app_nil_r. Qed.

Lemma object_floor_self xs x : object_floor (key x) (xs ++ [x]) = floor_raise (object_floor (key x) xs) (claim x).
Proof. unfold object_floor. by rewrite history_self, fmap_app, <- floor_of_snoc. Qed.

Lemma object_floor_other k xs x : key x <> k -> object_floor k (xs ++ [x]) = object_floor k xs.
Proof. intros. unfold object_floor. by rewrite history_other. Qed.

(** ** First refusals among some of the changes *)

Definition refused (before : list A) (x : A) (v held : Z) : Prop :=
  claim x = Some v /\ floor_admit (object_floor (key x) before) (Some v) = Err held.

Lemma refused_dec before x :
  match claim x, floor_admit (object_floor (key x) before) (claim x) with
  | Some v, Err held => refused before x v held
  | _, _ => forall v held, ~ refused before x v held
  end.
Proof.
  unfold refused. destruct (claim x) as [v|] eqn:E; [|by intros v held [? _]].
  destruct (floor_admit _ _) eqn:Ea; [|done]. intros v' held [[= <-] Hr]. congruence.
Qed.

(** [x] is refused and nothing before it that satisfies [Q] is. *)
Definition first_refused (Q : A -> Prop) (before rest : list A) (n : nat) (x : A) (v held : Z) : Prop :=
  exists pre post, rest = pre ++ x :: post /\ n = (length before + length pre)%nat /\ Q x /\ refused (before ++ pre) x v held /\
    forall pre' x' post' v' held', rest = pre' ++ x' :: post' -> (length pre' < length pre)%nat -> Q x' ->
      ~ refused (before ++ pre') x' v' held'.

Definition none_refused (Q : A -> Prop) (before rest : list A) : Prop :=
  forall pre x post v held, rest = pre ++ x :: post -> Q x -> ~ refused (before ++ pre) x v held.

Lemma first_refused_here (Q : A -> Prop) before x rest v held :
  Q x -> refused before x v held -> first_refused Q before (x :: rest) (length before) x v held.
Proof. intros HQ Hr. exists [], rest. cbn. rewrite app_nil_r. split_and!; [done|lia|done|done|lia]. Qed.

Lemma refused_cons (Q : A -> Prop) before x rest :
  (Q x -> forall v held, ~ refused before x v held) ->
  (none_refused Q (before ++ [x]) rest -> none_refused Q before (x :: rest)) /\
  (forall n y v held, first_refused Q (before ++ [x]) rest n y v held -> first_refused Q before (x :: rest) n y v held).
Proof.
  intros Hx. split.
  - intros Hn pre y post v held Heq HQ. destruct pre as [|z pre]; cbn in Heq; simplify_eq; [rewrite app_nil_r; by apply Hx|].
    rewrite cons_middle, app_assoc. by eapply Hn.
  - intros n y v held (pre & post & -> & -> & HQ & Hr & Hmin). exists (x :: pre), post.
    split_and!; [done|rewrite length_app; cbn; lia|done|by rewrite cons_middle, app_assoc|].
    intros [|z pre'] x' post' v' held' Heq Hlt HQ'; cbn in Heq; simplify_eq; [rewrite app_nil_r; by apply Hx|].
    rewrite cons_middle, app_assoc. eapply Hmin; [done| |done]. cbn in Hlt. lia.
Qed.

Lemma serial_from_spec before rest :
  match serial_from before rest with
  | None => none_refused (fun _ => True) before rest
  | Some (n, x, v, held) => first_refused (fun _ => True) before rest n x v held
  end.
Proof.
  revert before. induction rest as [|x rest IH]; intros before; cbn [serial_from].
  { intros [|??] ? ? ? ? Heq; discriminate. }
  pose proof (refused_dec before x) as Hr. specialize (IH (before ++ [x])).
  destruct (claim x) as [v|] eqn:Ec; [destruct (floor_admit _ _) as [[]|held] eqn:Ea|].
  2: by apply first_refused_here.
  all: destruct (refused_cons (fun _ => True) before x rest (fun _ => Hr)) as [H1 H2];
    destruct (serial_from _ _) as [[[[n y] w] h]|]; auto.
Qed.

(** A first refusal is unique. *)
Lemma first_refused_unique (Q : A -> Prop) before rest n x v held n' x' v' held' :
  first_refused Q before rest n x v held -> first_refused Q before rest n' x' v' held' ->
  n = n' /\ x = x' /\ v = v' /\ held = held'.
Proof.
  intros (pre & post & E1 & -> & HQ & Hr & Hm) (pre' & post' & E2 & -> & HQ' & Hr' & Hm').
  destruct (Nat.lt_trichotomy (length pre) (length pre')) as [Hl|[Hl|Hl]].
  - exfalso. by eapply (Hm' pre x post).
  - rewrite E1 in E2. apply app_inj_1 in E2 as [-> [= -> ->]]; [|done]. destruct Hr as [Hc Ha], Hr' as [Hc' Ha'].
    rewrite Hc in Hc'. simplify_eq. rewrite Ha in Ha'. by simplify_eq.
  - exfalso. by eapply (Hm pre' x' post').
Qed.

(** ** One object's pass *)

Fixpoint object_pass (floor : VersionFloor) (xs : list A) : option (A * Z * Z) :=
  match xs with
  | [] => None
  | x :: xs =>
      match claim x, floor_admit floor (claim x) with
      | Some v, Err held => Some (x, v, held)
      | _, _ => object_pass (floor_raise floor (claim x)) xs
      end
  end.

Lemma object_pass_spec k before rest :
  match object_pass (object_floor k before) (history k rest) with
  | None => none_refused (fun x => key x = k) before rest
  | Some (x, v, held) => exists n, first_refused (fun x => key x = k) before rest n x v held
  end.
Proof.
  revert before. induction rest as [|x rest IH]; intros before.
  { intros [|??] ? ? ? ? Heq; discriminate. }
  specialize (IH (before ++ [x])). unfold history in *. rewrite filter_cons. destruct (decide (key x = k)) as [<-|Hne].
  - cbn [object_pass]. rewrite object_floor_self in IH. pose proof (refused_dec before x) as Hr.
    destruct (claim x) as [v|] eqn:Ec; [destruct (floor_admit _ _) as [[]|held] eqn:Ea|].
    2: eexists; by apply first_refused_here.
    all: destruct (refused_cons (fun y => key y = key x) before x rest (fun _ => Hr)) as [H1 H2];
      destruct (object_pass _ _) as [[[y w] h]|]; [destruct IH as [n IH]; eauto|auto].
  - rewrite object_floor_other in IH by done.
    destruct (refused_cons (fun y => key y = k) before x rest) as [H1 H2]; [done|].
    destruct (object_pass _ _) as [[[y w] h]|]; [destruct IH as [n IH]; eauto|auto].
Qed.
End Serial.

(** ** The verdict depends only on keys and claims *)

Section SerialMap.
Context {A B K : Type} `{EqDecision K}.
Context (keyA : A -> K) (claimA : A -> option Z) (keyB : B -> K) (claimB : B -> option Z).

Definition alike (x : A) (y : B) : Prop := keyA x = keyB y /\ claimA x = claimB y.

Lemma history_alike k xs ys :
  Forall2 alike xs ys -> claimA <$> history keyA k xs = claimB <$> history keyB k ys.
Proof.
  induction 1 as [|x y xs ys [Hk Hc] _ IH]; [done|]. unfold history in *. rewrite !filter_cons, Hk.
  destruct (decide _); [|done]. by rewrite !fmap_cons, Hc, IH.
Qed.

Lemma serial_alike bx by_ xs ys :
  Forall2 alike bx by_ -> Forall2 alike xs ys ->
  match serial_from keyA claimA bx xs, serial_from keyB claimB by_ ys with
  | None, None => True
  | Some (n, x, v, h), Some (m, y, w, g) => n = m /\ alike x y /\ v = w /\ h = g
  | _, _ => False
  end.
Proof.
  intros Hb HF. revert bx by_ Hb. induction HF as [|x y xs ys Hxy HF IH]; intros bx by_ Hb; cbn [serial_from]; [done|].
  unfold object_floor. pose proof Hxy as [Hk Hc]. rewrite Hk, Hc, (history_alike _ _ _ Hb).
  specialize (IH (bx ++ [x]) (by_ ++ [y]) ltac:(apply Forall2_app; [done|by constructor])).
  destruct (claimB y) as [v|]; [|done]. destruct (floor_admit _ _); [done|].
  split_and!; [by eapply Forall2_length|done..].
Qed.
End SerialMap.
