(* ===== verification/OscArena.v ===== *)
(** * The arena records of the change overlay (src/src/osc/compact.rs)

    A changed element is packed into its kind's arena: fixed little-endian
    fields, a 29-byte metadata block, then refs or members and tags whose keys,
    roles and user are intern ids.  The accessors read a record in place at its
    offset, with whatever was appended after it following; an out-of-range read,
    a bad type byte, an unresolvable id or a non-UTF-8 value is a panic
    ([None]). *)

From S2P Require Import Prelude ElementKind Encode Utf8.
From S2P Require Import OscInterner.

Inductive OscError :=
| Intern (e : InternError)
| CountOverflow (kind : ElementKind) (id len : Z) (what : string)
| UnknownMemberType (v : Z)
| VersionRegression (kind : ElementKind) (id incoming stored : Z)
| OscPanic.

(** ** Little-endian reads *)

Definition read_i64_le (data : bytes) (offset : nat) : option Z :=
  b ← slice data offset (offset + 8); Some (as_i64 (from_le b)).
Definition read_i32_le (data : bytes) (offset : nat) : option Z :=
  b ← slice data offset (offset + 4); Some (as_i32 (from_le b)).
Definition read_u32_le (data : bytes) (offset : nat) : option Z :=
  b ← slice data offset (offset + 4); Some (from_le b).

(** ** Member types *)

Definition member_type_to_byte (mt : MemberType) : result OscError Z :=
  match mt with
  | MNode => Ok 0
  | MWay => Ok 1
  | MRelation => Ok 2
  | MUnknown v => Err (UnknownMemberType v)
  end.

Definition byte_to_member_type (b : Z) : option MemberType :=
  if b =? 0 then Some MNode else if b =? 1 then Some MWay else if b =? 2 then Some MRelation else None.

(** ** The metadata block *)

Record ArenaMeta := mkArenaMeta {
  am_flags : Z; am_version : Z; am_timestamp : Z; am_changeset : Z; am_uid : Z; am_user_id : Z }.

Definition ArenaMeta_default : ArenaMeta := mkArenaMeta 0 0 0 0 0 0.

Definition META_FLAG_PRESENT : Z := 1.
Definition META_FLAG_HIDDEN : Z := 2.
Definition META_FLAG_HAS_USER : Z := 4.
Definition META_FLAG_HAS_VERSION : Z := 8.

Definition version_claim (meta : ArenaMeta) : option Z :=
  if Z.land (am_flags meta) META_FLAG_HAS_VERSION =? 0 then None else Some (am_version meta).

(** Widths and offsets inside the block. *)
Definition M_VERSION : nat := 1.
Definition M_TIMESTAMP : nat := M_VERSION + 4.
Definition M_CHANGESET : nat := M_TIMESTAMP + 8.
Definition M_UID : nat := M_CHANGESET + 8.
Definition M_USER_ID : nat := M_UID + 4.
Definition META_LEN : nat := M_USER_ID + 4.

Definition NODE_META_OFF : nat := 8 + 4 + 4 + 4.
Definition WAY_META_OFF : nat := 8 + 4 + 4.
Definition RELATION_META_OFF : nat := 8 + 4 + 4.

Definition version_at (data : bytes) (record_offset meta_off : nat) : option (option Z) :=
  flags ← data !! (record_offset + meta_off)%nat;
  if Z.land flags META_FLAG_HAS_VERSION =? 0 then Some None
  else v ← read_i32_le data (record_offset + meta_off + M_VERSION); Some (Some v).

Definition arena_append_meta (arena : bytes) (meta : ArenaMeta) : bytes :=
  arena ++ [am_flags meta] ++ to_le 4 (am_version meta) ++ to_le 8 (am_timestamp meta) ++
  to_le 8 (am_changeset meta) ++ to_le 4 (am_uid meta) ++ to_le 4 (am_user_id meta).

(** The outer [None] is a panic. *)
Definition read_meta (data : bytes) (offset : nat) (strings : StringTable) : option (option Metadata) :=
  flags ← data !! offset;
  if Z.land flags META_FLAG_PRESENT =? 0 then Some None
  else
    version ← read_i32_le data (offset + M_VERSION);
    timestamp ← read_i64_le data (offset + M_TIMESTAMP);
    changeset ← read_i64_le data (offset + M_CHANGESET);
    uid ← read_i32_le data (offset + M_UID);
    user ← (if negb (Z.land flags META_FLAG_HAS_USER =? 0)
            then id ← read_u32_le data (offset + M_USER_ID); resolve strings id
            else Some []);
    Some (Some (mkMetadata version timestamp changeset uid user (Z.land flags META_FLAG_HIDDEN =? 0))).

(** ** Appending *)

Definition count_u32 (len : nat) (what : string) (kind : ElementKind) (id : Z) : result OscError Z :=
  u32_try_from (Z.of_nat len) (CountOverflow kind id (Z.of_nat len) what).

(** The arena keeps the bytes written before a refusal. *)
Fixpoint append_tags (arena : bytes) (tags : list (Z * bytes)) (kind : ElementKind) (id : Z)
  : bytes * result OscError unit :=
  match tags with
  | [] => (arena, Ok tt)
  | (key_id, value) :: tags =>
      let arena := arena ++ to_le 4 key_id in
      match count_u32 (length value) "tag value bytes" kind id with
      | Err e => (arena, Err e)
      | Ok n => append_tags (arena ++ to_le 4 n ++ value) tags kind id
      end
  end.

Definition arena_append_node (arena : bytes) (id lat lon : Z) (tags : list (Z * bytes)) (meta : ArenaMeta)
  : bytes * result OscError nat :=
  let offset := length arena in
  let arena := arena ++ to_le 8 id ++ to_le 4 lat ++ to_le 4 lon in
  match count_u32 (length tags) "tags" Node id with
  | Err e => (arena, Err e)
  | Ok n =>
      let arena := arena_append_meta (arena ++ to_le 4 n) meta in
      let '(arena, r) := append_tags arena tags Node id in
      (arena, match r with Ok _ => Ok offset | Err e => Err e end)
  end.

Definition arena_append_way (arena : bytes) (id : Z) (refs : list Z) (tags : list (Z * bytes)) (meta : ArenaMeta)
  : bytes * result OscError nat :=
  match count_u32 (length refs) "node refs" Way id, count_u32 (length tags) "tags" Way id with
  | Ok ref_count, Ok tag_count =>
      let offset := length arena in
      let arena := arena_append_meta (arena ++ to_le 8 id ++ to_le 4 ref_count ++ to_le 4 tag_count) meta in
      let arena := arena ++ concat (to_le 8 <$> refs) in
      let '(arena, r) := append_tags arena tags Way id in
      (arena, match r with Ok _ => Ok offset | Err e => Err e end)
  | Err e, _ => (arena, Err e)
  | _, Err e => (arena, Err e)
  end.

Definition arena_append_relation (arena : bytes) (id : Z) (members : list (Z * Z * Z)) (tags : list (Z * bytes))
    (meta : ArenaMeta) : bytes * result OscError nat :=
  match count_u32 (length members) "members" Relation id, count_u32 (length tags) "tags" Relation id with
  | Ok member_count, Ok tag_count =>
      let offset := length arena in
      let arena := arena_append_meta (arena ++ to_le 8 id ++ to_le 4 member_count ++ to_le 4 tag_count) meta in
      let arena := arena ++ concat ((fun '(ref_id, type_byte, role_id) => to_le 8 ref_id ++ [type_byte] ++ to_le 4 role_id) <$> members) in
      let '(arena, r) := append_tags arena tags Relation id in
      (arena, match r with Ok _ => Ok offset | Err e => Err e end)
  | Err e, _ => (arena, Err e)
  | _, Err e => (arena, Err e)
  end.

(** ** Iterators

    [next] returns a panic as the outer [None]. *)

Section Drain.
Context {It A : Type} (next : It -> option (option A * It)).

Fixpoint drain (fuel : nat) (it : It) : option (list A) :=
  match fuel with
  | O => None
  | S fuel =>
      '(x, it) ← next it;
      match x with
      | None => Some []
      | Some a => l ← drain fuel it; Some (a :: l)
      end
  end.
End Drain.

Record CompactTagIter := mkTagIter { ti_data : bytes; ti_offset : nat; ti_remaining : nat; ti_strings : StringTable }.

Definition tag_next (it : CompactTagIter) : option (option (bytes * bytes) * CompactTagIter) :=
  let 'mkTagIter data offset remaining strings := it in
  match remaining with
  | O => Some (None, it)
  | S remaining =>
      key_id ← read_u32_le data offset;
      let offset := (offset + 4)%nat in
      value_len ← read_u32_le data offset;
      let offset := (offset + 4)%nat in
      value_bytes ← slice data offset (offset + Z.to_nat value_len);
      let offset := (offset + Z.to_nat value_len)%nat in
      key ← resolve strings key_id;
      match from_utf8 value_bytes with
      | Ok _ => Some (Some (key, value_bytes), mkTagIter data offset remaining strings)
      | Err _ => None
      end
  end.

Record CompactRefIter := mkRefIter { ri_data : bytes; ri_offset : nat; ri_remaining : nat }.

Definition ref_next (it : CompactRefIter) : option (option Z * CompactRefIter) :=
  let 'mkRefIter data offset remaining := it in
  match remaining with
  | O => Some (None, it)
  | S remaining =>
      val ← read_i64_le data offset;
      Some (Some val, mkRefIter data (offset + 8) remaining)
  end.

Record CompactMemberIter := mkMemberIter { mi_data : bytes; mi_offset : nat; mi_remaining : nat; mi_strings : StringTable }.

Definition member_next (it : CompactMemberIter) : option (option (MemberType * Z * bytes) * CompactMemberIter) :=
  let 'mkMemberIter data offset remaining strings := it in
  match remaining with
  | O => Some (None, it)
  | S remaining =>
      ref_id ← read_i64_le data offset;
      type_byte ← data !! (offset + 8)%nat;
      role_id ← read_u32_le data (offset + 9);
      member_type ← byte_to_member_type type_byte;
      role ← resolve strings role_id;
      Some (Some (member_type, ref_id, role), mkMemberIter data (offset + 13) remaining strings)
  end.

(** ** Accessors *)

Record CompactRef := mkRef { cr_data : bytes; cr_strings : StringTable }.

Definition NODE_HEADER_LEN : nat := NODE_META_OFF + META_LEN.
Definition WAY_HEADER_LEN : nat := WAY_META_OFF + META_LEN.
Definition RELATION_HEADER_LEN : nat := RELATION_META_OFF + META_LEN.
Definition MEMBER_SIZE : nat := 13.

Definition node_id (r : CompactRef) : option Z := read_i64_le (cr_data r) 0.
Definition node_decimicro_lat (r : CompactRef) : option Z := read_i32_le (cr_data r) 8.
Definition node_decimicro_lon (r : CompactRef) : option Z := read_i32_le (cr_data r) 12.
Definition node_tag_count (r : CompactRef) : option nat := Z.to_nat <$> read_u32_le (cr_data r) 16.
Definition node_metadata (r : CompactRef) : option (option Metadata) := read_meta (cr_data r) NODE_META_OFF (cr_strings r).
Definition node_tags (r : CompactRef) : option CompactTagIter :=
  n ← node_tag_count r; Some (mkTagIter (cr_data r) NODE_HEADER_LEN n (cr_strings r)).

Definition way_id (r : CompactRef) : option Z := read_i64_le (cr_data r) 0.
Definition way_ref_count (r : CompactRef) : option nat := Z.to_nat <$> read_u32_le (cr_data r) 8.
Definition way_tag_count (r : CompactRef) : option nat := Z.to_nat <$> read_u32_le (cr_data r) 12.
Definition way_metadata (r : CompactRef) : option (option Metadata) := read_meta (cr_data r) WAY_META_OFF (cr_strings r).
Definition way_refs (r : CompactRef) : option CompactRefIter :=
  n ← way_ref_count r; Some (mkRefIter (cr_data r) WAY_HEADER_LEN n).
Definition way_tags (r : CompactRef) : option CompactTagIter :=
  refs ← way_ref_count r;
  n ← way_tag_count r;
  Some (mkTagIter (cr_data r) (WAY_HEADER_LEN + refs * 8) n (cr_strings r)).

Definition relation_id (r : CompactRef) : option Z := read_i64_le (cr_data r) 0.
Definition relation_member_count (r : CompactRef) : option nat := Z.to_nat <$> read_u32_le (cr_data r) 8.
Definition relation_tag_count (r : CompactRef) : option nat := Z.to_nat <$> read_u32_le (cr_data r) 12.
Definition relation_metadata (r : CompactRef) : option (option Metadata) :=
  read_meta (cr_data r) RELATION_META_OFF (cr_strings r).
Definition relation_members (r : CompactRef) : option CompactMemberIter :=
  n ← relation_member_count r; Some (mkMemberIter (cr_data r) RELATION_HEADER_LEN n (cr_strings r)).
Definition relation_tags (r : CompactRef) : option CompactTagIter :=
  members ← relation_member_count r;
  n ← relation_tag_count r;
  Some (mkTagIter (cr_data r) (RELATION_HEADER_LEN + members * MEMBER_SIZE) n (cr_strings r)).

(** ** Reading what was appended *)

Lemma slice_skip {A} (a r : list A) i j : (length a <= i <= j)%nat -> slice (a ++ r) i j = slice r (i - length a) (j - length a).
Proof.
  intros Hi. unfold slice. rewrite length_app, drop_app_ge by lia.
  destruct (decide (i <= j ∧ j <= length a + length r)%nat), (decide (i - length a <= j - length a ∧ j - length a <= length r)%nat); try (exfalso; lia); [|done].
  do 2 f_equal. lia.
Qed.

Lemma slice_head {A} (a r : list A) n : length a = n -> slice (a ++ r) 0 n = Some a.
Proof. intros <-. apply (slice_mid [] a r). Qed.

Lemma read_u32_head x r : is_u32 x -> read_u32_le (to_le 4 x ++ r) 0 = Some x.
Proof. intros Hx. unfold read_u32_le. rewrite slice_head by apply length_to_le. cbn [mbind option_bind]. by rewrite from_to_le_u. Qed.

Lemma read_i32_head x r : is_i32 x -> read_i32_le (to_le 4 x ++ r) 0 = Some x.
Proof.
  intros Hx. unfold read_i32_le. rewrite slice_head by apply length_to_le. cbn [mbind option_bind]. f_equal.
  apply (from_to_le_s 4); [lia|done].
Qed.

Lemma read_i64_head x r : is_i64 x -> read_i64_le (to_le 8 x ++ r) 0 = Some x.
Proof.
  intros Hx. unfold read_i64_le. rewrite slice_head by apply length_to_le. cbn [mbind option_bind]. f_equal.
  apply (from_to_le_s 8); [lia|done].
Qed.

Lemma read_u32_skip a r n : (length a <= n)%nat -> read_u32_le (a ++ r) n = read_u32_le r (n - length a).
Proof. intros. unfold read_u32_le. rewrite slice_skip by lia. do 2 f_equal. lia. Qed.
Lemma read_i32_skip a r n : (length a <= n)%nat -> read_i32_le (a ++ r) n = read_i32_le r (n - length a).
Proof. intros. unfold read_i32_le. rewrite slice_skip by lia. do 2 f_equal. lia. Qed.
Lemma read_i64_skip a r n : (length a <= n)%nat -> read_i64_le (a ++ r) n = read_i64_le r (n - length a).
Proof. intros. unfold read_i64_le. rewrite slice_skip by lia. do 2 f_equal. lia. Qed.

(** Steps over the fields before the one read. *)
Ltac field_read :=
  repeat (first
    [ rewrite read_u32_head by done | rewrite read_i32_head by done | rewrite read_i64_head by done
    | rewrite read_u32_skip by (rewrite length_to_le; lia)
    | rewrite read_i32_skip by (rewrite length_to_le; lia)
    | rewrite read_i64_skip by (rewrite length_to_le; lia)];
    rewrite ?length_to_le; cbn [Nat.sub Nat.add mbind option_bind]).

Definition meta_ok (m : ArenaMeta) : Prop :=
  is_byte (am_flags m) /\ is_i32 (am_version m) /\ is_i64 (am_timestamp m) /\ is_i64 (am_changeset m) /\
  is_i32 (am_uid m) /\ is_u32 (am_user_id m).

Definition meta_bytes (m : ArenaMeta) : bytes := arena_append_meta [] m.

Lemma append_meta_bytes a m : arena_append_meta a m = a ++ meta_bytes m.
Proof. done. Qed.

Lemma length_meta_bytes m : length (meta_bytes m) = META_LEN.
Proof. unfold meta_bytes, arena_append_meta. rewrite !length_app, !length_to_le. done. Qed.

(** The metadata a block stands for. *)
Definition meta_value (strings : StringTable) (m : ArenaMeta) : option (option Metadata) :=
  if Z.land (am_flags m) META_FLAG_PRESENT =? 0 then Some None
  else
    user ← (if negb (Z.land (am_flags m) META_FLAG_HAS_USER =? 0) then resolve strings (am_user_id m) else Some []);
    Some (Some (mkMetadata (am_version m) (am_timestamp m) (am_changeset m) (am_uid m) user
                  (Z.land (am_flags m) META_FLAG_HIDDEN =? 0))).

Lemma read_meta_skip a r n strings : (length a <= n)%nat -> read_meta (a ++ r) n strings = read_meta r (n - length a) strings.
Proof.
  intros Hn. unfold read_meta. rewrite lookup_app_r by done.
  rewrite !read_i32_skip, !read_i64_skip, !read_u32_skip by lia.
  replace (n + M_VERSION - length a)%nat with (n - length a + M_VERSION)%nat by lia.
  replace (n + M_TIMESTAMP - length a)%nat with (n - length a + M_TIMESTAMP)%nat by lia.
  replace (n + M_CHANGESET - length a)%nat with (n - length a + M_CHANGESET)%nat by lia.
  replace (n + M_UID - length a)%nat with (n - length a + M_UID)%nat by lia.
  by replace (n + M_USER_ID - length a)%nat with (n - length a + M_USER_ID)%nat by lia.
Qed.

Lemma read_meta_head m post strings : meta_ok m -> read_meta (meta_bytes m ++ post) 0 strings = meta_value strings m.
Proof.
  intros (Hf & Hv & Ht & Hc & Hu & Hi). unfold meta_bytes, arena_append_meta. cbn [app].
  unfold read_meta, meta_value. cbn [lookup list_lookup mbind option_bind]. destruct (_ =? 0); [done|].
  rewrite <- !app_assoc. set (flag := am_flags m). change (flag :: ?l) with ([flag] ++ l).
  unfold M_USER_ID, M_UID, M_CHANGESET, M_TIMESTAMP, M_VERSION.
  rewrite !(read_u32_skip [flag]), !(read_i32_skip [flag]), !(read_i64_skip [flag]) by (cbn; lia). cbn [length Nat.sub Nat.add].
  by field_read.
Qed.

Lemma version_at_spec pre m post off moff :
  meta_ok m -> (off + moff)%nat = length pre -> version_at (pre ++ meta_bytes m ++ post) off moff = Some (version_claim m).
Proof.
  intros (_ & Hv & _) Hl. unfold version_at, version_claim. rewrite Hl, lookup_app_r, Nat.sub_diag by lia.
  unfold meta_bytes, arena_append_meta. cbn [app lookup list_lookup mbind option_bind]. destruct (_ =? 0); [done|].
  rewrite read_i32_skip by lia. replace (length pre + M_VERSION - length pre)%nat with 1%nat by (unfold M_VERSION; lia).
  rewrite <- !app_assoc. set (flag := am_flags m). change (flag :: ?l) with ([flag] ++ l).
  rewrite (read_i32_skip [flag]) by (cbn; lia). cbn [length Nat.sub]. by rewrite read_i32_head.
Qed.

(** *** Tags, refs and members *)

Definition tag_bytes (tags : list (Z * bytes)) : bytes :=
  concat ((fun '(k, v) => to_le 4 k ++ to_le 4 (Z.of_nat (length v)) ++ v) <$> tags).

Definition tag_ok (t : Z * bytes) : Prop := is_u32 t.1 /\ Z.of_nat (length t.2) <= u32_max /\ utf8 t.2.

Definition tag_value (strings : StringTable) (t : Z * bytes) : option (bytes * bytes) :=
  key ← resolve strings t.1; Some (key, t.2).

Lemma append_tags_ok arena tags kind id :
  Forall tag_ok tags -> append_tags arena tags kind id = (arena ++ tag_bytes tags, Ok tt).
Proof.
  intros HF. revert arena. induction HF as [|[k v] tags (_ & Hl & _) _ IH]; intros arena; cbn [append_tags].
  - by rewrite app_nil_r.
  - unfold count_u32, u32_try_from. rewrite (proj2 (Z.leb_le _ _)) by done. rewrite IH. unfold tag_bytes. cbn [fmap list_fmap concat].
    by rewrite <- !app_assoc.
Qed.

Lemma drain_cons {It A} (next : It -> option (option A * It)) fuel it x it' :
  next it = Some (Some x, it') -> drain next (S fuel) it = l ← drain next fuel it'; Some (x :: l).
Proof. intros E. cbn [drain]. by rewrite E. Qed.

Lemma drain_nil {It A} (next : It -> option (option A * It)) fuel it it' :
  next it = Some (None, it') -> drain next (S fuel) it = Some [].
Proof. intros E. cbn [drain]. by rewrite E. Qed.

Lemma u32_len {A} (l : list A) : Z.of_nat (length l) <= u32_max -> is_u32 (Z.of_nat (length l)).
Proof. unfold is_u, u32_max. lia. Qed.

Lemma tag_next_cons pre k v r n strings key :
  tag_ok (k, v) -> resolve strings k = Some key ->
  tag_next (mkTagIter (pre ++ to_le 4 k ++ to_le 4 (Z.of_nat (length v)) ++ v ++ r) (length pre) (S n) strings) =
    Some (Some (key, v),
          mkTagIter (pre ++ to_le 4 k ++ to_le 4 (Z.of_nat (length v)) ++ v ++ r) (length pre + 8 + length v) n strings).
Proof.
  intros (Hk & Hl & Hu) Hkey. cbn [fst snd] in *. apply u32_len in Hl as Hl'. unfold tag_next.
  rewrite !(read_u32_skip pre) by lia. rewrite Nat.sub_diag. replace (length pre + 4 - length pre)%nat with 4%nat by lia. field_read.
  rewrite Nat2Z.id. replace (length pre + 4 + 4)%nat with (length (pre ++ to_le 4 k ++ to_le 4 (Z.of_nat (length v))))
    by (rewrite !length_app, !length_to_le; lia).
  assert (pre ++ to_le 4 k ++ to_le 4 (Z.of_nat (length v)) ++ v ++ r =
    (pre ++ to_le 4 k ++ to_le 4 (Z.of_nat (length v))) ++ v ++ r) as Ha by (by rewrite <- !app_assoc).
  rewrite Ha at 1. rewrite slice_mid. cbn [mbind option_bind]. rewrite Hkey. cbn [mbind option_bind]. unfold utf8 in Hu. rewrite Hu.
  do 3 f_equal. rewrite !length_app, !length_to_le. lia.
Qed.

Lemma tags_drain pre tags r strings ts :
  Forall tag_ok tags -> mapM (tag_value strings) tags = Some ts ->
  drain tag_next (S (length tags)) (mkTagIter (pre ++ tag_bytes tags ++ r) (length pre) (length tags) strings) = Some ts.
Proof.
  intros HF. revert pre ts. induction HF as [|[k v] tags Ht _ IH]; intros pre ts Hm.
  - by apply mapM_Some in Hm as ->%Forall2_nil_inv_l.
  - apply mapM_Some, Forall2_cons_inv_l in Hm as ([key v'] & ts' & Hv & Hm & ->). apply mapM_Some in Hm.
    unfold tag_value in Hv. cbn [fst snd] in Hv. destruct (resolve strings k) as [key'|] eqn:Ek; [|done]. cbn in Hv. simplify_eq.
    change (tag_bytes ((k, v') :: tags)) with ((to_le 4 k ++ to_le 4 (Z.of_nat (length v')) ++ v') ++ tag_bytes tags).
    rewrite <- !app_assoc. cbn [length]. erewrite drain_cons; [|by apply tag_next_cons].
    specialize (IH (pre ++ to_le 4 k ++ to_le 4 (Z.of_nat (length v')) ++ v') ts' Hm).
    rewrite <- !app_assoc in IH. rewrite !length_app, !length_to_le in IH.
    replace (length pre + 8 + length v')%nat with (length pre + (4 + (4 + length v')))%nat by lia. by rewrite IH.
Qed.

Definition ref_bytes (refs : list Z) : bytes := concat (to_le 8 <$> refs).

Lemma length_ref_bytes refs : length (ref_bytes refs) = (length refs * 8)%nat.
Proof. induction refs as [|r refs IH]; [done|]. unfold ref_bytes in *. cbn [fmap list_fmap concat length]. rewrite length_app, length_to_le, IH. lia. Qed.

Lemma refs_drain pre refs r :
  Forall is_i64 refs -> drain ref_next (S (length refs)) (mkRefIter (pre ++ ref_bytes refs ++ r) (length pre) (length refs)) = Some refs.
Proof.
  intros HF. revert pre. induction HF as [|x refs Hx _ IH]; intros pre; [done|].
  change (ref_bytes (x :: refs)) with (to_le 8 x ++ ref_bytes refs). rewrite <- !app_assoc. cbn [length].
  erewrite drain_cons; [|cbn [ref_next]; rewrite read_i64_skip, Nat.sub_diag, read_i64_head by (done || lia); reflexivity].
  specialize (IH (pre ++ to_le 8 x)). rewrite <- !app_assoc, length_app, length_to_le in IH. by rewrite IH.
Qed.

Definition member_bytes (members : list (Z * Z * Z)) : bytes :=
  concat ((fun '(ref_id, type_byte, role_id) => to_le 8 ref_id ++ [type_byte] ++ to_le 4 role_id) <$> members).

Definition member_ok (m : Z * Z * Z) : Prop := is_i64 m.1.1 /\ is_u32 m.2.

Definition member_value (strings : StringTable) (m : Z * Z * Z) : option (MemberType * Z * bytes) :=
  ty ← byte_to_member_type m.1.2; role ← resolve strings m.2; Some (ty, m.1.1, role).

Lemma length_member_bytes ms : length (member_bytes ms) = (length ms * MEMBER_SIZE)%nat.
Proof.
  induction ms as [|[[a b] c] ms IH]; [done|]. unfold member_bytes in *. cbn [fmap list_fmap concat length].
  rewrite !length_app, !length_to_le, IH. cbn [length]. unfold MEMBER_SIZE. lia.
Qed.

Lemma members_drain pre ms r strings vs :
  Forall member_ok ms -> mapM (member_value strings) ms = Some vs ->
  drain member_next (S (length ms)) (mkMemberIter (pre ++ member_bytes ms ++ r) (length pre) (length ms) strings) = Some vs.
Proof.
  intros HF. revert pre vs. induction HF as [|[[x b] role] ms [Hx Hr] _ IH]; intros pre vs Hm.
  - by apply mapM_Some in Hm as ->%Forall2_nil_inv_l.
  - apply mapM_Some, Forall2_cons_inv_l in Hm as (y & vs' & Hv & Hm & ->). apply mapM_Some in Hm. cbn [fst snd] in *.
    change (member_bytes ((x, b, role) :: ms)) with ((to_le 8 x ++ [b] ++ to_le 4 role) ++ member_bytes ms).
    rewrite <- !app_assoc. cbn [length].
    erewrite drain_cons.
    2: { cbn [member_next]. rewrite read_i64_skip, Nat.sub_diag, read_i64_head by (done || lia). cbn [mbind option_bind].
         rewrite lookup_app_r by lia. replace (length pre + 8 - length pre)%nat with (length (to_le 8 x)) by (rewrite length_to_le; lia).
         rewrite lookup_app_r, Nat.sub_diag by lia. change (([b] ++ ?l) !! 0%nat) with (Some b). cbn [mbind option_bind].
                  rewrite read_u32_skip by lia. replace (length pre + 9 - length pre)%nat with 9%nat by lia.
         rewrite read_u32_skip by (rewrite length_to_le; lia). rewrite length_to_le. cbn [Nat.sub].
         rewrite read_u32_skip by (cbn; lia). cbn [length Nat.sub]. rewrite read_u32_head by done. cbn [mbind option_bind].
         unfold member_value in Hv. cbn [fst snd] in Hv. destruct (byte_to_member_type b); [|done]. cbn [mbind option_bind] in Hv |- *.
         destruct (resolve strings role); [|done]. cbn [mbind option_bind] in Hv |- *. injection Hv as <-. reflexivity. }
    specialize (IH (pre ++ to_le 8 x ++ [b] ++ to_le 4 role) vs' Hm). rewrite <- !app_assoc in IH.
    rewrite !length_app, !length_to_le in IH. cbn [length Nat.add] in IH. by rewrite IH.
Qed.

(** *** Whole records *)

(** An element as it is packed: interned keys, roles and user. *)
Inductive Packed :=
| PNode (id lat lon : Z) (tags : list (Z * bytes)) (meta : ArenaMeta)
| PWay (id : Z) (refs : list Z) (tags : list (Z * bytes)) (meta : ArenaMeta)
| PRelation (id : Z) (members : list (Z * Z * Z)) (tags : list (Z * bytes)) (meta : ArenaMeta).

Definition packed_kind (e : Packed) : ElementKind :=
  match e with PNode _ _ _ _ _ => Node | PWay _ _ _ _ => Way | PRelation _ _ _ _ => Relation end.
Definition packed_id (e : Packed) : Z :=
  match e with PNode id _ _ _ _ | PWay id _ _ _ | PRelation id _ _ _ => id end.
Definition packed_meta (e : Packed) : ArenaMeta :=
  match e with PNode _ _ _ _ m | PWay _ _ _ m | PRelation _ _ _ m => m end.

Definition arena_append (arena : bytes) (e : Packed) : bytes * result OscError nat :=
  match e with
  | PNode id lat lon tags meta => arena_append_node arena id lat lon tags meta
  | PWay id refs tags meta => arena_append_way arena id refs tags meta
  | PRelation id members tags meta => arena_append_relation arena id members tags meta
  end.

Definition meta_off (k : ElementKind) : nat :=
  match k with Node => NODE_META_OFF | Way => WAY_META_OFF | Relation => RELATION_META_OFF end.

(** What the accessors say of a record. *)
Inductive View :=
| VNode (id lat lon : Z) (tags : list (bytes * bytes)) (meta : option Metadata)
| VWay (id : Z) (refs : list Z) (tags : list (bytes * bytes)) (meta : option Metadata)
| VRelation (id : Z) (members : list (MemberType * Z * bytes)) (tags : list (bytes * bytes)) (meta : option Metadata).

Definition tags_of (it : option CompactTagIter) : option (list (bytes * bytes)) :=
  it ← it; drain tag_next (S (ti_remaining it)) it.

Definition read_record (k : ElementKind) (r : CompactRef) : option View :=
  match k with
  | Node =>
      id ← node_id r; lat ← node_decimicro_lat r; lon ← node_decimicro_lon r;
      meta ← node_metadata r; tags ← tags_of (node_tags r);
      Some (VNode id lat lon tags meta)
  | Way =>
      id ← way_id r; meta ← way_metadata r;
      refs ← (it ← way_refs r; drain ref_next (S (ri_remaining it)) it);
      tags ← tags_of (way_tags r);
      Some (VWay id refs tags meta)
  | Relation =>
      id ← relation_id r; meta ← relation_metadata r;
      members ← (it ← relation_members r; drain member_next (S (mi_remaining it)) it);
      tags ← tags_of (relation_tags r);
      Some (VRelation id members tags meta)
  end.

(** The packed element with its ids resolved. *)
Definition view_of (strings : StringTable) (e : Packed) : option View :=
  meta ← meta_value strings (packed_meta e);
  match e with
  | PNode id lat lon tags _ => ts ← mapM (tag_value strings) tags; Some (VNode id lat lon ts meta)
  | PWay id refs tags _ => ts ← mapM (tag_value strings) tags; Some (VWay id refs ts meta)
  | PRelation id members tags _ =>
      ms ← mapM (member_value strings) members;
      ts ← mapM (tag_value strings) tags;
      Some (VRelation id ms ts meta)
  end.

Definition tags_ok (tags : list (Z * bytes)) : Prop := Z.of_nat (length tags) <= u32_max /\ Forall tag_ok tags.

Definition packed_ok (e : Packed) : Prop :=
  is_i64 (packed_id e) /\ meta_ok (packed_meta e) /\
  match e with
  | PNode _ lat lon tags _ => is_i32 lat /\ is_i32 lon /\ tags_ok tags
  | PWay _ refs tags _ => Z.of_nat (length refs) <= u32_max /\ Forall is_i64 refs /\ tags_ok tags
  | PRelation _ ms tags _ => Z.of_nat (length ms) <= u32_max /\ Forall member_ok ms /\ tags_ok tags
  end.

(** The header before the metadata block, and what follows it. *)
Definition head_bytes (e : Packed) : bytes :=
  match e with
  | PNode id lat lon tags _ => to_le 8 id ++ to_le 4 lat ++ to_le 4 lon ++ to_le 4 (Z.of_nat (length tags))
  | PWay id refs tags _ => to_le 8 id ++ to_le 4 (Z.of_nat (length refs)) ++ to_le 4 (Z.of_nat (length tags))
  | PRelation id ms tags _ => to_le 8 id ++ to_le 4 (Z.of_nat (length ms)) ++ to_le 4 (Z.of_nat (length tags))
  end.

Definition tail_bytes (e : Packed) : bytes :=
  match e with
  | PNode _ _ _ tags _ => tag_bytes tags
  | PWay _ refs tags _ => ref_bytes refs ++ tag_bytes tags
  | PRelation _ ms tags _ => member_bytes ms ++ tag_bytes tags
  end.

Definition record_bytes (e : Packed) : bytes := head_bytes e ++ meta_bytes (packed_meta e) ++ tail_bytes e.

Lemma length_head_bytes e : length (head_bytes e) = meta_off (packed_kind e).
Proof. destruct e; cbn [head_bytes packed_kind]; rewrite !length_app, !length_to_le; done. Qed.

Lemma count_u32_ok {A} (l : list A) what k id : Z.of_nat (length l) <= u32_max -> count_u32 (length l) what k id = Ok (Z.of_nat (length l)).
Proof. intros. unfold count_u32, u32_try_from. by rewrite (proj2 (Z.leb_le _ _)). Qed.

Lemma arena_append_ok arena e : packed_ok e -> arena_append arena e = (arena ++ record_bytes e, Ok (length arena)).
Proof.
  intros (_ & _ & He). destruct e as [id lat lon tags m|id refs tags m|id ms tags m]; unfold record_bytes; cbn [arena_append head_bytes tail_bytes packed_meta].
  - destruct He as (_ & _ & Hn & Ht). unfold arena_append_node. rewrite count_u32_ok, append_tags_ok by done.
    by rewrite append_meta_bytes, <- !app_assoc.
  - destruct He as (Hr & _ & Hn & Ht). unfold arena_append_way. rewrite !count_u32_ok, append_tags_ok by done.
    fold (ref_bytes refs). by rewrite append_meta_bytes, <- !app_assoc.
  - destruct He as (Hr & _ & Hn & Ht). unfold arena_append_relation. rewrite !count_u32_ok, append_tags_ok by done.
    fold (member_bytes ms). by rewrite append_meta_bytes, <- !app_assoc.
Qed.

(** The metadata of a record. *)
Lemma read_meta_record e post strings :
  packed_ok e -> read_meta (record_bytes e ++ post) (meta_off (packed_kind e)) strings = meta_value strings (packed_meta e).
Proof.
  intros (_ & Hm & _). unfold record_bytes. rewrite <- !app_assoc, read_meta_skip by (rewrite length_head_bytes; lia).
  by rewrite length_head_bytes, Nat.sub_diag, read_meta_head.
Qed.

(** The version a record claims, read in the arena. *)
Lemma version_at_record pre e post :
  packed_ok e -> version_at (pre ++ record_bytes e ++ post) (length pre) (meta_off (packed_kind e)) =
    Some (version_claim (packed_meta e)).
Proof.
  intros (_ & Hm & _). unfold record_bytes. rewrite <- !app_assoc. rewrite (app_assoc pre).
  apply version_at_spec; [done|]. by rewrite length_app, length_head_bytes.
Qed.

(** Reads of the header fields. *)
Lemma head_then_tail e post : exists a, record_bytes e ++ post = a ++ tail_bytes e ++ post /\
  a = head_bytes e ++ meta_bytes (packed_meta e) /\ length a = (meta_off (packed_kind e) + META_LEN)%nat.
Proof.
  exists (head_bytes e ++ meta_bytes (packed_meta e)). split; [unfold record_bytes; by rewrite <- !app_assoc|]. split; [done|].
  by rewrite length_app, length_head_bytes, length_meta_bytes.
Qed.

(** The steps shared by the three kinds: [view_of] split into its parts. *)
Ltac split_view e Hv :=
  unfold view_of, e in Hv; cbn [packed_meta] in Hv;
  repeat match type of Hv with
  | (?x ≫= _) = Some _ => let E := fresh "E" in destruct x eqn:E; [cbn [mbind option_bind] in Hv|done]
  end; injection Hv as <-.

(** A fixed field of a record. *)
Ltac header_field :=
  unfold record_bytes; cbn [head_bytes]; rewrite <- !app_assoc; by field_read.

Lemma node_record id lat lon tags m post strings v :
  packed_ok (PNode id lat lon tags m) -> view_of strings (PNode id lat lon tags m) = Some v ->
  read_record Node (mkRef (record_bytes (PNode id lat lon tags m) ++ post) strings) = Some v.
Proof.
  intros Hok Hv. set (e := PNode id lat lon tags m) in *. pose proof (read_meta_record _ post strings Hok) as Hmeta.
  destruct (head_then_tail e post) as (a & Ea & _ & La). set (d := record_bytes e ++ post) in *.
  destruct Hok as (Hid & Hm & Hlat & Hlon & Hn & Ht). apply u32_len in Hn as Hn'. cbn [packed_id packed_meta e] in *. split_view e Hv.
  assert (read_i64_le d 0 = Some id) as F1 by (subst d e; header_field).
  assert (read_i32_le d 8 = Some lat) as F2 by (subst d e; header_field).
  assert (read_i32_le d 12 = Some lon) as F3 by (subst d e; header_field).
  assert (read_u32_le d 16 = Some (Z.of_nat (length tags))) as F4 by (subst d e; header_field).
  unfold read_record, node_id, node_decimicro_lat, node_decimicro_lon, node_metadata, node_tags, node_tag_count. cbn [cr_data cr_strings].
  cbn [e packed_kind packed_meta meta_off] in *. rewrite F1, F2, F3, F4, Hmeta, ?E. cbn [fmap option_fmap option_map mbind option_bind]. rewrite Nat2Z.id.
  unfold NODE_HEADER_LEN. rewrite <- La, Ea. unfold tags_of. cbn [mbind option_bind ti_remaining tail_bytes].
  by erewrite tags_drain.
Qed.

Lemma way_record id refs tags m post strings v :
  packed_ok (PWay id refs tags m) -> view_of strings (PWay id refs tags m) = Some v ->
  read_record Way (mkRef (record_bytes (PWay id refs tags m) ++ post) strings) = Some v.
Proof.
  intros Hok Hv. set (e := PWay id refs tags m) in *. pose proof (read_meta_record _ post strings Hok) as Hmeta.
  destruct (head_then_tail e post) as (a & Ea & _ & La). set (d := record_bytes e ++ post) in *.
  destruct Hok as (Hid & Hm & Hr & Hrefs & Hn & Ht). apply u32_len in Hn as Hn', Hr as Hr'. cbn [packed_id packed_meta e] in *. split_view e Hv.
  assert (read_i64_le d 0 = Some id) as F1 by (subst d e; header_field).
  assert (read_u32_le d 8 = Some (Z.of_nat (length refs))) as F2 by (subst d e; header_field).
  assert (read_u32_le d 12 = Some (Z.of_nat (length tags))) as F3 by (subst d e; header_field).
  unfold read_record, way_id, way_metadata, way_refs, way_tags, way_ref_count, way_tag_count. cbn [cr_data cr_strings].
  cbn [e packed_kind packed_meta meta_off tail_bytes] in *. rewrite F1, F2, F3, Hmeta, ?E. cbn [fmap option_fmap option_map mbind option_bind]. rewrite !Nat2Z.id.
  cbn [ri_remaining]. unfold WAY_HEADER_LEN. rewrite <- La, Ea, <- !app_assoc, refs_drain by done. cbn [mbind option_bind]. unfold tags_of. cbn [mbind option_bind ti_remaining].
  rewrite (app_assoc a), <- length_ref_bytes, <- length_app. by erewrite tags_drain.
Qed.

Lemma relation_record id ms tags m post strings v :
  packed_ok (PRelation id ms tags m) -> view_of strings (PRelation id ms tags m) = Some v ->
  read_record Relation (mkRef (record_bytes (PRelation id ms tags m) ++ post) strings) = Some v.
Proof.
  intros Hok Hv. set (e := PRelation id ms tags m) in *. pose proof (read_meta_record _ post strings Hok) as Hmeta.
  destruct (head_then_tail e post) as (a & Ea & _ & La). set (d := record_bytes e ++ post) in *.
  destruct Hok as (Hid & Hm & Hr & Hms & Hn & Ht). apply u32_len in Hn as Hn', Hr as Hr'. cbn [packed_id packed_meta e] in *. split_view e Hv.
  assert (read_i64_le d 0 = Some id) as F1 by (subst d e; header_field).
  assert (read_u32_le d 8 = Some (Z.of_nat (length ms))) as F2 by (subst d e; header_field).
  assert (read_u32_le d 12 = Some (Z.of_nat (length tags))) as F3 by (subst d e; header_field).
  unfold read_record, relation_id, relation_metadata, relation_members, relation_tags, relation_member_count, relation_tag_count. cbn [cr_data cr_strings].
  cbn [e packed_kind packed_meta meta_off tail_bytes] in *. rewrite F1, F2, F3, Hmeta, ?E. cbn [fmap option_fmap option_map mbind option_bind]. rewrite !Nat2Z.id.
  cbn [mi_remaining]. unfold RELATION_HEADER_LEN. rewrite <- La, Ea, <- !app_assoc. erewrite members_drain by done. cbn [mbind option_bind]. unfold tags_of. cbn [mbind option_bind ti_remaining].
  rewrite (app_assoc a), <- length_member_bytes, <- length_app. by erewrite tags_drain.
Qed.

(** A record reads back whatever follows it in the arena. *)
Lemma record_reads e post strings v :
  packed_ok e -> view_of strings e = Some v ->
  read_record (packed_kind e) (mkRef (record_bytes e ++ post) strings) = Some v.
Proof. destruct e; [apply node_record|apply way_record|apply relation_record]. Qed.
