(* ===== verification/OscOverlay.v ===== *)
(** * The change overlay (src/src/osc/parse.rs, [CompactDiffOverlay])

    Per element kind: an append-only arena of records, the live index from id to
    record offset, the deleted ids, and the version floors a delete or an
    unversioned change leaves.  [push_*] and [delete_*] are the only mutators;
    both refuse a version below the highest ever claimed for the id, unless
    regression is allowed.  The refinement theorem says what the overlay holds
    after any sequence of changes: for each object, its last change. *)

From S2P Require Import Prelude ElementKind Encode Utf8.
From S2P Require Import OscInterner VersionFloor OscArena.

(** The four containers of one kind ([node_arena], [node_index], ...). *)
Record KindState := mkKind {
  ks_arena : bytes; ks_index : gmap Z nat; ks_deleted : gset Z; ks_floors : gmap Z Z }.

Record CompactDiffOverlay := mkOverlay {
  ov_nodes : KindState; ov_ways : KindState; ov_relations : KindState;
  ov_interner : StringInterner; ov_allow_version_regression : bool }.

Definition kind_empty : KindState := mkKind [] ∅ ∅ ∅.

Definition overlay_new : CompactDiffOverlay := mkOverlay kind_empty kind_empty kind_empty interner_new false.

Definition allow_version_regression (o : CompactDiffOverlay) (allow : bool) : CompactDiffOverlay :=
  mkOverlay (ov_nodes o) (ov_ways o) (ov_relations o) (ov_interner o) allow.

(** [node_store], [way_store], [relation_store] *)
Definition kind_store (o : CompactDiffOverlay) (k : ElementKind) : KindState :=
  match k with Node => ov_nodes o | Way => ov_ways o | Relation => ov_relations o end.

Definition set_store (o : CompactDiffOverlay) (k : ElementKind) (s : KindState) : CompactDiffOverlay :=
  match k with
  | Node => mkOverlay s (ov_ways o) (ov_relations o) (ov_interner o) (ov_allow_version_regression o)
  | Way => mkOverlay (ov_nodes o) s (ov_relations o) (ov_interner o) (ov_allow_version_regression o)
  | Relation => mkOverlay (ov_nodes o) (ov_ways o) s (ov_interner o) (ov_allow_version_regression o)
  end.

(** [KindStore::stored_version]; the outer [None] is a panic. *)
Definition stored_version (store : KindState) (moff : nat) (id : Z) : option (option Z) :=
  live ← match ks_index store !! id with
         | Some offset => version_at (ks_arena store) offset moff
         | None => Some None
         end;
  let dead := ks_floors store !! id in
  Some (match live, dead with
        | Some a, Some b => Some (Z.max a b)
        | Some a, None => Some a
        | None, b => b
        end).

Definition check_version_advance (o : CompactDiffOverlay) (kind : ElementKind) (id incoming_version : Z)
  : result OscError unit :=
  if ov_allow_version_regression o then Ok tt
  else match stored_version (kind_store o kind) (meta_off kind) id with
       | None => Err OscPanic
       | Some stored =>
           match floor_admit (floor_new stored) (Some incoming_version) with
           | Ok _ => Ok tt
           | Err stored => Err (VersionRegression kind id incoming_version stored)
           end
       end.

Definition raise_floor (floors : gmap Z Z) (id : Z) (carried : option Z) (meta : ArenaMeta) : gmap Z Z :=
  let entry highest := <[id := match floors !! id with Some v => Z.max v highest | None => highest end]> floors in
  match carried, version_claim meta with
  | Some a, Some b => entry (Z.max a b)
  | Some a, None | None, Some a => entry a
  | None, None => floors
  end.

Definition set_floors (s : KindState) (floors : gmap Z Z) : KindState :=
  mkKind (ks_arena s) (ks_index s) (ks_deleted s) floors.

(** [push_node], [push_way] and [push_relation]: the gate, the append, then the
    index and the deleted set. *)
Definition push (o : CompactDiffOverlay) (e : Packed) : CompactDiffOverlay * result OscError unit :=
  let kind := packed_kind e in
  let id := packed_id e in
  let meta := packed_meta e in
  let gate :=
    match version_claim meta with
    | Some claim => (o, check_version_advance o kind id claim)
    | None =>
        if negb (ov_allow_version_regression o) then
          match stored_version (kind_store o kind) (meta_off kind) id with
          | None => (o, Err OscPanic)
          | Some carried =>
              let s := kind_store o kind in
              (set_store o kind (set_floors s (raise_floor (ks_floors s) id carried meta)), Ok tt)
          end
        else (o, Ok tt)
    end in
  match gate with
  | (o, Err e) => (o, Err e)
  | (o, Ok _) =>
      let s := kind_store o kind in
      let '(arena, r) := arena_append (ks_arena s) e in
      match r with
      | Err e => (set_store o kind (mkKind arena (ks_index s) (ks_deleted s) (ks_floors s)), Err e)
      | Ok offset =>
          (set_store o kind (mkKind arena (<[id := offset]> (ks_index s)) (ks_deleted s ∖ {[id]}) (ks_floors s)), Ok tt)
      end
  end.

Definition push_node (o : CompactDiffOverlay) (id lat lon : Z) (tags : list (Z * bytes)) (meta : ArenaMeta) :=
  push o (PNode id lat lon tags meta).
Definition push_way (o : CompactDiffOverlay) (id : Z) (refs : list Z) (tags : list (Z * bytes)) (meta : ArenaMeta) :=
  push o (PWay id refs tags meta).
Definition push_relation (o : CompactDiffOverlay) (id : Z) (members : list (Z * Z * Z)) (tags : list (Z * bytes))
  (meta : ArenaMeta) := push o (PRelation id members tags meta).

(** [delete_node], [delete_way] and [delete_relation] *)
Definition delete_element (o : CompactDiffOverlay) (kind : ElementKind) (id : Z) (meta : ArenaMeta)
  : CompactDiffOverlay * result OscError unit :=
  let gate := match version_claim meta with
              | Some claim => check_version_advance o kind id claim
              | None => Ok tt
              end in
  match gate with
  | Err e => (o, Err e)
  | Ok _ =>
      let s := kind_store o kind in
      match stored_version s (meta_off kind) id with
      | None => (o, Err OscPanic)
      | Some carried =>
          (set_store o kind (mkKind (ks_arena s) (delete id (ks_index s)) ({[id]} ∪ ks_deleted s)
                               (raise_floor (ks_floors s) id carried meta)), Ok tt)
      end
  end.

Definition overlay_intern (o : CompactDiffOverlay) (s : bytes) : result OscError (Z * CompactDiffOverlay) :=
  match intern (ov_interner o) s with
  | Ok (id, t) => Ok (id, mkOverlay (ov_nodes o) (ov_ways o) (ov_relations o) t (ov_allow_version_regression o))
  | Err e => Err (Intern e)
  end.

(** [get_node], [get_way], [get_relation]: [&arena[offset..]], a panic when out of range *)
Definition get (o : CompactDiffOverlay) (k : ElementKind) (id : Z) : option (option CompactRef) :=
  let s := kind_store o k in
  match ks_index s !! id with
  | None => Some None
  | Some offset =>
      data ← slice (ks_arena s) offset (length (ks_arena s));
      Some (Some (mkRef data (in_strings (ov_interner o))))
  end.

Definition has_element (o : CompactDiffOverlay) (k : ElementKind) (id : Z) : bool :=
  bool_decide (is_Some (ks_index (kind_store o k) !! id)).

Definition is_deleted (o : CompactDiffOverlay) (k : ElementKind) (id : Z) : bool :=
  bool_decide (id ∈ ks_deleted (kind_store o k)).

Definition element_count (o : CompactDiffOverlay) (k : ElementKind) : nat := size (ks_index (kind_store o k)).

Definition overlay_is_empty (o : CompactDiffOverlay) : bool :=
  forallb (fun k => bool_decide (ks_index (kind_store o k) = ∅) && bool_decide (ks_deleted (kind_store o k) = ∅))
    [Node; Way; Relation].

(** ** Sequences of changes *)

Inductive Change :=
| Upsert (e : Packed)
| Delete (k : ElementKind) (id : Z) (meta : ArenaMeta).

Definition change_key (c : Change) : ElementKind * Z :=
  match c with Upsert e => (packed_kind e, packed_id e) | Delete k id _ => (k, id) end.
Definition change_meta (c : Change) : ArenaMeta :=
  match c with Upsert e => packed_meta e | Delete _ _ m => m end.
Definition change_claim (c : Change) : option Z := version_claim (change_meta c).

Definition apply_change (o : CompactDiffOverlay) (c : Change) : CompactDiffOverlay * result OscError unit :=
  match c with Upsert e => push o e | Delete k id meta => delete_element o k id meta end.

(** The parse: the changes in input order, up to the first error. *)
Fixpoint apply_all (o : CompactDiffOverlay) (cs : list Change) : CompactDiffOverlay * result OscError unit :=
  match cs with
  | [] => (o, Ok tt)
  | c :: cs => match apply_change o c with (o, Ok _) => apply_all o cs | (o, Err e) => (o, Err e) end
  end.

Definition change_ok (c : Change) : Prop := match c with Upsert e => packed_ok e | Delete _ _ _ => True end.

(** ** What the overlay holds *)

Abbreviation last_change k id cs := (last (history change_key (k, id) cs)).

(** The object's last change, as its kind's containers hold it. *)
Definition object_says (s : KindState) (c : option Change) (id : Z) : Prop :=
  match c with
  | None => ks_index s !! id = None /\ id ∉ ks_deleted s
  | Some (Delete _ _ _) => ks_index s !! id = None /\ id ∈ ks_deleted s
  | Some (Upsert e) =>
      (exists pre post, ks_index s !! id = Some (length pre) /\ ks_arena s = pre ++ record_bytes e ++ post) /\
      id ∉ ks_deleted s
  end.

Record overlay_is (o : CompactDiffOverlay) (cs : list Change) : Prop := {
  oi_ok : Forall change_ok cs;
  oi_objects : forall k id, object_says (kind_store o k) (last_change k id cs) id;
  oi_floors : ov_allow_version_regression o = false -> forall k id,
    stored_version (kind_store o k) (meta_off k) id = Some (object_floor change_key change_claim (k, id) cs);
}.

Definition live_claim (c : option Change) : option Z :=
  match c with Some (Upsert e) => version_claim (packed_meta e) | _ => None end.

Lemma kind_store_set o k s k' : kind_store (set_store o k s) k' = if decide (k' = k) then s else kind_store o k'.
Proof. by destruct k, k'. Qed.

Lemma last_in k id cs c : last_change k id cs = Some c -> change_key c = (k, id) /\ c ∈ cs.
Proof. intros Hl%last_Some_elem_of. unfold history in Hl. by apply list_elem_of_filter in Hl. Qed.

(** The stored version is the live record's claim and the floor, combined. *)
Lemma stored_says s c k id :
  object_says s c id -> (forall c', c = Some c' -> change_key c' = (k, id) /\ change_ok c') ->
  stored_version s (meta_off k) id = Some (floor_raise (live_claim c) (ks_floors s !! id)).
Proof.
  intros Hs Hc. unfold stored_version. destruct c as [[e|k' id' m]|]; cbn [object_says live_claim] in *.
  - destruct Hs as [(pre & post & -> & ->) _]. destruct (Hc _ eq_refl) as [Hk Hok]. cbn in Hk, Hok. simplify_eq.
    rewrite version_at_record by done. cbn [mbind option_bind]. by destruct (version_claim _), (ks_floors s !! _).
  - destruct Hs as [-> _]. cbn [mbind option_bind]. by destruct (ks_floors s !! id).
  - destruct Hs as [-> _]. cbn [mbind option_bind]. by destruct (ks_floors s !! id).
Qed.

Lemma raise_floor_lookup fl id carried m id' :
  raise_floor fl id carried m !! id' =
    if decide (id' = id) then floor_raise (fl !! id) (floor_raise carried (version_claim m)) else fl !! id'.
Proof.
  unfold raise_floor. destruct (decide (id' = id)) as [->|Hne].
  - destruct carried, (version_claim m); cbn; rewrite ?lookup_insert_eq; by destruct (fl !! id).
  - destruct carried, (version_claim m); cbn; rewrite ?lookup_insert_ne by done; done.
Qed.

(** Objects other than the changed one are as they were. *)
Lemma object_says_other s s' c id id' :
  id' <> id -> object_says s c id' ->
  (exists r, ks_arena s' = ks_arena s ++ r) -> ks_index s' !! id' = ks_index s !! id' ->
  (id' ∈ ks_deleted s' <-> id' ∈ ks_deleted s) -> object_says s' c id'.
Proof.
  intros Hne Hs [r Ha] Hi Hd. destruct c as [[e|k0 id0 m]|]; cbn [object_says] in *; rewrite ?Hi, ?Hd; [|done..].
  destruct Hs as [(pre & post & Hx & Hy) Hz]. split; [|done]. exists pre, (post ++ r). by rewrite Ha, Hy, <- !app_assoc.
Qed.

(** One applied change: only its kind's containers move, and they come to say
    the change of its object. *)
Record steps (o o' : CompactDiffOverlay) (c : Change) : Prop := {
  sp_kind : let '(k, id) := change_key c in
    exists s', o' = set_store o k s' /\ object_says s' (Some c) id /\
      (forall id' d, id' <> id -> object_says (kind_store o k) d id' -> object_says s' d id') /\
      (forall id', id' <> id -> ks_floors s' !! id' = ks_floors (kind_store o k) !! id') /\
      (ov_allow_version_regression o = false -> forall F,
        stored_version (kind_store o k) (meta_off k) id = Some F -> floor_admit F (change_claim c) = Ok tt ->
        floor_raise (live_claim (Some c)) (ks_floors s' !! id) = floor_raise F (change_claim c));
}.

Lemma floor_below live dead F v :
  F = floor_raise live dead -> floor_admit F (Some v) = Ok tt -> floor_raise (Some v) dead = floor_raise F (Some v).
Proof.
  intros ->. destruct live as [a|], dead as [b|]; cbn [floor_raise floor_admit];
    intros Ha; try (destruct (v <? _) eqn:E in Ha; [done|]); try done; f_equal; lia.
Qed.

Lemma floor_absorb live dead F c : F = floor_raise live dead -> floor_raise dead (floor_raise F c) = floor_raise F c.
Proof. intros ->. destruct live, dead, c; cbn [floor_raise]; f_equal; lia. Qed.

Lemma overlay_step o o' c cs :
  overlay_is o cs -> change_ok c -> steps o o' c ->
  (ov_allow_version_regression o = false -> floor_admit (object_floor change_key change_claim (change_key c) cs) (change_claim c) = Ok tt) ->
  overlay_is o' (cs ++ [c]).
Proof.
  intros Hi Hc [Hs] Hadm. destruct (change_key c) as [k id] eqn:Ek. destruct Hs as (s' & -> & Hself & Hother & Hfl & Hraise).
  assert (Forall change_ok (cs ++ [c])) as Hok by (apply Forall_app; split; [apply Hi|by constructor]).
  assert (forall k' id', object_says (kind_store (set_store o k s') k') (last_change k' id' (cs ++ [c])) id') as Hobj.
  { intros k' id'. rewrite kind_store_set. destruct (decide ((k', id') = (k, id))) as [[= -> ->]|Hne].
    - rewrite decide_True, <- Ek, history_self, last_snoc by done. done.
    - rewrite history_other by congruence. destruct (decide (k' = k)) as [->|]; [|apply Hi].
      apply Hother; [congruence|apply Hi]. }
  assert (forall k' id' c', last_change k' id' (cs ++ [c]) = Some c' -> change_key c' = (k', id') /\ change_ok c') as Hl.
  { intros k' id' c' Hc'. apply last_in in Hc' as [Hk' Hin]. split; [done|by eapply Forall_forall in Hok]. }
  split; [done|done|]. intros Hallow k' id'.
  assert (ov_allow_version_regression o = false) as Hal by (by destruct k). rewrite (stored_says _ _ _ _ (Hobj k' id') (Hl k' id')), kind_store_set. f_equal.
  pose proof (oi_floors _ _ Hi Hal) as HF. destruct (decide ((k', id') = (k, id))) as [[= -> ->]|Hne].
  - rewrite decide_True, <- Ek, history_self, last_snoc, object_floor_self by done. rewrite Ek. apply Hraise; [done|apply HF|by apply Hadm].
  - rewrite object_floor_other, history_other by congruence. specialize (HF k' id').
    erewrite stored_says in HF; [|apply (oi_objects _ _ Hi)|intros c' Hc'; apply last_in in Hc' as [? Hin]; split; [done|eapply Forall_forall in Hin; [exact Hin|apply Hi]]].
    injection HF as <-. f_equal. destruct (decide (k' = k)) as [->|]; [|done]. apply Hfl. congruence.
Qed.

Lemma stored_total o cs k id :
  overlay_is o cs -> stored_version (kind_store o k) (meta_off k) id =
    Some (floor_raise (live_claim (last_change k id cs)) (ks_floors (kind_store o k) !! id)).
Proof.
  intros Hi. apply stored_says; [apply (oi_objects _ _ Hi)|]. intros c Hc. apply last_in in Hc as [? Hin].
  split; [done|]. eapply Forall_forall in Hin; [exact Hin|apply Hi].
Qed.

(** The gate passes exactly the admitted claims. *)
Lemma check_spec o cs k id v :
  overlay_is o cs ->
  check_version_advance o k id v =
    if ov_allow_version_regression o then Ok tt
    else match floor_admit (object_floor change_key change_claim (k, id) cs) (Some v) with
         | Ok _ => Ok tt
         | Err held => Err (VersionRegression k id v held)
         end.
Proof.
  intros Hi. unfold check_version_advance. destruct (ov_allow_version_regression o) eqn:Ea; [done|].
  by rewrite (oi_floors _ _ Hi Ea).
Qed.

Definition admitted_change (o : CompactDiffOverlay) (cs : list Change) (c : Change) : Prop :=
  ov_allow_version_regression o = true \/ floor_admit (object_floor change_key change_claim (change_key c) cs) (change_claim c) = Ok tt.

Lemma gate_ok o cs c v :
  overlay_is o cs -> admitted_change o cs c -> change_claim c = Some v ->
  let '(k, id) := change_key c in check_version_advance o k id v = Ok tt.
Proof.
  intros Hi Hadm Hv. unfold admitted_change in Hadm. destruct (change_key c) as [k id]. rewrite (check_spec _ cs) by done.
  destruct Hadm as [->|Ha]; [done|]. rewrite Hv in Ha. rewrite Ha. by destruct (ov_allow_version_regression o).
Qed.

Lemma set_floors_id s : set_floors s (ks_floors s) = s.
Proof. by destruct s. Qed.

Lemma push_steps o cs e :
  overlay_is o cs -> packed_ok e -> admitted_change o cs (Upsert e) ->
  exists o', push o e = (o', Ok tt) /\ steps o o' (Upsert e).
Proof.
  intros Hi Hok Hadm. set (k := packed_kind e). set (id := packed_id e).
  pose proof (stored_total o cs k id Hi) as Hst. set (s := kind_store o k) in *.
  assert (forall fl o1, kind_store o1 k = set_floors s fl -> (forall x, set_store o1 k x = set_store o k x) ->
    let s' := mkKind (ks_arena s ++ record_bytes e) (<[id := length (ks_arena s)]> (ks_index s)) (ks_deleted s ∖ {[id]}) fl in
    (let s := kind_store o1 k in
     let '(arena, r) := arena_append (ks_arena s) e in
     match r with
     | Err e => (set_store o1 k (mkKind arena (ks_index s) (ks_deleted s) (ks_floors s)), Err e)
     | Ok offset =>
       (set_store o1 k (mkKind arena (<[id := offset]> (ks_index s)) (ks_deleted s ∖ {[id]}) (ks_floors s)), Ok tt)
     end) = (set_store o k s', Ok tt)) as Happend.
  { intros fl o1 -> Hset s'. cbn [set_floors ks_arena ks_index ks_deleted ks_floors]. rewrite arena_append_ok by done. by rewrite Hset. }
  assert (forall fl, (forall id', id' <> id -> fl !! id' = ks_floors s !! id') ->
    (ov_allow_version_regression o = false -> forall F, stored_version s (meta_off k) id = Some F -> floor_admit F (version_claim (packed_meta e)) = Ok tt ->
        floor_raise (version_claim (packed_meta e)) (fl !! id) = floor_raise F (version_claim (packed_meta e))) ->
    steps o (set_store o k (mkKind (ks_arena s ++ record_bytes e) (<[id := length (ks_arena s)]> (ks_index s)) (ks_deleted s ∖ {[id]}) fl)) (Upsert e)) as Hsteps.
  { intros fl Hfl Hr. split. cbn [change_key]. fold k id s. eexists. split; [done|]. split_and!; [| |exact Hfl|exact Hr].
    - cbn [object_says]. split; [exists (ks_arena s), []|set_solver]. cbn. by rewrite lookup_insert_eq, app_nil_r.
    - intros id' d Hne Hd. apply (object_says_other s _ d id id' Hne Hd); [by eexists|by apply lookup_insert_ne|set_solver]. }
  pose proof (gate_ok o cs (Upsert e)) as Hgate. cbn [change_key] in Hgate. fold k id in Hgate.
  unfold push. fold k id. destruct (version_claim (packed_meta e)) as [v|] eqn:Ev.
  - rewrite (Hgate v Hi Hadm Ev). eexists. split; [apply (Happend (ks_floors s) o); [by rewrite set_floors_id|done]|].
    apply Hsteps; [done|]. intros _ F HF Ha. rewrite Hst in HF. injection HF as <-. by eapply floor_below.
  - destruct (ov_allow_version_regression o) eqn:Eal; cbn [negb].
    + eexists. split; [apply (Happend (ks_floors s) o); [by rewrite set_floors_id|done]|]. by apply Hsteps.
    + fold s. rewrite Hst. eexists. split; [apply Happend; [by rewrite kind_store_set, decide_True|by destruct k]|].
      apply Hsteps; [intros id' Hne; by rewrite raise_floor_lookup, decide_False|]. intros _ F HF _. rewrite HF in Hst. injection Hst as ->.
      rewrite raise_floor_lookup, decide_True, Ev by done. cbn [floor_raise]. rewrite floor_raise_none. by eapply (floor_absorb _ _ _ None).
Qed.

Lemma delete_steps o cs k id meta :
  overlay_is o cs -> admitted_change o cs (Delete k id meta) ->
  exists o', delete_element o k id meta = (o', Ok tt) /\ steps o o' (Delete k id meta).
Proof.
  intros Hi Hadm. pose proof (stored_total o cs k id Hi) as Hst. set (s := kind_store o k) in *. unfold delete_element.
  assert (match version_claim meta with Some claim => check_version_advance o k id claim | None => Ok tt end = Ok tt) as ->.
  { destruct (version_claim meta) as [v|] eqn:Ev; [|done]. by apply (gate_ok o cs (Delete k id meta) v Hi Hadm). }
  fold s. rewrite Hst. eexists. split; [done|]. split. cbn [change_key]. fold s. eexists. split; [done|]. split_and!.
  - cbn [object_says ks_index ks_deleted]. rewrite lookup_delete_eq. split; [done|set_solver].
  - intros id' d Hne Hd. apply (object_says_other s _ d id id' Hne Hd); [exists []; by rewrite app_nil_r|by apply lookup_delete_ne|set_solver].
  - intros id' Hne. cbn [ks_floors]. by rewrite raise_floor_lookup, decide_False.
  - intros _ F HF _. rewrite HF in Hst. injection Hst as ->. cbn [live_claim ks_floors].
    rewrite raise_floor_lookup, decide_True by done. unfold change_claim. cbn [change_meta].
    rewrite floor_raise_none. by eapply floor_absorb.
Qed.

Lemma steps_keep o o' c : steps o o' c -> ov_interner o' = ov_interner o /\ ov_allow_version_regression o' = ov_allow_version_regression o.
Proof. intros [Hs]. destruct (change_key c) as [k id]. destruct Hs as (s' & -> & _). by destruct k. Qed.

Lemma apply_change_admitted o cs c :
  overlay_is o cs -> change_ok c -> admitted_change o cs c ->
  exists o', apply_change o c = (o', Ok tt) /\ overlay_is o' (cs ++ [c]) /\
    ov_interner o' = ov_interner o /\ ov_allow_version_regression o' = ov_allow_version_regression o.
Proof.
  intros Hi Hc Hadm. assert (exists o', apply_change o c = (o', Ok tt) /\ steps o o' c) as (o' & E & Hs).
  { destruct c; cbn [apply_change]; [by eapply push_steps|by eapply delete_steps]. }
  exists o'. split; [done|]. split; [|by eapply steps_keep]. apply (overlay_step o o' c cs Hi Hc Hs).
  intros Hal. destruct Hadm as [Ht|Ht]; congruence.
Qed.

Lemma apply_change_refused o cs c v held :
  overlay_is o cs -> ov_allow_version_regression o = false -> change_claim c = Some v ->
  floor_admit (object_floor change_key change_claim (change_key c) cs) (Some v) = Err held ->
  apply_change o c = (o, Err (VersionRegression (change_key c).1 (change_key c).2 v held)).
Proof.
  intros Hi Hal Hv Hadm. assert (check_version_advance o (change_key c).1 (change_key c).2 v =
    Err (VersionRegression (change_key c).1 (change_key c).2 v held)) as Hchk.
  { rewrite (check_spec _ cs) by done. by rewrite Hal, <- surjective_pairing, Hadm. }
  destruct c as [e|k id m]; cbn [change_key fst snd] in *; unfold change_claim in Hv; cbn [change_meta] in Hv; cbn [apply_change];
    [unfold push|unfold delete_element]; by rewrite Hv, Hchk.
Qed.

Lemma apply_all_serial o before rest :
  overlay_is o before -> Forall change_ok rest -> ov_allow_version_regression o = false ->
  match serial_from change_key change_claim before rest with
  | None => exists o', apply_all o rest = (o', Ok tt) /\ overlay_is o' (before ++ rest) /\ ov_interner o' = ov_interner o
  | Some (n, c, v, held) =>
      exists o', apply_all o rest = (o', Err (VersionRegression (change_key c).1 (change_key c).2 v held)) /\
        overlay_is o' (take n (before ++ rest)) /\ ov_interner o' = ov_interner o
  end.
Proof.
  revert o before. induction rest as [|c rest IH]; intros o before Hi Hok Hal; cbn [serial_from apply_all].
  { exists o. by rewrite app_nil_r. }
  apply Forall_cons in Hok as [Hc Hok].
  destruct (floor_admit (object_floor change_key change_claim (change_key c) before) (change_claim c)) as [[]|held] eqn:Ea.
  - destruct (apply_change_admitted o before c Hi Hc ltac:(by right)) as (o1 & E & Hi1 & Hin & Hal1). rewrite E.
    specialize (IH o1 (before ++ [c]) Hi1 Hok ltac:(congruence)). rewrite <- app_assoc, Hin in IH. by destruct (change_claim c).
  - destruct (change_claim c) as [v|] eqn:Ev; [|done]. rewrite (apply_change_refused o before c v held Hi Hal Ev Ea).
    exists o. split; [done|]. by rewrite take_app_length.
Qed.

Lemma apply_all_allowed o before rest :
  overlay_is o before -> Forall change_ok rest -> ov_allow_version_regression o = true ->
  exists o', apply_all o rest = (o', Ok tt) /\ overlay_is o' (before ++ rest) /\ ov_interner o' = ov_interner o.
Proof.
  revert o before. induction rest as [|c rest IH]; intros o before Hi Hok Hal; cbn [apply_all].
  { exists o. by rewrite app_nil_r. }
  apply Forall_cons in Hok as [Hc Hok]. destruct (apply_change_admitted o before c Hi Hc ltac:(by left)) as (o1 & E & Hi1 & Hin & Hal1).
  rewrite E. destruct (IH o1 (before ++ [c]) Hi1 Hok ltac:(congruence)) as (o' & E' & Hi' & Hin').
  exists o'. rewrite E', <- app_assoc in *. by rewrite Hin'.
Qed.

(** ** The promise *)

(** What a reader of the overlay sees of every object. *)
Definition overlay_shows (o : CompactDiffOverlay) (cs : list Change) : Prop :=
  forall k id,
    match last_change k id cs with
    | None => get o k id = Some None /\ is_deleted o k id = false
    | Some (Delete _ _ _) => get o k id = Some None /\ is_deleted o k id = true
    | Some (Upsert e) =>
        is_deleted o k id = false /\ exists r, get o k id = Some (Some r) /\
          forall v, view_of (in_strings (ov_interner o)) e = Some v -> read_record k r = Some v
    end.

Lemma overlay_is_shows o cs : overlay_is o cs -> overlay_shows o cs.
Proof.
  intros Hi k id. pose proof (oi_objects _ _ Hi k id) as Ho. unfold get, is_deleted.
  destruct (last_change k id cs) as [[e|k0 id0 m]|] eqn:El; cbn [object_says] in Ho.
  - destruct Ho as [(pre & post & Hx & Hy) Hd]. rewrite bool_decide_false by done. split; [done|].
    apply last_in in El as [[= <- <-] Hin]. eapply Forall_forall in Hin as Hok; [|apply Hi]. cbn in Hok.
    rewrite Hx, Hy. exists (mkRef (record_bytes e ++ post) (in_strings (ov_interner o))). split.
    + assert (slice (pre ++ record_bytes e ++ post) (length pre) (length (pre ++ record_bytes e ++ post)) = Some (record_bytes e ++ post)) as ->; [|done].
      pose proof (slice_mid pre (record_bytes e ++ post) []) as Hm. rewrite app_nil_r in Hm. by rewrite length_app.
    + intros v Hv. by apply record_reads.
  - destruct Ho as [-> Hd]. by rewrite bool_decide_true.
  - destruct Ho as [-> Hd]. by rewrite bool_decide_false.
Qed.

Definition overlay_over (t : StringInterner) (allow : bool) : CompactDiffOverlay :=
  mkOverlay kind_empty kind_empty kind_empty t allow.

Lemma overlay_over_is t allow : overlay_is (overlay_over t allow) [].
Proof. split; [constructor|by intros []|by intros _ []]. Qed.

(** A parse that ends well holds its changes. *)
Lemma apply_all_is t allow cs o : Forall change_ok cs -> apply_all (overlay_over t allow) cs = (o, Ok tt) -> overlay_is o cs.
Proof.
  intros Hok Hrun. destruct allow.
  - destruct (apply_all_allowed _ [] cs (overlay_over_is t true) Hok eq_refl) as (o' & E & Hi & _). rewrite E in Hrun. by simplify_eq.
  - pose proof (apply_all_serial _ [] cs (overlay_over_is t false) Hok eq_refl) as Hs.
    destruct (serial_from _ _ _ _) as [[[[n c] v] held]|]; destruct Hs as (o' & E & Hi & _); rewrite E in Hrun; by simplify_eq.
Qed.

(** C29. The overlay keeps each object's last change: after any changes, in
    order, the gate refuses exactly the first change whose version is below the
    highest version its object's earlier changes claimed (deletes and changes
    before unversioned ones included), naming both versions; otherwise every
    object whose last change is an upsert is live and its record, read in place,
    is that element with its strings, every object whose last change is a
    delete is deleted and not live, and no other object is either.  With
    regression allowed nothing is refused and the last change still wins. *)
Theorem overlay_keeps_last_change (t : StringInterner) (cs : list Change) :
  Forall change_ok cs ->
  match serial change_key change_claim cs with
  | None => exists o, apply_all (overlay_over t false) cs = (o, Ok tt) /\ overlay_shows o cs
  | Some (n, c, v, held) =>
      exists o, apply_all (overlay_over t false) cs =
        (o, Err (VersionRegression (change_key c).1 (change_key c).2 v held)) /\ overlay_shows o (take n cs)
  end /\
  exists o, apply_all (overlay_over t true) cs = (o, Ok tt) /\ overlay_shows o cs.
Proof.
  intros Hok. split.
  - pose proof (apply_all_serial _ [] cs (overlay_over_is t false) Hok eq_refl) as Hs. unfold serial.
    destruct (serial_from _ _ _ _) as [[[[n c] v] held]|]; destruct Hs as (o & E & Hi & _); exists o; (split; [done|]); by apply overlay_is_shows.
  - destruct (apply_all_allowed _ [] cs (overlay_over_is t true) Hok eq_refl) as (o & E & Hi & _).
    exists o. split; [done|]. by apply overlay_is_shows.
Qed.

(** ** A concrete sequence *)

Definition meta_v (v : Z) : ArenaMeta := mkArenaMeta 9 v 0 0 0 0.

(** Create, delete, an unversioned re-create, then a stale change. *)
Definition sample_changes : list Change :=
  [Upsert (PNode 7 1 2 [(0, [104])] (meta_v 3)); Delete Node 7 (meta_v 4);
   Upsert (PNode 7 5 6 [] ArenaMeta_default); Upsert (PNode 7 8 9 [] (meta_v 2))].

Lemma sample_changes_ok : Forall change_ok sample_changes.
Proof.
  repeat (constructor; [try done; repeat split; cbn; try lia; repeat constructor; try done; cbn; unfold is_u, utf8; try lia|]); constructor.
Qed.

Lemma overlay_keeps_last_change_witness :
  (exists o, apply_all (overlay_over interner_new false) sample_changes = (o, Err (VersionRegression Node 7 2 4)) /\
    overlay_shows o (take 3 sample_changes)) /\
  exists o, apply_all (overlay_over interner_new true) sample_changes = (o, Ok tt) /\ overlay_shows o sample_changes.
Proof. exact (overlay_keeps_last_change interner_new sample_changes sample_changes_ok). Defined.
