(* ===== verification/OscXml.v ===== *)
(** * Reading an OSC document (src/src/osc/xml_parse.rs)

    The one state machine that reads a change document: [drive_osc] follows the
    XML reader's events through the hierarchy (root, sections, objects, their
    children), refuses what is misplaced and checks that the document is whole;
    an [OscSink] turns what it frames into data.  The XML crate is a parameter
    ([QuickXml]): the events it yields are the driver's input, and a tag's
    attributes and their normalized values are functions of the tag's content.

    A fallible operation on a sink returns the sink as it left it, with its
    result. *)

From S2P Require Import Prelude StdText Timestamp ElementKind Encode Utf8.
From S2P Require Import OscInterner OscArena OscOverlay.

(** ** The XML reader *)

(** A start tag: its content, split after the name. *)
Record BytesStart := mkStart { tag_name : bytes; tag_rest : bytes }.

Definition content (e : BytesStart) : bytes := tag_name e ++ tag_rest e.

(** [BytesStart::from_content] *)
Definition from_content (c : bytes) (name_len : nat) : BytesStart := mkStart (take name_len c) (drop name_len c).

(** The crate's attribute iterator (key and raw value, or a malformed
    attribute) and [normalized_value]; and the conversion of a coordinate's text
    to decimicrodegrees, which is floating-point arithmetic: [None] when the
    text is not a number or out of range. *)
Class QuickXml := {
  XmlError : Type;
  attributes : BytesStart -> list (result XmlError (bytes * bytes));
  normalize : bytes -> result XmlError bytes;
  degrees_e7 : string -> bytes -> option Z }.

Inductive OscAction := ActCreate | ActModify | ActDelete.

#[export] Instance OscAction_eq_dec : EqDecision OscAction.
Proof. solve_decision. Defined.

Definition action_for (name : bytes) : option OscAction :=
  if decide (name = bs "create") then Some ActCreate
  else if decide (name = bs "modify") then Some ActModify
  else if decide (name = bs "delete") then Some ActDelete
  else None.

(** [ElementKind::from_name] on a tag's name *)
Definition name_kind (name : bytes) : option ElementKind :=
  if decide (name = bs "node") then Some Node
  else if decide (name = bs "way") then Some Way
  else if decide (name = bs "relation") then Some Relation
  else None.

Inductive MetaField := FVersion | FTimestamp | FChangeset | FUid | FUser | FVisible.

(** Where a misplaced element was found. *)
Inductive Parent := InElement (k : ElementKind) | InSection (a : OscAction) | InRoot | AtRoot | InLeaf | InOther | AfterRoot.

Section OscXml.
Context `{QuickXml}.

Inductive Fault :=
| MalformedXml (x : XmlError)
| MalformedAttribute (x : XmlError) (name : string)
| MissingAttr (name : string)
| NotInteger (name : string)
| UnknownMember (type : bytes)
| MetaUnparsable (field : MetaField) (text : bytes)
| BadTimestamp (text : bytes) (e : TimestampError)
| CoordMissing (id : Z) (name : string) (e : Fault)
| CoordUnusable (id : Z) (name : string)
| OverlayRefused (e : OscError)
| NoStagedObject
| Misplaced (name : bytes) (parent : Parent)
| OutsideSection (kind : ElementKind) (id : option Z)
| TruncatedDocument
| ReadFailed
| Halted
| SliceOutOfRange
| SealFailed
| FaultCancelled.

(** An [Error]: what went wrong, and whether it names the input file. *)
Record Error := mkError { er_fault : Fault; er_located : bool }.

Definition unlocated (f : Fault) : Error := mkError f false.

(** [Error::locate_blob]: a cancellation stays unlocated *)
Definition input_fault (e : Error) : Error :=
  match er_fault e with FaultCancelled => e | f => mkError f true end.

Definition located (f : Fault) : Error := input_fault (unlocated f).

(** ** Attributes *)

(** The first attribute called [name], its value read by [read]; [absent] when
    the tag has none.  A malformed attribute met on the way is an error. *)
Fixpoint find_attr {A} (attrs : list (result XmlError (bytes * bytes))) (name : string)
    (bad : XmlError -> Fault) (read : bytes -> result Error A) (absent : result Error A) : result Error A :=
  match attrs with
  | [] => absent
  | Err x :: _ => Err (unlocated (bad x))
  | Ok (key, value) :: attrs =>
      if decide (key = bs name) then read value else find_attr attrs name bad read absent
  end.

Definition missing_attr {A} (name : string) : result Error A := Err (unlocated (MissingAttr name)).

Definition parse_i64_attr (e : BytesStart) (name : string) : result Error Z :=
  find_attr (attributes e) name MalformedXml
    (fun value => ok_or (parse_i64 value) (unlocated (NotInteger name))) (missing_attr name).

(** [out.push_str(&val)] *)
Definition append_str_attr (e : BytesStart) (name : string) (out : bytes) : result Error bytes :=
  find_attr (attributes e) name MalformedXml
    (fun value => match normalize value with Ok val => Ok (out ++ val) | Err x => Err (unlocated (MalformedXml x)) end)
    (missing_attr name).

Definition parse_str_attr (e : BytesStart) (name : string) : result Error bytes := append_str_attr e name [].

Definition append_str_attr_optional (e : BytesStart) (name : string) (out : bytes) : result Error (bool * bytes) :=
  find_attr (attributes e) name (fun x => MalformedAttribute x name)
    (fun value => match normalize value with
                  | Ok val => Ok (true, out ++ val)
                  | Err x => Err (unlocated (MalformedAttribute x name))
                  end)
    (Ok (false, out)).

(** ** Object children *)

Definition parse_tag (e : BytesStart) : result Error (bytes * bytes) :=
  k ← parse_str_attr e "k";
  v ← parse_str_attr e "v";
  Ok (k, v).

Definition parse_nd (e : BytesStart) : result Error Z := parse_i64_attr e "ref".

Record ParsedMember := mkMember { pm_kind : ElementKind; pm_ref : Z; pm_role : bytes }.

Definition member_type (m : ParsedMember) : MemberType :=
  match pm_kind m with Node => MNode | Way => MWay | Relation => MRelation end.

(** The type text goes through a cleared scratch string, the role onto [role_out]. *)
Definition parse_member_into (e : BytesStart) (role_out : bytes) : result Error (ElementKind * Z * bytes) :=
  type_scratch ← append_str_attr e "type" [];
  match name_kind type_scratch with
  | None => Err (unlocated (UnknownMember type_scratch))
  | Some kind =>
      ref_id ← parse_i64_attr e "ref";
      '(_, role_out) ← append_str_attr_optional e "role" role_out;
      Ok (kind, ref_id, role_out)
  end.

Definition parse_member (e : BytesStart) : result Error ParsedMember :=
  '(kind, ref_id, role) ← parse_member_into e [];
  Ok (mkMember kind ref_id role).

(** ** Metadata *)

Definition meta_field (key : bytes) : option MetaField :=
  if decide (key = bs "version") then Some FVersion
  else if decide (key = bs "timestamp") then Some FTimestamp
  else if decide (key = bs "changeset") then Some FChangeset
  else if decide (key = bs "uid") then Some FUid
  else if decide (key = bs "user") then Some FUser
  else if decide (key = bs "visible") then Some FVisible
  else None.

(** The callback [f] updates the state [x] it captures. *)
Fixpoint scan_meta_loop {X} (f : MetaField -> bytes -> X -> result Error X)
    (attrs : list (result XmlError (bytes * bytes))) (any : bool) (x : X) : result Error (bool * X) :=
  match attrs with
  | [] => Ok (any, x)
  | Err err :: _ => Err (unlocated (MalformedXml err))
  | Ok (key, value) :: attrs =>
      match meta_field key with
      | None => scan_meta_loop f attrs any x
      | Some field => x ← f field value x; scan_meta_loop f attrs true x
      end
  end.

Definition scan_meta_attrs {X} (e : BytesStart) (f : MetaField -> bytes -> X -> result Error X) (x : X)
  : result Error (bool * X) := scan_meta_loop f (attributes e) false x.

Definition meta_int (parse : bytes -> option Z) (field : MetaField) (text : bytes) : result Error Z :=
  ok_or (parse text) (unlocated (MetaUnparsable field text)).

(** ** The driver *)

Class OscSink (S : Type) := {
  END_ELEMENT_EMITS : bool;
  begin_element : OscAction -> ElementKind -> BytesStart -> S -> S * result Error unit;
  sink_tag : BytesStart -> S -> S * result Error unit;
  sink_nd : BytesStart -> S -> S * result Error unit;
  sink_member : BytesStart -> S -> S * result Error unit;
  sink_end_element : S -> S * result Error unit }.

Inductive Level := LDoc | LRoot | LOther | LSection | LElement | LLeaf | LDone.

#[export] Instance Level_eq_dec : EqDecision Level.
Proof. solve_decision. Defined.

Record DriveState := mkDrive { level : Level; section : OscAction; open : ElementKind }.

Definition at_level (st : DriveState) (l : Level) : DriveState := mkDrive l (section st) (open st).

(** [map_err(|e| input_fault(path, e))] *)
Definition map_fault {S A} (r : S * result Error A) : S * result Error A :=
  match r with (s, Err e) => (s, Err (input_fault e)) | r => r end.

(** [?] *)
Definition and_then {S A B} (r : S * result Error A) (k : A -> S -> S * result Error B) : S * result Error B :=
  match r with (s, Ok a) => k a s | (s, Err e) => (s, Err e) end.

(** [.map(drop)] *)
Definition drop_value {S A} (r : result Error A) (s : S) : S * result Error unit :=
  (s, match r with Ok _ => Ok tt | Err e => Err e end).

Section Driver.
Context {S : Type} `{!OscSink S}.

Definition handle_element_child (name : bytes) (e : BytesStart) (sec : OscAction) (kind : ElementKind) (s : S)
  : S * result Error unit :=
  let live := bool_decide (sec <> ActDelete) in
  if decide (name = bs "tag") then if live then sink_tag e s else drop_value (parse_tag e) s
  else if decide (name = bs "nd" /\ kind = Way) then if live then sink_nd e s else drop_value (parse_nd e) s
  else if decide (name = bs "member" /\ kind = Relation) then
    if live then sink_member e s else drop_value (parse_member e) s
  else if decide ((name = bs "bbox" \/ name = bs "bounds") /\ (kind = Way \/ kind = Relation)) then (s, Ok tt)
  else (s, Err (unlocated (Misplaced name (InElement kind)))).

Definition end_element (s : S) : S * result Error unit :=
  if END_ELEMENT_EMITS then sink_end_element s else map_fault (sink_end_element s).

Definition handle_open (e : BytesStart) (is_empty : bool) (st : DriveState) (s : S) : S * result Error DriveState :=
  let name := tag_name e in
  match level st with
  | LElement =>
      and_then (map_fault (handle_element_child name e (section st) (open st) s)) (fun _ s =>
        (s, Ok (if is_empty then st else at_level st LLeaf)))
  | LSection =>
      match name_kind name with
      | None => (s, Err (located (Misplaced name (InSection (section st)))))
      | Some kind =>
          and_then (map_fault (begin_element (section st) kind e s)) (fun _ s =>
            if is_empty then and_then (end_element s) (fun _ s => (s, Ok st))
            else (s, Ok (mkDrive LElement (section st) kind)))
      end
  | LRoot =>
      match action_for name with
      | Some action => (s, Ok (if is_empty then st else mkDrive LSection action (open st)))
      | None =>
          match name_kind name with
          | Some kind =>
              let id := match parse_i64_attr e "id" with Ok id => Some id | Err _ => None end in
              (s, Err (located (OutsideSection kind id)))
          | None =>
              if decide (name = bs "osmChange") then (s, Err (located (Misplaced name InRoot)))
              else (s, Ok (if is_empty then st else at_level st LOther))
          end
      end
  | LDoc =>
      if decide (name = bs "osmChange") then (s, Ok (at_level st (if is_empty then LDone else LRoot)))
      else (s, Err (located (Misplaced name AtRoot)))
  | LLeaf => (s, Err (located (Misplaced name InLeaf)))
  | LOther => (s, Err (located (Misplaced name InOther)))
  | LDone => (s, Err (located (Misplaced name AfterRoot)))
  end.

Definition handle_close (st : DriveState) (s : S) : S * result Error DriveState :=
  match level st with
  | LLeaf => (s, Ok (at_level st LElement))
  | LElement => and_then (end_element s) (fun _ s => (s, Ok (at_level st LSection)))
  | LSection | LOther => (s, Ok (at_level st LRoot))
  | LRoot => (s, Ok (at_level st LDone))
  | LDoc | LDone => (s, Ok st)
  end.
End Driver.

(** What the reader yields before [Eof]; a failed read ends the stream. *)
Inductive Event :=
| EvStart (e : BytesStart)
| EvEmpty (e : BytesStart)
| EvEnd
| EvOther
| EvSyntax (x : XmlError)
| EvIo
| EvCancelled.

(** [xml_read_err], after the cancellation check *)
Definition read_error (ev : Event) : Error :=
  match ev with
  | EvCancelled => unlocated FaultCancelled
  | EvSyntax x => located (MalformedXml x)
  | _ => located ReadFailed
  end.

Definition drive_event {S} `{!OscSink S} (ev : Event) (st : DriveState) (s : S) : S * result Error DriveState :=
  match ev with
  | EvStart e => handle_open e false st s
  | EvEmpty e => handle_open e true st s
  | EvEnd => handle_close st s
  | EvOther => (s, Ok st)
  | EvSyntax _ | EvIo | EvCancelled => (s, Err (read_error ev))
  end.

Fixpoint drive_loop {S} `{!OscSink S} (events : list Event) (st : DriveState) (s : S) : S * result Error unit :=
  match events with
  | [] => (s, if decide (level st = LDone) then Ok tt else Err (located TruncatedDocument))
  | ev :: events => and_then (drive_event ev st s) (drive_loop events)
  end.

Definition drive_init : DriveState := mkDrive LDoc ActCreate Node.

Definition drive_osc {S} `{!OscSink S} (events : list Event) (s : S) : S * result Error unit :=
  drive_loop events drive_init s.
End OscXml.

(** ** A concrete reader

    Single-quoted attributes without entities, and coordinates written in
    decimicrodegrees; used by the concrete instances. *)
Module RefXml.

Fixpoint until (b : Z) (s : bytes) : bytes * bytes :=
  match s with
  | [] => ([], [])
  | x :: r => if x =? b then ([], r) else let '(h, t) := until b r in (x :: h, t)
  end.

Fixpoint attrs (fuel : nat) (s : bytes) : list (result unit (bytes * bytes)) :=
  match fuel, s with
  | S fuel, x :: r =>
      if x =? 32 then attrs fuel r
      else let '(key, rest) := until 61 s in
           match rest with
           | q :: rest => if q =? 39 then let '(value, rest) := until 39 rest in Ok (key, value) :: attrs fuel rest else [Err tt]
           | [] => [Err tt]
           end
  | _, _ => []
  end.

#[export] Instance ref_xml : QuickXml := {|
  XmlError := unit;
  attributes := fun e => attrs (length (tag_rest e)) (tag_rest e);
  normalize := fun v => if existsb (Z.eqb 38) v then Err tt else match from_utf8 v with Ok _ => Ok v | Err _ => Err tt end;
  degrees_e7 := fun _ v => parse_i32 v |}.

Definition elem (name rest : string) : BytesStart := mkStart (bs name) (bs rest).

(** A change document: a created node, a deleted way and a modified relation. *)
Definition sample_document : list (Event (H := ref_xml)) :=
  [EvOther; EvStart (elem "osmChange" " version='0.6'"); EvEmpty (elem "bounds" "");
   EvStart (elem "create" ""); EvStart (elem "node" " id='7' version='1' lat='10' lon='-20' user='ann'");
   EvEmpty (elem "tag" " k='name' v='x'"); EvEnd; EvEnd;
   EvStart (elem "delete" ""); EvStart (elem "way" " id='3' version='2'"); EvEmpty (elem "nd" " ref='7'"); EvEnd; EvEnd;
   EvStart (elem "modify" ""); EvStart (elem "relation" " id='4' version='5' timestamp='2026-02-20T21:39:49Z'");
   EvEmpty (elem "member" " type='way' ref='3' role='outer'"); EvStart (elem "tag" " k='type' v='x'"); EvEnd; EvEnd; EvEnd;
   EvEnd].
End RefXml.
