(* ===== verification/OscLex.v ===== *)
(** * Recorded callbacks and their replay (src/src/osc/xml_parse.rs, [LexBatch])

    A reader thread drives a document into a [LexSink], which records the
    callbacks as raw tag text and hands batches of whole elements on; a worker
    replays a batch into a real sink.  Shown here: the sequence of callbacks a
    sink can rely on, and that recording and replaying is the same as driving
    the document into the sink. *)

From S2P Require Import Prelude StdText ElementKind.
From S2P Require Import OscInterner OscXml.

Section OscLex.
Context `{QuickXml}.

(** ** Recording *)

Inductive LexOp := OpBegin (a : OscAction) (k : ElementKind) | OpTag | OpNd | OpMember | OpEnd.

Record LexEvent := mkLex { lx_op : LexOp; lx_start : nat; lx_end : nat; lx_name_len : nat }.

Record LexBatch := mkBatch { lb_text : bytes; lb_events : list LexEvent }.

Definition batch_empty : LexBatch := mkBatch [] [].

Definition lex_bytes (b : LexBatch) : nat := length (lb_text b).

Definition lex_is_empty (b : LexBatch) : bool := match lb_events b with [] => true | _ => false end.

Definition lex_push (b : LexBatch) (op : LexOp) (e : option BytesStart) : LexBatch :=
  let start := length (lb_text b) in
  let '(text, name_len) := match e with
                           | None => (lb_text b, 0%nat)
                           | Some e => (lb_text b ++ content e, length (tag_name e))
                           end in
  mkBatch text (lb_events b ++ [mkLex op start (length text) name_len]).

(** [&self.text[ev.start..ev.end]] out of range is a panic. *)
Definition replay_event {S} `{!OscSink S} (text : bytes) (ev : LexEvent) (s : S) : S * result Error unit :=
  match slice text (lx_start ev) (lx_end ev) with
  | None => (s, Err (unlocated SliceOutOfRange))
  | Some c =>
      let e := from_content c (lx_name_len ev) in
      match lx_op ev with
      | OpBegin a k => map_fault (begin_element a k e s)
      | OpTag => map_fault (sink_tag e s)
      | OpNd => map_fault (sink_nd e s)
      | OpMember => map_fault (sink_member e s)
      | OpEnd => end_element s
      end
  end.

Fixpoint replay_events {S} `{!OscSink S} (text : bytes) (evs : list LexEvent) (s : S) : S * result Error unit :=
  match evs with
  | [] => (s, Ok tt)
  | ev :: evs => and_then (replay_event text ev s) (fun _ => replay_events text evs)
  end.

Definition replay {S} `{!OscSink S} (b : LexBatch) (s : S) : S * result Error unit :=
  replay_events (lb_text b) (lb_events b) s.

(** The sink: [seal] hands a batch to its consumer [Q], [halted] asks whether
    the consumer gave up. *)
Section LexSink.
Context {Q : Type} (target : nat) (seal : LexBatch -> Q -> Q * result Error unit) (halted : Q -> bool).

Record LexSink := mkLexSink { ls_batch : LexBatch; ls_out : Q }.

Definition record (op : LexOp) (e : option BytesStart) (s : LexSink) : LexSink * result Error unit :=
  if halted (ls_out s) then (s, Err (unlocated Halted))
  else (mkLexSink (lex_push (ls_batch s) op e) (ls_out s), Ok tt).

(** [std::mem::take]: the batch is gone even when the seal fails. *)
Definition seal_batch (s : LexSink) : LexSink * result Error unit :=
  let '(q, r) := seal (ls_batch s) (ls_out s) in (mkLexSink batch_empty q, r).

Definition lex_end_element (s : LexSink) : LexSink * result Error unit :=
  and_then (record OpEnd None s) (fun _ s =>
    if (target <=? lex_bytes (ls_batch s))%nat then seal_batch s else (s, Ok tt)).

Definition lex_finish (s : LexSink) : LexSink * result Error unit :=
  if lex_is_empty (ls_batch s) then (s, Ok tt) else seal_batch s.

Definition lex_sink : OscSink LexSink := {|
  END_ELEMENT_EMITS := true;
  begin_element := fun a k e => record (OpBegin a k) (Some e);
  sink_tag := fun e => record OpTag (Some e);
  sink_nd := fun e => record OpNd (Some e);
  sink_member := fun e => record OpMember (Some e);
  sink_end_element := lex_end_element |}.
End LexSink.

(** ** The calls of a document *)

Inductive Call := CBegin (a : OscAction) (k : ElementKind) (e : BytesStart) | CTag (e : BytesStart) | CNd (e : BytesStart)
| CMember (e : BytesStart) | CEnd.

(** A sink that only lists what it is called with. *)
#[export] Instance trace_sink : OscSink (list Call) := {|
  END_ELEMENT_EMITS := false;
  begin_element := fun a k e t => (t ++ [CBegin a k e], Ok tt);
  sink_tag := fun e t => (t ++ [CTag e], Ok tt);
  sink_nd := fun e t => (t ++ [CNd e], Ok tt);
  sink_member := fun e t => (t ++ [CMember e], Ok tt);
  sink_end_element := fun t => (t ++ [CEnd], Ok tt) |}.

Definition call {S} `{!OscSink S} (c : Call) (s : S) : S * result Error unit :=
  match c with
  | CBegin a k e => map_fault (begin_element a k e s)
  | CTag e => map_fault (sink_tag e s)
  | CNd e => map_fault (sink_nd e s)
  | CMember e => map_fault (sink_member e s)
  | CEnd => end_element s
  end.

Fixpoint calls_into {S} `{!OscSink S} (cs : list Call) (s : S) : S * result Error unit :=
  match cs with
  | [] => (s, Ok tt)
  | c :: cs => and_then (call c s) (fun _ => calls_into cs)
  end.

(** The object an open call sequence is inside of; [None] of the outer option
    is a sequence no sink may see. *)
Definition Open : Type := option (OscAction * ElementKind).

Definition call_step (o : Open) (c : Call) : option Open :=
  match o, c with
  | None, CBegin a k _ => Some (Some (a, k))
  | Some (a, k), CTag _ => if decide (a = ActDelete) then None else Some o
  | Some (a, k), CNd _ => if decide (a <> ActDelete /\ k = Way) then Some o else None
  | Some (a, k), CMember _ => if decide (a <> ActDelete /\ k = Relation) then Some o else None
  | Some _, CEnd => Some None
  | _, _ => None
  end.

Fixpoint call_steps (o : Open) (cs : list Call) : option Open :=
  match cs with
  | [] => Some o
  | c :: cs => o ← call_step o c; call_steps o cs
  end.

(** ** Driving is making the framed calls *)

Lemma calls_into_app {S} `{!OscSink S} a b (s : S) : calls_into (a ++ b) s = and_then (calls_into a s) (fun _ => calls_into b).
Proof.
  revert s. induction a as [|c a IH]; intros s; [done|]. cbn [app calls_into].
  destruct (call c s) as [s' [[]|]]; [apply IH|done].
Qed.

Lemma call_steps_app o a b : call_steps o (a ++ b) = o ← call_steps o a; call_steps o b.
Proof.
  revert o. induction a as [|c a IH]; intros o; [done|]. cbn [app call_steps].
  destruct (call_step o c); [apply IH|done].
Qed.

(** A step of the driver is the same few calls, then the same result, whatever
    the sink. *)
Definition makes {A} (f : forall T, OscSink T -> T -> T * result Error A) (cs : list Call) (r : result Error A) : Prop :=
  forall T (I : OscSink T) (s : T), f T I s = and_then (calls_into cs s) (fun _ s => (s, r)).

Definition opened (st : DriveState) : Open :=
  match level st with LElement | LLeaf => Some (section st, open st) | _ => None end.

(** The calls keep to the sequence a sink may see. *)
Definition framed (o : Open) (cs : list Call) (r : result Error DriveState) : Prop :=
  match r with Ok st => call_steps o cs = Some (opened st) | Err _ => is_Some (call_steps o cs) end.

Lemma and_then_unit {T A} (m : T * result Error unit) (r : result Error A) :
  and_then (and_then m (fun _ s => (s, Ok tt))) (fun _ s => (s, r)) = and_then m (fun _ s => (s, r)).
Proof. by destruct m as [s [[]|]]. Qed.

Lemma map_fault_then {T A B} (m : T * result Error A) (k : A -> T -> T * result Error B) :
  and_then (map_fault m) k = match m with (s, Ok a) => k a s | (s, Err e) => (s, Err (input_fault e)) end.
Proof. by destruct m as [s [|]]. Qed.

Lemma makes_call {A} (c : Call) (r : result Error A) : makes (fun T I s => and_then (call c s) (fun _ s => (s, r))) [c] r.
Proof. intros T I s. cbn [calls_into]. by destruct (call c s) as [s' [[]|]]. Qed.

Lemma makes_nothing {A} (r : result Error A) : makes (fun T I s => (s, r)) [] r.
Proof. by intros T I s. Qed.

Lemma child_made name e sec kind (st' : DriveState) :
  exists cs r, makes (fun T I s => and_then (map_fault (handle_element_child name e sec kind s)) (fun _ s => (s, Ok st'))) cs r /\
    call_steps (Some (sec, kind)) cs = Some (Some (sec, kind)) /\ (forall st, r = Ok st -> st = st').
Proof.
  unfold handle_element_child. destruct (decide (name = bs "tag")) as [_|_]; [|destruct (decide (name = bs "nd" /\ _)) as [[_ ->]|_];
    [|destruct (decide (name = bs "member" /\ _)) as [[_ ->]|_]; [|destruct (decide (_ /\ _)) as [_|_]]]].
  1-3: destruct (bool_decide_reflect (sec <> ActDelete)) as [Hl|Hl].
  - exists [CTag e], (Ok st'). split_and!; [exact (makes_call (CTag e) (Ok st'))| |by intros ? [=]]. cbn. by rewrite decide_False.
  - destruct (parse_tag e) as [p|x]; [exists [], (Ok st')|exists [], (Err (input_fault x))]; (split_and!; [by intros T I s|done|by intros ? [=]]).
  - exists [CNd e], (Ok st'). split_and!; [exact (makes_call (CNd e) (Ok st'))| |by intros ? [=]]. cbn. by rewrite decide_True.
  - destruct (parse_nd e) as [p|x]; [exists [], (Ok st')|exists [], (Err (input_fault x))]; (split_and!; [by intros T I s|done|by intros ? [=]]).
  - exists [CMember e], (Ok st'). split_and!; [exact (makes_call (CMember e) (Ok st'))| |by intros ? [=]]. cbn. by rewrite decide_True.
  - destruct (parse_member e) as [p|x]; [exists [], (Ok st')|exists [], (Err (input_fault x))]; (split_and!; [by intros T I s|done|by intros ? [=]]).
  - exists [], (Ok st'). split_and!; [by intros T I s|done|by intros ? [=]].
  - eexists [], _. split_and!; [by intros T I s|done|done].
Qed.

(** A step that makes no call. *)
Ltac no_call El := eexists [], _; split; [by intros T I s|first [by eexists|unfold framed, opened; cbn; by rewrite ?El]].

Lemma open_made e is_empty st :
  exists cs r, makes (fun T I s => handle_open e is_empty st s) cs r /\ framed (opened st) cs r.
Proof.
  unfold handle_open. unfold opened at 1. destruct (level st) eqn:El.
  - destruct (decide _); [destruct is_empty|]; no_call El.
  - destruct (action_for _); [destruct is_empty; no_call El|]. destruct (name_kind _); [no_call El|].
    destruct (decide _); [|destruct is_empty]; no_call El.
  - no_call El.
  - destruct (name_kind _) as [kind|]; [|no_call El]. destruct is_empty.
    + exists [CBegin (section st) kind e; CEnd], (Ok st). split; [|unfold framed, opened; cbn; by rewrite El].
      intros T I s. cbn [calls_into call]. destruct (map_fault _) as [s' [[]|]]; [|done]. cbn [and_then].
      by destruct (end_element s') as [s'' [[]|]].
    + exists [CBegin (section st) kind e], (Ok (mkDrive LElement (section st) kind)). split; [exact (makes_call (CBegin (section st) kind e) _)|done].
  - destruct (child_made (tag_name e) e (section st) (open st) (if is_empty then st else at_level st LLeaf)) as (cs & r & Hm & Hs & Hr).
    exists cs, r. split; [done|]. unfold framed. destruct r as [st'|]; [|by eexists]. rewrite (Hr st' eq_refl), Hs.
    unfold opened. destruct is_empty; cbn; by rewrite ?El.
  - no_call El.
  - no_call El.
Qed.

Lemma close_made st : exists cs r, makes (fun T I s => handle_close st s) cs r /\ framed (opened st) cs r.
Proof.
  unfold handle_close. unfold opened at 1. destruct (level st) eqn:El; [no_call El..| |no_call El|no_call El].
  exists [CEnd], (Ok (at_level st LSection)). split; [exact (makes_call CEnd _)|done].
Qed.

Lemma event_made ev st : exists cs r, makes (fun T I s => drive_event ev st s) cs r /\ framed (opened st) cs r.
Proof.
  destruct ev; [apply open_made|apply open_made|apply close_made|eexists [], _; split; [by intros T I s|first [done|by eexists]]..].
Qed.

Lemma loop_made events st :
  exists cs r, makes (fun T I s => drive_loop events st s) cs r /\
    match r with Ok _ => call_steps (opened st) cs = Some None | Err _ => is_Some (call_steps (opened st) cs) end.
Proof.
  revert st. induction events as [|ev events IH]; intros st.
  - eexists [], _. split; [by intros T I s|]. unfold opened. destruct (decide (level st = LDone)) as [->|]; [done|by eexists].
  - destruct (event_made ev st) as (c1 & r1 & Hm1 & Hf1). destruct r1 as [st1|x1].
    + destruct (IH st1) as (c2 & r2 & Hm2 & Hf2). exists (c1 ++ c2), r2. split.
      * intros T I s. cbn [drive_loop]. rewrite Hm1, calls_into_app. destruct (calls_into c1 s) as [s' [[]|]]; [|done]. cbn [and_then]. apply Hm2.
      * rewrite call_steps_app. cbn [framed] in Hf1. rewrite Hf1. done.
    + exists c1, (Err x1). split; [|done]. intros T I s. cbn [drive_loop]. rewrite Hm1. by destruct (calls_into c1 s) as [s' [[]|]].
Qed.

Lemma trace_calls cs (t : list Call) : calls_into cs t = (t ++ cs, Ok tt).
Proof.
  revert t. induction cs as [|c cs IH]; intros t; [by rewrite app_nil_r|]. cbn [calls_into].
  destruct c; cbn; by rewrite IH, <- app_assoc.
Qed.

(** The calls the driver makes, and how it ends, given that they succeed. *)
Lemma drive_makes events :
  let '(cs, r) := drive_osc events [] in
  makes (fun T I s => drive_osc events s) cs r /\
  match r with Ok _ => call_steps None cs = Some None | Err _ => is_Some (call_steps None cs) end.
Proof.
  destruct (loop_made events drive_init) as (cs & r & Hm & Hs). unfold drive_osc at 1. rewrite Hm, trace_calls. by split.
Qed.

(** ** Batches *)

Lemma from_content_name e : from_content (content e) (length (tag_name e)) = e.
Proof. destruct e as [n r]. unfold from_content, content. cbn. by rewrite take_app_length, drop_app_length. Qed.

(** The recorded form of a call. *)
Definition call_op (c : Call) : LexOp * option BytesStart :=
  match c with
  | CBegin a k e => (OpBegin a k, Some e)
  | CTag e => (OpTag, Some e)
  | CNd e => (OpNd, Some e)
  | CMember e => (OpMember, Some e)
  | CEnd => (OpEnd, None)
  end.

Definition event_is (text : bytes) (ev : LexEvent) (c : Call) : Prop :=
  lx_op ev = (call_op c).1 /\
  exists t, slice text (lx_start ev) (lx_end ev) = Some t /\
    match (call_op c).2 with Some e => from_content t (lx_name_len ev) = e | None => True end.

Definition batch_is (b : LexBatch) (cs : list Call) : Prop := Forall2 (event_is (lb_text b)) (lb_events b) cs.

Lemma slice_grow {A} (l r : list A) i j t : slice l i j = Some t -> slice (l ++ r) i j = Some t.
Proof.
  unfold slice. destruct (decide _) as [Hr|]; [|done]. intros [= <-]. rewrite decide_True by (rewrite length_app; lia).
  f_equal. rewrite drop_app_le, take_app_le by (rewrite ?length_drop; lia). done.
Qed.

Lemma push_is b cs c : batch_is b cs -> batch_is (lex_push b (call_op c).1 (call_op c).2) (cs ++ [c]).
Proof.
  intros Hb. unfold batch_is, lex_push. destruct (call_op c).2 as [e|] eqn:Ee; cbn [lb_text lb_events]; apply Forall2_app.
  - eapply Forall2_impl; [exact Hb|]. intros ev c' (Ho & t & Ht & He). split; [done|]. exists t. split; [by apply slice_grow|done].
  - repeat constructor. exists (content e). rewrite Ee. cbn [lx_start lx_end lx_name_len]. split; [|apply from_content_name].
    rewrite length_app. pose proof (slice_mid (lb_text b) (content e) []) as Hm. by rewrite app_nil_r in Hm.
  - exact Hb.
  - repeat constructor. exists []. rewrite Ee. cbn [lx_start lx_end lx_name_len]. split; [|done].
    pose proof (slice_mid (lb_text b) [] []) as Hm. by rewrite !app_nil_r, Nat.add_0_r in Hm.
Qed.

Lemma replay_is {S} `{!OscSink S} b cs (s : S) : batch_is b cs -> replay b s = calls_into cs s.
Proof.
  unfold batch_is, replay. intros Hb. revert s. induction Hb as [|ev c evs cs (Ho & t & Ht & He) Hb IH]; intros s; [done|].
  cbn [replay_events calls_into]. assert (replay_event (lb_text b) ev s = call c s) as ->.
  { unfold replay_event. rewrite Ht, Ho. destruct c; cbn in He |- *; try rewrite He; done. }
  destruct (call c s) as [s' [[]|]]; [apply IH|done].
Qed.

(** Replaying batches one after another, up to the first failure. *)
Fixpoint replay_all {S} `{!OscSink S} (batches : list LexBatch) (s : S) : S * result Error unit :=
  match batches with
  | [] => (s, Ok tt)
  | b :: batches => and_then (replay b s) (fun _ => replay_all batches)
  end.

Lemma replay_all_is {S} `{!OscSink S} bs gs (s : S) : Forall2 batch_is bs gs -> replay_all bs s = calls_into (concat gs) s.
Proof.
  intros Hb. revert s. induction Hb as [|b g bs gs Hg Hb IH]; intros s; [done|]. cbn [replay_all concat].
  rewrite (replay_is b g) by done. rewrite calls_into_app. destruct (calls_into g s) as [s' [[]|]]; [apply IH|done].
Qed.

(** A consumer that takes every batch. *)
Definition keep_batch (b : LexBatch) (q : list LexBatch) : list LexBatch * result Error unit := (q ++ [b], Ok tt).

Definition lex_keep (target : nat) : OscSink LexSink := lex_sink target keep_batch (fun _ => false).

(** What a sealed batch is: calls of whole elements, at least [target] bytes of them. *)
Definition whole_batch (target : nat) (b : LexBatch) : Prop :=
  (target <= lex_bytes b)%nat /\ exists cs, batch_is b cs /\ cs <> [] /\ call_steps None cs = Some None.

Record lexed (target : nat) (ls : LexSink) (gs : list (list Call)) (p : list Call) (o : Open) : Prop := {
  lx_out : Forall2 batch_is (ls_out ls) gs;
  lx_pending : batch_is (ls_batch ls) p;
  lx_whole : Forall (whole_batch target) (ls_out ls);
  lx_open : call_steps None p = Some o;
}.

Lemma lex_call target ls gs p o c o' :
  lexed target ls gs p o -> call_step o c = Some o' ->
  exists ls' gs' p', call (OscSink0 := lex_keep target) c ls = (ls', Ok tt) /\ lexed target ls' gs' p' o' /\
    concat gs' ++ p' = concat gs ++ p ++ [c].
Proof.
  intros [Ho Hp Hw Hopen] Hc. pose proof (push_is _ _ c Hp) as Hpush.
  assert (call_steps None (p ++ [c]) = Some o') as Hsteps.
  { rewrite call_steps_app, Hopen. cbn [mbind option_bind call_steps]. by rewrite Hc. }
  set (ls1 := mkLexSink (lex_push (ls_batch ls) (call_op c).1 (call_op c).2) (ls_out ls)).
  assert (lexed target ls1 gs (p ++ [c]) o') as H1 by by split.
  assert (c = CEnd \/ c <> CEnd) as [->|Hne] by (destruct c; auto).
  - cbn [call]. unfold end_element, lex_keep, lex_sink, sink_end_element, lex_end_element, record. cbn [END_ELEMENT_EMITS and_then call_op fst snd] in *.
    fold ls1. destruct (Nat.leb_spec target (lex_bytes (ls_batch ls1))) as [Ht|].
    + exists (mkLexSink batch_empty (ls_out ls ++ [ls_batch ls1])), (gs ++ [p ++ [CEnd]]), []. split_and!; [done| |].
      * assert (o' = None) as -> by (destruct o as [[]|]; by simplify_eq/=). split; cbn [ls_out ls_batch]; [..|done].
        -- apply Forall2_app; [done|]. by repeat constructor.
        -- constructor.
        -- apply Forall_app. split; [done|]. repeat constructor; [done|]. exists (p ++ [CEnd]). split_and!; [done| |done]. by destruct p.
      * rewrite concat_app, app_nil_r. cbn [concat]. by rewrite app_nil_r.
    + by exists ls1, gs, (p ++ [CEnd]).
  - exists ls1, gs, (p ++ [c]). split_and!; [|done|done]. by destruct c.
Qed.

Lemma lex_calls target cs ls gs p o o' :
  lexed target ls gs p o -> call_steps o cs = Some o' ->
  exists ls' gs' p', calls_into (OscSink0 := lex_keep target) cs ls = (ls', Ok tt) /\ lexed target ls' gs' p' o' /\
    concat gs' ++ p' = concat gs ++ p ++ cs.
Proof.
  revert ls gs p o. induction cs as [|c cs IH]; intros ls gs p o Hl Hc; cbn [call_steps calls_into] in *.
  - simplify_eq. exists ls, gs, p. by rewrite app_nil_r.
  - destruct (call_step o c) as [o1|] eqn:E; [|done]. cbn [mbind option_bind] in Hc.
    destruct (lex_call target ls gs p o c o1 Hl E) as (ls1 & gs1 & p1 & -> & Hl1 & E1). cbn [and_then].
    destruct (IH ls1 gs1 p1 o1 Hl1 Hc) as (ls' & gs' & p' & E' & Hl' & Ec). exists ls', gs', p'. split_and!; [done..|].
    rewrite Ec, app_assoc, E1, <- !app_assoc. done.
Qed.

(** What a sink may rely on: whatever the document, the driver's callbacks
    are those of whole elements in turn, each begun once, then given only
    children its kind can carry, none of them inside a delete, then ended once;
    when the document is accepted the last element is ended, and when it is
    refused at most the last is left open.  The same callbacks, followed by the
    same verdict, reach every sink, up to the sink's own first failure. *)
Theorem osc_calls_sequenced (events : list Event) :
  let '(cs, verdict) := drive_osc events ([] : list Call) in
  match verdict with
  | Ok _ => call_steps None cs = Some None
  | Err _ => is_Some (call_steps None cs)
  end /\
  forall S (sink : OscSink S) (s : S), drive_osc events s = and_then (calls_into cs s) (fun _ s => (s, verdict)).
Proof. pose proof (drive_makes events) as Hm. destruct (drive_osc events []) as [cs r]. split; apply Hm. Qed.

Lemma lexed_new target : lexed target (mkLexSink batch_empty []) [] [] None.
Proof. split; [constructor..|done]. Qed.

(** C27. Recording a document and replaying it is driving it: the batches the
    recording sink hands on, and the one it still holds, replayed in order into
    any sink, leave that sink as driving the document into it would and end with
    the same error, wherever the batches were cut; and a batch is only cut
    between elements, once it holds [target] bytes. *)
Theorem osc_batches_replay (target : nat) (events : list Event) :
  let '(ls, verdict) := drive_osc (OscSink0 := lex_keep target) events (mkLexSink batch_empty []) in
  Forall (whole_batch target) (ls_out ls) /\
  (forall S (sink : OscSink S) (s : S),
    drive_osc events s = and_then (replay_all (ls_out ls ++ [ls_batch ls]) s) (fun _ s => (s, verdict))) /\
  (verdict = Ok tt -> exists ls', lex_finish keep_batch ls = (ls', Ok tt) /\
    forall S (sink : OscSink S) (s : S), drive_osc events s = replay_all (ls_out ls') s).
Proof.
  pose proof (drive_makes events) as Hm. destruct (drive_osc events []) as [cs r]. destruct Hm as [Hm Hs].
  assert (exists o, call_steps None cs = Some o) as [o Ho] by (destruct r; [by eexists|done]).
  rewrite (Hm _ (lex_keep target)). destruct (lex_calls target cs _ [] [] None o (lexed_new target) Ho) as (ls & gs & p & -> & Hl & Ec).
  cbn [and_then concat app] in *. destruct Hl as [Hout Hp Hw Hopen]. split; [done|].
  assert (forall S (sink : OscSink S) (s : S), replay_all (ls_out ls ++ [ls_batch ls]) s = calls_into cs s) as Hr.
  { intros S sink s. rewrite (replay_all_is _ (gs ++ [p])); [|apply Forall2_app; [done|by repeat constructor]].
    rewrite concat_app. cbn [concat]. by rewrite app_nil_r, Ec. }
  split; [intros S sink s; by rewrite Hr, (Hm S sink)|]. intros ->.
  assert (forall S (sink : OscSink S) (s : S), drive_osc events s = calls_into cs s) as Hd.
  { intros S sink s. rewrite (Hm S sink). by destruct (calls_into cs s) as [s' [[]|]]. }
  unfold lex_finish, lex_is_empty, seal_batch, keep_batch. destruct (lb_events (ls_batch ls)) eqn:Ee.
  - exists ls. split; [done|]. intros S sink s. rewrite Hd, (replay_all_is _ gs) by done. f_equal. rewrite <- Ec.
    unfold batch_is in Hp. rewrite Ee in Hp. apply Forall2_nil_inv_l in Hp as ->. by rewrite app_nil_r.
  - eexists. split; [done|]. intros S sink s. by rewrite Hd, <- Hr.
Qed.

End OscLex.

Import RefXml.

Lemma osc_calls_sequenced_witness :
  call_steps None (drive_osc sample_document ([] : list Call)).1 = Some None.
Proof. exact (proj1 (osc_calls_sequenced sample_document)). Defined.

Definition sample_lexed : LexSink := (drive_osc (OscSink0 := lex_keep 30) sample_document (mkLexSink batch_empty [])).1.

Lemma osc_batches_replay_witness :
  length (ls_out sample_lexed) = 2%nat /\
  exists ls', lex_finish keep_batch sample_lexed = (ls', Ok tt) /\
    forall S (sink : OscSink S) (s : S), drive_osc sample_document s = replay_all (ls_out ls') s.
Proof. split; [vm_compute; reflexivity|]. exact (proj2 (proj2 (osc_batches_replay 30 sample_document)) eq_refl). Defined.
