(* ===== verification/OscDoc.v ===== *)
(** * The documents the driver accepts

    The grammar of a change document as trees, their events and the calls they
    stand for; the driver accepts exactly the event streams of such trees and
    makes exactly their calls, and refuses every proper prefix of one as
    truncated. *)

From S2P Require Import Prelude StdText ElementKind.
From S2P Require Import OscXml OscLex.

Section OscDoc.
Context `{QuickXml}.

(** ** Documents *)

(** A child element: its tag, and whether it is self-closing. *)
Record Leaf := mkLeaf { lf_tag : BytesStart; lf_closed : bool }.

(** An object and a section; [None] is the self-closing form. *)
Record Object := mkObject { ob_tag : BytesStart; ob_children : option (list Leaf) }.

Inductive Part :=
| PSection (e : BytesStart) (objects : option (list Object))
| POther (l : Leaf).

Record Document := mkDocument { do_tag : BytesStart; do_parts : option (list Part) }.

Definition wrap {A} (events : A -> list Event) (e : BytesStart) (body : option (list A)) : list Event :=
  match body with
  | None => [EvEmpty e]
  | Some l => [EvStart e] ++ concat (events <$> l) ++ [EvEnd]
  end.

Definition leaf_events (l : Leaf) : list Event := if lf_closed l then [EvEmpty (lf_tag l)] else [EvStart (lf_tag l); EvEnd].
Definition object_events (o : Object) : list Event := wrap leaf_events (ob_tag o) (ob_children o).
Definition part_events (p : Part) : list Event :=
  match p with PSection e objects => wrap object_events e objects | POther l => leaf_events l end.
Definition document_events (d : Document) : list Event := wrap part_events (do_tag d) (do_parts d).

(** *** What may stand where *)

Definition is_ok {E A} (r : result E A) : Prop := exists a, r = Ok a.

(** The children of a deleted object are parsed and dropped. *)
Definition child_ok (a : OscAction) (k : ElementKind) (e : BytesStart) : Prop :=
  (tag_name e = bs "tag" /\ (a = ActDelete -> is_ok (parse_tag e))) \/
  (tag_name e = bs "nd" /\ k = Way /\ (a = ActDelete -> is_ok (parse_nd e))) \/
  (tag_name e = bs "member" /\ k = Relation /\ (a = ActDelete -> is_ok (parse_member e))) \/
  ((tag_name e = bs "bbox" \/ tag_name e = bs "bounds") /\ k <> Node).

Definition child_calls (a : OscAction) (k : ElementKind) (e : BytesStart) : list Call :=
  if decide (a = ActDelete) then []
  else if decide (tag_name e = bs "tag") then [CTag e]
  else if decide (tag_name e = bs "nd") then [CNd e]
  else if decide (tag_name e = bs "member") then [CMember e]
  else [].

Definition kids (o : Object) : list Leaf := default [] (ob_children o).

Definition object_ok (a : OscAction) (o : Object) : Prop :=
  exists k, name_kind (tag_name (ob_tag o)) = Some k /\ Forall (fun l => child_ok a k (lf_tag l)) (kids o).

Definition object_calls (a : OscAction) (o : Object) : list Call :=
  match name_kind (tag_name (ob_tag o)) with
  | None => []
  | Some k => [CBegin a k (ob_tag o)] ++ concat ((fun l => child_calls a k (lf_tag l)) <$> kids o) ++ [CEnd]
  end.

Definition other_name (name : bytes) : Prop := action_for name = None /\ name_kind name = None /\ name <> bs "osmChange".

Definition part_ok (p : Part) : Prop :=
  match p with
  | PSection e objects => exists a, action_for (tag_name e) = Some a /\ Forall (object_ok a) (default [] objects)
  | POther l => other_name (tag_name (lf_tag l))
  end.

Definition part_calls (p : Part) : list Call :=
  match p with
  | PSection e objects =>
      match action_for (tag_name e) with None => [] | Some a => concat (object_calls a <$> default [] objects) end
  | POther _ => []
  end.

Definition document_ok (d : Document) : Prop := tag_name (do_tag d) = bs "osmChange" /\ Forall part_ok (default [] (do_parts d)).
Definition document_calls (d : Document) : list Call := concat (part_calls <$> default [] (do_parts d)).

(** ** Driving up to the end of the stream *)

Fixpoint drive_steps {S} `{!OscSink S} (events : list Event) (st : DriveState) (s : S) : S * result Error DriveState :=
  match events with
  | [] => (s, Ok st)
  | ev :: events => and_then (drive_event ev st s) (drive_steps events)
  end.

Definition at_end {S} (st : DriveState) (s : S) : S * result Error unit :=
  (s, if decide (level st = LDone) then Ok tt else Err (located TruncatedDocument)).

Lemma drive_loop_steps {S} `{!OscSink S} events st (s : S) : drive_loop events st s = and_then (drive_steps events st s) at_end.
Proof.
  revert st s. induction events as [|ev events IH]; intros st s; [done|]. cbn [drive_loop drive_steps].
  destruct (drive_event ev st s) as [s' [st'|]]; [apply IH|done].
Qed.

Lemma drive_steps_app {S} `{!OscSink S} a b st (s : S) :
  drive_steps (a ++ b) st s = and_then (drive_steps a st s) (drive_steps b).
Proof.
  revert st s. induction a as [|ev a IH]; intros st s; [done|]. cbn [app drive_steps].
  destruct (drive_event ev st s) as [s' [st'|]]; [apply IH|done].
Qed.

(** ** Documents are accepted *)

(** [events] take the driver from [st] to [st'], making [cs]. *)
Definition drives (events : list Event) (st st' : DriveState) (cs : list Call) : Prop :=
  forall t : list Call, drive_steps events st t = (t ++ cs, Ok st').

Lemma drives_nil st : drives [] st st [].
Proof. intros t. by rewrite app_nil_r. Qed.

Lemma drives_app a b st1 st2 st3 c1 c2 : drives a st1 st2 c1 -> drives b st2 st3 c2 -> drives (a ++ b) st1 st3 (c1 ++ c2).
Proof. intros Ha Hb t. rewrite drive_steps_app, Ha. cbn [and_then]. by rewrite Hb, app_assoc. Qed.

Lemma drives_one ev st st' cs : (forall t : list Call, drive_event ev st t = (t ++ cs, Ok st')) -> drives [ev] st st' cs.
Proof. intros E t. cbn [drive_steps]. by rewrite E. Qed.

Lemma drives_all {A} (events : A -> list Event) (calls : A -> list Call) l st :
  Forall (fun x => drives (events x) st st (calls x)) l -> drives (concat (events <$> l)) st st (concat (calls <$> l)).
Proof. induction 1 as [|x l Hx _ IH]; [apply drives_nil|]. cbn. by eapply drives_app. Qed.

Lemma child_names :
  bs "nd" <> bs "tag" /\ bs "member" <> bs "tag" /\ bs "member" <> bs "nd" /\
  forall n, n = bs "bbox" \/ n = bs "bounds" -> n <> bs "tag" /\ n <> bs "nd" /\ n <> bs "member".
Proof. split_and!; [done..|]. by intros n [-> | ->]. Qed.

(** Settles the name tests in order. *)
Ltac by_name :=
  repeat (first
    [ rewrite decide_True by first [done|by split|by (split; [|destruct_or?; tauto])]
    | rewrite decide_False by first [done|by intros [? ?]] ]).

Lemma child_trace a k e (t : list Call) :
  child_ok a k e -> map_fault (handle_element_child (tag_name e) e a k t) = (t ++ child_calls a k e, Ok tt).
Proof.
  destruct child_names as (N1 & N2 & N3 & N4). intros Hc. unfold handle_element_child, child_calls. unfold child_ok in Hc.
  generalize dependent (bs "tag"). generalize dependent (bs "nd"). generalize dependent (bs "member").
  generalize (bs "bbox") as BB. generalize (bs "bounds") as BO. intros BO BB ME ND TA N1 N2 N3 N4 Hc.
  assert ((tag_name e = BB \/ tag_name e = BO) /\ k <> Node -> (tag_name e = BB \/ tag_name e = BO) /\ (k = Way \/ k = Relation)) as Hbox.
  { intros [Hn Hk]. split; [done|]. destruct k; [done|by left|by right]. }
  destruct (decide (a = ActDelete)) as [->|Ha].
  - rewrite (bool_decide_false (ActDelete <> ActDelete)), app_nil_r by auto. destruct Hc as [(-> & Hp)|[(-> & -> & Hp)|[(-> & -> & Hp)|Hn]]].
    + by_name. destruct (Hp eq_refl) as [p Hp']. by rewrite Hp'.
    + by_name. destruct (Hp eq_refl) as [p Hp']. by rewrite Hp'.
    + by_name. destruct (Hp eq_refl) as [p Hp']. by rewrite Hp'.
    + destruct (N4 _ (proj1 Hn)) as (? & ? & ?). apply Hbox in Hn. by_name. done.
  - rewrite bool_decide_true by done. destruct Hc as [(-> & Hp)|[(-> & -> & Hp)|[(-> & -> & Hp)|Hn]]].
    + by_name. done.
    + by_name. done.
    + by_name. done.
    + destruct (N4 _ (proj1 Hn)) as (? & ? & ?). apply Hbox in Hn. by_name. cbn. by rewrite app_nil_r.
Qed.

Lemma leaf_drives a k l : child_ok a k (lf_tag l) -> drives (leaf_events l) (mkDrive LElement a k) (mkDrive LElement a k) (child_calls a k (lf_tag l)).
Proof.
  intros Hc. assert (forall t : list Call, handle_open (lf_tag l) (lf_closed l) (mkDrive LElement a k) t =
    (t ++ child_calls a k (lf_tag l), Ok (mkDrive (if lf_closed l then LElement else LLeaf) a k))) as Hopen.
  { intros t. unfold handle_open. cbn [level section open]. rewrite child_trace by done. by destruct (lf_closed l). }
  unfold leaf_events. destruct (lf_closed l).
  - by apply drives_one.
  - intros t. cbn [drive_steps drive_event]. rewrite Hopen. done.
Qed.

(** From the section level to itself; the open kind is left behind. *)
Lemma object_drives a o st :
  object_ok a o -> level st = LSection -> section st = a ->
  exists st', drives (object_events o) st st' (object_calls a o) /\ level st' = LSection /\ section st' = a.
Proof.
  destruct st as [l sec op]. cbn. intros (k & Ek & Hk) -> ->. unfold object_events, object_calls. rewrite Ek.
  unfold kids in *. destruct (ob_children o) as [ls|]; cbn [wrap default] in *.
  - exists (mkDrive LSection a k). split_and!; [|done|done]. apply (drives_app _ _ _ (mkDrive LElement a k)).
    + apply drives_one. intros t. cbn. by rewrite Ek.
    + apply (drives_app _ _ _ (mkDrive LElement a k)); [|by apply drives_one].
      apply drives_all. eapply Forall_impl; [exact Hk|]. intros l. apply leaf_drives.
  - exists (mkDrive LSection a op). split_and!; [|done|done]. apply drives_one. intros t. cbn. rewrite Ek. cbn. by rewrite <- app_assoc.
Qed.

Lemma objects_drive a os st :
  Forall (object_ok a) os -> level st = LSection -> section st = a ->
  exists st', drives (concat (object_events <$> os)) st st' (concat (object_calls a <$> os)) /\ level st' = LSection /\ section st' = a.
Proof.
  intros Hos. revert st. induction Hos as [|o os Ho _ IH]; intros st Hl Ha; cbn.
  - exists st. split_and!; [apply drives_nil|done|done].
  - destruct (object_drives a o st Ho Hl Ha) as (st1 & H1 & Hl1 & Ha1). destruct (IH st1 Hl1 Ha1) as (st2 & H2 & Hl2 & Ha2).
    exists st2. split_and!; [by eapply drives_app|done|done].
Qed.

Lemma part_drives p st :
  part_ok p -> level st = LRoot -> exists st', drives (part_events p) st st' (part_calls p) /\ level st' = LRoot.
Proof.
  intros Hp Hl. destruct p as [e os|l]; cbn [part_events part_calls part_ok] in *.
  - destruct Hp as (a & Ea & Hos). rewrite Ea. destruct os as [os|]; cbn [wrap default] in *.
    + destruct (objects_drive a os (mkDrive LSection a (open st)) Hos eq_refl eq_refl) as (st' & Hd & Hl' & Ha').
      exists (at_level st' LRoot). split; [|done]. apply (drives_app [EvStart e] _ _ (mkDrive LSection a (open st)) _ [] _).
      * apply drives_one. intros t. cbn [drive_event]. unfold handle_open. by rewrite Hl, Ea, app_nil_r.
      * rewrite <- (app_nil_r (concat (object_calls a <$> os))). eapply drives_app; [done|]. apply drives_one. intros t. cbn [drive_event]. unfold handle_close. by rewrite Hl', app_nil_r.
    + exists st. split; [|done]. apply drives_one. intros t. cbn [drive_event]. unfold handle_open. rewrite Hl, Ea. cbn. by rewrite app_nil_r.
  - destruct Hp as (Ha & Hk & Hn). unfold leaf_events. destruct l as [e []]; cbn [lf_tag lf_closed] in *.
    + exists st. split; [|done]. apply drives_one. intros t. cbn [drive_event]. unfold handle_open. by rewrite Hl, Ha, Hk, decide_False, app_nil_r.
    + exists (at_level st LRoot). split; [|done]. intros t. cbn [drive_steps drive_event]. unfold handle_open at 1.
      by rewrite Hl, Ha, Hk, decide_False, app_nil_r.
Qed.

Lemma parts_drive ps st :
  Forall part_ok ps -> level st = LRoot -> exists st', drives (concat (part_events <$> ps)) st st' (concat (part_calls <$> ps)) /\ level st' = LRoot.
Proof.
  intros Hps. revert st. induction Hps as [|p ps Hp _ IH]; intros st Hl; cbn.
  - exists st. by split; [apply drives_nil|].
  - destruct (part_drives p st Hp Hl) as (st1 & H1 & Hl1). destruct (IH st1 Hl1) as (st2 & H2 & Hl2).
    exists st2. by split; [eapply drives_app|].
Qed.

Lemma document_drives d :
  document_ok d -> exists st', drives (document_events d) drive_init st' (document_calls d) /\ level st' = LDone.
Proof.
  intros [Hn Hps]. unfold document_events, document_calls. destruct (do_parts d) as [ps|]; cbn [wrap default] in *.
  - destruct (parts_drive ps (at_level drive_init LRoot) Hps eq_refl) as (st' & Hd & Hl).
    exists (at_level st' LDone). split; [|done]. apply (drives_app [_] _ _ (at_level drive_init LRoot) _ [] _).
    + apply drives_one. intros t. cbn [drive_event]. unfold handle_open. cbn [level drive_init]. by rewrite decide_True, app_nil_r.
    + rewrite <- (app_nil_r (concat (part_calls <$> ps))). eapply drives_app; [done|]. apply drives_one. intros t. cbn [drive_event]. unfold handle_close. by rewrite Hl, app_nil_r.
  - exists (at_level drive_init LDone). split; [|done]. apply drives_one. intros t. cbn [drive_event]. unfold handle_open. cbn [level drive_init concat fmap list_fmap]. by rewrite decide_True, app_nil_r.
Qed.

(** ** Nothing else is accepted *)

Lemma child_back a k e (t t' : list Call) :
  map_fault (handle_element_child (tag_name e) e a k t) = (t', Ok tt) -> child_ok a k e.
Proof.
  unfold handle_element_child, child_ok.
  assert (forall A (r : result Error A), (if bool_decide (a <> ActDelete) then True else is_ok r) -> a = ActDelete -> is_ok r) as Hlive.
  { intros A r Hr ->. by rewrite (bool_decide_false (ActDelete <> ActDelete)) in Hr by auto. }
  destruct (decide (tag_name e = bs "tag")) as [En|_]; [|destruct (decide (tag_name e = bs "nd" /\ k = Way)) as [[En ->]|_];
    [|destruct (decide (tag_name e = bs "member" /\ k = Relation)) as [[En ->]|_]; [|destruct (decide (_ /\ _)) as [[En Hk]|_]]]].
  - intros E. left. split; [done|]. apply Hlive. destruct (bool_decide _); [done|]. destruct (parse_tag e); [by eexists|done].
  - intros E. right; left. split_and!; [done..|]. apply Hlive. destruct (bool_decide _); [done|]. destruct (parse_nd e); [by eexists|done].
  - intros E. right; right; left. split_and!; [done..|]. apply Hlive. destruct (bool_decide _); [done|]. destruct (parse_member e); [by eexists|done].
  - intros _. do 3 right. split; [done|]. by destruct Hk as [-> | ->].
  - done.
Qed.

(** Where a consumed stream stands: the finished parts, then what is open. *)
Inductive point : DriveState -> list Event -> list Call -> Prop :=
| PtDoc st : level st = LDoc -> point st [] []
| PtRoot st e ps : level st = LRoot -> tag_name e = bs "osmChange" -> Forall part_ok ps ->
    point st ([EvStart e] ++ concat (part_events <$> ps)) (concat (part_calls <$> ps))
| PtOther st e ps x : level st = LOther -> tag_name e = bs "osmChange" -> Forall part_ok ps -> other_name (tag_name x) ->
    point st ([EvStart e] ++ concat (part_events <$> ps) ++ [EvStart x]) (concat (part_calls <$> ps))
| PtSection st e ps x os : level st = LSection -> tag_name e = bs "osmChange" -> Forall part_ok ps ->
    action_for (tag_name x) = Some (section st) -> Forall (object_ok (section st)) os ->
    point st ([EvStart e] ++ concat (part_events <$> ps) ++ [EvStart x] ++ concat (object_events <$> os))
      (concat (part_calls <$> ps) ++ concat (object_calls (section st) <$> os))
| PtElement st e ps x os y ls : level st = LElement -> tag_name e = bs "osmChange" -> Forall part_ok ps ->
    action_for (tag_name x) = Some (section st) -> Forall (object_ok (section st)) os ->
    name_kind (tag_name y) = Some (open st) -> Forall (fun l => child_ok (section st) (open st) (lf_tag l)) ls ->
    point st ([EvStart e] ++ concat (part_events <$> ps) ++ [EvStart x] ++ concat (object_events <$> os) ++ [EvStart y] ++ concat (leaf_events <$> ls))
      (concat (part_calls <$> ps) ++ concat (object_calls (section st) <$> os) ++ [CBegin (section st) (open st) y] ++
        concat ((fun l => child_calls (section st) (open st) (lf_tag l)) <$> ls))
| PtLeaf st e ps x os y ls z : level st = LLeaf -> tag_name e = bs "osmChange" -> Forall part_ok ps ->
    action_for (tag_name x) = Some (section st) -> Forall (object_ok (section st)) os ->
    name_kind (tag_name y) = Some (open st) -> Forall (fun l => child_ok (section st) (open st) (lf_tag l)) ls ->
    child_ok (section st) (open st) z ->
    point st ([EvStart e] ++ concat (part_events <$> ps) ++ [EvStart x] ++ concat (object_events <$> os) ++ [EvStart y] ++ concat (leaf_events <$> ls) ++ [EvStart z])
      (concat (part_calls <$> ps) ++ concat (object_calls (section st) <$> os) ++ [CBegin (section st) (open st) y] ++
        concat ((fun l => child_calls (section st) (open st) (lf_tag l)) <$> ls) ++ child_calls (section st) (open st) z)
| PtDone st d : level st = LDone -> document_ok d -> point st (document_events d) (document_calls d).

Lemma point_eq st evs cs evs' cs' : point st evs cs -> evs = evs' -> cs = cs' -> point st evs' cs'.
Proof. by intros ? <- <-. Qed.

Lemma concat_snoc {A B} (f : A -> list B) l x : concat (f <$> (l ++ [x])) = concat (f <$> l) ++ f x.
Proof. rewrite fmap_app, concat_app. cbn. by rewrite app_nil_r. Qed.

(** Rearranges appends and closes the goal. *)
Ltac flat := unfold document_events, document_calls, part_events, part_calls, object_events, object_calls, leaf_events, kids;
  cbn [wrap default lf_tag lf_closed ob_tag ob_children do_tag do_parts];
  rewrite ?concat_snoc; cbn [wrap default lf_tag lf_closed ob_tag ob_children do_tag do_parts section open at_level concat fmap list_fmap];
  repeat progress (rewrite <- ?app_assoc; cbn [app]); rewrite ?app_nil_r; try done.

Lemma open_point e c st st' evs cs cs' :
  point st evs cs -> handle_open e c st cs = (cs', Ok st') -> point st' (evs ++ [if c then EvEmpty e else EvStart e]) cs'.
Proof.
  intros Hp. unfold handle_open. destruct Hp as [st Hl|st r ps Hl Hr Hps|st r ps x Hl Hr Hps Hx|st r ps x os Hl Hr Hps Hx Hos|
    st r ps x os y ls Hl Hr Hps Hx Hos Hy Hls|st r ps x os y ls z Hl Hr Hps Hx Hos Hy Hls Hz|st d Hl Hd]; rewrite Hl; [..|done].
  - destruct (decide _) as [En|]; [|done]. intros [= <- <-]. destruct c.
    + eapply point_eq; [apply (PtDone _ (mkDocument e None)); [done|by split; [|constructor]]|by flat..].
    + eapply point_eq; [apply (PtRoot _ e []); [done..|constructor]|by flat..].
  - destruct (action_for (tag_name e)) as [a|] eqn:Ea.
    + intros [= <- <-]. destruct c.
      * eapply point_eq; [apply (PtRoot _ r (ps ++ [PSection e None])); [done..|apply Forall_app; split; [done|]]|flat|].
        -- apply Forall_singleton. exists a. by split; [|constructor].
        -- rewrite concat_snoc. cbn [part_calls default]. by rewrite Ea, app_nil_r.
      * eapply point_eq; [apply (PtSection _ r ps e []); [done..|constructor]|flat..].
    + destruct (name_kind (tag_name e)) eqn:Ek; [done|]. destruct (decide _) as [|Hn]; [done|]. intros [= <- <-]. destruct c.
      * eapply point_eq; [apply (PtRoot _ r (ps ++ [POther (mkLeaf e true)])); [done..|apply Forall_app; split; [done|]]| |]; [by apply Forall_singleton|flat..].
      * eapply point_eq; [apply (PtOther _ r ps e); done|flat..].
  - done.
  - destruct (name_kind (tag_name e)) as [k|] eqn:Ek; [|done]. destruct c; cbn; intros [= <- <-].
    + eapply point_eq; [apply (PtSection _ r ps x (os ++ [mkObject e None])); [done..|apply Forall_app; split; [done|]]|flat|].
      * apply Forall_singleton. exists k. by split; [|constructor].
      * rewrite concat_snoc. unfold object_calls at 2, kids. cbn. by rewrite Ek, <- !app_assoc.
    + eapply point_eq; [apply (PtElement _ r ps x os e []); [done..|constructor]|flat..].
  - destruct (map_fault _) as [t [[]|]] eqn:Em; [|done]. pose proof (child_back _ _ _ _ _ Em) as Hc.
    rewrite child_trace in Em by done. injection Em as <-. cbn. intros [= <- <-]. destruct c.
    + eapply point_eq; [apply (PtElement _ r ps x os y (ls ++ [mkLeaf e true])); [done..|apply Forall_app; split; [done|by apply Forall_singleton]]|flat..].
    + eapply point_eq; [by apply (PtLeaf _ r ps x os y ls e)|flat..].
  - done.
Qed.

Lemma close_point st st' evs cs cs' :
  point st evs cs -> level st <> LDoc -> level st <> LDone -> handle_close st cs = (cs', Ok st') -> point st' (evs ++ [EvEnd]) cs'.
Proof.
  intros Hp N1 N2. unfold handle_close. destruct Hp as [st Hl|st r ps Hl Hr Hps|st r ps x Hl Hr Hps Hx|st r ps x os Hl Hr Hps Hx Hos|
    st r ps x os y ls Hl Hr Hps Hx Hos Hy Hls|st r ps x os y ls z Hl Hr Hps Hx Hos Hy Hls Hz|st d Hl Hd]; rewrite Hl; [done| | | | | |done].
  - intros [= <- <-]. eapply point_eq; [apply (PtDone _ (mkDocument r (Some ps))); [done|by split]|flat..].
  - intros [= <- <-]. eapply point_eq; [apply (PtRoot _ r (ps ++ [POther (mkLeaf x false)])); [done..|apply Forall_app; split; [done|by apply Forall_singleton]]|flat..].
  - intros [= <- <-]. eapply point_eq; [apply (PtRoot _ r (ps ++ [PSection x (Some os)])); [done..|apply Forall_app; split; [done|]]|flat|].
    + apply Forall_singleton. by exists (section st).
    + rewrite concat_snoc. cbn [part_calls default]. by rewrite Hx.
  - cbn. intros [= <- <-]. eapply point_eq; [apply (PtSection _ r ps x (os ++ [mkObject y (Some ls)])); [done..|apply Forall_app; split; [done|]]|flat|].
    + apply Forall_singleton. by exists (open st).
    + rewrite concat_snoc. unfold object_calls at 2, kids. cbn [ob_tag ob_children default section at_level]. rewrite Hy, <- !app_assoc. done.
  - intros [= <- <-]. eapply point_eq; [apply (PtElement _ r ps x os y (ls ++ [mkLeaf z false])); [done..|apply Forall_app; split; [done|by apply Forall_singleton]]|flat..].
Qed.

(** ** The reader's promise

    quick-xml matches end tags: an [End] always closes an open [Start]. *)

Fixpoint depth (n : nat) (events : list Event) : option nat :=
  match events with
  | [] => Some n
  | EvStart _ :: events => depth (S n) events
  | EvEnd :: events => match n with O => None | S n => depth n events end
  | _ :: events => depth n events
  end.

Definition level_depth (l : Level) : nat :=
  match l with LDoc | LDone => 0 | LRoot => 1 | LOther | LSection => 2 | LElement => 3 | LLeaf => 4 end.

Definition is_markup (ev : Event) : bool := match ev with EvOther => false | _ => true end.

(** Text, comments and processing instructions are skipped wherever they are. *)
Definition strip (events : list Event) : list Event := filter (fun ev => is_markup ev = true) events.

Lemma strip_steps {S} `{!OscSink S} events st (s : S) : drive_steps events st s = drive_steps (strip events) st s.
Proof.
  revert st s. induction events as [|ev events IH]; intros st s; [done|]. unfold strip. rewrite filter_cons.
  destruct (decide (is_markup ev = true)) as [_|Hm].
  - cbn [drive_steps]. destruct (drive_event ev st s) as [s' [st'|]]; [apply IH|done].
  - destruct ev; try done. cbn [drive_steps drive_event and_then]. apply IH.
Qed.

Lemma strip_depth n events : depth n events = depth n (strip events).
Proof.
  revert n. induction events as [|ev events IH]; intros n; [done|]. unfold strip. rewrite filter_cons.
  destruct ev; cbn [is_markup]; try (rewrite decide_True by done); cbn [depth]; [apply IH|apply IH|destruct n; [done|apply IH]|apply IH..].
Qed.

Lemma and_then_ok {T A B} (m : T * result Error A) (k : A -> T -> T * result Error B) s b :
  and_then m k = (s, Ok b) -> exists a s1, m = (s1, Ok a) /\ k a s1 = (s, Ok b).
Proof. destruct m as [s1 [a|]]; [|done]. by exists a, s1. Qed.

Ltac open_steps := repeat match goal with Ha : and_then _ _ = (_, Ok _) |- _ => apply and_then_ok in Ha as (? & ? & ? & ?) end.

Lemma event_depth {T} `{!OscSink T} ev st st' (s s' : T) :
  drive_event ev st s = (s', Ok st') ->
  level_depth (level st') =
    match ev with EvStart _ => S (level_depth (level st)) | EvEnd => pred (level_depth (level st)) | _ => level_depth (level st) end.
Proof.
  destruct ev as [e|e| | |x| |]; cbn [drive_event]; try done; [| | |by intros [= <- <-]].
  - unfold handle_open. destruct (level st) eqn:El; try done; repeat case_match; intros; open_steps; simplify_eq/=; by rewrite ?El.
  - unfold handle_open. destruct (level st) eqn:El; try done; repeat case_match; intros; open_steps; simplify_eq/=; by rewrite ?El.
  - unfold handle_close. destruct (level st) eqn:El; try done; repeat case_match; intros; open_steps; simplify_eq/=; by rewrite ?El.
Qed.

Lemma steps_point events st st' evs (cs cs' : list Call) :
  point st evs cs -> is_Some (depth (level_depth (level st)) events) -> Forall (fun ev => is_markup ev = true) events ->
  drive_steps events st cs = (cs', Ok st') -> point st' (evs ++ events) cs'.
Proof.
  revert st evs cs. induction events as [|ev events IH]; intros st evs cs Hp Hd Hm Hs; cbn [drive_steps] in Hs.
  { simplify_eq. by rewrite app_nil_r. }
  apply Forall_cons in Hm as [Hm Hms]. destruct (drive_event ev st cs) as [cs1 [st1|]] eqn:E; [|done]. cbn [and_then] in Hs.
  pose proof (event_depth _ _ _ _ _ E) as Hdep. change (ev :: events) with ([ev] ++ events). rewrite app_assoc. apply (IH st1 _ cs1); [| |done|done].
  - destruct ev as [e|e| | |x| |]; cbn [drive_event] in E; [by eapply (open_point e false)|by eapply (open_point e true)| |done..].
    cbn [depth] in Hd. eapply close_point; [done| | |done]; intros Hl; rewrite Hl in Hd; by destruct Hd.
  - destruct ev; cbn [depth] in Hd; rewrite Hdep; try done. destruct (level_depth (level st)); [by destruct Hd|done].
Qed.

Lemma strip_markup events : Forall (fun ev => is_markup ev = true) (strip events).
Proof. apply Forall_forall. intros ev Hev. by apply list_elem_of_filter in Hev as [? _]. Qed.

Lemma drive_osc_steps {S} `{!OscSink S} events (s : S) : drive_osc events s = and_then (drive_steps (strip events) drive_init s) at_end.
Proof. unfold drive_osc. by rewrite drive_loop_steps, strip_steps. Qed.

Lemma accepts_document events cs :
  is_Some (depth 0 events) -> drive_osc events [] = (cs, Ok tt) ->
  exists d, document_ok d /\ strip events = document_events d /\ cs = document_calls d.
Proof.
  intros Hd Hr. rewrite drive_osc_steps in Hr. destruct (drive_steps _ _ _) as [cs' [st|]] eqn:E; [|done]. cbn [and_then] in Hr.
  unfold at_end in Hr. destruct (decide (level st = LDone)) as [Hl|]; [|done]. injection Hr as <-. rewrite strip_depth in Hd.
  pose proof (steps_point _ drive_init st [] [] cs' (PtDoc drive_init eq_refl) Hd (strip_markup events) E) as Hp.
  cbn [app] in Hp. inversion Hp; try congruence. by exists d.
Qed.

Lemma document_accepted d events : document_ok d -> strip events = document_events d -> drive_osc events [] = (document_calls d, Ok tt).
Proof.
  intros Hok He. rewrite drive_osc_steps, He. destruct (document_drives d Hok) as (st & Hd & Hl). rewrite Hd. cbn [and_then app].
  unfold at_end. by rewrite decide_True.
Qed.

(** C28. The driver accepts exactly the change documents: of the streams an XML
    reader yields (no end tag without its start), those are accepted whose
    markup is that of a document tree, [osmChange] over sections and ignored
    leaves, sections over objects, objects over the children their kind may
    have (well-formed ones, inside a delete), and the calls made are the tree's
    in document order; text and comments change nothing. *)
Theorem osc_accepts_documents (events : list Event) (cs : list Call) :
  is_Some (depth 0 events) ->
  drive_osc events [] = (cs, Ok tt) <->
    exists d, document_ok d /\ strip events = document_events d /\ cs = document_calls d.
Proof.
  intros Hd. split; [by apply accepts_document|]. intros (d & Hok & He & ->). by apply document_accepted.
Qed.

(** *** A document's events close what they open *)

Definition neutral (events : list Event) : Prop :=
  (forall n rest, depth n (events ++ rest) = depth n rest) /\ Forall (fun ev => match ev with EvStart _ | EvEmpty _ | EvEnd => True | _ => False end) events.

Lemma neutral_app a b : neutral a -> neutral b -> neutral (a ++ b).
Proof. intros [Ha Ma] [Hb Mb]. split; [|by apply Forall_app]. intros n rest. by rewrite <- app_assoc, Ha, Hb. Qed.

Lemma neutral_wrap {A} (f : A -> list Event) e body : (forall x, neutral (f x)) -> neutral (wrap f e body).
Proof.
  intros Hf. destruct body as [l|]; cbn [wrap]; [|split; [done|by repeat constructor]].
  assert (neutral (concat (f <$> l))) as [Hl Ml].
  { induction l as [|x l IH]; [by split; [|constructor]|]. cbn. by apply neutral_app. }
  split; [|by repeat first [apply Forall_app; split|constructor|done]]. intros n rest. cbn [app depth]. rewrite <- app_assoc, Hl. done.
Qed.

Lemma neutral_leaf l : neutral (leaf_events l).
Proof. unfold leaf_events. destruct (lf_closed l); (split; [done|by repeat constructor]). Qed.

Lemma neutral_document d : neutral (document_events d).
Proof.
  apply neutral_wrap. intros [e os|l]; [|apply neutral_leaf]. apply neutral_wrap. intros o. apply neutral_wrap, neutral_leaf.
Qed.

Lemma steps_depth {T} `{!OscSink T} events st st' (s s' : T) :
  drive_steps events st s = (s', Ok st') -> is_Some (depth (level_depth (level st)) events) ->
  depth (level_depth (level st)) events = Some (level_depth (level st')).
Proof.
  revert st s. induction events as [|ev events IH]; intros st s Hs Hd; cbn [drive_steps] in Hs; [by simplify_eq|].
  destruct (drive_event ev st s) as [s1 [st1|]] eqn:E; [|done]. cbn [and_then] in Hs. pose proof (event_depth _ _ _ _ _ E) as Hdep.
  specialize (IH st1 s1 Hs). rewrite Hdep in IH. destruct ev; cbn [depth] in *; try by apply IH.
  destruct (level_depth (level st)); [by destruct Hd|by apply IH].
Qed.

Lemma steps_extend events st (t t' : list Call) r : drive_steps events st t = (t', r) -> t `prefix_of` t'.
Proof.
  revert st t. induction events as [|ev events IH]; intros st t Hs; cbn [drive_steps] in Hs; [by simplify_eq|].
  destruct (event_made ev st) as (cs & r1 & Hm & _). specialize (Hm _ _ t). cbn beta in Hm. rewrite Hm, trace_calls in Hs.
  cbn [and_then] in Hs. destruct r1 as [st1|]; cbn [and_then] in Hs; [|simplify_eq; by eexists].
  apply IH in Hs. etrans; [|exact Hs]. by eexists.
Qed.

Lemma depth_app n a b : depth n (a ++ b) = m ← depth n a; depth m b.
Proof. revert n. induction a as [|ev a IH]; intros n; [done|]. destruct ev; cbn [app depth]; try apply IH. destruct n; [done|apply IH]. Qed.

Lemma tame_strip events :
  Forall (fun ev => match ev with EvStart _ | EvEmpty _ | EvEnd => True | _ => False end) events -> strip events = events.
Proof.
  induction 1 as [|ev evs Hev _ IH]; [done|]. unfold strip. rewrite filter_cons, decide_True by by destruct ev. f_equal. exact IH.
Qed.

(** C34. A truncated document is refused: a stream that ends anywhere inside a
    document, even between two of its sections, is reported as truncated, after
    calls the whole document starts with. *)
Theorem osc_truncation_refused (d : Document) (events rest : list Event) :
  document_ok d -> document_events d = events ++ rest -> rest <> [] ->
  exists cs, drive_osc events [] = (cs, Err (located TruncatedDocument)) /\ cs `prefix_of` document_calls d.
Proof.
  intros Hok He Hr. destruct (document_drives d Hok) as (st' & Hd & Hl'). destruct (neutral_document d) as [Hn Hm].
  specialize (Hn 0%nat []). rewrite app_nil_r, He, depth_app in Hn. rewrite He in Hd, Hm. apply Forall_app in Hm as [Hm Hmr].
  rewrite drive_osc_steps, tame_strip by done. specialize (Hd []). rewrite drive_steps_app in Hd.
  destruct (drive_steps events drive_init []) as [cs [st|]] eqn:E; [|done]. cbn [and_then app] in *. exists cs. split; [|by eapply steps_extend].
  unfold at_end. rewrite decide_False; [done|]. intros Hl. destruct (depth 0 events) as [m|] eqn:Ed; [|done].
  pose proof (steps_depth _ _ _ _ _ E ltac:(exists m; exact Ed)) as Hdep. cbn [level drive_init level_depth] in Hdep.
  rewrite Hdep, Hl in Ed. injection Ed as <-. cbn [mbind option_bind] in Hn.
  destruct rest as [|ev rest]; [done|]. apply Forall_cons in Hmr as [Hev _].
  destruct ev; cbn [drive_steps drive_event] in Hd; try done; unfold handle_open in Hd; by rewrite Hl in Hd.
Qed.
End OscDoc.

Import RefXml.

(** The document of [sample_document]. *)
Definition sample_tree : Document :=
  mkDocument (elem "osmChange" " version='0.6'") (Some
    [POther (mkLeaf (elem "bounds" "") true);
     PSection (elem "create" "") (Some [mkObject (elem "node" " id='7' version='1' lat='10' lon='-20' user='ann'")
       (Some [mkLeaf (elem "tag" " k='name' v='x'") true])]);
     PSection (elem "delete" "") (Some [mkObject (elem "way" " id='3' version='2'") (Some [mkLeaf (elem "nd" " ref='7'") true])]);
     PSection (elem "modify" "") (Some [mkObject (elem "relation" " id='4' version='5' timestamp='2026-02-20T21:39:49Z'")
       (Some [mkLeaf (elem "member" " type='way' ref='3' role='outer'") true; mkLeaf (elem "tag" " k='type' v='x'") false])])]).

Definition is_okb {E A} (r : result E A) : bool := match r with Ok _ => true | Err _ => false end.

Lemma is_okb_ok {E A} (r : result E A) : is_okb r = true -> is_ok r.
Proof. destruct r as [a|]; [by exists a|done]. Qed.

Lemma sample_tree_ok : document_ok sample_tree.
Proof.
  split; [vm_compute; reflexivity|]. repeat apply Forall_cons_2; [| | | |constructor].
  - split_and!; [vm_compute; reflexivity|vm_compute; reflexivity|done].
  - exists ActCreate. split; [vm_compute; reflexivity|]. apply Forall_singleton. exists Node. split; [vm_compute; reflexivity|]. apply Forall_singleton. left. by split.
  - exists ActDelete. split; [vm_compute; reflexivity|]. apply Forall_singleton. exists Way. split; [vm_compute; reflexivity|]. apply Forall_singleton.
    right; left. split_and!; [done..|]. intros _. apply is_okb_ok. vm_compute. reflexivity.
  - exists ActModify. split; [vm_compute; reflexivity|]. apply Forall_singleton. exists Relation. split; [vm_compute; reflexivity|].
    apply Forall_cons. split; [right; right; left; by split_and!|]. apply Forall_singleton. left. by split.
Qed.

Lemma osc_accepts_documents_witness : drive_osc sample_document [] = (document_calls sample_tree, Ok tt).
Proof.
  apply (osc_accepts_documents sample_document (document_calls sample_tree)); [by eexists|]. exists sample_tree.
  split; [exact sample_tree_ok|]. split; reflexivity.
Defined.

(** Cut before the last section and the closing tag. *)
Lemma osc_truncation_refused_witness :
  exists cs, drive_osc (take 12 (document_events sample_tree)) [] = (cs, Err (located TruncatedDocument)) /\
    cs `prefix_of` document_calls sample_tree.
Proof.
  apply (osc_truncation_refused sample_tree _ (drop 12 (document_events sample_tree)));
    [exact sample_tree_ok|by rewrite take_drop|discriminate].
Defined.
