(* ===== verification/OscCompact.v ===== *)
(** * The overlay sink (src/src/osc/xml_parse.rs, [CompactSink])

    apply-changes drives a document into a sink that stages one object at a
    time, interning its strings, and pushes it into the overlay when it ends; a
    delete goes in when it begins.  [read_object] is what an object of the
    document means on its own, and [accept] the outcome of reading the objects
    in order. *)

From S2P Require Import Prelude StdText Timestamp ElementKind Encode Utf8.
From S2P Require Import OscInterner VersionFloor OscArena OscOverlay OscXml OscLex OscDoc.

Section OscCompact.
Context `{QuickXml}.

(** ** Metadata *)

Definition set_flags (m : ArenaMeta) (flag : Z) : ArenaMeta :=
  mkArenaMeta (Z.lor (am_flags m) flag) (am_version m) (am_timestamp m) (am_changeset m) (am_uid m) (am_user_id m).

(** The closure of [arena_meta]: the metadata and the user's name so far. *)
Definition meta_step (field : MetaField) (text : bytes) (x : ArenaMeta * option bytes) : result Error (ArenaMeta * option bytes) :=
  let '(m, user) := x in
  match field with
  | FVersion =>
      v ← meta_int parse_i32 field text;
      Ok (set_flags (mkArenaMeta (am_flags m) v (am_timestamp m) (am_changeset m) (am_uid m) (am_user_id m)) META_FLAG_HAS_VERSION, user)
  | FTimestamp =>
      match parse_rfc3339_utc text with
      | Ok ts => Ok (mkArenaMeta (am_flags m) (am_version m) ts (am_changeset m) (am_uid m) (am_user_id m), user)
      | Err err => Err (unlocated (BadTimestamp text err))
      end
  | FChangeset =>
      v ← meta_int parse_i64 field text;
      Ok (mkArenaMeta (am_flags m) (am_version m) (am_timestamp m) v (am_uid m) (am_user_id m), user)
  | FUid =>
      v ← meta_int parse_i32 field text;
      Ok (mkArenaMeta (am_flags m) (am_version m) (am_timestamp m) (am_changeset m) v (am_user_id m), user)
  | FUser =>
      match normalize text with Ok name => Ok (m, Some name) | Err x => Err (unlocated (MalformedXml x)) end
  | FVisible => Ok (if decide (text = bs "false") then set_flags m META_FLAG_HIDDEN else m, user)
  end.

(** [overlay.intern(s)?] *)
Definition intern_in (o : CompactDiffOverlay) (s : bytes) : CompactDiffOverlay * result Error Z :=
  match overlay_intern o s with
  | Ok (id, o) => (o, Ok id)
  | Err e => (o, Err (unlocated (OverlayRefused e)))
  end.

Definition arena_meta (e : BytesStart) (o : CompactDiffOverlay) : CompactDiffOverlay * result Error ArenaMeta :=
  match scan_meta_attrs e meta_step (ArenaMeta_default, None) with
  | Err err => (o, Err err)
  | Ok (present, (m, user)) =>
      let m := if present then set_flags m META_FLAG_PRESENT else m in
      match user with
      | None => (o, Ok m)
      | Some name =>
          and_then (intern_in o name) (fun id o =>
            (o, Ok (set_flags (mkArenaMeta (am_flags m) (am_version m) (am_timestamp m) (am_changeset m) (am_uid m) id) META_FLAG_HAS_USER)))
      end
  end.

(** ** Coordinates *)

Definition coord_to_decimicro (e : BytesStart) (name : string) (id : Z) : result Error Z :=
  find_attr (attributes e) name (fun x => CoordMissing id name (MalformedXml x))
    (fun value => ok_or (degrees_e7 name value) (unlocated (CoordUnusable id name)))
    (Err (unlocated (CoordMissing id name (MissingAttr name)))).

(** ** The sink *)

Record Staging := mkStaging {
  sg_kind : ElementKind; sg_id : Z; sg_lat : Z; sg_lon : Z; sg_meta : ArenaMeta;
  sg_tag_keys : list Z; sg_tag_values : list bytes; sg_refs : list Z; sg_members : list (Z * Z * Z) }.

Record CompactSink := mkCompact { cs_overlay : CompactDiffOverlay; cs_staging : option Staging }.

Definition compact_new (o : CompactDiffOverlay) : CompactSink := mkCompact o None.

(** Run an operation of the overlay inside the sink. *)
Definition on_overlay {A} (s : CompactSink) (f : CompactDiffOverlay -> CompactDiffOverlay * result Error A) : CompactSink * result Error A :=
  let '(o, r) := f (cs_overlay s) in (mkCompact o (cs_staging s), r).

Definition overlay_refusal (r : CompactDiffOverlay * result OscError unit) : CompactDiffOverlay * result Error unit :=
  match r with (o, Ok u) => (o, Ok u) | (o, Err e) => (o, Err (unlocated (OverlayRefused e))) end.

Definition coords (kind : ElementKind) (e : BytesStart) (id : Z) : result Error (Z * Z) :=
  if decide (kind = Node) then
    lat ← coord_to_decimicro e "lat" id;
    lon ← coord_to_decimicro e "lon" id;
    Ok (lat, lon)
  else Ok (0, 0).

Definition compact_begin (action : OscAction) (kind : ElementKind) (e : BytesStart) (s : CompactSink) : CompactSink * result Error unit :=
  match parse_i64_attr e "id" with
  | Err err => (s, Err err)
  | Ok id =>
      and_then (on_overlay s (arena_meta e)) (fun m s =>
        if decide (action = ActDelete) then
          and_then (on_overlay s (fun o => overlay_refusal (delete_element o kind id m))) (fun _ s =>
            (mkCompact (cs_overlay s) None, Ok tt))
        else
          match coords kind e id with
          | Err err => (s, Err err)
          | Ok (lat, lon) => (mkCompact (cs_overlay s) (Some (mkStaging kind id lat lon m [] [] [] [])), Ok tt)
          end)
  end.

(** [self.staged()?], then an update of what is staged. *)
Definition staged (f : Staging -> Staging) (s : CompactSink) : CompactSink * result Error unit :=
  match cs_staging s with
  | None => (s, Err (unlocated NoStagedObject))
  | Some st => (mkCompact (cs_overlay s) (Some (f st)), Ok tt)
  end.

Definition compact_tag (e : BytesStart) (s : CompactSink) : CompactSink * result Error unit :=
  match parse_tag e with
  | Err err => (s, Err err)
  | Ok (k, v) =>
      and_then (on_overlay s (fun o => intern_in o k)) (fun key_id =>
        staged (fun st => mkStaging (sg_kind st) (sg_id st) (sg_lat st) (sg_lon st) (sg_meta st)
                            (sg_tag_keys st ++ [key_id]) (sg_tag_values st ++ [v]) (sg_refs st) (sg_members st)))
  end.

Definition compact_nd (e : BytesStart) (s : CompactSink) : CompactSink * result Error unit :=
  match parse_nd e with
  | Err err => (s, Err err)
  | Ok ref_id =>
      staged (fun st => mkStaging (sg_kind st) (sg_id st) (sg_lat st) (sg_lon st) (sg_meta st)
                          (sg_tag_keys st) (sg_tag_values st) (sg_refs st ++ [ref_id]) (sg_members st)) s
  end.

Definition compact_member (e : BytesStart) (s : CompactSink) : CompactSink * result Error unit :=
  match parse_member e with
  | Err err => (s, Err err)
  | Ok member =>
      match member_type_to_byte (member_type member) with
      | Err err => (s, Err (unlocated (OverlayRefused err)))
      | Ok type_byte =>
          and_then (on_overlay s (fun o => intern_in o (pm_role member))) (fun role_id =>
            staged (fun st => mkStaging (sg_kind st) (sg_id st) (sg_lat st) (sg_lon st) (sg_meta st)
                                (sg_tag_keys st) (sg_tag_values st) (sg_refs st) (sg_members st ++ [(pm_ref member, type_byte, role_id)])))
      end
  end.

Definition compact_end (s : CompactSink) : CompactSink * result Error unit :=
  match cs_staging s with
  | None => (s, Ok tt)
  | Some st =>
      let tags := zip (sg_tag_keys st) (sg_tag_values st) in
      on_overlay (mkCompact (cs_overlay s) None) (fun o =>
        overlay_refusal (match sg_kind st with
                | Node => push_node o (sg_id st) (sg_lat st) (sg_lon st) tags (sg_meta st)
                | Way => push_way o (sg_id st) (sg_refs st) tags (sg_meta st)
                | Relation => push_relation o (sg_id st) (sg_members st) tags (sg_meta st)
                end))
  end.

#[export] Instance compact_sink : OscSink CompactSink := {|
  END_ELEMENT_EMITS := false;
  begin_element := compact_begin;
  sink_tag := compact_tag;
  sink_nd := compact_nd;
  sink_member := compact_member;
  sink_end_element := compact_end |}.

(** [parse_osc_file_into]: the overlay after a document. *)
Definition parse_osc_into (events : list Event) (o : CompactDiffOverlay) : CompactDiffOverlay * result Error unit :=
  let '(s, r) := drive_osc events (compact_new o) in (cs_overlay s, r).
End OscCompact.
