(* ===== verification/OscRead.v ===== *)
(** * What a change document leaves in the overlay

    [read_object] is the meaning of one object of a document, [accept] the
    outcome of its objects in order under the version gate; the sink computes
    it, up to the arena's 32-bit limits, and the overlay then shows each
    object's last change with its strings. *)

From S2P Require Import Prelude StdText Timestamp ElementKind Encode Utf8.
From S2P Require Import OscInterner VersionFloor OscArena OscOverlay OscXml OscLex OscDoc OscCompact.

Section OscRead.
Context `{QuickXml}.

(** ** The meaning of an object *)

Inductive OscChange :=
| OUpsert (v : View) (claim : option Z)
| ODelete (k : ElementKind) (id : Z) (claim : option Z).

Definition view_key (v : View) : ElementKind * Z :=
  match v with VNode id _ _ _ _ => (Node, id) | VWay id _ _ _ => (Way, id) | VRelation id _ _ _ => (Relation, id) end.

Definition oc_key (c : OscChange) : ElementKind * Z := match c with OUpsert v _ => view_key v | ODelete k id _ => (k, id) end.
Definition oc_claim (c : OscChange) : option Z := match c with OUpsert _ claim | ODelete _ _ claim => claim end.

Record Body := mkBody { bo_tags : list (bytes * bytes); bo_refs : list Z; bo_members : list (MemberType * Z * bytes) }.

Definition read_child (c : Call) (b : Body) : result Error Body :=
  match c with
  | CTag e => '(k, v) ← parse_tag e; Ok (mkBody (bo_tags b ++ [(k, v)]) (bo_refs b) (bo_members b))
  | CNd e => r ← parse_nd e; Ok (mkBody (bo_tags b) (bo_refs b ++ [r]) (bo_members b))
  | CMember e => m ← parse_member e; Ok (mkBody (bo_tags b) (bo_refs b) (bo_members b ++ [(member_type m, pm_ref m, pm_role m)]))
  | CBegin _ _ _ | CEnd => Ok b
  end.

Fixpoint read_children (cs : list Call) (b : Body) : result Error Body :=
  match cs with [] => Ok b | c :: cs => b ← read_child c b; read_children cs b end.

(** The metadata of a tag, and the version it claims. *)
Definition read_info (e : BytesStart) : result Error (option Metadata * option Z) :=
  '(present, (m, user)) ← scan_meta_attrs e meta_step (ArenaMeta_default, None);
  Ok (if present : bool
      then Some (mkMetadata (am_version m) (am_timestamp m) (am_changeset m) (am_uid m) (default [] user)
                   (Z.land (am_flags m) META_FLAG_HIDDEN =? 0))
      else None, version_claim m).

Definition object_view (k : ElementKind) (id : Z) (pos : Z * Z) (meta : option Metadata) (b : Body) : View :=
  match k with
  | Node => VNode id pos.1 pos.2 (bo_tags b) meta
  | Way => VWay id (bo_refs b) (bo_tags b) meta
  | Relation => VRelation id (bo_members b) (bo_tags b) meta
  end.

(** An object: its section, kind, tag and the calls of its children. *)
Record Obj := mkObj { oj_action : OscAction; oj_kind : ElementKind; oj_tag : BytesStart; oj_kids : list Call }.

Definition read_object (x : Obj) : result Error OscChange :=
  id ← parse_i64_attr (oj_tag x) "id";
  '(meta, claim) ← read_info (oj_tag x);
  if decide (oj_action x = ActDelete) then Ok (ODelete (oj_kind x) id claim)
  else
    pos ← coords (oj_kind x) (oj_tag x) id;
    b ← read_children (oj_kids x) (mkBody [] [] []);
    Ok (OUpsert (object_view (oj_kind x) id pos meta b) claim).

(** The gate: the claim against the versions the object's earlier changes claimed. *)
Definition passes (allow : bool) (before : list OscChange) (c : OscChange) : result Fault unit :=
  if allow then Ok tt
  else match oc_claim c, floor_admit (object_floor oc_key oc_claim (oc_key c) before) (oc_claim c) with
       | Some v, Err held => Err (OverlayRefused (VersionRegression (oc_key c).1 (oc_key c).2 v held))
       | _, _ => Ok tt
       end.

(** The changes taken, up to the first object that is malformed or refused. *)
Fixpoint accept (allow : bool) (before : list OscChange) (xs : list Obj) : list OscChange * result Error unit :=
  match xs with
  | [] => (before, Ok tt)
  | x :: xs =>
      match read_object x with
      | Err err => (before, Err (input_fault err))
      | Ok c => match passes allow before c with
                | Err f => (before, Err (located f))
                | Ok _ => accept allow (before ++ [c]) xs
                end
      end
  end.

Definition obj_calls (x : Obj) : list Call := [CBegin (oj_action x) (oj_kind x) (oj_tag x)] ++ oj_kids x ++ [CEnd].

(** The objects of a document. *)
Definition objects_of (d : Document) : list Obj :=
  concat ((fun p => match p with
                    | POther _ => []
                    | PSection e os =>
                        match action_for (tag_name e) with
                        | None => []
                        | Some a => omap (fun o => k ← name_kind (tag_name (ob_tag o));
                            Some (mkObj a k (ob_tag o) (concat ((fun l => child_calls a k (lf_tag l)) <$> kids o)))) (default [] os)
                        end
                    end) <$> default [] (do_parts d)).

Lemma objects_calls d : document_calls d = concat (obj_calls <$> objects_of d).
Proof.
  unfold document_calls, objects_of. induction (default [] (do_parts d)) as [|p ps IH]; [done|]. cbn [fmap list_fmap concat].
  rewrite fmap_app, concat_app, <- IH. f_equal. destruct p as [e os|l]; [|done]. cbn [part_calls].
  destruct (action_for _) as [a|]; [|done]. clear IH. induction (default [] os) as [|o rest IH]; [done|]. cbn [fmap list_fmap concat].
  rewrite IH. unfold object_calls. cbn [omap list_omap]. destruct (name_kind _) as [k|]; cbn [mbind option_bind]; [|done]. done.
Qed.

(** ** Interned strings *)

Definition names (ss : list bytes) (id : Z) (s : bytes) : Prop := 0 <= id <= u32_max /\ ss !! Z.to_nat id = Some s.

Lemma names_mono ss ss' id s : ss `prefix_of` ss' -> names ss id s -> names ss' id s.
Proof. intros Hp [Hr Hs]. split; [done|]. by eapply prefix_lookup_Some. Qed.

Lemma names_resolve t ss id s : interner_is t ss -> names ss id s -> resolve (in_strings t) id = Some s.
Proof. intros Ht [Hr Hs]. rewrite <- (Z2Nat.id id) by lia. by eapply resolve_interned. Qed.

Definition tag_names (ss : list bytes) (t : Z * bytes) (t' : bytes * bytes) : Prop := names ss t.1 t'.1 /\ t.2 = t'.2.
Definition member_names (ss : list bytes) (m : Z * Z * Z) (m' : MemberType * Z * bytes) : Prop :=
  m.1.1 = m'.1.2 /\ byte_to_member_type m.1.2 = Some m'.1.1 /\ names ss m.2 m'.2.

Definition meta_names (ss : list bytes) (m : ArenaMeta) (mo : option Metadata) : Prop :=
  if Z.land (am_flags m) META_FLAG_PRESENT =? 0 then mo = None
  else exists user, mo = Some (mkMetadata (am_version m) (am_timestamp m) (am_changeset m) (am_uid m) user (Z.land (am_flags m) META_FLAG_HIDDEN =? 0)) /\
    if Z.land (am_flags m) META_FLAG_HAS_USER =? 0 then user = [] else names ss (am_user_id m) user.

Definition packs (ss : list bytes) (p : Packed) (v : View) : Prop :=
  match p, v with
  | PNode id lat lon tags m, VNode id' lat' lon' tags' m' =>
      id = id' /\ lat = lat' /\ lon = lon' /\ Forall2 (tag_names ss) tags tags' /\ meta_names ss m m'
  | PWay id refs tags m, VWay id' refs' tags' m' => id = id' /\ refs = refs' /\ Forall2 (tag_names ss) tags tags' /\ meta_names ss m m'
  | PRelation id ms tags m, VRelation id' ms' tags' m' =>
      id = id' /\ Forall2 (member_names ss) ms ms' /\ Forall2 (tag_names ss) tags tags' /\ meta_names ss m m'
  | _, _ => False
  end.

Definition change_packs (ss : list bytes) (c : Change) (oc : OscChange) : Prop :=
  match c, oc with
  | Upsert p, OUpsert v claim => packs ss p v /\ claim = version_claim (packed_meta p)
  | Delete k id m, ODelete k' id' claim => k = k' /\ id = id' /\ claim = version_claim m
  | _, _ => False
  end.

Lemma tag_names_mono ss ss' l l' : ss `prefix_of` ss' -> Forall2 (tag_names ss) l l' -> Forall2 (tag_names ss') l l'.
Proof. intros Hp Hl. eapply Forall2_impl; [done|]. intros t t' [Hn Hv]. split; [by eapply names_mono|done]. Qed.

Lemma member_names_mono ss ss' l l' : ss `prefix_of` ss' -> Forall2 (member_names ss) l l' -> Forall2 (member_names ss') l l'.
Proof. intros Hp Hl. eapply Forall2_impl; [done|]. intros t t' (? & ? & ?). split_and!; [done..|by eapply names_mono]. Qed.

Lemma meta_names_mono ss ss' m mo : ss `prefix_of` ss' -> meta_names ss m mo -> meta_names ss' m mo.
Proof.
  intros Hp. unfold meta_names. destruct (_ =? 0); [done|]. intros (user & E & Hu). exists user. split; [done|].
  revert Hu. destruct (Z.land (am_flags m) META_FLAG_HAS_USER =? 0); [tauto|by apply names_mono].
Qed.

Lemma change_packs_mono ss ss' c oc : ss `prefix_of` ss' -> change_packs ss c oc -> change_packs ss' c oc.
Proof.
  intros Hp. destruct c as [p|k id m], oc as [v cl|k' id' cl]; cbn; try done. intros [Hpk Hc]. split; [|exact Hc].
  destruct p, v; cbn in *; try done; destruct_and!; split_and!; eauto using tag_names_mono, member_names_mono, meta_names_mono.
Qed.

Lemma tags_mapM t ss l l' : interner_is t ss -> Forall2 (tag_names ss) l l' -> mapM (tag_value (in_strings t)) l = Some l'.
Proof.
  intros Ht Hl. apply mapM_Some. eapply Forall2_impl; [exact Hl|]. intros [k v] [k' v'] [Hn Hv]. cbn in Hn, Hv. subst.
  unfold tag_value. cbn [fst snd]. by rewrite (names_resolve t ss k k').
Qed.

Lemma members_mapM t ss l l' : interner_is t ss -> Forall2 (member_names ss) l l' -> mapM (member_value (in_strings t)) l = Some l'.
Proof.
  intros Ht Hl. apply mapM_Some. eapply Forall2_impl; [exact Hl|]. intros [[r ty] ro] [[mt r'] ro'] (Hr & Hty & Hn). cbn in Hr, Hty, Hn. subst.
  unfold member_value. cbn [fst snd]. rewrite Hty. cbn [mbind option_bind]. by rewrite (names_resolve t ss ro ro').
Qed.

Lemma meta_names_value t ss m mo : interner_is t ss -> meta_names ss m mo -> meta_value (in_strings t) m = Some mo.
Proof.
  intros Ht. unfold meta_names, meta_value. destruct (Z.land _ META_FLAG_PRESENT =? 0); [by intros ->|]. intros (user & -> & Hu).
  destruct (Z.land _ META_FLAG_HAS_USER =? 0); cbn [negb]; [by subst|]. by rewrite (names_resolve t ss _ user).
Qed.

Lemma packs_view t ss p v : interner_is t ss -> packs ss p v -> view_of (in_strings t) p = Some v.
Proof.
  intros Ht Hp. destruct p, v; cbn in Hp; try done; destruct_and!; subst; unfold view_of; cbn [packed_meta];
    erewrite meta_names_value by done; cbn [mbind option_bind]; erewrite ?members_mapM by done; cbn [mbind option_bind];
    by erewrite tags_mapM by done.
Qed.

(** ** The state after some changes *)

Record holds (o : CompactDiffOverlay) (ss : list bytes) (cs : list Change) (ocs : list OscChange) : Prop := {
  ho_interner : interner_is (ov_interner o) ss;
  ho_overlay : overlay_is o cs;
  ho_packs : Forall2 (change_packs ss) cs ocs }.

(** A string of the document would take the interner past 32 bits, or a count of
    an object is past them. *)
Definition out_of_room (text : bytes -> Prop) (o : CompactDiffOverlay) (f : Fault) : Prop :=
  (exists e s, f = OverlayRefused (Intern e) /\ text s /\
    (u32_max < Z.of_nat (length (st_data (in_strings (ov_interner o))) + length s) \/
     u32_max < Z.of_nat (length (st_table (in_strings (ov_interner o)))))) \/
  (exists k id len what, f = OverlayRefused (CountOverflow k id len what) /\ u32_max < len).

Lemma intern_full t s x : intern t s = Err x ->
  u32_max < Z.of_nat (length (st_data (in_strings t)) + length s) \/ u32_max < Z.of_nat (length (st_table (in_strings t))).
Proof.
  unfold intern. destruct (in_lookup t !! s); [done|]. destruct (in_strings t) as [data table]. unfold u32_try_from. cbn [st_data st_table].
  destruct (Z.leb_spec (Z.of_nat (length data)) u32_max); cbn [mbind result_bind]; [|lia].
  destruct (Z.leb_spec (Z.of_nat (length s)) u32_max); cbn [mbind result_bind]; [|lia].
  destruct (Z.leb_spec (Z.of_nat (length data) + Z.of_nat (length s)) u32_max); cbn [mbind result_bind]; [|lia].
  destruct (Z.leb_spec (Z.of_nat (length table)) u32_max); cbn [mbind result_bind]; [done|lia].
Qed.

Lemma overlay_is_interner o t cs :
  overlay_is o cs -> overlay_is (mkOverlay (ov_nodes o) (ov_ways o) (ov_relations o) t (ov_allow_version_regression o)) cs.
Proof. intros [H1 H2 H3]. split; [done|intros k id; apply (H2 k id)|intros Ha k id; apply (H3 Ha k id)]. Qed.

Lemma intern_holds (text : bytes -> Prop) o ss cs ocs s :
  holds o ss cs ocs -> utf8 s -> text s ->
  (exists f, intern_in o s = (o, Err (unlocated f)) /\ out_of_room text o f) \/
  (exists o' ss' id, intern_in o s = (o', Ok id) /\ holds o' ss' cs ocs /\ ss `prefix_of` ss' /\ names ss' id s /\
    ov_allow_version_regression o' = ov_allow_version_regression o).
Proof.
  intros [Hi Ho Hp] Hs Ht. unfold intern_in, overlay_intern. destruct (intern (ov_interner o) s) as [[id t]|x] eqn:E.
  - right. destruct (intern_is _ _ _ _ _ Hi Hs E) as (ss' & Hi' & Hss & Hid & Hl). eexists _, ss', id. split; [done|].
    assert (ss `prefix_of` ss') as Hpre by (destruct Hss as [-> | ->]; [done|by eexists]).
    split; [|split; [done|split; [by split|done]]]. split; [done|by apply overlay_is_interner|].
    eapply Forall2_impl; [done|]. intros c oc. by apply change_packs_mono.
  - left. eexists. split; [done|]. left. exists x, s. split_and!; [done..|]. by eapply intern_full.
Qed.

(** ** Metadata *)

(** What the parameters are relied on for: a normalized value is a string, a
    coordinate fits its field. *)
Class QuickXmlLaws : Prop := {
  normalize_utf8 : forall v s, normalize v = Ok s -> utf8 s;
  degrees_range : forall name v z, degrees_e7 name v = Some z -> is_i32 z }.

(** A normalized attribute value of a tag. *)
Definition tag_text (e : BytesStart) (s : bytes) : Prop := exists key value, Ok (key, value) ∈ attributes e /\ normalize value = Ok s.

Record scanned (attrs : list (result XmlError (bytes * bytes))) (x : ArenaMeta * option bytes) : Prop := {
  sc_ok : meta_ok x.1;
  sc_flags : am_flags x.1 ∈ [0; 2; 8; 10];
  sc_user : forall n, x.2 = Some n -> exists key value, Ok (key, value) ∈ attrs /\ normalize value = Ok n }.

Lemma meta_int_range lo hi field text v : meta_int (parse_signed lo hi) field text = Ok v -> lo <= v <= hi.
Proof. unfold meta_int, ok_or. destruct (parse_signed lo hi text) eqn:E; [|done]. intros [= <-]. by eapply parse_signed_range. Qed.

Ltac four_flags H := repeat (apply elem_of_cons in H as [H|H]; [|]); [..|by apply elem_of_nil in H].

Lemma meta_step_scanned attrs key field text x x' :
  scanned attrs x -> Ok (key, text) ∈ attrs -> meta_step field text x = Ok x' -> scanned attrs x'.
Proof.
  destruct x as [m user]. intros [(Hb & Hv & Ht & Hc & Hu & Hi) Hf Hn] Hin. cbn [fst snd] in *. unfold meta_step.
  assert (forall fl, (fl = 8 \/ fl = 2) -> Z.lor (am_flags m) fl ∈ [0; 2; 8; 10] /\ is_byte (Z.lor (am_flags m) fl)) as Hor.
  { intros fl Hfl. clear -Hf Hfl. four_flags Hf; rewrite Hf; destruct Hfl as [-> | ->]; (split; [set_solver|by unfold is_byte]). }
  destruct field.
  - destruct (meta_int parse_i32 FVersion text) as [v|] eqn:E; [|done]. apply meta_int_range in E. intros [= <-].
    destruct (Hor 8) as [Hf' Hb']; [by left|]. split; [|exact Hf'|done]. cbn. split_and!; try done. all: clear -E; unfold set_flags; cbn; width.
  - destruct (parse_rfc3339_utc text) as [ts|] eqn:E; [|done]. intros [= <-]. split; [|done|done]. cbn. split_and!; try done. by eapply timestamp_range.
  - destruct (meta_int parse_i64 FChangeset text) as [v|] eqn:E; [|done]. apply meta_int_range in E. intros [= <-].
    split; [|done|done]. cbn. split_and!; try done. all: clear -E; unfold set_flags; cbn; width.
  - destruct (meta_int parse_i32 FUid text) as [v|] eqn:E; [|done]. apply meta_int_range in E. intros [= <-].
    split; [|done|done]. cbn. split_and!; try done. all: clear -E; unfold set_flags; cbn; width.
  - destruct (normalize text) as [n|] eqn:E; [|done]. intros [= <-]. split; [done..|]. intros n' [= <-]. by exists key, text.
  - intros [= <-]. destruct (decide _); [|done]. destruct (Hor 2) as [Hf' Hb']; [by right|]. split; [|exact Hf'|done]. cbn. by split_and!.
Qed.

Lemma scan_loop_scanned all attrs any x r :
  scanned all x -> (forall a, a ∈ attrs -> a ∈ all) -> scan_meta_loop meta_step attrs any x = Ok r -> scanned all r.2.
Proof.
  revert any x. induction attrs as [|[[key text]|err] attrs IH]; intros any x Hs Hin Hr; cbn [scan_meta_loop] in Hr; [by simplify_eq| |done].
  assert (forall a, a ∈ attrs -> a ∈ all) as Hin' by (intros a Ha; apply Hin; by right).
  destruct (meta_field key) as [field|]; [|by eapply IH]. destruct (meta_step field text x) as [x'|] eqn:E; [|done]. cbn [mbind result_bind] in Hr.
  eapply IH; [|done|done]. eapply meta_step_scanned; [done| |done]. apply Hin. by left.
Qed.

Lemma scan_scanned e present m user :
  scan_meta_attrs e meta_step (ArenaMeta_default, None) = Ok (present, (m, user)) -> scanned (attributes e) (m, user).
Proof.
  intros E. apply (scan_loop_scanned (attributes e)) in E; [done| |done]. split; [|by left|done].
  unfold meta_ok, is_byte. cbn. split_and!; width.
Qed.

Context `{!QuickXmlLaws}.

Lemma arena_meta_holds (text : bytes -> Prop) e o ss cs ocs :
  holds o ss cs ocs -> (forall s, tag_text e s -> text s) ->
  match read_info e with
  | Err err => arena_meta e o = (o, Err err)
  | Ok (mo, claim) =>
      (exists f, arena_meta e o = (o, Err (unlocated f)) /\ out_of_room text o f) \/
      exists o' ss' m, arena_meta e o = (o', Ok m) /\ holds o' ss' cs ocs /\ ss `prefix_of` ss' /\
        meta_names ss' m mo /\ version_claim m = claim /\ meta_ok m /\
        ov_allow_version_regression o' = ov_allow_version_regression o
  end.
Proof.
  intros Hh Ht. unfold read_info, arena_meta.
  destruct (scan_meta_attrs e meta_step (ArenaMeta_default, None)) as [[present [m user]]|err] eqn:E; cbn [mbind result_bind]; [|done].
  pose proof (scan_scanned _ _ _ _ E) as [(Hb & Hv & Hts & Hc & Hu & Hi) Hf Hn]. cbn [fst snd] in *. clear E.
  destruct m as [fl v ts cset uid uid0]. cbn [am_flags am_version am_timestamp am_changeset am_uid am_user_id] in *.
  destruct user as [n|]; cbn [default].
  - destruct (Hn n eq_refl) as (key & value & Hin & Hnorm).
    destruct (intern_holds text o ss cs ocs n Hh) as [(f & -> & Hfull)|(o' & ss' & id & -> & Hh' & Hpre & Hname & Hal)];
      [by eapply normalize_utf8|apply Ht; by exists key, value|left; exists f; by destruct present|].
    right. exists o', ss'. eexists. split; [done|]. split; [done|]. split; [done|]. split; [|split; [|split]]; [..|done].
    + unfold meta_names. four_flags Hf; subst fl; destruct present; cbn; try done; by exists n.
    + four_flags Hf; subst fl; by destruct present.
    + destruct Hname as [Hid _]. unfold meta_ok. four_flags Hf; subst fl; destruct present; cbn; (split_and!; [by unfold is_byte|done..|]); width.
  - right. exists o, ss. eexists. split; [done|]. split; [done|]. split; [done|]. split; [|split; [|split]]; [..|done].
    + unfold meta_names. four_flags Hf; subst fl; destruct present; cbn; try done; by exists [].
    + four_flags Hf; subst fl; by destruct present.
    + unfold meta_ok. four_flags Hf; subst fl; destruct present; cbn; by split_and!.
Qed.

(** ** A staged object *)

Record staged_as (ss : list bytes) (st : Staging) (k : ElementKind) (id : Z) (pos : Z * Z) (mo : option Metadata) (claim : option Z) (b : Body) : Prop := {
  sa_kind : sg_kind st = k; sa_id : sg_id st = id /\ is_i64 id;
  sa_pos : (sg_lat st, sg_lon st) = pos /\ is_i32 pos.1 /\ is_i32 pos.2;
  sa_meta : meta_names ss (sg_meta st) mo /\ version_claim (sg_meta st) = claim /\ meta_ok (sg_meta st);
  sa_tags : length (sg_tag_keys st) = length (sg_tag_values st) /\
    Forall2 (tag_names ss) (zip (sg_tag_keys st) (sg_tag_values st)) (bo_tags b) /\ Forall utf8 (sg_tag_values st);
  sa_refs : sg_refs st = bo_refs b /\ Forall is_i64 (bo_refs b);
  sa_members : Forall2 (member_names ss) (sg_members st) (bo_members b) /\ Forall (fun m => is_i64 m.1.1) (sg_members st) }.

Lemma staged_mono ss ss' st k id pos mo claim b :
  ss `prefix_of` ss' -> staged_as ss st k id pos mo claim b -> staged_as ss' st k id pos mo claim b.
Proof.
  intros Hp [? ? ? (Hm & ? & ?) (? & Ht & ?) ? (Hms & ?)]. split; try done.
  - split_and!; [by eapply meta_names_mono|done|done].
  - split_and!; [done|by eapply tag_names_mono|done].
  - split_and!; [by eapply member_names_mono|done].
Qed.

Definition call_tag (c : Call) : option BytesStart :=
  match c with CBegin _ _ e | CTag e | CNd e | CMember e => Some e | CEnd => None end.

(** The strings of an object's tags; the empty string stands for an absent role. *)
Definition call_text (c : Call) (s : bytes) : Prop := s = [] \/ exists e, call_tag c = Some e /\ tag_text e s.

Lemma find_attr_ok {A} attrs name bad (read : bytes -> result Error A) absent a :
  find_attr attrs name bad read absent = Ok a -> absent = Ok a \/ exists value, Ok (bs name, value) ∈ attrs /\ read value = Ok a.
Proof.
  induction attrs as [|[[key value]|err] attrs IH]; cbn [find_attr]; [by left| |done]. destruct (decide _) as [->|].
  - intros Ha. right. exists value. by split; [left|].
  - intros Ha. destruct (IH Ha) as [?|(v & Hin & Hr)]; [by left|]. right. exists v. by split; [right|].
Qed.

Lemma parse_str_text e name s : parse_str_attr e name = Ok s -> tag_text e s.
Proof.
  intros Hs. apply find_attr_ok in Hs as [?|(v & Hin & Hr)]; [done|]. exists (bs name), v. split; [done|].
  destruct (normalize v); [|done]. cbn in Hr. congruence.
Qed.

Lemma tag_text_utf8 e s : tag_text e s -> utf8 s.
Proof. intros (k & v & _ & Hn). by eapply normalize_utf8. Qed.

Lemma parse_tag_text e k v : parse_tag e = Ok (k, v) -> tag_text e k /\ tag_text e v.
Proof.
  unfold parse_tag. destruct (parse_str_attr e "k") as [k'|] eqn:Ek; [|done]. cbn [mbind result_bind].
  destruct (parse_str_attr e "v") as [v'|] eqn:Ev; [|done]. intros [= <- <-]. split; by eapply parse_str_text.
Qed.

Lemma parse_i64_attr_range e name v : parse_i64_attr e name = Ok v -> is_i64 v.
Proof.
  intros Hv. apply find_attr_ok in Hv as [?|(x & _ & Hr)]; [done|]. unfold ok_or in Hr.
  destruct (parse_i64 x) eqn:E; [|done]. injection Hr as <-. apply parse_signed_range in E. width.
Qed.

Lemma parse_member_text e m : parse_member e = Ok m -> (pm_role m = [] \/ tag_text e (pm_role m)) /\ is_i64 (pm_ref m).
Proof.
  unfold parse_member, parse_member_into. destruct (append_str_attr e "type" []); [|done]. cbn [mbind result_bind].
  destruct (name_kind _) as [k|]; [|done]. destruct (parse_i64_attr e "ref") as [r|] eqn:Er; [|done]. cbn [mbind result_bind].
  destruct (append_str_attr_optional e "role" []) as [[p role]|] eqn:Eo; [|done]. cbn [mbind result_bind]. intros [= <-]. cbn.
  split; [|by eapply parse_i64_attr_range]. apply find_attr_ok in Eo as [[= <- <-]|(v & Hin & Hr)]; [by left|].
  right. exists (bs "role"), v. split; [done|]. destruct (normalize v); [|done]. cbn in Hr. congruence.
Qed.

Lemma zip_snoc {A B} (l : list A) (k : list B) a b : length l = length k -> zip (l ++ [a]) (k ++ [b]) = zip l k ++ [(a, b)].
Proof. intros Hl. by rewrite zip_with_app. Qed.

Definition is_child (c : Call) : bool := match c with CTag _ | CNd _ | CMember _ => true | _ => false end.

Lemma utf8_empty : utf8 [].
Proof. reflexivity. Qed.

(** The outcome of a call: no room, or what the specification says. *)
Lemma child_holds (text : bytes -> Prop) c o ss cs ocs st k id pos mo claim b :
  holds o ss cs ocs -> staged_as ss st k id pos mo claim b -> is_child c = true -> (forall s, call_text c s -> text s) ->
  match read_child c b with
  | Err err => call c (mkCompact o (Some st)) = (mkCompact o (Some st), Err (input_fault err))
  | Ok b' =>
      (exists f, call c (mkCompact o (Some st)) = (mkCompact o (Some st), Err (located f)) /\ out_of_room text o f) \/
      exists o' ss' st', call c (mkCompact o (Some st)) = (mkCompact o' (Some st'), Ok tt) /\ holds o' ss' cs ocs /\
        ss `prefix_of` ss' /\ staged_as ss' st' k id pos mo claim b' /\ ov_allow_version_regression o' = ov_allow_version_regression o
  end.
Proof.
  intros Hh Hst Hc Ht. destruct c as [|e|e|e|]; try done; cbn [read_child call sink_tag sink_nd sink_member compact_sink].
  - unfold compact_tag. destruct (parse_tag e) as [[key v]|err] eqn:E; cbn [mbind result_bind]; [|done]. apply parse_tag_text in E as [Hk Hv].
    unfold on_overlay. cbn [cs_overlay cs_staging].
    destruct (intern_holds text o ss cs ocs key Hh) as [(f & -> & Hfull)|(o' & ss' & kid & -> & Hh' & Hpre & Hname & Hal)];
      [by eapply tag_text_utf8|apply Ht; right; by exists e|left; by exists f|]. right. eexists o', ss', _. split; [done|].
    split_and!; [done..| |done]. apply (staged_mono ss ss') in Hst; [|done]. destruct Hst as [? ? ? ? (Hl & Ht2 & Hu) ? ?].
    split; cbn; try done. split_and!.
    + rewrite !length_app. cbn. lia.
    + rewrite zip_snoc by done. apply Forall2_app; [done|]. repeat constructor; by try apply Hname.
    + apply Forall_app. split; [done|]. apply Forall_singleton. by eapply tag_text_utf8.
  - unfold compact_nd, parse_nd. destruct (parse_i64_attr e "ref") as [r|err] eqn:E; cbn [mbind result_bind]; [|done].
    right. eexists o, ss, _. split; [done|]. split_and!; [done..| |done]. destruct Hst as [? ? ? ? ? (Hr & Hri) ?]. split; cbn; try done.
    split; [by rewrite Hr|]. apply Forall_app. split; [done|]. apply Forall_singleton. by eapply parse_i64_attr_range.
  - unfold compact_member. destruct (parse_member e) as [m|err] eqn:E; cbn [mbind result_bind]; [|done]. apply parse_member_text in E as [Hro Href].
    assert (exists tb, member_type_to_byte (member_type m) = Ok tb /\ byte_to_member_type tb = Some (member_type m)) as (tb & -> & Htb).
    { unfold member_type. destruct (pm_kind m); by eexists. }
    unfold on_overlay. cbn [cs_overlay cs_staging].
    destruct (intern_holds text o ss cs ocs (pm_role m) Hh) as [(f & -> & Hfull)|(o' & ss' & rid & -> & Hh' & Hpre & Hname & Hal)];
      [destruct Hro as [-> |]; [apply utf8_empty|by eapply tag_text_utf8]|apply Ht; destruct Hro; [by left|right; by exists e]|left; by exists f|].
    right. eexists o', ss', _. split; [done|]. split_and!; [done..| |done]. apply (staged_mono ss ss') in Hst; [|done].
    destruct Hst as [? ? ? ? ? ? (Hms & Hmi)]. split; cbn; try done. split.
    + apply Forall2_app; [done|]. by repeat constructor; try apply Hname.
    + apply Forall_app. split; [done|]. by apply Forall_singleton.
Qed.

Definition no_room {A} (text : bytes -> Prop) (r : CompactSink * result Error A) : Prop :=
  exists s f, r = (s, Err (located f)) /\ out_of_room text (cs_overlay s) f.

Lemma children_holds (text : bytes -> Prop) kids o ss cs ocs st k id pos mo claim b :
  holds o ss cs ocs -> staged_as ss st k id pos mo claim b -> Forall (fun c => is_child c = true) kids ->
  (forall c s, c ∈ kids -> call_text c s -> text s) ->
  no_room text (calls_into kids (mkCompact o (Some st))) \/
  match read_children kids b with
  | Err err => exists s' ss', calls_into kids (mkCompact o (Some st)) = (s', Err (input_fault err)) /\ holds (cs_overlay s') ss' cs ocs
  | Ok b' => exists o' ss' st', calls_into kids (mkCompact o (Some st)) = (mkCompact o' (Some st'), Ok tt) /\ holds o' ss' cs ocs /\
      staged_as ss' st' k id pos mo claim b' /\ ov_allow_version_regression o' = ov_allow_version_regression o
  end.
Proof.
  revert o ss st b. induction kids as [|c kids IH]; intros o ss st b Hh Hst Hk Ht; cbn [calls_into read_children].
  { right. by exists o, ss, st. }
  apply Forall_cons in Hk as [Hc Hk]. pose proof (child_holds text c _ _ _ _ _ _ _ _ _ _ _ Hh Hst Hc ltac:(intros s Hs; apply (Ht c s); [by left|done])) as Hone.
  destruct (read_child c b) as [b1|err]; cbn [mbind result_bind].
  - destruct Hone as [(f & -> & Hf)|(o1 & ss1 & st1 & -> & Hh1 & _ & Hst1 & Hal1)]; [left; by eexists _, f|]. cbn [and_then].
    destruct (IH o1 ss1 st1 b1 Hh1 Hst1 Hk ltac:(intros c' s Hc'; apply Ht; by right)) as [Hn|Hr]; [by left|]. right.
    destruct (read_children kids b1) as [b2|]; [|done]. destruct Hr as (o' & ss' & st' & -> & Hh' & Hst' & Hal').
    exists o', ss', st'. split_and!; [done..|congruence].
  - right. exists (mkCompact o (Some st)), ss. by rewrite Hone.
Qed.

(** ** Into the overlay *)

Lemma append_tags_full arena tags kind id :
  Forall (fun t => Z.of_nat (length t.2) <= u32_max) tags \/
  exists a k i len what, append_tags arena tags kind id = (a, Err (CountOverflow k i len what)) /\ u32_max < len.
Proof.
  revert arena. induction tags as [|[key v] tags IH]; intros arena; [by left; constructor|]. cbn [append_tags].
  unfold count_u32, u32_try_from. destruct (Z.leb_spec (Z.of_nat (length v)) u32_max) as [Hl|Hl]; [|right; by eexists _, _, _, _, _].
  destruct (IH ((arena ++ to_le 4 key) ++ to_le 4 (Z.of_nat (length v)) ++ v)) as [Hf|Hf]; [left; by constructor|by right].
Qed.

(** Within the fields' ranges, only a count past 32 bits can refuse a record. *)
Definition packed_shape (p : Packed) : Prop :=
  is_i64 (packed_id p) /\ meta_ok (packed_meta p) /\
  match p with
  | PNode _ lat lon tags _ => is_i32 lat /\ is_i32 lon /\ Forall (fun t => is_u32 t.1 /\ utf8 t.2) tags
  | PWay _ refs tags _ => Forall is_i64 refs /\ Forall (fun t => is_u32 t.1 /\ utf8 t.2) tags
  | PRelation _ ms tags _ => Forall member_ok ms /\ Forall (fun t => is_u32 t.1 /\ utf8 t.2) tags
  end.

Lemma tags_shape_ok tags :
  Z.of_nat (length tags) <= u32_max -> Forall (fun t : Z * bytes => is_u32 t.1 /\ utf8 t.2) tags ->
  Forall (fun t => Z.of_nat (length t.2) <= u32_max) tags -> tags_ok tags.
Proof.
  intros Hn Hs Hl. split; [done|]. apply Forall_forall. intros t Ht. eapply Forall_forall in Hs; [|exact Ht].
  eapply Forall_forall in Hl; [|exact Ht]. destruct Hs. by split_and!.
Qed.

(** Splits on a count and its overflow. *)
Ltac split_count l :=
  unfold count_u32 at 1, u32_try_from at 1; destruct (Z.leb_spec (Z.of_nat (length l)) u32_max); [|right; by eexists _, _, _, _, _].

Lemma append_full arena p :
  packed_shape p -> packed_ok p \/
  exists a k i len what, arena_append arena p = (a, Err (CountOverflow k i len what)) /\ u32_max < len.
Proof.
  intros (Hi & Hm & Hp). destruct p as [id lat lon tags m|id refs tags m|id ms tags m]; cbn [arena_append packed_id packed_meta] in *.
  - destruct Hp as (Hla & Hlo & Ht). unfold arena_append_node. split_count tags.
    match goal with |- context [append_tags ?a tags Node id] => destruct (append_tags_full a tags Node id) as [Hl|(a' & k & i & len & what & -> & Hlen)] end;
      [|right; by eexists _, _, _, _, _]. left. split_and!; [done..|]. by apply tags_shape_ok.
  - destruct Hp as (Hr & Ht). unfold arena_append_way. split_count refs. split_count tags.
    match goal with |- context [append_tags ?a tags Way id] => destruct (append_tags_full a tags Way id) as [Hl|(a' & k & i & len & what & -> & Hlen)] end;
      [|right; by eexists _, _, _, _, _]. left. split_and!; [done..|]. by apply tags_shape_ok.
  - destruct Hp as (Hr & Ht). unfold arena_append_relation. split_count ms. split_count tags.
    match goal with |- context [append_tags ?a tags Relation id] => destruct (append_tags_full a tags Relation id) as [Hl|(a' & k & i & len & what & -> & Hlen)] end;
      [|right; by eexists _, _, _, _, _]. left. split_and!; [done..|]. by apply tags_shape_ok.
Qed.

Lemma push_full o cs p :
  overlay_is o cs -> packed_shape p -> admitted_change o cs (Upsert p) ->
  packed_ok p \/ exists o' k i len what, push o p = (o', Err (CountOverflow k i len what)) /\ u32_max < len.
Proof.
  intros Hi Hs Hadm.
  assert (exists o1, match (match version_claim (packed_meta p) with
    | Some claim => (o, check_version_advance o (packed_kind p) (packed_id p) claim)
    | None => if negb (ov_allow_version_regression o) then
          match stored_version (kind_store o (packed_kind p)) (meta_off (packed_kind p)) (packed_id p) with
          | None => (o, Err OscPanic)
          | Some carried => (set_store o (packed_kind p) (set_floors (kind_store o (packed_kind p))
              (raise_floor (ks_floors (kind_store o (packed_kind p))) (packed_id p) carried (packed_meta p))), Ok tt)
          end
        else (o, Ok tt) end) with (_, Err _) => False | (o2, Ok _) => o1 = o2 end) as [o1 Hgate].
  { pose proof (gate_ok o cs (Upsert p)) as Hg. cbn [change_key] in Hg. destruct (version_claim (packed_meta p)) as [v|] eqn:Ev.
    - exists o. by rewrite (Hg v Hi Hadm Ev).
    - destruct (negb _); [|by eexists]. rewrite (stored_total o cs) by done. by eexists. }
  destruct (append_full (ks_arena (kind_store o1 (packed_kind p))) p Hs) as [|(a & k & i & len & what & E & Hlen)]; [by left|right].
  unfold push. cbn zeta. revert Hgate. destruct (match version_claim _ with Some _ => _ | None => _ end) as [o2 [[]|]]; [intros <-|done].
  rewrite E. by eexists _, k, i, len, what.
Qed.

Lemma packs_key ss c oc : change_packs ss c oc -> change_key c = oc_key oc /\ change_claim c = oc_claim oc.
Proof.
  destruct c as [p|k id m], oc as [v cl|k' id' cl]; cbn; try done.
  - intros [Hp ->]. split; [|done]. destruct p, v; cbn in Hp |- *; try done; by destruct Hp as [-> _].
  - by intros (-> & -> & ->).
Qed.

Lemma packs_history ss key cs ocs :
  Forall2 (change_packs ss) cs ocs -> Forall2 (change_packs ss) (history change_key key cs) (history oc_key key ocs).
Proof.
  induction 1 as [|c oc cs ocs Hc _ IH]; [constructor|]. unfold history. rewrite !filter_cons. destruct (packs_key _ _ _ Hc) as [Hk _].
  destruct (decide (change_key c = key)), (decide (oc_key oc = key)); try congruence; [by constructor|done].
Qed.

Lemma packs_floor ss key cs ocs :
  Forall2 (change_packs ss) cs ocs -> object_floor change_key change_claim key cs = object_floor oc_key oc_claim key ocs.
Proof.
  intros Hp. apply (packs_history ss key) in Hp. unfold object_floor. f_equal. induction Hp as [|c oc cs' ocs' Hc _ IH]; [done|].
  cbn. f_equal; [|done]. by apply packs_key in Hc as [_ ?].
Qed.

Lemma packs_passes ss o cs ocs c oc :
  holds o ss cs ocs -> change_packs ss c oc ->
  match passes (ov_allow_version_regression o) ocs oc with
  | Err f => exists e, apply_change o c = (o, Err e) /\ f = OverlayRefused e
  | Ok _ => admitted_change o cs c
  end.
Proof.
  intros [_ Ho Hp] Hc. destruct (packs_key _ _ _ Hc) as [Hk Hcl]. unfold passes.
  destruct (ov_allow_version_regression o) eqn:Ea; [by left|]. rewrite <- (packs_floor ss _ cs), <- Hk, <- Hcl by done.
  destruct (floor_admit _ _) as [[]|held] eqn:Ef; [assert (admitted_change o cs c) by (by right); by destruct (change_claim c)|].
  destruct (change_claim c) as [v|] eqn:Ev; [|done]. eexists. split; [|done]. by eapply apply_change_refused.
Qed.

Definition change_shape (c : Change) : Prop := match c with Upsert p => packed_shape p | Delete _ _ _ => True end.

Lemma change_holds ss o cs ocs c oc :
  holds o ss cs ocs -> change_packs ss c oc -> change_shape c ->
  match passes (ov_allow_version_regression o) ocs oc with
  | Err f => exists e, apply_change o c = (o, Err e) /\ f = OverlayRefused e
  | Ok _ =>
      (exists o' k i len what, apply_change o c = (o', Err (CountOverflow k i len what)) /\ u32_max < len) \/
      exists o', apply_change o c = (o', Ok tt) /\ holds o' ss (cs ++ [c]) (ocs ++ [oc]) /\
        ov_allow_version_regression o' = ov_allow_version_regression o
  end.
Proof.
  intros Hh Hc Hs. pose proof (packs_passes ss o cs ocs c oc Hh Hc) as Hp. destruct (passes _ _ _); [|done]. destruct Hh as [Hi Ho Hpk].
  assert (change_ok c \/ exists o' k i len what, apply_change o c = (o', Err (CountOverflow k i len what)) /\ u32_max < len) as [Hok|?];
    [destruct c; [by eapply push_full|by left]| |by left].
  right. destruct (apply_change_admitted o cs c Ho Hok Hp) as (o' & E & Hi' & Hin & Hal). exists o'. split; [done|]. split; [|done].
  split; [by rewrite Hin|done|]. apply Forall2_app; [done|]. by constructor; [|constructor].
Qed.

(** ** The end of an object *)

Definition packed_of (st : Staging) : Packed :=
  let tags := zip (sg_tag_keys st) (sg_tag_values st) in
  match sg_kind st with
  | Node => PNode (sg_id st) (sg_lat st) (sg_lon st) tags (sg_meta st)
  | Way => PWay (sg_id st) (sg_refs st) tags (sg_meta st)
  | Relation => PRelation (sg_id st) (sg_members st) tags (sg_meta st)
  end.

Lemma names_u32 ss id s : names ss id s -> is_u32 id.
Proof. intros [Hr _]. width. Qed.

Lemma tags_u32 ss l l' : Forall2 (tag_names ss) l l' -> Forall (fun t => is_u32 t.1) l.
Proof. induction 1 as [|t t' l l' [Hn _] _ IH]; constructor; [by eapply names_u32|done]. Qed.

Lemma members_shape ss l l' : Forall2 (member_names ss) l l' -> Forall (fun m => is_i64 m.1.1) l -> Forall member_ok l.
Proof.
  induction 1 as [|m m' l l' (_ & _ & Hn) _ IH]; intros Hi; [constructor|]. apply Forall_cons in Hi as [Hi Hl].
  constructor; [|by apply IH]. split; [done|by eapply names_u32].
Qed.

Lemma zip_shape keys values :
  Forall (fun t : Z * bytes => is_u32 t.1) (zip keys values) -> Forall utf8 values ->
  Forall (fun t : Z * bytes => is_u32 t.1 /\ utf8 t.2) (zip keys values).
Proof.
  intros Hk Hv. apply Forall_forall. intros [key v] Hin. split; [by eapply Forall_forall in Hin; [|exact Hk]|].
  eapply Forall_forall; [exact Hv|]. by apply elem_of_zip_r in Hin.
Qed.

Lemma staged_packs ss st k id pos mo claim b :
  staged_as ss st k id pos mo claim b ->
  change_packs ss (Upsert (packed_of st)) (OUpsert (object_view k id pos mo b) claim) /\ packed_shape (packed_of st).
Proof.
  intros [<- [<- Hid] [<- Hpos] (Hm & <- & Hmo) (Hl & Ht & Hu) (Hr & Hri) (Hms & Hmi)]. cbn in Hpos.
  pose proof (zip_shape _ _ (tags_u32 _ _ _ Ht) Hu) as Htags. pose proof (members_shape _ _ _ Hms Hmi) as Hmem. rewrite <- Hr in Hri.
  unfold packed_of, packed_shape. destruct (sg_kind st); cbn; split; split_and!; done || apply Hpos.
Qed.

(** The staged object goes into the overlay. *)
Lemma end_holds (text : bytes -> Prop) ss o cs ocs st k id pos mo claim b (oc := OUpsert (object_view k id pos mo b) claim) :
  holds o ss cs ocs -> staged_as ss st k id pos mo claim b ->
  no_room text (call CEnd (mkCompact o (Some st))) \/
  match passes (ov_allow_version_regression o) ocs oc with
  | Err f => exists s', call CEnd (mkCompact o (Some st)) = (s', Err (located f)) /\ holds (cs_overlay s') ss cs ocs
  | Ok _ => exists o' c, call CEnd (mkCompact o (Some st)) = (mkCompact o' None, Ok tt) /\ holds o' ss (cs ++ [c]) (ocs ++ [oc]) /\
      ov_allow_version_regression o' = ov_allow_version_regression o
  end.
Proof.
  intros Hh Hst. destruct (staged_packs _ _ _ _ _ _ _ _ Hst) as [Hp Hs]. pose proof (change_holds ss o cs ocs _ oc Hh Hp Hs) as Hc.
  assert (call CEnd (mkCompact o (Some st)) = map_fault (on_overlay (mkCompact o None) (fun o => overlay_refusal (apply_change o (Upsert (packed_of st)))))) as ->.
  { cbn. unfold end_element. cbn. unfold compact_end, packed_of. cbn. by destruct (sg_kind st). }
  unfold on_overlay. cbn [cs_overlay cs_staging]. destruct (passes _ ocs oc) as [[]|f].
  - destruct Hc as [(o' & k' & i & len & what & E & Hlen)|(o' & E & Hh' & Hal)]; rewrite E.
    + left. eexists _, _. split; [done|]. right. by eexists _, _, _, _.
    + right. by eexists o', _.
  - destruct Hc as (e & E & ->). rewrite E. right. by eexists.
Qed.

(** A delete goes in at once. *)
Lemma delete_holds ss o cs ocs k id m (oc := ODelete k id (version_claim m)) :
  holds o ss cs ocs ->
  match passes (ov_allow_version_regression o) ocs oc with
  | Err f => exists e, delete_element o k id m = (o, Err e) /\ f = OverlayRefused e
  | Ok _ => exists o' c, delete_element o k id m = (o', Ok tt) /\ holds o' ss (cs ++ [c]) (ocs ++ [oc]) /\
      ov_allow_version_regression o' = ov_allow_version_regression o
  end.
Proof.
  intros Hh. pose proof (packs_passes ss o cs ocs (Delete k id m) oc Hh ltac:(done)) as Hp. destruct (passes _ _ _); [|done].
  destruct Hh as [Hi Ho Hpk]. destruct (apply_change_admitted o cs (Delete k id m) Ho I Hp) as (o' & E & Hi' & Hin & Hal).
  exists o', (Delete k id m). split; [done|]. split; [|done]. split; [by rewrite Hin|done|].
  apply Forall2_app; [done|]. by constructor; [|constructor].
Qed.

(** ** Whole objects *)

(** Only children are routed, and none inside a delete. *)
Definition obj_ok (x : Obj) : Prop :=
  Forall (fun c => is_child c = true) (oj_kids x) /\ (oj_action x = ActDelete -> oj_kids x = []).

Definition obj_text (x : Obj) (s : bytes) : Prop := exists c, c ∈ obj_calls x /\ call_text c s.

Lemma coords_range k e id pos : coords k e id = Ok pos -> is_i32 pos.1 /\ is_i32 pos.2.
Proof.
  unfold coords. assert (forall name z, coord_to_decimicro e name id = Ok z -> is_i32 z) as Hc.
  { intros name z Hz. apply find_attr_ok in Hz as [?|(v & _ & Hr)]; [done|]. unfold ok_or in Hr.
    destruct (degrees_e7 name v) eqn:E; [|done]. injection Hr as <-. by eapply degrees_range. }
  destruct (decide (k = Node)); [|intros [= <-]; cbn; split; width].
  destruct (coord_to_decimicro e "lat" id) eqn:E1; [|done]. cbn [mbind result_bind].
  destruct (coord_to_decimicro e "lon" id) eqn:E2; [|done]. cbn [mbind result_bind]. intros [= <-]. eauto.
Qed.

(** Reading one object into the overlay: what an object's calls leave. *)
Definition object_outcome (text : bytes -> Prop) (x : Obj) (o : CompactDiffOverlay) (cs : list Change) (ocs : list OscChange)
    (r : CompactSink * result Error unit) : Prop :=
  no_room text r \/
  match read_object x with
  | Err err => exists s' ss', r = (s', Err (input_fault err)) /\ holds (cs_overlay s') ss' cs ocs
  | Ok oc =>
      match passes (ov_allow_version_regression o) ocs oc with
      | Err f => exists s' ss', r = (s', Err (located f)) /\ holds (cs_overlay s') ss' cs ocs
      | Ok _ => exists o' ss' c, r = (mkCompact o' None, Ok tt) /\ holds o' ss' (cs ++ [c]) (ocs ++ [oc]) /\
          ov_allow_version_regression o' = ov_allow_version_regression o
      end
  end.

Lemma upsert_outcome (text : bytes -> Prop) x o ss cs ocs m id mo claim o1 :
  holds o1 ss cs ocs -> obj_ok x -> (forall s, obj_text x s -> text s) -> oj_action x <> ActDelete ->
  parse_i64_attr (oj_tag x) "id" = Ok id -> read_info (oj_tag x) = Ok (mo, claim) ->
  meta_names ss m mo -> version_claim m = claim -> meta_ok m -> ov_allow_version_regression o1 = ov_allow_version_regression o ->
  arena_meta (oj_tag x) o = (o1, Ok m) ->
  object_outcome text x o cs ocs (calls_into (obj_calls x) (mkCompact o None)).
Proof.
  intros Hh [Hkids _] Htext Ha Hid Hinfo Hm Hcl Hmok Hal Harena. unfold object_outcome, read_object, obj_calls. rewrite Hid, Hinfo.
  cbn [mbind result_bind app calls_into]. cbn [call]. cbn [begin_element compact_sink]. unfold compact_begin. rewrite Hid. unfold on_overlay. cbn [cs_overlay cs_staging].
  rewrite Harena. cbn [and_then]. rewrite !(decide_False (P := oj_action x = ActDelete)) by done.
  destruct (coords (oj_kind x) (oj_tag x) id) as [[lat lon]|err] eqn:Ec; cbn [mbind result_bind]; [|right; by eexists _, ss].
  apply coords_range in Ec as [Hlat Hlon]. cbn [map_fault and_then cs_overlay]. rewrite calls_into_app.
  set (st := mkStaging _ _ _ _ _ _ _ _ _). assert (staged_as ss st (oj_kind x) id (lat, lon) mo claim (mkBody [] [] [])) as Hst.
  { split; cbn; try done. split; [done|by eapply parse_i64_attr_range]. }
  destruct (children_holds text (oj_kids x) o1 ss cs ocs st _ _ _ _ _ _ Hh Hst Hkids) as [(s' & f & E & Hf)|Hk].
  { intros c s Hc Hs. apply Htext. exists c. split; [|done]. unfold obj_calls. set_solver. }
  { left. exists s', f. by rewrite E. }
  destruct (read_children (oj_kids x) (mkBody [] [] [])) as [b|err]; cbn [mbind result_bind];
    [|right; destruct Hk as (s' & ss' & -> & Hh'); by exists s', ss'].
  destruct Hk as (o2 & ss2 & st2 & -> & Hh2 & Hst2 & Hal2). cbn [and_then]. rewrite <- Hal, <- Hal2.
  assert (calls_into [CEnd] (mkCompact o2 (Some st2)) = call CEnd (mkCompact o2 (Some st2))) as ->.
  { cbn [calls_into]. by destruct (call CEnd _) as [s' [[]|]]. }
  destruct (end_holds text ss2 o2 cs ocs st2 _ _ _ _ _ _ Hh2 Hst2) as [Hn|Hp]; [by left|right].
  destruct (passes _ _ _) as [[]|f]; [destruct Hp as (o' & c & E & Hh' & Ha')|destruct Hp as (s' & E & Hh')];
    [by exists o', ss2, c|by exists s', ss2].
Qed.

Lemma object_holds (text : bytes -> Prop) x o ss cs ocs :
  holds o ss cs ocs -> obj_ok x -> (forall s, obj_text x s -> text s) ->
  object_outcome text x o cs ocs (calls_into (obj_calls x) (mkCompact o None)).
Proof.
  intros Hh Hok Htext. pose proof (arena_meta_holds text (oj_tag x) o ss cs ocs Hh) as Hmeta.
  destruct (parse_i64_attr (oj_tag x) "id") as [id|err] eqn:Eid.
  2: { right. unfold read_object. rewrite Eid. exists (mkCompact o None), ss. split; [|done].
       cbn. unfold compact_begin. by rewrite Eid. }
  destruct (read_info (oj_tag x)) as [[mo claim]|err] eqn:Ei.
  2: { right. unfold read_object. rewrite Eid, Ei. exists (mkCompact o None), ss. split; [|done].
       cbn. unfold compact_begin, on_overlay. rewrite Eid. cbn. by rewrite Hmeta by (intros s Hs; apply Htext; eexists; split; [by left|right; by eexists]). }
  destruct Hmeta as [(f & E & Hf)|(o1 & ss1 & m & E & Hh1 & _ & Hn & Hcl & Hmo & Hal)].
  { intros s Hs. apply Htext. eexists. split; [by left|]. right. by eexists. }
  { left. exists (mkCompact o None), f. split; [|done]. cbn. unfold compact_begin, on_overlay. rewrite Eid. cbn. by rewrite E. }
  destruct (decide (oj_action x = ActDelete)) as [Ha|Ha]; [|by eapply upsert_outcome].
  right. unfold read_object, obj_calls. rewrite Eid, Ei, Ha. destruct Hok as [_ Hk]. rewrite (Hk Ha). cbn [mbind result_bind app calls_into].
  rewrite decide_True by done. pose proof (delete_holds ss1 o1 cs ocs (oj_kind x) id m Hh1) as Hd. rewrite Hcl, Hal in Hd.
  assert (call (CBegin ActDelete (oj_kind x) (oj_tag x)) (mkCompact o None) =
    map_fault (let '(o', r) := overlay_refusal (delete_element o1 (oj_kind x) id m) in (mkCompact o' None, r))) as ->.
  { cbn. unfold compact_begin, on_overlay. rewrite Eid. cbn. rewrite E. cbn. by destruct (overlay_refusal _) as [o' [[]|]]. }
  destruct (passes _ _ _) as [[]|f].
  - destruct Hd as (o' & c & -> & Hh' & Hal'). exists o', ss1, c. split_and!; [done..|congruence].
  - destruct Hd as (e & -> & ->). by eexists _, ss1.
Qed.

Lemma objects_hold (text : bytes -> Prop) xs o ss cs ocs :
  holds o ss cs ocs -> Forall obj_ok xs -> (forall x s, x ∈ xs -> obj_text x s -> text s) ->
  no_room text (calls_into (concat (obj_calls <$> xs)) (mkCompact o None)) \/
  let '(taken, verdict) := accept (ov_allow_version_regression o) ocs xs in
  exists s' ss' cs', calls_into (concat (obj_calls <$> xs)) (mkCompact o None) = (s', verdict) /\ holds (cs_overlay s') ss' cs' taken /\
    (verdict = Ok tt -> cs_staging s' = None /\ ov_allow_version_regression (cs_overlay s') = ov_allow_version_regression o).
Proof.
  revert o ss cs ocs. induction xs as [|x xs IH]; intros o ss cs ocs Hh Hok Ht; cbn [fmap list_fmap concat accept].
  { right. exists (mkCompact o None), ss, cs. by split_and!. }
  apply Forall_cons in Hok as [Hx Hok]. rewrite calls_into_app.
  destruct (object_holds text x o ss cs ocs Hh Hx ltac:(intros s; apply Ht; by left)) as [(s' & f & -> & Hf)|Hr]; [left; by exists s', f|].
  destruct (read_object x) as [oc|err].
  2: { destruct Hr as (s' & ss' & -> & Hh'). right. by exists s', ss', cs. }
  destruct (passes _ ocs oc) as [[]|f].
  2: { destruct Hr as (s' & ss' & -> & Hh'). right. by exists s', ss', cs. }
  destruct Hr as (o' & ss' & c & -> & Hh' & Hal). cbn [and_then]. rewrite <- Hal.
  apply (IH o' ss' (cs ++ [c])); [done|done|]. intros y s Hy. apply Ht. by right.
Qed.

(** ** What a reader of the overlay then sees *)

Definition overlay_tells (o : CompactDiffOverlay) (ocs : list OscChange) : Prop :=
  forall k id,
    match last (history oc_key (k, id) ocs) with
    | None => get o k id = Some None /\ is_deleted o k id = false
    | Some (ODelete _ _ _) => get o k id = Some None /\ is_deleted o k id = true
    | Some (OUpsert v _) => is_deleted o k id = false /\ exists r, get o k id = Some (Some r) /\ read_record k r = Some v
    end.

Lemma Forall2_last {A B} (R : A -> B -> Prop) l k : Forall2 R l k ->
  match list.last l, list.last k with Some x, Some y => R x y | None, None => True | _, _ => False end.
Proof.
  induction l as [|x l _] using rev_ind; intros HF.
  - apply Forall2_nil_inv_l in HF as ->. done.
  - apply Forall2_app_inv_l in HF as (k1 & k2 & H1 & H2 & ->). apply Forall2_cons_inv_l in H2 as (y & k3 & Hxy & H3 & ->).
    apply Forall2_nil_inv_l in H3 as ->. by rewrite !last_snoc.
Qed.

Lemma holds_tells o ss cs ocs : holds o ss cs ocs -> overlay_tells o ocs.
Proof.
  intros [Hi Ho Hp] k id. pose proof (overlay_is_shows _ _ Ho k id) as Hs. pose proof (Forall2_last _ _ _ (packs_history ss (k, id) cs ocs Hp)) as Hl.
  destruct (list.last (history change_key (k, id) cs)) as [c|], (list.last (history oc_key (k, id) ocs)) as [oc|]; try done.
  destruct c as [e|k0 id0 m], oc as [v cl|k1 id1 cl]; try done. destruct Hl as [Hpk _]. destruct Hs as [Hd (r & Hg & Hv)].
  split; [done|]. exists r. split; [done|]. apply Hv. by eapply packs_view.
Qed.

(** The objects of a document are what the driver frames. *)
Lemma objects_of_ok d : Forall obj_ok (objects_of d).
Proof.
  unfold objects_of. induction (default [] (do_parts d)) as [|p ps IH]; [constructor|]. cbn [fmap list_fmap concat]. apply Forall_app. split; [|done].
  destruct p as [e os|l]; [|constructor]. destruct (action_for _) as [a|]; [|constructor]. clear IH.
  apply Forall_forall. intros x Hx. apply list_elem_of_omap in Hx as (o & _ & Hx). destruct (name_kind _) as [k|]; [|done]. cbn in Hx. injection Hx as <-.
  assert (forall l, Forall (fun c => is_child c = true) (child_calls a k l) /\ (a = ActDelete -> child_calls a k l = [])) as Hc.
  { intros l. unfold child_calls. repeat case_decide; split; try done; by repeat constructor. }
  split; cbn [oj_kids oj_action].
  - induction (kids o) as [|l ls IH]; [constructor|]. cbn. apply Forall_app. split; [apply Hc|done].
  - intros Ha. induction (kids o) as [|l ls IH]; [done|]. cbn. rewrite IH, (proj2 (Hc _) Ha). done.
Qed.

(** A string of some tag of a document's objects. *)
Definition document_text (d : Document) (s : bytes) : Prop := exists x, x ∈ objects_of d /\ obj_text x s.

Lemma document_read d events o ss cs ocs :
  holds o ss cs ocs -> document_ok d -> strip events = document_events d ->
  let '(o', r) := parse_osc_into events o in
  (exists f, r = Err (located f) /\ out_of_room (document_text d) o' f) \/
  let '(taken, verdict) := accept (ov_allow_version_regression o) ocs (objects_of d) in
  r = verdict /\ (exists ss' cs', holds o' ss' cs' taken) /\
  (verdict = Ok tt -> ov_allow_version_regression o' = ov_allow_version_regression o).
Proof.
  intros Hh Hok He. pose proof (drive_makes events) as Hm. rewrite (document_accepted d events Hok He) in Hm. destruct Hm as [Hm _].
  unfold parse_osc_into, compact_new. rewrite (Hm _ compact_sink), objects_calls.
  destruct (objects_hold (document_text d) (objects_of d) o ss cs ocs Hh (objects_of_ok d)) as [(s' & f & -> & Hf)|Hr].
  { intros x s Hx Hs. by exists x. }
  { left. by exists f. }
  destruct (accept _ ocs _) as [taken verdict]. destruct Hr as (s' & ss' & cs' & -> & Hh' & Hv).
  destruct verdict as [[]|err]; cbn [and_then]; right; (split; [done|]); (split; [by exists ss', cs'|]); [|done]. intros _. by apply Hv.
Qed.

End OscRead.

Import RefXml.

#[export] Instance ref_xml_laws : QuickXmlLaws (H := ref_xml).
Proof.
  split.
  - intros v s. cbn. destruct (existsb _ v); [done|]. destruct (from_utf8 v) as [[]|] eqn:E; [|done]. by intros [= <-].
  - intros name v z. cbn. intros Hz%parse_signed_range. width.
Qed.

