(* ===== verification/Simplify.v ===== *)
(** * [merge-changes --simplify] (src/src/commands/merge_changes/simplify.rs)

    The last change per object.  Every change gets the key (kind, id, batch,
    element), the keys are sorted, each object's run of keys is checked against
    its version floor, and the run's last key survives.  The theorem says this
    is a serial pass over the concatenated input: the same refusal, of the same
    change, or the same last change per object. *)

From S2P Require Import Prelude ElementKind.
From S2P Require Import OscXml.
From S2P Require Import VersionFloor.

(** [Element] of emit.rs: what a rendered change is keyed and gated on. *)
Record Element := mkElement { el_kind : ElementKind; el_action : OscAction; el_id : Z; el_version : option Z }.

(** A rendered batch; its XML bytes are not read by [dedupe]. *)
Record Rendered := mkRendered { elements : list Element }.

Definition Key : Type := ElementKind * Z * Z * Z.

Definition key_obj (k : Key) : ElementKind * Z := k.1.1.
Definition key_pos (k : Key) : Z * Z := (k.1.2, k.2).

Inductive SimplifyError :=
| Regression (kind : ElementKind) (id version held : Z)
| TooManyPositions
| SimplifyPanic.

Definition position (i : nat) : result SimplifyError Z :=
  if Z.of_nat i <=? u32_max then Ok (Z.of_nat i) else Err TooManyPositions.

Fixpoint element_keys (b : Z) (i : nat) (es : list Element) : result SimplifyError (list Key) :=
  match es with
  | [] => Ok []
  | e :: es => p ← position i; ks ← element_keys b (S i) es; Ok ((el_kind e, el_id e, b, p) :: ks)
  end.

Fixpoint batch_keys (b : nat) (batches : list Rendered) : result SimplifyError (list Key) :=
  match batches with
  | [] => Ok []
  | r :: batches =>
      p ← position b;
      ks ← element_keys p 0 (elements r);
      rest ← batch_keys (S b) batches;
      Ok (ks ++ rest)
  end.

(** The derived [Ord] of a key. *)
Definition key_le (x y : Key) : Prop :=
  let '(k1, i1, b1, e1) := x in let '(k2, i2, b2, e2) := y in
  ordinal k1 < ordinal k2 \/ ordinal k1 = ordinal k2 /\
    (i1 < i2 \/ i1 = i2 /\ (b1 < b2 \/ b1 = b2 /\ e1 <= e2)).

#[export] Instance key_le_dec : RelDecision key_le.
Proof. intros [[[k1 i1] b1] e1] [[[k2 i2] b2] e2]. unfold key_le. apply _. Defined.

(** [slice::chunk_by]: the runs of neighbours that are the [same]. *)
Fixpoint chunk_by {A} (same : A -> A -> bool) (l : list A) : list (list A) :=
  match l with
  | [] => []
  | x :: l =>
      match chunk_by same l with
      | (y :: c) :: cs => if same x y then (x :: y :: c) :: cs else [x] :: (y :: c) :: cs
      | cs => [x] :: cs
      end
  end.

Definition same_object (a b : Key) : bool := bool_decide (a.1.1.1 = b.1.1.1) && bool_decide (a.1.1.2 = b.1.1.2).

Definition element (batches : list Rendered) (k : Key) : option Element :=
  r ← batches !! Z.to_nat k.1.2; elements r !! Z.to_nat k.2.

(** The claims after an object's first: the refusal that ends the loop. *)
Fixpoint check_claims (batches : list Rendered) (floor : VersionFloor) (claims : list Key)
  : result SimplifyError (option (Key * Z * Z)) :=
  match claims with
  | [] => Ok None
  | key :: claims =>
      e ← ok_or (element batches key) SimplifyPanic;
      match el_version e, floor_admit floor (el_version e) with
      | Some version, Err held => Ok (Some (key, version, held))
      | _, _ => check_claims batches (floor_raise floor (el_version e)) claims
      end
  end.

Definition check_object (batches : list Rendered) (object : list Key) : result SimplifyError (option (Key * Z * Z)) :=
  match object with
  | [] => Ok None
  | first :: claims =>
      e ← ok_or (element batches first) SimplifyPanic;
      check_claims batches (floor_raise None (el_version e)) claims
  end.

Definition pos_ltb (a b : Z * Z) : bool := (a.1 <? b.1) || (a.1 =? b.1) && (a.2 <? b.2).

(** The regression at the smallest position. *)
Definition earlier (first_regression r : option (Key * Z * Z)) : option (Key * Z * Z) :=
  match r, first_regression with
  | None, _ => first_regression
  | Some (key, v, held), Some (at_, _, _) =>
      if pos_ltb (key_pos key) (key_pos at_) then r else first_regression
  | Some _, None => r
  end.

(** create, modify, delete *)
Record Groups := mkGroups { g_create : list (Z * Z); g_modify : list (Z * Z); g_delete : list (Z * Z) }.

Definition push_group (g : Groups) (a : OscAction) (p : Z * Z) : Groups :=
  match a with
  | ActCreate => mkGroups (g_create g ++ [p]) (g_modify g) (g_delete g)
  | ActModify => mkGroups (g_create g) (g_modify g ++ [p]) (g_delete g)
  | ActDelete => mkGroups (g_create g) (g_modify g) (g_delete g ++ [p])
  end.

Fixpoint objects_loop (batches : list Rendered) (allow : bool) (objects : list (list Key)) (groups : Groups)
    (first_regression : option (Key * Z * Z)) : result SimplifyError (Groups * option (Key * Z * Z)) :=
  match objects with
  | [] => Ok (groups, first_regression)
  | object :: objects =>
      r ← (if allow then Ok None else check_object batches object);
      let first_regression := earlier first_regression r in
      match last object with
      | None => objects_loop batches allow objects groups first_regression
      | Some key =>
          e ← ok_or (element batches key) SimplifyPanic;
          objects_loop batches allow objects (push_group groups (el_action e) (key_pos key)) first_regression
      end
  end.

Definition dedupe (batches : list Rendered) (allow_version_regression : bool) : result SimplifyError Groups :=
  keys ← batch_keys 0 batches;
  let keys := merge_sort key_le keys in
  '(groups, first_regression) ←
     objects_loop batches allow_version_regression (chunk_by same_object keys) (mkGroups [] [] []) None;
  match first_regression with
  | Some (key, version, held) => Err (Regression key.1.1.1 key.1.1.2 version held)
  | None => Ok groups
  end.

(** ** The key order *)

#[export] Instance key_le_trans : Transitive key_le.
Proof. intros [[[? ?] ?] ?] [[[? ?] ?] ?] [[[? ?] ?] ?]. unfold key_le. lia. Qed.

#[export] Instance key_le_total : Total key_le.
Proof. intros [[[? ?] ?] ?] [[[? ?] ?] ?]. unfold key_le. lia. Qed.

#[export] Instance key_le_anti : AntiSymm eq key_le.
Proof.
  intros [[[k1 i1] b1] e1] [[[k2 i2] b2] e2]. unfold key_le. intros H1 H2.
  assert (k1 = k2) as -> by (apply ordinal_inj; lia). f_equal; [f_equal; [f_equal|]|]; lia.
Qed.

Definition obj_lt (x y : ElementKind * Z) : Prop := ordinal x.1 < ordinal y.1 \/ ordinal x.1 = ordinal y.1 /\ x.2 < y.2.

Lemma obj_lt_irrefl x : ~ obj_lt x x.
Proof. unfold obj_lt. lia. Qed.

Lemma obj_lt_trans x y z : obj_lt x y -> obj_lt y z -> obj_lt x z.
Proof. unfold obj_lt. lia. Qed.

Lemma key_le_obj x y : key_le x y -> key_obj x = key_obj y \/ obj_lt (key_obj x) (key_obj y).
Proof.
  destruct x as [[[k1 i1] b1] e1], y as [[[k2 i2] b2] e2]. unfold key_le, obj_lt, key_obj. cbn. intros H.
  destruct (decide (ordinal k1 = ordinal k2 /\ i1 = i2)) as [[Hk%ordinal_inj ->]|]; [left; by rewrite Hk|right; lia].
Qed.

Lemma same_object_spec x y : same_object x y = true <-> key_obj x = key_obj y.
Proof.
  unfold same_object, key_obj. rewrite andb_true_iff, !bool_decide_eq_true.
  destruct x as [[[k1 i1] b1] e1], y as [[[k2 i2] b2] e2]. cbn. naive_solver.
Qed.

Definition of_object (o : ElementKind * Z) (l : list Key) : list Key := filter (fun k => key_obj k = o) l.

(** The runs of [l] are its objects [objs], in order. *)
Definition runs (l : list Key) (objs : list (ElementKind * Z)) : Prop :=
  StronglySorted obj_lt objs /\ chunk_by same_object l = (fun o => of_object o l) <$> objs /\
  forall o, o ∈ objs <-> exists k, k ∈ l /\ key_obj k = o.

Lemma of_object_cons o x l : of_object o (x :: l) = if decide (key_obj x = o) then x :: of_object o l else of_object o l.
Proof. unfold of_object. by rewrite filter_cons. Qed.

Lemma of_object_other x l (objs : list (ElementKind * Z)) :
  (forall o, o ∈ objs -> o <> key_obj x) -> (fun o => of_object o (x :: l)) <$> objs = (fun o => of_object o l) <$> objs.
Proof.
  intros Hne. apply list_fmap_ext. intros i o Hi. apply list_elem_of_lookup_2, Hne in Hi.
  rewrite of_object_cons, decide_False by congruence. done.
Qed.

Lemma sorted_gt o (objs : list (ElementKind * Z)) : StronglySorted obj_lt (o :: objs) -> forall o', o' ∈ objs -> obj_lt o o'.
Proof. intros [_ Hs]%StronglySorted_inv o' Ho'. by eapply Forall_forall in Hs. Qed.

(** The first run belongs to the first key. *)
Lemma runs_head y l o objs : StronglySorted key_le (y :: l) -> runs (y :: l) (o :: objs) -> o = key_obj y.
Proof.
  intros [_ Hs]%StronglySorted_inv (Ho & _ & Hin).
  assert (key_obj y ∈ o :: objs) as [?|Hy]%elem_of_cons by (apply Hin; exists y; split; [left|done]); [done|].
  assert (exists k, k ∈ y :: l /\ key_obj k = o) as (z & [->|Hz]%elem_of_cons & <-) by (apply Hin; left); [done|].
  apply (sorted_gt _ _ Ho) in Hy. eapply Forall_forall in Hs; [|exact Hz].
  apply key_le_obj in Hs as [->|Hs]; [done|]. by destruct (obj_lt_irrefl _ (obj_lt_trans _ _ _ Hy Hs)).
Qed.

Lemma runs_same x y l objs :
  key_obj x = key_obj y -> runs (y :: l) (key_obj y :: objs) -> runs (x :: y :: l) (key_obj y :: objs).
Proof.
  intros Es (Ho & Hc & Hin). split_and!; [done| |].
  - change (chunk_by same_object (x :: y :: l)) with
      (match chunk_by same_object (y :: l) with
       | (y :: c) :: cs => if same_object x y then (x :: y :: c) :: cs else [x] :: (y :: c) :: cs
       | cs => [x] :: cs end).
    rewrite Hc, !fmap_cons, !of_object_cons, !decide_True by done.
    rewrite (proj2 (same_object_spec x y)) by done. f_equal. rewrite (of_object_other x); [done|].
    intros o Hi%(sorted_gt _ _ Ho) ->. rewrite Es in Hi. by apply obj_lt_irrefl in Hi.
  - intros o. rewrite (Hin o). split; intros (k & Hk & <-); [exists k; split; [by right|done]|].
    apply elem_of_cons in Hk as [->|Hk]; [exists y; split; [left|done]|by exists k].
Qed.

Lemma runs_new x y l objs :
  obj_lt (key_obj x) (key_obj y) -> runs (y :: l) (key_obj y :: objs) -> runs (x :: y :: l) (key_obj x :: key_obj y :: objs).
Proof.
  intros Hlt (Ho & Hc & Hin).
  assert (forall o, o ∈ key_obj y :: objs -> obj_lt (key_obj x) o) as Hall.
  { intros o [->|Hi%(sorted_gt _ _ Ho)]%elem_of_cons; [done|by eapply obj_lt_trans]. }
  split_and!.
  - constructor; [done|]. by apply Forall_forall.
  - change (chunk_by same_object (x :: y :: l)) with
      (match chunk_by same_object (y :: l) with
       | (y :: c) :: cs => if same_object x y then (x :: y :: c) :: cs else [x] :: (y :: c) :: cs
       | cs => [x] :: cs end).
    rewrite fmap_cons, of_object_other by (intros o Hi%Hall ->; by apply obj_lt_irrefl in Hi).
    rewrite Hc, fmap_cons, of_object_cons, decide_True by done.
    destruct (same_object x y) eqn:Es; [apply same_object_spec in Es; rewrite Es in Hlt; by apply obj_lt_irrefl in Hlt|].
    f_equal. rewrite of_object_cons, decide_True by done. f_equal. symmetry. apply filter_none, Forall_forall. intros z Hz Hzx.
    assert (key_obj z ∈ key_obj y :: objs) as Hi%Hall by (apply Hin; eauto). rewrite Hzx in Hi. by apply obj_lt_irrefl in Hi.
  - intros o. rewrite elem_of_cons, (Hin o). split.
    + intros [->|(k & Hk & <-)]; [exists x; split; [left|done]|exists k; split; [by right|done]].
    + intros (k & [->|Hk]%elem_of_cons & <-); [by left|right; by exists k].
Qed.

Lemma sorted_runs l : StronglySorted key_le l -> exists objs, runs l objs.
Proof.
  induction 1 as [|x l Hs IH Hx].
  { exists []. split_and!; [constructor|done|]. intros o. split; [by intros ?%not_elem_of_nil|by intros (k & ?%not_elem_of_nil & _)]. }
  destruct IH as [objs Hr]. destruct l as [|y l].
  - exists [key_obj x]. split_and!; [repeat constructor| |].
    + cbn [chunk_by]. rewrite fmap_cons, of_object_cons, decide_True by done. done.
    + intros o. rewrite list_elem_of_singleton. split; [intros ->; exists x; split; [left|done]|].
      by intros (k & ->%list_elem_of_singleton & <-).
  - destruct objs as [|o objs]; [exfalso; apply (not_elem_of_nil (key_obj y)), (proj2 (proj2 Hr)); exists y; split; [left|done]|].
    pose proof (runs_head _ _ _ _ Hs Hr) as ->. apply Forall_cons in Hx as [Hxy _].
    apply key_le_obj in Hxy as [Heq|Hlt]; eexists; [by apply runs_same|by apply runs_new].
Qed.

(** ** The concatenated input *)

Abbreviation Item := (Key * Element)%type.

Fixpoint index_batch (b : Z) (i : nat) (es : list Element) : list Item :=
  match es with [] => [] | e :: es => ((el_kind e, el_id e, b, Z.of_nat i), e) :: index_batch b (S i) es end.

(** Every change with its key, in input order. *)
Fixpoint items_from (b : nat) (batches : list Rendered) : list Item :=
  match batches with [] => [] | r :: batches => index_batch (Z.of_nat b) 0 (elements r) ++ items_from (S b) batches end.

Definition items (batches : list Rendered) : list Item := items_from 0 batches.

Definition item_obj (it : Item) : ElementKind * Z := key_obj it.1.
Definition item_claim (it : Item) : option Z := el_version it.2.

Definition positions_fit (batches : list Rendered) : Prop :=
  Z.of_nat (length batches) <= u32_max + 1 /\ Forall (fun r => Z.of_nat (length (elements r)) <= u32_max + 1) batches.

Lemma element_keys_ok b i es :
  Z.of_nat (i + length es) <= u32_max + 1 -> element_keys b i es = Ok (index_batch b i es).*1.
Proof.
  revert i. induction es as [|e es IH]; intros i Hi; [done|]. cbn [element_keys index_batch length] in *.
  unfold position. rewrite (proj2 (Z.leb_le _ _)) by lia. cbn [mbind result_bind]. rewrite IH by lia. done.
Qed.

Lemma batch_keys_ok b batches :
  Z.of_nat (b + length batches) <= u32_max + 1 -> Forall (fun r => Z.of_nat (length (elements r)) <= u32_max + 1) batches ->
  batch_keys b batches = Ok (items_from b batches).*1.
Proof.
  revert b. induction batches as [|r batches IH]; intros b Hb HF; [done|]. apply Forall_cons in HF as [Hr HF].
  cbn [batch_keys items_from length] in *. unfold position. rewrite (proj2 (Z.leb_le _ _)) by lia. cbn [mbind result_bind].
  rewrite element_keys_ok by lia. cbn [mbind result_bind]. rewrite IH by (done || lia). by rewrite fmap_app.
Qed.

Definition pos_lt (a b : Z * Z) : Prop := a.1 < b.1 \/ a.1 = b.1 /\ a.2 < b.2.

Lemma pos_ltb_lt a b : pos_ltb a b = true <-> pos_lt a b.
Proof. unfold pos_ltb, pos_lt. rewrite orb_true_iff, andb_true_iff, Z.eqb_eq, !Z.ltb_lt. lia. Qed.

(** What an item is, and where. *)
Lemma index_batch_in b i es it :
  it ∈ index_batch b i es -> item_obj it = (el_kind it.2, el_id it.2) /\ it.1.1.2 = b /\
    exists j, it.1.2 = Z.of_nat (i + j) /\ es !! j = Some it.2.
Proof.
  revert i. induction es as [|e es IH]; intros i; [by intros ?%not_elem_of_nil|]. intros [->|Hin]%elem_of_cons.
  - split_and!; [done|done|]. exists 0%nat. by rewrite Nat.add_0_r.
  - destruct (IH _ Hin) as (? & ? & j & Hj & Hl). split_and!; [done|done|]. exists (S j). split; [rewrite Hj; lia|done].
Qed.

Lemma items_in b batches it :
  it ∈ items_from b batches -> item_obj it = (el_kind it.2, el_id it.2) /\
    exists c r, it.1.1.2 = Z.of_nat (b + c) /\ batches !! c = Some r /\ 0 <= it.1.2 /\ elements r !! Z.to_nat it.1.2 = Some it.2.
Proof.
  revert b. induction batches as [|r batches IH]; intros b; [by intros ?%not_elem_of_nil|]. intros [Hin|Hin]%elem_of_app.
  - destruct (index_batch_in _ _ _ _ Hin) as (Ho & Hb & j & Hj & Hl). split; [done|]. exists 0%nat, r.
    rewrite Hj, Nat2Z.id. split_and!; [rewrite Hb; lia|done|lia|done].
  - destruct (IH _ Hin) as (Ho & c & r' & Hc & Hr & H0 & Hl). split; [done|]. exists (S c), r'. split_and!; [rewrite Hc; lia|done..].
Qed.

Lemma items_element batches it : it ∈ items batches -> element batches it.1 = Some it.2.
Proof.
  intros Hin. destruct (items_in _ _ _ Hin) as (_ & c & r & Hc & Hr & _ & Hl). unfold element.
  rewrite Hc, Nat2Z.id, Nat.add_0_l, Hr. done.
Qed.

Lemma index_batch_sorted b i es : StronglySorted pos_lt (key_pos <$> (index_batch b i es).*1).
Proof.
  revert i. induction es as [|e es IH]; intros i; [constructor|]. cbn. constructor; [apply IH|].
  apply Forall_fmap, Forall_fmap, Forall_forall. intros it Hin. destruct (index_batch_in _ _ _ _ Hin) as (_ & Hb & j & Hj & _).
  unfold pos_lt, key_pos. cbn. rewrite Hb, Hj. lia.
Qed.

Lemma items_sorted b batches : StronglySorted pos_lt (key_pos <$> (items_from b batches).*1).
Proof.
  revert b. induction batches as [|r batches IH]; intros b; [constructor|]. cbn [items_from]. rewrite !fmap_app.
  pose proof (index_batch_sorted (Z.of_nat b) 0 (elements r)) as Hs.
  assert (Forall (fun it => it.1.1.2 = Z.of_nat b) (index_batch (Z.of_nat b) 0 (elements r))) as Hb.
  { apply Forall_forall. intros it Hin. by destruct (index_batch_in _ _ _ _ Hin) as (_ & ? & _). }
  induction (index_batch (Z.of_nat b) 0 (elements r)) as [|it its IHl]; [apply IH|].
  apply Forall_cons in Hb as [Hb0 Hb]. cbn in Hs |- *. apply StronglySorted_inv in Hs as [Hs1 Hs2]. constructor; [by apply IHl|].
  apply Forall_app. split; [done|]. apply Forall_fmap, Forall_fmap, Forall_forall. intros it' Hin.
  destruct (items_in _ _ _ Hin) as (_ & c & r' & Hc & _). change (pos_lt (it.1.1.2, it.1.2) (it'.1.1.2, it'.1.2)). left. change (it.1.1.2 < it'.1.1.2). assert (it.1.1.2 = Z.of_nat b) as -> by exact Hb0. rewrite Hc. lia.
Qed.

(** ** Each object's keys, in input order *)

Lemma sorted_filter {A} (R : A -> A -> Prop) (P : A -> Prop) `{!forall x, Decision (P x)} l :
  StronglySorted R l -> StronglySorted R (filter P l).
Proof.
  induction 1 as [|x l Hs IH Hx]; [constructor|]. rewrite filter_cons. destruct (decide (P x)); [|done].
  constructor; [done|]. apply Forall_forall. intros y [_ Hy]%list_elem_of_filter. by eapply Forall_forall in Hx.
Qed.

Lemma pos_key_le x y : key_obj x = key_obj y -> pos_lt (key_pos x) (key_pos y) -> key_le x y.
Proof.
  destruct x as [[[k1 i1] b1] e1], y as [[[k2 i2] b2] e2]. unfold key_obj, pos_lt, key_pos, key_le. cbn. intros [= -> ->]. lia.
Qed.

Lemma of_object_sorted o l : StronglySorted pos_lt (key_pos <$> l) -> StronglySorted key_le (of_object o l).
Proof.
  induction l as [|x l IH]; intros Hs; [constructor|]. cbn in Hs. apply StronglySorted_inv in Hs as [Hs Hx].
  rewrite of_object_cons. destruct (decide (key_obj x = o)) as [<-|]; [|by apply IH]. constructor; [by apply IH|].
  apply Forall_forall. intros y [Hy Hin]%list_elem_of_filter. apply pos_key_le; [done|].
  rewrite Forall_fmap in Hx. by eapply Forall_forall in Hx.
Qed.

Lemma history_keys o (its : list Item) : (history item_obj o its).*1 = of_object o its.*1.
Proof.
  induction its as [|it its IH]; [done|]. unfold history in *. rewrite fmap_cons, of_object_cons, filter_cons.
  unfold item_obj at 1. destruct (decide _); [by rewrite fmap_cons, IH|done].
Qed.

Lemma sorted_object batches o :
  of_object o (merge_sort key_le (items batches).*1) = (history item_obj o (items batches)).*1.
Proof.
  rewrite history_keys. apply (Sorted_unique key_le).
  - apply StronglySorted_Sorted, sorted_filter, StronglySorted_merge_sort; apply _.
  - apply StronglySorted_Sorted, of_object_sorted, items_sorted.
  - unfold of_object. by rewrite merge_sort_Permutation.
Qed.

(** The runs of the sorted keys: the objects, each with its changes in input order. *)
Lemma object_runs batches :
  exists objs, StronglySorted obj_lt objs /\
    chunk_by same_object (merge_sort key_le (items batches).*1) =
      (fun o => (history item_obj o (items batches)).*1) <$> objs /\
    forall o, o ∈ objs <-> exists it, it ∈ items batches /\ item_obj it = o.
Proof.
  destruct (sorted_runs (merge_sort key_le (items batches).*1)) as (objs & Hs & Hc & Hin); [apply StronglySorted_merge_sort; apply _|].
  exists objs. split_and!; [done| |].
  - rewrite Hc. apply list_fmap_ext. intros i o _. apply sorted_object.
  - intros o. rewrite (Hin o). split.
    + intros (k & Hk & <-). rewrite merge_sort_Permutation in Hk. apply list_elem_of_fmap in Hk as (it & -> & Hit). by exists it.
    + intros (it & Hit & <-). exists it.1. split; [|done]. rewrite merge_sort_Permutation. apply list_elem_of_fmap. by exists it.
Qed.

(** ** The check of one object *)

Lemma check_claims_pass batches floor its :
  (forall it, it ∈ its -> element batches it.1 = Some it.2) ->
  check_claims batches floor its.*1 = Ok ((fun '(it, v, held) => (it.1, v, held)) <$> object_pass item_claim floor its).
Proof.
  revert floor. induction its as [|it its IH]; intros floor Hel; [done|]. cbn [fmap list_fmap check_claims object_pass].
  rewrite Hel by left. cbn [ok_or mbind result_bind]. change (el_version it.2) with (item_claim it).
  assert (forall it', it' ∈ its -> element batches it'.1 = Some it'.2) as Hel' by (intros; apply Hel; by right).
  destruct (item_claim it) as [v|]; [destruct (floor_admit floor (Some v)) as [[]|held]|]; [by apply IH|done|by apply IH].
Qed.

Lemma check_object_pass batches its :
  (forall it, it ∈ its -> element batches it.1 = Some it.2) ->
  check_object batches its.*1 = Ok ((fun '(it, v, held) => (it.1, v, held)) <$> object_pass item_claim None its).
Proof.
  intros Hel. destruct its as [|it its]; [done|]. cbn [fmap list_fmap check_object object_pass]. rewrite Hel by left.
  cbn [ok_or mbind result_bind]. rewrite check_claims_pass by (intros; apply Hel; by right).
  change (el_version it.2) with (item_claim it). by destruct (item_claim it).
Qed.

(** ** The loop over the objects *)

Definition group (a : OscAction) (g : Groups) : list (Z * Z) :=
  match a with ActCreate => g_create g | ActModify => g_modify g | ActDelete => g_delete g end.

(** The last change of each object. *)
Definition survivors (batches : list Rendered) (objs : list (ElementKind * Z)) : list Item :=
  omap (fun o => last (history item_obj o (items batches))) objs.

Lemma survivors_cons batches o objs :
  survivors batches (o :: objs) = match last (history item_obj o (items batches)) with
                                  | Some it => it :: survivors batches objs
                                  | None => survivors batches objs
                                  end.
Proof. done. Qed.

Definition with_action (a : OscAction) (its : list Item) : list (Z * Z) :=
  (fun it => key_pos it.1) <$> filter (fun it => el_action it.2 = a) its.

Definition object_result (batches : list Rendered) (allow : bool) (o : ElementKind * Z) : option (Key * Z * Z) :=
  if allow then None
  else (fun '(it, v, held) => (it.1, v, held)) <$> object_pass item_claim None (history item_obj o (items batches)).

Lemma history_elements batches o it : it ∈ history item_obj o (items batches) -> element batches it.1 = Some it.2.
Proof. intros [_ Hin]%list_elem_of_filter. by apply items_element. Qed.

Lemma group_push a g b p : group a (push_group g b p) = group a g ++ (if decide (b = a) then [p] else []).
Proof. destruct a, b; cbn; by rewrite ?app_nil_r. Qed.

Lemma objects_loop_ok batches allow objs g fr :
  exists g', objects_loop batches allow ((fun o => (history item_obj o (items batches)).*1) <$> objs) g fr =
    Ok (g', foldl earlier fr (object_result batches allow <$> objs)) /\
    forall a, group a g' = group a g ++ with_action a (survivors batches objs).
Proof.
  revert g fr. induction objs as [|o objs IH]; intros g fr.
  { exists g. split; [done|]. intros a. by rewrite app_nil_r. }
  rewrite !fmap_cons. cbn [objects_loop foldl].
  assert ((if allow then Ok None else check_object batches (history item_obj o (items batches)).*1) = Ok (object_result batches allow o)) as ->.
  { unfold object_result. destruct allow; [done|]. apply check_object_pass. apply history_elements. }
  cbn [mbind result_bind]. rewrite fmap_last.
  destruct (last (history item_obj o (items batches))) as [it|] eqn:El; cbn [fmap option_fmap option_map].
  2: { destruct (IH g (earlier fr (object_result batches allow o))) as (g' & E & Hg). exists g'. split; [exact E|].
       intros a. by rewrite Hg, survivors_cons, El. }
  rewrite (history_elements batches o) by (by apply last_Some_elem_of). cbn [ok_or mbind result_bind].
  destruct (IH (push_group g (el_action it.2) (key_pos it.1)) (earlier fr (object_result batches allow o))) as (g' & E & Hg).
  exists g'. split; [exact E|]. intros a. rewrite Hg, group_push, <- app_assoc, survivors_cons, El. f_equal. unfold with_action. rewrite filter_cons.
  by destruct (decide (el_action it.2 = a)).
Qed.

(** The result kept is one at a smallest position. *)
Lemma earlier_fold fr rs :
  match foldl earlier fr rs with
  | None => fr = None /\ Forall (fun r => r = None) rs
  | Some (k, v, h) => (fr = Some (k, v, h) \/ Some (k, v, h) ∈ rs) /\
      forall k' v' h', fr = Some (k', v', h') \/ Some (k', v', h') ∈ rs -> ~ pos_lt (key_pos k') (key_pos k)
  end.
Proof.
  revert fr. induction rs as [|r rs IH]; intros fr; cbn [foldl].
  { destruct fr as [[[k v] h]|]; [|done]. split; [by left|]. intros k' v' h' [[= <- <- <-]|?%not_elem_of_nil]; [unfold pos_lt; lia|done]. }
  specialize (IH (earlier fr r)). destruct (foldl earlier (earlier fr r) rs) as [[[k v] h]|].
  - destruct IH as [Hin Hmin].
    assert (earlier fr r = fr \/ earlier fr r = r) as Hor.
    { destruct r as [[[k1 v1] h1]|], fr as [[[k2 v2] h2]|]; cbn; try (by left); [destruct (pos_ltb _ _)|]; first [by left|by right]. }
    split; [destruct Hin as [Hin|Hin]; [destruct Hor as [Hor|Hor]; rewrite Hor in Hin; [by left|right; rewrite Hin; left]|right; by right]|].
    intros k' v' h' [->|[<-|Hk]%elem_of_cons]; [| |by eapply Hmin; right].
    + destruct r as [[[k1 v1] h1]|]; cbn [earlier] in Hmin; [|by eapply Hmin; left]. destruct (pos_ltb _ _) eqn:Ep; [|by eapply Hmin; left].
      apply pos_ltb_lt in Ep. specialize (Hmin k1 v1 h1 (or_introl eq_refl)). unfold pos_lt in *. lia.
    + destruct fr as [[[k1 v1] h1]|]; cbn [earlier] in Hmin; [|by eapply Hmin; left]. destruct (pos_ltb _ _) eqn:Ep; [by eapply Hmin; left|].
      specialize (Hmin k1 v1 h1 (or_introl eq_refl)). intros Hlt. assert (~ pos_lt (key_pos k') (key_pos k1)) as Hn by (rewrite <- pos_ltb_lt; congruence).
      unfold pos_lt in *. lia.
  - destruct IH as [He Hrs]. destruct r as [[[k1 v1] h1]|]; cbn [earlier] in He; [destruct fr as [[[k2 v2] h2]|]; [destruct (pos_ltb _ _)|]; done|].
    split; [done|by constructor].
Qed.

(** ** The serial pass *)

Lemma sorted_split {A} (R : A -> A -> Prop) (f : Item -> A) (its pre pre' post post' : list Item) x x' :
  StronglySorted R (f <$> its) -> its = pre ++ x :: post -> its = pre' ++ x' :: post' -> (length pre < length pre')%nat -> R (f x) (f x').
Proof.
  intros Hs -> Heq Hl. revert pre' Heq Hl. induction pre as [|y pre IH]; intros [|y' pre'] Heq Hl; cbn in Hl; [lia| |lia|].
  - cbn in Heq, Hs. simplify_eq. apply StronglySorted_inv in Hs as [_ Hs]. rewrite fmap_app in Hs.
    apply Forall_app in Hs as [_ Hs]. by apply Forall_cons in Hs as [? _].
  - cbn in Heq, Hs. simplify_eq. apply StronglySorted_inv in Hs as [Hs _]. apply (IH Hs pre'); [done|lia].
Qed.

(** The object whose change the serial pass refuses refuses it too, and no
    object refuses an earlier one. *)
Lemma serial_result batches n it v held objs :
  serial item_obj item_claim (items batches) = Some (n, it, v, held) ->
  (forall o, o ∈ objs <-> exists it, it ∈ items batches /\ item_obj it = o) ->
  foldl earlier None (object_result batches false <$> objs) = Some (it.1, v, held).
Proof.
  intros Hs Hobjs. pose proof (serial_from_spec item_obj item_claim [] (items batches)) as Hf. unfold serial in Hs. rewrite Hs in Hf.
  assert (Some (it.1, v, held) ∈ object_result batches false <$> objs) as Hin.
  { destruct Hf as (pre & post & Hits & Hn & _ & Hr & Hmin). apply list_elem_of_fmap. exists (item_obj it). split.
    - unfold object_result. pose proof (object_pass_spec item_obj item_claim (item_obj it) [] (items batches)) as Hp.
      cbn [object_floor history filter] in Hp. unfold object_floor in Hp. cbn in Hp.
      assert (first_refused item_obj item_claim (fun y => item_obj y = item_obj it) [] (items batches) n it v held) as Hq.
      { exists pre, post. split_and!; [done..|]. intros. by eapply Hmin. }
      destruct (object_pass item_claim None (history item_obj (item_obj it) (items batches))) as [[[it' v'] h']|].
      + destruct Hp as [n' Hp]. by destruct (first_refused_unique _ _ _ _ _ _ _ _ _ _ _ _ _ Hq Hp) as (_ & -> & -> & ->).
      + exfalso. by apply (Hp pre it post v held Hits eq_refl).
    - apply Hobjs. exists it. split; [|done]. rewrite Hits. apply elem_of_app. right. left. }
  pose proof (earlier_fold None (object_result batches false <$> objs)) as He.
  destruct (foldl earlier None _) as [[[k w] h]|]; [|destruct He as [_ He]; eapply Forall_forall in He; [|exact Hin]; done].
  destruct He as [[?|Hk] Hmin]; [done|]. specialize (Hmin _ _ _ (or_intror Hin)).
  apply list_elem_of_fmap in Hk as (o & Hk & Ho). unfold object_result in Hk.
  pose proof (object_pass_spec item_obj item_claim o [] (items batches)) as Hp. unfold object_floor in Hp. cbn in Hp.
  destruct (object_pass item_claim None (history item_obj o (items batches))) as [[[it2 v2] h2]|]; [|done]. cbn in Hk. simplify_eq.
  destruct Hp as (n2 & pre2 & post2 & Hits2 & Hn2 & Ho2 & Hr2 & _). destruct Hf as (pre & post & Hits & Hn & _ & Hr & Hfm). cbn in Hr, Hr2.
  destruct (Nat.lt_trichotomy (length pre) (length pre2)) as [Hl|[Hl|Hl]].
  - exfalso. apply Hmin. apply (sorted_split pos_lt (fun i => key_pos i.1) (items batches) pre pre2 post post2 it it2); [|done..].
    pose proof (items_sorted 0 batches) as Hsort. by rewrite <- list_fmap_compose in Hsort.
  - rewrite Hits in Hits2. apply app_inj_1 in Hits2 as [-> [= -> ->]]; [|done]. destruct Hr as [Hc Ha], Hr2 as [Hc2 Ha2].
    rewrite Hc in Hc2. simplify_eq. rewrite Ha in Ha2. by simplify_eq.
  - exfalso. by eapply (Hfm pre2 it2 post2).
Qed.

Lemma serial_none_result batches objs :
  serial item_obj item_claim (items batches) = None -> foldl earlier None (object_result batches false <$> objs) = None.
Proof.
  intros Hs. pose proof (serial_from_spec item_obj item_claim [] (items batches)) as Hf. unfold serial in Hs. rewrite Hs in Hf.
  assert (forall o, object_result batches false o = None) as Hn.
  { intros o. unfold object_result. pose proof (object_pass_spec item_obj item_claim o [] (items batches)) as Hp. unfold object_floor in Hp. cbn in Hp.
    destruct (object_pass item_claim None _) as [[[it2 v2] h2]|]; [|done].
    destruct Hp as (n2 & pre2 & post2 & Hits2 & _ & _ & Hr2 & _). exfalso. by apply (Hf pre2 it2 post2 v2 h2). }
  induction objs as [|o objs IH]; [done|]. cbn [fmap list_fmap foldl]. by rewrite Hn.
Qed.

Lemma groups_ext g1 g2 : (forall a, group a g1 = group a g2) -> g1 = g2.
Proof.
  intros Hg. destruct g1 as [a1 b1 c1], g2 as [a2 b2 c2]. pose proof (Hg ActCreate). pose proof (Hg ActModify).
  pose proof (Hg ActDelete). cbn in *. congruence.
Qed.

Lemma dedupe_allowed batches :
  positions_fit batches ->
  exists g objs, dedupe batches true = Ok g /\ StronglySorted obj_lt objs /\
    (forall o, o ∈ objs <-> exists it, it ∈ items batches /\ item_obj it = o) /\
    (forall a, group a g = with_action a (survivors batches objs)) /\
    dedupe batches false = match foldl earlier None (object_result batches false <$> objs) with
                           | Some (key, version, held) => Err (Regression key.1.1.1 key.1.1.2 version held)
                           | None => Ok g
                           end.
Proof.
  intros [Hb He]. destruct (object_runs batches) as (objs & Hsort & Hruns & Hobjs).
  unfold dedupe. rewrite batch_keys_ok by (done || lia). fold (items batches). cbn [mbind result_bind]. rewrite Hruns.
  destruct (objects_loop_ok batches false objs (mkGroups [] [] []) None) as (g1 & E1 & Hg1).
  destruct (objects_loop_ok batches true objs (mkGroups [] [] []) None) as (g2 & E2 & Hg2).
  assert (foldl earlier None (object_result batches true <$> objs) = None) as Hn by (clear; by induction objs).
  rewrite Hn in E2. rewrite E1, E2. cbn [mbind result_bind]. exists g2, objs. split_and!; [done|done|done| |].
  - intros a. rewrite Hg2. by destruct a.
  - assert (g1 = g2) as -> by (apply groups_ext; intros a; by rewrite Hg1, Hg2). done.
Qed.

(** The verdict is the serial pass's. *)
Lemma dedupe_verdict batches :
  positions_fit batches ->
  match serial item_obj item_claim (items batches) with
  | Some (_, it, v, held) => dedupe batches false = Err (Regression (item_obj it).1 (item_obj it).2 v held)
  | None => exists g, dedupe batches false = Ok g
  end.
Proof.
  intros Hfit. destruct (dedupe_allowed batches Hfit) as (g & objs & _ & _ & Hobjs & _ & Hd). rewrite Hd.
  destruct (serial item_obj item_claim (items batches)) as [[[[n it] v] held]|] eqn:Es.
  - by rewrite (serial_result _ _ _ _ _ _ Es Hobjs).
  - rewrite (serial_none_result _ _ Es). by exists g.
Qed.

(** C31. Simplification is a serial pass: on any rendered batches whose positions
    fit [u32], [dedupe] fails exactly when a serial pass over the concatenated
    input refuses a change, and reports the change that pass meets first with
    the version it claimed and the version held; otherwise, and always with
    regression allowed, every object's last change survives, once, in (kind, id)
    order, in the group of its action. *)
Theorem dedupe_is_serial (batches : list Rendered) :
  positions_fit batches ->
  match serial item_obj item_claim (items batches) with
  | Some (_, it, v, held) => dedupe batches false = Err (Regression (item_obj it).1 (item_obj it).2 v held)
  | None => dedupe batches false = dedupe batches true
  end /\
  exists g objs, dedupe batches true = Ok g /\ StronglySorted obj_lt objs /\
    (forall o, o ∈ objs <-> exists it, it ∈ items batches /\ item_obj it = o) /\
    forall a, group a g = with_action a (survivors batches objs).
Proof.
  intros Hfit. destruct (dedupe_allowed batches Hfit) as (g & objs & Hg & Hs & Hobjs & Hgr & Hd). split; [|by exists g, objs].
  pose proof (dedupe_verdict batches Hfit) as Hv. destruct (serial _ _ _) as [[[[n it] v] held]|] eqn:Es; [done|].
  by rewrite Hg, Hd, (serial_none_result _ _ Es).
Qed.

(** ** A concrete run *)

(** Two batches; node 7 regresses after way 5 is replaced. *)
Definition sample_batches : list Rendered :=
  [mkRendered [mkElement Node ActCreate 7 (Some 3); mkElement Way ActCreate 5 None];
   mkRendered [mkElement Node ActDelete 7 (Some 4); mkElement Way ActModify 5 (Some 1); mkElement Node ActModify 7 (Some 2)]].

Lemma sample_batches_fit : positions_fit sample_batches.
Proof. split; [done|repeat constructor; done]. Qed.

Lemma dedupe_is_serial_witness :
  dedupe sample_batches false = Err (Regression Node 7 2 4) /\
  exists g objs, dedupe sample_batches true = Ok g /\ StronglySorted obj_lt objs /\
    (forall o, o ∈ objs <-> exists it, it ∈ items sample_batches /\ item_obj it = o) /\
    forall a, group a g = with_action a (survivors sample_batches objs).
Proof. exact (dedupe_is_serial sample_batches sample_batches_fit). Defined.

(** ** The two consumers of change files agree

    [apply-changes] parses into the overlay, [merge-changes --simplify] sorts
    rendered batches; both refuse a version regression, and the source says they
    must refuse alike.  Both are the serial pass, so they do. *)

From S2P Require Import OscInterner OscArena OscOverlay.


(** The same change stream, parsed by one and rendered by the other. *)
Definition same_stream (cs : list Change) (batches : list Rendered) : Prop :=
  Forall2 (alike change_key change_claim item_obj item_claim) cs (items batches).

(** Both consumers of a change stream give the same verdict: the overlay
    refuses a change exactly when the simplifier refuses one, and both report
    the same object, the same claimed version and the same held version. *)
Theorem consumers_refuse_alike (t : StringInterner) (cs : list Change) (batches : list Rendered) (k : ElementKind) (id v held : Z) :
  Forall change_ok cs -> positions_fit batches -> same_stream cs batches ->
  ((exists o, apply_all (overlay_over t false) cs = (o, Err (VersionRegression k id v held))) <->
   dedupe batches false = Err (Regression k id v held)) /\
  ((exists o, apply_all (overlay_over t false) cs = (o, Ok tt)) <-> exists g, dedupe batches false = Ok g).
Proof.
  intros Hok Hfit Hs. pose proof (serial_alike _ _ _ _ [] [] _ _ (Forall2_nil_2 _ _ _) Hs) as Ha.
  pose proof (apply_all_serial _ [] cs (overlay_over_is t false) Hok eq_refl) as Ho.
  pose proof (dedupe_verdict batches Hfit) as Hd. unfold serial in Hd.
  destruct (serial_from change_key _ _ _) as [[[[n c] w] h]|], (serial_from item_obj _ _ _) as [[[[m it] w'] h']|]; try done.
  - destruct Ha as (-> & [Hk _] & -> & ->), Ho as (o & Ho & _). rewrite Hd, <- Hk. split.
    + split; [intros [o' Ho']; rewrite Ho in Ho'; by simplify_eq|intros [= <- <- <- <-]; by exists o].
    + split; [intros [o' Ho']; rewrite Ho in Ho'; by simplify_eq|by intros [g ?]].
  - destruct Ho as (o & Ho & _), Hd as [g Hd]. rewrite Hd. split.
    + split; [intros [o' Ho']; rewrite Ho in Ho'; by simplify_eq|done].
    + split; [by exists g|by exists o].
Qed.

(** [sample_changes], rendered in two batches. *)
Definition sample_rendered : list Rendered :=
  [mkRendered [mkElement Node ActCreate 7 (Some 3); mkElement Node ActDelete 7 (Some 4)];
   mkRendered [mkElement Node ActCreate 7 None; mkElement Node ActModify 7 (Some 2)]].

Lemma consumers_refuse_alike_witness :
  ((exists o, apply_all (overlay_over interner_new false) sample_changes = (o, Err (VersionRegression Node 7 2 4))) <->
   dedupe sample_rendered false = Err (Regression Node 7 2 4)) /\
  ((exists o, apply_all (overlay_over interner_new false) sample_changes = (o, Ok tt)) <->
   exists g, dedupe sample_rendered false = Ok g).
Proof.
  apply consumers_refuse_alike; [exact sample_changes_ok|split; [done|repeat constructor; done]|].
  repeat (constructor; [by split|]); constructor.
Defined.
