(* ===== verification/SortedDiff.v ===== *)
(** * The finished diff in id order (src/src/osc/sorted.rs)

    [into_sorted] turns the overlay into sorted vectors: per kind the upserted
    ids with their record offsets, and the deleted ids, in canonical id order.
    Everything apply-changes reads afterwards walks these: the scanner's range
    test, the inline slice of a block, and the forward cursors ([Seek]). *)

From S2P Require Import Prelude StdSlice OsmId ElementKind.
From S2P Require Import OscInterner VersionFloor OscArena OscOverlay.

(** ** The order of ids *)

Definition id_le (a b : Z) : Prop := key_le (osm_id_key a) (osm_id_key b).
Definition id_lt (a b : Z) : Prop := key_lt (osm_id_key a) (osm_id_key b).

#[export] Instance id_le_dec : RelDecision id_le.
Proof. intros a b. unfold id_le, key_le. apply _. Defined.

#[export] Instance id_le_trans : Transitive id_le.
Proof. intros a b c. unfold id_le. apply key_le_trans. Qed.
#[export] Instance id_le_total : Total id_le.
Proof. intros a b. unfold id_le. apply key_le_total. Qed.
#[export] Instance id_le_anti : AntiSymm eq id_le.
Proof. intros a b H1 H2. apply osm_id_key_inj. by apply key_le_antisym. Qed.

Lemma id_lt_irrefl a : ~ id_lt a a.
Proof. unfold id_lt, key_lt. lia. Qed.
Lemma id_lt_trans a b c : id_lt a b -> id_lt b c -> id_lt a c.
Proof. unfold id_lt, key_lt. lia. Qed.
Lemma id_lt_le a b : id_lt a b -> id_le a b.
Proof. unfold id_lt, id_le, key_lt, key_le. lia. Qed.
Lemma id_le_lt_trans a b c : id_le a b -> id_lt b c -> id_lt a c.
Proof. unfold id_lt, id_le, key_lt, key_le. lia. Qed.
Lemma id_lt_le_trans a b c : id_lt a b -> id_le b c -> id_lt a c.
Proof. unfold id_lt, id_le, key_lt, key_le. lia. Qed.
Lemma id_not_lt a b : ~ id_lt a b <-> id_le b a.
Proof. unfold id_lt, id_le, key_lt, key_le. lia. Qed.
Lemma id_le_cases a b : id_le a b -> id_lt a b \/ a = b.
Proof.
  intros H. destruct (decide (a = b)) as [->|Hne]; [by right|left].
  assert (osm_id_key a <> osm_id_key b) as Hk by (intros ?%osm_id_key_inj; done).
  unfold id_lt, id_le, key_lt, key_le in *. destruct (osm_id_key a) as [x y], (osm_id_key b) as [z w]. cbn in *.
  destruct (decide (x = z)) as [->|]; [right; split; [done|]|left; lia]. assert (y <> w) by congruence. lia.
Qed.

(** [osm_id_cmp(a, b).is_lt()] *)
Definition id_ltb (a b : Z) : bool := match osm_id_cmp a b with Lt => true | _ => false end.

Lemma id_ltb_lt a b : id_ltb a b = true <-> id_lt a b.
Proof. unfold id_ltb, osm_id_cmp, id_lt. rewrite <- key_ltb_lt. done. Qed.

(** ** Tables *)

Record KindTable := mkTable { kt_arena : bytes; kt_ids : list Z; kt_offsets : list nat; kt_deleted : list Z }.

(** The ids of a map are distinct, so any sort by id gives this list. *)
Definition table_build (arena : bytes) (index : gmap Z nat) (deleted : gset Z) : KindTable :=
  let pairs := merge_sort (fun a b => id_le a.1 b.1) (map_to_list index) in
  mkTable arena pairs.*1 pairs.*2 (merge_sort id_le (base.elements deleted)).

(** [&arena[offsets[i]..]] *)
Definition table_record (t : KindTable) (i : nat) : option bytes :=
  offset ← kt_offsets t !! i; slice (kt_arena t) offset (length (kt_arena t)).

Definition hit (first last : OsmIdKey) (ids : list Z) : bool :=
  let pos := partition_point (fun id => key_ltb (osm_id_key id) first) ids in
  match ids !! pos with Some id => key_leb (osm_id_key id) last | None => false end.

Definition table_any_in (t : KindTable) (first last : OsmIdKey) : bool :=
  hit first last (kt_ids t) || hit first last (kt_deleted t).

Record SortedDiff := mkSorted {
  sd_nodes : KindTable; sd_ways : KindTable; sd_relations : KindTable; sd_strings : StringTable }.

(** [CompactDiffOverlay::into_sorted] *)
Definition into_sorted (o : CompactDiffOverlay) : SortedDiff :=
  let build k := let s := kind_store o k in table_build (ks_arena s) (ks_index s) (ks_deleted s) in
  mkSorted (build Node) (build Way) (build Relation) (in_strings (ov_interner o)).

Definition sd_kind (d : SortedDiff) (k : ElementKind) : KindTable :=
  match k with Node => sd_nodes d | Way => sd_ways d | Relation => sd_relations d end.

Definition upserts (d : SortedDiff) (k : ElementKind) : list Z := kt_ids (sd_kind d k).
Definition deleted (d : SortedDiff) (k : ElementKind) : list Z := kt_deleted (sd_kind d k).

(** [node], [way], [relation]; a panic when out of range *)
Definition sd_record (d : SortedDiff) (k : ElementKind) (i : nat) : option CompactRef :=
  data ← table_record (sd_kind d k) i; Some (mkRef data (sd_strings d)).

Definition range_overlaps (d : SortedDiff) (k : ElementKind) (min_id max_id : Z) : bool :=
  table_any_in (sd_kind d k) (blob_osm_first_key min_id max_id) (blob_osm_last_key min_id max_id).

(** An index range [start..end]. *)
Definition upsert_range (d : SortedDiff) (k : ElementKind) (first : Z) (last : OsmIdKey) : nat * nat :=
  let ids := upserts d k in
  let first := osm_id_key first in
  let start := partition_point (fun id => key_ltb (osm_id_key id) first) ids in
  let stop := partition_point (fun id => key_leb (osm_id_key id) last) (drop start ids) in
  (start, stop + start)%nat.

(** ** Seek *)

Definition Seek := option nat.

(** The [while] loop over the ids before the one asked for. *)
Fixpoint advance (fuel : nat) (ids : list Z) (id : Z) (pos : nat) : nat :=
  match fuel with
  | O => pos
  | S fuel =>
      match ids !! pos with
      | Some x => if id_ltb x id then advance fuel ids id (S pos) else pos
      | None => pos
      end
  end.

Definition seek_find (s : Seek) (ids : list Z) (id : Z) : Seek * option nat :=
  let pos := match s with Some pos => pos | None => partition_point (fun x => id_ltb x id) ids end in
  let pos := advance (length ids) ids id pos in
  (Some pos, match ids !! pos with Some x => if x =? id then Some pos else None | None => None end).

(** ** Sorted vectors *)

Definition sorted_ids (ids : list Z) : Prop := StronglySorted id_lt ids.

Lemma sorted_lookup ids i j x y :
  sorted_ids ids -> ids !! i = Some x -> ids !! j = Some y -> (i < j)%nat -> id_lt x y.
Proof.
  intros Hs. revert i j. induction Hs as [|z ids Hs IH Hz]; intros i j Hi Hj Hlt; [done|].
  destruct j as [|j]; [lia|]. destruct i as [|i]; cbn in Hi, Hj.
  - simplify_eq. eapply Forall_forall; [exact Hz|by eapply list_elem_of_lookup_2].
  - apply (IH i j); [done|done|lia].
Qed.

Lemma sorted_lookup_le ids i j x y :
  sorted_ids ids -> ids !! i = Some x -> ids !! j = Some y -> (i <= j)%nat -> id_le x y.
Proof.
  intros Hs Hi Hj Hle. destruct (decide (i = j)) as [->|Hne]; [rewrite Hi in Hj; simplify_eq; by apply key_le_refl|].
  apply id_lt_le. eapply sorted_lookup; [done..|lia].
Qed.

Lemma sorted_lookup_inj ids i j x : sorted_ids ids -> ids !! i = Some x -> ids !! j = Some x -> i = j.
Proof.
  intros Hs Hi Hj. destruct (Nat.lt_trichotomy i j) as [Hl|[Hl|Hl]]; [|done|].
  - exfalso. apply (id_lt_irrefl x). exact (sorted_lookup _ _ _ _ _ Hs Hi Hj Hl).
  - exfalso. apply (id_lt_irrefl x). exact (sorted_lookup _ _ _ _ _ Hs Hj Hi Hl).
Qed.

(** A predicate that only moves from true to false along the order. *)
Lemma sorted_partitioned (p : Z -> bool) ids :
  sorted_ids ids -> (forall x y, id_le x y -> p y = true -> p x = true) -> partitioned p ids.
Proof. intros Hs Hp i j x y Hij Hx Hy. apply Hp. by eapply sorted_lookup_le. Qed.

Lemma merge_sorted_ids (l : list Z) : NoDup l -> sorted_ids (merge_sort id_le l).
Proof.
  intros Hnd. assert (StronglySorted id_le (merge_sort id_le l)) as Hs by (apply StronglySorted_merge_sort; apply _).
  assert (NoDup (merge_sort id_le l)) as Hn by (by rewrite merge_sort_Permutation). clear Hnd.
  induction Hs as [|x k Hs IH Hx]; [constructor|]. apply NoDup_cons in Hn as [Hnx Hn]. constructor; [by apply IH|].
  apply Forall_forall. intros y Hy. eapply Forall_forall in Hx; [|exact Hy]. apply id_le_cases in Hx as [?|Heq]; [done|by subst].
Qed.

#[export] Instance pair_le_dec : RelDecision (fun a b : Z * nat => id_le a.1 b.1).
Proof. intros a b. apply _. Defined.

Lemma table_pairs_sorted (index : gmap Z nat) :
  sorted_ids (merge_sort (fun a b => id_le a.1 b.1) (map_to_list index)).*1.
Proof.
  set (R := fun a b : Z * nat => id_le a.1 b.1).
  assert (StronglySorted R (merge_sort R (map_to_list index))) as Hs.
  { apply StronglySorted_merge_sort; [intros a b c; unfold R; apply id_le_trans|intros a b; unfold R; apply id_le_total]. }
  assert (NoDup (merge_sort R (map_to_list index)).*1) as Hn by (rewrite merge_sort_Permutation; apply NoDup_fst_map_to_list).
  revert Hs Hn. generalize (merge_sort R (map_to_list index)). intros l Hs Hn.
  induction Hs as [|x k Hs IH Hx]; [constructor|]. cbn in Hn |- *. apply NoDup_cons in Hn as [Hnx Hn]. constructor; [by apply IH|].
  apply Forall_fmap, Forall_forall. intros y Hy. eapply Forall_forall in Hx; [|exact Hy]. cbn. unfold R in Hx.
  apply id_le_cases in Hx as [?|He]; [done|]. exfalso. apply Hnx. rewrite He. by apply list_elem_of_fmap_2.
Qed.

(** ** Searches *)

Lemma key_lt_not_le a b : key_ltb a b = false -> key_le b a.
Proof. by rewrite key_ltb_ge. Qed.

Lemma hit_spec first last ids :
  sorted_ids ids ->
  hit first last ids = true <-> exists id, id ∈ ids /\ key_le first (osm_id_key id) /\ key_le (osm_id_key id) last.
Proof.
  intros Hs. unfold hit. set (p := fun id => key_ltb (osm_id_key id) first).
  assert (partitioned p ids) as Hp.
  { apply sorted_partitioned; [done|]. intros x y Hxy. unfold p, id_le in *. rewrite !key_ltb_lt. unfold key_le, key_lt in *. lia. }
  destruct (partition_point_spec p ids Hp) as (_ & Hlt & Hge). set (pos := partition_point p ids) in *. split.
  - destruct (ids !! pos) as [id|] eqn:E; [|done]. intros Hl%key_leb_le. exists id. split; [by eapply list_elem_of_lookup_2|].
    split; [|done]. apply key_lt_not_le. by apply (Hge pos).
  - intros (id & [i Hi]%list_elem_of_lookup & Hf & Hl).
    assert (pos <= i)%nat as Hle.
    { destruct (decide (i < pos)%nat) as [Hlt'|]; [|lia]. specialize (Hlt i id Hlt' Hi). unfold p in Hlt. rewrite key_ltb_lt in Hlt.
      unfold key_le, key_lt in *. lia. }
    destruct (ids !! pos) as [x|] eqn:E; [|apply lookup_ge_None in E; apply lookup_lt_Some in Hi; lia].
    apply key_leb_le. pose proof (sorted_lookup_le _ _ _ _ _ Hs E Hi Hle). by eapply key_le_trans.
Qed.

(** The slice holds exactly the upserts between the two keys. *)
Lemma upsert_range_spec d k first last :
  sorted_ids (upserts d k) ->
  let '(a, b) := upsert_range d k first last in
  (a <= b <= length (upserts d k))%nat /\
  forall i x, upserts d k !! i = Some x ->
    ((a <= i < b)%nat <-> id_le first x /\ key_le (osm_id_key x) last).
Proof.
  intros Hs. unfold upsert_range. set (ids := upserts d k) in *. set (p := fun id => key_ltb (osm_id_key id) (osm_id_key first)).
  assert (partitioned p ids) as Hp.
  { apply sorted_partitioned; [done|]. intros x y Hxy. unfold p, id_le in *. rewrite !key_ltb_lt. unfold key_le, key_lt in *. lia. }
  destruct (partition_point_spec p ids Hp) as (Ha & Hlt & Hge). set (a := partition_point p ids) in *.
  set (q := fun id => key_leb (osm_id_key id) last).
  assert (partitioned q (drop a ids)) as Hq.
  { intros i j x y Hij Hx Hy. rewrite lookup_drop in Hx, Hy. unfold q. rewrite !key_leb_le.
    pose proof (sorted_lookup_le ids (a + i) (a + j) x y Hs Hx Hy ltac:(lia)). unfold id_le in *. by apply key_le_trans. }
  destruct (partition_point_spec q (drop a ids) Hq) as (Hb & Hqt & Hqf). set (n := partition_point q (drop a ids)) in *.
  rewrite length_drop in Hb. split; [lia|]. intros i x Hx. unfold id_le. split.
  - intros [H1 H2]. split.
    + apply key_lt_not_le. by apply (Hge i).
    + apply key_leb_le. apply (Hqt (i - a)%nat); [lia|]. rewrite lookup_drop. by replace (a + (i - a))%nat with i by lia.
  - intros [H1 H2]. assert (a <= i)%nat as Hi.
    { destruct (decide (i < a)%nat) as [Hl|]; [|lia]. specialize (Hlt i x Hl Hx). unfold p in Hlt. rewrite key_ltb_lt in Hlt. unfold key_le, key_lt in *. lia. }
    split; [done|]. destruct (decide (i < n + a)%nat) as [|Hl]; [done|].
    assert (q x = false) as Hf by (apply (Hqf (i - a)%nat); [lia|]; rewrite lookup_drop; by replace (a + (i - a))%nat with i by lia).
    unfold q in Hf. apply key_leb_le in H2. congruence.
Qed.

(** A cursor that has only passed ids before [id]. *)
Definition seek_ok (s : Seek) (ids : list Z) (id : Z) : Prop :=
  match s with None => True | Some pos => forall j x, (j < pos)%nat -> ids !! j = Some x -> id_lt x id end.

Lemma advance_spec fuel ids id pos :
  (length ids <= fuel + pos)%nat -> (forall j x, (j < pos)%nat -> ids !! j = Some x -> id_lt x id) ->
  let pos' := advance fuel ids id pos in
  (pos <= pos')%nat /\ (forall j x, (j < pos')%nat -> ids !! j = Some x -> id_lt x id) /\
  (forall x, ids !! pos' = Some x -> id_le id x).
Proof.
  revert pos. induction fuel as [|fuel IH]; intros pos Hf Hb; cbn [advance].
  { split_and!; [lia|done|]. intros x Hx%lookup_lt_Some. lia. }
  destruct (ids !! pos) as [x|] eqn:E; [|split_and!; [lia|done|congruence]].
  destruct (id_ltb x id) eqn:Elt.
  - apply id_ltb_lt in Elt. destruct (IH (S pos)) as (H1 & H2 & H3); [lia| |split_and!; [lia|done|done]].
    intros j y Hj Hy. destruct (decide (j = pos)) as [->|]; [congruence|]. apply (Hb j y); [lia|done].
  - split_and!; [lia|done|]. intros y Hy. assert (y = x) as -> by congruence. apply id_not_lt. rewrite <- id_ltb_lt. congruence.
Qed.

Lemma seek_find_spec s ids id :
  sorted_ids ids -> seek_ok s ids id ->
  let '(s', r) := seek_find s ids id in
  (forall i, r = Some i <-> ids !! i = Some id) /\ forall id', id_le id id' -> seek_ok s' ids id'.
Proof.
  intros Hs Hok. unfold seek_find. set (pos0 := match s with Some pos => pos | None => _ end).
  assert (forall j x, (j < pos0)%nat -> ids !! j = Some x -> id_lt x id) as Hb.
  { subst pos0. destruct s as [pos|]; [exact Hok|]. intros j x Hj Hx.
    assert (partitioned (fun x => id_ltb x id) ids) as Hp.
    { apply sorted_partitioned; [done|]. intros a b Hab. rewrite !id_ltb_lt. by apply id_le_lt_trans. }
    destruct (partition_point_spec _ _ Hp) as (_ & Hlt & _). apply id_ltb_lt. by eapply Hlt. }
  destruct (advance_spec (length ids) ids id pos0 ltac:(lia) Hb) as (_ & H2 & H3). set (pos := advance _ _ _ _) in *. split.
  - intros i. split.
    + destruct (ids !! pos) as [x|] eqn:E; [|done]. destruct (Z.eqb_spec x id) as [->|]; [|done]. by intros [= <-].
    + intros Hi. assert (i = pos) as ->.
      { destruct (Nat.lt_trichotomy i pos) as [Hl|[Hl|Hl]]; [|done|].
        - exfalso. by apply (id_lt_irrefl id), (H2 i id).
        - assert (is_Some (ids !! pos)) as [x Hx] by (apply lookup_lt_is_Some; apply lookup_lt_Some in Hi; lia).
          exfalso. apply (id_lt_irrefl id). eapply id_le_lt_trans; [by apply H3|]. exact (sorted_lookup _ _ _ _ _ Hs Hx Hi Hl). }
      by rewrite Hi, Z.eqb_refl.
  - intros id' Hle j x Hj Hx. eapply id_lt_le_trans; [by eapply H2|done].
Qed.

(** ** The finished parse *)

Lemma table_record_spec arena index del i id :
  kt_ids (table_build arena index del) !! i = Some id ->
  exists offset, index !! id = Some offset /\ table_record (table_build arena index del) i = slice arena offset (length arena).
Proof.
  unfold table_build, table_record. cbn [kt_ids kt_offsets kt_arena]. set (l := merge_sort _ _). intros Hi.
  rewrite list_lookup_fmap in Hi. destruct (l !! i) as [[id' offset]|] eqn:E; [|done]. cbn in Hi. simplify_eq.
  exists offset. split.
  - apply elem_of_map_to_list. apply list_elem_of_lookup_2 in E. unfold l in E. by rewrite merge_sort_Permutation in E.
  - rewrite list_lookup_fmap, E. done.
Qed.

Lemma sorted_upserts o k : sorted_ids (upserts (into_sorted o) k).
Proof. destruct k; apply table_pairs_sorted. Qed.

Lemma sorted_deleted o k : sorted_ids (deleted (into_sorted o) k).
Proof. destruct k; apply merge_sorted_ids, NoDup_elements. Qed.

Lemma elem_of_upserts o k id : id ∈ upserts (into_sorted o) k <-> is_Some (ks_index (kind_store o k) !! id).
Proof.
  assert (upserts (into_sorted o) k = (merge_sort (fun a b => id_le a.1 b.1) (map_to_list (ks_index (kind_store o k)))).*1) as -> by (by destruct k).
  rewrite merge_sort_Permutation, list_elem_of_fmap. split.
  - intros ([i off] & -> & Hin). apply elem_of_map_to_list in Hin. by exists off.
  - intros [off Hoff]. exists (id, off). split; [done|]. by apply elem_of_map_to_list.
Qed.

Lemma elem_of_deleted o k id : id ∈ deleted (into_sorted o) k <-> id ∈ ks_deleted (kind_store o k).
Proof.
  assert (deleted (into_sorted o) k = merge_sort id_le (base.elements (ks_deleted (kind_store o k)))) as -> by (by destruct k).
  rewrite merge_sort_Permutation. apply elem_of_elements.
Qed.

Lemma range_overlaps_spec d k min_id max_id :
  sorted_ids (upserts d k) -> sorted_ids (deleted d k) ->
  range_overlaps d k min_id max_id = true <->
    exists id, (id ∈ upserts d k \/ id ∈ deleted d k) /\ key_le (blob_osm_first_key min_id max_id) (osm_id_key id) /\
      key_le (osm_id_key id) (blob_osm_last_key min_id max_id).
Proof.
  intros H1 H2. unfold range_overlaps, table_any_in. rewrite orb_true_iff, (hit_spec _ _ _ H1), (hit_spec _ _ _ H2). naive_solver.
Qed.

(** The vectors and records are what the last changes say. *)
Record parse_of (cs : list Change) (o : CompactDiffOverlay) (k : ElementKind) : Prop := {
  po_upserts id : id ∈ upserts (into_sorted o) k <-> exists e, last_change k id cs = Some (Upsert e);
  po_deleted id : id ∈ deleted (into_sorted o) k <-> exists k' id' m, last_change k id cs = Some (Delete k' id' m);
  po_record i id : upserts (into_sorted o) k !! i = Some id ->
    exists r, sd_record (into_sorted o) k i = Some r /\ get o k id = Some (Some r) }.

Lemma sorted_diff_spec cs o k : overlay_is o cs -> parse_of cs o k.
Proof.
  intros Hi. pose proof (oi_objects _ _ Hi k) as Ho. split.
  - intros id. rewrite elem_of_upserts. specialize (Ho id). destruct (last_change k id cs) as [[e|k' id' m]|]; cbn in Ho.
    + destruct Ho as [(pre & post & -> & _) _]. split; [by eexists|by eexists].
    + destruct Ho as [-> _]. split; [by intros [? ?]|by intros [? ?]].
    + destruct Ho as [-> _]. split; [by intros [? ?]|by intros [? ?]].
  - intros id. rewrite elem_of_deleted. specialize (Ho id). destruct (last_change k id cs) as [[e|k' id' m]|]; cbn in Ho; naive_solver.
  - intros i id Hid. assert (sd_kind (into_sorted o) k = table_build (ks_arena (kind_store o k)) (ks_index (kind_store o k)) (ks_deleted (kind_store o k))) as Hk by (by destruct k).
    unfold upserts in Hid. rewrite Hk in Hid. destruct (table_record_spec _ _ _ _ _ Hid) as (off & Hoff & Hrec).
    unfold sd_record, get. rewrite Hk, Hrec, Hoff. specialize (Ho id). destruct (last_change k id cs) as [[e|k' id' m]|]; cbn in Ho; [|naive_solver..].
    destruct Ho as [(pre & post & Hx & Hy) _]. rewrite Hoff in Hx. injection Hx as ->. rewrite Hy.
    pose proof (slice_mid pre (record_bytes e ++ post) []) as Hm. rewrite app_nil_r in Hm. rewrite length_app, Hm. by eexists.
Qed.

(** The sorted diff is the finished parse: the upserted and deleted ids of
    each kind are in strictly ascending canonical order, are exactly the objects
    whose last change is an upsert or a delete, and never share an id; the
    record at each index is the one the overlay holds for that id; and the range
    test is conservative: a changed id inside a blob's numeric range always
    makes the blob a candidate. *)
Theorem sorted_diff_is_parse (t : StringInterner) (allow : bool) (cs : list Change) (o : CompactDiffOverlay) (k : ElementKind) :
  Forall change_ok cs -> apply_all (overlay_over t allow) cs = (o, Ok tt) ->
  let d := into_sorted o in
  sorted_ids (upserts d k) /\ sorted_ids (deleted d k) /\
  (forall id, id ∈ upserts d k <-> exists e, last_change k id cs = Some (Upsert e)) /\
  (forall id, id ∈ deleted d k <-> exists k' id' m, last_change k id cs = Some (Delete k' id' m)) /\
  (forall i id, upserts d k !! i = Some id -> exists r, sd_record d k i = Some r /\ get o k id = Some (Some r)) /\
  (forall min_id max_id id, min_id <= id <= max_id -> id ∈ upserts d k \/ id ∈ deleted d k -> range_overlaps d k min_id max_id = true).
Proof.
  intros Hok Hrun d. assert (overlay_is o cs) as Hi by (by eapply apply_all_is). destruct (sorted_diff_spec cs o k Hi) as [Hu Hdl Hr].
  split_and!; [apply sorted_upserts|apply sorted_deleted|exact Hu|exact Hdl|exact Hr|].
  intros min_id max_id id Hrg Hin. apply range_overlaps_spec; [apply sorted_upserts|apply sorted_deleted|]. exists id. split; [done|].
  by apply blob_keys_bound.
Qed.

Lemma sorted_diff_is_parse_witness :
  exists o, apply_all (overlay_over interner_new true) sample_changes = (o, Ok tt) /\
    (forall id, id ∈ upserts (into_sorted o) Node <-> exists e, last_change Node id sample_changes = Some (Upsert e)) /\
    7 ∈ upserts (into_sorted o) Node.
Proof.
  destruct (apply_all (overlay_over interner_new true) sample_changes) as [o r] eqn:E.
  assert (r = Ok tt) as -> by (change r with ((o, r).2); rewrite <- E; vm_compute; reflexivity).
  exists o. split; [done|].
  pose proof (sorted_diff_is_parse interner_new true sample_changes o Node sample_changes_ok E) as (_ & _ & Hu & _).
  split; [exact Hu|]. apply Hu. by eexists.
Defined.
