(* ===== verification/DiffPair.v ===== *)
(** * The block-pair merge computes the element merge

    The reference is a merge of two element lists ([join]). A unit's merge,
    whatever it emits in runs and whole blobs, says exactly what [join] says of
    the elements inside the unit's window ([pair_merge_ok]). *)

From S2P Require Import Prelude OsmId ElementKind BlobMeta Tally SortedDiff Content DiffJoin.

(** ** The reference *)

Fixpoint join (o : list ContentElement) : list ContentElement -> list Action :=
  match o with
  | [] => fix go n := match n with [] => [] | y :: n => ElementNewOnly y :: go n end
  | x :: o' =>
      fix go n :=
        match n with
        | [] => ElementOldOnly x :: join o' []
        | y :: n' =>
            match osm_id_cmp (content_id x) (content_id y) with
            | Lt => ElementOldOnly x :: join o' n
            | Gt => ElementNewOnly y :: go n'
            | Eq => pair_action x y :: join o' n'
            end
        end
  end.

Lemma join_nil_l n : join [] n = ElementNewOnly <$> n.
Proof. induction n as [|y n IH]; [done|]. cbn. by rewrite <- IH. Qed.
Lemma join_nil_r o : join o [] = ElementOldOnly <$> o.
Proof. induction o as [|x o IH]; [done|]. cbn. by rewrite IH. Qed.
Lemma join_cons x o y n :
  join (x :: o) (y :: n) =
    match osm_id_cmp (content_id x) (content_id y) with
    | Lt => ElementOldOnly x :: join o (y :: n)
    | Gt => ElementNewOnly y :: join (x :: o) n
    | Eq => pair_action x y :: join o n
    end.
Proof. done. Qed.

(** The actions as element actions: a run is its elements, a byte-equal blob
    that many equal elements. *)
Inductive says : list Action -> list Action -> Prop :=
| says_nil : says [] []
| says_equal n es l k : n = Z.of_nat (length es) -> says l k -> says (BlobEqual n :: l) ((ElementEqual <$> es) ++ k)
| says_old r l k : run_count r = Z.of_nat (length (run_elements r)) -> says l k ->
    says (BlobOldOnly r :: l) ((ElementOldOnly <$> run_elements r) ++ k)
| says_new r l k : run_count r = Z.of_nat (length (run_elements r)) -> says l k ->
    says (BlobNewOnly r :: l) ((ElementNewOnly <$> run_elements r) ++ k)
| says_element a l k :
    match a with ElementEqual _ | ElementModified _ _ | ElementOldOnly _ | ElementNewOnly _ => True | _ => False end ->
    says l k -> says (a :: l) (a :: k).

Lemma says_app l1 k1 l2 k2 : says l1 k1 -> says l2 k2 -> says (l1 ++ l2) (k1 ++ k2).
Proof. induction 1; intros H2; cbn; rewrite <- ?app_assoc; [done|apply says_equal|apply says_old|apply says_new|apply says_element]; by auto. Qed.

Lemma join_elements o n : says (join o n) (join o n).
Proof.
  revert n. induction o as [|x o IH]; intros n.
  - rewrite join_nil_l. induction n; cbn; constructor; done.
  - induction n as [|y n IHn].
    + rewrite join_nil_r. clear. induction (x :: o); cbn; constructor; done.
    + rewrite join_cons. destruct (osm_id_cmp _ _); apply says_element; try done. unfold pair_action. by destruct (content_equal x y).
Qed.

(** ** Splitting the reference *)

Definition elem_lt (x y : ContentElement) : Prop := id_lt (content_id x) (content_id y).
Definition elem_sorted (es : list ContentElement) : Prop := StronglySorted elem_lt es.

Lemma cmp_lt_id a b : osm_id_cmp a b = Lt <-> id_lt a b.
Proof. unfold id_lt. rewrite <- key_ltb_lt. unfold key_ltb, osm_id_cmp. destruct (key_cmp _ _); naive_solver. Qed.
Lemma cmp_gt_id a b : osm_id_cmp a b = Gt <-> id_lt b a.
Proof.
  split.
  - intros E. destruct (decide (id_lt b a)) as [|Hn]; [done|]. apply id_not_lt, id_le_cases in Hn as [H| ->].
    + apply cmp_lt_id in H. congruence.
    + assert (osm_id_cmp b b = Eq) by (by apply osm_id_cmp_eq). congruence.
  - intros H. destruct (osm_id_cmp a b) eqn:E; [|apply cmp_lt_id in E; exfalso; by apply (id_lt_irrefl a), (id_lt_trans a b a)|done].
    apply osm_id_cmp_eq in E as ->. by apply id_lt_irrefl in H.
Qed.
Lemma cmp_le_id a b : cmp_le a b = true <-> id_le a b.
Proof.
  unfold cmp_le. rewrite <- id_not_lt, <- cmp_gt_id. destruct (osm_id_cmp a b); naive_solver.
Qed.

(** Everything of the first parts is before the other side's second part. *)
Lemma join_split o1 o2 n1 n2 :
  (forall x y, x ∈ o1 -> y ∈ n2 -> elem_lt x y) -> (forall x y, x ∈ n1 -> y ∈ o2 -> elem_lt x y) ->
  join (o1 ++ o2) (n1 ++ n2) = join o1 n1 ++ join o2 n2.
Proof.
  revert n1. induction o1 as [|x o1 IH]; intros n1 Ho Hn.
  - rewrite join_nil_l. cbn [app]. induction n1 as [|y n1 IHn]; [done|]. cbn [app fmap list_fmap].
    destruct o2 as [|z o2].
    + rewrite !join_nil_l. cbn. by rewrite fmap_app.
    + rewrite join_cons. assert (osm_id_cmp (content_id z) (content_id y) = Gt) as -> by (apply cmp_gt_id, Hn; left).
      cbn. f_equal. apply IHn. intros a b Ha. apply Hn. by right.
  - cbn [app]. induction n1 as [|y n1 IHn]; cbn [app].
    + rewrite join_nil_r, fmap_cons. cbn [app]. assert (join (x :: o1 ++ o2) n2 = ElementOldOnly x :: join (o1 ++ o2) n2) as ->.
      { destruct n2 as [|z n2]; [by rewrite !join_nil_r|]. rewrite join_cons. assert (osm_id_cmp (content_id x) (content_id z) = Lt) as ->; [|done].
        apply cmp_lt_id, Ho; left. }
      f_equal. rewrite <- join_nil_r. apply (IH []); [|by intros ? ? ?%elem_of_nil]. intros a b Ha. apply Ho. by right.
    + rewrite !join_cons. destruct (osm_id_cmp _ _).
      * cbn. f_equal. apply IH; [intros a b Ha; apply Ho; by right|intros a b Ha; apply Hn; by right].
      * cbn. f_equal. apply (IH (y :: n1)); [intros a b Ha; apply Ho; by right|done].
      * cbn. f_equal. apply IHn. intros a b Ha. apply Hn. by right.
Qed.

Lemma join_old_first o1 o2 n : (forall x y, x ∈ o1 -> y ∈ n -> elem_lt x y) -> join (o1 ++ o2) n = (ElementOldOnly <$> o1) ++ join o2 n.
Proof. intros H. rewrite <- join_nil_r. apply (join_split o1 o2 [] n); [done|by intros ? ? ?%elem_of_nil]. Qed.
Lemma join_new_first o n1 n2 : (forall x y, x ∈ n1 -> y ∈ o -> elem_lt x y) -> join o (n1 ++ n2) = (ElementNewOnly <$> n1) ++ join o n2.
Proof. intros H. rewrite <- join_nil_l. apply (join_split [] o n1 n2); [by intros ? ? ?%elem_of_nil|done]. Qed.

Lemma content_equal_refl e : Forall (fun t => is_Some (match t with Ok x => Some x | Err _ => None end)) (content_tokens e) -> content_equal e e = true.
Proof.
  intros H. unfold content_equal. rewrite decide_True by done. induction H as [|[t|x] ts Ht _ IH]; [done| |by destruct Ht]. cbn. by rewrite decide_True.
Qed.

(** ** The pair loop *)

Definition below (b : Z) (es : list ContentElement) : Prop := forall x, x ∈ es -> id_le (content_id x) b.
Definition above (b : Z) (es : list ContentElement) : Prop := forall x, x ∈ es -> id_lt b (content_id x).

Lemma above_head b x es : elem_sorted (x :: es) -> id_lt b (content_id x) -> above b (x :: es).
Proof. intros [_ Hs]%StronglySorted_inv Hb y [->|Hy]%elem_of_cons; [done|]. eapply id_lt_trans; [done|]. by eapply Forall_forall in Hs. Qed.

Lemma above_below_nil b x es n1 n2 : x :: es = n1 ++ n2 -> above b n2 -> id_le (content_id x) b -> exists n1', n1 = x :: n1' /\ es = n1' ++ n2.
Proof.
  intros E Ha Hx. destruct n1 as [|y n1]; cbn in E; [|injection E as -> ->; by exists n1]. exfalso. apply (id_lt_irrefl b). subst n2.
  eapply id_lt_le_trans; [apply (Ha x); left|done].
Qed.

Lemma below_above_nil b es n1 n2 : es = n1 ++ n2 -> above b es -> below b n1 -> n1 = [].
Proof.
  intros -> Ha Hb. destruct n1 as [|y n1]; [done|]. exfalso. apply (id_lt_irrefl b). eapply id_lt_le_trans; [apply (Ha y); left|apply Hb; left].
Qed.

Lemma head_in_range b es :
  elem_sorted es ->
  match head es ≫= (fun e => if cmp_le (content_id e) b then Some e else None) with
  | Some x => exists es', es = x :: es' /\ id_le (content_id x) b
  | None => above b es
  end.
Proof.
  intros Hs. destruct es as [|x es]; cbn; [by intros ? ?%elem_of_nil|]. destruct (cmp_le (content_id x) b) eqn:E.
  - apply cmp_le_id in E. by exists es.
  - apply above_head; [done|]. destruct (decide (id_lt b (content_id x))) as [|Hn]; [done|]. apply id_not_lt, cmp_le_id in Hn. congruence.
Qed.

Lemma elem_sorted_tail x es : elem_sorted (x :: es) -> elem_sorted es.
Proof. by intros [? _]%StronglySorted_inv. Qed.

Lemma pair_loop_spec fuel b o n oc nc out :
  elem_sorted o -> elem_sorted n -> (length o + length n <= fuel)%nat ->
  exists o1 o2 n1 n2, o = o1 ++ o2 /\ n = n1 ++ n2 /\ below b o1 /\ below b n1 /\ above b o2 /\ above b n2 /\
    pair_loop fuel b o n oc nc out = ((oc + length o1)%nat, (nc + length n1)%nat, o2, n2, out ++ join o1 n1).
Proof.
  assert (below b []) as Hb0 by (by intros ? ?%elem_of_nil).
  assert (forall x es, below b es -> id_le (content_id x) b -> below b (x :: es)) as Hb1 by (intros x es H Hx y [->|Hy]%elem_of_cons; auto).
  revert o n oc nc out. induction fuel as [|fuel IH]; intros o n oc nc out Ho Hn Hf; cbn [pair_loop].
  { destruct o, n; try (cbn in Hf; lia). exists [], [], [], []. cbn. rewrite !Nat.add_0_r, app_nil_r. split_and!; try done; by intros ? ?%elem_of_nil. }
  pose proof (head_in_range b o Ho) as Eo. pose proof (head_in_range b n Hn) as En.
  destruct (head o ≫= _) as [x|] eqn:Ho'; destruct (head n ≫= _) as [y|] eqn:Hn'.
  - destruct Eo as (o' & -> & Hx), En as (n' & -> & Hy). cbn [tail] in *. destruct (osm_id_cmp (content_id x) (content_id y)) eqn:Ec.
    + destruct (IH o' n' (S oc) (S nc) (out ++ [pair_action x y])) as (o1 & o2 & n1 & n2 & -> & -> & B1 & B2 & A1 & A2 & ->); [by eapply elem_sorted_tail|by eapply elem_sorted_tail|cbn in Hf; lia|].
      exists (x :: o1), o2, (y :: n1), n2. rewrite join_cons, Ec. cbn [length]. rewrite <- app_assoc. split_and!; auto. by rewrite ?Nat.add_succ_r.
    + destruct (IH o' (y :: n') (S oc) nc (out ++ [ElementOldOnly x])) as (o1 & o2 & n1 & n2 & -> & Hsp & B1 & B2 & A1 & A2 & ->); [by eapply elem_sorted_tail|done|cbn in Hf |- *; lia|].
      destruct (above_below_nil b y n' n1 n2 Hsp A2 Hy) as (n1' & -> & Hsp').
      exists (x :: o1), o2, (y :: n1'), n2. rewrite join_cons, Ec. cbn [length]. rewrite <- app_assoc. split_and!; auto. by rewrite ?Nat.add_succ_r.
    + destruct (IH (x :: o') n' oc (S nc) (out ++ [ElementNewOnly y])) as (o1 & o2 & n1 & n2 & Hsp & -> & B1 & B2 & A1 & A2 & ->); [done|by eapply elem_sorted_tail|cbn in Hf |- *; lia|].
      destruct (above_below_nil b x o' o1 o2 Hsp A1 Hx) as (o1' & -> & Hsp').
      exists (x :: o1'), o2, (y :: n1), n2. rewrite join_cons, Ec. cbn [length]. rewrite <- app_assoc. split_and!; auto. by rewrite ?Nat.add_succ_r.
  - destruct Eo as (o' & -> & Hx). cbn [tail].
    destruct (IH o' n (S oc) nc (out ++ [ElementOldOnly x])) as (o1 & o2 & n1 & n2 & -> & Hsp & B1 & B2 & A1 & A2 & ->); [by eapply elem_sorted_tail|done|cbn in Hf; lia|].
    assert (n1 = []) as -> by (by eapply below_above_nil). exists (x :: o1), o2, [], n2. rewrite !join_nil_r, fmap_cons. cbn [length]. rewrite <- app_assoc. split_and!; auto. by rewrite ?Nat.add_succ_r.
  - destruct En as (n' & -> & Hy). cbn [tail].
    destruct (IH o n' oc (S nc) (out ++ [ElementNewOnly y])) as (o1 & o2 & n1 & n2 & Hsp & -> & B1 & B2 & A1 & A2 & ->); [done|by eapply elem_sorted_tail|cbn in Hf; lia|].
    assert (o1 = []) as -> by (by eapply below_above_nil). exists [], o2, (y :: n1), n2. rewrite !join_nil_l, fmap_cons. cbn [length]. rewrite <- app_assoc. split_and!; auto. by rewrite ?Nat.add_succ_r.
  - exists [], o, [], n. cbn. rewrite !Nat.add_0_r, app_nil_r. by split_and!.
Qed.
