(* ===== verification/DiffMerge.v ===== *)
(** * A unit's merge computes the element merge of its window

    Over honest frames (sorted blocks of their claimed kind with exact claims)
    the clip takes exactly a block's part of the window, every turn of the loop
    reports a prefix of the element merge of what both sides still hold, and the
    loop ends within its turns ([pair_merge_ok]). *)

From S2P Require Import Prelude OsmId ElementKind BlobMeta Tally SortedDiff Content DiffJoin DiffPair.

(** ** Honest frames and windows *)

Definition frame_block (f : Frame) : list ContentElement := match f_block f with Ok es => es | Err _ => [] end.
Definition blocks (fs : list Frame) : list ContentElement := concat (frame_block <$> fs).

Definition readable (e : ContentElement) : Prop :=
  Forall (fun t => is_Some (match t with Ok x => Some x | Err _ => None end)) (content_tokens e).

(** Decompressing and parsing a payload. *)
Abbreviation PayloadBlock := (Z * bytes -> list ContentElement).

Record good (pb : PayloadBlock) (k : ElementKind) (f : Frame) : Prop := mkGood {
  good_block : f_block f = Ok (frame_block f);
  good_payload : exists p, f_payload f = Ok p /\ forall x, p = Some x -> frame_block f = pb x;
  good_claim_kind : kind (f_index f) = k;
  good_kinds : Forall (fun e => content_kind e = k /\ readable e) (frame_block f);
  good_claim : claim_exact (f_index f) (content_id <$> frame_block f) }.

Definition before_end (w : Window) (k : OsmIdKey) : bool := match w_end w with Some e => key_ltb k e | None => true end.
Definition from_start (w : Window) (k : OsmIdKey) : bool := match w_start w with Some s => key_leb s k | None => true end.
Definition in_window (w : Window) (e : ContentElement) : bool :=
  from_start w (osm_id_key (content_id e)) && before_end w (osm_id_key (content_id e)).

(** What a list of elements holds of a window. *)
Definition part (w : Window) (es : list ContentElement) : list ContentElement := filter (fun e => in_window w e = true) es.

Lemma part_app w a b : part w (a ++ b) = part w a ++ part w b.
Proof. apply filter_app. Qed.
Lemma part_all w es : Forall (fun e => in_window w e = true) es -> part w es = es.
Proof. induction 1; [done|]. unfold part in *. rewrite filter_cons_True by done. by f_equal. Qed.
Lemma part_none w es : Forall (fun e => in_window w e = false) es -> part w es = [].
Proof. induction 1; [done|]. unfold part in *. by rewrite filter_cons_False by congruence. Qed.
Lemma elem_of_part w x es : x ∈ part w es -> x ∈ es.
Proof. unfold part. rewrite list_elem_of_filter. tauto. Qed.

Lemma elem_sorted_app l k : elem_sorted (l ++ k) <-> elem_sorted l /\ elem_sorted k /\ (forall x y, x ∈ l -> y ∈ k -> elem_lt x y).
Proof. split; [apply StronglySorted_app_le|intros (? & ? & ?); by apply StronglySorted_app_intro]. Qed.

Lemma part_sorted w es : elem_sorted es -> elem_sorted (part w es).
Proof.
  induction 1 as [|x es Hs IH Hx]; [constructor|]. unfold part in *. destruct (decide (in_window w x = true)).
  - rewrite filter_cons_True by done. constructor; [done|]. apply Forall_forall. intros y [_ Hy]%list_elem_of_filter. by eapply Forall_forall in Hx.
  - by rewrite filter_cons_False.
Qed.

(** ** The clip *)

Lemma key_ltb_trans a b c : key_ltb a b = true -> key_lt b c -> key_ltb a c = true.
Proof. rewrite !key_ltb_lt. unfold key_lt. lia. Qed.
Lemma key_leb_ltb a b : key_leb a b = negb (key_ltb b a).
Proof. destruct (key_ltb b a) eqn:E; [apply key_ltb_lt in E|apply key_ltb_ge in E]; cbn; [|by apply key_leb_le]. destruct (key_leb a b) eqn:E2; [|done]. apply key_leb_le in E2. unfold key_lt, key_le in *. lia. Qed.

Lemma past_end w x es :
  elem_sorted (x :: es) -> before_end w (osm_id_key (content_id x)) = false -> Forall (fun e => in_window w e = false) (x :: es).
Proof.
  intros [_ Hs]%StronglySorted_inv Hx. assert (in_window w x = false) by (unfold in_window; by rewrite Hx, andb_false_r). constructor; [done|].
  eapply Forall_impl; [done|]. intros y Hy. unfold in_window. assert (before_end w (osm_id_key (content_id y)) = false) as ->; [|by rewrite andb_false_r].
  unfold before_end in *. destruct (w_end w) as [stop|]; [|done]. destruct (key_ltb (osm_id_key (content_id y)) stop) eqn:E; [|done].
  apply key_ltb_lt in E. apply key_ltb_ge in Hx. unfold elem_lt, id_lt, key_lt, key_le in *. lia.
Qed.

Lemma started w x es : elem_sorted (x :: es) -> from_start w (osm_id_key (content_id x)) = true -> Forall (fun e => from_start w (osm_id_key (content_id e)) = true) (x :: es).
Proof.
  intros [_ Hs]%StronglySorted_inv Hx. constructor; [done|]. eapply Forall_impl; [done|]. intros y Hy. unfold from_start in *. destruct (w_start w) as [start|]; [|done].
  apply key_leb_le in Hx. apply key_leb_le. unfold elem_lt, id_lt, key_lt, key_le in *. lia.
Qed.

(** The walk's tests are the window's. *)
Lemma clip_cons w i skip l e es :
  clip_loop w i skip l (e :: es) =
    if negb (before_end w (osm_id_key (content_id e))) then (Nat.min skip i, i, l)
    else if negb (from_start w (osm_id_key (content_id e))) then clip_loop w (S i) (S i) l es
    else clip_loop w (S i) skip (Some (content_id e)) es.
Proof.
  cbn [clip_loop]. unfold before_end, from_start. destruct (w_end w) as [stop|], (w_start w) as [start|]; cbn; rewrite ?key_leb_ltb, ?negb_involutive; done.
Qed.

Definition last_id (es : list ContentElement) : option Z := content_id <$> list.last es.

Lemma clip_inside w es : forall i skip l,
  elem_sorted es -> Forall (fun e => from_start w (osm_id_key (content_id e)) = true) es -> (skip <= i)%nat ->
  exists b c, es = b ++ c /\ part w es = b /\ clip_loop w i skip l es = (skip, (i + length b)%nat, match last_id b with Some x => Some x | None => l end).
Proof.
  induction es as [|e es IH]; intros i skip l Hs Hf Hi.
  { exists [], []. cbn. by rewrite Nat.add_0_r, Nat.min_l by lia. }
  rewrite clip_cons. destruct (before_end w (osm_id_key (content_id e))) eqn:Eb; cbn [negb].
  - apply Forall_cons in Hf as [He Hf]. rewrite He. cbn [negb].
    destruct (IH (S i) skip (Some (content_id e))) as (b & c & -> & Hp & ->); [by eapply elem_sorted_tail|done|lia|].
    exists (e :: b), c. split; [done|]. split.
    + unfold part in *. rewrite filter_cons_True by (unfold in_window; by rewrite He, Eb). by rewrite Hp.
    + f_equal; [f_equal; cbn; lia|]. unfold last_id. destruct b as [|x b]; [done|]. rewrite (last_cons_cons e x b). by destruct (list.last (x :: b)) eqn:E; [|apply last_None in E].
  - exists [], (e :: es). rewrite Nat.min_l by lia. rewrite Nat.add_0_r. split_and!; [done| |done]. apply part_none. by apply past_end.
Qed.

Lemma clip_before w es : forall i l,
  elem_sorted es ->
  exists a b c, es = a ++ b ++ c /\ part w es = b /\ clip_loop w i i l es = ((i + length a)%nat, (i + length a + length b)%nat, match last_id b with Some x => Some x | None => l end).
Proof.
  induction es as [|e es IH]; intros i l Hs.
  { exists [], [], []. cbn. by rewrite !Nat.add_0_r, Nat.min_l by lia. }
  destruct (from_start w (osm_id_key (content_id e))) eqn:Es.
  { destruct (clip_inside w (e :: es) i i l Hs) as (b & c & E & Hp & ->); [by apply started|lia|]. exists [], b, c. split_and!; [done|done|]. cbn. by rewrite Nat.add_0_r. }
  rewrite clip_cons. destruct (before_end w (osm_id_key (content_id e))) eqn:Eb; cbn [negb].
  - rewrite Es. cbn [negb]. destruct (IH (S i) l) as (a & b & c & -> & Hp & ->); [by eapply elem_sorted_tail|].
    exists (e :: a), b, c. split; [done|]. split; [unfold part in *; rewrite filter_cons_False by (unfold in_window; by rewrite Es); done|]. cbn. by rewrite Nat.add_succ_r.
  - exists [], [], (e :: es). rewrite Nat.min_l by lia. cbn [length app]. rewrite !Nat.add_0_r. split_and!; [done| |done]. apply part_none. by apply past_end.
Qed.

(** ** Decoded blocks *)

Definition st_part (s : BlockState) : list ContentElement := run_elements (state_run s).
Definition st_block (s : option BlockState) : list ContentElement := match s with Some s => bs_block s | None => [] end.
Definition st_rest (s : option BlockState) : list ContentElement := match s with Some s => st_part s | None => [] end.

(** A decoded block: a suffix of its part of the window is left, and its last
    bounds that suffix. *)
Record state_ok (w : Window) (s : BlockState) : Prop := mkStateOk {
  ok_sorted : elem_sorted (bs_block s);
  ok_claim : claim_exact (bs_index s) (content_id <$> bs_block s);
  ok_bounds : (bs_skip s <= default (length (bs_block s)) (bs_end s) <= length (bs_block s))%nat;
  ok_inside : Forall (fun e => in_window w e = true) (st_part s);
  ok_last : below (state_last s) (st_part s);
  ok_last_claim : id_le (state_last s) (blob_last (bs_index s)) }.

Lemma blob_last_key ix : min_id ix <= max_id ix -> osm_id_key (blob_last ix) = blob_osm_last_key (min_id ix) (max_id ix).
Proof. intros H. unfold blob_last, blob_osm_last_id, blob_osm_last_key. repeat case_match; unbool; try done; try lia; f_equal; lia. Qed.

Lemma claim_nonempty ix es : claim_exact ix (content_id <$> es) -> min_id ix <= max_id ix /\ es <> [].
Proof.
  intros (Hne & _ & H1 & _ & Hall). rewrite Forall_forall in Hall. specialize (Hall _ H1). cbv beta in Hall. split; [lia|]. by intros ->.
Qed.

Lemma claim_bounds ix es x :
  claim_exact ix (content_id <$> es) -> x ∈ es ->
  key_le (blob_osm_first_key (min_id ix) (max_id ix)) (osm_id_key (content_id x)) /\ id_le (content_id x) (blob_last ix).
Proof.
  intros Hc Hx. destruct (claim_nonempty _ _ Hc) as [Hle _]. unfold id_le. rewrite blob_last_key by done. apply blob_keys_bound.
  destruct Hc as (_ & _ & _ & _ & Hall). eapply Forall_forall in Hall; [exact Hall|]. by apply list_elem_of_fmap_2.
Qed.

Lemma claim_last_present ix es : claim_exact ix (content_id <$> es) -> exists x, x ∈ es /\ content_id x = blob_last ix.
Proof.
  intros (_ & _ & H1 & H2 & _). apply list_elem_of_fmap in H1 as (a & Ha & Hma), H2 as (b & Hb & Hmb).
  unfold blob_last, blob_osm_last_id. destruct (_ && _); eauto.
Qed.

Lemma st_part_spec s :
  (bs_skip s <= default (length (bs_block s)) (bs_end s) <= length (bs_block s))%nat ->
  st_part s = take (default (length (bs_block s)) (bs_end s) - bs_skip s) (drop (bs_skip s) (bs_block s)) /\
  run_count (state_run s) = Z.of_nat (length (st_part s)).
Proof.
  intros H. unfold st_part, run_elements, state_run. cbn. destruct (bs_end s) as [e|]; cbn in *.
  - split; [done|]. rewrite length_take, length_drop. lia.
  - rewrite length_drop. split; [|lia]. rewrite take_ge; [done|]. rewrite length_drop. lia.
Qed.

Lemma elem_of_st_part s x : (bs_skip s <= default (length (bs_block s)) (bs_end s) <= length (bs_block s))%nat -> x ∈ st_part s -> x ∈ bs_block s.
Proof. intros H. rewrite (proj1 (st_part_spec s H)). rewrite !list_elem_of_lookup. intros (i & [Hx _]%lookup_take_Some). rewrite lookup_drop in Hx. eauto. Qed.

Lemma spent_part s : spent s = true -> st_part s = [].
Proof. unfold spent, st_part, run_elements, state_run. cbn. destruct (bs_end s) as [e|]; [|done]. intros H. apply Nat.leb_le in H. by replace (e - bs_skip s)%nat with 0%nat by lia. Qed.

Lemma st_part_sorted w s : state_ok w s -> elem_sorted (st_part s).
Proof.
  intros Hs. rewrite (proj1 (st_part_spec s (ok_bounds _ _ Hs))). pose proof (ok_sorted _ _ Hs) as H.
  rewrite <- (take_drop (bs_skip s) (bs_block s)) in H. apply elem_sorted_app in H as (_ & H & _).
  rewrite <- (take_drop (default (length (bs_block s)) (bs_end s) - bs_skip s) (drop _ _)) in H. by apply elem_sorted_app in H as (H & _ & _).
Qed.

Section Unit.
Context (pb : PayloadBlock) (k : ElementKind).

Lemma not_crossing w f : good pb k f -> crosses w f = false -> Forall (fun e => in_window w e = true) (frame_block f).
Proof.
  intros Hg. unfold crosses. intros [H1 H2]%orb_false_elim. apply Forall_forall. intros e He.
  destruct (claim_bounds _ _ _ (good_claim _ _ _ Hg) He) as [Hf Hl]. destruct (claim_nonempty _ _ (good_claim _ _ _ Hg)) as [Hle _].
  unfold id_le in Hl. rewrite blob_last_key in Hl by done. unfold in_window, from_start, before_end, first_key, last_key in *. apply andb_true_intro. split.
  - destruct (w_start w); [|done]. apply key_ltb_ge in H1. apply key_leb_le. by eapply key_le_trans.
  - destruct (w_end w); [|done]. rewrite key_leb_ltb in H2. apply negb_false_iff, key_ltb_lt in H2. apply key_ltb_lt. unfold key_le, key_lt in *. lia.
Qed.

Lemma last_below es x l : elem_sorted es -> last_id es = Some l -> x ∈ es -> id_le (content_id x) l.
Proof.
  unfold last_id. intros Hs Hl Hx. destruct (list.last es) as [y|] eqn:E; [|done]. injection Hl as <-. apply last_Some in E as (es' & ->).
  apply elem_sorted_app in Hs as (_ & _ & H). apply elem_of_app in Hx as [Hx|Hx]; [apply id_lt_le, H; [done|left]|].
  apply list_elem_of_singleton in Hx as ->. unfold id_le. apply key_le_refl.
Qed.

(** Decoding an honest frame gives its part of the window. *)
Lemma decode_ok s f :
  good pb k f -> elem_sorted (frame_block f) ->
  exists st, decode s f = Ok st /\ state_ok (ps_window s) st /\ bs_block st = frame_block f /\ bs_index st = f_index f /\
    st_part st = part (ps_window s) (frame_block f).
Proof.
  intros Hg Hs. unfold decode. rewrite (good_block _ _ _ Hg). cbn [mbind result_bind].
  assert (refuse_under (kinds_of (content_kind <$> frame_block f)) (Some (kind (f_index f))) = Ok ()) as ->.
  { unfold refuse_under. destruct (foreign_to _ _) as [x|] eqn:E; [|done]. apply foreign_to_some in E as [Hne Hf]. apply kinds_of_has, list_elem_of_fmap in Hf as (e & -> & He).
    exfalso. apply Hne. rewrite (good_claim_kind _ _ _ Hg). pose proof (good_kinds _ _ _ Hg) as Hk. rewrite Forall_forall in Hk. by apply Hk. }
  cbn [mbind result_bind]. destruct (crosses (ps_window s) f) eqn:Ec.
  - unfold clip. destruct (clip_before (ps_window s) (frame_block f) 0 None Hs) as (a & b & c & E & Hp & ->). eexists. split; [done|].
    assert (st_part (mkState (frame_block f) (0 + length a) (Some (0 + length a + length b)%nat) match last_id b with Some x => Some x | None => None end (f_index f)) = b) as Hst.
    { unfold st_part, run_elements. cbn. rewrite E, drop_app_length. replace (length a + length b - length a)%nat with (length b) by lia. by rewrite take_app_length. }
    rewrite Hst, Hp. split; [|done]. assert (forall x, x ∈ b -> x ∈ frame_block f) as Hin by (intros x Hx; rewrite E; rewrite !elem_of_app; auto).
    assert (elem_sorted b) as Hsb by (rewrite <- Hp; by apply part_sorted).
    constructor; [done|apply Hg| | | |].
    + cbn. rewrite E, !length_app. lia.
    + rewrite Hst, <- Hp. apply Forall_forall. intros x Hx. unfold part in Hx. by apply list_elem_of_filter in Hx as [? _].
    + rewrite Hst. intros x Hx. unfold state_last. cbn. destruct (claim_bounds _ _ _ (good_claim _ _ _ Hg) (Hin _ Hx)) as [_ Hl].
      destruct (last_id b) as [l|] eqn:El; [|done]. destruct (cmp_lt l _); [|done]. by eapply last_below.
    + unfold state_last. cbn. destruct (last_id b) as [l|] eqn:El; [|apply key_le_refl]. unfold cmp_lt. destruct (osm_id_cmp l _) eqn:Ecmp; try apply key_le_refl. by apply id_lt_le, cmp_lt_id.
  - pose proof (not_crossing _ _ Hg Ec) as Hall. eexists. split; [done|].
    assert (st_part (mkState (frame_block f) 0 None None (f_index f)) = frame_block f) as Hst by (unfold st_part, run_elements; cbn; done).
    rewrite Hst, part_all by done. split; [|done]. constructor; [done|apply Hg|cbn; lia|by rewrite Hst| |apply key_le_refl].
    rewrite Hst. intros x Hx. by apply (claim_bounds _ _ _ (good_claim _ _ _ Hg) Hx).
Qed.

(** ** One side *)

Definition ahead (s : BlockPairSide) : list Frame := drop (if ps_held s then ps_current s else ps_next s) (ps_frames s).

Definition placed (s : BlockPairSide) : Prop := ps_held s = true -> ps_next s = S (ps_current s) /\ (ps_current s < length (ps_frames s))%nat.

(** What one side still has to report. *)
Record side_inv (s : BlockPairSide) (st : option BlockState) (rest : list ContentElement) : Prop := mkSideInv {
  si_placed : placed s;
  si_good : Forall (good pb k) (ahead s);
  si_state : forall x, st = Some x -> state_ok (ps_window s) x;
  si_sorted : elem_sorted (st_block st ++ blocks (ahead s));
  si_rest : rest = st_rest st ++ part (ps_window s) (blocks (ahead s)) }.

Definition weight (s : BlockPairSide) (st : option BlockState) : nat :=
  (2 * length (ahead s) + match st with Some _ => 1 | None => 0 end)%nat.

(** [s'] is [s] with its next frame taken. *)
Definition took (s : BlockPairSide) (f : Frame) (s' : BlockPairSide) : Prop :=
  ahead s = f :: ahead s' /\ ahead (hold s') = ahead s /\ ps_window s' = ps_window s /\ placed s' /\ placed (hold s').

Lemma next_blob_spec s :
  placed s -> match next_blob s with (s', None) => ahead s = [] /\ s' = s | (s', Some f) => took s f s' end.
Proof.
  intros Hp. unfold next_blob, took, placed, ahead, hold in *. destruct (ps_held s) eqn:Eh.
  - destruct (Hp eq_refl) as [Hn Hl]. destruct (lookup_lt_is_Some_2 _ _ Hl) as [f Hf]. rewrite Hf. cbn. rewrite Hn.
    split_and!; try done. by apply drop_S.
  - destruct (ps_frames s !! ps_next s) as [f|] eqn:Ef; cbn.
    + split_and!; try done; [by apply drop_S|]. intros _. split; [done|]. by eapply lookup_lt_Some.
    + split; [|done]. apply drop_ge. by apply lookup_ge_None.
Qed.

Lemma blocks_cons f fs : blocks (f :: fs) = frame_block f ++ blocks fs.
Proof. done. Qed.

(** The next frame, decoded, in place of the frame. *)
Lemma take_frame s s' f rest :
  side_inv s None rest -> took s f s' ->
  exists st, decode s' f = Ok st /\ side_inv s' (Some st) rest /\ st_part st = part (ps_window s) (frame_block f) /\ bs_index st = f_index f /\ bs_block st = frame_block f.
Proof.
  intros [_ Hg _ Hs ->] (Ha & _ & Hw & Hpl & _). rewrite Ha in *. apply Forall_cons in Hg as [Hf Hg]. cbn [st_block st_rest app] in *. rewrite blocks_cons in Hs.
  destruct (decode_ok s' f Hf) as (st & Hd & Hok & Hb & Hi & Hp); [by apply elem_sorted_app in Hs as (? & _ & _)|].
  exists st. rewrite <- Hw. split_and!; try done. constructor; [done|done|by intros ? [= <-]|cbn; by rewrite Hb|]. cbn [st_rest]. by rewrite Hp, blocks_cons, part_app.
Qed.

Lemma drop_state s st rest : side_inv s st rest -> side_inv s None (part (ps_window s) (blocks (ahead s))).
Proof. intros [? Hg _ Hs ->]. constructor; [done|done|done| |done]. by apply elem_sorted_app in Hs as (_ & ? & _). Qed.

Lemma next_decoded_ok fuel : forall s rest,
  (length (ahead s) < fuel)%nat -> side_inv s None rest ->
  exists s' st, next_decoded_loop fuel s = Ok (s', st) /\ ps_window s' = ps_window s /\ side_inv s' st rest /\
    (weight s' st <= weight s None)%nat /\
    match st with Some _ => (length (ahead s') < length (ahead s))%nat | None => rest = [] /\ ahead s' = [] end.
Proof.
  induction fuel as [|fuel IH]; intros s rest Hlen Hi; [lia|]. cbn [next_decoded_loop]. pose proof (next_blob_spec s (si_placed _ _ _ Hi)) as Hn.
  destruct (next_blob s) as [s' [f|]].
  - destruct (take_frame _ _ _ _ Hi Hn) as (st & -> & Hi' & Hp & _). destruct Hn as (Ha & _ & Hw & _). cbn [mbind result_bind].
    rewrite Ha in Hlen. cbn in Hlen. destruct (spent st) eqn:Esp.
    + apply spent_part in Esp. pose proof (drop_state _ _ _ Hi') as Hd. assert (rest = part (ps_window s') (blocks (ahead s'))) as Hr.
      { rewrite (si_rest _ _ _ Hi'). cbn. by rewrite Esp. }
      rewrite <- Hr in Hd. destruct (IH s' rest ltac:(lia) Hd) as (s2 & st2 & -> & Hw2 & Hi2 & Hle & Hm). exists s2, st2. unfold weight in *. rewrite Ha. cbn [length] in *.
      split_and!; try done; try congruence; [lia|]. destruct st2; [lia|done].
    + exists s', (Some st). unfold weight. rewrite Ha. cbn. split_and!; try done; lia.
  - destruct Hn as [Ha ->]. exists s, None. split_and!; try done. rewrite (si_rest _ _ _ Hi), Ha. done.
Qed.


Lemma refill_ok s st rest :
  side_inv s st rest ->
  exists s' st', refill s st = Ok (s', st') /\ ps_window s' = ps_window s /\ side_inv s' st' rest /\
    (weight s' st' <= weight s st)%nat /\ (st' = None -> rest = [] /\ ahead s' = []).
Proof.
  intros Hi. unfold refill. destruct st as [x|]; [by exists s, (Some x)|]. unfold next_decoded.
  destruct (next_decoded_ok (S (S (length (ps_frames s)))) s rest) as (s' & st & -> & Hw & Hi' & Hle & Hm); [unfold ahead; rewrite length_drop; lia|done|].
  exists s', st. split_and!; try done. by intros ->.
Qed.

(** ** Emitted blocks *)

Definition only (is_old : bool) : ContentElement -> Action := if is_old then ElementOldOnly else ElementNewOnly.

Lemma emit_says w s is_old out :
  state_ok w s -> exists acts, emit_block s is_old out = out ++ acts /\ says acts (only is_old <$> st_part s).
Proof.
  intros Hs. unfold emit_block. destruct (spent s) eqn:E.
  - exists []. rewrite app_nil_r, (spent_part s E). split; [done|apply says_nil].
  - eexists. split; [done|]. destruct (st_part_spec s (ok_bounds _ _ Hs)) as [_ Hc]. rewrite <- (app_nil_r (_ <$> _)).
    destruct is_old; cbn; [apply says_old|apply says_new]; try done; apply says_nil.
Qed.

Lemma drain_ok is_old fuel : forall s rest out,
  (length (ahead s) < fuel)%nat -> side_inv s None rest ->
  exists acts, drain_loop fuel s is_old out = Ok (out ++ acts) /\ says acts (only is_old <$> rest).
Proof.
  induction fuel as [|fuel IH]; intros s rest out Hlen Hi; [lia|]. cbn [drain_loop].
  destruct (next_decoded_ok (S (S (length (ps_frames s)))) s rest) as (s' & st & E & Hw & Hi' & Hle & Hm); [unfold ahead; rewrite length_drop; lia|done|].
  unfold next_decoded. rewrite E. cbn [mbind result_bind]. destruct st as [x|].
  - pose proof (si_state _ _ _ Hi' x eq_refl) as Hx. destruct (emit_says _ x is_old out Hx) as (acts & -> & Ha).
    destruct (IH s' (part (ps_window s') (blocks (ahead s'))) (out ++ acts)) as (acts2 & -> & Ha2); [lia|by eapply drop_state|].
    exists (acts ++ acts2). rewrite app_assoc. split; [done|]. rewrite (si_rest _ _ _ Hi'), fmap_app. by apply says_app.
  - destruct Hm as [-> _]. exists []. rewrite app_nil_r. split; [done|apply says_nil].
Qed.

(** ** Order between the sides *)

Lemma rest_of s st rest x : side_inv s st rest -> x ∈ rest -> x ∈ st_block st ++ blocks (ahead s).
Proof.
  intros Hi. rewrite (si_rest _ _ _ Hi), !elem_of_app. intros [Hx|Hx]; [left|right; by apply elem_of_part in Hx].
  destruct st as [st|]; [|done]. eapply elem_of_st_part; [|done]. eapply ok_bounds, (si_state _ _ _ Hi), eq_refl.
Qed.

(** Frames ahead lie past the claim of the decoded block. *)
Lemma ahead_above s st rest b :
  side_inv s (Some st) rest -> id_le b (blob_last (bs_index st)) -> above b (part (ps_window s) (blocks (ahead s))).
Proof.
  intros Hi Hb x Hx%elem_of_part. destruct (claim_last_present _ _ (ok_claim _ _ (si_state _ _ _ Hi st eq_refl))) as (y & Hy & Ey).
  pose proof (si_sorted _ _ _ Hi) as (_ & _ & H)%elem_sorted_app. specialize (H y x Hy Hx). unfold elem_lt in H. rewrite Ey in H. by eapply id_le_lt_trans.
Qed.

Lemma entirely_before_rest ix es s st rest :
  claim_exact ix (content_id <$> es) -> blob_entirely_before ix (bs_index st) = true -> side_inv s (Some st) rest ->
  forall x y, x ∈ es -> y ∈ rest -> elem_lt x y.
Proof.
  intros Hc Hb Hi x y Hx Hy. pose proof (ok_claim _ _ (si_state _ _ _ Hi st eq_refl)) as Hst. destruct (claim_nonempty _ _ Hc) as [Hle _].
  assert (forall z, z ∈ bs_block st -> elem_lt x z) as Hz.
  { intros z Hz. destruct (claim_bounds _ _ _ Hc Hx) as [_ H1]. destruct (claim_bounds _ _ _ Hst Hz) as [H2 _]. unfold id_le in H1. rewrite blob_last_key in H1 by done.
    unfold blob_entirely_before in Hb. apply key_ltb_lt in Hb. unfold elem_lt, id_lt, key_lt, key_le in *. lia. }
  apply (rest_of _ _ _ _ Hi) in Hy. apply elem_of_app in Hy as [Hy|Hy]; [by apply Hz|]. destruct (claim_nonempty _ _ Hst) as [_ Hne].
  destruct (bs_block st) as [|z zs] eqn:E; [done|]. pose proof (si_sorted _ _ _ Hi) as (_ & _ & H)%elem_sorted_app. cbn in H. rewrite E in H.
  eapply id_lt_trans; [apply (Hz z); left|]. apply H; [left|done].
Qed.

(** ** A decoded pair *)

Lemma skip_more_ok w s a b : state_ok w s -> st_part s = a ++ b -> state_ok w (skip_more s (length a)) /\ st_part (skip_more s (length a)) = b.
Proof.
  intros Hs E. destruct (st_part_spec s (ok_bounds _ _ Hs)) as [Hp _]. pose proof (ok_bounds _ _ Hs) as Hb.
  assert (length a + length b = default (length (bs_block s)) (bs_end s) - bs_skip s)%nat as Hlen.
  { rewrite <- length_app, <- E, Hp, length_take, length_drop. lia. }
  assert (bs_skip s + length a <= default (length (bs_block s)) (bs_end s) <= length (bs_block s))%nat as Hb' by lia.
  assert (st_part (skip_more s (length a)) = b) as Hq.
  { destruct (st_part_spec (skip_more s (length a)) Hb') as [-> _]. cbn. rewrite <- drop_drop.
    replace (default (length (bs_block s)) (bs_end s) - (bs_skip s + length a))%nat with (default (length (bs_block s)) (bs_end s) - bs_skip s - length a)%nat by lia.
    rewrite <- skipn_firstn_comm, <- Hp, E, drop_app_length. done. }
  split; [|done]. destruct Hs as [H1 H2 _ H4 H5 H6]. constructor; [done|done|exact Hb'|rewrite Hq; rewrite E in H4; by apply Forall_app in H4 as [_ ?]| |exact H6].
  rewrite Hq. intros x Hx. apply (H5 x). rewrite E. apply elem_of_app. auto.
Qed.

(** What is kept of a side after its elements up to a boundary. *)
Lemma residual s st rest a b up_to :
  side_inv s (Some st) rest -> st_part st = a ++ b -> above up_to b ->
  check_claimed_max (bs_index st) (bool_decide (b <> [])) up_to = Ok () /\
  side_inv s (if bool_decide (b <> []) then Some (skip_more st (length a)) else None) (b ++ part (ps_window s) (blocks (ahead s))).
Proof.
  intros Hi E Ha. pose proof (si_state _ _ _ Hi st eq_refl) as Hst. destruct (skip_more_ok _ _ _ _ Hst E) as [Hok Hp].
  unfold check_claimed_max. case_bool_decide as Hb; cbn [negb].
  - split.
    + destruct b as [|x b]; [done|]. assert (id_lt up_to (blob_last (bs_index st))) as Hlt.
      { eapply id_lt_le_trans; [apply (Ha x); left|]. eapply claim_bounds; [by apply (ok_claim _ _ Hst)|]. apply (elem_of_st_part _ _ (ok_bounds _ _ Hst)). rewrite E. apply elem_of_app. right. left. }
      unfold cmp_le. apply cmp_gt_id in Hlt. by rewrite Hlt.
    + destruct Hi as [? ? _ Hs _]. constructor; [done|done|by intros ? [= <-]|exact Hs|]. cbn [st_rest]. by rewrite Hp.
  - split; [done|]. assert (b = []) as -> by (by destruct b; [|destruct Hb]). by eapply drop_state.
Qed.

Lemma merge_pair_ok old new os ns o n out :
  side_inv old (Some os) o -> side_inv new (Some ns) n ->
  exists os' ns' acts o' n', merge_decoded_pair os ns out = Ok (os', ns', out ++ acts) /\ says acts acts /\ join o n = acts ++ join o' n' /\
    side_inv old os' o' /\ side_inv new ns' n' /\ (os' = None \/ ns' = None).
Proof.
  intros Ho Hn. pose proof (si_state _ _ _ Ho os eq_refl) as Hos. pose proof (si_state _ _ _ Hn ns eq_refl) as Hns.
  unfold merge_decoded_pair. set (up_to := if cmp_le (state_last os) (state_last ns) then state_last os else state_last ns).
  unfold element_merge_pair. fold (st_part os) (st_part ns).
  destruct (pair_loop_spec (length (st_part os) + length (st_part ns)) up_to (st_part os) (st_part ns) 0 0 out)
    as (o1 & o2 & n1 & n2 & Eo & En & B1 & B2 & A1 & A2 & ->); [by eapply st_part_sorted|by eapply st_part_sorted|lia|].
  assert (id_le up_to (state_last os) /\ id_le up_to (state_last ns) /\ (up_to = state_last os \/ up_to = state_last ns)) as (U1 & U2 & U3).
  { unfold up_to. destruct (cmp_le _ _) eqn:E; [apply cmp_le_id in E; split_and!; auto; apply key_le_refl|]. split_and!; [|apply key_le_refl|auto].
    apply id_not_lt. intros H%id_lt_le%cmp_le_id. congruence. }
  destruct (residual old os o o1 o2 up_to Ho Eo A1) as [-> R1]. destruct (residual new ns n n1 n2 up_to Hn En A2) as [-> R2]. cbn [mbind result_bind].
  eexists _, _, (join o1 n1), _, _. split; [done|]. split; [apply join_elements|]. split_and!; [|exact R1|exact R2|].
  - rewrite (si_rest _ _ _ Ho), (si_rest _ _ _ Hn). cbn [st_rest]. rewrite Eo, En, <- !app_assoc. apply join_split; intros x y Hx Hy; (eapply id_le_lt_trans; [first [by apply B1|by apply B2]|]); apply elem_of_app in Hy as [Hy|Hy]; [by apply A2| |by apply A1|].
    + eapply (ahead_above _ _ _ _ Hn); [|done]. eapply id_le_trans; [exact U2|by apply (ok_last_claim _ _ Hns)].
    + eapply (ahead_above _ _ _ _ Ho); [|done]. eapply id_le_trans; [exact U1|by apply (ok_last_claim _ _ Hos)].
  - destruct U3 as [U|U]; [left|right]; rewrite bool_decide_eq_false_2; try done; intros Hne; apply Hne.
    + rewrite U in A1. destruct o2 as [|x o2]; [done|]. exfalso. apply (id_lt_irrefl (state_last os)). eapply id_lt_le_trans; [apply (A1 x); left|]. apply (ok_last _ _ Hos). rewrite Eo. apply elem_of_app. right. left.
    + rewrite U in A2. destruct n2 as [|x n2]; [done|]. exfalso. apply (id_lt_irrefl (state_last ns)). eapply id_lt_le_trans; [apply (A2 x); left|]. apply (ok_last _ _ Hns). rewrite En. apply elem_of_app. right. left.
Qed.

(** ** The loop *)

Definition inv (m : PairMerge) (o n : list ContentElement) : Prop :=
  side_inv (pm_old m) (pm_old_decoded m) o /\ side_inv (pm_new m) (pm_new_decoded m) n /\ ps_window (pm_old m) = ps_window (pm_new m).

Definition load (m : PairMerge) : nat := (weight (pm_old m) (pm_old_decoded m) + weight (pm_new m) (pm_new_decoded m))%nat.

(** A turn from out, with that much left to do. *)
Definition turned (out : list Action) (left_to_do : nat) (o n : list ContentElement) (r : PairMerge + list Action) : Prop :=
  match r with
  | inl m => exists acts sp o' n', pm_out m = out ++ acts /\ says acts sp /\ join o n = sp ++ join o' n' /\ inv m o' n' /\ (load m < left_to_do)%nat
  | inr res => exists acts, res = out ++ acts /\ says acts (join o n)
  end.

Lemma turned_more out a b o n r : (a <= b)%nat -> turned out a o n r -> turned out b o n r.
Proof. intros H. destruct r; [|done]. intros (acts & sp & o' & n' & H1 & H2 & H3 & H4 & H5). exists acts, sp, o', n'. split_and!; try done. lia. Qed.

(** One side's block is reported, everything of the other coming after it. *)
Lemma turned_old old new os st_new o n out :
  side_inv old (Some os) o -> side_inv new st_new n -> ps_window old = ps_window new -> (forall x y, x ∈ st_part os -> y ∈ n -> elem_lt x y) ->
  turned out (weight old (Some os) + weight new st_new) o n (inl (mkPair old new None st_new (emit_block os true out))).
Proof.
  intros Ho Hn Hw Hlt. destruct (emit_says _ os true out (si_state _ _ _ Ho os eq_refl)) as (acts & E & Ha). exists acts, (ElementOldOnly <$> st_part os), (part (ps_window old) (blocks (ahead old))), n.
  split_and!; try done; [|unfold inv; cbn; split_and!; try done; by eapply drop_state|unfold load, weight; cbn; lia]. rewrite (si_rest _ _ _ Ho). by apply join_old_first.
Qed.

Lemma turned_new old new st_old ns o n out :
  side_inv old st_old o -> side_inv new (Some ns) n -> ps_window old = ps_window new -> (forall x y, x ∈ st_part ns -> y ∈ o -> elem_lt x y) ->
  turned out (weight old st_old + weight new (Some ns)) o n (inl (mkPair old new st_old None (emit_block ns false out))).
Proof.
  intros Ho Hn Hw Hlt. destruct (emit_says _ ns false out (si_state _ _ _ Hn ns eq_refl)) as (acts & E & Ha). exists acts, (ElementNewOnly <$> st_part ns), o, (part (ps_window new) (blocks (ahead new))).
  split_and!; try done; [|unfold inv; cbn; split_and!; try done; by eapply drop_state|unfold load, weight; cbn; lia]. rewrite (si_rest _ _ _ Hn). by apply join_new_first.
Qed.

Lemma before_st s st rest other ost orest :
  side_inv s (Some st) rest -> side_inv other (Some ost) orest -> blob_entirely_before (bs_index st) (bs_index ost) = true ->
  forall x y, x ∈ st_part st -> y ∈ orest -> elem_lt x y.
Proof.
  intros Hs Ho Hb x y Hx. pose proof (si_state _ _ _ Hs st eq_refl) as Hst. eapply entirely_before_rest; [apply (ok_claim _ _ Hst)|done|done|].
  by apply (elem_of_st_part _ _ (ok_bounds _ _ Hst)).
Qed.

Lemma slow_path_ok m o n : inv m o n -> exists r, slow_path m = Ok r /\ turned (pm_out m) (load m) o n r.
Proof.
  intros (Ho & Hn & Hw). unfold slow_path.
  destruct (refill_ok _ _ _ Ho) as (old & os & -> & Hw1 & Ho' & L1 & N1). destruct (refill_ok _ _ _ Hn) as (new & ns & -> & Hw2 & Hn' & L2 & N2).
  assert (ps_window old = ps_window new) as Hww by congruence. assert (weight old os + weight new ns <= load m)%nat as HL by (unfold load; lia).
  cbn [mbind result_bind]. destruct os as [os|], ns as [ns|].
  - destruct (blob_entirely_before (bs_index os) (bs_index ns)) eqn:E1; [|destruct (blob_entirely_before (bs_index ns) (bs_index os)) eqn:E2].
    + eexists. split; [done|]. eapply turned_more; [exact HL|]. apply turned_old; try done. by eapply before_st.
    + eexists. split; [done|]. eapply turned_more; [exact HL|]. apply turned_new; try done. by eapply before_st.
    + destruct (merge_pair_ok _ _ _ _ _ _ (pm_out m) Ho' Hn') as (os' & ns' & acts & o' & n' & -> & Hs & Hj & Ho2 & Hn2 & Hnone). cbn [mbind result_bind].
      eexists. split; [done|]. exists acts, acts, o', n'. split_and!; try done. unfold load, weight in *. cbn. destruct Hnone as [-> | ->]; [destruct ns'|destruct os']; lia.
  - destruct (N2 eq_refl) as [-> _]. eexists. split; [done|]. eapply turned_more; [exact HL|]. apply turned_old; try done. by intros ? ? _ ?%elem_of_nil.
  - destruct (N1 eq_refl) as [-> _]. eexists. split; [done|]. eapply turned_more; [exact HL|]. apply turned_new; try done. by intros ? ? _ ?%elem_of_nil.
  - destruct (N1 eq_refl) as [-> _], (N2 eq_refl) as [-> _]. eexists. split; [done|]. exists []. rewrite app_nil_r. split; [done|apply says_nil].
Qed.

Lemma held_inv s s' f rest : side_inv s None rest -> took s f s' -> side_inv (hold s') None rest /\ weight (hold s') None = weight s None.
Proof.
  intros [_ Hg _ Hs Hr] (Ha & Hh & Hw & _ & Hp). unfold weight. rewrite Hh. split; [|done]. constructor; rewrite ?Hh; try done. cbn in *. by rewrite Hw.
Qed.

Lemma unless_spent_inv s st rest : side_inv s (Some st) rest -> side_inv s (unless_spent st) rest /\ (weight s (unless_spent st) <= weight s (Some st))%nat.
Proof.
  intros Hi. unfold unless_spent. destruct (spent st) eqn:E; [|done]. split; [|unfold weight; lia].
  pose proof (drop_state _ _ _ Hi) as H. rewrite (si_rest _ _ _ Hi). cbn. by rewrite (spent_part _ E).
Qed.

Lemma took_weight s f s' : took s f s' -> weight s None = S (weight s' (Some (mkState [] 0 None None (f_index f)))).
Proof. intros (Ha & _). unfold weight. rewrite Ha. cbn. lia. Qed.

(** Byte-equal blobs: one block, wholly inside the window. *)
Lemma byte_equal_ok w f g equal :
  good pb k f -> good pb k g -> blobs_byte_equal w f g = Ok equal ->
  equal = true -> frame_block f = frame_block g /\ part w (frame_block f) = frame_block f /\ count (f_index f) = Z.of_nat (length (frame_block f)).
Proof.
  intros Hf Hg E ->. unfold blobs_byte_equal in E. destruct (negb _ || _ || _); [done|]. destruct (crosses w f) eqn:Ec; [done|].
  destruct (good_payload _ _ _ Hf) as (p & Hp & Hpb). destruct (good_payload _ _ _ Hg) as (q & Hq & Hqb). rewrite Hp, Hq in E. cbn in E.
  unfold payload_equal in E. destruct p as [[ak ab]|], q as [[bk bb]|]; try done. injection E as [E1%Z.eqb_eq E2%bool_decide_eq_true]%andb_prop. subst.
  split; [by rewrite (Hpb _ eq_refl), (Hqb _ eq_refl)|]. split; [apply part_all; by eapply not_crossing|].
  destruct (good_claim _ _ _ Hf) as (_ & -> & _). by rewrite length_fmap.
Qed.

Lemma byte_equal_total w f g : good pb k f -> good pb k g -> exists b, blobs_byte_equal w f g = Ok b.
Proof.
  intros Hf Hg. unfold blobs_byte_equal. destruct (negb _ || _ || _); [by eexists|]. destruct (crosses w f); [by eexists|].
  destruct (good_payload _ _ _ Hf) as (p & -> & _). destruct (good_payload _ _ _ Hg) as (q & -> & _). by eexists.
Qed.

Lemma join_same es : Forall (fun e => content_kind e = k /\ readable e) es -> join es es = ElementEqual <$> es.
Proof.
  induction 1 as [|e es [_ He] _ IH]; [done|]. rewrite join_cons. assert (osm_id_cmp (content_id e) (content_id e) = Eq) as -> by (by apply osm_id_cmp_eq).
  rewrite IH. unfold pair_action. by rewrite content_equal_refl.
Qed.

(** A pair of fresh blobs with one set of bytes. *)
Lemma equal_pair_ok old old' f new new' g o n out :
  side_inv old None o -> side_inv new None n -> took old f old' -> took new g new' -> ps_window old = ps_window new ->
  blobs_byte_equal (ps_window old') f g = Ok true ->
  turned out (weight old None + weight new None) o n (inl (mkPair old' new' None None (out ++ [BlobEqual (count (f_index f))]))).
Proof.
  intros Ho Hn To Tn Hw He. pose proof (si_good _ _ _ Ho) as Gf. pose proof (si_good _ _ _ Hn) as Gg.
  destruct To as (Ao & _ & Wo & Po & _), Tn as (An & _ & Wn & Pn & _). rewrite Ao in Gf. rewrite An in Gg.
  apply Forall_cons in Gf as [Gf Fo]. apply Forall_cons in Gg as [Gg Fn].
  destruct (byte_equal_ok _ _ _ _ Gf Gg He eq_refl) as (Eb & Ep & Ec).
  pose proof (si_sorted _ _ _ Ho) as So. pose proof (si_sorted _ _ _ Hn) as Sn. cbn [st_block app] in So, Sn. rewrite Ao, blocks_cons in So. rewrite An, blocks_cons in Sn.
  apply elem_sorted_app in So as (_ & So & Lo), Sn as (_ & Sn & Ln).
  exists [BlobEqual (count (f_index f))], ((ElementEqual <$> frame_block f) ++ []), (part (ps_window old') (blocks (ahead old'))), (part (ps_window new') (blocks (ahead new'))).
  split; [done|]. split; [apply says_equal; [done|apply says_nil]|]. split_and!.
  - rewrite app_nil_r, (si_rest _ _ _ Ho), (si_rest _ _ _ Hn). cbn [st_rest app]. rewrite Ao, An, !blocks_cons, !part_app, <- Hw, <- Eb, <- Wo, Ep.
    rewrite join_split; [by rewrite join_same by apply Gf; rewrite Wn, <- Hw, Wo| |].
    + intros x y Hx Hy%elem_of_part. rewrite Eb in Hx. by apply Ln.
    + intros x y Hx Hy%elem_of_part. by apply Lo.
  - unfold inv. cbn. split_and!; [by constructor|by constructor|congruence].
  - unfold load, weight. cbn. rewrite Ao, An. cbn. lia.
Qed.

Lemma last_side is_old s s' f rest out :
  side_inv s None rest -> took s f s' ->
  exists st acts, decode s' f = Ok st /\ drain_remaining s' is_old (emit_block st is_old out) = Ok (out ++ acts) /\ says acts (only is_old <$> rest).
Proof.
  intros Hi Ht. destruct (take_frame _ _ _ _ Hi Ht) as (st & Hd & Hi' & _). exists st.
  destruct (emit_says _ st is_old out (si_state _ _ _ Hi' st eq_refl)) as (a1 & -> & S1). unfold drain_remaining.
  destruct (drain_ok is_old (S (S (length (ps_frames s')))) s' _ (out ++ a1) ltac:(unfold ahead; rewrite length_drop; lia) (drop_state _ _ _ Hi')) as (a2 & -> & S2).
  exists (a1 ++ a2). rewrite app_assoc. split_and!; try done. rewrite (si_rest _ _ _ Hi'), fmap_app. by apply says_app.
Qed.

Lemma pair_step_ok skip m o n : inv m o n -> exists r, pair_step skip m = Ok r /\ turned (pm_out m) (load m) o n r.
Proof.
  intros Hi. unfold pair_step. destruct (pm_old_decoded m) as [od|] eqn:Eo; [by apply slow_path_ok|]. destruct (pm_new_decoded m) as [nd|] eqn:En; [by apply slow_path_ok|].
  destruct Hi as (Ho & Hn & Hw). unfold load. rewrite Eo, En in *. pose proof (next_blob_spec _ (si_placed _ _ _ Ho)) as So. pose proof (next_blob_spec _ (si_placed _ _ _ Hn)) as Sn.
  destruct (next_blob (pm_old m)) as [old [f|]]; destruct (next_blob (pm_new m)) as [new [g|]].
  - destruct (take_frame _ _ _ _ Ho So) as (os & Do & Ho' & Po & Io & Bo). destruct (take_frame _ _ _ _ Hn Sn) as (ns & Dn & Hn' & Pn & In & Bn).
    pose proof (took_weight _ _ _ So) as Lo. pose proof (took_weight _ _ _ Sn) as Ln.
    assert (ps_window old = ps_window new) as Hww by (destruct So as (_ & _ & -> & _), Sn as (_ & _ & -> & _); done).
    rewrite <- Io, <- In. destruct (blob_entirely_before (bs_index os) (bs_index ns)) eqn:E1; [|destruct (blob_entirely_before (bs_index ns) (bs_index os)) eqn:E2].
    + rewrite Do. cbn [mbind result_bind]. eexists. split; [done|]. destruct (held_inv _ _ _ _ Hn Sn) as [Hh Lh]. eapply (turned_more _ (weight old (Some os) + weight (hold new) None)); [unfold weight in *; lia|].
      apply turned_old; try done. by eapply before_st.
    + rewrite Dn. cbn [mbind result_bind]. eexists. split; [done|]. destruct (held_inv _ _ _ _ Ho So) as [Hh Lh]. eapply (turned_more _ (weight (hold old) None + weight new (Some ns))); [unfold weight in *; lia|].
      apply turned_new; try done. by eapply before_st.
    + assert (exists b, (if skip : bool then blobs_byte_equal (ps_window old) f g else Ok false) = Ok b /\ (b = true -> blobs_byte_equal (ps_window old) f g = Ok true)) as (b & Hb & Hbt).
      { destruct skip; [|by exists false]. pose proof (si_good _ _ _ Ho) as Gf. pose proof (si_good _ _ _ Hn) as Gg. destruct So as (Ao & _), Sn as (An & _). rewrite Ao in Gf. rewrite An in Gg.
        apply Forall_cons in Gf as [Gf _]. apply Forall_cons in Gg as [Gg _]. destruct (byte_equal_total (ps_window old) _ _ Gf Gg) as [b Hb]. exists b. split; [done|]. by intros <-. }
      rewrite Hb. cbn [mbind result_bind]. destruct b.
      * eexists. split; [done|]. rewrite Io. by eapply equal_pair_ok; eauto.
      * rewrite Do, Dn. cbn [mbind result_bind]. destruct (unless_spent_inv _ _ _ Ho') as [Uo Wo]. destruct (unless_spent_inv _ _ _ Hn') as [Un Wn].
        destruct (slow_path_ok (mkPair old new (unless_spent os) (unless_spent ns) (pm_out m)) o n) as (r & -> & Hr); [done|]. eexists. split; [done|].
        eapply turned_more; [|exact Hr]. unfold load, weight in *. cbn in *. lia.
  - destruct Sn as [An ->]. destruct (last_side true _ _ _ _ (pm_out m) Ho So) as (st & acts & -> & E & Hs). cbn [mbind result_bind]. rewrite E. cbn [mbind result_bind].
    eexists. split; [done|]. exists acts. split; [done|]. rewrite (si_rest _ _ _ Hn), An. cbn. by rewrite join_nil_r.
  - destruct So as [Ao ->]. destruct (last_side false _ _ _ _ (pm_out m) Hn Sn) as (st & acts & -> & E & Hs). cbn [mbind result_bind]. rewrite E. cbn [mbind result_bind].
    eexists. split; [done|]. exists acts. split; [done|]. rewrite (si_rest _ _ _ Ho), Ao. cbn [st_rest app]. by rewrite join_nil_l.
  - destruct So as [Ao _], Sn as [An _]. eexists. split; [done|]. exists []. rewrite app_nil_r, (si_rest _ _ _ Ho), (si_rest _ _ _ Hn), Ao, An. split; [done|apply says_nil].
Qed.

Lemma pair_steps_ok skip fuel : forall m o n, inv m o n -> (load m < fuel)%nat ->
  exists acts, pair_steps fuel skip m = Ok (pm_out m ++ acts) /\ says acts (join o n).
Proof.
  induction fuel as [|fuel IH]; intros m o n Hi Hl; [lia|]. cbn [pair_steps]. destruct (pair_step_ok skip m o n Hi) as (r & -> & Hr). cbn [mbind result_bind].
  destruct r as [m'|out].
  - destruct Hr as (a1 & sp & o' & n' & E & S1 & Hj & Hi' & Hlt). destruct (IH m' o' n' Hi' ltac:(lia)) as (a2 & -> & S2).
    exists (a1 ++ a2). rewrite E, <- app_assoc. split; [done|]. rewrite Hj. by apply says_app.
  - destruct Hr as (acts & -> & Hs). by exists acts.
Qed.

(** A unit over honest frames. *)
Lemma unit_ok w fo fn skip :
  Forall (good pb k) fo -> Forall (good pb k) fn -> elem_sorted (blocks fo) -> elem_sorted (blocks fn) ->
  exists acts, block_pair_merge_phase (side_new fo w) (side_new fn w) skip = Ok acts /\ says acts (join (part w (blocks fo)) (part w (blocks fn))).
Proof.
  intros Go Gn So Sn. unfold block_pair_merge_phase. apply (pair_steps_ok skip _ (mkPair (side_new fo w) (side_new fn w) None None [])).
  - unfold inv. cbn. split_and!; [by constructor|by constructor|done].
  - unfold load, weight, ahead. cbn. rewrite !drop_0. lia.
Qed.

End Unit.
