(* ===== verification/DiffUnits.v ===== *)
(** * Cutting diff into units (src/src/commands/diff/units.rs, src/src/osc/merge_join.rs)

    The planner reads each input once, as a stream of frames whose headers a
    cursor checks as they arrive ([BlobCursor]), and cuts each kind into units: a
    window of ids and the frames of both inputs that reach into it ([plan_kind]).
    The units are merged in order ([drive]). *)

From S2P Require Import Prelude Block OsmId ElementKind BlobMeta Content DiffJoin.

(** ** An input as a stream of frames *)

(** A frame of the file: whether its type is OSMData, its readable indexdata,
    and its body: the length, the block type read from its groups' first fields,
    the payload, and the decoded elements. *)
Record RawFrame := mkRaw {
  rf_data : bool; rf_index : option BlobIndex; rf_len : Z; rf_type : BlockType;
  rf_payload : result DiffError (option (Z * bytes)); rf_block : result DiffError (list ContentElement) }.

Definition with_body (ix : BlobIndex) (r : RawFrame) : Frame := mkFrame ix (rf_len r) (rf_payload r) (rf_block r).

(** [BlobOrderGuard::observe] *)
Definition guard_observe (w : OrderWatermark) (ix : BlobIndex) : result DiffError OrderWatermark :=
  match observe w (ordinal (kind ix)) (min_id ix) (max_id ix) with Ok w => Ok w | Err v => Err (UnsortedBlobs v) end.

(** The reader holds the frames whose headers are not read; [bc_lookahead] is the
    observed blob whose body is pending in the reader. *)
Record BlobCursor := mkCursor {
  bc_reader : list RawFrame; bc_order : OrderWatermark; bc_started : bool; bc_exhausted : bool; bc_lookahead : option Frame }.

Definition cursor_open (file : list RawFrame) : BlobCursor := mkCursor file OrderWatermark_default false false None.

Fixpoint advance_loop (r : list RawFrame) (order : OrderWatermark) (started : bool) : result DiffError BlobCursor :=
  match r with
  | [] => Ok (mkCursor [] order started true None)
  | x :: r =>
      if negb started then advance_loop r order true
      else if negb (rf_data x) then advance_loop r order started
      else
        match rf_index x with
        | None => Err MissingIndex
        | Some ix =>
            order ← guard_observe order ix;
            Ok (mkCursor r order started false (Some (with_body ix x)))
        end
  end.

Definition advance (c : BlobCursor) : result DiffError BlobCursor :=
  match bc_lookahead c with
  | Some _ => Ok c
  | None => if bc_exhausted c then Ok c else advance_loop (bc_reader c) (bc_order c) (bc_started c)
  end.

Definition drop_lookahead (c : BlobCursor) : BlobCursor :=
  mkCursor (bc_reader c) (bc_order c) (bc_started c) (bc_exhausted c) None.

Fixpoint reaches_loop (fuel : nat) (c : BlobCursor) (k : ElementKind) : result DiffError (BlobCursor * bool) :=
  match fuel with
  | O => Err Internal
  | S fuel =>
      c ← advance c;
      match bc_lookahead c with
      | None => Ok (c, false)
      | Some f =>
          if ordinal (kind (f_index f)) <? ordinal k then reaches_loop fuel (drop_lookahead c) k
          else Ok (c, bool_decide (kind (f_index f) = k))
      end
  end.

(** Every turn passes a blob: the pending one and those of the reader. *)
Definition reaches (c : BlobCursor) (k : ElementKind) : result DiffError (BlobCursor * bool) :=
  reaches_loop (S (S (length (bc_reader c)))) c k.

Definition peek (c : BlobCursor) (k : ElementKind) : result DiffError (BlobCursor * option Frame) :=
  '(c, there) ← reaches c k;
  Ok (c, if there : bool then bc_lookahead c else None).

Definition next_of (c : BlobCursor) (k : ElementKind) : result DiffError (BlobCursor * option Frame) :=
  '(c, there) ← reaches c k;
  if negb there then Ok (c, None)
  else match bc_lookahead c with None => Err Internal | Some f => Ok (drop_lookahead c, Some f) end.

Fixpoint finish_loop (fuel : nat) (c : BlobCursor) : result DiffError unit :=
  match fuel with
  | O => Err Internal
  | S fuel =>
      c ← advance c;
      match bc_lookahead c with None => Ok () | Some _ => finish_loop fuel (drop_lookahead c) end
  end.

Definition finish (c : BlobCursor) : result DiffError unit := finish_loop (S (S (length (bc_reader c)))) c.

(** ** The planner *)

Definition DIFF_UNIT_TARGET_BYTES : Z := 32 * 2 ^ 20.
Definition DIFF_UNIT_LONE_ELEMENTS : Z := 2 ^ 17.
Definition DIFF_UNIT_CAP_BYTES : Z := 2 ^ 30.

Record Unit := mkUnit { u_kind : ElementKind; u_window : Window; u_old : list Frame; u_new : list Frame }.

Inductive PlanMsg := PlanUnit (u : Unit) | PlanDone | PlanFailed (e : DiffError).

Definition opt_max (m : option OsmIdKey) (key : OsmIdKey) : option OsmIdKey :=
  Some (match m with Some m => key_max m key | None => key end).
Definition max_last_key (fs : list Frame) : option OsmIdKey := foldl (fun m f => opt_max m (last_key f)) None fs.
Definition bytes_of (fs : list Frame) : Z := foldr (fun f n => f_len f + n) 0 fs.

(** The unit being filled. *)
Record Filling := mkFilling {
  fl_old : BlobCursor; fl_new : BlobCursor; fl_old_side : list Frame; fl_new_side : list Frame;
  fl_bytes : Z; fl_max_first : option OsmIdKey; fl_old_last : option OsmIdKey; fl_new_last : option OsmIdKey; fl_lone : Z }.

(** The side whose next blob starts first, the old one on a tie. *)
Definition next_side (po pn : option Frame) : option (OsmIdKey * bool) :=
  match po, pn with
  | None, None => None
  | Some f, None => Some (first_key f, false)
  | None, Some g => Some (first_key g, true)
  | Some f, Some g => if key_leb (first_key f) (first_key g) then Some (first_key f, false) else Some (first_key g, true)
  end.

(** No frame of the other side, taken or next, shares a key with the frame. *)
Definition is_lone (f : Frame) (other_peek : option Frame) (other_last : option OsmIdKey) : bool :=
  match other_peek with Some g => key_ltb (last_key f) (first_key g) | None => true end &&
  match other_last with Some m => key_ltb m (first_key f) | None => true end.

Definition saturating_add (a b : Z) : Z := Z.min (a + b) (2 ^ 64 - 1).

Definition fill_frame (s : Filling) (side : bool) (c : BlobCursor) (f : Frame) (po pn : option Frame) : Filling :=
  let first := opt_max (fl_max_first s) (first_key f) in
  if side then
    let lone := if is_lone f po (fl_old_last s) then saturating_add (fl_lone s) (count (f_index f)) else fl_lone s in
    mkFilling (fl_old s) c (fl_old_side s) (fl_new_side s ++ [f]) (fl_bytes s + f_len f) first
      (fl_old_last s) (opt_max (fl_new_last s) (last_key f)) lone
  else
    let lone := if is_lone f pn (fl_new_last s) then saturating_add (fl_lone s) (count (f_index f)) else fl_lone s in
    mkFilling c (fl_new s) (fl_old_side s ++ [f]) (fl_new_side s) (fl_bytes s + f_len f) first
      (opt_max (fl_old_last s) (last_key f)) (fl_new_last s) lone.

Definition with_cursors (s : Filling) (old new : BlobCursor) : Filling :=
  mkFilling old new (fl_old_side s) (fl_new_side s) (fl_bytes s) (fl_max_first s) (fl_old_last s) (fl_new_last s) (fl_lone s).

(** The inner loop: the filled unit and its end. *)
Fixpoint fill (fuel : nat) (k : ElementKind) (target : Z) (s : Filling) : result DiffError (Filling * option OsmIdKey) :=
  match fuel with
  | O => Err Internal
  | S fuel =>
      '(old, po) ← peek (fl_old s) k;
      '(new, pn) ← peek (fl_new s) k;
      let s := with_cursors s old new in
      match next_side po pn with
      | None => Ok (s, None)
      | Some (next_first, side) =>
          let due := (target <=? fl_bytes s) || (DIFF_UNIT_LONE_ELEMENTS <=? fl_lone s) in
          if due && match fl_max_first s with Some m => key_ltb m next_first | None => false end then Ok (s, Some next_first)
          else if DIFF_UNIT_CAP_BYTES <=? fl_bytes s then Err (Unsplittable k next_first (fl_bytes s))
          else
            '(c, r) ← next_of (if side : bool then new else old) k;
            match r with
            | None => Err Internal
            | Some f => fill fuel k target (fill_frame s side c f po pn)
            end
      end
  end.

(** A frame whose claim reaches the end is carried into the next unit. *)
Definition carried (stop : OsmIdKey) (fs : list Frame) : list Frame := filter (fun f => key_leb stop (last_key f) = true) fs.

Definition filling_start (old new : BlobCursor) (carry_old carry_new : list Frame) : Filling :=
  mkFilling old new carry_old carry_new (bytes_of carry_old + bytes_of carry_new) None (max_last_key carry_old) (max_last_key carry_new) 0.

Definition frames_left (c : BlobCursor) : nat := S (length (bc_reader c)).

(** [plan_kind]: the units sent, and the cursors past the kind or the failure *)
Fixpoint plan_units (fuel : nat) (k : ElementKind) (target : Z) (old new : BlobCursor) (start : option OsmIdKey)
    (carry_old carry_new : list Frame) : list Unit * result DiffError (BlobCursor * BlobCursor) :=
  match fuel with
  | O => ([], Err Internal)
  | S fuel =>
      match fill (S (frames_left old + frames_left new)) k target (filling_start old new carry_old carry_new) with
      | Err e => ([], Err e)
      | Ok (s, stop) =>
          let unit := mkUnit k (mkWindow start stop) (fl_old_side s) (fl_new_side s) in
          match stop with
          | None => ([unit], Ok (fl_old s, fl_new s))
          | Some e =>
              let '(units, r) := plan_units fuel k target (fl_old s) (fl_new s) (Some e) (carried e (fl_old_side s)) (carried e (fl_new_side s)) in
              (unit :: units, r)
          end
      end
  end.

(** Every unit that ends at a cut takes a frame. *)
Definition plan_kind (k : ElementKind) (target : Z) (old new : BlobCursor) : list Unit * result DiffError (BlobCursor * BlobCursor) :=
  plan_units (S (frames_left old + frames_left new)) k target old new None [] [].

Definition plan_end (old new : BlobCursor) : list PlanMsg :=
  match (_ ← finish old; finish new) with Ok _ => [PlanDone] | Err e => [PlanFailed e] end.

(** [plan]: the messages sent, the terminal one last *)
Fixpoint plan (kinds : list ElementKind) (target : Z) (old new : BlobCursor) : list PlanMsg :=
  match kinds with
  | [] => plan_end old new
  | k :: kinds =>
      match ('(old, old_has) ← reaches old k; '(new, new_has) ← reaches new k; Ok (old, new, old_has || new_has)) with
      | Err e => [PlanFailed e]
      | Ok (old, new, false) => plan kinds target old new
      | Ok (old, new, true) =>
          let '(units, r) := plan_kind k target old new in
          (PlanUnit <$> units) ++ match r with Ok (old, new) => plan kinds target old new | Err e => [PlanFailed e] end
      end
  end.

(** ** The run *)

Definition merge_unit (skip_equal : bool) (u : Unit) : result DiffError (list Action) :=
  block_pair_merge_phase (side_new (u_old u) (u_window u)) (side_new (u_new u) (u_window u)) skip_equal.

(** [drive]: the units' output in unit order; a unit's failure comes before
    everything later, the planner's at the unit it did not produce *)
Fixpoint drive (skip_equal : bool) (msgs : list PlanMsg) : result DiffError (list (ElementKind * Action)) :=
  match msgs with
  | [] => Err Internal
  | PlanDone :: _ => Ok []
  | PlanFailed e :: _ => Err e
  | PlanUnit u :: msgs =>
      acts ← merge_unit skip_equal u;
      rest ← drive skip_equal msgs;
      Ok ((pair (u_kind u) <$> acts) ++ rest)
  end.

Definition run_units (skip_equal : bool) (target : Z) (kinds : list ElementKind) (old new : list RawFrame)
    : result DiffError (list (ElementKind * Action)) :=
  drive skip_equal (plan kinds target (cursor_open old) (cursor_open new)).
