(* ===== verification/DiffPlan.v ===== *)
(** * The planner's units partition the merge

    Over honest sorted inputs the cursors deliver each kind's blobs in file
    order and refuse nothing, the units' windows partition the kind's ids with
    every blob that reaches into a window in its unit, a unit never reaches the
    size cap, and the merged units together say exactly what the element merge
    of the two inputs says, kind by kind ([diff_units_ok]). *)

From S2P Require Import Prelude OsmId ElementKind BlobMeta Tally SortedDiff Content DiffJoin DiffPair DiffMerge DiffUnits.

(** ** Cursors *)

Definition data_frame (x : RawFrame) : option Frame :=
  if rf_data x then (fun ix => with_body ix x) <$> rf_index x else None.
Definition data_frames (r : list RawFrame) : list Frame := omap data_frame r.

(** A blob as the order guard sees it. *)
Definition seen (f : Frame) : OsmId.blob :=
  {| bd_kind := ordinal (kind (f_index f)); bd_min := min_id (f_index f); bd_max := max_id (f_index f); bd_ids := content_id <$> frame_block f |}.

Definition indexed (r : list RawFrame) : Prop := Forall (fun x => rf_data x = true -> is_Some (rf_index x)) r.

(** The frames past the leading one. *)
Definition unread (c : BlobCursor) : list RawFrame := if bc_started c then bc_reader c else tail (bc_reader c).

Record cursor_ok (c : BlobCursor) (fs : list Frame) : Prop := mkCursorOk {
  co_indexed : indexed (unread c);
  co_frames : fs = option_list (bc_lookahead c) ++ data_frames (unread c);
  co_end : bc_exhausted c = true -> unread c = [];
  co_order : exists w, observe_all (bc_order c) (seen <$> data_frames (unread c)) = Ok w }.

Lemma data_frames_cons x r : data_frames (x :: r) = option_list (data_frame x) ++ data_frames r.
Proof. unfold data_frames. cbn. by destruct (data_frame x). Qed.

Lemma advance_loop_ok r order fs :
  indexed r -> fs = data_frames r -> (exists w, observe_all order (seen <$> fs) = Ok w) ->
  exists c, advance_loop r order true = Ok c /\ cursor_ok c fs /\ bc_lookahead c = head fs /\ (length (bc_reader c) + length (option_list (head fs)) <= length r)%nat.
Proof.
  intros Hi -> Hw. revert Hi Hw. induction r as [|x r IH]; intros Hi Hw.
  { eexists. split; [done|]. split; [|cbn; split; [done|lia]]. by constructor. }
  apply Forall_cons in Hi as [Hx Hi]. cbn [advance_loop negb]. rewrite data_frames_cons in Hw |- *. unfold data_frame in *.
  destruct (rf_data x); cbn [negb].
  - destruct (Hx eq_refl) as [ix Ei]. rewrite Ei in Hw |- *. destruct Hw as [w Hw]. cbn in Hw. unfold guard_observe. destruct (observe order _ _ _) as [o|]; [|done].
    eexists. split; [done|]. cbn. split; [|split; [done|lia]]. constructor; cbn; try done. by exists w.
  - destruct (IH Hi Hw) as (c & -> & Hc & Hl & Hlen). exists c. split_and!; try done. cbn. lia.
Qed.

Lemma advance_ok c fs :
  cursor_ok c fs -> exists c', advance c = Ok c' /\ cursor_ok c' fs /\ bc_lookahead c' = head fs /\
    (length (bc_reader c') + length (option_list (bc_lookahead c')) <= length (bc_reader c) + length (option_list (bc_lookahead c)))%nat.
Proof.
  intros Hc. unfold advance. destruct (bc_lookahead c) as [f|] eqn:El.
  { exists c. rewrite El. split_and!; try done. by rewrite (co_frames _ _ Hc), El. }
  destruct Hc as [Hi Hf He Ho]. rewrite El in Hf. cbn in Hf. destruct (bc_exhausted c) eqn:Ee.
  { exists c. rewrite El, Hf. rewrite (He eq_refl) in *. split_and!; try done. constructor; rewrite ?(He eq_refl); try done. by rewrite El. }
  unfold unread in *. destruct (bc_started c) eqn:Es.
  - rewrite <- Hf in Ho. destruct (advance_loop_ok _ _ _ Hi Hf Ho) as (c' & -> & Hc' & Hl & Hlen). exists c'. split_and!; try done. rewrite Hl. cbn. lia.
  - destruct (bc_reader c) as [|x r] eqn:Er; cbn [tail] in *.
    + eexists. split; [done|]. subst fs. cbn. split_and!; try done; lia.
    + rewrite <- Hf in Ho. destruct (advance_loop_ok _ _ _ Hi Hf Ho) as (c' & E & Hc' & Hl & Hlen). cbn [advance_loop negb]. exists c'. split_and!; try done. rewrite Hl. cbn. lia.
Qed.

Lemma drop_lookahead_ok c f fs : cursor_ok c (f :: fs) -> bc_lookahead c = Some f -> cursor_ok (drop_lookahead c) fs.
Proof. intros [Hi Hf He Ho] El. rewrite El in Hf. injection Hf as ->. by constructor. Qed.

Definition kind_at (f : Frame) : ElementKind := kind (f_index f).
Definition later (k : ElementKind) (fs : list Frame) : Prop := Forall (fun f => ordinal k < ordinal (kind_at f)) fs.
Definition kinds_before (k : ElementKind) (fs : list Frame) : Prop := Forall (fun f => ordinal (kind_at f) < ordinal k) fs.
Definition of_kind (k : ElementKind) (fs : list Frame) : Prop := Forall (fun f => kind_at f = k) fs.

(** A cursor with these blobs of the kind next, and then those of later kinds. *)
Record at_kind (k : ElementKind) (c : BlobCursor) (p rest : list Frame) : Prop := mkAtKind {
  ak_ok : cursor_ok c (p ++ rest);
  ak_kind : of_kind k p;
  ak_later : later k rest }.

Lemma reaches_loop_ok k p rest fuel : forall c before,
  cursor_ok c (before ++ p ++ rest) -> kinds_before k before -> of_kind k p -> later k rest ->
  (length (bc_reader c) + length (option_list (bc_lookahead c)) < fuel)%nat ->
  exists c', reaches_loop fuel c k = Ok (c', bool_decide (p <> [])) /\ at_kind k c' p rest /\ bc_lookahead c' = head (p ++ rest) /\
    (length (bc_reader c') + length (option_list (bc_lookahead c')) <= length (bc_reader c) + length (option_list (bc_lookahead c)))%nat.
Proof.
  induction fuel as [|fuel IH]; intros c before Hc Hb Hp Hr Hf; [lia|]. cbn [reaches_loop].
  destruct (advance_ok _ _ Hc) as (c1 & -> & Hc1 & Hl & Hlen). cbn [mbind result_bind]. destruct before as [|f before]; cbn [app head] in *.
  - destruct p as [|f p]; cbn [app head] in *.
    + destruct rest as [|g rest]; cbn in Hl; rewrite Hl.
      * exists c1. split_and!; try done.
      * apply Forall_cons in Hr as [Hg Hr']. unfold kind_at in Hg. destruct (Z.ltb_spec (ordinal (kind (f_index g))) (ordinal k)); [lia|].
        rewrite bool_decide_eq_false_2 by (intros E; rewrite E in Hg; lia). exists c1. split_and!; try done. constructor; try done. by constructor.
    + rewrite Hl. apply Forall_cons in Hp as [Hk Hp']. unfold kind_at in Hk. rewrite Hk. destruct (Z.ltb_spec (ordinal k) (ordinal k)); [lia|].
      rewrite !bool_decide_eq_true_2 by done. exists c1. split_and!; try done. constructor; try done. by constructor.
  - rewrite Hl. apply Forall_cons in Hb as [Hk Hb']. unfold kind_at in Hk. destruct (Z.ltb_spec (ordinal (kind (f_index f))) (ordinal k)); [|lia].
    rewrite Hl in Hlen. cbn in Hlen. destruct (IH (drop_lookahead c1) before) as (c2 & -> & Ha & Hl2 & Hlen2); try done; [by eapply drop_lookahead_ok|cbn; lia|].
    exists c2. split_and!; try done. cbn in Hlen2. lia.
Qed.

Lemma reaches_ok k c before p rest :
  cursor_ok c (before ++ p ++ rest) -> kinds_before k before -> of_kind k p -> later k rest ->
  exists c', reaches c k = Ok (c', bool_decide (p <> [])) /\ at_kind k c' p rest /\ bc_lookahead c' = head (p ++ rest) /\
    (length (bc_reader c') + length (option_list (bc_lookahead c')) <= length (bc_reader c) + length (option_list (bc_lookahead c)))%nat.
Proof. intros. eapply reaches_loop_ok; try done. destruct (bc_lookahead c); cbn; lia. Qed.

Lemma peek_ok k c p rest : at_kind k c p rest -> exists c', peek c k = Ok (c', head p) /\ at_kind k c' p rest.
Proof.
  intros [Hc Hp Hr]. unfold peek. destruct (reaches_ok k c [] p rest Hc) as (c' & -> & Ha & Hl & _); try done; [constructor|]. cbn [mbind result_bind].
  exists c'. split; [|done]. rewrite Hl. by destruct p.
Qed.

Lemma next_of_ok k c f p rest : at_kind k c (f :: p) rest -> exists c', next_of c k = Ok (c', Some f) /\ at_kind k c' p rest.
Proof.
  intros [Hc Hp Hr]. unfold next_of. destruct (reaches_ok k c [] (f :: p) rest Hc) as (c' & -> & Ha & Hl & _); try done; [constructor|]. cbn [mbind result_bind].
  rewrite bool_decide_eq_true_2 by done. cbn [negb]. rewrite Hl. cbn [head app]. eexists. split; [done|]. destruct Ha as [Hc' Hp' _]. apply Forall_cons in Hp' as [_ Hp'].
  constructor; try done. by eapply drop_lookahead_ok.
Qed.

Lemma finish_ok c fs : cursor_ok c fs -> finish c = Ok ().
Proof.
  unfold finish. assert (forall fuel c fs, cursor_ok c fs -> (length (bc_reader c) + length (option_list (bc_lookahead c)) < fuel)%nat -> finish_loop fuel c = Ok ()) as H.
  { clear. induction fuel as [|fuel IH]; intros c fs Hc Hf; [lia|]. cbn [finish_loop]. destruct (advance_ok _ _ Hc) as (c1 & -> & Hc1 & Hl & Hlen). cbn [mbind result_bind]. rewrite Hl.
    destruct fs as [|f fs]; [done|]. cbn [head] in *. rewrite Hl in Hlen. cbn in Hlen. eapply IH; [by eapply drop_lookahead_ok|]. cbn. lia. }
  intros Hc. eapply H; [done|]. destruct (bc_lookahead c); cbn; lia.
Qed.

Lemma cursor_length c fs : cursor_ok c fs -> (length fs <= frames_left c)%nat.
Proof.
  intros [_ -> _ _]. rewrite length_app. unfold frames_left. assert (forall r, length (data_frames r) <= length r)%nat as H.
  { induction r as [|x r IH]; [done|]. rewrite data_frames_cons, length_app. destruct (data_frame x); cbn; lia. }
  specialize (H (unread c)). assert (length (unread c) <= length (bc_reader c))%nat by (unfold unread; destruct (bc_started c), (bc_reader c); cbn; lia).
  destruct (bc_lookahead c); cbn; lia.
Qed.

(** ** Windows *)

Lemma key_lt_le_trans a b c : key_lt a b -> key_le b c -> key_lt a c.
Proof. unfold key_lt, key_le. lia. Qed.
Lemma key_le_lt_trans a b c : key_le a b -> key_lt b c -> key_lt a c.
Proof. unfold key_lt, key_le. lia. Qed.
Lemma key_lt_irrefl a : ~ key_lt a a.
Proof. unfold key_lt. lia. Qed.
Lemma key_ltb_leb a b : key_ltb a b = negb (key_leb b a).
Proof. by rewrite key_leb_ltb, negb_involutive. Qed.

Definition ekey (e : ContentElement) : OsmIdKey := osm_id_key (content_id e).
Definition starts_by (start : option OsmIdKey) (e : OsmIdKey) : Prop := match start with Some s => key_le s e | None => True end.

Lemma part_cons w x es : part w (x :: es) = if in_window w x then x :: part w es else part w es.
Proof. unfold part. rewrite filter_cons. by destruct (in_window w x). Qed.

(** A cut splits what a sorted list has from a start on. *)
Lemma part_cut start e es :
  elem_sorted es -> starts_by start e -> part (mkWindow start None) es = part (mkWindow start (Some e)) es ++ part (mkWindow (Some e) None) es.
Proof.
  intros Hs He. induction Hs as [|x es Hs IH Hx]; [done|]. destruct (key_ltb (ekey x) e) eqn:Ex.
  - rewrite !part_cons, IH. unfold in_window, from_start, before_end. cbn [w_start w_end]. fold (ekey x). rewrite (key_leb_ltb e), Ex, andb_true_r. cbn [negb andb].
    by destruct (match start with Some s => _ | None => _ end).
  - rewrite (part_none (mkWindow start (Some e)) (x :: es)) by (apply past_end; [by constructor|done]). cbn [app].
    assert (Forall (fun y => key_leb e (ekey y) = true) (x :: es)) as Hall.
    { apply key_ltb_ge in Ex. constructor; [by apply key_leb_le|]. eapply Forall_impl; [done|]. intros y Hy. apply key_leb_le. unfold elem_lt, id_lt, ekey, key_lt, key_le in *. lia. }
    rewrite !part_all; [done| |].
    + eapply Forall_impl; [done|]. intros y Hy. unfold in_window, from_start, before_end. cbn. by rewrite andb_true_r.
    + eapply Forall_impl; [done|]. intros y Hy%key_leb_le. unfold in_window, from_start, before_end. cbn. rewrite andb_true_r. destruct start as [st|]; [|done]. cbn in He. apply key_leb_le. by eapply key_le_trans.
Qed.

Lemma join_cut start e o n :
  elem_sorted o -> elem_sorted n -> starts_by start e ->
  join (part (mkWindow start None) o) (part (mkWindow start None) n) =
    join (part (mkWindow start (Some e)) o) (part (mkWindow start (Some e)) n) ++ join (part (mkWindow (Some e) None) o) (part (mkWindow (Some e) None) n).
Proof.
  intros Ho Hn He. rewrite (part_cut start e o), (part_cut start e n) by done.
  assert (forall a b x y, x ∈ part (mkWindow start (Some e)) a -> y ∈ part (mkWindow (Some e) None) b -> elem_lt x y) as H.
  { intros a b x y [Hx _]%list_elem_of_filter [Hy _]%list_elem_of_filter. unfold in_window, from_start, before_end in *. cbn in *.
    apply andb_prop in Hx as [_ Hx%key_ltb_lt]. apply andb_prop in Hy as [Hy%key_leb_le _]. unfold elem_lt, id_lt. by eapply key_lt_le_trans. }
  apply join_split; eauto.
Qed.

(** ** One side's frames *)

(** The largest frame body. *)
Definition MAX_FRAME_BYTES : Z := 32 * 2 ^ 20.

Section Plan.
Context (pb : PayloadBlock) (k : ElementKind).

Record side_frames (fs : list Frame) : Prop := mkSideFrames {
  sf_good : Forall (good pb k) fs;
  sf_sorted : elem_sorted (blocks fs);
  sf_size : Forall (fun f => 0 <= f_len f <= MAX_FRAME_BYTES) fs }.

Definition frame_lt (f g : Frame) : Prop := forall x y, x ∈ frame_block f -> y ∈ frame_block g -> elem_lt x y.

Lemma blocks_app a b : blocks (a ++ b) = blocks a ++ blocks b.
Proof. unfold blocks. by rewrite fmap_app, concat_app. Qed.

Lemma elem_of_blocks x fs : x ∈ blocks fs <-> exists f, f ∈ fs /\ x ∈ frame_block f.
Proof.
  induction fs as [|f fs IH]; [split; [by intros ?%elem_of_nil|by intros (f & ?%elem_of_nil & _)]|].
  rewrite blocks_cons, elem_of_app, IH. setoid_rewrite elem_of_cons. naive_solver.
Qed.

Lemma side_frames_cons f fs : side_frames (f :: fs) -> side_frames fs.
Proof. intros [Hg Hs Hz]. apply Forall_cons in Hg as [_ ?], Hz as [_ ?]. rewrite blocks_cons in Hs. apply elem_sorted_app in Hs as (_ & ? & _). by constructor. Qed.

Lemma side_frames_lt fs : elem_sorted (blocks fs) -> StronglySorted frame_lt fs.
Proof.
  induction fs as [|f fs IH]; intros Hs; [constructor|]. rewrite blocks_cons in Hs. apply elem_sorted_app in Hs as (_ & Hs & Hlt). constructor; [by apply IH|].
  apply Forall_forall. intros g Hg x y Hx Hy. apply Hlt; [done|]. apply elem_of_blocks. eauto.
Qed.

Lemma good_first f x : good pb k f -> x ∈ frame_block f -> key_le (first_key f) (ekey x).
Proof. intros Hg Hx. by apply (claim_bounds _ _ _ (good_claim _ _ _ Hg) Hx). Qed.
Lemma good_last f x : good pb k f -> x ∈ frame_block f -> key_le (ekey x) (last_key f).
Proof.
  intros Hg Hx. destruct (claim_nonempty _ _ (good_claim _ _ _ Hg)) as [Hle _]. unfold last_key. rewrite <- blob_last_key by done. by apply (claim_bounds _ _ _ (good_claim _ _ _ Hg) Hx).
Qed.
Lemma good_last_present f : good pb k f -> exists x, x ∈ frame_block f /\ last_key f = ekey x.
Proof.
  intros Hg. destruct (claim_nonempty _ _ (good_claim _ _ _ Hg)) as [Hle _]. destruct (claim_last_present _ _ (good_claim _ _ _ Hg)) as (x & Hx & E).
  exists x. split; [done|]. unfold last_key. rewrite <- blob_last_key by done. unfold ekey. by rewrite E.
Qed.

(** A claim with ids of both signs has the conservative first key. *)
Definition mixed (f : Frame) : Prop := min_id (f_index f) < 0 < max_id (f_index f).
#[local] Instance mixed_dec f : Decision (mixed f).
Proof. unfold mixed. apply _. Defined.

Lemma good_first_present f : good pb k f -> ~ mixed f -> exists x, x ∈ frame_block f /\ first_key f = ekey x.
Proof.
  intros Hg Hm. destruct (good_claim _ _ _ Hg) as (_ & _ & H1 & H2 & _). apply list_elem_of_fmap in H1 as (a & Ha & Hma), H2 as (b & Hb & Hmb).
  unfold first_key, blob_osm_first_key, mixed, ekey in *. repeat case_match; unbool; [exists a|exists b|lia]; split; congruence.
Qed.

Lemma mixed_once f g : good pb k f -> good pb k g -> frame_lt f g -> ~ (mixed f /\ mixed g).
Proof.
  intros Hf Hg Hlt [Mf Mg]. destruct (good_claim _ _ _ Hf) as (_ & _ & _ & H2 & _). destruct (good_claim _ _ _ Hg) as (_ & _ & H1 & _).
  apply list_elem_of_fmap in H1 as (a & Ha & Hma), H2 as (b & Hb & Hmb). specialize (Hlt b a Hmb Hma). unfold mixed, elem_lt, id_lt in *. rewrite <- Ha, <- Hb in Hlt.
  revert Hlt. keys.
Qed.

Lemma first_lt f g : good pb k f -> good pb k g -> frame_lt f g -> ~ mixed g -> key_lt (last_key f) (first_key g).
Proof.
  intros Hf Hg Hlt Hm. destruct (good_last_present _ Hf) as (x & Hx & ->). destruct (good_first_present _ Hg Hm) as (y & Hy & ->). by apply (Hlt x y).
Qed.

Lemma good_span f : good pb k f -> key_le (first_key f) (last_key f).
Proof. intros Hg. destruct (good_last_present _ Hg) as (x & Hx & ->). by apply good_first. Qed.

(** At most one of a kind of frame no two of which follow each other. *)
Lemma filter_once (P : Frame -> Prop) `{!forall f, Decision (P f)} fs :
  StronglySorted frame_lt fs -> Forall (good pb k) fs -> (forall f g, f ∈ fs -> g ∈ fs -> good pb k f -> good pb k g -> frame_lt f g -> P f -> P g -> False) -> (length (filter P fs) <= 1)%nat.
Proof.
  intros Hs Hg Hp. induction Hs as [|f fs Hs IH Hlt]; [cbn; lia|]. apply Forall_cons in Hg as [Hf Hg].
  specialize (IH Hg ltac:(intros a b Ha Hb; apply Hp; by right)). destruct (decide (P f)) as [Pf|Pf]; [|by rewrite filter_cons_False].
  rewrite filter_cons_True by done. cbn. assert (filter P fs = []) as ->; [|cbn; lia]. destruct (filter P fs) as [|g l] eqn:E; [done|]. exfalso.
  assert (g ∈ filter P fs) as [Pg Hin]%list_elem_of_filter by (rewrite E; left). rewrite Forall_forall in Hlt, Hg. apply (Hp f g); try done; [left|by right|by apply Hg|by apply Hlt].
Qed.

(** At most two: one of mixed sign, one not. *)
Lemma filter_twice (P : Frame -> Prop) `{!forall f, Decision (P f)} fs :
  side_frames fs -> (forall f g, f ∈ fs -> g ∈ fs -> good pb k f -> good pb k g -> frame_lt f g -> ~ mixed f -> ~ mixed g -> P f -> P g -> False) -> (length (filter P fs) <= 2)%nat.
Proof.
  intros [Hg Hs _] Hp. apply side_frames_lt in Hs.
  assert (length (filter P fs) <= length (filter mixed fs) + length (filter (fun f => ~ mixed f /\ P f) fs))%nat as Hle.
  { clear. induction fs as [|f fs IH]; [done|]. rewrite !filter_cons. repeat case_decide; cbn; try lia; tauto. }
  assert (length (filter mixed fs) <= 1)%nat by (apply filter_once; try done; intros f g _ _ Gf Gg Hlt Mf Mg; by apply (mixed_once f g)).
  assert (length (filter (fun f => ~ mixed f /\ P f) fs) <= 1)%nat by (apply filter_once; try done; intros f g Hf Hg' Gf Gg Hlt [Mf Pf] [Mg Pg]; by apply (Hp f g)).
  lia.
Qed.

(** ** Filling a unit *)

Definition stuck (m : OsmIdKey) (p : list Frame) : Z := Z.of_nat (length (filter (fun f => key_leb (first_key f) m = true) p)).
Definition ahead_of (m : OsmIdKey) (p : list Frame) : Prop := forall f, f ∈ p -> ~ mixed f -> key_le m (first_key f).

Lemma stuck_two m p : side_frames p -> ahead_of m p -> 0 <= stuck m p <= 2.
Proof.
  intros Hp Ha. unfold stuck. split; [lia|]. apply (Nat2Z.inj_le _ 2). apply filter_twice; [done|]. intros f g Hf Hg Gf Gg Hlt Mf Mg Lf%key_leb_le Lg%key_leb_le.
  apply (key_lt_irrefl m). eapply key_le_lt_trans; [by apply (Ha f)|]. eapply key_le_lt_trans; [by apply good_span|]. eapply key_lt_le_trans; [by apply (first_lt f g)|done].
Qed.

Lemma head_first f p g : side_frames (f :: p) -> g ∈ f :: p -> ~ mixed g -> key_le (first_key f) (first_key g).
Proof.
  intros [Hg Hs _] [->|Hin]%elem_of_cons Hm; [apply key_le_refl|]. apply Forall_cons in Hg as [Hf Hg]. rewrite Forall_forall in Hg. apply side_frames_lt, StronglySorted_inv in Hs as [_ Hlt].
  rewrite Forall_forall in Hlt. assert (key_lt (last_key f) (first_key g)) as H by (apply first_lt; auto). pose proof (good_span f Hf). unfold key_lt, key_le in *. lia.
Qed.

Lemma stuck_take f p m : key_le (first_key f) m -> stuck m (f :: p) = stuck m p + 1.
Proof. intros H%key_leb_le. unfold stuck. rewrite filter_cons_True by done. cbn. lia. Qed.

(** How far a unit has grown, and what may still hold up its end. *)
Definition grown (bytes : Z) (m : option OsmIdKey) (po pn : list Frame) : Prop :=
  match m with
  | None => bytes <= 4 * MAX_FRAME_BYTES
  | Some m => bytes + MAX_FRAME_BYTES * (stuck m po + stuck m pn) <= 9 * MAX_FRAME_BYTES /\ ahead_of m po /\ ahead_of m pn
  end.

Lemma grown_cap bytes m po pn : grown bytes m po pn -> bytes < DIFF_UNIT_CAP_BYTES.
Proof.
  unfold grown, DIFF_UNIT_CAP_BYTES, MAX_FRAME_BYTES, stuck. destruct m; [intros [H _]|]; lia.
Qed.

Lemma key_max_le a b c : key_le a c -> key_le b c -> key_le (key_max a b) c.
Proof. unfold key_max. by destruct (key_ltb b a). Qed.

(** One more frame, the first of its side and no later than the other's. *)
Lemma grown_take bytes m f p q target :
  side_frames (f :: p) -> side_frames q -> (forall g, head q = Some g -> key_le (first_key f) (first_key g)) ->
  target <= MAX_FRAME_BYTES -> grown bytes m (f :: p) q ->
  (bytes < target \/ match m with Some m => key_le (first_key f) m | None => True end) ->
  grown (bytes + f_len f) (opt_max m (first_key f)) p q.
Proof.
  intros Hf Hq Hh Ht Hg Hd. pose proof (sf_size _ Hf) as [Hz _]%Forall_cons. pose proof (side_frames_cons _ _ Hf) as Hp.
  assert (ahead_of (first_key f) p) as A1 by (intros g Hin Hm; apply (head_first f p g Hf); [by right|done]).
  assert (ahead_of (first_key f) q) as A2.
  { intros g Hin Hm. destruct q as [|h q]; [by apply elem_of_nil in Hin|]. eapply key_le_trans; [by apply Hh|]. by apply (head_first h q g). }
  unfold grown in *. destruct m as [m|]; cbn [opt_max].
  - destruct Hg as (Hb & B1 & B2). assert (ahead_of m p) as B1' by (intros g Hin; apply B1; by right).
    assert (ahead_of (key_max m (first_key f)) p) as C1 by (intros g Hin Hm; apply key_max_le; auto). assert (ahead_of (key_max m (first_key f)) q) as C2 by (intros g Hin Hm; apply key_max_le; auto).
    split_and!; try done. destruct (decide (key_le (first_key f) m)) as [Hle|Hle].
    + assert (key_max m (first_key f) = m) as ->.
      { destruct (key_max_case m (first_key f)) as [E|E]; rewrite E; [done|]. apply key_le_antisym; [done|]. rewrite <- E. apply key_max_l. }
      rewrite stuck_take in Hb by done. unfold MAX_FRAME_BYTES in *. lia.
    + destruct Hd as [Hd|]; [|done]. pose proof (stuck_two _ _ Hp C1). pose proof (stuck_two _ _ Hq C2). unfold MAX_FRAME_BYTES in *. lia.
  - split_and!; try done. pose proof (stuck_two _ _ Hp A1). pose proof (stuck_two _ _ Hq A2). unfold MAX_FRAME_BYTES in *. lia.
Qed.

Lemma grown_swap bytes m po pn : grown bytes m po pn -> grown bytes m pn po.
Proof. unfold grown. destruct m; [|done]. intros (? & ? & ?). split_and!; try done. lia. Qed.

(** A unit filled from [s]: what it took of each side, and the cut it ends at. *)
Record filled (s s' : Filling) (stop : option OsmIdKey) (ro rn to tn po' pn' : list Frame) : Prop := mkFilled {
  fd_old_at : at_kind k (fl_old s') po' ro;
  fd_new_at : at_kind k (fl_new s') pn' rn;
  fd_old_side : fl_old_side s' = fl_old_side s ++ to;
  fd_new_side : fl_new_side s' = fl_new_side s ++ tn;
  fd_stop : match stop with
            | None => po' = [] /\ pn' = []
            | Some e => (fl_max_first s = None -> to ++ tn <> []) /\ (forall m, fl_max_first s = Some m -> key_lt m e) /\
                        Forall (fun f => key_lt (first_key f) e) (to ++ tn) /\
                        (forall f, head po' = Some f -> key_le e (first_key f)) /\ (forall f, head pn' = Some f -> key_le e (first_key f))
            end }.

Lemma next_side_spec po pn :
  match next_side (head po) (head pn) with
  | None => po = [] /\ pn = []
  | Some (nf, false) => exists f po', po = f :: po' /\ nf = first_key f /\ forall g, head pn = Some g -> key_le (first_key f) (first_key g)
  | Some (nf, true) => exists f pn', pn = f :: pn' /\ nf = first_key f /\ forall g, head po = Some g -> key_le (first_key f) (first_key g)
  end.
Proof.
  destruct po as [|f po], pn as [|g pn]; cbn; [done|by eexists _, _|by eexists _, _|]. destruct (key_leb (first_key f) (first_key g)) eqn:E.
  - apply key_leb_le in E. eexists _, _. split_and!; try done. by intros ? [= <-].
  - eexists _, _. split_and!; try done. intros ? [= <-]. rewrite key_leb_ltb in E. apply negb_false_iff, key_ltb_lt in E. unfold key_lt, key_le in *. lia.
Qed.

Lemma opt_max_some m key : exists x, opt_max m key = Some x /\ key_le key x /\ (forall y, m = Some y -> key_le y x).
Proof. unfold opt_max. destruct m as [m|]; eexists; split_and!; try done; try apply key_max_r; try apply key_le_refl; intros ? [= <-]. apply key_max_l. Qed.

Lemma filled_old s c f s' stop ro rn to tn po' pn' po pn :
  filled (fill_frame s false c f po pn) s' stop ro rn to tn po' pn' -> filled s s' stop ro rn (f :: to) tn po' pn'.
Proof.
  intros [H1 H2 H3 H4 H5]. destruct (opt_max_some (fl_max_first s) (first_key f)) as (x & Ex & L1 & L2). cbn in *. rewrite Ex in H5.
  constructor; try done; [by rewrite H3, <- app_assoc|]. destruct stop as [e|]; [|done]. destruct H5 as (_ & Hm & Hall & Ho & Hn). specialize (Hm x eq_refl).
  split_and!; try done; [intros m Hmm; eapply key_le_lt_trans; eauto|]. cbn. constructor; [by eapply key_le_lt_trans|done].
Qed.

Lemma filled_new s c f s' stop ro rn to tn po' pn' po pn :
  filled (fill_frame s true c f po pn) s' stop ro rn to tn po' pn' -> filled s s' stop ro rn to (f :: tn) po' pn'.
Proof.
  intros [H1 H2 H3 H4 H5]. destruct (opt_max_some (fl_max_first s) (first_key f)) as (x & Ex & L1 & L2). cbn in *. rewrite Ex in H5.
  constructor; try done; [by rewrite H4, <- app_assoc|]. destruct stop as [e|]; [|done]. destruct H5 as (_ & Hm & Hall & Ho & Hn). specialize (Hm x eq_refl).
  split_and!; try done; [by intros _; destruct to|intros m Hmm; eapply key_le_lt_trans; eauto|]. apply Forall_app in Hall as [? ?]. apply Forall_app. split; [done|]. constructor; [by eapply key_le_lt_trans|done].
Qed.

Lemma filled_with s old new s' stop ro rn to tn po' pn' : filled (with_cursors s old new) s' stop ro rn to tn po' pn' -> filled s s' stop ro rn to tn po' pn'.
Proof. by intros [H1 H2 H3 H4 H5]. Qed.

Lemma fill_ok target ro rn fuel : forall s po pn,
  target <= MAX_FRAME_BYTES -> at_kind k (fl_old s) po ro -> at_kind k (fl_new s) pn rn -> side_frames po -> side_frames pn ->
  grown (fl_bytes s) (fl_max_first s) po pn -> (length po + length pn < fuel)%nat ->
  exists s' stop to tn po' pn', fill fuel k target s = Ok (s', stop) /\ po = to ++ po' /\ pn = tn ++ pn' /\ filled s s' stop ro rn to tn po' pn'.
Proof.
  induction fuel as [|fuel IH]; intros s po pn Ht Ao An So Sn Hg Hf; [lia|]. cbn [fill].
  destruct (peek_ok _ _ _ _ Ao) as (old & -> & Ao'). cbn [mbind result_bind]. destruct (peek_ok _ _ _ _ An) as (new & -> & An'). cbn [mbind result_bind].
  pose proof (next_side_spec po pn) as Hns. destruct (next_side (head po) (head pn)) as [[nf side]|].
  2: { destruct Hns as [-> ->]. eexists _, None, [], [], [], []. split; [done|]. split_and!; try done. by constructor; cbn; rewrite ?app_nil_r. }
  cbn [with_cursors fl_bytes fl_lone fl_max_first]. destruct (((target <=? fl_bytes s) || _) && _) eqn:Edue.
  { apply andb_prop in Edue as [_ Edue]. destruct (fl_max_first s) as [m|] eqn:Em; [|done]. apply key_ltb_lt in Edue.
    eexists _, (Some nf), [], [], po, pn. split; [done|]. split_and!; try done. constructor; cbn; rewrite ?app_nil_r; try done. rewrite Em.
    destruct side; destruct Hns as (f & p & -> & -> & Hle); split_and!; try done; try (by intros ? [= <-]); by intros ? [= <-]; apply key_le_refl. }
  assert (fl_bytes s < target \/ match fl_max_first s with Some m => key_le nf m | None => True end) as Hd.
  { apply andb_false_iff in Edue as [E|E]; [left; apply orb_false_elim in E as [E _]; lia|right]. destruct (fl_max_first s); [|done]. by apply key_ltb_ge. }
  destruct (Z.leb_spec DIFF_UNIT_CAP_BYTES (fl_bytes s)) as [Hcap|_]; [apply grown_cap in Hg; lia|].
  destruct side; destruct Hns as (f & p & -> & -> & Hle).
  - destruct (next_of_ok _ _ _ _ _ An') as (c & -> & Ac). cbn [mbind result_bind].
    destruct (IH (fill_frame (with_cursors s old new) true c f (head po) (head (f :: p))) po p) as (s' & stop & to & tn & po' & pn' & -> & Eo & En & Hfd); try done; [by eapply side_frames_cons| |cbn in Hf; lia|].
    { change (grown (fl_bytes s + f_len f) (opt_max (fl_max_first s) (first_key f)) po p). apply grown_swap. eapply grown_take; try done. by apply grown_swap. }
    eexists s', stop, to, (f :: tn), po', pn'. split; [done|]. split_and!; [done|by rewrite En|]. eapply filled_with, filled_new, Hfd.
  - destruct (next_of_ok _ _ _ _ _ Ao') as (c & -> & Ac). cbn [mbind result_bind].
    destruct (IH (fill_frame (with_cursors s old new) false c f (head (f :: p)) (head pn)) p pn) as (s' & stop & to & tn & po' & pn' & -> & Eo & En & Hfd); try done; [by eapply side_frames_cons| |cbn in Hf; lia|].
    { change (grown (fl_bytes s + f_len f) (opt_max (fl_max_first s) (first_key f)) p pn). by eapply grown_take. }
    eexists s', stop, (f :: to), tn, po', pn'. split; [done|]. split_and!; [by rewrite Eo|done|]. eapply filled_with, filled_old, Hfd.
Qed.

(** ** The units of a kind *)

Lemma side_frames_filter (P : Frame -> Prop) `{!forall f, Decision (P f)} fs p : side_frames (fs ++ p) -> side_frames (filter P fs ++ p).
Proof.
  induction fs as [|f fs IH]; [done|]. cbn [app]. intros Hs. pose proof (IH (side_frames_cons _ _ Hs)) as IHs. rewrite filter_cons. case_decide; [|done]. cbn [app].
  destruct Hs as [Hg Hsd Hz]. destruct IHs as [Hg' Hsd' Hz']. apply Forall_cons in Hg as [Gf _], Hz as [Zf _]. rewrite blocks_cons in Hsd. apply elem_sorted_app in Hsd as (Sf & _ & Hlt).
  constructor; [by constructor| |by constructor]. rewrite blocks_cons. apply elem_sorted_app. split_and!; try done. intros x y Hx Hy. apply Hlt; [done|].
  apply elem_of_blocks in Hy as (g & Hg2 & Hy). apply elem_of_blocks. exists g. split; [|done]. rewrite elem_of_app, list_elem_of_filter in Hg2. rewrite elem_of_app. tauto.
Qed.

Lemma side_frames_app a b : side_frames (a ++ b) -> side_frames a /\ side_frames b.
Proof.
  intros [Hg Hs Hz]. apply Forall_app in Hg as [? ?], Hz as [? ?]. rewrite blocks_app in Hs. apply elem_sorted_app in Hs as (? & ? & _). split; by constructor.
Qed.

Lemma pending_above e p : side_frames p -> (forall f, head p = Some f -> key_le e (first_key f)) -> forall x, x ∈ blocks p -> key_le e (ekey x).
Proof.
  intros Hs Hh x Hx. destruct p as [|f p]; [by apply elem_of_nil in Hx|]. specialize (Hh f eq_refl). destruct Hs as [Hg Hs _]. apply Forall_cons in Hg as [Gf _].
  rewrite blocks_cons in *. apply elem_sorted_app in Hs as (_ & _ & Hlt). eapply key_le_trans; [done|].
  apply elem_of_app in Hx as [Hx|Hx]; [by apply good_first|]. destruct (good_last_present _ Gf) as (y & Hy & _). eapply key_le_trans; [by apply good_first|].
  specialize (Hlt y x Hy Hx). unfold elem_lt, id_lt, ekey, key_lt, key_le in *. lia.
Qed.

(** Everything of a window's part is in the frames its unit has. *)
Lemma unit_part start e a p :
  side_frames (a ++ p) -> (forall f, head p = Some f -> key_le e (first_key f)) -> part (mkWindow start (Some e)) (blocks (a ++ p)) = part (mkWindow start (Some e)) (blocks a).
Proof.
  intros Hs Hh. rewrite blocks_app, part_app, (part_none _ (blocks p)), app_nil_r; [done|]. apply Forall_forall. intros x Hx.
  apply side_frames_app in Hs as [_ Hs]. apply (pending_above e p Hs Hh) in Hx. unfold in_window, before_end. cbn. rewrite key_ltb_leb. apply key_leb_le in Hx. unfold ekey in Hx. by rewrite Hx, andb_false_r.
Qed.

(** Everything past a cut is in the carried frames and the ones ahead. *)
Lemma carry_part e fs p : Forall (good pb k) fs -> part (mkWindow (Some e) None) (blocks (fs ++ p)) = part (mkWindow (Some e) None) (blocks (carried e fs ++ p)).
Proof.
  intros Hg. rewrite !blocks_app, !part_app. f_equal. induction Hg as [|f fs Gf Hg IH]; [done|]. unfold carried. rewrite filter_cons. case_decide as Hd.
  - rewrite !blocks_cons, !part_app. by f_equal.
  - rewrite blocks_cons, part_app, (part_none _ (frame_block f)); [done|]. apply Forall_forall. intros x Hx. unfold in_window, from_start. cbn.
    destruct (key_leb e (osm_id_key (content_id x))) eqn:E; [|done]. exfalso. apply Hd, key_leb_le. apply key_leb_le in E. eapply key_le_trans; [done|]. by apply good_last.
Qed.

Lemma carried_two e fs : side_frames fs -> Forall (fun f => key_lt (first_key f) e) fs -> (length (carried e fs) <= 2)%nat.
Proof.
  intros Hs Hf. rewrite Forall_forall in Hf. apply filter_twice; [done|]. intros f g Hif Hig Gf Gg Hlt Mf Mg Lf%key_leb_le _.
  apply (key_lt_irrefl e). eapply key_le_lt_trans; [exact Lf|]. assert (key_lt (last_key f) (first_key g)) by (by apply first_lt). specialize (Hf g Hig). cbv beta in Hf. unfold key_lt in *. lia.
Qed.

Lemma bytes_bound fs n : Forall (fun f => 0 <= f_len f <= MAX_FRAME_BYTES) fs -> (length fs <= n)%nat -> 0 <= bytes_of fs <= Z.of_nat n * MAX_FRAME_BYTES.
Proof.
  intros Hz. revert n. induction Hz as [|f fs Hf Hz IH]; intros n Hn; cbn [bytes_of foldr]; [unfold MAX_FRAME_BYTES; lia|]. cbn in Hn. destruct n as [|n]; [lia|].
  specialize (IH n ltac:(lia)). unfold bytes_of in IH. lia.
Qed.

(** What is carried into a unit. *)
Definition carry_ok (start : option OsmIdKey) (carry p : list Frame) : Prop :=
  match start with
  | None => carry = []
  | Some st => Forall (fun f => key_lt (first_key f) st) carry /\ (forall f, head p = Some f -> key_le st (first_key f))
  end /\ (length carry <= 2)%nat.

Definition units_say (skip : bool) (units : list Unit) (out : list Action) : Prop :=
  exists actss, Forall2 (fun u a => merge_unit skip u = Ok a /\ u_kind u = k) units actss /\ says (concat actss) out.

Lemma units_say_cons skip u a units sp out : merge_unit skip u = Ok a -> u_kind u = k -> says a sp -> units_say skip units out -> units_say skip (u :: units) (sp ++ out).
Proof. intros Hu Hk Ha (actss & H2 & Hs). exists (a :: actss). split; [by constructor|]. cbn. by apply says_app. Qed.

(** The cut is past the start. *)
Lemma cut_past start e co to po' cn tn pn' :
  carry_ok start co (to ++ po') -> carry_ok start cn (tn ++ pn') -> to ++ tn <> [] -> Forall (fun f => key_lt (first_key f) e) (to ++ tn) -> starts_by start e.
Proof.
  intros [Co _] [Cn _] Hne Hall. destruct start as [st|]; [|done]. destruct Co as [_ Ho], Cn as [_ Hn]. cbn. rewrite Forall_forall in Hall.
  assert (exists f, f ∈ to ++ tn /\ key_le st (first_key f)) as (f & Hf & Hle).
  { destruct to as [|f to]; [destruct tn as [|f tn]; [done|]|]; exists f; (split; [left|]); auto. }
  specialize (Hall f Hf). cbv beta in Hall. unfold key_lt, key_le in *. lia.
Qed.

Lemma carry_next start e c t p' :
  carry_ok start c (t ++ p') -> starts_by start e -> side_frames (c ++ t ++ p') -> Forall (fun f => key_lt (first_key f) e) t -> (forall f, head p' = Some f -> key_le e (first_key f)) ->
  carry_ok (Some e) (carried e (c ++ t)) p' /\ side_frames (carried e (c ++ t) ++ p').
Proof.
  intros [Hc _] He Hs Ht Hh. rewrite app_assoc in Hs. assert (Forall (fun f => key_lt (first_key f) e) (c ++ t)) as Hall.
  { apply Forall_app. split; [|done]. destruct start as [st|]; [|by subst]. destruct Hc as [Hc _]. eapply Forall_impl; [done|]. intros f Hf. cbv beta in *. cbn in He. by eapply key_lt_le_trans. }
  split; [|by apply side_frames_filter]. split; [|apply carried_two; [by apply side_frames_app in Hs as [? _]|done]]. split; [|done].
  apply Forall_forall. intros f [_ Hf]%list_elem_of_filter. rewrite Forall_forall in Hall. by apply Hall.
Qed.

Lemma plan_units_ok target ro rn fuel : forall old new start co cn po pn,
  target <= MAX_FRAME_BYTES -> at_kind k old po ro -> at_kind k new pn rn -> side_frames (co ++ po) -> side_frames (cn ++ pn) ->
  carry_ok start co po -> carry_ok start cn pn -> (length po + length pn < fuel)%nat ->
  exists units old' new', plan_units fuel k target old new start co cn = (units, Ok (old', new')) /\ at_kind k old' [] ro /\ at_kind k new' [] rn /\
    forall skip, units_say skip units (join (part (mkWindow start None) (blocks (co ++ po))) (part (mkWindow start None) (blocks (cn ++ pn)))).
Proof.
  induction fuel as [|fuel IH]; intros old new start co cn po pn Ht Ao An So Sn Co Cn Hf; [lia|]. cbn [plan_units].
  pose proof (cursor_length _ _ (ak_ok _ _ _ _ Ao)) as Lo. pose proof (cursor_length _ _ (ak_ok _ _ _ _ An)) as Ln. rewrite length_app in Lo, Ln.
  destruct (side_frames_app _ _ So) as [Sco Spo]. destruct (side_frames_app _ _ Sn) as [Scn Spn].
  destruct (fill_ok target ro rn (S (frames_left old + frames_left new)) (filling_start old new co cn) po pn) as (s' & stop & to & tn & po' & pn' & -> & -> & -> & Hfd); try done.
  { cbn. pose proof (bytes_bound co 2 (sf_size _ Sco) (proj2 Co)). pose proof (bytes_bound cn 2 (sf_size _ Scn) (proj2 Cn)). lia. }
  { lia. }
  destruct Hfd as [Fo Fn Eo En Hstop]. cbn in Eo, En. rewrite Eo, En. destruct stop as [e|].
  - destruct Hstop as (Hne & _ & Hall & Ho & Hn). specialize (Hne eq_refl). pose proof (cut_past _ _ _ _ _ _ _ _ Co Cn Hne Hall) as He. apply Forall_app in Hall as [Ha1 Ha2].
    destruct (carry_next _ _ _ _ _ Co He So Ha1 Ho) as [Co' So']. destruct (carry_next _ _ _ _ _ Cn He Sn Ha2 Hn) as [Cn' Sn'].
    destruct (IH (fl_old s') (fl_new s') (Some e) (carried e (co ++ to)) (carried e (cn ++ tn)) po' pn') as (units & old' & new' & -> & Bo & Bn & Hsay); try done.
    { rewrite !length_app in Hf. assert (length (to ++ tn) <> 0)%nat by (by destruct (to ++ tn)). rewrite length_app in *. lia. }
    eexists _, old', new'. split_and!; try done. intros skip. rewrite (join_cut start e) by (done || apply So || apply Sn).
    rewrite (app_assoc co) in So |- *. rewrite (app_assoc cn) in Sn |- *. rewrite (unit_part start e (co ++ to) po' So Ho), (unit_part start e (cn ++ tn) pn' Sn Hn).
    destruct (side_frames_app _ _ So) as [Uo _]. destruct (side_frames_app _ _ Sn) as [Un _]. rewrite (carry_part e (co ++ to)), (carry_part e (cn ++ tn)) by (apply Uo || apply Un).
    destruct (unit_ok pb k (mkWindow start (Some e)) (co ++ to) (cn ++ tn) skip) as (acts & Hm & Hs); [apply Uo|apply Un|apply Uo|apply Un|].
    by eapply units_say_cons.
  - destruct Hstop as [-> ->]. rewrite !app_nil_r in *. eexists _, _, _. split_and!; try done. intros skip.
    destruct (unit_ok pb k (mkWindow start None) (co ++ to) (cn ++ tn) skip) as (acts & Hm & Hs); [apply So|apply Sn|apply So|apply Sn|].
    rewrite <- (app_nil_r (join _ _)). eapply units_say_cons; try done. exists []. split; [constructor|apply says_nil].
Qed.

Lemma part_whole es : part (mkWindow None None) es = es.
Proof. apply part_all, Forall_forall. done. Qed.

Lemma plan_kind_ok target old new po pn ro rn :
  target <= MAX_FRAME_BYTES -> at_kind k old po ro -> at_kind k new pn rn -> side_frames po -> side_frames pn ->
  exists units old' new', plan_kind k target old new = (units, Ok (old', new')) /\ at_kind k old' [] ro /\ at_kind k new' [] rn /\
    forall skip, units_say skip units (join (blocks po) (blocks pn)).
Proof.
  intros Ht Ao An So Sn. unfold plan_kind.
  destruct (plan_units_ok target ro rn (S (frames_left old + frames_left new)) old new None [] [] po pn) as (units & old' & new' & E & Bo & Bn & Hs); try done; try (split; [done|cbn; lia]).
  - pose proof (cursor_length _ _ (ak_ok _ _ _ _ Ao)) as Lo. pose proof (cursor_length _ _ (ak_ok _ _ _ _ An)) as Ln. rewrite length_app in Lo, Ln. lia.
  - exists units, old', new'. split_and!; try done. intros skip. specialize (Hs skip). by rewrite !part_whole in Hs.
Qed.

End Plan.
