(* ===== verification/DiffRun.v ===== *)
(** * The indexed diff computes the element merge

    From two sorted indexed files to the actions the command's sink receives:
    cursors, planner, units and merge together report, kind by kind, exactly the
    element merge of the two files ([diff_units_ok]). *)

From S2P Require Import Prelude Block OsmId ElementKind BlobMeta Tally SortedDiff Content DiffJoin DiffPair DiffMerge DiffUnits DiffPlan.

(** ** Honest files *)

Definition type_lt (x y : ContentElement) : Prop :=
  ordinal (content_kind x) < ordinal (content_kind y) \/ content_kind x = content_kind y /\ elem_lt x y.

Record honest_frames (pb : PayloadBlock) (fs : list Frame) : Prop := mkHonest {
  hn_good : Forall (fun f => good pb (kind_at f) f /\ 0 <= f_len f <= MAX_FRAME_BYTES) fs;
  hn_sorted : StronglySorted type_lt (blocks fs) }.

Definition file_frames (file : list RawFrame) : list Frame := data_frames (tail file).

(** A leading frame, and then data blobs with readable, exact indexdata, one
    kind each, in type-then-id order. *)
Record honest_file (pb : PayloadBlock) (file : list RawFrame) : Prop := mkHonestFile {
  hf_indexed : indexed (tail file);
  hf_frames : honest_frames pb (file_frames file) }.

Definition frames_of (k : ElementKind) (fs : list Frame) : list Frame := filter (fun f => kind_at f = k) fs.

(** A file's elements of a kind. *)
Definition elements_of (k : ElementKind) (file : list RawFrame) : list ContentElement :=
  filter (fun e => content_kind e = k) (blocks (file_frames file)).

Section File.
Context (pb : PayloadBlock).

Lemma honest_cons f fs : honest_frames pb (f :: fs) -> honest_frames pb fs.
Proof. intros [Hg Hs]. apply Forall_cons in Hg as [_ ?]. rewrite blocks_cons in Hs. apply StronglySorted_app_le in Hs as (_ & ? & _). by constructor. Qed.

(** The blobs come kind by kind. *)
Lemma kinds_ascend f fs : honest_frames pb (f :: fs) -> Forall (fun g => ordinal (kind_at f) <= ordinal (kind_at g)) fs.
Proof.
  intros [Hg Hs]. apply Forall_cons in Hg as [[Gf _] Hg]. rewrite blocks_cons in Hs. apply StronglySorted_app_le in Hs as (_ & _ & Hlt).
  apply Forall_forall. intros g Hin. rewrite Forall_forall in Hg. destruct (Hg g Hin) as [Gg _].
  destruct (good_last_present _ _ _ Gf) as (x & Hx & _), (good_last_present _ _ _ Gg) as (y & Hy & _).
  pose proof (good_kinds _ _ _ Gf) as Kf. pose proof (good_kinds _ _ _ Gg) as Kg. rewrite Forall_forall in Kf, Kg. destruct (Kf x Hx) as [<- _], (Kg y Hy) as [<- _].
  destruct (Hlt x y Hx) as [H|[-> _]]; [apply elem_of_blocks; eauto|lia|lia].
Qed.

Lemma kind_split k fs :
  honest_frames pb fs -> exists b r, fs = b ++ frames_of k fs ++ r /\ kinds_before k b /\ later k r /\ of_kind k (frames_of k fs).
Proof.
  induction fs as [|f fs IH]; intros Hh; [exists [], []; split_and!; constructor|]. pose proof (kinds_ascend _ _ Hh) as Hk. destruct (IH (honest_cons _ _ Hh)) as (b & r & E & Hb & Hr & Ho).
  unfold frames_of in *. destruct (Z.lt_trichotomy (ordinal (kind_at f)) (ordinal k)) as [Hlt|[Heq|Hgt]].
  - exists (f :: b), r. rewrite filter_cons_False by (intros <-; lia). split; [cbn; by rewrite E at 1|]. split_and!; try done. by constructor.
  - apply ordinal_inj in Heq. rewrite filter_cons_True by done. assert (b = []) as ->.
    { destruct b as [|g b]; [done|]. apply Forall_cons in Hb as [Hb _]. rewrite Forall_forall in Hk. specialize (Hk g ltac:(rewrite E; left)). cbv beta in Hk. rewrite Heq in Hk. lia. }
    exists [], r. cbn in *. split; [by rewrite E at 1|]. split_and!; try done. by constructor.
  - assert (later k fs) as Hl by (eapply Forall_impl; [exact Hk|]; cbv beta; lia).
    assert (filter (fun g => kind_at g = k) (f :: fs) = []) as ->.
    { rewrite filter_cons_False by (intros <-; lia). destruct (filter _ fs) as [|g l] eqn:Ef; [done|]. assert (g ∈ filter (fun g => kind_at g = k) fs) as [Hg Hin]%list_elem_of_filter by (rewrite Ef; left).
      unfold later in Hl. rewrite Forall_forall in Hl. specialize (Hl g Hin). cbv beta in Hl. rewrite Hg in Hl. lia. }
    exists [], (f :: fs). split_and!; try done; [constructor|by constructor|constructor].
Qed.

Lemma honest_app a b : honest_frames pb (a ++ b) -> honest_frames pb a /\ honest_frames pb b.
Proof. intros [Hg Hs]. apply Forall_app in Hg as [? ?]. rewrite blocks_app in Hs. apply StronglySorted_app_le in Hs as (? & ? & _). split; by constructor. Qed.

Lemma honest_side k fs : honest_frames pb fs -> of_kind k fs -> side_frames pb k fs.
Proof.
  intros [Hg Hs] Hk. assert (Forall (good pb k) fs) as Gk.
  { apply Forall_forall. intros f Hf. unfold of_kind in Hk. rewrite Forall_forall in Hg, Hk. rewrite <- (Hk f Hf). by apply Hg. }
  constructor; [done| |eapply Forall_impl; [exact Hg|]; by intros f [_ ?]].
  assert (forall x, x ∈ blocks fs -> content_kind x = k) as Hx.
  { intros x (f & Hf & Hx)%elem_of_blocks. rewrite Forall_forall in Gk. pose proof (good_kinds _ _ _ (Gk f Hf)) as H. rewrite Forall_forall in H. by apply H. }
  clear - Hs Hx. unfold elem_sorted. induction Hs as [|x es Hs IH Hlt]; [constructor|]. constructor; [apply IH; intros y Hy; apply Hx; by right|].
  apply Forall_forall. intros y Hy. rewrite Forall_forall in Hlt. destruct (Hlt y Hy) as [H|[_ H]]; [|done]. rewrite (Hx x), (Hx y) in H; [lia|by right|left].
Qed.

Lemma frames_of_later k k' fs b r :
  fs = b ++ frames_of k fs ++ r -> kinds_before k b -> ordinal k < ordinal k' -> frames_of k' fs = frames_of k' r.
Proof.
  intros E Hb Hlt. rewrite E at 1. unfold frames_of at 1. rewrite !filter_app. assert (forall l, Forall (fun f => ordinal (kind_at f) <= ordinal k) l -> filter (fun f => kind_at f = k') l = []) as H.
  { induction 1; [done|]. by rewrite filter_cons_False by (intros <-; lia). }
  rewrite (H b), (H (frames_of k fs)); [done| |].
  - apply Forall_forall. intros f [-> _]%list_elem_of_filter. lia.
  - eapply Forall_impl; [exact Hb|]. cbv beta. lia.
Qed.

(** ** The run *)

Lemma drive_units k skip units out msgs r :
  units_say k skip units out -> drive skip msgs = Ok r ->
  exists acts, drive skip ((PlanUnit <$> units) ++ msgs) = Ok ((pair k <$> acts) ++ r) /\ says acts out.
Proof.
  intros (actss & H2 & Hs) Hr. exists (concat actss). split; [|done]. clear Hs. induction H2 as [|u a units actss [Hm Hk] H2 IH]; [done|].
  cbn [fmap list_fmap app drive concat]. rewrite Hm. cbn [mbind result_bind]. rewrite IH. cbn [mbind result_bind]. by rewrite Hk, fmap_app, app_assoc.
Qed.

(** The output of a run, kind by kind. *)
Definition reported (kinds : list ElementKind) (fo fn : list Frame) (acts : list (ElementKind * Action)) : Prop :=
  exists actss, acts = concat (zip_with (fun k a => pair k <$> a) kinds actss) /\
    Forall2 (fun k a => says a (join (blocks (frames_of k fo)) (blocks (frames_of k fn)))) kinds actss.

Lemma plan_ok skip target kinds : forall old new fo fn,
  target <= MAX_FRAME_BYTES -> StronglySorted (fun a b => ordinal a < ordinal b) kinds ->
  cursor_ok old fo -> cursor_ok new fn -> honest_frames pb fo -> honest_frames pb fn ->
  exists acts, drive skip (plan kinds target old new) = Ok acts /\ reported kinds fo fn acts.
Proof.
  induction kinds as [|k kinds IH]; intros old new fo fn Ht Hks Co Cn Ho Hn; cbn [plan].
  { unfold plan_end. rewrite (finish_ok _ _ Co), (finish_ok _ _ Cn). exists []. split; [done|]. by exists []. }
  apply StronglySorted_inv in Hks as [Hks Hk]. destruct (kind_split k fo Ho) as (bo & ro & Eo & Bo & Ro & Ko), (kind_split k fn Hn) as (bn & rn & En & Bn & Rn & Kn).
  rewrite Eo in Co, Ho. rewrite En in Cn, Hn. destruct (honest_app _ _ Ho) as [_ [Po Hro]%honest_app]. destruct (honest_app _ _ Hn) as [_ [Pn Hrn]%honest_app].
  destruct (reaches_ok k old bo _ ro Co Bo Ko Ro) as (old1 & -> & Ao & _). destruct (reaches_ok k new bn _ rn Cn Bn Kn Rn) as (new1 & -> & An & _). cbn [mbind result_bind].
  assert (forall old2 new2, at_kind k old2 [] ro -> at_kind k new2 [] rn -> exists acts, drive skip (plan kinds target old2 new2) = Ok acts /\ reported kinds fo fn acts) as Hrest.
  { intros old2 new2 A1 A2. destruct (IH old2 new2 ro rn Ht Hks (ak_ok _ _ _ _ A1) (ak_ok _ _ _ _ A2) Hro Hrn) as (acts & E & (actss & Ea & Hf)). exists acts. split; [done|]. exists actss. split; [done|].
    clear Ea E IH. revert Hk Hf. clear Hks. generalize actss. induction kinds as [|k' ks IHk]; intros l Hk Hf; inversion Hf; subst; constructor.
    - apply Forall_cons in Hk as [Hk _]. by rewrite (frames_of_later k k' fo bo ro), (frames_of_later k k' fn bn rn).
    - apply Forall_cons in Hk as [_ Hk]. by apply IHk. }
  destruct (bool_decide (frames_of k fo <> []) || bool_decide (frames_of k fn <> [])) eqn:Eh.
  - destruct (plan_kind_ok pb k target old1 new1 _ _ ro rn Ht Ao An (honest_side _ _ Po Ko) (honest_side _ _ Pn Kn)) as (units & old2 & new2 & -> & A1 & A2 & Hu).
    destruct (Hrest _ _ A1 A2) as (acts & E & (actss & -> & Hf)). destruct (drive_units _ _ _ _ _ _ (Hu skip) E) as (a & -> & Ha).
    eexists. split; [done|]. exists (a :: actss). split; [done|]. by constructor.
  - apply orb_false_elim in Eh as [Eh1%bool_decide_eq_false Eh2%bool_decide_eq_false]. destruct (frames_of k fo) eqn:E1; [|by destruct Eh1]. destruct (frames_of k fn) eqn:E2; [|by destruct Eh2].
    destruct (Hrest _ _ Ao An) as (acts & E & (actss & -> & Hf)). eexists. split; [done|]. exists ([] :: actss). split; [done|]. constructor; [|done]. rewrite E1, E2. apply says_nil.
Qed.

(** ** Opening a file *)

Definition place (e : ContentElement) : Z * Z := (ordinal (content_kind e), content_id e).

Lemma seen_elements fs : Forall (fun f => good pb (kind_at f) f) fs -> OsmId.elements (seen <$> fs) = place <$> blocks fs.
Proof.
  induction 1 as [|f fs Gf Hg IH]; [done|]. rewrite blocks_cons, fmap_app, <- IH. unfold OsmId.elements. cbn. f_equal. unfold blob_elements. cbn. rewrite <- list_fmap_compose.
  pose proof (good_kinds _ _ _ Gf) as Hk. unfold kind_at in Hk. clear - Hk. induction Hk as [|e es [He _] Hk IH]; [done|]. cbn. rewrite IH. unfold place at 2. by rewrite He.
Qed.

Lemma place_sorted es : StronglySorted type_lt es -> StronglySorted elem_le (place <$> es).
Proof.
  induction 1 as [|x es Hs IH Hlt]; [constructor|]. cbn. constructor; [done|]. apply Forall_fmap. eapply Forall_impl; [exact Hlt|].
  intros y [H|[E H]]; unfold elem_le; cbn; [by left|right]. rewrite E. split; [done|]. by apply id_lt_le in H.
Qed.

Lemma open_ok file : honest_file pb file -> cursor_ok (cursor_open file) (file_frames file).
Proof.
  intros [Hi [Hg Hs]]. constructor; [done|done|done|]. cbn. fold (file_frames file). apply observe_all_accepts; [| |done].
  - apply Forall_fmap. eapply Forall_impl; [exact Hg|]. intros f [Gf _]. destruct (good_claim _ _ _ Gf) as (_ & _ & H1 & H2 & H3). by split_and!.
  - rewrite seen_elements by (eapply Forall_impl; [exact Hg|]; by intros ? [? _]). by apply place_sorted.
Qed.

Lemma blocks_of_kind k fs : Forall (fun f => good pb (kind_at f) f) fs -> blocks (frames_of k fs) = filter (fun e => content_kind e = k) (blocks fs).
Proof.
  induction 1 as [|f fs Gf Hg IH]; [done|]. rewrite blocks_cons, filter_app, <- IH. unfold frames_of. rewrite filter_cons. pose proof (good_kinds _ _ _ Gf) as Hk. case_decide as Hd.
  - rewrite blocks_cons. f_equal. clear - Hk Hd. induction Hk as [|e es [He _] Hk IH]; [done|]. rewrite filter_cons_True by congruence. by rewrite <- IH.
  - assert (filter (fun e => content_kind e = k) (frame_block f) = []) as ->; [|done]. clear - Hk Hd. induction Hk as [|e es [He _] Hk IH]; [done|]. by rewrite filter_cons_False by congruence.
Qed.

End File.

Lemma run_units_spec (pb : PayloadBlock) (old new : list RawFrame) (kinds : list ElementKind) (skip_equal : bool) :
  honest_file pb old -> honest_file pb new -> StronglySorted (fun a b => ordinal a < ordinal b) kinds ->
  exists actss, run_units skip_equal DIFF_UNIT_TARGET_BYTES kinds old new = Ok (concat (zip_with (fun k a => pair k <$> a) kinds actss)) /\
    Forall2 (fun k a => says a (join (elements_of k old) (elements_of k new))) kinds actss.
Proof.
  intros Ho Hn Hk. unfold run_units.
  destruct (plan_ok pb skip_equal DIFF_UNIT_TARGET_BYTES kinds (cursor_open old) (cursor_open new) (file_frames old) (file_frames new))
    as (acts & -> & (actss & -> & Hf)); try done; [by eapply open_ok|by eapply open_ok|by destruct Ho|by destruct Hn|].
  exists actss. split; [done|]. eapply Forall2_impl; [exact Hf|]. intros k a Hs. cbv beta in *. destruct Ho as [_ [Hgo _]], Hn as [_ [Hgn _]].
  rewrite !(blocks_of_kind pb) in Hs; [done|eapply Forall_impl; [exact Hgn|]; by intros ? [? _]|eapply Forall_impl; [exact Hgo|]; by intros ? [? _]].
Qed.

(** C7. Diff of two indexed files is their element merge: for honest files of
    frames up to 32 MiB and any ascending selection of kinds, the run of the
    planner's units (with or without the byte-equal shortcut) succeeds - no
    header is refused, no unit reaches the size cap - and what it reports, kind
    by kind, runs and byte-equal blobs spelled out element by element, is
    exactly the merge of the two files' elements of that kind. *)
Theorem diff_units_ok (pb : PayloadBlock) (old new : list RawFrame) (kinds : list ElementKind) (skip_equal : bool) :
  honest_file pb old -> honest_file pb new -> StronglySorted (fun a b => ordinal a < ordinal b) kinds ->
  exists actss, run_units skip_equal DIFF_UNIT_TARGET_BYTES kinds old new = Ok (concat (zip_with (fun k a => pair k <$> a) kinds actss)) /\
    Forall2 (fun k a => says a (join (elements_of k old) (elements_of k new))) kinds actss.
Proof. apply run_units_spec. Qed.

(** ** A sample run *)

Definition sample_node (id lat : Z) : ContentElement := CNode id lat 0 [Ok ([97], [98])].
Definition sample_payload (p : Z * bytes) : list ContentElement :=
  match p.2 with
  | [1] => [sample_node (-1) 3; sample_node 1 4]
  | [2] => [sample_node 4 8; sample_node 5 9]
  | _ => [sample_node 4 7; sample_node 6 9]
  end.
Definition sample_index (k : ElementKind) (mn mx n : Z) : BlobIndex := {| kind := k; min_id := mn; max_id := mx; count := n; bbox := None |}.
Definition sample_blob (ix : BlobIndex) (b : bytes) : RawFrame := mkRaw true (Some ix) 40 BtNodes (Ok (Some (1, b))) (Ok (sample_payload (1, b))).
Definition sample_header : RawFrame := mkRaw false None 20 BtEmpty (Ok None) (Ok []).
Definition sample_ways : RawFrame := mkRaw true (Some (sample_index Way 7 7 1)) 30 BtWays (Ok None) (Ok [CWay 7 [] [1; 4]]).
Definition sample_old : list RawFrame :=
  [sample_header; sample_blob (sample_index Node (-1) 1 2) [1]; sample_blob (sample_index Node 4 5 2) [2]; sample_ways].
Definition sample_new : list RawFrame :=
  [sample_header; sample_blob (sample_index Node (-1) 1 2) [1]; sample_blob (sample_index Node 4 6 2) [3]].

Example sample_diff :
  run_units true DIFF_UNIT_TARGET_BYTES [Node; Way] sample_old sample_new =
    Ok [(Node, BlobEqual 2); (Node, ElementModified (sample_node 4 8) (sample_node 4 7)); (Node, ElementOldOnly (sample_node 5 9));
        (Node, BlobNewOnly (mkRun [sample_node 4 7; sample_node 6 9] 1 None 1)); (Way, BlobOldOnly (mkRun [CWay 7 [] [1; 4]] 0 None 1))].
Proof. vm_compute. reflexivity. Qed.

Ltac sample_claim := unfold claim_exact; cbn; split_and!; [done|done|set_solver|set_solver|repeat constructor; cbn; lia].

Lemma sample_blob_good ix b :
  claim_exact ix (content_id <$> sample_payload (1, b)) -> kind ix = Node ->
  let f := with_body ix (sample_blob ix b) in good sample_payload (kind_at f) f /\ 0 <= f_len f <= MAX_FRAME_BYTES.
Proof.
  intros Hc Hk. split; [|cbn; unfold MAX_FRAME_BYTES; lia]. constructor; [done| |done| |done].
  - eexists. split; [done|]. by intros ? [= <-].
  - unfold kind_at. cbn. rewrite Hk. cbn [frame_block with_body f_block sample_blob rf_block]. unfold sample_payload. repeat case_match; repeat constructor; cbn; eauto.
Qed.

Lemma sample_ways_good :
  let f := with_body (sample_index Way 7 7 1) sample_ways in good sample_payload (kind_at f) f /\ 0 <= f_len f <= MAX_FRAME_BYTES.
Proof.
  split; [|cbn; unfold MAX_FRAME_BYTES; lia]. constructor; [done|by eexists|done| |sample_claim]. repeat constructor; cbn; eauto.
Qed.

Ltac sample_sorted := cbn; ssorted; unfold type_lt, elem_lt, id_lt, key_lt; cbn; first [left; lia|right; split; [done|lia]].

Lemma sample_old_honest : honest_file sample_payload sample_old.
Proof.
  constructor; [repeat constructor; by eexists|]. constructor; [|sample_sorted].
  repeat (apply Forall_cons; split); [apply sample_blob_good; [sample_claim|done]..|apply sample_ways_good|constructor].
Qed.

Lemma sample_new_honest : honest_file sample_payload sample_new.
Proof.
  constructor; [repeat constructor; by eexists|]. constructor; [|sample_sorted].
  repeat (apply Forall_cons; split); [apply sample_blob_good; [sample_claim|done]..|constructor].
Qed.

Lemma diff_units_ok_witness :
  exists actss, run_units true DIFF_UNIT_TARGET_BYTES [Node; Way] sample_old sample_new = Ok (concat (zip_with (fun k a => pair k <$> a) [Node; Way] actss)) /\
    Forall2 (fun k a => says a (join (elements_of k sample_old) (elements_of k sample_new))) [Node; Way] actss.
Proof.
  apply (diff_units_ok sample_payload sample_old sample_new [Node; Way] true); [apply sample_old_honest|apply sample_new_honest|ssorted; cbn; lia].
Defined.
