(* ===== verification/DiffStream.v ===== *)
(** * Diff without indexdata (src/src/osc/merge_join.rs, src/src/commands/diff/mod.rs)

    Inputs without indexdata are merged element by element from two block
    streams, phase by phase ([stream_merge_phase]). Every block is classified by
    the kinds it holds; a later kind's block is stashed for its phase, an earlier
    or mixed one is refused, and so is an element that goes backwards. *)

From S2P Require Import Prelude ElementKind Block OsmId BlobMeta SortedDiff Content DiffJoin DiffPair DiffUnits.

(** ** The block source *)

Abbreviation SBlock := (BlockType * list ContentElement)%type.

(** The reader holds the frames past the leading header. *)
Record StreamingBlocks := mkStream {
  sb_reader : list RawFrame; sb_stashed : option SBlock; sb_last : option (Z * OsmIdKey) }.

Definition stream_open (file : list RawFrame) : StreamingBlocks := mkStream (tail file) None None.

Fixpoint next_data (r : list RawFrame) : result DiffError (list RawFrame * option SBlock) :=
  match r with
  | [] => Ok ([], None)
  | x :: r => if negb (rf_data x) then next_data r else es ← rf_block x; Ok (r, Some (rf_type x, es))
  end.

Definition next_block (s : StreamingBlocks) : result DiffError (StreamingBlocks * option SBlock) :=
  match sb_stashed s with
  | Some b => Ok (mkStream (sb_reader s) None (sb_last s), Some b)
  | None => '(r, b) ← next_data (sb_reader s); Ok (mkStream r None (sb_last s), b)
  end.

Inductive BlockKinds := KindsEmpty | KindsOne (k : ElementKind) | KindsSeveral.

Definition classify_kinds (ks : KindSet) : BlockKinds :=
  let step (acc : BlockKinds) (k : ElementKind) :=
    if has ks k then match acc with KindsEmpty => KindsOne k | _ => KindsSeveral end else acc in
  foldl step KindsEmpty [Node; Way; Relation].

Definition element_kinds (b : SBlock) : BlockKinds := classify_kinds (kinds_of (content_kind <$> b.2)).

Definition block_type_kind (t : BlockType) : option ElementKind :=
  match t with
  | BtDenseNodes | BtNodes => Some Node
  | BtWays => Some Way
  | BtRelations => Some Relation
  | BtMixed | BtEmpty => None
  end.

Definition stash (s : StreamingBlocks) (b : SBlock) : StreamingBlocks := mkStream (sb_reader s) (Some b) (sb_last s).

Fixpoint skip_loop (fuel : nat) (s : StreamingBlocks) (k : ElementKind) : result DiffError StreamingBlocks :=
  match fuel with
  | O => Err Internal
  | S fuel =>
      '(s, b) ← next_block s;
      match b with
      | None => Ok s
      | Some b =>
          match element_kinds b with
          | KindsEmpty => skip_loop fuel s k
          | KindsOne x =>
              if decide (x = k) then skip_loop fuel s k
              else if ordinal k <? ordinal x then Ok (stash s b)
              else Err (UnsortedBlock x k)
          | KindsSeveral => Err MixedBlock
          end
      end
  end.

(** Every turn takes a block: the stashed one and those of the reader. *)
Definition blocks_left (s : StreamingBlocks) : nat := S (S (length (sb_reader s))).

Definition skip_kind (s : StreamingBlocks) (k : ElementKind) : result DiffError StreamingBlocks := skip_loop (blocks_left s) s k.

Fixpoint phase_block_loop (fuel : nat) (s : StreamingBlocks) (k : ElementKind) : result DiffError (StreamingBlocks * option SBlock) :=
  match fuel with
  | O => Err Internal
  | S fuel =>
      '(s, b) ← next_block s;
      match b with
      | None => Ok (s, None)
      | Some b =>
          if decide (block_type_kind b.1 = Some k) then Ok (s, Some b)
          else
            match element_kinds b with
            | KindsEmpty => phase_block_loop fuel s k
            | KindsOne x =>
                if decide (x = k) then Ok (s, Some b)
                else if ordinal k <? ordinal x then Ok (stash s b, None)
                else Err (UnsortedBlock x k)
            | KindsSeveral => Err MixedBlock
            end
      end
  end.

Definition next_phase_block (s : StreamingBlocks) (k : ElementKind) : result DiffError (StreamingBlocks * option SBlock) :=
  phase_block_loop (blocks_left s) s k.

(** [admit] *)
Definition allow (last : option (Z * OsmIdKey)) (e : ContentElement) (k : ElementKind) : result DiffError (option (Z * OsmIdKey)) :=
  if negb (bool_decide (content_kind e = k)) then Err MixedBlock
  else
    let key := osm_id_key (content_id e) in
    match last with
    | Some (last_kind, last_key) =>
        if (last_kind =? ordinal k) && key_ltb key last_key then Err (UnsortedElement k (content_id e) (osm_id_from_key last_key))
        else Ok (Some (ordinal k, key))
    | None => Ok (Some (ordinal k, key))
    end.

Definition allow_element (s : StreamingBlocks) (e : ContentElement) (k : ElementKind) : result DiffError StreamingBlocks :=
  last ← allow (sb_last s) e k;
  Ok (mkStream (sb_reader s) (sb_stashed s) last).

(** ** The merge *)

(** One side of a phase: its source, its block's iterator, its head. *)
Record StreamSide := mkStreamSide {
  ss_src : StreamingBlocks; ss_iter : option (list ContentElement); ss_head : option ContentElement; ss_ended : bool }.

(** [pull_head!] *)
Fixpoint pull_loop (fuel : nat) (src : StreamingBlocks) (iter : option (list ContentElement)) (k : ElementKind) : result DiffError StreamSide :=
  match fuel with
  | O => Err Internal
  | S fuel =>
      match iter with
      | Some (e :: es) => src ← allow_element src e k; Ok (mkStreamSide src (Some es) (Some e) false)
      | _ =>
          '(src, b) ← next_phase_block src k;
          match b with
          | None => Ok (mkStreamSide src None None true)
          | Some b => pull_loop fuel src (Some b.2) k
          end
      end
  end.

Definition pull_head (s : StreamSide) (k : ElementKind) : result DiffError StreamSide :=
  if bool_decide (ss_head s = None) && negb (ss_ended s) then pull_loop (S (blocks_left (ss_src s))) (ss_src s) (ss_iter s) k else Ok s.

Definition take_head (s : StreamSide) : StreamSide := mkStreamSide (ss_src s) (ss_iter s) None (ss_ended s).

Fixpoint stream_loop (fuel : nat) (k : ElementKind) (o n : StreamSide) (out : list Action)
    : result DiffError (StreamingBlocks * StreamingBlocks * list Action) :=
  match fuel with
  | O => Err Internal
  | S fuel =>
      o ← pull_head o k;
      n ← pull_head n k;
      match ss_head o, ss_head n with
      | None, None => Ok (ss_src o, ss_src n, out)
      | Some x, None => stream_loop fuel k (take_head o) n (out ++ [ElementOldOnly x])
      | None, Some y => stream_loop fuel k o (take_head n) (out ++ [ElementNewOnly y])
      | Some x, Some y =>
          match osm_id_cmp (content_id x) (content_id y) with
          | Lt => stream_loop fuel k (take_head o) n (out ++ [ElementOldOnly x])
          | Gt => stream_loop fuel k o (take_head n) (out ++ [ElementNewOnly y])
          | Eq => stream_loop fuel k (take_head o) (take_head n) (out ++ [pair_action x y])
          end
      end
  end.

Definition block_size (b : result DiffError (list ContentElement)) : nat := match b with Ok es => length es | Err _ => 0 end.
Definition source_size (s : StreamingBlocks) : nat :=
  (match sb_stashed s with Some b => length b.2 | None => 0 end + sum_list_with (fun x => block_size (rf_block x)) (sb_reader s))%nat.

(** Every turn reports an element, the last apart. *)
Definition stream_merge_phase (old new : StreamingBlocks) (k : ElementKind) : result DiffError (StreamingBlocks * StreamingBlocks * list Action) :=
  stream_loop (S (source_size old + source_size new)) k (mkStreamSide old None None false) (mkStreamSide new None None false) [].

(** [diff_element_stream]: a phase per kind, merged or skipped *)
Fixpoint stream_phases (phases : list (ElementKind * bool)) (old new : StreamingBlocks) : result DiffError (list (ElementKind * Action)) :=
  match phases with
  | [] => Ok []
  | (k, true) :: phases =>
      '(old, new, acts) ← stream_merge_phase old new k;
      rest ← stream_phases phases old new;
      Ok ((pair k <$> acts) ++ rest)
  | (k, false) :: phases =>
      old ← skip_kind old k;
      new ← skip_kind new k;
      stream_phases phases old new
  end.

Definition diff_phases (f : TypeFilter) : list (ElementKind * bool) := [(Node, nodes f); (Way, ways f); (Relation, relations f)].

Definition diff_element_stream (f : TypeFilter) (old new : list RawFrame) : result DiffError (list (ElementKind * Action)) :=
  stream_phases (diff_phases f) (stream_open old) (stream_open new).
