(* ===== verification/DiffSound.v ===== *)
(** * What a streaming diff has seen

    A phase that ends without an error has taken every block up to the first of
    a later kind, delivering all their elements in order; over the three phases
    nothing of the file is left out ([diff_stream_sound]). On honest files no
    phase fails ([stream_honest]). *)

From S2P Require Import Prelude ElementKind Block OsmId BlobMeta Tally SortedDiff Content DiffJoin DiffPair DiffMerge DiffUnits DiffPlan DiffRun DiffStream DiffAgree.

(** ** Blocks and kinds *)

Definition velems (v : View) : list ContentElement := concat ((fun r => match r with Ok b => b.2 | Err _ => [] end) <$> v).
Definition all_of (k : ElementKind) (es : list ContentElement) : Prop := Forall (fun e => content_kind e = k) es.

Lemma velems_app a b : velems (a ++ b) = velems a ++ velems b.
Proof. unfold velems. by rewrite fmap_app, concat_app. Qed.

Lemma element_kinds_spec b :
  match element_kinds b with
  | KindsEmpty => b.2 = []
  | KindsOne k => all_of k b.2 /\ b.2 <> []
  | KindsSeveral => forall k, ~ all_of k b.2
  end.
Proof.
  unfold element_kinds. assert (forall k, has (kinds_of (content_kind <$> b.2)) k = true <-> exists e, e ∈ b.2 /\ content_kind e = k) as H.
  { intros k. rewrite kinds_of_has, list_elem_of_fmap. naive_solver. }
  assert (forall k, has (kinds_of (content_kind <$> b.2)) k = false -> forall e, e ∈ b.2 -> content_kind e <> k) as Hn.
  { intros k Hk e He <-. assert (has (kinds_of (content_kind <$> b.2)) (content_kind e) = true) by (apply H; eauto). congruence. }
  assert (forall k k', has (kinds_of (content_kind <$> b.2)) k = true -> has (kinds_of (content_kind <$> b.2)) k' = true -> k <> k' -> forall x, ~ all_of x b.2) as Hs.
  { intros k k' (e & He & <-)%H (e' & He' & <-)%H Hne x Hx. unfold all_of in Hx. rewrite Forall_forall in Hx. apply Hne. by rewrite (Hx e), (Hx e'). }
  assert (forall k, has (kinds_of (content_kind <$> b.2)) k = true -> (forall k', k' <> k -> has (kinds_of (content_kind <$> b.2)) k' = false) -> all_of k b.2 /\ b.2 <> []) as Hone.
  { intros k (e & He & Ek)%H Hall. split; [|by destruct b.2; [apply elem_of_nil in He|]]. apply Forall_forall. intros x Hx. destruct (decide (content_kind x = k)) as [|Hd]; [done|]. by destruct (Hn _ (Hall _ Hd) x Hx). }
  unfold classify_kinds. cbn [foldl].
  destruct (has _ Node) eqn:E1, (has _ Way) eqn:E2, (has _ Relation) eqn:E3; eauto; try (apply Hone; [done|]; intros [] ?; done).
  destruct b.2 as [|e es]; [done|]. exfalso. destruct (content_kind e) eqn:Ek; [eapply (Hn Node)|eapply (Hn Way)|eapply (Hn Relation)]; try done; left.
Qed.

(** ** Delivered elements *)

Definition weak_sorted (es : list ContentElement) : Prop := StronglySorted (fun x y => key_le (ekey x) (ekey y)) es.

(** The order state bounds what follows of its kind, and covers what came. *)
Definition from_last (k : ElementKind) (last : option (Z * OsmIdKey)) (es : list ContentElement) : Prop :=
  forall key e, last = Some (ordinal k, key) -> e ∈ es -> key_le key (ekey e).
Definition to_last (k : ElementKind) (es : list ContentElement) (last : option (Z * OsmIdKey)) : Prop :=
  forall e, e ∈ es -> exists key, last = Some (ordinal k, key) /\ key_le (ekey e) key.

Lemma allow_spec k last e last' :
  allow last e k = Ok last' -> content_kind e = k /\ last' = Some (ordinal k, ekey e) /\ (forall key, last = Some (ordinal k, key) -> key_le key (ekey e)).
Proof.
  unfold allow. case_bool_decide as Hk; [|done]. cbn [negb]. destruct last as [[lk key]|]; [|intros [= <-]; by split_and!].
  destruct (_ && _) eqn:E; [done|]. intros [= <-]. split_and!; try done. intros key' [= -> ->]. rewrite Z.eqb_refl in E. cbn in E. by apply key_ltb_ge.
Qed.

Lemma allow_all_spec k es : forall last last', allow_all k last es = Ok last' ->
  all_of k es /\ weak_sorted es /\ from_last k last es /\ to_last k es last' /\ (forall key, last = Some (ordinal k, key) -> exists key', last' = Some (ordinal k, key') /\ key_le key key').
Proof.
  induction es as [|e es IH]; intros last last'; cbn [allow_all].
  { intros [= <-]. split_and!; [constructor|constructor|by intros ? ? ? ?%elem_of_nil|by intros ? ?%elem_of_nil|]. intros key ->. eexists. split; [done|apply key_le_refl]. }
  destruct (allow last e k) as [l|] eqn:Ea; [|done]. cbn [mbind result_bind]. intros H. destruct (allow_spec _ _ _ _ Ea) as (Hk & -> & Hle).
  destruct (IH _ _ H) as (H1 & H2 & H3 & H4 & H5). destruct (H5 _ eq_refl) as (key' & -> & Hk'). split_and!.
  - by constructor.
  - constructor; [done|]. apply Forall_forall. intros y Hy. by eapply H3.
  - intros key x Hl [->|Hx]%elem_of_cons; [by apply Hle|]. eapply key_le_trans; [by apply Hle|]. by eapply H3.
  - intros x [->|Hx]%elem_of_cons; [by eexists|by apply H4].
  - intros key Hl. eexists. split; [done|]. eapply key_le_trans; [by apply Hle|done].
Qed.

(** A view that is over, or goes on with a later kind. *)
Definition past (k : ElementKind) (v : View) : Prop :=
  match v with [] => True | Ok b :: _ => exists x, element_kinds b = KindsOne x /\ ordinal k < ordinal x | Err _ :: _ => False end.
Definition decoded (v : View) : Prop := Forall (fun r => exists b, r = Ok b) v.

Record delivered (k : ElementKind) (last : option (Z * OsmIdKey)) (v : View) (es : list ContentElement) (v' : View) (last' : option (Z * OsmIdKey)) : Prop := mkDelivered {
  dl_view : exists v1, v = v1 ++ v' /\ velems v1 = es /\ decoded v1;
  dl_kind : all_of k es;
  dl_past : past k v';
  dl_sorted : weak_sorted es;
  dl_from : from_last k last es }.

Lemma delivered_block k last b v l es v' last' :
  allow_all k last b.2 = Ok l -> delivered k l v es v' last' -> delivered k last (Ok b :: v) (b.2 ++ es) v' last'.
Proof.
  intros Ha [(v1 & -> & <- & Hd) Hk Hp Hs Hf]. destruct (allow_all_spec _ _ _ _ Ha) as (H1 & H2 & H3 & H4 & H5). constructor.
  - exists (Ok b :: v1). split_and!; [done|done|]. constructor; [by eexists|done].
  - by apply Forall_app.
  - done.
  - apply StronglySorted_app_intro; try done. intros x y Hx Hy. destruct (H4 x Hx) as (key & Hl & Hle). eapply key_le_trans; [done|]. by eapply Hf.
  - intros key e Hl [He|He]%elem_of_app; [by eapply H3|]. destruct (H5 key Hl) as (key' & Hl' & Hle). eapply key_le_trans; [done|]. by eapply Hf.
Qed.

Lemma phase_rest_sound k v : forall last es v' last', phase_rest k last v = Ok (es, (v', last')) -> delivered k last v es v' last'.
Proof.
  assert (forall last, delivered k last [] [] [] last) as Hnil.
  { intros last. constructor; [exists []; split_and!; [done|done|constructor]|constructor|done|constructor|by intros ? ? ? ?%elem_of_nil]. }
  induction v as [|[b|e] v IH]; intros last es v' last'; cbn [phase_rest]; [by intros [= <- <- <-]| |done].
  assert ((l ← allow_all k last b.2; prepend b.2 (phase_rest k l v)) = Ok (es, (v', last')) -> delivered k last (Ok b :: v) es v' last') as Htake.
  { destruct (allow_all k last b.2) as [l|] eqn:Ea; [|done]. cbn [mbind result_bind]. intros H. pose proof (prepend_ok b.2 (phase_rest k l v)) as Hp. rewrite H in Hp.
    destruct Hp as (r & Hr & ->). eapply delivered_block; [done|]. by apply IH. }
  destruct (decide (block_type_kind b.1 = Some k)); [exact Htake|]. pose proof (element_kinds_spec b) as Hb. destruct (element_kinds b) as [|x|] eqn:Ek; [| |done].
  - intros H. assert (es = b.2 ++ es) as -> by (by rewrite Hb). eapply delivered_block; [by rewrite Hb|]. by apply IH.
  - destruct (decide (x = k)); [exact Htake|]. destruct (Z.ltb_spec (ordinal k) (ordinal x)); [|done]. intros [= <- <- <-].
    constructor; [exists []; split_and!; [done|done|constructor]|constructor|cbn; eauto|constructor|by intros ? ? ? ?%elem_of_nil].
Qed.

(** ** Skipped kinds *)

Fixpoint skip_view (k : ElementKind) (v : View) : result DiffError View :=
  match v with
  | [] => Ok []
  | Err e :: _ => Err e
  | Ok b :: v' =>
      match element_kinds b with
      | KindsEmpty => skip_view k v'
      | KindsOne x => if decide (x = k) then skip_view k v' else if ordinal k <? ordinal x then Ok v else Err (UnsortedBlock x k)
      | KindsSeveral => Err MixedBlock
      end
  end.

Lemma skip_kind_spec k s :
  match skip_view k (view s) with Err e => skip_kind s k = Err e | Ok v => exists s', skip_kind s k = Ok s' /\ state s' = (v, sb_last s) end.
Proof.
  unfold skip_kind. generalize (view_length s). generalize (blocks_left s). intros fuel. revert s.
  induction fuel as [|fuel IH]; intros s Hf; [lia|]. cbn [skip_loop]. pose proof (next_block_spec s) as Hn. unfold state. destruct (view s) as [|[b|e] v] eqn:Ev; cbn [skip_view].
  - destruct Hn as (s' & -> & E & Hl & _). cbn [mbind result_bind]. exists s'. by rewrite E, Hl.
  - destruct Hn as (s' & -> & E & [Hl Hs] & Hst). cbn [mbind result_bind]. specialize (IH s' ltac:(rewrite E; cbn in Hf; lia)). rewrite E, Hl in IH.
    destruct (element_kinds b) as [|x|]; [done| |done]. destruct (decide (x = k)); [done|]. destruct (ordinal k <? ordinal x); [|done].
    destruct (stash_spec s s' b v 0 Hst E) as [E2 [Hs2 _]]; [split; [done|lia]|]. eexists. split; [done|]. by rewrite E2, Hs2.
  - by rewrite Hn.
Qed.

Lemma skip_view_sound k v v' : skip_view k v = Ok v' -> exists v1, v = v1 ++ v' /\ all_of k (velems v1) /\ decoded v1 /\ past k v'.
Proof.
  induction v as [|[b|e] v IH]; cbn [skip_view]; [intros [= <-]; exists []; split_and!; try done; constructor| |done].
  pose proof (element_kinds_spec b) as Hb. assert (all_of k b.2 -> skip_view k v = Ok v' -> exists v1, Ok b :: v = v1 ++ v' /\ all_of k (velems v1) /\ decoded v1 /\ past k v') as Hskip.
  { intros Hk (v1 & -> & H1 & H2 & H3)%IH. exists (Ok b :: v1). split_and!; [done|by apply Forall_app|constructor; [by eexists|done]|done]. }
  destruct (element_kinds b) as [|x|] eqn:Ek; [apply Hskip; rewrite Hb; constructor| |done]. destruct (decide (x = k)) as [->|]; [apply Hskip, Hb|].
  destruct (Z.ltb_spec (ordinal k) (ordinal x)); [|done]. intros [= <-]. exists []. split_and!; [done|constructor|constructor|cbn; eauto].
Qed.

(** ** The three phases *)

Definition stream_elements (k : ElementKind) (file : list RawFrame) : list ContentElement := filter (fun e => content_kind e = k) (velems (data_blocks (tail file))).

Definition selected (f : TypeFilter) : list ElementKind := (filter (fun p => p.2 = true) (diff_phases f)).*1.

(** One side through a phase, merged or skipped. *)
Definition side_phase (k : ElementKind) (on : bool) (s : StreamingBlocks) (es : list ContentElement) (s' : StreamingBlocks) : Prop :=
  exists v1, view s = v1 ++ view s' /\ velems v1 = es /\ decoded v1 /\ all_of k es /\ past k (view s') /\ (on = true -> weak_sorted es).

Lemma phase_sound k on phases old new acts :
  stream_phases ((k, on) :: phases) old new = Ok acts ->
  exists old' new' eo en rest, side_phase k on old eo old' /\ side_phase k on new en new' /\ stream_phases phases old' new' = Ok rest /\
    acts = (if on then pair k <$> join eo en else []) ++ rest.
Proof.
  cbn [stream_phases]. destruct on.
  - pose proof (stream_phase_spec k old new) as H. unfold merges in H.
    destruct (phase_rest k (sb_last old) (view old)) as [[eo [vo lo]]|] eqn:Eo, (phase_rest k (sb_last new) (view new)) as [[en [vn ln]]|] eqn:En; try (by destruct H as (? & -> & _)).
    destruct H as (old' & new' & -> & So & Sn). cbn [mbind result_bind app]. unfold state in *. injection So as <- <-. injection Sn as <- <-.
    destruct (stream_phases phases old' new') as [rest|] eqn:Er; [|done]. cbn [mbind result_bind]. intros [= <-].
    apply phase_rest_sound in Eo as [(vo1 & ? & ? & ?) ? ? ? _], En as [(vn1 & ? & ? & ?) ? ? ? _]. exists old', new', eo, en, rest. split_and!; try done; eexists; by split_and!.
  - pose proof (skip_kind_spec k old) as Ho. pose proof (skip_kind_spec k new) as Hn. destruct (skip_view k (view old)) as [vo|] eqn:Eo; [|by rewrite Ho].
    destruct Ho as (old' & -> & So). cbn [mbind result_bind]. destruct (skip_view k (view new)) as [vn|] eqn:En; [|by rewrite Hn]. destruct Hn as (new' & -> & Sn). cbn [mbind result_bind].
    unfold state in *. injection So as <- _. injection Sn as <- _. intros Hr. apply skip_view_sound in Eo as (vo1 & ? & ? & ? & ?), En as (vn1 & ? & ? & ? & ?).
    exists old', new', (velems vo1), (velems vn1), acts. split_and!; try done; eexists; by split_and!.
Qed.

Lemma past_all v : past Relation v -> v = [].
Proof. destruct v as [|[b|e] v]; [done| |done]. cbn. intros ([] & _ & H); cbn in H; lia. Qed.

Lemma filter_all_of k es : all_of k es -> filter (fun e => content_kind e = k) es = es.
Proof. induction 1; [done|]. rewrite filter_cons_True by done. by f_equal. Qed.
Lemma filter_none_of k k' es : all_of k' es -> k <> k' -> filter (fun e => content_kind e = k) es = [].
Proof. intros H Hne. induction H; [done|]. by rewrite filter_cons_False by congruence. Qed.

(** A side through all three phases has given its whole file. *)
Lemma side_whole f file s1 s2 s3 en ew er :
  side_phase Node (nodes f) (stream_open file) en s1 -> side_phase Way (ways f) s1 ew s2 -> side_phase Relation (relations f) s2 er s3 ->
  decoded (data_blocks (tail file)) /\ stream_elements Node file = en /\ stream_elements Way file = ew /\ stream_elements Relation file = er.
Proof.
  intros (v1 & E1 & <- & D1 & K1 & _ & _) (v2 & E2 & <- & D2 & K2 & _ & _) (v3 & E3 & <- & D3 & K3 & P3 & _). apply past_all in P3. rewrite P3 in E3.
  unfold stream_elements. assert (data_blocks (tail file) = v1 ++ v2 ++ v3 ++ []) as -> by (rewrite <- E3, <- E2, <- E1; done).
  rewrite app_nil_r. split; [by repeat (apply Forall_app; split)|]. rewrite !velems_app, !filter_app.
  rewrite !(filter_all_of _ _ K1), !(filter_all_of _ _ K2), !(filter_all_of _ _ K3), !(filter_none_of _ Node _ K1), !(filter_none_of _ Way _ K2), !(filter_none_of _ Relation _ K3) by done.
  by rewrite !app_nil_r.
Qed.

Lemma selected_cases f : selected f = (if nodes f then [Node] else []) ++ (if ways f then [Way] else []) ++ (if relations f then [Relation] else []).
Proof. by destruct f as [[] [] []]. Qed.

Lemma concat_if {A B} (g : A -> list B) (b : bool) x : concat (g <$> (if b then [x] else [])) = if b then g x else [].
Proof. destruct b; [|done]. cbn. apply app_nil_r. Qed.

Lemma stream_sound (f : TypeFilter) (old new : list RawFrame) (acts : list (ElementKind * Action)) :
  diff_element_stream f old new = Ok acts ->
  decoded (data_blocks (tail old)) /\ decoded (data_blocks (tail new)) /\
  acts = concat ((fun k => pair k <$> join (stream_elements k old) (stream_elements k new)) <$> selected f) /\
  Forall (fun k => weak_sorted (stream_elements k old) /\ weak_sorted (stream_elements k new)) (selected f).
Proof.
  unfold diff_element_stream, diff_phases. intros (o1 & n1 & eo1 & en1 & r1 & So1 & Sn1 & (o2 & n2 & eo2 & en2 & r2 & So2 & Sn2 & (o3 & n3 & eo3 & en3 & r3 & So3 & Sn3 & H3 & ->)%phase_sound & ->)%phase_sound & ->)%phase_sound.
  injection H3 as <-. destruct (side_whole _ _ _ _ _ _ _ _ So1 So2 So3) as (Do & Eo1 & Eo2 & Eo3). destruct (side_whole _ _ _ _ _ _ _ _ Sn1 Sn2 Sn3) as (Dn & En1 & En2 & En3).
  split; [done|]. split; [done|]. rewrite selected_cases, app_nil_r. split.
  - rewrite !fmap_app, !concat_app, <- Eo1, <- Eo2, <- Eo3, <- En1, <- En2, <- En3. by rewrite !concat_if.
  - apply Forall_forall. intros k Hk. destruct So1 as (_ & _ & _ & _ & _ & _ & W1), So2 as (_ & _ & _ & _ & _ & _ & W2), So3 as (_ & _ & _ & _ & _ & _ & W3).
    destruct Sn1 as (_ & _ & _ & _ & _ & _ & X1), Sn2 as (_ & _ & _ & _ & _ & _ & X2), Sn3 as (_ & _ & _ & _ & _ & _ & X3).
    rewrite !elem_of_app in Hk. destruct Hk as [Hk|[Hk|Hk]]; [destruct (nodes f)|destruct (ways f)|destruct (relations f)]; try (by apply elem_of_nil in Hk); apply list_elem_of_singleton in Hk as ->;
      rewrite ?Eo1, ?Eo2, ?Eo3, ?En1, ?En2, ?En3; auto.
Qed.

(** C26. A streaming diff that succeeds has missed nothing: if the run over two
    files without indexdata returns, every data block of both files decoded, the
    elements of each selected kind are in canonical order in both files, and the
    actions are, kind by kind, exactly the merge of all elements of that kind in
    the one file with all of them in the other, wherever in the file they were. *)
Theorem diff_stream_sound (f : TypeFilter) (old new : list RawFrame) (acts : list (ElementKind * Action)) :
  diff_element_stream f old new = Ok acts ->
  decoded (data_blocks (tail old)) /\ decoded (data_blocks (tail new)) /\
  acts = concat ((fun k => pair k <$> join (stream_elements k old) (stream_elements k new)) <$> selected f) /\
  Forall (fun k => weak_sorted (stream_elements k old) /\ weak_sorted (stream_elements k new)) (selected f).
Proof. apply stream_sound. Qed.

(** ** Honest files *)

(** Blocks of one kind each, their block types not lying, in order. *)
Record honest_blocks (bs : list SBlock) : Prop := mkHonestBlocks {
  hb_one : Forall (fun b => exists k, element_kinds b = KindsOne k /\ (forall k', block_type_kind b.1 = Some k' -> k' = k)) bs;
  hb_sorted : StronglySorted type_lt (concat bs.*2) }.

Definition kinds_from (P : ElementKind -> Prop) (bs : list SBlock) : Prop := forall b k, b ∈ bs -> element_kinds b = KindsOne k -> P k.

Lemma elem_of_concat {A} (x : A) l ls : x ∈ l -> l ∈ ls -> x ∈ concat ls.
Proof. intros Hx. induction ls as [|m ls IH]; [by intros ?%elem_of_nil|]. cbn. rewrite elem_of_app. intros [->|Hl]%elem_of_cons; auto. Qed.

Lemma honest_blocks_cons b bs : honest_blocks (b :: bs) -> honest_blocks bs /\ elem_sorted b.2 /\ exists k, element_kinds b = KindsOne k /\ all_of k b.2 /\
  (forall k', block_type_kind b.1 = Some k' -> k' = k) /\ kinds_from (fun x => ordinal k <= ordinal x) bs /\
  (forall x y, x ∈ b.2 -> y ∈ concat bs.*2 -> content_kind y = k -> elem_lt x y).
Proof.
  intros [Ho Hs]. apply Forall_cons in Ho as [(k & Ek & Ht) Ho]. cbn in Hs. apply StronglySorted_app_le in Hs as (Sb & Hs & Hlt). pose proof (element_kinds_spec b) as Hb. rewrite Ek in Hb. destruct Hb as [Hk Hne].
  unfold all_of in Hk. rewrite Forall_forall in Hk. split; [by constructor|]. split.
  { clear - Sb Hk. unfold elem_sorted. induction Sb as [|x es Sb IH Hx]; [constructor|]. constructor; [apply IH; intros y Hy; apply Hk; by right|].
    apply Forall_forall. intros y Hy. rewrite Forall_forall in Hx. destruct (Hx y Hy) as [H|[_ H]]; [|done]. rewrite (Hk x), (Hk y) in H; [lia|by right|left]. }
  exists k. split; [done|]. split; [by apply Forall_forall|]. split; [done|]. split.
  - intros c x Hc Ex. pose proof (element_kinds_spec c) as Hcs. rewrite Ex in Hcs. destruct Hcs as [Hcx Hcne]. destruct c as [t ces]. cbn in *. destruct ces as [|y ces]; [done|].
    apply Forall_cons in Hcx as [<- _]. destruct (b.2) as [|z zs] eqn:Eb; [done|]. rewrite <- (Hk z) by left. destruct (Hlt z y) as [H|[-> _]]; [left| |lia|lia].
    apply (elem_of_concat _ (y :: ces)); [left|]. by apply (list_elem_of_fmap_2 snd) in Hc.
  - intros x y Hx Hy Hky. destruct (Hlt x y Hx Hy) as [H|[_ H]]; [|done]. rewrite (Hk x Hx), Hky in H. lia.
Qed.

Lemma allow_all_ok k es : forall last, all_of k es -> weak_sorted es -> from_last k last es ->
  exists last', allow_all k last es = Ok last' /\ (es = [] -> last' = last) /\ (es <> [] -> exists e, e ∈ es /\ last' = Some (ordinal k, ekey e)).
Proof.
  induction es as [|e es IH]; intros last Hk Hs Hf; [by exists last|]. apply Forall_cons in Hk as [He Hk]. apply StronglySorted_inv in Hs as [Hs Hle]. cbn [allow_all].
  assert (allow last e k = Ok (Some (ordinal k, ekey e))) as ->.
  { unfold allow. rewrite bool_decide_eq_true_2 by done. cbn [negb]. destruct last as [[lk key]|]; [|done]. destruct (Z.eqb_spec lk (ordinal k)) as [->|]; [|done]. cbn [andb].
    assert (key_ltb (osm_id_key (content_id e)) key = false) as ->; [|done]. apply key_ltb_ge. apply (Hf key e eq_refl). left. }
  cbn [mbind result_bind]. destruct (IH (Some (ordinal k, ekey e)) Hk Hs) as (l & -> & Hnil & Hcons).
  { intros key x [= <-] Hx. rewrite Forall_forall in Hle. by apply Hle. }
  exists l. split; [done|]. split; [done|]. intros _. destruct es as [|x es]; [exists e; split; [left|by apply Hnil]|]. destruct (Hcons ltac:(done)) as (y & Hy & ->). exists y. split; [by right|done].
Qed.

Definition last_fits (k : ElementKind) (last : option (Z * OsmIdKey)) (es : list ContentElement) : Prop :=
  forall o key, last = Some (o, key) -> o <= ordinal k /\ (o = ordinal k -> forall e, e ∈ es -> content_kind e = k -> key_le key (ekey e)).

Lemma phase_ok k bs : forall last, honest_blocks bs -> kinds_from (fun x => ordinal k <= ordinal x) bs -> last_fits k last (concat bs.*2) ->
  exists es bs' last' pre, phase_rest k last (Ok <$> bs) = Ok (es, (Ok <$> bs', last')) /\ bs = pre ++ bs' /\
    kinds_from (fun x => ordinal k < ordinal x) bs' /\ (forall o key, last' = Some (o, key) -> o <= ordinal k).
Proof.
  induction bs as [|b bs IH]; intros last Hh Hk Hl.
  { exists [], [], last, []. split_and!; try done; [by intros ? ? ?%elem_of_nil|]. intros o key Hlo. by destruct (Hl o key Hlo). }
  destruct (honest_blocks_cons _ _ Hh) as (Hh' & Sb & x & Ex & Kx & Ht & Hasc & Hlt). assert (ordinal k <= ordinal x) as Hkx by (apply (Hk b x); [left|done]).
  cbn [fmap list_fmap phase_rest]. rewrite Ex. destruct (decide (x = k)) as [->|Hne].
  - assert (weak_sorted b.2) as Wb. { clear - Sb. unfold weak_sorted, elem_sorted in *. induction Sb as [|y es Sb IH Hy]; constructor; [done|]. eapply Forall_impl; [done|]. intros z Hz. by apply id_lt_le in Hz. }
    assert (from_last k last b.2) as Fb. { intros key e Hlk He. destruct (Hl _ _ Hlk) as [_ H]. apply H; [done| |unfold all_of in Kx; rewrite Forall_forall in Kx; by apply Kx]. cbn. apply elem_of_app. by left. }
    destruct (allow_all_ok k b.2 last Kx Wb Fb) as (l & Hal & Hnil & Hcons). pose proof (element_kinds_spec b) as Hb. rewrite Ex in Hb. destruct (Hcons (proj2 Hb)) as (z & Hz & ->).
    destruct (IH (Some (ordinal k, ekey z)) Hh') as (es & bs' & l' & pre & E & -> & Hk' & Hl'); [intros c y Hc; apply Hk; by right| |].
    { intros o key [= <- <-]. split; [lia|]. intros _ e He Hek. apply id_lt_le. by apply (Hlt z e). }
    exists (b.2 ++ es), bs', l', (b :: pre). split_and!; try done. rewrite Hal. cbn [mbind result_bind]. rewrite E. by destruct (decide _).
  - assert (ordinal k < ordinal x) as Hlt' by (destruct k, x; cbn in *; try done; lia). destruct (decide (block_type_kind b.1 = Some k)) as [Hd|_]; [by apply Ht in Hd|].
    destruct (Z.ltb_spec (ordinal k) (ordinal x)); [|lia]. exists [], (b :: bs), last, []. split_and!; try done.
    + intros c y Hc Ey. apply elem_of_cons in Hc as [->|Hc]; [rewrite Ex in Ey; by injection Ey as <-|]. specialize (Hasc c y Hc Ey). cbv beta in Hasc. lia.
    + intros o key Hlo. by destruct (Hl o key Hlo).
Qed.

Lemma skip_ok k bs : honest_blocks bs -> kinds_from (fun x => ordinal k <= ordinal x) bs ->
  exists bs' pre, skip_view k (Ok <$> bs) = Ok (Ok <$> bs') /\ bs = pre ++ bs' /\ kinds_from (fun x => ordinal k < ordinal x) bs'.
Proof.
  induction bs as [|b bs IH]; intros Hh Hk; [exists [], []; split_and!; try done; by intros ? ? ?%elem_of_nil|].
  destruct (honest_blocks_cons _ _ Hh) as (Hh' & _ & x & Ex & _ & _ & Hasc & _). assert (ordinal k <= ordinal x) as Hkx by (apply (Hk b x); [left|done]).
  cbn [fmap list_fmap skip_view]. rewrite Ex. destruct (decide (x = k)) as [->|Hne].
  - destruct (IH Hh') as (bs' & pre & E & -> & Hk'); [intros c y Hc; apply Hk; by right|]. by exists bs', (b :: pre).
  - assert (ordinal k < ordinal x) as Hlt' by (destruct k, x; cbn in *; try done; lia). destruct (Z.ltb_spec (ordinal k) (ordinal x)); [|lia]. exists (b :: bs), []. split_and!; try done.
    intros c y Hc Ey. apply elem_of_cons in Hc as [->|Hc]; [rewrite Ex in Ey; by injection Ey as <-|]. specialize (Hasc c y Hc Ey). cbv beta in Hasc. lia.
Qed.

(** A source that can go through the phases. *)
Definition ready (phases : list (ElementKind * bool)) (s : StreamingBlocks) : Prop :=
  exists bs, view s = Ok <$> bs /\ honest_blocks bs /\ kinds_from (fun x => x ∈ phases.*1) bs /\
    (forall k o key, k ∈ phases.*1 -> sb_last s = Some (o, key) -> o < ordinal k).

Lemma honest_blocks_app a b : honest_blocks (a ++ b) -> honest_blocks b.
Proof. intros [Ho Hs]. apply Forall_app in Ho as [_ ?]. rewrite fmap_app, concat_app in Hs. apply StronglySorted_app_le in Hs as (_ & ? & _). by constructor. Qed.

Lemma ready_next k on phases s s' bs pre bs' :
  StronglySorted (fun a b => ordinal a < ordinal b) ((k, on) :: phases).*1 -> honest_blocks bs -> kinds_from (fun x => x ∈ ((k, on) :: phases).*1) bs ->
  view s' = Ok <$> bs' -> bs = pre ++ bs' -> kinds_from (fun x => ordinal k < ordinal x) bs' ->
  (forall o key, sb_last s' = Some (o, key) -> o <= ordinal k \/ sb_last s = Some (o, key)) -> (forall k' o key, k' ∈ ((k, on) :: phases).*1 -> sb_last s = Some (o, key) -> o < ordinal k') ->
  ready phases s'.
Proof.
  intros Hs Hh Hk Hv -> Hgt Hl Hls. apply StronglySorted_inv in Hs as [_ Hs]. exists bs'. split_and!; [done|by eapply honest_blocks_app| |].
  - intros b x Hb Ex. specialize (Hgt b x Hb Ex). cbv beta in Hgt. specialize (Hk b x ltac:(rewrite elem_of_app; by right) Ex). cbv beta in Hk. cbn in Hk. apply elem_of_cons in Hk as [->|]; [lia|done].
  - intros k' o key Hk' Hlo. rewrite Forall_forall in Hs. specialize (Hs k' Hk'). cbv beta in Hs. cbn in Hs. destruct (Hl o key Hlo) as [|H]; [lia|]. apply (Hls k' o key); [by right|done].
Qed.

Lemma stream_phases_ok phases : StronglySorted (fun a b => ordinal a < ordinal b) phases.*1 -> forall old new, ready phases old -> ready phases new -> exists acts, stream_phases phases old new = Ok acts.
Proof.
  induction phases as [|[k on] phases IH]; intros Hs old new (bo & Vo & Ho & Ko & Lo) (bn & Vn & Hn & Kn & Ln); [by eexists|].
  pose proof (proj1 (StronglySorted_inv Hs)) as Hs'. pose proof (proj2 (StronglySorted_inv Hs)) as Hlt. rewrite Forall_forall in Hlt.
  assert (forall bs, kinds_from (fun x => x ∈ ((k, on) :: phases).*1) bs -> kinds_from (fun x => ordinal k <= ordinal x) bs) as Hge.
  { intros bs Hk b x Hb Ex. specialize (Hk b x Hb Ex). cbv beta in Hk. cbn in Hk. apply elem_of_cons in Hk as [->|Hk]; [lia|]. specialize (Hlt x Hk). cbv beta in Hlt. cbn in Hlt. lia. }
  cbn [stream_phases]. destruct on.
  - assert (forall s (bs : list SBlock), (forall k' o key, k' ∈ ((k, true) :: phases).*1 -> sb_last s = Some (o, key) -> o < ordinal k') -> last_fits k (sb_last s) (concat bs.*2)) as Hfit.
    { intros s bs Hl o key Hlo. specialize (Hl k o key ltac:(left) Hlo). split; lia. }
    destruct (phase_ok k bo (sb_last old) Ho (Hge _ Ko) (Hfit _ _ Lo)) as (eo & bo' & lo & po & Eo & Po & Go & To). destruct (phase_ok k bn (sb_last new) Hn (Hge _ Kn) (Hfit _ _ Ln)) as (en & bn' & ln & pn & En & Pn & Gn & Tn).
    pose proof (stream_phase_spec k old new) as Hm. rewrite Vo, Vn, Eo, En in Hm. destruct Hm as (old' & new' & -> & So & Sn). cbn [mbind result_bind]. unfold state in *. injection So as So1 So2. injection Sn as Sn1 Sn2.
    destruct (IH Hs' old' new') as [acts ->]; [| |by eexists].
    + eapply (ready_next k true phases old old' bo po bo'); try done. intros o key Hlo. left. apply (To o key). congruence.
    + eapply (ready_next k true phases new new' bn pn bn'); try done. intros o key Hlo. left. apply (Tn o key). congruence.
  - destruct (skip_ok k bo Ho (Hge _ Ko)) as (bo' & po & Eo & Po & Go). destruct (skip_ok k bn Hn (Hge _ Kn)) as (bn' & pn & En & Pn & Gn).
    pose proof (skip_kind_spec k old) as Hso. rewrite Vo, Eo in Hso. destruct Hso as (old' & -> & So). cbn [mbind result_bind]. pose proof (skip_kind_spec k new) as Hsn. rewrite Vn, En in Hsn. destruct Hsn as (new' & -> & Sn). cbn [mbind result_bind].
    unfold state in *. injection So as So1 So2. injection Sn as Sn1 Sn2. apply (IH Hs').
    + eapply (ready_next k false phases old old' bo po bo'); try done. intros o key Hlo. right. congruence.
    + eapply (ready_next k false phases new new' bn pn bn'); try done. intros o key Hlo. right. congruence.
Qed.

(** A block type never names a kind its block does not hold. *)
Definition typed (file : list RawFrame) : Prop :=
  forall x es k, x ∈ tail file -> rf_data x = true -> rf_block x = Ok es -> block_type_kind (rf_type x) = Some k -> all_of k es.

Lemma one_kind t es k : all_of k es -> es <> [] -> element_kinds (t, es) = KindsOne k.
Proof.
  intros Hk Hne. pose proof (element_kinds_spec (t, es)) as H. destruct (element_kinds (t, es)) as [|x|]; cbn in H; [done| |by destruct (H k)].
  destruct H as [Hx _]. destruct es as [|e es]; [done|]. apply Forall_cons in Hk as [<- _], Hx as [<- _]. done.
Qed.

Lemma honest_view pb file : honest_file pb file -> typed file -> exists bs, data_blocks (tail file) = Ok <$> bs /\ honest_blocks bs /\ concat bs.*2 = blocks (file_frames file).
Proof.
  unfold typed, file_frames. intros [Hi [Hg Hs]] Ht. unfold file_frames in *. revert Hi Hg Hs Ht. generalize (tail file). clear file. intros r Hi Hg Hs Ht.
  assert (exists bs, data_blocks r = Ok <$> bs /\ Forall (fun b => exists k, element_kinds b = KindsOne k /\ (forall k', block_type_kind b.1 = Some k' -> k' = k)) bs /\ concat bs.*2 = blocks (data_frames r)) as (bs & E1 & E2 & E3).
  2: { exists bs. split_and!; try done. constructor; [done|]. by rewrite E3. }
  clear Hs. induction r as [|x r IH]; [by exists []|]. apply Forall_cons in Hi as [Hx Hi]. rewrite data_frames_cons in *. rewrite data_blocks_cons. unfold data_frame, data_block in *.
  destruct (rf_data x) eqn:Ed; [|cbn in *; apply IH; try done; intros y es k Hy; apply Ht; by right].
  destruct (Hx eq_refl) as [ix Eix]. rewrite Eix in *. cbn [fmap option_fmap option_map option_list app] in *. apply Forall_cons in Hg as [[Gf _] Hg].
  destruct IH as (bs & E1 & E2 & E3); [done|done|intros y es k Hy; apply Ht; by right|]. pose proof (good_block _ _ _ Gf) as Hb. cbn in Hb. pose proof (good_kinds _ _ _ Gf) as Hk.
  destruct (claim_nonempty _ _ (good_claim _ _ _ Gf)) as [_ Hne]. set (es := frame_block (with_body ix x)) in *. exists ((rf_type x, es) :: bs). split_and!; [by rewrite Hb, E1| |cbn [fmap list_fmap concat snd]; by rewrite E3].
  assert (all_of (kind_at (with_body ix x)) es) as Hall by (eapply Forall_impl; [exact Hk|]; by intros ? [? _]).
  constructor; [|done]. exists (kind_at (with_body ix x)). split; [by apply one_kind|]. intros k' Hk'. cbn in Hk'. pose proof (Ht x es k' ltac:(left) Ed Hb Hk') as H.
  destruct es as [|e l]; [done|]. apply Forall_cons in H as [<- _], Hall as [? _]. done.
Qed.

Lemma stream_honest pb f old new : honest_file pb old -> honest_file pb new -> typed old -> typed new -> exists acts, diff_element_stream f old new = Ok acts.
Proof.
  intros Ho Hn To Tn. unfold diff_element_stream. apply stream_phases_ok.
  - cbn. repeat constructor; cbn; lia.
  - destruct (honest_view _ _ Ho To) as (bs & E & Hb & _). exists bs. split_and!; try done. intros b x _ _. destruct x; cbn; set_solver.
  - destruct (honest_view _ _ Hn Tn) as (bs & E & Hb & _). exists bs. split_and!; try done. intros b x _ _. destruct x; cbn; set_solver.
Qed.

Definition sample_acts : list (ElementKind * Action) :=
  [(Node, ElementEqual (sample_node (-1) 3)); (Node, ElementEqual (sample_node 1 4)); (Node, ElementModified (sample_node 4 8) (sample_node 4 7));
   (Node, ElementOldOnly (sample_node 5 9)); (Node, ElementNewOnly (sample_node 6 9))].

Lemma diff_stream_sound_witness :
  decoded (data_blocks (tail sample_old)) /\ decoded (data_blocks (tail sample_new)) /\
  sample_acts = concat ((fun k => pair k <$> join (stream_elements k sample_old) (stream_elements k sample_new)) <$> selected (mkFilter true false true)) /\
  Forall (fun k => weak_sorted (stream_elements k sample_old) /\ weak_sorted (stream_elements k sample_new)) (selected (mkFilter true false true)).
Proof. apply (diff_stream_sound (mkFilter true false true) sample_old sample_new sample_acts). vm_compute. reflexivity. Defined.
