(* ===== verification/DiffText.v ===== *)
(** * The text diff prints the same whichever path found it (src/src/commands/diff/mod.rs)

    Both paths hand their actions to one sink, which counts them and prints a
    line per element. On honest files the indexed diff and the streaming diff
    give it actions that print the same text and count the same, at any cut into
    units and whichever blobs were equal ([diff_paths_agree]). *)

From stdpp Require Import pretty.
From S2P Require Import Prelude ElementKind Block OsmId BlobMeta SortedDiff Content DiffJoin DiffPair DiffMerge DiffUnits DiffPlan DiffRun DiffStream DiffAgree DiffSound.

(** ** The sink *)

Record DiffStats := mkStats { common : Z; created : Z; modified : Z; deleted : Z }.
Definition DiffStats_default : DiffStats := mkStats 0 0 0 0.
Definition has_differences (s : DiffStats) : bool := (0 <? created s) || (0 <? modified s) || (0 <? deleted s).

Record DiffOptions := mkOptions { suppress_common : bool; verbose : bool; type_filter : TypeFilter }.

Open Scope string_scope.

Definition version_suffix (v : option Z) : string := match v with Some v => " v" +:+ pretty v | None => "" end.

Definition compact_line (prefix : string) (k : ElementKind) (id : Z) (version : option Z) : string :=
  prefix +:+ type_char k +:+ pretty id +:+ version_suffix version.

Definition modified_line (k : ElementKind) (id : Z) (old_version new_version : option Z) : string :=
  "*" +:+ type_char k +:+ pretty id +:+
  match old_version, new_version with
  | Some ov, Some nv => if decide (ov = nv) then " v" +:+ pretty nv else " v" +:+ pretty ov +:+ " -> v" +:+ pretty nv
  | _, Some v => " v" +:+ pretty v
  | Some v, None => " v" +:+ pretty v
  | None, None => ""
  end.

Close Scope string_scope.

Section Sink.
(** The version an element claims, and the detail lines of a modification: read
    from the elements, whose metadata content does not hold. *)
Context (version : ContentElement -> option Z) (details : ContentElement -> ContentElement -> list string).
Context (options : DiffOptions).

Definition element_line (prefix : string) (k : ElementKind) (e : ContentElement) : string := compact_line prefix k (content_id e) (version e).

(** [DiffSink::record]: the lines printed and the counts *)
Definition record (k : ElementKind) (a : Action) (s : DiffStats) : list string * DiffStats :=
  match a with
  | BlobEqual n => ([], mkStats (common s + n) (created s) (modified s) (deleted s))
  | BlobOldOnly r => (element_line "-" k <$> run_elements r, mkStats (common s) (created s) (modified s) (deleted s + run_count r))
  | BlobNewOnly r => (element_line "+" k <$> run_elements r, mkStats (common s) (created s + run_count r) (modified s) (deleted s))
  | ElementEqual e =>
      (if suppress_common options then [] else [element_line " " k e], mkStats (common s + 1) (created s) (modified s) (deleted s))
  | ElementModified o n =>
      (modified_line k (content_id o) (version o) (version n) :: (if verbose options then details o n else []),
       mkStats (common s) (created s) (modified s + 1) (deleted s))
  | ElementOldOnly o => ([element_line "-" k o], mkStats (common s) (created s) (modified s) (deleted s + 1))
  | ElementNewOnly n => ([element_line "+" k n], mkStats (common s) (created s + 1) (modified s) (deleted s))
  end.

Fixpoint record_all (acts : list (ElementKind * Action)) (s : DiffStats) : list string * DiffStats :=
  match acts with
  | [] => ([], s)
  | (k, a) :: acts =>
      let '(lines, s) := record k a s in
      let '(more, s) := record_all acts s in
      (lines ++ more, s)
  end.

(** [diff_block_pair]: the byte-equal shortcut only where common elements are
    not printed *)
Definition diff_block_pair (old new : list RawFrame) : result DiffError (list string * DiffStats) :=
  acts ← run_units (suppress_common options) DIFF_UNIT_TARGET_BYTES (selected (type_filter options)) old new;
  Ok (record_all acts DiffStats_default).

Definition diff_stream (old new : list RawFrame) : result DiffError (list string * DiffStats) :=
  acts ← diff_element_stream (type_filter options) old new;
  Ok (record_all acts DiffStats_default).

(** ** Agreement *)

Lemma record_all_app a b s : record_all (a ++ b) s = let '(l1, s1) := record_all a s in let '(l2, s2) := record_all b s1 in (l1 ++ l2, s2).
Proof.
  revert s. induction a as [|[k a] l IH]; intros s; cbn [app record_all]; [by destruct (record_all b s)|]. destruct (record k a s) as [l1 s1]. rewrite IH.
  destruct (record_all l s1) as [l2 s2]. destruct (record_all b s2) as [l3 s3]. by rewrite app_assoc.
Qed.

Lemma record_olds k es s : record_all (pair k <$> (ElementOldOnly <$> es)) s = (element_line "-" k <$> es, mkStats (common s) (created s) (modified s) (deleted s + Z.of_nat (length es))).
Proof.
  revert s. induction es as [|e es IH]; intros s; cbn [fmap list_fmap record_all record length]; [destruct s; cbn; f_equal; f_equal; lia|]. rewrite IH. cbn. f_equal. f_equal. lia.
Qed.
Lemma record_news k es s : record_all (pair k <$> (ElementNewOnly <$> es)) s = (element_line "+" k <$> es, mkStats (common s) (created s + Z.of_nat (length es)) (modified s) (deleted s)).
Proof.
  revert s. induction es as [|e es IH]; intros s; cbn [fmap list_fmap record_all record length]; [destruct s; cbn; f_equal; f_equal; lia|]. rewrite IH. cbn. f_equal. f_equal. lia.
Qed.
Lemma record_equals k es s : suppress_common options = true ->
  record_all (pair k <$> (ElementEqual <$> es)) s = ([], mkStats (common s + Z.of_nat (length es)) (created s) (modified s) (deleted s)).
Proof.
  intros Hc. revert s. induction es as [|e es IH]; intros s; cbn [fmap list_fmap record_all record length]; [destruct s; cbn; f_equal; f_equal; lia|]. rewrite Hc, IH. cbn. f_equal. f_equal. lia.
Qed.

(** Byte-equal blobs are only there when common elements are not printed. *)
Definition no_blob_equal (acts : list Action) : Prop := Forall (fun a => forall n, a <> BlobEqual n) acts.

Lemma record_says k acts exp s :
  says acts exp -> suppress_common options = true \/ no_blob_equal acts -> record_all (pair k <$> acts) s = record_all (pair k <$> exp) s.
Proof.
  intros H. revert s. induction H as [|n es l m Hn H IH|r l m Hr H IH|r l m Hr H IH|a l m Ha H IH]; intros s Hc; [done| | | |]; rewrite ?fmap_app, ?record_all_app; cbn [fmap list_fmap record_all record].
  - destruct Hc as [Hc|Hc]; [|apply Forall_cons in Hc as [Hc _]; by destruct (Hc n)]. rewrite record_equals, <- Hn by done. by rewrite IH by auto; destruct (record_all _ _).
  - rewrite record_olds, Hr. rewrite IH by (destruct Hc as [|[_ ?]%Forall_cons]; auto). by destruct (record_all _ _).
  - rewrite record_news, Hr. rewrite IH by (destruct Hc as [|[_ ?]%Forall_cons]; auto). by destruct (record_all _ _).
  - destruct (record k a s) as [l1 s1]. by rewrite IH by (destruct Hc as [|[_ ?]%Forall_cons]; auto).
Qed.

End Sink.

(** ** Without the shortcut there is no byte-equal blob *)

Lemma no_equal_snoc acts a : no_blob_equal acts -> (forall n, a <> BlobEqual n) -> no_blob_equal (acts ++ [a]).
Proof. intros H Ha. apply Forall_app. split; [done|]. by repeat constructor. Qed.

Lemma pair_loop_no_equal fuel b : forall o n oc nc out, no_blob_equal out -> no_blob_equal (pair_loop fuel b o n oc nc out).2.
Proof.
  induction fuel as [|fuel IH]; intros o n oc nc out Ho; [done|]. cbn [pair_loop].
  assert (forall x y m, pair_action x y <> BlobEqual m) by (intros x y m; unfold pair_action; by destruct (content_equal x y)).
  repeat case_match; try done; apply IH; by apply no_equal_snoc.
Qed.

Lemma emit_no_equal s is_old out : no_blob_equal out -> no_blob_equal (emit_block s is_old out).
Proof. intros H. unfold emit_block. destruct (spent s); [done|]. apply no_equal_snoc; [done|]. by destruct is_old. Qed.

Lemma drain_no_equal is_old fuel : forall s out r, drain_loop fuel s is_old out = Ok r -> no_blob_equal out -> no_blob_equal r.
Proof.
  induction fuel as [|fuel IH]; intros s out r; cbn [drain_loop]; [by intros [= <-]|]. destruct (next_decoded s) as [[s' [st|]]|]; cbn [mbind result_bind]; [|by intros [= <-]|done].
  intros H Ho. eapply IH; [exact H|]. by apply emit_no_equal.
Qed.

Definition turn_no_equal (r : PairMerge + list Action) : Prop := match r with inl m => no_blob_equal (pm_out m) | inr out => no_blob_equal out end.

Lemma slow_no_equal m r : slow_path m = Ok r -> no_blob_equal (pm_out m) -> turn_no_equal r.
Proof.
  unfold slow_path. destruct (refill (pm_old m) _) as [[old os]|]; [|done]. cbn [mbind result_bind]. destruct (refill (pm_new m) _) as [[new ns]|]; [|done]. cbn [mbind result_bind].
  intros H Ho. destruct os as [os|], ns as [ns|].
  - destruct (blob_entirely_before _ _); [injection H as <-; by apply emit_no_equal|]. destruct (blob_entirely_before _ _); [injection H as <-; by apply emit_no_equal|].
    unfold merge_decoded_pair, element_merge_pair in H. set (up := if cmp_le _ _ then _ else _) in H. pose proof (pair_loop_no_equal (length (run_elements (state_run os)) + length (run_elements (state_run ns))) up
      (run_elements (state_run os)) (run_elements (state_run ns)) 0 0 (pm_out m) Ho) as Hl. destruct (pair_loop _ _ _ _ _ _ _) as [[[[oc nc] o] n] out]. cbn [snd] in Hl.
    destruct (check_claimed_max (bs_index os) _ _); cbn [mbind result_bind] in H; [|done]. destruct (check_claimed_max (bs_index ns) _ _); cbn [mbind result_bind] in H; [|done]. by injection H as <-.
  - injection H as <-. by apply emit_no_equal.
  - injection H as <-. by apply emit_no_equal.
  - by injection H as <-.
Qed.

Lemma step_no_equal m r : pair_step false m = Ok r -> no_blob_equal (pm_out m) -> turn_no_equal r.
Proof.
  unfold pair_step. destruct (pm_old_decoded m); [apply slow_no_equal|]. destruct (pm_new_decoded m); [apply slow_no_equal|].
  destruct (next_blob (pm_old m)) as [old [op|]], (next_blob (pm_new m)) as [new [np|]]; intros H Ho.
  - destruct (blob_entirely_before _ _); [destruct (decode old op); [|done]; injection H as <-; by apply emit_no_equal|].
    destruct (blob_entirely_before _ _); [destruct (decode new np); [|done]; injection H as <-; by apply emit_no_equal|]. cbn [mbind result_bind] in H.
    destruct (decode old op); [|done]. cbn [mbind result_bind] in H. destruct (decode new np); [|done]. cbn [mbind result_bind] in H. by apply slow_no_equal in H.
  - destruct (decode old op); [|done]. cbn [mbind result_bind] in H. destruct (drain_remaining _ _ _) eqn:E; [|done]. injection H as <-. eapply drain_no_equal; [exact E|]. by apply emit_no_equal.
  - destruct (decode new np); [|done]. cbn [mbind result_bind] in H. destruct (drain_remaining _ _ _) eqn:E; [|done]. injection H as <-. eapply drain_no_equal; [exact E|]. by apply emit_no_equal.
  - by injection H as <-.
Qed.

Lemma steps_no_equal fuel : forall m out, pair_steps fuel false m = Ok out -> no_blob_equal (pm_out m) -> no_blob_equal out.
Proof.
  induction fuel as [|fuel IH]; intros m out; cbn [pair_steps]; [done|]. destruct (pair_step false m) as [r|] eqn:E; [|done]. cbn [mbind result_bind]. intros H Ho.
  apply step_no_equal in E; [|done]. destruct r as [m'|r]; [by eapply IH|by injection H as <-].
Qed.

Lemma drive_no_equal msgs acts : drive false msgs = Ok acts -> no_blob_equal acts.*2.
Proof.
  revert acts. induction msgs as [|[u| |e] msgs IH]; intros acts; cbn [drive]; [done| |by intros [= <-]; constructor|done].
  destruct (merge_unit false u) as [a|] eqn:Ea; [|done]. cbn [mbind result_bind]. destruct (drive false msgs) as [rest|]; [|done]. cbn [mbind result_bind]. intros [= <-].
  rewrite fmap_app. apply Forall_app. split; [|by apply IH]. rewrite <- list_fmap_compose. assert (snd ∘ pair (u_kind u) <$> a = a) as -> by (clear; induction a; cbn; by f_equal).
  unfold merge_unit, block_pair_merge_phase in Ea. eapply steps_no_equal; [exact Ea|]. constructor.
Qed.

(** ** The two paths *)

Lemma no_equal_concat (kinds : list ElementKind) (actss : list (list Action)) :
  no_blob_equal (concat (zip_with (fun k a => pair k <$> a) kinds actss)).*2 -> length kinds = length actss -> Forall no_blob_equal actss.
Proof.
  revert actss. induction kinds as [|k kinds IH]; intros [|a actss] H Hl; cbn in *; try done. rewrite fmap_app in H. apply Forall_app in H as [Ha H]. constructor; [|apply IH; [done|lia]].
  rewrite <- list_fmap_compose in Ha. revert Ha. clear. unfold no_blob_equal. rewrite Forall_fmap. done.
Qed.

Lemma record_kinds version details options old new kinds actss :
  Forall2 (fun k a => says a (join (elements_of k old) (elements_of k new))) kinds actss ->
  suppress_common options = true \/ Forall no_blob_equal actss -> forall s,
  record_all version details options (concat (zip_with (fun k a => pair k <$> a) kinds actss)) s =
    record_all version details options (concat ((fun k => pair k <$> join (elements_of k old) (elements_of k new)) <$> kinds)) s.
Proof.
  induction 1 as [|k a kinds actss Hs _ IH]; intros Hc s; [done|]. cbn [zip_with concat fmap list_fmap]. rewrite !record_all_app.
  rewrite (record_says version details options k a _ s Hs) by (destruct Hc as [|[? _]%Forall_cons]; auto). destruct (record_all _ _ _ (pair k <$> join _ _) s) as [l1 s1].
  by rewrite IH by (destruct Hc as [|[_ ?]%Forall_cons]; auto).
Qed.

Lemma stream_elements_honest pb k file : honest_file pb file -> typed file -> stream_elements k file = elements_of k file.
Proof.
  intros Hh Ht. destruct (honest_view pb file Hh Ht) as (bs & E & _ & Hb). unfold stream_elements, elements_of. rewrite E, <- Hb. f_equal. unfold velems. rewrite <- list_fmap_compose. done.
Qed.

Lemma selected_sorted f : StronglySorted (fun a b => ordinal a < ordinal b) (selected f).
Proof. destruct f as [[] [] []]; cbn; repeat constructor; cbn; lia. Qed.

(** C14. The diff of two files does not depend on how it was computed: for
    honest files whose block types are not misleading, and any options, the
    indexed diff (cut into units, blobs skipped on equal bytes when common
    elements are not printed) and the streaming diff both succeed, and print the
    same lines and count the same. *)
Theorem diff_paths_agree (pb : PayloadBlock) (version : ContentElement -> option Z) (details : ContentElement -> ContentElement -> list string)
    (options : DiffOptions) (old new : list RawFrame) :
  honest_file pb old -> honest_file pb new -> typed old -> typed new ->
  exists out, diff_block_pair version details options old new = Ok out /\ diff_stream version details options old new = Ok out.
Proof.
  intros Ho Hn To Tn. unfold diff_block_pair, diff_stream.
  destruct (run_units_spec pb old new (selected (type_filter options)) (suppress_common options) Ho Hn (selected_sorted _)) as (actss & Er & Hf).
  destruct (stream_honest pb (type_filter options) old new Ho Hn To Tn) as (acts & Es). rewrite Er, Es. cbn [mbind result_bind]. eexists. split; [done|].
  apply stream_sound in Es as (_ & _ & -> & _). f_equal. symmetry. rewrite (record_kinds version details options old new _ _ Hf).
  - do 2 f_equal. apply list_fmap_ext. intros i k _. by rewrite !(stream_elements_honest pb).
  - destruct (suppress_common options) eqn:Ec; [by left|right]. eapply no_equal_concat; [|by eapply Forall2_length]. by eapply drive_no_equal.
Qed.

Lemma sample_typed_old : typed sample_old.
Proof. intros x es k Hx. cbn in Hx. rewrite !elem_of_cons in Hx. destruct Hx as [->|[->|[->|Hx]]]; [..|by apply elem_of_nil in Hx]; intros _ [= <-] [= <-]; repeat constructor. Qed.
Lemma sample_typed_new : typed sample_new.
Proof. intros x es k Hx. cbn in Hx. rewrite !elem_of_cons in Hx. destruct Hx as [->|[->|Hx]]; [..|by apply elem_of_nil in Hx]; intros _ [= <-] [= <-]; repeat constructor. Qed.

Definition sample_options : DiffOptions := mkOptions true false (mkFilter true true true).

Example sample_text :
  diff_block_pair (fun _ => Some 2) (fun _ _ => []) sample_options sample_old sample_new = Ok (["*n4 v2"; "-n5 v2"; "+n6 v2"; "-w7 v2"]%string, mkStats 2 1 1 2).
Proof. vm_compute. reflexivity. Qed.

Lemma diff_paths_agree_witness :
  exists out, diff_block_pair (fun _ => Some 2) (fun _ _ => []) sample_options sample_old sample_new = Ok out /\
    diff_stream (fun _ => Some 2) (fun _ _ => []) sample_options sample_old sample_new = Ok out.
Proof. apply (diff_paths_agree sample_payload); [apply sample_old_honest|apply sample_new_honest|apply sample_typed_old|apply sample_typed_new]. Defined.
