(* ===== verification/ApplyRewrite.v ===== *)
(** * The scanner and the workers of apply-changes

    Sources: src/src/commands/apply_changes/{classify,rewrite_block,streaming,
    scanner,descriptor,stats}.rs, with [--locations-on-ways] off.

    The scanner routes each blob of the base by its indexdata: one whose id
    range misses the diff passes through undecoded, every other goes to a worker
    ([handle_candidate]), which looks for the diff's ids among the blob's
    elements, and either passes the blob on or rewrites it, putting the creates
    that fall inside it at their sorted places.

    A frame is modelled by the elements it holds, in order ([Event]): a base
    element by kind and id, an element of the diff by kind and index into the
    kind's upserts. What the block builder and the framing do to their bytes is
    the subject of [BlockBuilder] and [BlockRoundtrip]. *)

From S2P Require Import Prelude StdSlice OsmId ElementKind BlobMeta Tally SortedDiff.

(** ** One value per kind *)

Record PerKind (A : Type) := mkPer { p_node : A; p_way : A; p_relation : A }.
Arguments mkPer {A} _ _ _.
Arguments p_node {A} _.
Arguments p_way {A} _.
Arguments p_relation {A} _.

Definition pget {A} (p : PerKind A) (k : ElementKind) : A :=
  match k with Node => p_node p | Way => p_way p | Relation => p_relation p end.

Definition pset {A} (p : PerKind A) (k : ElementKind) (a : A) : PerKind A :=
  match k with
  | Node => mkPer a (p_way p) (p_relation p)
  | Way => mkPer (p_node p) a (p_relation p)
  | Relation => mkPer (p_node p) (p_way p) a
  end.

Lemma pget_pset {A} (p : PerKind A) k a k' : pget (pset p k a) k' = if decide (k' = k) then a else pget p k'.
Proof. by destruct k, k'. Qed.

(** ** The base and the diff's elements *)

(** A blob of the base: where its frame stands in the file, its indexdata, what
    the payload scan derives for a blob without ([scan_block_ids_and_tags]), the
    length of the frame made by [reframe_raw_with_index], and its elements. *)
Record Blob := mkBlob {
  b_start : Z; b_len : Z; b_index : option BlobIndex; b_scan : option BlobIndex; b_reframed_len : Z;
  b_elems : list (ElementKind * Z) }.

Inductive Event :=
| EvBase (k : ElementKind) (id : Z)
| EvOsc (k : ElementKind) (i : nat).

#[export] Instance Event_eq_dec : EqDecision Event.
Proof. solve_decision. Defined.

Definition frame_of (b : Blob) : list Event := (fun e => EvBase e.1 e.2) <$> b_elems b.

Inductive MergeError :=
| WalkRefused (e : Error)
| ForeignKind (c : KindContradiction)
| MixedKinds (first second : ElementKind)
| OutputUnsorted (kind : ElementKind) (v : OrderViolation)
| DroppedSeq (buffered next : nat)
| Bug.

Definition walk_result {A} (r : result Error A) : result MergeError A :=
  match r with Ok a => Ok a | Err e => Err (WalkRefused e) end.

(** ** [MergeStats]: the element and blob counts *)

Record MergeStats := mkStats {
  ms_base : PerKind Z; ms_diff : PerKind Z; ms_deleted : Z;
  ms_blobs_passthrough : Z; ms_blobs_rewritten : Z; ms_blobs_index_hit : Z }.

Definition stats_new : MergeStats := mkStats (mkPer 0 0 0) (mkPer 0 0 0) 0 0 0 0.

Definition add_base (s : MergeStats) (k : ElementKind) (n : Z) : MergeStats :=
  mkStats (pset (ms_base s) k (pget (ms_base s) k + n)) (ms_diff s) (ms_deleted s)
    (ms_blobs_passthrough s) (ms_blobs_rewritten s) (ms_blobs_index_hit s).
Definition add_diff (s : MergeStats) (k : ElementKind) (n : Z) : MergeStats :=
  mkStats (ms_base s) (pset (ms_diff s) k (pget (ms_diff s) k + n)) (ms_deleted s)
    (ms_blobs_passthrough s) (ms_blobs_rewritten s) (ms_blobs_index_hit s).
Definition add_deleted (s : MergeStats) : MergeStats :=
  mkStats (ms_base s) (ms_diff s) (ms_deleted s + 1) (ms_blobs_passthrough s) (ms_blobs_rewritten s) (ms_blobs_index_hit s).
Definition add_blobs (s : MergeStats) (passthrough rewritten hits : Z) : MergeStats :=
  mkStats (ms_base s) (ms_diff s) (ms_deleted s) (ms_blobs_passthrough s + passthrough)
    (ms_blobs_rewritten s + rewritten) (ms_blobs_index_hit s + hits).

Definition per_add (p q : PerKind Z) : PerKind Z :=
  mkPer (p_node p + p_node q) (p_way p + p_way q) (p_relation p + p_relation q).

Definition merge_from (s other : MergeStats) : MergeStats :=
  mkStats (per_add (ms_base s) (ms_base other)) (per_add (ms_diff s) (ms_diff other)) (ms_deleted s + ms_deleted other)
    (ms_blobs_passthrough s) (ms_blobs_rewritten s) (ms_blobs_index_hit s).

Definition total_elements (s : MergeStats) : Z :=
  p_node (ms_base s) + p_way (ms_base s) + p_relation (ms_base s) +
  p_node (ms_diff s) + p_way (ms_diff s) + p_relation (ms_diff s).

(** ** The diff's cursors over a block: [KindSeeks] *)

Inductive DiffHit := HitNone | HitDeleted | HitUpserted (i : nat).

Record KindSeeks := mkSeeks { s_upserts : PerKind Seek; s_deleted : PerKind Seek }.

Definition seeks_default : KindSeeks := mkSeeks (mkPer None None None) (mkPer None None None).

Definition seeks_find (s : KindSeeks) (d : SortedDiff) (k : ElementKind) (id : Z) : KindSeeks * DiffHit :=
  let '(sd, r) := seek_find (pget (s_deleted s) k) (deleted d k) id in
  let s := mkSeeks (s_upserts s) (pset (s_deleted s) k sd) in
  match r with
  | Some _ => (s, HitDeleted)
  | None =>
      let '(su, r) := seek_find (pget (s_upserts s) k) (upserts d k) id in
      (mkSeeks (pset (s_upserts s) k su) (s_deleted s), match r with Some i => HitUpserted i | None => HitNone end)
  end.

Definition blob_walk (claim : option BlobIndex) : ClaimWalk :=
  ClaimWalk_new claim
    (Required "apply-changes: refusing to write an unsorted PBF under a Sort.Type_then_ID header").

(** ** The precise check *)

Fixpoint overlap_loop (d : SortedDiff) (s : KindSeeks) (w : ClaimWalk) (es : list (ElementKind * Z))
    : result MergeError (ClaimWalk * bool) :=
  match es with
  | [] => Ok (w, false)
  | (k, id) :: es =>
      w ← walk_result (walk_observe w id);
      let '(s, h) := seeks_find s d k id in
      match h with HitNone => overlap_loop d s w es | _ => Ok (w, true) end
  end.

Definition block_overlaps_diff (b : Blob) (d : SortedDiff) (w : ClaimWalk) : result MergeError (ClaimWalk * bool) :=
  overlap_loop d seeks_default w (b_elems b).

(** ** The rewrite *)

(** The walk, the cursors, the next inline upsert (an index into the kind's
    upserts), the frames so far and the counts. *)
Record Rewrite := mkRw {
  rw_walk : ClaimWalk; rw_seeks : KindSeeks; rw_cursor : nat; rw_frames : list Event; rw_stats : MergeStats }.

Definition write_osc_local (r : Rewrite) (k : ElementKind) (i : nat) : Rewrite :=
  mkRw (rw_walk r) (rw_seeks r) (rw_cursor r) (rw_frames r ++ [EvOsc k i]) (add_diff (rw_stats r) k 1).

Definition write_base_local (r : Rewrite) (k : ElementKind) (id : Z) : Rewrite :=
  mkRw (rw_walk r) (rw_seeks r) (rw_cursor r) (rw_frames r ++ [EvBase k id]) (add_base (rw_stats r) k 1).

Definition set_cursor (r : Rewrite) (c : nat) : Rewrite :=
  mkRw (rw_walk r) (rw_seeks r) c (rw_frames r) (rw_stats r).

(** The [while] loop: the creates below an element, up to [stop]. *)
Fixpoint creates_before (fuel : nat) (d : SortedDiff) (k : ElementKind) (stop : nat) (id : Z) (r : Rewrite) : Rewrite :=
  match fuel with
  | O => r
  | S fuel =>
      if (rw_cursor r <? stop)%nat then
        match upserts d k !! rw_cursor r with
        | Some x =>
            if id_ltb x id
            then creates_before fuel d k stop id (write_osc_local (set_cursor r (S (rw_cursor r))) k (rw_cursor r))
            else r
        | None => r
        end
      else r
  end.

(** A modified element's own id is stepped over. *)
Definition skip_modified (d : SortedDiff) (k : ElementKind) (stop : nat) (id : Z) (r : Rewrite) : Rewrite :=
  if (rw_cursor r <? stop)%nat then
    match upserts d k !! rw_cursor r with
    | Some x => if x =? id then set_cursor r (S (rw_cursor r)) else r
    | None => r
    end
  else r.

Definition rewrite_element (d : SortedDiff) (k : ElementKind) (stop : nat) (r : Rewrite) (e : ElementKind * Z)
    : result MergeError Rewrite :=
  let '(ek, id) := e in
  w ← walk_result (walk_observe (rw_walk r) id);
  let r := mkRw w (rw_seeks r) (rw_cursor r) (rw_frames r) (rw_stats r) in
  let r := skip_modified d k stop id (creates_before stop d k stop id r) in
  let '(s, h) := seeks_find (rw_seeks r) d ek id in
  let r := mkRw (rw_walk r) s (rw_cursor r) (rw_frames r) (rw_stats r) in
  Ok match h with
     | HitDeleted => mkRw (rw_walk r) (rw_seeks r) (rw_cursor r) (rw_frames r) (add_deleted (rw_stats r))
     | HitUpserted i => write_osc_local r ek i
     | HitNone => write_base_local r ek id
     end.

Fixpoint rewrite_loop (d : SortedDiff) (k : ElementKind) (stop : nat) (r : Rewrite) (es : list (ElementKind * Z))
    : result MergeError Rewrite :=
  match es with
  | [] => Ok r
  | e :: es => r ← rewrite_element d k stop r e; rewrite_loop d k stop r es
  end.

(** [rewrite_block_parallel], for the inline upserts [start..stop] *)
Definition rewrite_block (b : Blob) (d : SortedDiff) (start stop : nat) (k : ElementKind) (claim : option BlobIndex)
    : result MergeError (list Event * MergeStats) :=
  r ← rewrite_loop d k stop (mkRw (blob_walk claim) seeks_default start [] stats_new) (b_elems b);
  let r := foldl (fun r i => write_osc_local r k i) r (seq (rw_cursor r) (stop - rw_cursor r)) in
  _ ← walk_result (walk_finish (rw_walk r));
  Ok (rw_frames r, rw_stats r).

(** ** What leaves a worker *)

Inductive DrainItem :=
| CopyRange (frame_start frame_len : Z) (k : ElementKind) (id_range : Z * Z) (observed_first : option Z) (cnt : Z)
| OwnedBytes (frame : list Event) (frame_len : Z) (k : ElementKind) (id_range : Z * Z) (observed_first : option Z)
    (cnt : Z) (verbatim : bool)
| Rewritten (frames : list Event) (k : ElementKind) (id_range : Z * Z) (first : Z) (stats : MergeStats)
| Omitted.

Record Placement := mkPlace { pl_kind : ElementKind; pl_range : Z * Z; pl_first : option Z }.

Definition placement (item : DrainItem) : option Placement :=
  match item with
  | CopyRange _ _ k r f _ | OwnedBytes _ _ k r f _ _ => Some (mkPlace k r f)
  | Rewritten _ k r f _ => Some (mkPlace k r (Some f))
  | Omitted => None
  end.

Definition gap_bound (p : Placement) : Z :=
  match pl_first p with Some f => f | None => blob_osm_first_id (pl_range p).1 (pl_range p).2 end.

Definition order_first_key (p : Placement) : OsmIdKey :=
  match pl_first p with
  | Some f => osm_id_key f
  | None => blob_osm_present_first_key (pl_range p).1 (pl_range p).2
  end.

(** [pass_through_indexed] and [take_copy_range] *)
Definition pass_through_indexed (splice : bool) (b : Blob) (observed_first : option Z) : result MergeError DrainItem :=
  match b_index b with
  | None => Err Bug
  | Some index =>
      let range := (min_id index, max_id index) in
      Ok (if splice then CopyRange (b_start b) (b_len b) (kind index) range observed_first (count index)
          else OwnedBytes (frame_of b) (b_len b) (kind index) range observed_first (count index) true)
  end.

Fixpoint single_kind_loop (found : option (ElementKind * Z * Z)) (es : list (ElementKind * Z))
    : result MergeError (option (ElementKind * Z * Z)) :=
  match es with
  | [] => Ok found
  | (k, id) :: es =>
      match found with
      | None => single_kind_loop (Some (k, id, id)) es
      | Some (k0, mn, mx) =>
          if decide (k0 = k) then single_kind_loop (Some (k0, Z.min mn id, Z.max mx id)) es else Err (MixedKinds k0 k)
      end
  end.

Definition single_kind_range (b : Blob) : result MergeError (option (ElementKind * Z * Z)) :=
  single_kind_loop None (b_elems b).

(** What an unindexed blob's payload says about it; [NotDerived] for an indexed
    one, [NoElement] for one that leaves nothing to write. *)
Inductive Derived :=
| NotDerived
| Indexed (index : BlobIndex)
| Reencode (k : ElementKind) (mn mx : Z)
| NoElement.

Definition derive (b : Blob) : result MergeError Derived :=
  match b_index b with
  | Some _ => Ok NotDerived
  | None =>
      match b_scan b with
      | Some index => Ok (Indexed index)
      | None =>
          r ← single_kind_range b;
          Ok match r with Some (k, mn, mx) => Reencode k mn mx | None => NoElement end
      end
  end.

(** The kind and range the blob is placed by. *)
Definition effective (b : Blob) (der : Derived) : option (ElementKind * Z * Z) :=
  match der with
  | NotDerived => index ← b_index b; Some (kind index, min_id index, max_id index)
  | Indexed index => Some (kind index, min_id index, max_id index)
  | Reencode k mn mx => Some (k, mn, mx)
  | NoElement => None
  end.

Definition upsert_slice (d : SortedDiff) (k : ElementKind) (first mn mx : Z) : nat * nat :=
  upsert_range d k first (blob_osm_last_key mn mx).

Definition must_reencode (der : Derived) : bool := match der with Reencode _ _ _ => true | _ => false end.

Definition handle_candidate (d : SortedDiff) (splice : bool) (b : Blob) : result MergeError DrainItem :=
  let claim := b_index b in
  _ ← match refuse_under (kinds_of (b_elems b).*1) (kind <$> claim) with Ok u => Ok u | Err c => Err (ForeignKind c) end;
  der ← derive b;
  match der with
  | NoElement => Ok Omitted
  | _ =>
      '(w, overlaps) ← block_overlaps_diff b d (blob_walk claim);
      _ ← (if overlaps then Ok None else walk_result (walk_finish w));
      first ← ok_or (walk_first w) Bug;
      '(k, mn, mx) ← ok_or (effective b der) Bug;
      let '(start, stop) := upsert_slice d k first mn mx in
      if negb overlaps && (stop <=? start)%nat && negb (must_reencode der) then
        match der with
        | Indexed index =>
            Ok (OwnedBytes (frame_of b) (b_reframed_len b) k (mn, mx) (Some first) (count index) false)
        | _ => pass_through_indexed splice b (Some first)
        end
      else
        '(frames, stats) ← rewrite_block b d start stop k claim;
        Ok (Rewritten frames k (mn, mx) first stats)
  end.

(** ** The scanner's routing *)

Inductive ScannerEmit := Drain (item : DrainItem) | Candidate | Passthrough.

Definition route_blob (d : SortedDiff) (splice : bool) (b : Blob) : result MergeError ScannerEmit :=
  match b_index b with
  | Some index =>
      if negb (range_overlaps d (kind index) (min_id index) (max_id index)) then
        if splice then item ← pass_through_indexed true b None; Ok (Drain item) else Ok Passthrough
      else Ok Candidate
  | None => Ok Candidate
  end.

(** The item the drain receives for a blob, whichever thread made it. *)
Definition blob_item (d : SortedDiff) (splice : bool) (b : Blob) : result MergeError DrainItem :=
  emit ← route_blob d splice b;
  match emit with
  | Drain item => Ok item
  | Candidate => handle_candidate d splice b
  | Passthrough => pass_through_indexed false b None
  end.
