(* ===== verification/ApplyDrain.v ===== *)
(** * The drain of apply-changes

    Sources: src/src/commands/apply_changes/{drain,stream_output,upsert_cursors}.rs,
    with [--locations-on-ways] off.

    One thread writes the output. It takes the blobs' items in whatever order
    the scanner and the workers deliver them, puts them back into file order,
    and writes, around each item, the diff's creates that belong before it: the
    rest of a kind at a type transition, the gap before a blob, and what is left
    at the end. Untouched frames are held back and written together: adjacent
    frames of the input as one copied range, owned frames as one batch. *)

From S2P Require Import Prelude StdSlice OsmId ElementKind BlobMeta SortedDiff ApplyRewrite.

Definition DEFAULT_ELEMENT_CAP : nat := Z.to_nat 8000.
Definition APPLY_CHANGES_CREATE_BATCH_BLOCKS : nat := 64.
Definition OWNED_PASSTHROUGH_FLUSH_BYTES : Z := Z.shiftl 32 20.

(** ** State *)

(** [ds_run] is the input range waiting to be copied, [ds_chunks] the owned
    frames waiting to be written, [ds_out] what the writer has been given. *)
Record DrainState := mkDrain {
  ds_last_type : option ElementKind; ds_cursors : PerKind nat;
  ds_run : option (Z * Z); ds_chunks : list (Z * list Event);
  ds_watermark : OrderWatermark; ds_out : list Event; ds_stats : MergeStats }.

Definition drain_new : DrainState :=
  mkDrain None (mkPer 0%nat 0%nat 0%nat) None [] OrderWatermark_default [] stats_new.

Definition set_last_type (st : DrainState) (k : ElementKind) : DrainState :=
  mkDrain (Some k) (ds_cursors st) (ds_run st) (ds_chunks st) (ds_watermark st) (ds_out st) (ds_stats st).
Definition set_cursors (st : DrainState) (k : ElementKind) (c : nat) : DrainState :=
  mkDrain (ds_last_type st) (pset (ds_cursors st) k c) (ds_run st) (ds_chunks st) (ds_watermark st) (ds_out st) (ds_stats st).
Definition set_run (st : DrainState) (run : option (Z * Z)) : DrainState :=
  mkDrain (ds_last_type st) (ds_cursors st) run (ds_chunks st) (ds_watermark st) (ds_out st) (ds_stats st).
Definition set_chunks (st : DrainState) (c : list (Z * list Event)) : DrainState :=
  mkDrain (ds_last_type st) (ds_cursors st) (ds_run st) c (ds_watermark st) (ds_out st) (ds_stats st).
Definition set_watermark (st : DrainState) (w : OrderWatermark) : DrainState :=
  mkDrain (ds_last_type st) (ds_cursors st) (ds_run st) (ds_chunks st) w (ds_out st) (ds_stats st).
Definition write_raw (st : DrainState) (evs : list Event) : DrainState :=
  mkDrain (ds_last_type st) (ds_cursors st) (ds_run st) (ds_chunks st) (ds_watermark st) (ds_out st ++ evs) (ds_stats st).
Definition set_stats (st : DrainState) (s : MergeStats) : DrainState :=
  mkDrain (ds_last_type st) (ds_cursors st) (ds_run st) (ds_chunks st) (ds_watermark st) (ds_out st) s.

(** ** Create runs *)

(** [chunks]: the range [start..stop] cut into ranges of [size] *)
Fixpoint chunks (fuel start stop size : nat) : list (nat * nat) :=
  match fuel with
  | O => []
  | S fuel => if (start <? stop)%nat then (start, Nat.min stop (start + size)) :: chunks fuel (start + size) stop size else []
  end.

Definition block_events (k : ElementKind) (c : nat * nat) : list Event := EvOsc k <$> seq c.1 (c.2 - c.1).

(** [write_run]: on the executor in batches of blocks, or block by block *)
Definition write_run (executor : bool) (k : ElementKind) (start stop : nat) : list Event :=
  let cap := DEFAULT_ELEMENT_CAP in
  if executor && (cap <? stop - start)%nat then
    mjoin ((fun batch => mjoin (block_events k <$> chunks (batch.2 - batch.1) batch.1 batch.2 cap)) <$>
             chunks (stop - start) start stop (cap * APPLY_CHANGES_CREATE_BATCH_BLOCKS))
  else mjoin (block_events k <$> chunks (stop - start) start stop cap).

Section Drain.
(** The input, which copied ranges are read from; whether the invocation has
    an executor; the diff; the route. *)
Variable file : list Blob.
Variable executor : bool.
Variable d : SortedDiff.
Variable splice : bool.

(** [CreateEncoder::emit] *)
Definition create_emit (st : DrainState) (k : ElementKind) (start stop : nat) : DrainState :=
  if (stop <=? start)%nat then st
  else
    let evs := write_run executor k start stop in
    set_stats (write_raw st evs) (add_diff (ds_stats st) k (Z.of_nat (length evs))).

(** The frames of the input that stand in the byte range [s..e]. *)
Definition frames_between (s e : Z) : list Event :=
  mjoin (frame_of <$> filter (fun b => s <= b_start b < e) file).

Definition flush_copy_range (st : DrainState) : result MergeError DrainState :=
  match ds_run st with
  | None => Ok st
  | Some (s, e) => if splice then Ok (write_raw (set_run st None) (frames_between s e)) else Err Bug
  end.

Definition flush_passthrough_buf (st : DrainState) : DrainState :=
  write_raw (set_chunks st []) (mjoin (ds_chunks st).*2).

Definition emit_rest (st : DrainState) (k : ElementKind) : DrainState :=
  let start := pget (ds_cursors st) k in
  let stop := length (upserts d k) in
  create_emit (set_cursors st k stop) k start stop.

Definition flush_remaining_upserts (st : DrainState) (prev next : ElementKind) : DrainState :=
  let st := emit_rest st prev in
  if decide (prev = Node) then if decide (next = Relation) then emit_rest st Way else st else st.

Definition handle_type_transition (st : DrainState) (prev next : ElementKind) : result MergeError DrainState :=
  st ← flush_copy_range st;
  Ok (flush_remaining_upserts (flush_passthrough_buf st) prev next).

Definition has_gap_creates (st : DrainState) (k : ElementKind) (bound : Z) : bool :=
  match upserts d k !! pget (ds_cursors st) k with Some id => id_ltb id bound | None => false end.

Definition emit_gap_creates (st : DrainState) (k : ElementKind) (bound : Z) : DrainState :=
  let start := pget (ds_cursors st) k in
  let len := partition_point (fun id => id_ltb id bound) (drop start (upserts d k)) in
  create_emit (set_cursors st k (start + len)%nat) k start (start + len).

Definition handle_gap_creates (st : DrainState) (k : ElementKind) (bound : Z) : result MergeError DrainState :=
  if negb (has_gap_creates st k bound) then Ok st
  else
    st ← flush_copy_range st;
    Ok (emit_gap_creates (flush_passthrough_buf st) k bound).

Definition check_output_order (st : DrainState) (k : ElementKind) (first last : OsmIdKey) : result MergeError DrainState :=
  match observe_keys (ds_watermark st) (ordinal k) first last with
  | Err v => Err (OutputUnsorted k v)
  | Ok w => Ok (set_watermark st w)
  end.

(** The cursor passes every upsert up to the rewritten blob's last key. *)
Fixpoint cursor_past (fuel : nat) (ids : list Z) (last : OsmIdKey) (c : nat) : nat :=
  match fuel with
  | O => c
  | S fuel =>
      match ids !! c with
      | Some x => if key_leb (osm_id_key x) last then cursor_past fuel ids last (S c) else c
      | None => c
      end
  end.

Definition dispatch_variant (st : DrainState) (item : DrainItem) : result MergeError DrainState :=
  match item with
  | CopyRange start len k _ _ cnt =>
      if negb splice then Err Bug
      else
        let st := flush_passthrough_buf st in
        let stop := start + len in
        let fresh := st ← flush_copy_range st; Ok (set_run st (Some (start, stop))) in
        st ← match ds_run st with
             | Some (s, e) => if e =? start then Ok (set_run st (Some (s, stop))) else fresh
             | None => fresh
             end;
        Ok (set_stats st (add_base (add_blobs (ds_stats st) 1 0 1) k cnt))
  | OwnedBytes frame len k _ _ cnt verbatim =>
      st ← flush_copy_range st;
      let st := set_chunks st (ds_chunks st ++ [(len, frame)]) in
      let st := if OWNED_PASSTHROUGH_FLUSH_BYTES <=? foldr Z.add 0 (ds_chunks st).*1 then flush_passthrough_buf st else st in
      Ok (set_stats st (add_base (add_blobs (ds_stats st) 1 0 (if verbatim : bool then 1 else 0)) k cnt))
  | Rewritten frames k range _ stats =>
      st ← flush_copy_range st;
      let st := write_raw (flush_passthrough_buf st) frames in
      let st := set_stats st (merge_from (add_blobs (ds_stats st) 0 1 0) stats) in
      let ids := upserts d k in
      Ok (set_cursors st k (cursor_past (length ids) ids (blob_osm_last_key range.1 range.2) (pget (ds_cursors st) k)))
  | Omitted => Ok st
  end.

Definition process_item (st : DrainState) (item : DrainItem) : result MergeError DrainState :=
  match placement item with
  | None => Ok st
  | Some p =>
      let k := pl_kind p in
      let '(mn, mx) := pl_range p in
      st ← match ds_last_type st with
           | Some prev => if decide (prev = k) then Ok st else handle_type_transition st prev k
           | None => Ok st
           end;
      let st := set_last_type st k in
      st ← (if mn <=? mx then
              st ← check_output_order st k (order_first_key p) (blob_osm_last_key mn mx);
              handle_gap_creates st k (gap_bound p)
            else Ok st);
      dispatch_variant st item
  end.

(** ** The receive loop *)

Record Reorder := mkReorder { ro_state : DrainState; ro_buffer : gmap nat DrainItem; ro_next : nat }.

Definition reorder_new : Reorder := mkReorder drain_new ∅ 0.

(** The [while let] over contiguous seqs. *)
Fixpoint advance_items (fuel : nat) (r : Reorder) : result MergeError Reorder :=
  match fuel with
  | O => Ok r
  | S fuel =>
      match ro_buffer r !! ro_next r with
      | None => Ok r
      | Some item =>
          st ← process_item (ro_state r) item;
          advance_items fuel (mkReorder st (delete (ro_next r) (ro_buffer r)) (S (ro_next r)))
      end
  end.

Definition receive (r : Reorder) (m : nat * DrainItem) : result MergeError Reorder :=
  let buffer := <[m.1 := m.2]> (ro_buffer r) in
  advance_items (size buffer) (mkReorder (ro_state r) buffer (ro_next r)).

Fixpoint receive_all (r : Reorder) (ms : list (nat * DrainItem)) : result MergeError Reorder :=
  match ms with
  | [] => Ok r
  | m :: ms => r ← receive r m; receive_all r ms
  end.

(** ** The end of the stream *)

Definition types_to_flush (last : option ElementKind) : list ElementKind :=
  match last with
  | None | Some Node => [Node; Way; Relation]
  | Some Way => [Way; Relation]
  | Some Relation => [Relation]
  end.

Fixpoint check_run (st : DrainState) (k : ElementKind) (ids : list Z) : result MergeError DrainState :=
  match ids with
  | [] => Ok st
  | id :: ids => st ← check_output_order st k (osm_id_key id) (osm_id_key id); check_run st k ids
  end.

Definition trailing_creates (st : DrainState) (k : ElementKind) : result MergeError DrainState :=
  let cursor := pget (ds_cursors st) k in
  let ids := upserts d k in
  st ← check_run st k (drop cursor ids);
  Ok (set_cursors (create_emit st k cursor (length ids)) k (length ids)).

Fixpoint trailing_all (st : DrainState) (ks : list ElementKind) : result MergeError DrainState :=
  match ks with
  | [] => Ok st
  | k :: ks => st ← trailing_creates st k; trailing_all st ks
  end.

(** What the drain does once every item is processed. *)
Definition drain_end (st : DrainState) : result MergeError DrainState :=
  st ← flush_copy_range st;
  trailing_all (flush_passthrough_buf st) (types_to_flush (ds_last_type st)).

(** [run_drain] on the items in the order they arrive, to the channel's close *)
Definition run_drain (arrivals : list (nat * DrainItem)) : result MergeError DrainState :=
  r ← receive_all reorder_new arrivals;
  if decide (ro_buffer r = ∅) then drain_end (ro_state r)
  else Err (DroppedSeq (size (ro_buffer r)) (ro_next r)).
End Drain.

(** ** The whole run *)

(** The scanner's and the workers' items of the base, in file order. *)
Fixpoint items_of (d : SortedDiff) (splice : bool) (bs : list Blob) : result MergeError (list DrainItem) :=
  match bs with
  | [] => Ok []
  | b :: bs => item ← blob_item d splice b; items ← items_of d splice bs; Ok (item :: items)
  end.
