(* ===== verification/ApplySchedule.v ===== *)
(** * The drain is independent of the schedule

    The workers deliver the blobs' items in any order; the drain buffers what
    is early and processes by sequence number. Whatever the order of arrival, a
    run does what processing the items one after another in file order does, its
    refusals included ([run_drain_schedule]). *)

From S2P Require Import Prelude OsmId ElementKind OscInterner SortedDiff ApplyRewrite ApplyDrain.

Lemma elem_of_rev {A} (x : A) (l : list A) : x ∈ rev l <-> x ∈ l.
Proof. rewrite !list_elem_of_In. symmetry. apply in_rev. Qed.

Section Schedule.
Context (file : list Blob) (executor : bool) (d : SortedDiff) (splice : bool).

(** The reference: the items in order. *)
Fixpoint process_all (st : DrainState) (items : list DrainItem) : result MergeError DrainState :=
  match items with
  | [] => Ok st
  | item :: items => st ← process_item file executor d splice st item; process_all st items
  end.

Lemma process_all_app st l1 l2 :
  process_all st (l1 ++ l2) = (st ← process_all st l1; process_all st l2).
Proof. revert st. induction l1 as [|i l1 IH]; intros st; [done|]. cbn. destruct (process_item _ _ _ _ st i); [apply IH|done]. Qed.

Context (items : list DrainItem).

Lemma process_all_next n item st :
  items !! n = Some item -> process_all drain_new (take n items) = Ok st ->
  process_all drain_new (take (S n) items) = process_item file executor d splice st item.
Proof.
  intros Hi Hp. rewrite (take_S_r _ _ item Hi), process_all_app, Hp. cbn [mbind result_bind process_all]. by destruct (process_item _ _ _ _ st item).
Qed.

Lemma process_all_fails n e : process_all drain_new (take n items) = Err e -> process_all drain_new items = Err e.
Proof. intros H. rewrite <- (take_drop n items) at 1. by rewrite process_all_app, H. Qed.

(** The state after the items [got] have arrived. *)
Record received (got : list (nat * DrainItem)) (r : Reorder) : Prop := {
  rc_state : process_all drain_new (take (ro_next r) items) = Ok (ro_state r);
  rc_buffer s i : ro_buffer r !! s = Some i <-> (s, i) ∈ got /\ (ro_next r <= s)%nat;
  rc_done s : (s < ro_next r)%nat -> exists i, (s, i) ∈ got;
  rc_items s i : (s, i) ∈ got -> items !! s = Some i }.

Lemma advance_items_ok fuel got r :
  received got r -> (size (ro_buffer r) <= fuel)%nat ->
  match advance_items file executor d splice fuel r with
  | Ok r' => received got r' /\ ro_buffer r' !! ro_next r' = None
  | Err e => process_all drain_new items = Err e
  end.
Proof.
  revert r. induction fuel as [|fuel IH]; intros r Hr Hf; cbn [advance_items].
  { split; [done|]. assert (ro_buffer r = ∅) as -> by (apply map_size_empty_inv; lia). done. }
  destruct (ro_buffer r !! ro_next r) as [item|] eqn:E; [|done]. pose proof E as [Hin _]%(rc_buffer _ _ Hr).
  pose proof (rc_items _ _ Hr _ _ Hin) as Hit. pose proof (process_all_next _ _ _ Hit (rc_state _ _ Hr)) as Hp.
  destruct (process_item file executor d splice (ro_state r) item) as [st|e] eqn:Ep; [|by eapply process_all_fails]. cbn [mbind result_bind].
  apply IH; [|cbn; rewrite map_size_delete, E; cbn; lia]. split; cbn [ro_state ro_buffer ro_next].
  - exact Hp.
  - intros s i. rewrite lookup_delete_Some, (rc_buffer _ _ Hr). split; [intros (? & ? & ?)|intros [? ?]]; split_and!; try done; lia.
  - intros s Hs. destruct (decide (s = ro_next r)) as [->|]; [by eexists|]. apply Hr. lia.
  - apply Hr.
Qed.

Lemma receive_ok got r m :
  received got r -> items !! m.1 = Some m.2 -> (forall i, (m.1, i) ∉ got) ->
  match receive file executor d splice r m with
  | Ok r' => received (m :: got) r' /\ ro_buffer r' !! ro_next r' = None
  | Err e => process_all drain_new items = Err e
  end.
Proof.
  intros Hr Hm Hnew. destruct m as [s i]. cbn [fst snd] in *. unfold receive. apply advance_items_ok; [|done]. cbn [fst snd].
  assert (ro_next r <= s)%nat as Hle. { destruct (decide (ro_next r <= s)%nat) as [|Hlt]; [done|]. destruct (rc_done _ _ Hr s) as [j Hj]; [lia|]. by destruct (Hnew j). }
  split; cbn [ro_state ro_buffer ro_next].
  - apply Hr.
  - intros s' i'. rewrite lookup_insert_Some, elem_of_cons, (rc_buffer _ _ Hr). split.
    + intros [[-> ->]|(? & ? & ?)]; split; [by left|done|by right|done].
    + intros [[[= -> ->]|Hin] ?]; [by left|]. right. split; [intros ->; by destruct (Hnew i')|done].
  - intros s' Hs. destruct (rc_done _ _ Hr s' Hs) as [i' Hi']. exists i'. by right.
  - intros s' i' [[= -> ->]|Hin]%elem_of_cons; [done|by apply Hr].
Qed.

Lemma receive_all_ok ms got r :
  received got r -> (ms <> [] \/ ro_buffer r !! ro_next r = None) -> Forall (fun m => items !! m.1 = Some m.2) ms -> NoDup (ms.*1 ++ got.*1) ->
  match receive_all file executor d splice r ms with
  | Ok r' => received (rev ms ++ got) r' /\ ro_buffer r' !! ro_next r' = None
  | Err e => process_all drain_new items = Err e
  end.
Proof.
  revert got r. induction ms as [|m ms IH]; intros got r Hr Hb Hm Hnd; cbn [receive_all]; [by destruct Hb|].
  apply Forall_cons in Hm as [Hm Hms]. rewrite fmap_cons in Hnd. cbn in Hnd. apply NoDup_cons in Hnd as [Hni Hnd].
  pose proof (receive_ok got r m Hr Hm) as H. destruct (receive file executor d splice r m) as [r1|e]; cbn [mbind result_bind]; [|apply H].
  - destruct H as [Hr1 Hb1]; [intros i Hi; apply Hni, elem_of_app; right; by apply (list_elem_of_fmap_2 fst) in Hi|].
    specialize (IH (m :: got) r1 Hr1 ltac:(by right) Hms). cbn [rev]. rewrite <- app_assoc. apply IH.
    rewrite fmap_cons. rewrite <- Permutation_middle. by apply NoDup_cons.
  - intros i Hi. apply Hni, elem_of_app. right. by apply (list_elem_of_fmap_2 fst) in Hi.
Qed.

Lemma received_new : received [] reorder_new.
Proof. split; cbn; [by rewrite take_0|intros s i; rewrite elem_of_nil; set_solver|lia|by intros s i ?%elem_of_nil]. Qed.

Lemma receive_start ms :
  Forall (fun m => items !! m.1 = Some m.2) ms -> NoDup ms.*1 ->
  match receive_all file executor d splice reorder_new ms with
  | Ok r' => received (rev ms) r' /\ ro_buffer r' !! ro_next r' = None
  | Err e => process_all drain_new items = Err e
  end.
Proof.
  intros Hm Hnd. pose proof (receive_all_ok ms [] reorder_new received_new ltac:(by right) Hm) as H. rewrite !app_nil_r in H. by apply H.
Qed.

Lemma elem_of_numbered (s : nat) (i : DrainItem) : (s, i) ∈ imap pair items <-> items !! s = Some i.
Proof.
  rewrite list_elem_of_lookup. split.
  - intros [j Hj]. rewrite list_lookup_imap in Hj. destruct (items !! j) eqn:E; cbn in Hj; [|done]. by injection Hj as <- <-.
  - intros H. exists s. by rewrite list_lookup_imap, H.
Qed.

Lemma numbered_nodup : NoDup (imap pair items).*1.
Proof.
  assert ((imap pair items).*1 = seq 0 (length items)) as ->; [|apply NoDup_seq].
  apply list_eq. intros n. rewrite list_lookup_fmap, list_lookup_imap. destruct (items !! n) as [i|] eqn:E; cbn.
  - symmetry. apply lookup_seq. split; [done|by eapply lookup_lt_Some].
  - symmetry. apply lookup_seq_ge. by apply lookup_ge_None.
Qed.

Lemma arrivals_ok ms : ms ⊆+ imap pair items -> Forall (fun m => items !! m.1 = Some m.2) ms /\ NoDup ms.*1.
Proof.
  intros Hs. split.
  - apply Forall_forall. intros [s i] Hin. apply elem_of_numbered. by eapply elem_of_submseteq.
  - apply submseteq_Permutation in Hs as [k Hk]. pose proof numbered_nodup as Hn. rewrite Hk, fmap_app in Hn. by apply NoDup_app in Hn as [Hn _].
Qed.

(** Every item arrives: the run is the one in file order. *)
Lemma drain_in_order arrivals :
  arrivals ≡ₚ imap pair items ->
  run_drain file executor d splice arrivals = (st ← process_all drain_new items; drain_end file executor d splice st).
Proof.
  intros Hp. destruct (arrivals_ok arrivals) as [Hm Hnd]; [by rewrite Hp|]. pose proof (receive_start arrivals Hm Hnd) as H. unfold run_drain.
  destruct (receive_all _ _ _ _ _ arrivals) as [r|e]; cbn [mbind result_bind]; [|by rewrite H]. destruct H as [Hr Hb].
  assert (forall s i, (s, i) ∈ rev arrivals <-> items !! s = Some i) as Hall.
  { intros s i. rewrite <- elem_of_numbered, <- Hp. apply elem_of_rev. }
  assert (length items <= ro_next r)%nat as Hn.
  { destruct (decide (length items <= ro_next r)%nat) as [|Hlt]; [done|]. destruct (items !! ro_next r) as [i|] eqn:E; [|apply lookup_ge_None in E; lia].
    assert (ro_buffer r !! ro_next r = Some i) as Hc by (apply (rc_buffer _ _ Hr); split; [by apply Hall|lia]). congruence. }
  rewrite decide_True.
  - pose proof (rc_state _ _ Hr) as Hst. rewrite take_ge in Hst by done. by rewrite Hst.
  - apply map_eq. intros s. rewrite lookup_empty. destruct (ro_buffer r !! s) as [i|] eqn:E; [|done]. exfalso.
    apply (rc_buffer _ _ Hr) in E as [Hin%Hall%lookup_lt_Some ?]. lia.
Qed.

(** An item below another is lost: the run is refused. *)
Lemma drain_gap_refused arrivals n :
  arrivals ⊆+ imap pair items -> n ∉ arrivals.*1 -> (exists s, s ∈ arrivals.*1 /\ (n < s)%nat) ->
  exists e, run_drain file executor d splice arrivals = Err e.
Proof.
  intros Hs Hn (s & Hin & Hlt). destruct (arrivals_ok arrivals Hs) as [Hm Hnd]. pose proof (receive_start arrivals Hm Hnd) as H. unfold run_drain.
  destruct (receive_all _ _ _ _ _ arrivals) as [r|e]; cbn [mbind result_bind]; [|by eexists]. destruct H as [Hr _].
  assert (forall m, m ∈ rev arrivals <-> m ∈ arrivals) as Hrev by (intros m; apply elem_of_rev).
  assert (ro_next r <= n)%nat as Hle.
  { destruct (decide (ro_next r <= n)%nat) as [|Hg]; [done|]. destruct (rc_done _ _ Hr n) as [i Hi]; [lia|]. apply Hrev in Hi. exfalso. apply Hn. by apply (list_elem_of_fmap_2 fst) in Hi. }
  apply list_elem_of_fmap in Hin as ([s' i] & -> & Hin). cbn in *. rewrite decide_False; [by eexists|]. intros E.
  assert (ro_buffer r !! s' = Some i) as Hb by (apply (rc_buffer _ _ Hr); split; [by apply Hrev|lia]). by rewrite E in Hb.
Qed.
End Schedule.

(** C30. The drain does not depend on the schedule. Whatever order the blobs'
    items arrive in, the run is the one that processes them one after another in
    file order, the same refusal included; and a run in which an item is lost
    below one that arrives is refused, never written short. *)
Theorem drain_schedule_free (file : list Blob) (executor : bool) (d : SortedDiff) (splice : bool)
    (items : list DrainItem) (arrivals : list (nat * DrainItem)) :
  (arrivals ≡ₚ imap pair items ->
    run_drain file executor d splice arrivals =
      (st ← process_all file executor d splice drain_new items; drain_end file executor d splice st)) /\
  (arrivals ⊆+ imap pair items -> (exists n s, n ∉ arrivals.*1 /\ s ∈ arrivals.*1 /\ (n < s)%nat) ->
    exists e, run_drain file executor d splice arrivals = Err e).
Proof. split; [apply drain_in_order|]. intros Hs (n & s & Hn & Hin & Hlt). apply (drain_gap_refused _ _ _ _ items arrivals n); [done|done|by exists s]. Qed.

Definition empty_diff : SortedDiff := mkSorted (mkTable [] [] [] []) (mkTable [] [] [] []) (mkTable [] [] [] []) (in_strings interner_new).

Lemma drain_schedule_free_witness :
  let items := [OwnedBytes [EvBase Node 3] 9 Node (3, 3) None 1 true; OwnedBytes [EvBase Node 5] 9 Node (5, 5) None 1 true] in
  (exists st, run_drain [] false empty_diff false (reverse (imap pair items)) = Ok st /\ ds_out st = [EvBase Node 3; EvBase Node 5]) /\
  exists e, run_drain [] false empty_diff false (drop 1 (imap pair items)) = Err e.
Proof.
  intros items. split.
  - rewrite (proj1 (drain_schedule_free [] false empty_diff false items (reverse (imap pair items)))) by apply reverse_Permutation.
    eexists. split; vm_compute; reflexivity.
  - apply (proj2 (drain_schedule_free [] false empty_diff false items (drop 1 (imap pair items)))); [apply submseteq_skips_l with (k := [(0%nat, items !!! 0%nat)]) || apply sublist_submseteq, sublist_drop|].
    exists 0%nat, 1%nat. split_and!; [by vm_compute; set_solver|by vm_compute; set_solver|lia].
Defined.
