(* ===== verification/ApplyItems.v ===== *)
(** * What a worker's item holds

    The item made for an honest blob of a sorted base holds the blob's surviving
    elements and the diff's upserts inside its span, in canonical order
    ([blob_item_ok]). This is the promise the drain's theorems rest on. *)

From S2P Require Import Prelude StdSlice OsmId ElementKind BlobMeta Tally SortedDiff ApplyRewrite.

(** ** Places in the output *)

Abbreviation Place := (ElementKind * Z)%type.

Definition place_lt (a b : Place) : Prop := ordinal a.1 < ordinal b.1 \/ a.1 = b.1 /\ id_lt a.2 b.2.
Definition place_le (a b : Place) : Prop := ordinal a.1 < ordinal b.1 \/ a.1 = b.1 /\ id_le a.2 b.2.

Lemma place_lt_irrefl a : ~ place_lt a a.
Proof. intros [?|[_ H]]; [lia|]. by apply id_lt_irrefl in H. Qed.
Lemma place_lt_trans a b c : place_lt a b -> place_lt b c -> place_lt a c.
Proof.
  intros [?|[E1 ?]] [?|[E2 ?]]; [left; lia|left; congruence|left; congruence|right; split; [congruence|by eapply id_lt_trans]].
Qed.
Lemma place_lt_le a b : place_lt a b -> place_le a b.
Proof. intros [?|[? ?]]; [by left|right; split; [done|by apply id_lt_le]]. Qed.
Lemma place_le_refl a : place_le a a.
Proof. right. split; [done|]. apply key_le_refl. Qed.
Lemma place_le_lt_trans a b c : place_le a b -> place_lt b c -> place_lt a c.
Proof.
  intros [?|[E1 ?]] [?|[E2 ?]]; [left; lia|left; congruence|left; congruence|right; split; [congruence|by eapply id_le_lt_trans]].
Qed.
Lemma place_lt_le_trans a b c : place_lt a b -> place_le b c -> place_lt a c.
Proof.
  intros [?|[E1 ?]] [?|[E2 ?]]; [left; lia|left; congruence|left; congruence|right; split; [congruence|by eapply id_lt_le_trans]].
Qed.
Lemma place_not_le a b : ~ place_le a b <-> place_lt b a.
Proof.
  unfold place_le, place_lt. rewrite <- (id_not_lt b.2 a.2). split.
  - intros H. destruct (Z.lt_trichotomy (ordinal b.1) (ordinal a.1)) as [?|[E|?]]; [by left| |exfalso; apply H; by left].
    apply ordinal_inj in E. right. split; [done|]. destruct (decide (id_lt b.2 a.2)) as [|Hn]; [done|]. exfalso. apply H. by right.
  - intros [?|[E ?]] [?|[E' Hn]]; [lia|rewrite E' in *; lia|rewrite E in *; lia|done].
Qed.

Section Items.
Context (d : SortedDiff).

Definition ev_place (e : Event) : Place :=
  match e with EvBase k id => (k, id) | EvOsc k i => (k, upserts d k !!! i) end.

Definition ev_lt (a b : Event) : Prop := place_lt (ev_place a) (ev_place b).

(** No id is both upserted and deleted, and the vectors are sorted: what
    [into_sorted] makes. *)
Record diff_ok : Prop := {
  do_upserts k : sorted_ids (upserts d k);
  do_deleted k : sorted_ids (deleted d k);
  do_disjoint k id : id ∈ upserts d k -> id ∈ deleted d k -> False }.

Definition untouched (e : Place) : Prop := e.2 ∉ upserts d e.1 /\ e.2 ∉ deleted d e.1.

Hypothesis Hd : diff_ok.

Lemma ups_lt k i j : (i < j < length (upserts d k))%nat -> id_lt (upserts d k !!! i) (upserts d k !!! j).
Proof.
  intros Hij. assert (is_Some (upserts d k !! i)) as [x Hx] by (apply lookup_lt_is_Some; lia).
  assert (is_Some (upserts d k !! j)) as [y Hy] by (apply lookup_lt_is_Some; lia).
  rewrite !list_lookup_total_alt, Hx, Hy. cbn. eapply sorted_lookup; [apply Hd|done|done|lia].
Qed.

(** A run of creates is in order. *)
Lemma run_sorted k a n : (a + n <= length (upserts d k))%nat -> StronglySorted ev_lt (EvOsc k <$> seq a n).
Proof.
  revert a. induction n as [|n IH]; intros a Ha; [constructor|]. cbn [seq]. rewrite fmap_cons. constructor; [apply IH; lia|].
  apply Forall_forall. intros e (i & -> & [Hi1 Hi2]%elem_of_seq)%list_elem_of_fmap. right. split; [done|]. apply ups_lt. lia.
Qed.

Lemma elem_of_run e k a n : e ∈ (EvOsc k <$> seq a n) <-> exists i, e = EvOsc k i /\ (a <= i < a + n)%nat.
Proof. rewrite list_elem_of_fmap. setoid_rewrite elem_of_seq. done. Qed.

(** ** Counting *)

Definition total {A} (f : A -> Z) (l : list A) : Z := foldr (fun e n => f e + n) 0 l.

Definition base_of (k : ElementKind) (e : Event) : Z :=
  match e with EvBase k' _ => if decide (k = k') then 1 else 0 | EvOsc _ _ => 0 end.
Definition osc_of (k : ElementKind) (e : Event) : Z :=
  match e with EvOsc k' _ => if decide (k = k') then 1 else 0 | EvBase _ _ => 0 end.
Definition del_count (e : Place) : Z := if decide (e.2 ∈ deleted d e.1) then 1 else 0.

(** The counts are those of the elements written. *)
Definition counted (s : MergeStats) (evs : list Event) : Prop :=
  forall k, pget (ms_base s) k = total (base_of k) evs /\ pget (ms_diff s) k = total (osc_of k) evs.

Lemma total_app {A} (f : A -> Z) l1 l2 : total f (l1 ++ l2) = total f l1 + total f l2.
Proof. induction l1 as [|x l1 IH]; [done|]. unfold total in *. cbn. lia. Qed.

Lemma total_cons {A} (f : A -> Z) x l : total f (x :: l) = f x + total f l.
Proof. done. Qed.

Lemma counted_osc s evs k i : counted s evs -> counted (add_diff s k 1) (evs ++ [EvOsc k i]).
Proof.
  intros Hc k'. destruct (Hc k') as [H1 H2]. rewrite !total_app. cbn [ms_base ms_diff add_diff]. rewrite pget_pset, H1. split; [cbn; lia|].
  cbn. destruct (decide (k' = k)) as [->|]; lia.
Qed.

Lemma counted_base s evs k id : counted s evs -> counted (add_base s k 1) (evs ++ [EvBase k id]).
Proof.
  intros Hc k'. destruct (Hc k') as [H1 H2]. rewrite !total_app. cbn [ms_base ms_diff add_base]. rewrite pget_pset, H2. split; [|cbn; lia].
  cbn. destruct (decide (k' = k)) as [->|]; lia.
Qed.

(** ** The rewrite *)

Lemma creates_before_spec fuel k stop id r :
  (rw_cursor r <= stop <= length (upserts d k))%nat -> (stop <= fuel + rw_cursor r)%nat -> counted (rw_stats r) (rw_frames r) ->
  exists c s, let evs := rw_frames r ++ (EvOsc k <$> seq (rw_cursor r) (c - rw_cursor r)) in
    creates_before fuel d k stop id r = mkRw (rw_walk r) (rw_seeks r) c evs s /\
    counted s evs /\ ms_deleted s = ms_deleted (rw_stats r) /\ (rw_cursor r <= c <= stop)%nat /\
    (forall j, (rw_cursor r <= j < c)%nat -> id_lt (upserts d k !!! j) id) /\
    ((c < stop)%nat -> id_le id (upserts d k !!! c)).
Proof.
  revert r. induction fuel as [|fuel IH]; intros [w sk cu fr s] Hc Hf Hn; cbn [creates_before rw_cursor rw_walk rw_seeks rw_frames rw_stats] in *.
  { exists cu, s. cbn. rewrite Nat.sub_diag, app_nil_r. split_and!; try done; lia. }
  destruct (Nat.ltb_spec cu stop) as [Hlt|Hge].
  2:{ exists cu, s. cbn. rewrite Nat.sub_diag, app_nil_r. split_and!; try done; lia. }
  destruct (upserts d k !! cu) as [x|] eqn:Ex; [|apply lookup_ge_None in Ex; lia].
  assert (upserts d k !!! cu = x) as Ht by (by rewrite list_lookup_total_alt, Ex).
  destruct (id_ltb x id) eqn:El.
  2:{ exists cu, s. cbn. rewrite Nat.sub_diag, app_nil_r. split_and!; try done; try lia. intros _. rewrite Ht. apply id_not_lt. rewrite <- id_ltb_lt. congruence. }
  apply id_ltb_lt in El. destruct (IH (mkRw w sk (S cu) (fr ++ [EvOsc k cu]) (add_diff s k 1))) as (c & s' & E & H1 & H2 & H3 & H4 & H5).
  { cbn. lia. } { cbn. lia. } { by apply counted_osc. }
  cbn [rw_cursor rw_walk rw_seeks rw_frames rw_stats] in *. exists c, s'.
  assert ((fr ++ [EvOsc k cu]) ++ (EvOsc k <$> seq (S cu) (c - S cu)) = fr ++ (EvOsc k <$> seq cu (c - cu))) as Ha.
  { rewrite <- app_assoc. f_equal. by replace (c - cu)%nat with (S (c - S cu)) by lia. }
  cbn zeta. rewrite <- Ha. split_and!; [done|done|done|lia|lia| |done].
  intros j Hj. destruct (decide (j = cu)) as [->|]; [by rewrite Ht|apply H4; lia].
Qed.

Definition seeks_ok (s : KindSeeks) (k : ElementKind) (id : Z) : Prop :=
  seek_ok (pget (s_upserts s) k) (upserts d k) id /\ seek_ok (pget (s_deleted s) k) (deleted d k) id.

Lemma seek_ok_mono s ids id id' : id_le id id' -> seek_ok s ids id -> seek_ok s ids id'.
Proof. destruct s as [pos|]; [|done]. cbn. intros Hle H j x Hj Hx. eapply id_lt_le_trans; [by eapply H|done]. Qed.

(** The cursors tell what the diff does to an element. *)
Lemma seeks_find_spec s k id :
  seeks_ok s k id ->
  let '(s', h) := seeks_find s d k id in
  (forall id', id_le id id' -> seeks_ok s' k id') /\
  match h with
  | HitDeleted => id ∈ deleted d k
  | HitUpserted i => upserts d k !! i = Some id /\ id ∉ deleted d k
  | HitNone => untouched (k, id)
  end.
Proof.
  intros [H1 H2]. unfold seeks_find. pose proof (seek_find_spec _ _ id (do_deleted Hd k) H2) as H.
  destruct (seek_find _ (deleted d k) id) as [sd r]. destruct H as [Hr Hs]. destruct r as [i|].
  - split; [|eapply list_elem_of_lookup_2; by apply Hr]. intros id' Hle. split; cbn; [by eapply seek_ok_mono|].
    rewrite pget_pset, decide_True by done. by apply Hs.
  - assert (id ∉ deleted d k) as Hnd. { intros [i Hi]%list_elem_of_lookup. apply Hr in Hi. done. }
    cbn [s_upserts s_deleted]. pose proof (seek_find_spec _ _ id (do_upserts Hd k) H1) as H.
    destruct (seek_find _ (upserts d k) id) as [su r]. destruct H as [Hr' Hs']. split.
    + intros id' Hle. split; cbn; rewrite pget_pset, decide_True by done; [by apply Hs'|by apply Hs].
    + destruct r as [i|]; [split; [by apply Hr'|done]|]. split; [|done]. intros [i Hi]%list_elem_of_lookup. cbn in Hi. apply Hr' in Hi. done.
Qed.

(** What a stretch of the rewrite adds to the frames: the surviving elements
    of [es] and the upserts from [c] to [c']. *)
Record adds (k : ElementKind) (es : list Place) (c c' : nat) (evs : list Event) : Prop := {
  ad_sorted : StronglySorted ev_lt evs;
  ad_base k' id : EvBase k' id ∈ evs <-> (k', id) ∈ es /\ untouched (k', id);
  ad_osc k' i : EvOsc k' i ∈ evs <-> k' = k /\ (c <= i < c')%nat }.

Lemma adds_join k es1 es2 c1 c2 c3 evs1 evs2 :
  (c1 <= c2 <= c3)%nat -> adds k es1 c1 c2 evs1 -> adds k es2 c2 c3 evs2 ->
  (forall a b, a ∈ evs1 -> b ∈ evs2 -> ev_lt a b) -> adds k (es1 ++ es2) c1 c3 (evs1 ++ evs2).
Proof.
  intros Hc [S1 B1 O1] [S2 B2 O2] Hlt. split.
  - by apply StronglySorted_app_intro.
  - intros k' id. rewrite !elem_of_app, B1, B2. naive_solver.
  - intros k' i. rewrite elem_of_app, O1, O2. split; [intros [[-> ?]|[-> ?]]; (split; [done|lia])|]. intros [-> ?].
    destruct (decide (i < c2)%nat); [left|right]; (split; [done|lia]).
Qed.

(** Cursor positions: everything before [c] is at or below [x], everything
    from [c] to [stop] is above. *)
Definition cut_at (k : ElementKind) (stop c : nat) (x : Z) : Prop :=
  (forall j, (j < c)%nat -> id_le (upserts d k !!! j) x) /\ (forall j, (c <= j < stop)%nat -> id_lt x (upserts d k !!! j)).

Lemma cut_at_from k stop c x :
  (stop <= length (upserts d k))%nat -> (forall j, (j < c)%nat -> id_le (upserts d k !!! j) x) ->
  ((c < stop)%nat -> id_lt x (upserts d k !!! c)) -> cut_at k stop c x.
Proof.
  intros Hs H1 H2. split; [done|]. intros j Hj. destruct (decide (j = c)) as [->|]; [apply H2; lia|].
  eapply id_lt_trans; [apply H2; lia|]. apply ups_lt. lia.
Qed.

Lemma adds_run k c c' : (c' <= length (upserts d k))%nat -> adds k [] c c' (EvOsc k <$> seq c (c' - c)).
Proof.
  intros Hc. split.
  - destruct (decide (c <= c')%nat); [apply run_sorted; lia|]. replace (c' - c)%nat with 0%nat by lia. constructor.
  - intros k' id. rewrite elem_of_run. split; [naive_solver|by intros [?%elem_of_nil _]].
  - intros k' i. rewrite elem_of_run. split; [intros (? & [= -> ->] & ?); split; [done|lia]|intros [-> ?]; exists i; split; [done|lia]].
Qed.

Lemma adds_modified k x c : x ∈ upserts d k -> adds k [(k, x)] c (S c) [EvOsc k c].
Proof.
  intros Hin. split; [repeat constructor| |].
  - intros k' id. rewrite !list_elem_of_singleton. unfold untouched. split; [done|]. by intros [[= -> ->] [? _]].
  - intros k' j. rewrite list_elem_of_singleton. split; [intros [= -> ->]; split; [done|lia]|]. intros [-> ?]. f_equal. lia.
Qed.

Lemma adds_kept k x c : untouched (k, x) -> adds k [(k, x)] c c [EvBase k x].
Proof.
  intros Hu. split; [repeat constructor| |].
  - intros k' id. rewrite !list_elem_of_singleton. split; [by intros [= -> ->]|]. by intros [[= -> ->] _].
  - intros k' j. rewrite list_elem_of_singleton. split; [done|]. intros [_ ?]. lia.
Qed.

Lemma adds_deleted k x c : x ∈ deleted d k -> adds k [(k, x)] c c [].
Proof.
  intros Hin. split; [constructor| |].
  - intros k' id. rewrite list_elem_of_singleton. split; [by intros ?%elem_of_nil|]. by intros [[= -> ->] [_ ?]].
  - intros k' j. split; [by intros ?%elem_of_nil|]. intros [_ ?]. lia.
Qed.

(** After the creates below [x], the next inline upsert is [x] itself, or the
    diff does not upsert [x]. *)
Lemma next_upsert k stop c x :
  (c <= stop <= length (upserts d k))%nat -> (forall j, (j < c)%nat -> id_lt (upserts d k !!! j) x) ->
  ((c < stop)%nat -> id_le x (upserts d k !!! c)) -> (forall j, upserts d k !! j = Some x -> (j < stop)%nat) ->
  (c < stop)%nat /\ upserts d k !! c = Some x /\ cut_at k stop (S c) x \/
  x ∉ upserts d k /\ cut_at k stop c x.
Proof.
  intros Hc Hbelow Hge Hstop. destruct (decide (c < stop /\ upserts d k !! c = Some x)%nat) as [[Hcs Hx]|Hno].
  - left. split_and!; [done|done|]. assert (upserts d k !!! c = x) as Ht by (by rewrite list_lookup_total_alt, Hx).
    apply cut_at_from; [lia| |].
    + intros j Hj. destruct (decide (j = c)) as [->|]; [rewrite Ht; apply key_le_refl|]. apply id_lt_le, Hbelow. lia.
    + intros Hs. rewrite <- Ht. apply ups_lt. lia.
  - right. split.
    + intros [j Hj]%list_elem_of_lookup. pose proof (Hstop j Hj) as Hjs.
      assert (upserts d k !!! j = x) as Ht by (by rewrite list_lookup_total_alt, Hj).
      destruct (Nat.lt_trichotomy j c) as [Hl|[->|Hl]]; [|by apply Hno|].
      * specialize (Hbelow j Hl). rewrite Ht in Hbelow. by apply id_lt_irrefl in Hbelow.
      * apply (id_lt_irrefl x). eapply id_le_lt_trans; [apply Hge; lia|]. rewrite <- Ht. apply ups_lt. lia.
    + apply cut_at_from; [lia|intros j Hj; by apply id_lt_le, Hbelow|]. intros Hs.
      destruct (id_le_cases _ _ (Hge Hs)) as [|Hx]; [done|]. exfalso. apply Hno. split; [done|].
      rewrite Hx. apply list_lookup_lookup_total_lt. lia.
Qed.

Lemma skip_modified_step k stop x w sk c fr s :
  (c < stop)%nat -> upserts d k !! c = Some x ->
  skip_modified d k stop x (mkRw w sk c fr s) = mkRw w sk (S c) fr s.
Proof. intros Hc Hx. unfold skip_modified. cbn [rw_cursor]. rewrite Hx, Z.eqb_refl. destruct (Nat.ltb_spec c stop); [done|lia]. Qed.

Lemma skip_modified_stay k stop x w sk c fr s :
  x ∉ upserts d k -> skip_modified d k stop x (mkRw w sk c fr s) = mkRw w sk c fr s.
Proof.
  intros Hx. unfold skip_modified. cbn. case_match; [|done]. destruct (upserts d k !! c) as [y|] eqn:Ey; [|done].
  destruct (Z.eqb_spec y x) as [->|]; [|done]. by apply list_elem_of_lookup_2 in Ey.
Qed.

Lemma rewrite_element_spec claim ctx past k stop x w sk c fr s :
  walked claim ctx past w -> key_le (w_previous w) (osm_id_key x) ->
  (c <= stop <= length (upserts d k))%nat -> (forall j, (j < c)%nat -> id_lt (upserts d k !!! j) x) ->
  (forall j, upserts d k !! j = Some x -> (j < stop)%nat) -> seeks_ok sk k x -> counted s fr ->
  exists sk' c' evs s', rewrite_element d k stop (mkRw w sk c fr s) (k, x) =
      Ok (mkRw (count_id w x (osm_id_key x)) sk' c' (fr ++ evs) s') /\
    (c <= c' <= stop)%nat /\ cut_at k stop c' x /\ (forall x', id_le x x' -> seeks_ok sk' k x') /\
    counted s' (fr ++ evs) /\ ms_deleted s' = ms_deleted s + del_count (k, x) /\ adds k [(k, x)] c c' evs.
Proof.
  intros Hw Hk Hc Hlow Hstop Hsk Hn. destruct (walk_observe_walked _ _ _ _ _ Hw Hk) as [Ho _].
  unfold rewrite_element. cbn [rw_walk]. rewrite Ho. cbn [walk_result mbind result_bind rw_seeks rw_cursor rw_frames rw_stats].
  destruct (creates_before_spec stop k stop x (mkRw (count_id w x (osm_id_key x)) sk c fr s)) as (c1 & s1 & E & Hn1 & Hd1 & Hc1 & Hlt & Hge);
    [cbn; lia|cbn; lia|done|]. cbn [rw_walk rw_seeks rw_cursor rw_frames rw_stats] in *. rewrite E.
  assert (forall j, (j < c1)%nat -> id_lt (upserts d k !!! j) x) as Hbelow.
  { intros j Hj. destruct (decide (j < c)%nat); [by apply Hlow|apply Hlt; lia]. }
  assert (adds k [] c c1 (EvOsc k <$> seq c (c1 - c))) as Hrun by (apply adds_run; lia).
  assert (forall a b, a ∈ (EvOsc k <$> seq c (c1 - c)) -> ev_place b = (k, x) -> ev_lt a b) as Hcross.
  { intros a b (i & -> & Hi)%elem_of_run Hb. unfold ev_lt. rewrite Hb. right. split; [done|]. apply Hbelow. lia. }
  pose proof (seeks_find_spec sk k x Hsk) as Hf. destruct (seeks_find sk d k x) as [sk' h] eqn:Eh. destruct Hf as [Hsk' Hh].
  assert (forall c' s' body, (c1 <= c' <= stop)%nat -> cut_at k stop c' x -> counted s' ((fr ++ (EvOsc k <$> seq c (c1 - c))) ++ body) ->
    ms_deleted s' = ms_deleted s1 + del_count (k, x) -> adds k [(k, x)] c1 c' body -> (forall b, b ∈ body -> ev_place b = (k, x)) ->
    exists sk0 c0 evs s0, Ok (E := MergeError) (mkRw (count_id w x (osm_id_key x)) sk' c' ((fr ++ (EvOsc k <$> seq c (c1 - c))) ++ body) s') =
        Ok (mkRw (count_id w x (osm_id_key x)) sk0 c0 (fr ++ evs) s0) /\
      (c <= c0 <= stop)%nat /\ cut_at k stop c0 x /\ (forall x', id_le x x' -> seeks_ok sk0 k x') /\
      counted s0 (fr ++ evs) /\ ms_deleted s0 = ms_deleted s + del_count (k, x) /\ adds k [(k, x)] c c0 evs) as Hdone.
  { intros c' s' body H1 H2 H3 H4 H5 H6. exists sk', c', ((EvOsc k <$> seq c (c1 - c)) ++ body), s'. rewrite app_assoc.
    split_and!; [done|lia|lia|done..|lia|]. eapply (adds_join k [] [(k, x)]); [|exact Hrun|exact H5|]; [lia|]. intros a b Ha Hb. apply Hcross; [done|by apply H6]. }
  destruct (next_upsert k stop c1 x) as [(Hc1s & Hx & Hcut)|[Hnin Hcut]]; [lia|done|done|done| |].
  - assert (x ∈ upserts d k) as Hin by (by eapply list_elem_of_lookup_2).
    rewrite skip_modified_step by done. cbn [rw_walk rw_seeks rw_cursor rw_frames rw_stats]. rewrite Eh.
    destruct h as [| |i]; [by destruct Hh|by destruct (do_disjoint Hd k x Hin Hh)|].
    destruct Hh as [Hi Hnd]. assert (i = c1) as -> by (eapply sorted_lookup_inj; [apply Hd|done|done]).
    apply Hdone; [cbn; lia|done|by apply counted_osc| |by apply adds_modified|].
    + unfold del_count. rewrite decide_False by done. cbn. lia.
    + intros b ->%list_elem_of_singleton. cbn. by rewrite list_lookup_total_alt, Hx.
  - rewrite skip_modified_stay by done. cbn [rw_walk rw_seeks rw_cursor rw_frames rw_stats]. rewrite Eh.
    destruct h as [| |i]; [| |by destruct Hh as [?%list_elem_of_lookup_2 _]].
    + apply Hdone; [cbn; lia|done|by apply counted_base| |by apply adds_kept|by intros b ->%list_elem_of_singleton].
      destruct Hh as [_ Hh]. unfold del_count. rewrite decide_False by done. cbn. lia.
    + rewrite <- (app_nil_r (fr ++ _)). apply Hdone; [cbn; lia|done|by rewrite app_nil_r| |by apply adds_deleted|by intros ? ?%elem_of_nil].
      unfold del_count. rewrite decide_True by done. cbn. lia.
Qed.

Lemma adds_hi k es c c' evs x a :
  adds k es c c' evs -> (forall e, e ∈ es -> place_le e (k, x)) -> (forall j, (c <= j < c')%nat -> id_le (upserts d k !!! j) x) ->
  a ∈ evs -> place_le (ev_place a) (k, x).
Proof.
  intros Ha He Hj Hin. destruct a as [k' id|k' i]; cbn.
  - apply (ad_base _ _ _ _ _ Ha) in Hin as [Hin _]. by apply He.
  - apply (ad_osc _ _ _ _ _ Ha) in Hin as [-> Hin]. right. split; [done|]. by apply Hj.
Qed.

Lemma adds_lo k es c c' evs x a :
  adds k es c c' evs -> (forall e, e ∈ es -> place_lt (k, x) e) -> (forall j, (c <= j < c')%nat -> id_lt x (upserts d k !!! j)) ->
  a ∈ evs -> place_lt (k, x) (ev_place a).
Proof.
  intros Ha He Hj Hin. destruct a as [k' id|k' i]; cbn.
  - apply (ad_base _ _ _ _ _ Ha) in Hin as [Hin _]. by apply He.
  - apply (ad_osc _ _ _ _ _ Ha) in Hin as [-> Hin]. right. split; [done|]. by apply Hj.
Qed.

Lemma elem_of_pairs (k k' : ElementKind) (id : Z) (ids : list Z) : (k', id) ∈ (pair k <$> ids) <-> k' = k /\ id ∈ ids.
Proof. rewrite list_elem_of_fmap. split; [by intros (? & [= -> ->] & ?)|]. intros [-> ?]. by exists id. Qed.

Lemma rewrite_loop_spec claim ctx k stop ids past w sk c fr s :
  walked claim ctx past w -> canonical_from (w_previous w) ids -> sorted_ids ids ->
  (c <= stop <= length (upserts d k))%nat -> (forall x j, x ∈ ids -> (j < c)%nat -> id_lt (upserts d k !!! j) x) ->
  (forall x j, x ∈ ids -> upserts d k !! j = Some x -> (j < stop)%nat) -> (forall x, x ∈ ids -> seeks_ok sk k x) -> counted s fr ->
  exists w' sk' c' evs s', rewrite_loop d k stop (mkRw w sk c fr s) (pair k <$> ids) = Ok (mkRw w' sk' c' (fr ++ evs) s') /\
    walked claim ctx (past ++ ids) w' /\ (c <= c' <= stop)%nat /\ counted s' (fr ++ evs) /\
    ms_deleted s' = ms_deleted s + total del_count (pair k <$> ids) /\ adds k (pair k <$> ids) c c' evs /\
    (forall x j, x ∈ ids -> (c' <= j < stop)%nat -> id_lt x (upserts d k !!! j)).
Proof.
  revert past w sk c fr s. induction ids as [|x ids IH]; intros past w sk c fr s Hw Hcan Hs Hc Hlow Hstop Hsk Hn.
  { exists w, sk, c, [], s. rewrite !app_nil_r. split_and!; [done|done|lia|lia|done|cbn; lia| |].
    - pose proof (adds_run k c c ltac:(lia)) as Hr. by rewrite Nat.sub_diag in Hr.
    - by intros ? ? ?%elem_of_nil. }
  destruct Hcan as [Hk Hcan]. apply StronglySorted_inv in Hs as [Hs Hx]. rewrite Forall_forall in Hx.
  destruct (rewrite_element_spec claim ctx past k stop x w sk c fr s) as (sk1 & c1 & evs1 & s1 & E1 & Hc1 & [Hle Hgt] & Hsk1 & Hn1 & Hd1 & Ha1);
    [done|done|done|intros j Hj; apply Hlow; [left|done]|intros j Hj; by eapply Hstop; [left|]|apply Hsk; left|done|].
  destruct (IH (past ++ [x]) (count_id w x (osm_id_key x)) sk1 c1 (fr ++ evs1) s1) as (w' & sk' & c' & evs2 & s' & E2 & Hw' & Hc' & Hn2 & Hd2 & Ha2 & Hgt2);
    [by apply walk_observe_walked|done|done|lia| |intros y j Hy; apply Hstop; by right| |done|].
  { intros y j Hy Hj. eapply id_le_lt_trans; [by apply Hle|by apply Hx]. }
  { intros y Hy. by apply Hsk1, id_lt_le, Hx. }
  rewrite <- app_assoc in Hw', E2, Hn2. rewrite fmap_cons. exists w', sk', c', (evs1 ++ evs2), s'. split_and!; [|done|lia|lia|done| | |].
  - cbn [rewrite_loop]. rewrite E1. exact E2.
  - rewrite Hd2, Hd1, total_cons. lia.
  - apply (adds_join k [(k, x)] _ c c1 c'); [lia|done|done|]. intros a b Ha Hb.
    apply (place_le_lt_trans _ (k, x)).
    + eapply adds_hi; [exact Ha1| |intros j Hj; apply Hle; lia|done]. intros e ->%list_elem_of_singleton. apply place_le_refl.
    + eapply adds_lo; [exact Ha2| |intros j Hj; apply Hgt; lia|done]. intros [k' y] [-> Hy]%elem_of_pairs. right. split; [done|by apply Hx].
  - intros y j [->|Hy]%elem_of_cons Hj; [apply Hgt; lia|by apply Hgt2].
Qed.

(** ** A whole blob *)

Definition claim_holds (claim : option BlobIndex) (ids : list Z) : Prop :=
  match claim with Some c => claim_exact c ids | None => True end.

Lemma walk_first_walked claim ctx past w : walked claim ctx past w -> walk_first w = head past.
Proof.
  intros (_ & _ & H3 & H4 & _). unfold walk_first. rewrite H3, tally_ids_zero. case_bool_decide as Hp; [by subst|by apply H4].
Qed.

Lemma walk_finish_ok claim ctx ids w :
  Forall (is_s 64) ids -> claim_holds claim ids -> walked claim ctx ids w -> exists r, walk_finish w = Ok r.
Proof.
  intros Hi Hc Hw. destruct claim as [c|].
  - pose proof (walk_finish_spec _ _ _ _ Hi Hw) as H. destruct (walk_finish w) as [r|e] eqn:E; [by eexists|]. exfalso.
    destruct Hw as (H1 & _ & H3 & _). unfold walk_finish in E. rewrite H1, H3 in E. unfold refuse_inexact in E.
    case_match; [done|]. injection E as <-. by apply H.
  - destruct Hw as (H1 & _). unfold walk_finish. rewrite H1. by eexists.
Qed.

Lemma blob_walk_walked claim : exists ctx, walked claim ctx [] (blob_walk claim) /\ w_previous (blob_walk claim) = osm_id_key 0.
Proof. eexists. split; [|done]. unfold walked, blob_walk. cbn. split_and!; [done..|by left]. Qed.

Lemma sorted_canonical ids : sorted_ids ids -> canonical_from (osm_id_key 0) ids.
Proof.
  intros Hs. apply canonical_from_zero. induction Hs as [|x ids Hs IH Hx]; constructor; [done|].
  eapply Forall_impl; [exact Hx|]. intros y Hy. by apply id_lt_le.
Qed.

Lemma seeks_default_ok k x : seeks_ok seeks_default k x.
Proof. by destruct k. Qed.

Lemma trailing_frames k n r :
  let r' := foldl (fun r i => write_osc_local r k i) r (seq (rw_cursor r) n) in
  counted (rw_stats r) (rw_frames r) ->
  rw_frames r' = rw_frames r ++ (EvOsc k <$> seq (rw_cursor r) n) /\ rw_walk r' = rw_walk r /\
  counted (rw_stats r') (rw_frames r') /\ ms_deleted (rw_stats r') = ms_deleted (rw_stats r).
Proof.
  generalize (rw_cursor r) as a. revert r. induction n as [|n IH]; intros r a; cbn [seq foldl].
  { cbn. by rewrite app_nil_r. }
  intros Hn. destruct (IH (write_osc_local r k a) (S a)) as (H1 & H2 & H3 & H4); [by apply counted_osc|].
  split_and!; [|done..]. rewrite H1. cbn. by rewrite <- app_assoc.
Qed.

(** The rewrite of a blob of the ids [ids], all of kind [k], with the upserts
    [start..stop] inline. *)
Lemma rewrite_block_spec b k ids claim start stop :
  b_elems b = pair k <$> ids -> sorted_ids ids -> Forall (is_s 64) ids -> claim_holds claim ids ->
  (start <= stop <= length (upserts d k))%nat ->
  (forall x j, x ∈ ids -> (j < start)%nat -> id_lt (upserts d k !!! j) x) ->
  (forall x j, x ∈ ids -> upserts d k !! j = Some x -> (j < stop)%nat) ->
  exists evs s, rewrite_block b d start stop k claim = Ok (evs, s) /\ adds k (pair k <$> ids) start stop evs /\
    counted s evs /\ ms_deleted s = total del_count (pair k <$> ids).
Proof.
  intros He Hs Hi Hcl Hss Hlow Hstop. destruct (blob_walk_walked claim) as (ctx & Hw & Hp).
  destruct (rewrite_loop_spec claim ctx k stop ids [] (blob_walk claim) seeks_default start [] stats_new) as (w & sk & c & evs & s & E & Hw' & Hc & Hn & Hdl & Ha & Hgt);
    [done|rewrite Hp; by apply sorted_canonical|done|done|done|done|intros; apply seeks_default_ok|intros []; done|].
  unfold rewrite_block. rewrite He, E. cbn [mbind result_bind rw_cursor]. 
  destruct (trailing_frames k (stop - c) (mkRw w sk c ([] ++ evs) s) Hn) as (H1 & H2 & H3 & H4). cbn [rw_cursor] in *.
  set (r' := foldl _ _ _) in *. rewrite H2. cbn [rw_walk]. destruct (walk_finish_ok claim ctx ids w Hi Hcl Hw') as [r ->].
  cbn [walk_result mbind result_bind]. eexists _, _. split; [done|]. rewrite H1. cbn [rw_frames app]. split_and!.
  - rewrite <- (app_nil_r (pair k <$> ids)). apply (adds_join k _ [] start c stop); [lia|done|apply adds_run; lia|].
    intros a e Hin (i & -> & Hi')%elem_of_run. destruct a as [k' x|k' j].
    + apply (ad_base _ _ _ _ _ Ha) in Hin as [[-> Hx]%elem_of_pairs _]. right. split; [done|]. apply Hgt; [done|lia].
    + apply (ad_osc _ _ _ _ _ Ha) in Hin as [-> Hj]. right. split; [done|]. apply ups_lt. lia.
  - by rewrite H1 in H3.
  - rewrite H4. cbn [rw_stats]. rewrite Hdl. cbn. lia.
Qed.

Lemma overlap_loop_spec claim ctx k ids past w sk :
  walked claim ctx past w -> canonical_from (w_previous w) ids -> sorted_ids ids -> (forall x, x ∈ ids -> seeks_ok sk k x) ->
  exists w' hit, overlap_loop d sk w (pair k <$> ids) = Ok (w', hit) /\
    (exists seen, walked claim ctx (past ++ seen) w' /\ (ids <> [] -> seen <> []) /\ seen `prefix_of` ids /\ (hit = false -> seen = ids)) /\
    (hit = false -> forall x, x ∈ ids -> untouched (k, x)).
Proof.
  revert past w sk. induction ids as [|x ids IH]; intros past w sk Hw Hcan Hs Hsk.
  { exists w, false. split_and!; [done| |by intros _ ? ?%elem_of_nil]. exists []. by rewrite app_nil_r. }
  destruct Hcan as [Hk Hcan]. apply StronglySorted_inv in Hs as [Hs Hx]. rewrite Forall_forall in Hx.
  destruct (walk_observe_walked _ _ _ _ _ Hw Hk) as [Ho Hw1]. rewrite fmap_cons. cbn [overlap_loop]. rewrite Ho. cbn [walk_result mbind result_bind].
  pose proof (seeks_find_spec sk k x (Hsk x ltac:(left))) as Hf. destruct (seeks_find sk d k x) as [sk' h]. destruct Hf as [Hsk' Hh].
  assert (exists seen, walked claim ctx (past ++ seen) (count_id w x (osm_id_key x)) /\ (x :: ids <> [] -> seen <> []) /\
    seen `prefix_of` x :: ids /\ (true = false -> seen = x :: ids)) as Hstop.
  { exists [x]. split_and!; [done|done|by exists ids|done]. }
  destruct h as [| |i]; [|exists (count_id w x (osm_id_key x)), true; by split_and!..].
  destruct (IH (past ++ [x]) (count_id w x (osm_id_key x)) sk') as (w' & hit & E & (seen & H1 & H2 & H3 & H4) & H5);
      [done|done|done|intros y Hy; by apply Hsk', id_lt_le, Hx|].
  exists w', hit. split_and!; [done| |].
  - exists (x :: seen). rewrite <- app_assoc in H1. split_and!; [done|done|by apply prefix_cons|intros ?; by rewrite H4].
  - intros Hhit y [->|Hy]%elem_of_cons; [done|by apply H5].
Qed.

(** ** The range a blob is placed by *)

Definition range_exact (mn mx : Z) (ids : list Z) : Prop := mn ∈ ids /\ mx ∈ ids /\ Forall (fun x => mn <= x <= mx) ids.

Lemma sorted_last_le ids l x : sorted_ids ids -> list.last ids = Some l -> x ∈ ids -> id_le x l.
Proof.
  intros Hs [ids' ->]%last_Some [Hx| ->%list_elem_of_singleton]%elem_of_app; [|apply key_le_refl].
  apply StronglySorted_app_le in Hs as (_ & _ & Hs). apply id_lt_le, Hs; [done|by left].
Qed.

Lemma range_last mn mx ids l :
  range_exact mn mx ids -> sorted_ids ids -> list.last ids = Some l -> blob_osm_last_key mn mx = osm_id_key l.
Proof.
  intros (Hmn & Hmx & Hall) Hs Hl. rewrite Forall_forall in Hall.
  pose proof (fun x => sorted_last_le ids l x Hs Hl) as Hle.
  apply key_le_antisym.
  - destruct (blob_last_key_present mn mx) as [-> | ->]; by apply Hle.
  - assert (l ∈ ids) as Hin by (by apply last_Some_elem_of). by apply blob_keys_bound, Hall.
Qed.

Lemma range_first mn mx ids f :
  range_exact mn mx ids -> f ∈ ids ->
  mn <= mx /\ id_le (blob_osm_first_id mn mx) f /\
  (exists x, x ∈ ids /\ blob_osm_present_first_key mn mx = osm_id_key x).
Proof.
  intros (Hmn & Hmx & Hall) Hf. rewrite Forall_forall in Hall. pose proof (Hall _ Hf) as Hb. split_and!; [lia| |].
  - assert (osm_id_key (blob_osm_first_id mn mx) = blob_osm_first_key mn mx) as Hk
      by (unfold blob_osm_first_id, blob_osm_first_key; repeat case_match; done).
    unfold id_le. rewrite Hk. by apply blob_keys_bound.
  - destruct (blob_present_first_key_present mn mx) as [-> | ->]; [lia|by exists mn|by exists mx].
Qed.

Lemma single_kind_loop_spec k ids mn mx :
  single_kind_loop (Some (k, mn, mx)) (pair k <$> ids) = Ok (Some (k, foldl Z.min mn ids, foldl Z.max mx ids)).
Proof.
  revert mn mx. induction ids as [|x ids IH]; intros mn mx; [done|]. rewrite fmap_cons. cbn [single_kind_loop foldl].
  rewrite decide_True by done. apply IH.
Qed.

Lemma foldl_extremes ids x :
  range_exact (foldl Z.min x ids) (foldl Z.max x ids) (x :: ids).
Proof.
  induction ids as [|y ids IH] using rev_ind; cbn.
  { split_and!; [by left|by left|by repeat constructor]. }
  rewrite !foldl_app. cbn. destruct IH as (H1 & H2 & H3). set (m := foldl Z.min x ids) in *. set (M := foldl Z.max x ids) in *.
  rewrite app_comm_cons. split_and!.
  - destruct (Z.min_spec m y) as [[_ ->]|[_ ->]]; set_solver.
  - destruct (Z.max_spec M y) as [[_ ->]|[_ ->]]; set_solver.
  - apply Forall_app. split; [eapply Forall_impl; [exact H3|]; cbn; lia|]. repeat constructor; lia.
Qed.

(** ** What the drain may rely on *)

(** The upserts before [a] are below [g], those before [e] at or below [l]. *)
Record cuts (k : ElementKind) (g : Z) (l : OsmIdKey) (a e : nat) : Prop := {
  cu_order : (a <= e <= length (upserts d k))%nat;
  cu_gap j : (j < length (upserts d k))%nat -> (j < a)%nat <-> id_lt (upserts d k !!! j) g;
  cu_last j : (j < length (upserts d k))%nat -> (j < e)%nat <-> key_le (osm_id_key (upserts d k !!! j)) l }.

Lemma upsert_range_cuts k g l :
  key_le (osm_id_key g) l -> let '(a, e) := upsert_range d k g l in cuts k g l a e.
Proof.
  intros Hgl. pose proof (upsert_range_spec d k g l (do_upserts Hd k)) as H.
  assert (forall j, (j < length (upserts d k))%nat -> (j < (upsert_range d k g l).1)%nat <-> id_lt (upserts d k !!! j) g) as Ha.
  { intros j Hj. unfold upsert_range. cbn [fst]. set (q := fun id => key_ltb (osm_id_key id) (osm_id_key g)).
    assert (partitioned q (upserts d k)) as Hq.
    { apply sorted_partitioned; [apply Hd|]. intros x y Hxy. unfold q, id_le in *. rewrite !key_ltb_lt. unfold key_le, key_lt in *. lia. }
    destruct (partition_point_spec q (upserts d k) Hq) as (_ & Hlt & Hge). unfold id_lt. rewrite <- key_ltb_lt.
    assert (upserts d k !! j = Some (upserts d k !!! j)) as Hx by (by apply list_lookup_lookup_total_lt). split.
    - intros Hj'. by apply (Hlt j).
    - intros Hx'. destruct (decide (j < partition_point q (upserts d k))%nat) as [|Hn]; [done|].
      assert (q (upserts d k !!! j) = false) by (apply (Hge j); [lia|done]). unfold q in *. congruence. }
  destruct (upsert_range d k g l) as [a e] eqn:E. cbn [fst] in Ha. destruct H as [Ho H]. split; [done|done|]. intros j Hj.
  assert (upserts d k !! j = Some (upserts d k !!! j)) as Hx by (by apply list_lookup_lookup_total_lt).
  specialize (H j _ Hx). specialize (Ha j Hj). split.
  - intros Hje. destruct (decide (j < a)%nat) as [Hja|Hja]; [|apply H; lia]. apply Ha in Hja. eapply key_le_trans; [by apply id_lt_le|done].
  - intros Hl. destruct (decide (j < a)%nat) as [Hja|Hja]; [lia|]. apply H. split; [|done]. apply id_not_lt. intros ?%Ha. lia.
Qed.

Definition item_body (b : Blob) (item : DrainItem) : list Event :=
  match item with
  | CopyRange _ _ _ _ _ _ => frame_of b
  | OwnedBytes frame _ _ _ _ _ _ => frame
  | Rewritten frames _ _ _ _ => frames
  | Omitted => []
  end.

Definition item_deleted (item : DrainItem) : Z :=
  match item with Rewritten _ _ _ _ s => ms_deleted s | _ => 0 end.

Definition item_shape (splice : bool) (b : Blob) (a e : nat) (item : DrainItem) : Prop :=
  match item with
  | CopyRange s len _ _ _ cnt => splice = true /\ s = b_start b /\ len = b_len b /\ a = e /\ cnt = Z.of_nat (length (b_elems b))
  | OwnedBytes frame _ _ _ _ cnt _ => frame = frame_of b /\ a = e /\ cnt = Z.of_nat (length (b_elems b))
  | Rewritten frames _ _ _ s => counted s frames
  | Omitted => False
  end.

(** An item that serves the blob [b] of the ids [ids], all of kind [k]. *)
Record serves (splice : bool) (b : Blob) (k : ElementKind) (ids : list Z) (item : DrainItem) (p : Placement) (a e : nat) : Prop := {
  sv_place : placement item = Some p;
  sv_kind : pl_kind p = k;
  sv_range : (pl_range p).1 <= (pl_range p).2;
  sv_last l : list.last ids = Some l -> blob_osm_last_key (pl_range p).1 (pl_range p).2 = osm_id_key l;
  sv_first : exists x, x ∈ ids /\ order_first_key p = osm_id_key x;
  sv_gap x : x ∈ ids -> id_le (gap_bound p) x;
  sv_cuts : cuts k (gap_bound p) (blob_osm_last_key (pl_range p).1 (pl_range p).2) a e;
  sv_adds : adds k (pair k <$> ids) a e (item_body b item);
  sv_shape : item_shape splice b a e item;
  sv_decoded : a = e \/ gap_bound p ∈ ids;
  sv_deleted : item_deleted item = total del_count (pair k <$> ids) }.

Lemma untouched_frame b k ids c :
  b_elems b = pair k <$> ids -> sorted_ids ids -> (forall x, x ∈ ids -> untouched (k, x)) ->
  adds k (pair k <$> ids) c c (frame_of b) /\ total del_count (pair k <$> ids) = 0.
Proof.
  intros He Hs Hu. unfold frame_of. rewrite He. clear He. induction Hs as [|x ids Hs IH Hx].
  { split; [|done]. split; [constructor| |]; intros; cbn; rewrite !elem_of_nil; naive_solver lia. }
  destruct IH as [IH1 IH2]; [intros y Hy; apply Hu; by right|]. assert (untouched (k, x)) as Hux by (apply Hu; by left). rewrite !fmap_cons. split.
  - apply (adds_join k [(k, x)] _ c c c [EvBase k x]); [lia|by apply adds_kept|done|]. intros a e ->%list_elem_of_singleton He.
    eapply adds_lo in He; [exact He|exact IH1| |lia]. intros [k' y] [-> Hy]%elem_of_pairs. right. split; [done|]. by eapply Forall_forall in Hx.
  - rewrite total_cons, IH2. unfold del_count. rewrite decide_False; [done|]. apply Hux.
Qed.

(** ** Honest blobs *)

Definition blob_ids (b : Blob) : list Z := (b_elems b).*2.

Definition describes (c : BlobIndex) (b : Blob) : Prop :=
  b_elems b = pair (kind c) <$> blob_ids b /\ claim_exact c (blob_ids b).

(** The indexdata is exact; without it, the scan's index is, or there is none
    and the elements are of one kind. *)
Definition honest (b : Blob) : Prop :=
  Forall (is_s 64) (blob_ids b) /\
  match b_index b with
  | Some c => describes c b
  | None => match b_scan b with Some c => describes c b | None => exists k, b_elems b = pair k <$> blob_ids b end
  end.

Lemma claim_range c b : describes c b -> range_exact (min_id c) (max_id c) (blob_ids b) /\ count c = Z.of_nat (length (b_elems b)).
Proof. intros [He (_ & Hc & H1 & H2 & H3)]. split; [done|]. rewrite Hc. unfold blob_ids. by rewrite length_fmap. Qed.

Lemma refuse_under_same k (ids : list Z) claim :
  (forall c, claim = Some c -> c = k) -> refuse_under (kinds_of (pair k <$> ids).*1) claim = Ok ().
Proof.
  intros Hc. unfold refuse_under. destruct claim as [c|]; [|done]. rewrite (Hc c eq_refl).
  destruct (foreign_to _ k) as [f|] eqn:E; [|done]. apply foreign_to_some in E as [Hne Hf]. apply kinds_of_has in Hf.
  rewrite <- list_fmap_compose in Hf. apply list_elem_of_fmap in Hf as (? & -> & _). done.
Qed.

(** What [derive] and [effective] give for an honest blob with an element. *)
Lemma derive_ok b : honest b -> blob_ids b <> [] -> exists der k mn mx,
  derive b = Ok der /\ der <> NoElement /\ effective b der = Some (k, mn, mx) /\ b_elems b = pair k <$> blob_ids b /\
  range_exact mn mx (blob_ids b) /\ (forall c, b_index b = Some c -> kind c = k /\ mn = min_id c /\ mx = max_id c) /\
  (forall c, der = Indexed c -> count c = Z.of_nat (length (b_elems b))) /\ (b_index b = None -> der <> NotDerived).
Proof.
  intros [_ Hh] Hne. unfold derive. destruct (b_index b) as [c|] eqn:Ei.
  { destruct (claim_range c b Hh) as [Hr _]. destruct Hh as [He _]. eexists NotDerived, _, _, _. cbn. rewrite Ei.
    split_and!; try done. by intros ? [= ->]. }
  destruct (b_scan b) as [c|].
  { destruct (claim_range c b Hh) as [Hr Hcn]. destruct Hh as [He _]. eexists (Indexed c), _, _, _. split_and!; try done. by intros ? [= <-]. }
  destruct Hh as [k He]. unfold single_kind_range. rewrite He. destruct (blob_ids b) as [|x ids]; [done|]. rewrite fmap_cons.
  cbn [single_kind_loop]. rewrite single_kind_loop_spec. cbn [mbind result_bind]. eexists _, k, _, _. split; [done|]. cbn [effective].
  split_and!; try done. apply foldl_extremes.
Qed.

Lemma placed k ids mn mx first :
  sorted_ids ids -> ids <> [] -> range_exact mn mx ids -> (first = None \/ first = head ids) ->
  let p := mkPlace k (mn, mx) first in
  mn <= mx /\ (forall l, list.last ids = Some l -> blob_osm_last_key mn mx = osm_id_key l) /\
  (exists x, x ∈ ids /\ order_first_key p = osm_id_key x) /\ (forall x, x ∈ ids -> id_le (gap_bound p) x) /\
  key_le (osm_id_key (gap_bound p)) (blob_osm_last_key mn mx).
Proof.
  intros Hs Hne Hr Hf p. destruct ids as [|f ids]; [done|]. destruct (range_first mn mx _ f Hr ltac:(left)) as (Hm & _ & Hp).
  assert (forall x, x ∈ f :: ids -> id_le (gap_bound p) x) as Hg.
  { intros x Hx. destruct Hf as [->| ->]; cbn.
    - by apply (range_first mn mx (f :: ids)).
    - apply StronglySorted_inv in Hs as [_ Hs]. apply elem_of_cons in Hx as [->|Hx]; [apply key_le_refl|]. eapply id_lt_le, Forall_forall; done. }
  split_and!; [done|intros l; by apply range_last| |done|].
  - destruct Hf as [->| ->]; cbn; [done|]. exists f. split; [left|done].
  - eapply key_le_trans; [apply (Hg f); left|]. destruct Hr as (_ & _ & Hall). eapply Forall_forall in Hall; [|left]. by apply blob_keys_bound.
Qed.

Lemma serves_pass splice b k ids item mn mx first a :
  b_elems b = pair k <$> ids -> sorted_ids ids -> ids <> [] -> range_exact mn mx ids -> (first = None \/ first = head ids) ->
  placement item = Some (mkPlace k (mn, mx) first) -> item_shape splice b a a item -> item_body b item = frame_of b -> item_deleted item = 0 ->
  (forall x, x ∈ ids -> untouched (k, x)) -> cuts k (gap_bound (mkPlace k (mn, mx) first)) (blob_osm_last_key mn mx) a a ->
  serves splice b k ids item (mkPlace k (mn, mx) first) a a.
Proof.
  intros He Hs Hne Hr Hf Hp Hsh Hb Hdl Hu Hc. destruct (placed k ids mn mx first Hs Hne Hr Hf) as (H1 & H2 & H3 & H4 & _).
  destruct (untouched_frame b k ids a He Hs Hu) as [Ha Hd0]. split; try done; [by rewrite Hb|by left|congruence].
Qed.

(** The scanner's own passthrough. *)
Lemma undecoded_ok splice b c :
  honest b -> sorted_ids (blob_ids b) -> b_index b = Some c ->
  range_overlaps d (kind c) (min_id c) (max_id c) = false ->
  exists item p a, pass_through_indexed splice b None = Ok item /\ serves splice b (kind c) (blob_ids b) item p a a.
Proof.
  intros [_ Hh] Hs Hi Ho. rewrite Hi in Hh. destruct (claim_range c b Hh) as [Hr Hcn]. destruct Hh as [He (Hne & _)].
  destruct (placed (kind c) _ _ _ None Hs Hne Hr ltac:(by left)) as (H1 & H2 & H3 & H4 & H5). cbn [gap_bound pl_first] in *. unfold gap_bound in *. cbn [pl_first pl_range fst snd] in *.
  set (mn := min_id c) in *. set (mx := max_id c) in *. set (k := kind c) in *.
  assert (forall id, id ∈ upserts d k \/ id ∈ deleted d k -> key_le (osm_id_key (blob_osm_first_id mn mx)) (osm_id_key id) -> key_le (osm_id_key id) (blob_osm_last_key mn mx) -> False) as Hno.
  { intros id Hin Hf Hl. assert (range_overlaps d k mn mx = true); [|congruence]. apply range_overlaps_spec; [apply Hd|apply Hd|].
    exists id. split_and!; [done| |done]. assert (osm_id_key (blob_osm_first_id mn mx) = blob_osm_first_key mn mx) as <-
      by (unfold blob_osm_first_id, blob_osm_first_key; repeat case_match; done). done. }
  pose proof (upsert_range_cuts k (blob_osm_first_id mn mx) (blob_osm_last_key mn mx) H5) as Hc.
  destruct (upsert_range d k _ _) as [a e]. assert (a = e) as <-.
  { destruct Hc as [Ho' Hg Hl]. destruct (decide (a = e)) as [|Hae]; [done|]. exfalso. assert (a < length (upserts d k))%nat as Ha by lia.
    apply (Hno (upserts d k !!! a)); [left; by apply list_elem_of_lookup_total_2| |apply Hl; lia].
    apply id_not_lt. intros Hlt. apply Hg in Hlt; [lia|done]. }
  unfold pass_through_indexed. rewrite Hi. eexists _, (mkPlace k (mn, mx) None), a. split; [done|].
  eapply serves_pass; [done|done|done|done|by left|by destruct splice|destruct splice; cbn; by rewrite Hcn|by destruct splice|by destruct splice| |done].
  intros x Hx. assert (key_le (osm_id_key x) (blob_osm_last_key mn mx)) as Hxl.
  { destruct Hr as (_ & _ & Hall). eapply Forall_forall in Hall; [|exact Hx]. by apply blob_keys_bound. }
  split; cbn; intros Hin; (apply (Hno x); [tauto|by apply H4|done]).
Qed.

(** A worker's item, passed on or rewritten. *)
Lemma handle_candidate_ok splice b :
  honest b -> sorted_ids (blob_ids b) -> blob_ids b <> [] ->
  exists k item p a e, b_elems b = pair k <$> blob_ids b /\ handle_candidate d splice b = Ok item /\ serves splice b k (blob_ids b) item p a e.
Proof.
  intros Hh Hs Hne. destruct (derive_ok b Hh Hne) as (der & k & mn & mx & Ed & Hno & Ee & He & Hr & Hix & Hcn & Hnd).
  set (ids := blob_ids b) in *. destruct (blob_walk_walked (b_index b)) as (ctx & Hw & Hp).
  assert (claim_holds (b_index b) ids) as Hcl. { destruct Hh as [_ Hh]. destruct (b_index b); [apply Hh|done]. }
  destruct (overlap_loop_spec (b_index b) ctx k ids [] (blob_walk (b_index b)) seeks_default) as (w & hit & Eo & (seen & Hseen & Hsn & Hpre & Hall) & Hun);
    [done|rewrite Hp; by apply sorted_canonical|done|intros; apply seeks_default_ok|].
  assert (walk_first w = head ids) as Hwf.
  { rewrite (walk_first_walked _ _ _ _ Hseen). cbn. destruct Hpre as [rest ->]. destruct seen; [by destruct Hsn|done]. }
  assert (exists r, (if hit then Ok None else walk_result (walk_finish w)) = Ok r) as [r Efin].
  { destruct hit; [by eexists|]. rewrite (Hall eq_refl) in Hseen. destruct (walk_finish_ok (b_index b) ctx ids w) as [r ->]; [apply Hh|done|done|]. by eexists. }
  destruct (head ids) as [f|] eqn:Ef; [|by destruct ids].
  destruct (placed k ids mn mx (Some f) Hs Hne Hr ltac:(by right)) as (H1 & H2 & H3 & H4 & H5).
  pose proof (upsert_range_cuts k f (blob_osm_last_key mn mx) H5) as Hc. unfold handle_candidate, block_overlaps_diff, upsert_slice.
  destruct (upsert_range d k f (blob_osm_last_key mn mx)) as [a e] eqn:Eu.
  rewrite He, refuse_under_same by (intros c; destruct (b_index b) as [ix|] eqn:Ei; [intros [= <-]; by apply Hix|done]).
  cbn [mbind result_bind]. rewrite Ed. cbn [mbind result_bind]. rewrite Eo.
  destruct (rewrite_block_spec b k ids (b_index b) a e) as (evs & s & Er & Ha & Hns & Hds); [done|done|apply Hh|done|apply Hc| | |].
  { intros x j Hx Hj. eapply id_lt_le_trans; [|by apply H4]. apply (cu_gap _ _ _ _ _ Hc); [destruct Hc; lia|done]. }
  { intros x j Hx Hj. apply (cu_last _ _ _ _ _ Hc); [by eapply lookup_lt_Some|]. rewrite list_lookup_total_alt, Hj. cbn.
    destruct Hr as (_ & _ & Hb). eapply Forall_forall in Hb; [|exact Hx]. by apply blob_keys_bound. }
  assert (serves splice b k ids (Rewritten evs k (mn, mx) f s) (mkPlace k (mn, mx) (Some f)) a e) as Hrew by (split; try done; right; by apply head_Some_elem_of).
  exists k. destruct der as [|c|k' mn' mx'|]; [| | |done];
    cbn [mbind result_bind]; rewrite Efin; cbn [mbind result_bind]; rewrite Hwf; cbn [ok_or mbind result_bind]; rewrite Ee; cbn [ok_or mbind result_bind must_reencode];
    rewrite Eu, Er; cbn [mbind result_bind].
  all: destruct (negb hit && (e <=? a)%nat) eqn:Epass; cbn [andb negb]; [|by exists (Rewritten evs k (mn, mx) f s), (mkPlace k (mn, mx) (Some f)), a, e].
  3: by exists (Rewritten evs k (mn, mx) f s), (mkPlace k (mn, mx) (Some f)), a, e.
  all: apply andb_true_iff in Epass as [->%negb_true_iff Hae%Nat.leb_le]; assert (a = e) as <- by (destruct Hc; lia).
  - destruct (b_index b) as [c|] eqn:Ei; [|by destruct Hnd]. destruct (Hix c eq_refl) as (Hk & Hmn & Hmx).
    destruct Hh as [_ Hh]. rewrite Ei in Hh. destruct (claim_range c b Hh) as [_ Hct]. unfold pass_through_indexed. rewrite Ei.
    eexists _, (mkPlace k (mn, mx) (Some f)), a, a. split_and!; [done|done|].
    eapply serves_pass; [done|done|done|done|by right|by destruct splice; subst|destruct splice; cbn; by rewrite Hct|by destruct splice|by destruct splice|by apply Hun|done].
  - eexists _, (mkPlace k (mn, mx) (Some f)), a, a. split_and!; [done|done|].
    eapply serves_pass; [done|done|done|done|by right|done|by cbn; rewrite (Hcn c eq_refl)|done|done|by apply Hun|done].
Qed.

(** The item of an honest blob of a sorted base. *)
Lemma blob_item_ok splice b :
  honest b -> sorted_ids (blob_ids b) -> blob_ids b <> [] ->
  exists k item p a e, b_elems b = pair k <$> blob_ids b /\ blob_item d splice b = Ok item /\ serves splice b k (blob_ids b) item p a e.
Proof.
  intros Hh Hs Hne. unfold blob_item, route_blob. destruct (b_index b) as [c|] eqn:Ei; [|by apply handle_candidate_ok].
  destruct (range_overlaps d _ _ _) eqn:Eo; [by apply handle_candidate_ok|]. cbn [negb].
  destruct (undecoded_ok splice b c Hh Hs Ei Eo) as (item & p & a & Ep & Hsv).
  assert (b_elems b = pair (kind c) <$> blob_ids b) as He by (destruct Hh as [_ Hh]; rewrite Ei in Hh; apply Hh).
  exists (kind c), item, p, a, a. destruct splice; cbn [mbind result_bind]; rewrite Ep; by split_and!.
Qed.

(** A blob without an element, which only an unindexed one can be. *)
Lemma empty_item splice b : honest b -> b_elems b = [] -> blob_item d splice b = Ok Omitted.
Proof.
  intros [_ Hh] He. unfold describes, claim_exact, blob_ids in Hh. unfold blob_item, route_blob. rewrite He in Hh. cbn in Hh.
  destruct (b_index b) as [c|] eqn:Ei; [naive_solver|]. destruct (b_scan b) as [c|] eqn:Es; [naive_solver|].
  cbn. unfold handle_candidate, derive, single_kind_range. by rewrite Ei, Es, He.
Qed.
End Items.
