(* ===== verification/ApplyMerge.v ===== *)
(** * apply-changes merges: the drain's theorem

    From the items' promise ([serves]) to the output: the file apply-changes
    writes holds, in canonical order, exactly the base elements the diff leaves
    alone and every upsert of the diff, whatever order the workers finish in. *)

From S2P Require Import Prelude StdSlice OsmId ElementKind BlobMeta SortedDiff.
From S2P Require Import OscInterner OscArena OscOverlay ApplyRewrite ApplyDrain ApplySchedule ApplyItems.

(** ** Create runs are written whole and in order *)

Lemma chunks_events k size fuel start stop :
  (0 < size)%nat -> (stop - start <= fuel)%nat ->
  mjoin (block_events k <$> chunks fuel start stop size) = EvOsc k <$> seq start (stop - start).
Proof.
  intros Hs. revert start. induction fuel as [|fuel IH]; intros start Hf; cbn [chunks].
  { by replace (stop - start)%nat with 0%nat by lia. }
  destruct (Nat.ltb_spec start stop) as [Hlt|Hge]; [|by replace (stop - start)%nat with 0%nat by lia].
  rewrite fmap_cons. cbn [mjoin list_join]. rewrite IH by lia. unfold block_events. cbn [fst snd]. rewrite <- fmap_app. f_equal.
  destruct (Nat.le_gt_cases stop (start + size)) as [Hle|Hgt].
  - rewrite Nat.min_l by lia. replace (stop - (start + size))%nat with 0%nat by lia. by rewrite app_nil_r.
  - rewrite Nat.min_r by lia. replace (stop - start)%nat with (start + size - start + (stop - (start + size)))%nat by lia.
    rewrite seq_app. by replace (start + (start + size - start))%nat with (start + size)%nat by lia.
Qed.

Lemma chunks_batches k cap size fuel start stop :
  (0 < size)%nat -> (0 < cap)%nat -> (stop - start <= fuel)%nat ->
  mjoin ((fun batch => mjoin (block_events k <$> chunks (batch.2 - batch.1) batch.1 batch.2 cap)) <$> chunks fuel start stop size) =
  EvOsc k <$> seq start (stop - start).
Proof.
  intros Hs Hc Hf. rewrite <- (chunks_events k size fuel start stop) by done. f_equal. apply list_fmap_ext.
  intros i [a b] _. cbn. by apply chunks_events.
Qed.

Lemma write_run_events executor k start stop : write_run executor k start stop = EvOsc k <$> seq start (stop - start).
Proof.
  assert (0 < DEFAULT_ELEMENT_CAP)%nat by (unfold DEFAULT_ELEMENT_CAP; lia).
  unfold write_run. destruct (executor && _); [apply chunks_batches; [unfold APPLY_CHANGES_CREATE_BATCH_BLOCKS; lia|done|lia]|by apply chunks_events].
Qed.

Lemma filter_ext_in {A} (P Q : A -> Prop) `{!forall x, Decision (P x), !forall x, Decision (Q x)} (l : list A) :
  (forall x, x ∈ l -> P x <-> Q x) -> filter P l = filter Q l.
Proof.
  induction l as [|x l IH]; intros Hl; [done|]. rewrite !filter_cons. rewrite IH by (intros y Hy; apply Hl; by right).
  pose proof (Hl x ltac:(left)) as Hx. repeat case_decide; tauto.
Qed.

Lemma pset_pget {A} (p : PerKind A) k : pset p k (pget p k) = p.
Proof. by destruct p, k. Qed.

Lemma sorted_pairs (k : ElementKind) (ids : list Z) : StronglySorted place_lt (pair k <$> ids) -> sorted_ids ids.
Proof.
  induction ids as [|x ids IH]; intros Hs; [constructor|]. rewrite fmap_cons in Hs. apply StronglySorted_inv in Hs as [Hs Hx].
  constructor; [by apply IH|]. apply Forall_forall. intros y Hy. rewrite Forall_forall in Hx.
  destruct (Hx (k, y)) as [?|[_ ?]]; [by apply elem_of_pairs|cbn in *; lia|done].
Qed.

(** The elements of a list of blobs. *)
Definition elems_of (bs : list Blob) : list Place := bs ≫= b_elems.

Lemma honest_kind b : honest b -> exists k, b_elems b = pair k <$> blob_ids b.
Proof. intros [_ Hh]. unfold describes in Hh. repeat case_match; naive_solver. Qed.

Section Merge.
Context (file : list Blob) (executor : bool) (d : SortedDiff) (splice : bool).
Context (Hd : diff_ok d).

(** ** What the drain has accepted *)

(** Frames held back: a range to copy, or owned frames. *)
Definition held (st : DrainState) : list Event :=
  match ds_run st with Some (s, e) => frames_between file s e | None => [] end ++ mjoin (ds_chunks st).*2.

Definition shown (st : DrainState) : list Event := ds_out st ++ held st.

Definition held_ok (st : DrainState) : Prop :=
  match ds_run st with Some (s, e) => s <= e /\ splice = true /\ ds_chunks st = [] | None => True end.

Definition idle (st : DrainState) : Prop := ds_run st = None /\ ds_chunks st = [].

Lemma idle_shown st : idle st -> shown st = ds_out st.
Proof. intros [H1 H2]. unfold shown, held. by rewrite H1, H2, app_nil_r. Qed.

(** Everything but the output and what is held back. *)
Definition same (st st' : DrainState) : Prop :=
  ds_last_type st' = ds_last_type st /\ ds_cursors st' = ds_cursors st /\ ds_watermark st' = ds_watermark st /\ ds_stats st' = ds_stats st.

Lemma flush_copy_ok st :
  held_ok st -> exists st', flush_copy_range file splice st = Ok st' /\ ds_run st' = None /\ ds_chunks st' = ds_chunks st /\ same st st' /\ shown st' = shown st.
Proof.
  intros Hh. unfold flush_copy_range, held_ok, shown, held in *. destruct (ds_run st) as [[s e]|] eqn:E.
  - destruct Hh as (_ & -> & Hc). eexists. split; [done|]. split_and!; [done|done|by repeat split|]. cbn. rewrite Hc. cbn. by rewrite !app_nil_r.
  - exists st. split; [done|]. rewrite E. by repeat split.
Qed.

Lemma flush_passthrough_ok st :
  ds_run st = None -> idle (flush_passthrough_buf st) /\ same st (flush_passthrough_buf st) /\ shown (flush_passthrough_buf st) = shown st.
Proof. intros Hr. unfold idle, shown, held, flush_passthrough_buf. cbn. rewrite Hr. cbn. rewrite app_nil_r. by repeat split. Qed.

Lemma same_trans st1 st2 st3 : same st1 st2 -> same st2 st3 -> same st1 st3.
Proof. unfold same. intuition congruence. Qed.

Lemma flush_both st :
  held_ok st -> exists st', flush_copy_range file splice st = Ok st' /\ let st2 := flush_passthrough_buf st' in
    idle st2 /\ same st st2 /\ shown st2 = shown st.
Proof.
  intros Hh. destruct (flush_copy_ok st Hh) as (st' & E & Hr & _ & Hs & Hv). exists st'. split; [done|].
  destruct (flush_passthrough_ok st' Hr) as (H1 & H2 & H3). split_and!; [done|by eapply same_trans|congruence].
Qed.

(** ** The invariant

    [P] is the set of places the drain has passed: the output holds the base
    elements [past] and the upserts in [P], and nothing else. *)

Definition closed (P : Place -> Prop) : Prop := forall a b, place_le a b -> P b -> P a.

Lemma closed_lt P a b : closed P -> P a -> ~ P b -> place_lt a b.
Proof. intros Hc Ha Hb. apply place_not_le. intros Hle. by apply Hb, (Hc b a). Qed.

Record good (past : list Place) (P : Place -> Prop) (st : DrainState) : Prop := {
  g_held : held_ok st;
  g_sorted : StronglySorted (ev_lt d) (shown st);
  g_base k id : EvBase k id ∈ shown st <-> (k, id) ∈ past /\ untouched d (k, id);
  g_osc k i : EvOsc k i ∈ shown st <-> (i < pget (ds_cursors st) k)%nat;
  g_past e : e ∈ past -> P e;
  g_bound k : (pget (ds_cursors st) k <= length (upserts d k))%nat;
  g_cut k j : (j < length (upserts d k))%nat -> (j < pget (ds_cursors st) k)%nat <-> P (k, upserts d k !!! j);
  g_counted : counted (ds_stats st) (shown st);
  g_deleted : ms_deleted (ds_stats st) = total (del_count d) past }.

Lemma good_shown_in past P st a : good past P st -> a ∈ shown st -> P (ev_place d a).
Proof.
  intros Hg Ha. destruct a as [k id|k i]; cbn.
  - apply (g_base _ _ _ Hg) in Ha as [Ha _]. by apply (g_past _ _ _ Hg).
  - apply (g_osc _ _ _ Hg) in Ha. apply (g_cut _ _ _ Hg); [pose proof (g_bound _ _ _ Hg k); lia|done].
Qed.

(** Flushing what is held back changes nothing. *)
Lemma good_same past P st st' : same st st' -> shown st' = shown st -> held_ok st' -> good past P st -> good past P st'.
Proof. intros (H1 & H2 & H3 & H4) Hs Hh []. split; rewrite ?Hs, ?H2, ?H3, ?H4; done. Qed.

Lemma idle_held st : idle st -> held_ok st.
Proof. intros [H _]. unfold held_ok. by rewrite H. Qed.

(** A larger set with the same upserts. *)
Lemma good_widen past (P P' : Place -> Prop) st :
  (forall p, P p -> P' p) -> (forall k j, (j < length (upserts d k))%nat -> P' (k, upserts d k !!! j) -> P (k, upserts d k !!! j)) ->
  good past P st -> good past P' st.
Proof.
  intros H1 H2 Hg. destruct Hg as [? ? ? ? Hp ? Hc ? ?]. split; try done.
  - intros e He. by apply H1, Hp.
  - intros k j Hj. rewrite Hc by done. split; [apply H1|by apply H2].
Qed.

(** The one way the output grows: elements of kind [k] past [P], and the
    upserts of [k] from its cursor on. *)
Lemma good_append past es (P P' : Place -> Prop) st st' k c' evs :
  good past P st -> closed P -> (forall p, P p -> P' p) -> (forall e, e ∈ es -> ~ P e /\ P' e) ->
  adds d k es (pget (ds_cursors st) k) c' evs -> (pget (ds_cursors st) k <= c' <= length (upserts d k))%nat ->
  (forall k' j, (j < length (upserts d k'))%nat ->
    (if decide (k' = k) then (j < c')%nat else P (k', upserts d k' !!! j)) <-> P' (k', upserts d k' !!! j)) ->
  shown st' = shown st ++ evs -> held_ok st' -> ds_cursors st' = pset (ds_cursors st) k c' ->
  counted (ds_stats st') (shown st') ->
  ms_deleted (ds_stats st') = ms_deleted (ds_stats st) + total (del_count d) es ->
  good (past ++ es) P' st'.
Proof.
  intros Hg Hcl HPP Hes Ha Hc Hcut Hs Hh Hcu Hcnt Hdel.
  assert (forall b, b ∈ evs -> ~ P (ev_place d b)) as Hnew.
  { intros [k' id|k' i] Hb; cbn.
    - apply (ad_base _ _ _ _ _ _ Ha) in Hb as [Hb _]. by apply Hes.
    - apply (ad_osc _ _ _ _ _ _ Ha) in Hb as [-> Hb]. intros HP. apply (g_cut _ _ _ Hg) in HP; lia. }
  split; [done| | | | | | |done|].
  - rewrite Hs. apply StronglySorted_app_intro; [apply Hg|apply Ha|]. intros a b Hin Hb. apply (closed_lt P); [done|by eapply good_shown_in|by apply Hnew].
  - intros k' id. rewrite Hs, !elem_of_app, (g_base _ _ _ Hg), (ad_base _ _ _ _ _ _ Ha). naive_solver.
  - intros k' i. rewrite Hs, elem_of_app, (g_osc _ _ _ Hg), (ad_osc _ _ _ _ _ _ Ha), Hcu, pget_pset. case_decide as Hk; [subst k'|naive_solver].
    split; [intros [?|[_ ?]]; lia|]. intros ?. destruct (decide (i < pget (ds_cursors st) k)%nat); [by left|right; split; [done|lia]].
  - intros e [He|He]%elem_of_app; [by apply HPP, (g_past _ _ _ Hg)|by apply Hes].
  - intros k'. rewrite Hcu, pget_pset. case_decide; [subst; lia|apply Hg].
  - intros k' j Hj. rewrite <- Hcut by done. rewrite Hcu, pget_pset. case_decide; [done|by apply Hg].
  - rewrite Hdel, (g_deleted _ _ _ Hg), total_app. done.
Qed.

Lemma counted_run s evs k a n : counted s evs -> counted (add_diff s k (Z.of_nat n)) (evs ++ (EvOsc k <$> seq a n)).
Proof.
  intros Hc k'. destruct (Hc k') as [H1 H2]. rewrite !total_app. cbn [ms_base ms_diff add_diff]. rewrite pget_pset, H1.
  assert (total (base_of k') (EvOsc k <$> seq a n) = 0) as -> by (clear; revert a; induction n as [|n IH]; intros a; [done|]; cbn [seq]; rewrite fmap_cons, total_cons, IH; done).
  assert (total (osc_of k') (EvOsc k <$> seq a n) = if decide (k' = k) then Z.of_nat n else 0) as ->.
  { clear. revert a. induction n as [|n IH]; intros a; cbn [seq]; [by case_decide|]. rewrite fmap_cons, total_cons, IH. cbn. case_decide; lia. }
  case_decide; [subst|]; lia.
Qed.

(** A run of creates moves a kind's cursor to [c']. *)
Lemma good_emit past (P P' : Place -> Prop) st k c' :
  good past P st -> idle st -> closed P -> (forall p, P p -> P' p) -> (pget (ds_cursors st) k <= c' <= length (upserts d k))%nat ->
  (forall k' j, (j < length (upserts d k'))%nat ->
    (if decide (k' = k) then (j < c')%nat else P (k', upserts d k' !!! j)) <-> P' (k', upserts d k' !!! j)) ->
  let st' := create_emit executor (set_cursors st k c') k (pget (ds_cursors st) k) c' in
  good past P' st' /\ idle st' /\ (ds_watermark st' = ds_watermark st /\ ds_last_type st' = ds_last_type st) /\ ds_cursors st' = pset (ds_cursors st) k c'.
Proof.
  intros Hg Hi Hcl HPP Hc Hcut. cbn zeta. set (c := pget (ds_cursors st) k) in *.
  assert (exists evs n, create_emit executor (set_cursors st k c') k c c' =
      mkDrain (ds_last_type st) (pset (ds_cursors st) k c') (ds_run st) (ds_chunks st) (ds_watermark st) (ds_out st ++ evs) n /\
    evs = EvOsc k <$> seq c (c' - c) /\ ms_deleted n = ms_deleted (ds_stats st) /\ counted n (shown st ++ evs)) as (evs & n & -> & Hev & Hdel & Hcnt).
  { unfold create_emit. destruct (Nat.leb_spec c' c) as [Hle|Hlt].
    - exists [], (ds_stats st). rewrite !app_nil_r. replace (c' - c)%nat with 0%nat by lia. split_and!; try done. apply Hg.
    - rewrite write_run_events. eexists _, _. split; [done|]. split_and!; [done|done|]. rewrite length_fmap, length_seq. apply counted_run, Hg. }
  split; [|done]. rewrite <- (app_nil_r past). eapply (good_append past [] P P' st _ k c' evs); try done.
  - by intros ? ?%elem_of_nil.
  - rewrite Hev. apply adds_run; [done|lia].
  - rewrite (idle_shown st Hi). by rewrite idle_shown.
  - by apply idle_held.
  - rewrite (idle_shown st Hi) in Hcnt. by rewrite idle_shown.
  - cbn. rewrite Hdel. lia.
Qed.

(** ** The steps of the drain *)

(** The order watermark stands at a place the drain has passed. *)
Definition mark_in (P : Place -> Prop) (st : DrainState) : Prop :=
  forall o key, OsmId.last (ds_watermark st) = Some (o, key) -> exists k l, o = ordinal k /\ key = osm_id_key l /\ P (k, l).

Definition kinds_before (k : ElementKind) (p : Place) : Prop := ordinal p.1 < ordinal k.

(** Every upsert of the kinds before [k] is written. *)
Definition complete_before (P : Place -> Prop) (k : ElementKind) : Prop :=
  forall k' j, ordinal k' < ordinal k -> (j < length (upserts d k'))%nat -> P (k', upserts d k' !!! j).

Definition with_kind (P : Place -> Prop) (k : ElementKind) (p : Place) : Prop := P p \/ ordinal p.1 <= ordinal k.

Lemma closed_with_kind P k : closed P -> closed (with_kind P k).
Proof. intros Hc a b Hab [Hb|Hb]; [left; by apply (Hc a b)|right]. destruct Hab as [?|[-> _]]; lia. Qed.

Lemma closed_kinds_before k : closed (kinds_before k).
Proof. intros a b [?|[E _]]; unfold kinds_before; [lia|by rewrite E]. Qed.

Lemma with_kind_cut past P st k k' j :
  good past P st -> complete_before P k -> (j < length (upserts d k'))%nat ->
  (if decide (k' = k) then (j < length (upserts d k))%nat else P (k', upserts d k' !!! j)) <-> with_kind P k (k', upserts d k' !!! j).
Proof.
  intros Hg Hcb Hj. unfold with_kind. cbn. case_decide as Hk; [subst; split; [right; lia|done]|]. split; [by left|]. intros [?|Hle]; [done|].
  apply Hcb; [|done]. destruct (Z.eq_dec (ordinal k') (ordinal k)) as [E%ordinal_inj|]; [done|lia].
Qed.

Lemma emit_rest_ok past P st k :
  good past P st -> idle st -> closed P -> complete_before P k ->
  let st' := emit_rest executor d st k in
  good past (with_kind P k) st' /\ idle st' /\ ds_watermark st' = ds_watermark st.
Proof.
  intros Hg Hi Hcl Hcb. unfold emit_rest.
  destruct (good_emit past P (with_kind P k) st k (length (upserts d k))) as (H1 & H2 & [H3 _] & _); [done|done|done|by left| | |done].
  - split; [apply Hg|done].
  - intros k' j Hj. by eapply with_kind_cut.
Qed.

Lemma transition_ok past P st prev next :
  good past P st -> closed P -> complete_before P prev -> ordinal prev < ordinal next -> (forall p, P p -> ordinal p.1 <= ordinal prev) ->
  exists st', handle_type_transition file executor d splice st prev next = Ok st' /\
    good past (kinds_before next) st' /\ ds_watermark st' = ds_watermark st.
Proof.
  intros Hg Hcl Hcb Hlt HP. destruct (flush_both st (g_held _ _ _ Hg)) as (st1 & E & Hi & Hs & Hv). unfold handle_type_transition. rewrite E.
  cbn [mbind result_bind]. set (st2 := flush_passthrough_buf st1) in *.
  assert (good past P st2) as Hg2 by (eapply good_same; [done|done|by apply idle_held|done]).
  destruct (emit_rest_ok past P st2 prev Hg2 Hi Hcl Hcb) as (Hg3 & Hi3 & Hw3). eexists. split; [done|]. unfold flush_remaining_upserts.
  destruct Hs as (_ & _ & Hs & _). rewrite <- Hs, <- Hw3. set (st3 := emit_rest executor d st2 prev) in *.
  assert (ordinal next = ordinal prev + 1 -> good past (kinds_before next) st3) as Hnext.
  { intros Hn. eapply good_widen; [| |exact Hg3]; unfold kinds_before, with_kind.
    - intros p [?%HP|?]; lia.
    - intros k' j _ ?. right. cbn in *. lia. }
  destruct prev, next; cbn in Hlt; try lia; cbn [decide decide_rel ElementKind_eq_dec]; repeat case_decide; try done; try (split; [by apply Hnext|done]).
  destruct (emit_rest_ok past (with_kind P Node) st3 Way Hg3 Hi3) as (Hg4 & _ & Hw4); [by apply closed_with_kind| |].
  - intros k' j Hk _. right. cbn in *. lia.
  - split; [|done]. eapply good_widen; [| |exact Hg4]; unfold kinds_before, with_kind; cbn.
    + intros p [[?%HP|?]|?]; cbn in *; lia.
    + intros k' j _ ?. right. lia.
Qed.

Lemma key_max_ge a b : key_le b a -> key_max a b = a.
Proof. intros H. unfold key_max. destruct (key_ltb b a) eqn:E; [done|]. apply key_ltb_ge in E. by apply key_le_antisym. Qed.

(** The order guard passes a blob, or a create, past everything written. *)
Lemma check_order_ok (P : Place -> Prop) st k x l :
  mark_in P st -> closed P -> ~ P (k, x) -> id_le x l ->
  exists w, check_output_order st k (osm_id_key x) (osm_id_key l) = Ok (set_watermark st w) /\ OsmId.last w = Some (ordinal k, osm_id_key l).
Proof.
  intros Hm Hcl Hx Hl. unfold check_output_order, observe_keys. destruct (OsmId.last (ds_watermark st)) as [[o key]|] eqn:E.
  - destruct (Hm o key E) as (k0 & l0 & -> & -> & H0). pose proof (closed_lt P _ _ Hcl H0 Hx) as Hlt. rewrite (key_max_ge (osm_id_key l)) by exact Hl.
    destruct Hlt as [Hlt|[Hk Hlt]]; cbn in *.
    + destruct (Z.ltb_spec (ordinal k) (ordinal k0)); [lia|]. destruct (Z.eqb_spec (ordinal k) (ordinal k0)); [lia|]. cbn. by eexists.
    + subst k0. rewrite Z.ltb_irrefl, Z.eqb_refl. assert (key_ltb (osm_id_key x) (osm_id_key l0) = false) as -> by (apply key_ltb_ge; by apply id_lt_le).
      cbn. rewrite key_max_ge; [by eexists|]. apply id_lt_le. by eapply id_lt_le_trans.
  - eexists. split; [done|]. cbn. by rewrite key_max_ge.
Qed.

Definition with_gap (P : Place -> Prop) (k : ElementKind) (g : Z) (p : Place) : Prop := P p \/ place_lt p (k, g).

Lemma closed_with_gap P k g : closed P -> closed (with_gap P k g).
Proof. intros Hc a b Hab [Hb|Hb]; [left; by apply (Hc a b)|right]. by eapply place_le_lt_trans. Qed.

Lemma gap_cut past P st k g l a e k' j :
  good past P st -> complete_before P k -> cuts d k g l a e -> (pget (ds_cursors st) k <= a)%nat -> (j < length (upserts d k'))%nat ->
  (if decide (k' = k) then (j < a)%nat else P (k', upserts d k' !!! j)) <-> with_gap P k g (k', upserts d k' !!! j).
Proof.
  intros Hg Hcb Hc Hca Hj. unfold with_gap, place_lt. cbn. case_decide as Hk.
  - subst k'. rewrite (cu_gap _ _ _ _ _ _ Hc) by done. split; [tauto|]. intros [HP|[?|[_ ?]]]; [|lia|done].
    apply (g_cut _ _ _ Hg) in HP; [|done]. apply (cu_gap _ _ _ _ _ _ Hc); [done|lia].
  - split; [tauto|]. intros [?|[?|[? _]]]; [done|by apply Hcb|done].
Qed.

(** [emit_gap_creates] ends the run where the gap does. *)
Lemma gap_point k g l a e c :
  cuts d k g l a e -> (c <= a)%nat -> (c + partition_point (fun id => id_ltb id g) (drop c (upserts d k)) = a)%nat.
Proof.
  intros Hc Hca. pose proof (cu_order _ _ _ _ _ _ Hc) as Ho. set (q := fun id => id_ltb id g).
  assert (partitioned q (drop c (upserts d k))) as Hq.
  { intros i j x y Hij Hi' Hj'. rewrite lookup_drop in Hi', Hj'. unfold q. rewrite !id_ltb_lt. apply id_le_lt_trans.
    eapply sorted_lookup_le; [apply Hd|done|done|lia]. }
  destruct (partition_point_spec q _ Hq) as (Hn & Hpt & Hpf). set (n := partition_point q (drop c (upserts d k))) in *. rewrite length_drop in Hn.
  destruct (Nat.lt_trichotomy (c + n) a) as [Hl|[?|Hl]]; [|done|]; exfalso.
  - assert (upserts d k !! (c + n)%nat = Some (upserts d k !!! (c + n)%nat)) as Hx' by (apply list_lookup_lookup_total_lt; lia).
    assert (q (upserts d k !!! (c + n)%nat) = false) as Hf by (apply (Hpf n); [lia|by rewrite lookup_drop]).
    assert (q (upserts d k !!! (c + n)%nat) = true) by (apply id_ltb_lt, (cu_gap _ _ _ _ _ _ Hc); lia). congruence.
  - assert (upserts d k !! a = Some (upserts d k !!! a)) as Hx' by (apply list_lookup_lookup_total_lt; lia).
    assert (q (upserts d k !!! a) = true) as Hf by (apply (Hpt (a - c)%nat); [lia|]; rewrite lookup_drop; by replace (c + (a - c))%nat with a by lia).
    apply id_ltb_lt, (cu_gap _ _ _ _ _ _ Hc) in Hf; lia.
Qed.

Lemma gap_ok past P st k g l a e :
  good past P st -> closed P -> complete_before P k -> cuts d k g l a e -> (pget (ds_cursors st) k <= a)%nat ->
  exists st', handle_gap_creates file executor d splice st k g = Ok st' /\ good past (with_gap P k g) st' /\
    pget (ds_cursors st') k = a /\ ds_watermark st' = ds_watermark st /\ ds_last_type st' = ds_last_type st.
Proof.
  intros Hg Hcl Hcb Hc Hca. pose proof (cu_order _ _ _ _ _ _ Hc) as Ho. unfold handle_gap_creates, has_gap_creates. set (c := pget (ds_cursors st) k) in *.
  destruct (decide (c < a)%nat) as [Hlt|Hge].
  - assert (upserts d k !! c = Some (upserts d k !!! c)) as Hx by (apply list_lookup_lookup_total_lt; lia).
    rewrite Hx. assert (id_ltb (upserts d k !!! c) g = true) as -> by (apply id_ltb_lt, (cu_gap _ _ _ _ _ _ Hc); lia). cbn [negb].
    destruct (flush_both st (g_held _ _ _ Hg)) as (st1 & E & Hi & Hs & Hv). rewrite E. cbn [mbind result_bind]. set (st2 := flush_passthrough_buf st1) in *.
    assert (good past P st2) as Hg2 by (eapply good_same; [done|done|by apply idle_held|done]). destruct Hs as (Hlt' & Hcu & Hwm & _).
    eexists. split; [done|]. unfold emit_gap_creates.
    assert (pget (ds_cursors st2) k + partition_point (fun id => id_ltb id g) (drop (pget (ds_cursors st2) k) (upserts d k)) = a)%nat as ->.
    { rewrite Hcu. by apply (gap_point k g l a e). }
    destruct (good_emit past P (with_gap P k g) st2 k a) as (H1 & H2 & [H3 H3'] & H4); [done|done|done|by left|rewrite Hcu; fold c; lia| |].
    + intros k' j Hj. eapply gap_cut; [exact Hg2|done|done|by rewrite Hcu|done].
    + split_and!; [done|by rewrite H4, pget_pset, decide_True|congruence|congruence].
  - assert (c = a) as Hca' by lia. exists st. split.
    + destruct (upserts d k !! c) as [x|] eqn:Hx; [|done]. assert (upserts d k !!! c = x) as Ht by (by rewrite list_lookup_total_alt, Hx).
      destruct (id_ltb x g) eqn:El; [|done]. apply id_ltb_lt in El. rewrite <- Ht in El. apply (cu_gap _ _ _ _ _ _ Hc) in El; [lia|by eapply lookup_lt_Some].
    + split_and!; [|done|done|done]. eapply good_widen; [by left| |exact Hg]. intros k' j Hj Hw. eapply gap_cut in Hw; [|done..].
      case_decide; [|done]. subst k'. apply (g_cut _ _ _ Hg); [done|]. fold c. lia.
Qed.

(** *** Copied ranges *)

(** Frames stand one after another in the input. *)
Definition layout : Prop :=
  StronglySorted (fun x y => b_start x + b_len x <= b_start y) file /\ Forall (fun b => 0 < b_len b) file.

Lemma frames_extend pre b post s :
  layout -> file = pre ++ b :: post -> s <= b_start b ->
  frames_between file s (b_start b + b_len b) = frames_between file s (b_start b) ++ frame_of b.
Proof.
  intros [Hs Hl] Hf Hsb. unfold frames_between. rewrite Hf in *. apply StronglySorted_app_le in Hs as (_ & Hpost & Hpre).
  apply StronglySorted_inv in Hpost as [_ Hpost]. apply Forall_app in Hl as [Hl1 [Hlb _]%Forall_cons].
  rewrite !filter_app, !filter_cons. destruct (decide (s <= b_start b < b_start b + b_len b)); [|lia]. destruct (decide (s <= b_start b < b_start b)); [lia|].
  assert (forall e, e <= b_start b + b_len b -> filter (fun b0 => s <= b_start b0 < e) post = []) as Hno.
  { intros e He. apply filter_none. eapply Forall_impl; [exact Hpost|]. cbn. lia. }
  rewrite !Hno by lia. rewrite app_nil_r, !fmap_app, !join_app. cbn. rewrite app_nil_r. f_equal. f_equal. f_equal. apply filter_ext_in.
  intros x Hx. pose proof (Hpre x b Hx ltac:(left)) as Hxb. eapply Forall_forall in Hl1; [|exact Hx]. cbn in *. lia.
Qed.

Lemma frames_empty s : frames_between file s s = [].
Proof. unfold frames_between. rewrite filter_none; [done|]. apply Forall_forall. lia. Qed.

(** *** Writing an item *)

Lemma cursor_past_ok k g l a e c fuel :
  cuts d k g l a e -> (c <= e)%nat -> (e <= fuel + c)%nat -> cursor_past fuel (upserts d k) l c = e.
Proof.
  intros Hc. pose proof (cu_order _ _ _ _ _ _ Hc) as Ho. revert c. induction fuel as [|fuel IH]; intros c Hce Hf; cbn [cursor_past]; [lia|].
  destruct (upserts d k !! c) as [x|] eqn:Hx.
  - assert (upserts d k !!! c = x) as Ht by (by rewrite list_lookup_total_alt, Hx). pose proof (cu_last _ _ _ _ _ _ Hc c ltac:(by eapply lookup_lt_Some)) as Hl.
    rewrite Ht in Hl. rewrite <- key_leb_le in Hl. destruct (key_leb (osm_id_key x) l) eqn:E; [apply IH; [|lia]|].
    + assert (c < e)%nat by (by apply Hl). lia.
    + destruct (decide (c < e)%nat) as [Hlt|]; [|lia]. apply Hl in Hlt. done.
  - apply lookup_ge_None in Hx. lia.
Qed.

Lemma counted_blobs s evs a b c : counted s evs -> counted (add_blobs s a b c) evs.
Proof. done. Qed.

Lemma counted_frame s evs b k (ids : list Z) :
  b_elems b = pair k <$> ids -> counted s evs -> counted (add_base s k (Z.of_nat (length (b_elems b)))) (evs ++ frame_of b).
Proof.
  intros He Hc k'. destruct (Hc k') as [H1 H2]. rewrite !total_app. cbn [ms_base ms_diff add_base]. rewrite pget_pset, H2. unfold frame_of. rewrite He.
  assert (total (osc_of k') ((fun e => EvBase e.1 e.2) <$> (pair k <$> ids)) = 0 /\
    total (base_of k') ((fun e => EvBase e.1 e.2) <$> (pair k <$> ids)) = if decide (k' = k) then Z.of_nat (length (pair k <$> ids)) else 0) as [-> ->].
  { clear. induction ids as [|x ids [IH1 IH2]]; [by split; [|case_decide]|]. rewrite !fmap_cons, !total_cons, IH1, IH2. split; [done|].
    cbn [base_of fst snd length]. case_decide; lia. }
  case_decide; [subst|]; lia.
Qed.

Lemma counted_merge s1 s2 evs1 evs2 : counted s1 evs1 -> counted s2 evs2 -> counted (merge_from s1 s2) (evs1 ++ evs2).
Proof. intros H1 H2 k. rewrite !total_app. destruct (H1 k) as [<- <-], (H2 k) as [<- <-]. by destruct k. Qed.

(** A passed-through frame joins what is held back. *)
Lemma copy_shown st b pre post r f cnt k :
  layout -> file = pre ++ b :: post -> held_ok st -> splice = true ->
  exists st', dispatch_variant file d splice st (CopyRange (b_start b) (b_len b) k r f cnt) =
      Ok (set_stats st' (add_base (add_blobs (ds_stats st) 1 0 1) k cnt)) /\
    shown st' = shown st ++ frame_of b /\ held_ok st' /\ same st st'.
Proof.
  intros Hlay Hf Hh Hsp. unfold dispatch_variant. rewrite Hsp. cbn [negb].
  assert (0 < b_len b) as Hlen. { destruct Hlay as [_ Hl]. rewrite Hf in Hl. by apply Forall_app in Hl as [_ [Hl _]%Forall_cons]. }
  assert (frames_between file (b_start b) (b_start b + b_len b) = frame_of b) as Hone.
  { rewrite (frames_extend pre b post) by done. by rewrite frames_empty. }
  unfold held_ok in Hh. destruct (ds_run st) as [[s e]|] eqn:Er; cbn [flush_passthrough_buf write_raw set_chunks ds_run]; rewrite Er.
  - destruct Hh as (Hse & _ & Hch). destruct (Z.eqb_spec e (b_start b)) as [->|Hne].
    + eexists. split; [done|]. split_and!; [|by cbn; split_and!; try lia|by repeat split].
      unfold shown, held. cbn. rewrite Er, Hch. cbn. rewrite !app_nil_r, <- app_assoc. f_equal. by apply (frames_extend pre b post).
    + unfold flush_copy_range. cbn [flush_passthrough_buf write_raw set_chunks ds_run]. rewrite Er. cbn [mbind result_bind]. eexists. split; [done|].
      split_and!; [|by cbn; split_and!; try lia|by repeat split]. unfold shown, held. cbn. by rewrite Er, Hch, Hone, !app_nil_r.
  - unfold flush_copy_range. cbn [flush_passthrough_buf write_raw set_chunks ds_run]. rewrite Er. cbn [mbind result_bind]. eexists. split; [done|].
    split_and!; [|by cbn; split_and!; try lia|by repeat split]. unfold shown, held. cbn. by rewrite Er, Hone, !app_nil_r.
Qed.

Lemma owned_shown st frame len r f cnt k v :
  held_ok st ->
  exists st', dispatch_variant file d splice st (OwnedBytes frame len k r f cnt v) =
      Ok (set_stats st' (add_base (add_blobs (ds_stats st) 1 0 (if v : bool then 1 else 0)) k cnt)) /\
    shown st' = shown st ++ frame /\ held_ok st' /\ same st st'.
Proof.
  intros Hh. destruct (flush_copy_ok st Hh) as (st1 & E & Hr & Hch & Hs & Hv). unfold dispatch_variant. rewrite E. cbn [mbind result_bind].
  set (st2 := set_chunks st1 (ds_chunks st1 ++ [(len, frame)])).
  assert (shown st2 = shown st ++ frame /\ held_ok st2 /\ same st st2 /\ ds_run st2 = None) as (H1 & H2 & H3 & H4).
  { rewrite <- Hv. unfold shown, held, held_ok. cbn. rewrite Hr. cbn. rewrite fmap_app, join_app. cbn. rewrite app_nil_r, app_assoc. done. }
  destruct Hs as (_ & _ & _ & Hst). destruct (_ <=? _).
  - destruct (flush_passthrough_ok st2 H4) as (Hi & Hs2 & Hv2). exists (flush_passthrough_buf st2).
    split; [cbn; by rewrite Hst|]. split_and!; [congruence|by apply idle_held|by eapply same_trans].
  - exists st2. split; [cbn; by rewrite Hst|done].
Qed.

(** What writing an item does to the state. *)
Lemma dispatch_shown st b pre post k (ids : list Z) item p a e :
  layout -> file = pre ++ b :: post -> b_elems b = pair k <$> ids -> held_ok st -> counted (ds_stats st) (shown st) ->
  serves d splice b k ids item p a e -> pget (ds_cursors st) k = a ->
  exists st', dispatch_variant file d splice st item = Ok st' /\ shown st' = shown st ++ item_body b item /\ held_ok st' /\
    ds_cursors st' = pset (ds_cursors st) k e /\ ds_watermark st' = ds_watermark st /\ ds_last_type st' = ds_last_type st /\
    counted (ds_stats st') (shown st') /\ ms_deleted (ds_stats st') = ms_deleted (ds_stats st) + item_deleted item.
Proof.
  intros Hlay Hf He Hh Hcnt Hsv Hca.
  destruct item as [s len k0 r f cnt|frame len k0 r f cnt v|frames k0 r f stats|]; [..|by destruct (sv_shape _ _ _ _ _ _ _ _ _ Hsv)].
  all: pose proof (sv_place _ _ _ _ _ _ _ _ _ Hsv) as Hpl; pose proof (sv_kind _ _ _ _ _ _ _ _ _ Hsv) as Hk; cbn in Hpl; injection Hpl as <-; cbn in Hk; subst k0.
  all: pose proof (sv_shape _ _ _ _ _ _ _ _ _ Hsv) as Hsh; cbn in Hsh.
  - destruct Hsh as (Hsp & -> & -> & <- & ->). destruct (copy_shown st b pre post r f (Z.of_nat (length (b_elems b))) k Hlay Hf Hh Hsp) as (st' & -> & Hv & Hh' & H1 & H2 & H3 & H4).
    eexists. split; [done|]. cbn [set_stats ds_cursors ds_watermark ds_last_type ds_stats item_body item_deleted]. rewrite H2, <- Hca, pset_pget.
    change (shown (set_stats st' _)) with (shown st'). rewrite Hv. split_and!; try done; [by eapply counted_frame, counted_blobs|cbn; lia].
  - destruct Hsh as (-> & <- & ->). destruct (owned_shown st (frame_of b) len r f (Z.of_nat (length (b_elems b))) k v Hh) as (st' & -> & Hv & Hh' & H1 & H2 & H3 & H4).
    eexists. split; [done|]. cbn [set_stats ds_cursors ds_watermark ds_last_type ds_stats item_body item_deleted]. rewrite H2, <- Hca, pset_pget.
    change (shown (set_stats st' _)) with (shown st'). rewrite Hv. split_and!; try done; [by eapply counted_frame, counted_blobs|cbn; lia].
  - destruct (flush_both st Hh) as (st1 & E & Hi & Hs & Hv). unfold dispatch_variant. rewrite E. cbn [mbind result_bind]. set (st2 := flush_passthrough_buf st1) in *.
    destruct Hs as (H1 & H2 & H3 & H4). eexists. split; [done|].
    cbn [set_cursors set_stats write_raw ds_cursors ds_watermark ds_last_type ds_stats item_body item_deleted].
    pose proof (sv_cuts _ _ _ _ _ _ _ _ _ Hsv) as Hc. pose proof (cu_order _ _ _ _ _ _ Hc). cbn in Hc.
    rewrite H2, H4, (cursor_past_ok k _ _ a e _ _ Hc) by lia.
    assert (shown (set_cursors (set_stats (write_raw st2 frames) (merge_from (add_blobs (ds_stats st) 0 1 0) stats)) k e) = shown st ++ frames) as Hsn.
    { rewrite idle_shown by exact Hi. cbn. by rewrite <- Hv, (idle_shown st2 Hi). }
    split_and!; [exact Hsn|by apply idle_held|done|done|done| |done].
    pose proof (counted_merge _ _ (shown st) frames (counted_blobs _ _ 0 1 0 Hcnt) Hsh) as Hm. rewrite <- Hsn in Hm. exact Hm.
Qed.

(** *** One item *)

Definition at_place (past : list Place) : Place -> Prop :=
  match list.last past with None => fun _ => False | Some q => fun p => place_le p q end.

(** After the blobs of the elements [past]. *)
Record after (past : list Place) (st : DrainState) : Prop := {
  af_good : good past (at_place past) st;
  af_mark : mark_in (at_place past) st;
  af_type : ds_last_type st = fst <$> list.last past }.

Lemma closed_place_le q : closed (fun p => place_le p q).
Proof.
  intros a b [?|[E1 H1]] [?|[E2 H2]]; [left; lia|left; congruence|left; congruence|right]. split; [congruence|by eapply key_le_trans].
Qed.

Lemma mark_widen (P P' : Place -> Prop) st st' :
  (forall p, P p -> P' p) -> ds_watermark st' = ds_watermark st -> mark_in P st -> mark_in P' st'.
Proof. intros HP Hw Hm o key Ho. rewrite Hw in Ho. destruct (Hm o key Ho) as (k & l & -> & -> & ?). exists k, l. split_and!; [done|done|by apply HP]. Qed.

(** No create belongs before the first blob's kind. *)
Definition lead_ok (past : list Place) (k : ElementKind) : Prop :=
  past = [] -> forall k', ordinal k' < ordinal k -> upserts d k' = [].

(** The type transition leaves the drain ready for a blob of kind [k]. *)
Lemma enter_kind past st k (ids : list Z) :
  after past st -> ids <> [] -> StronglySorted place_lt (past ++ (pair k <$> ids)) -> lead_ok past k ->
  exists st1 P, match ds_last_type st with
      | Some prev => if decide (prev = k) then Ok st else handle_type_transition file executor d splice st prev k
      | None => Ok st
      end = Ok st1 /\
    good past P st1 /\ mark_in P st1 /\ closed P /\ complete_before P k /\ (forall p x, P p -> x ∈ ids -> place_lt p (k, x)).
Proof.
  intros [Hg Hm Ht] Hne Hs Hlead. apply StronglySorted_app_le in Hs as (_ & _ & Hs). rewrite Ht. unfold at_place in *.
  destruct (list.last past) as [[k0 l0]|] eqn:El; cbn.
  2:{ apply last_None in El as ->. exists st, (kinds_before k). split_and!; [done| | |apply closed_kinds_before| |intros; by left].
    - eapply good_widen; [| |exact Hg]; [done|]. intros k' j Hj Hk. rewrite (Hlead eq_refl k' Hk) in Hj. cbn in Hj. lia.
    - eapply mark_widen; [| |exact Hm]; done.
    - intros k' j Hk _. exact Hk. }
  assert (forall x, x ∈ ids -> place_lt (k0, l0) (k, x)) as Hx.
  { intros x Hx. apply Hs; [by apply last_Some_elem_of|by apply elem_of_pairs]. }
  case_decide as Hk.
  - subst k0. exists st, (fun p => place_le p (k, l0)). split_and!; [done|done|done|apply closed_place_le| |].
    + intros k' j Hk _. by left.
    + intros p x Hp Hin. eapply place_le_lt_trans; [exact Hp|by apply Hx].
  - assert (ordinal k0 < ordinal k) as Hlt. { destruct ids as [|x ids]; [done|]. destruct (Hx x ltac:(left)) as [?|[? _]]; [done|by cbn in *]. }
    destruct (transition_ok past (fun p => place_le p (k0, l0)) st k0 k) as (st1 & E & Hg1 & Hw); [done|apply closed_place_le| |done| |].
    { intros k' j Hk' _. by left. } { intros p [?|[-> _]]; cbn in *; lia. }
    exists st1, (kinds_before k). split_and!; [done|done| |apply closed_kinds_before|by intros k' j ?|intros; by left].
    eapply mark_widen; [| |exact Hm]; [|done]. intros p [?|[E' _]]; unfold kinds_before; cbn in *; [lia|by rewrite E'].
Qed.

(** The cursor never passes the gap. *)
Lemma cursor_before_gap past P st b k (ids : list Z) item p a e :
  good past P st -> serves d splice b k ids item p a e -> ids <> [] -> (forall q x, P q -> x ∈ ids -> place_lt q (k, x)) ->
  (pget (ds_cursors st) k <= a)%nat.
Proof.
  intros Hg Hsv Hne HP. destruct (decide (pget (ds_cursors st) k <= a)%nat) as [|Hn]; [done|]. exfalso.
  pose proof (g_bound _ _ _ Hg k). pose proof (sv_cuts _ _ _ _ _ _ _ _ _ Hsv) as Hc. pose proof (cu_order _ _ _ _ _ _ Hc).
  assert (forall x, x ∈ ids -> id_lt (upserts d k !!! a) x) as Hlt.
  { intros x Hx. destruct (HP (k, upserts d k !!! a) x) as [?|[_ ?]]; [apply (g_cut _ _ _ Hg); lia|done|cbn in *; lia|done]. }
  destruct (sv_decoded _ _ _ _ _ _ _ _ _ Hsv) as [->|Hin].
  - destruct (list.last ids) as [l|] eqn:El; [|by apply last_None in El]. assert (e < e)%nat; [|lia]. apply (cu_last _ _ _ _ _ _ Hc); [lia|].
    rewrite (sv_last _ _ _ _ _ _ _ _ _ Hsv l El). apply id_lt_le, Hlt. by apply last_Some_elem_of.
  - assert (a < a)%nat; [|lia]. apply (cu_gap _ _ _ _ _ _ Hc); [lia|]. by apply Hlt.
Qed.

Lemma good_marked past P st k w : good past P st -> good past P (set_watermark (set_last_type st k) w).
Proof. intros Hg. by destruct Hg; split. Qed.

(** The item itself, after the creates before it. *)
Lemma body_ok past P st b pre post k (ids : list Z) item p a e l :
  layout -> file = pre ++ b :: post -> b_elems b = pair k <$> ids -> serves d splice b k ids item p a e -> list.last ids = Some l ->
  sorted_ids ids -> good past (with_gap P k (gap_bound p)) st -> closed P -> complete_before P k ->
  (forall q x, P q -> x ∈ ids -> place_lt q (k, x)) -> pget (ds_cursors st) k = a ->
  exists st', dispatch_variant file d splice st item = Ok st' /\ good (past ++ b_elems b) (fun q => place_le q (k, l)) st' /\
    ds_watermark st' = ds_watermark st /\ ds_last_type st' = ds_last_type st.
Proof.
  intros Hlay Hf He Hsv Hl Hso Hg Hcl Hcb HP Hca.
  destruct (dispatch_shown st b pre post k ids item p a e) as (st' & E & Hv & Hh & Hcu & Hw & Ht & Hn & Hdel);
    [done|done|done|apply Hg|apply Hg|done|done|]. exists st'. split_and!; [done| |done|done].
  pose proof (sv_cuts _ _ _ _ _ _ _ _ _ Hsv) as Hc. pose proof (cu_order _ _ _ _ _ _ Hc) as Ho.
  assert (l ∈ ids) as Hlin by (by apply last_Some_elem_of).
  pose proof (fun x => sorted_last_le ids l x Hso Hl) as Hle.
  assert (forall q, with_gap P k (gap_bound p) q -> place_le q (k, l)) as Hsub.
  { intros q [Hq|Hq]; [by apply place_lt_le, HP|]. apply place_lt_le. eapply place_lt_le_trans; [exact Hq|]. right. split; [done|].
    by apply (sv_gap _ _ _ _ _ _ _ _ _ Hsv). }
  rewrite He. eapply (good_append past _ _ _ st st' k e (item_body b item)); try done.
  - by apply closed_with_gap.
  - intros [k' x] [-> Hx]%elem_of_pairs. split; [|right; split; [done|by apply Hle]]. intros [Hq|[?|[_ Hq]]]; cbn in *; [|lia|].
    + by apply (place_lt_irrefl (k, x)), HP.
    + apply (id_lt_irrefl x). eapply id_lt_le_trans; [exact Hq|]. by apply (sv_gap _ _ _ _ _ _ _ _ _ Hsv).
  - rewrite Hca. apply Hsv.
  - lia.
  - intros k' j Hj. case_decide as Hk.
    + subst k'. rewrite (cu_last _ _ _ _ _ _ Hc j Hj), (sv_last _ _ _ _ _ _ _ _ _ Hsv l Hl). split; [intros H; right; by split|]. intros [?|[_ ?]]; cbn in *; [lia|done].
    + split; [apply Hsub|]. intros [Hlt|[Hk' _]]; [|done]. left. by apply Hcb.
  - by rewrite Hdel, (sv_deleted _ _ _ _ _ _ _ _ _ Hsv).
Qed.

(** One blob's item. *)
Lemma process_ok past st b pre post k (ids : list Z) item p a e :
  layout -> file = pre ++ b :: post -> b_elems b = pair k <$> ids -> ids <> [] -> serves d splice b k ids item p a e ->
  after past st -> StronglySorted place_lt (past ++ b_elems b) -> lead_ok past k ->
  exists st', process_item file executor d splice st item = Ok st' /\ after (past ++ b_elems b) st'.
Proof.
  intros Hlay Hf He Hne Hsv Haf Hs Hlead. rewrite He in Hs.
  destruct (enter_kind past st k ids Haf Hne Hs Hlead) as (st1 & P & E1 & Hg1 & Hm1 & Hcl & Hcb & HP).
  assert (sorted_ids ids) as Hso by (by apply StronglySorted_app_le in Hs as (_ & Hs%sorted_pairs & _)).
  destruct (list.last ids) as [l|] eqn:El; [|by apply last_None in El]. assert (l ∈ ids) as Hlin by (by apply last_Some_elem_of).
  destruct (sv_first _ _ _ _ _ _ _ _ _ Hsv) as (x & Hx & Hfk).
  destruct (check_order_ok P (set_last_type st1 k) k x l) as (w & Ew & Hwl); [exact Hm1|done|intros HPx; by apply (place_lt_irrefl (k, x)), HP|by apply (sorted_last_le ids)|].
  destruct (gap_ok past P (set_watermark (set_last_type st1 k) w) k (gap_bound p) (blob_osm_last_key (pl_range p).1 (pl_range p).2) a e) as (st2 & E2 & Hg2 & Hca & Hw2 & Ht2);
    [by apply good_marked|done|done|apply Hsv|by eapply (cursor_before_gap past P st1)|].
  destruct (body_ok past P st2 b pre post k ids item p a e l) as (st' & E3 & Hg3 & Hw3 & Ht3); [done..|].
  unfold process_item. rewrite (sv_place _ _ _ _ _ _ _ _ _ Hsv), (sv_kind _ _ _ _ _ _ _ _ _ Hsv).
  pose proof (sv_last _ _ _ _ _ _ _ _ _ Hsv l El) as Hlk. pose proof (sv_range _ _ _ _ _ _ _ _ _ Hsv) as Hrg. destruct (pl_range p) as [mn mx] eqn:Epr.
  cbn [fst snd] in *. rewrite E1. cbn [mbind result_bind]. rewrite (proj2 (Z.leb_le mn mx) Hrg), Hfk, Hlk, Ew. cbn [mbind result_bind]. rewrite E2. cbn [mbind result_bind]. rewrite E3.
  eexists. split; [done|].
  assert (list.last (past ++ b_elems b) = Some (k, l)) as Hlast.
  { rewrite last_app, He. apply last_Some in El as [ids' ->]. rewrite fmap_app. cbn [fmap list_fmap]. by rewrite last_snoc. }
  split; unfold at_place; rewrite ?Hlast; [done| |by rewrite Ht3, Ht2].
  intros o key Ho. rewrite Hw3, Hw2 in Ho. cbn in Ho. rewrite Hwl in Ho. injection Ho as <- <-. exists k, l. split_and!; [done|done|apply place_le_refl].
Qed.

(** *** The end of the stream *)

Lemma check_run_ok (P : Place -> Prop) st k ids :
  mark_in P st -> closed P -> sorted_ids ids -> (forall x, x ∈ ids -> ~ P (k, x)) ->
  exists w, check_run st k ids = Ok (set_watermark st w) /\ mark_in (with_kind P k) (set_watermark st w).
Proof.
  intros Hm Hcl Hs. revert P st Hm Hcl. induction Hs as [|x ids Hs IH Hx]; intros P st Hm Hcl Hn; cbn [check_run].
  { exists (ds_watermark st). split; [by destruct st|]. eapply mark_widen; [by left|done|exact Hm]. }
  destruct (check_order_ok P st k x x) as (w & -> & Hw); [done|done|apply Hn; left|apply key_le_refl|]. cbn [mbind result_bind].
  set (Q := fun q => P q \/ place_le q (k, x)). destruct (IH Q (set_watermark st w)) as (w' & -> & Hw').
  - intros o key Ho. cbn in Ho. rewrite Hw in Ho. injection Ho as <- <-. exists k, x. split_and!; [done|done|right; apply place_le_refl].
  - intros a b Hab [Hb|Hb]; [left; by apply (Hcl a b)|right; by eapply closed_place_le].
  - intros y Hy [HP|Hle]; [apply (Hn y); [by right|done]|]. apply place_not_le in Hle; [done|]. right. split; [done|]. by eapply Forall_forall in Hx.
  - exists w'. split; [done|]. eapply mark_widen; [|done|exact Hw']. intros q [[Hq|[?|[E _]]]|Hq]; [by left|right; cbn in *; lia|right; cbn in E; by rewrite E|by right].
Qed.

Lemma trailing_ok past P st k :
  good past P st -> idle st -> mark_in P st -> closed P -> complete_before P k ->
  exists st', trailing_creates executor d st k = Ok st' /\ good past (with_kind P k) st' /\ idle st' /\ mark_in (with_kind P k) st'.
Proof.
  intros Hg Hi Hm Hcl Hcb. unfold trailing_creates. set (c := pget (ds_cursors st) k).
  assert (sorted_ids (drop c (upserts d k))) as Hs.
  { pose proof (do_upserts d Hd k) as Hs. rewrite <- (take_drop c (upserts d k)) in Hs. by apply StronglySorted_app_le in Hs as (_ & Hs & _). }
  destruct (check_run_ok P st k (drop c (upserts d k))) as (w & -> & Hw); [done|done|done| |].
  { intros x (j & Hj)%list_elem_of_lookup. rewrite lookup_drop in Hj. intros HP.
    assert (upserts d k !!! (c + j)%nat = x) as <- by (by rewrite list_lookup_total_alt, Hj).
    apply (g_cut _ _ _ Hg) in HP; [unfold c in *; lia|by eapply lookup_lt_Some]. }
  cbn [mbind result_bind]. assert (good past P (set_watermark st w)) as Hgw by (by destruct Hg; split).
  assert (set_cursors (create_emit executor (set_watermark st w) k c (length (upserts d k))) k (length (upserts d k)) =
    create_emit executor (set_cursors (set_watermark st w) k (length (upserts d k))) k (pget (ds_cursors (set_watermark st w)) k) (length (upserts d k))) as ->.
  { cbn [set_watermark ds_cursors]. fold c. unfold create_emit. by case_match. }
  destruct (good_emit past P (with_kind P k) (set_watermark st w) k (length (upserts d k))) as (H1 & H2 & [H3 _] & _); [done|done|done|by left| | |].
  - split; [apply Hgw|done].
  - intros k' j Hj. by eapply with_kind_cut.
  - eexists. split; [done|]. split_and!; [done|apply H2|]. eapply mark_widen; [|exact H3|exact Hw]. done.
Qed.

Lemma trailing_all_ok past P st k ks :
  good past P st -> idle st -> mark_in P st -> closed P -> complete_before P k ->
  (k = Node /\ ks = [Node; Way; Relation] \/ k = Way /\ ks = [Way; Relation] \/ k = Relation /\ ks = [Relation]) ->
  exists st' P', trailing_all executor d st ks = Ok st' /\ good past P' st' /\ idle st' /\ (forall p, P' p).
Proof.
  assert (forall P k k', ordinal k' = ordinal k + 1 -> complete_before (with_kind P k) k') as Hnext.
  { intros Q k1 k2 Hk k3 j Hlt _. right. cbn. lia. }
  assert (forall P st, good past P st -> idle st -> mark_in P st -> closed P -> complete_before P Relation ->
    exists st' P', trailing_all executor d st [Relation] = Ok st' /\ good past P' st' /\ idle st' /\ (forall p, P' p)) as HR.
  { intros P0 st0 Hg Hi Hm Hcl Hcb. destruct (trailing_ok past P0 st0 Relation Hg Hi Hm Hcl Hcb) as (st1 & E & H1 & H2 & _). cbn [trailing_all]. rewrite E.
    exists st1, (with_kind P0 Relation). split_and!; [done|done|apply H2|]. intros [[] ?]; right; cbn; lia. }
  assert (forall P st, good past P st -> idle st -> mark_in P st -> closed P -> complete_before P Way ->
    exists st' P', trailing_all executor d st [Way; Relation] = Ok st' /\ good past P' st' /\ idle st' /\ (forall p, P' p)) as HW.
  { intros P0 st0 Hg Hi Hm Hcl Hcb. destruct (trailing_ok past P0 st0 Way Hg Hi Hm Hcl Hcb) as (st1 & E & H1 & H2 & H3).
    cbn [trailing_all]. rewrite E. cbn [mbind result_bind]. by apply (HR (with_kind P0 Way)); [..|apply closed_with_kind|apply Hnext]. }
  intros Hg Hi Hm Hcl Hcb [[-> ->]|[[-> ->]|[-> ->]]]; [|by eapply HW|by eapply HR].
  destruct (trailing_ok past P st Node Hg Hi Hm Hcl Hcb) as (st1 & E & H1 & H2 & H3).
  cbn [trailing_all]. rewrite E. cbn [mbind result_bind]. by apply (HW (with_kind P Node)); [..|apply closed_with_kind|apply Hnext].
Qed.

(** What the finished output holds. *)
Record merged (past : list Place) (st : DrainState) : Prop := {
  mg_sorted : StronglySorted (ev_lt d) (ds_out st);
  mg_base k id : EvBase k id ∈ ds_out st <-> (k, id) ∈ past /\ id ∉ upserts d k /\ id ∉ deleted d k;
  mg_osc k i : EvOsc k i ∈ ds_out st <-> (i < length (upserts d k))%nat;
  mg_counted : counted (ds_stats st) (ds_out st);
  mg_deleted : ms_deleted (ds_stats st) = total (del_count d) past }.

Lemma drain_end_ok past st : after past st -> exists st', drain_end file executor d splice st = Ok st' /\ merged past st'.
Proof.
  intros [Hg Hm Ht]. destruct (flush_both st (g_held _ _ _ Hg)) as (st1 & E & Hi & Hs & Hv). unfold drain_end. rewrite E. cbn [mbind result_bind].
  set (st2 := flush_passthrough_buf st1) in *. pose proof Hs as (Hlt & _ & Hw & _).
  assert (good past (at_place past) st2) as Hg2 by (eapply good_same; [done|done|by apply idle_held|done]).
  assert (mark_in (at_place past) st2) as Hm2 by (eapply mark_widen; [|exact Hw|exact Hm]; done).
  assert (ds_last_type st1 = fst <$> list.last past) as -> by (rewrite <- Ht; exact Hlt).
  assert (closed (at_place past)) as Hcl. { unfold at_place. destruct (list.last past); [apply closed_place_le|by intros ? ? ?]. }
  destruct (trailing_all_ok past (at_place past) st2 (default Node (fst <$> list.last past)) (types_to_flush (fst <$> list.last past))) as (st' & P' & -> & Hg' & Hi' & HP');
    [done|done|done|done| |destruct (list.last past) as [[[] ?]|]; cbn; tauto|].
  { intros k' j Hk _. unfold at_place. destruct (list.last past) as [[k l]|]; cbn in Hk; [by left|]. destruct k'; cbn in Hk; lia. }
  exists st'. split; [done|]. split; rewrite <- ?(idle_shown st' Hi'); [apply Hg'|apply Hg'| |apply Hg'|apply Hg'].
  intros k i. rewrite (g_osc _ _ _ Hg'). pose proof (g_bound _ _ _ Hg' k). split; [lia|]. intros Hlt'. apply (g_cut _ _ _ Hg'); [done|apply HP'].
Qed.

(** *** The whole run *)

Definition no_leading_creates : Prop :=
  match head (elems_of file) with
  | Some (k, _) => forall k', ordinal k' < ordinal k -> upserts d k' = []
  | None => True
  end.

Lemma blobs_ok pre todo st :
  layout -> file = pre ++ todo -> Forall honest file -> StronglySorted place_lt (elems_of file) -> no_leading_creates -> after (elems_of pre) st ->
  exists items st', items_of d splice todo = Ok items /\ process_all file executor d splice st items = Ok st' /\ after (elems_of file) st'.
Proof.
  intros Hlay. revert pre st. induction todo as [|b todo IH]; intros pre st Hf Hh Hs Hld Haf; cbn [items_of].
  { exists [], st. rewrite app_nil_r in Hf. subst pre. done. }
  assert (honest b) as Hb by (rewrite Forall_forall in Hh; apply Hh; rewrite Hf; set_solver).
  assert (elems_of (pre ++ [b]) = elems_of pre ++ b_elems b) as Hsn by (unfold elems_of; rewrite bind_app; cbn; by rewrite app_nil_r).
  assert (elems_of file = (elems_of pre ++ b_elems b) ++ elems_of todo) as Hall by (rewrite Hf; unfold elems_of; rewrite bind_app; cbn; by rewrite app_assoc).
  assert (StronglySorted place_lt (elems_of pre ++ b_elems b)) as Hsb by (rewrite Hall in Hs; by apply StronglySorted_app_le in Hs as (Hs & _)).
  assert (exists item st1, blob_item d splice b = Ok item /\ process_item file executor d splice st item = Ok st1 /\ after (elems_of (pre ++ [b])) st1)
    as (item & st1 & E1 & E2 & Haf1).
  { rewrite Hsn. destruct (honest_kind b Hb) as [k He]. destruct (decide (blob_ids b = [])) as [Hnil|Hne].
    - rewrite Hnil in He. cbn in He. exists Omitted, st. rewrite He, app_nil_r. split_and!; [by apply empty_item|done|done].
    - pose proof Hsb as (_ & Hsk & _)%StronglySorted_app_le. rewrite He in Hsk. apply sorted_pairs in Hsk.
      destruct (blob_item_ok d Hd splice b Hb Hsk Hne) as (k' & item & p & a & e & He' & Ei & Hsv).
      destruct (process_ok (elems_of pre) st b pre todo k' (blob_ids b) item p a e) as (st1 & Ep & Haf1); try done; [|by exists item, st1].
      intros Hpre k0 Hk0. unfold no_leading_creates in Hld. rewrite Hall, Hpre, He' in Hld. destruct (blob_ids b); [done|]. by apply Hld. }
  rewrite E1. cbn [mbind result_bind]. destruct (IH (pre ++ [b]) st1) as (items & st' & -> & E3 & Haf'); [by rewrite <- app_assoc|done|done|done|done|].
  exists (item :: items), st'. cbn [process_all mbind result_bind]. by rewrite E2.
Qed.

Lemma after_new : after [] drain_new.
Proof.
  split; [|by intros o key|done]. split; cbn; try done.
  - constructor.
  - intros k id. rewrite elem_of_nil. split; [done|]. by intros [?%elem_of_nil _].
  - intros k i. rewrite elem_of_nil. destruct k; cbn; lia.
  - by intros e ?%elem_of_nil.
  - intros []; cbn; lia.
  - intros [] j Hj; cbn; lia.
  - by intros [].
Qed.

Lemma merge_ok :
  layout -> Forall honest file -> StronglySorted place_lt (elems_of file) -> no_leading_creates ->
  exists items, items_of d splice file = Ok items /\ forall arrivals, arrivals ≡ₚ imap pair items ->
    exists st, run_drain file executor d splice arrivals = Ok st /\ merged (elems_of file) st.
Proof.
  intros Hlay Hh Hs Hld. destruct (blobs_ok [] file drain_new Hlay eq_refl Hh Hs Hld after_new) as (items & st & Ei & Ep & Haf).
  exists items. split; [done|]. intros arrivals Ha. rewrite (drain_in_order file executor d splice items arrivals Ha), Ep. cbn [mbind result_bind].
  by apply drain_end_ok.
Qed.
End Merge.

(** ** From the changes to the file *)

Lemma diff_ok_parse cs o : overlay_is o cs -> diff_ok (into_sorted o).
Proof.
  intros Ho. split; [apply sorted_upserts|apply sorted_deleted|]. intros k id.
  rewrite (po_upserts _ _ _ (sorted_diff_spec cs o k Ho)), (po_deleted _ _ _ (sorted_diff_spec cs o k Ho)). naive_solver.
Qed.

Lemma untouched_none cs o k id :
  overlay_is o cs -> id ∉ upserts (into_sorted o) k /\ id ∉ deleted (into_sorted o) k <-> last_change k id cs = None.
Proof.
  intros Ho. rewrite (po_upserts _ _ _ (sorted_diff_spec cs o k Ho)), (po_deleted _ _ _ (sorted_diff_spec cs o k Ho)).
  destruct (last_change k id cs) as [[]|]; naive_solver.
Qed.

(** The merge, for an overlay that holds the changes [cs]. *)
Lemma merges_changes (cs : list Change) (o : CompactDiffOverlay) (file : list Blob) (executor splice : bool) :
  overlay_is o cs ->
  layout file -> Forall honest file -> StronglySorted place_lt (elems_of file) -> no_leading_creates file (into_sorted o) ->
  let d := into_sorted o in
  exists items, items_of d splice file = Ok items /\ forall arrivals, arrivals ≡ₚ imap pair items ->
    exists st, run_drain file executor d splice arrivals = Ok st /\
      StronglySorted (ev_lt d) (ds_out st) /\
      (forall k id, EvBase k id ∈ ds_out st <-> (k, id) ∈ elems_of file /\ last_change k id cs = None) /\
      (forall k id e, last_change k id cs = Some (Upsert e) ->
        exists i r, EvOsc k i ∈ ds_out st /\ upserts d k !! i = Some id /\ sd_record d k i = Some r /\ get o k id = Some (Some r)) /\
      (forall k i, EvOsc k i ∈ ds_out st -> exists id e, upserts d k !! i = Some id /\ last_change k id cs = Some (Upsert e)) /\
      counted (ds_stats st) (ds_out st) /\ ms_deleted (ds_stats st) = total (del_count d) (elems_of file).
Proof.
  intros Ho Hlay Hh Hs Hld d.
  destruct (merge_ok file executor d splice (diff_ok_parse cs o Ho) Hlay Hh Hs Hld) as (items & Ei & Hrest).
  exists items. split; [done|]. intros arrivals Ha. destruct (Hrest arrivals Ha) as (st & Er & [M1 M2 M3 M4 M5]). exists st.
  split_and!; [done|done| | | |done|done].
  - intros k id. rewrite M2. pose proof (untouched_none cs o k id Ho) as Hu. unfold d. tauto.
  - intros k id e He. pose proof (sorted_diff_spec cs o k Ho) as [Hu _ Hr].
    assert (id ∈ upserts d k) as [i Hi]%list_elem_of_lookup by (apply Hu; by exists e).
    destruct (Hr i id Hi) as (r & Hr1 & Hr2). exists i, r. split_and!; [|done|done|done]. apply M3. by eapply lookup_lt_Some.
  - intros k i Hin%M3. destruct (lookup_lt_is_Some_2 _ _ Hin) as [id Hid]. exists id.
    destruct (proj1 (po_upserts _ _ _ (sorted_diff_spec cs o k Ho) id)) as [e He]; [by eapply list_elem_of_lookup_2|by exists e].
Qed.


(** A base of two node blobs and a way blob; a diff that replaces node 3,
    deletes node 5, and creates nodes 4 and 7 and way 9. *)
Definition sample_base : list Blob :=
  [mkBlob 100 50 (Some {| kind := Node; min_id := 1; max_id := 5; count := 3; bbox := None |}) None 0 [(Node, 1); (Node, 3); (Node, 5)];
   mkBlob 150 40 (Some {| kind := Node; min_id := 8; max_id := 8; count := 1; bbox := None |}) None 0 [(Node, 8)];
   mkBlob 190 30 (Some {| kind := Way; min_id := 2; max_id := 2; count := 1; bbox := None |}) None 0 [(Way, 2)]].

Definition sample_diff : list Change :=
  [Upsert (PNode 7 1 2 [] ArenaMeta_default); Upsert (PNode 3 5 6 [] ArenaMeta_default); Delete Node 5 ArenaMeta_default;
   Upsert (PNode 4 8 9 [] ArenaMeta_default); Upsert (PWay 9 [] [] ArenaMeta_default)].

Lemma sample_diff_ok : Forall change_ok sample_diff.
Proof. repeat (constructor; [try done; repeat split; cbn; try lia; repeat constructor; try done; cbn; unfold is_u, utf8; try lia|]); constructor. Qed.

Lemma sample_base_ok : layout sample_base /\ Forall honest sample_base /\ StronglySorted place_lt (elems_of sample_base).
Proof.
  split_and!.
  - split; repeat (constructor; try (cbn; lia)).
  - repeat constructor; cbn; try lia; try done; set_solver.
  - repeat (constructor; try (cbn; first [by left|right; split; [done|vm_compute; auto]])).
Qed.

(** The whole run on the sample, the items arriving in reverse. *)
Example sample_merge :
  (items ← items_of (into_sorted (apply_all (overlay_over interner_new false) sample_diff).1) true sample_base;
   st ← run_drain sample_base false (into_sorted (apply_all (overlay_over interner_new false) sample_diff).1) true (reverse (imap pair items));
   Ok (ds_out st)) =
  Ok [EvBase Node 1; EvOsc Node 0; EvOsc Node 1; EvOsc Node 2; EvBase Node 8; EvBase Way 2; EvOsc Way 0].
Proof. vm_compute. reflexivity. Qed.


(** ** Creates before the base's first kind *)


