(* ===== verification/ApplyDocument.v ===== *)
(** * From a change document to the merged file

    The stages of apply-changes composed: the document is driven into the
    overlay, the overlay is sorted, and the base's blobs are merged with it. *)

From S2P Require Import Prelude ElementKind OsmId BlobMeta.
From S2P Require Import OscInterner VersionFloor OscArena OscOverlay OscXml OscLex OscDoc OscCompact OscRead.
From S2P Require Import SortedDiff ApplyRewrite ApplyDrain ApplySchedule ApplyItems ApplyMerge.

(** The last change a document makes to an object. *)
Abbreviation last_said k id ocs := (list.last (history oc_key (k, id) ocs)).

Section ApplyDocument.
Context `{QuickXml} `{!QuickXmlLaws}.

Lemma holds_last o ss cs ocs k id :
  holds o ss cs ocs ->
  match last_change k id cs, last_said k id ocs with
  | Some (Upsert p), Some (OUpsert v _) => packs ss p v
  | Some (Delete _ _ _), Some (ODelete _ _ _) | None, None => True
  | _, _ => False
  end.
Proof.
  intros [_ _ Hp]. pose proof (Forall2_last _ _ _ (packs_history ss (k, id) cs ocs Hp)) as Hl.
  destruct (list.last (history change_key (k, id) cs)) as [[e|k0 id0 m]|], (last_said k id ocs) as [[v cl|k1 id1 cl]|]; try done. apply Hl.
Qed.

Lemma accept_all allow before xs taken :
  accept allow before xs = (taken, Ok tt) -> exists ocs, mapM read_object xs = Ok ocs /\ taken = before ++ ocs.
Proof.
  revert before. induction xs as [|x xs IH]; intros before; cbn [accept mapM].
  { intros [= <-]. exists []. by rewrite app_nil_r. }
  destruct (read_object x) as [c|]; [|done]. destruct (passes allow before c); [|done]. intros (ocs & E & ->)%IH.
  exists (c :: ocs). cbn [mbind result_bind]. rewrite E, <- app_assoc. done.
Qed.

End ApplyDocument.

Import RefXml.

